(* ===== verification/_CoqProject ===== *)
-Q . S2P
Prelude.v
Machine.v
Errors.v
Types.v
Stage.v
StageFacts.v
StageSteps.v
Graph.v
GraphSteps.v
LostExecutor.v
Retained.v
GraphFacts.v
Held.v
Binding.v
BindingFacts.v
Coalesce.v
Kll.v
KllFacts.v
KllStream.v
KllOps.v
KllQuery.v
SortKey.v
SortKeyFacts.v
KeySketch.v
Range.v
RangeFacts.v
RangeRouting.v
RangeIndex.v
RangeIndexFacts.v
RuntimeStats.v
RuntimeStatsFacts.v
DataSample.v
RangeTheorems.v
RangeFileTheorems.v
SortShuffle.v
SortShuffleFacts.v
SortShuffleLayout.v
SortShuffleCoordinator.v
Transfer.v
TransferFacts.v
ShuffleSample.v
SortShuffleTheorems.v
TransferTheorems.v
CacheRegistry.v
JobState.v
Cluster.v
ClusterFacts.v
TaskManager.v
Executor.v
Scheduler.v
SchedulerFacts.v
Sample.v
JobTheorems.v
ClusterTheorems.v
StateTheorems.v
SchedulerTheorems.v
KllTheorems.v
SortKeyTheorems.v
PhysicalPlan.v
TaskPlan.v
TaskPlanFacts.v
Planner.v
PlannerFacts.v
ResolutionFacts.v
PlannerRows.v
BuilderFacts.v
PlanSample.v
TaskTheorems.v
PlannerTheorems.v
AdaptivePlan.v
Adapter.v
AdaptivePlanner.v
AdaptiveFacts.v
AdapterFacts.v
AdaptivePlannerFacts.v
AdaptiveOutputs.v
AdaptiveGraph.v
AdaptiveGraphFacts.v
AdaptiveTheorems.v
ExecutorTheorems.v
