(* ===== verification/Prelude.v ===== *)
(** * Verification of the Ballista scheduler

    Ballista runs DataFusion queries on a cluster. The scheduler cuts a physical
    plan into stages connected by shuffles, keeps the execution graph of each
    job, hands slices of partitions to executors, and reacts to the statuses that
    executors report and to executors that disappear. This development models
    the part of the scheduler that decides: the cut of a plan into stages, at
    once or while the job runs, the stages and the execution graphs, the plans of tasks,
    task binding, the cluster and job states, the managers of tasks and executors and the
    event handler over them, the registry of cached datasets, the packing
    of shuffle partitions, and the classification of task errors; and range
    shuffles end to end: the quantile sketches from which ranges are cut, the
    statistics that carry them, the delivery of files to ranges, the filter of a
    range, and the index by which a file is read in part; and sort shuffles end to
    end: the write of a task, its file and index, and how a reader gets a partition
    of it on the same host or over the network; and how an executor takes tasks, runs
    them and reports them. Paths below are relative to
    [src/ballista/].

    ** How the parts interact

    The planner ([scheduler/src/planner.rs], [Planner]) lowers the joins of a physical
    plan ([PhysicalPlan]) and cuts it where rows change partitions: the plan below a cut
    becomes a stage under a shuffle writer, and a shuffle that is not resolved yet takes
    its place. [ExecutionStageBuilder] ([Planner]) finds which stage reads which, and
    [StaticExecutionGraph::new] ([Planner]) makes the graph of the job. When the inputs
    of a stage are there its shuffles are replaced by readers, and put back when they are
    lost ([Planner]). For a task the plan of its stage is restricted to a slice of
    partitions ([scheduler/src/state/task_builder.rs], [TaskPlan]), and the shuffle writer
    ([core/src/execution_plans/shuffle_writer.rs], [TaskPlan]) gives the partitions of the
    restricted plan the ids they have in the stage.

    An executor polls the scheduler for tasks ([executor/src/execution_loop.rs],
    [Executor]) or is sent them ([executor/src/executor_server.rs], [Executor]), keeps a
    handle of each to cancel it ([executor/src/executor.rs], [Executor]), turns the error of
    a task into a [FailedTask] ([core/src/error.rs], [Errors]) and reports a [TaskStatus]
    ([executor/src/lib.rs], [Executor]), with the next poll or by a reporter. The
    event handler ([scheduler/src/scheduler_server/query_stage_scheduler.rs] over
    [scheduler/src/state/mod.rs], [Scheduler]) gives back the vcores of the tasks
    and passes the statuses to the task manager
    ([scheduler/src/state/task_manager.rs], [TaskManager]), which passes those of a
    job to [update_task_status] of its graph
    ([scheduler/src/state/execution_graph.rs], [Graph]). The graph updates the
    stages ([scheduler/src/state/execution_stage.rs], [Stage]), collects the stages
    that change state and applies the transitions; the events it returns are
    handled in turn. A round of offers picks the executors that are alive
    ([scheduler/src/state/executor_manager.rs], [Scheduler.ExecutorManager]); a
    binding round ([scheduler/src/cluster/mod.rs], [Binding]) fetches running stages
    from the graphs and turns vcores of executors into tasks; the vcores are kept
    by [InMemoryClusterState] ([scheduler/src/cluster/memory.rs], [Cluster]). The
    tasks are launched by a spawned future. [InMemoryJobState] (same file,
    [JobState]) holds the status of jobs that other threads read. The registry of
    cached datasets ([scheduler/src/state/cache_registry.rs], [CacheRegistry])
    decides which job materializes a dataset.

    With adaptive execution the plan of a job stays whole and gets its stage boundaries
    one after the other ([scheduler/src/state/aqe/]). [DistributedExchangeRule] places an
    [ExchangeExec] where rows change partitions, unless a boundary below is not resolved
    yet; copies of such a node share the cells that hold its stage id and its partitions
    ([AdaptivePlan]). The planner ([planner.rs], [AdaptivePlanner]) hands out the lowest
    open boundaries as stages, collects the locations their tasks report, resolves the
    boundary when the last task is in, and plans again. For each stage
    [CoalescePartitionsRule] packs small shuffle partitions ([Adapter]; the algorithm,
    [coalesce/algorithm.rs], is [Coalesce]) and the adapter ([adapter.rs], [Adapter]) puts
    readers in the place of resolved boundaries and a writer on top. The execution graph
    over the planner ([mod.rs], [AdaptiveGraph]) is a copy of the static one in which a
    stage that completes asks the planner for the next stages.

    Executors sketch the sort key of their input
    ([core/src/sort_key.rs], [SortKey]) with the quantile sketch of
    [core/src/kll.rs] ([Kll]); the operator that does so and its reports are in
    [core/src/execution_plans/runtime_stats.rs] ([RuntimeStats]). The scheduler merges
    the reports of a stage, cuts the key into ranges ([repartition_routing] of
    [scheduler/src/state/aqe/mod.rs]) and sends each file to the ranges it meets
    ([cut_partitions], [Range]); the filter above the reader
    ([core/src/execution_plans/range_filter.rs], [Range]) keeps the rows of its range.
    A range shuffle file has an index beside it
    ([core/src/execution_plans/range_shuffle/], [RangeIndex]) by which the reader
    selects the batches of a range, locally or as byte ranges of a remote file.

    A task of a sort shuffle ([core/src/execution_plans/sort_shuffle/],
    [SortShuffle]) drains its inputs concurrently: each assigns the rows of its
    batches to output partitions by hash, buffers them and spills under memory
    pressure. When all are drained the coordinator writes one data file, with all
    partitions one after the other, and an index of their offsets, and hands each
    output partition its summary. A reader ([core/src/execution_plans/shuffle_reader.rs],
    [Transfer]) splits the locations of its partition into local and remote ones. It
    opens the local files itself; for a remote one it acquires permits from a
    governor, asks the executor that has the file
    ([executor/src/flight_service.rs], [Transfer]) through the client
    ([core/src/client.rs], [Transfer]), decodes the blocks it is sent, and tries again
    when the transport fails.

    ** How code is translated

    A Rust struct is a record with the names of its fields, an enum an inductive
    type, a [HashMap] a [gmap], a [HashSet] a [gset], a [Vec] a list. A method on
    [&mut self] that can fail is a function of type [M E S A = S → outcome E A * S]
    (this file): [Ok] is a normal return, [Err] the error of the method, [Panic]
    an index out of range or a failed [unwrap], and the state is the one at the
    point of return, also on errors. Methods that cannot fail return a pair. The
    order in which a hash map is iterated is not fixed by the language: it is an
    argument, with the property that it lists every entry once ([MapOrder],
    [ValueOrder], [EntryOrder], [HashOrder]), so the theorems hold for every order.
    Clock readings are arguments, as is a generator of random bits ([Coins]).
    [usize] values are [nat] where they count or index things in memory; [u32]
    vcores, [u64] sizes, weights and keys, the difference of attempt numbers and the
    casts between widths wrap around explicitly, as in a build without overflow checks; [f64] is binary64 of the standard library. Text built with
    [format!] keeps the template and the arguments. Logging is left out.

    A handler of an event returns the state it leaves and a list of effects: the
    events it posts, the futures it spawns, the messages it sends. A future that
    changes the state is a definition of its own, so that the steps of the
    scheduler are the handlers and these futures in any order. Operations on the
    job state that a reader can interrupt return the list of states it can see. Cells
    that copies of a node share are a heap, and a node has the name of its cells. The poll
    loop and the tasks it spawns are one state with a step relation: a step is what one of
    them does between two points at which others can see it, and its label is the task or
    the statuses that pass. [perform] gives the steps as functions.

    Code of other packages is an argument: [Payload] (statistics and metrics that
    are passed through), [PlanOps] (plans and their rewrites, as the stages use them;
    [execution_plans] is the instance that the planner's definitions give),
    [PlanTypes], [PlanProps] with [PlanLaws] (operators, schemas, the partitioning of an
    operator), [RebuildOps] with [RebuildLaws] (rebuilding a node over new children),
    [PlannerOps] with [PlannerLaws] (statistics, swapping a join, the optimizer rule
    EnsureRequirements), [ExecOps] and [BucketOps] with [OperatorLaws] (the rows of
    operators, as a relation, and the hash of a row), [StageOps] (session options and
    optimizer rules), [AdaptiveOps] and [FilterOps] (rebuilding, orderings, statistics of
    scans, range filters), [SessionOps] with [RuleLaws] and [RootLaws] (the adaptive
    optimizer rules before the last one, which only add boundaries and keep the wrapper of
    the plan), [ProgressOps] (what is read from the reports of range and window stages),
    [PrecisionOps] with [PrecisionLaws] (addition of statistics), [BindOps] (the
    shape of a plan and the configured cap), [LaunchOps] (the encoding of plans),
    [ErrorText] (the text of errors), [EngineOps] (setting up a task on an executor), [Ord] (the order of sketched items),
    [WireFormat] (Arrow's IPC stream and the protobuf form of scalars, with their
    round trips), [ScalarOps] with [ScalarLaws] (scalars compare by value, integers
    wrap), [ExprOps] with [ExprLaws] (expressions are evaluated row by row, with SQL's
    logic on NULLs), [RowFormat] with [RowLaws] (Arrow's comparable rows),
    [SortExprNodes] with [SortExprLaws] (the wire form of an ordering), [IndexOps]
    with [IndexLaws] (null scalars and batches), [ShuffleOps] with [ShuffleLaws] (the
    hash of a row, the kernels that gather rows, Arrow's stream writer and reader),
    [BlockOps] with [BlockLaws] (Arrow's stream decoder), [find_root] with its two laws in
    [Errors]. What the network answers to an attempt is an argument too. A distribution policy
    of the user is a [DistributionPolicy]; the theorems on rounds are about the two
    policies of the code.

    ** The files

    - [Prelude] : outcomes, the monad, loops, indexed updates of lists.
    - [Machine] : 64-bit words and binary64.
    - [Errors], [Types] : errors, [FailedTask], the messages of the wire format.
    - [Stage] : [PendingPartitions], [StageOutput], [TaskInfo] and the five stage
      states with all their operations; one module per Rust type.
    - [StageFacts] : the accounting of partitions ([running_wf], [running_ok],
      [finished_wf]), when a stage is successful, re-running a finished stage,
      column statistics, metrics.
    - [StageSteps] : the state machine of a stage as the relations [run_step] and
      [stage_step], and the invariants by rule induction. A [mode] says which
      steps there are: [Lenient] has all; [Retrying] leaves out giving up a task that
      was killed or lost its result; [Strict] leaves out also the reset of a task that
      is not live.
    - [Graph] : [StaticExecutionGraph]; [update_task_status] is split along its
      branches, in the order of the code.
    - [GraphSteps] : every operation of the graph moves its stages along
      [stage_step] ([graph_steps]).
    - [LostExecutor] : termination and result of the loop for a lost executor.
    - [Retained] : the operations that keep the set of stages.
    - [GraphFacts] : picking a stage, the outcome of an update, failures of tasks.
    - [Held] : the vcores that the running tasks of a graph hold, and how the
      operations of the graph change them.
    - [Binding], [BindingFacts] : binding rounds. Both policies are instances of
      the interface [StageLoop], against which the rounds are verified.
    - [Cluster], [ClusterFacts] : the state of the cluster.
    - [CacheRegistry], [JobState], [Coalesce] : model and lemmas of a component.
    - [Executor] : the status of a task, running tasks, the poll loop, the server of an
      executor and its heartbeats.
    - [TaskManager], [Scheduler] : the managers, the state of the scheduler and the
      handlers of its events.
    - [SchedulerFacts] : what handlers and futures do to vcores, to the maps of jobs
      and to the groups of tasks that are launched.
    - [Kll] : the sketch; [KllFacts] : one compaction and the loop of compactions;
      [KllStream] : the error a stream accumulates; [KllOps] : ingest, merging and
      rebuilding; [KllQuery] : the answers, and the sketches of a stream.
    - [SortKey] : encodings, codec, sketch of a column, cuts, wire format;
      [SortKeyFacts] : the arithmetic of keys; [KeySketch] : sketches of a column,
      the ranks of cuts, the round trip.
    - [Range] : scalars and expressions, halos, [RangeFilterExec], the split of a
      batch, [cut_partitions]; [RangeFacts] : binary search, widening, the predicate
      of a range and the fast path; [RangeRouting] : delivery of files, the split,
      a run of the filter.
    - [RangeIndex] : the index of a file, writing it, selecting batches and byte
      ranges; [RangeIndexFacts] : what the index of a written file says, the rows and
      the bytes of a selection.
    - [RuntimeStats] : [RuntimeStatsExec], its report, the merge of reports and the
      routing of a stage; [RuntimeStatsFacts] : reports describe the rows, and the
      cuts of merged reports are keys of the rows.
    - [SortShuffle] : the reducer of hashes, buffers, spilling, the write of an input,
      the index, the file of a task, the coordinator, the reader of a partition;
      [SortShuffleFacts] : the reducer, the rows and NULLs of a partition, one batch;
      [SortShuffleLayout] : the bytes of the file and of its index;
      [SortShuffleCoordinator] : a whole task.
    - [Transfer] : paths, the executor's answers, the client, the shuffle reader and
      its governor; [TransferFacts] : decoding of blocks, both ways to read a
      partition, retries, the invariant of the governor.
    - [ShuffleSample] : a plain hash, plain streams and their decoder, as instances of
      [ShuffleOps] and [BlockOps].
    - [DataSample] : rows of one integer column and plain formats, as instances of
      the interfaces to DataFusion and Arrow.
    - [PhysicalPlan] : plans as trees, their partitioning, and the rows that a partition
      of a plan can give ([exec]).
    - [TaskPlan] : the restriction of a plan to a slice and the ids of the files of a
      task; [TaskPlanFacts] : plans that can be split ([splittable]).
    - [Planner] : joins, stages, shuffles, the builder of stages, the graph of a new job;
      [PlannerFacts] : the shape of lowered joins, the numbers of stages
      ([cuts]), fuel; [ResolutionFacts] : readers in the place of shuffles and back;
      [PlannerRows] : stages that run, and refinement of plans; [BuilderFacts] : the
      links of the stages.
    - [AdaptivePlan] : the boundaries, their cells and the rule that places them;
      [Adapter] : the coalescing rule and the adapter; [AdaptivePlanner] : the planner;
      [AdaptiveGraph] : the graph.
    - [AdaptiveFacts] : plans that the rule is done with ([settled]); [AdapterFacts] : the
      plans of stages, seen from the adaptive plan ([lowered_to]); [AdaptivePlannerFacts] :
      the calls of the planner as steps and the invariant of its states ([consistent]);
      [AdaptiveOutputs] : locations from reports to readers; [AdaptiveGraphFacts] : the
      completion of a stage and the loop for a lost executor.
    - [PlanSample] : a small set of operators, with a query and its stages.
    - [Sample] : concrete instances of the interfaces, sample stages and graphs.
    - [JobTheorems], [ClusterTheorems], [StateTheorems], [SchedulerTheorems],
      [KllTheorems], [SortKeyTheorems], [RangeTheorems], [RangeFileTheorems],
      [SortShuffleTheorems], [TransferTheorems], [PlannerTheorems], [TaskTheorems],
      [AdaptiveTheorems], [ExecutorTheorems] and the end of [Coalesce] : the properties of the
      development and their instances on concrete input.

    ** What is shown

    Planning ([PlannerTheorems]). Planning ends for every plan. The stages form a tree:
    each but the last is read once, by a later one. Running them in order, each on what
    the earlier ones wrote, gives rows the plan can give. The graph of a new job has the
    links that the plans ask for, and the invariants that the theorems on graphs start
    from. Rolling a stage back undoes its resolution.

    Tasks ([TaskTheorems]). Tasks whose slices are ascending and cover a plan that can be
    split write each partition once, with the rows it has in the plan. A slice that is
    not ascending swaps partitions of the branches of a union, and an empty branch of a
    union makes two partitions of a task write one file.

    Adaptive execution ([AdaptiveTheorems]). In every state that calls of the graph lead
    to, stage ids name one boundary each and active stages are open boundaries. Until the
    last stage has finished there are stages to hand out, and these can run: they gather
    from stages that have finished, and nothing else in them moves rows between partitions.
    What tasks report is what the readers of the boundary get, also when partitions are
    coalesced, and a stage that completes leads to a further stage, to the output of the job
    or to one of the errors that [completion_fails] lists. Losing an executor does to the
    stages what it does in the static graph, except that a stage whose rollback fails is
    lost, and makes the planner forget locations only. A finished stage takes no more reports, so that it
    cannot be run again; and coalescing puts sorted files one after the other below an
    operator that merges sorted partitions.

    Jobs ([JobTheorems]). No batch of statuses loses a partition: each is pending or
    in the slice of a task, which is live unless it was reported killed or lost and not
    to be retried. Without such reports and late fetch failures none is held twice; stages
    move only along the state machine and, as long as fetch failures name finished stages,
    stay in the graph; a running stage whose resets are of live tasks is never stuck
    unless a task has failed; the job is failed or finished exactly when it should be; a
    fatal failure fails it, a counted one is retried up to the limit; a lost executor is
    forgotten in finitely many passes, or the plan of a stage cannot be rolled back. [second_fetch_failure_drops_map_stage] is the one case in which a stage
    is lost: a second fetch failure about a map stage that is being run again.

    Binding and cluster ([ClusterTheorems]). A round accounts for every vcore,
    records every task and stops only when vcores or partitions run out; ending its
    tasks undoes it; the maps of the cluster state stay consistent over all operations,
    with rounds of the built-in policies.

    Scheduler ([SchedulerTheorems]). Over every sequence of events and futures
    without rejected launches, fetch failures, updates that end in an error and lost
    executors, what an executor offers and what its running tasks hold add up to its
    vcores; that a rejected launch and a rollback break the sum is shown. A job that ends can be found at every moment;
    a round of offers reaches alive executors, with each task in one group.

    Other state ([StateTheorems], [Coalesce]). Re-running schedules exactly the lost
    partitions; null counts and metrics add up per partition; one job materializes a
    dataset; jobs move forward through the maps, with the window in which a failing
    job is not found; errors are classified through any wrapping; coalesced groups
    partition their input and are closed only when full.

    Sketches ([KllTheorems], [SortKeyTheorems]). However a sketch was built it is
    exact about the length and the extremes of its stream, ingest terminates and
    does not depend on batching, ranks are off by a bounded amount and unbiased, and
    one sweep answers many ranks. Keys order like the values they encode and decode
    to them; cuts are values of the column, in order and balanced; a sketch that is
    sent and read back answers alike.

    Range shuffles ([RangeTheorems], [RangeFileTheorems]). From the batches that pass
    the statistics of each task to the rows that leave the filters, each row is
    delivered once, NULLs included, provided that some row has a key; if none has, the
    filter refuses the bounds; with halos, the files a partition is sent are
    enough for its filter; the fast path of the filter and the split of a batch
    agree with the predicate on each row; a halo that wraps below zero makes the
    delivery panic. Reading a range through the index misses only rows that tie with
    its lower end, which a concrete file shows to happen; the remote read fetches
    the same batches. All are for ascending keys: the operators that repartition by
    range refuse descending ones.

    Sort shuffles ([SortShuffleTheorems]). The reducer that assigns partitions without
    a division is the modulo of 64-bit hashes. A task succeeds where no operation of
    the libraries fails, and its file gives each output partition the rows that hash
    to it, in the order of the inputs, wherever the inputs spill; the counts it
    reports are right. Every receiver is handed out once.

    Reading ([TransferTheorems], the end of [JobTheorems]). The bytes that the executor sends
    for a partition decode to what a reader on its host gets, in whatever blocks they
    come, except for an empty partition at the end of the file; a fetch with retries
    returns one whole attempt; fetches stay within the limits of the governor and do
    not deadlock; a failure in place of the first block is not retried; and the tasks
    of a stage that was rolled back write to the paths of the attempt before.

    Executors ([ExecutorTheorems]). However polls, answers, failures, cancellations and the
    steps of tasks interleave, permits add up to the vcores and each task that was taken has
    exactly one status, or still runs; the tasks at hand are done in finitely many steps, and
    a poll is answered without waiting when the answer is within its offer. Cancelling a key
    reaches the task that executes under it, as long as keys differ. The reporter of pushed
    tasks sends each scheduler its statuses, and the executor ends after five heartbeats in
    a row that fail. Shown to happen: a poll that fails loses the statuses it carried, the
    failure of a task that could not be set up can be ignored by the graph, tasks of several
    vcores overbook the executor, and a key that is used by two attempts leaves a task that
    cannot be cancelled.

    ** Bounds

    [get_running_stage_id] has fuel 2, which [get_running_stage_id_fuel] shows to
    be enough. The loop for a lost executor has as fuel more than [graph_weight],
    the number of locations and tasks on the executor, which each pass decreases.
    The loops of a binding round have as fuel one more than the partitions of the
    stage and the stages of the job; [Cut] marks fuel that ran out and is
    excluded by [bind_tasks_spec]. The classification of an error has its size as
    fuel. [compact_all] has one more than the number of retained items, since every
    compaction drops an item ([compact_all_rounds]); the chunks of a batch are at
    most two more than its items ([chunk_rounds]). Streams are below 2^64 items, the
    range of their count; the bound on ranks and the size of a message are for
    streams below 2^41 items, up to which the capacity of a level does not overflow.
    A binary search has the length of its range as fuel, which halving never uses up
    ([bisect_finds]). Halos are of integer types, within which widening a cut or an
    extreme does not wrap, or zero; stages have fewer than 2^64 rows and 2^32
    partitions, batches that are split fewer than 2^32 rows, the width of their
    row indices. The inputs of a sort shuffle have fewer than 2^32 batches and rows per
    batch, and its file is below 2^63 bytes, the range of an offset; the header of a
    stream is within the 8388608 bytes that the client reads for a schema. Loops over
    decoded blocks have fuel, and the theorems give an amount from which on the result
    is the same. Planning has as fuel four times the height of the plan: a join is
    rewritten at most twice on the way down, and a rewritten one is at most three nodes
    higher ([fuel_enough]). That stages give the rows of the plan is shown for plans that
    repartition by hash only (the scheduler's sessions turn round robin off) and whose
    joins the planner leaves as they are. Packing is verified for sizes that sum up to less
    than 2^64 and at most 2^32 partitions. The stage ids of an adaptive job fit the signed
    64-bit cell of a boundary ([ids_fit]). That the tasks at hand finish is a bound on steps
    ([work]); a task that runs for ever never takes the step that ends it.

    ** What is not modelled

    DataFusion's optimizer and operators, and the optimizer rules copied from it
    ([physical_optimizer]). The adaptive rules that run before [DistributedExchangeRule]
    (dynamic joins, broadcasts, windows, empty inputs) rewrite plans by means of
    DataFusion's optimizer and are an argument of the planner. The states of prefix merges,
    which the graph writes to the plan right before a stage is resolved, are part of the
    completion of a stage and not a step of the planner of their own. gRPC, HTTP,
    timers, metrics and the event log, sessions, the execution of plans on executors and
    their runtimes, the start, registration and shutdown of executors,
    the bytes of Arrow data, failures of file operations, compression, the pool of
    connections, the answer of the flight service to [do_get], the walks over plans
    that find operators, the channels of the repartition operators, the encoding of
    messages other than sketches, and the test-only [pop_next_task]. *)

From stdpp Require Export base gmap strings list fin_maps fin_sets sorting.
From stdpp Require Export options.

Declare Scope ballista_scope.
Delimit Scope ballista_scope with ballista.

(** ** Outcomes of fallible code

    A Rust function returning [Result<A, E>] ends in [Ok a] or [Err e]; indexing
    out of range, [unwrap] on [None] and the like end in [Panic]. *)
Inductive outcome (E A : Type) : Type :=
| Ok (a : A)
| Err (e : E)
| Panic.
Arguments Ok {E A} a.
Arguments Err {E A} e.
Arguments Panic {E A}.

Definition obind {E A B : Type} (o : outcome E A) (k : A → outcome E B) : outcome E B :=
  match o with
  | Ok a => k a
  | Err e => Err e
  | Panic => Panic
  end.

Definition is_ok {E A : Type} (o : outcome E A) : bool :=
  match o with Ok _ => true | _ => false end.

(** A result with a property, or an error, which only happens under [F]; no panic *)
Definition yields {E A : Type} (F : Prop) (o : outcome E A) (Q : A → Prop) : Prop :=
  match o with
  | Ok a => Q a
  | Err _ => F
  | Panic => False
  end.

Lemma yields_bind {E A B : Type} (F : Prop) (o : outcome E A) (k : A → outcome E B) Q R :
  yields F o Q → (∀ a, Q a → yields F (k a) R) → yields F (obind o k) R.
Proof. destruct o; cbn; auto. Qed.

Lemma yields_mono {E A : Type} (F G : Prop) (o : outcome E A) (Q R : A → Prop) :
  yields F o Q → (F → G) → (∀ a, Q a → R a) → yields G o R.
Proof. destruct o; cbn; auto. Qed.

(** ** A state monad with outcomes

    A method with [&mut self] keeps the writes made before an early return, so
    the state comes back beside the outcome on every path. *)
Definition M (E S A : Type) : Type := S → outcome E A * S.

Definition mret {E S A : Type} (a : A) : M E S A := λ s, (Ok a, s).
Definition merr {E S A : Type} (e : E) : M E S A := λ s, (Err e, s).
Definition mpanic {E S A : Type} : M E S A := λ s, (Panic, s).
Definition mget {E S : Type} : M E S S := λ s, (Ok s, s).
Definition mmodify {E S : Type} (f : S → S) : M E S unit := λ s, (Ok tt, f s).
Definition mlift {E S A : Type} (o : outcome E A) : M E S A := λ s, (o, s).

Definition mthen {E S A B : Type} (m : M E S A) (k : A → M E S B) : M E S B :=
  λ s, match m s with
       | (Ok a, s') => k a s'
       | (Err e, s') => (Err e, s')
       | (Panic, s') => (Panic, s')
       end.

Notation "'let!' x ':=' m 'in' k" := (mthen m (λ x, k))
  (at level 10, x binder, m at level 100, k at level 200) : ballista_scope.
Notation "'let?' x ':=' m 'in' k" := (obind m (λ x, k))
  (at level 10, x binder, m at level 100, k at level 200) : ballista_scope.
Notation "m ';;;' k" := (mthen m (λ _, k))
  (at level 199, right associativity) : ballista_scope.
Open Scope ballista_scope.

(** [for x in l { body }]; a failing body stops the loop. *)
Fixpoint mfor {E S A : Type} (l : list A) (body : A → M E S unit) : M E S unit :=
  match l with
  | [] => mret tt
  | x :: l' => body x ;;; mfor l' body
  end.

(** [P] survives the computation on every path, failing ones included. *)
Definition preserves {E S A : Type} (P : S → Prop) (m : M E S A) : Prop :=
  ∀ s, P s → P (m s).2.

Create HintDb ballista.

Section preserves.
Context {E S : Type} (P : S → Prop).

Lemma preserves_ret {A} (a : A) : preserves P (mret (E:=E) a).
Proof. by intros s Hs. Qed.
Lemma preserves_err {A} (e : E) : preserves P (merr (A:=A) e).
Proof. by intros s Hs. Qed.
Lemma preserves_panic {A} : preserves P (mpanic (E:=E) (A:=A)).
Proof. by intros s Hs. Qed.
Lemma preserves_get : preserves P (mget (E:=E)).
Proof. by intros s Hs. Qed.
Lemma preserves_lift {A} (o : outcome E A) : preserves P (mlift o).
Proof. by intros s Hs. Qed.
Lemma preserves_modify f : (∀ s, P s → P (f s)) → preserves P (mmodify (E:=E) f).
Proof. intros H s Hs. by apply H. Qed.

Lemma preserves_then {A B} (m : M E S A) (k : A → M E S B) :
  preserves P m → (∀ a, preserves P (k a)) → preserves P (mthen m k).
Proof.
  intros Hm Hk s Hs. unfold mthen. specialize (Hm s Hs).
  destruct (m s) as [[a|e|] s']; simpl in *; [by apply Hk|done|done].
Qed.

Lemma preserves_for {A} (l : list A) (body : A → M E S unit) :
  (∀ x, x ∈ l → preserves P (body x)) → preserves P (mfor l body).
Proof.
  induction l as [|x l IH]; intros H; simpl; [apply preserves_ret|].
  apply preserves_then; [apply H; left|].
  intros _. apply IH. intros y Hy. apply H. by right.
Qed.
End preserves.

Lemma mthen_ok {E S A B : Type} (m : M E S A) (k : A → M E S B) s b s' :
  mthen m k s = (Ok b, s') ↔ ∃ a s1, m s = (Ok a, s1) ∧ k a s1 = (Ok b, s').
Proof.
  unfold mthen. split.
  - destruct (m s) as [[a|e|] s1]; intros Heq; simplify_eq. eauto.
  - by intros (a & s1 & -> & ?).
Qed.

Lemma mlift_ok {E S A : Type} (o : outcome E A) (s s' : S) a : mlift o s = (Ok a, s') ↔ o = Ok a ∧ s' = s.
Proof. unfold mlift. split; [by intros [= -> ->]|]. by intros [-> ->]. Qed.

Lemma mfor_app_ok {E S A : Type} (l1 l2 : list A) (body : A → M E S unit) s s' :
  mfor (l1 ++ l2) body s = (Ok tt, s') ↔
  ∃ s1, mfor l1 body s = (Ok tt, s1) ∧ mfor l2 body s1 = (Ok tt, s').
Proof.
  revert s. induction l1 as [|a l1 IH]; intros s; simpl.
  - split; [intros Hl; exists s; done|]. by intros (s1 & [= <-] & ?).
  - rewrite mthen_ok. setoid_rewrite mthen_ok. setoid_rewrite IH. split.
    + intros ([] & s1 & ? & s2 & ? & ?). eauto 7.
    + intros (s2 & ([] & s1 & ? & ?) & ?). eauto 7.
Qed.

#[export] Hint Resolve preserves_ret preserves_err preserves_panic preserves_get
  preserves_lift : ballista.

(** ** Vectors updated by index *)

(** [for p in ps { l[p] = f(l[p]) }]; an index out of range panics. *)
Fixpoint update_all {E A : Type} (f : A → A) (ps : list nat) (l : list A)
  : outcome E (list A) :=
  match ps with
  | [] => Ok l
  | p :: ps' =>
      match l !! p with
      | Some x => update_all f ps' (<[p := f x]> l)
      | None => Panic
      end
  end.

(** [iter().map(|p| l[p]).max().unwrap_or(0)] over the indices [ps]. *)
Fixpoint max_at {E : Type} (ps : list nat) (l : list nat) : outcome E nat :=
  match ps with
  | [] => Ok 0
  | p :: ps' =>
      match l !! p with
      | Some x => let? m := max_at ps' l in Ok (x `max` m)
      | None => Panic
      end
  end.

Section update_all.
Context {E A : Type} (f : A → A).

Lemma update_all_ok (ps : list nat) (l : list A) :
  Forall (λ p, p < length l) ps →
  ∃ l', update_all (E:=E) f ps l = Ok l' ∧ length l' = length l.
Proof.
  revert l. induction ps as [|p ps IH]; intros l Hps; simpl; [eauto|].
  apply Forall_cons in Hps as [Hp Hps].
  destruct (lookup_lt_is_Some_2 l p Hp) as [x Hx]. rewrite Hx.
  destruct (IH (<[p:=f x]> l)) as (l' & -> & Hlen); [by rewrite length_insert|].
  rewrite length_insert in Hlen. eauto.
Qed.

Lemma update_all_other (ps : list nat) (l l' : list A) i :
  update_all (E:=E) f ps l = Ok l' → i ∉ ps → l' !! i = l !! i.
Proof.
  revert l. induction ps as [|p ps IH]; intros l Hu Hi; simplify_eq/=; [done|].
  destruct (l !! p) as [x|] eqn:Hx; [|done].
  apply not_elem_of_cons in Hi as [? ?].
  rewrite (IH _ Hu) by done. by rewrite list_lookup_insert_ne.
Qed.

(** Each index of a duplicate-free list is updated once. *)
Lemma update_all_in (ps : list nat) (l l' : list A) i :
  update_all (E:=E) f ps l = Ok l' → NoDup ps → i ∈ ps → l' !! i = f <$> l !! i.
Proof.
  revert l. induction ps as [|p ps IH]; intros l Hu Hnd Hi; [by apply elem_of_nil in Hi|].
  simpl in Hu. destruct (l !! p) as [x|] eqn:Hx; [|done].
  apply NoDup_cons in Hnd as [Hp Hnd].
  assert (p < length l) by (by eapply lookup_lt_Some).
  apply elem_of_cons in Hi as [->|Hi].
  - rewrite (update_all_other _ _ _ _ Hu Hp), Hx. by rewrite list_lookup_insert_eq.
  - rewrite (IH _ Hu Hnd Hi). rewrite list_lookup_insert_ne; [done|]. by intros ->.
Qed.
End update_all.

Lemma update_all_const {E A : Type} (c : A) (ps : list nat) (l l' : list A) i :
  update_all (E:=E) (λ _, c) ps l = Ok l' → i ∈ ps → l' !! i = Some c.
Proof.
  revert l. induction ps as [|p ps IH]; intros l Hu Hi; [by apply elem_of_nil in Hi|].
  simpl in Hu. destruct (l !! p) as [x|] eqn:Hx; [|done].
  assert (p < length l) by (by eapply lookup_lt_Some).
  destruct (decide (i ∈ ps)) as [Hin|Hout]; [by eapply IH|].
  apply elem_of_cons in Hi as [->|]; [|done].
  rewrite (update_all_other _ _ _ _ _ Hu Hout). by apply list_lookup_insert_eq.
Qed.

Lemma max_at_ok {E : Type} (ps l : list nat) :
  Forall (λ p, p < length l) ps →
  ∃ m, max_at (E:=E) ps l = Ok m ∧
       (∀ p x, p ∈ ps → l !! p = Some x → x ≤ m) ∧
       (ps ≠ [] → ∃ p, p ∈ ps ∧ l !! p = Some m).
Proof.
  induction ps as [|p ps IH]; intros Hps; simpl.
  { exists 0. repeat split; [|done]. intros p x Hp. by apply elem_of_nil in Hp. }
  apply Forall_cons in Hps as [Hp Hps].
  destruct (lookup_lt_is_Some_2 l p Hp) as [x Hx]. rewrite Hx.
  destruct (IH Hps) as (m & Hm & Hub & Hin). rewrite Hm. simpl. exists (x `max` m). split; [done|split].
  - intros p' x' [->|Hp']%elem_of_cons Hx'; [simplify_eq; lia|].
    specialize (Hub _ _ Hp' Hx'). lia.
  - intros _. destruct (Nat.max_spec x m) as [[? ->]|[? ->]];
      [|by exists p; split; [left|]].
    destruct ps as [|p' ps']; [simplify_eq/=; lia|].
    destruct Hin as (p'' & ? & ?); [done|]. exists p''. by split; [right|].
Qed.

(** [iter().filter_map(f)] *)
Fixpoint filter_map {A B : Type} (f : A → option B) (l : list A) : list B :=
  match l with
  | [] => []
  | x :: l' => match f x with Some y => y :: filter_map f l' | None => filter_map f l' end
  end.

Lemma elem_of_filter_map {A B : Type} (f : A → option B) (l : list A) y :
  y ∈ filter_map f l ↔ ∃ x, x ∈ l ∧ f x = Some y.
Proof.
  induction l as [|x l IH]; simpl.
  - rewrite elem_of_nil. split; [done|]. by intros (x & ?%elem_of_nil & _).
  - setoid_rewrite elem_of_cons. destruct (f x) as [y'|] eqn:Hx; [rewrite elem_of_cons|];
      rewrite IH; split.
    + intros [->|(x' & ? & ?)]; eauto.
    + intros (x' & [->|?] & ?); [left; congruence|eauto].
    + intros (x' & ? & ?); eauto.
    + intros (x' & [->|?] & ?); [congruence|eauto].
Qed.

Lemma elem_of_concat {A : Type} (x : A) (ls : list (list A)) :
  x ∈ concat ls ↔ ∃ l, x ∈ l ∧ l ∈ ls.
Proof.
  induction ls as [|l ls IH]; simpl.
  - split; [by intros ?%elem_of_nil|]. by intros (l & _ & ?%elem_of_nil).
  - rewrite elem_of_app, IH. setoid_rewrite elem_of_cons. naive_solver.
Qed.

Lemma bind_concat {A B : Type} (f : A → list B) (l : list A) : l ≫= f = concat (f <$> l).
Proof. induction l as [|x l IH]; [done|]. rewrite bind_cons, fmap_cons, IH. done. Qed.

Lemma alter_as_insert {K A : Type} `{Countable K} (f : A → A) (m : gmap K A) k x :
  m !! k = Some x → alter f k m = <[k := f x]> m.
Proof.
  intros Hx. apply map_eq. intros j. destruct (decide (k = j)) as [<-|Hne].
  - by rewrite lookup_alter_eq, lookup_insert_eq, Hx.
  - by rewrite lookup_alter_ne, lookup_insert_ne.
Qed.

(** ** Sums over maps and lists of values in [N] *)

Section sums.
Context {A : Type} (f : A → N).

Definition lsum (l : list A) : N := foldr (λ x n, (f x + n)%N) 0%N l.

Lemma lsum_app l1 l2 : lsum (l1 ++ l2) = (lsum l1 + lsum l2)%N.
Proof. induction l1 as [|x l1 IH]; simpl; [done|]. rewrite IH. lia. Qed.

Lemma lsum_perm l1 l2 : l1 ≡ₚ l2 → lsum l1 = lsum l2.
Proof. induction 1; simpl; lia. Qed.

Lemma lsum_insert l i x y :
  l !! i = Some x → (lsum (<[i := y]> l) + f x)%N = (lsum l + f y)%N.
Proof.
  revert i. induction l as [|z l IH]; intros [|i]; simpl; intros Hi; simplify_eq; [lia|].
  pose proof (IH _ Hi). lia.
Qed.

Lemma lsum_fmap {B : Type} (h : B → A) (l : list B) :
  lsum (h <$> l) = foldr (λ x n, (f (h x) + n)%N) 0%N l.
Proof. induction l as [|x l IH]; [done|]. simpl. by rewrite <-IH. Qed.

Lemma lsum_zero l : (∀ x, x ∈ l → f x = 0%N) → lsum l = 0%N.
Proof.
  induction l as [|x l IH]; intros Hz; simpl; [done|].
  rewrite (Hz x), IH; [done| |left]. intros y Hy. apply Hz. by right.
Qed.

Context {K : Type} `{Countable K}.
Implicit Types (m : gmap K A).

Definition msumN m : N := map_fold (λ _ x n, (f x + n)%N) 0%N m.

(** The summand at a key. *)
Definition at_key m (k : K) : N := from_option f 0%N (m !! k).

Lemma msumN_empty : msumN ∅ = 0%N.
Proof. apply map_fold_empty. Qed.

Lemma msumN_fresh m k x : m !! k = None → msumN (<[k := x]> m) = (f x + msumN m)%N.
Proof. intros Hk. unfold msumN. rewrite map_fold_insert_L; [done| |done]. intros. lia. Qed.

Lemma msumN_split m k : msumN m = (at_key m k + msumN (delete k m))%N.
Proof.
  unfold at_key. destruct (m !! k) as [x|] eqn:Hk; simpl.
  - rewrite <-(insert_delete_id m k x) at 1 by done.
    by rewrite msumN_fresh by apply lookup_delete_eq.
  - by rewrite delete_id.
Qed.

Lemma msumN_insert m k y : (msumN (<[k := y]> m) + at_key m k)%N = (msumN m + f y)%N.
Proof.
  rewrite (msumN_split m k), <-insert_delete_eq, msumN_fresh by apply lookup_delete_eq. lia.
Qed.

Lemma msumN_ext m1 m2 : (∀ k, at_key m1 k = at_key m2 k) → msumN m1 = msumN m2.
Proof.
  revert m2. induction m1 as [|k x m1 Hk IH] using map_ind; intros m2 Hext.
  - rewrite msumN_empty. induction m2 as [|k x m2 Hk IH] using map_ind;
      [by rewrite msumN_empty|]. rewrite msumN_fresh by done.
    rewrite <-IH.
    + specialize (Hext k). unfold at_key in Hext. rewrite lookup_insert_eq in Hext.
      simpl in Hext. rewrite lookup_empty in Hext. simpl in Hext. lia.
    + intros j. specialize (Hext j). unfold at_key in *. rewrite lookup_empty in *.
      destruct (decide (k = j)) as [<-|Hne]; [by rewrite Hk|].
      by rewrite lookup_insert_ne in Hext.
  - rewrite msumN_fresh by done. rewrite (msumN_split m2 k). f_equal.
    + rewrite <-(Hext k). unfold at_key. by rewrite lookup_insert_eq.
    + apply IH. intros j. specialize (Hext j). unfold at_key in *.
      destruct (decide (k = j)) as [<-|Hne]; [by rewrite Hk, lookup_delete_eq|].
      rewrite lookup_insert_ne in Hext by done. by rewrite lookup_delete_ne.
Qed.

Lemma msumN_le m k : (at_key m k ≤ msumN m)%N.
Proof. rewrite (msumN_split m k). lia. Qed.

Lemma msumN_to_list m : msumN m = lsum (map_to_list m).*2.
Proof.
  induction m as [|k x m Hk IH] using map_ind;
    [by rewrite msumN_empty, map_to_list_empty|].
  rewrite msumN_fresh by done.
  rewrite (lsum_perm _ (x :: (map_to_list m).*2)); [simpl; by rewrite IH|].
  change (x :: (map_to_list m).*2) with ((k, x) :: map_to_list m).*2.
  by rewrite map_to_list_insert.
Qed.
End sums.

Lemma lsum_ext {A : Type} (f g : A → N) (l : list A) :
  (∀ x, x ∈ l → f x = g x) → lsum f l = lsum g l.
Proof.
  induction l as [|x l IH]; intros Hfg; simpl; [done|]. f_equal; [apply Hfg; left|].
  apply IH. intros. apply Hfg. by right.
Qed.

(** ** Filters *)

Lemma filter_none {A : Type} (P : A → Prop) `{∀ x, Decision (P x)} (l : list A) :
  (∀ x, x ∈ l → ¬ P x) → filter P l = [].
Proof.
  induction l as [|x l IH]; intros Hp; [done|]. rewrite filter_cons_False by (apply Hp; left).
  apply IH. intros y Hy. apply Hp. by right.
Qed.

Lemma filter_all {A : Type} (P : A → Prop) `{∀ x, Decision (P x)} (l : list A) :
  (∀ x, x ∈ l → P x) → filter P l = l.
Proof.
  induction l as [|x l IH]; intros Hp; [done|]. rewrite filter_cons_True by (apply Hp; left).
  f_equal. apply IH. intros y Hy. apply Hp. by right.
Qed.

Definition usize_max : N := 18446744073709551615.
Definition u32_max : N := 4294967295.

(** Case analysis on the scrutinees of the matches of a goal or hypothesis. *)
Ltac case_all :=
  repeat (case_match; simplify_eq/=; try done).
