(* ===== verification/Machine.v ===== *)
(** * Machine arithmetic

    The operations on [u64], [i64] and [f64] that the sketches and the packing of
    partitions use. Integer operations wrap; [f64] is IEEE binary64 with the
    specification of the standard library. *)

From S2P Require Import Prelude.
From stdpp Require Import numbers.
From Stdlib Require Import SpecFloat.

(** ** Unsigned integers *)

Definition is_u64 (n : N) : Prop := (n < 2 ^ 64)%N.

Definition u64_wrap (n : N) : N := (n `mod` 2 ^ 64)%N.
Definition u64_add (a b : N) : N := ((a + b) `mod` 2 ^ 64)%N.
Definition u64_mul (a b : N) : N := ((a * b) `mod` 2 ^ 64)%N.

(** [1u64 << h] *)
Definition u64_shl1 (h : nat) : N := (2 ^ N.of_nat (h `mod` 64))%N.

Lemma u64_wrap_exact n : is_u64 n → u64_wrap n = n.
Proof. intros Hn. by apply N.mod_small. Qed.

Lemma u64_add_exact a b : (a + b < 2 ^ 64)%N → u64_add a b = (a + b)%N.
Proof. intros Hab. unfold u64_add. by rewrite N.mod_small. Qed.

Lemma u64_mul_exact a b : (a * b < 2 ^ 64)%N → u64_mul a b = (a * b)%N.
Proof. intros Hab. unfold u64_mul. by rewrite N.mod_small. Qed.

Lemma u64_shl1_exact h : h < 64 → u64_shl1 h = (2 ^ N.of_nat h)%N.
Proof. intros Hh. unfold u64_shl1. by rewrite Nat.mod_small. Qed.

(** ** Floating point *)

Definition f64 : Type := spec_float.

(** [x as f64] *)
Definition f64_of_u64 (x : N) : f64 := binary_normalize 53 1024 (Z.of_N x) 0 false.
Definition f64_mul : f64 → f64 → f64 := SFmul 53 1024.
Definition f64_ltb : f64 → f64 → bool := SFltb.
Definition f64_eqb : f64 → f64 → bool := SFeqb.
Definition f64_zero : f64 := S754_zero false.
Definition f64_one : f64 := f64_of_u64 1.

(** [x as u64]: the integer part, saturating; NaN gives 0 *)
Definition u64_of_f64 (x : f64) : N :=
  match x with
  | S754_finite false m e =>
      let v := if (e <? 0)%Z then N.shiftr (Npos m) (Z.to_N (- e)) else N.shiftl (Npos m) (Z.to_N e) in
      (v `min` (2 ^ 64 - 1))%N
  | S754_infinity false => (2 ^ 64 - 1)%N
  | _ => 0%N
  end.

(** [x.clamp(0.0, 1.0)] *)
Definition f64_clamp01 (x : f64) : f64 :=
  if f64_ltb x f64_zero then f64_zero else if f64_ltb f64_one x then f64_one else x.
