(* ===== verification/Errors.v ===== *)
(** * Errors and task failures

    Models [ballista/core/src/error.rs]: the [BallistaError] type, its
    conversions to and from DataFusion and Arrow errors, and the classification
    of an error into the [FailedTask] message an executor reports. *)

From S2P Require Import Prelude.

(** Text built with [format!]: the template and the interpolated values are kept
    apart, so that no rendering has to be fixed. [Lit] is a string that was not
    built by the modelled code. *)
Inductive message : Type :=
| Lit (s : string)
| Format (template : string) (args : list fmt_arg)
with fmt_arg : Type :=
| ANat (n : nat)
| ANats (l : list nat)
| AStr (s : string)
| AMsg (m : message).

(** [BallistaError] and the errors of DataFusion and Arrow it wraps. The
    variants of the two libraries that [error.rs] never inspects are collected
    in [DF_Other] and [AE_Other]; [DF_Context] stands for the wrapper variants,
    which [find_root] looks through. *)
Inductive BallistaError : Type :=
| NotImplemented (desc : message)
| General (desc : message)
| Internal (desc : message)
| Configuration (desc : message)
| ArrowErr (e : ArrowError)
| DataFusionErr (e : DataFusionError)
| SqlError (desc : string)
| IoError (desc : string)
| TonicError (desc : string)
| GrpcError (desc : string)
| GrpcConnectionError (desc : string)
| TokioError (desc : string)
| GrpcActionError (desc : string)
| FetchFailed (executor_id : string) (map_stage_id map_partition_id : nat) (desc : string)
| Cancelled
with DataFusionError : Type :=
| DF_ArrowError (e : ArrowError)
| DF_IoError (desc : string)
| DF_External (e : external)
| DF_Context (desc : string) (e : DataFusionError)
| DF_Other (variant : string)
with ArrowError : Type :=
| AE_ExternalError (e : external)
| AE_Other (variant : string)
(** [Box<dyn Error>]: what [downcast_ref] can tell apart *)
with external : Type :=
| ExtBallista (e : BallistaError)
| ExtDataFusion (e : DataFusionError)
| ExtOther (desc : string).

Abbreviation result := (outcome BallistaError).
Abbreviation df_result := (outcome DataFusionError).

(** ** Conversions *)

(** [BallistaError::into_datafusion] *)
Definition into_datafusion (e : BallistaError) : DataFusionError :=
  DF_External (ExtBallista e).

(** [impl From<ArrowError> for BallistaError] *)
Definition ballista_of_arrow (e : ArrowError) : BallistaError :=
  match e with
  | AE_ExternalError (ExtBallista b) => b
  | AE_ExternalError (ExtDataFusion d) => DataFusionErr d
  | other => ArrowErr other
  end.

(** [impl From<DataFusionError> for BallistaError] *)
Definition ballista_of_datafusion (e : DataFusionError) : BallistaError :=
  match e with
  | DF_ArrowError a => ballista_of_arrow a
  | DF_External (ExtBallista b) => b
  | DF_External other => DataFusionErr (DF_External other)
  | _ => DataFusionErr e
  end.

(** ** Failed tasks *)

(** [failed_task::FailedReason] *)
Inductive FailedReason : Type :=
| FR_ExecutionError
| FR_FetchPartitionError (executor_id : string) (map_stage_id map_partition_id : nat)
| FR_IoError
| FR_ExecutorLost
| FR_ResultLost
| FR_TaskKilled.

Record FailedTask : Type := mkFailedTask {
  error : message;
  retryable : bool;
  count_to_failures : bool;
  failed_reason : option FailedReason;
}.

Record FetchFailedDetails : Type := mkFetchFailedDetails {
  ffd_executor_id : string;
  ffd_map_stage_id : nat;
  ffd_map_partition_id : nat;
  ffd_desc : string;
}.

(** The casts [usize as u32] of the wire format. *)
Definition u32_of_nat (n : nat) : nat := Z.to_nat (Z.of_nat n `mod` 2 ^ 32).

Section classification.
(** [DataFusionError::find_root] of DataFusion: it unwraps the layers around
    the error that was raised first. *)
Context (find_root : DataFusionError → DataFusionError).
(** The rendering of an error by [{e:?}]. *)
Context (debug_fmt : BallistaError → string).

(** [find_fetch_failed]: recursion through a wrapper is recursion on an
    error that [find_root] returned, hence the fuel. *)
Fixpoint find_fetch_failed (fuel : nat) (e : BallistaError) : option FetchFailedDetails :=
  match fuel with
  | 0 => None
  | S fuel =>
      match e with
      | FetchFailed executor_id map_stage_id map_partition_id desc =>
          Some (mkFetchFailedDetails executor_id map_stage_id map_partition_id desc)
      | DataFusionErr e =>
          match find_root e with
          | DF_External (ExtBallista inner) => find_fetch_failed fuel inner
          | _ => None
          end
      | _ => None
      end
  end.

(** [is_retryable_io] *)
Fixpoint is_retryable_io (fuel : nat) (e : BallistaError) : bool :=
  match fuel with
  | 0 => false
  | S fuel =>
      match e with
      | IoError _ => true
      | DataFusionErr e =>
          match find_root e with
          | DF_IoError _ => true
          | DF_External (ExtBallista inner) => is_retryable_io fuel inner
          | _ => false
          end
      | _ => false
      end
  end.

(** [impl From<BallistaError> for FailedTask] *)
Definition failed_task_of_error (fuel : nat) (e : BallistaError) : FailedTask :=
  match find_fetch_failed fuel e with
  | Some d =>
      mkFailedTask (Lit (ffd_desc d)) false false
        (Some (FR_FetchPartitionError (ffd_executor_id d)
                 (u32_of_nat (ffd_map_stage_id d))
                 (u32_of_nat (ffd_map_partition_id d))))
  | None =>
      match e with
      | Cancelled =>
          mkFailedTask (Lit "Task cancelled") true false (Some FR_TaskKilled)
      | _ =>
          if is_retryable_io fuel e then
            mkFailedTask
              (Format "Task failed due to IO error: {e:?}" [AStr (debug_fmt e)])
              true true (Some FR_IoError)
          else
            mkFailedTask
              (Format "Task failed due to runtime execution error: {other:?}"
                 [AStr (debug_fmt e)])
              false false (Some FR_ExecutionError)
      end
  end.
End classification.

(** ** Termination of the classification *)

(** The number of constructors of an error. *)
Fixpoint ballista_size (e : BallistaError) : nat :=
  match e with
  | ArrowErr a => S (arrow_size a)
  | DataFusionErr d => S (datafusion_size d)
  | _ => 1
  end
with datafusion_size (e : DataFusionError) : nat :=
  match e with
  | DF_ArrowError a => S (arrow_size a)
  | DF_External x => S (external_size x)
  | DF_Context _ d => S (datafusion_size d)
  | _ => 1
  end
with arrow_size (e : ArrowError) : nat :=
  match e with
  | AE_ExternalError x => S (external_size x)
  | AE_Other _ => 1
  end
with external_size (e : external) : nat :=
  match e with
  | ExtBallista b => S (ballista_size b)
  | ExtDataFusion d => S (datafusion_size d)
  | ExtOther _ => 1
  end.

Section classification_facts.
Context (find_root : DataFusionError → DataFusionError) (debug_fmt : BallistaError → string).

(** [find_root] returns the error itself or one of its causes. *)
Definition find_root_shrinks : Prop :=
  ∀ e, datafusion_size (find_root e) ≤ datafusion_size e.

(** A [BallistaError] raised inside DataFusion is a root. *)
Definition find_root_external : Prop :=
  ∀ e, find_root (DF_External (ExtBallista e)) = DF_External (ExtBallista e).

Lemma find_fetch_failed_fuel e fuel1 fuel2 :
  find_root_shrinks → ballista_size e ≤ fuel1 → ballista_size e ≤ fuel2 →
  find_fetch_failed find_root fuel1 e = find_fetch_failed find_root fuel2 e.
Proof.
  intros Hroot. revert e fuel2. induction fuel1 as [|fuel1 IH]; intros e [|fuel2] H1 H2;
    try (by destruct e; simpl in *; lia).
  simpl. destruct e as [| | | | |d| | | | | | | | |]; try done.
  specialize (Hroot d). simpl in H1, H2.
  destruct (find_root d) as [| |[b| |]| |]; try done. simpl in Hroot. apply IH; lia.
Qed.

Lemma is_retryable_io_fuel e fuel1 fuel2 :
  find_root_shrinks → ballista_size e ≤ fuel1 → ballista_size e ≤ fuel2 →
  is_retryable_io find_root fuel1 e = is_retryable_io find_root fuel2 e.
Proof.
  intros Hroot. revert e fuel2. induction fuel1 as [|fuel1 IH]; intros e [|fuel2] H1 H2;
    try (by destruct e; simpl in *; lia).
  simpl. destruct e as [| | | | |d| | | | | | | | |]; try done.
  specialize (Hroot d). simpl in H1, H2.
  destruct (find_root d) as [| |[b| |]| |]; try done. simpl in Hroot. apply IH; lia.
Qed.

Lemma failed_task_fuel e fuel :
  find_root_shrinks → ballista_size e ≤ fuel →
  failed_task_of_error find_root debug_fmt fuel e
    = failed_task_of_error find_root debug_fmt (ballista_size e) e.
Proof.
  intros Hroot Hf. unfold failed_task_of_error.
  rewrite (find_fetch_failed_fuel e fuel (ballista_size e)) by done.
  by rewrite (is_retryable_io_fuel e fuel (ballista_size e)) by done.
Qed.

(** An error that went [n] times through DataFusion on its way up the plan. *)
Fixpoint wrapped (n : nat) (e : BallistaError) : BallistaError :=
  match n with
  | 0 => e
  | S n => DataFusionErr (into_datafusion (wrapped n e))
  end.

Lemma wrapped_size n e : ballista_size (wrapped n e) = 3 * n + ballista_size e.
Proof. induction n as [|n IH]; simpl; [done|]. rewrite IH. lia. Qed.

Lemma find_fetch_failed_wrapped n e fuel :
  find_root_external → n < fuel →
  find_fetch_failed find_root fuel (wrapped n e)
    = find_fetch_failed find_root (fuel - n) e.
Proof.
  intros Hext. revert fuel. induction n as [|n IH]; intros fuel Hf.
  { by rewrite Nat.sub_0_r. }
  destruct fuel as [|fuel]; [lia|]. simpl. unfold into_datafusion. rewrite Hext.
  rewrite IH by lia. done.
Qed.

Lemma is_retryable_io_wrapped n e fuel :
  find_root_external → n < fuel →
  is_retryable_io find_root fuel (wrapped n e) = is_retryable_io find_root (fuel - n) e.
Proof.
  intros Hext. revert fuel. induction n as [|n IH]; intros fuel Hf.
  { by rewrite Nat.sub_0_r. }
  destruct fuel as [|fuel]; [lia|]. simpl. unfold into_datafusion. rewrite Hext.
  rewrite IH by lia. done.
Qed.
End classification_facts.
