(* ===== verification/Types.v ===== *)
(** * Shared data of the scheduler

    The structs the scheduler's components exchange: the identifiers and shuffle
    locations of [ballista/core/src/serde/scheduler/mod.rs], the task and job
    status messages of the wire protocol, and the scheduler events of
    [ballista/scheduler/src/scheduler_server/event.rs].

    [usize] values and wire values that are used as indices are [nat]; the other
    unsigned integers are [N]. *)

From S2P Require Import Prelude Errors.
From stdpp Require Import numbers.

Abbreviation JobId := string.

(** The order in which hash maps and hash sets are iterated. *)
Class HashOrder : Type := {
  iter_entries {K A : Type} `{Countable K} : gmap K A → list (K * A);
  iter_entries_perm {K A : Type} `{Countable K} (m : gmap K A) :
    iter_entries m ≡ₚ map_to_list m;
  iter_elements {K : Type} `{Countable K} : gset K → list K;
  iter_elements_perm {K : Type} `{Countable K} (X : gset K) : iter_elements X ≡ₚ elements X;
}.

(** ** Executors and shuffle locations *)

Record ExecutorSpecification : Type := mkExecutorSpecification { spec_vcores : N }.

Record ExecutorOperatingSystemSpecification : Type := mkOsSpecification {
  system_name : string;
  kernel_ver : string;
  os_ver : string;
  os_ver_long : string;
  physical_cores : N;
  num_disks : N;
  total_disk_space : N;
  total_available_disk_space : N;
  open_files_limit : N;
}.

Module ExecutorMetadata.
Record t : Type := mk {
  id : string;
  host : string;
  port : N;
  grpc_port : N;
  specification : ExecutorSpecification;
  os_info : ExecutorOperatingSystemSpecification;
}.
End ExecutorMetadata.

#[export] Instance ExecutorSpecification_eq_dec : EqDecision ExecutorSpecification.
Proof. solve_decision. Defined.
#[export] Instance ExecutorOsSpecification_eq_dec :
  EqDecision ExecutorOperatingSystemSpecification.
Proof. solve_decision. Defined.
#[export] Instance ExecutorMetadata_eq_dec : EqDecision ExecutorMetadata.t.
Proof. solve_decision. Defined.

Module ExecutorData.
Record t : Type := mk {
  executor_id : string;
  total_vcores : N;
  available_vcores : N;
}.
End ExecutorData.

Module PartitionId.
Record t : Type := mk {
  job_id : JobId;
  stage_id : nat;
  partition_id : nat;
}.
End PartitionId.

Module TaskKey.
Record t : Type := mk {
  job_id : JobId;
  stage_id : nat;
  task_id : nat;
}.
End TaskKey.

Record PartitionStats : Type := mkPartitionStats {
  num_rows : option N;
  num_batches : option N;
  num_bytes : option N;
}.

Module PartitionLocation.
Record t : Type := mk {
  map_partition_id : nat;
  partition_id : PartitionId.t;
  executor_meta : ExecutorMetadata.t;
  partition_stats : PartitionStats;
  file_id : option N;
  is_sort_shuffle : bool;
}.
End PartitionLocation.

(** The executor that serves a location. *)
Definition loc_executor (l : PartitionLocation.t) : string :=
  ExecutorMetadata.id (PartitionLocation.executor_meta l).

(** ** Payloads the scheduler only carries

    Protobuf and DataFusion values that the modelled code moves around without
    looking inside, and the fallible decoding of a metric. *)
Class Payload : Type := {
  RuntimeStatsReport : Type;
  WindowStateReport : Type;
  ColumnSketch : Type;
  ProtoMetric : Type;
  MetricValue : Type;
  metric_try_into : ProtoMetric → result MetricValue;
  SessionContext : Type;
  LogicalPlan : Type;
  ExecutionPlan : Type;
}.

(** ** Task status messages *)

Module ShuffleWritePartition.
Record t : Type := mk {
  partition_id : nat;
  num_batches : N;
  num_rows : N;
  num_bytes : N;
  file_id : option N;
  is_sort_shuffle : bool;
}.
End ShuffleWritePartition.

Module TaskColumnStats.
Record t `{Payload} : Type := mk {
  column : nat;
  null_count : N;
  sketches : list ColumnSketch;
}.
Arguments t {_}.
End TaskColumnStats.

Module SuccessfulTask.
Record t `{Payload} : Type := mk {
  executor_id : string;
  partitions : list ShuffleWritePartition.t;
  task_column_stats : list TaskColumnStats.t;
  runtime_stats : list RuntimeStatsReport;
  window_state : list WindowStateReport;
}.
Arguments t {_}.
End SuccessfulTask.

(** [task_status::Status] *)
Inductive status `{Payload} : Type :=
| Running (executor_id : string)
| Failed (f : FailedTask)
| Successful (s : SuccessfulTask.t).

Module OperatorMetric.
Record t `{Payload} : Type := mk {
  partition : option nat;
  metric : option ProtoMetric;
}.
Arguments t {_}.
End OperatorMetric.

(** [OperatorMetricsSet]: the metrics of one operator *)
Definition OperatorMetricsSet `{Payload} : Type := list OperatorMetric.t.

Module TaskStatus.
Record t `{Payload} : Type := mk {
  task_id : nat;
  job_id : JobId;
  stage_id : nat;
  stage_attempt_num : nat;
  launch_time : N;
  start_exec_time : N;
  end_exec_time : N;
  metrics : list OperatorMetricsSet;
  status : option Types.status;
}.
Arguments t {_}.
End TaskStatus.

(** ** Job status messages *)

Inductive job_state : Type :=
| Job_Queued (queued_at : N)
| Job_Running (queued_at started_at : N) (scheduler : string)
| Job_Failed (err : message) (queued_at started_at ended_at : N)
| Job_Successful (partition_location : list PartitionLocation.t)
    (queued_at started_at ended_at : N).

Module JobStatus.
Record t : Type := mk {
  job_id : JobId;
  job_name : string;
  status : option job_state;
}.
End JobStatus.

(** ** Running tasks and scheduler events *)

Module RunningTaskInfo.
Record t : Type := mk {
  task_id : nat;
  job_id : JobId;
  stage_id : nat;
  executor_id : string;
}.
End RunningTaskInfo.

Inductive SubmitPlan `{Payload} : Type :=
| Logical (plan : LogicalPlan)
| Physical (plan : ExecutionPlan).

(** The events of the scheduler. A subscriber is a channel, identified by a
    number. *)
Inductive QueryStageSchedulerEvent `{Payload} : Type :=
| JobQueued (job_id : JobId) (job_name : string) (session_ctx : SessionContext)
    (plan : SubmitPlan) (queued_at : N) (subscriber : option nat)
| JobSubmitted (job_id : JobId) (queued_at submitted_at : N)
| JobPlanningFailed (job_id : JobId) (fail_message : message) (queued_at failed_at : N)
| JobFinished (job_id : JobId) (queued_at completed_at : N)
| JobRunningFailed (job_id : JobId) (fail_message : message) (queued_at failed_at : N)
| JobUpdated (job_id : JobId)
| JobCancel (job_id : JobId)
| JobDataClean (job_id : JobId)
| TaskUpdating (executor_id : string) (tasks_status : list TaskStatus.t)
| ReviveOffers
| ExecutorLost (executor_id : string) (reason : option message)
| CancelTasks (tasks : list RunningTaskInfo.t).
