(* ===== verification/Stage.v ===== *)
(** * Stages of an execution graph

    Models [ballista/scheduler/src/state/execution_stage.rs]: the cursor over
    pending partitions, the five stage states with their data, and every method
    that moves a stage between states or updates a running stage. Each Rust
    [struct] is a [Module] holding its record [t] and its [impl] block. *)

From S2P Require Import Prelude Errors Types.

(** ** The plan of a stage, seen from the stage

    What a stage asks of its physical plan. [remove_unresolved_shuffles] and
    [rollback_resolved_shuffles] are the scheduler's planner; the two optimizer
    rules run when a stage is resolved. *)
Class PlanOps : Type := {
  Plan : Type;
  ConfigOptions : Type;
  SessionConfig : Type;
  options : SessionConfig → ConfigOptions;
  stage_input_partitions : Plan → nat;
  schema_num_fields : Plan → nat;
  remove_unresolved_shuffles :
    Plan → gmap nat (gmap nat (list PartitionLocation.t)) → result Plan;
  rollback_resolved_shuffles : Plan → result Plan;
  join_selection_optimize : Plan → ConfigOptions → result Plan;
  aggregate_statistics_optimize : Plan → ConfigOptions → result Plan;
}.

(** [datafusion::common::stats::Precision<usize>] *)
Inductive Precision : Type :=
| Exact (n : N)
| Inexact (n : N)
| Absent.

(** [Precision::add] of DataFusion. *)
Class PrecisionOps : Type := precision_add : Precision → Precision → Precision.

(** ** Cursor over the partitions waiting to be scheduled *)
Module PendingPartitions.
Record t : Type := mk { total : nat; queue : list nat }.

Definition new (total : nat) : t := mk total (seq 0 total).

Definition empty (total : nat) : t := mk total [].

(** [next_slice]: the slice handed out, and the cursor after it *)
Definition next_slice (max : N) (self : t) : list nat * t :=
  let n := N.to_nat (max `min` N.of_nat (length (queue self))) in
  (take n (queue self), mk (total self) (drop n (queue self))).

(** [reschedule]: pushes the partitions to the front, last one first *)
Definition reschedule (partitions : list nat) (self : t) : t :=
  mk (total self) (foldl (λ q p, p :: q) (queue self) (rev partitions)).

Definition is_empty (self : t) : bool :=
  match queue self with [] => true | _ => false end.

Definition remaining (self : t) : nat := length (queue self).

Definition total_partitions (self : t) : nat := total self.
End PendingPartitions.

(** ** Outputs of an input stage *)
Module StageOutput.
Record t : Type := mk {
  partition_locations : gmap nat (list PartitionLocation.t);
  complete : bool;
}.

Definition new : t := mk ∅ false.

Definition add_partition (loc : PartitionLocation.t) (self : t) : t :=
  let p := PartitionId.partition_id (PartitionLocation.partition_id loc) in
  match partition_locations self !! p with
  | Some parts => mk (<[p := parts ++ [loc]]> (partition_locations self)) (complete self)
  | None => mk (<[p := [loc]]> (partition_locations self)) (complete self)
  end.

Definition is_complete (self : t) : bool := complete self.

(** [partition_locations(self, output_partition_count)] *)
Definition to_vec (output_partition_count : nat) (self : t) : list (list PartitionLocation.t) :=
  (λ i, default [] (partition_locations self !! i)) <$> seq 0 output_partition_count.

(** Locations that are not on [executor_id], as the [retain] of
    [remove_input_partitions] keeps them. *)
Definition retain_not (executor_id : string) (locs : list PartitionLocation.t)
  : list PartitionLocation.t :=
  filter (λ l, loc_executor l ≠ executor_id) locs.

(** The [map_partition_id]s of the locations on [executor_id]. *)
Definition bad_map_partitions (executor_id : string) (self : t) : gset nat :=
  list_to_set (
    PartitionLocation.map_partition_id <$>
      filter (λ l, loc_executor l = executor_id)
        (concat (map_to_list (partition_locations self)).*2)).

(** The body shared by the two [remove_input_partitions] methods. *)
Definition remove_executor (executor_id : string) (self : t) : t :=
  mk (retain_not executor_id <$> partition_locations self) false.
End StageOutput.

(** ** Tasks of a stage *)
Module TaskInfo.
Record t `{Payload} : Type := mk {
  task_id : nat;
  scheduled_time : N;
  launch_time : N;
  start_exec_time : N;
  end_exec_time : N;
  finish_time : N;
  task_status : status;
  global_input_partition_ids : list nat;
  vcores_consumed : N;
}.
Arguments t {_}.
Section info.
Context `{Payload}.

Definition set_status (s : status) (ti : t) : t :=
  mk _ (task_id ti) (scheduled_time ti) (launch_time ti) (start_exec_time ti)
    (end_exec_time ti) (finish_time ti) s (global_input_partition_ids ti)
    (vcores_consumed ti).

Definition is_running (ti : t) : bool :=
  match task_status ti with Running _ => true | _ => false end.
Definition is_successful (ti : t) : bool :=
  match task_status ti with Successful _ => true | _ => false end.

(** The pattern [Failed(FailedTask { failed_reason: Some(TaskKilled | ResultLost), .. })]
    by which a late status update is recognised. *)
Definition is_reset (ti : t) : bool :=
  match task_status ti with
  | Failed f =>
      match failed_reason f with
      | Some FR_TaskKilled | Some FR_ResultLost => true
      | _ => false
      end
  | _ => false
  end.
End info.
End TaskInfo.

(** ** Metrics of a stage *)
Module Metric.
Record t `{Payload} : Type := mk { value : MetricValue; partition : option nat }.
Arguments t {_}.
End Metric.

Abbreviation MetricsSet := (list Metric.t).

Module TaskRuntimeStats.
Record t `{Payload} : Type := mk { producer_task_id : nat; report : RuntimeStatsReport }.
Arguments t {_}.
End TaskRuntimeStats.

Module TaskWindowState.
Record t `{Payload} : Type := mk { producer_task_id : nat; report : WindowStateReport }.
Arguments t {_}.
End TaskWindowState.

(** ** A stage whose inputs are not all complete *)
Module UnresolvedStage.
Record t `{PlanOps} : Type := mk {
  stage_id : nat;
  stage_attempt_num : nat;
  output_links : list nat;
  inputs : gmap nat StageOutput.t;
  plan : Plan;
  last_attempt_failure_reasons : gset string;
  session_config : SessionConfig;
}.
Arguments t {_}.
Section impl.
Context `{PlanOps}.

Definition new (stage_id : nat) (plan : Plan) (output_links child_stage_ids : list nat)
    (session_config : SessionConfig) : t :=
  let inputs :=
    foldl (λ m c, <[c := StageOutput.new]> m) ∅ child_stage_ids in
  mk _ stage_id 0 output_links inputs plan ∅ session_config.

Definition new_with_inputs (stage_id stage_attempt_num : nat) (plan : Plan)
    (output_links : list nat) (inputs : gmap nat StageOutput.t)
    (last_attempt_failure_reasons : gset string) (session_config : SessionConfig) : t :=
  mk _ stage_id stage_attempt_num output_links inputs plan
    last_attempt_failure_reasons session_config.

Definition set_inputs (i : gmap nat StageOutput.t) (self : t) : t :=
  mk _ (stage_id self) (stage_attempt_num self) (output_links self) i (plan self)
    (last_attempt_failure_reasons self) (session_config self).

Definition add_failure_reason (r : string) (self : t) : t :=
  mk _ (stage_id self) (stage_attempt_num self) (output_links self) (inputs self)
    (plan self) ({[r]} ∪ last_attempt_failure_reasons self) (session_config self).

Definition add_input_partitions (sid : nat) (locations : list PartitionLocation.t)
  : M BallistaError t unit := λ self,
  match inputs self !! sid with
  | Some stage_inputs =>
      (Ok tt,
       set_inputs
         (<[sid := foldl (λ o l, StageOutput.add_partition l o) stage_inputs locations]>
            (inputs self)) self)
  | None =>
      (Err (Internal (Format
         "Error adding input partitions to stage {}, {} is not a valid child stage ID"
         [ANat (stage_id self); ANat sid])), self)
  end.

Definition remove_input_partitions (input_stage_id _input_partition_id : nat)
    (executor_id : string) : M BallistaError t (gset nat) := λ self,
  match inputs self !! input_stage_id with
  | Some stage_output =>
      (Ok (StageOutput.bad_map_partitions executor_id stage_output),
       set_inputs
         (<[input_stage_id := StageOutput.remove_executor executor_id stage_output]>
            (inputs self)) self)
  | None =>
      (Err (Internal (Format
         "Error remove input partition for Stage {}, {} is not a valid child stage ID"
         [ANat (stage_id self); ANat input_stage_id])), self)
  end.

Definition complete_input (sid : nat) (self : t) : t :=
  match inputs self !! sid with
  | Some input =>
      set_inputs
        (<[sid := StageOutput.mk (StageOutput.partition_locations input) true]>
           (inputs self)) self
  | None => self
  end.

Definition resolvable (self : t) : bool :=
  forallb (λ kv, StageOutput.is_complete kv.2) (map_to_list (inputs self)).
End impl.
End UnresolvedStage.

(** ** A stage that finished *)
Module SuccessfulStage.
Record t `{PlanOps} `{Payload} : Type := mk {
  stage_id : nat;
  stage_attempt_num : nat;
  partitions : nat;
  output_links : list nat;
  inputs : gmap nat StageOutput.t;
  plan : Plan;
  task_infos : list TaskInfo.t;
  stage_metrics : list MetricsSet;
  session_config : SessionConfig;
  (** the [null_count] of each output column, the only statistic filled in *)
  output_column_stats : list Precision;
}.
Arguments t {_ _}.
Section impl.
Context `{PlanOps} `{Payload}.

Definition set_task_infos (tis : list TaskInfo.t) (self : t) : t :=
  mk _ _ (stage_id self) (stage_attempt_num self) (partitions self) (output_links self)
    (inputs self) (plan self) tis (stage_metrics self) (session_config self)
    (output_column_stats self).

(** The test and the write of the loop of [reset_tasks]. *)
Definition reset_hit (executor : string) (ti : TaskInfo.t) : bool :=
  match TaskInfo.task_status ti with
  | Successful s => bool_decide (executor = SuccessfulTask.executor_id s)
  | _ => false
  end.

Definition reset_one (executor : string) (ti : TaskInfo.t) : TaskInfo.t :=
  if reset_hit executor ti then
    TaskInfo.mk _ (TaskInfo.task_id ti) (TaskInfo.scheduled_time ti) 0 0 0 0
      (Failed (mkFailedTask
         (Format "Task failure due to Executor {executor} lost" [AStr executor])
         true false (Some FR_ResultLost)))
      (TaskInfo.global_input_partition_ids ti) (TaskInfo.vcores_consumed ti)
  else ti.

Definition reset_tasks (executor : string) (self : t) : nat * t :=
  (length (filter (λ ti, reset_hit executor ti = true) (task_infos self)),
   set_task_infos (reset_one executor <$> task_infos self) self).
End impl.
End SuccessfulStage.

(** ** A stage that failed *)
Module FailedStage.
Record t `{PlanOps} `{Payload} : Type := mk {
  stage_id : nat;
  stage_attempt_num : nat;
  partitions : nat;
  output_links : list nat;
  plan : Plan;
  task_infos : list TaskInfo.t;
  stage_metrics : option (list MetricsSet);
  error_message : message;
}.
Arguments t {_ _}.
Section impl.
Context `{PlanOps} `{Payload}.

Definition successful_tasks (self : t) : nat :=
  length (filter (λ ti, TaskInfo.is_successful ti = true) (task_infos self)).
Definition scheduled_tasks (self : t) : nat := length (task_infos self).
Definition available_tasks (self : t) : nat := 0.
End impl.
End FailedStage.

(** ** A stage whose tasks are executing *)
Module RunningStage.
Record t `{PlanOps} `{Payload} : Type := mk {
  stage_id : nat;
  stage_attempt_num : nat;
  stage_running_time : N;
  partitions : nat;
  output_links : list nat;
  inputs : gmap nat StageOutput.t;
  plan : Plan;
  pending : PendingPartitions.t;
  task_infos : list TaskInfo.t;
  task_failure_numbers : list nat;
  stage_metrics : option (list MetricsSet);
  session_config : SessionConfig;
  runtime_stats_reports : list TaskRuntimeStats.t;
  window_state_reports : list TaskWindowState.t;
}.
Arguments t {_ _}.
Section impl.
Context `{PlanOps} `{Payload} `{PrecisionOps}.

(** Field assignments *)
Definition set_inputs (x : gmap nat StageOutput.t) (self : t) : t :=
  mk _ _ (stage_id self) (stage_attempt_num self) (stage_running_time self)
    (partitions self) (output_links self) x (plan self) (pending self)
    (task_infos self) (task_failure_numbers self) (stage_metrics self)
    (session_config self) (runtime_stats_reports self) (window_state_reports self).
Definition set_pending (x : PendingPartitions.t) (self : t) : t :=
  mk _ _ (stage_id self) (stage_attempt_num self) (stage_running_time self)
    (partitions self) (output_links self) (inputs self) (plan self) x
    (task_infos self) (task_failure_numbers self) (stage_metrics self)
    (session_config self) (runtime_stats_reports self) (window_state_reports self).
Definition set_task_infos (x : list TaskInfo.t) (self : t) : t :=
  mk _ _ (stage_id self) (stage_attempt_num self) (stage_running_time self)
    (partitions self) (output_links self) (inputs self) (plan self) (pending self)
    x (task_failure_numbers self) (stage_metrics self)
    (session_config self) (runtime_stats_reports self) (window_state_reports self).
Definition set_task_failure_numbers (x : list nat) (self : t) : t :=
  mk _ _ (stage_id self) (stage_attempt_num self) (stage_running_time self)
    (partitions self) (output_links self) (inputs self) (plan self) (pending self)
    (task_infos self) x (stage_metrics self)
    (session_config self) (runtime_stats_reports self) (window_state_reports self).
Definition set_stage_metrics (x : option (list MetricsSet)) (self : t) : t :=
  mk _ _ (stage_id self) (stage_attempt_num self) (stage_running_time self)
    (partitions self) (output_links self) (inputs self) (plan self) (pending self)
    (task_infos self) (task_failure_numbers self) x
    (session_config self) (runtime_stats_reports self) (window_state_reports self).
Definition set_reports (x : list TaskRuntimeStats.t) (y : list TaskWindowState.t)
    (self : t) : t :=
  mk _ _ (stage_id self) (stage_attempt_num self) (stage_running_time self)
    (partitions self) (output_links self) (inputs self) (plan self) (pending self)
    (task_infos self) (task_failure_numbers self) (stage_metrics self)
    (session_config self) x y.

Definition new (now : N) (stage_id stage_attempt_num : nat) (plan : Plan)
    (partitions : nat) (output_links : list nat) (inputs : gmap nat StageOutput.t)
    (session_config : SessionConfig) : t :=
  mk _ _ stage_id stage_attempt_num now partitions output_links inputs plan
    (PendingPartitions.new partitions) [] (replicate partitions 0) None
    session_config [] [].

(** *** Column statistics of a finished stage *)

(** The inner loop over [task_column_stats]: the slots, and which of them
    the task reported. *)
Definition add_column_stats (acc : list Precision * list bool)
    (cs : TaskColumnStats.t) : list Precision * list bool :=
  match acc.1 !! TaskColumnStats.column cs with
  | Some slot =>
      (<[TaskColumnStats.column cs :=
           precision_add slot (Exact (TaskColumnStats.null_count cs))]> acc.1,
       <[TaskColumnStats.column cs := true]> acc.2)
  | None => acc
  end.

Definition fold_task_stats (slots : list Precision) (info : TaskInfo.t)
  : list Precision :=
  match TaskInfo.task_status info with
  | Successful s =>
      let acc := foldl add_column_stats (slots, replicate (length slots) false)
                   (SuccessfulTask.task_column_stats s) in
      zip_with (λ (slot : Precision) (reported : bool),
                  if reported then slot else Absent) acc.1 acc.2
  | _ => slots
  end.

Definition output_column_stats (self : t) : list Precision :=
  foldl fold_task_stats (replicate (schema_num_fields (plan self)) (Exact 0))
    (task_infos self).

Definition to_successful (self : t) : SuccessfulStage.t :=
  SuccessfulStage.mk _ _ (stage_id self) (stage_attempt_num self) (partitions self)
    (output_links self) (inputs self) (plan self) (task_infos self)
    (default [] (stage_metrics self)) (session_config self)
    (output_column_stats self).

Definition kill_running (ti : TaskInfo.t) : TaskInfo.t :=
  if TaskInfo.is_running ti then
    TaskInfo.set_status
      (Failed (mkFailedTask (Lit "killed") false false (Some FR_TaskKilled))) ti
  else ti.

Definition to_failed (error_message : message) (self : t) : FailedStage.t :=
  FailedStage.mk _ _ (stage_id self) (stage_attempt_num self) (partitions self)
    (output_links self) (plan self) (kill_running <$> task_infos self)
    (stage_metrics self) error_message.

Definition to_unresolved (failure_reasons : gset string) (self : t)
  : result UnresolvedStage.t :=
  let? new_plan := rollback_resolved_shuffles (plan self) in
  Ok (UnresolvedStage.new_with_inputs (stage_id self) (S (stage_attempt_num self))
        new_plan (output_links self) (inputs self) failure_reasons
        (session_config self)).

(** *** Progress of a stage *)

(** The loop of [is_successful] that marks the partitions of successful tasks. *)
Fixpoint mark_covered (infos : list TaskInfo.t) (covered : list bool)
  : result (list bool) :=
  match infos with
  | [] => Ok covered
  | info :: infos' =>
      if TaskInfo.is_successful info then
        let? covered' :=
          update_all (λ _, true) (TaskInfo.global_input_partition_ids info) covered in
        mark_covered infos' covered'
      else mark_covered infos' covered
  end.

Definition is_successful (self : t) : result bool :=
  if negb (PendingPartitions.is_empty (pending self)) then Ok false
  else
    let? covered := mark_covered (task_infos self) (replicate (partitions self) false) in
    Ok (forallb (λ c, c) covered).

Definition successful_tasks (self : t) : nat :=
  length (filter (λ ti, TaskInfo.is_successful ti = true) (task_infos self)).

Definition scheduled_tasks (self : t) : nat := length (task_infos self).

Definition running_tasks (self : t) : list (nat * nat * string) :=
  omap (λ p, match TaskInfo.task_status p.2 with
             | Running executor_id => Some (p.1, stage_id self, executor_id)
             | _ => None
             end) (imap (λ i ti, (i, ti)) (task_infos self)).

Definition available_tasks (self : t) : nat := PendingPartitions.remaining (pending self).

(** *** Task status updates *)

(** The counters of the partitions of a task, after the task reported
    [task_status]. *)
Definition update_failure_numbers (task_status : status) (ids : list nat)
    (numbers : list nat) : result (list nat) :=
  match task_status with
  | Failed failed_task =>
      if retryable failed_task then update_all S ids numbers else Ok numbers
  | Successful _ => update_all (λ _, 0) ids numbers
  | Running _ => Ok numbers
  end.

Definition update_task_info (now : N) (task_id : nat) (st : TaskStatus.t)
  : M BallistaError t bool := λ self,
  match task_infos self !! task_id with
  | None => (Panic, self)
  | Some task_info =>
      if TaskInfo.is_reset task_info then (Ok false, self)
      else
        match TaskStatus.status st with
        | None => (Panic, self)
        | Some task_status =>
            let ids := TaskInfo.global_input_partition_ids task_info in
            let updated :=
              TaskInfo.mk _ task_id (TaskInfo.scheduled_time task_info)
                (TaskStatus.launch_time st) (TaskStatus.start_exec_time st)
                (TaskStatus.end_exec_time st) now task_status ids
                (TaskInfo.vcores_consumed task_info) in
            let self1 := set_task_infos (<[task_id := updated]> (task_infos self)) self in
            match update_failure_numbers task_status ids (task_failure_numbers self1) with
            | Ok numbers => (Ok true, set_task_failure_numbers numbers self1)
            | Err e => (Err e, self1)
            | Panic => (Panic, self1)
            end
        end
  end.

Definition append_runtime_stats_reports (producer_task_id : nat)
    (reports : list RuntimeStatsReport) (self : t) : t :=
  match reports with
  | [] => self
  | _ =>
      set_reports
        (runtime_stats_reports self ++
           (TaskRuntimeStats.mk _ producer_task_id <$> reports))
        (window_state_reports self) self
  end.

Definition append_window_state_reports (producer_task_id : nat)
    (reports : list WindowStateReport) (self : t) : t :=
  set_reports (runtime_stats_reports self)
    (window_state_reports self ++ (TaskWindowState.mk _ producer_task_id <$> reports))
    self.

(** *** Metrics *)

(** The stage-global partitions a metric of a task is recorded under. *)
Definition metric_tags (local_partition : option nat) (global_partitions : list nat)
  : list (option nat) :=
  match local_partition with
  | Some local =>
      match global_partitions !! local with
      | Some p => [Some p]
      | None =>
          match global_partitions with
          | [p] => [Some p]
          | _ => Some <$> global_partitions
          end
      end
  | None => [None]
  end.

Fixpoint metrics_set_from_task_metrics (metrics : list OperatorMetric.t)
    (global_partitions : list nat) : result MetricsSet :=
  match metrics with
  | [] => Ok []
  | m :: metrics' =>
      match OperatorMetric.metric m with
      | None =>
          Err (Internal (Lit "OperatorMetric.metric is None while folding task metrics"))
      | Some inner =>
          let? metric_value := metric_try_into inner in
          let? rest := metrics_set_from_task_metrics metrics' global_partitions in
          Ok ((Metric.mk _ metric_value <$>
                 metric_tags (OperatorMetric.partition m) global_partitions) ++ rest)
      end
  end.

(** [collect::<Result<Vec<_>>>] over the operators of the plan *)
Fixpoint collect_metrics (metrics : list OperatorMetricsSet)
    (global_partitions : list nat) : result (list MetricsSet) :=
  match metrics with
  | [] => Ok []
  | ms :: metrics' =>
      let? set := metrics_set_from_task_metrics ms global_partitions in
      let? rest := collect_metrics metrics' global_partitions in
      Ok (set :: rest)
  end.

Definition owned_by_task (global_partitions : list nat) (m : Metric.t) : bool :=
  match Metric.partition m with
  | Some p => bool_decide (p ∈ global_partitions)
  | None => false
  end.

Definition upsert_metrics_set_for_task (existing_metrics new_task_metrics : MetricsSet)
    (global_partitions : list nat) : MetricsSet :=
  filter (λ m, owned_by_task global_partitions m = false) existing_metrics
    ++ new_task_metrics.

Definition update_task_metrics (task_id : nat) (metrics : list OperatorMetricsSet)
  : M BallistaError t unit := λ self,
  match metrics with
  | [] => (Ok tt, self)
  | _ =>
      match task_infos self !! task_id with
      | None => (Panic, self)
      | Some ti =>
          let global_partitions := TaskInfo.global_input_partition_ids ti in
          let new_metrics_set :=
            match stage_metrics self with
            | Some combined_metrics =>
                if bool_decide (length metrics = length combined_metrics) then
                  let? values := collect_metrics metrics global_partitions in
                  Ok (zip_with (λ existing new_task,
                        upsert_metrics_set_for_task existing new_task global_partitions)
                        combined_metrics values)
                else
                  Err (Internal (Format
                    "Error updating task metrics to stage {}, task metrics array size {} does not equal with the stage metrics array size {} for task {}"
                    [ANat (stage_id self); ANat (length metrics);
                     ANat (length combined_metrics); ANat task_id]))
            | None => collect_metrics metrics global_partitions
            end in
          match new_metrics_set with
          | Ok s => (Ok tt, set_stage_metrics (Some s) self)
          | Err e => (Err e, self)
          | Panic => (Panic, self)
          end
      end
  end.

(** *** Retries *)

Definition task_failure_number (task_id : nat) (self : t) : result nat :=
  match task_infos self !! task_id with
  | None => Panic
  | Some ti =>
      max_at (TaskInfo.global_input_partition_ids ti) (task_failure_numbers self)
  end.

(** The [retain] calls that drop the reports of the tasks in [ids]. *)
Definition purge_reports (ids : gset nat) (self : t) : t :=
  set_reports
    (filter (λ s, TaskRuntimeStats.producer_task_id s ∉ ids) (runtime_stats_reports self))
    (filter (λ s, TaskWindowState.producer_task_id s ∉ ids) (window_state_reports self))
    self.

Definition reset_status : status :=
  Failed (mkFailedTask (Lit "task reset for retry") true false (Some FR_TaskKilled)).

Definition reset_task_info (task_id : nat) : M BallistaError t unit := λ self,
  match task_infos self !! task_id with
  | None => (Panic, self)
  | Some task =>
      let self := set_task_infos
        (<[task_id := TaskInfo.set_status reset_status task]> (task_infos self)) self in
      let self := set_pending
        (PendingPartitions.reschedule (TaskInfo.global_input_partition_ids task)
           (pending self)) self in
      (Ok tt, purge_reports {[task_id]} self)
  end.

Definition lost_status (executor : string) : status :=
  Failed (mkFailedTask
    (Format "Task failure due to Executor {executor} lost" [AStr executor])
    true false (Some FR_ResultLost)).

Definition on_executor (executor : string) (ti : TaskInfo.t) : bool :=
  match TaskInfo.task_status ti with
  | Running executor_id => bool_decide (executor = executor_id)
  | Successful s => bool_decide (executor = SuccessfulTask.executor_id s)
  | Failed _ => false
  end.

Definition lose_one (executor : string) (ti : TaskInfo.t) : TaskInfo.t :=
  if on_executor executor ti then TaskInfo.set_status (lost_status executor) ti else ti.

Definition reset_task_ids (executor : string) (infos : list TaskInfo.t) : list nat :=
  omap (λ p, if on_executor executor p.2 then Some p.1 else None)
    (imap (λ i ti, (i, ti)) infos).

Definition to_reschedule (executor : string) (infos : list TaskInfo.t) : list nat :=
  concat (TaskInfo.global_input_partition_ids <$>
            filter (λ ti, on_executor executor ti = true) infos).

Definition reset_tasks (executor : string) (self : t) : nat * t :=
  let infos := task_infos self in
  let ids := reset_task_ids executor infos in
  let self := set_task_infos (lose_one executor <$> infos) self in
  let self := set_pending
    (PendingPartitions.reschedule (to_reschedule executor infos) (pending self)) self in
  (length ids, purge_reports (list_to_set ids) self).

Definition remove_input_partitions (input_stage_id _input_partition_id : nat)
    (executor_id : string) : M BallistaError t (gset nat) := λ self,
  match inputs self !! input_stage_id with
  | Some stage_output =>
      (Ok (StageOutput.bad_map_partitions executor_id stage_output),
       set_inputs
         (<[input_stage_id := StageOutput.remove_executor executor_id stage_output]>
            (inputs self)) self)
  | None =>
      (Err (Internal (Format
         "Error remove input partition for Stage {}, {} is not a valid child stage ID"
         [ANat (stage_id self); ANat input_stage_id])), self)
  end.
End impl.
End RunningStage.

(** ** A stage that can be scheduled *)
Module ResolvedStage.
Record t `{PlanOps} : Type := mk {
  stage_id : nat;
  stage_attempt_num : nat;
  partitions : nat;
  output_links : list nat;
  inputs : gmap nat StageOutput.t;
  plan : Plan;
  last_attempt_failure_reasons : gset string;
  session_config : SessionConfig;
}.
Arguments t {_}.
Section impl.
Context `{PlanOps} `{Payload}.

Definition new (stage_id stage_attempt_num : nat) (plan : Plan)
    (output_links : list nat) (inputs : gmap nat StageOutput.t)
    (last_attempt_failure_reasons : gset string) (session_config : SessionConfig) : t :=
  mk _ stage_id stage_attempt_num (stage_input_partitions plan) output_links inputs plan
    last_attempt_failure_reasons session_config.

Definition set_inputs (x : gmap nat StageOutput.t) (self : t) : t :=
  mk _ (stage_id self) (stage_attempt_num self) (partitions self) (output_links self) x
    (plan self) (last_attempt_failure_reasons self) (session_config self).

Definition to_running (now : N) (self : t) : RunningStage.t :=
  RunningStage.new now (stage_id self) (stage_attempt_num self) (plan self)
    (partitions self) (output_links self) (inputs self) (session_config self).

Definition to_unresolved (self : t) : result UnresolvedStage.t :=
  let? new_plan := rollback_resolved_shuffles (plan self) in
  Ok (UnresolvedStage.new_with_inputs (stage_id self) (stage_attempt_num self) new_plan
        (output_links self) (inputs self) (last_attempt_failure_reasons self)
        (session_config self)).
End impl.
End ResolvedStage.

Section stage_changes.
Context `{PlanOps} `{Payload}.

(** [UnresolvedStage::to_resolved] *)
Definition UnresolvedStage_to_resolved (opts : ConfigOptions) (self : UnresolvedStage.t)
  : result ResolvedStage.t :=
  let input_locations :=
    StageOutput.partition_locations <$> UnresolvedStage.inputs self in
  let? plan := remove_unresolved_shuffles (UnresolvedStage.plan self) input_locations in
  let? plan := join_selection_optimize plan opts in
  let? plan := aggregate_statistics_optimize plan opts in
  Ok (ResolvedStage.new (UnresolvedStage.stage_id self)
        (UnresolvedStage.stage_attempt_num self) plan (UnresolvedStage.output_links self)
        (UnresolvedStage.inputs self) (UnresolvedStage.last_attempt_failure_reasons self)
        (UnresolvedStage.session_config self)).

(** The inner loop of [SuccessfulStage::to_running] over the slice of one
    task: the partitions seen so far, and the ones to reschedule. *)
Definition scan_partition (needs_reschedule : bool) (acc : list bool * list nat) (p : nat)
  : list bool * list nat :=
  match acc.1 !! p with
  | Some false =>
      (<[p := true]> acc.1,
       if needs_reschedule then acc.2 ++ [p] else acc.2)
  | _ => acc
  end.

Definition scan_task (acc : list bool * list nat) (task : TaskInfo.t)
  : list bool * list nat :=
  foldl (scan_partition (negb (TaskInfo.is_successful task))) acc
    (TaskInfo.global_input_partition_ids task).

(** [SuccessfulStage::to_running] *)
Definition SuccessfulStage_to_running (now : N) (self : SuccessfulStage.t)
  : RunningStage.t :=
  let n := SuccessfulStage.partitions self in
  let acc := foldl scan_task (replicate n false, []) (rev (SuccessfulStage.task_infos self)) in
  RunningStage.mk _ _ (SuccessfulStage.stage_id self)
    (S (SuccessfulStage.stage_attempt_num self)) now n
    (SuccessfulStage.output_links self) (SuccessfulStage.inputs self)
    (SuccessfulStage.plan self)
    (PendingPartitions.reschedule (merge_sort (≤) acc.2) (PendingPartitions.empty n))
    (SuccessfulStage.task_infos self) (replicate n 0)
    (match SuccessfulStage.stage_metrics self with
     | [] => None
     | ms => Some ms
     end)
    (SuccessfulStage.session_config self) [] [].

(** ** The five states *)
Inductive ExecutionStage : Type :=
| UnResolved (s : UnresolvedStage.t)
| Resolved (s : ResolvedStage.t)
| RunningS (s : RunningStage.t)
| SuccessfulS (s : SuccessfulStage.t)
| FailedS (s : FailedStage.t).

Definition variant_name (s : ExecutionStage) : string :=
  match s with
  | UnResolved _ => "Unresolved"
  | Resolved _ => "Resolved"
  | RunningS _ => "Running"
  | SuccessfulS _ => "Successful"
  | FailedS _ => "Failed"
  end.

Definition stage_output_links (s : ExecutionStage) : list nat :=
  match s with
  | UnResolved s => UnresolvedStage.output_links s
  | Resolved s => ResolvedStage.output_links s
  | RunningS s => RunningStage.output_links s
  | SuccessfulS s => SuccessfulStage.output_links s
  | FailedS s => FailedStage.output_links s
  end.

Definition stage_task_infos (s : ExecutionStage) : option (list TaskInfo.t) :=
  match s with
  | RunningS s => Some (RunningStage.task_infos s)
  | SuccessfulS s => Some (SuccessfulStage.task_infos s)
  | FailedS s => Some (FailedStage.task_infos s)
  | UnResolved _ | Resolved _ => None
  end.
End stage_changes.
