(* ===== verification/StageFacts.v ===== *)
(** * Correctness of stages

    The partition accounting of a running stage and what follows from it: no
    operation loses or duplicates a partition, a stage is successful exactly
    when its live tasks are, an unfinished stage always has work in flight or
    work to hand out, and re-running a finished stage reschedules exactly the
    partitions that were lost. *)

From S2P Require Import Prelude Errors Types Stage.

(** The slice of partitions of a task. *)
Abbreviation ids := TaskInfo.global_input_partition_ids.

(** ** Slices of tasks *)
Section slices.
Context `{Payload}.
Implicit Types (ti : TaskInfo.t) (infos : list TaskInfo.t).

(** A task is live until it is reset: its partitions are its own. *)
Definition live ti : bool := negb (TaskInfo.is_reset ti).

(** A status of a task that was killed or whose result was lost, and that is not simply
    to be retried: it is final, or counts as a failure. *)
Definition given_up_status (st : status) : bool :=
  match st with
  | Failed f =>
      match failed_reason f with
      | Some FR_TaskKilled | Some FR_ResultLost => negb (retryable f && negb (count_to_failures f))
      | _ => false
      end
  | _ => false
  end.

Definition given_up ti : bool := given_up_status (TaskInfo.task_status ti).

(** The task accounts for its partitions. *)
Definition owns ti : bool := live ti || given_up ti.

(** The partitions of the tasks that satisfy [f]. *)
Definition slices (f : TaskInfo.t → bool) infos : list nat :=
  concat (ids <$> filter (λ ti, f ti = true) infos).

Lemma slices_nil f : slices f [] = [].
Proof. done. Qed.

Lemma slices_cons f ti infos :
  slices f (ti :: infos) = (if f ti then ids ti else []) ++ slices f infos.
Proof. unfold slices. rewrite filter_cons. by destruct (f ti) eqn:?; simpl. Qed.

Lemma slices_app f infos1 infos2 :
  slices f (infos1 ++ infos2) = slices f infos1 ++ slices f infos2.
Proof. unfold slices. by rewrite filter_app, fmap_app, concat_app. Qed.

Lemma slices_snoc f infos ti :
  slices f (infos ++ [ti]) = slices f infos ++ (if f ti then ids ti else []).
Proof. by rewrite slices_app, slices_cons, slices_nil, app_nil_r. Qed.

Lemma elem_of_slices f infos p :
  p ∈ slices f infos ↔ ∃ i ti, infos !! i = Some ti ∧ f ti = true ∧ p ∈ ids ti.
Proof.
  induction infos as [|ti infos IH].
  - rewrite slices_nil, elem_of_nil. split; [done|]. by intros (i & ti & Hi & _).
  - rewrite slices_cons, elem_of_app, IH. split.
    + intros [Hp|(i & ti' & ? & ? & ?)]; [|by exists (S i), ti'].
      destruct (f ti) eqn:Hf; [by exists 0, ti|by apply elem_of_nil in Hp].
    + intros ([|i] & ti' & Hi & Hf & Hp); simplify_eq/=.
      * left. by rewrite Hf.
      * right. eauto.
Qed.

Lemma slices_ext f g infos :
  (∀ ti, ti ∈ infos → f ti = g ti) → slices f infos = slices g infos.
Proof.
  induction infos as [|ti infos IH]; intros Hfg; [done|].
  rewrite !slices_cons, (Hfg ti), IH; [done| |left].
  intros ti' ?. apply Hfg. by right.
Qed.

(** The slice of one task, set apart from the others. *)
Lemma slices_middle f infos i ti :
  infos !! i = Some ti →
  slices f infos ≡ₚ
    (if f ti then ids ti else []) ++ slices f (take i infos ++ drop (S i) infos).
Proof.
  intros Hi. rewrite <-(take_drop_middle infos i ti) at 1 by done.
  rewrite !slices_app, slices_cons. by rewrite Permutation_app_swap_app.
Qed.

Lemma slices_insert f infos i ti ti' :
  infos !! i = Some ti →
  slices f (<[i := ti']> infos) ≡ₚ
    (if f ti' then ids ti' else []) ++ slices f (take i infos ++ drop (S i) infos).
Proof.
  intros Hi. assert (i < length infos) by (by eapply lookup_lt_Some).
  rewrite insert_take_drop by done.
  rewrite !slices_app, slices_cons. by rewrite Permutation_app_swap_app.
Qed.

(** Replacing a task by one with the same slice and the same liveness. *)
Lemma slices_insert_same f infos i ti ti' :
  infos !! i = Some ti → ids ti' = ids ti → f ti' = f ti →
  slices f (<[i := ti']> infos) ≡ₚ slices f infos.
Proof.
  intros Hi Hids Hf. rewrite (slices_insert _ _ _ _ _ Hi), (slices_middle _ _ _ _ Hi).
  by rewrite Hids, Hf.
Qed.

(** Splitting the tasks in two classes splits the slices. *)
Lemma slices_split f g infos :
  slices f infos ≡ₚ slices (λ ti, f ti && g ti) infos
                     ++ slices (λ ti, f ti && negb (g ti)) infos.
Proof.
  induction infos as [|ti infos IH]; [done|].
  rewrite !slices_cons, IH. destruct (f ti), (g ti); simpl; try done.
  - by rewrite app_assoc.
  - by rewrite Permutation_app_swap_app.
Qed.

Lemma slices_fmap f (h : TaskInfo.t → TaskInfo.t) infos :
  (∀ ti, ids (h ti) = ids ti) →
  slices f (h <$> infos) = slices (λ ti, f (h ti)) infos.
Proof.
  intros Hh. induction infos as [|ti infos IH]; [done|].
  rewrite fmap_cons, !slices_cons, IH, Hh. done.
Qed.
End slices.

Lemma reschedule_queue ps q :
  PendingPartitions.queue (PendingPartitions.reschedule ps q)
    = ps ++ PendingPartitions.queue q.
Proof.
  unfold PendingPartitions.reschedule; simpl.
  revert q. induction ps as [|p ps IH]; intros q; simpl; [done|].
  rewrite foldl_app. simpl. by rewrite IH.
Qed.

Lemma next_slice_split max q :
  let r := PendingPartitions.next_slice max q in
  PendingPartitions.queue q = r.1 ++ PendingPartitions.queue r.2.
Proof. simpl. by rewrite take_drop. Qed.

(** ** Well-formed running stages *)
Section running.
Context `{PlanOps} `{Payload} `{PrecisionOps}.
Implicit Types (ti : TaskInfo.t) (infos : list TaskInfo.t) (s : RunningStage.t).

(** The data that the accounting is about: the queue, the tasks and the
    number of partitions of a stage. Every partition below [n] is exactly once
    in the queue or in the slice of a live task, and a live task is the latest
    one that holds its partitions. *)
Record accounted (n : nat) (q : list nat) infos : Prop := {
  acc_perm : q ++ slices live infos ≡ₚ seq 0 n;
  acc_bound : ∀ i ti p, infos !! i = Some ti → p ∈ ids ti → p < n;
  acc_nonempty : ∀ i ti, infos !! i = Some ti → ids ti ≠ [];
  acc_latest : ∀ i j ti tj p,
    infos !! i = Some ti → infos !! j = Some tj → i < j →
    p ∈ ids ti → p ∈ ids tj → live ti = false;
}.

Record running_wf s : Prop := {
  wf_acc : accounted (RunningStage.partitions s)
             (PendingPartitions.queue (RunningStage.pending s))
             (RunningStage.task_infos s);
  wf_numbers : length (RunningStage.task_failure_numbers s) = RunningStage.partitions s;
}.

(** *** The accounting under the changes the code makes *)

Lemma accounted_nodup n q infos : accounted n q infos → NoDup (q ++ slices live infos).
Proof. intros Ha. rewrite (acc_perm _ _ _ Ha). apply NoDup_seq. Qed.

Lemma accounted_queue_not_live n q infos i ti p :
  accounted n q infos → p ∈ q → infos !! i = Some ti → p ∈ ids ti → live ti = false.
Proof.
  intros Ha Hq Hi Hp. destruct (live ti) eqn:Hl; [|done]. exfalso.
  apply accounted_nodup, NoDup_app in Ha as (_ & Hdisj & _).
  apply (Hdisj p Hq). apply elem_of_slices. eauto.
Qed.

Lemma accounted_queue_bound n q infos p : accounted n q infos → p ∈ q → p < n.
Proof.
  intros Ha Hp. assert (p ∈ seq 0 n) as Hs%elem_of_seq; [|lia].
  rewrite <-(acc_perm _ _ _ Ha). set_solver.
Qed.

Lemma accounted_new n : accounted n (seq 0 n) [].
Proof.
  split; [by rewrite app_nil_r|..]; intros i; rewrite ?lookup_nil; try done.
Qed.

(** Handing the front of the queue to a new task. *)
Lemma accounted_bind n q1 q2 infos ti :
  accounted n (q1 ++ q2) infos → ids ti = q1 → q1 ≠ [] → live ti = true →
  accounted n q2 (infos ++ [ti]).
Proof.
  intros Ha Hids Hne Hl. split.
  - rewrite slices_snoc, Hl, Hids, <-(acc_perm _ _ _ Ha).
    by rewrite (Permutation_app_comm q1), <-!app_assoc, (Permutation_app_comm q1), !app_assoc.
  - intros i ti' p Hi Hp. apply lookup_snoc_Some in Hi as [[? Hi]|[? <-]].
    + by eapply acc_bound.
    + rewrite Hids in Hp. eapply (accounted_queue_bound _ _ _ p); [done|set_solver].
  - intros i ti' Hi. apply lookup_snoc_Some in Hi as [[? Hi]|[? <-]].
    + by eapply acc_nonempty.
    + by rewrite Hids.
  - intros i j ti' tj p Hi Hj Hij Hpi Hpj.
    apply lookup_snoc_Some in Hi as [[? Hi]|[-> <-]];
      apply lookup_snoc_Some in Hj as [[? Hj]|[-> <-]]; try lia.
    + by eapply acc_latest.
    + eapply (accounted_queue_not_live _ _ _ _ _ p Ha); eauto.
      rewrite Hids in Hpj. set_solver.
Qed.

(** Replacing a task by one with the same slice and the same liveness. *)
Lemma accounted_update n q infos i ti ti' :
  accounted n q infos → infos !! i = Some ti → ids ti' = ids ti → live ti' = live ti →
  accounted n q (<[i := ti']> infos).
Proof.
  intros Ha Hi Hids Hl. split.
  - by rewrite (slices_insert_same _ _ _ _ _ Hi Hids Hl), (acc_perm _ _ _ Ha).
  - intros j tj p Hj Hp. apply list_lookup_insert_Some in Hj as [(-> & <- & ?)|[? Hj]].
    + rewrite Hids in Hp. by eapply acc_bound.
    + by eapply acc_bound.
  - intros j tj Hj. apply list_lookup_insert_Some in Hj as [(-> & <- & ?)|[? Hj]].
    + rewrite Hids. by eapply acc_nonempty.
    + by eapply acc_nonempty.
  - intros j k tj tk p Hj Hk Hjk Hpj Hpk.
    apply list_lookup_insert_Some in Hj as [(<- & <- & ?)|[? Hj]];
      apply list_lookup_insert_Some in Hk as [(<- & <- & ?)|[? Hk]]; try lia.
    + rewrite Hl. rewrite Hids in Hpj. by eapply acc_latest.
    + rewrite Hids in Hpk. by eapply (acc_latest _ _ _ Ha j i).
    + by eapply acc_latest.
Qed.

(** Resetting a live task gives its slice back to the queue. *)
Lemma accounted_reset n q infos i ti ti' :
  accounted n q infos → infos !! i = Some ti → live ti = true →
  ids ti' = ids ti → live ti' = false →
  accounted n (ids ti ++ q) (<[i := ti']> infos).
Proof.
  intros Ha Hi Hl Hids Hl'. split.
  - rewrite (slices_insert _ _ _ _ _ Hi), Hl'. simpl.
    rewrite <-(acc_perm _ _ _ Ha), (slices_middle _ _ _ _ Hi), Hl.
    by rewrite <-app_assoc, Permutation_app_swap_app.
  - intros j tj p Hj Hp. apply list_lookup_insert_Some in Hj as [(-> & <- & ?)|[? Hj]].
    + rewrite Hids in Hp. by eapply acc_bound.
    + by eapply acc_bound.
  - intros j tj Hj. apply list_lookup_insert_Some in Hj as [(-> & <- & ?)|[? Hj]].
    + rewrite Hids. by eapply acc_nonempty.
    + by eapply acc_nonempty.
  - intros j k tj tk p Hj Hk Hjk Hpj Hpk.
    apply list_lookup_insert_Some in Hj as [(<- & <- & ?)|[? Hj]];
      apply list_lookup_insert_Some in Hk as [(<- & <- & ?)|[? Hk]]; try lia; [done|..].
    + rewrite Hids in Hpk. by eapply (acc_latest _ _ _ Ha j i).
    + by eapply acc_latest.
Qed.

(** Losing every live task that satisfies [f]. *)
Lemma accounted_lose n q infos (f : TaskInfo.t → bool) (h : TaskInfo.t → TaskInfo.t) :
  accounted n q infos →
  (∀ ti, ids (h ti) = ids ti) →
  (∀ ti, live (h ti) = live ti && negb (f ti)) →
  (∀ ti, f ti = true → live ti = true) →
  accounted n (slices f infos ++ q) (h <$> infos).
Proof.
  intros Ha Hids Hl Hf. split.
  - rewrite slices_fmap by done.
    rewrite (slices_ext (λ ti, live (h ti)) (λ ti, live ti && negb (f ti))) by auto.
    rewrite <-(acc_perm _ _ _ Ha), (slices_split live f infos).
    rewrite (slices_ext f (λ ti, live ti && f ti)).
    + by rewrite <-app_assoc, Permutation_app_swap_app.
    + intros ti _. destruct (f ti) eqn:Hfi; [by rewrite (Hf ti Hfi)|by destruct (live ti)].
  - intros i ti p Hi Hp. apply list_lookup_fmap_Some in Hi as (tj & -> & Hi).
    rewrite Hids in Hp. by eapply acc_bound.
  - intros i ti Hi. apply list_lookup_fmap_Some in Hi as (tj & -> & Hi).
    rewrite Hids. by eapply acc_nonempty.
  - intros i j ti tj p Hi Hj Hij Hpi Hpj.
    apply list_lookup_fmap_Some in Hi as (ti' & -> & Hi).
    apply list_lookup_fmap_Some in Hj as (tj' & -> & Hj).
    rewrite Hids in Hpi, Hpj. rewrite Hl.
    by rewrite (acc_latest _ _ _ Ha i j ti' tj' p).
Qed.

(** Every partition below [n] is in the queue or in a live task. *)
Lemma accounted_owner n q infos p :
  accounted n q infos → p < n →
  p ∈ q ∨ ∃ i ti, infos !! i = Some ti ∧ live ti = true ∧ p ∈ ids ti.
Proof.
  intros Ha Hp. assert (p ∈ q ++ slices live infos) as Hin.
  { rewrite (acc_perm _ _ _ Ha). apply elem_of_seq. lia. }
  apply elem_of_app in Hin as [?|Hin]; [by left|right]. by apply elem_of_slices.
Qed.

Lemma accounted_ids_nodup n q infos i ti :
  accounted n q infos → infos !! i = Some ti → live ti = true → NoDup (ids ti).
Proof.
  intros Ha Hi Hl. apply accounted_nodup, NoDup_app in Ha as (_ & _ & Ha).
  rewrite (slices_middle _ _ _ _ Hi), Hl in Ha. by apply NoDup_app in Ha as (? & _ & _).
Qed.

(** *** No partition is lost

    The part of the accounting that does not depend on partitions being held
    only once: every partition is in the queue, in the slice of a live task, or in
    that of a task that was given up. *)
Record covered (n : nat) (q : list nat) infos : Prop := {
  cov_owner : ∀ p, p < n →
    p ∈ q ∨ ∃ i ti, infos !! i = Some ti ∧ owns ti = true ∧ p ∈ ids ti;
  cov_queue : ∀ p, p ∈ q → p < n;
  cov_bound : ∀ i ti p, infos !! i = Some ti → p ∈ ids ti → p < n;
}.

Record running_ok s : Prop := {
  ok_cov : covered (RunningStage.partitions s)
             (PendingPartitions.queue (RunningStage.pending s))
             (RunningStage.task_infos s);
  ok_numbers : length (RunningStage.task_failure_numbers s) = RunningStage.partitions s;
}.

Lemma live_owns ti : live ti = true → owns ti = true.
Proof. unfold owns. by intros ->. Qed.

Lemma accounted_covered n q infos : accounted n q infos → covered n q infos.
Proof.
  intros Ha. split.
  - intros p Hp. destruct (accounted_owner _ _ _ _ Ha Hp) as [?|(i & ti & ? & ?%live_owns & ?)]; eauto 10.
  - intros p Hp. by eapply accounted_queue_bound.
  - apply (acc_bound _ _ _ Ha).
Qed.

Lemma running_wf_ok s : running_wf s → running_ok s.
Proof. intros [Ha Hn]. split; [by apply accounted_covered|done]. Qed.

Lemma covered_bind n q1 q2 infos ti :
  covered n (q1 ++ q2) infos → ids ti = q1 → live ti = true →
  covered n q2 (infos ++ [ti]).
Proof.
  intros [Ho Hq Hb] Hids Hl%live_owns. split.
  - intros p [[Hp|Hp]%elem_of_app|(i & tj & Hi & ? & ?)]%Ho; [|by left|].
    + right. exists (length infos), ti. rewrite list_lookup_middle by done. by rewrite Hids.
    + right. exists i, tj. by rewrite (lookup_app_l_Some _ _ _ _ Hi).
  - intros p Hp. apply Hq. set_solver.
  - intros i tj p [[? Hi]|[_ <-]]%lookup_snoc_Some Hp; [by eapply Hb|].
    apply Hq. rewrite Hids in Hp. set_solver.
Qed.

(** Replacing a task by one with the same slice: its partitions are queued
    unless they are held as before. *)
Lemma covered_insert n q q' infos i ti ti' :
  covered n q infos → infos !! i = Some ti → ids ti' = ids ti →
  (owns ti = true → owns ti' = true ∨ ids ti ⊆ q') → q ⊆ q' →
  (∀ p, p ∈ q' → p ∈ q ∨ p ∈ ids ti) →
  covered n q' (<[i := ti']> infos).
Proof.
  intros [Ho Hq Hb] Hi Hids Hl Hsub Hnew. assert (i < length infos) by (by eapply lookup_lt_Some).
  split.
  - intros p [Hp|(j & tj & Hj & Hlj & Hpj)]%Ho; [left; by apply Hsub|].
    destruct (decide (j = i)) as [->|].
    + simplify_eq. destruct (Hl Hlj) as [?|Hs]; [right|left; by apply Hs].
      exists i, ti'. rewrite list_lookup_insert_eq by done. by rewrite Hids.
    + right. exists j, tj. by rewrite list_lookup_insert_ne by done.
  - intros p [?|?]%Hnew; [by apply Hq|by eapply Hb].
  - intros j tj p [(<- & <- & ?)|[? Hj]]%list_lookup_insert_Some Hp; [|by eapply Hb].
    rewrite Hids in Hp. by eapply Hb.
Qed.

Lemma covered_lose n q infos (f : TaskInfo.t → bool) (h : TaskInfo.t → TaskInfo.t) :
  covered n q infos →
  (∀ ti, ids (h ti) = ids ti) →
  (∀ ti, owns (h ti) = owns ti && negb (f ti)) →
  covered n (slices f infos ++ q) (h <$> infos).
Proof.
  intros [Ho Hq Hb] Hids Hl. split.
  - intros p [Hp|(j & tj & Hj & Hlj & Hpj)]%Ho; [left; set_solver|].
    destruct (f tj) eqn:Hf.
    + left. apply elem_of_app. left. apply elem_of_slices. eauto.
    + right. exists j, (h tj). by rewrite list_lookup_fmap, Hj, Hids, Hl, Hlj, Hf.
  - intros p [(i & ti & Hi & _ & Hp)%elem_of_slices|?]%elem_of_app; [|by apply Hq].
    by eapply Hb.
  - intros i ti p (tj & -> & Hi)%list_lookup_fmap_Some Hp. rewrite Hids in Hp. by eapply Hb.
Qed.

(** *** The methods of a running stage *)

Lemma ok_ids_in_range s i ti :
  running_ok s → RunningStage.task_infos s !! i = Some ti →
  Forall (λ p, p < length (RunningStage.task_failure_numbers s)) (ids ti).
Proof.
  intros Hwf Hi. apply Forall_forall. intros p Hp. rewrite (ok_numbers _ Hwf).
  by eapply (cov_bound _ _ _ (ok_cov _ Hwf)).
Qed.

Lemma update_failure_numbers_ok st s i ti :
  running_ok s → RunningStage.task_infos s !! i = Some ti →
  ∃ numbers,
    RunningStage.update_failure_numbers st (ids ti) (RunningStage.task_failure_numbers s)
      = Ok numbers ∧ length numbers = RunningStage.partitions s.
Proof.
  intros Hwf Hi. pose proof (ok_ids_in_range _ _ _ Hwf Hi) as Hr.
  rewrite <-(ok_numbers _ Hwf). destruct st as [?|f|?]; simpl; [eauto| |].
  - destruct (retryable f); [|eauto]. by apply update_all_ok.
  - by apply update_all_ok.
Qed.

(** What [update_task_info] leaves behind when it accepts a status. *)
Lemma update_task_info_accepts now i st x s ti :
  running_ok s → RunningStage.task_infos s !! i = Some ti → live ti = true →
  TaskStatus.status st = Some x →
  ∃ ti' numbers,
    RunningStage.update_task_info now i st s
      = (Ok true,
         RunningStage.set_task_failure_numbers numbers
           (RunningStage.set_task_infos
              (<[i := ti']> (RunningStage.task_infos s)) s)) ∧
    ids ti' = ids ti ∧ TaskInfo.task_status ti' = x ∧
    length numbers = RunningStage.partitions s ∧
    RunningStage.update_failure_numbers x (ids ti) (RunningStage.task_failure_numbers s)
      = Ok numbers.
Proof.
  intros Hwf Hi Hl Hst. unfold live in Hl. apply negb_true_iff in Hl.
  destruct (update_failure_numbers_ok x s i ti Hwf Hi) as (numbers & Hn & Hlen).
  unfold RunningStage.update_task_info. rewrite Hi, Hl, Hst. simpl. rewrite Hn.
  eexists _, _. repeat split; done.
Qed.

Lemma update_task_info_wf now i st x s ti :
  running_wf s → RunningStage.task_infos s !! i = Some ti → live ti = true →
  TaskStatus.status st = Some x →
  (∀ ti', TaskInfo.task_status ti' = x → live ti' = true) →
  running_wf (RunningStage.update_task_info now i st s).2.
Proof.
  intros Hwf Hi Hl Hst Hx.
  destruct (update_task_info_accepts now i st x s ti)
    as (ti' & ns & -> & ? & ? & ? & _); auto using running_wf_ok.
  split; simpl; [|done].
  eapply accounted_update; [by apply wf_acc|done|done|]. by rewrite Hl, Hx.
Qed.

Lemma reset_task_info_wf i s ti :
  running_wf s → RunningStage.task_infos s !! i = Some ti → live ti = true →
  (RunningStage.reset_task_info i s).1 = Ok tt ∧
  running_wf (RunningStage.reset_task_info i s).2.
Proof.
  intros Hwf Hi Hl. unfold RunningStage.reset_task_info. rewrite Hi. simpl.
  split; [done|]. split; [|apply (wf_numbers _ Hwf)].
  unfold RunningStage.purge_reports; cbn -[PendingPartitions.reschedule].
  rewrite reschedule_queue. by eapply accounted_reset; eauto using wf_acc.
Qed.

(** A status update followed by a reset of the same task, the path of a
    retryable failure: whatever the status was, nothing is lost. *)
Lemma update_then_reset_wf now i st x s ti :
  running_wf s → RunningStage.task_infos s !! i = Some ti → live ti = true →
  TaskStatus.status st = Some x →
  let s1 := (RunningStage.update_task_info now i st s).2 in
  (RunningStage.reset_task_info i s1).1 = Ok tt ∧
  running_wf (RunningStage.reset_task_info i s1).2.
Proof.
  intros Hwf Hi Hl Hst.
  destruct (update_task_info_accepts now i st x s ti)
    as (ti' & ns & Hu & Hids & _ & Hn & _); auto using running_wf_ok.
  rewrite Hu; simpl. assert (i < length (RunningStage.task_infos s)) by (by eapply lookup_lt_Some).
  unfold RunningStage.reset_task_info; simpl.
  rewrite list_lookup_insert_eq by done. simpl. split; [done|]. split; [|done].
  unfold RunningStage.purge_reports; cbn -[PendingPartitions.reschedule].
  rewrite reschedule_queue, Hids, list_insert_insert_eq.
  eapply accounted_reset; eauto using wf_acc.
Qed.

Lemma reset_tasks_wf e s :
  running_wf s → running_wf (RunningStage.reset_tasks e s).2.
Proof.
  intros Hwf. unfold RunningStage.reset_tasks. simpl. split; [|apply (wf_numbers _ Hwf)].
  unfold RunningStage.purge_reports; cbn -[PendingPartitions.reschedule].
  rewrite reschedule_queue. apply accounted_lose with (f := RunningStage.on_executor e).
  - apply (wf_acc _ Hwf).
  - intros ti. unfold RunningStage.lose_one. by destruct (RunningStage.on_executor e ti).
  - intros ti. unfold RunningStage.lose_one.
    destruct (RunningStage.on_executor e ti) eqn:?; simpl; [|by rewrite andb_true_r].
    by rewrite andb_false_r.
  - intros ti. unfold RunningStage.on_executor, live, TaskInfo.is_reset.
    by destruct (TaskInfo.task_status ti).
Qed.

Lemma running_new_wf now sid att p n links inp cfg :
  running_wf (RunningStage.new now sid att p n links inp cfg).
Proof. split; simpl; [apply accounted_new|apply length_replicate]. Qed.

(** *** Completion *)

Lemma successful_is_live ti : TaskInfo.is_successful ti = true → live ti = true.
Proof.
  unfold TaskInfo.is_successful, live, TaskInfo.is_reset. by destruct (TaskInfo.task_status ti).
Qed.

Lemma accounted_live_unique n q infos i j ti tj p :
  accounted n q infos → infos !! i = Some ti → infos !! j = Some tj →
  p ∈ ids ti → p ∈ ids tj → live ti = true → live tj = true → i = j.
Proof.
  intros Ha Hi Hj Hpi Hpj Hli Hlj.
  destruct (Nat.lt_trichotomy i j) as [Hlt|[?|Hlt]]; [|done|].
  - by rewrite (acc_latest _ _ _ Ha i j ti tj p) in Hli.
  - by rewrite (acc_latest _ _ _ Ha j i tj ti p) in Hlj.
Qed.

Lemma mark_covered_spec infos covered :
  (∀ i ti p, infos !! i = Some ti → p ∈ ids ti → p < length covered) →
  ∃ c, RunningStage.mark_covered infos covered = Ok c ∧ length c = length covered ∧
       ∀ p, c !! p = Some true ↔
            covered !! p = Some true ∨ p ∈ slices TaskInfo.is_successful infos.
Proof.
  revert covered. induction infos as [|ti infos IH]; intros covered Hb; simpl.
  { exists covered. split_and!; [done..|]. intros p. rewrite slices_nil. set_solver. }
  assert (∀ i ti' p, infos !! i = Some ti' → p ∈ ids ti' → p < length covered) as Hb'.
  { intros i ti' p Hi. by apply (Hb (S i)). }
  destruct (TaskInfo.is_successful ti) eqn:Hs.
  - assert (Forall (λ p, p < length covered) (ids ti)) as Hf.
    { apply Forall_forall. intros p. by apply (Hb 0). }
    destruct (update_all_ok (E:=BallistaError) (λ _, true) _ _ Hf) as (c' & Hc' & Hlen).
    rewrite Hc'. simpl.
    destruct (IH c') as (c & -> & Hlen' & Hc); [by rewrite Hlen|].
    exists c. split_and!; [done|congruence|]. intros p. rewrite Hc, slices_cons, Hs.
    rewrite elem_of_app. destruct (decide (p ∈ ids ti)) as [Hp|Hp].
    + rewrite (update_all_const _ _ _ _ _ Hc' Hp). naive_solver.
    + rewrite (update_all_other _ _ _ _ _ Hc' Hp). naive_solver.
  - destruct (IH covered Hb') as (c & -> & Hlen & Hc).
    exists c. split_and!; [done..|]. intros p. by rewrite Hc, slices_cons, Hs.
Qed.

(** [is_successful] does not panic, and holds exactly when nothing is queued and
    every partition is in the slice of a successful task. *)
Lemma is_successful_covers s :
  running_ok s →
  ∃ b, RunningStage.is_successful s = Ok b ∧
    (b = true ↔
       PendingPartitions.queue (RunningStage.pending s) = [] ∧
       ∀ p, p < RunningStage.partitions s →
            p ∈ slices TaskInfo.is_successful (RunningStage.task_infos s)).
Proof.
  intros Hok. unfold RunningStage.is_successful, PendingPartitions.is_empty.
  destruct (PendingPartitions.queue (RunningStage.pending s)) as [|p q] eqn:Hq; simpl;
    [|exists false; naive_solver].
  destruct (mark_covered_spec (RunningStage.task_infos s)
              (replicate (RunningStage.partitions s) false)) as (c & -> & Hlen & Hc).
  { intros i ti p Hi Hp. rewrite length_replicate.
    by eapply (cov_bound _ _ _ (ok_cov _ Hok)). }
  rewrite length_replicate in Hlen. simpl. eexists. split; [done|].
  rewrite forallb_forall. setoid_rewrite <-list_elem_of_In. split.
  - intros Hall. split; [done|]. intros p Hpn. rewrite <-Hlen in Hpn.
    destruct (lookup_lt_is_Some_2 c p Hpn) as [b Hb].
    assert (b = true) as -> by (apply Hall; by eapply list_elem_of_lookup_2).
    apply Hc in Hb as [Hb|Hb]; [by apply lookup_replicate in Hb as [? _]|done].
  - intros [_ Hall] b (p & Hb)%list_elem_of_lookup.
    assert (p < RunningStage.partitions s) as Hpn by (rewrite <-Hlen; by eapply lookup_lt_Some).
    assert (c !! p = Some true) as Hb'; [|by simplify_eq]. apply Hc. right. by apply Hall.
Qed.

Lemma is_successful_spec s :
  running_wf s →
  ∃ b, RunningStage.is_successful s = Ok b ∧
    (b = true ↔
       PendingPartitions.queue (RunningStage.pending s) = [] ∧
       ∀ i ti, RunningStage.task_infos s !! i = Some ti → live ti = true →
               TaskInfo.is_successful ti = true).
Proof.
  intros Hwf. pose proof (wf_acc _ Hwf) as Ha.
  destruct (is_successful_covers s (running_wf_ok s Hwf)) as (b & Hb & Hiff).
  exists b. split; [done|]. rewrite Hiff. split; intros [Hq Hall]; (split; [done|]).
  - intros i ti Hi Hl.
    destruct (ids ti) as [|p ps] eqn:Hids; [by destruct (acc_nonempty _ _ _ Ha i ti)|].
    assert (p ∈ ids ti) as Hp by (rewrite Hids; left).
    pose proof (acc_bound _ _ _ Ha i ti p Hi Hp) as Hpn.
    apply Hall, elem_of_slices in Hpn as (j & tj & Hj & Hsj & Hpj).
    assert (i = j) as ->; [|by simplify_eq].
    eapply (accounted_live_unique _ _ _ i j ti tj p Ha); eauto using successful_is_live.
  - intros p Hpn. rewrite Hq in Ha.
    destruct (accounted_owner _ _ _ p Ha Hpn) as [Hin|(i & ti & Hi & Hl & Hp)];
      [by apply elem_of_nil in Hin|].
    apply elem_of_slices. exists i, ti. eauto.
Qed.

(** A stage that is not finished and in which no task failed for good has a
    task in flight or a partition to hand out. *)
Lemma not_stuck s :
  running_wf s → RunningStage.is_successful s = Ok false →
  (∀ i ti f, RunningStage.task_infos s !! i = Some ti →
     TaskInfo.task_status ti = Failed f → live ti = false) →
  RunningStage.running_tasks s ≠ [] ∨ 0 < RunningStage.available_tasks s.
Proof.
  intros Hwf Hns Hnf. destruct (is_successful_spec s Hwf) as (b & Hb & Hiff).
  rewrite Hb in Hns; simplify_eq.
  unfold RunningStage.available_tasks, PendingPartitions.remaining.
  destruct (PendingPartitions.queue (RunningStage.pending s)) as [|p q] eqn:Hq;
    [left|right; simpl; lia].
  intros Hrun. cut (false = true); [done|]. apply Hiff. split; [done|].
  intros i ti Hi Hl. unfold TaskInfo.is_successful.
  destruct (TaskInfo.task_status ti) as [e|f|?] eqn:Hst; [|by rewrite (Hnf i ti f) in Hl|done].
  exfalso. apply (not_elem_of_nil (i, RunningStage.stage_id s, e)). rewrite <-Hrun.
  apply list_elem_of_omap. exists (i, ti). simpl. rewrite Hst. split; [|done].
  apply list_elem_of_lookup. exists i. by rewrite list_lookup_imap, Hi.
Qed.

(** After an executor is lost, no task of the stage is counted on it. *)
Lemma reset_tasks_none_left e s i ti :
  RunningStage.task_infos (RunningStage.reset_tasks e s).2 !! i = Some ti →
  RunningStage.on_executor e ti = false.
Proof.
  simpl. intros Hi. apply list_lookup_fmap_Some in Hi as (tj & -> & _).
  unfold RunningStage.lose_one. by destruct (RunningStage.on_executor e tj) eqn:?.
Qed.
End running.

(** ** Re-running a finished stage *)
Section rerun.
Context `{PlanOps} `{Payload} `{PrecisionOps}.
Implicit Types (ti : TaskInfo.t) (infos l : list TaskInfo.t).

(** Whether the first task of [l] that holds [p] is successful. On the tasks
    from newest to oldest this is the latest attempt at [p]. *)
Fixpoint first_attempt (p : nat) l : option bool :=
  match l with
  | [] => None
  | ti :: l' =>
      if bool_decide (p ∈ ids ti) then Some (TaskInfo.is_successful ti)
      else first_attempt p l'
  end.

Lemma first_attempt_snoc p l ti :
  first_attempt p (l ++ [ti]) =
    match first_attempt p l with
    | Some b => Some b
    | None => if bool_decide (p ∈ ids ti) then Some (TaskInfo.is_successful ti) else None
    end.
Proof. induction l as [|ti' l IH]; simpl; [done|]. by destruct (bool_decide (p ∈ ids ti')). Qed.

Lemma first_attempt_rev p infos b :
  first_attempt p (rev infos) = Some b →
  ∃ i ti, infos !! i = Some ti ∧ p ∈ ids ti ∧ TaskInfo.is_successful ti = b ∧
          ∀ j tj, infos !! j = Some tj → p ∈ ids tj → j ≤ i.
Proof.
  induction infos as [|ti infos IH] using rev_ind; [done|].
  rewrite rev_app_distr; simpl. destruct (bool_decide_reflect (p ∈ ids ti)) as [Hp|Hp].
  - intros [= <-]. exists (length infos), ti. split_and!; [apply lookup_snoc_Some; by right|done|done|].
    intros j tj Hj _. apply lookup_lt_Some in Hj. rewrite length_app in Hj. simpl in Hj. lia.
  - intros (i & ti' & Hi & Hpi & Hs & Hmax)%IH. exists i, ti'.
    split_and!; [by apply lookup_app_l_Some|done|done|].
    intros j tj Hj Hpj. apply lookup_snoc_Some in Hj as [[_ Hj]|[-> <-]]; [eauto|done].
Qed.

Lemma first_attempt_rev_None p infos i ti :
  first_attempt p (rev infos) = None → infos !! i = Some ti → p ∉ ids ti.
Proof.
  induction infos as [|ti' infos IH] using rev_ind; [done|].
  rewrite rev_app_distr; simpl. destruct (bool_decide_reflect (p ∈ ids ti')) as [|Hp]; [done|].
  intros Hn Hi. apply lookup_snoc_Some in Hi as [[_ Hi]|[-> <-]]; [by apply IH|done].
Qed.

(** The state of the scan after the tasks of [l]. *)
Record scanned (n : nat) (l : list TaskInfo.t) (acc : list bool * list nat) : Prop := {
  sc_length : length acc.1 = n;
  sc_seen : ∀ p b, acc.1 !! p = Some b → b = true ↔ first_attempt p l ≠ None;
  sc_nodup : NoDup acc.2;
  sc_out : ∀ p, p ∈ acc.2 ↔ p < n ∧ first_attempt p l = Some false;
}.

(** One partition. *)
Lemma scan_partition_spec nr p0 (acc : list bool * list nat) :
  NoDup acc.2 → (∀ p, p ∈ acc.2 → acc.1 !! p = Some true) →
  let acc' := scan_partition nr acc p0 in
  length acc'.1 = length acc.1 ∧ NoDup acc'.2 ∧
  (∀ p, p ∈ acc'.2 → acc'.1 !! p = Some true) ∧
  (∀ p, acc'.1 !! p = if bool_decide (p = p0) then (λ _, true) <$> acc.1 !! p
                      else acc.1 !! p) ∧
  (∀ p, p ∈ acc'.2 ↔ p ∈ acc.2 ∨ (nr = true ∧ p = p0 ∧ acc.1 !! p = Some false)).
Proof.
  intros Hnd Hsub. unfold scan_partition.
  destruct (acc.1 !! p0) as [b|] eqn:Hp0; [destruct b|].
  1,3: split_and!; [done..| |]; intros p;
    [case_bool_decide; subst; by rewrite ?Hp0|];
    split; [by left|]; intros [?|(_ & -> & ?)]; [done|congruence].
  assert (p0 < length acc.1) by (by eapply lookup_lt_Some).
  assert (p0 ∉ acc.2) as Hnew by (intros ?%Hsub; congruence).
  assert (∀ p, p ∈ (if nr then acc.2 ++ [p0] else acc.2) ↔
               p ∈ acc.2 ∨ (nr = true ∧ p = p0)) as Hin.
  { intros p. destruct nr; [rewrite elem_of_app, list_elem_of_singleton; tauto|].
    split; [by left|by intros [?|[? _]]]. }
  simpl. split_and!.
  - apply length_insert.
  - destruct nr; [|done]. apply NoDup_app. split_and!; [done| |apply NoDup_singleton].
    by intros p Hp ->%list_elem_of_singleton.
  - intros p Hp%Hin. destruct (decide (p = p0)) as [->|]; [by apply list_lookup_insert_eq|].
    rewrite list_lookup_insert_ne by done. apply Hsub. by destruct Hp as [?|[_ ?]].
  - intros p. case_bool_decide; subst; [by rewrite list_lookup_insert_eq, Hp0|].
    by rewrite list_lookup_insert_ne.
  - intros p. rewrite Hin. split; (intros [?|Hr]; [by left|right]).
    + destruct Hr as [-> ->]. done.
    + by destruct Hr as (-> & -> & _).
Qed.

(** One slice. *)
Lemma scan_partitions_spec nr ps (acc : list bool * list nat) :
  NoDup acc.2 → (∀ p, p ∈ acc.2 → acc.1 !! p = Some true) →
  let acc' := foldl (scan_partition nr) acc ps in
  length acc'.1 = length acc.1 ∧ NoDup acc'.2 ∧
  (∀ p, acc'.1 !! p =
          if bool_decide (p ∈ ps) then (λ _, true) <$> acc.1 !! p else acc.1 !! p) ∧
  (∀ p, p ∈ acc'.2 ↔ p ∈ acc.2 ∨ (nr = true ∧ p ∈ ps ∧ acc.1 !! p = Some false)).
Proof.
  revert acc. induction ps as [|p0 ps IH]; intros acc Hnd Hsub; simpl.
  { split_and!; [done..|]. intros p. split; [by left|].
    intros [?|(_ & []%elem_of_nil & _)]; done. }
  destruct (scan_partition_spec nr p0 acc) as (Hlen1 & Hnd1 & Hsub1 & Hseen1 & Hout1); [done..|].
  destruct (IH (scan_partition nr acc p0)) as (Hlen & Hnd' & Hseen & Hout); [done..|].
  split_and!; [congruence|done| |].
  - intros p. rewrite Hseen, Hseen1. destruct (decide (p = p0)) as [->|Hne].
    + rewrite !(bool_decide_eq_true_2 (_ = _)), (bool_decide_eq_true_2 (_ ∈ _ :: _));
        [|by left|done]. case_bool_decide; [|done]. by destruct (acc.1 !! p0).
    + rewrite (bool_decide_eq_false_2 (p = p0)) by done.
      rewrite (bool_decide_ext (p ∈ p0 :: ps) (p ∈ ps)); [done|]. rewrite elem_of_cons. tauto.
  - intros p. rewrite Hout, Hout1, Hseen1, elem_of_cons.
    destruct (decide (p = p0)) as [->|Hne].
    + rewrite bool_decide_eq_true_2 by done.
      destruct (acc.1 !! p0) as [[]|] eqn:Hp0; simpl; intuition congruence.
    + rewrite bool_decide_eq_false_2 by done. tauto.
Qed.

Lemma scanned_step n l acc ti :
  scanned n l acc → scanned n (l ++ [ti]) (scan_task acc ti).
Proof.
  intros [Hlen Hseen Hnd Hout]. unfold scan_task.
  assert (∀ p, p ∈ acc.2 → acc.1 !! p = Some true) as Hsub.
  { intros p [Hp Hf]%Hout. rewrite <-Hlen in Hp.
    destruct (lookup_lt_is_Some_2 _ _ Hp) as [b Hb]. rewrite Hb.
    f_equal. apply (Hseen _ _ Hb). by rewrite Hf. }
  destruct (scan_partitions_spec (negb (TaskInfo.is_successful ti)) (ids ti) acc Hnd Hsub)
    as (Hlen' & Hnd' & Hseen' & Hout').
  split; [congruence| |done|].
  - intros p b Hb. rewrite first_attempt_snoc. rewrite Hseen' in Hb.
    destruct (first_attempt p l) as [b'|] eqn:Hf.
    + split; [done|]. intros _. case_bool_decide.
      * destruct (acc.1 !! p); by simplify_eq/=.
      * apply (Hseen p); [done|]. by rewrite Hf.
    + case_bool_decide; [destruct (acc.1 !! p); by simplify_eq/=|].
      rewrite (Hseen p b Hb), Hf. done.
  - intros p. rewrite Hout', Hout, first_attempt_snoc.
    destruct (decide (p < n)) as [Hp|Hp].
    + assert (∃ b, acc.1 !! p = Some b) as [b Hb]
        by (apply lookup_lt_is_Some_2; by rewrite Hlen).
      specialize (Hseen _ _ Hb). rewrite Hb.
      destruct (first_attempt p l) as [b'|] eqn:Hf.
      * assert (b = true) as -> by (by apply Hseen). intuition congruence.
      * destruct b; [by destruct (proj1 Hseen eq_refl)|].
        case_bool_decide; destruct (TaskInfo.is_successful ti); simpl; intuition congruence.
    + assert (acc.1 !! p = None) as -> by (apply lookup_ge_None; lia).
      intuition congruence.
Qed.

Lemma scanned_all n l : scanned n l (foldl scan_task (replicate n false, []) l).
Proof.
  induction l as [|ti l IH] using rev_ind; simpl.
  - split; simpl; [apply length_replicate| |constructor|].
    + intros p b Hb. apply lookup_replicate in Hb as [-> _]. done.
    + intros p. rewrite elem_of_nil. split; [done|by intros [_ ?]].
  - rewrite foldl_app. simpl. by apply scanned_step.
Qed.

(** The partitions rescheduled by [to_running] are the ones of the queue: here
    [q] is any list that accounts for the partitions no live task holds. *)
Lemma rescheduled_perm n q infos :
  accounted n q infos →
  (∀ i ti, infos !! i = Some ti → live ti = true → TaskInfo.is_successful ti = true) →
  (∀ p, p ∈ q → ∃ i ti, infos !! i = Some ti ∧ p ∈ ids ti) →
  (foldl scan_task (replicate n false, []) (rev infos)).2 ≡ₚ q.
Proof.
  intros Ha Hlive Hq. destruct (scanned_all n (rev infos)) as [_ _ Hnd Hout].
  pose proof (accounted_nodup _ _ _ Ha) as (Hndq & _ & _)%NoDup_app.
  apply NoDup_Permutation; [done..|]. intros p. rewrite Hout. split.
  - intros [Hp (i & ti & Hi & Hpi & Hs & Hmax)%first_attempt_rev].
    destruct (accounted_owner _ _ _ p Ha Hp) as [|(j & tj & Hj & Hlj & Hpj)]; [done|].
    pose proof (Hlive j tj Hj Hlj) as Hsj. pose proof (Hmax j tj Hj Hpj) as Hji.
    destruct (decide (j = i)) as [->|]; [simplify_eq; congruence|].
    by rewrite (acc_latest _ _ _ Ha j i tj ti p) in Hlj by (done || lia).
  - intros Hp. split; [by eapply accounted_queue_bound|].
    destruct (first_attempt p (rev infos)) as [[]|] eqn:Hf; [|done|].
    + apply first_attempt_rev in Hf as (i & ti & Hi & Hpi & Hs & _).
      pose proof (accounted_queue_not_live _ _ _ i ti p Ha Hp Hi Hpi) as Hl.
      by rewrite successful_is_live in Hl.
    + destruct (Hq p Hp) as (i & ti & Hi & Hpi).
      by destruct (first_attempt_rev_None p infos i ti Hf Hi).
Qed.

(** A finished stage: every partition is in the slice of a successful task. *)
Record successful_wf (s : SuccessfulStage.t) : Prop := {
  swf_acc : accounted (SuccessfulStage.partitions s) [] (SuccessfulStage.task_infos s);
  swf_live : ∀ i ti, SuccessfulStage.task_infos s !! i = Some ti → live ti = true →
                     TaskInfo.is_successful ti = true;
}.

Lemma to_successful_wf s :
  running_wf s → RunningStage.is_successful s = Ok true →
  successful_wf (RunningStage.to_successful s).
Proof.
  intros Hwf Hs. destruct (is_successful_spec s Hwf) as (b & Hb & Hiff).
  rewrite Hb in Hs; simplify_eq. destruct (proj1 Hiff eq_refl) as [Hq Hlive].
  split; simpl; [rewrite <-Hq; apply (wf_acc _ Hwf)|done].
Qed.

(** A finished stage some tasks of which may be marked as lost: [q] lists the
    partitions that no successful task holds any more. *)
Record finished_wf (q : list nat) (s : SuccessfulStage.t) : Prop := {
  fwf_acc : accounted (SuccessfulStage.partitions s) q (SuccessfulStage.task_infos s);
  fwf_live : ∀ i ti, SuccessfulStage.task_infos s !! i = Some ti → live ti = true →
                     TaskInfo.is_successful ti = true;
  fwf_held : ∀ p, p ∈ q → ∃ i ti, SuccessfulStage.task_infos s !! i = Some ti ∧ p ∈ ids ti;
}.

Lemma successful_finished s : successful_wf s → finished_wf [] s.
Proof. intros [Ha Hl]. split; [done..|]. by intros p ?%elem_of_nil. Qed.

Lemma to_running_queue now s :
  PendingPartitions.queue (RunningStage.pending (SuccessfulStage_to_running now s))
    = merge_sort (≤)
        (foldl scan_task (replicate (SuccessfulStage.partitions s) false, [])
           (rev (SuccessfulStage.task_infos s))).2.
Proof.
  unfold SuccessfulStage_to_running; cbn -[PendingPartitions.reschedule].
  rewrite reschedule_queue. apply app_nil_r.
Qed.

(** [to_running] schedules exactly the lost partitions, in increasing order. *)
Lemma to_running_wf now q s :
  finished_wf q s →
  let r := SuccessfulStage_to_running now s in
  running_wf r ∧
  Sorted (≤) (PendingPartitions.queue (RunningStage.pending r)) ∧
  PendingPartitions.queue (RunningStage.pending r) ≡ₚ q.
Proof.
  intros [Ha Hlive Hq]. pose proof (rescheduled_perm _ _ _ Ha Hlive Hq) as Hperm.
  cbv zeta. split_and!.
  - split; [|apply length_replicate]. rewrite to_running_queue. simpl.
    destruct Ha as [Hp ? ? ?]. split; [|done..].
    by rewrite merge_sort_Permutation, Hperm.
  - rewrite to_running_queue. apply Sorted_merge_sort. apply _.
  - rewrite to_running_queue. by rewrite merge_sort_Permutation.
Qed.

(** Marking every live task that satisfies [f] adds their slices to the lost
    partitions. *)
Lemma finished_lose q s (f : TaskInfo.t → bool) (h : TaskInfo.t → TaskInfo.t) :
  finished_wf q s →
  (∀ ti, ids (h ti) = ids ti) →
  (∀ ti, live (h ti) = live ti && negb (f ti)) →
  (∀ ti, f ti = true → live ti = true) →
  (∀ ti, f ti = false → h ti = ti) →
  finished_wf (slices f (SuccessfulStage.task_infos s) ++ q)
    (SuccessfulStage.set_task_infos (h <$> SuccessfulStage.task_infos s) s).
Proof.
  intros [Ha Hlive Hq] Hids Hl Hf Hh. split; simpl.
  - by apply accounted_lose.
  - intros i ti Hi Hli. apply list_lookup_fmap_Some in Hi as (tj & -> & Hi).
    rewrite Hl in Hli. apply andb_true_iff in Hli as [Hlj Hfj%negb_true_iff].
    rewrite Hh by done. eauto.
  - intros p [(i & ti & Hi & _ & Hp)%elem_of_slices|(i & ti & Hi & Hp)%Hq]%elem_of_app;
      exists i, (h ti); by rewrite list_lookup_fmap, Hi, Hids.
Qed.

(** Marking one task, whether or not it was marked before. *)
Lemma finished_mark q s i ti ti' :
  finished_wf q s → SuccessfulStage.task_infos s !! i = Some ti →
  ids ti' = ids ti → live ti' = false →
  finished_wf ((if live ti then ids ti else []) ++ q)
    (SuccessfulStage.set_task_infos (<[i := ti']> (SuccessfulStage.task_infos s)) s).
Proof.
  intros [Ha Hlive Hq] Hi Hids Hl'.
  assert (i < length (SuccessfulStage.task_infos s)) by (by eapply lookup_lt_Some).
  split; simpl.
  - destruct (live ti) eqn:Hl; [by eapply accounted_reset|].
    eapply accounted_update; eauto.
  - intros j tj [(<- & <- & ?)|[? Hj]]%list_lookup_insert_Some Hlj; [congruence|eauto].
  - assert (∀ p, (∃ j tj, SuccessfulStage.task_infos s !! j = Some tj ∧ p ∈ ids tj) →
      ∃ j tj, <[i:=ti']> (SuccessfulStage.task_infos s) !! j = Some tj ∧ p ∈ ids tj) as Hm.
    { intros p (j & tj & Hj & Hp). destruct (decide (j = i)) as [->|].
      - exists i, ti'. rewrite list_lookup_insert_eq by done. simplify_eq. by rewrite Hids.
      - exists j, tj. by rewrite list_lookup_insert_ne by done. }
    intros p Hp. apply Hm.
    apply elem_of_app in Hp as [Hp|Hp]; [|by apply Hq].
    destruct (live ti); [eauto|by apply elem_of_nil in Hp].
Qed.
End rerun.

(** ** Column statistics *)
Section column_stats.
Context `{PlanOps} `{Payload} `{PrecisionOps}.
Implicit Types (infos : list TaskInfo.t) (c : nat).

(** What the stage relies on in [Precision::add]: exact counts add up, and
    nothing can be added to an absent one. *)
Class PrecisionLaws : Prop := {
  add_exact : ∀ a b, (a + b ≤ usize_max)%N →
                     precision_add (Exact a) (Exact b) = Exact (a + b);
  add_absent : ∀ x, precision_add Absent x = Absent;
}.
Context `{PrecisionLaws}.

(** The null counts a task reported for column [c]. *)
Definition reported_nulls c (stats : list TaskColumnStats.t) : list N :=
  TaskColumnStats.null_count <$> filter (λ cs, TaskColumnStats.column cs = c) stats.

Definition sum_N (l : list N) : N := foldr N.add 0%N l.

Definition task_stats (ti : TaskInfo.t) : option (list TaskColumnStats.t) :=
  match TaskInfo.task_status ti with
  | Successful s => Some (SuccessfulTask.task_column_stats s)
  | _ => None
  end.

(** All counts reported for [c] by the successful tasks. *)
Definition all_nulls c infos : list N :=
  concat (reported_nulls c <$> omap task_stats infos).

(** Every successful task reported column [c]. *)
Definition all_reported c infos : bool :=
  forallb (λ stats : list TaskColumnStats.t,
             bool_decide (c ∈ TaskColumnStats.column <$> stats)) (omap task_stats infos).

Lemma add_column_stats_lengths stats acc :
  let acc' := foldl RunningStage.add_column_stats acc stats in
  length acc'.1 = length acc.1 ∧ length acc'.2 = length acc.2.
Proof.
  revert acc. induction stats as [|cs stats IH]; intros acc; simpl; [done|].
  destruct (IH (RunningStage.add_column_stats acc cs)) as [-> ->].
  unfold RunningStage.add_column_stats. destruct (acc.1 !! _); simpl; [|done].
  by rewrite !length_insert.
Qed.

(** The slot and the flag of one column after the stats of one task. *)
Lemma add_column_stats_slot stats acc c x r :
  length acc.2 = length acc.1 →
  acc.1 !! c = Some x → acc.2 !! c = Some r →
  let acc' := foldl RunningStage.add_column_stats acc stats in
  acc'.1 !! c = Some (foldl precision_add x (Exact <$> reported_nulls c stats)) ∧
  acc'.2 !! c = Some (r || bool_decide (c ∈ TaskColumnStats.column <$> stats)).
Proof.
  revert acc x r. induction stats as [|cs stats IH]; intros acc x r Hlen Hx Hr; simpl.
  { by rewrite Hx, Hr, orb_false_r. }
  destruct (decide (TaskColumnStats.column cs = c)) as [<-|Hne].
  - destruct (IH (RunningStage.add_column_stats acc cs)
                (precision_add x (Exact (TaskColumnStats.null_count cs))) true) as [-> ->].
    1-3: unfold RunningStage.add_column_stats; rewrite Hx; simpl;
      rewrite ?length_insert, ?list_lookup_insert_eq;
      first [done | by eapply lookup_lt_Some].
    unfold reported_nulls. rewrite filter_cons_True by done. simpl. split; [done|].
    rewrite bool_decide_eq_true_2 by left. by rewrite orb_true_r.
  - destruct (IH (RunningStage.add_column_stats acc cs) x r) as [-> ->].
    1-3: unfold RunningStage.add_column_stats; destruct (acc.1 !! TaskColumnStats.column cs);
      simpl; rewrite ?length_insert, ?list_lookup_insert_ne; done.
    unfold reported_nulls. rewrite filter_cons_False by done. split; [done|].
    do 2 f_equal. apply bool_decide_ext. rewrite elem_of_cons. naive_solver.
Qed.

Set Default Proof Using "Type*".

Lemma precision_sum_exact (l : list N) k :
  (k + sum_N l ≤ usize_max)%N →
  foldl precision_add (Exact k) (Exact <$> l) = Exact (k + sum_N l).
Proof.
  revert k. induction l as [|n l IH]; intros k Hk; simpl in *; [by rewrite N.add_0_r|].
  rewrite add_exact by lia. rewrite IH by lia. f_equal. lia.
Qed.

Lemma precision_sum_absent (l : list N) :
  foldl precision_add Absent (Exact <$> l) = Absent.
Proof. induction l as [|n l IH]; simpl; [done|]. by rewrite add_absent. Qed.

Lemma sum_N_app l1 l2 : sum_N (l1 ++ l2) = (sum_N l1 + sum_N l2)%N.
Proof. induction l1 as [|n l1 IH]; simpl; [done|]. rewrite IH. lia. Qed.

Lemma fold_task_stats_length slots ti :
  length (RunningStage.fold_task_stats slots ti) = length slots.
Proof.
  unfold RunningStage.fold_task_stats. destruct (TaskInfo.task_status ti); [done..|].
  rewrite length_zip_with. edestruct add_column_stats_lengths as [-> ->].
  simpl. rewrite length_replicate. lia.
Qed.

(** The slot of one column after one task. *)
Lemma fold_task_stats_slot slots ti c x :
  slots !! c = Some x →
  RunningStage.fold_task_stats slots ti !! c = Some
    match task_stats ti with
    | Some stats =>
        if bool_decide (c ∈ TaskColumnStats.column <$> stats)
        then foldl precision_add x (Exact <$> reported_nulls c stats) else Absent
    | None => x
    end.
Proof.
  intros Hx. unfold RunningStage.fold_task_stats, task_stats.
  destruct (TaskInfo.task_status ti) as [| |st]; [done..|].
  assert (c < length slots) by (by eapply lookup_lt_Some).
  destruct (add_column_stats_slot (SuccessfulTask.task_column_stats st)
    (slots, replicate (length slots) false) c x false) as [H1' H2'].
  { simpl. by rewrite length_replicate. }
  { done. }
  { simpl. by apply lookup_replicate_2. }
  rewrite lookup_zip_with, H1', H2'. simpl. by case_bool_decide.
Qed.

Lemma all_nulls_cons c ti infos :
  all_nulls c (ti :: infos) =
    match task_stats ti with Some stats => reported_nulls c stats | None => [] end
      ++ all_nulls c infos.
Proof. unfold all_nulls. simpl. by destruct (task_stats ti). Qed.

Lemma all_reported_cons c ti infos :
  all_reported c (ti :: infos) =
    match task_stats ti with
    | Some stats => bool_decide (c ∈ TaskColumnStats.column <$> stats)
    | None => true
    end && all_reported c infos.
Proof. unfold all_reported. simpl. by destruct (task_stats ti). Qed.

Lemma output_column_stats_slot infos slots c x k :
  slots !! c = Some x → x = Absent ∨ x = Exact k →
  (k + sum_N (all_nulls c infos) ≤ usize_max)%N →
  foldl RunningStage.fold_task_stats slots infos !! c = Some
    (if all_reported c infos
     then match x with
          | Exact k => Exact (k + sum_N (all_nulls c infos))
          | _ => Absent
          end
     else Absent).
Proof.
  revert slots x k. induction infos as [|ti infos IH]; intros slots x k Hx Hk Hle; simpl.
  { rewrite Hx. destruct Hk as [->| ->]; [done|]. unfold all_nulls; simpl.
    by rewrite N.add_0_r. }
  pose proof (fold_task_stats_slot slots ti c x Hx) as Hs.
  rewrite all_nulls_cons, all_reported_cons, sum_N_app in *.
  destruct (task_stats ti) as [stats|]; [|by eapply IH; eauto; simpl in *; lia].
  case_bool_decide; simpl andb.
  - destruct Hk as [->| ->].
    + rewrite precision_sum_absent in Hs. rewrite (IH _ Absent 0%N Hs); [|by left|lia].
      by destruct (all_reported c infos).
    + rewrite precision_sum_exact in Hs by lia.
      rewrite (IH _ (Exact _) (k + sum_N (reported_nulls c stats))%N Hs); [|by right|lia].
      by rewrite N.add_assoc.
  - rewrite (IH _ Absent 0%N Hs); [|by left|lia]. by destruct (all_reported c infos).
Qed.
End column_stats.

(** ** Metrics of a stage *)
Section metrics.
Context `{PlanOps} `{Payload} `{PrecisionOps}.
Implicit Types (ms : list Metric.t) (gp : list nat) (p : nat).

(** The metrics of one partition. *)
Definition tagged p ms : list Metric.t := filter (λ m, Metric.partition m = Some p) ms.

Lemma metric_tags_in local gp p :
  Some p ∈ RunningStage.metric_tags local gp → p ∈ gp.
Proof.
  unfold RunningStage.metric_tags. destruct local as [i|].
  - destruct (gp !! i) as [q|] eqn:Hq.
    + intros [= ->]%list_elem_of_singleton. by eapply list_elem_of_lookup_2.
    + destruct gp as [|q [|q' gp]]; [by intros ?%elem_of_nil|..].
      * intros [= ->]%list_elem_of_singleton. left.
      * by intros (? & [= ->] & ?)%list_elem_of_fmap.
  - by intros ?%list_elem_of_singleton.
Qed.

Lemma task_metrics_owned (l : OperatorMetricsSet) gp v m p :
  RunningStage.metrics_set_from_task_metrics l gp = Ok v →
  m ∈ v → Metric.partition m = Some p → p ∈ gp.
Proof.
  revert v. induction l as [|om l IH]; intros v Hv Hm Hp; simpl in Hv.
  { simplify_eq. by apply elem_of_nil in Hm. }
  destruct (OperatorMetric.metric om) as [inner|]; [|done].
  destruct (metric_try_into inner) as [val| |]; simpl in Hv; try done.
  destruct (RunningStage.metrics_set_from_task_metrics l gp) as [rest| |];
    simpl in Hv; try done. simplify_eq.
  apply elem_of_app in Hm as [(tag & -> & Htag)%list_elem_of_fmap|Hm]; [|by eapply IH].
  simpl in Hp. subst. by eapply metric_tags_in.
Qed.

Lemma collect_metrics_owned (l : list OperatorMetricsSet) gp vals :
  RunningStage.collect_metrics l gp = Ok vals →
  length vals = length l ∧
  ∀ k v m p, vals !! k = Some v → m ∈ v → Metric.partition m = Some p → p ∈ gp.
Proof.
  revert vals. induction l as [|om l IH]; intros vals Hv; simpl in Hv; [by simplify_eq|].
  destruct (RunningStage.metrics_set_from_task_metrics om gp) as [v| |] eqn:Hone;
    simpl in Hv; try done.
  destruct (RunningStage.collect_metrics l gp) as [rest| |]; simpl in Hv; try done.
  simplify_eq. destruct (IH rest eq_refl) as [Hlen Hin]. simpl. split; [by rewrite Hlen|].
  intros [|k] v' m p Hk; simpl in Hk; simplify_eq; [by eapply task_metrics_owned|eauto].
Qed.

Lemma tagged_app p ms ms' : tagged p (ms ++ ms') = tagged p ms ++ tagged p ms'.
Proof. apply filter_app. Qed.

Lemma tagged_nothing p ms :
  (∀ m, m ∈ ms → Metric.partition m ≠ Some p) → tagged p ms = [].
Proof.
  intros Hn. unfold tagged. induction ms as [|m ms IH]; [done|].
  rewrite filter_cons_False by (apply Hn; left). apply IH. intros m' Hm'. apply Hn. by right.
Qed.

Lemma tagged_upsert p ms new gp :
  (∀ m q, m ∈ new → Metric.partition m = Some q → q ∈ gp) →
  tagged p (RunningStage.upsert_metrics_set_for_task ms new gp) =
    if bool_decide (p ∈ gp) then tagged p new else tagged p ms.
Proof.
  intros Hnew. unfold RunningStage.upsert_metrics_set_for_task.
  rewrite tagged_app. case_bool_decide as Hp.
  - rewrite (tagged_nothing p (filter _ ms)); [done|].
    intros m [Ho _]%list_elem_of_filter Hm. unfold RunningStage.owned_by_task in Ho.
    rewrite Hm in Ho. by rewrite bool_decide_true in Ho.
  - rewrite (tagged_nothing p new), app_nil_r; [|by intros m Hm Hq; eapply Hp, Hnew].
    unfold tagged. rewrite list_filter_filter. apply list_filter_iff. intros m.
    split; [by intros []|]. intros Hm. split; [done|].
    unfold RunningStage.owned_by_task. rewrite Hm. by apply bool_decide_false.
Qed.

(** The metrics of the partitions of the task are those of its report, the ones
    of the other partitions are kept. *)
Lemma update_task_metrics_spec i l (s s' : RunningStage.t) ti :
  RunningStage.task_infos s !! i = Some ti → l ≠ [] →
  RunningStage.update_task_metrics i l s = (Ok tt, s') →
  ∃ vals out,
    RunningStage.collect_metrics l (ids ti) = Ok vals ∧
    RunningStage.stage_metrics s' = Some out ∧ length out = length vals ∧
    ∀ k v o p, vals !! k = Some v → out !! k = Some o →
      tagged p o = if bool_decide (p ∈ ids ti) then tagged p v
                   else tagged p (default [] (default [] (RunningStage.stage_metrics s) !! k)).
Proof.
  intros Hi Hl. unfold RunningStage.update_task_metrics.
  destruct l as [|om l]; [done|]. rewrite Hi. cbv zeta. set (l0 := om :: l).
  destruct (RunningStage.stage_metrics s) as [old|] eqn:Hold.
  - case_bool_decide as Hlen; [|done].
    destruct (RunningStage.collect_metrics l0 (ids ti)) as [vals| |] eqn:Hc; simpl; try done.
    destruct (collect_metrics_owned _ _ _ Hc) as [Hlv Hown].
    intros [= <-]. eexists vals, _. split_and!; [done..| |].
    { rewrite length_zip_with. lia. }
    intros k v o p Hv (x & y & -> & Hx & Hy)%lookup_zip_with_Some. simplify_eq.
    rewrite Hx. apply tagged_upsert. intros m q. by eapply Hown.
  - destruct (RunningStage.collect_metrics l0 (ids ti)) as [vals| |] eqn:Hc; try done.
    destruct (collect_metrics_owned _ _ _ Hc) as [_ Hown].
    intros [= <-]. eexists vals, vals. split_and!; [done..|].
    intros k v o p Hv Ho. simplify_eq. case_bool_decide as Hp; [done|].
    transitivity (@nil Metric.t); [|done]. apply tagged_nothing. intros m Hm Hq. by eapply Hp, Hown.
Qed.
End metrics.
