(* ===== verification/StageSteps.v ===== *)
(** * The state machine of a stage

    The steps a stage can take, as a relation between values of
    [ExecutionStage], with the invariants that hold along them by rule
    induction: no partition is lost, each partition is held once, attempts only
    grow. The handlers of the graph are shown to follow these steps in
    [GraphSteps]. *)

From S2P Require Import Prelude Errors Types Stage StageFacts.

Section steps.
Context `{PlanOps} `{Payload} `{PrecisionOps}.
Implicit Types (s : RunningStage.t) (r : ResolvedStage.t) (x y : ExecutionStage).

(** Whether a status leaves the task live. *)
Definition live_status (st : status) : bool :=
  match st with
  | Failed f =>
      match failed_reason f with
      | Some FR_TaskKilled | Some FR_ResultLost => false
      | _ => true
      end
  | _ => true
  end.

Lemma live_of_status (ti : TaskInfo.t) : live ti = live_status (TaskInfo.task_status ti).
Proof.
  unfold live, TaskInfo.is_reset, live_status.
  destruct (TaskInfo.task_status ti) as [?|f|?]; [done| |done].
  by destruct (failed_reason f) as [[]|].
Qed.

(** ** Steps of a running stage

    What is known of the reports and resets that move a stage: nothing; every task that is
    reported killed is retried; and, in addition, tasks are reset only while they are live. *)
Inductive mode : Type := Lenient | Retrying | Strict.

Inductive run_step (strict : mode) : RunningStage.t → RunningStage.t → Prop :=
| Run_bind s ti q1 q2 :
    PendingPartitions.queue (RunningStage.pending s) = q1 ++ q2 →
    q1 ≠ [] → ids ti = q1 → live ti = true →
    run_step strict s
      (RunningStage.set_pending
         (PendingPartitions.mk (PendingPartitions.total (RunningStage.pending s)) q2)
         (RunningStage.set_task_infos (RunningStage.task_infos s ++ [ti]) s))
| Run_report now i st v s ti :
    RunningStage.task_infos s !! i = Some ti → live ti = true →
    TaskStatus.status st = Some v → live_status v = true →
    run_step strict s (RunningStage.update_task_info now i st s).2
| Run_give_up now i st v s ti :
    strict = Lenient → RunningStage.task_infos s !! i = Some ti → live ti = true →
    TaskStatus.status st = Some v → given_up_status v = true →
    run_step strict s (RunningStage.update_task_info now i st s).2
| Run_retry now i st v s ti :
    RunningStage.task_infos s !! i = Some ti → live ti = true →
    TaskStatus.status st = Some v →
    run_step strict s
      (RunningStage.reset_task_info i (RunningStage.update_task_info now i st s).2).2
| Run_reset i s ti :
    RunningStage.task_infos s !! i = Some ti → (strict = Strict → live ti = true) →
    run_step strict s (RunningStage.reset_task_info i s).2
| Run_lose e s : run_step strict s (RunningStage.reset_tasks e s).2
| Run_inputs m s : run_step strict s (RunningStage.set_inputs m s)
| Run_metrics m s : run_step strict s (RunningStage.set_stage_metrics m s)
| Run_reports a b s : run_step strict s (RunningStage.set_reports a b s).

(** ** Steps of a stage *)
Inductive stage_step (strict : mode) : ExecutionStage → ExecutionStage → Prop :=
| Step_inputs m u :
    stage_step strict (UnResolved u) (UnResolved (UnresolvedStage.set_inputs m u))
| Step_reason e u :
    stage_step strict (UnResolved u) (UnResolved (UnresolvedStage.add_failure_reason e u))
| Step_resolve opts u r :
    UnresolvedStage_to_resolved opts u = Ok r →
    stage_step strict (UnResolved u) (Resolved r)
| Step_resolved_inputs m r :
    stage_step strict (Resolved r) (Resolved (ResolvedStage.set_inputs m r))
| Step_unresolve r u :
    ResolvedStage.to_unresolved r = Ok u → stage_step strict (Resolved r) (UnResolved u)
| Step_start now r : stage_step strict (Resolved r) (RunningS (ResolvedStage.to_running now r))
| Step_run s s' : run_step strict s s' → stage_step strict (RunningS s) (RunningS s')
| Step_rollback reasons s u :
    RunningStage.to_unresolved reasons s = Ok u →
    stage_step strict (RunningS s) (UnResolved u)
| Step_succeed s :
    RunningStage.is_successful s = Ok true →
    stage_step strict (RunningS s) (SuccessfulS (RunningStage.to_successful s))
| Step_fail msg s : stage_step strict (RunningS s) (FailedS (RunningStage.to_failed msg s))
| Step_mark i st (f : SuccessfulStage.t) ti :
    SuccessfulStage.task_infos f !! i = Some ti → live_status st = false → given_up_status st = false →
    stage_step strict (SuccessfulS f)
      (SuccessfulS (SuccessfulStage.set_task_infos
         (<[i := TaskInfo.set_status st ti]> (SuccessfulStage.task_infos f)) f))
| Step_lose e f :
    stage_step strict (SuccessfulS f) (SuccessfulS (SuccessfulStage.reset_tasks e f).2)
| Step_rerun now f :
    stage_step strict (SuccessfulS f) (RunningS (SuccessfulStage_to_running now f)).

Definition stage_key (x : ExecutionStage) : nat :=
  match x with
  | UnResolved s => UnresolvedStage.stage_id s
  | Resolved s => ResolvedStage.stage_id s
  | RunningS s => RunningStage.stage_id s
  | SuccessfulS s => SuccessfulStage.stage_id s
  | FailedS s => FailedStage.stage_id s
  end.

Definition attempt_of (x : ExecutionStage) : nat :=
  match x with
  | UnResolved s => UnresolvedStage.stage_attempt_num s
  | Resolved s => ResolvedStage.stage_attempt_num s
  | RunningS s => RunningStage.stage_attempt_num s
  | SuccessfulS s => SuccessfulStage.stage_attempt_num s
  | FailedS s => FailedStage.stage_attempt_num s
  end.

(** No partition of the stage is lost. *)
Definition stage_ok (x : ExecutionStage) : Prop :=
  match x with
  | RunningS s => running_ok s
  | SuccessfulS s =>
      (∀ p, p < SuccessfulStage.partitions s →
         ∃ i ti, SuccessfulStage.task_infos s !! i = Some ti ∧ p ∈ ids ti) ∧
      (∀ i ti p, SuccessfulStage.task_infos s !! i = Some ti → p ∈ ids ti →
         p < SuccessfulStage.partitions s)
  | _ => True
  end.

(** Each partition of the stage is held once. *)
Definition stage_wf (x : ExecutionStage) : Prop :=
  match x with
  | RunningS s => running_wf s
  | SuccessfulS s => ∃ q, finished_wf q s
  | _ => True
  end.

(** ** What one step keeps *)

Lemma update_task_info_frame now i st s :
  let s' := (RunningStage.update_task_info now i st s).2 in
  RunningStage.stage_id s' = RunningStage.stage_id s ∧
  RunningStage.stage_attempt_num s' = RunningStage.stage_attempt_num s ∧
  RunningStage.output_links s' = RunningStage.output_links s ∧
  length (RunningStage.task_infos s') = length (RunningStage.task_infos s).
Proof.
  unfold RunningStage.update_task_info. repeat case_match; simpl; rewrite ?length_insert; done.
Qed.

Lemma reset_task_info_frame i s :
  let s' := (RunningStage.reset_task_info i s).2 in
  RunningStage.stage_id s' = RunningStage.stage_id s ∧
  RunningStage.stage_attempt_num s' = RunningStage.stage_attempt_num s ∧
  RunningStage.output_links s' = RunningStage.output_links s ∧
  length (RunningStage.task_infos s') = length (RunningStage.task_infos s).
Proof.
  unfold RunningStage.reset_task_info. case_match; simpl; rewrite ?length_insert; done.
Qed.

Lemma run_step_frame strict s s' :
  run_step strict s s' →
  RunningStage.stage_id s' = RunningStage.stage_id s ∧
  RunningStage.stage_attempt_num s' = RunningStage.stage_attempt_num s ∧
  RunningStage.output_links s' = RunningStage.output_links s.
Proof.
  destruct 1 as [| now i st v s ti _ _ _ _ | now i st v s ti _ _ _ _ _ | now i st v s ti _ _ _ | i s ti _ _| | | |];
    try done.
  - by destruct (update_task_info_frame now i st s) as (-> & -> & -> & _).
  - by destruct (update_task_info_frame now i st s) as (-> & -> & -> & _).
  - destruct (reset_task_info_frame i (RunningStage.update_task_info now i st s).2)
      as (-> & -> & -> & _).
    by destruct (update_task_info_frame now i st s) as (-> & -> & -> & _).
  - by destruct (reset_task_info_frame i s) as (-> & -> & -> & _).
Qed.

(** A stage keeps its id and its links, and its attempt number never decreases. *)
Lemma stage_step_frame strict x y :
  stage_step strict x y →
  stage_key y = stage_key x ∧ stage_output_links y = stage_output_links x ∧
  attempt_of x ≤ attempt_of y.
Proof.
  assert (∀ (p : result Plan) A (k : Plan → A) (a : A),
    obind p (λ z : Plan, Ok (k z)) = Ok a → ∃ z : Plan, a = k z) as Hbind.
  { intros p A k a. destruct p; simpl; intros; simplify_eq. eauto. }
  destruct 1 as [| | opts u r Hr | | r u Hu | | s s' Hs | rs s u Hu | | | | |]; simpl;
    try (split_and!; (done || lia)).
  - unfold UnresolvedStage_to_resolved in Hr.
    destruct (remove_unresolved_shuffles _ _) as [p1| |]; simplify_eq/=.
    destruct (join_selection_optimize _ _) as [p2| |]; simplify_eq/=.
    apply Hbind in Hr as [? ->]. done.
  - apply Hbind in Hu as [? ->]. done.
  - apply run_step_frame in Hs as (-> & -> & ->). done.
  - apply Hbind in Hu as [? ->]. simpl. split_and!; (done || lia).
Qed.

(** ** No partition is lost *)

Lemma update_task_info_ok now i st v s ti :
  running_ok s → RunningStage.task_infos s !! i = Some ti → live ti = true →
  TaskStatus.status st = Some v → live_status v = true ∨ given_up_status v = true →
  running_ok (RunningStage.update_task_info now i st s).2.
Proof.
  intros Hok Hi Hl Hst Hv.
  destruct (update_task_info_accepts now i st v s ti)
    as (ti' & ns & -> & Hids & Hs & ? & _); auto.
  split; simpl; [|done].
  eapply covered_insert; [apply (ok_cov _ Hok)|done|done| |done|by left].
  left. unfold owns, given_up. rewrite live_of_status, Hs. apply orb_true_iff. tauto.
Qed.

Lemma reset_task_info_ok i s :
  running_ok s → running_ok (RunningStage.reset_task_info i s).2.
Proof.
  intros Hok. unfold RunningStage.reset_task_info.
  destruct (RunningStage.task_infos s !! i) as [ti|] eqn:Hi; [|done].
  split; [|apply (ok_numbers _ Hok)].
  unfold RunningStage.purge_reports; cbn -[PendingPartitions.reschedule].
  rewrite reschedule_queue.
  eapply covered_insert; [apply (ok_cov _ Hok)|done|done|right; set_solver|set_solver|].
  intros p [?|?]%elem_of_app; auto.
Qed.

Lemma update_then_reset_ok now i st v s ti :
  running_ok s → RunningStage.task_infos s !! i = Some ti → live ti = true →
  TaskStatus.status st = Some v →
  running_ok (RunningStage.reset_task_info i (RunningStage.update_task_info now i st s).2).2.
Proof.
  intros Hok Hi Hl Hst.
  destruct (update_task_info_accepts now i st v s ti)
    as (ti' & ns & -> & Hids & _ & ? & _); auto.
  assert (i < length (RunningStage.task_infos s)) by (by eapply lookup_lt_Some).
  unfold RunningStage.reset_task_info; simpl. rewrite list_lookup_insert_eq by done.
  split; [|done]. unfold RunningStage.purge_reports; cbn -[PendingPartitions.reschedule].
  rewrite reschedule_queue, Hids, list_insert_insert_eq.
  eapply covered_insert; [apply (ok_cov _ Hok)|done|done|right; set_solver|set_solver|].
  intros p [?|?]%elem_of_app; auto.
Qed.

Lemma lose_one_ids e (ti : TaskInfo.t) : ids (RunningStage.lose_one e ti) = ids ti.
Proof. unfold RunningStage.lose_one. by destruct (RunningStage.on_executor e ti). Qed.

Lemma lose_one_live e (ti : TaskInfo.t) :
  live (RunningStage.lose_one e ti) = live ti && negb (RunningStage.on_executor e ti).
Proof.
  unfold RunningStage.lose_one.
  destruct (RunningStage.on_executor e ti); simpl; [by rewrite andb_false_r|].
  by rewrite andb_true_r.
Qed.

Lemma lose_one_owns e (ti : TaskInfo.t) :
  owns (RunningStage.lose_one e ti) = owns ti && negb (RunningStage.on_executor e ti).
Proof.
  unfold owns. rewrite lose_one_live. unfold RunningStage.lose_one, given_up, given_up_status, RunningStage.on_executor.
  destruct (TaskInfo.task_status ti) as [x|f|x] eqn:E; try case_bool_decide; simpl; rewrite ?E, ?andb_true_r, ?andb_false_r, ?orb_false_r; done.
Qed.

Lemma reset_tasks_ok e s : running_ok s → running_ok (RunningStage.reset_tasks e s).2.
Proof.
  intros Hok. unfold RunningStage.reset_tasks. simpl. split; [|apply (ok_numbers _ Hok)].
  unfold RunningStage.purge_reports; cbn -[PendingPartitions.reschedule].
  rewrite reschedule_queue.
  apply covered_lose with (f := RunningStage.on_executor e);
    [apply (ok_cov _ Hok)|apply lose_one_ids|apply lose_one_owns].
Qed.

Lemma run_step_ok strict s s' : run_step strict s s' → running_ok s → running_ok s'.
Proof.
  destruct 1 as [s ti q1 q2 Hq _ Hids Hl| | | | | | | |]; intros Hok.
  - split; [|apply (ok_numbers _ Hok)].
    eapply covered_bind; [|done|done]. simpl. rewrite <-Hq. apply (ok_cov _ Hok).
  - eapply update_task_info_ok; eauto.
  - eapply update_task_info_ok; eauto.
  - by eapply update_then_reset_ok.
  - by apply reset_task_info_ok.
  - by apply reset_tasks_ok.
  - destruct Hok; by split.
  - destruct Hok; by split.
  - destruct Hok; by split.
Qed.

(** The tasks of a finished stage that hold [p], from the newest one: the
    partitions of which it is not successful are scheduled again. *)
Lemma to_running_ok now (f : SuccessfulStage.t) :
  stage_ok (SuccessfulS f) → running_ok (SuccessfulStage_to_running now f).
Proof.
  intros [Hheld Hb].
  destruct (scanned_all (SuccessfulStage.partitions f) (rev (SuccessfulStage.task_infos f)))
    as [_ _ _ Hout].
  assert (∀ p, p ∈ PendingPartitions.queue
                    (RunningStage.pending (SuccessfulStage_to_running now f)) ↔
    p < SuccessfulStage.partitions f ∧
    first_attempt p (rev (SuccessfulStage.task_infos f)) = Some false) as Hq.
  { intros p. by rewrite to_running_queue, merge_sort_Permutation, Hout. }
  split; [|apply length_replicate]. split; [|by intros p [? _]%Hq|done].
  intros p Hp. rewrite Hq. simpl in *.
  destruct (first_attempt p (rev (SuccessfulStage.task_infos f))) as [[]|] eqn:Hf.
  - right. apply first_attempt_rev in Hf as (i & ti & Hi & Hpi & Hs & _).
    exists i, ti. auto using live_owns, successful_is_live.
  - by left.
  - destruct (Hheld p Hp) as (i & ti & Hi & Hpi).
    by destruct (first_attempt_rev_None p _ i ti Hf Hi).
Qed.

Lemma to_successful_ok s :
  running_ok s → RunningStage.is_successful s = Ok true →
  stage_ok (SuccessfulS (RunningStage.to_successful s)).
Proof.
  intros Hok Hs. destruct (is_successful_covers s Hok) as (b & Hb & Hiff).
  rewrite Hb in Hs; simplify_eq. destruct (proj1 Hiff eq_refl) as [_ Hall]. split; simpl.
  - intros p (i & ti & ? & _ & ?)%Hall%elem_of_slices. eauto.
  - apply (cov_bound _ _ _ (ok_cov _ Hok)).
Qed.

(** Changing statuses only leaves the slices of a finished stage as they were. *)
Lemma finished_statuses_ok (f : SuccessfulStage.t) infos :
  stage_ok (SuccessfulS f) →
  ids <$> infos = ids <$> SuccessfulStage.task_infos f →
  stage_ok (SuccessfulS (SuccessfulStage.set_task_infos infos f)).
Proof.
  intros [Hheld Hb] Heq.
  assert (∀ i, ids <$> infos !! i = ids <$> SuccessfulStage.task_infos f !! i) as Hi.
  { intros i. by rewrite <-!list_lookup_fmap, Heq. }
  split; simpl.
  - intros p (i & ti & Hti & Hp)%Hheld. specialize (Hi i). rewrite Hti in Hi. simpl in Hi.
    destruct (infos !! i) as [tj|] eqn:Htj; simplify_eq/=. exists i, tj.
    split; [done|congruence].
  - intros i ti p Hti Hp. specialize (Hi i). rewrite Hti in Hi. simpl in Hi.
    destruct (SuccessfulStage.task_infos f !! i) as [tj|] eqn:Htj; simplify_eq/=.
    eapply Hb; [done|congruence].
Qed.

Lemma reset_one_ids e (ti : TaskInfo.t) : ids (SuccessfulStage.reset_one e ti) = ids ti.
Proof. unfold SuccessfulStage.reset_one. by destruct (SuccessfulStage.reset_hit e ti). Qed.

Lemma stage_step_ok strict x y : stage_step strict x y → stage_ok x → stage_ok y.
Proof.
  destruct 1 as [| | | | | now r | s s' Hs | | s Hs | | i st f ti Hi Hst _ | e f | now f];
    try done.
  - intros _. apply running_wf_ok, running_new_wf.
  - by eapply run_step_ok.
  - intros Hok. by apply to_successful_ok.
  - intros Hok. apply finished_statuses_ok; [done|].
    rewrite list_fmap_insert. simpl. rewrite list_insert_id; [done|].
    by rewrite list_lookup_fmap, Hi.
  - intros Hok. apply finished_statuses_ok; [done|].
    rewrite <-list_fmap_compose. apply list_fmap_ext. intros i ti _. apply reset_one_ids.
  - apply to_running_ok.
Qed.

(** ** No task is given up *)

Definition stage_tasks (x : ExecutionStage) : list TaskInfo.t :=
  match x with
  | RunningS s => RunningStage.task_infos s
  | SuccessfulS s => SuccessfulStage.task_infos s
  | _ => []
  end.

Definition stage_kept (x : ExecutionStage) : Prop := Forall (λ ti, given_up ti = false) (stage_tasks x).

Lemma reset_task_info_kept i s :
  Forall (λ ti, given_up ti = false) (RunningStage.task_infos s) →
  Forall (λ ti, given_up ti = false) (RunningStage.task_infos (RunningStage.reset_task_info i s).2).
Proof.
  intros Hk. unfold RunningStage.reset_task_info. destruct (RunningStage.task_infos s !! i); [|done].
  simpl. by apply Forall_insert.
Qed.

Lemma update_task_info_kept now i st v s ti :
  running_ok s → RunningStage.task_infos s !! i = Some ti → live ti = true →
  TaskStatus.status st = Some v → given_up_status v = false →
  Forall (λ ti, given_up ti = false) (RunningStage.task_infos s) →
  Forall (λ ti, given_up ti = false) (RunningStage.task_infos (RunningStage.update_task_info now i st s).2).
Proof.
  intros Hok Hi Hl Hst Hv Hk.
  destruct (update_task_info_accepts now i st v s ti) as (ti' & ns & -> & _ & Hs & _); auto.
  simpl. apply Forall_insert; [done|]. unfold given_up. by rewrite Hs.
Qed.

Lemma update_then_reset_kept now i st v s ti :
  running_ok s → RunningStage.task_infos s !! i = Some ti → live ti = true → TaskStatus.status st = Some v →
  Forall (λ ti, given_up ti = false) (RunningStage.task_infos s) →
  Forall (λ ti, given_up ti = false)
    (RunningStage.task_infos (RunningStage.reset_task_info i (RunningStage.update_task_info now i st s).2).2).
Proof.
  intros Hok Hi Hl Hst Hk.
  destruct (update_task_info_accepts now i st v s ti) as (ti' & ns & -> & _ & _ & _); auto.
  assert (i < length (RunningStage.task_infos s)) by (by eapply lookup_lt_Some).
  unfold RunningStage.reset_task_info; simpl. rewrite list_lookup_insert_eq by done. simpl.
  rewrite list_insert_insert_eq. by apply Forall_insert.
Qed.

Lemma live_not_given_up st : live_status st = true → given_up_status st = false.
Proof. destruct st as [|f|]; simpl; try done. by destruct (failed_reason f) as [[]|]. Qed.

Lemma run_step_kept strict s s' :
  run_step strict s s' → strict ≠ Lenient → running_ok s → stage_kept (RunningS s) → stage_kept (RunningS s').
Proof.
  unfold stage_kept. simpl.
  destruct 1 as [s ti q1 q2 Hq _ Hids Hl|now i st v s ti Hi Hl Hst Hv|now i st v s ti ?|now i st v s ti Hi Hl Hst|
    i s ti Hi _|e s| | |]; intros Hm Hok Hk; try done.
  - simpl. apply Forall_app. split; [done|]. apply Forall_singleton, live_not_given_up. by rewrite <-live_of_status.
  - eapply update_task_info_kept; eauto using live_not_given_up.
  - by eapply update_then_reset_kept.
  - by apply reset_task_info_kept.
  - simpl. apply Forall_fmap. eapply Forall_impl; [exact Hk|]. intros ti Hti. simpl.
    unfold RunningStage.lose_one. by destruct (RunningStage.on_executor e ti).
Qed.

Lemma stage_step_kept strict x y :
  stage_step strict x y → strict ≠ Lenient → stage_ok x → stage_kept x → stage_kept y.
Proof.
  destruct 1 as [| | | | | now r | s s' Hs | | s Hs | | i st f ti Hi Hst Hg | e f | now f]; intros Hm Hok Hk;
    try done; try (by constructor).
  - by eapply run_step_kept.
  - unfold stage_kept in *. simpl in *. by apply Forall_insert.
  - unfold stage_kept in *. simpl in *. apply Forall_fmap. eapply Forall_impl; [exact Hk|]. intros ti Hti. simpl.
    unfold SuccessfulStage.reset_one. by destruct (SuccessfulStage.reset_hit e ti).
Qed.

Lemma stage_steps_kept strict x y :
  rtc (stage_step strict) x y → strict ≠ Lenient → stage_ok x → stage_kept x → stage_kept y.
Proof. induction 1; eauto using stage_step_kept, stage_step_ok. Qed.

(** ** Each partition is held once *)

Lemma run_step_wf s s' : run_step Strict s s' → running_wf s → running_wf s'.
Proof.
  destruct 1 as [s ti q1 q2 Hq ? Hids Hl| now i st v s ti Hi Hl Hst Hv | | | i s ti Hi Hl | | | |];
    intros Hwf.
  - split; [|apply (wf_numbers _ Hwf)].
    eapply accounted_bind; [|done|done|done]. simpl. rewrite <-Hq. apply (wf_acc _ Hwf).
  - eapply update_task_info_wf; eauto. intros ti' Hti'. by rewrite live_of_status, Hti'.
  - done.
  - by eapply update_then_reset_wf.
  - eapply reset_task_info_wf; eauto.
  - by apply reset_tasks_wf.
  - destruct Hwf; by split.
  - destruct Hwf; by split.
  - destruct Hwf; by split.
Qed.

Lemma reset_one_live e (ti : TaskInfo.t) :
  live (SuccessfulStage.reset_one e ti)
    = live ti && negb (SuccessfulStage.reset_hit e ti).
Proof.
  unfold SuccessfulStage.reset_one.
  destruct (SuccessfulStage.reset_hit e ti); simpl; [by rewrite andb_false_r|].
  by rewrite andb_true_r.
Qed.

Lemma finished_reset_tasks e q (f : SuccessfulStage.t) :
  finished_wf q f →
  finished_wf (slices (SuccessfulStage.reset_hit e) (SuccessfulStage.task_infos f) ++ q)
    (SuccessfulStage.reset_tasks e f).2.
Proof.
  intros Hf. apply finished_lose; [done|apply reset_one_ids|apply reset_one_live|..].
  - intros ti. unfold SuccessfulStage.reset_hit, live, TaskInfo.is_reset.
    by destruct (TaskInfo.task_status ti).
  - intros ti Hti. unfold SuccessfulStage.reset_one. by rewrite Hti.
Qed.

Lemma stage_step_wf x y : stage_step Strict x y → stage_wf x → stage_wf y.
Proof.
  destruct 1 as [| | | | | now r | s s' Hs | | s Hs | | i st f ti Hi Hst _ | e f | now f];
    try done.
  - intros _. apply running_new_wf.
  - by apply run_step_wf.
  - intros Hwf. exists []. by apply successful_finished, to_successful_wf.
  - intros [q Hq]. eexists. eapply (finished_mark q f i ti); [done..|].
    by rewrite live_of_status.
  - intros [q Hq]. eexists. by apply finished_reset_tasks.
  - intros [q Hq]. by eapply to_running_wf.
Qed.

Lemma stage_wf_ok x : stage_wf x → stage_ok x.
Proof.
  destruct x as [| |s|f|]; simpl; try done; [apply running_wf_ok|].
  intros [q [Ha _ Hheld]]. split; [|by intros; eapply acc_bound].
  intros p Hp. destruct (accounted_owner _ _ _ _ Ha Hp) as [Hq|(i & ti & ? & _ & ?)]; eauto.
Qed.

Lemma stage_steps_ok strict x y : rtc (stage_step strict) x y → stage_ok x → stage_ok y.
Proof. induction 1; eauto using stage_step_ok. Qed.
Lemma stage_steps_wf x y : rtc (stage_step Strict) x y → stage_wf x → stage_wf y.
Proof. induction 1; eauto using stage_step_wf. Qed.
Lemma stage_steps_frame strict x y :
  rtc (stage_step strict) x y →
  stage_key y = stage_key x ∧ stage_output_links y = stage_output_links x ∧
  attempt_of x ≤ attempt_of y.
Proof.
  induction 1 as [|x y z Hxy _ (-> & -> & ?)]; [done|].
  destruct (stage_step_frame _ _ _ Hxy) as (-> & -> & ?). split_and!; [done..|lia].
Qed.
End steps.
