(* ===== verification/Graph.v ===== *)
(** * The execution graph of a job

    Models [StaticExecutionGraph] and its [ExecutionGraph] implementation in
    [ballista/scheduler/src/state/execution_graph.rs]: the stages of a job, the
    transitions between stage states, the handling of task status updates and of
    a lost executor. Methods with [&mut self] are computations in the monad [M]
    over the graph, so that what was written before an early return is kept.

    Readings of the clock are the argument [now] of each handler. The rendering
    and logging calls have no effect on the state and are left out. *)

From S2P Require Import Prelude Errors Types Stage.

(** ** Iteration order of hash maps

    [HashMap] and [HashSet] visit their entries in an unspecified order. It is a
    parameter: any function that lists the entries of a map. *)
Class MapOrder : Type := {
  iter_map {A : Type} : gmap nat A → list (nat * A);
  iter_map_perm {A : Type} (m : gmap nat A) : iter_map m ≡ₚ map_to_list m;
  iter_set : gset nat → list nat;
  iter_set_perm (s : gset nat) : iter_set s ≡ₚ elements s;
}.

(** [UpdatedStages] of [task_manager.rs] *)
Module UpdatedStages.
Record t : Type := mk {
  resolved_stages : gset nat;
  successful_stages : gset nat;
  failed_stages : gmap nat message;
  rollback_running_stages : gmap nat (gset string);
  resubmit_successful_stages : gset nat;
}.
End UpdatedStages.

(** The local variables of [update_task_status] that the loop over the stages
    fills in. *)
Module Acc.
Record t : Type := mk {
  failed_stage_attempts : gmap nat (gset nat);
  resolved_stages : gset nat;
  successful_stages : gset nat;
  failed_stages : gmap nat message;
  rollback_running_stages : gmap nat (gset string);
  resubmit_successful_stages : gmap nat (gset nat);
  reset_running_stages : gmap nat (gset nat);
}.

Definition init (attempts : gmap nat (gset nat)) : t := mk attempts ∅ ∅ ∅ ∅ ∅ ∅.

(** [map.entry(k).or_default().extend(xs)] *)
Definition extend_entry {K : Type} `{Countable K} (k : nat) (xs : gset K)
    (m : gmap nat (gset K)) : gmap nat (gset K) :=
  <[k := default ∅ (m !! k) ∪ xs]> m.

Definition set_attempts (x : gmap nat (gset nat)) (a : t) : t :=
  mk x (resolved_stages a) (successful_stages a) (failed_stages a)
    (rollback_running_stages a) (resubmit_successful_stages a) (reset_running_stages a).
Definition fail_stage (sid : nat) (m : message) (a : t) : t :=
  mk (failed_stage_attempts a) (resolved_stages a) (successful_stages a)
    (<[sid := m]> (failed_stages a))
    (rollback_running_stages a) (resubmit_successful_stages a) (reset_running_stages a).
(** The stage is rolled back because of [executor_id], and the tasks [missing]
    of its input stage [map_stage_id] are run again. *)
Definition roll_back (sid : nat) (executor_id : string) (map_stage_id : nat)
    (missing : gset nat) (a : t) : t :=
  mk (failed_stage_attempts a) (resolved_stages a) (successful_stages a) (failed_stages a)
    (extend_entry sid {[executor_id]} (rollback_running_stages a))
    (extend_entry map_stage_id missing (resubmit_successful_stages a))
    (reset_running_stages a).
(** A late fetch failure of the unresolved stage [sid]: the tasks [missing] of
    the running stage [map_stage_id] are reset, and the two stages are taken
    back from the ones that were to change state. *)
Definition reset_map_stage (sid map_stage_id : nat) (missing : gset nat) (a : t) : t :=
  mk (failed_stage_attempts a) (resolved_stages a ∖ {[sid]})
    (successful_stages a ∖ {[map_stage_id]}) (failed_stages a)
    (rollback_running_stages a) (resubmit_successful_stages a)
    (extend_entry map_stage_id missing (reset_running_stages a)).
Definition add_successful (sid : nat) (a : t) : t :=
  mk (failed_stage_attempts a) (resolved_stages a) ({[sid]} ∪ successful_stages a)
    (failed_stages a) (rollback_running_stages a) (resubmit_successful_stages a)
    (reset_running_stages a).
Definition add_resolved (sids : list nat) (a : t) : t :=
  mk (failed_stage_attempts a) (list_to_set sids ∪ resolved_stages a) (successful_stages a)
    (failed_stages a) (rollback_running_stages a) (resubmit_successful_stages a)
    (reset_running_stages a).
End Acc.

Module StaticExecutionGraph.
Record t `{PlanOps} `{Payload} : Type := mk {
  scheduler_id : option string;
  job_id : JobId;
  job_name : string;
  session_id : string;
  status : JobStatus.t;
  queued_at : N;
  start_time : N;
  end_time : N;
  stages : gmap nat ExecutionStage;
  output_locations : list PartitionLocation.t;
  failed_stage_attempts : gmap nat (gset nat);
  session_config : SessionConfig;
  logical_plan : option string;
  physical_plan : Plan;
}.
Arguments t {_ _}.
End StaticExecutionGraph.
Import StaticExecutionGraph(scheduler_id, job_id, job_name, session_id, queued_at,
  start_time, end_time, stages, output_locations, failed_stage_attempts, session_config,
  logical_plan, physical_plan).

Section graph.
Context `{PlanOps} `{Payload} `{PrecisionOps} `{MapOrder}.
Abbreviation graph := StaticExecutionGraph.t.
Abbreviation G := (M BallistaError graph).

(** Field assignments *)
Definition set_stages (x : gmap nat ExecutionStage) (g : graph) : graph :=
  StaticExecutionGraph.mk _ _ (scheduler_id g) (job_id g) (job_name g) (session_id g)
    (StaticExecutionGraph.status g) (queued_at g) (start_time g) (end_time g) x
    (output_locations g) (failed_stage_attempts g) (session_config g) (logical_plan g)
    (physical_plan g).
Definition set_output_locations (x : list PartitionLocation.t) (g : graph) : graph :=
  StaticExecutionGraph.mk _ _ (scheduler_id g) (job_id g) (job_name g) (session_id g)
    (StaticExecutionGraph.status g) (queued_at g) (start_time g) (end_time g) (stages g)
    x (failed_stage_attempts g) (session_config g) (logical_plan g) (physical_plan g).
Definition set_failed_stage_attempts (x : gmap nat (gset nat)) (g : graph) : graph :=
  StaticExecutionGraph.mk _ _ (scheduler_id g) (job_id g) (job_name g) (session_id g)
    (StaticExecutionGraph.status g) (queued_at g) (start_time g) (end_time g) (stages g)
    (output_locations g) x (session_config g) (logical_plan g) (physical_plan g).
Definition set_job_state (x : job_state) (ended : N) (g : graph) : graph :=
  StaticExecutionGraph.mk _ _ (scheduler_id g) (job_id g) (job_name g) (session_id g)
    (JobStatus.mk (job_id g) (job_name g) (Some x))
    (queued_at g) (start_time g) ended (stages g)
    (output_locations g) (failed_stage_attempts g) (session_config g) (logical_plan g)
    (physical_plan g).
Definition put_stage (sid : nat) (s : ExecutionStage) (g : graph) : graph :=
  set_stages (<[sid := s]> (stages g)) g.

(** [update_status] *)
Definition update_status (x : JobStatus.t) (g : graph) : graph :=
  StaticExecutionGraph.mk _ _ (scheduler_id g) (job_id g) (job_name g) (session_id g)
    x (queued_at g) (start_time g) (end_time g) (stages g)
    (output_locations g) (failed_stage_attempts g) (session_config g) (logical_plan g)
    (physical_plan g).

(** ** Queries *)

Definition is_successful_stage (s : ExecutionStage) : bool :=
  match s with SuccessfulS _ => true | _ => false end.

Definition completed_stages (g : graph) : nat :=
  length (filter (λ kv, is_successful_stage kv.2 = true) (map_to_list (stages g))).

Definition is_successful (g : graph) : bool :=
  forallb (λ kv, is_successful_stage kv.2) (map_to_list (stages g)).

Definition running_stages (g : graph) : list nat :=
  filter_map (λ kv, match kv.2 with RunningS _ => Some kv.1 | _ => None end)
    (iter_map (stages g)).

Definition stage_running_tasks (g : graph) (s : RunningStage.t) : list RunningTaskInfo.t :=
  (λ t, RunningTaskInfo.mk t.1.1 (job_id g) t.1.2 t.2) <$> RunningStage.running_tasks s.

Definition running_tasks (g : graph) : list RunningTaskInfo.t :=
  concat ((λ kv, match kv.2 with
                 | RunningS s => stage_running_tasks g s
                 | _ => []
                 end) <$> iter_map (stages g)).

Definition available_tasks (g : graph) : nat :=
  foldr Nat.add 0
    ((λ kv, match kv.2 with RunningS s => RunningStage.available_tasks s | _ => 0 end)
       <$> map_to_list (stages g)).

Definition intermediate_stage_ids (g : graph) : list nat :=
  filter_map (λ kv, match stage_output_links kv.2 with [] => None | _ => Some kv.1 end)
    (iter_map (stages g)).

Definition task_vcores (sid task_id : nat) (g : graph) : option N :=
  s ← stages g !! sid;
  infos ← stage_task_infos s;
  ti ← infos !! task_id;
  Some (TaskInfo.vcores_consumed ti).

Definition stage_count (g : graph) : nat := size (stages g).

(** ** Stage transitions *)

(** [revive]: every resolved stage starts running *)
Definition revive (now : N) (g : graph) : bool * graph :=
  let running : list RunningStage.t :=
    filter_map (λ kv, match kv.2 with
                | Resolved s => Some (ResolvedStage.to_running now s)
                | _ => None
                end) (iter_map (stages g)) in
  match running with
  | [] => (false, g)
  | _ =>
      (true,
       set_stages
         (foldl (λ m r, <[RunningStage.stage_id r := RunningS r]> m) (stages g) running) g)
  end.

Definition resolve_stage (sid : nat) : G bool := λ g,
  match stages g !! sid with
  | Some (UnResolved s) =>
      match UnresolvedStage_to_resolved (options (session_config g)) s with
      | Ok r => (Ok true, put_stage sid (Resolved r) g)
      | Err e => (Err e, g)
      | Panic => (Panic, g)
      end
  | _ => (Ok false, g)
  end.

Definition clear_stage_failure (sid : nat) (g : graph) : graph :=
  set_failed_stage_attempts (delete sid (failed_stage_attempts g)) g.

(** [succeed_stage]: the entry is taken out of the map before its state is
    looked at. *)
Definition succeed_stage (sid : nat) (g : graph) : bool * graph :=
  let g' := set_stages (delete sid (stages g)) g in
  match stages g !! sid with
  | Some (RunningS s) =>
      (true,
       clear_stage_failure sid (put_stage sid (SuccessfulS (RunningStage.to_successful s)) g'))
  | _ => (false, g')
  end.

Definition fail_stage (sid : nat) (err_msg : message) (g : graph) : bool * graph :=
  let g' := set_stages (delete sid (stages g)) g in
  match stages g !! sid with
  | Some (RunningS s) => (true, put_stage sid (FailedS (RunningStage.to_failed err_msg s)) g')
  | _ => (false, g')
  end.

Definition rollback_running_stage (sid : nat) (failure_reasons : gset string)
  : G (list RunningTaskInfo.t) := λ g,
  match stages g !! sid with
  | Some (RunningS s) =>
      let tasks := stage_running_tasks g s in
      match RunningStage.to_unresolved failure_reasons s with
      | Ok u => (Ok tasks, put_stage sid (UnResolved u) g)
      | Err e => (Err e, g)
      | Panic => (Panic, g)
      end
  | _ => (Ok [], g)
  end.

Definition rollback_resolved_stage (sid : nat) : G bool := λ g,
  match stages g !! sid with
  | Some (Resolved s) =>
      match ResolvedStage.to_unresolved s with
      | Ok u => (Ok true, put_stage sid (UnResolved u) g)
      | Err e => (Err e, g)
      | Panic => (Panic, g)
      end
  | _ => (Ok false, g)
  end.

Definition rerun_successful_stage (now : N) (sid : nat) (g : graph) : bool * graph :=
  let g' := set_stages (delete sid (stages g)) g in
  match stages g !! sid with
  | Some (SuccessfulS s) =>
      (true, put_stage sid (RunningS (SuccessfulStage_to_running now s)) g')
  | _ => (false, g')
  end.

Definition fail_job (now : N) (err : message) (g : graph) : graph :=
  set_job_state (Job_Failed err (queued_at g) (start_time g) now) now g.

(** [succeed_job]; the conversion of a location to its wire form always succeeds. *)
Definition succeed_job (now : N) : G unit := λ g,
  if is_successful g then
    (Ok tt,
     set_job_state (Job_Successful (output_locations g) (queued_at g) (start_time g) now)
       now g)
  else
    (Err (Internal (Format "Attempt to finalize an incomplete job {}" [AStr (job_id g)])), g).

Definition abort_running (now : N) (err : message) (g : graph)
  : list RunningTaskInfo.t * graph :=
  let tasks := running_tasks g in
  let g1 := fail_job now err g in
  (tasks, foldl (λ g sid, (fail_stage sid err g).2) g1 (running_stages g1)).

(** ** Picking a stage to schedule *)

Definition find_running (black_list : list nat) (g : graph) : option nat :=
  head (filter_map (λ kv,
    if bool_decide (kv.1 ∈ black_list) then None
    else match kv.2 with
         | RunningS s => if 0 <? RunningStage.available_tasks s then Some kv.1 else None
         | _ => None
         end) (iter_map (stages g))).

(** [get_running_stage_id] calls itself only after [revive] turned a resolved
    stage into a running one, and a second [revive] finds none: a fuel of 2 is
    enough (see [get_running_stage_id_fuel] in GraphFacts). *)
Fixpoint get_running_stage_id (fuel : nat) (now : N) (black_list : list nat) (g : graph)
  : option nat * graph :=
  match find_running black_list g with
  | Some sid => (Some sid, g)
  | None =>
      let '(revived, g') := revive now g in
      if revived then
        match fuel with
        | 0 => (None, g')
        | S fuel => get_running_stage_id fuel now black_list g'
        end
      else (None, g')
  end.

Definition job_failed (g : graph) : bool :=
  match JobStatus.status (StaticExecutionGraph.status g) with
  | Some (Job_Failed _ _ _ _) => true
  | _ => false
  end.

(** [fetch_running_stage]: the id of the stage the caller may mutate *)
Definition fetch_running_stage (now : N) (black_list : list nat) (g : graph)
  : option (nat * RunningStage.t) * graph :=
  if job_failed g then (None, g)
  else
    let '(o, g') := get_running_stage_id 2 now black_list g in
    match o with
    | Some sid =>
        match stages g' !! sid with
        | Some (RunningS s) => (Some (sid, s), g')
        | _ => (None, g')
        end
    | None => (None, g')
    end.

(** ** Publishing the output of a stage *)

Definition partition_to_location (job_id : JobId) (map_partition_id stage_id : nat)
    (executor : ExecutorMetadata.t) (shuffles : list ShuffleWritePartition.t)
  : list PartitionLocation.t :=
  (λ shuffle,
     PartitionLocation.mk map_partition_id
       (PartitionId.mk job_id stage_id (ShuffleWritePartition.partition_id shuffle))
       executor
       (mkPartitionStats (Some (ShuffleWritePartition.num_rows shuffle))
          (Some (ShuffleWritePartition.num_batches shuffle))
          (Some (ShuffleWritePartition.num_bytes shuffle)))
       (ShuffleWritePartition.file_id shuffle)
       (ShuffleWritePartition.is_sort_shuffle shuffle)) <$> shuffles.

(** The body of the loop over the output links: the stage ids that became
    resolvable are appended to [resolved]. *)
Definition publish_link (sid : nat) (is_completed : bool)
    (locations : list PartitionLocation.t) (link : nat) : G (list nat) := λ g,
  match stages g !! link with
  | Some (UnResolved linked) =>
      match UnresolvedStage.add_input_partitions sid locations linked with
      | (Ok _, linked) =>
          let linked :=
            if is_completed then UnresolvedStage.complete_input sid linked else linked in
          (Ok (if UnresolvedStage.resolvable linked
               then [UnresolvedStage.stage_id linked] else []),
           put_stage link (UnResolved linked) g)
      | (Err e, linked) => (Err e, put_stage link (UnResolved linked) g)
      | (Panic, linked) => (Panic, put_stage link (UnResolved linked) g)
      end
  | Some _ =>
      (Err (Internal (Format
         "Error updating job {job_id}: The stage {link} as the output link of stage {stage_id}  should be unresolved"
         [AStr (job_id g); ANat link; ANat sid])), g)
  | None =>
      (Err (Internal (Format
         "Error updating job {job_id}: Invalid output link {stage_id} for stage {link}"
         [AStr (job_id g); ANat sid; ANat link])), g)
  end.

Fixpoint publish_links (sid : nat) (is_completed : bool)
    (locations : list PartitionLocation.t) (links : list nat) : G (list nat) :=
  match links with
  | [] => mret []
  | link :: links' =>
      let! r := publish_link sid is_completed locations link in
      let! rs := publish_links sid is_completed locations links' in
      mret (r ++ rs)
  end.

Definition update_stage_output_links (sid : nat) (is_completed : bool)
    (locations : list PartitionLocation.t) (output_links : list nat) : G (list nat) :=
  match output_links with
  | [] =>
      mmodify (λ g, set_output_locations (output_locations g ++ locations) g) ;;;
      mret []
  | _ => publish_links sid is_completed locations output_links
  end.

(** ** A lost executor *)

Definition has_executor (e : string) (o : StageOutput.t) : bool :=
  existsb (λ l, bool_decide (loc_executor l = e))
    (concat (map_to_list (StageOutput.partition_locations o)).*2).

(** The loop over the inputs of one stage: the locations on [e] are dropped,
    and an input that had some is not complete any more. *)
Definition clean_output (e : string) (o : StageOutput.t) : StageOutput.t :=
  if has_executor e o then StageOutput.remove_executor e o else o.

Definition clean_inputs (e : string) (inputs : gmap nat StageOutput.t)
  : gmap nat StageOutput.t := clean_output e <$> inputs.

(** The input stages with locations on [e]. *)
Definition matched_inputs (e : string) (inputs : gmap nat StageOutput.t) : gset nat :=
  dom (filter (λ kv, has_executor e kv.2 = true) inputs).

(** [stage_inputs]: the inputs that the first pass looks at *)
Definition open_inputs (s : ExecutionStage) : gmap nat StageOutput.t :=
  match s with
  | UnResolved s => UnresolvedStage.inputs s
  | Resolved s => ResolvedStage.inputs s
  | RunningS s => RunningStage.inputs s
  | _ => ∅
  end.

(** The first pass over the stages *)
Definition reset_open_stage (e : string) (s : ExecutionStage) : ExecutionStage :=
  match s with
  | UnResolved s =>
      UnResolved (UnresolvedStage.set_inputs (clean_inputs e (UnresolvedStage.inputs s)) s)
  | Resolved s =>
      Resolved (ResolvedStage.set_inputs (clean_inputs e (ResolvedStage.inputs s)) s)
  | RunningS s =>
      let s' := (RunningStage.reset_tasks e s).2 in
      RunningS (RunningStage.set_inputs (clean_inputs e (RunningStage.inputs s')) s')
  | s => s
  end.

Definition running_task_reset (e : string) (s : ExecutionStage) : bool :=
  match s with
  | RunningS s => 0 <? (RunningStage.reset_tasks e s).1
  | _ => false
  end.

Definition rollback_stage (e : string) (s : ExecutionStage) : bool :=
  bool_decide (matched_inputs e (open_inputs s) ≠ ∅).

Definition keys_where (f : ExecutionStage → bool) (m : gmap nat ExecutionStage) : gset nat :=
  dom (filter (λ kv, f kv.2 = true) m).

Definition is_resolved (s : ExecutionStage) : bool :=
  match s with Resolved _ => true | _ => false end.
Definition is_running (s : ExecutionStage) : bool :=
  match s with RunningS _ => true | _ => false end.

(** [resubmit_inputs] *)
Definition resubmit_inputs (e : string) (m : gmap nat ExecutionStage) : gset nat :=
  ⋃ ((λ kv, matched_inputs e (open_inputs kv.2)) <$> map_to_list m).

(** The second pass: the finished stages that lost an output *)
Definition reset_finished_stage (e : string) (resubmit : gset nat) (sid : nat)
    (s : ExecutionStage) : ExecutionStage :=
  match s with
  | SuccessfulS s =>
      if bool_decide (sid ∈ resubmit) then SuccessfulS (SuccessfulStage.reset_tasks e s).2
      else SuccessfulS s
  | s => s
  end.

Definition finished_reset_id (e : string) (resubmit : gset nat) (kv : nat * ExecutionStage)
  : option nat :=
  match kv.2 with
  | SuccessfulS s =>
      if bool_decide (kv.1 ∈ resubmit) && (0 <? (SuccessfulStage.reset_tasks e s).1)
      then Some (SuccessfulStage.stage_id s) else None
  | _ => None
  end.

Fixpoint rollback_running_stages (reasons : gset string) (sids : list nat)
  : G (list RunningTaskInfo.t) :=
  match sids with
  | [] => mret []
  | sid :: sids' =>
      let! tasks := rollback_running_stage sid reasons in
      let! rest := rollback_running_stages reasons sids' in
      mret (tasks ++ rest)
  end.

Definition reset_stages_internal (now : N) (e : string)
  : G (gset nat * list RunningTaskInfo.t) := λ g,
  let m := stages g in
  let resubmit := resubmit_inputs e m in
  let reset_running := keys_where (running_task_reset e) m in
  let rollback_resolved := keys_where (λ s, is_resolved s && rollback_stage e s) m in
  let rollback_running := keys_where (λ s, is_running s && rollback_stage e s) m in
  let m1 := reset_open_stage e <$> m in
  let resubmit_successful :=
    filter_map (finished_reset_id e resubmit) (map_to_list m1) in
  let m2 := map_imap (λ sid s, Some (reset_finished_stage e resubmit sid s)) m1 in
  (mfor (iter_set rollback_resolved)
     (λ sid, rollback_resolved_stage sid ;;; mret tt) ;;;
   let! tasks := rollback_running_stages {[e]} (iter_set rollback_running) in
   mfor (iter_set (list_to_set resubmit_successful))
     (λ sid, mmodify (λ g, (rerun_successful_stage now sid g).2)) ;;;
   mret (reset_running ∪ rollback_resolved ∪ rollback_running
           ∪ list_to_set resubmit_successful, tasks))
    (set_stages m2 g).

(** [reset_stages_on_lost_executor]: the loop runs until a pass resets
    nothing. [None] is a loop cut short by the fuel. *)
Fixpoint reset_stages_on_lost_executor (fuel : nat) (now : N) (e : string) (g : graph)
  : option (result (gset nat * list RunningTaskInfo.t)) * graph :=
  match fuel with
  | 0 => (None, g)
  | S fuel =>
      match reset_stages_internal now e g with
      | (Ok (reset, tasks), g') =>
          if bool_decide (reset = ∅) then (Some (Ok (∅, [])), g')
          else
            match reset_stages_on_lost_executor fuel now e g' with
            | (Some (Ok (reset', tasks')), g'') =>
                (Some (Ok (reset ∪ reset', tasks ++ tasks')), g'')
            | r => r
            end
      | (Err err, g') => (Some (Err err), g')
      | (Panic, g') => (Some Panic, g')
      end
  end.

(** ** Applying the collected transitions *)

Definition job_err_msg (failed : gmap nat message) : message :=
  foldl (λ _ kv, Format "Job failed due to stage {stage_id} failed: {err_msg}\n"
                   [ANat kv.1; AMsg kv.2]) (Lit String.EmptyString) (iter_map failed).

(** The rollbacks of [processing_stages_update] *)
Fixpoint rollback_all (l : list (nat * gset string)) : G (list RunningTaskInfo.t) :=
  match l with
  | [] => mret []
  | (sid, reasons) :: l' =>
      let! tasks := rollback_running_stage sid reasons in
      let! rest := rollback_all l' in
      mret (tasks ++ rest)
  end.

Definition finish_update (now : N) (u : UpdatedStages.t) (has_resolved : bool)
    (events : list QueryStageSchedulerEvent) : G (list QueryStageSchedulerEvent) := λ g,
  if bool_decide (UpdatedStages.failed_stages u ≠ ∅) then
    let msg := job_err_msg (UpdatedStages.failed_stages u) in
    (Ok (events ++ [JobRunningFailed (job_id g) msg (queued_at g) now]),
     fail_job now msg g)
  else if is_successful g then
    match succeed_job now g with
    | (Ok _, g') => (Ok (events ++ [JobFinished (job_id g) (queued_at g) now]), g')
    | (Err e, g') => (Err e, g')
    | (Panic, g') => (Panic, g')
    end
  else if has_resolved then (Ok (events ++ [JobUpdated (job_id g)]), g)
  else (Ok events, g).

Definition processing_stages_update (now : N) (u : UpdatedStages.t)
  : G (list QueryStageSchedulerEvent) :=
  mfor (iter_set (UpdatedStages.resolved_stages u))
    (λ sid, resolve_stage sid ;;; mret tt) ;;;
  mfor (iter_set (UpdatedStages.successful_stages u))
    (λ sid, mmodify (λ g, (succeed_stage sid g).2)) ;;;
  let! events :=
    (if bool_decide (UpdatedStages.failed_stages u = ∅) then
       let! tasks := rollback_all (iter_map (UpdatedStages.rollback_running_stages u)) in
       mfor (iter_set (UpdatedStages.resubmit_successful_stages u))
         (λ sid, mmodify (λ g, (rerun_successful_stage now sid g).2)) ;;;
       mret (match tasks with [] => [] | _ => [CancelTasks tasks] end)
     else mret []) in
  finish_update now u (bool_decide (UpdatedStages.resolved_stages u ≠ ∅)) events.

(** ** Task status updates *)

(** The variables of the loop over the statuses of one running stage. *)
Record running_ctx : Type := mkRunningCtx {
  rc_stage : RunningStage.t;
  rc_acc : Acc.t;
  rc_locations : list PartitionLocation.t;
}.
Abbreviation R := (M BallistaError running_ctx).

(** A method of the running stage, called in that loop. *)
Definition on_stage {A : Type} (m : M BallistaError RunningStage.t A) : R A := λ c,
  let '(o, s) := m (rc_stage c) in (o, mkRunningCtx s (rc_acc c) (rc_locations c)).
Definition on_acc (f : Acc.t → Acc.t) : R unit :=
  mmodify (λ c, mkRunningCtx (rc_stage c) (f (rc_acc c)) (rc_locations c)).

Section running_status.
Context (now : N) (job : JobId) (executor : ExecutorMetadata.t)
  (max_task_failures max_stage_failures : nat) (sid : nat).

(** [FailedReason::FetchPartitionError] reported by a task of attempt [attempt]. *)
Definition handle_fetch_failure (attempt : nat) (failed_task : FailedTask)
    (executor_id : string) (map_stage_id map_partition_id : nat) : R unit := λ c,
  let acc := rc_acc c in
  let attempts := Acc.extend_entry sid {[attempt]} (Acc.failed_stage_attempts acc) in
  (on_acc (Acc.set_attempts attempts) ;;;
   (if size (default ∅ (attempts !! sid)) <? max_stage_failures then
      if bool_decide (Acc.failed_stages acc ≠ ∅) then mret tt
      else
        let! removed :=
          on_stage (RunningStage.remove_input_partitions map_stage_id map_partition_id
                      executor_id) in
        on_acc (Acc.roll_back sid executor_id map_stage_id removed)
    else
      on_acc (Acc.fail_stage sid (Format
        "Stage {} has failed {} times, most recent failure reason: {:?}"
        [ANat sid; ANat max_stage_failures; AMsg (error failed_task)])))) c.

(** The partitions of a task that reached the limit of failures. *)
Definition over_limit (task_id : nat) (s : RunningStage.t) : list nat :=
  match RunningStage.task_infos s !! task_id with
  | Some ti =>
      filter (λ p, max_task_failures ≤ default 0 (RunningStage.task_failure_numbers s !! p))
        (TaskInfo.global_input_partition_ids ti)
  | None => []
  end.

(** The reasons other than a fetch failure and an execution error. *)
Definition handle_other_failure (task_id : nat) (failed_task : FailedTask) : R unit :=
  if retryable failed_task && count_to_failures failed_task then
    let! n := on_stage (λ s, (RunningStage.task_failure_number task_id s, s)) in
    if n <? max_task_failures then on_stage (RunningStage.reset_task_info task_id)
    else
      let! c := mget in
      let subject :=
        match over_limit task_id (rc_stage c) with
        | [p] => Format "Task {}" [ANat p]
        | ps => Format "Tasks {over_limit:?}" [ANats ps]
        end in
      on_acc (Acc.fail_stage sid (Format
        "{} in Stage {} failed {} times, fail the stage, most recent failure reason: {:?}"
        [AMsg subject; ANat sid; ANat max_task_failures; AMsg (error failed_task)]))
  else if retryable failed_task then on_stage (RunningStage.reset_task_info task_id)
  else mret tt.

Definition handle_failed (task_id attempt : nat) (failed_task : FailedTask) : R unit :=
  match failed_reason failed_task with
  | Some (FR_FetchPartitionError executor_id map_stage_id map_partition_id) =>
      handle_fetch_failure attempt failed_task executor_id map_stage_id map_partition_id
  | Some FR_ExecutionError => on_acc (Acc.fail_stage sid (error failed_task))
  | Some _ => handle_other_failure task_id failed_task
  | None =>
      on_acc (Acc.fail_stage sid (Format
        "Task {task_id} in Stage {stage_id} failed with unknown failure reasons, fail the stage"
        [ANat task_id; ANat sid]))
  end.

Definition handle_successful (task_id : nat) (metrics : list OperatorMetricsSet)
    (st : SuccessfulTask.t) : R unit :=
  on_stage (RunningStage.update_task_metrics task_id metrics) ;;;
  mmodify (λ c,
    mkRunningCtx
      (RunningStage.append_window_state_reports task_id (SuccessfulTask.window_state st)
         (RunningStage.append_runtime_stats_reports task_id
            (SuccessfulTask.runtime_stats st) (rc_stage c)))
      (rc_acc c)
      (rc_locations c ++
         partition_to_location job task_id sid executor (SuccessfulTask.partitions st))).

Definition process_running_status (ts : TaskStatus.t) : R unit := λ c,
  let attempt := TaskStatus.stage_attempt_num ts in
  let task_id := TaskStatus.task_id ts in
  if attempt <? RunningStage.stage_attempt_num (rc_stage c) then (Ok tt, c)
  else
    (let! updated := on_stage (RunningStage.update_task_info now task_id ts) in
     if negb updated then mret tt
     else
       match TaskStatus.status ts with
       | Some (Failed failed_task) => handle_failed task_id attempt failed_task
       | Some (Successful st) => handle_successful task_id (TaskStatus.metrics ts) st
       | _ => mret tt
       end) c.
End running_status.

(** The loop over the statuses of one unresolved stage. *)
Definition unresolved_ctx : Type := UnresolvedStage.t * Acc.t.
Abbreviation U := (M BallistaError unresolved_ctx).

(** [-] on [usize]: the build without overflow checks wraps around. *)
Definition usize_sub (a b : nat) : Z := ((Z.of_nat a - Z.of_nat b) mod 2 ^ 64)%Z.

Section unresolved_status.
Context (current_running_stages : gset nat) (sid : nat).

Definition late_fetch_failure (executor_id : string) (map_stage_id map_partition_id : nat)
  : U unit := λ c,
  let '(s, acc) := c in
  let s := UnresolvedStage.add_failure_reason executor_id s in
  match UnresolvedStage.remove_input_partitions map_stage_id map_partition_id executor_id s with
  | (Ok removed, s) => (Ok tt, (s, Acc.reset_map_stage sid map_stage_id removed acc))
  | (Err e, s) => (Err e, (s, acc))
  | (Panic, s) => (Panic, (s, acc))
  end.

Definition process_unresolved_status (ts : TaskStatus.t) : U unit := λ c,
  let '(s, acc) := c in
  match TaskStatus.status ts with
  | Some (Failed failed_task) =>
      if bool_decide (usize_sub (UnresolvedStage.stage_attempt_num s)
                        (TaskStatus.stage_attempt_num ts) = 1%Z) then
        match failed_reason failed_task with
        | Some FR_ExecutionError =>
            (Ok tt, (s, Acc.fail_stage sid (error failed_task) acc))
        | Some (FR_FetchPartitionError executor_id map_stage_id map_partition_id) =>
            if bool_decide (Acc.failed_stages acc = ∅) &&
               bool_decide (map_stage_id ∈ current_running_stages) &&
               bool_decide (executor_id ∉ UnresolvedStage.last_attempt_failure_reasons s)
            then late_fetch_failure executor_id map_stage_id map_partition_id c
            else (Ok tt, c)
        | _ => (Ok tt, c)
        end
      else (Ok tt, c)
  | _ => (Ok tt, c)
  end.
End unresolved_status.

(** The first loop of [update_task_status]: the statuses by stage, in order. *)
Definition classify (statuses : list TaskStatus.t) : gmap nat (list TaskStatus.t) :=
  foldl (λ m ts, <[TaskStatus.stage_id ts :=
                     default [] (m !! TaskStatus.stage_id ts) ++ [ts]]> m) ∅ statuses.

(** The variables of the main loop. *)
Abbreviation L := (M BallistaError (graph * Acc.t)).

Section update.
Context (now : N) (executor : ExecutorMetadata.t)
  (max_task_failures max_stage_failures : nat) (current_running_stages : gset nat).

(** The end of the branch for a running stage: completion and publication. *)
Definition finish_running_stage (sid : nat) (c : running_ctx) : L unit := λ ga,
  let g := put_stage sid (RunningS (rc_stage c)) ga.1 in
  match RunningStage.is_successful (rc_stage c) with
  | Ok done =>
      let is_final :=
        done && bool_decide (Acc.reset_running_stages (rc_acc c) !! sid = None) in
      let acc := if is_final then Acc.add_successful sid (rc_acc c) else rc_acc c in
      match update_stage_output_links sid is_final (rc_locations c)
              (RunningStage.output_links (rc_stage c)) g with
      | (Ok resolved, g) => (Ok tt, (g, Acc.add_resolved resolved acc))
      | (Err e, g) => (Err e, (g, acc))
      | (Panic, g) => (Panic, (g, acc))
      end
  | Err e => (Err e, (g, rc_acc c))
  | Panic => (Panic, (g, rc_acc c))
  end.

Definition update_one_stage (kv : nat * list TaskStatus.t) : L unit := λ ga,
  let '(sid, statuses) := kv in
  let '(g, acc) := ga in
  match stages g !! sid with
  | Some (RunningS s) =>
      match mfor statuses
              (process_running_status now (job_id g) executor max_task_failures
                 max_stage_failures sid) (mkRunningCtx s acc []) with
      | (Ok _, c) => finish_running_stage sid c (g, acc)
      | (Err e, c) => (Err e, (put_stage sid (RunningS (rc_stage c)) g, rc_acc c))
      | (Panic, c) => (Panic, (put_stage sid (RunningS (rc_stage c)) g, rc_acc c))
      end
  | Some (UnResolved s) =>
      let '(o, (s', acc')) :=
        mfor statuses (process_unresolved_status current_running_stages sid) (s, acc) in
      (o, (put_stage sid (UnResolved s') g, acc'))
  | Some _ => (Ok tt, (g, acc))
  | None =>
      (Err (Internal (Format "Invalid stage ID {stage_id} for job {job_id}"
                        [ANat sid; AStr (job_id g)])), (g, acc))
  end.
End update.

Definition lost_output_status : Types.status :=
  Failed (mkFailedTask (Lit "FetchPartitionError in parent stage") true false
            (Some FR_ResultLost)).

(** One entry of [resubmit_successful_stages]. *)
Definition resubmit_one (kv : nat * gset nat) : G unit := λ g,
  let '(sid, missing) := kv in
  match stages g !! sid with
  | Some (SuccessfulS s) =>
      let '(o, s') :=
        mfor (E:=BallistaError) (iter_set missing) (λ task_id s,
          match SuccessfulStage.task_infos s !! task_id with
          | None =>
              (Err (Internal (Format
                 "Invalid task_id {} in map stage {} (task_infos has {} entries)"
                 [ANat task_id; ANat sid; ANat (length (SuccessfulStage.task_infos s))])), s)
          | Some ti =>
              (Ok tt, SuccessfulStage.set_task_infos
                 (<[task_id := TaskInfo.set_status lost_output_status ti]>
                    (SuccessfulStage.task_infos s)) s)
          end) s in
      (o, put_stage sid (SuccessfulS s') g)
  | Some _ => (Ok tt, g)
  | None =>
      (Err (Internal (Format "Invalid stage ID {stage_id} for job {job_id}"
                        [ANat sid; AStr (job_id g)])), g)
  end.

(** One entry of [reset_running_stages]. *)
Definition reset_running_one (kv : nat * gset nat) : G unit := λ g,
  let '(sid, missing) := kv in
  match stages g !! sid with
  | Some (RunningS s) =>
      let '(o, s') :=
        mfor (iter_set missing) (λ task_id s,
          if task_id <? length (RunningStage.task_infos s)
          then RunningStage.reset_task_info task_id s
          else
            (Err (Internal (Format
               "Invalid task_id {} in map stage {} (task_infos has {} entries)"
               [ANat task_id; ANat sid; ANat (length (RunningStage.task_infos s))])), s)) s in
      (o, put_stage sid (RunningS s') g)
  | Some _ => (Ok tt, g)
  | None =>
      (Err (Internal (Format "Invalid stage ID {stage_id} for job {job_id}"
                        [ANat sid; AStr (job_id g)])), g)
  end.

Definition updated_stages (acc : Acc.t) : UpdatedStages.t :=
  UpdatedStages.mk (Acc.resolved_stages acc) (Acc.successful_stages acc)
    (Acc.failed_stages acc) (Acc.rollback_running_stages acc)
    (dom (Acc.resubmit_successful_stages acc)).

Definition update_task_status (now : N) (executor : ExecutorMetadata.t)
    (task_statuses : list TaskStatus.t) (max_task_failures max_stage_failures : nat)
  : G (list QueryStageSchedulerEvent) := λ g0,
  let g1 := (revive now g0).2 in
  let current : gset nat := list_to_set (running_stages g1) in
  match mfor (iter_map (classify task_statuses))
          (update_one_stage now executor max_task_failures max_stage_failures current)
          (g1, Acc.init (failed_stage_attempts g1)) with
  | (Ok _, (g2, acc)) =>
      (mmodify (λ g, set_failed_stage_attempts
         (Acc.failed_stage_attempts acc ∪ failed_stage_attempts g) g) ;;;
       mfor (iter_map (Acc.resubmit_successful_stages acc)) resubmit_one ;;;
       mfor (iter_map (Acc.reset_running_stages acc)) reset_running_one ;;;
       processing_stages_update now (updated_stages acc)) g2
  | (Err e, (g2, _)) => (Err e, g2)
  | (Panic, (g2, _)) => (Panic, g2)
  end.
End graph.
