(* ===== verification/GraphSteps.v ===== *)
(** * The handlers of the graph follow the state machine

    Every method of [StaticExecutionGraph] that changes stages moves each stage
    along the steps of [StageSteps]. The invariants of stages are therefore
    invariants of the graph, whatever sequence of handlers runs. *)

From S2P Require Import Prelude Errors Types Stage StageFacts StageSteps Graph.
Import StaticExecutionGraph(stages, job_id).

Section graph_steps.
Context `{PlanOps} `{Payload} `{PrecisionOps} `{MapOrder}.
Abbreviation graph := StaticExecutionGraph.t.
Abbreviation G := (M BallistaError graph).
Implicit Types (g : graph) (x y : ExecutionStage) (sid : nat).

(** Each stage of [g'] comes from the stage of [g] with the same id. *)
Definition graph_steps (strict : mode) g g' : Prop :=
  ∀ sid y, stages g' !! sid = Some y →
    ∃ x, stages g !! sid = Some x ∧ rtc (stage_step strict) x y.

(** The key of a stage is its id. *)
Definition keyed g : Prop := ∀ sid x, stages g !! sid = Some x → stage_key x = sid.

#[global] Instance graph_steps_preorder strict : PreOrder (graph_steps strict).
Proof.
  split.
  - intros g sid x Hx. exists x. by split; [|constructor].
  - intros g1 g2 g3 H12 H23 sid z (y & (x & Hx & Hxy)%H12 & Hyz)%H23.
    exists x. split; [done|]. by etrans.
Qed.

Lemma keyed_steps strict g g' : keyed g → graph_steps strict g g' → keyed g'.
Proof.
  intros Hk Hs sid y (x & Hx & Hxy)%Hs.
  destruct (stage_steps_frame _ _ _ Hxy) as (-> & _). by apply Hk.
Qed.

Lemma steps_frame strict g g' : stages g' = stages g → graph_steps strict g g'.
Proof. intros Heq sid x Hx. rewrite Heq in Hx. exists x. by split; [|constructor]. Qed.

Lemma steps_put_rtc strict g sid x y :
  stages g !! sid = Some x → rtc (stage_step strict) x y →
  graph_steps strict g (put_stage sid y g).
Proof.
  intros Hx Hxy sid' z. simpl. rewrite lookup_insert_Some.
  intros [[<- <-]|[_ Hz]]; [by exists x|]. exists z. by split; [|constructor].
Qed.

Lemma steps_put strict g sid x y :
  stages g !! sid = Some x → stage_step strict x y →
  graph_steps strict g (put_stage sid y g).
Proof. intros Hx Hxy. eapply steps_put_rtc; [done|]. by apply rtc_once. Qed.

(** A stage replaced after its entry was taken out of the map. *)
Lemma steps_replace strict g sid x y :
  stages g !! sid = Some x → stage_step strict x y →
  graph_steps strict g (put_stage sid y (set_stages (delete sid (stages g)) g)).
Proof.
  intros Hx Hxy sid' z. simpl. rewrite insert_delete_eq. by apply (steps_put _ _ _ x).
Qed.

Lemma steps_delete strict g sid :
  graph_steps strict g (set_stages (delete sid (stages g)) g).
Proof.
  intros sid' y. simpl. intros [_ Hy]%lookup_delete_Some. exists y. by split; [|constructor].
Qed.

(** A computation that moves each stage along its steps, on every path. *)
Definition follows (strict : mode) {A : Type} (m : G A) : Prop :=
  ∀ g, keyed g → graph_steps strict g (m g).2.

Lemma follows_ret strict {A} (a : A) : follows strict (mret a).
Proof. intros g _. reflexivity. Qed.

Lemma follows_then strict {A B} (m : G A) (k : A → G B) :
  follows strict m → (∀ a, follows strict (k a)) → follows strict (mthen m k).
Proof.
  intros Hm Hk g Hg. unfold mthen. pose proof (Hm g Hg) as H12.
  pose proof (keyed_steps _ _ _ Hg H12) as Hg'.
  destruct (m g) as [[a|e|] g']; simpl in *; [|done|done].
  transitivity g'; [done|]. by apply Hk.
Qed.

Lemma follows_for strict {A} (l : list A) (body : A → G unit) :
  (∀ a, a ∈ l → follows strict (body a)) → follows strict (mfor l body).
Proof.
  induction l as [|a l IH]; intros Hb; simpl; [apply follows_ret|].
  apply follows_then; [apply Hb; left|]. intros _. apply IH.
  intros b Hb'. apply Hb. by right.
Qed.

Lemma follows_modify strict f :
  (∀ g, keyed g → graph_steps strict g (f g)) → follows strict (mmodify f).
Proof. intros Hf g Hg. by apply Hf. Qed.

(** ** The transitions *)

Lemma foldl_insert_lookup (rs : list RunningStage.t) (m : gmap nat ExecutionStage) sid y :
  foldl (λ m r, <[RunningStage.stage_id r := RunningS r]> m) m rs !! sid = Some y →
  m !! sid = Some y ∨ ∃ r, r ∈ rs ∧ RunningStage.stage_id r = sid ∧ y = RunningS r.
Proof.
  revert m. induction rs as [|r rs IH]; intros m Hy; simpl in *; [by left|].
  apply IH in Hy as [[[? ?]|[? ?]]%lookup_insert_Some|(r' & ? & ? & ?)].
  - right. exists r. split; [left|done].
  - by left.
  - right. exists r'. split; [by right|done].
Qed.

Lemma foldl_insert_other (rs : list RunningStage.t) (m : gmap nat ExecutionStage) sid :
  (∀ r, r ∈ rs → RunningStage.stage_id r ≠ sid) →
  foldl (λ m r, <[RunningStage.stage_id r := RunningS r]> m) m rs !! sid = m !! sid.
Proof.
  revert m. induction rs as [|r rs IH]; intros m Hne; simpl; [done|].
  rewrite IH; [|intros r' Hr'; apply Hne; by right].
  apply lookup_insert_ne, Hne. left.
Qed.

Lemma elem_of_iter_map {A} (m : gmap nat A) k a :
  (k, a) ∈ iter_map m ↔ m !! k = Some a.
Proof. rewrite iter_map_perm. apply elem_of_map_to_list. Qed.

Lemma elem_of_iter_set (X : gset nat) k : k ∈ iter_set X ↔ k ∈ X.
Proof. rewrite iter_set_perm. apply elem_of_elements. Qed.

Lemma revive_steps strict now g : keyed g → graph_steps strict g (revive now g).2.
Proof.
  intros Hk. unfold revive.
  set (rs := filter_map _ _). destruct rs as [|r rs'] eqn:Hrs; [reflexivity|].
  intros sid y. cbn [snd stages set_stages]. rewrite <-Hrs.
  intros [Hy|(r' & Hr & Hid & ->)]%foldl_insert_lookup.
  - exists y. by split; [|constructor].
  - apply elem_of_filter_map in Hr as ([k x] & Hin & Hx). simpl in Hx.
    destruct x as [|r0| | |]; simplify_eq. exists (Resolved r0).
    apply elem_of_iter_map in Hin. pose proof (Hk _ _ Hin) as Hk'. simpl in Hk'.
    simpl. rewrite Hk'. split; [done|]. apply rtc_once. constructor.
Qed.

Lemma revive_unresolved now g sid u :
  stages (revive now g).2 !! sid = Some (UnResolved u) →
  stages g !! sid = Some (UnResolved u).
Proof.
  unfold revive. destruct (filter_map _ _) as [|r rs]; [done|]. cbn [snd stages set_stages].
  intros [?|(r' & _ & _ & ?)]%foldl_insert_lookup; [done|congruence].
Qed.

Lemma resolve_stage_steps strict sid : follows strict (resolve_stage sid).
Proof.
  intros g _. unfold resolve_stage.
  destruct (stages g !! sid) as [[u| | | |]|] eqn:Hx; try reflexivity.
  destruct (UnresolvedStage_to_resolved _ u) as [r| |] eqn:Hr; simpl; try reflexivity.
  eapply steps_put; [done|]. by econstructor.
Qed.

Lemma succeed_stage_steps strict sid g s :
  stages g !! sid = Some (RunningS s) → RunningStage.is_successful s = Ok true →
  graph_steps strict g (succeed_stage sid g).2.
Proof.
  intros Hx Hs. unfold succeed_stage. rewrite Hx. cbn [snd].
  transitivity (put_stage sid (SuccessfulS (RunningStage.to_successful s))
                  (set_stages (delete sid (stages g)) g)).
  - eapply steps_replace; [done|]. by constructor.
  - by apply steps_frame.
Qed.

Lemma fail_stage_steps strict sid msg g : graph_steps strict g (fail_stage sid msg g).2.
Proof.
  unfold fail_stage.
  destruct (stages g !! sid) as [[| |s| |]|] eqn:Hx; try apply steps_delete.
  cbn [snd]. eapply steps_replace; [done|]. by constructor.
Qed.

Lemma rollback_running_stage_steps strict sid reasons :
  follows strict (rollback_running_stage sid reasons).
Proof.
  intros g _. unfold rollback_running_stage.
  destruct (stages g !! sid) as [[| |s| |]|] eqn:Hx; try reflexivity.
  destruct (RunningStage.to_unresolved reasons s) as [u| |] eqn:Hu; simpl; try reflexivity.
  eapply steps_put; [done|]. by econstructor.
Qed.

Lemma rollback_resolved_stage_steps strict sid : follows strict (rollback_resolved_stage sid).
Proof.
  intros g _. unfold rollback_resolved_stage.
  destruct (stages g !! sid) as [[|r| | |]|] eqn:Hx; try reflexivity.
  destruct (ResolvedStage.to_unresolved r) as [u| |] eqn:Hu; simpl; try reflexivity.
  eapply steps_put; [done|]. by econstructor.
Qed.

Lemma rerun_successful_stage_steps strict now sid g :
  graph_steps strict g (rerun_successful_stage now sid g).2.
Proof.
  unfold rerun_successful_stage.
  destruct (stages g !! sid) as [[| | |s|]|] eqn:Hx; try apply steps_delete.
  cbn [snd]. eapply steps_replace; [done|]. by constructor.
Qed.

Lemma abort_running_steps strict now msg g :
  graph_steps strict g (abort_running now msg g).2.
Proof.
  unfold abort_running. cbn [snd].
  transitivity (fail_job now msg g); [by apply steps_frame|].
  generalize (running_stages (fail_job now msg g)). intros l.
  generalize (fail_job now msg g). induction l as [|sid l IH]; intros g1; simpl; [done|].
  transitivity (fail_stage sid msg g1).2; [apply fail_stage_steps|apply IH].
Qed.

Lemma get_running_stage_id_steps strict fuel now bl g :
  keyed g → graph_steps strict g (get_running_stage_id fuel now bl g).2.
Proof.
  revert g. induction fuel as [|fuel IH]; intros g Hg; simpl;
    (destruct (find_running bl g); [done|]);
    pose proof (revive_steps strict now g Hg) as Hr;
    destruct (revive now g) as [[] g']; simpl in *; try done.
  transitivity g'; [done|]. apply IH. by eapply keyed_steps.
Qed.

Lemma fetch_running_stage_steps strict now bl g :
  keyed g → graph_steps strict g (fetch_running_stage now bl g).2.
Proof.
  intros Hg. unfold fetch_running_stage. destruct (job_failed g); [done|].
  pose proof (get_running_stage_id_steps strict 2 now bl g Hg) as Hs.
  destruct (get_running_stage_id 2 now bl g) as [[sid|] g']; [|done].
  by repeat case_match.
Qed.

(** ** A lost executor *)

Lemma reset_open_stage_steps strict e x : rtc (stage_step strict) x (reset_open_stage e x).
Proof.
  destruct x as [u|r|s|f|f]; simpl; try reflexivity.
  - apply rtc_once. constructor.
  - apply rtc_once. constructor.
  - eapply rtc_l; [apply Step_run, (Run_lose _ e)|].
    apply rtc_once, Step_run, Run_inputs.
Qed.

Lemma reset_finished_stage_steps strict e resubmit sid x :
  rtc (stage_step strict) x (reset_finished_stage e resubmit sid x).
Proof.
  destruct x as [| | |f|]; simpl; try reflexivity.
  case_bool_decide; [|reflexivity]. apply rtc_once. constructor.
Qed.

(** The two passes over the stages *)
Lemma reset_passes_steps strict e resubmit g :
  graph_steps strict g
    (set_stages (map_imap (λ sid x, Some (reset_finished_stage e resubmit sid x))
                   (reset_open_stage e <$> stages g)) g).
Proof.
  intros sid y. cbn [stages set_stages].
  rewrite map_lookup_imap, lookup_fmap. destruct (stages g !! sid) as [x|]; [|done].
  intros Hy; simplify_eq/=. exists x. split; [done|].
  etrans; [apply reset_open_stage_steps|apply reset_finished_stage_steps].
Qed.

Lemma rollback_running_stages_steps strict reasons sids :
  follows strict (rollback_running_stages reasons sids).
Proof.
  induction sids as [|sid sids IH]; simpl; [apply follows_ret|].
  apply follows_then; [apply rollback_running_stage_steps|]. intros tasks.
  apply follows_then; [done|]. intros rest. apply follows_ret.
Qed.

Lemma rerun_all_steps strict now (X : list nat) :
  follows strict
    (mfor X (λ sid, mmodify (λ g, (rerun_successful_stage now sid g).2))).
Proof.
  apply follows_for. intros sid _. apply follows_modify. intros g _.
  apply rerun_successful_stage_steps.
Qed.

Lemma reset_stages_internal_steps strict now e : follows strict (reset_stages_internal now e).
Proof.
  intros g Hg. unfold reset_stages_internal.
  match goal with |- graph_steps _ _ (?m ?g').2 =>
    assert (follows strict m) as Hm; [|set (g1 := g')]
  end.
  { apply follows_then.
    { apply follows_for. intros sid _.
      apply follows_then; [apply rollback_resolved_stage_steps|].
      intros _. apply follows_ret. }
    intros _. apply follows_then; [apply rollback_running_stages_steps|]. intros tasks.
    apply follows_then; [apply rerun_all_steps|]. intros _. apply follows_ret. }
  assert (graph_steps strict g g1) as Hst1 by apply reset_passes_steps.
  transitivity g1; [done|]. apply Hm. by eapply keyed_steps.
Qed.

Lemma reset_stages_on_lost_executor_steps strict fuel now e g :
  keyed g → graph_steps strict g (reset_stages_on_lost_executor fuel now e g).2.
Proof.
  revert g. induction fuel as [|fuel IH]; intros g Hg; simpl; [done|].
  pose proof (reset_stages_internal_steps strict now e g Hg) as Hst1.
  pose proof (keyed_steps _ _ _ Hg Hst1) as Hg'.
  destruct (reset_stages_internal now e g) as [[[rs ts]|err|] g'];
    simpl in *; [|done|done].
  case_bool_decide; [done|]. specialize (IH g' Hg').
  assert (graph_steps strict g (reset_stages_on_lost_executor fuel now e g').2) as Hst2
    by (by transitivity g').
  by destruct (reset_stages_on_lost_executor fuel now e g') as [[[[]| |]|] g''].
Qed.

(** ** Publishing locations *)

Lemma publish_link_steps strict sid done_ locs link :
  follows strict (publish_link sid done_ locs link).
Proof.
  intros g _. unfold publish_link.
  destruct (stages g !! link) as [[u| | | |]|] eqn:Hx; try reflexivity.
  unfold UnresolvedStage.add_input_partitions.
  destruct (UnresolvedStage.inputs u !! sid); simpl.
  - eapply steps_put_rtc; [done|].
    destruct done_; [|apply rtc_once; constructor].
    eapply rtc_l; [apply Step_inputs|]. unfold UnresolvedStage.complete_input.
    case_match; [apply rtc_once; constructor|reflexivity].
  - by eapply steps_put_rtc.
Qed.

Lemma publish_links_steps strict sid done_ locs links :
  follows strict (publish_links sid done_ locs links).
Proof.
  induction links as [|link links IH]; simpl; [apply follows_ret|].
  apply follows_then; [apply publish_link_steps|]. intros rs.
  apply follows_then; [done|]. intros rest. apply follows_ret.
Qed.

Lemma update_stage_output_links_steps strict sid done_ locs links :
  follows strict (update_stage_output_links sid done_ locs links).
Proof.
  destruct links as [|link links]; [|apply publish_links_steps].
  intros g _. by apply steps_frame.
Qed.

(** ** The statuses of a running stage *)

(** A report that gives up no task: if the task was killed or lost its result, it
    is to be retried without counting as a failure. [FailedTask]s built from errors
    are such (see [Errors]). *)
Definition report_ok (ts : TaskStatus.t) : Prop :=
  ∀ f, TaskStatus.status ts = Some (Failed f) → live_status (Failed f) = false →
       retryable f = true ∧ count_to_failures f = false.

Lemma not_given_up f :
  live_status (Failed f) = false → given_up_status (Failed f) = false →
  retryable f = true ∧ count_to_failures f = false.
Proof.
  simpl. destruct (failed_reason f) as [[]|]; try done;
    by intros _ [? ?%negb_true_iff]%negb_false_iff%andb_true_iff.
Qed.

Section running_status.
Context (strict : mode) (now : N) (job : JobId) (executor : ExecutorMetadata.t)
  (mtf msf : nat) (sid : nat).

Lemma remove_input_partitions_steps a b e s :
  rtc (run_step strict) s (RunningStage.remove_input_partitions a b e s).2.
Proof.
  unfold RunningStage.remove_input_partitions.
  case_match; [apply rtc_once; constructor|reflexivity].
Qed.

Lemma handle_fetch_failure_steps att f e a b c :
  rtc (run_step strict) (rc_stage c)
    (rc_stage (handle_fetch_failure msf sid att f e a b c).2).
Proof.
  unfold handle_fetch_failure, mthen, on_acc, mmodify, on_stage. simpl.
  case_match; [|done]. case_bool_decide; [done|]. simpl.
  pose proof (remove_input_partitions_steps a b e (rc_stage c)) as Hr.
  by destruct (RunningStage.remove_input_partitions a b e (rc_stage c)) as [[| |] s'].
Qed.

Lemma handle_other_failure_steps i f c :
  (strict = Strict → ∀ ti, RunningStage.task_infos (rc_stage c) !! i = Some ti → live ti = true) →
  rtc (run_step strict) (rc_stage c) (rc_stage (handle_other_failure mtf sid i f c).2).
Proof.
  intros Hl.
  assert (rtc (run_step strict) (rc_stage c)
            (rc_stage (on_stage (RunningStage.reset_task_info i) c).2)) as Hr.
  { unfold on_stage.
    destruct (RunningStage.task_infos (rc_stage c) !! i) as [ti|] eqn:Hi.
    - pose proof (Run_reset strict i (rc_stage c) ti Hi ltac:(auto)) as Hstep.
      destruct (RunningStage.reset_task_info i (rc_stage c)). by apply rtc_once.
    - unfold RunningStage.reset_task_info. by rewrite Hi. }
  unfold handle_other_failure. destruct (retryable f); simpl; [|done].
  destruct (count_to_failures f); [|done].
  unfold mthen. unfold on_stage at 1.
  destruct c as [s acc locs]. simpl in *.
  destruct (RunningStage.task_failure_number i s) as [n| |]; [|done|done].
  by destruct (n <? mtf).
Qed.

Lemma handle_failed_steps i att f c :
  (strict = Strict → ∀ ti, RunningStage.task_infos (rc_stage c) !! i = Some ti → live ti = true) →
  rtc (run_step strict) (rc_stage c)
    (rc_stage (handle_failed mtf msf sid i att f c).2).
Proof.
  intros Hl. unfold handle_failed.
  destruct (failed_reason f) as [[]|]; auto using handle_other_failure_steps,
    handle_fetch_failure_steps; done.
Qed.

Lemma handle_successful_steps i ms st c :
  rtc (run_step strict) (rc_stage c)
    (rc_stage (handle_successful job executor sid i ms st c).2).
Proof.
  assert (rtc (run_step strict) (rc_stage c)
            (RunningStage.update_task_metrics i ms (rc_stage c)).2) as Hm.
  { unfold RunningStage.update_task_metrics.
    repeat case_match; try done; apply rtc_once; constructor. }
  unfold handle_successful, mthen. unfold on_stage.
  destruct (RunningStage.update_task_metrics i ms (rc_stage c)) as [[| |] s'];
    [|done|done].
  simpl in *. etrans; [exact Hm|].
  unfold RunningStage.append_runtime_stats_reports.
  case_match; [apply rtc_once, Run_reports|].
  eapply rtc_l; [apply Run_reports|]. apply rtc_once, Run_reports.
Qed.

(** A task that was killed is reset in the stage as well, or else given up. *)
Lemma handle_killed_step i st f c ti :
  retryable f = true → count_to_failures f = false → TaskStatus.status st = Some (Failed f) →
  live_status (Failed f) = false →
  running_ok (rc_stage c) → RunningStage.task_infos (rc_stage c) !! i = Some ti →
  live ti = true →
  rtc (run_step strict) (rc_stage c)
    (rc_stage (handle_failed mtf msf sid i (TaskStatus.stage_attempt_num st) f
       (mkRunningCtx (RunningStage.update_task_info now i st (rc_stage c)).2
          (rc_acc c) (rc_locations c))).2).
Proof.
  intros Hret Hcnt Hst Hdead Hok Hi Hl.
  assert (handle_failed mtf msf sid i (TaskStatus.stage_attempt_num st) f
          = on_stage (RunningStage.reset_task_info i)) as ->.
  { unfold handle_failed. simpl in Hdead.
    destruct (failed_reason f) as [[]|]; try done;
      unfold handle_other_failure; by rewrite Hret, Hcnt. }
  unfold on_stage. simpl.
  pose proof (Run_retry strict now i st _ (rc_stage c) ti Hi Hl Hst) as Hstep.
  destruct (RunningStage.reset_task_info i _). by apply rtc_once.
Qed.

Lemma process_running_status_steps ts c :
  (strict ≠ Lenient → report_ok ts) → running_ok (rc_stage c) →
  rtc (run_step strict) (rc_stage c)
    (rc_stage (process_running_status now job executor mtf msf sid ts c).2).
Proof.
  intros Hrep Hok. unfold process_running_status.
  case_match; [done|]. set (i := TaskStatus.task_id ts).
  destruct (RunningStage.task_infos (rc_stage c) !! i) as [ti|] eqn:Hi;
    [|unfold mthen, on_stage, RunningStage.update_task_info; by rewrite Hi].
  destruct (live ti) eqn:Hl.
  2:{ unfold mthen, on_stage, RunningStage.update_task_info. rewrite Hi.
      unfold live in Hl. apply negb_false_iff in Hl. by rewrite Hl. }
  destruct (TaskStatus.status ts) as [v|] eqn:Hst.
  2:{ unfold mthen, on_stage, RunningStage.update_task_info. rewrite Hi, Hst.
      by destruct (TaskInfo.is_reset ti). }
  destruct (update_task_info_accepts now i ts v (rc_stage c) ti)
    as (ti' & ns & Hu & Hids & Hv & _ & _); auto.
  unfold mthen. unfold on_stage at 1. rewrite Hu. simpl.
  assert (i < length (RunningStage.task_infos (rc_stage c))) by (by eapply lookup_lt_Some).
  destruct (live_status v) eqn:Hlv.
  - pose proof (Run_report strict now i ts v (rc_stage c) ti Hi Hl Hst Hlv) as Hstep.
    rewrite Hu in Hstep. eapply rtc_l; [exact Hstep|].
    destruct v as [e|f|st]; [done| |].
    + apply (handle_failed_steps i _ f (mkRunningCtx _ _ _)). simpl.
      intros _ tj. rewrite list_lookup_insert_eq by done. intros; simplify_eq.
      by rewrite live_of_status, Hv.
    + apply (handle_successful_steps i _ st (mkRunningCtx _ _ _)).
  - destruct v as [e|f|st]; [done| |done].
    destruct (given_up_status (Failed f)) eqn:Hg.
    + assert (strict = Lenient) as Hm.
      { destruct strict; [done|..]; destruct (Hrep ltac:(done) f Hst Hlv) as [Hr Hc];
          simpl in Hg; rewrite Hr, Hc in Hg; by destruct (failed_reason f) as [[]|]. }
      pose proof (Run_give_up strict now i ts _ (rc_stage c) ti Hm Hi Hl Hst Hg) as Hstep.
      rewrite Hu in Hstep. eapply rtc_l; [exact Hstep|].
      apply (handle_failed_steps i _ f (mkRunningCtx _ _ _)). by rewrite Hm.
    + destruct (not_given_up f Hlv Hg) as [Hret Hcnt].
      pose proof (handle_killed_step i ts f c ti Hret Hcnt Hst Hlv Hok Hi Hl) as Hk.
      by rewrite Hu in Hk.
Qed.
End running_status.

(** ** The loop over the stages of a status update *)

Definition all_ok g : Prop := ∀ sid x, stages g !! sid = Some x → stage_ok x.
Definition all_wf g : Prop := ∀ sid x, stages g !! sid = Some x → stage_wf x.

Definition all_kept g : Prop := ∀ sid x, stages g !! sid = Some x → stage_kept x.

Lemma all_kept_steps strict g g' :
  strict ≠ Lenient → all_ok g → all_kept g → graph_steps strict g g' → all_kept g'.
Proof. intros Hm Hok Hkept Hs sid y (x & Hx & Hxy)%Hs. eapply stage_steps_kept; eauto. Qed.

Lemma all_wf_ok g : all_wf g → all_ok g.
Proof. intros Hwf sid x Hx. by eapply stage_wf_ok, Hwf. Qed.
Lemma all_ok_steps strict g g' : all_ok g → graph_steps strict g g' → all_ok g'.
Proof. intros Hok Hs sid y (x & Hx%Hok & Hxy)%Hs. by eapply stage_steps_ok. Qed.
Lemma all_wf_steps g g' : all_wf g → graph_steps Strict g g' → all_wf g'.
Proof. intros Hok Hs sid y (x & Hx%Hok & Hxy)%Hs. by eapply stage_steps_wf. Qed.

Lemma run_steps_ok strict s s' : rtc (run_step strict) s s' → running_ok s → running_ok s'.
Proof. induction 1; eauto using run_step_ok. Qed.

Lemma run_steps_stage strict s s' :
  rtc (run_step strict) s s' → rtc (stage_step strict) (RunningS s) (RunningS s').
Proof. apply rtc_congruence. intros s1 s2. by constructor. Qed.

(** The running stages outside [D] are the same in the two graphs. *)
Definition same_running (D : nat → Prop) g g' : Prop :=
  ∀ sid s, ¬ D sid → stages g !! sid = Some (RunningS s) →
           stages g' !! sid = Some (RunningS s).

(** Only unresolved stages of [g] are unresolved in [g']. *)
Definition no_new_unresolved g g' : Prop :=
  ∀ sid u', stages g' !! sid = Some (UnResolved u') →
    ∃ u, stages g !! sid = Some (UnResolved u).

#[global] Instance same_running_preorder D : PreOrder (same_running D).
Proof. split; [by intros g sid s|]. intros g1 g2 g3 H12 H23 sid s HD Hs. auto. Qed.
#[global] Instance no_new_unresolved_preorder : PreOrder no_new_unresolved.
Proof.
  split; [intros g sid u Hu; eauto|].
  intros g1 g2 g3 H12 H23 sid u [u2 Hu2]%H23. by eapply H12.
Qed.

Lemma publish_links_same sid done_ locs links g :
  same_running (λ _, False) g (publish_links sid done_ locs links g).2 ∧
  no_new_unresolved g (publish_links sid done_ locs links g).2.
Proof.
  revert g. induction links as [|link links IH]; intros g; simpl; [by split|].
  assert (same_running (λ _, False) g (publish_link sid done_ locs link g).2 ∧
          no_new_unresolved g (publish_link sid done_ locs link g).2) as [Hr Hu].
  { unfold publish_link.
    destruct (stages g !! link) as [[u| | | |]|] eqn:Hx; try by split.
    assert (∀ u', same_running (λ _, False) g (put_stage link (UnResolved u') g) ∧
                  no_new_unresolved g (put_stage link (UnResolved u') g)) as Hput.
    { intros u'. split.
      - intros k s _ Hk. simpl. rewrite lookup_insert_ne; [done|]. congruence.
      - intros k u2. simpl. intros [[<- _]|[_ Hk]]%lookup_insert_Some; eauto. }
    destruct (UnresolvedStage.add_input_partitions sid locs u) as [[| |] u'];
      by apply Hput. }
  unfold mthen. destruct (publish_link sid done_ locs link g) as [[rs| |] g'];
    simpl in *; [|done|done].
  destruct (IH g') as [Hr' Hu'].
  destruct (publish_links sid done_ locs links g') as [[rest| |] g2]; simpl in *;
    (split; [by transitivity g'|by transitivity g']).
Qed.

Lemma update_stage_output_links_same sid done_ locs links g :
  same_running (λ _, False) g (update_stage_output_links sid done_ locs links g).2 ∧
  no_new_unresolved g (update_stage_output_links sid done_ locs links g).2.
Proof.
  destruct links as [|link links]; [|apply publish_links_same].
  split; [by intros k s|]. intros k u Hk. eauto.
Qed.

(** What the loop knows of the stages that it collected as successful, and of
    the running stages whose tasks it will reset. *)
Record acc_inv (strict : mode) g (acc : Acc.t) : Prop := {
  inv_successful : ∀ sid, sid ∈ Acc.successful_stages acc →
    ∃ s, stages g !! sid = Some (RunningS s) ∧ RunningStage.is_successful s = Ok true;
  inv_disjoint : ∀ sid, sid ∈ Acc.successful_stages acc →
    Acc.reset_running_stages acc !! sid = None;
  inv_late : strict = Strict → Acc.reset_running_stages acc = ∅;
}.

(** What the handlers of the statuses of a running stage do to the collected
    transitions: they record attempts, fail the stage, or roll it back. *)
Lemma process_running_status_inv (P : Acc.t → Prop) now job ex mtf msf sid ts :
  (∀ attempts acc, P acc → P (Acc.set_attempts attempts acc)) →
  (∀ msg acc, P acc → P (Acc.fail_stage sid msg acc)) →
  (∀ f e a b removed acc, TaskStatus.status ts = Some (Failed f) →
     failed_reason f = Some (FR_FetchPartitionError e a b) →
     P acc → P (Acc.roll_back sid e a removed acc)) →
  preserves (λ c, P (rc_acc c)) (process_running_status now job ex mtf msf sid ts).
Proof.
  intros Hatt Hfail Hroll c Hc. unfold process_running_status. case_match; [done|].
  assert (∀ A (m : M BallistaError RunningStage.t A),
    preserves (λ c, P (rc_acc c)) (on_stage m)) as Hon.
  { intros A m c' Hc'. unfold on_stage. by destruct (m (rc_stage c')). }
  assert (∀ f, (∀ a, P a → P (f a)) → preserves (λ c, P (rc_acc c)) (on_acc f)) as Hacc.
  { intros f Hf c' Hc'. by apply Hf. }
  apply (preserves_then (λ c, P (rc_acc c))); [apply Hon| |done]. intros [].
  2:{ apply preserves_ret. }
  simpl. destruct (TaskStatus.status ts) as [[e|f|st]|] eqn:Hst; try apply preserves_ret.
  - unfold handle_failed. destruct (failed_reason f) as [[|e a b| | | |]|] eqn:Hf;
      try (by apply Hacc; auto); try (unfold handle_other_failure).
    { intros c' Hc'. unfold handle_fetch_failure.
      apply (preserves_then (λ c, P (rc_acc c))); [by apply Hacc; auto| |done]. intros _.
      case_match; [|by apply Hacc; auto]. case_bool_decide; [apply preserves_ret|].
      apply preserves_then; [apply Hon|]. intros removed. apply Hacc. eauto. }
    all: case_match; [|case_match; [apply Hon|apply preserves_ret]];
      (apply preserves_then; [apply Hon|]); intros n; (case_match; [apply Hon|]);
      (apply preserves_then; [apply preserves_get|]); intros c'; by apply Hacc; auto.
  - unfold handle_successful. apply preserves_then; [apply Hon|]. intros _.
    by apply preserves_modify.
Qed.

(** The handlers leave the successful and the reset stages alone. *)
Lemma process_running_status_acc now job ex mtf msf sid ts X Y :
  preserves (λ c, Acc.successful_stages (rc_acc c) = X ∧
                  Acc.reset_running_stages (rc_acc c) = Y)
    (process_running_status now job ex mtf msf sid ts).
Proof.
  by apply (process_running_status_inv (λ a, Acc.successful_stages a = X ∧
              Acc.reset_running_stages a = Y)).
Qed.

(** *** The statuses of an unresolved stage *)

Definition is_fetch_failure (ts : TaskStatus.t) : bool :=
  match TaskStatus.status ts with
  | Some (Failed f) =>
      match failed_reason f with
      | Some (FR_FetchPartitionError _ _ _) => true
      | _ => false
      end
  | _ => false
  end.

(** The effects of one status: the stage is still unresolved, and a running
    stage whose tasks are to be reset is not successful any more. *)
Record unresolved_effect (strict : mode) (ts : TaskStatus.t) (c c' : unresolved_ctx)
  : Prop := {
  ue_steps : rtc (stage_step strict) (UnResolved c.1) (UnResolved c'.1);
  ue_successful : ∀ sid, sid ∈ Acc.successful_stages c'.2 →
    sid ∈ Acc.successful_stages c.2 ∧
    (Acc.reset_running_stages c.2 !! sid = None →
     Acc.reset_running_stages c'.2 !! sid = None);
  ue_late : is_fetch_failure ts = false →
    Acc.reset_running_stages c'.2 = Acc.reset_running_stages c.2;
}.

Lemma unresolved_effect_refl strict ts c : unresolved_effect strict ts c c.
Proof. by split. Qed.

Lemma late_fetch_failure_effect strict sid ts e a b c :
  is_fetch_failure ts = true →
  unresolved_effect strict ts c (late_fetch_failure sid e a b c).2.
Proof.
  intros Hts. destruct c as [u acc]. unfold late_fetch_failure.
  unfold UnresolvedStage.remove_input_partitions.
  destruct (UnresolvedStage.inputs (UnresolvedStage.add_failure_reason e u) !! a);
    split; simpl; rewrite ?Hts; try done.
  - eapply rtc_l; [apply Step_reason|]. apply rtc_once, Step_inputs.
  - intros k. unfold Acc.extend_entry. intros [Hk Hne]%elem_of_difference.
    split; [done|]. rewrite lookup_insert_ne; [done|]. set_solver.
  - apply rtc_once, Step_reason.
Qed.

Lemma process_unresolved_status_effect strict cur sid ts c :
  unresolved_effect strict ts c (process_unresolved_status cur sid ts c).2.
Proof.
  destruct c as [u acc]. unfold process_unresolved_status.
  destruct (TaskStatus.status ts) as [[|f|]|] eqn:Hst; try apply unresolved_effect_refl.
  case_bool_decide; [|apply unresolved_effect_refl].
  destruct (failed_reason f) as [[|e a b| | | |]|] eqn:Hf; try apply unresolved_effect_refl.
  - by split.
  - destruct (_ && _ && _); [|apply unresolved_effect_refl].
    apply late_fetch_failure_effect.
    unfold is_fetch_failure. by rewrite Hst, Hf.
Qed.

Lemma unresolved_statuses_effect strict cur sid l c :
  let c' := (mfor l (process_unresolved_status cur sid) c).2 in
  rtc (stage_step strict) (UnResolved c.1) (UnResolved c'.1) ∧
  (∀ k, k ∈ Acc.successful_stages c'.2 →
    k ∈ Acc.successful_stages c.2 ∧
    (Acc.reset_running_stages c.2 !! k = None →
     Acc.reset_running_stages c'.2 !! k = None)) ∧
  ((∀ ts, ts ∈ l → is_fetch_failure ts = false) →
    Acc.reset_running_stages c'.2 = Acc.reset_running_stages c.2).
Proof.
  revert c. induction l as [|ts l IH]; intros c; cbv zeta; simpl; [by split_and!|].
  destruct (process_unresolved_status_effect strict cur sid ts c) as [Hs1 Hk1 Hr1].
  unfold mthen. destruct (process_unresolved_status cur sid ts c) as [[[]| |] c1];
    simpl in *; [|split_and!; auto using list_elem_of_here..].
  destruct (IH c1) as (Hs2 & Hk2 & Hr2). split_and!.
  - by etrans.
  - intros k Hk. destruct (Hk2 k Hk) as [Hk' Hn]. destruct (Hk1 k Hk') as [? ?]. auto.
  - intros Hall. rewrite Hr2; [apply Hr1, Hall; left|].
    intros ts' Hts'. apply Hall. by right.
Qed.

(** *** One stage *)

Section one_stage.
Context (strict : mode) (now : N) (ex : ExecutorMetadata.t) (mtf msf : nat)
  (cur : gset nat).

Lemma running_statuses_steps job sid l c :
  (strict ≠ Lenient → ∀ ts, ts ∈ l → report_ok ts) → running_ok (rc_stage c) →
  rtc (run_step strict) (rc_stage c)
    (rc_stage (mfor l (process_running_status now job ex mtf msf sid) c).2).
Proof.
  intros Hrep Hok.
  apply (preserves_for (λ c', rtc (run_step strict) (rc_stage c) (rc_stage c'))); [|done].
  intros ts Hts c' Hc'. etrans; [exact Hc'|]. apply process_running_status_steps; [auto|].
  by eapply run_steps_ok.
Qed.

Lemma running_statuses_acc job sid l c :
  let c' := (mfor l (process_running_status now job ex mtf msf sid) c).2 in
  Acc.successful_stages (rc_acc c') = Acc.successful_stages (rc_acc c) ∧
  Acc.reset_running_stages (rc_acc c') = Acc.reset_running_stages (rc_acc c).
Proof.
  apply (preserves_for (λ c', Acc.successful_stages (rc_acc c') = _ ∧
                              Acc.reset_running_stages (rc_acc c') = _)); [|done].
  intros ts _. apply process_running_status_acc.
Qed.

Lemma finish_running_stage_steps sid s c g acc :
  keyed g → stages g !! sid = Some (RunningS s) →
  rtc (run_step strict) s (rc_stage c) →
  graph_steps strict g (finish_running_stage sid c (g, acc)).2.1.
Proof.
  intros Hk Hx Hs. unfold finish_running_stage. cbn [fst].
  assert (graph_steps strict g (put_stage sid (RunningS (rc_stage c)) g)) as Hput.
  { eapply steps_put_rtc; [done|]. by apply run_steps_stage. }
  destruct (RunningStage.is_successful (rc_stage c)) as [b| |]; [|done|done].
  match goal with |- context [update_stage_output_links ?a ?b ?l ?o ?g'] =>
    pose proof (update_stage_output_links_steps strict a b l o g') as Hu;
    destruct (update_stage_output_links a b l o g') as [[r| |] g2]
  end; simpl in *; (etrans; [exact Hput|]); apply Hu; by eapply keyed_steps.
Qed.

Lemma update_one_stage_steps kv g acc :
  keyed g → all_ok g → (strict ≠ Lenient → ∀ ts, ts ∈ kv.2 → report_ok ts) →
  graph_steps strict g (update_one_stage now ex mtf msf cur kv (g, acc)).2.1.
Proof.
  destruct kv as [sid l]. intros Hk Hok Hrep. unfold update_one_stage. simpl in Hrep.
  destruct (stages g !! sid) as [[u| |s| |]|] eqn:Hx; try done.
  - pose proof (unresolved_statuses_effect strict cur sid l (u, acc)) as (Hs & _).
    destruct (mfor l (process_unresolved_status cur sid) (u, acc)) as [o [u' acc']]. simpl in *.
    by eapply steps_put_rtc.
  - pose proof (running_statuses_steps (job_id g) sid l (mkRunningCtx s acc []) Hrep
                  (Hok _ _ Hx)) as Hs. simpl in Hs.
    destruct (mfor l (process_running_status _ _ _ _ _ _) _) as [[[]| |] c]; simpl in Hs.
    + by eapply finish_running_stage_steps.
    + eapply steps_put_rtc; [done|]. by apply run_steps_stage.
    + eapply steps_put_rtc; [done|]. by apply run_steps_stage.
Qed.

(** What a successful round of the loop establishes. *)
Record round (sid : nat) g (acc : Acc.t) g' (acc' : Acc.t) : Prop := {
  rd_inv : acc_inv strict g' acc';
  rd_successful : ∀ k, k ∈ Acc.successful_stages acc' →
    k ∈ Acc.successful_stages acc ∨ k = sid;
  rd_unresolved : no_new_unresolved g g';
}.

Lemma finish_running_stage_round sid s c g acc g' acc' :
  stages g !! sid = Some (RunningS s) → acc_inv strict g acc →
  sid ∉ Acc.successful_stages acc →
  Acc.successful_stages (rc_acc c) = Acc.successful_stages acc →
  Acc.reset_running_stages (rc_acc c) = Acc.reset_running_stages acc →
  finish_running_stage sid c (g, acc) = (Ok tt, (g', acc')) →
  round sid g acc g' acc'.
Proof.
  intros Hx [Hsucc Hdis Hlate] Hnew HX HY. unfold finish_running_stage. cbn [fst].
  destruct (RunningStage.is_successful (rc_stage c)) as [b| |] eqn:Hb; [|done|done].
  set (final := b && _).
  pose proof (update_stage_output_links_same sid final (rc_locations c)
    (RunningStage.output_links (rc_stage c))
    (put_stage sid (RunningS (rc_stage c)) g)) as [Hr Hu].
  destruct (update_stage_output_links _ _ _ _ _) as [[res| |] g2]; [|done|done].
  intros [= <- <-]. simpl in Hr, Hu.
  assert (no_new_unresolved g (put_stage sid (RunningS (rc_stage c)) g)) as Hput.
  { intros k u. simpl. intros [[_ ?]|[_ ?]]%lookup_insert_Some; [done|eauto]. }
  assert (∀ k, k ∈ Acc.successful_stages (if final then Acc.add_successful sid (rc_acc c)
                                         else rc_acc c) →
    k ∈ Acc.successful_stages acc ∨ (k = sid ∧ final = true)) as Hin.
  { intros k. destruct final; simpl; rewrite HX; set_solver. }
  assert (Acc.reset_running_stages (if final then Acc.add_successful sid (rc_acc c)
            else rc_acc c) = Acc.reset_running_stages acc) as HR by (by destruct final).
  split; [split| |by transitivity (put_stage sid (RunningS (rc_stage c)) g)]; simpl.
  - intros k [Hk|[-> Hf]]%Hin.
    + destruct (Hsucc k Hk) as (s' & Hs' & Hsu). exists s'. split; [|done].
      apply Hr; [by intros []|]. simpl. rewrite lookup_insert_ne; [done|]. set_solver.
    + apply andb_true_iff in Hf as [-> _]. exists (rc_stage c). split; [|done].
      apply Hr; [by intros []|]. simpl. by rewrite lookup_insert_eq.
  - intros k [Hk|[-> Hf]]%Hin; rewrite HR; [by apply Hdis|].
    apply andb_true_iff in Hf as [_ Hf%bool_decide_eq_true]. by rewrite <-HY.
  - intros Hst. by rewrite HR, Hlate.
  - intros k [?|[-> _]]%Hin; auto.
Qed.

Lemma update_one_stage_round kv g acc g' acc' :
  acc_inv strict g acc → kv.1 ∉ Acc.successful_stages acc →
  (strict = Strict → ∀ u, stages g !! kv.1 = Some (UnResolved u) →
     ∀ ts, ts ∈ kv.2 → is_fetch_failure ts = false) →
  update_one_stage now ex mtf msf cur kv (g, acc) = (Ok tt, (g', acc')) →
  round kv.1 g acc g' acc'.
Proof using All.
  destruct kv as [sid l]. intros Hinv Hnew Hnl. unfold update_one_stage. simpl in *.
  destruct (stages g !! sid) as [[u| |s| |]|] eqn:Hx; try done;
    try (intros [= <- <-]; by split; [|auto|]).
  - pose proof (unresolved_statuses_effect strict cur sid l (u, acc)) as (_ & Hk & Hl).
    destruct (mfor l (process_unresolved_status cur sid) (u, acc)) as [o [u' acc1]]. simpl in *. intros [= -> <- <-].
    destruct Hinv as [Hsucc Hdis Hlate].
    split; [split| |]; simpl.
    + intros k Hk'. destruct (Hk k Hk') as [Hk1 _]. destruct (Hsucc k Hk1) as (s & Hs & ?).
      exists s. split; [|done]. rewrite lookup_insert_ne; [done|]. congruence.
    + intros k Hk'. destruct (Hk k Hk') as [Hk1 Hn]. by apply Hn, Hdis.
    + intros Hst. rewrite Hl; [by apply Hlate|]. by apply (Hnl Hst u).
    + intros k Hk'. left. by apply Hk.
    + intros k u2. simpl. intros [[<- _]|[_ ?]]%lookup_insert_Some; eauto.
  - pose proof (running_statuses_acc (job_id g) sid l (mkRunningCtx s acc [])) as [HX HY].
    simpl in HX, HY. destruct (mfor l (process_running_status _ _ _ _ _ _) _) as [[[]| |] c]; [|done|done]. simpl in HX, HY.
    by apply (finish_running_stage_round sid s).
Qed.
End one_stage.

(** *** The loop *)

(** The statuses of a stage, in the order in which they were reported. *)
Lemma classify_lookup (l : list TaskStatus.t) sid :
  default [] (classify l !! sid) = filter (λ ts, TaskStatus.stage_id ts = sid) l.
Proof.
  unfold classify. induction l as [|ts l IH] using rev_ind; [done|].
  rewrite foldl_app, filter_app. simpl.
  destruct (decide (TaskStatus.stage_id ts = sid)) as [<-|Hne].
  - rewrite lookup_insert_eq. simpl. rewrite filter_cons_True by done. by rewrite IH.
  - rewrite lookup_insert_ne by done. rewrite filter_cons_False by done.
    by rewrite IH, app_nil_r.
Qed.

Lemma elem_of_classify (l : list TaskStatus.t) sid sts ts :
  (sid, sts) ∈ iter_map (classify l) → ts ∈ sts →
  ts ∈ l ∧ TaskStatus.stage_id ts = sid.
Proof.
  intros Hk Hts. apply elem_of_iter_map in Hk. pose proof (classify_lookup l sid) as Hc.
  rewrite Hk in Hc. simpl in Hc. rewrite Hc in Hts.
  by apply list_elem_of_filter in Hts as [? ?].
Qed.

Lemma nodup_iter_map {A} (m : gmap nat A) : NoDup (iter_map m).*1.
Proof. rewrite iter_map_perm. apply NoDup_fst_map_to_list. Qed.
Lemma nodup_iter_set (X : gset nat) : NoDup (iter_set X).
Proof. rewrite iter_set_perm. apply NoDup_elements. Qed.

Section loop.
Context (strict : mode) (now : N) (ex : ExecutorMetadata.t) (mtf msf : nat)
  (cur : gset nat).
Abbreviation body := (update_one_stage now ex mtf msf cur).

Lemma update_loop_steps l ga :
  keyed ga.1 → all_ok ga.1 → (strict ≠ Lenient → ∀ kv ts, kv ∈ l → ts ∈ kv.2 → report_ok ts) →
  graph_steps strict ga.1 (mfor l body ga).2.1.
Proof.
  intros Hk Hok Hrep.
  apply (preserves_for (λ ga', graph_steps strict ga.1 ga'.1)); [|done].
  intros kv Hkv [g' acc'] Hs. simpl in *. etrans; [exact Hs|].
  apply update_one_stage_steps; [by eapply keyed_steps|by eapply all_ok_steps|eauto].
Qed.

Lemma update_loop_inv l g acc g' acc' :
  NoDup l.*1 → acc_inv strict g acc →
  (∀ sid, sid ∈ Acc.successful_stages acc → sid ∉ l.*1) →
  (strict = Strict → ∀ kv u ts, kv ∈ l → stages g !! kv.1 = Some (UnResolved u) →
     ts ∈ kv.2 → is_fetch_failure ts = false) →
  mfor l body (g, acc) = (Ok tt, (g', acc')) →
  acc_inv strict g' acc'.
Proof using All.
  revert g acc. induction l as [|kv l IH]; intros g acc Hnd Hinv Hdis Hnl Hl; simpl in *.
  { unfold mret in Hl; by simplify_eq. }
  apply NoDup_cons in Hnd as [Hkv Hnd]. unfold mthen in Hl.
  destruct (body kv (g, acc)) as [[[]| |] [g1 acc1]] eqn:Hb; [|done|done].
  destruct (update_one_stage_round strict now ex mtf msf cur kv g acc g1 acc1)
    as [Hinv1 Hsucc1 Hu1]; [done| | |done|].
  { intros Hin. apply (Hdis _ Hin). left. }
  { intros Hst u Hu ts Hts. by eapply (Hnl Hst kv u ts); [left|..]. }
  apply (IH g1 acc1); [done|done| | |done].
  - intros k [Hk|Hk]%Hsucc1 Hin; [apply (Hdis k Hk); by right|by subst].
  - intros Hst kv' u ts Hkv' Hu Hts. destruct (Hu1 _ _ Hu) as [u' Hu'].
    eapply (Hnl Hst kv' u' ts); [by right|done..].
Qed.
End loop.

(** *** After the loop *)

Lemma resubmit_one_steps strict kv : follows strict (resubmit_one kv).
Proof.
  destruct kv as [sid missing]. intros g _. unfold resubmit_one.
  destruct (stages g !! sid) as [[| | |f|]|] eqn:Hx; try done.
  match goal with |- context [mfor ?l ?b f] => set (body := b); set (L0 := l) end.
  assert (rtc (stage_step strict) (SuccessfulS f) (SuccessfulS (mfor L0 body f).2)) as Hs.
  { apply (preserves_for (λ f', rtc (stage_step strict) (SuccessfulS f) (SuccessfulS f')));
      [|done].
    intros i _ f' Hf'. unfold body.
    destruct (SuccessfulStage.task_infos f' !! i) as [ti|] eqn:Hi; [|done].
    eapply rtc_r; [exact Hf'|]. by apply Step_mark. }
  destruct (mfor L0 body f) as [o f']. by eapply steps_put_rtc.
Qed.

Lemma reset_running_one_steps strict kv : strict ≠ Strict → follows strict (reset_running_one kv).
Proof.
  intros Hm. destruct kv as [sid missing]. intros g _. unfold reset_running_one.
  destruct (stages g !! sid) as [[| |s| |]|] eqn:Hx; try done.
  match goal with |- context [mfor ?l ?b s] => set (body := b); set (L0 := l) end.
  assert (rtc (run_step strict) s (mfor L0 body s).2) as Hs.
  { apply (preserves_for (λ s', rtc (run_step strict) s s')); [|done].
    intros i _ s' Hs'. unfold body.
    case_match eqn:Hlt; [|done]. apply Nat.ltb_lt in Hlt.
    destruct (lookup_lt_is_Some_2 _ _ Hlt) as [ti Hi].
    eapply rtc_r; [exact Hs'|]. by eapply Run_reset. }
  destruct (mfor L0 body s) as [o s']. eapply steps_put_rtc; [done|].
  by apply run_steps_stage.
Qed.

Lemma resubmit_one_same kv g : same_running (λ _, False) g (resubmit_one kv g).2.
Proof.
  destruct kv as [sid missing]. unfold resubmit_one.
  destruct (stages g !! sid) as [[| | |f|]|] eqn:Hx; try done.
  destruct (mfor _ _ f) as [o f']. intros k s _ Hk. simpl.
  rewrite lookup_insert_ne; [done|]. congruence.
Qed.

Lemma reset_running_one_same kv g : same_running (λ k, k = kv.1) g (reset_running_one kv g).2.
Proof.
  destruct kv as [sid missing]. unfold reset_running_one.
  destruct (stages g !! sid) as [[| |s| |]|] eqn:Hx; try done.
  destruct (mfor _ _ s) as [o s']. intros k s2 Hne Hk. simpl in *.
  by rewrite lookup_insert_ne by done.
Qed.

Lemma resolve_stage_same sid g : same_running (λ _, False) g (resolve_stage sid g).2.
Proof.
  unfold resolve_stage.
  destruct (stages g !! sid) as [[u| | | |]|] eqn:Hx; try done.
  destruct (UnresolvedStage_to_resolved _ u); [|done|done]. intros k s _ Hk. simpl.
  rewrite lookup_insert_ne; [done|]. congruence.
Qed.

(** The stages of [X] are running and have nothing left to do. *)
Definition ready (X : gset nat) g : Prop :=
  ∀ sid, sid ∈ X → ∃ s, stages g !! sid = Some (RunningS s) ∧
                        RunningStage.is_successful s = Ok true.

Lemma ready_same (X : gset nat) D g g' :
  ready X g → same_running D g g' → (∀ sid, sid ∈ X → ¬ D sid) → ready X g'.
Proof.
  intros Hr Hs HD sid Hsid. destruct (Hr sid Hsid) as (s & Hx & ?).
  exists s. split; [|done]. apply Hs; auto.
Qed.

Lemma succeed_loop_steps strict l g :
  NoDup l → (∀ sid, sid ∈ l → ∃ s, stages g !! sid = Some (RunningS s) ∧
                                   RunningStage.is_successful s = Ok true) →
  graph_steps strict g
    (mfor (E:=BallistaError) l (λ sid, mmodify (λ g, (succeed_stage sid g).2)) g).2.
Proof.
  revert g. induction l as [|sid l IH]; intros g Hnd Hr; [done|].
  apply NoDup_cons in Hnd as [Hsid Hnd].
  destruct (Hr sid ltac:(left)) as (s & Hx & Hs).
  cbn [mfor]. unfold mthen at 1. unfold mmodify at 1.
  transitivity (succeed_stage sid g).2; [by eapply succeed_stage_steps|].
  apply IH; [done|]. intros k Hk. destruct (Hr k ltac:(by right)) as (s' & Hx' & Hs').
  exists s'. split; [|done]. unfold succeed_stage. rewrite Hx. simpl.
  assert (sid ≠ k) by (by intros ->).
  by rewrite lookup_insert_ne, lookup_delete_ne by done.
Qed.

Lemma rollback_all_steps strict l : follows strict (rollback_all l).
Proof.
  induction l as [|[sid rs] l IH]; simpl; [apply follows_ret|].
  apply follows_then; [apply rollback_running_stage_steps|]. intros tasks.
  apply follows_then; [done|]. intros rest. apply follows_ret.
Qed.

Lemma finish_update_stages now u res evs g :
  stages (finish_update now u res evs g).2 = stages g.
Proof. unfold finish_update, succeed_job. by repeat case_match; simplify_eq/=. Qed.

Lemma resolve_loop strict (l : list nat) (X : gset nat) g :
  keyed g → ready X g →
  let g' := (mfor l (λ sid, resolve_stage sid ;;; mret tt) g).2 in
  graph_steps strict g g' ∧ ready X g'.
Proof.
  intros Hk Hr. split.
  - apply (follows_for strict l (λ sid, resolve_stage sid ;;; mret tt)); [|done].
    intros sid _.
    apply follows_then; [apply resolve_stage_steps|]. intros _. apply follows_ret.
  - apply (preserves_for (ready X)); [|done]. intros sid _ g1 Hr1.
    pose proof (resolve_stage_same sid g1) as Hs. unfold mthen.
    assert (ready X (resolve_stage sid g1).2) as Hr2 by (by eapply ready_same; eauto).
    by destruct (resolve_stage sid g1) as [[| |] g2].
Qed.

(** The transitions are applied in the order resolved, successful, rolled
    back, rerun; each is a step of the stage it is about. *)
Lemma processing_stages_update_steps strict now u g :
  keyed g → ready (UpdatedStages.successful_stages u) g →
  graph_steps strict g (processing_stages_update now u g).2.
Proof.
  intros Hk Hr. unfold processing_stages_update. unfold mthen at 1.
  pose proof (resolve_loop strict (iter_set (UpdatedStages.resolved_stages u)) _ g Hk Hr)
    as [Hs1 Hr1].
  destruct (mfor _ (λ sid, resolve_stage sid ;;; mret tt) g) as [[[]| |] g1];
    simpl in Hs1, Hr1; [|done|done].
  etrans; [exact Hs1|]. pose proof (keyed_steps _ _ _ Hk Hs1) as Hk1.
  unfold mthen at 1.
  pose proof (succeed_loop_steps strict (iter_set (UpdatedStages.successful_stages u)) g1
    (nodup_iter_set _)) as Hs2. ospecialize (Hs2 _).
  { intros sid Hsid%elem_of_iter_set. by apply Hr1. }
  destruct (mfor _ (λ sid, mmodify (λ g, (succeed_stage sid g).2)) g1) as [[[]| |] g2];
    simpl in Hs2; [|done|done].
  etrans; [exact Hs2|]. pose proof (keyed_steps _ _ _ Hk1 Hs2) as Hk2. clear - Hk2.
  revert g2 Hk2. apply follows_then.
  - case_bool_decide; [|apply follows_ret].
    apply follows_then; [apply rollback_all_steps|]. intros tasks.
    apply follows_then; [apply rerun_all_steps|]. intros _. apply follows_ret.
  - intros evs g _. apply steps_frame, finish_update_stages.
Qed.

(** The resets of running and of finished stages. *)
Lemma reset_loops strict (acc : Acc.t) g :
  acc_inv strict g acc → keyed g →
  let m := mfor (iter_map (Acc.resubmit_successful_stages acc)) resubmit_one ;;;
           mfor (iter_map (Acc.reset_running_stages acc)) reset_running_one in
  graph_steps strict g (m g).2 ∧ ready (Acc.successful_stages acc) (m g).2.
Proof.
  intros [Hsucc Hdis Hlate] Hk. split.
  - revert g Hk Hsucc. intros g Hk _. revert g Hk. apply follows_then.
    { apply follows_for. intros kv _. apply resubmit_one_steps. }
    intros _. apply follows_for. intros kv Hkv.
    destruct strict; [by apply reset_running_one_steps..|].
    rewrite iter_map_perm, Hlate, map_to_list_empty in Hkv by done.
    by apply elem_of_nil in Hkv.
  - revert g Hk Hsucc. intros g _. revert g. apply preserves_then.
    { apply preserves_for. intros kv _ g Hr. eapply ready_same; [done| |].
      - apply resubmit_one_same.
      - by intros sid _ []. }
    intros _. apply preserves_for. intros [k missing] Hkv%elem_of_iter_map g Hr.
    eapply ready_same; [done|apply reset_running_one_same|].
    intros sid Hsid ->. rewrite Hdis in Hkv by done. done.
Qed.

(** ** The whole update *)

Lemma mthen_assoc {E S A B C : Type} (m : M E S A) (k : A → M E S B) (h : B → M E S C) s :
  mthen m (λ a, mthen (k a) h) s = mthen (mthen m k) h s.
Proof. unfold mthen. by destruct (m s) as [[a|e|] s']. Qed.

Lemma steps_then strict {A B} (m : G A) (k : A → G B) g :
  graph_steps strict g (m g).2 →
  (∀ a g', m g = (Ok a, g') → graph_steps strict g' (k a g').2) →
  graph_steps strict g (mthen m k g).2.
Proof.
  intros Hm Hk. unfold mthen. destruct (m g) as [[a|e|] g'] eqn:Hg; [|done|done].
  etrans; [exact Hm|]. by apply Hk.
Qed.

Theorem update_task_status_steps strict now ex sts mtf msf g :
  keyed g → all_ok g → (strict ≠ Lenient → ∀ ts, ts ∈ sts → report_ok ts) →
  (strict = Strict → ∀ ts u, ts ∈ sts →
     stages (revive now g).2 !! TaskStatus.stage_id ts = Some (UnResolved u) →
     is_fetch_failure ts = false) →
  graph_steps strict g (update_task_status now ex sts mtf msf g).2.
Proof.
  intros Hk Hok Hrep Hnl. unfold update_task_status.
  pose proof (revive_steps strict now g Hk) as Hs1.
  set (g1 := (revive now g).2) in *. set (cur := list_to_set (running_stages g1)).
  pose proof (keyed_steps _ _ _ Hk Hs1) as Hk1. pose proof (all_ok_steps _ _ _ Hok Hs1) as Hok1.
  pose proof (update_loop_steps strict now ex mtf msf cur (iter_map (classify sts))
    (g1, Acc.init (StaticExecutionGraph.failed_stage_attempts g1)) Hk1 Hok1) as Hs2.
  ospecialize (Hs2 _).
  { intros Hm [k l] ts Hkv Hts. by apply (Hrep Hm), (elem_of_classify sts k l). }
  pose proof (update_loop_inv strict now ex mtf msf cur (iter_map (classify sts))
    g1 (Acc.init (StaticExecutionGraph.failed_stage_attempts g1))) as Hinv.
  cbn [fst] in Hs2. etrans; [exact Hs1|].
  destruct (mfor (iter_map (classify sts)) _ _) as [[[]| |] [g2 acc]];
    cbn [fst snd] in Hs2; [|done|done].
  ospecialize (Hinv g2 acc (nodup_iter_map _) _ _ _ _); [by split| | |done|].
  { by intros sid ?%elem_of_empty. }
  { intros Hst [k l] u ts Hkv Hu Hts. simpl in *.
    destruct (elem_of_classify sts k l ts Hkv Hts) as [? <-]. by eapply Hnl. }
  etrans; [exact Hs2|]. pose proof (keyed_steps _ _ _ Hk1 Hs2) as Hk2.
  unfold mthen at 1. unfold mmodify at 1. set (g3 := set_failed_stage_attempts _ g2).
  assert (acc_inv strict g3 acc) as Hinv3 by (destruct Hinv; by split).
  rewrite mthen_assoc.
  transitivity g3; [by apply steps_frame|].
  destruct (reset_loops strict acc g3 Hinv3) as [Hs4 Hr4].
  { by eapply keyed_steps; [|apply (steps_frame strict g2)]. }
  apply steps_then; [done|]. intros [] g4 Heq. rewrite Heq in Hs4, Hr4.
  apply processing_stages_update_steps; [|done].
  eapply keyed_steps; [|done]. by eapply keyed_steps; [|apply (steps_frame strict g2)].
Qed.
End graph_steps.
