(* ===== verification/LostExecutor.v ===== *)
(** * Losing an executor

    [reset_stages_on_lost_executor] repeats its passes until one of them resets
    nothing. Each pass that resets something lowers the number of input
    locations and of tasks that are on the executor, so the loop ends; when it
    ends, no stage that still has work to do depends on the executor. *)

From S2P Require Import Prelude Errors Types Stage StageFacts StageSteps Graph GraphSteps.
Import StaticExecutionGraph(stages).

(** ** Sums over maps *)
Section msum.
Context {A : Type} (f : A → nat).
Implicit Types (m : gmap nat A).

Definition msum m : nat := map_fold (λ _ x n, f x + n) 0 m.

Lemma msum_empty : msum ∅ = 0.
Proof. apply map_fold_empty. Qed.

Lemma msum_delete m k x : m !! k = Some x → msum m = f x + msum (delete k m).
Proof. intros Hx. unfold msum.
  apply (map_fold_delete_L (λ (_ : nat) x n, f x + n)); [intros; lia|done]. Qed.

Lemma msum_zero m : msum m = 0 ↔ ∀ k x, m !! k = Some x → f x = 0.
Proof.
  split.
  - intros Hm k x Hx. rewrite (msum_delete m k x Hx) in Hm. lia.
  - induction m as [|k x m Hk IH] using map_ind; intros Hall; [apply msum_empty|].
    rewrite (msum_delete _ k x) by apply lookup_insert_eq.
    rewrite delete_insert_id by done.
    rewrite (Hall k x) by apply lookup_insert_eq. rewrite IH; [done|].
    intros k' x' Hx'. apply (Hall k'). rewrite lookup_insert_ne; [done|]. by intros <-; congruence.
Qed.

Lemma msum_le m' m :
  (∀ k x', m' !! k = Some x' → ∃ x, m !! k = Some x ∧ f x' ≤ f x) → msum m' ≤ msum m.
Proof.
  revert m. induction m' as [|k x' m' Hk IH] using map_ind; intros m Hle.
  { rewrite msum_empty. lia. }
  destruct (Hle k x') as (x & Hx & Hf); [apply lookup_insert_eq|].
  rewrite (msum_delete _ k x') by apply lookup_insert_eq. rewrite (msum_delete m k x Hx).
  rewrite delete_insert_id by done. assert (msum m' ≤ msum (delete k m)); [|lia].
  apply IH. intros k2 x2 Hx2. assert (k ≠ k2) by (intros <-; congruence).
  destruct (Hle k2 x2) as (y & Hy & ?); [by rewrite lookup_insert_ne|].
  exists y. by rewrite lookup_delete_ne.
Qed.

Lemma msum_lt m' m k x x' :
  (∀ k x', m' !! k = Some x' → ∃ x, m !! k = Some x ∧ f x' ≤ f x) →
  m !! k = Some x → m' !! k = Some x' → f x' < f x → msum m' < msum m.
Proof.
  intros Hle Hx Hx' Hlt. rewrite (msum_delete m k x Hx), (msum_delete m' k x' Hx').
  assert (msum (delete k m') ≤ msum (delete k m)); [|lia].
  apply msum_le. intros k2 x2 [Hne Hx2]%lookup_delete_Some.
  destruct (Hle k2 x2 Hx2) as (y & Hy & ?). exists y. by rewrite lookup_delete_ne.
Qed.
End msum.

Section lost.
Context `{PlanOps} `{Payload} `{PrecisionOps} `{MapOrder}.
Abbreviation graph := StaticExecutionGraph.t.
Abbreviation G := (M BallistaError graph).
Implicit Types (g : graph) (x y : ExecutionStage) (e : string).

(** ** What depends on an executor *)

Definition output_weight e (o : StageOutput.t) : nat :=
  msum (λ locs : list PartitionLocation.t, length (filter (λ l, loc_executor l = e) locs))
    (StageOutput.partition_locations o).

Definition inputs_weight e (inputs : gmap nat StageOutput.t) : nat :=
  msum (output_weight e) inputs.

Definition tasks_weight e (infos : list TaskInfo.t) : nat :=
  length (filter (λ ti, RunningStage.on_executor e ti = true) infos).

(** The input locations and the tasks of a stage that are on [e]. *)
Definition stage_weight e x : nat :=
  match x with
  | UnResolved s => inputs_weight e (UnresolvedStage.inputs s)
  | Resolved s => inputs_weight e (ResolvedStage.inputs s)
  | RunningS s =>
      inputs_weight e (RunningStage.inputs s) + tasks_weight e (RunningStage.task_infos s)
  | SuccessfulS s =>
      inputs_weight e (SuccessfulStage.inputs s)
        + tasks_weight e (SuccessfulStage.task_infos s)
  | FailedS _ => 0
  end.

Definition graph_weight e g : nat := msum (stage_weight e) (stages g).

(** ** One pass over the stages *)

Lemma elem_of_concat_values {A} (m : gmap nat (list A)) (a : A) :
  a ∈ concat (map_to_list m).*2 ↔ ∃ k l, m !! k = Some l ∧ a ∈ l.
Proof.
  rewrite list_elem_of_In, in_concat. setoid_rewrite <-list_elem_of_In. split.
  - intros (l & ([k l'] & -> & Hin%elem_of_map_to_list)%list_elem_of_fmap & ?). eauto.
  - intros (k & l & Hl%elem_of_map_to_list & ?). exists l. split; [|done].
    apply list_elem_of_fmap. by exists (k, l).
Qed.

Lemma filter_length_pos {A} (P : A → Prop) `{∀ a, Decision (P a)} (l : list A) :
  0 < length (filter P l) ↔ ∃ a, a ∈ l ∧ P a.
Proof.
  split.
  - destruct (filter P l) as [|a l'] eqn:Hf; simpl; [lia|]. intros _. exists a.
    assert (a ∈ filter P l) as [? ?]%list_elem_of_filter by (rewrite Hf; left). done.
  - intros (a & Ha & HP). assert (a ∈ filter P l) as Hin by (by apply list_elem_of_filter).
    destruct (filter P l); simpl; [by apply elem_of_nil in Hin|lia].
Qed.

Lemma has_executor_spec e o :
  has_executor e o = true ↔
  ∃ k locs l, StageOutput.partition_locations o !! k = Some locs ∧ l ∈ locs ∧
              loc_executor l = e.
Proof.
  unfold has_executor. rewrite existsb_exists. setoid_rewrite <-list_elem_of_In. split.
  - intros (l & (k & locs & Hk & Hl)%elem_of_concat_values & He%bool_decide_eq_true). eauto 7.
  - intros (k & locs & l & Hk & Hl & He). exists l. rewrite elem_of_concat_values.
    split; [eauto|]. by apply bool_decide_eq_true.
Qed.

Lemma has_executor_weight e o : has_executor e o = true ↔ output_weight e o ≠ 0.
Proof.
  unfold output_weight. rewrite msum_zero. split.
  - intros (k & locs & l & Hk & Hl & He)%has_executor_spec Hall. specialize (Hall k locs Hk).
    assert (0 < length (filter (λ l, loc_executor l = e) locs)); [|lia].
    apply filter_length_pos. eauto.
  - intros Hn. destruct (has_executor e o) eqn:Hh; [done|]. destruct Hn. intros k locs Hk.
    destruct (decide (length (filter (λ l, loc_executor l = e) locs) = 0)) as [|Hne]; [done|].
    assert (0 < length (filter (λ l, loc_executor l = e) locs)) as Hpos by lia.
    apply filter_length_pos in Hpos as (l & Hl & He).
    cut (has_executor e o = true); [congruence|]. apply has_executor_spec. eauto 7.
Qed.

Lemma clean_output_weight e o : output_weight e (clean_output e o) = 0.
Proof.
  unfold clean_output. destruct (has_executor e o) eqn:Hh.
  - apply msum_zero. intros k locs. simpl. rewrite lookup_fmap.
    destruct (StageOutput.partition_locations o !! k) as [ls|]; simpl; [|done].
    intros [= <-]. unfold StageOutput.retain_not.
    destruct (length (filter (λ l, loc_executor l = e) _)) eqn:Hlen; [done|].
    assert (0 < length (filter (λ l, loc_executor l = e)
      (filter (λ l, loc_executor l ≠ e) ls))) as Hpos by (rewrite Hlen; lia).
    apply filter_length_pos in Hpos as (l & [? ?]%list_elem_of_filter & ?). done.
  - destruct (decide (output_weight e o = 0)) as [|Hn]; [done|].
    apply has_executor_weight in Hn. congruence.
Qed.

Lemma clean_inputs_weight e inputs : inputs_weight e (clean_inputs e inputs) = 0.
Proof.
  apply msum_zero. intros k o. unfold clean_inputs. rewrite lookup_fmap.
  destruct (inputs !! k) as [o'|]; simpl; [|done]. intros [= <-]. apply clean_output_weight.
Qed.

Lemma matched_inputs_weight e inputs :
  matched_inputs e inputs ≠ ∅ → 0 < inputs_weight e inputs.
Proof.
  intros Hm. apply set_choose_L in Hm as [k Hk]. unfold matched_inputs in Hk.
  apply elem_of_dom in Hk as [o Ho]. apply map_lookup_filter_Some in Ho as [Ho Hh].
  simpl in Hh. apply has_executor_weight in Hh. unfold inputs_weight.
  rewrite (msum_delete _ _ _ _ Ho). lia.
Qed.

Lemma lose_tasks_weight e (infos : list TaskInfo.t) :
  tasks_weight e (RunningStage.lose_one e <$> infos) = 0.
Proof.
  unfold tasks_weight. destruct (length (filter _ _)) eqn:Hlen; [done|].
  assert (0 < length (filter (λ ti, RunningStage.on_executor e ti = true)
    (RunningStage.lose_one e <$> infos))) as Hpos by (rewrite Hlen; lia).
  apply filter_length_pos in Hpos as (ti & (tj & -> & _)%list_elem_of_fmap & Hon).
  revert Hon. unfold RunningStage.lose_one.
  destruct (RunningStage.on_executor e tj) eqn:?; [done|congruence].
Qed.

Lemma reset_count e (s : RunningStage.t) :
  (RunningStage.reset_tasks e s).1 = tasks_weight e (RunningStage.task_infos s).
Proof.
  simpl. unfold RunningStage.reset_task_ids, tasks_weight.
  generalize (RunningStage.task_infos s). intros l.
  enough (∀ k, length (omap (λ p : nat * TaskInfo.t,
      if RunningStage.on_executor e p.2 then Some p.1 else None)
      (imap (λ i ti, (k + i, ti)) l))
    = length (filter (λ ti, RunningStage.on_executor e ti = true) l)) as Hk by apply (Hk 0).
  induction l as [|ti l IH]; intros k; [done|]. rewrite imap_cons. simpl.
  rewrite filter_cons. specialize (IH (S k)).
  rewrite (imap_ext _ (λ i ti, (S k + i, ti))).
  2:{ intros. simpl. f_equal. lia. }
  destruct (RunningStage.on_executor e ti); simpl; [f_equal|]; exact IH.
Qed.

Definition is_open x : bool :=
  match x with UnResolved _ | Resolved _ | RunningS _ => true | _ => false end.

Lemma reset_open_zero e x : is_open x = true → stage_weight e (reset_open_stage e x) = 0.
Proof.
  destruct x; simpl; try done; intros _; rewrite clean_inputs_weight; [done..|].
  apply lose_tasks_weight.
Qed.

Lemma reset_open_closed e x : is_open x = false → reset_open_stage e x = x.
Proof. by destruct x. Qed.

Lemma reset_open_is_open e x : is_open (reset_open_stage e x) = is_open x.
Proof. by destruct x. Qed.

Lemma reset_one_weight e (infos : list TaskInfo.t) :
  tasks_weight e (SuccessfulStage.reset_one e <$> infos)
    + length (filter (λ ti, SuccessfulStage.reset_hit e ti = true) infos)
  = tasks_weight e infos.
Proof.
  unfold tasks_weight. induction infos as [|ti infos IH]; [done|].
  assert (RunningStage.on_executor e (SuccessfulStage.reset_one e ti)
    = RunningStage.on_executor e ti && negb (SuccessfulStage.reset_hit e ti)) as Hone.
  { unfold SuccessfulStage.reset_one, SuccessfulStage.reset_hit, RunningStage.on_executor.
    destruct (TaskInfo.task_status ti) as [?|?|st] eqn:Hst; simpl.
    - by rewrite Hst, andb_true_r.
    - by rewrite Hst.
    - case_bool_decide; simpl; [done|]. rewrite Hst. by rewrite bool_decide_false. }
  assert (SuccessfulStage.reset_hit e ti = true → RunningStage.on_executor e ti = true).
  { unfold SuccessfulStage.reset_hit, RunningStage.on_executor.
    by destruct (TaskInfo.task_status ti). }
  rewrite fmap_cons, !filter_cons.
  repeat case_decide; simpl in *; try lia;
    destruct (SuccessfulStage.reset_hit e ti), (RunningStage.on_executor e ti);
    simpl in *; intuition congruence.
Qed.

Lemma reset_finished_le e resubmit sid x :
  stage_weight e (reset_finished_stage e resubmit sid x) ≤ stage_weight e x.
Proof.
  destruct x as [| | |f|]; simpl; try done. case_bool_decide; [|done]. simpl.
  pose proof (reset_one_weight e (SuccessfulStage.task_infos f)). lia.
Qed.

(** The map after the two passes *)
Definition after_passes e g : gmap nat ExecutionStage :=
  map_imap (λ sid x, Some (reset_finished_stage e (resubmit_inputs e (stages g)) sid x))
    (reset_open_stage e <$> stages g).

Lemma after_passes_lookup e g sid y :
  after_passes e g !! sid = Some y ↔
  ∃ x, stages g !! sid = Some x ∧
       y = reset_finished_stage e (resubmit_inputs e (stages g)) sid (reset_open_stage e x).
Proof.
  unfold after_passes. rewrite map_lookup_imap, lookup_fmap.
  destruct (stages g !! sid) as [x|]; simpl; [|naive_solver]. split.
  - intros [= <-]. eauto.
  - by intros (x' & [= <-] & ->).
Qed.

Lemma after_passes_open e g sid y :
  after_passes e g !! sid = Some y → is_open y = true → stage_weight e y = 0.
Proof.
  intros (x & Hx & ->)%after_passes_lookup.
  destruct (is_open x) eqn:Hox.
  - intros _. pose proof (reset_open_zero e x Hox).
    pose proof (reset_finished_le e (resubmit_inputs e (stages g)) sid
      (reset_open_stage e x)). lia.
  - rewrite reset_open_closed by done. destruct x; simpl in *; try done.
    by case_bool_decide.
Qed.

Lemma after_passes_le e g sid y :
  after_passes e g !! sid = Some y →
  ∃ x, stages g !! sid = Some x ∧ stage_weight e y ≤ stage_weight e x.
Proof.
  intros (x & Hx & ->)%after_passes_lookup. exists x. split; [done|].
  etrans; [apply reset_finished_le|].
  destruct (is_open x) eqn:Hox; [rewrite reset_open_zero by done; lia|].
  by rewrite reset_open_closed.
Qed.

(** A stage whose weight is positive and zero after the first pass. *)
Lemma after_passes_lt_open e g sid x :
  stages g !! sid = Some x → is_open x = true → 0 < stage_weight e x →
  msum (stage_weight e) (after_passes e g) < graph_weight e g.
Proof.
  intros Hx Hox Hpos. eapply msum_lt; [apply after_passes_le|done| |].
  - apply after_passes_lookup. eauto.
  - pose proof (reset_open_zero e x Hox).
    pose proof (reset_finished_le e (resubmit_inputs e (stages g)) sid
      (reset_open_stage e x)). lia.
Qed.

Lemma after_passes_lt_finished e g sid :
  sid ∈ filter_map (finished_reset_id e (resubmit_inputs e (stages g)))
          (map_to_list (reset_open_stage e <$> stages g)) →
  msum (stage_weight e) (after_passes e g) < graph_weight e g.
Proof.
  intros ([k y] & Hy%elem_of_map_to_list & Hf)%elem_of_filter_map.
  rewrite lookup_fmap in Hy. destruct (stages g !! k) as [x|] eqn:Hx; simplify_eq/=.
  unfold finished_reset_id in Hf. simpl in Hf.
  destruct (reset_open_stage e x) as [| | |f|] eqn:Hr; try done.
  assert (x = SuccessfulS f) as -> by (destruct x; simpl in Hr; congruence).
  case_match eqn:Hc; [|done]. apply andb_true_iff in Hc as [Hk Hn%Nat.ltb_lt].
  eapply msum_lt; [apply after_passes_le|done| |].
  - apply after_passes_lookup. eauto.
  - simpl. rewrite Hk. simpl in *.
    pose proof (reset_one_weight e (SuccessfulStage.task_infos f)). lia.
Qed.

(** ** The transitions after the passes *)

Definition lighter e g g' : Prop :=
  ∀ sid y, stages g' !! sid = Some y →
    ∃ x, stages g !! sid = Some x ∧ stage_weight e y ≤ stage_weight e x.

#[global] Instance lighter_preorder e : PreOrder (lighter e).
Proof.
  split; [intros g sid x Hx; eauto|].
  intros g1 g2 g3 H12 H23 sid z (y & (x & ? & ?)%H12 & ?)%H23. exists x. split; [done|lia].
Qed.

Lemma lighter_put e g sid x y :
  stages g !! sid = Some x → stage_weight e y ≤ stage_weight e x →
  lighter e g (put_stage sid y g).
Proof.
  intros Hx Hle k z. simpl. intros [[<- <-]|[_ ?]]%lookup_insert_Some; eauto.
Qed.

Lemma rollback_resolved_lighter e sid g : lighter e g (rollback_resolved_stage sid g).2.
Proof.
  unfold rollback_resolved_stage.
  destruct (stages g !! sid) as [[|r| | |]|] eqn:Hx; try done.
  unfold ResolvedStage.to_unresolved.
  destruct (rollback_resolved_shuffles _); simpl; [|done|done]. by eapply lighter_put.
Qed.

Lemma rollback_running_lighter e sid reasons g :
  lighter e g (rollback_running_stage sid reasons g).2.
Proof.
  unfold rollback_running_stage.
  destruct (stages g !! sid) as [[| |s| |]|] eqn:Hx; try done.
  unfold RunningStage.to_unresolved.
  destruct (rollback_resolved_shuffles _); simpl; [|done|done].
  eapply lighter_put; [done|]. simpl. lia.
Qed.

Lemma rerun_lighter e now sid g : lighter e g (rerun_successful_stage now sid g).2.
Proof.
  unfold rerun_successful_stage.
  assert (lighter e g (set_stages (delete sid (stages g)) g)) as Hd.
  { intros k y. simpl. intros [_ ?]%lookup_delete_Some. eauto. }
  destruct (stages g !! sid) as [[| | |f|]|] eqn:Hx; try done.
  intros k y. simpl. rewrite insert_delete_eq.
  intros [[<- <-]|[_ ?]]%lookup_insert_Some; eauto.
Qed.

Lemma rollback_running_stages_lighter e reasons sids g :
  preserves (lighter e g) (rollback_running_stages reasons sids).
Proof.
  induction sids as [|sid sids IH]; simpl; [apply preserves_ret|].
  apply preserves_then.
  - intros g1 Hg1. etrans; [exact Hg1|apply rollback_running_lighter].
  - intros tasks. apply preserves_then; [done|]. intros rest. apply preserves_ret.
Qed.

Lemma reset_internal_lighter e now g :
  lighter e (set_stages (after_passes e g) g) (reset_stages_internal now e g).2.
Proof.
  unfold reset_stages_internal.
  match goal with |- lighter _ _ (?m ?g').2 =>
    assert (preserves (lighter e g') m) as Hm; [|by apply Hm]
  end.
  apply preserves_then.
  { apply preserves_for. intros sid _. apply preserves_then.
    - intros g1 Hg1. etrans; [exact Hg1|apply rollback_resolved_lighter].
    - intros b. apply preserves_ret. }
  intros _. apply preserves_then; [apply rollback_running_stages_lighter|]. intros tasks.
  apply preserves_then.
  { apply preserves_for. intros sid _. apply preserves_modify. intros g1 Hg1.
    etrans; [exact Hg1|apply rerun_lighter]. }
  intros _. apply preserves_ret.
Qed.

Lemma elem_of_keys_where f (m : gmap nat ExecutionStage) k :
  k ∈ keys_where f m ↔ ∃ x, m !! k = Some x ∧ f x = true.
Proof.
  unfold keys_where. rewrite elem_of_dom. split.
  - intros [x [? ?]%map_lookup_filter_Some]. eauto.
  - intros (x & ? & ?). exists x. by apply map_lookup_filter_Some.
Qed.

(** The stages a pass reports as reset. *)
Definition reset_set e g : gset nat :=
  keys_where (running_task_reset e) (stages g)
    ∪ keys_where (λ x, is_resolved x && rollback_stage e x) (stages g)
    ∪ keys_where (λ x, is_running x && rollback_stage e x) (stages g)
    ∪ list_to_set (filter_map (finished_reset_id e (resubmit_inputs e (stages g)))
                     (map_to_list (reset_open_stage e <$> stages g))).

Lemma reset_internal_result now e g reset tasks g' :
  reset_stages_internal now e g = (Ok (reset, tasks), g') → reset = reset_set e g.
Proof.
  unfold reset_stages_internal, mthen, mret. intros Heq.
  repeat case_match; simplify_eq. done.
Qed.

Lemma rollback_weight e x :
  is_resolved x || is_running x = true → rollback_stage e x = true →
  0 < stage_weight e x.
Proof.
  intros Hx Hr%bool_decide_eq_true%matched_inputs_weight.
  destruct x; simpl in *; try done; lia.
Qed.

Lemma reset_set_progress e g :
  reset_set e g ≠ ∅ →
  msum (stage_weight e) (after_passes e g) < graph_weight e g.
Proof.
  intros [k Hk]%set_choose_L. unfold reset_set in Hk.
  rewrite !elem_of_union, elem_of_list_to_set, !elem_of_keys_where in Hk.
  destruct Hk as [[[(x & Hx & Hf)|(x & Hx & [Ho Hr]%andb_true_iff)]
                  |(x & Hx & [Ho Hr]%andb_true_iff)]|Hk].
  - destruct x as [| |s| |]; simpl in Hf; try done.
    eapply (after_passes_lt_open e g k); [done|done|].
    apply Nat.ltb_lt in Hf. pose proof (reset_count e s) as Hc. simpl in *. lia.
  - eapply (after_passes_lt_open e g k); [done|by destruct x|].
    apply rollback_weight; [by rewrite Ho|done].
  - eapply (after_passes_lt_open e g k); [done|by destruct x|].
    apply rollback_weight; [by rewrite Ho, orb_true_r|done].
  - by eapply after_passes_lt_finished.
Qed.

Lemma reset_internal_progress now e g reset tasks g' :
  reset_stages_internal now e g = (Ok (reset, tasks), g') → reset ≠ ∅ →
  graph_weight e g' < graph_weight e g.
Proof.
  intros Heq Hne. pose proof (reset_internal_result _ _ _ _ _ _ Heq) as ->.
  pose proof (reset_set_progress e g Hne) as Hlt.
  pose proof (reset_internal_lighter e now g) as Hl. rewrite Heq in Hl. simpl in Hl.
  assert (graph_weight e g' ≤ msum (stage_weight e) (after_passes e g)); [|lia].
  by apply msum_le.
Qed.

Lemma iter_set_empty : iter_set ∅ = [].
Proof. apply Permutation_nil. by rewrite iter_set_perm, elements_empty. Qed.

(** A pass that resets nothing only cleans the inputs of unresolved stages. *)
Lemma reset_internal_done now e g tasks g' :
  reset_stages_internal now e g = (Ok (∅, tasks), g') →
  stages g' = after_passes e g ∧ tasks = [].
Proof.
  intros Heq. pose proof (reset_internal_result _ _ _ _ _ _ Heq) as Hr.
  unfold reset_set in Hr. symmetry in Hr.
  apply empty_union_L in Hr as [Hr Hd]. apply empty_union_L in Hr as [Hr Hc].
  apply empty_union_L in Hr as [Ha Hb].
  revert Heq. unfold reset_stages_internal, mthen, mret. rewrite Hb, Hc.
  rewrite !iter_set_empty. simpl. unfold mret. rewrite Hd, iter_set_empty. simpl.
  unfold mret. intros; simplify_eq. done.
Qed.

(** ** The loop *)

(** Nothing that [x] still needs is on [e]: no input location, and no task that
    is running or whose output is on it. *)
Definition independent e x : Prop :=
  (∀ k o, open_inputs x !! k = Some o → has_executor e o = false) ∧
  (∀ s i ti, x = RunningS s → RunningStage.task_infos s !! i = Some ti →
     RunningStage.on_executor e ti = false).

Lemma weight_independent e x :
  is_open x = true → stage_weight e x = 0 → independent e x.
Proof.
  intros Ho Hw. split.
  - intros k o Hk. destruct (has_executor e o) eqn:Hh; [|done].
    apply has_executor_weight in Hh. destruct Hh.
    assert (inputs_weight e (open_inputs x) = 0) as Hz by (destruct x; simpl in *; done || lia).
    by apply (proj1 (msum_zero _ _) Hz k).
  - intros s i ti -> Hi. simpl in Hw.
    destruct (RunningStage.on_executor e ti) eqn:Hon; [|done].
    assert (0 < tasks_weight e (RunningStage.task_infos s)); [|lia].
    apply filter_length_pos. exists ti. split; [by eapply list_elem_of_lookup_2|done].
Qed.

Lemma reset_loop_independent fuel now e g r g' sid x :
  reset_stages_on_lost_executor fuel now e g = (Some (Ok r), g') →
  stages g' !! sid = Some x → is_open x = true → independent e x.
Proof.
  revert g r. induction fuel as [|fuel IH]; intros g r Heq Hx Ho; simpl in Heq; [done|].
  destruct (reset_stages_internal now e g) as [[[rs ts]|err|] g1] eqn:Hi; [|done|done].
  case_bool_decide as Hrs; simplify_eq.
  - destruct (reset_internal_done _ _ _ _ _ Hi) as [Hst _]. rewrite Hst in Hx.
    apply weight_independent; [done|]. by eapply after_passes_open.
  - destruct (reset_stages_on_lost_executor fuel now e g1) as [[[[rs' ts']|err|]|] g2] eqn:Hl;
      simplify_eq.
    by eapply IH.
Qed.

(** The plan of a stage that was resolved: what a rollback is applied to. *)
Definition resolved_plan (x : ExecutionStage) : option Plan :=
  match x with
  | Resolved r => Some (ResolvedStage.plan r)
  | RunningS s => Some (RunningStage.plan s)
  | SuccessfulS s => Some (SuccessfulStage.plan s)
  | _ => None
  end.
Definition has_plan (g : graph) (p : Plan) : Prop :=
  ∃ sid x, stages g !! sid = Some x ∧ resolved_plan x = Some p.

(** What a reset may end with: a result, or the failure of [rollback_resolved_shuffles]
    on the plan of a resolved stage of [g]. *)
Definition ends_by_rollback {A : Type} (g : graph) (o : result A) : Prop :=
  match o with
  | Ok _ => True
  | Err err => ∃ p, has_plan g p ∧ rollback_resolved_shuffles p = Err err
  | Panic => ∃ p, has_plan g p ∧ rollback_resolved_shuffles p = Panic
  end.

Definition no_new_plan (g g' : graph) : Prop := ∀ p, has_plan g' p → has_plan g p.

Lemma no_new_plan_map g g' :
  (∀ sid y, stages g' !! sid = Some y →
     resolved_plan y = None ∨
     ∃ x, stages g !! sid = Some x ∧ resolved_plan y = resolved_plan x) →
  no_new_plan g g'.
Proof.
  intros Hm p (sid & y & Hy & Hp). destruct (Hm sid y Hy) as [Hn|(x & Hx & Hyx)]; [congruence|].
  exists sid, x. split; [done|congruence].
Qed.

Section rollback_only.
Context (g0 : graph).

Definition rolls_back {A : Type} (m : G A) : Prop :=
  ∀ g, no_new_plan g0 g → no_new_plan g0 (m g).2 ∧ ends_by_rollback g0 (m g).1.

Lemma rolls_back_then {A B} (m : G A) (k : A → G B) :
  rolls_back m → (∀ a, rolls_back (k a)) → rolls_back (mthen m k).
Proof.
  intros Hm Hk g Hg. unfold mthen. destruct (Hm g Hg) as [Hp He].
  destruct (m g) as [[a| |] g']; [by apply Hk|done|done].
Qed.
Lemma rolls_back_ret {A} (a : A) : rolls_back (mret a).
Proof. by intros g Hg. Qed.
Lemma rolls_back_for {A} (l : list A) (body : A → G unit) :
  (∀ a, rolls_back (body a)) → rolls_back (mfor l body).
Proof.
  intros Hb. induction l as [|a l IH]; simpl; [apply rolls_back_ret|].
  apply rolls_back_then; [done|]. by intros _.
Qed.

Lemma unresolved_no_new_plan sid u g :
  no_new_plan g0 g → no_new_plan g0 (put_stage sid (UnResolved u) g).
Proof.
  intros Hg p Hp. apply Hg. revert p Hp. apply no_new_plan_map. intros sid' y. simpl.
  rewrite lookup_insert_Some. intros [[<- <-]|[_ Hy]]; [by left|right; by exists y].
Qed.

Lemma rollback_running_stage_rolls_back sid reasons :
  rolls_back (rollback_running_stage sid reasons).
Proof.
  intros g Hg. unfold rollback_running_stage.
  destruct (stages g !! sid) as [[| |s| |]|] eqn:Hx; try done.
  assert (has_plan g0 (RunningStage.plan s)) as Hp by (apply Hg; by exists sid, (RunningS s)).
  unfold RunningStage.to_unresolved.
  destruct (rollback_resolved_shuffles (RunningStage.plan s)) eqn:Hr; simpl;
    split; eauto using unresolved_no_new_plan.
Qed.

Lemma rollback_resolved_stage_rolls_back sid : rolls_back (rollback_resolved_stage sid).
Proof.
  intros g Hg. unfold rollback_resolved_stage.
  destruct (stages g !! sid) as [[|r| | |]|] eqn:Hx; try done.
  assert (has_plan g0 (ResolvedStage.plan r)) as Hp by (apply Hg; by exists sid, (Resolved r)).
  unfold ResolvedStage.to_unresolved.
  destruct (rollback_resolved_shuffles (ResolvedStage.plan r)) eqn:Hr; simpl;
    split; eauto using unresolved_no_new_plan.
Qed.

Lemma rerun_rolls_back now sid :
  rolls_back (mmodify (λ g, (rerun_successful_stage now sid g).2)).
Proof.
  intros g Hg. split; [|done]. intros p Hp. apply Hg. revert p Hp. apply no_new_plan_map.
  intros sid' y. simpl. unfold rerun_successful_stage.
  destruct (stages g !! sid) as [[| | |s|]|] eqn:Hx; simpl;
    rewrite ?lookup_insert_Some, ?lookup_delete_Some; try (intros [_ Hy]; right; by exists y).
  intros [[<- <-]|[_ [_ Hy]]]; right; [by exists (SuccessfulS s)|by exists y].
Qed.

Lemma reset_stages_internal_rolls_back now e : rolls_back (reset_stages_internal now e).
Proof.
  intros g Hg. unfold reset_stages_internal.
  match goal with |- no_new_plan _ (?m ?g').2 ∧ _ => assert (rolls_back m) as Hm; [|apply Hm] end.
  - apply rolls_back_then.
    { apply rolls_back_for. intros sid.
      apply rolls_back_then; [apply rollback_resolved_stage_rolls_back|].
      intros b. apply rolls_back_ret. }
    intros _. apply rolls_back_then.
    { generalize (iter_set (keys_where (λ x, is_running x && rollback_stage e x) (stages g))).
      intros l. induction l as [|sid l IH]; simpl; [apply rolls_back_ret|].
      apply rolls_back_then; [apply rollback_running_stage_rolls_back|]. intros tasks.
      apply rolls_back_then; [done|]. intros rest. apply rolls_back_ret. }
    intros tasks. apply rolls_back_then; [|intros _; apply rolls_back_ret].
    apply rolls_back_for. intros sid. apply rerun_rolls_back.
  - intros p Hp. apply Hg. revert p Hp. apply no_new_plan_map. intros sid y. simpl.
    rewrite map_lookup_imap, lookup_fmap. destruct (stages g !! sid) as [x|]; [|done].
    simpl. intros [= <-]. right. exists x. split; [done|].
    destruct x; simpl; try done. by case_bool_decide.
Qed.
End rollback_only.

Lemma reset_loop_terminates fuel now e g0 g :
  no_new_plan g0 g → graph_weight e g < fuel →
  ∃ o g', reset_stages_on_lost_executor fuel now e g = (Some o, g') ∧ ends_by_rollback g0 o.
Proof.
  revert g. induction fuel as [|fuel IH]; intros g Hg Hw; [lia|]. simpl.
  destruct (reset_stages_internal_rolls_back g0 now e g Hg) as [Hg1 He].
  destruct (reset_stages_internal now e g) as [[[rs ts]|err|] g1] eqn:Hi; [|by eexists _, _..].
  case_bool_decide as Hrs; [by eexists _, _|].
  pose proof (reset_internal_progress _ _ _ _ _ _ Hi Hrs) as Hlt.
  destruct (IH g1 Hg1) as (o & g' & -> & Ho); [lia|]. destruct o as [[]| |]; by eexists _, _.
Qed.
End lost.
