(* ===== verification/Retained.v ===== *)
(** * The stages of a graph are kept

    The transitions that take a stage out of the map before they look at its
    state drop it when the state is not the expected one. A lost executor never
    meets that case, and neither does a status update whose fetch failures name
    finished map stages: the graph keeps exactly its stages, on every path. *)

From S2P Require Import Prelude Errors Types Stage StageFacts StageSteps Graph GraphSteps.
From S2P Require Import LostExecutor.
Import StaticExecutionGraph(stages, job_id).

Section retained.
Context `{PlanOps} `{Payload} `{PrecisionOps} `{MapOrder}.
Abbreviation graph := StaticExecutionGraph.t.
Abbreviation G := (M BallistaError graph).
Implicit Types (g : graph) (x y : ExecutionStage) (sid : nat).

Definition finished_at g sid : Prop := ∃ f, stages g !! sid = Some (SuccessfulS f).

(** The same stages, and the finished ones are still finished. *)
Definition retains g g' : Prop :=
  dom (stages g') = dom (stages g) ∧ ∀ sid, finished_at g sid → finished_at g' sid.

#[global] Instance retains_preorder : PreOrder retains.
Proof.
  split; [by intros g|]. intros g1 g2 g3 [Hd12 Hf12] [Hd23 Hf23].
  split; [congruence|auto].
Qed.

Lemma retains_put g sid x y :
  stages g !! sid = Some x →
  (is_successful_stage x = true → is_successful_stage y = true) →
  retains g (put_stage sid y g).
Proof.
  intros Hx Hxy. split.
  - simpl. rewrite dom_insert_L.
    assert (sid ∈ dom (stages g)) by (by apply elem_of_dom_2 in Hx). set_solver.
  - intros k [f Hf]. unfold finished_at. simpl.
    destruct (decide (sid = k)) as [<-|]; [|rewrite lookup_insert_ne; eauto].
    rewrite lookup_insert_eq. simplify_eq. specialize (Hxy eq_refl).
    destruct y; try done. eauto.
Qed.

Lemma retains_frame g g' : stages g' = stages g → retains g g'.
Proof. unfold retains, finished_at. by intros ->. Qed.

(** A computation that keeps the stages on every path. *)
Definition keeps {A : Type} (m : G A) : Prop := ∀ g0, preserves (retains g0) m.

Lemma keeps_intro {A} (m : G A) : (∀ g, retains g (m g).2) → keeps m.
Proof. intros Hm g0 g Hg. by etrans. Qed.

Lemma keeps_for {A} (l : list A) (body : A → G unit) :
  (∀ a, a ∈ l → keeps (body a)) → keeps (mfor l body).
Proof. intros Hb g0. apply preserves_for. intros a Ha. by apply Hb. Qed.
Lemma keeps_then {A B} (m : G A) (k : A → G B) :
  keeps m → (∀ a, keeps (k a)) → keeps (mthen m k).
Proof. intros Hm Hk g0. apply preserves_then; [apply Hm|]. intros a. apply Hk. Qed.
Lemma keeps_ret {A} (a : A) : keeps (mret a).
Proof. intros g0. apply preserves_ret. Qed.
Lemma keeps_run {A} (m : G A) g : keeps m → retains g (m g).2.
Proof. intros Hm. by apply Hm. Qed.

(** ** The transitions *)

Ltac put_on_match :=
  repeat match goal with
  | |- retains ?g ?g => reflexivity
  | |- context [match stages ?g !! ?sid with _ => _ end] =>
      let E := fresh "Hx" in destruct (stages g !! sid) as [[]|] eqn:E
  | |- retains ?g (put_stage _ _ ?g) => by eapply retains_put
  | |- retains _ (match ?o with _ => _ end).2 => destruct o; simpl
  | |- _ => progress simpl
  end.

Lemma resolve_stage_keeps sid : keeps (resolve_stage sid).
Proof. apply keeps_intro. intros g. unfold resolve_stage. put_on_match. Qed.
Lemma rollback_running_stage_keeps sid reasons : keeps (rollback_running_stage sid reasons).
Proof. apply keeps_intro. intros g. unfold rollback_running_stage. put_on_match. Qed.
Lemma rollback_resolved_stage_keeps sid : keeps (rollback_resolved_stage sid).
Proof. apply keeps_intro. intros g. unfold rollback_resolved_stage. put_on_match. Qed.

Lemma publish_links_keeps sid b locs links : keeps (publish_links sid b locs links).
Proof.
  induction links as [|link links IH]; simpl; [apply keeps_ret|].
  apply keeps_then; [|intros r; apply keeps_then; [done|intros rs; apply keeps_ret]].
  apply keeps_intro. intros g. unfold publish_link.
  destruct (stages g !! link) as [[u| | | |]|] eqn:Hx; try done.
  destruct (UnresolvedStage.add_input_partitions sid locs u) as [[| |] u'];
    by eapply retains_put.
Qed.

Lemma update_stage_output_links_keeps sid b locs links :
  keeps (update_stage_output_links sid b locs links).
Proof.
  destruct links; [|apply publish_links_keeps].
  apply keeps_intro. intros g. by apply retains_frame.
Qed.

Lemma rollback_all_keeps l : keeps (rollback_all l).
Proof.
  induction l as [|[sid rs] l IH]; simpl; [apply keeps_ret|].
  apply keeps_then; [apply rollback_running_stage_keeps|]. intros tasks.
  apply keeps_then; [done|]. intros rest. apply keeps_ret.
Qed.

Lemma rollback_running_stages_keeps reasons l : keeps (rollback_running_stages reasons l).
Proof.
  induction l as [|sid l IH]; simpl; [apply keeps_ret|].
  apply keeps_then; [apply rollback_running_stage_keeps|]. intros tasks.
  apply keeps_then; [done|]. intros rest. apply keeps_ret.
Qed.

Lemma foldl_insert_is_Some (rs : list RunningStage.t) (m : gmap nat ExecutionStage) sid :
  is_Some (m !! sid) →
  is_Some (foldl (λ m r, <[RunningStage.stage_id r := RunningS r]> m) m rs !! sid).
Proof.
  revert m. induction rs as [|r rs IH]; intros m Hm; simpl; [done|]. apply IH.
  destruct (decide (RunningStage.stage_id r = sid)) as [<-|].
  - by rewrite lookup_insert_eq.
  - by rewrite lookup_insert_ne.
Qed.

Lemma revive_retains now g : keyed g → retains g (revive now g).2.
Proof using All.
  intros Hk. pose proof (revive_steps Strict now g Hk) as Hs. revert Hs. unfold revive.
  destruct (filter_map _ _) as [|r rs] eqn:Hrs; [done|]. cbn [snd]. intros Hs. split.
  - apply set_eq. intros sid. rewrite !elem_of_dom. split.
    + intros [y (x & -> & _)%Hs]. eauto.
    + intros Hx. cbn [stages set_stages]. by apply foldl_insert_is_Some.
  - intros sid [f Hf]. exists f. cbn [stages set_stages].
    rewrite foldl_insert_other; [done|]. intros r' Hr' Hid. rewrite <-Hrs in Hr'.
    apply elem_of_filter_map in Hr' as ([k x] & Hin%elem_of_iter_map & Hx).
    destruct x as [|r0| | |]; simplify_eq/=. specialize (Hk _ _ Hin). simpl in Hk.
    congruence.
Qed.

(** Each stage of the list is finished, and is taken out once. *)
Lemma rerun_loop_dom now l g :
  NoDup l → (∀ sid, sid ∈ l → finished_at g sid) →
  dom (stages (mfor (E:=BallistaError) l
                 (λ sid, mmodify (λ g, (rerun_successful_stage now sid g).2)) g).2)
    = dom (stages g).
Proof.
  revert g. induction l as [|sid l IH]; intros g Hnd Hf; [done|].
  apply NoDup_cons in Hnd as [Hsid Hnd]. destruct (Hf sid ltac:(left)) as [f Hx].
  cbn [mfor]. unfold mthen at 1. unfold mmodify at 1.
  assert (sid ∈ dom (stages g)) by (by apply elem_of_dom_2 in Hx).
  assert (stages (rerun_successful_stage now sid g).2 =
    <[sid := RunningS (SuccessfulStage_to_running now f)]> (stages g)) as Hst.
  { unfold rerun_successful_stage. rewrite Hx. simpl. apply insert_delete_eq. }
  rewrite IH; [rewrite Hst, dom_insert_L; set_solver|done|].
  intros k Hk. destruct (Hf k ltac:(by right)) as [f' Hf']. exists f'.
  rewrite Hst, lookup_insert_ne; [done|]. by intros ->.
Qed.

(** Each stage of the list is running and done, and is taken out once. *)
Lemma succeed_loop_retains l g :
  NoDup l → (∀ sid, sid ∈ l → ∃ s, stages g !! sid = Some (RunningS s)) →
  retains g
    (mfor (E:=BallistaError) l (λ sid, mmodify (λ g, (succeed_stage sid g).2)) g).2.
Proof.
  revert g. induction l as [|sid l IH]; intros g Hnd Hr; [done|].
  apply NoDup_cons in Hnd as [Hsid Hnd]. destruct (Hr sid ltac:(left)) as [s Hx].
  cbn [mfor]. unfold mthen at 1. unfold mmodify at 1.
  assert (stages (succeed_stage sid g).2 =
    stages (put_stage sid (SuccessfulS (RunningStage.to_successful s)) g)) as Hst.
  { unfold succeed_stage. rewrite Hx. simpl. apply insert_delete_eq. }
  transitivity (succeed_stage sid g).2.
  - transitivity (put_stage sid (SuccessfulS (RunningStage.to_successful s)) g);
      [by eapply retains_put|by apply retains_frame].
  - apply IH; [done|]. intros k Hk. destruct (Hr k ltac:(by right)) as [s' Hs'].
    exists s'. rewrite Hst. simpl. rewrite lookup_insert_ne; [done|]. by intros ->.
Qed.

(** ** A lost executor *)

Lemma dom_then {A B} (m : G A) (k : A → G B) g :
  keeps m →
  (∀ a g', retains g g' → dom (stages (k a g').2) = dom (stages g)) →
  dom (stages (mthen m k g).2) = dom (stages g).
Proof.
  intros Hm Hk. pose proof (keeps_run m g Hm) as Hr. unfold mthen.
  destruct (m g) as [[a|e|] g']; [by apply Hk|by apply Hr..].
Qed.

Lemma rerun_all_dom now (X : gset nat) g g' :
  retains g g' → (∀ sid, sid ∈ X → finished_at g sid) →
  dom (stages (mfor (E:=BallistaError) (iter_set X)
                 (λ sid, mmodify (λ g, (rerun_successful_stage now sid g).2)) g').2)
    = dom (stages g).
Proof.
  intros [Hd Hf] HX. rewrite rerun_loop_dom; [done|apply nodup_iter_set|].
  intros sid Hsid%elem_of_iter_set. auto.
Qed.

Lemma after_passes_retains e g : retains g (set_stages (after_passes e g) g).
Proof.
  split.
  - apply set_eq. intros sid. rewrite !elem_of_dom. cbn [stages set_stages]. split.
    + intros [y (x & -> & _)%after_passes_lookup]. eauto.
    + intros [x Hx]. eexists. apply after_passes_lookup. eauto.
  - intros sid [f Hf]. unfold finished_at. cbn [stages set_stages].
    setoid_rewrite after_passes_lookup. simpl.
    destruct (decide (sid ∈ resubmit_inputs e (stages g))) as [Hin|Hin].
    + exists (SuccessfulStage.reset_tasks e f).2, (SuccessfulS f). simpl.
      by rewrite bool_decide_true.
    + exists f, (SuccessfulS f). simpl. by rewrite bool_decide_false.
Qed.

Lemma resubmitted_finished e g sid :
  keyed g →
  sid ∈ filter_map (finished_reset_id e (resubmit_inputs e (stages g)))
          (map_to_list (reset_open_stage e <$> stages g)) →
  finished_at g sid.
Proof.
  intros Hk ([k y] & Hy%elem_of_map_to_list & Hid)%elem_of_filter_map.
  apply lookup_fmap_Some in Hy as (x & <- & Hx).
  unfold finished_reset_id in Hid. simpl in Hid.
  destruct x as [| | |f|]; try done. simpl in Hid. case_match; [|done].
  simplify_eq. specialize (Hk _ _ Hx). simpl in Hk. exists f. by rewrite Hk.
Qed.

Lemma reset_stages_internal_dom now e g :
  keyed g → dom (stages (reset_stages_internal now e g).2) = dom (stages g).
Proof using All.
  intros Hk. pose proof (after_passes_retains e g) as [Hd Hf]. rewrite <-Hd.
  unfold reset_stages_internal. fold (after_passes e g).
  set (g1 := set_stages (after_passes e g) g) in *.
  rewrite mthen_assoc. apply dom_then.
  { apply keeps_then; [|intros _; apply rollback_running_stages_keeps].
    apply keeps_for. intros sid _. apply keeps_then; [apply rollback_resolved_stage_keeps|].
    intros b. apply keeps_ret. }
  intros tasks g2 Hr. unfold mthen.
  match goal with |- context [mfor (iter_set ?X) ?b g2] =>
    pose proof (rerun_all_dom now X g1 g2 Hr) as Hdom;
    destruct (mfor (iter_set X) b g2) as [[[]| |] g3]
  end; simpl in *; apply Hdom; intros sid Hsid%elem_of_list_to_set;
    apply Hf; by eapply resubmitted_finished.
Qed.

Lemma reset_loop_dom fuel now e g :
  keyed g → dom (stages (reset_stages_on_lost_executor fuel now e g).2) = dom (stages g).
Proof using All.
  revert g. induction fuel as [|fuel IH]; intros g Hg; simpl; [done|].
  pose proof (reset_stages_internal_dom now e g Hg) as Hd.
  pose proof (keyed_steps _ _ _ Hg (reset_stages_internal_steps Strict now e g Hg)) as Hg'.
  destruct (reset_stages_internal now e g) as [[[rs ts]|err|] g'];
    simpl in *; [|done|done].
  case_bool_decide; [done|]. specialize (IH g' Hg').
  destruct (reset_stages_on_lost_executor fuel now e g') as [[[[]| |]|] g''];
    simpl in *; congruence.
Qed.

(** ** A status update *)

(** The map stages that the fetch failures of [ts] name are in [X]. *)
Definition names (X : gset nat) (ts : TaskStatus.t) : Prop :=
  ∀ f e a b, TaskStatus.status ts = Some (Failed f) →
    failed_reason f = Some (FR_FetchPartitionError e a b) → a ∈ X.

Definition named (X : gset nat) (acc : Acc.t) : Prop :=
  dom (Acc.resubmit_successful_stages acc) ⊆ X.

Lemma process_running_status_named now job ex mtf msf sid ts X :
  names X ts →
  preserves (λ c, named X (rc_acc c)) (process_running_status now job ex mtf msf sid ts).
Proof.
  intros Hts. apply (process_running_status_inv (named X)); [done..|].
  intros f e a b removed acc Hst Hf Ha. unfold named in *. simpl. unfold Acc.extend_entry.
  rewrite dom_insert_L. specialize (Hts f e a b Hst Hf). set_solver.
Qed.

Lemma process_unresolved_status_named cur sid ts X :
  preserves (λ c : unresolved_ctx, named X c.2) (process_unresolved_status cur sid ts).
Proof.
  intros [u acc] Hc. unfold process_unresolved_status.
  destruct (TaskStatus.status ts) as [[|f|]|]; try done. case_bool_decide; [|done].
  destruct (failed_reason f) as [[|e a b| | | |]|]; try done.
  destruct (_ && _ && _); [|done]. unfold late_fetch_failure.
  by destruct (UnresolvedStage.remove_input_partitions _ _ _ _) as [[| |] u'].
Qed.

Section update.
Context (now : N) (ex : ExecutorMetadata.t) (mtf msf : nat) (cur X : gset nat).

Lemma finish_running_stage_retains sid s c g acc :
  stages g !! sid = Some (RunningS s) → named X (rc_acc c) →
  let ga := (finish_running_stage sid c (g, acc)).2 in
  retains g ga.1 ∧ named X ga.2.
Proof.
  intros Hx Hn. cbv zeta. unfold finish_running_stage. cbn [fst].
  assert (retains g (put_stage sid (RunningS (rc_stage c)) g)) as Hput
    by (by eapply retains_put).
  destruct (RunningStage.is_successful (rc_stage c)) as [b| |]; [|by split..].
  set (final := b && _).
  pose proof (keeps_run _ (put_stage sid (RunningS (rc_stage c)) g)
    (update_stage_output_links_keeps sid final (rc_locations c)
       (RunningStage.output_links (rc_stage c)))) as Hu.
  destruct (update_stage_output_links _ _ _ _ _) as [[r| |] g2]; simpl in *;
    (split; [by etrans|by destruct final]).
Qed.

Lemma update_one_stage_retains kv ga :
  (∀ ts, ts ∈ kv.2 → names X ts) → named X ga.2 →
  let ga' := (update_one_stage now ex mtf msf cur kv ga).2 in
  retains ga.1 ga'.1 ∧ named X ga'.2.
Proof.
  destruct kv as [sid l], ga as [g acc]. simpl. intros Hl Hn.
  destruct (stages g !! sid) as [[u| |s| |]|] eqn:Hx; try done.
  - pose proof (preserves_for (λ c : unresolved_ctx, named X c.2) l
      (process_unresolved_status cur sid)) as Hp.
    ospecialize (Hp _ (u, acc) Hn); [intros; apply process_unresolved_status_named|].
    destruct (mfor l (process_unresolved_status cur sid) (u, acc)) as [o [u' acc']].
    split; [by eapply retains_put|done].
  - pose proof (preserves_for (λ c, named X (rc_acc c)) l
      (process_running_status now (job_id g) ex mtf msf sid)) as Hp.
    ospecialize (Hp _ (mkRunningCtx s acc []) Hn).
    { intros ts Hts. by apply process_running_status_named, Hl. }
    destruct (mfor l _ _) as [[[]| |] c]; simpl in Hp.
    + by eapply finish_running_stage_retains.
    + split; [by eapply retains_put|done].
    + split; [by eapply retains_put|done].
Qed.

Lemma update_loop_retains l ga :
  (∀ kv ts, kv ∈ l → ts ∈ kv.2 → names X ts) → named X ga.2 →
  let ga' := (mfor l (update_one_stage now ex mtf msf cur) ga).2 in
  retains ga.1 ga'.1 ∧ named X ga'.2.
Proof.
  intros Hl Hn.
  apply (preserves_for (λ ga', retains ga.1 ga'.1 ∧ named X ga'.2)); [|by split].
  intros kv Hkv ga' [Hr Hn'].
  destruct (update_one_stage_retains kv ga') as [Hr2 Hn2]; [by eauto|done|].
  split; [by etrans|done].
Qed.
End update.

Lemma resubmit_one_keeps kv : keeps (resubmit_one kv).
Proof.
  apply keeps_intro. intros g. destruct kv as [sid missing]. unfold resubmit_one.
  destruct (stages g !! sid) as [[| | |f|]|] eqn:Hx; try done.
  destruct (mfor _ _ f) as [o f']. by eapply retains_put.
Qed.
Lemma reset_running_one_keeps kv : keeps (reset_running_one kv).
Proof.
  apply keeps_intro. intros g. destruct kv as [sid missing]. unfold reset_running_one.
  destruct (stages g !! sid) as [[| |s| |]|] eqn:Hx; try done.
  destruct (mfor _ _ s) as [o s']. by eapply retains_put.
Qed.

Lemma processing_stages_update_dom now u g :
  keyed g → ready (UpdatedStages.successful_stages u) g →
  (∀ sid, sid ∈ UpdatedStages.resubmit_successful_stages u → finished_at g sid) →
  dom (stages (processing_stages_update now u g).2) = dom (stages g).
Proof using All.
  intros Hk Hr Hf. unfold processing_stages_update. unfold mthen at 1.
  destruct (resolve_loop Strict (iter_set (UpdatedStages.resolved_stages u)) _ g Hk Hr)
    as [_ Hr1].
  pose proof (keeps_for (iter_set (UpdatedStages.resolved_stages u))
    (λ sid, resolve_stage sid ;;; mret tt)) as Hkeep. ospecialize (Hkeep _).
  { intros sid _. apply keeps_then; [apply resolve_stage_keeps|]. intros; apply keeps_ret. }
  apply (keeps_run _ g) in Hkeep.
  destruct (mfor _ (λ sid, resolve_stage sid ;;; mret tt) g) as [[[]| |] g1];
    simpl in Hr1, Hkeep; [|by apply Hkeep..].
  unfold mthen at 1.
  pose proof (succeed_loop_retains (iter_set (UpdatedStages.successful_stages u)) g1
    (nodup_iter_set _)) as Hs. ospecialize (Hs _).
  { intros sid Hsid%elem_of_iter_set. destruct (Hr1 sid Hsid) as (s & ? & _). eauto. }
  destruct (mfor _ (λ sid, mmodify (λ g, (succeed_stage sid g).2)) g1) as [[[]| |] g2];
    simpl in Hs; (assert (retains g g2) as Hg2 by (by etrans)); [|by apply Hg2..].
  unfold mthen at 1.
  match goal with |- context [(if ?b then ?m else ?m') g2] =>
    assert (dom (stages ((if b then m else m') g2).2) = dom (stages g)) as Hd;
    [|destruct ((if b then m else m') g2) as [[evs| |] g3]; [|done|done]]
  end.
  - case_bool_decide; [|by apply Hg2]. destruct Hg2 as [Hd2 Hf2]. rewrite <-Hd2.
    apply dom_then; [apply rollback_all_keeps|]. intros tasks g3 Hr3.
    pose proof (rerun_all_dom now (UpdatedStages.resubmit_successful_stages u) g2 g3 Hr3)
      as Hrun. unfold mthen.
    destruct (mfor _ _ g3) as [[[]| |] g4]; simpl in *; auto.
  - by rewrite finish_update_stages.
Qed.

(** The part of an update after the loop over the stages *)
Lemma after_loop_dom now (acc : Acc.t) g :
  acc_inv Lenient g acc → keyed g →
  (∀ sid, sid ∈ dom (Acc.resubmit_successful_stages acc) → finished_at g sid) →
  dom (stages ((mfor (iter_map (Acc.resubmit_successful_stages acc)) resubmit_one ;;;
                mfor (iter_map (Acc.reset_running_stages acc)) reset_running_one ;;;
                processing_stages_update now (updated_stages acc)) g).2) = dom (stages g).
Proof using All.
  intros Hinv Hk Hfin. rewrite mthen_assoc.
  destruct (reset_loops Lenient acc g Hinv Hk) as [Hs Hr].
  match goal with |- context [mthen ?m _ g] =>
    assert (retains g (m g).2) as Hg; [|unfold mthen at 1; set (mm := m) in *]
  end.
  { apply keeps_run, keeps_then.
    - apply keeps_for. intros kv _. apply resubmit_one_keeps.
    - intros _. apply keeps_for. intros kv _. apply reset_running_one_keeps. }
  destruct (mm g) as [[[]| |] g']; simpl in *; destruct Hg as [Hd Hf]; [|done|done].
  rewrite <-Hd. apply processing_stages_update_dom; [by eapply keyed_steps|done|].
  intros sid Hsid. by apply Hf, Hfin.
Qed.

(** The graph after an update has the stages it had before. *)
Lemma update_task_status_dom now ex sts mtf msf g :
  keyed g → all_ok g →
  (∀ ts f e a b, ts ∈ sts → TaskStatus.status ts = Some (Failed f) →
     failed_reason f = Some (FR_FetchPartitionError e a b) → finished_at g a) →
  dom (stages (update_task_status now ex sts mtf msf g).2) = dom (stages g).
Proof using All.
  intros Hk Hok Hfin. unfold update_task_status.
  pose proof (revive_steps Lenient now g Hk) as Hs1.
  pose proof (revive_retains now g Hk) as Hr1.
  set (g1 := (revive now g).2) in *. set (cur := list_to_set (running_stages g1)).
  pose proof (keyed_steps _ _ _ Hk Hs1) as Hk1. pose proof (all_ok_steps _ _ _ Hok Hs1) as Hok1.
  set (acc0 := Acc.init (StaticExecutionGraph.failed_stage_attempts g1)).
  set (X := keys_where is_successful_stage (stages g)).
  pose proof (update_loop_steps Lenient now ex mtf msf cur (iter_map (classify sts))
    (g1, acc0) Hk1 Hok1) as Hs2.
  ospecialize (Hs2 _); [done|].
  pose proof (update_loop_inv Lenient now ex mtf msf cur (iter_map (classify sts)) g1 acc0)
    as Hinv.
  destruct (update_loop_retains now ex mtf msf cur X (iter_map (classify sts)) (g1, acc0))
    as [Hr2 Hn2].
  { intros [k l] ts Hkv Hts f e a b Hst Hf.
    destruct (elem_of_classify sts k l ts Hkv Hts) as [Hin _].
    destruct (Hfin ts f e a b Hin Hst Hf) as [s Hs]. apply elem_of_keys_where. eauto. }
  { unfold named. simpl. set_solver. }
  cbn [fst] in Hs2, Hr2.
  destruct (mfor (iter_map (classify sts)) _ _) as [[[]| |] [g2 acc]];
    cbn [fst snd] in *; (assert (retains g g2) as Hg2 by (by etrans)); [|by apply Hg2..].
  ospecialize (Hinv g2 acc (nodup_iter_map _) _ _ _ _); [by split| |done|done|].
  { by intros sid ?%elem_of_empty. }
  pose proof (keyed_steps _ _ _ Hk1 Hs2) as Hk2.
  unfold mthen at 1. unfold mmodify at 1. set (g3 := set_failed_stage_attempts _ g2).
  assert (retains g g3) as [Hd3 Hf3] by (etrans; [exact Hg2|by apply retains_frame]).
  rewrite <-Hd3. apply after_loop_dom; [by destruct Hinv; split| |].
  - by eapply keyed_steps; [|apply (steps_frame Lenient g2)].
  - intros sid Hsid%Hn2. apply elem_of_keys_where in Hsid as (x & Hx & Hsu).
    apply Hf3. destruct x; try done. by eexists.
Qed.
End retained.
