(* ===== verification/GraphFacts.v ===== *)
(** * Scheduling and the outcome of a job

    Which stage [fetch_running_stage] hands to the scheduler, when a status
    update settles the job, and what becomes of the failures of a task. *)

From S2P Require Import Prelude Errors Types Stage StageFacts StageSteps Graph GraphSteps.
Import StaticExecutionGraph(stages, job_id, output_locations, queued_at, start_time).

Section graph_facts.
Context `{PlanOps} `{Payload} `{PrecisionOps} `{MapOrder}.
Abbreviation graph := StaticExecutionGraph.t.
Abbreviation G := (M BallistaError graph).
Implicit Types (g : graph) (x y : ExecutionStage) (sid : nat).

(** ** Picking a stage *)

(** A stage with partitions to hand out, that the caller did not exclude. *)
Definition schedulable (bl : list nat) sid x : Prop :=
  sid ∉ bl ∧ ∃ s, x = RunningS s ∧ 0 < RunningStage.available_tasks s.

Lemma find_running_Some bl g sid :
  find_running bl g = Some sid →
  ∃ x, stages g !! sid = Some x ∧ schedulable bl sid x.
Proof.
  unfold find_running. destruct (filter_map _ _) as [|k l] eqn:Hf; simpl; [done|].
  intros [= ->].
  assert (sid ∈ sid :: l) as Hin by left. rewrite <-Hf in Hin.
  apply elem_of_filter_map in Hin as ([k x] & Hk%elem_of_iter_map & Hx). simpl in Hx.
  case_bool_decide; [done|]. destruct x as [| |s| |]; try done.
  case_match eqn:Hlt; simplify_eq. exists (RunningS s). split; [done|]. split; [done|].
  exists s. split; [done|]. by apply Nat.ltb_lt.
Qed.

Lemma find_running_None bl g sid x :
  find_running bl g = None → stages g !! sid = Some x → ¬ schedulable bl sid x.
Proof.
  unfold find_running. intros Hf Hx [Hbl (s & -> & Hav)].
  assert (sid ∈ filter_map (λ kv, if bool_decide (kv.1 ∈ bl) then None
    else match kv.2 with
         | RunningS s => if 0 <? RunningStage.available_tasks s then Some kv.1 else None
         | _ => None end) (iter_map (stages g))) as Hin.
  { apply elem_of_filter_map. exists (sid, RunningS s). split; [by apply elem_of_iter_map|].
    simpl. rewrite bool_decide_false by done. by apply Nat.ltb_lt in Hav as ->. }
  destruct (filter_map _ _); [by apply elem_of_nil in Hin|done].
Qed.

Lemma foldl_insert_running (rs : list RunningStage.t) (m : gmap nat ExecutionStage) sid :
  ((∃ r, m !! sid = Some (RunningS r)) ∨ ∃ r, r ∈ rs ∧ RunningStage.stage_id r = sid) →
  ∃ r, foldl (λ m r, <[RunningStage.stage_id r := RunningS r]> m) m rs !! sid
       = Some (RunningS r).
Proof.
  revert m. induction rs as [|r rs IH]; intros m Hr; simpl.
  { destruct Hr as [?|(r & ?%elem_of_nil & _)]; done. }
  apply IH. destruct (decide (RunningStage.stage_id r = sid)) as [<-|Hne].
  { left. exists r. by rewrite lookup_insert_eq. }
  rewrite lookup_insert_ne by done.
  destruct Hr as [?|(r' & [->|?]%elem_of_cons & ?)]; [by left|done|right; eauto].
Qed.

(** After [revive] no stage is left resolved. *)
Lemma revive_none_resolved now g sid r :
  keyed g → stages (revive now g).2 !! sid ≠ Some (Resolved r).
Proof.
  intros Hk. unfold revive. set (rs := filter_map _ _).
  assert (∀ r, stages g !! sid = Some (Resolved r) →
    ∃ r', r' ∈ rs ∧ RunningStage.stage_id r' = sid) as Hin.
  { intros r0 Hr0. exists (ResolvedStage.to_running now r0). split.
    - apply elem_of_filter_map. exists (sid, Resolved r0).
      split; [by apply elem_of_iter_map|done].
    - apply (Hk _ _ Hr0). }
  destruct rs as [|r1 rs1] eqn:Hrs; cbn [snd stages set_stages].
  - intros (r' & ?%elem_of_nil & _)%Hin. done.
  - rewrite <-Hrs. intros Hl. pose proof Hl as [Hl'|(? & _ & _ & ?)]%foldl_insert_lookup; [|done].
    destruct (foldl_insert_running rs (stages g) sid) as [r' Hr'].
    { right. rewrite Hrs. by eapply Hin. }
    rewrite Hr' in Hl. done.
Qed.

Lemma revive_false now g : (revive now g).1 = false → (revive now g).2 = g.
Proof. unfold revive. by destruct (filter_map _ _). Qed.

Lemma revive_idle now g :
  (∀ sid r, stages g !! sid ≠ Some (Resolved r)) → (revive now g).1 = false.
Proof.
  intros Hn. unfold revive. destruct (filter_map _ _) as [|r rs] eqn:Hrs; [done|].
  assert (r ∈ r :: rs) as Hr by left. rewrite <-Hrs in Hr.
  apply elem_of_filter_map in Hr as ([k x] & Hin%elem_of_iter_map & Hx).
  simpl in Hx. destruct x; try done. by destruct (Hn k s).
Qed.

(** The second call of the recursion is the last one. *)
Lemma get_running_stage_id_fuel now bl g fuel :
  keyed g → get_running_stage_id (S fuel) now bl g = get_running_stage_id 1 now bl g.
Proof.
  intros Hk. simpl. destruct (find_running bl g); [done|].
  pose proof (revive_none_resolved now g) as Hnr.
  destruct (revive now g) as [[] g'] eqn:Hr; [|done]. cbn [snd] in Hnr.
  destruct fuel as [|fuel]; [done|]. simpl. destruct (find_running bl g'); [done|].
  assert ((revive now g').1 = false) as Hf by (apply revive_idle; auto).
  destruct (revive now g') as [[] g'']; done.
Qed.

(** What the caller gets: a stage it may take partitions from, or the certainty
    that there is none, also among the stages that were only resolved. *)
Lemma get_running_stage_id_spec now bl g fuel :
  keyed g →
  let r := get_running_stage_id (S fuel) now bl g in
  match r.1 with
  | Some sid => ∃ x, stages r.2 !! sid = Some x ∧ schedulable bl sid x
  | None => ∀ sid x, stages r.2 !! sid = Some x →
                     ¬ schedulable bl sid x ∧ ∀ rs, x ≠ Resolved rs
  end.
Proof.
  intros Hk. rewrite get_running_stage_id_fuel by done. cbv zeta. simpl.
  destruct (find_running bl g) as [sid|] eqn:Hf; [by apply find_running_Some|].
  pose proof (revive_none_resolved now g) as Hnr. pose proof (revive_false now g) as Hid.
  destruct (revive now g) as [[] g'] eqn:Hr; cbn [fst snd] in *.
  - destruct (find_running bl g') as [sid|] eqn:Hf'; [by apply find_running_Some|].
    assert ((revive now g').1 = false) as Hfalse by (apply revive_idle; auto).
    pose proof (revive_false now g' Hfalse) as Hsame.
    destruct (revive now g') as [[] g'']; simplify_eq/=.
    intros sid x Hx. split; [by eapply find_running_None|]. intros rs ->. by eapply Hnr.
  - rewrite Hid in Hnr |- * by done. intros sid x Hx.
    split; [by eapply find_running_None|]. intros rs ->. by eapply Hnr.
Qed.

(** ** The outcome of a status update *)

(** What only the end of an update writes. *)
Definition header g : JobId * JobStatus.t * N * N :=
  (job_id g, StaticExecutionGraph.status g, queued_at g, start_time g).

Lemma update_one_stage_header now ex mtf msf cur kv h :
  preserves (λ ga : graph * Acc.t, header ga.1 = h) (update_one_stage now ex mtf msf cur kv).
Proof.
  assert (∀ sid d locs links, preserves (λ g, header g = h)
    (update_stage_output_links sid d locs links)) as Hlinks.
  { intros sid d locs [|link links]; [by intros g|].
    cbn [update_stage_output_links]. generalize (link :: links). clear link links. intros l.
    induction l as [|link links IH]; simpl; [apply preserves_ret|].
    apply preserves_then.
    - intros g Hg. unfold publish_link. repeat case_match; done.
    - intros r. apply preserves_then; [done|]. intros rest. apply preserves_ret. }
  intros [g acc] Hg. destruct kv as [sid l]. unfold update_one_stage.
  destruct (stages g !! sid) as [[u| |s| |]|]; try done.
  - by destruct (mfor l (process_unresolved_status cur sid) (u, acc)) as [o [u' acc']].
  - destruct (mfor l _ _) as [[[]| |] c]; [|done|done].
    unfold finish_running_stage. cbn [fst].
    destruct (RunningStage.is_successful _) as [b| |]; [|done|done].
    match goal with |- context [update_stage_output_links ?a ?b ?l ?o ?g'] =>
      pose proof (Hlinks a b l o g') as Hu;
      destruct (update_stage_output_links a b l o g') as [[r| |] g2]
    end; simpl in *; by apply Hu.
Qed.

Lemma resubmit_one_header kv h : preserves (λ g, header g = h) (resubmit_one kv).
Proof. intros g Hg. destruct kv. unfold resubmit_one. by repeat case_match. Qed.
Lemma reset_running_one_header kv h : preserves (λ g, header g = h) (reset_running_one kv).
Proof. intros g Hg. destruct kv. unfold reset_running_one. by repeat case_match. Qed.
Lemma resolve_stage_header sid h : preserves (λ g, header g = h) (resolve_stage sid).
Proof. intros g Hg. unfold resolve_stage. by repeat case_match. Qed.
Lemma rollback_running_stage_header sid rs h :
  preserves (λ g, header g = h) (rollback_running_stage sid rs).
Proof. intros g Hg. unfold rollback_running_stage. by repeat case_match. Qed.
Lemma rollback_all_header l h : preserves (λ g, header g = h) (rollback_all l).
Proof.
  induction l as [|[sid rs] l IH]; simpl; [apply preserves_ret|].
  apply preserves_then; [apply rollback_running_stage_header|]. intros tasks.
  apply preserves_then; [done|]. intros rest. apply preserves_ret.
Qed.
Lemma succeed_stage_header sid g : header (succeed_stage sid g).2 = header g.
Proof. unfold succeed_stage. by repeat case_match. Qed.
Lemma rerun_header now sid g : header (rerun_successful_stage now sid g).2 = header g.
Proof. unfold rerun_successful_stage. by repeat case_match. Qed.
Lemma revive_header now g : header (revive now g).2 = header g.
Proof. unfold revive. by destruct (filter_map _ _). Qed.

Definition is_job_event (ev : QueryStageSchedulerEvent) : bool :=
  match ev with JobRunningFailed _ _ _ _ | JobFinished _ _ _ => true | _ => false end.

(** How an update leaves the job: failed, finished, or as it was. *)
Inductive settled (now : N) g (failed : gmap nat message)
  (evs : list QueryStageSchedulerEvent) g' : Prop :=
| Settled_failed pre :
    failed ≠ ∅ →
    evs = pre ++ [JobRunningFailed (job_id g) (job_err_msg failed) (queued_at g) now] →
    Forall (λ ev, is_job_event ev = false) pre →
    StaticExecutionGraph.status g' =
      JobStatus.mk (job_id g) (StaticExecutionGraph.job_name g') (Some (Job_Failed
        (job_err_msg failed) (queued_at g) (start_time g) now)) →
    settled now g failed evs g'
| Settled_finished pre :
    failed = ∅ → is_successful g' = true →
    evs = pre ++ [JobFinished (job_id g) (queued_at g) now] →
    Forall (λ ev, is_job_event ev = false) pre →
    StaticExecutionGraph.status g' =
      JobStatus.mk (job_id g) (StaticExecutionGraph.job_name g') (Some (Job_Successful
        (output_locations g') (queued_at g) (start_time g) now)) →
    settled now g failed evs g'
| Settled_open :
    failed = ∅ → is_successful g' = false →
    Forall (λ ev, is_job_event ev = false) evs →
    StaticExecutionGraph.status g' = StaticExecutionGraph.status g →
    settled now g failed evs g'.

Lemma finish_update_settled now u res pre g0 g evs g' :
  header g = header g0 → Forall (λ ev, is_job_event ev = false) pre →
  finish_update now u res pre g = (Ok evs, g') →
  settled now g0 (UpdatedStages.failed_stages u) evs g'.
Proof.
  intros Hh Hpre. unfold header in Hh. injection Hh as Hj Hst Hq Hs.
  unfold finish_update. rewrite Hj, Hq.
  case_bool_decide as Hf.
  { intros [= <- <-]. eapply Settled_failed; [done..|]. simpl. by rewrite Hj, Hq, Hs. }
  destruct (is_successful g) eqn:Hsucc.
  - unfold succeed_job. rewrite Hsucc. intros [= <- <-].
    eapply Settled_finished; [done|exact Hsucc|done|done|]. simpl. by rewrite Hj, Hq, Hs.
  - destruct res; intros [= <- <-]; apply Settled_open; try done.
    apply Forall_app; split; [done|by repeat constructor].
Qed.

Lemma processing_settled now u g evs g' :
  processing_stages_update now u g = (Ok evs, g') →
  settled now g (UpdatedStages.failed_stages u) evs g'.
Proof.
  unfold processing_stages_update.
  intros ([] & g1 & E1 & ([] & g2 & E2 & (pre & g3 & E3 & E4)%mthen_ok)%mthen_ok)%mthen_ok.
  assert (header g1 = header g) as Hh1.
  { replace g1 with (mfor (iter_set (UpdatedStages.resolved_stages u))
      (λ sid, resolve_stage sid ;;; mret tt) g).2 by (by rewrite E1).
    apply (preserves_for (λ g1, header g1 = header g)); [|done]. intros sid _.
    apply preserves_then; [apply resolve_stage_header|]. intros b. apply preserves_ret. }
  assert (header g2 = header g) as Hh2.
  { replace g2 with (mfor (E:=BallistaError) (iter_set (UpdatedStages.successful_stages u))
      (λ sid, mmodify (λ g, (succeed_stage sid g).2)) g1).2 by (by rewrite E2).
    apply (preserves_for (λ g1, header g1 = header g)); [|done]. intros sid _.
    apply preserves_modify. intros g0 Hg0. by rewrite succeed_stage_header. }
  assert (header g3 = header g ∧ Forall (λ ev, is_job_event ev = false) pre) as [Hh3 Hpre].
  { destruct (bool_decide (UpdatedStages.failed_stages u = ∅)).
    2:{ cbv [mret] in E3. injection E3 as <- <-. by repeat constructor. }
    apply mthen_ok in E3 as (tasks & g4 & E3 & ([] & g5 & E5 & E6)%mthen_ok).
    cbv [mret] in E6. injection E6 as <- <-. split; [|by destruct tasks; repeat constructor].
    replace g5 with (mfor (E:=BallistaError)
      (iter_set (UpdatedStages.resubmit_successful_stages u))
      (λ sid, mmodify (λ g, (rerun_successful_stage now sid g).2)) g4).2 by (by rewrite E5).
    apply (preserves_for (λ g1, header g1 = header g)).
    - intros sid _. apply preserves_modify. intros g0 Hg0. by rewrite rerun_header.
    - replace g4 with (rollback_all (iter_map (UpdatedStages.rollback_running_stages u)) g2).2
        by (by rewrite E3).
      by apply rollback_all_header. }
  by eapply finish_update_settled.
Qed.

(** The main loop of an update that succeeds, and the sets it collected. *)
Lemma update_task_status_ok now ex sts mtf msf g evs g' :
  update_task_status now ex sts mtf msf g = (Ok evs, g') →
  ∃ g2 acc,
    mfor (iter_map (classify sts))
      (update_one_stage now ex mtf msf
         (list_to_set (running_stages (revive now g).2)))
      ((revive now g).2,
       Acc.init (StaticExecutionGraph.failed_stage_attempts (revive now g).2))
      = (Ok tt, (g2, acc)) ∧
    settled now g (Acc.failed_stages acc) evs g'.
Proof.
  unfold update_task_status. intros Heq.
  set (g1 := (revive now g).2) in *. set (body := update_one_stage _ _ _ _ _) in *.
  destruct (mfor (iter_map (classify sts)) body _) as [[[]| |] [g2 acc]] eqn:Hl;
    [|done|done].
  exists g2, acc. split; [done|].
  assert (header g2 = header g) as Hh2.
  { replace g2 with (mfor (iter_map (classify sts)) body
      (g1, Acc.init (StaticExecutionGraph.failed_stage_attempts g1))).2.1 by (by rewrite Hl).
    apply (preserves_for (λ ga : graph * Acc.t, header ga.1 = header g)).
    - intros kv _. apply update_one_stage_header.
    - simpl. apply revive_header. }
  apply mthen_ok in Heq as ([] & g3 & E3 & ([] & g4 & E4 & ([] & g5 & E5 & E6)%mthen_ok)%mthen_ok).
  unfold mmodify in E3. injection E3 as <-.
  assert (header g4 = header g) as Hh4.
  { match type of E4 with ?m ?g3 = _ => replace g4 with (m g3).2 by (by rewrite E4) end.
    apply (preserves_for (λ g1, header g1 = header g)); [|done].
    intros kv _. apply resubmit_one_header. }
  assert (header g5 = header g) as Hh5.
  { match type of E5 with ?m ?g3 = _ => replace g5 with (m g3).2 by (by rewrite E5) end.
    apply (preserves_for (λ g1, header g1 = header g)); [|done].
    intros kv _. apply reset_running_one_header. }
  apply processing_settled in E6. simpl in E6. unfold header in Hh5.
  injection Hh5 as Hj Hst Hq Hs.
  destruct E6 as [pre ? -> ? Hst'|pre ? ? -> ? Hst'|? ? ? Hst'].
  - eapply Settled_failed; rewrite <-?Hj, <-?Hq, <-?Hs; done.
  - eapply Settled_finished; rewrite <-?Hj, <-?Hq, <-?Hs; done.
  - apply Settled_open; [done..|]. by rewrite Hst'.
Qed.

(** ** Failures of tasks *)

Section failures.
Context (now : N) (ex : ExecutorMetadata.t) (mtf msf : nat).

(** A failed stage is never taken back. *)
Definition some_failed (acc : Acc.t) : Prop := Acc.failed_stages acc ≠ ∅.

Lemma fail_stage_some_failed sid msg (a : Acc.t) : some_failed (Acc.fail_stage sid msg a).
Proof. unfold some_failed. simpl. apply insert_non_empty. Qed.

Lemma process_running_status_some_failed job sid ts :
  preserves (λ c, some_failed (rc_acc c))
    (process_running_status now job ex mtf msf sid ts).
Proof.
  apply (process_running_status_inv some_failed); [done| |done].
  intros msg acc _. apply fail_stage_some_failed.
Qed.

Lemma process_unresolved_status_some_failed cur sid ts :
  preserves (λ c : unresolved_ctx, some_failed c.2)
    (process_unresolved_status cur sid ts).
Proof.
  intros [u acc] Hc. unfold process_unresolved_status, late_fetch_failure.
  repeat case_match; simplify_eq/=; try done. apply fail_stage_some_failed.
Qed.

Lemma finish_running_stage_some_failed sid c ga :
  some_failed (rc_acc c) → some_failed (finish_running_stage sid c ga).2.2.
Proof.
  intros Hc. unfold finish_running_stage.
  destruct (RunningStage.is_successful (rc_stage c)) as [[]| |]; [| |done|done];
    destruct (update_stage_output_links _ _ _ _ _) as [[| |] g2]; simpl; by repeat case_match.
Qed.

Lemma update_one_stage_some_failed cur kv :
  preserves (λ ga : graph * Acc.t, some_failed ga.2)
    (update_one_stage now ex mtf msf cur kv).
Proof.
  intros [g acc] Hc. destruct kv as [sid l]. unfold update_one_stage. simpl in Hc.
  destruct (stages g !! sid) as [[u| |s| |]|]; try done.
  - assert (some_failed (mfor l (process_unresolved_status cur sid) (u, acc)).2.2) as Hm.
    { apply (preserves_for (λ c : unresolved_ctx, some_failed c.2)); [|done].
      intros ts _. apply process_unresolved_status_some_failed. }
    by destruct (mfor l (process_unresolved_status cur sid) (u, acc)) as [o [u' acc']].
  - set (body := process_running_status _ _ _ _ _ _).
    assert (some_failed (rc_acc (mfor l body (mkRunningCtx s acc [])).2)) as Hm.
    { apply (preserves_for (λ c, some_failed (rc_acc c))); [|done].
      intros ts _. apply process_running_status_some_failed. }
    destruct (mfor l body _) as [[[]| |] c]; [|done|done].
    by apply finish_running_stage_some_failed.
Qed.

(** Statuses of other tasks leave a task and the attempt number alone. *)
Definition task_is (a i : nat) (ti : TaskInfo.t) (c : running_ctx) : Prop :=
  RunningStage.stage_attempt_num (rc_stage c) = a ∧
  RunningStage.task_infos (rc_stage c) !! i = Some ti.

Lemma update_task_info_task_is a i ti j ts :
  j ≠ i →
  preserves (task_is a i ti) (on_stage (RunningStage.update_task_info now j ts)).
Proof.
  intros Hne c [Ha Hi]. unfold on_stage, RunningStage.update_task_info, task_is.
  repeat case_match; simplify_eq/=; try done; by rewrite list_lookup_insert_ne.
Qed.

Lemma reset_task_info_task_is a i ti j :
  j ≠ i → preserves (task_is a i ti) (on_stage (RunningStage.reset_task_info j)).
Proof.
  intros Hne c [Ha Hi]. unfold on_stage, RunningStage.reset_task_info, task_is.
  repeat case_match; simplify_eq/=; try done. by rewrite list_lookup_insert_ne.
Qed.

Lemma process_running_status_task_is job sid a i ti ts :
  TaskStatus.task_id ts ≠ i →
  preserves (task_is a i ti) (process_running_status now job ex mtf msf sid ts).
Proof.
  intros Hne c Hc. unfold process_running_status. case_match; [done|]. clear H3.
  revert c Hc. apply (preserves_then (task_is a i ti));
    [by apply update_task_info_task_is|]. intros [].
  2:{ apply preserves_ret. }
  assert (∀ f, preserves (task_is a i ti) (on_acc f)) as Hacc by (by intros f c).
  simpl. destruct (TaskStatus.status ts) as [[e|f|st]|]; try apply preserves_ret.
  - unfold handle_failed. destruct (failed_reason f) as [[|e x y| | | |]|];
      try apply Hacc; try (unfold handle_other_failure).
    { intros c' Hc'. unfold handle_fetch_failure.
      apply preserves_then; [apply Hacc| |done]. intros _.
      case_match; [|apply Hacc]. case_bool_decide; [apply preserves_ret|].
      apply preserves_then; [|intros removed; apply Hacc].
      intros c2 [? ?]. unfold on_stage, RunningStage.remove_input_partitions.
      destruct (RunningStage.inputs (rc_stage c2) !! x); by split. }
    all: case_match; [|case_match; [by apply reset_task_info_task_is|apply preserves_ret]];
      (apply preserves_then; [by intros c'|]); intros n;
      (case_match; [by apply reset_task_info_task_is|]);
      (apply preserves_then; [apply preserves_get|]); intros c'; apply Hacc.
  - unfold handle_successful. apply preserves_then.
    + intros c' [? ?]. unfold on_stage, RunningStage.update_task_metrics, task_is.
      repeat case_match; simplify_eq/=; done.
    + intros _. apply preserves_modify. intros c' [? ?].
      unfold task_is, RunningStage.append_runtime_stats_reports. simpl. by case_match.
Qed.

(** A failure that the stage does not survive. *)
Definition fatal (f : FailedTask) : Prop :=
  failed_reason f = Some FR_ExecutionError ∨ failed_reason f = None.

Lemma process_fatal job sid a ti ts f c c' :
  task_is a (TaskStatus.task_id ts) ti c → live ti = true →
  a ≤ TaskStatus.stage_attempt_num ts →
  TaskStatus.status ts = Some (Failed f) → fatal f →
  process_running_status now job ex mtf msf sid ts c = (Ok tt, c') →
  some_failed (rc_acc c').
Proof.
  intros [Ha Hi] Hl Hatt Hst Hf. unfold process_running_status.
  rewrite Ha. case_match eqn:Hlt; [apply Nat.ltb_lt in Hlt; lia|].
  intros (b & c1 & Hu & Hk)%mthen_ok.
  assert (b = true) as ->.
  { revert Hu. unfold on_stage, RunningStage.update_task_info. rewrite Hi, Hst.
    unfold live in Hl. apply negb_true_iff in Hl. rewrite Hl.
    destruct (RunningStage.update_failure_numbers _ _ _); intros; by simplify_eq. }
  revert Hk. simpl. rewrite Hst. unfold handle_failed.
  destruct Hf as [-> | ->]; intros [= <-]; apply fail_stage_some_failed.
Qed.

Lemma running_statuses_fatal job sid a ti l1 ts l2 f c c' :
  task_is a (TaskStatus.task_id ts) ti c → live ti = true →
  a ≤ TaskStatus.stage_attempt_num ts →
  TaskStatus.status ts = Some (Failed f) → fatal f →
  (∀ ts', ts' ∈ l1 → TaskStatus.task_id ts' ≠ TaskStatus.task_id ts) →
  mfor (l1 ++ ts :: l2) (process_running_status now job ex mtf msf sid) c = (Ok tt, c') →
  some_failed (rc_acc c').
Proof.
  intros Hc Hl Ha Hst Hf Hother (c1 & H1' & H2')%mfor_app_ok.
  assert (task_is a (TaskStatus.task_id ts) ti c1) as Hc1.
  { replace c1 with
      (mfor l1 (process_running_status now job ex mtf msf sid) c).2 by (by rewrite H1').
    apply (preserves_for (task_is a (TaskStatus.task_id ts) ti)); [|done].
    intros ts' Hts'. apply process_running_status_task_is. auto. }
  simpl in H2'. apply mthen_ok in H2' as ([] & c2 & Hp & Hm).
  replace c' with
    (mfor l2 (process_running_status now job ex mtf msf sid) c2).2 by (by rewrite Hm).
  apply (preserves_for (λ c, some_failed (rc_acc c))).
  - intros ts' _. apply process_running_status_some_failed.
  - by eapply process_fatal.
Qed.

Lemma update_one_stage_same cur kv ga :
  same_running (λ k, k = kv.1) ga.1 (update_one_stage now ex mtf msf cur kv ga).2.1.
Proof.
  destruct kv as [sid l], ga as [g acc]. unfold update_one_stage. simpl.
  assert (∀ y, same_running (λ k, k = sid) g (put_stage sid y g)) as Hput.
  { intros y k s Hne Hk. simpl. by rewrite lookup_insert_ne. }
  destruct (stages g !! sid) as [[u| |s| |]|]; try done.
  - destruct (mfor l (process_unresolved_status cur sid) (u, acc)) as [o [u' acc']].
    apply Hput.
  - destruct (mfor l _ _) as [[[]| |] c]; [|apply Hput..].
    unfold finish_running_stage. cbn [fst].
    destruct (RunningStage.is_successful _) as [b| |]; [|apply Hput..].
    match goal with |- context [update_stage_output_links ?a ?b ?l ?o ?g'] =>
      destruct (update_stage_output_links_same a b l o g') as [Hu _];
      destruct (update_stage_output_links a b l o g') as [[r| |] g2]
    end; simpl in *; intros k s' Hne Hk; (apply Hu; [by intros []|]); by apply Hput.
Qed.

(** The round of the loop for the stage of a fatal failure. *)
Lemma update_one_stage_fatal cur sid l1 ts l2 s ti f g acc g' acc' :
  stages g !! sid = Some (RunningS s) →
  RunningStage.task_infos s !! TaskStatus.task_id ts = Some ti → live ti = true →
  RunningStage.stage_attempt_num s ≤ TaskStatus.stage_attempt_num ts →
  TaskStatus.status ts = Some (Failed f) → fatal f →
  (∀ ts', ts' ∈ l1 → TaskStatus.task_id ts' ≠ TaskStatus.task_id ts) →
  update_one_stage now ex mtf msf cur (sid, l1 ++ ts :: l2) (g, acc)
    = (Ok tt, (g', acc')) →
  some_failed acc'.
Proof.
  intros Hx Hi Hl Ha Hst Hf Hother. unfold update_one_stage. rewrite Hx.
  destruct (mfor (l1 ++ ts :: l2) _ _) as [[[]| |] c] eqn:Hm; [|done|done].
  intros Hfin. replace acc' with (finish_running_stage sid c (g, acc)).2.2
    by (by rewrite Hfin).
  apply finish_running_stage_some_failed.
  eapply running_statuses_fatal; [|done..|exact Hm]. by split.
Qed.

Lemma update_loop_fatal cur l sid l1 ts l2 s ti f g acc g' acc' :
  NoDup l.*1 → (sid, l1 ++ ts :: l2) ∈ l →
  stages g !! sid = Some (RunningS s) →
  RunningStage.task_infos s !! TaskStatus.task_id ts = Some ti → live ti = true →
  RunningStage.stage_attempt_num s ≤ TaskStatus.stage_attempt_num ts →
  TaskStatus.status ts = Some (Failed f) → fatal f →
  (∀ ts', ts' ∈ l1 → TaskStatus.task_id ts' ≠ TaskStatus.task_id ts) →
  mfor l (update_one_stage now ex mtf msf cur) (g, acc) = (Ok tt, (g', acc')) →
  some_failed acc'.
Proof.
  intros Hnd (la & lb & ->)%list_elem_of_split Hx Hi Hl Ha Hst Hf Hother Hm.
  apply mfor_app_ok in Hm as ([g1 acc1] & Hm1 & Hm2).
  assert (stages g1 !! sid = Some (RunningS s)) as Hx1.
  { replace g1 with (mfor la (update_one_stage now ex mtf msf cur) (g, acc)).2.1
      by (by rewrite Hm1).
    apply (preserves_for (λ ga : graph * Acc.t,
      stages ga.1 !! sid = Some (RunningS s))); [|done].
    intros kv Hkv ga Hga. apply update_one_stage_same; [|done].
    intros ->. rewrite fmap_app in Hnd. apply NoDup_app in Hnd as (_ & Hnd & _).
    apply (Hnd kv.1); [by apply list_elem_of_fmap_2|]. left. }
  simpl in Hm2. apply mthen_ok in Hm2 as ([] & [g2 acc2] & Hu & Hm2).
  replace acc' with (mfor lb (update_one_stage now ex mtf msf cur) (g2, acc2)).2.2
    by (by rewrite Hm2).
  apply (preserves_for (λ ga : graph * Acc.t, some_failed ga.2)).
  - intros kv _. apply update_one_stage_some_failed.
  - by eapply update_one_stage_fatal.
Qed.

(** A failure that counts: the counter of each partition of the task goes
    up, and the stage fails once one of them reaches the limit. *)
Definition counted (f : FailedTask) : Prop :=
  retryable f = true ∧ count_to_failures f = true ∧
  match failed_reason f with
  | Some (FR_FetchPartitionError _ _ _) | Some FR_ExecutionError | None => False
  | Some _ => True
  end.

Definition failures_of (s : RunningStage.t) (p : nat) : nat :=
  default 0 (RunningStage.task_failure_numbers s !! p).

Lemma handle_failed_counted sid i att f c :
  counted f → handle_failed mtf msf sid i att f c = handle_other_failure mtf sid i f c.
Proof.
  intros (_ & _ & Hf). unfold handle_failed.
  by destruct (failed_reason f) as [[]|].
Qed.

(** The state right after the report, and the number of failures compared
    with the limit. *)
Lemma counted_report s i ts ti f :
  running_wf s → RunningStage.task_infos s !! i = Some ti → live ti = true →
  TaskStatus.status ts = Some (Failed f) → retryable f = true →
  ∃ s1 m,
    RunningStage.update_task_info now i ts s = (Ok true, s1) ∧
    RunningStage.task_failure_number i s1 = Ok m ∧
    (m < mtf ↔ ∀ p, p ∈ ids ti → S (failures_of s p) < mtf) ∧
    (∀ p, failures_of s1 p =
            if bool_decide (p ∈ ids ti) then S (failures_of s p) else failures_of s p) ∧
    RunningStage.pending s1 = RunningStage.pending s ∧
    (∃ ti', RunningStage.task_infos s1 !! i = Some ti' ∧ ids ti' = ids ti).
Proof.
  intros Hwf Hi Hl Hst Hr.
  destruct (update_task_info_accepts now i ts (Failed f) s ti)
    as (ti' & ns & Hu & Hids & _ & Hlen & Hn); auto using running_wf_ok.
  assert (i < length (RunningStage.task_infos s)) by (by eapply lookup_lt_Some).
  assert (NoDup (ids ti)) as Hnd
    by (by eapply accounted_ids_nodup; [apply (wf_acc _ Hwf)|..]).
  assert (Forall (λ p, p < length ns) (ids ti)) as Hrange.
  { rewrite Hlen, <-(wf_numbers _ Hwf).
    by eapply ok_ids_in_range; [apply running_wf_ok|]. }
  simpl in Hn. rewrite Hr in Hn.
  assert (∀ p, default 0 (ns !! p) =
    if bool_decide (p ∈ ids ti) then S (failures_of s p) else failures_of s p) as Hnum.
  { intros p. unfold failures_of. case_bool_decide as Hp.
    - rewrite (update_all_in _ _ _ _ _ Hn Hnd Hp).
      assert (p < length (RunningStage.task_failure_numbers s)) as Hplt.
      { rewrite (wf_numbers _ Hwf), <-Hlen. by eapply (proj1 (Forall_forall _ _) Hrange). }
      by destruct (lookup_lt_is_Some_2 _ _ Hplt) as [k ->].
    - by rewrite (update_all_other _ _ _ _ _ Hn Hp). }
  destruct (max_at_ok (E:=BallistaError) _ _ Hrange) as (m & Hm & Hub & Hex).
  eexists _, m. split_and!; [exact Hu| | |exact Hnum|done|].
  - unfold RunningStage.task_failure_number. simpl.
    rewrite list_lookup_insert_eq by done. by rewrite Hids.
  - split.
    + intros Hlt p Hp. specialize (Hnum p). rewrite bool_decide_true in Hnum by done.
      destruct (lookup_lt_is_Some_2 ns p) as [k Hk];
        [by eapply (proj1 (Forall_forall _ _) Hrange)|].
      specialize (Hub p k Hp Hk). rewrite Hk in Hnum. simpl in Hnum. lia.
    + intros Hall. destruct Hex as (p & Hp & Hk).
      { by eapply (acc_nonempty _ _ _ (wf_acc _ Hwf)). }
      specialize (Hall p Hp). specialize (Hnum p).
      rewrite bool_decide_true, Hk in Hnum by done. simpl in Hnum. lia.
  - exists ti'. simpl. by rewrite list_lookup_insert_eq.
Qed.

Lemma counted_failure job sid ts s ti f acc locs :
  running_wf s → RunningStage.task_infos s !! TaskStatus.task_id ts = Some ti →
  live ti = true → RunningStage.stage_attempt_num s ≤ TaskStatus.stage_attempt_num ts →
  TaskStatus.status ts = Some (Failed f) → counted f →
  ∃ c', process_running_status now job ex mtf msf sid ts (mkRunningCtx s acc locs)
          = (Ok tt, c') ∧
    rc_locations c' = locs ∧
    (∀ p, failures_of (rc_stage c') p =
       if bool_decide (p ∈ ids ti) then S (failures_of s p) else failures_of s p) ∧
    if bool_decide (Forall (λ p, S (failures_of s p) < mtf) (ids ti)) then
      rc_acc c' = acc ∧
      PendingPartitions.queue (RunningStage.pending (rc_stage c'))
        = ids ti ++ PendingPartitions.queue (RunningStage.pending s)
    else
      (∃ msg, rc_acc c' = Acc.fail_stage sid msg acc) ∧
      RunningStage.pending (rc_stage c') = RunningStage.pending s.
Proof.
  intros Hwf Hi Hl Hatt Hst Hc. destruct (Hc) as (Hr & Hcnt & _).
  destruct (counted_report s (TaskStatus.task_id ts) ts ti f)
    as (s1 & m & Hu & Hm & Hlim & Hnum & Hpend & ti' & Hi' & Hids); auto.
  unfold process_running_status. simpl.
  case_match eqn:Hlt; [apply Nat.ltb_lt in Hlt; lia|].
  unfold mthen at 1. unfold on_stage at 1. simpl. rewrite Hu. simpl. rewrite Hst.
  rewrite handle_failed_counted by done. unfold handle_other_failure.
  rewrite Hr, Hcnt. simpl. unfold mthen at 1. unfold on_stage at 1. simpl. rewrite Hm.
  case_bool_decide as Hall.
  - rewrite Forall_forall in Hall. apply Hlim, Nat.ltb_lt in Hall as ->.
    unfold on_stage, RunningStage.reset_task_info. simpl. rewrite Hi'.
    eexists. split_and!; [done..|].
    cbn -[PendingPartitions.reschedule]. by rewrite reschedule_queue, Hids, Hpend.
  - rewrite Forall_forall in Hall.
    destruct (m <? mtf) eqn:Hltm.
    { apply Nat.ltb_lt in Hltm. by destruct Hall; apply Hlim. }
    unfold mthen. simpl. eexists. split_and!; [done..|by eexists|done].
Qed.
End failures.
End graph_facts.
