(* ===== verification/Held.v ===== *)
(** * The vcores that running tasks hold

    A task holds the vcores it took when it was bound until its executor reports
    its end. This file defines what the running tasks of a stage and of a graph
    hold on an executor, and shows that a batch of statuses about tasks that end
    gives up exactly what [task_vcores] says of these tasks. *)

From S2P Require Import Prelude Errors Types Stage StageFacts StageSteps Graph GraphSteps.
From S2P Require Import GraphFacts.
Import StaticExecutionGraph(stages, job_id).

Section held.
Context `{PlanOps} `{Payload} `{PrecisionOps} `{MapOrder}.
Abbreviation graph := StaticExecutionGraph.t.
Implicit Types (g : graph) (s : RunningStage.t) (x : ExecutionStage) (e : string)
  (ti : TaskInfo.t) (ts : TaskStatus.t).

Definition hold e ti : N :=
  match TaskInfo.task_status ti with
  | Running e' => if bool_decide (e' = e) then TaskInfo.vcores_consumed ti else 0
  | _ => 0
  end.

Definition infos_held e (infos : list TaskInfo.t) : N := lsum (hold e) infos.

Definition stage_held e x : N :=
  match x with RunningS s => infos_held e (RunningStage.task_infos s) | _ => 0 end.

Definition graph_held e g : N := msumN (stage_held e) (stages g).

(** ** One status *)

(** The report of the end of a task, other than by a fetch failure. *)
Definition ended ts : bool :=
  match TaskStatus.status ts with
  | Some (Successful _) => true
  | Some (Failed f) =>
      match failed_reason f with
      | Some (FR_FetchPartitionError _ _ _) => false
      | _ => true
      end
  | _ => false
  end.

(** The status is about a task of the stage that runs on [e]. *)
Definition reports_end e s ts : Prop :=
  RunningStage.stage_attempt_num s ≤ TaskStatus.stage_attempt_num ts ∧ ended ts = true ∧
  ∃ ti, RunningStage.task_infos s !! TaskStatus.task_id ts = Some ti ∧
        TaskInfo.task_status ti = Running e.

(** The vcores of the task that a status is about. *)
Definition vcores_in s ts : N :=
  from_option TaskInfo.vcores_consumed 0%N
    (RunningStage.task_infos s !! TaskStatus.task_id ts).

(** A task whose last status is not [Running] holds nothing. *)
Definition at_rest (i : nat) (infos : list TaskInfo.t) : Prop :=
  ∃ ti, infos !! i = Some ti ∧ ∀ e, hold e ti = 0%N.

(** The task [i] came to rest, and everything else is held as before. *)
Definition releases (i : nat) (infos infos' : list TaskInfo.t) : Prop :=
  at_rest i infos' ∧
  ∀ e, (infos_held e infos' + from_option (hold e) 0 (infos !! i))%N = infos_held e infos.

Lemma releases_insert i infos ti ti' :
  infos !! i = Some ti → (∀ e, hold e ti' = 0%N) → releases i infos (<[i := ti']> infos).
Proof.
  intros Hi Hz. split.
  - exists ti'. split; [|done]. apply list_lookup_insert_eq. by eapply lookup_lt_Some.
  - intros e. rewrite Hi. simpl. unfold infos_held.
    pose proof (lsum_insert (hold e) infos i ti ti' Hi) as Hl. rewrite Hz in Hl. lia.
Qed.

Lemma releases_again i infos infos' ti' :
  releases i infos infos' → (∀ e, hold e ti' = 0%N) → releases i infos (<[i := ti']> infos').
Proof.
  intros [(ti & Hi & Hti) Hr] Hz. split.
  - exists ti'. split; [|done]. apply list_lookup_insert_eq. by eapply lookup_lt_Some.
  - intros e. rewrite <-(Hr e). unfold infos_held.
    pose proof (lsum_insert (hold e) infos' i ti ti' Hi) as Hl. rewrite Hz, Hti in Hl. lia.
Qed.

Section status.
Context (now : N) (job : JobId) (ex : ExecutorMetadata.t) (mtf msf sid : nat).

Definition rc_infos (c : running_ctx) : list TaskInfo.t := RunningStage.task_infos (rc_stage c).

Lemma reset_task_info_releases i infos :
  preserves (λ c, releases i infos (rc_infos c)) (on_stage (RunningStage.reset_task_info i)).
Proof.
  intros c Hc. unfold on_stage, RunningStage.reset_task_info, rc_infos in *.
  destruct (RunningStage.task_infos (rc_stage c) !! i) as [ti|]; simpl; [|done].
  by apply releases_again.
Qed.

Lemma handle_failed_releases i att f infos :
  (∀ e a b, failed_reason f ≠ Some (FR_FetchPartitionError e a b)) →
  preserves (λ c, releases i infos (rc_infos c)) (handle_failed mtf msf sid i att f).
Proof.
  intros Hf. assert (∀ h, preserves (λ c, releases i infos (rc_infos c)) (on_acc h)) as Hacc.
  { by intros h c. }
  unfold handle_failed. destruct (failed_reason f) as [[|e a b| | | |]|];
    try apply Hacc; try (by edestruct Hf).
  all: unfold handle_other_failure; case_match;
    [|case_match; [apply reset_task_info_releases|apply preserves_ret]];
    (apply preserves_then; [by intros c'|]); intros n;
    (case_match; [apply reset_task_info_releases|]);
    (apply preserves_then; [apply preserves_get|]); intros c'; apply Hacc.
Qed.

Lemma handle_successful_infos i ms st infos :
  preserves (λ c, rc_infos c = infos) (handle_successful job ex sid i ms st).
Proof.
  unfold handle_successful. apply preserves_then.
  - intros c Hc. unfold on_stage, RunningStage.update_task_metrics, rc_infos in *.
    repeat case_match; simplify_eq/=; done.
  - intros _. apply preserves_modify. intros c Hc.
    unfold rc_infos, RunningStage.append_runtime_stats_reports in *. simpl. by case_match.
Qed.

(** The end of a running task releases what it holds. *)
Lemma process_running_status_releases e ts c c' :
  reports_end e (rc_stage c) ts →
  process_running_status now job ex mtf msf sid ts c = (Ok tt, c') →
  releases (TaskStatus.task_id ts) (rc_infos c) (rc_infos c').
Proof.
  intros (Hatt & Hend & ti & Hti & Hrun) Hp. unfold process_running_status in Hp.
  destruct (_ <? _) eqn:Hlt; [apply Nat.ltb_lt in Hlt; lia|].
  unfold mthen at 1, on_stage at 1 in Hp. unfold RunningStage.update_task_info in Hp.
  rewrite Hti in Hp.
  assert (TaskInfo.is_reset ti = false) as Hr by (unfold TaskInfo.is_reset; by rewrite Hrun).
  rewrite Hr in Hp.
  unfold ended in Hend. destruct (TaskStatus.status ts) as [v|] eqn:Hst; [|done].
  assert (∀ e', hold e' (TaskInfo.mk _ (TaskStatus.task_id ts) (TaskInfo.scheduled_time ti)
    (TaskStatus.launch_time ts) (TaskStatus.start_exec_time ts) (TaskStatus.end_exec_time ts)
    now v (TaskInfo.global_input_partition_ids ti) (TaskInfo.vcores_consumed ti)) = 0%N) as Hz
    by (by destruct v).
  set (ti' := TaskInfo.mk _ _ _ _ _ _ _ _ _ _) in *.
  destruct (RunningStage.update_failure_numbers _ _ _) as [numbers| |]; [|done|done].
  simpl in Hp.
  assert (releases (TaskStatus.task_id ts) (rc_infos c)
            (<[TaskStatus.task_id ts := ti']> (rc_infos c))) as Hrel
    by (by eapply releases_insert).
  destruct v as [e'|f|st]; [done| |].
  - match type of Hp with handle_failed _ _ _ _ _ _ ?c0 = _ =>
      pose proof (handle_failed_releases (TaskStatus.task_id ts)
        (TaskStatus.stage_attempt_num ts) f (rc_infos c)) as Hh;
      ospecialize (Hh _ c0 Hrel) end.
    { intros e' a b Hf. by rewrite Hf in Hend. }
    by rewrite Hp in Hh.
  - match type of Hp with handle_successful _ _ _ _ _ _ ?c0 = _ =>
      pose proof (handle_successful_infos (TaskStatus.task_id ts) (TaskStatus.metrics ts) st
        _ c0 eq_refl) as Hh end.
    rewrite Hp in Hh. simpl in Hh. by rewrite Hh.
Qed.

(** ** The statuses of one stage *)

Definition if_on (e e' : string) (n : N) : N := if bool_decide (e = e') then n else 0.

Lemma hold_running e e' ti :
  TaskInfo.task_status ti = Running e → hold e' ti = if_on e e' (TaskInfo.vcores_consumed ti).
Proof. intros Hr. unfold hold. by rewrite Hr. Qed.

(** A status leaves the other tasks of the stage alone. *)
Lemma process_other_reports e ts ts' c :
  TaskStatus.task_id ts ≠ TaskStatus.task_id ts' → reports_end e (rc_stage c) ts' →
  let c' := (process_running_status now job ex mtf msf sid ts c).2 in
  reports_end e (rc_stage c') ts' ∧ vcores_in (rc_stage c') ts' = vcores_in (rc_stage c) ts'.
Proof.
  intros Hne (Hatt & Hend & ti & Hti & Hrun). cbv zeta.
  destruct (process_running_status_task_is now ex mtf msf job sid
    (RunningStage.stage_attempt_num (rc_stage c)) (TaskStatus.task_id ts') ti ts Hne c)
    as [Ha Hi]; [done|].
  split; [|unfold vcores_in; by rewrite Hi, Hti].
  split; [by rewrite Ha|]. split; [done|]. eauto.
Qed.

Lemma running_statuses_held e l c c' :
  NoDup (TaskStatus.task_id <$> l) → Forall (reports_end e (rc_stage c)) l →
  mfor l (process_running_status now job ex mtf msf sid) c = (Ok tt, c') →
  ∀ e', (infos_held e' (rc_infos c') + if_on e e' (lsum (vcores_in (rc_stage c)) l))%N
        = infos_held e' (rc_infos c).
Proof.
  revert c. induction l as [|ts l IH]; intros c Hnd Hl Hm e'.
  { simpl in Hm. unfold mret in Hm. simplify_eq. unfold if_on. simpl. case_bool_decide; lia. }
  rewrite fmap_cons in Hnd. apply NoDup_cons in Hnd as [Hts Hnd].
  apply Forall_cons in Hl as [Hend Hl]. cbn [mfor] in Hm. unfold mthen in Hm.
  destruct (process_running_status now job ex mtf msf sid ts c) as [[[]| |] c1] eqn:Hp;
    [|done|done].
  destruct (process_running_status_releases e ts c c1 Hend Hp) as [_ Hrel].
  assert (∀ ts', ts' ∈ l → reports_end e (rc_stage c1) ts' ∧
            vcores_in (rc_stage c1) ts' = vcores_in (rc_stage c) ts') as Hother.
  { intros ts' Hts'. pose proof (process_other_reports e ts ts' c) as Ho. rewrite Hp in Ho.
    apply Ho; [|by eapply Forall_forall in Hl]. intros Heq. apply Hts. rewrite Heq.
    by apply list_elem_of_fmap_2. }
  assert (lsum (vcores_in (rc_stage c1)) l = lsum (vcores_in (rc_stage c)) l) as Hsum
    by (apply lsum_ext; apply Hother).
  specialize (IH c1 Hnd). ospecialize (IH _ Hm e').
  { apply Forall_forall. intros ts' Hts'. by apply Hother. }
  specialize (Hrel e'). rewrite Hsum in IH. destruct Hend as (_ & _ & ti & Hti & Hrun).
  unfold rc_infos in Hrel at 2. rewrite Hti in Hrel. simpl in Hrel.
  rewrite (hold_running e e' ti Hrun) in Hrel. simpl. unfold vcores_in at 1. rewrite Hti.
  simpl. unfold if_on in *. case_bool_decide; lia.
Qed.
End status.

(** ** The graph *)

Lemma put_stage_held e sid x g :
  (graph_held e (put_stage sid x g) + at_key (stage_held e) (stages g) sid)%N
  = (graph_held e g + stage_held e x)%N.
Proof. apply msumN_insert. Qed.

(** A stage in which nothing changes hands. *)
Lemma put_stage_same_held e sid x y g :
  stages g !! sid = Some x → stage_held e y = stage_held e x →
  graph_held e (put_stage sid y g) = graph_held e g.
Proof.
  intros Hx Hy. pose proof (put_stage_held e sid y g) as Hp.
  unfold at_key in Hp. rewrite Hx in Hp. simpl in Hp. lia.
Qed.

Definition same_held g0 g : Prop := ∀ e, graph_held e g = graph_held e g0.

Lemma publish_links_held g0 sid b locs links :
  preserves (same_held g0) (publish_links sid b locs links).
Proof.
  induction links as [|link links IH]; simpl; [apply preserves_ret|].
  apply preserves_then.
  - intros g Hg. unfold publish_link.
    destruct (stages g !! link) as [[u| | | |]|] eqn:Hx; try done.
    destruct (UnresolvedStage.add_input_partitions sid locs u) as [[|er|] u'];
      intros e; rewrite <-(Hg e); by eapply put_stage_same_held.
  - intros r. apply preserves_then; [done|]. intros rs. apply preserves_ret.
Qed.

Lemma update_stage_output_links_held g0 sid b locs links :
  preserves (same_held g0) (update_stage_output_links sid b locs links).
Proof.
  destruct links as [|link links]; [|apply publish_links_held].
  apply preserves_then; [by apply preserves_modify|]. intros _. apply preserves_ret.
Qed.

Lemma resolve_stage_held g0 sid : preserves (same_held g0) (resolve_stage sid).
Proof.
  intros g Hg. unfold resolve_stage.
  destruct (stages g !! sid) as [[u| | | |]|] eqn:Hx; try done.
  destruct (UnresolvedStage_to_resolved _ u) as [r|er|]; try done.
  intros e. rewrite <-(Hg e). by eapply put_stage_same_held.
Qed.

(** A stage that is done holds nothing: its live tasks are successful. *)
Lemma successful_stage_held e s :
  running_wf s → RunningStage.is_successful s = Ok true → stage_held e (RunningS s) = 0%N.
Proof.
  intros Hwf Hs. destruct (is_successful_spec s Hwf) as (b & Hb & Hiff).
  rewrite Hs in Hb. injection Hb as <-. destruct (proj1 Hiff eq_refl) as [_ Hall].
  apply lsum_zero. intros ti [i Hi]%list_elem_of_lookup. unfold hold.
  destruct (TaskInfo.task_status ti) as [e'| |] eqn:Hst; try done.
  assert (live ti = true) as Hl by (unfold live, TaskInfo.is_reset; by rewrite Hst).
  specialize (Hall i ti Hi Hl). unfold TaskInfo.is_successful in Hall. by rewrite Hst in Hall.
Qed.

(** *** The loop over the stages *)

(** Nothing is to be rolled back, reset or run again. *)
Definition calm (acc : Acc.t) : Prop :=
  Acc.rollback_running_stages acc = ∅ ∧ Acc.resubmit_successful_stages acc = ∅ ∧
  Acc.reset_running_stages acc = ∅.

Section update.
Context (now : N) (ex : ExecutorMetadata.t) (mtf msf : nat) (cur : gset nat).

Lemma running_statuses_calm job sid l :
  Forall (λ ts, ended ts = true) l →
  preserves (λ c, calm (rc_acc c)) (mfor l (process_running_status now job ex mtf msf sid)).
Proof.
  intros Hl. apply preserves_for. intros ts Hts. eapply Forall_forall in Hl; [|done].
  apply (process_running_status_inv calm); [done..|].
  intros f e a b removed acc Hst Hf _. unfold ended in Hl. by rewrite Hst, Hf in Hl.
Qed.

Lemma update_one_stage_held e sid l s g acc g' acc' :
  stages g !! sid = Some (RunningS s) → NoDup (TaskStatus.task_id <$> l) →
  Forall (reports_end e s) l → calm acc →
  update_one_stage now ex mtf msf cur (sid, l) (g, acc) = (Ok tt, (g', acc')) →
  calm acc' ∧
  ∀ e', (graph_held e' g' + if_on e e' (lsum (vcores_in s) l))%N = graph_held e' g.
Proof.
  intros Hx Hnd Hl Hcalm Hu. unfold update_one_stage in Hu. rewrite Hx in Hu.
  destruct (mfor l _ _) as [[[]| |] c] eqn:Hm; [|done|done].
  pose proof (running_statuses_held now (job_id g) ex mtf msf sid e l (mkRunningCtx s acc []) c Hnd Hl Hm) as Hheld.
  assert (calm (rc_acc c)) as Hc.
  { pose proof (running_statuses_calm (job_id g) sid l) as Hp. ospecialize (Hp _).
    { eapply Forall_impl; [exact Hl|]. by intros ts (_ & ? & _). }
    specialize (Hp (mkRunningCtx s acc []) Hcalm). by rewrite Hm in Hp. }
  unfold finish_running_stage in Hu. cbn [fst] in Hu.
  destruct (RunningStage.is_successful (rc_stage c)) as [b| |]; [|done|done].
  set (final := b && _) in Hu. set (g1 := put_stage sid (RunningS (rc_stage c)) g) in Hu.
  pose proof (update_stage_output_links_held g1 sid final (rc_locations c)
    (RunningStage.output_links (rc_stage c)) g1 ltac:(done)) as Hpub.
  destruct (update_stage_output_links _ _ _ _ g1) as [[res| |] g2]; [|done|done].
  injection Hu as <- <-. split; [by destruct final|]. intros e'.
  simpl in Hpub. rewrite (Hpub e'). pose proof (put_stage_held e' sid (RunningS (rc_stage c)) g)
    as Hput. fold g1 in Hput. unfold at_key in Hput. rewrite Hx in Hput. simpl in Hput.
  specialize (Hheld e'). unfold rc_infos in Hheld. simpl in Hheld. lia.
Qed.

(** The vcores of the task that a status is about, as the graph has them. *)
Definition vcores_at g ts : N :=
  default 0%N (task_vcores (TaskStatus.stage_id ts) (TaskStatus.task_id ts) g).

(** The statuses of a stage are about different tasks of it that run on [e]. *)
Definition group_ends e g (kv : nat * list TaskStatus.t) : Prop :=
  NoDup (TaskStatus.task_id <$> kv.2) ∧ Forall (λ ts, TaskStatus.stage_id ts = kv.1) kv.2 ∧
  ∃ s, stages g !! kv.1 = Some (RunningS s) ∧ Forall (reports_end e s) kv.2.

Lemma group_vcores s g sid l :
  stages g !! sid = Some (RunningS s) → Forall (λ ts, TaskStatus.stage_id ts = sid) l →
  lsum (vcores_in s) l = lsum (vcores_at g) l.
Proof.
  intros Hx Hl. apply lsum_ext. intros ts Hts. eapply Forall_forall in Hl; [|done].
  unfold vcores_at, task_vcores, vcores_in. rewrite Hl, Hx. simpl.
  by destruct (RunningStage.task_infos s !! TaskStatus.task_id ts).
Qed.

Lemma update_loop_held e l g acc g' acc' :
  NoDup l.*1 → (∀ kv, kv ∈ l → group_ends e g kv) → calm acc →
  mfor l (update_one_stage now ex mtf msf cur) (g, acc) = (Ok tt, (g', acc')) →
  calm acc' ∧
  ∀ e', (graph_held e' g' + if_on e e' (lsum (λ kv, lsum (vcores_at g) kv.2) l))%N
        = graph_held e' g.
Proof.
  revert g acc. induction l as [|[sid sts] l IH]; intros g acc Hnd Hl Hcalm Hm.
  { simpl in Hm. unfold mret in Hm. simplify_eq. split; [done|]. intros e'.
    unfold if_on. simpl. case_bool_decide; lia. }
  rewrite fmap_cons in Hnd. apply NoDup_cons in Hnd as [Hsid Hnd]. cbn [mfor] in Hm.
  unfold mthen in Hm.
  destruct (Hl (sid, sts) ltac:(left)) as (Hnd1 & Hst & s & Hx & Hends).
  cbn [fst snd] in *.
  destruct (update_one_stage now ex mtf msf cur (sid, sts) (g, acc))
    as [[[]| |] [g1 acc1]] eqn:Hu; [|done|done].
  destruct (update_one_stage_held e sid sts s g acc g1 acc1) as [Hcalm1 Hh1]; [done..|].
  pose proof (update_one_stage_same now ex mtf msf cur (sid, sts) (g, acc)) as Hsame.
  rewrite Hu in Hsame. simpl in Hsame.
  assert (∀ kv, kv ∈ l → group_ends e g1 kv ∧
            lsum (vcores_at g1) kv.2 = lsum (vcores_at g) kv.2) as Hother.
  { intros [k l0] Hin. destruct (Hl (k, l0) ltac:(by right)) as (? & Hk & s0 & Hs0 & ?).
    simpl in *. assert (stages g1 !! k = Some (RunningS s0)) as Hs1.
    { apply Hsame; [|done]. intros ->. apply Hsid. by apply (list_elem_of_fmap_2 fst _ (sid, l0)). }
    split; [by split_and!; eauto|].
    by rewrite <-(group_vcores s0 g1 k l0), <-(group_vcores s0 g k l0). }
  destruct (IH g1 acc1 Hnd) as [Hc2 Hh2]; [|done|done|].
  { intros kv Hkv. by apply Hother. }
  split; [done|]. intros e'. rewrite <-(Hh1 e'), <-(Hh2 e'), (group_vcores s g sid sts) by done.
  assert (lsum (λ kv, lsum (vcores_at g1) kv.2) l = lsum (λ kv, lsum (vcores_at g) kv.2) l)
    as -> by (apply lsum_ext; apply Hother).
  simpl. unfold if_on. case_bool_decide; lia.
Qed.
End update.

(** *** A batch of statuses *)

(** Every status of the batch is about another task, which runs on [e]. *)
Definition batch_ends e g (sts : list TaskStatus.t) : Prop :=
  NoDup ((λ ts, (TaskStatus.stage_id ts, TaskStatus.task_id ts)) <$> sts) ∧
  ∀ ts, ts ∈ sts →
    ∃ s, stages g !! TaskStatus.stage_id ts = Some (RunningS s) ∧ reports_end e s ts.

Lemma classify_sum (f : TaskStatus.t → N) sts :
  lsum (λ kv, lsum f kv.2) (iter_map (classify sts)) = lsum f sts.
Proof.
  rewrite (lsum_perm _ _ _ (iter_map_perm _)).
  transitivity (msumN (lsum f) (classify sts)).
  { rewrite msumN_to_list, lsum_fmap. done. }
  unfold classify. induction sts as [|ts sts IH] using rev_ind; [done|].
  rewrite foldl_app. simpl. set (m := foldl _ ∅ sts) in *.
  pose proof (msumN_insert (lsum f) m (TaskStatus.stage_id ts)
    (default [] (m !! TaskStatus.stage_id ts) ++ [ts])) as Hi.
  rewrite !lsum_app in *. unfold at_key in Hi. simpl in *.
  destruct (m !! TaskStatus.stage_id ts); simpl in *; lia.
Qed.

Lemma classify_group_ends e g sts kv :
  batch_ends e g sts → kv ∈ iter_map (classify sts) → group_ends e g kv.
Proof.
  destruct kv as [sid l]. intros [Hnd Hall] Hkv. pose proof Hkv as Hl%elem_of_iter_map.
  pose proof (classify_lookup sts sid) as Hc. rewrite Hl in Hc. simpl in Hc.
  assert (∀ ts, ts ∈ l → ts ∈ sts ∧ TaskStatus.stage_id ts = sid) as Hin.
  { intros ts Hts. by eapply elem_of_classify. }
  assert (l ≠ []) as Hne.
  { intros ->. clear -Hl. revert sid Hl. unfold classify.
    induction sts as [|ts sts IH] using rev_ind; intros sid; [by simpl; rewrite lookup_empty|].
    rewrite foldl_app. simpl. intros [[_ Heq]|[_ Hl]]%lookup_insert_Some; [|by eapply IH].
    by destruct (default [] _). }
  split_and!; simpl.
  - rewrite Hc. clear -Hnd. induction sts as [|ts sts IH]; [by constructor|].
    rewrite fmap_cons in Hnd. apply NoDup_cons in Hnd as [Hts Hnd].
    rewrite filter_cons. case_decide as Hd; [|by apply IH]. rewrite fmap_cons.
    apply NoDup_cons. split; [|by apply IH]. intros (ts' & Hid & Hts')%list_elem_of_fmap.
    apply list_elem_of_filter in Hts' as [Hd' Hin]. apply Hts.
    rewrite Hid, Hd, <-Hd'.
    by apply (list_elem_of_fmap_2 (λ ts, (TaskStatus.stage_id ts, TaskStatus.task_id ts))).
  - apply Forall_forall. intros ts Hts. by apply Hin.
  - destruct l as [|ts l]; [done|]. destruct (Hin ts ltac:(left)) as [Hts Hsid].
    destruct (Hall ts Hts) as (s & Hs & _). rewrite Hsid in Hs. exists s. split; [done|].
    apply Forall_forall. intros ts' Hts'. destruct (Hin ts' Hts') as [Hts2 Hsid'].
    destruct (Hall ts' Hts2) as (s' & Hs' & Hr). rewrite Hsid' in Hs'. by simplify_eq.
Qed.

(** *** After the loop *)

Lemma succeed_loop_held l g :
  NoDup l → (∀ sid, sid ∈ l → ∃ s, stages g !! sid = Some (RunningS s) ∧
                                   ∀ e, stage_held e (RunningS s) = 0%N) →
  same_held g
    (mfor (E:=BallistaError) l (λ sid, mmodify (λ g, (succeed_stage sid g).2)) g).2.
Proof.
  revert g. induction l as [|sid l IH]; intros g Hnd Hr; [done|].
  apply NoDup_cons in Hnd as [Hsid Hnd].
  destruct (Hr sid ltac:(left)) as (s & Hx & Hs).
  cbn [mfor]. unfold mthen at 1. unfold mmodify at 1.
  assert (stages (succeed_stage sid g).2
          = <[sid := SuccessfulS (RunningStage.to_successful s)]> (stages g)) as Hstg.
  { unfold succeed_stage. rewrite Hx. simpl. by rewrite insert_delete_eq. }
  assert (same_held g (succeed_stage sid g).2) as Hg.
  { intros e. unfold graph_held. rewrite Hstg.
    apply (put_stage_same_held e sid (RunningS s) _ g); [done|]. by rewrite Hs. }
  intros e. rewrite <-(Hg e). apply IH; [done|]. intros k Hk.
  destruct (Hr k ltac:(by right)) as (s' & Hx' & Hs'). exists s'. split; [|done].
  rewrite Hstg, lookup_insert_ne; [done|]. by intros ->.
Qed.

Lemma iter_map_empty {A} : iter_map (A:=A) ∅ = [].
Proof. apply Permutation_nil. by rewrite iter_map_perm, map_to_list_empty. Qed.

Lemma processing_held now (acc : Acc.t) g evs g' :
  calm acc → keyed g → all_wf g → ready (Acc.successful_stages acc) g →
  processing_stages_update now (updated_stages acc) g = (Ok evs, g') → same_held g g'.
Proof.
  intros (Hroll & Hres & _) Hk Hwf Hr Hp. unfold processing_stages_update in Hp.
  simpl in Hp. unfold mthen at 1 in Hp.
  pose proof (resolve_loop Strict (iter_set (Acc.resolved_stages acc)) _ g Hk Hr) as [Hs1 Hr1].
  assert (same_held g (mfor (iter_set (Acc.resolved_stages acc))
            (λ sid, resolve_stage sid ;;; mret tt) g).2) as Hh1.
  { apply (preserves_for (same_held g)); [|done]. intros sid _.
    apply preserves_then; [apply resolve_stage_held|]. intros _. apply preserves_ret. }
  destruct (mfor _ (λ sid, resolve_stage sid ;;; mret tt) g) as [[[]| |] g1]; [|done|done].
  simpl in Hs1, Hr1, Hh1. unfold mthen at 1 in Hp.
  pose proof (all_wf_steps _ _ Hwf Hs1) as Hwf1.
  pose proof (succeed_loop_held (iter_set (Acc.successful_stages acc)) g1 (nodup_iter_set _))
    as Hh2. ospecialize (Hh2 _).
  { intros sid Hsid%elem_of_iter_set. destruct (Hr1 sid Hsid) as (s & Hs & Hsu).
    exists s. split; [done|]. intros e. apply successful_stage_held; [|done].
    by apply (Hwf1 sid (RunningS s)). }
  destruct (mfor _ (λ sid, mmodify (λ g, (succeed_stage sid g).2)) g1) as [[[]| |] g2];
    [|done|done].
  simpl in Hh2. unfold mthen at 1 in Hp. rewrite Hroll, Hres, dom_empty_L in Hp.
  rewrite iter_map_empty in Hp.
  assert (iter_set ∅ = []) as Hnil by (apply Permutation_nil; by rewrite iter_set_perm, elements_empty).
  rewrite Hnil in Hp.
  assert (stages g' = stages g2) as Hg'.
  { case_bool_decide; simpl in Hp; unfold mthen, mret in Hp; simpl in Hp;
      match type of Hp with finish_update ?a ?b ?c ?d ?h = _ =>
        pose proof (finish_update_stages a b c d h) as Hf end; by rewrite Hp in Hf. }
  intros e. unfold graph_held. rewrite Hg'. fold (graph_held e g2). by rewrite Hh2, Hh1.
Qed.

(** ** The whole update *)

Definition revive_stage (now : N) x : ExecutionStage :=
  match x with Resolved r => RunningS (ResolvedStage.to_running now r) | x => x end.

Lemma revive_lookup now g sid :
  keyed g → stages (revive now g).2 !! sid = revive_stage now <$> stages g !! sid.
Proof.
  intros Hk. unfold revive. set (rs := filter_map _ _).
  assert (∀ r', r' ∈ rs → ∃ r, stages g !! RunningStage.stage_id r' = Some (Resolved r) ∧
            r' = ResolvedStage.to_running now r) as Hrs.
  { intros r' ([k x] & Hin%elem_of_iter_map & Hx)%elem_of_filter_map. simpl in Hx.
    destruct x as [|r| | |]; simplify_eq. exists r. split; [|done].
    pose proof (Hk _ _ Hin) as Hid. simpl in *. by rewrite Hid. }
  assert (∀ r, stages g !! sid = Some (Resolved r) → ResolvedStage.to_running now r ∈ rs) as Hin.
  { intros r Hr. apply elem_of_filter_map. exists (sid, Resolved r).
    split; [by apply elem_of_iter_map|done]. }
  assert (foldl (λ m r, <[RunningStage.stage_id r := RunningS r]> m) (stages g) rs !! sid
          = revive_stage now <$> stages g !! sid) as Hf.
  { destruct (stages g !! sid) as [x|] eqn:Hx.
    - assert ((∃ r, x = Resolved r) ∨ ∀ r, x ≠ Resolved r) as [[r ->]|Hn]
        by (destruct x; naive_solver).
      + destruct (foldl_insert_running rs (stages g) sid) as [r' Hr'].
        { right. exists (ResolvedStage.to_running now r). split; [auto|apply (Hk _ _ Hx)]. }
        pose proof Hr' as [Hy|(r2 & Hr2 & Hid & [= <-])]%foldl_insert_lookup;
          [rewrite Hx in Hy; done|].
        destruct (Hrs _ Hr2) as (r0 & Hr0 & ->). rewrite Hid, Hx in Hr0. simplify_eq.
        by rewrite Hr'.
      + rewrite foldl_insert_other, Hx; [destruct x as [|r| | |]; try done; by destruct (Hn r)|].
        intros r' (r & Hr & _)%Hrs Hid. rewrite Hid, Hx in Hr. simplify_eq. by destruct (Hn r).
    - rewrite foldl_insert_other; [by rewrite Hx|].
      intros r' (r & Hr & _)%Hrs Hid. rewrite Hid, Hx in Hr. done. }
  destruct rs as [|r rs'] eqn:E; [|done]. simpl in Hf. exact Hf.
Qed.

Lemma revive_same_running now g : keyed g → same_running (λ _, False) g (revive now g).2.
Proof. intros Hk sid s _ Hs. by rewrite revive_lookup, Hs. Qed.

Lemma revive_held now g : keyed g → same_held g (revive now g).2.
Proof.
  intros Hk e. apply msumN_ext. intros sid. unfold at_key. rewrite revive_lookup by done.
  by destruct (stages g !! sid) as [[]|].
Qed.

Lemma revive_batch now e g sts :
  keyed g → batch_ends e g sts →
  batch_ends e (revive now g).2 sts ∧
  lsum (vcores_at (revive now g).2) sts = lsum (vcores_at g) sts.
Proof.
  intros Hk [Hnd Hall]. pose proof (revive_same_running now g Hk) as Hsame. split.
  - split; [done|]. intros ts (s & Hs & Hr)%Hall. exists s. split; [|done].
    apply Hsame; [by intros []|done].
  - apply lsum_ext. intros ts (s & Hs & _)%Hall. unfold vcores_at, task_vcores.
    by rewrite (Hsame _ _ ltac:(by intros []) Hs), Hs.
Qed.

(** A batch that reports the end of tasks gives up the vcores of these tasks, and
    nothing else changes hands. *)
Lemma update_task_status_held e now ex sts mtf msf g evs g' :
  keyed g → all_wf g → (∀ ts, ts ∈ sts → report_ok ts) → batch_ends e g sts →
  update_task_status now ex sts mtf msf g = (Ok evs, g') →
  ∀ e', (graph_held e' g' + if_on e e' (lsum (vcores_at g) sts))%N = graph_held e' g.
Proof.
  intros Hk Hwf Hrep Hends Hu e'. unfold update_task_status in Hu.
  pose proof (revive_steps Strict now g Hk) as Hs1.
  destruct (revive_batch now e g sts Hk Hends) as [Hends1 Hsum].
  pose proof (revive_held now g Hk e') as Hh1.
  set (g1 := (revive now g).2) in *. set (cur := list_to_set (running_stages g1)) in *.
  pose proof (keyed_steps _ _ _ Hk Hs1) as Hk1. pose proof (all_wf_steps _ _ Hwf Hs1) as Hwf1.
  pose proof (update_loop_steps Strict now ex mtf msf cur (iter_map (classify sts))
    (g1, Acc.init (StaticExecutionGraph.failed_stage_attempts g1)) Hk1 (all_wf_ok _ Hwf1)) as Hs2.
  ospecialize (Hs2 _).
  { intros _ [k l] ts Hkv Hts. by apply Hrep, (elem_of_classify sts k l). }
  pose proof (update_loop_inv Strict now ex mtf msf cur (iter_map (classify sts))
    g1 (Acc.init (StaticExecutionGraph.failed_stage_attempts g1))) as Hinv.
  destruct (mfor (iter_map (classify sts)) _ _) as [[[]| |] [g2 acc]] eqn:Hm; [|done|done].
  cbn [fst snd] in Hs2.
  assert (calm (Acc.init (StaticExecutionGraph.failed_stage_attempts g1))) as Hc0 by done.
  destruct (update_loop_held now ex mtf msf cur e _ _ _ _ _ (nodup_iter_map _)
    (λ kv, classify_group_ends e g1 sts kv Hends1) Hc0 Hm) as [Hcalm Hh2].
  rewrite classify_sum, Hsum in Hh2. rewrite <-Hh1, <-(Hh2 e'). f_equal.
  ospecialize (Hinv g2 acc (nodup_iter_map _) _ _ _ _); [by split| | |done|].
  { by intros sid ?%elem_of_empty. }
  { intros _ [k l] u ts Hkv Hx Hts. simpl in *.
    destruct (elem_of_classify sts k l ts Hkv Hts) as [Hin <-].
    destruct (proj2 Hends1 ts Hin) as (s & Hs & _). rewrite Hs in Hx. done. }
  pose proof (keyed_steps _ _ _ Hk1 Hs2) as Hk2. pose proof (all_wf_steps _ _ Hwf1 Hs2) as Hwf2.
  destruct Hcalm as (Hc1 & Hc2 & Hc3).
  unfold mthen at 1, mmodify at 1 in Hu. set (g3 := set_failed_stage_attempts _ g2) in *.
  rewrite Hc2, Hc3, !iter_map_empty in Hu. unfold mthen, mret in Hu. simpl in Hu.
  change (graph_held e' g2) with (graph_held e' g3).
  eapply processing_held; [by split_and!|by apply Hk2|by apply Hwf2| |exact Hu].
  intros sid Hsid. by apply (inv_successful _ _ _ Hinv).
Qed.
End held.
