(* ===== verification/Binding.v ===== *)
(** * Binding tasks to executors

    Models the task binding of [ballista/scheduler/src/cluster/mod.rs]:
    [stage_has_input_collapse], [bind_one], [bind_task_bias] and
    [bind_task_round_robin], with [create_task_info] and [TaskDescription] of
    [ballista/scheduler/src/state/execution_graph.rs]. The [while] loops carry a
    fuel; [BindingFacts] shows that the fuel given to them is enough. *)

From S2P Require Import Prelude Errors Types Stage Graph.
Import StaticExecutionGraph(stages, session_id).

(** ** What binding asks of a plan *)

(** The shape of a physical plan: what [downcast_ref], [partition_count] and
    [children] show of each operator. *)
Inductive plan_node : Type :=
| PlanNode (is_shuffle_reader is_range_shuffle_reader : bool) (partition_count : nat)
    (children : list plan_node).

Class BindOps `{PlanOps} : Type := {
  plan_shape : Plan → plan_node;
  (** [options().extensions.get::<BallistaConfig>().map(max_partitions_per_task)] *)
  max_partitions_per_task : SessionConfig → option N;
}.

Fixpoint collapse_walk (node : plan_node) : bool :=
  match node with
  | PlanNode is_reader is_range_reader partition_count children =>
      if is_reader || is_range_reader then false
      else if partition_count =? 1 then true
      else match children with
           | [child] => collapse_walk child
           | _ => false
           end
  end.

Definition stage_has_input_collapse (plan_root : plan_node) : bool :=
  match plan_root with
  | PlanNode _ _ _ [child] => collapse_walk child
  | _ => false
  end.

(** ** Budgets and bound tasks *)

Module AvailableVcores.
Record t : Type := mk { executor_id : string; vcores : N }.
End AvailableVcores.

Module TaskDescription.
Record t `{PlanOps} : Type := mk {
  session_id : string;
  key : TaskKey.t;
  stage_attempt_num : nat;
  task_attempt : nat;
  global_input_partition_ids : list nat;
  vcores_consumed : N;
  plan : Plan;
  session_config : SessionConfig;
}.
Arguments t {_}.
End TaskDescription.

Definition BoundTask `{PlanOps} : Type := string * TaskDescription.t.

Definition create_task_info `{Payload} (now : N) (executor_id : string) (task_id : nat)
  : TaskInfo.t :=
  TaskInfo.mk _ task_id now 0 0 0 0 (Running executor_id) [] 0.

Module JobInfoCache.
Record t `{PlanOps} `{Payload} : Type := mk {
  execution_graph : StaticExecutionGraph.t;
  status : option job_state;
}.
Arguments t {_ _}.
End JobInfoCache.

Section binding.
Context `{PlanOps} `{Payload} `{PrecisionOps} `{MapOrder} `{!BindOps}.

(** [u32] subtraction, which wraps in a release build *)
Definition u32_sub (a b : N) : N := ((a + 2 ^ 32 - b) `mod` 2 ^ 32)%N.
Definition u32_of_len (n : nat) : N := (N.of_nat n `mod` 2 ^ 32)%N.

Definition partition_cap (cfg : SessionConfig) : N :=
  match max_partitions_per_task cfg with
  | Some n => if (0 <? n)%N then n else usize_max
  | None => usize_max
  end.

Definition bind_one (now : N) (session : string) (job_id : JobId)
    (s : RunningStage.t) (budget : AvailableVcores.t)
  : result (option BoundTask) * RunningStage.t * AvailableVcores.t :=
  let is_collapse := stage_has_input_collapse (plan_shape (RunningStage.plan s)) in
  let cap := partition_cap (RunningStage.session_config s) in
  let max_partitions :=
    if is_collapse then usize_max else (AvailableVcores.vcores budget `min` cap)%N in
  let '(ids, pending) := PendingPartitions.next_slice max_partitions (RunningStage.pending s) in
  let s1 := RunningStage.set_pending pending s in
  match ids with
  | [] => (Ok None, s1, budget)
  | _ =>
      let vcores_consumed := if is_collapse then 1%N else u32_of_len (length ids) in
      let executor_id := AvailableVcores.executor_id budget in
      let task_id := length (RunningStage.task_infos s1) in
      match max_at ids (RunningStage.task_failure_numbers s1) with
      | Ok task_attempt =>
          let info := create_task_info now executor_id task_id in
          let task_info :=
            TaskInfo.mk _ (TaskInfo.task_id info) (TaskInfo.scheduled_time info) 0 0 0 0
              (TaskInfo.task_status info) ids vcores_consumed in
          let s2 :=
            RunningStage.set_task_infos (RunningStage.task_infos s1 ++ [task_info]) s1 in
          let task_desc :=
            TaskDescription.mk _ session (TaskKey.mk job_id (RunningStage.stage_id s2) task_id)
              (RunningStage.stage_attempt_num s2) task_attempt ids vcores_consumed
              (RunningStage.plan s2) (RunningStage.session_config s2) in
          (Ok (Some (executor_id, task_desc)), s2,
           AvailableVcores.mk executor_id
             (u32_sub (AvailableVcores.vcores budget) vcores_consumed))
      | Err e => (Err e, s1, budget)
      | Panic => (Panic, s1, budget)
      end
  end.

(** ** The binding loops *)

(** The variables of a binding round: the budgets, the cursor into them, and
    the tasks bound so far. *)
Record binder : Type := mkBinder {
  b_budgets : list AvailableVcores.t;
  b_idx : nat;
  b_tasks : list BoundTask;
}.

(** How a loop was left: the stage has no partition left, no executor has a
    free vcore, or the head of the loop stopped it. [Cut] is a loop that ran
    out of fuel, [Panicked] one that panicked. *)
Inductive exit : Type := Drained | NoVcores | Ended | Panicked | Cut.

Definition bind_at (now : N) (session : string) (job : JobId) (next_idx : nat → nat → nat)
    (idx : nat) (s : RunningStage.t) (b : binder) : result bool * RunningStage.t * binder :=
  match b_budgets b !! idx with
  | None => (Panic, s, b)
  | Some budget =>
      let '(o, s', budget') := bind_one now session job s budget in
      let budgets' := <[idx := budget']> (b_budgets b) in
      match o with
      | Ok (Some bound) =>
          (Ok true, s',
           mkBinder budgets' (next_idx idx (length (b_budgets b))) (b_tasks b ++ [bound]))
      | Ok None => (Ok false, s', mkBinder budgets' idx (b_tasks b))
      | Err e => (Err e, s', mkBinder budgets' idx (b_tasks b))
      | Panic => (Panic, s', mkBinder budgets' idx (b_tasks b))
      end
  end.

(** [while idx < budgets.len() && budgets[idx].vcores == 0 { idx += 1 }] *)
Fixpoint leading_zeros (l : list AvailableVcores.t) : nat :=
  match l with
  | b :: l' => if (AvailableVcores.vcores b =? 0)%N then S (leading_zeros l') else 0
  | [] => 0
  end.
Definition skip_empty (idx : nat) (budgets : list AvailableVcores.t) : nat :=
  idx + leading_zeros (drop idx budgets).

(** The loop of [bind_task_bias] over one stage *)
Fixpoint bias_stage (fuel : nat) (now : N) (session : string) (job : JobId)
    (s : RunningStage.t) (b : binder) : exit * RunningStage.t * binder :=
  match fuel with
  | 0 => (Cut, s, b)
  | S fuel =>
      if b_idx b <? length (b_budgets b) then
        let idx := skip_empty (b_idx b) (b_budgets b) in
        let b1 := mkBinder (b_budgets b) idx (b_tasks b) in
        if length (b_budgets b) <=? idx then (NoVcores, s, b1)
        else
          match bind_at now session job (λ i _, i) idx s b1 with
          | (Ok true, s', b') => bias_stage fuel now session job s' b'
          | (Ok false, s', b') => (Drained, s', b')
          | (_, s', b') => (Panicked, s', b')
          end
      else (Ended, s, b)
  end.

(** The scan of [bind_task_round_robin] for an executor with a free vcore:
    [todo] is [budgets.len() - scanned]. [None] stands for an index out of
    range, [Some None] for the return. *)
Fixpoint rr_scan (todo idx : nat) (budgets : list AvailableVcores.t) : option (option nat) :=
  match budgets !! idx with
  | None => None
  | Some b =>
      if (AvailableVcores.vcores b =? 0)%N then
        match todo with
        | 0 | 1 => Some None
        | S todo => rr_scan todo ((idx + 1) `mod` length budgets) budgets
        end
      else Some (Some idx)
  end.

(** The loop of [bind_task_round_robin] over one stage *)
Fixpoint rr_stage (fuel : nat) (now : N) (session : string) (job : JobId)
    (s : RunningStage.t) (b : binder) : exit * RunningStage.t * binder :=
  match fuel with
  | 0 => (Cut, s, b)
  | S fuel =>
      match rr_scan (length (b_budgets b)) (b_idx b) (b_budgets b) with
      | None => (Panicked, s, b)
      | Some None => (NoVcores, s, b)
      | Some (Some idx) =>
          match bind_at now session job (λ i n, (i + 1) `mod` n) idx s
                  (mkBinder (b_budgets b) idx (b_tasks b)) with
          | (Ok true, s', b') => rr_stage fuel now session job s' b'
          | (Ok false, s', b') => (Drained, s', b')
          | (_, s', b') => (Panicked, s', b')
          end
      end
  end.

Section rounds.
(** The loop over one stage, and the test for the stages to leave out. *)
Context (stage_loop : nat → N → string → JobId → RunningStage.t → binder →
                      exit * RunningStage.t * binder).
Context (if_skip : Plan → bool) (now : N).

(** [while let Some(running_stage) = graph.fetch_running_stage(&black_list)] *)
Fixpoint job_loop (fuel : nat) (session : string) (job : JobId) (black_list : list nat)
    (g : StaticExecutionGraph.t) (b : binder) : exit * StaticExecutionGraph.t * binder :=
  match fuel with
  | 0 => (Cut, g, b)
  | S fuel =>
      match fetch_running_stage now black_list g with
      | (None, g1) => (Ended, g1, b)
      | (Some (sid, s), g1) =>
          if if_skip (RunningStage.plan s) then
            job_loop fuel session job (black_list ++ [RunningStage.stage_id s]) g1 b
          else
            let '(e, s', b') :=
              stage_loop (S (RunningStage.available_tasks s)) now session job s b in
            let g2 := put_stage sid (RunningS s') g1 in
            match e with
            | Drained | Ended => job_loop fuel session job black_list g2 b'
            | e => (e, g2, b')
            end
      end
  end.

Definition job_is_running (info : JobInfoCache.t) : bool :=
  match JobInfoCache.status info with Some (Job_Running _ _ _) => true | _ => false end.

(** The loop over the jobs, in the order in which the map yields them. *)
Fixpoint jobs_loop (jobs : list (JobId * JobInfoCache.t)) (b : binder)
  : exit * list (JobId * JobInfoCache.t) * binder :=
  match jobs with
  | [] => (Ended, [], b)
  | (job, info) :: rest =>
      if job_is_running info then
        let g := JobInfoCache.execution_graph info in
        let '(e, g', b') := job_loop (S (size (stages g))) (session_id g) job [] g b in
        let entry := (job, JobInfoCache.mk _ _ g' (JobInfoCache.status info)) in
        match e with
        | Ended =>
            let '(e, rest', b'') := jobs_loop rest b' in (e, entry :: rest', b'')
        | e => (e, entry :: rest, b')
        end
      else
        let '(e, rest', b') := jobs_loop rest b in (e, (job, info) :: rest', b')
  end.

Definition by_vcores (a b : AvailableVcores.t) : Prop :=
  (AvailableVcores.vcores b ≤ AvailableVcores.vcores a)%N.
#[export] Instance by_vcores_dec : RelDecision by_vcores.
Proof. intros a b. unfold by_vcores. apply _. Defined.

Definition bind_tasks (budgets : list AvailableVcores.t)
    (jobs : list (JobId * JobInfoCache.t))
  : exit * list (JobId * JobInfoCache.t) * binder :=
  if forallb (λ b, (AvailableVcores.vcores b =? 0)%N) budgets then
    (NoVcores, jobs, mkBinder budgets 0 [])
  else jobs_loop jobs (mkBinder (merge_sort by_vcores budgets) 0 []).
End rounds.

Definition bind_task_bias (if_skip : Plan → bool) (now : N) := bind_tasks bias_stage if_skip now.
Definition bind_task_round_robin (if_skip : Plan → bool) (now : N) :=
  bind_tasks rr_stage if_skip now.
End binding.
