(* ===== verification/BindingFacts.v ===== *)
(** * Binding hands out vcores without loss

    The two binding loops satisfy one contract, the class [StageLoop]: they bind
    partitions of the stage along the steps of its state machine, never take
    more vcores from an executor than it offers, and stop only when the stage is
    drained or no vcore is left. A whole round is proved against that contract. *)

From S2P Require Import Prelude Errors Types Stage StageFacts StageSteps Graph GraphSteps.
From S2P Require Import GraphFacts Held Binding.
Import StaticExecutionGraph(stages).

Section binding_facts.
Context `{PlanOps} `{Payload} `{PrecisionOps} `{MapOrder} `{!BindOps}.
Abbreviation graph := StaticExecutionGraph.t.
Implicit Types (s : RunningStage.t) (b : binder).

Abbreviation queue s := (PendingPartitions.queue (RunningStage.pending s)).

Definition is_u32 (n : N) : Prop := (n < 2 ^ 32)%N.

Lemma u32_sub_exact a c : is_u32 a → (c ≤ a)%N → (u32_sub a c + c)%N = a.
Proof.
  unfold is_u32, u32_sub. intros Ha Hc.
  replace (a + 2 ^ 32 - c)%N with ((a - c) + 1 * 2 ^ 32)%N by lia.
  rewrite N.Div0.mod_add, N.mod_small; lia.
Qed.

Lemma u32_sub_le a c : is_u32 a → (c ≤ a)%N → (u32_sub a c ≤ a)%N.
Proof. intros Ha Hc. pose proof (u32_sub_exact a c Ha Hc). lia. Qed.

(** ** One bind *)

(** The effect of a successful bind of the front [q1] of the queue. *)
Record bound_to (now : N) (job : JobId) s s' (budget budget' : AvailableVcores.t)
  (task : BoundTask) (q1 q2 : list nat) : Prop := {
  bt_queue : queue s = q1 ++ q2;
  bt_nonempty : q1 ≠ [];
  bt_step : run_step Strict s s';
  bt_rest : queue s' = q2;
  bt_executor : task.1 = AvailableVcores.executor_id budget ∧
                AvailableVcores.executor_id budget' = AvailableVcores.executor_id budget;
  bt_vcores : (AvailableVcores.vcores budget' + TaskDescription.vcores_consumed task.2)%N
              = AvailableVcores.vcores budget;
  bt_slice : TaskDescription.global_input_partition_ids task.2 = q1;
  bt_key : TaskDescription.key task.2 =
           TaskKey.mk job (RunningStage.stage_id s) (length (RunningStage.task_infos s));
  bt_collapse : stage_has_input_collapse (plan_shape (RunningStage.plan s)) = true →
    TaskDescription.vcores_consumed task.2 = 1%N ∧
    ((N.of_nat (length (queue s)) ≤ usize_max)%N → q2 = []);
  bt_slots : stage_has_input_collapse (plan_shape (RunningStage.plan s)) = false →
    TaskDescription.vcores_consumed task.2 = N.of_nat (length q1) ∧
    (N.of_nat (length q1) ≤ partition_cap (RunningStage.session_config s))%N;
}.

Lemma set_pending_id s : RunningStage.set_pending (RunningStage.pending s) s = s.
Proof. by destruct s. Qed.

Lemma partition_cap_pos cfg : (0 < partition_cap cfg)%N.
Proof.
  unfold partition_cap. destruct (max_partitions_per_task cfg) as [n|]; [|done].
  destruct (0 <? n)%N eqn:Hn; [by apply N.ltb_lt|done].
Qed.

(** The width of a slice: at least one partition, at most one per vcore. *)
Lemma slice_width s (budget : AvailableVcores.t) :
  (0 < AvailableVcores.vcores budget)%N →
  let collapse := stage_has_input_collapse (plan_shape (RunningStage.plan s)) in
  let max := if collapse then usize_max
             else (AvailableVcores.vcores budget
                   `min` partition_cap (RunningStage.session_config s))%N in
  (0 < max)%N.
Proof.
  intros Hv. cbv zeta. case_match; [done|].
  pose proof (partition_cap_pos (RunningStage.session_config s)). lia.
Qed.

Lemma next_slice_nonempty max (p : PendingPartitions.t) :
  (0 < max)%N → (PendingPartitions.next_slice max p).1 = [] → PendingPartitions.queue p = [].
Proof.
  unfold PendingPartitions.next_slice. destruct (PendingPartitions.queue p) as [|x q]; [done|].
  simpl. intros Hm. destruct (N.to_nat (max `min` N.of_nat (S (length q)))) eqn:Hn; [|done].
  lia.
Qed.

Lemma bind_one_spec now session job s budget :
  running_ok s → (0 < AvailableVcores.vcores budget)%N →
  is_u32 (AvailableVcores.vcores budget) →
  match bind_one now session job s budget with
  | (Ok None, s', budget') => queue s = [] ∧ s' = s ∧ budget' = budget
  | (Ok (Some task), s', budget') =>
      ∃ q1 q2, bound_to now job s s' budget budget' task q1 q2
  | _ => False
  end.
Proof.
  intros Hok Hv Hu. unfold bind_one.
  pose proof (slice_width s budget Hv) as Hpos.
  set (collapse := stage_has_input_collapse _) in *. cbv zeta in Hpos.
  set (max := if collapse then _ else _) in *.
  pose proof (next_slice_split max (RunningStage.pending s)) as Hsplit. cbv zeta in Hsplit.
  pose proof (next_slice_nonempty max (RunningStage.pending s) Hpos) as Hempty.
  destruct (PendingPartitions.next_slice max (RunningStage.pending s)) as [q1 pend] eqn:Hns.
  simpl in Hsplit, Hempty. destruct q1 as [|p q1'].
  { specialize (Hempty eq_refl). split_and!; [done| |done].
    assert (pend = RunningStage.pending s) as ->; [|apply set_pending_id].
    unfold PendingPartitions.next_slice in Hns. rewrite Hempty in Hns.
    injection Hns as _ <-. destruct (RunningStage.pending s) as [t q] eqn:Hp.
    simpl in *. by rewrite Hempty, drop_nil. }
  cbv beta iota zeta. set (q1 := p :: q1') in *.
  assert (Forall (λ p, p < length (RunningStage.task_failure_numbers s)) q1) as Hr.
  { apply Forall_forall. intros p' Hp'. rewrite (ok_numbers _ Hok).
    apply (cov_queue _ _ _ (ok_cov _ Hok)). rewrite Hsplit. set_solver. }
  destruct (max_at_ok (E:=BallistaError) _ _ Hr) as (m & Hm & _).
  change (RunningStage.task_failure_numbers (RunningStage.set_pending pend s))
    with (RunningStage.task_failure_numbers s). rewrite Hm.
  exists q1, (PendingPartitions.queue pend).
  assert (pend = PendingPartitions.mk (PendingPartitions.total (RunningStage.pending s))
                   (PendingPartitions.queue pend)) as Hpend.
  { unfold PendingPartitions.next_slice in Hns. by injection Hns as _ <-. }
  assert (q1 = take (N.to_nat (max `min` N.of_nat (length (queue s)))) (queue s)) as Htake.
  { unfold PendingPartitions.next_slice in Hns. by injection Hns as <- _. }
  assert (N.of_nat (length q1) ≤ max)%N as Hlen.
  { rewrite Htake, length_take. lia. }
  assert (collapse = false → (N.of_nat (length q1) ≤ AvailableVcores.vcores budget)%N ∧
    (N.of_nat (length q1) ≤ partition_cap (RunningStage.session_config s))%N ∧
    u32_of_len (length q1) = N.of_nat (length q1)) as Hslots.
  { intros Hc. unfold max in Hlen. rewrite Hc in Hlen. unfold u32_of_len, is_u32 in *.
    split_and!; [lia..|]. apply N.mod_small. lia. }
  split; cbn [fst snd AvailableVcores.vcores TaskDescription.vcores_consumed]; try done.
  - rewrite Hpend.
    apply (Run_bind Strict s (TaskInfo.mk _ _ _ _ _ _ _ (Running _) q1 _) q1
      (PendingPartitions.queue pend)); done.
  - apply u32_sub_exact; [done|]. destruct collapse eqn:Hc; [lia|].
    destruct (Hslots eq_refl) as (? & ? & ->). lia.
  - intros Hc. fold collapse in Hc. rewrite Hc. split; [done|]. intros Hq.
    assert (length q1 = length (queue s)) as Hl.
    { rewrite Htake, length_take. unfold max. rewrite Hc. lia. }
    rewrite Hsplit, length_app in Hl. apply length_zero_iff_nil. lia.
  - intros Hc. fold collapse in Hc. destruct (Hslots Hc) as (? & ? & Hn).
    rewrite Hc. split; [exact Hn|done].
Qed.

(** ** Accounting of vcores *)

Fixpoint budget_of (e : string) (l : list AvailableVcores.t) : N :=
  match l with
  | [] => 0
  | a :: l' =>
      (if bool_decide (AvailableVcores.executor_id a = e) then AvailableVcores.vcores a
       else 0) + budget_of e l'
  end%N.

Fixpoint consumed_on (e : string) (l : list BoundTask) : N :=
  match l with
  | [] => 0
  | t :: l' =>
      (if bool_decide (t.1 = e) then TaskDescription.vcores_consumed t.2 else 0)
        + consumed_on e l'
  end%N.

Lemma consumed_on_app e l1 l2 :
  consumed_on e (l1 ++ l2) = (consumed_on e l1 + consumed_on e l2)%N.
Proof. induction l1 as [|t l1 IH]; simpl; [done|]. rewrite IH. lia. Qed.

Lemma budget_of_insert e l i a a' c :
  l !! i = Some a → AvailableVcores.executor_id a' = AvailableVcores.executor_id a →
  (AvailableVcores.vcores a' + c)%N = AvailableVcores.vcores a →
  (budget_of e (<[i := a']> l)
     + (if bool_decide (AvailableVcores.executor_id a = e) then c else 0))%N
  = budget_of e l.
Proof.
  revert i. induction l as [|x l IH]; intros [|i] Hi Hid Hv; simplify_eq/=.
  - rewrite Hid. case_bool_decide; lia.
  - specialize (IH i Hi Hid Hv). lia.
Qed.

(** What [e] still offers and what was taken from it, together. *)
Definition balance (e : string) b : N :=
  (budget_of e (b_budgets b) + consumed_on e (b_tasks b))%N.

Definition good b : Prop :=
  Forall (λ a, is_u32 (AvailableVcores.vcores a)) (b_budgets b).

Definition all_spent b : Prop :=
  Forall (λ a, AvailableVcores.vcores a = 0%N) (b_budgets b).

(** Tasks were handed to the executors of the budgets only. *)
Definition placed b : Prop :=
  Forall (λ t : BoundTask, t.1 ∈ AvailableVcores.executor_id <$> b_budgets b) (b_tasks b).

(** The stage has a record of a task that was handed out. *)
Definition recorded (job : JobId) s (task : BoundTask) : Prop :=
  TaskKey.job_id (TaskDescription.key task.2) = job ∧
  TaskKey.stage_id (TaskDescription.key task.2) = RunningStage.stage_id s ∧
  ∃ ti, RunningStage.task_infos s !! TaskKey.task_id (TaskDescription.key task.2) = Some ti ∧
    TaskInfo.task_status ti = Running task.1 ∧
    ids ti = TaskDescription.global_input_partition_ids task.2 ∧
    TaskInfo.vcores_consumed ti = TaskDescription.vcores_consumed task.2.

(** The effect of a loop, or of a part of it, on the stage and the budgets. *)
Record progress (job : JobId) s b s' b' : Prop := {
  pr_steps : rtc (run_step Strict) s s';
  pr_infos : RunningStage.task_infos s `prefix_of` RunningStage.task_infos s';
  pr_good : good b';
  pr_ids : AvailableVcores.executor_id <$> b_budgets b'
           = AvailableVcores.executor_id <$> b_budgets b;
  pr_balance : ∀ e, balance e b' = balance e b;
  pr_placed : placed b → placed b';
  pr_held : ∀ e,
    (infos_held e (RunningStage.task_infos s') + consumed_on e (b_tasks b))%N
    = (infos_held e (RunningStage.task_infos s) + consumed_on e (b_tasks b'))%N;
  pr_tasks : ∃ new, b_tasks b' = b_tasks b ++ new ∧ Forall (recorded job s') new;
}.

Lemma pr_length job s b s' b' :
  progress job s b s' b' → length (b_budgets b') = length (b_budgets b).
Proof.
  intros Hp. pose proof (pr_ids _ _ _ _ _ Hp) as Hi.
  apply (f_equal length) in Hi. by rewrite !length_fmap in Hi.
Qed.

Lemma recorded_prefix job s s' task :
  RunningStage.stage_id s' = RunningStage.stage_id s →
  RunningStage.task_infos s `prefix_of` RunningStage.task_infos s' →
  recorded job s task → recorded job s' task.
Proof.
  intros Hid Hpre (Hj & Hs & ti & Hti & Hrest). split; [done|]. split; [congruence|].
  exists ti. split; [by eapply prefix_lookup_Some|done].
Qed.

Lemma progress_refl job s b : good b → progress job s b s b.
Proof. intros Hb. split; [done..|]. exists []. by rewrite app_nil_r. Qed.

Lemma run_steps_frame strict s s' :
  rtc (run_step strict) s s' → RunningStage.stage_id s' = RunningStage.stage_id s.
Proof. induction 1 as [|s1 s2 s3 H12 _ IH]; [done|]. rewrite IH. by eapply run_step_frame. Qed.

Lemma progress_trans job s1 b1 s2 b2 s3 b3 :
  progress job s1 b1 s2 b2 → progress job s2 b2 s3 b3 → progress job s1 b1 s3 b3.
Proof.
  intros [Hs Hi Hg Hl Hb Hpl Hh (n1 & Ht & Hr)] [Hs' Hi' Hg' Hl' Hb' Hpl' Hh' (n2 & Ht' & Hr')].
  split.
  - by etrans.
  - by etrans.
  - done.
  - congruence.
  - intros e. by rewrite Hb', Hb.
  - auto.
  - intros e. specialize (Hh e). specialize (Hh' e). lia.
  - exists (n1 ++ n2). rewrite Ht', Ht, app_assoc. split; [done|].
    apply Forall_app. split; [|done]. eapply Forall_impl; [exact Hr|]. intros t Ht0.
    eapply recorded_prefix; [|done|done]. by eapply run_steps_frame.
Qed.

(** A binder whose cursor only moved. *)
Lemma progress_cursor job s b s' b' i :
  progress job s (mkBinder (b_budgets b) i (b_tasks b)) s' b' → progress job s b s' b'.
Proof. intros [? ? ? ? ? ? ? ?]. by split. Qed.

Lemma bind_one_recorded now session job s budget task s' budget' :
  bind_one now session job s budget = (Ok (Some task), s', budget') →
  recorded job s' task ∧
  RunningStage.task_infos s `prefix_of` RunningStage.task_infos s' ∧
  ∀ e, infos_held e (RunningStage.task_infos s')
       = (infos_held e (RunningStage.task_infos s) + consumed_on e [task])%N.
Proof.
  unfold bind_one. destruct (PendingPartitions.next_slice _ _) as [[|p q1] pend]; [done|].
  cbv beta iota zeta. destruct (max_at _ _) as [m| |]; intros [= <- <- <-].
  split_and!; [|by eexists|].
  2:{ intros e. unfold infos_held. simpl. rewrite lsum_app. simpl. unfold hold. simpl.
      by case_bool_decide. }
  split; [done|]. split; [done|]. eexists.
  cbn [RunningStage.task_infos RunningStage.set_task_infos RunningStage.set_pending
       TaskDescription.key TaskKey.task_id snd].
  split; [by apply list_lookup_middle|]. by split_and!.
Qed.

Lemma bind_at_spec now session job next idx s b a :
  running_ok s → good b → b_budgets b !! idx = Some a → (0 < AvailableVcores.vcores a)%N →
  match bind_at now session job next idx s b with
  | (Ok true, s', b') =>
      progress job s b s' b' ∧ length (queue s') < length (queue s) ∧
      b_idx b' = next idx (length (b_budgets b)) ∧
      (∀ j, j ≠ idx → b_budgets b' !! j = b_budgets b !! j)
  | (Ok false, s', b') => queue s = [] ∧ s' = s ∧ b' = mkBinder (b_budgets b) idx (b_tasks b)
  | _ => False
  end.
Proof.
  intros Hok Hg Ha Hpos. unfold bind_at. rewrite Ha.
  assert (is_u32 (AvailableVcores.vcores a)) as Hu by (by eapply Forall_lookup_1 in Hg).
  pose proof (bind_one_spec now session job s a Hok Hpos Hu) as Hspec.
  destruct (bind_one now session job s a) as [[[[task|]| |] s'] a'] eqn:Hb; try done.
  - destruct Hspec as (q1 & q2 & [Hq Hne Hstep Hrest [He He'] Hv _ _ _ _]).
    destruct (bind_one_recorded _ _ _ _ _ _ _ _ Hb) as (Hrec & Hpre & Hheld). split_and!.
    + split; simpl; [by apply rtc_once|done| | | | | |].
      * apply Forall_insert; [done|]. unfold is_u32 in *. lia.
      * rewrite list_fmap_insert, He'. apply list_insert_id. by rewrite list_lookup_fmap, Ha.
      * intros e. unfold balance. simpl. rewrite consumed_on_app. simpl. rewrite He.
        pose proof (budget_of_insert e _ _ _ _ _ Ha He' Hv). lia.
      * unfold placed. simpl. rewrite list_fmap_insert, He'. intros Hpl.
        rewrite list_insert_id by (by rewrite list_lookup_fmap, Ha).
        apply Forall_app. split; [done|]. apply Forall_singleton. rewrite He.
        apply list_elem_of_fmap_2. by eapply list_elem_of_lookup_2.
      * intros e. rewrite Hheld, consumed_on_app. lia.
      * exists [task]. by rewrite Forall_singleton.
    + rewrite Hrest, Hq, length_app. destruct q1; simpl; [done|lia].
    + done.
    + intros j Hj. simpl. by rewrite list_lookup_insert_ne.
  - destruct Hspec as (Hq & -> & ->). split_and!; [done..|]. f_equal. by apply list_insert_id.
Qed.

(** ** The contract of a loop over one stage *)

(** How a loop over one stage may end. *)
Definition contract (inv : binder → Prop) (job : JobId) s b
  (r : exit * RunningStage.t * binder) : Prop :=
  match r with
  | (Drained, s', b') => progress job s b s' b' ∧ inv b' ∧ queue s' = []
  | (NoVcores, s', b') => progress job s b s' b' ∧ all_spent b'
  | _ => False
  end.

Lemma contract_trans inv job s b s' b' r :
  progress job s b s' b' → contract inv job s' b' r → contract inv job s b r.
Proof.
  intros Hp. destruct r as [[[] s2] b2]; simpl; try done.
  - intros (? & ? & ?). split_and!; [by eapply progress_trans|done..].
  - intros (? & ?). split; [by eapply progress_trans|done].
Qed.

Lemma contract_cursor inv job s b i r :
  contract inv job s (mkBinder (b_budgets b) i (b_tasks b)) r → contract inv job s b r.
Proof.
  destruct r as [[[] s2] b2]; simpl; try done; intuition eauto using progress_cursor.
Qed.

Class StageLoop
  (loop : nat → N → string → JobId → RunningStage.t → binder →
          exit * RunningStage.t * binder)
  (inv : binder → Prop) : Prop := {
  sl_good : ∀ b, inv b → good b;
  sl_start : ∀ budgets, Forall (λ a, is_u32 (AvailableVcores.vcores a)) budgets →
    budgets ≠ [] → inv (mkBinder budgets 0 []);
  sl_spec : ∀ fuel now session job s b,
    running_ok s → inv b → length (queue s) < fuel →
    contract inv job s b (loop fuel now session job s b);
}.

(** *** Bias: the executors before the cursor are spent *)

Record bias_inv b : Prop := {
  bi_good : good b;
  bi_idx : b_idx b < length (b_budgets b);
  bi_spent : ∀ j a, j < b_idx b → b_budgets b !! j = Some a → AvailableVcores.vcores a = 0%N;
}.

Lemma leading_zeros_lookup l j a :
  j < leading_zeros l → l !! j = Some a → AvailableVcores.vcores a = 0%N.
Proof.
  revert j. induction l as [|x l IH]; intros j; simpl; [lia|].
  destruct (AvailableVcores.vcores x =? 0)%N eqn:Hx; [|lia].
  apply N.eqb_eq in Hx. destruct j as [|j]; simpl; intros; simplify_eq; [done|].
  eapply IH; [|done]. lia.
Qed.

Lemma leading_zeros_stop l a :
  l !! leading_zeros l = Some a → (0 < AvailableVcores.vcores a)%N.
Proof.
  induction l as [|x l IH]; simpl; [done|].
  destruct (AvailableVcores.vcores x =? 0)%N eqn:Hx; simpl; [done|].
  intros [= <-]. apply N.eqb_neq in Hx. lia.
Qed.

Lemma leading_zeros_le l : leading_zeros l ≤ length l.
Proof. induction l as [|x l IH]; simpl; [lia|]. case_match; lia. Qed.

Lemma skip_empty_spent b j a :
  bias_inv b → j < skip_empty (b_idx b) (b_budgets b) → b_budgets b !! j = Some a →
  AvailableVcores.vcores a = 0%N.
Proof.
  intros [_ _ Hs] Hj Ha. unfold skip_empty in Hj.
  destruct (decide (j < b_idx b)); [by eapply Hs|].
  apply (leading_zeros_lookup (drop (b_idx b) (b_budgets b)) (j - b_idx b)); [lia|].
  rewrite lookup_drop. by replace (b_idx b + (j - b_idx b)) with j by lia.
Qed.

#[global] Instance bias_stage_loop : StageLoop bias_stage bias_inv.
Proof.
  split.
  - by intros b [].
  - intros budgets Hg Hne. split; simpl; [done| |lia].
    destruct budgets; [done|simpl; lia].
  - intros fuel. induction fuel as [|fuel IH]; intros now session job s b Hok Hinv Hlt; [lia|].
    cbn [bias_stage]. pose proof (skip_empty_spent b) as Hskip.
    destruct Hinv as [Hg Hidx Hspent] eqn:E; clear E.
    rewrite (proj2 (Nat.ltb_lt _ _) Hidx). cbv zeta.
    set (idx := skip_empty (b_idx b) (b_budgets b)) in *.
    destruct (length (b_budgets b) <=? idx) eqn:Hend.
    + apply Nat.leb_le in Hend. split.
      * eapply progress_cursor with (i := idx). by apply progress_refl.
      * apply Forall_lookup_2. intros j a Ha. eapply Hskip; [done| |done].
        apply lookup_lt_Some in Ha. simpl in Ha. lia.
    + apply Nat.leb_gt in Hend.
      set (b1 := mkBinder (b_budgets b) idx (b_tasks b)).
      destruct (lookup_lt_is_Some_2 (b_budgets b1) idx Hend) as [a Ha].
      assert (0 < AvailableVcores.vcores a)%N as Hpos.
      { apply (leading_zeros_stop (drop (b_idx b) (b_budgets b))). by rewrite lookup_drop. }
      pose proof (bind_at_spec now session job (λ i _, i) idx s b1 a Hok Hg Ha Hpos) as Hb.
      eapply contract_cursor with (i := idx). fold b1.
      destruct (bind_at now session job (λ i _, i) idx s b1) as [[[[]| |] s'] b'];
        [| |done|done].
      * destruct Hb as (Hp & Hq & Hi & Hother).
        eapply contract_trans; [exact Hp|]. apply IH; [| |lia].
        -- eapply run_steps_ok; [apply (pr_steps _ _ _ _ _ Hp)|done].
        -- split; [apply (pr_good _ _ _ _ _ Hp)| |].
           ++ rewrite Hi, (pr_length _ _ _ _ _ Hp). exact Hend.
           ++ intros j aj Hj Haj. rewrite Hi in Hj. rewrite Hother in Haj by lia.
              by eapply Hskip.
      * destruct Hb as (Hq & -> & ->). split_and!; [by apply progress_refl| |done].
        split; [done..|]. intros j aj Hj Haj. by eapply Hskip.
Qed.

(** *** Round robin: the cursor is in range *)

Record rr_inv b : Prop := {
  ri_good : good b;
  ri_idx : b_idx b < length (b_budgets b);
}.

Lemma rr_scan_spec todo idx l :
  idx < length l → 0 < todo →
  match rr_scan todo idx l with
  | Some (Some i) => ∃ a, l !! i = Some a ∧ (0 < AvailableVcores.vcores a)%N
  | Some None => ∀ d, d < todo → ∃ a, l !! ((idx + d) `mod` length l) = Some a ∧
                                      AvailableVcores.vcores a = 0%N
  | None => False
  end.
Proof.
  revert idx. induction todo as [|todo IH]; intros idx Hidx Htodo; [lia|].
  cbn [rr_scan]. destruct (lookup_lt_is_Some_2 l idx Hidx) as [a Ha]. rewrite Ha.
  destruct (AvailableVcores.vcores a =? 0)%N eqn:Hz.
  2:{ exists a. split; [done|]. apply N.eqb_neq in Hz. lia. }
  apply N.eqb_eq in Hz.
  assert (∃ a, l !! ((idx + 0) `mod` length l) = Some a ∧ AvailableVcores.vcores a = 0%N)
    as H0d by (exists a; rewrite Nat.add_0_r, Nat.mod_small by done; done).
  destruct todo as [|todo].
  { intros d Hd. by replace d with 0 by lia. }
  specialize (IH ((idx + 1) `mod` length l)).
  destruct (rr_scan (S todo) ((idx + 1) `mod` length l) l) as [[i|]|].
  - apply IH; [apply Nat.mod_upper_bound; lia|lia].
  - intros [|d] Hd; [done|].
    destruct (IH ltac:(apply Nat.mod_upper_bound; lia) ltac:(lia) d ltac:(lia))
      as (a' & Ha' & Hz').
    exists a'. split; [|done]. rewrite Nat.Div0.add_mod_idemp_l in Ha'.
    by replace (idx + S d) with (idx + 1 + d) by lia.
  - apply IH; [apply Nat.mod_upper_bound; lia|lia].
Qed.

(** A scan over as many executors as there are sees each of them. *)
Lemma rr_scan_all_spent b :
  b_idx b < length (b_budgets b) →
  rr_scan (length (b_budgets b)) (b_idx b) (b_budgets b) = Some None → all_spent b.
Proof.
  intros Hidx Hscan. set (n := length (b_budgets b)) in *.
  pose proof (rr_scan_spec n (b_idx b) (b_budgets b) Hidx ltac:(lia)) as Hs.
  rewrite Hscan in Hs. fold n in Hs. apply Forall_lookup_2. intros j a Ha.
  assert (j < n) as Hj by (by eapply lookup_lt_Some).
  destruct (Hs ((j + n - b_idx b) `mod` n)) as (a' & Ha' & Hz);
    [apply Nat.mod_upper_bound; lia|].
  rewrite Nat.Div0.add_mod_idemp_r in Ha'.
  replace (b_idx b + (j + n - b_idx b)) with (j + 1 * n) in Ha' by lia.
  rewrite Nat.Div0.mod_add, Nat.mod_small in Ha' by done. by simplify_eq.
Qed.

#[global] Instance rr_stage_loop : StageLoop rr_stage rr_inv.
Proof.
  split.
  - by intros b [].
  - intros budgets Hg Hne. split; simpl; [done|]. destruct budgets; [done|simpl; lia].
  - intros fuel. induction fuel as [|fuel IH]; intros now session job s b Hok Hinv Hlt; [lia|].
    cbn [rr_stage]. destruct Hinv as [Hg Hidx] eqn:E; clear E.
    pose proof (rr_scan_spec (length (b_budgets b)) _ _ Hidx ltac:(lia)) as Hscan.
    destruct (rr_scan (length (b_budgets b)) (b_idx b) (b_budgets b)) as [[idx|]|] eqn:Hr;
      [| |done].
    + destruct Hscan as (a & Ha & Hpos).
      set (b1 := mkBinder (b_budgets b) idx (b_tasks b)).
      pose proof (bind_at_spec now session job (λ i n, (i + 1) `mod` n) idx s b1 a Hok Hg Ha Hpos)
        as Hb.
      eapply contract_cursor with (i := idx). fold b1.
      destruct (bind_at now session job _ idx s b1) as [[[[]| |] s'] b']; [| |done|done].
      * destruct Hb as (Hp & Hq & Hi & _).
        eapply contract_trans; [exact Hp|]. apply IH; [| |lia].
        -- eapply run_steps_ok; [apply (pr_steps _ _ _ _ _ Hp)|done].
        -- split; [apply (pr_good _ _ _ _ _ Hp)|].
           rewrite Hi, (pr_length _ _ _ _ _ Hp). simpl. apply Nat.mod_upper_bound. lia.
      * destruct Hb as (Hq & -> & ->). split_and!; [by apply progress_refl| |done].
        split; [done|]. by eapply lookup_lt_Some.
    + split; [by apply progress_refl|]. by apply rr_scan_all_spent.
Qed.

(** ** A round over the jobs *)

(** Running stages stay, and only gain tasks. *)
Definition extends (g g' : graph) : Prop :=
  ∀ sid s, stages g !! sid = Some (RunningS s) →
    ∃ s', stages g' !! sid = Some (RunningS s') ∧
          RunningStage.stage_id s' = RunningStage.stage_id s ∧
          RunningStage.plan s' = RunningStage.plan s ∧
          RunningStage.task_infos s `prefix_of` RunningStage.task_infos s'.

#[global] Instance extends_preorder : PreOrder extends.
Proof.
  split; [intros g sid s Hs; eauto 7|].
  intros g1 g2 g3 H12 H23 sid s (s2 & (s3 & ? & ? & ? & ?)%H23 & ? & ? & ?)%H12.
  exists s3. split_and!; [done|congruence|congruence|by etrans].
Qed.

Lemma same_running_extends g g' : same_running (λ _, False) g g' → extends g g'.
Proof. intros Hs sid s Hx. exists s. split_and!; [|done..]. apply Hs; [by intros []|done]. Qed.

Lemma get_running_stage_id_same fuel now bl g :
  keyed g → same_running (λ _, False) g (get_running_stage_id fuel now bl g).2 ∧
            header (get_running_stage_id fuel now bl g).2 = header g ∧
            same_held g (get_running_stage_id fuel now bl g).2.
Proof using Type H1.
  revert g. induction fuel as [|fuel IH]; intros g Hg; simpl;
    (destruct (find_running bl g); [done|]);
    pose proof (revive_same_running now g Hg) as Hr; pose proof (revive_header now g) as Hh;
    pose proof (revive_steps Strict now g Hg) as Hst; pose proof (revive_held now g Hg) as He;
    destruct (revive now g) as [[] g']; simpl in *; try done.
  destruct (IH g') as (Hs & Hh' & He'); [by eapply keyed_steps|].
  split_and!; [by transitivity g'|congruence|]. intros e. by rewrite He', He.
Qed.

Definition drained (x : ExecutionStage) : bool :=
  match x with RunningS s => RunningStage.available_tasks s =? 0 | _ => false end.

(** The stages the loop over a job may still turn to. *)
Definition open_keys (bl : list nat) (g : graph) : gset nat :=
  dom (filter (λ kv, kv.1 ∉ bl ∧ drained kv.2 = false) (stages g)).

Lemma elem_of_open_keys bl g k :
  k ∈ open_keys bl g ↔ ∃ x, stages g !! k = Some x ∧ k ∉ bl ∧ drained x = false.
Proof.
  unfold open_keys. rewrite elem_of_dom. split.
  - intros [x [? ?]%map_lookup_filter_Some]. eauto.
  - intros (x & ? & ? & ?). exists x. by apply map_lookup_filter_Some.
Qed.

Lemma open_keys_mono bl (g g' : graph) :
  graph_steps Strict g g' → same_running (λ _, False) g g' → open_keys bl g' ⊆ open_keys bl g.
Proof.
  intros Hst Hsame k (y & Hy & Hbl & Hd)%elem_of_open_keys.
  destruct (Hst k y Hy) as (x & Hx & _). apply elem_of_open_keys. exists x.
  split_and!; [done..|]. destruct x as [| |s| |]; try done.
  rewrite (Hsame k s) in Hy by (done || by intros []). by simplify_eq.
Qed.

(** What the caller of [fetch_running_stage] can rely on. *)
Lemma fetch_running_stage_spec now bl g :
  keyed g →
  let r := fetch_running_stage now bl g in
  graph_steps Strict g r.2 ∧ same_running (λ _, False) g r.2 ∧ header r.2 = header g ∧
  same_held g r.2 ∧
  match r.1 with
  | Some (sid, s) =>
      stages r.2 !! sid = Some (RunningS s) ∧ schedulable bl sid (RunningS s)
  | None => job_failed g = true ∨
      ∀ sid x, stages r.2 !! sid = Some x → ¬ schedulable bl sid x ∧ ∀ rs, x ≠ Resolved rs
  end.
Proof.
  intros Hk. pose proof (fetch_running_stage_steps Strict now bl g Hk) as Hst. cbv zeta.
  revert Hst. unfold fetch_running_stage.
  destruct (job_failed g) eqn:Hf.
  { intros Hst. simpl. split_and!; [done..|by left]. }
  pose proof (get_running_stage_id_same 2 now bl g Hk) as (Hsame & Hh & He).
  pose proof (get_running_stage_id_spec now bl g 1 Hk) as Hspec. cbv zeta in Hspec.
  destruct (get_running_stage_id 2 now bl g) as [[sid|] g']; simpl in *.
  - destruct Hspec as (x & Hx & Hbl & s & -> & Hs). rewrite Hx. simpl.
    intros Hst. split_and!; [done..|]. split; eauto.
  - intros Hst. split_and!; auto.
Qed.

(** A task that some running stage of the graph has a record of. *)
Definition recorded_in (job : JobId) (g : graph) (task : BoundTask) : Prop :=
  ∃ s, stages g !! TaskKey.stage_id (TaskDescription.key task.2) = Some (RunningS s) ∧
       recorded job s task.

Lemma recorded_in_extends job g g' task :
  extends g g' → recorded_in job g task → recorded_in job g' task.
Proof.
  intros He (s & (s' & Hs' & Hid & _ & Hpre)%He & Hr). exists s'. split; [done|].
  by eapply recorded_prefix.
Qed.

(** The part of [progress] that is about the budgets. *)
Record spent b b' : Prop := {
  sp_ids : AvailableVcores.executor_id <$> b_budgets b'
           = AvailableVcores.executor_id <$> b_budgets b;
  sp_balance : ∀ e, balance e b' = balance e b;
  sp_placed : placed b → placed b';
}.

#[global] Instance spent_preorder : PreOrder spent.
Proof.
  split; [by split|]. intros b1 b2 b3 [Hl Hb Hp] [Hl' Hb' Hp'].
  split; [congruence| |auto]. intros e. by rewrite Hb', Hb.
Qed.

(** No stage of the graph that is to be scheduled has a partition left. *)
Definition idle (if_skip : Plan → bool) (g : graph) : Prop :=
  ∀ sid x, stages g !! sid = Some x →
    (∀ r, x ≠ Resolved r) ∧
    (∀ s, x = RunningS s → 0 < RunningStage.available_tasks s →
          if_skip (RunningStage.plan s) = true).

Section rounds.
Context loop inv `{HSL : !StageLoop loop inv}.
Context (if_skip : Plan → bool) (now : N).

(** The effect of the loop over the stages of one job. *)
Record job_progress (job : JobId) (g : graph) b (g' : graph) b' : Prop := {
  jp_steps : graph_steps Strict g g';
  jp_extends : extends g g';
  jp_header : header g' = header g;
  jp_spent : spent b b';
  jp_held : ∀ e, (graph_held e g' + consumed_on e (b_tasks b))%N
                 = (graph_held e g + consumed_on e (b_tasks b'))%N;
  jp_tasks : ∃ new, b_tasks b' = b_tasks b ++ new ∧ Forall (recorded_in job g') new;
}.

Lemma job_progress_trans job g1 b1 g2 b2 g3 b3 :
  job_progress job g1 b1 g2 b2 → job_progress job g2 b2 g3 b3 →
  job_progress job g1 b1 g3 b3.
Proof.
  intros [? ? ? ? Hh (n1 & Ht & Hr)] [? He ? ? Hh' (n2 & Ht' & Hr')].
  split; [by etrans|by etrans|congruence|by etrans| |].
  { intros e. specialize (Hh e). specialize (Hh' e). lia. }
  exists (n1 ++ n2). rewrite Ht', Ht, app_assoc. split; [done|]. apply Forall_app.
  split; [|done]. eapply Forall_impl; [exact Hr|]. intros t. by apply recorded_in_extends.
Qed.

Definition job_contract (job : JobId) (g : graph) b
  (r : exit * graph * binder) : Prop :=
  match r with
  | (Ended, g', b') =>
      job_progress job g b g' b' ∧ inv b' ∧ (job_failed g = true ∨ idle if_skip g')
  | (NoVcores, g', b') => job_progress job g b g' b' ∧ all_spent b'
  | _ => False
  end.

Lemma job_contract_trans job g b g' b' r :
  job_progress job g b g' b' → job_contract job g' b' r → job_contract job g b r.
Proof.
  intros Hp. assert (job_failed g' = job_failed g) as Hf.
  { pose proof (jp_header _ _ _ _ _ Hp) as Hh. unfold header in Hh.
    injection Hh as _ Hst _ _. unfold job_failed. by rewrite Hst. }
  destruct r as [[[] g2] b2]; simpl; try done; rewrite ?Hf;
    intuition eauto using job_progress_trans.
Qed.

(** Binding partitions of one stage, seen from the graph. *)
Lemma stage_progress job g sid s b s' b' :
  keyed g → stages g !! sid = Some (RunningS s) → progress job s b s' b' →
  RunningStage.plan s' = RunningStage.plan s →
  job_progress job g b (put_stage sid (RunningS s') g) b'.
Proof.
  intros Hk Hx [Hst Hpre Hg Hl Hb Hpl Hheld (new & Ht & Hr)] Hplan.
  pose proof (run_steps_frame _ _ _ Hst) as Hid.
  assert (RunningStage.stage_id s' = sid) as Hsid by (rewrite Hid; apply (Hk _ _ Hx)).
  split; [| |done|by split| |].
  - eapply steps_put_rtc; [done|]. by apply run_steps_stage.
  - intros k s0 Hs0. simpl. destruct (decide (sid = k)) as [<-|Hne].
    + rewrite lookup_insert_eq. exists s'. simplify_eq. eauto.
    + rewrite lookup_insert_ne by done. eauto 7.
  - intros e. specialize (Hheld e). pose proof (put_stage_held e sid (RunningS s') g) as Hput.
    unfold at_key in Hput. rewrite Hx in Hput. simpl in Hput. lia.
  - exists new. split; [done|]. eapply Forall_impl; [exact Hr|].
    intros t (Hj & Hs & Hti). exists s'. split; [|by split_and!].
    rewrite Hs, Hsid. simpl. by rewrite lookup_insert_eq.
Qed.

(** The stages left out so far. *)
Definition skipped (bl : list nat) (g : graph) : Prop :=
  ∀ sid, sid ∈ bl → ∃ s, stages g !! sid = Some (RunningS s) ∧
                         if_skip (RunningStage.plan s) = true.

Lemma skipped_extends bl g g' : skipped bl g → extends g g' → skipped bl g'.
Proof.
  intros Hs He sid (s & (s' & ? & _ & Hp & _)%He & ?)%Hs. exists s'. by rewrite Hp.
Qed.

Lemma fetch_progress job g b g1 :
  good b → graph_steps Strict g g1 → same_running (λ _, False) g g1 →
  header g1 = header g → same_held g g1 → job_progress job g b g1 b.
Proof.
  intros Hb Hst Hsame Hh He. split; [done|by apply same_running_extends|done|done| |].
  - intros e. by rewrite He.
  - exists []. by rewrite app_nil_r.
Qed.

Lemma run_step_plan strict s s' :
  run_step strict s s' → RunningStage.plan s' = RunningStage.plan s.
Proof.
  assert (∀ n i st s0, RunningStage.plan (RunningStage.update_task_info n i st s0).2
    = RunningStage.plan s0) as Hu.
  { intros n i st s0. unfold RunningStage.update_task_info. by repeat case_match. }
  assert (∀ i s0, RunningStage.plan (RunningStage.reset_task_info i s0).2
    = RunningStage.plan s0) as Hr.
  { intros i s0. unfold RunningStage.reset_task_info. by repeat case_match. }
  destruct 1; rewrite ?Hr, ?Hu; done.
Qed.

Lemma run_steps_plan strict s s' :
  rtc (run_step strict) s s' → RunningStage.plan s' = RunningStage.plan s.
Proof.
  induction 1 as [|s1 s2 s3 H12 _ IH]; [done|]. rewrite IH. by eapply run_step_plan.
Qed.

Lemma open_keys_skip bl g sid s :
  stages g !! sid = Some (RunningS s) → schedulable bl sid (RunningS s) →
  size (open_keys (bl ++ [sid]) g) < size (open_keys bl g).
Proof.
  intros Hx [Hbl (s' & [= <-] & Hav)]. apply subset_size. split.
  - intros k (x & ? & Hn & ?)%elem_of_open_keys. apply elem_of_open_keys.
    exists x. split_and!; [done| |done]. intros Hin. apply Hn, elem_of_app. by left.
  - intros Hsub. assert (sid ∈ open_keys (bl ++ [sid]) g) as Hin.
    { apply Hsub, elem_of_open_keys. exists (RunningS s). split_and!; [done..|].
      simpl. apply Nat.eqb_neq. lia. }
    apply elem_of_open_keys in Hin as (x & _ & Hn & _).
    apply Hn, elem_of_app. right. by apply list_elem_of_singleton.
Qed.

Lemma open_keys_drain bl g sid s s' :
  stages g !! sid = Some (RunningS s) → schedulable bl sid (RunningS s) →
  queue s' = [] →
  size (open_keys bl (put_stage sid (RunningS s') g)) < size (open_keys bl g).
Proof.
  intros Hx [Hbl (s0 & [= <-] & Hav)] Hq. apply subset_size. split.
  - intros k (x & Hk & Hn & Hd)%elem_of_open_keys. apply elem_of_open_keys. simpl in Hk.
    apply lookup_insert_Some in Hk as [[-> <-]|[_ Hk]]; [|eauto].
    exists (RunningS s). split_and!; [done..|]. simpl. apply Nat.eqb_neq. lia.
  - intros Hsub. assert (sid ∈ open_keys bl (put_stage sid (RunningS s') g)) as Hin.
    { apply Hsub, elem_of_open_keys. exists (RunningS s). split_and!; [done..|].
      simpl. apply Nat.eqb_neq. lia. }
    apply elem_of_open_keys in Hin as (x & Hk & _ & Hd). simpl in Hk.
    rewrite lookup_insert_eq in Hk. simplify_eq. simpl in Hd.
    unfold RunningStage.available_tasks, PendingPartitions.remaining in Hd.
    by rewrite Hq in Hd.
Qed.

Lemma idle_end bl g :
  skipped bl g →
  (∀ sid x, stages g !! sid = Some x → ¬ schedulable bl sid x ∧ ∀ rs, x ≠ Resolved rs) →
  idle if_skip g.
Proof.
  intros Hsk Hn sid x Hx. destruct (Hn sid x Hx) as [Hns Hnr]. split; [done|].
  intros s -> Hav. destruct (decide (sid ∈ bl)) as [Hin|Hout].
  - destruct (Hsk sid Hin) as (s' & Hs' & ?). by simplify_eq.
  - destruct Hns. split; [done|]. eauto.
Qed.

Lemma job_loop_spec fuel session job bl g b :
  keyed g → all_ok g → inv b → skipped bl g → size (open_keys bl g) < fuel →
  job_contract job g b (job_loop loop if_skip now fuel session job bl g b).
Proof using All.
  revert bl g b. induction fuel as [|fuel IH]; intros bl g b Hk Hok Hinv Hsk Hf; [lia|].
  cbn [job_loop].
  destruct (fetch_running_stage_spec now bl g Hk) as (Hst & Hsame & Hh & Hheld & Hres).
  pose proof (open_keys_mono bl _ _ Hst Hsame) as Hopen. apply subseteq_size in Hopen.
  pose proof (keyed_steps _ _ _ Hk Hst) as Hk1.
  pose proof (all_ok_steps _ _ _ Hok Hst) as Hok1.
  pose proof (skipped_extends _ _ _ Hsk (same_running_extends _ _ Hsame)) as Hsk1.
  pose proof (sl_good b Hinv) as Hgood.
  destruct (fetch_running_stage now bl g) as [[[sid s]|] g1]; simpl in *.
  - destruct Hres as [Hx Hsched].
    eapply job_contract_trans; [by apply fetch_progress|].
    assert (RunningStage.stage_id s = sid) as Hid by apply (Hk1 _ _ Hx).
    destruct (if_skip (RunningStage.plan s)) eqn:Hskip.
    + rewrite Hid. apply IH; [done..| |].
      * intros k [?|Heq]%elem_of_app; [by apply Hsk1|].
        apply list_elem_of_singleton in Heq as ->. eauto.
      * pose proof (open_keys_skip bl g1 sid s Hx Hsched). lia.
    + pose proof (sl_spec (S (RunningStage.available_tasks s)) now session job s b
        (Hok1 _ _ Hx) Hinv (Nat.lt_succ_diag_r _)) as Hc.
      destruct (loop (S (RunningStage.available_tasks s)) now session job s b)
        as [[[] s'] b']; simpl in Hc; try done.
      * destruct Hc as (Hp & Hinv' & Hq).
        assert (job_progress job g1 b (put_stage sid (RunningS s') g1) b') as Hjp.
        { eapply stage_progress; [done..|]. eapply run_steps_plan, pr_steps, Hp. }
        eapply job_contract_trans; [exact Hjp|].
        apply IH; [by eapply keyed_steps, jp_steps|by eapply all_ok_steps, jp_steps|done| |].
        -- by eapply skipped_extends, jp_extends.
        -- pose proof (open_keys_drain bl g1 sid s s' Hx Hsched Hq). lia.
      * destruct Hc as (Hp & Hspent). split; [|done].
        eapply stage_progress; [done..|]. eapply run_steps_plan, pr_steps, Hp.
  - split_and!; [by apply fetch_progress|done|].
    destruct Hres as [?|Hres]; [by left|right]. by eapply idle_end.
Qed.

(** What a round may do to a job. *)
Definition same_job (ji ji' : JobId * JobInfoCache.t) : Prop :=
  ji'.1 = ji.1 ∧ JobInfoCache.status ji'.2 = JobInfoCache.status ji.2 ∧
  graph_steps Strict (JobInfoCache.execution_graph ji.2) (JobInfoCache.execution_graph ji'.2) ∧
  extends (JobInfoCache.execution_graph ji.2) (JobInfoCache.execution_graph ji'.2).

Lemma same_job_refl ji : same_job ji ji.
Proof. by split_and!. Qed.

Definition job_ok (ji : JobId * JobInfoCache.t) : Prop :=
  keyed (JobInfoCache.execution_graph ji.2) ∧ all_ok (JobInfoCache.execution_graph ji.2).

Definition recorded_by (jobs : list (JobId * JobInfoCache.t)) (task : BoundTask) : Prop :=
  ∃ ji, ji ∈ jobs ∧ recorded_in ji.1 (JobInfoCache.execution_graph ji.2) task.

(** Nothing is left to schedule for a job. *)
Definition served (ji : JobId * JobInfoCache.t) : Prop :=
  job_is_running ji.2 = true → job_failed (JobInfoCache.execution_graph ji.2) = false →
  idle if_skip (JobInfoCache.execution_graph ji.2).

(** What the tasks of the jobs hold on an executor. *)
Definition jobs_held e (jobs : list (JobId * JobInfoCache.t)) : N :=
  lsum (λ ji, graph_held e (JobInfoCache.execution_graph ji.2)) jobs.

Record round_result (jobs : list (JobId * JobInfoCache.t)) b
  (r : exit * list (JobId * JobInfoCache.t) * binder) : Prop := {
  rr_jobs : Forall2 same_job jobs r.1.2;
  rr_spent : spent b r.2;
  rr_held : ∀ e, (jobs_held e r.1.2 + consumed_on e (b_tasks b))%N
                 = (jobs_held e jobs + consumed_on e (b_tasks r.2))%N;
  rr_tasks : ∃ new, b_tasks r.2 = b_tasks b ++ new ∧ Forall (recorded_by r.1.2) new;
  rr_exit : (r.1.1 = Ended ∧ inv r.2 ∧ Forall served r.1.2) ∨
            (r.1.1 = NoVcores ∧ all_spent r.2);
}.

Lemma recorded_by_cons ji jobs task : recorded_by jobs task → recorded_by (ji :: jobs) task.
Proof. intros (ji' & ? & ?). exists ji'. by split; [right|]. Qed.

Lemma jobs_loop_spec jobs b :
  Forall job_ok jobs → inv b → round_result jobs b (jobs_loop loop if_skip now jobs b).
Proof using All.
  revert b. induction jobs as [|[job info] jobs IH]; intros b Hok Hinv.
  { split; simpl; [constructor|done|done| |].
    - exists []. by rewrite app_nil_r.
    - left. by split_and!. }
  apply Forall_cons in Hok as [[Hk Hok] Hrest]. cbn [jobs_loop]. simpl in Hk, Hok.
  destruct (job_is_running info) eqn:Hrun.
  - set (g := JobInfoCache.execution_graph info) in *.
    pose proof (job_loop_spec (S (size (stages g))) (StaticExecutionGraph.session_id g)
      job [] g b Hk Hok Hinv) as Hc.
    ospecialize (Hc _ _).
    { by intros sid ?%elem_of_nil. }
    { unfold open_keys. rewrite size_dom. pose proof (map_size_filter
        (λ kv : nat * ExecutionStage, kv.1 ∉ [] ∧ drained kv.2 = false) (stages g)). lia. }
    destruct (job_loop _ _ _ _ _ job [] g b) as [[e g'] b']. simpl in Hc.
    assert (∀ b2, job_progress job g b g' b2 →
      same_job (job, info) (job, JobInfoCache.mk _ _ g' (JobInfoCache.status info))) as Hsame.
    { intros b2 [? ? ? ? ? ?]. by split_and!. }
    destruct e; try done.
    + destruct Hc as [Hjp Hspent]. pose proof Hjp as [_ _ _ Hsp Hheld (new & Ht & Hr)].
      split; simpl; [|done| | |by right].
      * constructor; [by eapply Hsame|]. by apply Forall_Forall2_diag, Forall_true, same_job_refl.
      * intros e. specialize (Hheld e). fold g. lia.
      * exists new. split; [done|]. eapply Forall_impl; [exact Hr|]. intros t Hrec.
        eexists. split; [left|done].
    + destruct Hc as (Hjp & Hinv' & Hidle). pose proof Hjp as [_ _ Hh Hsp Hheld (new & Ht & Hr)].
      destruct (IH b' Hrest Hinv') as [HF Hsp2 Hheld2 (new2 & Ht2 & Hr2) Hex].
      destruct (jobs_loop loop if_skip now jobs b') as [[e2 jobs2] b2]. simpl in *.
      split; simpl; [constructor; [by eapply Hsame|done]|by etrans| | |].
      * intros e. specialize (Hheld e). specialize (Hheld2 e). fold g. lia.
      * exists (new ++ new2). rewrite Ht2, Ht, app_assoc. split; [done|].
        apply Forall_app. split.
        -- eapply Forall_impl; [exact Hr|]. intros t Hrec. eexists. split; [left|done].
        -- eapply Forall_impl; [exact Hr2|]. intros t. apply recorded_by_cons.
      * destruct Hex as [(-> & ? & Hserved)|?]; [left|by right].
        split_and!; [done..|]. constructor; [|done]. intros _ Hnf. simpl in *.
        destruct Hidle as [Hf|?]; [|done]. unfold header in Hh. injection Hh as _ Hst _ _.
        unfold job_failed in *. rewrite Hst in Hnf. congruence.
  - destruct (IH b Hrest Hinv) as [HF Hsp2 Hheld2 (new2 & Ht2 & Hr2) Hex].
    destruct (jobs_loop loop if_skip now jobs b) as [[e2 jobs2] b2]. simpl in *.
    split; simpl; [constructor; [apply same_job_refl|done]|done| | |].
    + intros e. specialize (Hheld2 e). lia.
    + exists new2. split; [done|]. eapply Forall_impl; [exact Hr2|]. intros t.
      apply recorded_by_cons.
    + destruct Hex as [(-> & ? & Hserved)|?]; [left|by right].
      split_and!; [done..|]. constructor; [|done]. intros Hrun'. simpl in Hrun'. congruence.
Qed.

Lemma budget_of_perm e l l' : l ≡ₚ l' → budget_of e l = budget_of e l'.
Proof. induction 1; simpl; [done|congruence|lia|congruence]. Qed.

Lemma round_start budgets :
  Forall (λ a, is_u32 (AvailableVcores.vcores a)) budgets →
  forallb (λ a, (AvailableVcores.vcores a =? 0)%N) budgets = false →
  inv (mkBinder (merge_sort by_vcores budgets) 0 []).
Proof using HSL.
  intros Hu Hz. assert (merge_sort by_vcores budgets ≡ₚ budgets) as Hperm
    by apply merge_sort_Permutation.
  apply sl_start; [by rewrite Hperm|]. intros Hnil. rewrite Hnil in Hperm.
  apply Permutation_nil in Hperm. by rewrite Hperm in Hz.
Qed.

(** A whole binding round: the vcores of each executor are either still
    offered or taken by a task that its stage has on record, and the round
    ends with every vcore taken or with nothing left to schedule. *)
Lemma bind_tasks_spec budgets jobs :
  Forall (λ a, is_u32 (AvailableVcores.vcores a)) budgets → Forall job_ok jobs →
  let r := bind_tasks loop if_skip now budgets jobs in
  Forall2 same_job jobs r.1.2 ∧
  (∀ e, balance e r.2 = budget_of e budgets) ∧
  AvailableVcores.executor_id <$> b_budgets r.2
    ≡ₚ AvailableVcores.executor_id <$> budgets ∧
  Forall (recorded_by r.1.2) (b_tasks r.2) ∧
  ((r.1.1 = Ended ∧ Forall served r.1.2) ∨ (r.1.1 = NoVcores ∧ all_spent r.2)).
Proof using All.
  intros Hu Hok. cbv zeta. unfold bind_tasks.
  destruct (forallb _ budgets) eqn:Hz.
  - split_and!; simpl;
      [by apply Forall_Forall2_diag, Forall_true, same_job_refl| |done|done|].
    + intros e. unfold balance. simpl. lia.
    + right. split; [done|]. apply Forall_forall. intros a Ha.
      rewrite forallb_forall in Hz. setoid_rewrite <-list_elem_of_In in Hz.
      by apply N.eqb_eq, Hz.
  - pose proof (round_start budgets Hu Hz) as Hinv.
    set (sorted := merge_sort by_vcores budgets) in *.
    assert (sorted ≡ₚ budgets) as Hperm by apply merge_sort_Permutation.
    destruct (jobs_loop_spec jobs _ Hok Hinv) as [HF Hsp _ (new & Ht & Hr) Hex].
    split_and!; [done| | |by rewrite Ht|].
    + intros e. rewrite (sp_balance _ _ Hsp). unfold balance. simpl.
      rewrite (budget_of_perm e sorted budgets) by done. lia.
    + rewrite (sp_ids _ _ Hsp). simpl. by rewrite Hperm.
    + destruct Hex as [(? & _ & ?)|?]; auto.
Qed.

(** What a round hands out is what the tasks of the jobs hold in addition. *)
Lemma bind_tasks_held budgets jobs e :
  Forall (λ a, is_u32 (AvailableVcores.vcores a)) budgets → Forall job_ok jobs →
  let r := bind_tasks loop if_skip now budgets jobs in
  jobs_held e r.1.2 = (jobs_held e jobs + consumed_on e (b_tasks r.2))%N.
Proof using All.
  intros Hu Hok. cbv zeta. unfold bind_tasks. destruct (forallb _ budgets) eqn:Hz; [simpl; lia|].
  destruct (jobs_loop_spec jobs _ Hok (round_start budgets Hu Hz)) as [_ _ Hheld _ _].
  specialize (Hheld e). simpl in Hheld. lia.
Qed.

Lemma bind_tasks_placed budgets jobs :
  Forall (λ a, is_u32 (AvailableVcores.vcores a)) budgets → Forall job_ok jobs →
  Forall (λ t : BoundTask, t.1 ∈ AvailableVcores.executor_id <$> budgets)
    (b_tasks (bind_tasks loop if_skip now budgets jobs).2).
Proof using All.
  intros Hu Hok. unfold bind_tasks. destruct (forallb _ budgets) eqn:Hz; [by apply Forall_nil|].
  destruct (jobs_loop_spec jobs _ Hok (round_start budgets Hu Hz)) as [_ [Hids _ Hpl] _ _ _].
  ospecialize (Hpl _); [by apply Forall_nil|]. eapply Forall_impl; [exact Hpl|].
  intros t. cbn beta. rewrite Hids. simpl. by rewrite merge_sort_Permutation.
Qed.
End rounds.
End binding_facts.
