(* ===== verification/Coalesce.v ===== *)
(** * Coalescing shuffle partitions

    Models [ballista/scheduler/src/state/aqe/coalesce/algorithm.rs]: the packing
    of consecutive partitions into groups whose sizes approach a target. [u64]
    additions wrap; the comparisons are made in [f64], which is IEEE binary64
    with the specification of the standard library. *)

From S2P Require Import Prelude Machine.
From stdpp Require Import numbers.
From Stdlib Require Import SpecFloat.

(** ** The algorithm *)

(** The variables of [split_size_list_by_target_size]. *)
Record packer : Type := mkPacker {
  starts : list nat;
  current : N;
  last_size : option N;
}.

(** [Vec::pop] *)
Definition pop (l : list nat) : list nat := removelast l.

Section pack.
Context (target : N) (small_factor merged_factor : f64).

Definition should_merge (current : N) (last : option N) : bool :=
  match last with
  | None => false
  | Some l =>
      let combined := f64_of_u64 (u64_add current l) in
      let curr_f := f64_of_u64 current in
      let last_f := f64_of_u64 l in
      let target_f := f64_of_u64 target in
      f64_ltb combined (f64_mul target_f merged_factor)
      || f64_ltb curr_f (f64_mul target_f small_factor)
      || f64_ltb last_f (f64_mul target_f small_factor)
  end.

Definition try_merge_partitions (st : packer) : packer :=
  if should_merge (current st) (last_size st) then
    mkPacker (pop (starts st)) (current st)
      (Some (u64_add (default 0%N (last_size st)) (current st)))
  else mkPacker (starts st) (current st) (Some (current st)).

(** The body of the loop, for the partition [i] of size [size] *)
Definition pack_one (st : packer) (i : nat) (size : N) : packer :=
  if (0 <? i) && (target <? u64_add (current st) size)%N then
    let st := try_merge_partitions st in
    mkPacker (starts st ++ [i]) size (last_size st)
  else mkPacker (starts st) (u64_add (current st) size) (last_size st).

Fixpoint pack_from (i : nat) (sizes : list N) (st : packer) : packer :=
  match sizes with
  | [] => st
  | size :: sizes' => pack_from (S i) sizes' (pack_one st i size)
  end.

Definition split_size_list_by_target_size (sizes : list N) : list nat :=
  starts (try_merge_partitions (pack_from 0 sizes (mkPacker [0] 0 None))).
End pack.

(** [PartitionGroup] *)
Record PartitionGroup : Type := mkPartitionGroup { upstream_indices : list nat }.

(** [i as u32] *)
Definition index_u32 (i : nat) : nat := N.to_nat (N.of_nat i `mod` 2 ^ 32).

Definition start_indices_to_partition_groups (starts : list nat) (n : nat)
  : list PartitionGroup :=
  imap (λ k start,
    let end_ := default n (starts !! S k) in
    mkPartitionGroup (index_u32 <$> seq start (end_ - start))) starts.

(** ** Groups are consecutive ranges *)

Lemma index_u32_id i : (N.of_nat i < 2 ^ 32)%N → index_u32 i = i.
Proof. intros Hi. unfold index_u32. rewrite N.mod_small by done. lia. Qed.

(** Increasing starts cut the range from the first one up to [n] into pieces. *)
Lemma groups_concat a l n :
  (∀ k x y, (a :: l) !! k = Some x → (a :: l) !! S k = Some y → x ≤ y) →
  Forall (λ x, x ≤ n) (a :: l) →
  concat (upstream_indices <$> start_indices_to_partition_groups (a :: l) n)
    = index_u32 <$> seq a (n - a).
Proof.
  revert a. induction l as [|b l IH]; intros a Hs Hn.
  { unfold start_indices_to_partition_groups. simpl. by rewrite app_nil_r. }
  assert (start_indices_to_partition_groups (a :: b :: l) n
    = mkPartitionGroup (index_u32 <$> seq a (b - a))
        :: start_indices_to_partition_groups (b :: l) n) as -> by done.
  apply Forall_cons_1 in Hn as [Ha Hn]. pose proof (Forall_inv Hn) as Hb. simpl in Hb.
  assert (a ≤ b) by (by apply (Hs 0)).
  rewrite fmap_cons. cbn [concat upstream_indices].
  rewrite (IH b); [| |done].
  - rewrite <-fmap_app. f_equal. replace (n - a) with ((b - a) + (n - b)) by lia.
    rewrite seq_app. by replace (a + (b - a)) with b by lia.
  - intros k x y Hx Hy. by apply (Hs (S k)).
Qed.

(** ** The invariant of the loop *)

Fixpoint sum_sizes (l : list N) : N :=
  match l with [] => 0 | x :: l' => x + sum_sizes l' end%N.

(** The bytes of the partitions from [a] up to [b]. *)
Definition range_sum (sizes : list N) (a b : nat) : N :=
  sum_sizes (take (b - a) (drop a sizes)).

Lemma sum_sizes_app l1 l2 : sum_sizes (l1 ++ l2) = (sum_sizes l1 + sum_sizes l2)%N.
Proof. induction l1 as [|x l1 IH]; simpl; [done|]. rewrite IH. lia. Qed.

Lemma range_sum_split sizes a b c :
  a ≤ b → b ≤ c → range_sum sizes a c = (range_sum sizes a b + range_sum sizes b c)%N.
Proof.
  intros Hab Hbc. unfold range_sum.
  replace (c - a) with ((b - a) + (c - b)) by lia.
  rewrite <-take_take_drop, sum_sizes_app, drop_drop.
  by replace (a + (b - a)) with b by lia.
Qed.

Lemma range_sum_one sizes i x : sizes !! i = Some x → range_sum sizes i (S i) = x.
Proof.
  intros Hx. unfold range_sum. replace (S i - i) with 1 by lia.
  rewrite (drop_S _ _ _ Hx). simpl. lia.
Qed.

Lemma range_sum_le sizes a b : (range_sum sizes a b ≤ sum_sizes sizes)%N.
Proof.
  unfold range_sum. rewrite <-(take_drop a sizes) at 2.
  rewrite <-(take_drop (b - a) (drop a sizes)) at 2. rewrite !sum_sizes_app. lia.
Qed.

Section pack_facts.
Context (target : N) (small_factor merged_factor : f64) (sizes : list N).
Context (no_overflow : (sum_sizes sizes < 2 ^ 64)%N).
Set Default Proof Using "Type*".
Abbreviation sum := (range_sum sizes).

(** Two starts in a row: the second one opens a new group because its first
    partition does not fit into the group of the first one. *)
Definition boundary (a b : nat) : Prop :=
  a < b ∧ ∀ x, sizes !! b = Some x → (target < sum a b + x)%N.

Definition chained (l : list nat) : Prop :=
  ∀ k a b, l !! k = Some a → l !! S k = Some b → boundary a b.

Lemma chained_app_l l1 l2 : chained (l1 ++ l2) → chained l1.
Proof.
  intros Hc k a b Ha Hb. apply (Hc k); by apply lookup_app_l_Some.
Qed.

Lemma chained_snoc l a b : chained (l ++ [a]) → boundary a b → chained ((l ++ [a]) ++ [b]).
Proof.
  intros Hc Hab k x y Hx Hy.
  apply lookup_app_Some in Hy as [Hy|[Hlen Hy]].
  - apply (Hc k); [|done]. apply lookup_lt_Some in Hy.
    rewrite lookup_app_l in Hx by lia. done.
  - rewrite length_app in Hlen, Hy. simpl in *.
    assert (S k = length l + 1) as Hk.
    { apply list_lookup_singleton_Some in Hy as [? _]. lia. }
    rewrite lookup_app_l in Hx by (rewrite length_app; simpl; lia).
    replace k with (length l) in Hx by lia. rewrite list_lookup_middle in Hx by done.
    apply list_lookup_singleton_Some in Hy as [_ <-]. by simplify_eq.
Qed.

(** The state before partition [i]: [pre] and [a] are the starts, [current]
    counts the open group and [last_size] the one before it. *)
Record packed (i : nat) (st : packer) (pre : list nat) (a : nat) : Prop := {
  pk_starts : starts st = pre ++ [a];
  pk_first : starts st !! 0 = Some 0;
  pk_chain : chained (starts st);
  pk_open : a < i ∨ (i = 0 ∧ starts st = [0]);
  pk_current : current st = sum a i;
  pk_last : match last_size st with
            | None => pre = []
            | Some l => ∃ pre' a', pre = pre' ++ [a'] ∧ l = sum a' a
            end;
}.

Lemma packed_init : packed 0 (mkPacker [0] 0 None) [] 0.
Proof.
  split; simpl; [done|done| |by right|done|done].
  intros [|k] x y; simpl; [|done]. done.
Qed.

(** The state between the merge and the push: [a] starts the last group, which
    counts [l] bytes. *)
Record merged (i : nat) (st : packer) (pre : list nat) (a : nat) (l : N) : Prop := {
  mg_starts : starts st = pre ++ [a];
  mg_first : starts st !! 0 = Some 0;
  mg_chain : chained (starts st);
  mg_open : a < i ∨ (i = 0 ∧ starts st = [0]);
  mg_last : last_size st = Some l;
  mg_sum : l = sum a i;
}.

Lemma try_merge_merged i st pre a :
  packed i st pre a →
  ∃ pre' a' l, merged i (try_merge_partitions target small_factor merged_factor st) pre' a' l ∧
    (current st ≤ l)%N ∧ (last_size st = None → pre' = pre ∧ a' = a).
Proof.
  intros [Hst Hf Hc Ho Hcur Hl]. unfold try_merge_partitions.
  destruct (should_merge _ _ _ (current st) (last_size st)) eqn:Hm.
  - destruct (last_size st) as [l|]; [|done].
    destruct Hl as (pre' & a' & -> & ->). destruct Ho as [Ho|[_ Ho]].
    2:{ rewrite Ho in Hst. apply (f_equal length) in Hst. rewrite !length_app in Hst.
        simpl in Hst. lia. }
    assert (boundary a' a) as [Haa _].
    { apply (Hc (length pre')); rewrite Hst, <-app_assoc; simpl.
      - by apply list_lookup_middle.
      - rewrite lookup_app_r by lia. by replace (S (length pre') - length pre') with 1 by lia. }
    exists pre', a', (sum a' i). split_and!; [|rewrite Hcur|done].
    + unfold pop. rewrite Hst, removelast_last. split; simpl; [done| | |left; lia| |done].
      * rewrite Hst in Hf. destruct pre'; simpl in *; done.
      * rewrite Hst in Hc. by apply chained_app_l in Hc.
      * f_equal. rewrite Hcur, u64_add_exact.
        -- symmetry. apply range_sum_split; lia.
        -- rewrite <-range_sum_split by lia. pose proof (range_sum_le sizes a' i). lia.
    + rewrite (range_sum_split _ a' a i) by lia. lia.
  - exists pre, a, (current st). split_and!; [|done|done]. by split.
Qed.

Abbreviation pack_one' := (pack_one target small_factor merged_factor).
Abbreviation pack_from' := (pack_from target small_factor merged_factor).

Lemma pack_one_packed i st pre a x :
  packed i st pre a → sizes !! i = Some x →
  ∃ pre' a', packed (S i) (pack_one' st i x) pre' a'.
Proof.
  intros Hp Hx. pose proof Hp as [Hst Hf Hc Ho Hcur Hl].
  assert (a ≤ i) as Hai.
  { destruct Ho as [?|[-> Ho]]; [lia|]. rewrite Ho in Hst.
    destruct pre as [|? [|? ?]]; simplify_eq/=. lia. }
  assert (u64_add (current st) x = sum a (S i)) as Hadd.
  { rewrite Hcur, u64_add_exact; rewrite <-(range_sum_one _ _ _ Hx).
    - symmetry. apply range_sum_split; lia.
    - rewrite <-range_sum_split by lia. pose proof (range_sum_le sizes a (S i)). lia. }
  unfold pack_one. destruct (_ && _) eqn:Hflush.
  - apply andb_true_iff in Hflush as [Hi%Nat.ltb_lt Ht%N.ltb_lt].
    destruct (try_merge_merged i st pre a Hp) as (pre' & a' & l & [Hst' Hf' Hc' Ho' Hl' Hs] & Hle & _).
    destruct Ho' as [Ho'|[? _]]; [|lia].
    exists (pre' ++ [a']), i. split; cbn [starts current last_size].
    + by rewrite Hst'.
    + by apply lookup_app_l_Some.
    + rewrite Hst'. apply chained_snoc; [by rewrite <-Hst'|]. split; [done|].
      intros x' Hx'. simplify_eq. rewrite Hadd in Ht.
      rewrite (range_sum_split _ a i (S i)), (range_sum_one _ _ _ Hx) in Ht by lia. lia.
    + left. lia.
    + symmetry. by apply range_sum_one.
    + rewrite Hl'. eauto.
  - exists pre, a. split; cbn [starts current last_size]; try done.
    left. lia.
Qed.

Lemma pack_from_packed i rest st pre a :
  packed i st pre a → drop i sizes = rest →
  ∃ pre' a', packed (i + length rest) (pack_from' i rest st) pre' a'.
Proof.
  revert i st pre a. induction rest as [|x rest IH]; intros i st pre a Hp Hd; simpl.
  { exists pre, a. by rewrite Nat.add_0_r. }
  assert (sizes !! i = Some x) as Hx.
  { replace i with (i + 0) by lia. rewrite <-lookup_drop, Hd. done. }
  destruct (pack_one_packed i st pre a x Hp Hx) as (pre' & a' & Hp').
  rewrite Nat.add_succ_r. apply (IH (S i) _ pre' a' Hp').
  replace (S i) with (i + 1) by lia. rewrite <-drop_drop, Hd. done.
Qed.

Abbreviation result :=
  (split_size_list_by_target_size target small_factor merged_factor sizes).

(** What holds of the starts in the end. *)
Lemma split_merged :
  ∃ pre a, result = pre ++ [a] ∧ result !! 0 = Some 0 ∧ chained result ∧
           (a < length sizes ∨ (sizes = [] ∧ result = [0])).
Proof.
  unfold split_size_list_by_target_size.
  destruct (pack_from_packed 0 sizes _ _ _ packed_init eq_refl) as (pre & a & Hp).
  destruct (try_merge_merged _ _ _ _ Hp) as (pre' & a' & l & [Hst Hf Hc Ho _ _] & _).
  exists pre', a'. split_and!; [done..|]. destruct Ho as [?|[Hn Ho]]; [by left|right].
  split; [|done]. by destruct sizes.
Qed.

Lemma chained_le_last pre a x : chained (pre ++ [a]) → x ∈ pre ++ [a] → x ≤ a.
Proof.
  intros Hc [k Hk]%list_elem_of_lookup.
  remember (length pre - k) as d eqn:Hd. revert k x Hk Hd.
  induction d as [|d IH]; intros k x Hk Hd.
  - assert (k = length pre) as ->.
    { apply lookup_lt_Some in Hk. rewrite length_app in Hk. simpl in Hk. lia. }
    rewrite list_lookup_middle in Hk by done. simplify_eq. lia.
  - assert (S k < length (pre ++ [a])) as Hlt by (rewrite length_app; simpl; lia).
    destruct (lookup_lt_is_Some_2 _ _ Hlt) as [y Hy].
    destruct (Hc k x y Hk Hy) as [? _]. pose proof (IH (S k) y Hy ltac:(lia)). lia.
Qed.

Lemma split_starts :
  result !! 0 = Some 0 ∧ chained result ∧
  (∀ x, x ∈ result → x < length sizes ∨ (sizes = [] ∧ result = [0])).
Proof.
  destruct split_merged as (pre & a & Heq & Hf & Hc & Ho). split_and!; [done..|].
  intros x Hx. destruct Ho as [Ho|?]; [left|by right]. rewrite Heq in Hc, Hx.
  pose proof (chained_le_last pre a x Hc Hx). lia.
Qed.

(** The groups list every partition once, in order. *)
Lemma split_groups :
  (N.of_nat (length sizes) ≤ 2 ^ 32)%N →
  concat (upstream_indices <$> start_indices_to_partition_groups result (length sizes))
    = seq 0 (length sizes).
Proof.
  intros Hn. destruct split_starts as (Hf & Hc & Hin).
  destruct result as [|a l] eqn:Hr; [done|]. simpl in Hf. simplify_eq.
  rewrite groups_concat.
  - rewrite Nat.sub_0_r. rewrite <-(list_fmap_id (seq 0 (length sizes))) at 2.
    apply list_fmap_ext. intros i x Hx. apply lookup_seq in Hx as [-> ?].
    apply index_u32_id. unfold id. lia.
  - intros k x y Hx Hy. destruct (Hc k x y Hx Hy) as [? _]. lia.
  - apply Forall_forall. intros x Hx%list_elem_of_In.
    destruct (Hin x Hx) as [?|[_ Heq]]; [lia|].
    injection Heq as ->. apply list_elem_of_singleton in Hx as ->. lia.
Qed.

(** Sizes that fit into the target together make one group. *)
Lemma split_fits : (sum_sizes sizes ≤ target)%N → result = [0].
Proof.
  intros Hle. destruct split_starts as (Hf & Hc & Hin).
  destruct result as [|a [|b l]] eqn:Hr; [done|by simplify_eq/=|].
  destruct (Hc 0 a b eq_refl eq_refl) as [Hab Hb].
  destruct (Hin b) as [Hlt|[_ ?]]; [by right; left| |done].
  destruct (lookup_lt_is_Some_2 _ _ Hlt) as [x Hx]. specialize (Hb x Hx).
  rewrite <-(range_sum_one _ _ _ Hx), <-range_sum_split in Hb by lia.
  pose proof (range_sum_le sizes a (S b)). lia.
Qed.
End pack_facts.

(** ** The packing as a whole *)

(** The groups that the packing produces are consecutive ranges that
    together list every upstream partition exactly once and in order, for any
    sizes, target and factors within the widths of the integers used. *)
Theorem groups_partition_the_input target small_factor merged_factor sizes :
  (sum_sizes sizes < 2 ^ 64)%N → (N.of_nat (length sizes) ≤ 2 ^ 32)%N →
  concat (upstream_indices <$> start_indices_to_partition_groups
    (split_size_list_by_target_size target small_factor merged_factor sizes) (length sizes))
    = seq 0 (length sizes).
Proof. intros. by apply split_groups. Qed.

(** The first group starts at the first partition, and a group is only
    closed before a partition that would have pushed it past the target; input
    that fits the target as a whole is a single group. *)
Theorem groups_close_only_when_full target small_factor merged_factor sizes :
  (sum_sizes sizes < 2 ^ 64)%N →
  let starts := split_size_list_by_target_size target small_factor merged_factor sizes in
  starts !! 0 = Some 0 ∧
  (∀ k a b, starts !! k = Some a → starts !! S k = Some b →
     a < b ∧ ∃ x, sizes !! b = Some x ∧ (target < range_sum sizes a b + x)%N) ∧
  ((sum_sizes sizes ≤ target)%N → starts = [0]).
Proof.
  intros Hno. cbv zeta.
  destruct (split_starts target small_factor merged_factor sizes Hno) as (Hf & Hc & Hin).
  split_and!; [done| |by apply split_fits].
  intros k a b Ha Hb. destruct (Hc k a b Ha Hb) as [Hab Hx]. split; [done|].
  destruct (Hin b) as [Hlt|[_ Heq]]; [by eapply list_elem_of_lookup_2| |].
  - destruct (lookup_lt_is_Some_2 _ _ Hlt) as [x Hx']. eauto.
  - rewrite Heq in Hb. by destruct k.
Qed.

(** The sizes of the unit test with an alternating pattern, at the default
    factors 0.2 and 1.2. *)
Definition small_default : f64 := S754_finite false 7205759403792794 (-55).
Definition merged_default : f64 := S754_finite false 5404319552844595 (-52).

Lemma groups_partition_the_input_witness :
  split_size_list_by_target_size 1024 small_default merged_default [800; 100; 800; 100]%N
    = [0; 2] ∧
  concat (upstream_indices <$> start_indices_to_partition_groups
    (split_size_list_by_target_size 1024 small_default merged_default [800; 100; 800; 100]%N) 4)
    = [0; 1; 2; 3].
Proof.
  split; [by vm_compute|].
  by apply (groups_partition_the_input 1024 small_default merged_default [800; 100; 800; 100]%N).
Defined.

Lemma groups_close_only_when_full_witness :
  let sizes := [800; 100; 800; 100]%N in
  let starts := split_size_list_by_target_size 1024 small_default merged_default sizes in
  starts !! 0 = Some 0 ∧
  (∀ k a b, starts !! k = Some a → starts !! S k = Some b →
     a < b ∧ ∃ x, sizes !! b = Some x ∧ (1024 < range_sum sizes a b + x)%N) ∧
  ((sum_sizes sizes ≤ 1024)%N → starts = [0]).
Proof.
  by apply (groups_close_only_when_full 1024 small_default merged_default [800; 100; 800; 100]%N).
Defined.
