(* ===== verification/Kll.v ===== *)
(** * The KLL quantile sketch

    Models [KllSketch] of [ballista/core/src/kll.rs]: a stack of compactors, in
    which an item of level [h] stands for [2^h] items of the stream.

    Items are of any type with a total order ([Ord]), and the generator of coin
    flips is a parameter ([Coins]). A computation that panics is [Panic]; the
    error type [E] is that of the caller. [compact_all] and the loops over slices
    carry a bound on their number of rounds, which is never reached (see
    [KllTheorems]). *)

From S2P Require Import Prelude Machine.

(** The contract of [Ord]: a total order in which equal items are the same. *)
Class Ord (T : Type) : Type := {
  leb : T → T → bool;
  leb_trans x y z : leb x y = true → leb y z = true → leb x z = true;
  leb_total x y : leb x y = true ∨ leb y x = true;
  leb_antisym x y : leb x y = true → leb y x = true → x = y;
}.

(** [u64] *)
#[export] Instance N_ord : Ord N.
Proof.
  refine {| leb := N.leb |}.
  - intros x y z. rewrite !N.leb_le. lia.
  - intros x y. rewrite !N.leb_le. lia.
  - intros x y. rewrite !N.leb_le. lia.
Defined.

Definition ltb `{Ord T} (x y : T) : bool := negb (leb y x).

(** The generator of coin flips *)
Class Coins : Type := {
  StdRng : Type;
  random_bool : StdRng → bool * StdRng;
}.

(** ** Vectors and sorting *)

Definition index {E A : Type} (l : list A) (i : nat) : outcome E A :=
  match l !! i with Some x => Ok x | None => Panic end.

(** [l[i] = f(l[i])] *)
Definition update_at {E A : Type} (f : A → A) (i : nat) (l : list A) : outcome E (list A) :=
  let? x := index l i in Ok (<[i := f x]> l).

(** A stable sort *)
Fixpoint insert_by {A : Type} (le : A → A → bool) (x : A) (l : list A) : list A :=
  match l with
  | [] => [x]
  | y :: l' => if le x y then x :: l else y :: insert_by le x l'
  end.
Definition sort_by {A : Type} (le : A → A → bool) (l : list A) : list A :=
  foldr (insert_by le) [] l.

(** [xs.is_sorted()] *)
Fixpoint is_sorted `{Ord T} (xs : list T) : bool :=
  match xs with
  | x :: (y :: _) as xs' => leb x y && is_sorted xs'
  | _ => true
  end.

Fixpoint merge_sorted `{Ord T} (a : list T) : list T → list T :=
  fix go b :=
    match a, b with
    | [], _ => b
    | _, [] => a
    | x :: a', y :: b' => if leb x y then x :: merge_sorted a' b else y :: go b'
    end.

(** The items at even positions, or at odd positions *)
Fixpoint every_other {A : Type} (keep : bool) (l : list A) : list A :=
  match l with
  | [] => []
  | x :: l' => if keep then x :: every_other false l' else every_other true l'
  end.

(** ** Capacities *)

Definition MIN_LEVEL_WIDTH : N := 8.

Definition level_capacity {E : Type} (k : N) (num_levels height : nat) : outcome E N :=
  let depth := num_levels - height - 1 in
  let two_k := u64_mul 2 k in
  if 64 <=? depth then Panic
  else
    let numer := u64_wrap (N.shiftl two_k (N.of_nat depth)) in
    let denom := u64_wrap (3 ^ N.of_nat depth) in
    let raw := N.shiftr (u64_add (numer / denom) 1) 1 in
    Ok (raw `max` MIN_LEVEL_WIDTH)%N.

(** ** The sketch *)
Module KllSketch.
Record t (T : Type) `{Coins} : Type := mk {
  levels : list (list T);
  sorted : list bool;
  k : N;
  rng : StdRng;
  min : option T;
  max : option T;
}.
Arguments mk {T _} levels sorted k rng min max.
Arguments levels {T _} t.
Arguments sorted {T _} t.
Arguments k {T _} t.
Arguments rng {T _} t.
Arguments min {T _} t.
Arguments max {T _} t.

Section impl.
Context {E T : Type} `{!Ord T} `{Coins}.
Implicit Types (self : t T) (xs : list T).

Definition set_levels (ls : list (list T)) (flags : list bool) self : t T :=
  mk ls flags (k self) (rng self) (min self) (max self).
Definition set_rng (r : StdRng) self : t T :=
  mk (levels self) (sorted self) (k self) r (min self) (max self).
Definition set_extremes (lo hi : option T) self : t T :=
  mk (levels self) (sorted self) (k self) (rng self) lo hi.

(** [with_seed]; [new] takes the generator from the operating system. *)
Definition with_rng (k : N) (r : StdRng) : t T := mk [[]] [true] k r None None.

(** [clone], with the fresh generator of the copy *)
Definition clone (r : StdRng) self : t T := set_rng r self.

Definition capacity (height : nat) self : outcome E N :=
  level_capacity (k self) (length (levels self)) height.

(** *** Compaction *)

Definition sort (l : list T) : list T := sort_by leb l.

(** Add an empty level on top if there is none at [h]. *)
Definition grow (h : nat) (ls : list (list T)) (flags : list bool)
  : list (list T) * list bool :=
  if h =? length ls then (ls ++ [[]], flags ++ [true]) else (ls, flags).

Definition compact_level (h : nat) self : outcome E (t T) :=
  let? level := index (levels self) h in
  if length level <? 2 then Ok self
  else
    let? ordered := index (sorted self) h in
    let buf := if ordered then level else sort level in
    let '(leftover, buf) :=
      if Nat.odd (length level) then (head buf, tail buf) else (None, buf) in
    let '(start, r) := random_bool (rng self) in
    let promoted := every_other (negb start) buf in
    let '(ls, flags) := grow (S h) (<[h := []]> (levels self)) (<[h := true]> (sorted self)) in
    let? dest := index ls (S h) in
    let? dest_ordered := index flags (S h) in
    let ls := <[S h := if (dest_ordered : bool) then merge_sorted dest promoted
                       else dest ++ promoted]> ls in
    let ls := match leftover with Some x => alter (λ l, l ++ [x]) h ls | None => ls end in
    Ok (set_rng r (set_levels ls flags self)).

(** The lowest level that is full *)
Fixpoint find_full (k : N) (num_levels h : nat) (ls : list (list T)) : outcome E (option nat) :=
  match ls with
  | [] => Ok None
  | l :: ls' =>
      let? cap := level_capacity k num_levels h in
      if (cap <=? N.of_nat (length l))%N then Ok (Some h) else find_full k num_levels (S h) ls'
  end.

Fixpoint compact_loop (fuel : nat) self : outcome E (t T) :=
  match fuel with
  | 0 => Panic
  | S fuel' =>
      let? target := find_full (k self) (length (levels self)) 0 (levels self) in
      match target with
      | None => Ok self
      | Some h => let? self := compact_level h self in compact_loop fuel' self
      end
  end.

Definition retained self : nat := length (concat (levels self)).

(** Every round of the loop drops an item. *)
Definition compact_all self : outcome E (t T) := compact_loop (S (retained self)) self.

(** *** Ingest *)

Definition new_min (x : T) (m : option T) : option T :=
  match m with Some y => if ltb x y then Some x else Some y | None => Some x end.
Definition new_max (x : T) (m : option T) : option T :=
  match m with Some y => if ltb y x then Some x else Some y | None => Some x end.

(** The extremes, and the push to level 0, of one item *)
Definition push (x : T) self : outcome E (t T) :=
  let self := set_extremes (new_min x (min self)) (new_max x (max self)) self in
  let? ls := update_at (λ l, l ++ [x]) 0 (levels self) in
  let? flags := update_at (λ _, false) 0 (sorted self) in
  Ok (set_levels ls flags self).

Definition insert (x : T) self : outcome E (t T) :=
  let? self := push x self in compact_all self.

Fixpoint absorb_loop xs (level_0_cap : N) self : outcome E (t T) :=
  match xs with
  | [] => Ok self
  | x :: xs' =>
      let? self := push x self in
      let? level := index (levels self) 0 in
      if (level_0_cap <=? N.of_nat (length level))%N then
        let? self := compact_all self in
        let? cap := capacity 0 self in
        absorb_loop xs' cap self
      else absorb_loop xs' level_0_cap self
  end.

Definition absorb xs self : outcome E (t T) :=
  let? cap := capacity 0 self in absorb_loop xs cap self.

(** The least and the greatest item of [x :: xs], the first of each *)
Definition batch_extremes (x : T) xs : T * T :=
  foldl (λ acc y, (if ltb y acc.1 then y else acc.1, if ltb acc.2 y then y else acc.2))
    (x, x) xs.

(** The loop over the chunks of a slice: [add] puts a chunk into level 0, and
    [flag] is what becomes of its order. *)
Fixpoint chunk_loop (add : list T → list T → list T) (flag : bool → bool) (fuel : nat) xs self
  : outcome E (t T) :=
  match xs with
  | [] => Ok self
  | _ =>
      match fuel with
      | 0 => Panic
      | S fuel' =>
          let? cap := capacity 0 self in
          let? level := index (levels self) 0 in
          let room := (cap - N.of_nat (length level))%N in
          let take_n := N.to_nat (N.of_nat (length xs) `min` room)%N in
          let? ls := update_at (λ l, add l (take take_n xs)) 0 (levels self) in
          let? flags := update_at flag 0 (sorted self) in
          let self := set_levels ls flags self in
          let? level := index (levels self) 0 in
          let? self :=
            if (cap <=? N.of_nat (length level))%N then compact_all self else Ok self in
          chunk_loop add flag fuel' (drop take_n xs) self
      end
  end.

(** A chunk is empty at most once. *)
Definition chunk_rounds xs : nat := S (S (length xs)).

Definition absorb_slice xs self : outcome E (t T) :=
  match xs with
  | [] => Ok self
  | x :: xs' =>
      let '(lo, hi) := batch_extremes x xs' in
      chunk_loop (λ l chunk, l ++ chunk) (λ _, false) (chunk_rounds xs) xs
        (set_extremes (new_min lo (min self)) (new_max hi (max self)) self)
  end.

Definition absorb_sorted_slice xs self : outcome E (t T) :=
  match xs with
  | [] => Ok self
  | x :: xs' =>
      if negb (is_sorted xs) then absorb_slice xs self
      else
        let self := set_extremes (new_min x (min self))
                      (new_max (default x (last xs)) (max self)) self in
        let? ordered := index (sorted self) 0 in
        let? self :=
          if (ordered : bool) then Ok self
          else
            let? ls := update_at sort 0 (levels self) in
            let? flags := update_at (λ _, true) 0 (sorted self) in
            Ok (set_levels ls flags self) in
        chunk_loop merge_sorted id (chunk_rounds xs) xs self
  end.

(** *** Merging and rebuilding *)

(** Extend the levels of the same height, growing the stack as needed. *)
Fixpoint extend_levels (ls : list (list T)) (flags : list bool) (other : list (list T))
  : list (list T) * list bool :=
  match other with
  | [] => (ls, flags)
  | level :: other' =>
      let rest := extend_levels (tail ls) (tail flags) other' in
      let mine := default [] (head ls) in
      let flag := default true (head flags) in
      match level with
      | [] => (mine :: rest.1, flag :: rest.2)
      | _ => ((mine ++ level) :: rest.1, false :: rest.2)
      end
  end.

Definition merge_min (a b : option T) : option T :=
  match a, b with
  | Some x, Some y => Some (if leb x y then x else y)
  | Some x, None => Some x
  | None, b => b
  end.
Definition merge_max (a b : option T) : option T :=
  match a, b with
  | Some x, Some y => Some (if leb y x then x else y)
  | Some x, None => Some x
  | None, b => b
  end.

(** The sketches share their [k]. *)
Definition merge (other : t T) self : outcome E (t T) :=
  let self := set_extremes (merge_min (min self) (min other)) (merge_max (max self) (max other))
                self in
  let '(ls, flags) := extend_levels (levels self) (sorted self) (levels other) in
  compact_all (set_levels ls flags self).

(** Whether no level holds more than its capacity *)
Fixpoint levels_fit (k : N) (num_levels h : nat) (ls : list (list T)) : outcome E bool :=
  match ls with
  | [] => Ok true
  | l :: ls' =>
      let? cap := level_capacity k num_levels h in
      if (cap <? N.of_nat (length l))%N then Ok false else levels_fit k num_levels (S h) ls'
  end.

Definition from_parts (k : N) (ls : list (list T)) (lo hi : option T) (r : StdRng)
  : outcome E (option (t T)) :=
  if bool_decide (ls = []) || (k <? MIN_LEVEL_WIDTH)%N then Ok None
  else
    let? fit := levels_fit k (length ls) 0 ls in
    if fit then Ok (Some (mk (sort <$> ls) (replicate (length ls) true) k r lo hi))
    else Ok None.

(** *** Queries *)

(** The sum over the levels of [2^h] times a count *)
Definition weighted (f : list T → nat) self : N :=
  foldl u64_add 0%N (imap (λ h l, u64_mul (u64_shl1 h) (N.of_nat (f l))) (levels self)).

Definition count self : N := weighted length self.

(** The items below [x] *)
Definition below (x : T) (l : list T) : list T := filter (λ y, ltb y x = true) l.

Definition rank (x : T) self : N := weighted (λ l, length (below x l)) self.

(** The retained items with the weights of their levels, in ascending order *)
Definition pairs self : list (T * N) :=
  sort_by (λ p q, leb p.1 q.1) (concat (imap (λ h l, (λ x, (x, u64_shl1 h)) <$> l) (levels self))).

(** The walk over the pairs: what is left of them, the weight of those that were
    consumed, and the last of them *)
Record cursor : Type := mkCursor {
  remaining : list (T * N);
  cumulative : N;
  current : option T;
}.

Fixpoint sweep (r : N) (rest : list (T * N)) (w : N) (cur : option T) : outcome E cursor :=
  if (w <? r)%N then
    match rest with
    | [] => Panic
    | (item, weight) :: rest' => sweep r rest' (u64_add w weight) (Some item)
    end
  else Ok (mkCursor rest w cur).

(** The answer for the rank of one slot *)
Definition answer_slot (self : t T) (total : N) (ranks : list N)
    (acc : cursor * list (option T)) (slot : nat) : outcome E (cursor * list (option T)) :=
  let? r := index ranks slot in
  if (r =? 0)%N then Ok (acc.1, <[slot := min self]> acc.2)
  else if (total <=? r)%N then Ok (acc.1, <[slot := max self]> acc.2)
  else
    let? c := sweep r (remaining acc.1) (cumulative acc.1) (current acc.1) in
    Ok (c, <[slot := current c]> acc.2).

Fixpoint answer_slots (self : t T) (total : N) (ranks : list N) (slots : list nat)
    (acc : cursor * list (option T)) : outcome E (cursor * list (option T)) :=
  match slots with
  | [] => Ok acc
  | slot :: slots' =>
      let? acc := answer_slot self total ranks acc slot in
      answer_slots self total ranks slots' acc
  end.

(** The slots by ascending rank *)
Definition slots_by_rank (ranks : list N) : list nat :=
  sort_by (λ i j, (default 0 (ranks !! i) <=? default 0 (ranks !! j))%N) (seq 0 (length ranks)).

Definition at_ranks (ranks : list N) self : outcome E (list (option T)) :=
  let answers := replicate (length ranks) None in
  let total := count self in
  if (total =? 0)%N then Ok answers
  else
    let? acc := answer_slots self total ranks (slots_by_rank ranks)
                  (mkCursor (pairs self) 0 None, answers) in
    Ok acc.2.

Definition at_rank (r : N) self : outcome E (option T) :=
  let? answers := at_ranks [r] self in Ok (default None (head answers)).

Definition quantile (q : f64) self : outcome E (option T) :=
  let q := f64_clamp01 q in
  if f64_eqb q f64_zero then Ok (min self)
  else if f64_eqb q f64_one then Ok (max self)
  else
    let total := count self in
    if (total =? 0)%N then Ok None
    else at_rank (u64_of_f64 (f64_mul q (f64_of_u64 total))) self.
End impl.
End KllSketch.
