(* ===== verification/KllFacts.v ===== *)
(** * Facts about the KLL sketch

    Sorting and halving, the weights of the levels, what a compaction does to
    them, and the termination of [compact_all]. *)

From S2P Require Import Prelude Machine Kll.
Import KllSketch.

(** ** Sorting *)

Section sorting.
Context {A : Type} (le : A → A → bool).

Lemma insert_by_perm x l : insert_by le x l ≡ₚ x :: l.
Proof.
  induction l as [|y l IH]; simpl; [done|]. destruct (le x y); [done|].
  rewrite IH. apply Permutation_swap.
Qed.

Lemma sort_by_perm l : sort_by le l ≡ₚ l.
Proof.
  induction l as [|x l IH]; simpl; [done|]. by rewrite insert_by_perm, IH.
Qed.

Hypothesis trans : ∀ x y z, le x y = true → le y z = true → le x z = true.
Hypothesis total : ∀ x y, le x y = true ∨ le y x = true.

Lemma insert_by_sorted x l :
  StronglySorted (λ a b, le a b = true) l →
  StronglySorted (λ a b, le a b = true) (insert_by le x l).
Proof using All.
  induction l as [|y l IH]; intros Hl; simpl; [by repeat constructor|].
  apply StronglySorted_inv in Hl as [Hl Hy]. destruct (le x y) eqn:Hxy.
  - constructor; [by constructor|]. constructor; [done|].
    eapply Forall_impl; [done|]. intros z Hz. by eapply trans.
  - constructor; [by apply IH|]. rewrite insert_by_perm. constructor; [|done].
    destruct (total x y); congruence.
Qed.

Lemma sort_by_sorted l : StronglySorted (λ a b, le a b = true) (sort_by le l).
Proof using All. induction l; simpl; [constructor|by apply insert_by_sorted]. Qed.
End sorting.

(** ** Halving *)

Section halving.
Context {A : Type}.
Implicit Types (l : list A).

Lemma every_other_perm b l : every_other b l ++ every_other (negb b) l ≡ₚ l.
Proof.
  revert b. induction l as [|x l IH]; intros b; [done|]. destruct b; simpl.
  - by rewrite (IH false).
  - rewrite <-Permutation_middle. apply Permutation_skip, (IH true).
Qed.

Lemma every_other_length b l :
  length (every_other b l) = if b then S (length l) / 2 else length l / 2.
Proof.
  revert b. induction l as [|x l IH]; intros b; [by destruct b|].
  destruct b; cbn [every_other length]; rewrite IH.
  - replace (S (S (length l))) with (length l + 1 * 2) by lia.
    rewrite Nat.div_add by lia. lia.
  - done.
Qed.

Lemma every_other_elem b l x : x ∈ every_other b l → x ∈ l.
Proof. intros Hx. rewrite <-(every_other_perm b l), elem_of_app. by left. Qed.

Lemma every_other_sorted (R : relation A) b l :
  StronglySorted R l → StronglySorted R (every_other b l).
Proof.
  revert b. induction l as [|x l IH]; intros b Hl; [done|].
  apply StronglySorted_inv in Hl as [Hl Hx]. destruct b; simpl; [|by apply IH].
  constructor; [by apply IH|]. apply Forall_forall. intros y Hy%every_other_elem.
  by eapply Forall_forall in Hx.
Qed.

(** An even number of items is halved evenly. *)
Lemma every_other_even b l :
  Nat.even (length l) = true → length (every_other b l) + length (every_other b l) = length l.
Proof.
  intros [n Hn]%Nat.even_spec. rewrite every_other_length, Hn.
  assert (S (2 * n) / 2 = n) as Hs.
  { symmetry. apply (Nat.div_unique _ 2 n 1); lia. }
  assert (2 * n / 2 = n) as He by (rewrite Nat.mul_comm; by apply Nat.div_mul).
  destruct b; rewrite ?Hs, ?He; lia.
Qed.
End halving.

(** ** Counting *)

Definition cnt {T : Type} (P : T → bool) (l : list T) : nat := length (filter (λ y, P y = true) l).

Section counting.
Context {T : Type} (P : T → bool).
Implicit Types (l : list T).

Lemma cnt_app l1 l2 : cnt P (l1 ++ l2) = cnt P l1 + cnt P l2.
Proof. unfold cnt. by rewrite filter_app, length_app. Qed.

Lemma cnt_perm l1 l2 : l1 ≡ₚ l2 → cnt P l1 = cnt P l2.
Proof. unfold cnt. by intros ->. Qed.

Lemma cnt_cons x l : cnt P (x :: l) = (if P x then 1 else 0) + cnt P l.
Proof. unfold cnt. rewrite filter_cons. by destruct (P x). Qed.

Lemma cnt_le l : cnt P l ≤ length l.
Proof. apply length_filter. Qed.

Lemma cnt_none l : Forall (λ x, P x = false) l → cnt P l = 0.
Proof.
  induction 1 as [|x l Hx _ IH]; [done|]. by rewrite cnt_cons, Hx, IH.
Qed.
End counting.

Lemma cnt_all {T} (l : list T) : cnt (λ _, true) l = length l.
Proof. induction l as [|x l IH]; [done|]. by rewrite cnt_cons, IH. Qed.

(** ** Weights *)

(** The weighted sum over the levels, without bounds *)
Fixpoint wsum {T : Type} (f : list T → nat) (ls : list (list T)) : N :=
  match ls with
  | [] => 0
  | l :: ls' => N.of_nat (f l) + 2 * wsum f ls'
  end.

Section weights.
Context {T : Type}.
Implicit Types (ls : list (list T)) (f : list T → nat).

Lemma wsum_ext f1 f2 ls : (∀ l, f1 l = f2 l) → wsum f1 ls = wsum f2 ls.
Proof. intros Hf. induction ls as [|l ls IH]; simpl; [done|]. by rewrite Hf, IH. Qed.

Lemma wsum_le f1 f2 ls : (∀ l, f1 l ≤ f2 l) → (wsum f1 ls ≤ wsum f2 ls)%N.
Proof. intros Hf. induction ls as [|l ls IH]; simpl; [done|]. specialize (Hf l). lia. Qed.

Lemma wsum_app f ls1 ls2 :
  wsum f (ls1 ++ ls2) = (wsum f ls1 + 2 ^ N.of_nat (length ls1) * wsum f ls2)%N.
Proof.
  induction ls1 as [|l ls1 IH]; [simpl; lia|].
  cbn [app wsum length]. rewrite IH, Nat2N.inj_succ, N.pow_succ_r'. lia.
Qed.

Lemma wsum_insert f ls h l l' :
  ls !! h = Some l →
  (wsum f (<[h := l']> ls) + 2 ^ N.of_nat h * N.of_nat (f l))%N
  = (wsum f ls + 2 ^ N.of_nat h * N.of_nat (f l'))%N.
Proof.
  revert h. induction ls as [|l0 ls IH]; intros [|h] Hl; simplify_eq/=; [lia|].
  specialize (IH _ Hl). change (N.pos (Pos.of_succ_nat h)) with (N.of_nat (S h)).
  rewrite Nat2N.inj_succ, N.pow_succ_r'. lia.
Qed.

Lemma wsum_zero f ls : (∀ l, l ∈ ls → f l = 0) → wsum f ls = 0%N.
Proof.
  induction ls as [|l ls IH]; intros Hf; simpl; [done|].
  rewrite (Hf l), IH; [done| |left]. intros l' Hl'. apply Hf. by right.
Qed.

(** The sum of the code is this one as long as it fits. *)
Lemma weighted_exact `{Coins} f (s : KllSketch.t T) :
  length (levels s) ≤ 64 → is_u64 (wsum f (levels s)) → weighted f s = wsum f (levels s).
Proof.
  unfold weighted.
  assert (∀ o a ls, o + length ls ≤ 64 → is_u64 (a + 2 ^ N.of_nat o * wsum f ls) →
    foldl u64_add a (imap (λ h l, u64_mul (u64_shl1 (o + h)) (N.of_nat (f l))) ls)
    = (a + 2 ^ N.of_nat o * wsum f ls)%N) as Hgen.
  { intros o a ls. revert o a. induction ls as [|l ls IH]; intros o a Ho Ha; simpl in *; [lia|].
    rewrite Nat.add_0_r, u64_shl1_exact by lia. unfold is_u64 in *.
    rewrite u64_mul_exact by nia. rewrite u64_add_exact by nia.
    rewrite (imap_ext _ (λ h l, u64_mul (u64_shl1 (S o + h)) (N.of_nat (f l))))
      by (intros; simpl; do 2 f_equal; lia).
    rewrite IH; [rewrite Nat2N.inj_succ, N.pow_succ_r'; lia|lia|].
    rewrite Nat2N.inj_succ, N.pow_succ_r'. lia. }
  intros Hl Hw. rewrite (Hgen 0 0%N); simpl; [lia|done|]. by rewrite N.mul_1_l.
Qed.
End weights.

(** ** Ordered items *)

Section order.
Context {T : Type} `{!Ord T}.
Implicit Types (x y : T) (l : list T).

Definition ascending l : Prop := StronglySorted (λ x y, leb x y = true) l.

Lemma leb_refl x : leb x x = true.
Proof. by destruct (leb_total x x). Qed.

Lemma sort_perm l : sort l ≡ₚ l.
Proof. apply sort_by_perm. Qed.
Lemma sort_ascending l : ascending (sort l).
Proof. apply sort_by_sorted; [apply leb_trans|apply leb_total]. Qed.

(** Ascending lists of the same items are equal. *)
Lemma ascending_unique l1 l2 : ascending l1 → ascending l2 → l1 ≡ₚ l2 → l1 = l2.
Proof.
  assert (AntiSymm (=) (λ x y, leb x y = true)) by (intros x y; apply leb_antisym).
  intros. by eapply StronglySorted_unique.
Qed.

Lemma sort_ascending_id l : ascending l → sort l = l.
Proof.
  intros Hl. apply ascending_unique; [apply sort_ascending|done|apply sort_perm].
Qed.

Lemma merge_sorted_perm l1 l2 : merge_sorted l1 l2 ≡ₚ l1 ++ l2.
Proof.
  revert l2. induction l1 as [|x l1 IH1]; intros l2; [by destruct l2|].
  induction l2 as [|y l2 IH2]; [simpl; by rewrite app_nil_r|].
  cbn [merge_sorted]. destruct (leb x y); [by rewrite IH1|].
  change (y :: merge_sorted (x :: l1) l2 ≡ₚ (x :: l1) ++ y :: l2).
  rewrite <-Permutation_middle. by apply Permutation_skip.
Qed.

Lemma merge_sorted_ascending l1 l2 : ascending l1 → ascending l2 → ascending (merge_sorted l1 l2).
Proof.
  revert l2. induction l1 as [|x l1 IH1]; intros l2 H1 H2; [by destruct l2|].
  induction l2 as [|y l2 IH2]; [done|]. cbn [merge_sorted].
  pose proof H1 as [H1' Hx]%StronglySorted_inv. pose proof H2 as [H2' Hy]%StronglySorted_inv.
  destruct (leb x y) eqn:Hxy.
  - constructor; [by apply IH1|]. rewrite merge_sorted_perm. apply Forall_app. split; [done|].
    constructor; [done|]. eapply Forall_impl; [done|]. intros z Hz. by eapply leb_trans.
  - change (ascending (y :: merge_sorted (x :: l1) l2)). constructor; [by apply IH2|].
    rewrite merge_sorted_perm. apply Forall_app. split; [|done].
    assert (leb y x = true) as Hyx by (destruct (leb_total x y); congruence).
    constructor; [done|]. eapply Forall_impl; [done|]. intros z Hz. by eapply leb_trans.
Qed.

Lemma is_sorted_spec l : is_sorted l = true ↔ ascending l.
Proof.
  split.
  - induction l as [|x [|y l] IH]; intros Hl; [constructor|by repeat constructor|].
    simpl in Hl. apply andb_true_iff in Hl as [Hxy Hl]. specialize (IH Hl).
    constructor; [done|]. constructor; [done|]. apply StronglySorted_inv in IH as [_ Hy].
    eapply Forall_impl; [done|]. intros z Hz. by eapply leb_trans.
  - induction l as [|x [|y l] IH]; intros Hl; [done|done|].
    apply StronglySorted_inv in Hl as [Hl Hx]. simpl. apply Forall_cons in Hx as [-> _].
    by apply IH.
Qed.

(** In an ascending list the items below [x] come first. *)
Lemma below_prefix x y l :
  ascending (y :: l) → ltb y x = false → cnt (λ z, ltb z x) (y :: l) = 0.
Proof.
  intros [_ Hy]%StronglySorted_inv Hyx. apply cnt_none. constructor; [done|].
  eapply Forall_impl; [done|]. intros z Hz. unfold ltb in *.
  apply negb_false_iff in Hyx. apply negb_false_iff. by eapply leb_trans.
Qed.

(** The halves of an ascending list have, up to one, as many items below [x]. *)
Lemma halves_below x l :
  ascending l →
  let n b := cnt (λ y, ltb y x) (every_other b l) in n false ≤ n true ≤ S (n false).
Proof.
  cbv zeta. induction l as [|y l IH]; intros Hl; [simpl; unfold cnt; simpl; lia|].
  pose proof Hl as [Hl' _]%StronglySorted_inv. specialize (IH Hl'). cbn [every_other].
  rewrite cnt_cons. destruct (ltb y x) eqn:Hyx; [lia|].
  pose proof (below_prefix x y l Hl Hyx) as Hz. rewrite cnt_cons, Hyx in Hz.
  rewrite <-(cnt_perm _ _ _ (every_other_perm true l)), cnt_app in Hz. simpl in Hz. lia.
Qed.
End order.

(** ** Capacities *)

Section capacity.
Context {E : Type}.

(** The capacity as the code means it: [k * (2/3)^depth], rounded *)
Definition ideal_capacity (k : N) (depth : nat) : N :=
  (((2 * k * 2 ^ N.of_nat depth / 3 ^ N.of_nat depth + 1) / 2) `max` MIN_LEVEL_WIDTH)%N.

Lemma level_capacity_ok k n h :
  n - h - 1 < 64 → ∃ cap, level_capacity (E:=E) k n h = Ok cap ∧ (8 ≤ cap)%N.
Proof.
  intros Hd. unfold level_capacity. rewrite (proj2 (Nat.leb_gt _ _) Hd).
  eexists. split; [done|]. unfold MIN_LEVEL_WIDTH. lia.
Qed.

(** Nothing overflows up to depth 40. *)
Lemma level_capacity_exact k n h :
  n - h - 1 ≤ 40 → (k < 2 ^ 22)%N →
  level_capacity (E:=E) k n h = Ok (ideal_capacity k (n - h - 1)).
Proof.
  intros Hd Hk. unfold level_capacity, ideal_capacity. set (d := n - h - 1) in *.
  rewrite (proj2 (Nat.leb_gt 64 d)) by lia.
  assert (2 ^ N.of_nat d ≤ 2 ^ 40)%N as H2 by (apply N.pow_le_mono_r; lia).
  assert (3 ^ N.of_nat d ≤ 3 ^ 40)%N as H3 by (apply N.pow_le_mono_r; lia).
  assert (3 ^ N.of_nat d ≠ 0)%N as H0 by (apply N.pow_nonzero; lia).
  rewrite u64_mul_exact by lia. rewrite N.shiftl_mul_pow2, N.shiftr_div_pow2.
  assert (2 * k * 2 ^ N.of_nat d < 2 ^ 63)%N as Hn.
  { change (2 ^ 63)%N with (2 ^ 23 * 2 ^ 40)%N.
    apply N.lt_le_trans with (2 ^ 23 * 2 ^ N.of_nat d)%N; [|by apply N.mul_le_mono_l].
    apply N.mul_lt_mono_pos_r; lia. }
  rewrite !u64_wrap_exact; [|unfold is_u64; lia|unfold is_u64; lia].
  assert (2 * k * 2 ^ N.of_nat d / 3 ^ N.of_nat d ≤ 2 * k * 2 ^ N.of_nat d)%N
    by (apply N.Div0.div_le_upper_bound; nia).
  by rewrite u64_add_exact by lia.
Qed.

(** A deeper level is smaller. *)
Lemma ideal_capacity_anti k d1 d2 : d1 ≤ d2 → (ideal_capacity k d2 ≤ ideal_capacity k d1)%N.
Proof.
  intros Hd. unfold ideal_capacity. apply N.max_le_compat_r.
  apply N.Div0.div_le_mono, N.add_le_mono_r.
  replace d2 with (d1 + (d2 - d1)) by lia. set (e := d2 - d1).
  rewrite Nat2N.inj_add, !N.pow_add_r.
  assert (2 ^ N.of_nat e ≤ 3 ^ N.of_nat e)%N by (apply N.pow_le_mono_l; lia).
  assert (3 ^ N.of_nat e ≠ 0)%N by (apply N.pow_nonzero; lia).
  assert (3 ^ N.of_nat d1 ≠ 0)%N by (apply N.pow_nonzero; lia).
  rewrite <-(N.Div0.div_mul_cancel_r (2 * k * 2 ^ N.of_nat d1) (3 ^ N.of_nat d1) (3 ^ N.of_nat e))
    by done.
  apply N.Div0.div_le_mono. rewrite N.mul_assoc. by apply N.mul_le_mono_l.
Qed.
End capacity.

(** ** Well-formed sketches *)

Section sketch.
Context {E T : Type} `{!Ord T} `{Coins}.
Implicit Types (s : KllSketch.t T) (l : list T) (ls : list (list T)).

(** There is a level; the flags go with the levels; a level that is flagged is in
    order. *)
Record kll_wf s : Prop := {
  wf_some : levels s ≠ [];
  wf_flags : length (sorted s) = length (levels s);
  wf_sorted h l : sorted s !! h = Some true → levels s !! h = Some l → ascending l;
}.

(** ** One compaction *)

Definition ordered_level (h : nat) s : list T :=
  let l := default [] (levels s !! h) in
  if default false (sorted s !! h) then l else sort l.

(** The items that are halved, and the one that stays behind *)
Definition halved (h : nat) s : list T := drop (length (ordered_level h s) mod 2) (ordered_level h s).
Definition left_behind (h : nat) s : list T :=
  take (length (ordered_level h s) mod 2) (ordered_level h s).

Definition coin s : bool := (random_bool (rng s)).1.
Definition promoted (h : nat) s : list T := every_other (negb (coin s)) (halved h s).
Definition dropped (h : nat) s : list T := every_other (coin s) (halved h s).

Definition grown (h : nat) s : list (list T) := (grow (S h) (levels s) (sorted s)).1.

Lemma ordered_level_ascending h s : kll_wf s → ascending (ordered_level h s).
Proof.
  intros Hwf. unfold ordered_level. destruct (sorted s !! h) as [[]|] eqn:Hb; simpl;
    [|apply sort_ascending..].
  destruct (levels s !! h) as [l|] eqn:Hl; [by eapply wf_sorted|constructor].
Qed.

Lemma ordered_level_perm h s l : levels s !! h = Some l → ordered_level h s ≡ₚ l.
Proof.
  intros Hl. unfold ordered_level. rewrite Hl. simpl.
  destruct (default false (sorted s !! h)); [done|apply sort_perm].
Qed.

Lemma ascending_drop n l : ascending l → ascending (drop n l).
Proof.
  revert n. induction l as [|x l IH]; intros [|n] Hl; simpl; try done.
  apply IH. by apply StronglySorted_inv in Hl as [? _].
Qed.

Lemma ascending_take n l : ascending l → ascending (take n l).
Proof.
  revert n. induction l as [|x l IH]; intros [|n] Hl; simpl; try constructor;
    apply StronglySorted_inv in Hl as [Hl Hx]; [by apply IH|by apply Forall_take].
Qed.

Lemma halved_ascending h s : kll_wf s → ascending (halved h s).
Proof. intros Hwf. by apply ascending_drop, ordered_level_ascending. Qed.

Lemma halved_even h s : Nat.even (length (halved h s)) = true.
Proof.
  unfold halved. rewrite length_drop. set (n := length _).
  pose proof (Nat.div_mod_eq n 2) as Hn. apply Nat.even_spec. exists (n / 2). lia.
Qed.

Lemma level_split h s l :
  levels s !! h = Some l → l ≡ₚ left_behind h s ++ promoted h s ++ dropped h s.
Proof.
  intros Hl. rewrite <-(ordered_level_perm h s l Hl).
  rewrite <-(take_drop (length (ordered_level h s) mod 2) (ordered_level h s)) at 1.
  apply Permutation_app_head. fold (halved h s).
  rewrite <-(every_other_perm (negb (coin s)) (halved h s)) at 1. unfold promoted, dropped.
  by rewrite negb_involutive.
Qed.

Lemma promoted_dropped h s : length (promoted h s) = length (dropped h s).
Proof.
  pose proof (every_other_even (negb (coin s)) _ (halved_even h s)).
  pose proof (every_other_even (coin s) _ (halved_even h s)). unfold promoted, dropped. lia.
Qed.

Record compaction (h : nat) s s' : Prop := {
  cp_levels : ∃ dest, levels s' = <[h := left_behind h s]> (<[S h := dest]> (grown h s)) ∧
    dest ≡ₚ default [] (levels s !! S h) ++ promoted h s;
  cp_wf : kll_wf s';
  cp_k : k s' = k s;
  cp_min : min s' = min s;
  cp_max : max s' = max s;
}.

(** The levels and flags of a compaction, before the leftover is put back *)
Lemma grow_spec h l s :
  kll_wf s → levels s !! h = Some l →
  ∃ flags b, grow (S h) (<[h := []]> (levels s)) (<[h := true]> (sorted s))
      = (<[h := []]> (grown h s), <[h := true]> flags) ∧
    length flags = length (grown h s) ∧ flags !! S h = Some b ∧
    grown h s !! S h = Some (default [] (levels s !! S h)) ∧
    (b = true → ascending (default [] (levels s !! S h))) ∧
    (∀ j, j ≠ S h → flags !! j = sorted s !! j ∧ grown h s !! j = levels s !! j).
Proof.
  intros [_ Hf Hs] Hl. pose proof (lookup_lt_Some _ _ _ Hl) as Hlt. unfold grown, grow.
  rewrite length_insert. destruct (Nat.eqb_spec (S h) (length (levels s))) as [Heq|Hne]; simpl.
  - exists (sorted s ++ [true]), true. rewrite !insert_app_l by lia.
    rewrite (lookup_ge_None_2 (levels s) (S h)) by lia. split_and!; try done.
    + by rewrite !length_app, Hf.
    + by rewrite lookup_app_r, Heq, Hf, Nat.sub_diag by lia.
    + by rewrite lookup_app_r, Heq, Nat.sub_diag by lia.
    + intros _. constructor.
    + intros j Hj. destruct (decide (j < length (levels s))).
      * by rewrite !lookup_app_l by lia.
      * rewrite !lookup_ge_None_2 by (rewrite ?length_app; simpl; lia). done.
  - destruct (lookup_lt_is_Some_2 (levels s) (S h)) as [d Hd]; [lia|].
    destruct (lookup_lt_is_Some_2 (sorted s) (S h)) as [b Hb]; [lia|].
    exists (sorted s), b. rewrite Hd, Hb. split_and!; try done.
    intros ->. by apply (Hs (S h)).
Qed.

Lemma split_odd l :
  (if Nat.odd (length l) then (head l, tail l) else (None, l))
  = (head (take (length l mod 2) l), drop (length l mod 2) l).
Proof.
  assert (Nat.odd (length l) = (length l mod 2 =? 1)) as ->.
  { pose proof (Nat.div_mod_eq (length l) 2). pose proof (Nat.mod_upper_bound (length l) 2).
    apply eq_true_iff_eq. rewrite Nat.odd_spec, Nat.eqb_eq. split; [intros [m Hm]; lia|].
    intros Hm. exists (length l / 2). lia. }
  pose proof (Nat.mod_upper_bound (length l) 2).
  destruct (length l mod 2) as [|[|n]]; [done|by destruct l|lia].
Qed.

Lemma put_back h ls l :
  ls !! h = Some [] → length l ≤ 1 →
  match head l with Some x => alter (λ l, l ++ [x]) h ls | None => ls end = <[h := l]> ls.
Proof.
  intros Hls Hlen. destruct l as [|x [|y l]]; simpl in *; [|..|lia].
  - by rewrite list_insert_id.
  - revert h Hls. induction ls as [|l ls IH]; intros [|h] Hls; simplify_eq/=; [done|].
    f_equal. by apply IH.
Qed.

Lemma grown_length h l s : levels s !! h = Some l → S h < length (grown h s).
Proof.
  intros Hl%lookup_lt_Some. unfold grown, grow.
  destruct (Nat.eqb_spec (S h) (length (levels s))); simpl; rewrite ?length_app; simpl; lia.
Qed.

Lemma compact_level_spec h l s :
  kll_wf s → levels s !! h = Some l → 2 ≤ length l →
  ∃ s', compact_level (E:=E) h s = Ok s' ∧ compaction h s s'.
Proof.
  intros Hwf Hl Hlen. pose proof (lookup_lt_Some _ _ _ Hl) as Hlt.
  destruct (lookup_lt_is_Some_2 (sorted s) h) as [b Hb]; [by rewrite (wf_flags _ Hwf)|].
  destruct (grow_spec h l s Hwf Hl) as (flags & b' & Hg & Hfl & Hfb & Hgd & Hasc & Hoth).
  unfold compact_level, index. rewrite Hl. cbn [obind]. rewrite (proj2 (Nat.ltb_ge _ _) Hlen), Hb.
  cbn [obind]. set (buf := if b then l else sort l).
  assert (ordered_level h s = buf) as Hbuf by (unfold ordered_level; by rewrite Hl, Hb).
  assert (length buf = length l) as Hblen.
  { rewrite <-Hbuf. by rewrite (ordered_level_perm h s l Hl). }
  rewrite <-Hblen, split_odd, <-Hbuf. fold (halved h s) (left_behind h s).
  destruct (random_bool (rng s)) as [c r] eqn:Hr. rewrite Hg.
  assert (coin s = c) as Hc by (unfold coin; by rewrite Hr).
  rewrite !list_lookup_insert_ne by lia. rewrite Hgd, Hfb. cbn [obind].
  rewrite <-Hc. fold (promoted h s). set (dest := if b' then _ else _).
  rewrite (list_insert_insert_ne (grown h s)) by lia. rewrite put_back.
  2: { rewrite list_lookup_insert_eq; [done|]. rewrite length_insert. pose proof (grown_length h l s Hl). lia. }
  2: { unfold left_behind. rewrite length_take. pose proof (Nat.mod_upper_bound
         (length (ordered_level h s)) 2). lia. }
  rewrite list_insert_insert_eq. eexists. split; [done|].
  assert (dest ≡ₚ default [] (levels s !! S h) ++ promoted h s) as Hdest.
  { unfold dest. destruct b'; [apply merge_sorted_perm|done]. }
  assert (b' = true → ascending dest) as Hda.
  { unfold dest. intros ->. apply merge_sorted_ascending; [by apply Hasc|].
    by apply every_other_sorted, halved_ascending. }
  clearbody dest. split; [by exists dest| |done..].
  pose proof (grown_length h l s Hl). split; cbn.
  - intros Hnil%(f_equal length). rewrite !length_insert in Hnil. simpl in Hnil. lia.
  - by rewrite !length_insert.
  - intros j lj. destruct (decide (j = h)) as [->|Hjh].
    { intros _ Hj. rewrite list_lookup_insert_eq in Hj by (rewrite length_insert; lia).
      injection Hj as <-. apply ascending_take, ordered_level_ascending, Hwf. }
    rewrite !(list_lookup_insert_ne _ h) by done. destruct (decide (j = S h)) as [->|Hjs].
    { rewrite list_lookup_insert_eq, Hfb by lia. intros [= ->] [= <-]. by apply Hda. }
    rewrite list_lookup_insert_ne by done. destruct (Hoth j Hjs) as [-> ->].
    by apply (wf_sorted s Hwf).
Qed.

(** *** What a compaction does to the items and their weights *)

Lemma concat_insert_perm ls i l l' :
  ls !! i = Some l → concat (<[i := l']> ls) ++ l ≡ₚ concat ls ++ l'.
Proof.
  revert i. induction ls as [|l0 ls IH]; intros [|i] Hi; simplify_eq/=; [solve_Permutation|].
  rewrite <-!app_assoc. by rewrite IH.
Qed.

Lemma grown_concat h s : concat (grown h s) = concat (levels s).
Proof.
  unfold grown, grow. destruct (_ =? _); simpl; [|done].
  by rewrite concat_app, app_nil_r.
Qed.

Lemma grown_wsum f h s : f [] = 0 → wsum f (grown h s) = wsum f (levels s).
Proof.
  intros Hf. unfold grown, grow. destruct (_ =? _); simpl; [|done].
  rewrite wsum_app. simpl. rewrite Hf. lia.
Qed.

Lemma grown_lookup h l s :
  levels s !! h = Some l →
  grown h s !! h = Some l ∧ grown h s !! S h = Some (default [] (levels s !! S h)).
Proof.
  intros Hl. pose proof (lookup_lt_Some _ _ _ Hl). unfold grown, grow.
  destruct (Nat.eqb_spec (S h) (length (levels s))) as [Heq|]; simpl.
  - rewrite lookup_app_l by done. rewrite (lookup_ge_None_2 (levels s) (S h)) by lia.
    rewrite lookup_app_r, Heq, Nat.sub_diag by lia. done.
  - destruct (lookup_lt_is_Some_2 (levels s) (S h)) as [d ->]; [lia|done].
Qed.

Lemma compaction_perm h l s s' :
  levels s !! h = Some l → compaction h s s' →
  concat (levels s') ++ dropped h s ≡ₚ concat (levels s).
Proof.
  intros Hl [(dest & -> & Hd) _ _ _ _]. destruct (grown_lookup h l s Hl) as [Hg Hg'].
  rewrite <-(grown_concat h s).
  assert (<[S h := dest]> (grown h s) !! h = Some l) as Hl' by (rewrite list_lookup_insert_ne; [done|lia]).
  pose proof (concat_insert_perm _ h l (left_behind h s) Hl') as H1.
  pose proof (concat_insert_perm _ (S h) _ dest Hg') as H2.
  set (M := concat (<[S h := dest]> (grown h s))) in *. clearbody M.
  set (M' := concat _) in *. clearbody M'. rewrite Hd in H2. rewrite (level_split h s l Hl) in H1.
  apply (Permutation_app_inv_r (left_behind h s ++ promoted h s ++ default [] (levels s !! S h))).
  transitivity ((M ++ left_behind h s) ++ default [] (levels s !! S h)).
  - rewrite <-H1. solve_Permutation.
  - transitivity ((M ++ default [] (levels s !! S h)) ++ left_behind h s); [solve_Permutation|].
    rewrite H2. solve_Permutation.
Qed.

Lemma compaction_wsum P h l s s' :
  levels s !! h = Some l → compaction h s s' →
  (wsum (cnt P) (levels s') + 2 ^ N.of_nat h * N.of_nat (cnt P (dropped h s)))%N
  = (wsum (cnt P) (levels s) + 2 ^ N.of_nat h * N.of_nat (cnt P (promoted h s)))%N.
Proof.
  intros Hl [(dest & -> & Hd) _ _ _ _]. destruct (grown_lookup h l s Hl) as [Hg Hg'].
  assert (<[S h := dest]> (grown h s) !! h = Some l) as Hl' by (rewrite list_lookup_insert_ne; [done|lia]).
  pose proof (wsum_insert (cnt P) _ h l (left_behind h s) Hl') as H1.
  pose proof (wsum_insert (cnt P) _ (S h) _ dest Hg') as H2.
  rewrite (grown_wsum (cnt P)) in H2 by done.
  rewrite (cnt_perm P _ _ (level_split h s l Hl)), !cnt_app in H1.
  rewrite (cnt_perm P _ _ Hd), cnt_app in H2.
  rewrite Nat2N.inj_succ, N.pow_succ_r' in H2. lia.
Qed.

(** The weight of the sketch does not change. *)
Lemma compaction_weight h l s s' :
  levels s !! h = Some l → compaction h s s' →
  wsum length (levels s') = wsum length (levels s).
Proof.
  intros Hl Hc. pose proof (compaction_wsum (λ _, true) h l s s' Hl Hc) as Hw.
  rewrite !cnt_all, promoted_dropped in Hw.
  rewrite !(wsum_ext (cnt (λ _, true)) length) in Hw by apply cnt_all. lia.
Qed.

(** *** The top of the stack *)

(** The top level holds items, unless it is the only one. *)
Definition top_ok ls : Prop := length ls = 1 ∨ ∃ l, last ls = Some l ∧ l ≠ [].

Lemma wsum_top ls : top_ok ls → (2 ^ N.of_nat (pred (length ls)) ≤ wsum length ls `max` 1)%N.
Proof.
  intros [->|(l & Hl & Hne)]; [simpl; lia|].
  apply last_Some in Hl as [ls' ->]. rewrite wsum_app, length_app. simpl.
  rewrite Nat.add_1_r. simpl. assert (1 ≤ N.of_nat (length l))%N by (destruct l; [done|simpl; lia]).
  nia.
Qed.

Lemma top_ok_height ls (b : nat) :
  top_ok ls → (wsum length ls < 2 ^ N.of_nat b)%N → 0 < b → length ls ≤ b.
Proof.
  intros Ht Hw Hb. destruct (decide (length ls ≤ b)) as [|Hn]; [done|].
  pose proof (wsum_top ls Ht) as Hle.
  assert (2 ^ N.of_nat b ≤ 2 ^ N.of_nat (pred (length ls)))%N by (apply N.pow_le_mono_r; lia).
  assert (2 ^ 1 ≤ 2 ^ N.of_nat b)%N by (apply N.pow_le_mono_r; lia). lia.
Qed.

Lemma compaction_top h l s s' :
  levels s !! h = Some l → 2 ≤ length l → top_ok (levels s) → compaction h s s' →
  top_ok (levels s').
Proof.
  intros Hl Hlen Htop [(dest & Hls & Hd) _ _ _ _]. right.
  pose proof (grown_length h l s Hl) as Hg.
  assert (promoted h s ≠ []) as Hp.
  { intros Hnil. pose proof (level_split h s l Hl) as Hs%Permutation_length.
    pose proof (promoted_dropped h s) as Hpd. rewrite !length_app, <-Hpd, Hnil in Hs. simpl in Hs.
    unfold left_behind in Hs. rewrite length_take in Hs.
    pose proof (Nat.mod_upper_bound (length (ordered_level h s)) 2). lia. }
  assert (length (levels s') = length (grown h s)) as Hlen' by (by rewrite Hls, !length_insert).
  rewrite last_lookup, Hlen', Hls, list_lookup_insert_ne by lia.
  destruct (decide (pred (length (grown h s)) = S h)) as [->|Hne].
  - rewrite list_lookup_insert_eq by done. exists dest. split; [done|]. intros ->.
    apply Permutation_nil_l in Hd. symmetry in Hd. by apply app_eq_nil in Hd as [_ ?].
  - rewrite list_lookup_insert_ne by done. unfold grown, grow in *.
    destruct (Nat.eqb_spec (S h) (length (levels s))) as [Heq|Hn].
    { simpl in *. rewrite length_app in *. simpl in *. lia. }
    simpl in *. rewrite <-last_lookup. destruct Htop as [?|?]; [lia|done].
Qed.

(** ** Compacting all levels *)

(** No level is full. *)
Definition settled s : Prop :=
  ∀ h l cap, levels s !! h = Some l → capacity (E:=E) h s = Ok cap → (N.of_nat (length l) < cap)%N.

Lemma find_full_spec k n h ls :
  n - h - 1 < 64 →
  (find_full (E:=E) k n h ls = Ok None ∧
   ∀ j l cap, ls !! j = Some l → level_capacity (E:=E) k n (h + j) = Ok cap →
     (N.of_nat (length l) < cap)%N) ∨
  ∃ j l cap, find_full (E:=E) k n h ls = Ok (Some (h + j)) ∧ ls !! j = Some l ∧
    level_capacity (E:=E) k n (h + j) = Ok cap ∧ (cap ≤ N.of_nat (length l))%N.
Proof.
  revert h. induction ls as [|l ls IH]; intros h Hh; [by left|]. cbn [find_full].
  destruct (level_capacity_ok (E:=E) k n h Hh) as (cap & Hcap & _). rewrite Hcap. cbn [obind].
  destruct (N.leb_spec cap (N.of_nat (length l))) as [Hle|Hlt].
  - right. exists 0, l, cap. by rewrite Nat.add_0_r.
  - destruct (IH (S h)) as [[-> Hall]|(j & l' & cap' & -> & ? & ? & ?)]; [lia|left|right].
    + split; [done|]. intros [|j] l' cap' Hj Hc; simplify_eq/=.
      * rewrite Nat.add_0_r, Hcap in Hc. by injection Hc as <-.
      * apply (Hall j l' cap' Hj). by rewrite Nat.add_succ_r in Hc.
    + exists (S j), l', cap'. by rewrite <-Nat.add_succ_comm.
Qed.

(** What holds of the sketches that [compact_all] runs through *)
Definition stack_ok s : Prop :=
  kll_wf s ∧ top_ok (levels s) ∧ is_u64 (wsum length (levels s)).

Lemma stack_ok_height s : stack_ok s → length (levels s) ≤ 64.
Proof. intros (_ & Ht & Hw). apply top_ok_height; [done|done|lia]. Qed.

Lemma compaction_stack h l s s' :
  stack_ok s → levels s !! h = Some l → 2 ≤ length l → compaction h s s' → stack_ok s'.
Proof.
  intros (Hwf & Htop & Hw) Hl Hlen Hc. split_and!.
  - apply Hc.
  - by eapply compaction_top.
  - by rewrite (compaction_weight h l s s').
Qed.

(** One round of the loop *)
Record round (h : nat) s s' : Prop := {
  rd_level : ∃ l cap, levels s !! h = Some l ∧ capacity (E:=E) h s = Ok cap ∧
    (8 ≤ cap ≤ N.of_nat (length l))%N;
  rd_compaction : compaction h s s';
}.

Lemma round_ok h s s' : round h s s' → stack_ok s → stack_ok s'.
Proof.
  intros [(l & cap & Hl & _ & Hlen) Hc] Hs. apply (compaction_stack h l s); [done|done|lia|done].
Qed.

Lemma round_retained h s s' : round h s s' → retained s' < retained s.
Proof.
  intros [(l & cap & Hl & _ & Hlen) Hc].
  pose proof (compaction_perm h l s s' Hl Hc) as Hp%Permutation_length.
  pose proof (level_split h s l Hl) as Hs%Permutation_length.
  rewrite !length_app, (promoted_dropped h s) in Hs. rewrite length_app in Hp.
  unfold left_behind in Hs. rewrite length_take in Hs.
  pose proof (Nat.mod_upper_bound (length (ordered_level h s)) 2). unfold retained. lia.
Qed.

(** [compact_all] ends, after rounds that compact full levels, with no full level. *)
Lemma compact_all_rounds s :
  stack_ok s → ∃ s', compact_all (E:=E) s = Ok s' ∧ rtc (λ a b, ∃ h, round h a b) s s' ∧
    stack_ok s' ∧ settled s'.
Proof.
  unfold compact_all. assert (retained s < S (retained s)) as Hf by lia. revert Hf.
  generalize (S (retained s)) as fuel. intros fuel. revert s.
  induction fuel as [|fuel IH]; intros s Hf Hs; [lia|]. cbn [compact_loop].
  pose proof (stack_ok_height s Hs) as Hh.
  destruct (find_full_spec (k s) (length (levels s)) 0 (levels s)) as [[-> Hall]|Hfull]; [lia|..].
  - cbn [obind]. exists s. split_and!; [done|done|done|]. intros h l cap Hl Hc. by eapply Hall.
  - destruct Hfull as (h & l & cap & -> & Hl & Hc & Hle). cbn [obind Nat.add] in *.
    pose proof (lookup_lt_Some _ _ _ Hl).
    destruct (level_capacity_ok (E:=E) (k s) (length (levels s)) h) as (cap' & Hc' & H8); [lia|].
    rewrite Hc in Hc'. injection Hc' as <-.
    destruct (compact_level_spec h l s (proj1 Hs) Hl) as (s1 & -> & Hcp); [lia|].
    assert (round h s s1) as Hr by (split; [by exists l, cap|done]). cbn [obind].
    destruct (IH s1) as (s' & -> & Hrtc & Hs' & Hset).
    + pose proof (round_retained h s s1 Hr). lia.
    + by eapply round_ok.
    + exists s'. split_and!; [done| |done..]. eapply rtc_l; [by exists h|done].
Qed.

(** Nothing happens to a sketch without a full level. *)
Lemma compact_all_settled s : stack_ok s → settled s → compact_all (E:=E) s = Ok s.
Proof.
  intros Hs Hset. unfold compact_all. cbn [compact_loop].
  pose proof (stack_ok_height s Hs) as Hh.
  destruct (find_full_spec (k s) (length (levels s)) 0 (levels s)) as [[-> _]|Hfull]; [lia|done|].
  destruct Hfull as (h & l & cap & _ & Hl & Hc & Hle). specialize (Hset h l cap Hl Hc). lia.
Qed.
End sketch.
