(* ===== verification/KllStream.v ===== *)
(** * Sketches of streams

    What a sketch that was built from a stream says about it: its weight, its
    items and extremes, and how far the ranks it answers can be off. *)

From S2P Require Import Prelude Machine Kll KllFacts.
Import KllSketch.

(** ** Sums over the levels with a coefficient per height *)

Fixpoint gsum {T : Type} (g : nat → N) (ls : list (list T)) : N :=
  match ls with
  | [] => 0
  | l :: ls' => g 0 * N.of_nat (length l) + gsum (λ i, g (S i)) ls'
  end.

Section gsum.
Context {T : Type}.
Implicit Types (g : nat → N) (ls : list (list T)).

Lemma gsum_insert g ls h l l' :
  ls !! h = Some l →
  (gsum g (<[h := l']> ls) + g h * N.of_nat (length l))%N
  = (gsum g ls + g h * N.of_nat (length l'))%N.
Proof.
  revert g h. induction ls as [|l0 ls IH]; intros g [|h] Hl; simplify_eq/=; [lia|].
  specialize (IH (λ i, g (S i)) _ Hl). simpl in IH. lia.
Qed.

Lemma gsum_ext g1 g2 ls : (∀ i, g1 i = g2 i) → gsum g1 ls = gsum g2 ls.
Proof.
  revert g1 g2. induction ls as [|l ls IH]; intros g1 g2 Hg; simpl; [done|].
  by rewrite Hg, (IH _ (λ i, g2 (S i))).
Qed.

Lemma gsum_snoc_nil g ls : gsum g (ls ++ [[]]) = gsum g ls.
Proof. revert g. induction ls as [|l ls IH]; intros g; simpl; [lia|]. by rewrite IH. Qed.

Lemma gsum_le g1 g2 ls : (∀ i, g1 i ≤ g2 i)%N → (gsum g1 ls ≤ gsum g2 ls)%N.
Proof.
  revert g1 g2. induction ls as [|l ls IH]; intros g1 g2 Hg; simpl; [done|].
  pose proof (Hg 0). pose proof (IH _ _ (λ i, Hg (S i))). nia.
Qed.

Lemma gsum_wsum ls : gsum (λ i, 2 ^ N.of_nat i)%N ls = wsum length ls.
Proof.
  assert (∀ o, gsum (λ i, 2 ^ N.of_nat (o + i))%N ls = (2 ^ N.of_nat o * wsum length ls)%N) as Hg.
  { induction ls as [|l ls IH]; intros o; cbn [gsum wsum]; [lia|].
    rewrite Nat.add_0_r. specialize (IH (S o)).
    rewrite (gsum_ext _ (λ i, 2 ^ N.of_nat (S o + i))%N) by (intros; do 2 f_equal; lia).
    rewrite IH, Nat2N.inj_succ, N.pow_succ_r'. lia. }
  pose proof (Hg 0) as H0. cbn [Nat.add] in H0. rewrite H0. simpl. lia.
Qed.
End gsum.

(** The weight above height [j] *)
Definition above_coef (j i : nat) : N := if j <? i then 2 ^ N.of_nat i else 0.
Definition above {T : Type} (j : nat) (ls : list (list T)) : N := gsum (above_coef j) ls.

Lemma above_le {T} j (ls : list (list T)) : (above j ls ≤ wsum length ls)%N.
Proof.
  rewrite <-gsum_wsum. apply gsum_le. intros i. unfold above_coef. destruct (j <? i); lia.
Qed.

Section stream.
Context {E T : Type} `{!Ord T} `{Coins}.
Implicit Types (s : KllSketch.t T) (l xs ys : list T) (ls : list (list T)).

Lemma compaction_gsum g h l s s' :
  levels s !! h = Some l → compaction h s s' →
  (gsum g (levels s') + 2 * g h * N.of_nat (length (promoted h s)))%N
  = (gsum g (levels s) + g (S h) * N.of_nat (length (promoted h s)))%N.
Proof.
  intros Hl [(dest & -> & Hd) _ _ _ _]. destruct (grown_lookup h l s Hl) as [Hg Hg'].
  assert (<[S h := dest]> (grown h s) !! h = Some l) as Hl' by (rewrite list_lookup_insert_ne; [done|lia]).
  pose proof (gsum_insert g _ h l (left_behind h s) Hl') as H1.
  pose proof (gsum_insert g _ (S h) _ dest Hg') as H2.
  assert (gsum g (grown h s) = gsum g (levels s)) as Hgr.
  { unfold grown, grow. destruct (_ =? _); simpl; [apply gsum_snoc_nil|done]. }
  pose proof (level_split h s l Hl) as Hs%Permutation_length.
  rewrite !length_app, <-(promoted_dropped h s) in Hs.
  apply Permutation_length in Hd. rewrite length_app in Hd. nia.
Qed.

Lemma compaction_above j h l s s' :
  levels s !! h = Some l → compaction h s s' →
  above j (levels s') = (above j (levels s) +
    (if decide (j = h) then 2 ^ N.of_nat (S h) * N.of_nat (length (promoted h s)) else 0))%N.
Proof.
  intros Hl Hc. pose proof (compaction_gsum (above_coef j) h l s s' Hl Hc) as Hg.
  unfold above, above_coef in *. rewrite Nat2N.inj_succ, N.pow_succ_r' in *.
  destruct (Nat.ltb_spec j h), (Nat.ltb_spec j (S h)), (decide (j = h)); lia.
Qed.

(** ** The drift of ranks *)

(** The pairs of items that a compaction of a level halves, at least *)
Definition pairs_of (k : N) (num_levels h : nat) : N :=
  (2 * (ideal_capacity k (num_levels - h - 1) / 2))%N.

Lemma pairs_of_anti k n1 n2 h : n1 ≤ n2 → (pairs_of k n2 h ≤ pairs_of k n1 h)%N.
Proof.
  intros Hn. unfold pairs_of. apply N.mul_le_mono_l, N.Div0.div_le_mono, ideal_capacity_anti. lia.
Qed.

Lemma pairs_of_pos k n h : (8 ≤ pairs_of k n h)%N.
Proof.
  unfold pairs_of. assert (8 ≤ ideal_capacity k (n - h - 1))%N as Hc
    by (unfold ideal_capacity, MIN_LEVEL_WIDTH; lia).
  apply (N.Div0.div_le_mono _ _ 2) in Hc. change (8 / 2)%N with 4%N in Hc. lia.
Qed.

(** The distance of two numbers is at most [d]. *)
Definition within (d a b : N) : Prop := (a ≤ b + d)%N ∧ (b ≤ a + d)%N.

(** [m h] compactions of height [h] move every rank by at most [m h * 2^h], and
    each of them has left the weight of its pairs above [h]. *)
Definition drift s xs : Prop :=
  ∃ m : nat → N,
    (∀ x, within (lsum (λ h, m h * 2 ^ N.of_nat h)%N (seq 0 (pred (length (levels s)))))
            (wsum (cnt (λ y, ltb y x)) (levels s)) (N.of_nat (cnt (λ y, ltb y x) xs))) ∧
    ∀ h, (m h * 2 ^ N.of_nat h * pairs_of (k s) (length (levels s)) h ≤ above h (levels s))%N.

Lemma lsum_seq_mono (f : nat → N) n1 n2 : n1 ≤ n2 → (lsum f (seq 0 n1) ≤ lsum f (seq 0 n2))%N.
Proof.
  intros Hn. replace n2 with (n1 + (n2 - n1)) by lia. rewrite seq_app, lsum_app. lia.
Qed.

Lemma lsum_mono {A} (f g : A → N) (l : list A) :
  (∀ x, f x ≤ g x)%N → (lsum f l ≤ lsum g l)%N.
Proof. intros Hfg. induction l as [|x l IH]; simpl; [done|]. specialize (Hfg x). lia. Qed.

Lemma lsum_add {A} (f g : A → N) (l : list A) :
  lsum (λ x, f x + g x)%N l = (lsum f l + lsum g l)%N.
Proof. induction l as [|x l IH]; simpl; [done|]. rewrite IH. lia. Qed.

(** Adding one to the summand of [h]. *)
Lemma lsum_seq_bump (f : nat → N) h v n :
  h < n → lsum (λ j, f j + if decide (j = h) then v else 0)%N (seq 0 n)
          = (lsum f (seq 0 n) + v)%N.
Proof.
  intros Hh. rewrite lsum_add. f_equal.
  replace n with (h + S (n - S h)) by lia. rewrite seq_app, lsum_app.
  rewrite lsum_zero by (intros j [? ?]%elem_of_seq; rewrite decide_False by lia; done).
  cbn [seq Nat.add]. change (lsum ?f (?x :: ?l)) with (f x + lsum f l)%N.
  rewrite lsum_zero by (intros j [? ?]%elem_of_seq; rewrite decide_False by lia; done).
  rewrite decide_True by done. lia.
Qed.

Lemma round_height h s s' :
  round (E:=E) h s s' → length (levels s) ≤ length (levels s') ∧ S h < length (levels s').
Proof.
  intros [(l & cap & Hl & _) [(dest & -> & _) _ _ _ _]]. rewrite !length_insert.
  pose proof (grown_length h l s Hl). split; [|done]. unfold grown, grow.
  destruct (_ =? _); simpl; rewrite ?length_app; lia.
Qed.

(** A compaction moves a rank by at most the weight of an item. *)
Lemma compaction_rank x h l s s' :
  kll_wf s → levels s !! h = Some l → compaction h s s' →
  within (2 ^ N.of_nat h) (wsum (cnt (λ y, ltb y x)) (levels s'))
    (wsum (cnt (λ y, ltb y x)) (levels s)).
Proof.
  intros Hwf Hl Hc. pose proof (compaction_wsum (λ y, ltb y x) h l s s' Hl Hc) as Hw.
  pose proof (halves_below x _ (halved_ascending h s Hwf)) as Hh. cbv zeta in Hh.
  unfold promoted, dropped, within in *. destruct (coin s); simpl in Hw; nia.
Qed.

Lemma round_drift h s s' xs :
  (k s < 2 ^ 22)%N → length (levels s) ≤ 41 → kll_wf s →
  round (E:=E) h s s' → drift s xs → drift s' xs.
Proof.
  intros Hk HL Hwf Hr (m & Herr & Hm). destruct (round_height h s s' Hr) as [HL' Hh].
  destruct Hr as [(l & cap & Hl & Hcap & Hlen) Hc]. pose proof (lookup_lt_Some _ _ _ Hl) as Hlt.
  exists (λ j, m j + if decide (j = h) then 1 else 0)%N. split.
  - intros x. specialize (Herr x). pose proof (compaction_rank x h l s s' Hwf Hl Hc) as Hx.
    set (n := pred (length (levels s'))).
    assert (lsum (λ j, (m j + if decide (j = h) then 1 else 0) * 2 ^ N.of_nat j)%N (seq 0 n)
            = (lsum (λ j, m j * 2 ^ N.of_nat j)%N (seq 0 n) + 2 ^ N.of_nat h)%N) as ->.
    { rewrite <-lsum_seq_bump with (h := h) by (unfold n; lia). apply lsum_ext. intros j _.
      case_decide; [subst j|]; lia. }
    pose proof (lsum_seq_mono (λ j, m j * 2 ^ N.of_nat j)%N (pred (length (levels s))) n
      ltac:(unfold n; lia)). unfold within in *. lia.
  - intros j. rewrite (compaction_above j h l s s' Hl Hc), (cp_k _ _ _ Hc). specialize (Hm j).
    pose proof (pairs_of_anti (k s) (length (levels s)) (length (levels s')) j HL') as Ha.
    set (c' := pairs_of _ (length (levels s')) j) in *. set (c := pairs_of _ _ j) in *.
    pose proof (N.mul_le_mono_l c' c (m j * 2 ^ N.of_nat j)%N Ha) as Hmc.
    case_decide as Hj; [subst j|rewrite !N.add_0_r; lia].
    assert (c ≤ 2 * N.of_nat (length (promoted h s)))%N as Hp.
    { unfold capacity in Hcap. rewrite level_capacity_exact in Hcap by (done || lia).
      injection Hcap as <-. unfold c, pairs_of. apply N.mul_le_mono_l.
      pose proof (level_split h s l Hl) as Hs%Permutation_length.
      rewrite !length_app, <-(promoted_dropped h s) in Hs. unfold left_behind in Hs.
      rewrite length_take in Hs. pose proof (Nat.mod_upper_bound (length (ordered_level h s)) 2).
      apply N.lt_succ_r, N.Div0.div_lt_upper_bound. lia. }
    rewrite Nat2N.inj_succ, N.pow_succ_r'.
    pose proof (N.mul_le_mono_l c' _ (2 ^ N.of_nat h)%N (N.le_trans _ _ _ Ha Hp)). lia.
Qed.

(** ** What a sketch keeps of its stream *)

Record core (k0 : N) s xs : Prop := {
  co_stack : stack_ok s;
  co_k : k s = k0;
  co_weight : wsum length (levels s) = N.of_nat (length xs);
  co_items : concat (levels s) ⊆+ xs;
  co_drift : (k0 < 2 ^ 22)%N → (N.of_nat (length xs) < 2 ^ 41)%N → drift s xs;
}.

Lemma core_round k0 h s s' xs : round (E:=E) h s s' → core k0 s xs → core k0 s' xs.
Proof.
  intros Hr [Hs Hk Hw Hi Hd]. pose proof Hr as [(l & cap & Hl & _ & Hlen) Hc].
  split.
  - by eapply round_ok.
  - by rewrite (cp_k _ _ _ Hc).
  - by rewrite (compaction_weight h l s s').
  - etrans; [|done]. rewrite <-(compaction_perm h l s s' Hl Hc). by apply submseteq_inserts_r.
  - intros Hk0 Hn. apply (round_drift h s s' xs); [by rewrite Hk| |apply Hs|done|by apply Hd].
    apply top_ok_height; [apply Hs|by rewrite Hw|lia].
Qed.

Lemma core_compact k0 s xs :
  core k0 s xs → ∃ s', compact_all (E:=E) s = Ok s' ∧ core k0 s' xs ∧ settled (E:=E) s' ∧
    min s' = min s ∧ max s' = max s.
Proof.
  intros Hc. destruct (compact_all_rounds (E:=E) s) as (s' & Hs' & Hr & _ & Hset); [by apply (co_stack k0 s xs)|].
  exists s'. split; [done|]. clear Hs'.
  induction Hr as [s|s s1 s2 [h Hh] _ IH]; [done|].
  destruct (IH (core_round _ _ _ _ _ Hh Hc) Hset) as (? & ? & -> & ->).
  destruct Hh as [_ [_ _ _ -> ->]]. done.
Qed.

(** *** More items in level 0 *)

Definition refill (l : list T) (b : bool) s : KllSketch.t T :=
  set_levels (<[0 := l]> (levels s)) (<[0 := b]> (sorted s)) s.

Lemma core_refill k0 s xs ys l0 l1 b :
  core k0 s xs → levels s !! 0 = Some l0 → l1 ≡ₚ l0 ++ ys → (b = true → ascending l1) →
  is_u64 (N.of_nat (length (xs ++ ys))) → core k0 (refill l1 b s) (xs ++ ys).
Proof.
  intros [([Hne Hfl Hso] & Htop & Hu) Hk Hw Hi Hd] Hl0 Hl1 Hb Hn.
  pose proof (lookup_lt_Some _ _ _ Hl0) as Hlt.
  assert (∀ P, wsum (cnt P) (<[0 := l1]> (levels s))
               = (wsum (cnt P) (levels s) + N.of_nat (cnt P ys))%N) as Hcnt.
  { intros P. pose proof (wsum_insert (cnt P) (levels s) 0 l0 l1 Hl0) as Hin.
    rewrite (cnt_perm P _ _ Hl1), cnt_app in Hin. simpl in Hin. lia. }
  assert (wsum length (<[0 := l1]> (levels s)) = N.of_nat (length (xs ++ ys))) as Hw1.
  { pose proof (Hcnt (λ _, true)) as Hc. rewrite cnt_all in Hc.
    rewrite !(wsum_ext (cnt (λ _, true)) length) in Hc by apply cnt_all.
    rewrite Hc, Hw, length_app. lia. }
  split; cbn.
  - split_and!; cbn; [split; cbn| |by rewrite Hw1].
    + by intros Hnil%(f_equal length); rewrite length_insert in Hnil; simpl in Hnil; lia.
    + by rewrite !length_insert.
    + intros [|h] l; [|rewrite !list_lookup_insert_ne by done; apply Hso].
      rewrite !list_lookup_insert_eq by lia. intros [= ->] [= <-]. by apply Hb.
    + destruct Htop as [Htop|(l & Hl & Hlne)]; [left; by rewrite length_insert|].
      destruct (decide (length (levels s) = 1)); [left; by rewrite length_insert|right].
      exists l. split; [|done]. rewrite last_lookup, length_insert in *.
      by rewrite list_lookup_insert_ne by lia.
  - done.
  - done.
  - transitivity (concat (levels s) ++ ys); [|by apply submseteq_skips_r].
    apply Permutation_submseteq, (Permutation_app_inv_r l0).
    rewrite (concat_insert_perm (levels s) 0 l0 l1 Hl0), Hl1. solve_Permutation.
  - intros Hk0 Hn41. rewrite length_app in Hn41. destruct Hd as (m & Herr & Hm); [done|lia|].
    exists m. cbn. rewrite length_insert. split.
    + intros x. specialize (Herr x). rewrite Hcnt, cnt_app. unfold within in *. lia.
    + intros h. specialize (Hm h).
      pose proof (gsum_insert (above_coef h) (levels s) 0 l0 l1 Hl0) as Hg.
      unfold above in *. change (above_coef h 0) with 0%N in Hg. lia.
Qed.
End stream.
