(* ===== verification/KllOps.v ===== *)
(** * The operations of the KLL sketch

    Ingest, merge and rebuild keep what a sketch says about its stream, and the
    two ways to ingest a batch do what inserting its items one by one does. *)

From S2P Require Import Prelude Machine Kll KllFacts KllStream.
Import KllSketch.

Section ops.
Context {E T : Type} `{!Ord T} `{Coins}.
Implicit Types (s : KllSketch.t T) (l xs ys : list T) (ls : list (list T)) (x y : T).

(** ** Extremes *)

Definition least (o : option T) xs : Prop :=
  match o with
  | None => xs = []
  | Some m => m ∈ xs ∧ ∀ x, x ∈ xs → leb m x = true
  end.
Definition greatest (o : option T) xs : Prop :=
  match o with
  | None => xs = []
  | Some m => m ∈ xs ∧ ∀ x, x ∈ xs → leb x m = true
  end.

Lemma ltb_true x y : ltb x y = true → leb x y = true.
Proof. unfold ltb. intros ?%negb_true_iff. destruct (leb_total x y); congruence. Qed.
Lemma ltb_false x y : ltb x y = false ↔ leb y x = true.
Proof. unfold ltb. apply negb_false_iff. Qed.

Lemma least_unique o1 o2 xs : least o1 xs → least o2 xs → o1 = o2.
Proof.
  destruct o1 as [m1|], o2 as [m2|]; simpl; try done.
  - intros [H1 H1'] [H2 H2']. f_equal. apply leb_antisym; auto.
  - intros [Hm _] ->. by apply elem_of_nil in Hm.
  - intros -> [Hm _]. by apply elem_of_nil in Hm.
Qed.
Lemma greatest_unique o1 o2 xs : greatest o1 xs → greatest o2 xs → o1 = o2.
Proof.
  destruct o1 as [m1|], o2 as [m2|]; simpl; try done.
  - intros [H1 H1'] [H2 H2']. f_equal. apply leb_antisym; auto.
  - intros [Hm _] ->. by apply elem_of_nil in Hm.
  - intros -> [Hm _]. by apply elem_of_nil in Hm.
Qed.

Lemma least_new lo m xs ys :
  least m xs → least (Some lo) ys → least (new_min lo m) (xs ++ ys).
Proof.
  destruct m as [y|]; simpl; [|by intros -> ?]. intros [Hy Hy'] [Hl Hl'].
  destruct (ltb lo y) eqn:Hlt; simpl; setoid_rewrite elem_of_app.
  - apply ltb_true in Hlt. split; [by right|]. intros x [Hx|Hx]; [|auto].
    by apply (leb_trans lo y x); auto.
  - apply ltb_false in Hlt. split; [by left|]. intros x [Hx|Hx]; [auto|].
    by apply (leb_trans y lo x); auto.
Qed.
Lemma greatest_new hi m xs ys :
  greatest m xs → greatest (Some hi) ys → greatest (new_max hi m) (xs ++ ys).
Proof.
  destruct m as [y|]; simpl; [|by intros -> ?]. intros [Hy Hy'] [Hl Hl'].
  destruct (ltb y hi) eqn:Hlt; simpl; setoid_rewrite elem_of_app.
  - apply ltb_true in Hlt. split; [by right|]. intros x [Hx|Hx]; [|auto].
    by apply (leb_trans x y hi); auto.
  - apply ltb_false in Hlt. split; [by left|]. intros x [Hx|Hx]; [auto|].
    by apply (leb_trans x hi y); auto.
Qed.

Lemma least_merge a b xs ys : least a xs → least b ys → least (merge_min a b) (xs ++ ys).
Proof.
  destruct a as [x|], b as [y|]; simpl; [|intros ? ->; by rewrite app_nil_r|by intros -> ?|by intros -> ->].
  intros [Hx Hx'] [Hy Hy']. destruct (leb x y) eqn:Hxy; setoid_rewrite elem_of_app.
  - split; [by left|]. intros z [?|?]; [auto|]. by apply (leb_trans x y z); auto.
  - assert (leb y x = true) by (destruct (leb_total x y); congruence).
    split; [by right|]. intros z [?|?]; [|auto]. by apply (leb_trans y x z); auto.
Qed.
Lemma greatest_merge a b xs ys :
  greatest a xs → greatest b ys → greatest (merge_max a b) (xs ++ ys).
Proof.
  destruct a as [x|], b as [y|]; simpl; [|intros ? ->; by rewrite app_nil_r|by intros -> ?|by intros -> ->].
  intros [Hx Hx'] [Hy Hy']. destruct (leb y x) eqn:Hxy; setoid_rewrite elem_of_app.
  - split; [by left|]. intros z [?|?]; [auto|]. by apply (leb_trans z y x); auto.
  - assert (leb x y = true) by (destruct (leb_total x y); congruence).
    split; [by right|]. intros z [?|?]; [|auto]. by apply (leb_trans z x y); auto.
Qed.

Lemma least_singleton x : least (Some x) [x].
Proof. split; [left|]. intros y ->%list_elem_of_singleton. apply leb_refl. Qed.
Lemma greatest_singleton x : greatest (Some x) [x].
Proof. split; [left|]. intros y ->%list_elem_of_singleton. apply leb_refl. Qed.

Lemma batch_extremes_spec x xs :
  least (Some (batch_extremes x xs).1) (x :: xs) ∧
  greatest (Some (batch_extremes x xs).2) (x :: xs).
Proof.
  unfold batch_extremes. induction xs as [|y xs [IH1 IH2]] using rev_ind;
    [split; [apply least_singleton|apply greatest_singleton]|].
  rewrite foldl_app. cbn [foldl fst snd]. set (acc := foldl _ _ xs) in *.
  pose proof (least_new y _ (x :: xs) [y] IH1 (least_singleton y)) as H1.
  pose proof (greatest_new y _ (x :: xs) [y] IH2 (greatest_singleton y)) as H2.
  unfold new_min, new_max in *. by destruct (ltb y acc.1), (ltb acc.2 y).
Qed.

Lemma sorted_extremes x xs :
  ascending (x :: xs) →
  least (Some x) (x :: xs) ∧ greatest (Some (default x (last (x :: xs)))) (x :: xs).
Proof.
  intros Hx. split.
  - split; [left|]. intros y [->|Hy]%elem_of_cons; [apply leb_refl|].
    apply StronglySorted_inv in Hx as [_ Hx]. by eapply Forall_forall in Hx.
  - revert x Hx. induction xs as [|z xs IH]; intros x Hx; [apply greatest_singleton|].
    apply StronglySorted_inv in Hx as [Hz Hx]. destruct (IH z Hz) as [Hin Hall].
    rewrite last_cons_cons. destruct (last (z :: xs)) as [m|] eqn:Hm; [|by apply last_None in Hm].
    simpl in *. split; [by right|]. intros y [->|Hy]%elem_of_cons; [|by apply Hall].
    by eapply Forall_forall in Hx.
Qed.

Lemma least_fold m xs ys : least m xs → least (foldl (flip new_min) m ys) (xs ++ ys).
Proof.
  revert m xs. induction ys as [|y ys IH]; intros m xs Hm; simpl; [by rewrite app_nil_r|].
  rewrite cons_middle, app_assoc. apply IH, least_new; [done|apply least_singleton].
Qed.
Lemma greatest_fold m xs ys : greatest m xs → greatest (foldl (flip new_max) m ys) (xs ++ ys).
Proof.
  revert m xs. induction ys as [|y ys IH]; intros m xs Hm; simpl; [by rewrite app_nil_r|].
  rewrite cons_middle, app_assoc. apply IH, greatest_new; [done|apply greatest_singleton].
Qed.

(** A batch updates the extremes once, or item by item. *)
Lemma least_option_list (m : option T) : least m (option_list m).
Proof. destruct m; [apply least_singleton|done]. Qed.
Lemma greatest_option_list (m : option T) : greatest m (option_list m).
Proof. destruct m; [apply greatest_singleton|done]. Qed.

Lemma fold_extremes x xs m1 m2 :
  foldl (flip new_min) m1 (x :: xs) = new_min (batch_extremes x xs).1 m1 ∧
  foldl (flip new_max) m2 (x :: xs) = new_max (batch_extremes x xs).2 m2.
Proof.
  destruct (batch_extremes_spec x xs) as [Hlo Hhi]. split.
  - apply (least_unique _ _ (option_list m1 ++ x :: xs));
      [apply least_fold, least_option_list|by apply least_new, Hlo; apply least_option_list].
  - apply (greatest_unique _ _ (option_list m2 ++ x :: xs));
      [apply greatest_fold, greatest_option_list
      |by apply greatest_new, Hhi; apply greatest_option_list].
Qed.

(** ** One item *)

Lemma core_ext k0 s s' xs :
  levels s' = levels s → sorted s' = sorted s → k s' = k s → core k0 s xs → core k0 s' xs.
Proof.
  intros Hl Hf Hk [([? ? ?] & ? & ?) ? ? ? Hd]. split; rewrite ?Hl, ?Hk; try done.
  - split_and!; [split|by rewrite Hl..]; rewrite ?Hl, ?Hf; done.
  - intros. unfold drift. rewrite Hl, Hk. by apply Hd.
Qed.

Lemma level0 k0 s xs : core k0 s xs → ∃ l b, levels s !! 0 = Some l ∧ sorted s !! 0 = Some b.
Proof.
  intros [([Hne Hf _] & _) _ _ _ _]. destruct (levels s) as [|l ls]; [done|].
  destruct (sorted s) as [|b bs]; [done|]. by exists l, b.
Qed.

Lemma push_refill x s l b :
  levels s !! 0 = Some l → sorted s !! 0 = Some b →
  push (E:=E) x s = Ok (refill (l ++ [x]) false
    (set_extremes (new_min x (min s)) (new_max x (max s)) s)).
Proof. intros Hl Hb. unfold push, update_at, index. cbn. by rewrite Hl, Hb. Qed.

Lemma refill_core k0 s xs ys l b l' b' lo hi :
  core k0 s xs → levels s !! 0 = Some l → sorted s !! 0 = Some b →
  l' ≡ₚ l ++ ys → (b' = true → ascending l') → is_u64 (N.of_nat (length (xs ++ ys))) →
  core k0 (refill l' b' (set_extremes lo hi s)) (xs ++ ys).
Proof.
  intros Hc Hl Hb Hp Ha Hn. apply (core_refill k0 _ xs ys l); [|done..].
  by apply (core_ext k0 s).
Qed.

Lemma insert_core k0 s xs x :
  core k0 s xs → is_u64 (N.of_nat (length (xs ++ [x]))) →
  ∃ s', insert (E:=E) x s = Ok s' ∧ core k0 s' (xs ++ [x]) ∧ settled (E:=E) s' ∧
    min s' = new_min x (min s) ∧ max s' = new_max x (max s).
Proof.
  intros Hc Hn. destruct (level0 k0 s xs Hc) as (l & b & Hl & Hb).
  unfold insert. rewrite (push_refill x s l b Hl Hb). cbn [obind].
  by apply (core_compact k0), (refill_core k0 s xs [x] l b).
Qed.

(** ** Many items *)

Fixpoint insert_all xs s : outcome E (KllSketch.t T) :=
  match xs with
  | [] => Ok s
  | x :: xs' => let? s := insert x s in insert_all xs' s
  end.

Lemma insert_all_core k0 s xs ys :
  core k0 s xs → settled (E:=E) s → is_u64 (N.of_nat (length (xs ++ ys))) →
  ∃ s', insert_all ys s = Ok s' ∧ core k0 s' (xs ++ ys) ∧ settled (E:=E) s' ∧
    min s' = foldl (flip new_min) (min s) ys ∧ max s' = foldl (flip new_max) (max s) ys.
Proof.
  revert s xs. induction ys as [|y ys IH]; intros s xs Hc Hs Hn; cbn [insert_all].
  { exists s. by rewrite app_nil_r. }
  unfold is_u64 in *. rewrite length_app in Hn. simpl in Hn.
  destruct (insert_core k0 s xs y Hc) as (s1 & -> & Hc1 & Hs1 & Hmin & Hmax);
    [unfold is_u64; rewrite length_app; simpl; lia|]. cbn [obind].
  destruct (IH s1 (xs ++ [y]) Hc1 Hs1) as (s' & -> & Hc' & Hs' & Hm1 & Hm2).
  { rewrite !length_app. simpl. lia. }
  exists s'. rewrite Hmin in Hm1. rewrite Hmax in Hm2. by rewrite <-app_assoc in Hc'.
Qed.

(** *** [absorb] *)

(** Only level 0 changes, and stays below its capacity. *)
Lemma refill_settled s l b cap :
  settled (E:=E) s → capacity (E:=E) 0 s = Ok cap → (N.of_nat (length l) < cap)%N →
  settled (E:=E) (refill l b s).
Proof.
  intros Hs Hcap Hl h l' cap' Hl' Hc'. unfold capacity in *. cbn in *. rewrite length_insert in Hc'.
  destruct h as [|h].
  - apply list_lookup_insert_Some in Hl' as [(_ & <- & _)|[? _]]; [|done].
    rewrite Hcap in Hc'. by injection Hc' as <-.
  - rewrite list_lookup_insert_ne in Hl' by done. by apply (Hs (S h) l' cap').
Qed.

Lemma capacity_core k0 s xs h : core k0 s xs → ∃ cap, capacity (E:=E) h s = Ok cap ∧ (8 ≤ cap)%N.
Proof.
  intros Hc. pose proof (stack_ok_height s (co_stack k0 s xs Hc)).
  apply level_capacity_ok. lia.
Qed.

Lemma absorb_loop_insert k0 s xs ys cap :
  core k0 s xs → settled (E:=E) s → is_u64 (N.of_nat (length (xs ++ ys))) →
  capacity (E:=E) 0 s = Ok cap → absorb_loop (E:=E) ys cap s = insert_all ys s.
Proof.
  revert s xs cap. induction ys as [|y ys IH]; intros s xs cap Hc Hs Hn Hcap; [done|].
  unfold is_u64 in *. rewrite length_app in Hn. simpl in Hn.
  assert (is_u64 (N.of_nat (length (xs ++ [y])))) as Hn1
    by (unfold is_u64; rewrite length_app; simpl; lia).
  assert (N.of_nat (length ((xs ++ [y]) ++ ys)) < 2 ^ 64)%N as Hn2
    by (rewrite !length_app; simpl; lia).
  destruct (level0 k0 s xs Hc) as (l & b & Hl & Hb). cbn [absorb_loop insert_all]. unfold insert.
  rewrite (push_refill y s l b Hl Hb). cbn [obind].
  set (s1 := refill (l ++ [y]) false _).
  assert (core k0 s1 (xs ++ [y])) as Hc1 by by apply (refill_core k0 s xs [y] l b).
  assert (index (E:=E) (levels s1) 0 = Ok (l ++ [y])) as ->.
  { unfold index. cbn. rewrite list_lookup_insert_eq; [done|]. by eapply lookup_lt_Some. }
  cbn [obind]. destruct (N.leb_spec cap (N.of_nat (length (l ++ [y])))) as [Hle|Hlt].
  - destruct (core_compact (E:=E) k0 s1 (xs ++ [y]) Hc1) as (s2 & -> & Hc2 & Hs2 & _). cbn [obind].
    destruct (capacity_core k0 s2 _ 0 Hc2) as (cap2 & Hcap2 & _). rewrite Hcap2. cbn [obind].
    by apply (IH s2 (xs ++ [y])).
  - assert (settled (E:=E) s1) as Hs1 by by apply (refill_settled (set_extremes _ _ s) _ _ cap).
    rewrite (compact_all_settled s1 (co_stack _ _ _ Hc1) Hs1). cbn [obind].
    apply (IH s1 (xs ++ [y])); [done..|]. unfold capacity in *. cbn. by rewrite length_insert.
Qed.

Lemma absorb_insert k0 s xs ys :
  core k0 s xs → settled (E:=E) s → is_u64 (N.of_nat (length (xs ++ ys))) →
  absorb (E:=E) ys s = insert_all ys s.
Proof.
  intros Hc Hs Hn. unfold absorb. destruct (capacity_core k0 s xs 0 Hc) as (cap & Hcap & _).
  rewrite Hcap. cbn [obind]. by apply (absorb_loop_insert k0 s xs).
Qed.

(** *** Slices *)

(** Compaction does not look at the extremes. *)
Lemma compact_level_extremes h lo hi s :
  compact_level (E:=E) h (set_extremes lo hi s)
  = let? s' := compact_level h s in Ok (set_extremes lo hi s').
Proof.
  unfold compact_level. cbn [levels sorted rng set_extremes]. destruct (index (levels s) h); [|done..].
  cbn [obind]. destruct (_ <? 2); [done|]. destruct (index (sorted s) h); [|done..]. cbn [obind].
  destruct (if Nat.odd _ then _ else _) as [leftover buf]. destruct (random_bool (rng s)).
  destruct (grow _ _ _) as [ls' flags]. destruct (index ls' (S h)); [|done..]. cbn [obind].
  by destruct (index flags (S h)).
Qed.

Lemma compact_all_extremes lo hi s :
  compact_all (E:=E) (set_extremes lo hi s)
  = let? s' := compact_all s in Ok (set_extremes lo hi s').
Proof.
  unfold compact_all. change (retained (set_extremes lo hi s)) with (retained s).
  generalize (S (retained s)) as fuel. intros fuel. revert s.
  induction fuel as [|fuel IH]; intros s; [done|]. cbn [compact_loop levels k set_extremes].
  destruct (find_full _ _ _ _) as [[h|]| |]; cbn [obind]; try done.
  rewrite compact_level_extremes. destruct (compact_level h s); cbn [obind]; [apply IH|done..].
Qed.

Lemma chunk_loop_extremes add flag fuel ys lo hi s :
  chunk_loop (E:=E) add flag fuel ys (set_extremes lo hi s)
  = let? s' := chunk_loop add flag fuel ys s in Ok (set_extremes lo hi s').
Proof.
  revert ys s. induction fuel as [|fuel IH]; intros ys s; [by destruct ys|].
  destruct ys as [|y ys]; [done|]. cbn [chunk_loop]. set (zs := y :: ys).
  change (capacity 0 (set_extremes lo hi s)) with (capacity (E:=E) 0 s).
  destruct (capacity 0 s) as [cap| |]; [|done..]. cbn [obind levels sorted set_extremes].
  destruct (index (levels s) 0) as [l| |]; [|done..]. cbn [obind].
  destruct (update_at _ 0 (levels s)) as [ls'| |]; [|done..]. cbn [obind].
  destruct (update_at flag 0 (sorted s)) as [flags| |]; [|done..].
  cbn [obind levels set_levels]. destruct (index ls' 0) as [l'| |]; [|done..]. cbn [obind].
  change (set_levels ls' flags (set_extremes lo hi s))
    with (set_extremes lo hi (set_levels ls' flags s)).
  destruct (cap <=? N.of_nat (length l'))%N; [|apply IH].
  rewrite compact_all_extremes. destruct (compact_all (set_levels ls' flags s)); [apply IH|done..].
Qed.

(** One chunk: what it does to level 0, and whether a compaction follows *)
Definition chunk_size (cap : N) l ys : nat :=
  N.to_nat (N.of_nat (length ys) `min` (cap - N.of_nat (length l)))%N.

Lemma chunk_loop_step add flag fuel y ys s l b cap :
  levels s !! 0 = Some l → sorted s !! 0 = Some b → capacity (E:=E) 0 s = Ok cap →
  let n := chunk_size cap l (y :: ys) in
  let s1 := refill (add l (take n (y :: ys))) (flag b) s in
  chunk_loop (E:=E) add flag (S fuel) (y :: ys) s
  = let? s2 := (if (cap <=? N.of_nat (length (add l (take n (y :: ys)))))%N
                then compact_all s1 else Ok s1) in
    chunk_loop add flag fuel (drop n (y :: ys)) s2.
Proof.
  intros Hl Hb Hcap. cbv zeta. cbn [chunk_loop]. rewrite Hcap. cbn [obind].
  unfold index at 1. rewrite Hl. cbn [obind]. unfold update_at, index at 1 2. rewrite Hl, Hb.
  cbn [obind]. unfold index. cbn [levels set_levels].
  by rewrite list_lookup_insert_eq by (by eapply lookup_lt_Some).
Qed.

(** A way to add chunks to level 0 *)
Record chunk_ok (add : list T → list T → list T) (flag : bool → bool) (P : list T → Prop) : Prop := {
  ch_perm l c : add l c ≡ₚ l ++ c;
  ch_order b l c : P c → (b = true → ascending l) → flag b = true → ascending (add l c);
  ch_take n c : P c → P (take n c);
  ch_drop n c : P c → P (drop n c);
}.

Lemma chunk_loop_core add flag P fuel k0 s xs ys :
  chunk_ok add flag P → core k0 s xs → P ys → is_u64 (N.of_nat (length (xs ++ ys))) →
  (settled (E:=E) s ∧ length ys < fuel) ∨ S (length ys) < fuel →
  ∃ s', chunk_loop (E:=E) add flag fuel ys s = Ok s' ∧ core k0 s' (xs ++ ys) ∧
    (settled (E:=E) s → settled (E:=E) s') ∧ min s' = min s ∧ max s' = max s.
Proof.
  intros Hch. revert s xs ys. induction fuel as [|fuel IH]; intros s xs ys Hc HP Hn Hf;
    [destruct Hf as [[_ ?]|?]; lia|].
  destruct ys as [|y ys]; [exists s; by rewrite app_nil_r|].
  destruct (level0 k0 s xs Hc) as (l & b & Hl & Hb).
  destruct (capacity_core k0 s xs 0 Hc) as (cap & Hcap & _).
  rewrite (chunk_loop_step _ _ _ _ _ _ _ _ _ Hl Hb Hcap). cbv zeta. set (zs := y :: ys) in *.
  set (n := chunk_size cap l zs). set (l1 := add l (take n zs)).
  assert (n ≤ length zs) as Hnz by (unfold n, chunk_size; lia).
  assert (length l1 = length l + n) as Hl1.
  { unfold l1. rewrite (ch_perm _ _ _ Hch), length_app, length_take. lia. }
  rewrite length_app in Hn. unfold is_u64 in *.
  assert (core k0 (refill l1 (flag b) s) (xs ++ take n zs)) as Hc1.
  { apply (core_refill k0 s xs _ l); [done|done|apply Hch| |].
    - intros Hfb. apply (ch_order _ _ _ Hch b l); [by apply Hch| |done].
      intros ->. by apply (wf_sorted s (proj1 (co_stack _ _ _ Hc)) 0).
    - unfold is_u64. rewrite length_app, length_take. lia. }
  destruct (N.leb_spec cap (N.of_nat (length l1))) as [Hle|Hlt]; cbn [obind].
  - destruct (core_compact (E:=E) k0 _ _ Hc1) as (s2 & -> & Hc2 & Hs2 & Hmin & Hmax). cbn [obind].
    destruct (IH s2 (xs ++ take n zs) (drop n zs) Hc2) as (s' & -> & Hc' & Hs' & Hmin' & Hmax').
    + by apply Hch.
    + rewrite !length_app, length_take, length_drop. lia.
    + left. split; [done|]. rewrite length_drop. destruct Hf as [[Hs Hlen]|Hlen]; [|lia].
      specialize (Hs 0 l cap Hl Hcap). unfold n, chunk_size. unfold zs in *. simpl in *. lia.
    + exists s'. rewrite <-app_assoc, take_drop in Hc'. rewrite Hmin', Hmax', Hmin, Hmax. auto.
  - assert (n = length zs) as Hnl by (unfold n, chunk_size in *; lia).
    rewrite drop_ge by lia. rewrite take_ge in Hc1 by lia.
    exists (refill l1 (flag b) s). split; [by destruct fuel|]. split; [done|].
    split; [|done]. intros Hs.
    by apply (refill_settled s l1 (flag b) cap).
Qed.

Lemma append_chunk_ok : chunk_ok (λ l c, l ++ c) (λ _, false) (λ _, True).
Proof. by split. Qed.

Lemma merge_chunk_ok : chunk_ok merge_sorted id ascending.
Proof.
  split.
  - intros. apply merge_sorted_perm.
  - intros b l c Hc Hl Hb. by apply merge_sorted_ascending; [apply Hl|].
  - intros. by apply ascending_take.
  - intros. by apply ascending_drop.
Qed.

(** Items that fit level 0 are compacted once, after the last of them. *)
Lemma insert_chunk k0 s xs l b cap ys :
  core k0 s xs → settled (E:=E) s → is_u64 (N.of_nat (length (xs ++ ys))) →
  levels s !! 0 = Some l → sorted s !! 0 = Some b → capacity (E:=E) 0 s = Ok cap →
  ys ≠ [] → (N.of_nat (length (l ++ ys)) ≤ cap)%N →
  insert_all ys s
  = let s1 := refill (l ++ ys) false (set_extremes (foldl (flip new_min) (min s) ys)
                (foldl (flip new_max) (max s) ys) s) in
    if (cap <=? N.of_nat (length (l ++ ys)))%N then compact_all s1 else Ok s1.
Proof.
  cbv zeta. revert s xs l b. induction ys as [|y ys IH]; intros s xs l b Hc Hs Hn Hl Hb Hcap Hne Hfit;
    [done|].
  unfold is_u64 in *. rewrite length_app in Hn. simpl in Hn.
  cbn [insert_all]. unfold insert. rewrite (push_refill y s l b Hl Hb). cbn [obind].
  set (s1 := refill (l ++ [y]) false _).
  assert (core k0 s1 (xs ++ [y])) as Hc1.
  { apply (refill_core k0 s xs [y] l b); try done. unfold is_u64. rewrite length_app. simpl. lia. }
  destruct ys as [|z ys].
  - cbn [insert_all]. destruct (N.leb_spec cap (N.of_nat (length (l ++ [y])))) as [Hle|Hlt].
    + transitivity (compact_all (E:=E) s1); [by destruct (compact_all s1)|done].
    + assert (settled (E:=E) s1) as Hs1 by by apply (refill_settled (set_extremes _ _ s) _ _ cap).
      by rewrite (compact_all_settled s1 (co_stack _ _ _ Hc1) Hs1).
  - rewrite length_app in Hfit. cbn [length] in *.
    assert (settled (E:=E) s1) as Hs1.
    { apply (refill_settled (set_extremes _ _ s) _ _ cap); [done..|]. rewrite length_app. simpl. lia. }
    rewrite (compact_all_settled s1 (co_stack _ _ _ Hc1) Hs1). cbn [obind].
    assert (0 < length (levels s)) by (by eapply lookup_lt_Some).
    assert (0 < length (sorted s)) by (by eapply lookup_lt_Some).
    rewrite (IH s1 (xs ++ [y]) (l ++ [y]) false Hc1 Hs1); [| | | | |done|].
    + unfold s1, refill, set_levels, set_extremes. cbn. rewrite !list_insert_insert_eq.
      by rewrite <-!app_assoc.
    + rewrite !length_app. simpl. lia.
    + cbn. by rewrite list_lookup_insert_eq.
    + cbn. by rewrite list_lookup_insert_eq.
    + unfold capacity in *. cbn. by rewrite length_insert.
    + rewrite !length_app. simpl. lia.
Qed.

Lemma insert_all_app xs ys s :
  insert_all (xs ++ ys) s = let? s' := insert_all xs s in insert_all ys s'.
Proof.
  revert s. induction xs as [|x xs IH]; intros s; [done|]. cbn [insert_all app].
  destruct (insert x s); cbn [obind]; [apply IH|done..].
Qed.

Lemma chunk_loop_insert fuel k0 s xs ys lo hi :
  core k0 s xs → settled (E:=E) s → is_u64 (N.of_nat (length (xs ++ ys))) → length ys < fuel →
  ∃ s', chunk_loop (E:=E) (λ l c, l ++ c) (λ _, false) fuel ys s = Ok s' ∧
    insert_all ys (set_extremes lo hi s)
    = Ok (set_extremes (foldl (flip new_min) lo ys) (foldl (flip new_max) hi ys) s').
Proof.
  revert s xs ys lo hi. induction fuel as [|fuel IH]; intros s xs ys lo hi Hc Hs Hn Hf; [lia|].
  destruct ys as [|y ys]; [by exists s|].
  destruct (level0 k0 s xs Hc) as (l & b & Hl & Hb).
  destruct (capacity_core k0 s xs 0 Hc) as (cap & Hcap & _).
  rewrite (chunk_loop_step _ _ _ _ _ _ _ _ _ Hl Hb Hcap). cbv zeta. set (zs := y :: ys) in *.
  set (n := chunk_size cap l zs). pose proof (Hs 0 l cap Hl Hcap) as Hroom.
  assert (1 ≤ n ≤ length zs) as Hnz by (unfold n, chunk_size, zs; simpl; lia).
  assert (N.of_nat (length (l ++ take n zs)) ≤ cap)%N as Hfit
    by (rewrite length_app, length_take; unfold n, chunk_size; lia).
  unfold is_u64 in *. rewrite length_app in Hn.
  assert (N.of_nat (length (xs ++ take n zs)) < 2 ^ 64)%N as Hn1
    by (rewrite length_app, length_take; lia).
  assert (take n zs ≠ []) as Hne.
  { intros Hnil%(f_equal length). rewrite length_take in Hnil. simpl in Hnil. lia. }
  pose proof (insert_all_app (take n zs) (drop n zs) (set_extremes lo hi s)) as Happ.
  pose proof (foldl_app (flip new_min) (take n zs) (drop n zs) lo) as Hlo.
  pose proof (foldl_app (flip new_max) (take n zs) (drop n zs) hi) as Hhi.
  rewrite take_drop in Happ, Hlo, Hhi. rewrite Happ, Hlo, Hhi.
  rewrite (insert_chunk k0 (set_extremes lo hi s) xs l b cap); try done;
    [|by apply (core_ext k0 s)]. cbv zeta. cbn [min max set_extremes].
  set (s1 := refill (l ++ take n zs) false s).
  set (lo1 := foldl _ lo _). set (hi1 := foldl _ hi _).
  change (refill (l ++ take n zs) false (set_extremes lo1 hi1 (set_extremes lo hi s)))
    with (set_extremes lo1 hi1 s1).
  destruct (N.leb_spec cap (N.of_nat (length (l ++ take n zs)))) as [Hle|Hlt]; cbn [obind].
  - assert (core k0 s1 (xs ++ take n zs)) as Hc1 by by apply (core_refill k0 s xs _ l).
    destruct (core_compact (E:=E) k0 s1 _ Hc1) as (s2 & Hs2 & Hc2 & Hset2 & _).
    rewrite compact_all_extremes, Hs2. cbn [obind].
    apply (IH s2 (xs ++ take n zs)); [done|done| |].
    + rewrite !length_app, length_take, length_drop. lia.
    + rewrite length_drop. lia.
  - assert (n = length zs) as Hnl.
    { rewrite length_app, length_take in Hlt. unfold n, chunk_size in *. lia. }
    rewrite drop_ge by lia. exists s1. by destruct fuel.
Qed.

Lemma absorb_slice_insert k0 s xs ys :
  core k0 s xs → settled (E:=E) s → is_u64 (N.of_nat (length (xs ++ ys))) →
  absorb_slice (E:=E) ys s = insert_all ys s.
Proof.
  intros Hc Hs Hn. destruct ys as [|y ys]; [done|]. cbn [absorb_slice].
  destruct (fold_extremes y ys (min s) (max s)) as [Hmin Hmax].
  destruct (batch_extremes y ys) as [lo hi]. cbn [fst snd] in *.
  destruct (chunk_loop_insert (chunk_rounds (y :: ys)) k0 s xs (y :: ys) (min s) (max s) Hc Hs Hn)
    as (s' & Hs' & Hi); [unfold chunk_rounds; lia|].
  rewrite chunk_loop_extremes, Hs'. cbn [obind]. rewrite <-Hmin, <-Hmax, <-Hi. by destruct s.
Qed.

Lemma absorb_sorted_core k0 s xs ys :
  core k0 s xs → settled (E:=E) s → is_u64 (N.of_nat (length (xs ++ ys))) →
  least (min s) xs → greatest (max s) xs →
  ∃ s', absorb_sorted_slice (E:=E) ys s = Ok s' ∧ core k0 s' (xs ++ ys) ∧ settled (E:=E) s' ∧
    least (min s') (xs ++ ys) ∧ greatest (max s') (xs ++ ys).
Proof.
  intros Hc Hs Hn Hlo Hhi. destruct ys as [|y ys]; [exists s; by rewrite app_nil_r|].
  unfold absorb_sorted_slice. destruct (is_sorted (y :: ys)) eqn:Hso; cbn [negb].
  2: { rewrite (absorb_slice_insert k0 s xs) by done.
       destruct (insert_all_core k0 s xs (y :: ys) Hc Hs Hn) as (s' & -> & ? & ? & Hm1 & Hm2).
       exists s'. split_and!; try done; [rewrite Hm1|rewrite Hm2];
         [by apply least_fold|by apply greatest_fold]. }
  apply is_sorted_spec in Hso. destruct (level0 k0 s xs Hc) as (l & b & Hl & Hb).
  set (s0 := set_extremes _ _ s).
  assert (least (min s0) (xs ++ y :: ys) ∧ greatest (max s0) (xs ++ y :: ys)) as [Hlo' Hhi'].
  { destruct (sorted_extremes y ys Hso). split; [by apply least_new|by apply greatest_new]. }
  assert (index (E:=E) (sorted s0) 0 = Ok b) as -> by (unfold index; cbn; by rewrite Hb).
  cbn [obind].
  assert (∃ s1, (if b then Ok s0 else
      let? ls := update_at sort 0 (levels s0) in let? flags := update_at (λ _, true) 0 (sorted s0) in
      Ok (set_levels ls flags s0)) = Ok (E:=E) s1 ∧ core k0 s1 xs ∧ settled (E:=E) s1 ∧
    min s1 = min s0 ∧ max s1 = max s0) as (s1 & -> & Hc1 & Hs1 & Hm1 & Hm2).
  { destruct b; [exists s0; split_and!; try done; by apply (core_ext k0 s)|].
    exists (refill (sort l) true s0). unfold update_at, index.
    change (levels s0) with (levels s). change (sorted s0) with (sorted s). rewrite Hl, Hb.
    destruct (capacity_core k0 s xs 0 Hc) as (cap & Hcap & _). split_and!; try done.
    - rewrite <-(app_nil_r xs). apply (core_refill k0 s0 xs [] l); [by apply (core_ext k0 s)|done| | |].
      + rewrite app_nil_r. apply sort_perm.
      + intros _. apply sort_ascending.
      + unfold is_u64 in *. rewrite app_nil_r. rewrite length_app in Hn. lia.
    - apply (refill_settled s0 _ _ cap); [done..|]. rewrite sort_perm. by apply (Hs 0). }
  cbn [obind]. destruct (chunk_loop_core merge_sorted id ascending (chunk_rounds (y :: ys)) k0 s1 xs
    (y :: ys) merge_chunk_ok Hc1 Hso Hn) as (s' & -> & Hc' & Hs' & Hm1' & Hm2');
    [left; unfold chunk_rounds; split; [done|lia]|].
  exists s'. rewrite Hm1', Hm2', Hm1, Hm2. split_and!; auto.
Qed.

(** ** Merging *)

(** Two stacks, level by level *)
Fixpoint zip_levels ls1 ls2 : list (list T) :=
  match ls1, ls2 with
  | [], _ => ls2
  | _, [] => ls1
  | l1 :: ls1', l2 :: ls2' => (l1 ++ l2) :: zip_levels ls1' ls2'
  end.

Lemma extend_levels_zip ls flags other :
  length flags = length ls →
  ∃ flags', extend_levels ls flags other = (zip_levels ls other, flags') ∧
    length flags' = length (zip_levels ls other) ∧
    ∀ h l, flags' !! h = Some true → zip_levels ls other !! h = Some l →
      l = [] ∨ (flags !! h = Some true ∧ ls !! h = Some l).
Proof.
  revert ls flags. induction other as [|l other IH]; intros ls flags Hf; cbn [extend_levels].
  { exists flags. replace (zip_levels ls []) with ls by (by destruct ls). split_and!; [done..|].
    intros h l Hh Hl. by right. }
  destruct (IH (tail ls) (tail flags)) as (fs & -> & Hlen & Hso).
  { by destruct ls, flags; simplify_eq/=. }
  cbn [fst snd]. destruct ls as [|m ls], flags as [|b flags]; simplify_eq/=.
  - destruct l as [|x l]; eexists; (split_and!; [done|by rewrite <-Hlen|]);
      intros [|h] l' Hh Hl; simplify_eq/=; try by left.
    all: by destruct (Hso h l' Hh Hl) as [|[? _]]; [left|].
  - destruct l as [|x l]; [rewrite app_nil_r|];
      eexists; (split_and!; [done|by rewrite <-Hlen|]); intros [|h] l' Hh Hl; simplify_eq/=.
    all: first [by right|by destruct (Hso h l' Hh Hl) as [|[? ?]]; [left|right]].
Qed.

Lemma zip_levels_length ls1 ls2 : length (zip_levels ls1 ls2) = length ls1 `max` length ls2.
Proof.
  revert ls2. induction ls1 as [|l1 ls1 IH]; intros [|l2 ls2]; simpl; [done..|]. by rewrite IH.
Qed.

Lemma zip_levels_wsum P ls1 ls2 :
  wsum (cnt P) (zip_levels ls1 ls2) = (wsum (cnt P) ls1 + wsum (cnt P) ls2)%N.
Proof.
  revert ls2. induction ls1 as [|l1 ls1 IH]; intros [|l2 ls2]; cbn [zip_levels wsum]; [lia..|].
  rewrite IH, cnt_app. lia.
Qed.

Lemma zip_levels_gsum g ls1 ls2 : gsum g (zip_levels ls1 ls2) = (gsum g ls1 + gsum g ls2)%N.
Proof.
  revert g ls2. induction ls1 as [|l1 ls1 IH]; intros g [|l2 ls2]; cbn [zip_levels gsum]; [lia..|].
  rewrite IH, length_app. lia.
Qed.

Lemma zip_levels_concat ls1 ls2 : concat (zip_levels ls1 ls2) ≡ₚ concat ls1 ++ concat ls2.
Proof.
  revert ls2. induction ls1 as [|l1 ls1 IH]; intros [|l2 ls2]; cbn [zip_levels concat]; [done..| |].
  - by rewrite app_nil_r.
  - rewrite IH. solve_Permutation.
Qed.

Lemma zip_levels_top ls1 ls2 : top_ok ls1 → top_ok ls2 → top_ok (zip_levels ls1 ls2).
Proof.
  intros H1 H2. unfold top_ok. rewrite zip_levels_length.
  assert (0 < length ls1) by (destruct H1 as [?|(l & Hl & _)]; [lia|destruct ls1; simpl; [done|lia]]).
  assert (0 < length ls2) by (destruct H2 as [?|(l & Hl & _)]; [lia|destruct ls2; simpl; [done|lia]]).
  destruct (decide (length ls1 `max` length ls2 = 1)) as [|Hne]; [by left|right].
  revert ls2 H1 H2 Hne H0 H3. induction ls1 as [|l1 ls1 IH]; intros [|l2 ls2] H1 H2 Hne ??;
    simpl in *; try lia.
  destruct ls1 as [|m1 ls1].
  - destruct ls2 as [|m2 ls2]; [simpl in Hne; lia|]. destruct H2 as [|H2]; [simpl in *; lia|].
    by rewrite last_cons_cons in *.
  - destruct ls2 as [|m2 ls2].
    { destruct H1 as [|H1]; [simpl in *; lia|]. by rewrite last_cons_cons in *. }
    destruct H1 as [|H1]; [simpl in *; lia|]. destruct H2 as [|H2]; [simpl in *; lia|].
    rewrite last_cons_cons in H1, H2. cbn [zip_levels]. rewrite last_cons_cons.
    destruct (decide (length (m1 :: ls1) `max` length (m2 :: ls2) = 1)) as [Hone|Hn1].
    + destruct ls1, ls2; simpl in *; try lia. destruct H1 as (l & [= <-] & Hl).
      exists (m1 ++ m2). split; [done|]. by destruct m1.
    + apply (IH (m2 :: ls2)); [by right|by right|done|simpl; lia..].
Qed.

Lemma drift_merge s1 s2 s xs ys :
  k s1 = k s → k s2 = k s → levels s = zip_levels (levels s1) (levels s2) →
  drift s1 xs → drift s2 ys → drift s (xs ++ ys).
Proof.
  intros Hk1 Hk2 Hl (m1 & He1 & Hm1) (m2 & He2 & Hm2).
  rewrite Hk1 in Hm1. rewrite Hk2 in Hm2.
  assert (length (levels s1) ≤ length (levels s)) as HL1 by (rewrite Hl, zip_levels_length; lia).
  assert (length (levels s2) ≤ length (levels s)) as HL2 by (rewrite Hl, zip_levels_length; lia).
  assert (∀ P, wsum (cnt P) (levels s) = wsum (cnt P) (levels s1) + wsum (cnt P) (levels s2))%N
    as Hws by (intros; by rewrite Hl, zip_levels_wsum).
  assert (∀ g, gsum g (levels s) = gsum g (levels s1) + gsum g (levels s2))%N
    as Hgs by (intros; by rewrite Hl, zip_levels_gsum).
  exists (λ h, m1 h + m2 h)%N. split.
  - intros x. specialize (He1 x). specialize (He2 x).
    rewrite (lsum_ext _ (λ h, m1 h * 2 ^ N.of_nat h + m2 h * 2 ^ N.of_nat h)%N) by (intros; lia).
    rewrite lsum_add, Hws, cnt_app.
    pose proof (lsum_seq_mono (λ h, m1 h * 2 ^ N.of_nat h)%N (pred (length (levels s1)))
      (pred (length (levels s))) ltac:(lia)).
    pose proof (lsum_seq_mono (λ h, m2 h * 2 ^ N.of_nat h)%N (pred (length (levels s2)))
      (pred (length (levels s))) ltac:(lia)). unfold within in *. lia.
  - intros h. specialize (Hm1 h). specialize (Hm2 h). unfold above in *.
    rewrite Hgs.
    pose proof (pairs_of_anti (k s) _ _ h HL1) as Ha1. pose proof (pairs_of_anti (k s) _ _ h HL2) as Ha2.
    pose proof (N.mul_le_mono_l _ _ (m1 h * 2 ^ N.of_nat h)%N Ha1).
    pose proof (N.mul_le_mono_l _ _ (m2 h * 2 ^ N.of_nat h)%N Ha2). lia.
Qed.

Lemma merge_core k0 s other xs ys :
  core k0 s xs → core k0 other ys → is_u64 (N.of_nat (length (xs ++ ys))) →
  ∃ s', merge (E:=E) other s = Ok s' ∧ core k0 s' (xs ++ ys) ∧ settled (E:=E) s' ∧
    min s' = merge_min (min s) (min other) ∧ max s' = merge_max (max s) (max other).
Proof.
  intros [([Hne Hfl Hso] & Htop & _) Hk Hw Hi Hd] [(_ & Htop' & _) Hk' Hw' Hi' Hd'] Hn.
  unfold merge. cbn [levels sorted set_extremes].
  destruct (extend_levels_zip (levels s) (sorted s) (levels other) Hfl) as (flags & -> & Hlen & Hfs).
  set (s1 := set_levels _ flags _). apply (core_compact k0 s1).
  assert (levels s1 = zip_levels (levels s) (levels other)) as Hl1 by done.
  assert (wsum length (levels s1) = N.of_nat (length (xs ++ ys))) as Hw1.
  { rewrite <-(wsum_ext (cnt (λ _, true)) length) by apply cnt_all. rewrite Hl1, zip_levels_wsum.
    rewrite !(wsum_ext (cnt (λ _, true)) length) by apply cnt_all.
    rewrite Hw, Hw', length_app. lia. }
  split.
  - split_and!; [split|by apply zip_levels_top|by rewrite Hw1].
    + rewrite Hl1. intros Hnil%(f_equal length). rewrite zip_levels_length in Hnil.
      destruct (levels s); [done|simpl in *; lia].
    + done.
    + intros h l Hh Hl. destruct (Hfs h l Hh Hl) as [->|[? ?]]; [constructor|by eapply Hso].
  - done.
  - done.
  - rewrite Hl1, zip_levels_concat. by apply submseteq_app.
  - intros Hk0 Hn41. rewrite length_app in Hn41.
    apply (drift_merge s other); [done|by rewrite Hk', <-Hk|done|apply Hd; [done|lia]|apply Hd'; [done|lia]].
Qed.

(** ** Rebuilding *)

Lemma levels_fit_ok k n h ls :
  n - h - 1 < 64 → (∀ j l cap, ls !! j = Some l → level_capacity (E:=E) k n (h + j) = Ok cap →
    (N.of_nat (length l) ≤ cap)%N) → levels_fit (E:=E) k n h ls = Ok true.
Proof.
  revert h. induction ls as [|l ls IH]; intros h Hh Hfit; [done|]. cbn [levels_fit].
  destruct (level_capacity_ok (E:=E) k n h Hh) as (cap & Hcap & _). rewrite Hcap. cbn [obind].
  rewrite (proj2 (N.ltb_ge _ _)).
  - apply IH; [lia|]. intros j l' cap' Hj Hc. apply (Hfit (S j)); [done|]. by rewrite Nat.add_succ_r.
  - apply (Hfit 0); [done|]. by rewrite Nat.add_0_r.
Qed.

Lemma sort_levels ls :
  (∀ P, wsum (cnt P) (sort <$> ls) = wsum (cnt P) ls) ∧
  (∀ g, gsum g (sort <$> ls) = gsum g ls) ∧ concat (sort <$> ls) ≡ₚ concat ls.
Proof.
  split_and!.
  - intros P. induction ls as [|l ls IH]; [done|]. rewrite fmap_cons. cbn [wsum].
    by rewrite IH, (cnt_perm P _ _ (sort_perm l)).
  - induction ls as [|l ls IH]; intros g; [done|]. rewrite fmap_cons. cbn [gsum].
    by rewrite IH, sort_perm.
  - induction ls as [|l ls IH]; [done|]. rewrite fmap_cons. cbn [concat]. by rewrite IH, sort_perm.
Qed.

Lemma from_parts_core k0 s xs r :
  core k0 s xs → settled (E:=E) s → (MIN_LEVEL_WIDTH ≤ k0)%N →
  let s' := mk (sort <$> levels s) (replicate (length (levels s)) true) (k s) r (min s) (max s) in
  from_parts (E:=E) (k s) (levels s) (min s) (max s) r = Ok (Some s') ∧ core k0 s' xs ∧
  settled (E:=E) s'.
Proof.
  intros [([Hne Hfl Hso] & Htop & Hu) Hk Hw Hi Hd] Hset Hk0. cbv zeta.
  destruct (sort_levels (levels s)) as (Hsw & Hsg & Hsc).
  assert (length (levels s) ≤ 64) as HL by by apply stack_ok_height.
  split; [|split].
  - unfold from_parts. rewrite bool_decide_false by done.
    rewrite (proj2 (N.ltb_ge _ _)) by (by rewrite Hk). cbn [orb].
    rewrite levels_fit_ok; [done|lia|]. intros j l cap Hj Hc.
    apply N.lt_le_incl. by apply (Hset j l cap Hj).
  - assert (wsum length (sort <$> levels s) = wsum length (levels s)) as Hwl.
    { rewrite <-!(wsum_ext (cnt (λ _, true)) length) by apply cnt_all. apply Hsw. }
    split; cbn [levels k].
    + split_and!; cbn [levels]; [split; cbn [levels sorted]| |by rewrite Hwl].
      * intros Hnil%fmap_nil_inv. done.
      * by rewrite length_replicate, length_fmap.
      * intros h l _ Hl. apply list_lookup_fmap_Some in Hl as (l' & -> & _). apply sort_ascending.
      * destruct Htop as [?|(l & Hl & Hlne)]; [left; by rewrite length_fmap|right].
        exists (sort l). rewrite fmap_last, Hl. split; [done|]. intros Hnil.
        pose proof (sort_perm l) as Hp. rewrite Hnil in Hp. by apply Permutation_nil_l in Hp.
    + done.
    + by rewrite Hwl.
    + by rewrite Hsc.
    + intros H1 H2. destruct (Hd H1 H2) as (m & He & Hm). exists m. cbn [levels k].
      rewrite length_fmap. split.
      * intros x. rewrite Hsw. apply He.
      * intros h. unfold above in *. rewrite Hsg. apply Hm.
  - intros h l cap Hl Hc. unfold capacity in Hc. cbn [levels k] in *. rewrite length_fmap in Hc.
    apply list_lookup_fmap_Some in Hl as (l' & -> & Hl'). rewrite sort_perm. by apply (Hset h l' cap).
Qed.
End ops.
