(* ===== verification/KllQuery.v ===== *)
(** * Queries of the KLL sketch

    What [count], [rank] and [at_ranks] answer, in terms of the weights of the
    retained items; and the sketches of a stream, with what is known of them. *)

From S2P Require Import Prelude Machine Kll KllFacts KllStream KllOps.
Import KllSketch.

Section query.
Context {E T : Type} `{!Ord T} `{Coins}.
Implicit Types (s : KllSketch.t T) (x y : T) (ps : list (T * N)) (ls : list (list T)).

Lemma count_exact k0 s xs :
  core k0 s xs → count s = N.of_nat (length xs).
Proof.
  intros Hc. pose proof (co_stack _ _ _ Hc) as Hs. unfold count.
  rewrite weighted_exact; [apply Hc|by apply stack_ok_height|apply Hs].
Qed.

Lemma weighted_cnt P k0 s xs :
  core k0 s xs → weighted (cnt P) s = wsum (cnt P) (levels s).
Proof.
  intros Hc. pose proof (co_stack _ _ _ Hc) as (? & ? & Hu). apply weighted_exact.
  - apply stack_ok_height. by apply (co_stack k0 s xs).
  - pose proof (wsum_le (cnt P) length (levels s) (cnt_le P)). unfold is_u64 in *. lia.
Qed.

(** ** Weighted items *)

(** The weight of the pairs whose item satisfies [P] *)
Definition wt (P : T → bool) ps : N := lsum (λ p, if P p.1 then p.2 else 0%N) ps.

Lemma wt_cons P p ps : wt P (p :: ps) = ((if P p.1 then p.2 else 0) + wt P ps)%N.
Proof. done. Qed.

Lemma wt_app P ps1 ps2 : wt P (ps1 ++ ps2) = (wt P ps1 + wt P ps2)%N.
Proof. apply lsum_app. Qed.

Lemma wt_le P Q ps :
  (∀ p, p ∈ ps → P p.1 = true → Q p.1 = true) → (wt P ps ≤ wt Q ps)%N.
Proof.
  unfold wt. induction ps as [|p ps IH]; intros Hpq; simpl; [done|].
  pose proof (IH (λ q Hq, Hpq q (list_elem_of_further _ _ _ Hq))).
  pose proof (Hpq p (list_elem_of_here _ _)). destruct (P p.1); [rewrite H1 by done; lia|lia].
Qed.

Lemma wt_none P ps : (∀ p, p ∈ ps → P p.1 = false) → wt P ps = 0%N.
Proof. intros Hp. apply lsum_zero. intros p Hin. by rewrite Hp. Qed.

Definition raw_pairs s : list (T * N) :=
  concat (imap (λ h l, (λ x, (x, u64_shl1 h)) <$> l) (levels s)).

Lemma raw_pairs_wt P s :
  length (levels s) ≤ 64 → wt P (raw_pairs s) = wsum (cnt P) (levels s).
Proof.
  unfold raw_pairs. generalize (levels s) as ls. intros ls HL.
  assert (∀ o, o + length ls ≤ 64 →
    wt P (concat (imap (λ h l, (λ x, (x, u64_shl1 (o + h))) <$> l) ls))
    = (2 ^ N.of_nat o * wsum (cnt P) ls)%N) as Hg.
  { clear HL. induction ls as [|l ls IH]; intros o Ho; [simpl; lia|].
    cbn [imap concat wsum length] in *. rewrite wt_app.
    rewrite (imap_ext _ (λ h l, (λ x, (x, u64_shl1 (S o + h))) <$> l))
      by (intros; simpl; by rewrite Nat.add_succ_r).
    rewrite IH by lia. rewrite Nat2N.inj_succ, N.pow_succ_r', Nat.add_0_r, u64_shl1_exact by lia.
    assert (wt P ((λ x, (x, 2 ^ N.of_nat o)%N) <$> l) = (2 ^ N.of_nat o * N.of_nat (cnt P l))%N) as ->.
    { clear. induction l as [|x l IH]; [by rewrite N.mul_0_r|]. rewrite fmap_cons, cnt_cons, wt_cons, IH. simpl.
      destruct (P x); lia. }
    lia. }
  specialize (Hg 0 HL). cbn [Nat.add] in Hg. rewrite Hg. simpl. lia.
Qed.

Lemma pairs_perm s : pairs s ≡ₚ raw_pairs s.
Proof. apply sort_by_perm. Qed.

Lemma pairs_wt P s : length (levels s) ≤ 64 → wt P (pairs s) = wsum (cnt P) (levels s).
Proof.
  intros HL. rewrite <-raw_pairs_wt by done. apply lsum_perm, pairs_perm.
Qed.

Lemma pairs_ascending s : StronglySorted (λ p q : T * N, leb p.1 q.1 = true) (pairs s).
Proof.
  apply (sort_by_sorted (λ p q : T * N, leb p.1 q.1)); [|intros; apply leb_total].
  intros. by eapply leb_trans.
Qed.

Lemma pairs_elem s p : p ∈ pairs s → p.1 ∈ concat (levels s).
Proof.
  rewrite pairs_perm. unfold raw_pairs. intros (l & Hp & Hl)%elem_of_concat.
  apply list_elem_of_lookup in Hl as [h Hl]. rewrite list_lookup_imap in Hl.
  apply fmap_Some in Hl as (l' & Hl' & ->). apply list_elem_of_fmap in Hp as (x & -> & Hx).
  apply elem_of_concat. exists l'. split; [done|]. by eapply list_elem_of_lookup_2.
Qed.

Lemma ltb_irrefl x : ltb x x = false.
Proof. apply ltb_false, leb_refl. Qed.

(** ** The walk over the ranks *)

Definition any (x : T) : bool := true.

(** The cursor has consumed the shortest prefix of [ps] that reaches the ranks up
    to [r]. *)
Definition cursor_at ps (r : N) (c : cursor) : Prop :=
  ∃ consumed, ps = consumed ++ remaining c ∧ cumulative c = wt any consumed ∧
    ((consumed = [] ∧ current c = None) ∨
     ∃ before p, consumed = before ++ [p] ∧ current c = Some p.1 ∧ (wt any before < r)%N).

Lemma sweep_spec ps r0 r c :
  cursor_at ps r0 c → (r0 ≤ r)%N → (r ≤ wt any ps)%N → is_u64 (wt any ps) →
  ∃ c', sweep (E:=E) r (remaining c) (cumulative c) (current c) = Ok c' ∧
    cursor_at ps r c' ∧ (r ≤ cumulative c')%N.
Proof.
  destruct c as [rest w cur]. intros (consumed & Hps & Hw & Hcur) Hr Hle Hu. cbn in *.
  assert ((consumed = [] ∧ cur = None) ∨
     ∃ before p, consumed = before ++ [p] ∧ cur = Some p.1 ∧ (wt any before < r)%N) as Hcur'.
  { destruct Hcur as [?|(before & p & ? & ? & ?)]; [by left|right]. exists before, p. split_and!; try done. lia. }
  clear Hcur Hr. revert consumed w cur Hps Hw Hcur'.
  induction rest as [|[x v] rest IH]; intros consumed w cur Hps Hw Hcur; simpl;
    destruct (N.ltb_spec w r) as [Hlt|Hge].
  - rewrite Hps, app_nil_r in Hle. lia.
  - exists (mkCursor [] w cur). split_and!; try done. exists consumed. by split_and!.
  - rewrite Hps, wt_app, wt_cons in Hu. cbn in Hu. unfold is_u64 in Hu.
    rewrite u64_add_exact by lia.
    apply (IH (consumed ++ [(x, v)])).
    + by rewrite Hps, <-app_assoc.
    + rewrite wt_app, Hw. cbn. lia.
    + right. exists consumed, (x, v). split_and!; try done. by rewrite <-Hw.
  - exists (mkCursor ((x, v) :: rest) w cur). split_and!; try done. exists consumed. by split_and!.
Qed.

(** The answer for a rank: an extreme for a rank at an end, and otherwise the
    least retained item up to which the weights add up to the rank. *)
Definition answers s (total r : N) (o : option T) : Prop :=
  if (r =? 0)%N then o = min s
  else if (total <=? r)%N then o = max s
  else ∃ x, o = Some x ∧ x ∈ concat (levels s) ∧
    (wsum (cnt (λ y, ltb y x)) (levels s) < r ≤ wsum (cnt (λ y, leb y x)) (levels s))%N.

Lemma cursor_answer s r c :
  length (levels s) ≤ 64 → cursor_at (pairs s) r c → (r ≤ cumulative c)%N → r ≠ 0%N →
  ∃ x, current c = Some x ∧ x ∈ concat (levels s) ∧
    (wsum (cnt (λ y, ltb y x)) (levels s) < r ≤ wsum (cnt (λ y, leb y x)) (levels s))%N.
Proof.
  intros HL (consumed & Hps & Hw & Hcur) Hr Hr0.
  destruct Hcur as [[-> _]|(before & p & -> & Hc & Hb)]; [cbn in Hw; lia|].
  exists p.1. split; [done|].
  assert (p ∈ pairs s) as Hp by (rewrite Hps; set_solver).
  split; [by apply pairs_elem|]. rewrite <-!pairs_wt by done.
  pose proof (pairs_ascending s) as Hs. rewrite Hps in *. rewrite <-app_assoc in Hs.
  apply StronglySorted_app in Hs as (Hcross & _ & Hs). cbn in Hs.
  apply StronglySorted_inv in Hs as [_ Hafter]. rewrite <-!app_assoc, !wt_app, !wt_cons. split.
  - rewrite ltb_irrefl. cbv iota. rewrite (wt_none _ (remaining c)).
    + pose proof (wt_le (λ y, ltb y p.1) any before ltac:(done)). change (wt _ []) with 0%N. lia.
    + intros q Hq. apply ltb_false. by eapply Forall_forall in Hafter.
  - rewrite leb_refl. cbv iota. rewrite Hw, wt_app, wt_cons in Hr. cbn in Hr.
    pose proof (wt_le any (λ y, leb y p.1) before) as Hbe. ospecialize (Hbe _); [|change (wt _ []) with 0%N; lia].
    intros q Hq _. apply (Hcross q p); [done|]. cbn. left.
Qed.

Definition rank_of (ranks : list N) (i : nat) : N := default 0%N (ranks !! i).

Lemma answer_slot_spec s total ranks r0 c ans slot r :
  length (levels s) ≤ 64 → is_u64 total → total = wt any (pairs s) → ranks !! slot = Some r →
  slot < length ans → cursor_at (pairs s) r0 c → (r0 ≤ r)%N →
  ∃ c' o, answer_slot (E:=E) s total ranks (c, ans) slot = Ok (c', <[slot := o]> ans) ∧
    cursor_at (pairs s) r c' ∧ answers s total r o.
Proof.
  intros HL Hu Ht Hr Hslot Hc Hle. unfold answer_slot, index, answers. rewrite Hr. cbn [obind fst snd].
  assert (cursor_at (pairs s) r c) as Hc'.
  { destruct Hc as (consumed & ? & ? & [?|(before & p & ? & ? & ?)]); exists consumed;
      (split_and!; [done..|]); [by left|right]. exists before, p. split_and!; try done. lia. }
  destruct (N.eqb_spec r 0); [by exists c, (min s)|].
  destruct (N.leb_spec total r) as [|Hlt]; [by exists c, (max s)|].
  destruct (sweep_spec (pairs s) r0 r c Hc Hle) as (c1 & -> & Hc1 & Hge); [lia|by rewrite <-Ht|].
  cbn [obind]. exists c1, (current c1). split_and!; [done..|]. by apply cursor_answer.
Qed.

Lemma answer_slots_spec s total ranks slots r0 c ans :
  length (levels s) ≤ 64 → is_u64 total → total = wt any (pairs s) →
  NoDup slots → StronglySorted (λ i j, (rank_of ranks i <=? rank_of ranks j)%N = true) slots →
  (∀ i, i ∈ slots → i < length ranks ∧ (r0 ≤ rank_of ranks i)%N) → length ans = length ranks →
  cursor_at (pairs s) r0 c →
  ∃ c' ans', answer_slots (E:=E) s total ranks slots (c, ans) = Ok (c', ans') ∧
    length ans' = length ranks ∧ (∀ i, i ∉ slots → ans' !! i = ans !! i) ∧
    ∀ i, i ∈ slots → ∃ o, ans' !! i = Some o ∧ answers s total (rank_of ranks i) o.
Proof.
  intros HL Hu Ht. revert r0 c ans. induction slots as [|i slots IH];
    intros r0 c ans Hnd Hso Hin Hlen Hc; cbn [answer_slots].
  { exists c, ans. split_and!; try done. by intros i ?%elem_of_nil. }
  apply NoDup_cons in Hnd as [Hi Hnd]. apply StronglySorted_inv in Hso as [Hso Hle].
  destruct (Hin i ltac:(left)) as [Hilt Hr0].
  destruct (lookup_lt_is_Some_2 ranks i Hilt) as [r Hr].
  assert (rank_of ranks i = r) as Hri by (unfold rank_of; by rewrite Hr). rewrite Hri in *.
  destruct (answer_slot_spec s total ranks r0 c ans i r) as (c1 & o & -> & Hc1 & Ho); try done; [lia|].
  cbn [obind]. destruct (IH r c1 (<[i := o]> ans) Hnd Hso) as (c' & ans' & -> & Hl' & Hout & Hins);
    [|by rewrite length_insert|done|].
  { intros j Hj. split; [by apply Hin; right|]. eapply Forall_forall in Hle; [|done].
    by apply N.leb_le in Hle. }
  exists c', ans'. split_and!; try done.
  - intros j [Hji Hj]%not_elem_of_cons. by rewrite Hout, list_lookup_insert_ne by done.
  - intros j [->|Hj]%elem_of_cons; [|by apply Hins].
    exists o. rewrite Hout, list_lookup_insert_eq, Hri by (done || lia). done.
Qed.

Lemma slots_by_rank_spec ranks :
  slots_by_rank ranks ≡ₚ seq 0 (length ranks) ∧
  StronglySorted (λ i j, (rank_of ranks i <=? rank_of ranks j)%N = true) (slots_by_rank ranks).
Proof.
  split; [apply sort_by_perm|]. apply (sort_by_sorted (λ i j, (rank_of ranks i <=? rank_of ranks j)%N)).
  - intros x y z. rewrite !N.leb_le. lia.
  - intros x y. rewrite !N.leb_le. lia.
Qed.

(** Several ranks are answered in one pass, each as it would be alone. *)
Lemma at_ranks_spec k0 s xs ranks :
  core k0 s xs → xs ≠ [] →
  ∃ ans, at_ranks (E:=E) ranks s = Ok ans ∧
    Forall2 (answers s (N.of_nat (length xs))) ranks ans.
Proof.
  intros Hc Hne. pose proof (co_stack _ _ _ Hc) as Hst. pose proof (stack_ok_height s Hst) as HL.
  unfold at_ranks. rewrite (count_exact k0 s xs Hc).
  assert (N.of_nat (length xs) ≠ 0%N) as Hn0 by (destruct xs; simpl; [done|lia]).
  rewrite (proj2 (N.eqb_neq _ _) Hn0).
  assert (N.of_nat (length xs) = wt any (pairs s)) as Htot.
  { rewrite pairs_wt by done. unfold any. rewrite (wsum_ext (cnt (λ _, true)) length) by apply cnt_all.
    symmetry. apply Hc. }
  destruct (slots_by_rank_spec ranks) as [Hperm Hso].
  destruct (answer_slots_spec s (N.of_nat (length xs)) ranks (slots_by_rank ranks) 0
    (mkCursor (pairs s) 0 None) (replicate (length ranks) None)) as (c' & ans & -> & Hlen & _ & Hall).
  - done.
  - rewrite <-(co_weight _ _ _ Hc). apply Hst.
  - done.
  - rewrite Hperm. apply NoDup_seq.
  - done.
  - intros i. rewrite Hperm. intros [_ ?]%elem_of_seq. split; lia.
  - by rewrite length_replicate.
  - exists []. split_and!; [done..|by left].
  - exists ans. split; [done|]. apply Forall2_same_length_lookup_2; [done|].
    intros i r o Hr Ho. destruct (Hall i) as (o' & Ho' & Ha).
    { rewrite Hperm. apply elem_of_seq. apply lookup_lt_Some in Hr. lia. }
    unfold rank_of in Ha. rewrite Hr in Ha. rewrite Ho in Ho'. by injection Ho' as <-.
Qed.

Lemma below_mono x y ls :
  ltb x y = true → (wsum (cnt (λ z, leb z x)) ls ≤ wsum (cnt (λ z, ltb z y)) ls)%N.
Proof.
  intros Hxy. apply wsum_le. intros l. induction l as [|z l IH]; [done|]. rewrite !cnt_cons.
  destruct (leb z x) eqn:Hz; [|lia]. assert (ltb z y = true) as ->; [|lia].
  unfold ltb in *. apply negb_true_iff in Hxy. apply negb_true_iff.
  destruct (leb y z) eqn:Hyz; [|done]. rewrite (leb_trans y z x) in Hxy; done.
Qed.

(** There is only one answer. *)
Lemma answers_unique s total r o1 o2 : answers s total r o1 → answers s total r o2 → o1 = o2.
Proof.
  unfold answers. destruct (r =? 0)%N; [congruence|]. destruct (total <=? r)%N; [congruence|].
  intros (x & -> & _ & Hx) (y & -> & _ & Hy). f_equal.
  destruct (leb x y) eqn:Hxy, (leb y x) eqn:Hyx; [by apply leb_antisym|..].
  - pose proof (below_mono x y (levels s) ltac:(unfold ltb; by rewrite Hyx)). lia.
  - pose proof (below_mono y x (levels s) ltac:(unfold ltb; by rewrite Hxy)). lia.
  - destruct (leb_total x y); congruence.
Qed.

(** The answers are items of the stream, and ascend with the ranks. *)
Lemma answers_item k0 s xs r o :
  core k0 s xs → least (min s) xs → greatest (max s) xs → xs ≠ [] →
  answers s (N.of_nat (length xs)) r o → ∃ x, o = Some x ∧ x ∈ xs.
Proof.
  intros Hc Hlo Hhi Hne. unfold answers. destruct (r =? 0)%N.
  { intros ->. destruct (min s) as [m|]; [|done]. destruct Hlo as [? _]. by exists m. }
  destruct (_ <=? r)%N.
  { intros ->. destruct (max s) as [m|]; [|done]. destruct Hhi as [? _]. by exists m. }
  intros (x & -> & Hx & _). exists x. split; [done|].
  eapply elem_of_submseteq; [done|]. apply (co_items _ _ _ Hc).
Qed.

Lemma answers_mono k0 s xs r1 r2 x1 x2 :
  core k0 s xs → least (min s) xs → greatest (max s) xs → xs ≠ [] → (r1 ≤ r2)%N → r1 ≠ 0%N →
  answers s (N.of_nat (length xs)) r1 (Some x1) → answers s (N.of_nat (length xs)) r2 (Some x2) →
  leb x1 x2 = true.
Proof.
  intros Hc Hlo Hhi Hne Hr Hr1 Ha1 Ha2.
  destruct (answers_item _ _ _ _ _ Hc Hlo Hhi Hne Ha1) as (? & [= <-] & Hx1).
  unfold answers in *. rewrite !(proj2 (N.eqb_neq _ _)) in * by lia.
  destruct (N.leb_spec (N.of_nat (length xs)) r2).
  { rewrite <-Ha2 in Hhi. by apply Hhi. }
  rewrite (proj2 (N.leb_gt _ _)) in Ha1 by lia.
  destruct Ha1 as (? & [= <-] & _ & H1), Ha2 as (? & [= <-] & _ & H2).
  destruct (leb x1 x2) eqn:Hle; [done|].
  pose proof (below_mono x2 x1 (levels s) ltac:(unfold ltb; by rewrite Hle)). lia.
Qed.

(** A sketch that differs in the order of its levels only answers alike. *)
Lemma permuted_alike k0 xs s s' :
  core k0 s xs → core k0 s' xs → levels s' = sort <$> levels s → min s' = min s → max s' = max s →
  count s' = count s ∧ (∀ x, rank x s' = rank x s) ∧
  ∀ ranks, at_ranks (E:=E) ranks s' = at_ranks ranks s.
Proof.
  intros Hc Hc' Hl Hm1 Hm2. destruct (sort_levels (levels s)) as (Hw & _ & Hcc). rewrite <-Hl in Hw, Hcc.
  split_and!.
  - by rewrite (count_exact k0 s xs), (count_exact k0 s' xs).
  - intros x. unfold rank. change (λ l, length (below x l)) with (cnt (λ y, ltb y x)).
    rewrite (weighted_cnt _ k0 s xs Hc), (weighted_cnt _ k0 s' xs Hc'). apply Hw.
  - intros ranks. destruct (decide (xs = [])) as [->|Hne].
    { unfold at_ranks. by rewrite (count_exact k0 s []), (count_exact k0 s' []). }
    destruct (at_ranks_spec k0 s xs ranks Hc Hne) as (ans & -> & Ha).
    destruct (at_ranks_spec k0 s' xs ranks Hc' Hne) as (ans' & -> & Ha'). f_equal.
    apply (Forall2_unique (answers s (N.of_nat (length xs))) ranks);
      [|done|intros ???; apply answers_unique].
    eapply Forall2_impl; [done|]. intros q o. unfold answers. rewrite Hm1, Hm2.
    destruct (q =? 0)%N; [done|]. destruct (_ <=? q)%N; [done|].
    intros (x & -> & Hx & Hq). exists x. rewrite !Hw in Hq. rewrite Hcc in Hx. done.
Qed.
End query.

(** ** The sketches of a stream *)

Section sketches.
Context {E T : Type} `{!Ord T} `{Coins}.
Implicit Types (s : KllSketch.t T) (x : T) (xs ys : list T).

(** The sketches of a stream *)
Inductive sketch_of (k0 : N) : KllSketch.t T → list T → Prop :=
| Of_new r : sketch_of k0 (with_rng k0 r) []
| Of_insert s xs x s' :
    sketch_of k0 s xs → insert (E:=E) x s = Ok s' → sketch_of k0 s' (xs ++ [x])
| Of_absorb s xs ys s' :
    sketch_of k0 s xs → absorb (E:=E) ys s = Ok s' → sketch_of k0 s' (xs ++ ys)
| Of_absorb_slice s xs ys s' :
    sketch_of k0 s xs → absorb_slice (E:=E) ys s = Ok s' → sketch_of k0 s' (xs ++ ys)
| Of_absorb_sorted s xs ys s' :
    sketch_of k0 s xs → absorb_sorted_slice (E:=E) ys s = Ok s' → sketch_of k0 s' (xs ++ ys)
| Of_merge s xs other ys s' :
    sketch_of k0 s xs → sketch_of k0 other ys → merge (E:=E) other s = Ok s' →
    sketch_of k0 s' (xs ++ ys)
| Of_clone s xs r : sketch_of k0 s xs → sketch_of k0 (clone r s) xs
| Of_parts s xs r s' :
    sketch_of k0 s xs → from_parts (E:=E) (k s) (levels s) (min s) (max s) r = Ok (Some s') →
    sketch_of k0 s' xs.

(** What is known of a sketch of a stream *)
Record described (k0 : N) s xs : Prop := {
  de_core : core k0 s xs;
  de_settled : settled (E:=E) s;
  de_least : least (min s) xs;
  de_greatest : greatest (max s) xs;
}.

Lemma new_described k0 r : described k0 (with_rng k0 r) [].
Proof.
  split; try done.
  - split; try done.
    + split_and!; [split|by left|done]; try done.
      intros [|h] l _ Hl; simplify_eq/=. constructor.
    + intros _ _. exists (λ _, 0%N). split; [by intros x|]. intros h. cbn. lia.
  - intros [|h] l cap Hl Hc; simplify_eq/=.
    destruct (level_capacity_ok (E:=E) k0 1 0) as (cap' & Hc' & ?); [lia|].
    unfold capacity in Hc. cbn [levels k with_rng length] in Hc. rewrite Hc' in Hc.
    injection Hc as <-. lia.
Qed.

Lemma insert_all_described k0 s xs ys :
  described k0 s xs → is_u64 (N.of_nat (length (xs ++ ys))) →
  ∃ s', insert_all (E:=E) ys s = Ok s' ∧ described k0 s' (xs ++ ys).
Proof.
  intros [Hc Hs Hlo Hhi] Hn.
  destruct (insert_all_core k0 s xs ys Hc Hs Hn) as (s' & -> & ? & ? & Hm1 & Hm2).
  exists s'. split; [done|]. split; [done..|rewrite Hm1; by apply least_fold
    |rewrite Hm2; by apply greatest_fold].
Qed.

Lemma u64_prefix xs ys :
  is_u64 (N.of_nat (length (xs ++ ys))) →
  is_u64 (N.of_nat (length xs)) ∧ is_u64 (N.of_nat (length ys)).
Proof. unfold is_u64. rewrite length_app. lia. Qed.

Lemma sketch_described k0 s xs :
  sketch_of k0 s xs → is_u64 (N.of_nat (length xs)) → described k0 s xs.
Proof.
  intros Hs. induction Hs as [r|s xs x s' Hs IH Hi|s xs ys s' Hs IH Hi|s xs ys s' Hs IH Hi
    |s xs ys s' Hs IH Hi|s xs other ys s' Hs IH Ho IHo Hi|s xs r Hs IH|s xs r s' Hs IH Hi]; intros Hn.
  - apply new_described.
  - destruct (u64_prefix xs [x] Hn) as [Hn1 _].
    destruct (insert_all_described k0 s xs [x] (IH Hn1) Hn) as (s1 & Hall & ?).
    cbn [insert_all] in Hall. rewrite Hi in Hall. by injection Hall as <-.
  - destruct (u64_prefix xs ys Hn) as [Hn1 _]. destruct (IH Hn1) as [Hc Hse ??].
    destruct (insert_all_described k0 s xs ys (IH Hn1) Hn) as (s1 & Hall & ?).
    rewrite <-(absorb_insert k0 s xs ys Hc Hse Hn), Hi in Hall. by injection Hall as <-.
  - destruct (u64_prefix xs ys Hn) as [Hn1 _]. destruct (IH Hn1) as [Hc Hse ??].
    destruct (insert_all_described k0 s xs ys (IH Hn1) Hn) as (s1 & Hall & ?).
    rewrite <-(absorb_slice_insert k0 s xs ys Hc Hse Hn), Hi in Hall. by injection Hall as <-.
  - destruct (u64_prefix xs ys Hn) as [Hn1 _]. destruct (IH Hn1) as [Hc Hse Hlo Hhi].
    destruct (absorb_sorted_core k0 s xs ys Hc Hse Hn Hlo Hhi) as (s1 & Hi' & ? & ? & ? & ?).
    rewrite Hi in Hi'. injection Hi' as <-. by split.
  - destruct (u64_prefix xs ys Hn) as [Hn1 Hn2].
    destruct (IH Hn1) as [Hc Hse Hlo Hhi], (IHo Hn2) as [Hc' Hse' Hlo' Hhi'].
    destruct (merge_core (E:=E) k0 s other xs ys Hc Hc' Hn) as (s1 & Hi' & ? & ? & Hm1 & Hm2).
    rewrite Hi in Hi'. injection Hi' as <-.
    split; [done..|rewrite Hm1; by apply least_merge|rewrite Hm2; by apply greatest_merge].
  - destruct (IH Hn) as [Hc Hse ??]. split; [by apply (core_ext k0 s)|done..].
  - destruct (IH Hn) as [Hc Hse ??]. pose proof (co_k _ _ _ Hc) as Hk.
    destruct (decide (MIN_LEVEL_WIDTH ≤ k0)%N) as [Hk0|Hk0].
    + destruct (from_parts_core k0 s xs r Hc Hse Hk0) as (Hp & Hc' & Hs').
      rewrite Hi in Hp. injection Hp as ->. by split.
    + unfold from_parts in Hi. rewrite (proj2 (N.ltb_lt (k s) MIN_LEVEL_WIDTH)) in Hi by lia.
      by rewrite orb_true_r in Hi.
Qed.
End sketches.
