(* ===== verification/SortKey.v ===== *)
(** * Sketches of sort keys

    Models [ballista/core/src/sort_key.rs]: the encoding of fixed-width values as
    [u64] keys in the order of an [ORDER BY] column, the sketch of such a column
    with its NULLs, the cuts it answers, and its form on the wire.

    A value of a primitive type is an integer: the number itself, or the bits of a
    float. Arrow arrays and scalars are their type and their values; the IPC format
    of Arrow and the protobuf form of a scalar are parameters ([WireFormat]). *)

From S2P Require Import Prelude Errors Machine Kll.

(** ** Types *)

Inductive TimeUnit : Type := Second | Millisecond | Microsecond | Nanosecond.

(** The types of Arrow that are encoded; the others are told apart by a name. *)
Inductive DataType : Type :=
| Int8 | Int16 | Int32 | Int64
| UInt8 | UInt16 | UInt32 | UInt64
| Float32 | Float64
| Date32 | Date64
| Time32 (u : TimeUnit)
| Time64 (u : TimeUnit)
| Timestamp (u : TimeUnit) (tz : option string)
| Duration (u : TimeUnit)
| OtherType (name : string).

#[export] Instance TimeUnit_eq_dec : EqDecision TimeUnit.
Proof. solve_decision. Defined.
#[export] Instance DataType_eq_dec : EqDecision DataType.
Proof. solve_decision. Defined.

(** The primitive that backs a type, with its width *)
Inductive native : Type :=
| Signed (w : N)
| Unsigned (w : N)
| Float (w : N).

Definition dispatch_sortable (d : DataType) : option native :=
  match d with
  | Int8 => Some (Signed 8)
  | Int16 => Some (Signed 16)
  | Int32 => Some (Signed 32)
  | Int64 => Some (Signed 64)
  | UInt8 => Some (Unsigned 8)
  | UInt16 => Some (Unsigned 16)
  | UInt32 => Some (Unsigned 32)
  | UInt64 => Some (Unsigned 64)
  | Float32 => Some (Float 32)
  | Float64 => Some (Float 64)
  | Date32 => Some (Signed 32)
  | Date64 => Some (Signed 64)
  | Time32 Second | Time32 Millisecond => Some (Signed 32)
  | Time64 Microsecond | Time64 Nanosecond => Some (Signed 64)
  | Timestamp _ _ => Some (Signed 64)
  | Duration _ => Some (Signed 64)
  | _ => None
  end.

(** ** Keys *)

(** [x as i64 as u64] *)
Definition u64_of_i64 (v : Z) : N := Z.to_N (v `mod` 2 ^ 64).

(** [n as i64 as iw] *)
Definition signed_of (w n : N) : Z :=
  let m := Z.of_N (n `mod` 2 ^ w) in
  if (m <? 2 ^ (Z.of_N w - 1))%Z then m else (m - 2 ^ Z.of_N w)%Z.

(** [!n] for a word of [w] bits *)
Definition bits_not (w n : N) : N := N.lxor n (N.ones w).

Definition to_key (t : native) (v : Z) : N :=
  match t with
  | Signed _ => N.lxor (u64_of_i64 v) (2 ^ 63)
  | Unsigned _ => Z.to_N v
  | Float w =>
      let bits := Z.to_N v in
      let sign := (2 ^ (w - 1))%N in
      if (N.land bits sign =? 0)%N then N.lxor bits sign else bits_not w bits
  end.

Definition from_key (t : native) (key : N) : Z :=
  match t with
  | Signed w => signed_of w (N.lxor key (2 ^ 63))
  | Unsigned w => Z.of_N (key `mod` 2 ^ w)
  | Float w =>
      let bits := (key `mod` 2 ^ w)%N in
      let sign := (2 ^ (w - 1))%N in
      Z.of_N (if (N.land bits sign =? 0)%N then bits_not w bits else N.lxor bits sign)
  end.

(** ** The codec *)

Record SortOptions : Type := mkSortOptions { descending : bool; nulls_first : bool }.

#[export] Instance SortOptions_eq_dec : EqDecision SortOptions.
Proof. solve_decision. Defined.

(** A primitive array, and a scalar; [None] is NULL. *)
Record Array : Type := mkArray { array_type : DataType; array_values : list (option Z) }.
Record ScalarValue : Type := mkScalar { scalar_type : DataType; scalar_value : option Z }.

Definition null_count_of (a : Array) : N :=
  N.of_nat (length (filter (λ v, v = None) (array_values a))).

Definition internal_err (text : string) : DataFusionError := DF_Other text.

Module SortKeyCodec.
Record t : Type := mk { data_type : DataType; options : SortOptions }.

#[global] Instance t_eq_dec : EqDecision t.
Proof. solve_decision. Defined.

Definition try_new (d : DataType) (options : SortOptions) : option t :=
  match dispatch_sortable d with
  | Some _ => Some (mk d options)
  | None => None
  end.

Definition null_value (self : t) : ScalarValue := mkScalar (data_type self) None.

Definition orient (self : t) (key : N) : N :=
  if descending (options self) then bits_not 64 key else key.

Definition encode_primitive (self : t) (n : native) (values : list (option Z)) : list N :=
  (λ v, orient self (to_key n v)) <$> omap id values.

Definition encode (self : t) (array : Array) : outcome DataFusionError (list N) :=
  if bool_decide (array_type array = data_type self) then
    match dispatch_sortable (data_type self) with
    | Some n => Ok (encode_primitive self n (array_values array))
    | None => Err (internal_err "SortKeyCodec: {:?} is not encodable")
    end
  else Err (internal_err "SortKeyCodec: built for {:?} but got {:?}").

Definition decode (self : t) (key : N) : outcome DataFusionError ScalarValue :=
  let key := orient self key in
  match dispatch_sortable (data_type self) with
  | Some n => Ok (mkScalar (data_type self) (Some (from_key n key)))
  | None => Err (internal_err "SortKeyCodec: {:?} is not decodable")
  end.
End SortKeyCodec.

(** ** The wire *)

(** The batch of a serialized sketch: a list column, whose items are structs with
    the given fields; a row has the items of a level, field by field. The items of a
    list column, and the column, may be of another type. *)
Inductive column : Type :=
| StructLists (fields : list (string * DataType)) (rows : list (list (list (option Z))))
| OtherLists
| OtherColumn.
Abbreviation RecordBatch := (list (string * column)).

(** The IPC stream of one batch, and the protobuf form of a scalar *)
Class WireFormat : Type := {
  IpcBytes : Type;
  ipc_write : RecordBatch → DataFusionError + IpcBytes;
  ipc_read : IpcBytes → DataFusionError + option RecordBatch;
  ipc_read_write b bytes : ipc_write b = inr bytes → ipc_read bytes = inr (Some b);
  ProtoScalar : Type;
  scalar_to_proto : ScalarValue → DataFusionError + ProtoScalar;
  scalar_from_proto : ProtoScalar → DataFusionError + ScalarValue;
  scalar_from_to v p : scalar_to_proto v = inr p → scalar_from_proto p = inr v;
}.

Definition of_sum {E A : Type} (r : E + A) : outcome E A :=
  match r with inl e => Err e | inr a => Ok a end.

Record SortKeySketchState `{WireFormat} : Type := mkSketchState {
  st_k : N;
  st_null_count : N;
  st_key_min : list ProtoScalar;
  st_key_max : list ProtoScalar;
  st_levels : IpcBytes;
}.

(** ** The sketch *)

Definition KLL_K : N := 800.
Definition LEVELS_FIELD_NAME : string := "levels".
Definition KEY_FIELD_NAME : string := "expr_0".

Module SortKeySketch.
Record t `{Coins} : Type := mk {
  codec : SortKeyCodec.t;
  sketch : KllSketch.t N;
  nulls : N;
}.

Section impl.
Context `{Coins}.
Implicit Types (self : t).

Abbreviation result A := (outcome DataFusionError A).

Definition new (c : SortKeyCodec.t) (r : StdRng) : t := mk _ c (KllSketch.with_rng KLL_K r) 0.

Definition ingest (array : Array) self : result t :=
  let? keys := SortKeyCodec.encode (codec self) array in
  let? sketch := KllSketch.absorb_sorted_slice keys (sketch self) in
  Ok (mk _ (codec self) sketch (u64_add (nulls self) (null_count_of array))).

Definition merge (other : t) self : result t :=
  if bool_decide (codec self = codec other) then
    let? sketch := KllSketch.merge (sketch other) (sketch self) in
    Ok (mk _ (codec self) sketch (u64_add (nulls self) (nulls other)))
  else Err (internal_err "SortKeySketch::merge: {:?} and {:?} describe different sort keys").

Definition count self : N := u64_add (KllSketch.count (sketch self)) (nulls self).
Definition null_count self : N := nulls self.

(** *** Extremes *)

(** [key.map(decode).transpose()] *)
Definition decode_option (c : SortKeyCodec.t) (key : option N) : result (option ScalarValue) :=
  match key with
  | Some key => let? v := SortKeyCodec.decode c key in Ok (Some v)
  | None => Ok None
  end.

Definition extreme self (nulls_are_on_this_end : bool) (value_extreme : option N)
  : result (option ScalarValue) :=
  if (0 <? nulls self)%N && (nulls_are_on_this_end || bool_decide (value_extreme = None))
  then Ok (Some (SortKeyCodec.null_value (codec self)))
  else decode_option (codec self) value_extreme.

Definition min self : result (option ScalarValue) :=
  extreme self (nulls_first (SortKeyCodec.options (codec self))) (KllSketch.min (sketch self)).
Definition max self : result (option ScalarValue) :=
  extreme self (negb (nulls_first (SortKeyCodec.options (codec self))))
    (KllSketch.max (sketch self)).
Definition value_min self : result (option ScalarValue) :=
  decode_option (codec self) (KllSketch.min (sketch self)).
Definition value_max self : result (option ScalarValue) :=
  decode_option (codec self) (KllSketch.max (sketch self)).

(** *** Quantiles *)

Definition value_rank (q : f64) self : option N :=
  let rank := u64_of_f64 (f64_mul (f64_clamp01 q) (f64_of_u64 (count self))) in
  if (nulls self =? 0)%N then Some rank
  else
    let values := KllSketch.count (sketch self) in
    if (values =? 0)%N then None
    else if nulls_first (SortKeyCodec.options (codec self)) then
      if (nulls self <? rank)%N then Some (rank - nulls self)%N else None
    else if (rank <=? values)%N then Some rank else None.

Definition quantile (q : f64) self : result (option ScalarValue) :=
  if (count self =? 0)%N then Ok None
  else
    match value_rank q self with
    | None => Ok (Some (SortKeyCodec.null_value (codec self)))
    | Some rank =>
        let? key := KllSketch.at_rank rank (sketch self) in
        decode_option (codec self) key
    end.

(** *** Cuts *)

(** The rank among the values of the cut [cut_idx] *)
Definition cut_rank (first : bool) (partition_cnt null_cnt sketch_cnt total_cnt cut_idx : N) : N :=
  let not_null_parts := (partition_cnt - 1)%N in
  let last_cut_idx := (partition_cnt - 1 - 1)%N in
  let nulls_outgrow := (total_cnt <? null_cnt * partition_cnt)%N in
  let num_parts_closed := (cut_idx + 1)%N in
  let total_rank := (num_parts_closed * total_cnt / partition_cnt)%N in
  if first then
    let sketch_rank :=
      if negb nulls_outgrow then (total_rank - null_cnt)%N
      else (cut_idx * sketch_cnt / not_null_parts + 1)%N in
    let lowest_unreserved := (cut_idx + 1)%N in
    ((sketch_rank `max` lowest_unreserved) `min` sketch_cnt)%N
  else
    let sketch_rank :=
      if negb nulls_outgrow then total_rank
      else ((num_parts_closed * sketch_cnt + (not_null_parts - 1)) / not_null_parts)%N in
    let highest_unreserved := (sketch_cnt - (last_cut_idx - cut_idx))%N in
    ((sketch_rank `min` highest_unreserved) `max` 1)%N.

Definition cut_ranks (partition_cnt : nat) self : list N :=
  (λ i, cut_rank (nulls_first (SortKeyCodec.options (codec self))) (N.of_nat partition_cnt)
          (nulls self) (KllSketch.count (sketch self)) (count self) (N.of_nat i))
    <$> seq 0 (partition_cnt - 1).

(** The value of a cut; the rank is that of the message. *)
Definition cut_value (c : SortKeyCodec.t) (key : option N) : result ScalarValue :=
  match key with
  | Some key => SortKeyCodec.decode c key
  | None => Err (internal_err "SortKeySketch: no value at rank {rank} of {} values")
  end.

Fixpoint collect {A B : Type} (f : A → result B) (l : list A) : result (list B) :=
  match l with
  | [] => Ok []
  | a :: l' => let? b := f a in let? bs := collect f l' in Ok (b :: bs)
  end.

Definition cuts (partition_cnt : nat) self : result (list ScalarValue) :=
  if (partition_cnt <? 2) || (KllSketch.count (sketch self) =? 0)%N then Ok []
  else
    let? keys := KllSketch.at_ranks (cut_ranks partition_cnt self) (sketch self) in
    collect (cut_value (codec self)) keys.

(** *** To the wire and back *)

Section wire.
Context `{WireFormat}.

(** [decode_all]: the values of an array of the type of the codec *)
Definition decode_all self (keys : list N) : result (list (option Z)) :=
  let? values := collect (SortKeyCodec.decode (codec self)) keys in
  Ok (scalar_value <$> values).

(** The end of each level in the array of all keys; [i32] offsets *)
Fixpoint offsets (n : nat) (levels : list (list N)) : result (list nat) :=
  match levels with
  | [] => Ok []
  | l :: levels' =>
      let n' := n + length l in
      if (N.of_nat n' <? 2 ^ 31)%N then let? rest := offsets n' levels' in Ok (n' :: rest)
      else Err (internal_err "SortKeySketch: {} retained items overflow an arrow list offset")
  end.

(** The rows of a list array with these ends of its rows *)
Fixpoint rows_of (start : nat) (ends : list nat) (values : list (option Z))
  : list (list (option Z)) :=
  match ends with
  | [] => []
  | e :: ends' => take (e - start) (drop start values) :: rows_of e ends' values
  end.

Definition extreme_proto self (key : option N) : result (list ProtoScalar) :=
  match key with
  | None => Ok []
  | Some key =>
      let? value := SortKeyCodec.decode (codec self) key in
      match scalar_to_proto value with
      | inr p => Ok [p]
      | inl _ => Err (internal_err "SortKeySketch: failed to encode {value:?}: {e:?}")
      end
  end.

Definition to_proto self : result SortKeySketchState :=
  let ascending := KllSketch.sort <$> KllSketch.levels (sketch self) in
  let? ends := offsets 0 ascending in
  let? values := decode_all self (concat ascending) in
  let rows := (λ row, [row]) <$> rows_of 0 ends values in
  let batch :=
    [(LEVELS_FIELD_NAME,
      StructLists [(KEY_FIELD_NAME, SortKeyCodec.data_type (codec self))] rows)] in
  let? ipc := of_sum (ipc_write batch) in
  let? k :=
    if (KllSketch.k (sketch self) <? 2 ^ 32)%N then Ok (KllSketch.k (sketch self))
    else Err (internal_err "SortKeySketch: k={} exceeds u32") in
  let? key_min := extreme_proto self (KllSketch.min (sketch self)) in
  let? key_max := extreme_proto self (KllSketch.max (sketch self)) in
  Ok (mkSketchState _ k (nulls self) key_min key_max ipc).

Definition extreme_key (c : SortKeyCodec.t) (proto : list ProtoScalar) : result (option N) :=
  match proto with
  | [] => Ok None
  | [value] =>
      match scalar_from_proto value with
      | inl _ => Err (internal_err "SortKeySketchState: undecodable extreme: {e:?}")
      | inr v =>
          let? keys := SortKeyCodec.encode c (mkArray (scalar_type v) [scalar_value v]) in
          match keys with
          | [key] => Ok (Some key)
          | _ => Err (internal_err "SortKeySketchState: extreme encoded to no key")
          end
      end
  | _ => Err (internal_err "SortKeySketchState: expected one element per key column in an extreme, got {}")
  end.

Definition column_by_name (name : string) (batch : RecordBatch) : option column :=
  match list_find (λ c : string * column, c.1 = name) batch with
  | Some (_, (_, c)) => Some c
  | None => None
  end.

(** The list column of the levels: its fields and its rows *)
Definition levels_column (bytes : IpcBytes)
  : result (list (string * DataType) * list (list (list (option Z)))) :=
  let? read := of_sum (ipc_read bytes) in
  match read with
  | None => Err (internal_err "SortKeySketchState: levels payload holds no batch")
  | Some batch =>
      match column_by_name LEVELS_FIELD_NAME batch with
      | Some (StructLists fields rows) => Ok (fields, rows)
      | Some OtherLists =>
          Err (internal_err "SortKeySketchState: expected items to be structs, got {other:?}")
      | _ =>
          Err (internal_err "SortKeySketchState: expected a `{LEVELS_FIELD_NAME}` list column, got {:?}")
      end
  end.

(** The keys of a level; a struct array has a column for every field. *)
Definition level_keys (c : SortKeyCodec.t) (key_type : DataType) (row : list (list (option Z)))
  : result (list N) :=
  match row with
  | values :: _ => SortKeyCodec.encode c (mkArray key_type values)
  | [] => Panic
  end.

Definition try_from_proto (proto : SortKeySketchState) (options : SortOptions) (r : StdRng)
  : result t :=
  let? levels := levels_column (st_levels proto) in
  let '(fields, rows) := levels in
  match fields with
  | [(_, key_type)] =>
      match SortKeyCodec.try_new key_type options with
      | None => Err (internal_err "SortKeySketchState: {key_type:?} is not an encodable key")
      | Some c =>
          let? stack := collect (level_keys c key_type) rows in
          let? key_min := extreme_key c (st_key_min proto) in
          let? key_max := extreme_key c (st_key_max proto) in
          let has_keys := existsb (λ l, negb (bool_decide (l = []))) stack in
          if bool_decide (has_keys ≠ bool_decide (key_min ≠ None)) ||
             bool_decide (has_keys ≠ bool_decide (key_max ≠ None))
          then Err (internal_err "SortKeySketchState: a stack holding keys carries both extremes")
          else
            let? parts := KllSketch.from_parts (st_k proto) stack key_min key_max r in
            match parts with
            | Some sketch => Ok (mk _ c sketch (st_null_count proto))
            | None =>
                Err (internal_err "SortKeySketchState: k={} and the level widths describe a stack KLL could not have produced")
            end
      end
  | _ => Err (internal_err "SortKeySketchState: expected one key field per item, got {}")
  end.
End wire.
End impl.
End SortKeySketch.
