(* ===== verification/SortKeyFacts.v ===== *)
(** * Facts about sort keys

    The arithmetic of the encodings, the round trip of values through their keys
    and the order of the keys. *)

From S2P Require Import Prelude Errors Machine Kll KllFacts SortKey.

(** ** Words *)

Lemma testbit_low w m : (m < 2 ^ w)%N → N.testbit m w = false.
Proof.
  intros Hm. destruct (decide (m = 0%N)) as [->|Hne]; [apply N.bits_0|].
  apply N.bits_above_log2. apply N.log2_lt_pow2; lia.
Qed.

Lemma lxor_low w n : (n < 2 ^ w)%N → N.lxor n (2 ^ w) = (n + 2 ^ w)%N.
Proof.
  intros Hn. symmetry. apply N.add_nocarry_lxor. apply N.bits_inj. intros i.
  rewrite N.land_spec, N.pow2_bits_eqb, N.bits_0. destruct (N.eqb_spec w i) as [<-|]; [|by rewrite andb_false_r].
  rewrite andb_true_r. by apply testbit_low.
Qed.

Lemma top_bit w n :
  (2 ^ w ≤ n)%N → (n < 2 * 2 ^ w)%N → ∃ m, (m < 2 ^ w)%N ∧ n = N.lxor m (2 ^ w).
Proof. intros H1 H2. exists (n - 2 ^ w)%N. split; [|rewrite lxor_low]; lia. Qed.

(** Flipping the top bit *)
Lemma lxor_top w n :
  (n < 2 ^ (w + 1))%N →
  N.lxor n (2 ^ w) = if (n <? 2 ^ w)%N then (n + 2 ^ w)%N else (n - 2 ^ w)%N.
Proof.
  intros Hn. rewrite N.add_1_r, N.pow_succ_r' in Hn.
  destruct (N.ltb_spec n (2 ^ w)) as [Hlt|Hge]; [by apply lxor_low|].
  destruct (top_bit w n) as (m&Hm&->); [lia..|].
  rewrite N.lxor_assoc, N.lxor_nilpotent, N.lxor_0_r, lxor_low by done. lia.
Qed.

(** Testing the top bit *)
Lemma land_top w n :
  (n < 2 ^ (w + 1))%N → (N.land n (2 ^ w) =? 0)%N = (n <? 2 ^ w)%N.
Proof.
  intros Hn. rewrite N.add_1_r, N.pow_succ_r' in Hn.
  destruct (N.ltb_spec n (2 ^ w)) as [Hlt|Hge].
  - apply N.eqb_eq. apply N.bits_inj. intros i. rewrite N.land_spec, N.pow2_bits_eqb, N.bits_0.
    destruct (N.eqb_spec w i) as [<-|]; [|by rewrite andb_false_r].
    rewrite andb_true_r. by apply testbit_low.
  - apply N.eqb_neq. destruct (top_bit w n) as (m&Hm&->); [lia..|].
    intros Hz. apply (f_equal (λ x, N.testbit x w)) in Hz.
    by rewrite N.land_spec, N.lxor_spec, N.pow2_bits_true, N.bits_0, testbit_low in Hz.
Qed.

Lemma bits_not_sub w n : (n < 2 ^ w)%N → bits_not w n = (2 ^ w - 1 - n)%N.
Proof.
  intros Hn. unfold bits_not. change (N.lxor n (N.ones w)) with (N.lnot n w).
  destruct (decide (n = 0%N)) as [->|Hne].
  { unfold N.lnot. rewrite N.lxor_0_l, N.ones_equiv. lia. }
  rewrite N.lnot_sub_low by (apply N.log2_lt_pow2; lia). by rewrite N.ones_equiv, N.sub_1_r.
Qed.

Lemma bits_not_involutive w n : bits_not w (bits_not w n) = n.
Proof. unfold bits_not. by rewrite N.lxor_assoc, N.lxor_nilpotent, N.lxor_0_r. Qed.

(** ** Values and their order *)

(** The widths that occur *)
Definition width_ok (t : native) : Prop :=
  match t with
  | Signed w | Unsigned w => (1 ≤ w ≤ 64)%N
  | Float w => (1 ≤ w ≤ 64)%N
  end.

Definition in_range (t : native) (v : Z) : Prop :=
  match t with
  | Signed w => (- 2 ^ (Z.of_N w - 1) ≤ v < 2 ^ (Z.of_N w - 1))%Z
  | Unsigned w | Float w => (0 ≤ v < 2 ^ Z.of_N w)%Z
  end.

(** The order of the values: that of the numbers, and for the bits of a float that
    of [total_cmp], which compares the bits as a signed integer after flipping
    all but the sign bit of negative numbers *)
Definition order_of (t : native) (v : Z) : Z :=
  match t with
  | Signed _ | Unsigned _ => v
  | Float w => if (v <? 2 ^ (Z.of_N w - 1))%Z then v else (2 ^ (Z.of_N w - 1) - 1 - v)%Z
  end.

Lemma dispatch_width d n : dispatch_sortable d = Some n → width_ok n.
Proof.
  destruct d as [| | | | | | | | | | | |[]|[]|[] ?|[]|]; intros [= <-]; by vm_compute.
Qed.

Lemma pow2_split w : (1 ≤ w)%N → (2 ^ Z.of_N w = 2 * 2 ^ (Z.of_N w - 1))%Z.
Proof. intros Hw. rewrite <-Z.pow_succ_r by lia. f_equal. lia. Qed.

Lemma pow2_N w : Z.of_N (2 ^ w) = (2 ^ Z.of_N w)%Z.
Proof. by rewrite N2Z.inj_pow. Qed.

Lemma pow2_64 w : (w ≤ 64)%N → (2 ^ Z.of_N w ≤ 2 ^ 64)%Z.
Proof. intros. apply Z.pow_le_mono_r; lia. Qed.

(** The key of a value: the order, shifted to start at zero *)
Lemma to_key_signed w v :
  (1 ≤ w ≤ 64)%N → in_range (Signed w) v → Z.of_N (to_key (Signed w) v) = (v + 2 ^ 63)%Z.
Proof.
  intros Hw Hv. cbn [to_key in_range] in *. unfold u64_of_i64.
  assert (2 ^ (Z.of_N w - 1) ≤ 2 ^ 63)%Z by (apply Z.pow_le_mono_r; lia).
  assert (Z.to_N (v `mod` 2 ^ 64) < 2 ^ 64)%N as Hlt.
  { pose proof (Z.mod_pos_bound v (2 ^ 64) ltac:(lia)). lia. }
  rewrite (lxor_top 63) by exact Hlt.
  destruct (decide (0 ≤ v)%Z).
  - rewrite Z.mod_small in * by lia. rewrite (proj2 (N.ltb_lt _ _)) by lia. lia.
  - assert (v `mod` 2 ^ 64 = v + 2 ^ 64)%Z as Hm.
    { symmetry. apply (Z.mod_unique _ _ (-1)); lia. }
    rewrite Hm in *. rewrite (proj2 (N.ltb_ge _ _)) by lia. lia.
Qed.

Lemma to_key_float w v :
  (1 ≤ w ≤ 64)%N → in_range (Float w) v →
  Z.of_N (to_key (Float w) v) = (order_of (Float w) v + 2 ^ (Z.of_N w - 1))%Z.
Proof.
  intros Hw Hv. cbn [to_key in_range order_of] in *.
  assert (Z.to_N v < 2 ^ (w - 1 + 1))%N as Hlt.
  { replace (w - 1 + 1)%N with w by lia. apply N2Z.inj_lt. rewrite pow2_N. lia. }
  pose proof (pow2_split w ltac:(lia)) as Hsp. pose proof (pow2_N (w - 1)) as Hp.
  replace (Z.of_N (w - 1)) with (Z.of_N w - 1)%Z in Hp by lia.
  rewrite land_top by done. destruct (Z.ltb_spec v (2 ^ (Z.of_N w - 1))) as [Hneg|Hpos].
  - rewrite (proj2 (N.ltb_lt _ _)) by lia. rewrite lxor_top by done.
    rewrite (proj2 (N.ltb_lt _ _)) by lia. lia.
  - rewrite (proj2 (N.ltb_ge _ _)) by lia.
    rewrite bits_not_sub by (apply N2Z.inj_lt; rewrite pow2_N; lia).
    pose proof (pow2_N w). lia.
Qed.

(** Where the keys of a type start *)
Definition key_base (t : native) : Z :=
  match t with
  | Signed _ => 2 ^ 63
  | Unsigned _ => 0
  | Float w => 2 ^ (Z.of_N w - 1)
  end.

Lemma to_key_order t v :
  width_ok t → in_range t v → Z.of_N (to_key t v) = (order_of t v + key_base t)%Z.
Proof.
  destruct t as [w|w|w]; cbn [width_ok]; intros Hw Hv.
  - by rewrite (to_key_signed w).
  - cbn in *. lia.
  - by rewrite (to_key_float w).
Qed.

Lemma to_key_u64 t v : width_ok t → in_range t v → is_u64 (to_key t v).
Proof.
  intros Hw Hv. pose proof (to_key_order t v Hw Hv) as Hk. unfold is_u64.
  apply N2Z.inj_lt. rewrite Hk. change (Z.of_N (2 ^ 64)) with (2 * 2 ^ 63)%Z.
  destruct t as [w|w|w]; cbn [width_ok in_range order_of key_base] in *;
    pose proof (pow2_64 w ltac:(lia)); pose proof (pow2_split w ltac:(lia)).
  - lia.
  - lia.
  - destruct (Z.ltb_spec v (2 ^ (Z.of_N w - 1))); lia.
Qed.

Lemma order_of_inj t v v' :
  width_ok t → in_range t v → in_range t v' → order_of t v = order_of t v' → v = v'.
Proof.
  destruct t as [w|w|w]; cbn [width_ok in_range order_of]; try done. intros Hw Hv Hv'.
  repeat case_match; lia.
Qed.

(** Decoding a key *)

Lemma from_to_signed w v :
  (1 ≤ w ≤ 64)%N → in_range (Signed w) v → from_key (Signed w) (to_key (Signed w) v) = v.
Proof.
  intros Hw Hv. cbn [from_key to_key in_range] in *.
  rewrite N.lxor_assoc, N.lxor_nilpotent, N.lxor_0_r. unfold signed_of, u64_of_i64.
  pose proof (pow2_split w ltac:(lia)) as Hsp.
  assert (Z.of_N (Z.to_N (v `mod` 2 ^ 64) `mod` 2 ^ w) = v `mod` 2 ^ Z.of_N w)%Z as ->.
  { rewrite N2Z.inj_mod, pow2_N, Z2N.id by (apply Z.mod_pos_bound; lia).
    replace (2 ^ 64)%Z with (2 ^ Z.of_N w * 2 ^ (64 - Z.of_N w))%Z
      by (rewrite <-Z.pow_add_r by lia; f_equal; lia).
    rewrite Z.rem_mul_r by lia. rewrite Z.mul_comm, Z.mod_add by lia. apply Z.mod_mod. lia. }
  destruct (decide (0 ≤ v)%Z).
  - rewrite Z.mod_small by lia. rewrite (proj2 (Z.ltb_lt _ _)); lia.
  - rewrite <-(Z.mod_unique v (2 ^ Z.of_N w) (-1) (v + 2 ^ Z.of_N w)) by lia.
    rewrite (proj2 (Z.ltb_ge _ _)); lia.
Qed.

Lemma from_to_float w v :
  (1 ≤ w ≤ 64)%N → in_range (Float w) v → from_key (Float w) (to_key (Float w) v) = v.
Proof.
  intros Hw Hv. pose proof (to_key_float w v Hw Hv) as Hk. cbn [from_key in_range order_of] in *.
  pose proof (pow2_split w ltac:(lia)) as Hsp. pose proof (pow2_N (w - 1)) as Hp.
  replace (Z.of_N (w - 1)) with (Z.of_N w - 1)%Z in Hp by lia.
  pose proof (pow2_N w) as Hpw. set (key := to_key (Float w) v) in *. clearbody key.
  assert (key < 2 ^ (w - 1 + 1))%N as Hkey.
  { replace (w - 1 + 1)%N with w by lia. destruct (Z.ltb_spec v (2 ^ (Z.of_N w - 1))); lia. }
  rewrite N.mod_small by (replace w with (w - 1 + 1)%N by lia; done).
  rewrite land_top by done. destruct (Z.ltb_spec v (2 ^ (Z.of_N w - 1))) as [Hpos|Hneg].
  - rewrite (proj2 (N.ltb_ge _ _)) by lia. rewrite lxor_top by done.
    rewrite (proj2 (N.ltb_ge _ _)); lia.
  - rewrite (proj2 (N.ltb_lt _ _)) by lia. rewrite bits_not_sub; lia.
Qed.

Lemma from_to_key t v : width_ok t → in_range t v → from_key t (to_key t v) = v.
Proof.
  destruct t as [w|w|w]; cbn [width_ok]; intros Hw Hv.
  - by apply from_to_signed.
  - cbn in *. rewrite N.mod_small; [lia|]. apply N2Z.inj_lt. rewrite pow2_N. lia.
  - by apply from_to_float.
Qed.

(** A key of any word is the key of a value of the type. *)
Lemma from_key_range t key : width_ok t → in_range t (from_key t key).
Proof.
  destruct t as [w|w|w]; cbn [width_ok in_range from_key]; intros Hw;
    pose proof (pow2_split w ltac:(lia)) as Hsp; pose proof (pow2_N w) as Hpw.
  - unfold signed_of. pose proof (N.mod_lt (N.lxor key (2 ^ 63)) (2 ^ w) ltac:(lia)) as Hlt.
    set (m := (N.lxor key (2 ^ 63) `mod` 2 ^ w)%N) in *. clearbody m.
    destruct (Z.ltb_spec (Z.of_N m) (2 ^ (Z.of_N w - 1))); lia.
  - pose proof (N.mod_lt key (2 ^ w) ltac:(lia)). generalize dependent (key `mod` 2 ^ w)%N. lia.
  - pose proof (pow2_N (w - 1)) as Hp. replace (Z.of_N (w - 1)) with (Z.of_N w - 1)%Z in Hp by lia.
    pose proof (N.mod_lt key (2 ^ w) ltac:(lia)) as Hlt.
    assert (key `mod` 2 ^ w < 2 ^ (w - 1 + 1))%N as Hlt' by (by replace (w - 1 + 1)%N with w by lia).
    set (m := (key `mod` 2 ^ w)%N) in *. clearbody m.
    rewrite land_top, lxor_top, bits_not_sub by done. destruct (m <? 2 ^ (w - 1))%N; lia.
Qed.

(** ** The codec *)

(** An encodable type: the codecs [try_new] makes *)
Definition codec_ok (c : SortKeyCodec.t) (n : native) : Prop :=
  dispatch_sortable (SortKeyCodec.data_type c) = Some n.

Definition key_of (c : SortKeyCodec.t) (n : native) (v : Z) : N :=
  SortKeyCodec.orient c (to_key n v).

(** The order the column is sorted by: [DESC] turns that of the values around. *)
Definition sort_position (c : SortKeyCodec.t) (n : native) (v : Z) : Z :=
  if descending (SortKeyCodec.options c) then (- order_of n v)%Z else order_of n v.

Section codec.
Context (c : SortKeyCodec.t) (n : native) (Hc : codec_ok c n).

Lemma codec_width : width_ok n.
Proof using Hc. by eapply dispatch_width. Qed.

Lemma key_of_u64 v : in_range n v → is_u64 (key_of c n v).
Proof using Hc.
  intros Hv. pose proof (to_key_u64 n v codec_width Hv) as Hk. unfold key_of, SortKeyCodec.orient.
  destruct (descending _); [|done]. unfold is_u64 in *. rewrite bits_not_sub by done. lia.
Qed.

Lemma key_order v v' :
  in_range n v → in_range n v' →
  ((key_of c n v ≤ key_of c n v')%N ↔ (sort_position c n v ≤ sort_position c n v')%Z).
Proof using Hc.
  intros Hv Hv'. pose proof codec_width as Hw.
  pose proof (to_key_order n v Hw Hv). pose proof (to_key_order n v' Hw Hv').
  pose proof (to_key_u64 n v Hw Hv). pose proof (to_key_u64 n v' Hw Hv').
  unfold is_u64, key_of, SortKeyCodec.orient, sort_position in *.
  destruct (descending _); [|lia]. rewrite !bits_not_sub by done. lia.
Qed.

Lemma decode_key v :
  in_range n v →
  SortKeyCodec.decode c (key_of c n v) = Ok (mkScalar (SortKeyCodec.data_type c) (Some v)).
Proof using Hc.
  intros Hv. unfold SortKeyCodec.decode. rewrite Hc. do 3 f_equal.
  assert (SortKeyCodec.orient c (key_of c n v) = to_key n v) as ->.
  { unfold key_of, SortKeyCodec.orient. destruct (descending _); [apply bits_not_involutive|done]. }
  by apply from_to_key; [apply codec_width|].
Qed.

Lemma encode_values values :
  SortKeyCodec.encode c (mkArray (SortKeyCodec.data_type c) values)
  = Ok (key_of c n <$> omap id values).
Proof using Hc.
  unfold SortKeyCodec.encode. cbn [array_type array_values]. rewrite bool_decide_eq_true_2 by done.
  by rewrite Hc.
Qed.
End codec.
