(* ===== verification/KeySketch.v ===== *)
(** * Facts about sketches of sort keys

    Sketches of a column, the ranks and the order of their cuts, and their round
    trip over the wire. *)

From S2P Require Import Prelude Errors Machine Kll KllFacts KllStream KllOps KllQuery SortKey SortKeyFacts.
Import SortKeySketch.

(** ** Ranks of cuts *)

(** What one partition gets at most: an equal share of the rows, or of the values
    when the NULLs take a partition of their own *)
Definition div_ceil (a b : N) : N := ((a + (b - 1)) / b)%N.
Definition share (P n V : N) : N :=
  if (n + V <? n * P)%N then div_ceil V (P - 1) else div_ceil (n + V) P.

Section arith.
Open Scope N_scope.

Lemma div_step a b p : p ≠ 0 → a / p ≤ (a + b) / p ≤ a / p + div_ceil b p.
Proof.
  intros Hp. split; [apply N.Div0.div_le_mono; lia|]. unfold div_ceil.
  pose proof (N.div_mod a p Hp). pose proof (N.mod_lt a p Hp).
  pose proof (N.div_mod (b + (p - 1)) p Hp). pose proof (N.mod_lt (b + (p - 1)) p Hp).
  apply N.lt_succ_r. apply N.Div0.div_lt_upper_bound. nia.
Qed.

Lemma div_ceil_step a b p :
  p ≠ 0 → div_ceil a p ≤ div_ceil (a + b) p ≤ div_ceil a p + div_ceil b p.
Proof.
  intros Hp. unfold div_ceil at 1 2 3. replace (a + b + (p - 1)) with (a + (p - 1) + b) by lia.
  by apply div_step.
Qed.

Lemma div_ceil_pos a p : p ≠ 0 → a ≠ 0 → 1 ≤ div_ceil a p.
Proof. intros Hp Ha. unfold div_ceil. apply N.div_le_lower_bound; lia. Qed.

Lemma div_ceil_mul a p : p ≠ 0 → div_ceil (p * a) p = a.
Proof.
  intros Hp. unfold div_ceil. symmetry. apply (N.div_unique _ _ _ (p - 1)); lia.
Qed.

(** The total below the last cut and the share of the last partition *)
Lemma last_share p t : 1 < p → t ≤ (p - 1) * t / p + div_ceil t p.
Proof.
  intros Hp. pose proof (div_step ((p - 1) * t) t p ltac:(lia)) as [_ Hs].
  replace ((p - 1) * t + t) with (t * p) in Hs by nia. by rewrite N.div_mul in Hs by lia.
Qed.

Lemma div_strict a t p : p ≠ 0 → p ≤ t → a / p < (a + t) / p.
Proof.
  intros Hp Ht. apply N.lt_le_trans with ((a + 1 * p) / p).
  - rewrite N.div_add by done. lia.
  - apply N.Div0.div_le_mono. lia.
Qed.

Context (P n V : N) (HP : 2 ≤ P) (HV : V ≠ 0).

Lemma share_pos : 1 ≤ share P n V.
Proof using HP HV. unfold share. case_match; apply div_ceil_pos; lia. Qed.

(** Where a cut would be among the values *)
Definition raw_rank (first : bool) (i : N) : N :=
  if first then
    if n + V <? n * P then i * V / (P - 1) + 1 else (i + 1) * (n + V) / P - n
  else
    if n + V <? n * P then div_ceil ((i + 1) * V) (P - 1) else (i + 1) * (n + V) / P.

Lemma cut_rank_raw first i :
  cut_rank first P n V (n + V) i
  = if first then N.min (N.max (raw_rank first i) (i + 1)) V
    else N.max (N.min (raw_rank first i) (V - (P - 1 - 1 - i))) 1.
Proof.
  unfold cut_rank, raw_rank, div_ceil. destruct first; repeat case_match; try done;
    rewrite ?H1 in *; done.
Qed.

Lemma raw_step first i :
  raw_rank first i ≤ raw_rank first (i + 1) ≤ raw_rank first i + share P n V.
Proof using HP HV.
  unfold raw_rank, share. destruct first, (n + V <? n * P) eqn:Hout.
  - pose proof (div_step (i * V) V (P - 1) ltac:(lia)). replace ((i + 1) * V) with (i * V + V) by lia.
    lia.
  - pose proof (div_step ((i + 1) * (n + V)) (n + V) P ltac:(lia)).
    replace ((i + 1 + 1) * (n + V)) with ((i + 1) * (n + V) + (n + V)) by lia. lia.
  - pose proof (div_ceil_step ((i + 1) * V) V (P - 1) ltac:(lia)).
    replace ((i + 1 + 1) * V) with ((i + 1) * V + V) by lia. lia.
  - pose proof (div_step ((i + 1) * (n + V)) (n + V) P ltac:(lia)).
    replace ((i + 1 + 1) * (n + V)) with ((i + 1) * (n + V) + (n + V)) by lia. lia.
Qed.

Lemma raw_first first : raw_rank first 0 ≤ share P n V.
Proof using HP HV.
  pose proof share_pos as Hs. revert Hs. unfold raw_rank, share.
  destruct first, (n + V <? n * P) eqn:Hout; intros Hs.
  - rewrite N.mul_0_l, N.Div0.div_0_l. lia.
  - pose proof (div_step 0 (n + V) P ltac:(lia)). rewrite N.Div0.div_0_l in *.
    replace ((0 + 1) * (n + V)) with (0 + (n + V)) by lia. lia.
  - replace ((0 + 1) * V) with V by lia. lia.
  - pose proof (div_step 0 (n + V) P ltac:(lia)). rewrite N.Div0.div_0_l in *.
    replace ((0 + 1) * (n + V)) with (0 + (n + V)) by lia. lia.
Qed.

Lemma raw_last first : V ≤ raw_rank first (P - 1 - 1) + share P n V.
Proof using HP HV.
  unfold raw_rank, share. destruct first, (n + V <? n * P) eqn:Hout.
  - destruct (decide (P = 2)) as [->|].
    + change (2 - 1) with 1. unfold div_ceil. rewrite !N.div_1_r. lia.
    + pose proof (last_share (P - 1) V ltac:(lia)). lia.
  - replace (P - 1 - 1 + 1) with (P - 1) by lia. pose proof (last_share P (n + V) ltac:(lia)). lia.
  - replace (P - 1 - 1 + 1) with (P - 1) by lia. rewrite div_ceil_mul by lia. lia.
  - replace (P - 1 - 1 + 1) with (P - 1) by lia. pose proof (last_share P (n + V) ltac:(lia)). lia.
Qed.

Definition rank_at (first : bool) (i : N) : N := cut_rank first P n V (n + V) i.

Lemma rank_range first i : 1 ≤ rank_at first i ≤ V.
Proof using HP HV. unfold rank_at. rewrite cut_rank_raw. destruct first; lia. Qed.

(** Cuts ascend, and are at most a share apart. *)
Lemma rank_step first i :
  i + 1 < P - 1 → rank_at first i ≤ rank_at first (i + 1) ≤ rank_at first i + share P n V.
Proof using HP HV.
  intros Hi. unfold rank_at. rewrite !cut_rank_raw. pose proof (raw_step first i).
  pose proof share_pos. destruct first; lia.
Qed.

Lemma rank_first first : rank_at first 0 ≤ share P n V.
Proof using HP HV.
  unfold rank_at. rewrite cut_rank_raw. pose proof (raw_first first). pose proof share_pos.
  destruct first; lia.
Qed.

Lemma rank_last first : V ≤ rank_at first (P - 1 - 1) + share P n V.
Proof using HP HV.
  unfold rank_at. rewrite cut_rank_raw. pose proof (raw_last first). destruct first; lia.
Qed.

(** With enough values they are distinct. *)
Lemma raw_strict first i :
  P - 1 ≤ V → P ≤ n + V → raw_rank first i < raw_rank first (i + 1).
Proof using HP HV.
  intros HVP HNP. unfold raw_rank, div_ceil.
  replace ((i + 1 + 1) * (n + V)) with ((i + 1) * (n + V) + (n + V)) by lia.
  replace ((i + 1 + 1) * V + (P - 1 - 1)) with ((i + 1) * V + (P - 1 - 1) + V) by lia.
  replace ((i + 1) * V / (P - 1)) with ((i * V + V) / (P - 1)) by (f_equal; lia).
  pose proof (div_strict ((i + 1) * (n + V)) (n + V) P ltac:(lia) HNP).
  destruct first, (N.ltb_spec (n + V) (n * P)) as [|Hle].
  - pose proof (div_strict (i * V) V (P - 1) ltac:(lia) HVP). lia.
  - assert (n ≤ (i + 1) * (n + V) / P); [|lia]. apply N.div_le_lower_bound; nia.
  - apply div_strict; lia.
  - done.
Qed.

Lemma raw_top : raw_rank true (P - 1 - 1) ≤ V.
Proof using HP HV.
  unfold raw_rank. case_match.
  - assert ((P - 1 - 1) * V / (P - 1) < V); [|lia]. apply N.Div0.div_lt_upper_bound. nia.
  - assert ((P - 1 - 1 + 1) * (n + V) / P ≤ n + V); [|lia]. apply N.Div0.div_le_upper_bound. nia.
Qed.

Lemma raw_mono first i j : i ≤ j → raw_rank first i ≤ raw_rank first j.
Proof using HP HV.
  intros Hij. replace j with (i + (j - i)) by lia. induction (j - i) as [|d IH] using N.peano_ind.
  - by rewrite N.add_0_r.
  - pose proof (raw_step first (i + d)). replace (i + N.succ d) with (i + d + 1) by lia. lia.
Qed.

Lemma rank_strict first i :
  i + 1 < P - 1 → P - 1 ≤ V → first = true ∨ P ≤ n + V → rank_at first i < rank_at first (i + 1).
Proof using HP HV.
  intros Hi HVP Hf. unfold rank_at. rewrite !cut_rank_raw. destruct (decide (P ≤ n + V)) as [HNP|HNP].
  - pose proof (raw_strict first i HVP HNP). pose proof raw_top.
    pose proof (raw_mono first (i + 1) (P - 1 - 1) ltac:(lia)).
    pose proof (raw_mono first 0 i ltac:(lia)).
    assert (first = false → 1 ≤ raw_rank first 0).
    { intros ->. unfold raw_rank. replace ((0 + 1) * (n + V)) with (n + V) by lia.
      case_match; [apply div_ceil_pos; lia|apply N.div_le_lower_bound; lia]. }
    destruct first; lia.
  - assert (n = 0) as Hn by lia. destruct Hf as [->|]; [|lia].
    assert (∀ j, raw_rank true j ≤ j + 1) as Hr; [|pose proof (Hr i); pose proof (Hr (i + 1)); lia].
    intros j. unfold raw_rank. rewrite Hn, (proj2 (N.ltb_ge _ _)) by lia.
    assert ((j + 1) * (0 + V) / P ≤ j + 1); [|lia]. apply N.Div0.div_le_upper_bound. nia.
Qed.

(** Without NULLs, and with a value for every partition, the end the NULLs would
    be at makes no difference. *)
Lemma rank_layout i : n = 0 → P ≤ V → i < P - 1 → rank_at true i = rank_at false i.
Proof using HP HV.
  intros Hn HPV Hi. unfold rank_at. rewrite !cut_rank_raw. unfold raw_rank.
  rewrite Hn, (proj2 (N.ltb_ge _ _)) by lia. rewrite N.add_0_l, N.sub_0_r.
  assert (i + 1 ≤ (i + 1) * V / P) by (apply N.div_le_lower_bound; nia).
  assert ((i + 1) * V / P ≤ V - (P - 1 - 1 - i)); [|lia].
  pose proof (N.Div0.mul_div_le ((i + 1) * V) P) as Hq.
  assert (P * ((i + 1) * V / P + (P - 1 - i)) ≤ P * V) as Hle; [|apply N.mul_le_mono_pos_l in Hle; lia].
  assert (P * (P - 1 - i) ≤ (P - 1 - i) * V) by nia.
  assert ((i + 1) * V + (P - 1 - i) * V = P * V) by nia. lia.
Qed.
End arith.

(** ** Sketches of a column *)

Definition values_of (vs : list (option Z)) : list Z := omap id vs.
Definition nulls_in (vs : list (option Z)) : N := N.of_nat (length (filter (λ v, v = None) vs)).

Lemma values_app vs ws : values_of (vs ++ ws) = values_of vs ++ values_of ws.
Proof. unfold values_of. induction vs as [|[v|] vs IH]; cbn; by rewrite ?IH. Qed.

Lemma nulls_app vs ws : nulls_in (vs ++ ws) = (nulls_in vs + nulls_in ws)%N.
Proof. unfold nulls_in. rewrite filter_app, length_app. lia. Qed.

Lemma values_nulls vs : (nulls_in vs + N.of_nat (length (values_of vs)))%N = N.of_nat (length vs).
Proof.
  unfold nulls_in, values_of. induction vs as [|[v|] vs IH]; [done| |].
  - rewrite filter_cons_False by done. cbn [omap list_omap id length]. cbn in *. lia.
  - rewrite filter_cons_True by done. cbn in *. lia.
Qed.

Lemma values_some vs v : v ∈ values_of vs → Some v ∈ vs.
Proof. unfold values_of. rewrite list_elem_of_omap. by intros (o & ? & [= ->]). Qed.

Lemma collect_ok {A B : Type} (f : A → outcome DataFusionError B) l bs :
  Forall2 (λ a b, f a = Ok b) l bs → collect f l = Ok bs.
Proof. induction 1 as [|a b l bs Hf _ IH]; [done|]. cbn [collect]. by rewrite Hf, IH. Qed.

Section column.
Context `{Coins}.
Context (c : SortKeyCodec.t) (n : native).

(** The sketch of a column: its NULLs are counted and the keys of its values
    are sketched. *)
Record column_sketch (s : t) (vs : list (option Z)) : Prop := {
  cs_ok : codec_ok c n;
  cs_codec : codec s = c;
  cs_range : Forall (in_range n) (values_of vs);
  cs_keys : sketch_of (E:=DataFusionError) KLL_K (sketch s) (key_of c n <$> values_of vs);
  cs_nulls : nulls s = nulls_in vs;
}.

Lemma column_lengths vs :
  is_u64 (N.of_nat (length vs)) →
  is_u64 (nulls_in vs) ∧ is_u64 (N.of_nat (length (key_of c n <$> values_of vs))).
Proof. unfold is_u64. rewrite length_fmap. pose proof (values_nulls vs). lia. Qed.

Lemma column_described s vs :
  column_sketch s vs → is_u64 (N.of_nat (length vs)) →
  described (E:=DataFusionError) KLL_K (sketch s) (key_of c n <$> values_of vs).
Proof. intros Hs Hn. apply sketch_described; [apply Hs|]. by apply column_lengths. Qed.

Lemma column_new r : codec_ok c n → column_sketch (new c r) [].
Proof. intros Hc. split; [done..|apply Of_new|done]. Qed.

Lemma column_ingest s vs ws :
  column_sketch s vs → Forall (in_range n) (values_of ws) → is_u64 (N.of_nat (length (vs ++ ws))) →
  ∃ s', ingest (mkArray (SortKeyCodec.data_type c) ws) s = Ok s' ∧ column_sketch s' (vs ++ ws).
Proof.
  intros Hs Hw Hn. assert (is_u64 (N.of_nat (length vs))) as Hn1.
  { revert Hn. unfold is_u64. rewrite length_app. lia. }
  destruct (column_described s vs Hs Hn1) as [Hc Hset Hlo Hhi]. destruct Hs as [Hok Hcd Hr Hk Hnu].
  destruct (column_lengths _ Hn) as [Hu1 Hu2]. rewrite values_app, fmap_app in Hu2.
  destruct (absorb_sorted_core (E:=DataFusionError) KLL_K (sketch s) _ _ Hc Hset Hu2 Hlo Hhi)
    as (s' & Habs & _).
  unfold ingest. rewrite Hcd, (encode_values c n Hok). cbn [obind]. fold (values_of ws).
  rewrite Habs. cbn [obind]. eexists. split; [done|]. split; try done.
  - rewrite values_app. by apply Forall_app.
  - rewrite values_app, fmap_app. by eapply Of_absorb_sorted.
  - cbn [nulls]. rewrite Hnu, nulls_app. rewrite nulls_app in Hu1. by apply u64_add_exact.
Qed.

Lemma column_merge s other vs ws :
  column_sketch s vs → column_sketch other ws → is_u64 (N.of_nat (length (vs ++ ws))) →
  ∃ s', merge other s = Ok s' ∧ column_sketch s' (vs ++ ws).
Proof.
  intros Hs Ho Hn. assert (is_u64 (N.of_nat (length vs)) ∧ is_u64 (N.of_nat (length ws))) as [Hn1 Hn2].
  { revert Hn. unfold is_u64. rewrite length_app. lia. }
  destruct (column_described s vs Hs Hn1) as [Hc _ _ _].
  destruct (column_described other ws Ho Hn2) as [Hc' _ _ _].
  destruct Hs as [Hok Hcd Hr Hk Hnu], Ho as [_ Hcd' Hr' Hk' Hnu'].
  destruct (column_lengths _ Hn) as [Hu1 Hu2]. rewrite values_app, fmap_app in Hu2.
  destruct (merge_core (E:=DataFusionError) KLL_K (sketch s) (sketch other) _ _ Hc Hc' Hu2)
    as (s' & Hm & _).
  unfold merge. rewrite Hcd, Hcd', bool_decide_eq_true_2 by done. rewrite Hm. cbn [obind].
  eexists. split; [done|]. split; try done.
  - rewrite values_app. by apply Forall_app.
  - rewrite values_app, fmap_app. by eapply Of_merge.
  - cbn [nulls]. rewrite Hnu, Hnu', nulls_app. rewrite nulls_app in Hu1. by apply u64_add_exact.
Qed.

Lemma column_counts s vs :
  column_sketch s vs → is_u64 (N.of_nat (length vs)) →
  KllSketch.count (sketch s) = N.of_nat (length (values_of vs)) ∧ count s = N.of_nat (length vs).
Proof.
  intros Hs Hn. destruct (column_described s vs Hs Hn) as [Hc _ _ _].
  pose proof (count_exact _ _ _ Hc) as Hk. rewrite length_fmap in Hk. split; [done|].
  unfold count. rewrite Hk, (cs_nulls _ _ Hs), <-values_nulls.
  rewrite u64_add_exact; [lia|]. by rewrite N.add_comm, values_nulls.
Qed.

(** *** Cuts *)

Abbreviation scalar v := (mkScalar (SortKeyCodec.data_type c) (Some v)).

Lemma cut_ranks_at s vs P i :
  column_sketch s vs → is_u64 (N.of_nat (length vs)) → i < P - 1 →
  cut_ranks P s !! i = Some (rank_at (N.of_nat P) (nulls_in vs) (N.of_nat (length (values_of vs)))
    (nulls_first (SortKeyCodec.options c)) (N.of_nat i)).
Proof.
  intros Hs Hn Hi. unfold cut_ranks. rewrite list_lookup_fmap, lookup_seq_lt by done.
  destruct (column_counts s vs Hs Hn) as [-> ->]. cbn [fmap option_fmap option_map].
  unfold rank_at. by rewrite (cs_codec _ _ Hs), (cs_nulls _ _ Hs), values_nulls.
Qed.

(** The keys of the cuts are keys of values of the column. *)
Lemma cut_keys s vs P :
  column_sketch s vs → is_u64 (N.of_nat (length vs)) → values_of vs ≠ [] →
  ∃ l, KllSketch.at_ranks (E:=DataFusionError) (cut_ranks P s) (sketch s)
      = Ok (Some ∘ key_of c n <$> l) ∧
    Forall (λ v, v ∈ values_of vs) l ∧
    Forall2 (λ r v, answers (sketch s) (N.of_nat (length (values_of vs))) r (Some (key_of c n v)))
      (cut_ranks P s) l.
Proof.
  intros Hs Hn Hne. destruct (column_described s vs Hs Hn) as [Hc _ Hlo Hhi].
  assert (key_of c n <$> values_of vs ≠ []) as Hne' by by intros ?%fmap_nil_inv.
  destruct (at_ranks_spec (E:=DataFusionError) KLL_K (sketch s) _ (cut_ranks P s) Hc Hne')
    as (ans & -> & Hans). rewrite length_fmap in Hans.
  assert (∃ l, ans = Some ∘ key_of c n <$> l ∧ Forall (λ v, v ∈ values_of vs) l ∧
    Forall2 (λ r v, answers (sketch s) (N.of_nat (length (values_of vs))) r (Some (key_of c n v)))
      (cut_ranks P s) l) as (l & -> & ? & ?); [|by exists l].
  induction Hans as [|r o rs os Ho Hos IH].
  { by exists []. }
  destruct IH as (l & -> & Hl1 & Hl2).
  destruct (answers_item KLL_K (sketch s) (key_of c n <$> values_of vs) r o Hc Hlo Hhi Hne')
    as (x & -> & (v & -> & Hv)%list_elem_of_fmap); [by rewrite length_fmap|].
  exists (v :: l). split; [done|]. split; by constructor.
Qed.

(** They ascend with the ranks. *)
Lemma cut_order s vs r1 r2 v1 v2 :
  column_sketch s vs → is_u64 (N.of_nat (length vs)) → (1 ≤ r1 ≤ r2)%N →
  v1 ∈ values_of vs → v2 ∈ values_of vs →
  answers (sketch s) (N.of_nat (length (values_of vs))) r1 (Some (key_of c n v1)) →
  answers (sketch s) (N.of_nat (length (values_of vs))) r2 (Some (key_of c n v2)) →
  (sort_position c n v1 ≤ sort_position c n v2)%Z.
Proof.
  intros Hs Hn [Hr1 Hr] Hv1 Hv2 Ha1 Ha2.
  destruct (column_described s vs Hs Hn) as [Hc _ Hlo Hhi].
  pose proof (proj1 (Forall_forall _ _) (cs_range _ _ Hs)) as Hrange.
  apply (key_order c n (cs_ok _ _ Hs)); [by apply Hrange..|].
  apply N.leb_le. rewrite <-(length_fmap (key_of c n)) in Ha1, Ha2.
  change (leb (key_of c n v1) (key_of c n v2) = true).
  refine (answers_mono KLL_K (sketch s) _ r1 r2 _ _ Hc Hlo Hhi _ Hr ltac:(lia) Ha1 Ha2).
  intros Hnil%fmap_nil_inv. rewrite Hnil in Hv1. by apply not_elem_of_nil in Hv1.
Qed.

Lemma column_cuts s vs P :
  column_sketch s vs → is_u64 (N.of_nat (length vs)) → 2 ≤ P → values_of vs ≠ [] →
  ∃ l, cuts P s = Ok ((λ v, scalar v) <$> l) ∧ length l = P - 1 ∧
    Forall (λ v, Some v ∈ vs) l ∧
    ∀ i a b, l !! i = Some a → l !! S i = Some b → (sort_position c n a ≤ sort_position c n b)%Z.
Proof.
  intros Hs Hn HP Hne. destruct (cut_keys s vs P Hs Hn Hne) as (l & Hans & Hin & Hl).
  assert (N.of_nat (length (values_of vs)) ≠ 0%N) as HV by (destruct (values_of vs); cbn; [done|lia]).
  pose proof (Forall2_length _ _ _ Hl) as Hlen. unfold cut_ranks in Hlen at 1.
  rewrite length_fmap, length_seq in Hlen.
  exists l. split_and!; [|done|eapply Forall_impl; [done|apply values_some]|].
  - unfold cuts. destruct (column_counts s vs Hs Hn) as [-> _].
    rewrite (proj2 (Nat.ltb_ge _ _)) by lia. rewrite (proj2 (N.eqb_neq _ _)) by done. cbn [orb].
    rewrite Hans. cbn [obind]. rewrite (cs_codec _ _ Hs). apply collect_ok.
    rewrite Forall2_fmap. apply Forall_Forall2_diag. eapply Forall_impl; [done|]. intros v Hv.
    apply (decode_key c n (cs_ok _ _ Hs)). by eapply Forall_forall; [apply Hs|].
  - intros i a b Ha Hb. pose proof (lookup_lt_Some _ _ _ Hb).
    pose proof (cut_ranks_at s vs P i Hs Hn ltac:(lia)) as Hri.
    pose proof (cut_ranks_at s vs P (S i) Hs Hn ltac:(lia)) as Hrj.
    rewrite Nat2N.inj_succ, <-N.add_1_r in Hrj.
    pose proof (Forall2_lookup_lr _ _ _ _ _ _ Hl Hri Ha) as Aa.
    pose proof (Forall2_lookup_lr _ _ _ _ _ _ Hl Hrj Hb) as Ab.
    refine (cut_order s vs _ _ a b Hs Hn _ (Forall_lookup_1 _ _ _ _ Hin Ha)
      (Forall_lookup_1 _ _ _ _ Hin Hb) Aa Ab).
    split; [apply rank_range; [lia|done]|apply rank_step; [lia|done|lia]].
Qed.
End column.

(** ** The wire *)

(** The rows of the list array are the levels. *)
Lemma rows_offsets (ls : list (list N)) (rows : list (list (option Z))) start ends pre :
  offsets start ls = Ok ends → length <$> rows = length <$> ls → length pre = start →
  rows_of start ends (pre ++ concat rows) = rows.
Proof.
  revert rows start ends pre. induction ls as [|l ls IH]; intros [|row rows] start ends pre Ho Hl Hp;
    try done; cbn [offsets] in Ho.
  - by injection Ho as <-.
  - injection Hl as Hl1 Hl2. destruct (_ <? _)%N; [|done].
    destruct (offsets _ ls) as [rest| |] eqn:Hr; try done. injection Ho as <-. cbn [rows_of concat].
    f_equal.
    + rewrite drop_app_length' by done. replace (start + length l - start) with (length row) by lia.
      by rewrite take_app_length.
    + rewrite app_assoc. apply IH; [done..|]. rewrite length_app. lia.
Qed.

Lemma offsets_ok start (ls : list (list N)) :
  (N.of_nat (start + length (concat ls)) < 2 ^ 31)%N → ∃ ends, offsets start ls = Ok ends.
Proof.
  revert start. induction ls as [|l ls IH]; intros start Hn; [by exists []|].
  cbn [concat offsets] in *. rewrite length_app in Hn. rewrite (proj2 (N.ltb_lt _ _)) by lia.
  destruct (IH (start + length l)) as [ends ->]; [by rewrite <-Nat.add_assoc|]. by eexists.
Qed.

(** The capacity of a level of 800, for up to 41 levels *)
Lemma capacity_800 h num cap :
  num ≤ 41 → level_capacity (E:=DataFusionError) KLL_K num h = Ok cap → (cap ≤ 800)%N.
Proof.
  intros Hn Hc. unfold level_capacity in Hc. remember (num - h - 1) as d eqn:Hd.
  assert (d < 41) as Hlt by lia. clear Hd Hn.
  assert (Forall (λ d, (N.shiftr (u64_add (u64_wrap (N.shiftl (u64_mul 2 KLL_K) (N.of_nat d))
    / u64_wrap (3 ^ N.of_nat d)) 1) 1 ≤ 800)%N) (seq 0 41)) as Hall.
  { by apply (bool_decide_unpack _); vm_compute. }
  rewrite Forall_forall in Hall. specialize (Hall d ltac:(apply elem_of_seq; lia)).
  rewrite (proj2 (Nat.leb_gt 64 d)) in Hc by lia. injection Hc as <-. unfold MIN_LEVEL_WIDTH. lia.
Qed.

Lemma length_concat_le {A : Type} (ls : list (list A)) (m : nat) :
  (∀ h l, ls !! h = Some l → length l ≤ m) → length (concat ls) ≤ length ls * m.
Proof.
  induction ls as [|l ls IH]; intros Hm; [done|]. cbn [concat length]. rewrite length_app.
  pose proof (Hm 0 l eq_refl). specialize (IH (λ h, Hm (S h))). lia.
Qed.

(** What a sketch retains *)
Lemma retained_few `{Coins} (s : KllSketch.t N) xs :
  described (E:=DataFusionError) KLL_K s xs → (N.of_nat (length xs) < 2 ^ 41)%N →
  (N.of_nat (length (concat (KllSketch.levels s))) < 2 ^ 31)%N.
Proof.
  intros [Hc Hs _ _] Hn. pose proof (co_stack _ _ _ Hc) as (_ & Htop & _).
  assert (length (KllSketch.levels s) ≤ 41) as HL.
  { apply top_ok_height; [done| |lia]. by rewrite (co_weight _ _ _ Hc). }
  assert (length (concat (KllSketch.levels s)) ≤ length (KllSketch.levels s) * 800) as Hle; [|lia].
  apply length_concat_le. intros h l Hl.
  destruct (level_capacity_ok (E:=DataFusionError) KLL_K (length (KllSketch.levels s)) h)
    as (cap & Hcap & _); [lia|].
  pose proof (capacity_800 _ _ _ HL Hcap). rewrite <-(co_k _ _ _ Hc) in Hcap.
  pose proof (Hs h l cap Hl Hcap). lia.
Qed.

(** The levels of a stream of keys are keys. *)
Lemma keys_inverse (f : Z → N) (keys : list N) (vs : list Z) :
  (∀ k, k ∈ keys → k ∈ f <$> vs) → ∃ ws, keys = f <$> ws ∧ Forall (λ w, w ∈ vs) ws.
Proof.
  induction keys as [|k keys IH]; intros Hk; [by exists []|].
  destruct IH as (ws & -> & Hws); [intros; apply Hk; by right|].
  destruct (proj1 (list_elem_of_fmap _ _ _) (Hk k ltac:(by left))) as (w & -> & Hw).
  exists (w :: ws). split; [done|]. by constructor.
Qed.

Lemma levels_inverse (f : Z → N) (ls : list (list N)) (vs : list Z) :
  (∀ k, k ∈ concat ls → k ∈ f <$> vs) →
  ∃ wss, ls = fmap (M:=list) f <$> wss ∧ Forall (Forall (λ w, w ∈ vs)) wss.
Proof.
  induction ls as [|l ls IH]; intros Hk; [by exists []|]. cbn [concat] in Hk.
  destruct IH as (wss & -> & Hws); [intros; apply Hk, elem_of_app; by right|].
  destruct (keys_inverse f l vs) as (ws & -> & Hw); [intros; apply Hk, elem_of_app; by left|].
  exists (ws :: wss). split; [done|]. by constructor.
Qed.

Section wire.
Context `{Coins} `{WireFormat}.
Context (c : SortKeyCodec.t) (n : native).

Lemma decode_levels (s : t) wss :
  codec_ok c n → codec s = c → Forall (Forall (in_range n)) wss →
  decode_all s (concat (fmap (M:=list) (key_of c n) <$> wss)) = Ok (Some <$> concat wss).
Proof.
  intros Hok Hcd Hr. unfold decode_all. rewrite Hcd.
  rewrite (collect_ok _ _ ((λ v, mkScalar (SortKeyCodec.data_type c) (Some v)) <$> concat wss)).
  - cbn [obind]. by rewrite <-list_fmap_compose.
  - induction Hr as [|ws wss Hws _ IH]; [done|]. rewrite fmap_cons. cbn [concat]. rewrite fmap_app.
    apply Forall2_app; [|done]. apply Forall2_fmap, Forall_Forall2_diag.
    eapply Forall_impl; [done|]. intros v. by apply decode_key.
Qed.

Lemma encode_levels wss :
  codec_ok c n →
  collect (level_keys c (SortKeyCodec.data_type c)) ((λ row, [row]) <$> (fmap Some <$> wss))
  = Ok (fmap (M:=list) (key_of c n) <$> wss).
Proof.
  intros Hok. apply collect_ok. rewrite <-list_fmap_compose. apply Forall2_fmap, Forall_Forall2_diag.
  apply Forall_true. intros ws. unfold compose. cbn [level_keys]. rewrite (encode_values c n Hok). do 2 f_equal.
  induction ws as [|w ws IH]; [done|]. cbn. by f_equal.
Qed.

Lemma extreme_round (s : t) o p :
  codec_ok c n → codec s = c →
  match o with None => True | Some k => ∃ v, in_range n v ∧ k = key_of c n v end →
  extreme_proto s o = Ok p → extreme_key c p = Ok o.
Proof.
  intros Hok Hcd. destruct o as [k|]; [|by intros _ [= <-]]. intros (v & Hv & ->). cbn [extreme_proto].
  rewrite Hcd, (decode_key c n Hok) by done. cbn [obind].
  destruct (scalar_to_proto _) as [|q] eqn:Hq; [done|]. intros [= <-]. cbn [extreme_key].
  rewrite (scalar_from_to _ _ Hq). cbn [scalar_type scalar_value]. by rewrite (encode_values c n Hok).
Qed.

Lemma extreme_in_range (o : option N) vs (P : option N → list N → Prop) :
  Forall (in_range n) vs → (∀ k, P (Some k) (key_of c n <$> vs) → k ∈ key_of c n <$> vs) →
  P o (key_of c n <$> vs) →
  match o with None => True | Some k => ∃ v, in_range n v ∧ k = key_of c n v end.
Proof.
  intros Hr HP Ho. destruct o as [k|]; [|done].
  destruct (proj1 (list_elem_of_fmap _ _ _) (HP k Ho)) as (v & -> & Hv). exists v. split; [|done].
  by eapply Forall_forall.
Qed.

(** A stack holds keys exactly if it has extremes. *)
Lemma concat_nonempty (stack : list (list N)) :
  existsb (λ l, negb (bool_decide (l = []))) stack = bool_decide (concat stack ≠ []).
Proof.
  induction stack as [|[|x l] stack IH]; [done|exact IH|done].
Qed.

Lemma retains_something k0 (s : KllSketch.t N) xs :
  core k0 s xs → (concat (KllSketch.levels s) = [] ↔ xs = []).
Proof.
  intros Hc. split; intros Hnil.
  - pose proof (co_weight _ _ _ Hc) as Hw. rewrite wsum_zero in Hw; [destruct xs; [done|cbn in Hw; lia]|].
    intros [|x l] Hl; [done|]. assert (x ∈ concat (KllSketch.levels s)) as Hx.
    { apply elem_of_concat. exists (x :: l). split; [by left|done]. }
    rewrite Hnil in Hx. by apply not_elem_of_nil in Hx.
  - pose proof (co_items _ _ _ Hc) as Hi. subst xs. by apply submseteq_nil_r.
Qed.

Lemma stack_extremes (s : KllSketch.t N) xs (stack : list (list N)) :
  described (E:=DataFusionError) KLL_K s xs → concat stack ≡ₚ concat (KllSketch.levels s) →
  existsb (λ l, negb (bool_decide (l = []))) stack = bool_decide (KllSketch.min s ≠ None) ∧
  existsb (λ l, negb (bool_decide (l = []))) stack = bool_decide (KllSketch.max s ≠ None).
Proof.
  intros [Hc _ Hlo Hhi] Hp. rewrite concat_nonempty.
  assert (concat stack = [] ↔ xs = []) as Hx.
  { rewrite <-(retains_something KLL_K s xs Hc). split; intros Hnil; rewrite Hnil in Hp.
    - symmetry. by apply Permutation_nil_l.
    - by apply Permutation_nil_r. }
  split; apply bool_decide_ext; rewrite Hx.
  - destruct (KllSketch.min s); [|cbn in Hlo; naive_solver]. destruct Hlo as [Hm _].
    split; [done|]. intros _ ->. by apply not_elem_of_nil in Hm.
  - destruct (KllSketch.max s); [|cbn in Hhi; naive_solver]. destruct Hhi as [Hm _].
    split; [done|]. intros _ ->. by apply not_elem_of_nil in Hm.
Qed.

(** What is sent of a sketch, and what the receiver makes of it *)
Lemma sent_levels (s : t) vs :
  column_sketch c n s vs → is_u64 (N.of_nat (length vs)) →
  ∃ wss, KllSketch.sort <$> KllSketch.levels (sketch s) = fmap (M:=list) (key_of c n) <$> wss ∧
    Forall (Forall (in_range n)) wss.
Proof.
  intros Hs Hn. destruct (column_described c n s vs Hs Hn) as [Hc _ _ _].
  destruct (sort_levels (KllSketch.levels (sketch s))) as (_ & _ & Hp).
  destruct (levels_inverse (key_of c n) (KllSketch.sort <$> KllSketch.levels (sketch s)) (values_of vs))
    as (wss & -> & Hw).
  { intros k Hk. rewrite Hp in Hk. eapply elem_of_submseteq; [done|]. apply (co_items _ _ _ Hc). }
  exists wss. split; [done|]. eapply Forall_impl; [done|]. intros ws Hws.
  eapply Forall_impl; [done|]. intros w Hin. by eapply Forall_forall; [apply (cs_range c n s vs Hs)|].
Qed.

Lemma sent_rows (wss : list (list Z)) ends :
  offsets 0 (fmap (M:=list) (key_of c n) <$> wss) = Ok ends →
  rows_of 0 ends (Some <$> concat wss) = fmap (M:=list) Some <$> wss.
Proof.
  intros Ho.
  assert (Some <$> concat wss = concat (fmap (M:=list) Some <$> wss)) as ->.
  { clear. induction wss as [|ws wss IH]; [done|]. cbn [concat]. rewrite fmap_app, IH. done. }
  eapply (rows_offsets _ _ 0 ends []); [done| |done].
  clear. induction wss as [|ws wss IH]; [done|]. rewrite !fmap_cons, !length_fmap. by f_equal.
Qed.

Lemma rebuild_sketch (s : t) vs r :
  column_sketch c n s vs → is_u64 (N.of_nat (length vs)) →
  ∃ k', KllSketch.from_parts (E:=DataFusionError) KLL_K
      (KllSketch.sort <$> KllSketch.levels (sketch s)) (KllSketch.min (sketch s))
      (KllSketch.max (sketch s)) r = Ok (Some k') ∧
    sketch_of (E:=DataFusionError) KLL_K k' (key_of c n <$> values_of vs) ∧
    KllSketch.min k' = KllSketch.min (sketch s) ∧ KllSketch.max k' = KllSketch.max (sketch s) ∧
    ∀ ranks, KllSketch.at_ranks (E:=DataFusionError) ranks k' = KllSketch.at_ranks ranks (sketch s).
Proof.
  intros Hs Hn. destruct (column_described c n s vs Hs Hn) as [Hc Hset _ _].
  assert (MIN_LEVEL_WIDTH ≤ KLL_K)%N as Hk by done. pose proof (co_k _ _ _ Hc) as Hks.
  destruct (from_parts_core KLL_K (sketch s) _ r Hc Hset Hk) as (Hp1 & Hc1 & Hs1).
  set (s1 := KllSketch.mk _ _ _ _ _ _) in *.
  destruct (from_parts_core KLL_K s1 _ r Hc1 Hs1 Hk) as (Hp2 & Hc2 & Hs2).
  set (s2 := KllSketch.mk (_ <$> KllSketch.levels s1) _ _ _ _ _) in *.
  exists s2. split_and!; [by rewrite <-Hks| |done|done|].
  - eapply (Of_parts KLL_K s1); [|exact Hp2]. eapply (Of_parts KLL_K (sketch s)); [apply Hs|exact Hp1].
  - intros ranks.
    destruct (permuted_alike (E:=DataFusionError) KLL_K _ (sketch s) s1 Hc Hc1) as (_ & _ & <-); [done..|].
    by apply (permuted_alike (E:=DataFusionError) KLL_K _ s1 s2 Hc1 Hc2).
Qed.

(** The message of a sketch *)
Lemma to_proto_inv (s : t) vs p :
  column_sketch c n s vs → is_u64 (N.of_nat (length vs)) → to_proto s = Ok p →
  ∃ wss,
    KllSketch.sort <$> KllSketch.levels (sketch s) = fmap (M:=list) (key_of c n) <$> wss ∧
    ipc_write [(LEVELS_FIELD_NAME, StructLists [(KEY_FIELD_NAME, SortKeyCodec.data_type c)]
      ((λ row, [row]) <$> (fmap (M:=list) Some <$> wss)))] = inr (st_levels p) ∧
    st_k p = KLL_K ∧ st_null_count p = nulls_in vs ∧
    extreme_proto s (KllSketch.min (sketch s)) = Ok (st_key_min p) ∧
    extreme_proto s (KllSketch.max (sketch s)) = Ok (st_key_max p).
Proof.
  intros Hs Hn Hp. destruct (sent_levels s vs Hs Hn) as (wss & Hl & Hr). exists wss. split; [done|].
  destruct (column_described c n s vs Hs Hn) as [Hc _ _ _].
  pose proof (cs_ok _ _ _ _ Hs) as Hok. pose proof (cs_codec _ _ _ _ Hs) as Hcd.
  unfold to_proto in Hp. rewrite Hl in Hp.
  destruct (offsets _ _) as [ends| |] eqn:Ho; try done. cbn [obind] in Hp.
  rewrite (decode_levels s wss Hok Hcd Hr) in Hp. cbn [obind] in Hp.
  rewrite (sent_rows wss ends Ho), Hcd in Hp.
  destruct (ipc_write _) as [|bytes] eqn:Hi; [done|]. cbn [obind of_sum] in Hp.
  rewrite (co_k _ _ _ Hc) in Hp.
  change (KLL_K <? 2 ^ 32)%N with true in Hp. cbn [obind] in Hp.
  destruct (extreme_proto s (KllSketch.min _)) as [lo| |] eqn:Hlo; try done. cbn [obind] in Hp.
  destruct (extreme_proto s (KllSketch.max _)) as [hi| |] eqn:Hhi; try done. cbn [obind] in Hp.
  injection Hp as <-. split_and!; try done. apply Hs.
Qed.

Lemma column_wire (s : t) vs p r :
  column_sketch c n s vs → is_u64 (N.of_nat (length vs)) → to_proto s = Ok p →
  ∃ s', try_from_proto p (SortKeyCodec.options c) r = Ok s' ∧ column_sketch c n s' vs ∧
    KllSketch.min (sketch s') = KllSketch.min (sketch s) ∧
    KllSketch.max (sketch s') = KllSketch.max (sketch s) ∧
    ∀ ranks, KllSketch.at_ranks (E:=DataFusionError) ranks (sketch s')
             = KllSketch.at_ranks ranks (sketch s).
Proof.
  intros Hs Hn Hp. destruct (to_proto_inv s vs p Hs Hn Hp) as (wss & Hl & Hi & Hk & Hnu & Hlo & Hhi).
  pose proof (column_described c n s vs Hs Hn) as Hd. pose proof (cs_ok _ _ _ _ Hs) as Hok.
  pose proof (cs_codec _ _ _ _ Hs) as Hcd. pose proof (cs_range _ _ _ _ Hs) as Hr.
  destruct (rebuild_sketch s vs r Hs Hn) as (k' & Hk' & Hof & Hmin & Hmax & Hat).
  exists (mk _ c k' (st_null_count p)). split; [|split_and!; [by split|done..]].
  unfold try_from_proto, levels_column. rewrite (ipc_read_write _ _ Hi). cbn [obind of_sum].
  unfold column_by_name. cbn [list_find]. rewrite decide_True by done. cbn [fst snd].
  cbn [obind].
  assert (SortKeyCodec.try_new (SortKeyCodec.data_type c) (SortKeyCodec.options c) = Some c) as ->.
  { unfold SortKeyCodec.try_new. rewrite Hok. by destruct c. }
  rewrite (encode_levels wss Hok). cbn [obind].
  assert (Hel := extreme_in_range (KllSketch.min (sketch s)) (values_of vs) least Hr
    (λ k H, proj1 H) (de_least _ _ _ Hd)).
  assert (Heh := extreme_in_range (KllSketch.max (sketch s)) (values_of vs) greatest Hr
    (λ k H, proj1 H) (de_greatest _ _ _ Hd)).
  rewrite (extreme_round s _ _ Hok Hcd Hel Hlo), (extreme_round s _ _ Hok Hcd Heh Hhi). cbn [obind].
  rewrite <-Hl, Hk. destruct (sort_levels (KllSketch.levels (sketch s))) as (_ & _ & Hperm).
  destruct (stack_extremes (sketch s) _ _ Hd Hperm) as [He1 He2].
  rewrite <-He1, <-He2, bool_decide_eq_false_2 by (by intros []). cbn [orb]. by rewrite Hk'.
Qed.

(** Sending fails only where the formats do, with the error they give: that of the IPC
    format on a batch of levels of the type of the codec, or the one raised when a value of
    the type has no wire form. *)
Definition format_fails (err : DataFusionError) : Prop :=
  (∃ rows, ipc_write [(LEVELS_FIELD_NAME,
      StructLists [(KEY_FIELD_NAME, SortKeyCodec.data_type c)] rows)] = inl err) ∨
  (err = internal_err "SortKeySketch: failed to encode {value:?}: {e:?}" ∧
   ∃ v e, in_range n v ∧ scalar_to_proto (mkScalar (SortKeyCodec.data_type c) (Some v)) = inl e).

Lemma extreme_proto_total (s : t) o :
  codec_ok c n → codec s = c →
  match o with None => True | Some k => ∃ v, in_range n v ∧ k = key_of c n v end →
  (∃ p, extreme_proto s o = Ok p) ∨ ∃ e, extreme_proto s o = Err e ∧ format_fails e.
Proof.
  intros Hok Hcd. destruct o as [k|]; [|left; by eexists]. intros (v & Hv & ->). cbn [extreme_proto].
  rewrite Hcd, (decode_key c n Hok) by done. cbn [obind].
  destruct (scalar_to_proto _) as [e|q] eqn:Hq; [right|left; by eexists].
  eexists. split; [done|]. right. split; [done|]. by exists v, e.
Qed.

Lemma to_proto_total (s : t) vs :
  column_sketch c n s vs → (N.of_nat (length vs) < 2 ^ 41)%N →
  (∃ p, to_proto s = Ok p) ∨ ∃ e, to_proto s = Err e ∧ format_fails e.
Proof.
  intros Hs Hn. assert (is_u64 (N.of_nat (length vs))) as Hu by (unfold is_u64; lia).
  pose proof (column_described c n s vs Hs Hu) as Hd. pose proof (cs_ok _ _ _ _ Hs) as Hok.
  pose proof (cs_codec _ _ _ _ Hs) as Hcd. pose proof (cs_range _ _ _ _ Hs) as Hr.
  destruct (sent_levels s vs Hs Hu) as (wss & Hl & Hrs).
  destruct (offsets_ok 0 (fmap (M:=list) (key_of c n) <$> wss)) as [ends Ho].
  { destruct (sort_levels (KllSketch.levels (sketch s))) as (_ & _ & Hp). rewrite <-Hl, Hp.
    eapply retained_few; [done|]. rewrite length_fmap. pose proof (values_nulls vs). lia. }
  unfold to_proto. rewrite Hl, Ho. cbn [obind]. rewrite (decode_levels s wss Hok Hcd Hrs). cbn [obind].
  rewrite Hcd. destruct (ipc_write _) as [e|bytes] eqn:Hi; cbn [obind of_sum].
  { right. exists e. split; [done|]. left. by eexists. }
  rewrite (co_k _ _ _ (de_core _ _ _ Hd)). change (KLL_K <? 2 ^ 32)%N with true. cbn [obind].
  destruct (extreme_proto_total s (KllSketch.min (sketch s)) Hok Hcd) as [[lo ->]|(e & -> & He)].
  { apply (extreme_in_range _ (values_of vs) least Hr (λ k H, proj1 H)). apply Hd. }
  2: { right. by exists e. }
  destruct (extreme_proto_total s (KllSketch.max (sketch s)) Hok Hcd) as [[hi ->]|(e & -> & He)].
  { apply (extreme_in_range _ (values_of vs) greatest Hr (λ k H, proj1 H)). apply Hd. }
  2: { right. by exists e. }
  left. by eexists.
Qed.
End wire.
