(* ===== verification/Range.v ===== *)
(** * Range partitions

    Models how rows are routed to value ranges: the filter of
    [ballista/core/src/execution_plans/range_filter.rs], the split of a batch of
    [range_repartition_common.rs], the delivery of shuffle files to ranges
    ([cut_partitions] of [runtime_stats.rs]), and the ranges of a list of cuts
    ([raw_bounds_from_cuts] of [ballista/scheduler/src/state/aqe/adapter.rs]).

    Batches are lists of rows. The arithmetic and the order of scalars, the
    evaluation of expressions and the row format are DataFusion's and Arrow's
    ([ScalarOps], [ExprOps], [RowFormat]); what is relied on is in [ScalarLaws],
    [ExprLaws] and [RowLaws]. *)

From S2P Require Import Prelude Errors Machine Types Kll SortKey SortKeyFacts.
From stdpp Require Import numbers gmap.

Abbreviation fallible A := (DataFusionError + A)%type.

(** ** Scalars *)

Class ScalarOps : Type := {
  partial_cmp : ScalarValue → ScalarValue → option comparison;
  scalar_eqb : ScalarValue → ScalarValue → bool;
  scalar_add : ScalarValue → ScalarValue → fallible ScalarValue;
  scalar_sub : ScalarValue → ScalarValue → fallible ScalarValue;
  new_zero : DataType → fallible ScalarValue;
  is_numeric : DataType → bool;
  is_temporal : DataType → bool;
}.

(** The number types, whose values are added without conversion *)
Definition number (d : DataType) : bool :=
  match d with
  | Int8 | Int16 | Int32 | Int64 | UInt8 | UInt16 | UInt32 | UInt64 => true
  | _ => false
  end.

(** [wrapping_add] and the like: the value of the type that is congruent *)
Definition wrap_to (n : native) (v : Z) : Z :=
  match n with
  | Signed w => ((v + 2 ^ (Z.of_N w - 1)) `mod` 2 ^ Z.of_N w - 2 ^ (Z.of_N w - 1))%Z
  | Unsigned w | Float w => (v `mod` 2 ^ Z.of_N w)%Z
  end.

(** Scalars of one type compare as their values, floats by [total_cmp]; integers are
    added and subtracted with wrap-around; zero is zero. *)
Class ScalarLaws `{ScalarOps} : Prop := {
  cmp_values d n a b :
    dispatch_sortable d = Some n → in_range n a → in_range n b →
    partial_cmp (mkScalar d (Some a)) (mkScalar d (Some b))
      = Some (order_of n a ?= order_of n b)%Z;
  eqb_values d n a b :
    dispatch_sortable d = Some n → in_range n a → in_range n b →
    scalar_eqb (mkScalar d (Some a)) (mkScalar d (Some b)) = bool_decide (a = b);
  zero_value d : number d ∨ d = Float32 ∨ d = Float64 → new_zero d = inr (mkScalar d (Some 0%Z));
  add_values d n a b :
    number d → dispatch_sortable d = Some n → in_range n a → in_range n b →
    scalar_add (mkScalar d (Some a)) (mkScalar d (Some b))
      = inr (mkScalar d (Some (wrap_to n (a + b))));
  sub_values d n a b :
    number d → dispatch_sortable d = Some n → in_range n a → in_range n b →
    scalar_sub (mkScalar d (Some a)) (mkScalar d (Some b))
      = inr (mkScalar d (Some (wrap_to n (a - b))));
}.

Section compare.
Context `{ScalarOps}.
Implicit Types (a b : ScalarValue).

Definition scalar_le a b : bool :=
  match partial_cmp a b with Some Lt | Some Eq => true | _ => false end.
Definition scalar_lt a b : bool :=
  match partial_cmp a b with Some Lt => true | _ => false end.
Definition scalar_ge a b : bool :=
  match partial_cmp a b with Some Gt | Some Eq => true | _ => false end.
Definition scalar_gt a b : bool :=
  match partial_cmp a b with Some Gt => true | _ => false end.
End compare.

(** [a[i]] as a scalar *)
Definition try_from_array (a : Array) (i : nat) : df_result ScalarValue :=
  match array_values a !! i with
  | Some v => Ok (mkScalar (array_type a) v)
  | None => Panic
  end.

(** The binary search: the first position whose element is not [below], given
    that the elements [below] come first *)
Fixpoint bisect {E : Type} (fuel : nat) (below : nat → outcome E bool) (lo hi : nat)
  : outcome E nat :=
  match fuel with
  | 0 => Ok lo
  | S fuel' =>
      if lo <? hi then
        let probe := lo + (hi - lo) / 2 in
        let? b := below probe in
        if b then bisect fuel' below (probe + 1) hi else bisect fuel' below lo probe
      else Ok lo
  end.

(** [slice::partition_point] *)
Definition slice_partition_point {A : Type} (p : A → bool) (l : list A) : df_result nat :=
  bisect (length l) (λ i, match l !! i with Some x => Ok (p x) | None => Panic end)
    0 (length l).

(** ** Expressions over rows *)

Inductive Operator : Type := OpGtEq | OpLt | OpAnd | OpOr.

Inductive PhysicalExpr (E : Type) : Type :=
| Routing (e : E)
| Literal (v : ScalarValue)
| BinaryExpr (l : PhysicalExpr E) (op : Operator) (r : PhysicalExpr E)
| IsNullExpr (e : PhysicalExpr E).
Arguments Routing {E} e.
Arguments Literal {E} v.
Arguments BinaryExpr {E} l op r.
Arguments IsNullExpr {E} e.

(** [ScalarValue::Boolean(Some(b))] *)
Definition boolean (b : bool) : ScalarValue := mkScalar (OtherType "Boolean") (Some (Z.b2z b)).

(** The expression that routes, the rows, the arrays and masks expressions evaluate
    to, and [filter_record_batch] *)
Class ExprOps : Type := {
  RoutingExpr : Type;
  RoutingExpr_eq_dec :: EqDecision RoutingExpr;
  Row : Type;
  column_of : RoutingExpr → list Row → fallible Array;
  mask_of : PhysicalExpr RoutingExpr → list Row → fallible (list (option bool));
  filter_record_batch : list Row → list (option bool) → fallible (list Row);
}.

(** SQL's three-valued connectives *)
Definition kleene_and (a b : option bool) : option bool :=
  match a, b with
  | Some false, _ | _, Some false => Some false
  | Some true, Some true => Some true
  | _, _ => None
  end.
Definition kleene_or (a b : option bool) : option bool :=
  match a, b with
  | Some true, _ | _, Some true => Some true
  | Some false, Some false => Some false
  | _, _ => None
  end.

(** The rows whose entry in the mask is true *)
Fixpoint masked {A : Type} (rows : list A) (mask : list (option bool)) : list A :=
  match rows, mask with
  | r :: rows', m :: mask' =>
      if bool_decide (m = Some true) then r :: masked rows' mask' else masked rows' mask'
  | _, _ => []
  end.

(** The key of a row, and that expressions go row by row as SQL has it *)
Class ExprLaws `{ScalarOps} `{ExprOps} : Type := {
  type_of : RoutingExpr → DataType;
  row_key : RoutingExpr → Row → option Z;
  column_rows e rows a :
    column_of e rows = inr a → a = mkArray (type_of e) (row_key e <$> rows);
  mask_literal rows : mask_of (Literal (boolean true)) rows = inr (replicate (length rows) (Some true));
  mask_compare e op s rows a :
    column_of e rows = inr a → is_Some (dispatch_sortable (type_of e)) → scalar_type s = type_of e → scalar_value s ≠ None →
    op = OpGtEq ∨ op = OpLt →
    mask_of (BinaryExpr (Routing e) op (Literal s)) rows
      = inr ((λ r, (λ v, (if op is OpGtEq then scalar_ge else scalar_lt)
                           (mkScalar (type_of e) (Some v)) s) <$> row_key e r) <$> rows);
  mask_and l r rows ml mr :
    mask_of l rows = inr ml → mask_of r rows = inr mr →
    mask_of (BinaryExpr l OpAnd r) rows = inr (zip_with kleene_and ml mr);
  mask_or l r rows ml mr :
    mask_of l rows = inr ml → mask_of r rows = inr mr →
    mask_of (BinaryExpr l OpOr r) rows = inr (zip_with kleene_or ml mr);
  mask_is_null e rows a :
    column_of e rows = inr a →
    mask_of (IsNullExpr (Routing e)) rows
      = inr ((λ r, Some (bool_decide (row_key e r = None))) <$> rows);
  filter_masked rows mask :
    length mask = length rows → filter_record_batch rows mask = inr (masked rows mask);
}.

(** ** The ranges of cuts *)

(** A half-open range; [None] is unbounded. *)
Abbreviation RangeBound := (option ScalarValue * option ScalarValue)%type.
Abbreviation WidenedBound := (option ScalarValue * option ScalarValue)%type.

Definition raw_bounds_from_cuts (cuts : list ScalarValue) : list RangeBound :=
  (λ i, ((match i with 0 => None | S j => cuts !! j end), cuts !! i)) <$> seq 0 (length cuts + 1).

(** ** Halos *)

Section halos.
Context `{ScalarOps}.

(** [f64::is_finite] and [f32::is_finite] on the bits *)
Definition f64_bits_finite (v : Z) : bool := negb ((v / 2 ^ 52) `mod` 2 ^ 11 =? 2047)%Z.
Definition f32_bits_finite (v : Z) : bool := negb ((v / 2 ^ 23) `mod` 2 ^ 8 =? 255)%Z.

Definition validate_halo (halo : ScalarValue) : df_result () :=
  match scalar_value halo with
  | None => Err (internal_err "RangeFilterExec: {name} must not be NULL")
  | Some v =>
      let finite :=
        match scalar_type halo with
        | Float64 => f64_bits_finite v
        | Float32 => f32_bits_finite v
        | _ => true
        end in
      if negb finite then Err (internal_err "RangeFilterExec: {name} must be finite, got {halo}")
      else
        let? zero := of_sum (new_zero (scalar_type halo)) in
        if scalar_lt halo zero
        then Err (internal_err "RangeFilterExec: {name} must be non-negative, got {halo}")
        else Ok tt
  end.

Definition is_zero_halo (halo : ScalarValue) : df_result bool :=
  let? zero := of_sum (new_zero (scalar_type halo)) in
  Ok (scalar_eqb halo zero).

Definition widen_below (value halo : ScalarValue) : df_result ScalarValue :=
  let? z := is_zero_halo halo in
  if z then Ok value else of_sum (scalar_sub value halo).

Definition widen_above (value halo : ScalarValue) : df_result ScalarValue :=
  let? z := is_zero_halo halo in
  if z then Ok value else of_sum (scalar_add value halo).
End halos.

(** ** The filter *)

Section filter.
Context `{ScalarOps} `{ExprOps}.

(** What the filter asks of its input *)
Record InputPlan : Type := mkInput {
  partition_count : nat;
  data_type : RoutingExpr → fallible DataType;
  nullable : RoutingExpr → fallible bool;
  output_ordering : option ((RoutingExpr * SortOptions) * list (RoutingExpr * SortOptions));
}.

Record BoundsState : Type := mkBounds { raw : list RangeBound; widened : list WidenedBound }.

Inductive InputOrder : Type :=
| Unordered (nulls_first : bool)
| Ordered (options : SortOptions).

Definition order_nulls_first (o : InputOrder) : bool :=
  match o with
  | Unordered first => first
  | Ordered options => nulls_first options
  end.

(** [o.map(f).transpose()] *)
Definition map_option {A B : Type} (f : A → df_result B) (o : option A) : df_result (option B) :=
  match o with
  | Some a => let? b := f a in Ok (Some b)
  | None => Ok None
  end.

Definition widen_bound (halo_lo halo_hi : ScalarValue) (bound : RangeBound) : df_result WidenedBound :=
  let? lo_w := map_option (λ lo, widen_below lo halo_lo) bound.1 in
  let? hi_w := map_option (λ hi, widen_above hi halo_hi) bound.2 in
  match lo_w, hi_w with
  | Some l, Some h =>
      if scalar_gt l h
      then Err (internal_err "RangeFilterExec: widened bound produced inverted [{l}, {h}) - check cuts + halo")
      else Ok (lo_w, hi_w)
  | _, _ => Ok (lo_w, hi_w)
  end.

Definition build_bounds_state (input : InputPlan) (raw : list RangeBound)
    (halo_lo halo_hi : ScalarValue) : df_result BoundsState :=
  if negb (length raw =? partition_count input) then
    Err (internal_err "RangeFilterExec: raw_bounds.len() ({}) does not match input partition count ({partition_count})")
  else
    let? widened := SortKeySketch.collect (widen_bound halo_lo halo_hi) raw in
    Ok (mkBounds raw widened).

Definition build_predicate_from_bounds (filter_expr : RoutingExpr) (lo hi : option ScalarValue)
  : PhysicalExpr RoutingExpr :=
  let ge lo := BinaryExpr (Routing filter_expr) OpGtEq (Literal lo) in
  let lt hi := BinaryExpr (Routing filter_expr) OpLt (Literal hi) in
  match lo, hi with
  | None, None => Literal (boolean true)
  | None, Some hi => lt hi
  | Some lo, None => ge lo
  | Some lo, Some hi => BinaryExpr (ge lo) OpAnd (lt hi)
  end.

(** The binary search over a column *)
Definition partition_point (arr : Array) (len : nat) (bound : ScalarValue) : df_result nat :=
  bisect len (λ probe, let? v := try_from_array arr probe in Ok (scalar_lt v bound)) 0 len.

Definition slow_filter (predicate : PhysicalExpr RoutingExpr) (batch : list Row)
  : df_result (list Row) :=
  let? mask := of_sum (mask_of predicate batch) in
  of_sum (filter_record_batch batch mask).

Definition opt_test (o : option ScalarValue) (absent : bool) (p : ScalarValue → bool) : bool :=
  match o with Some v => p v | None => absent end.

Definition fast_filter (predicate : PhysicalExpr RoutingExpr) (filter_expr : RoutingExpr)
    (lo hi : option ScalarValue) (batch : list Row) : df_result (option (list Row)) :=
  let n := length batch in
  let? arr := of_sum (column_of filter_expr batch) in
  if (0 <? null_count_of arr)%N then
    let? filtered := slow_filter predicate batch in
    Ok (if 0 <? length filtered then Some filtered else None)
  else
    let? first := try_from_array arr 0 in
    let? last := try_from_array arr (n - 1) in
    if opt_test hi false (λ hi, scalar_ge first hi) || opt_test lo false (λ lo, scalar_lt last lo)
    then Ok None
    else if opt_test lo true (λ lo, scalar_ge first lo) && opt_test hi true (λ hi, scalar_lt last hi)
    then Ok (Some batch)
    else
      let? start := match lo with None => Ok 0 | Some lo => partition_point arr n lo end in
      let? stop := match hi with None => Ok n | Some hi => partition_point arr n hi end in
      if stop <=? start then Ok None
      else Ok (Some (take (stop - start) (drop start batch))).

(** What a poll yields for an item of the input; [None] polls on. *)
Definition poll_item (predicate : PhysicalExpr RoutingExpr) (fast : option RoutingExpr)
    (lo hi : option ScalarValue) (item : fallible (list Row)) : option (df_result (list Row)) :=
  match item with
  | inl e => Some (Err e)
  | inr batch =>
      if length batch =? 0 then None
      else
        match fast with
        | Some filter_expr =>
            match fast_filter predicate filter_expr lo hi batch with
            | Ok (Some b) => Some (Ok b)
            | Ok None => None
            | Err e => Some (Err e)
            | Panic => Some Panic
            end
        | None =>
            match slow_filter predicate batch with
            | Ok out => if length out =? 0 then None else Some (Ok out)
            | Err e => Some (Err e)
            | Panic => Some Panic
            end
        end
  end.
End filter.

Module RangeFilterExec.
Record t `{ScalarOps} `{ExprOps} : Type := mk {
  input : InputPlan;
  filter_expr : RoutingExpr;
  halo_lo : ScalarValue;
  halo_hi : ScalarValue;
  bounds : option BoundsState;
  input_order : option InputOrder;
  sorted_on_key : bool;
}.

Section impl.
Context `{ScalarOps} `{ExprOps}.
Implicit Types (self : t).

Definition try_new_inner (input : InputPlan) (filter_expr : RoutingExpr)
    (halo_lo halo_hi : ScalarValue) (input_order : option InputOrder)
    (raw_bounds : option (list RangeBound)) : df_result t :=
  let? expr_type := of_sum (data_type input filter_expr) in
  if negb (is_numeric expr_type) && negb (is_temporal expr_type) then
    Err (internal_err "RangeFilterExec: filter_expr must be numeric or temporal, got {expr_type}")
  else
    let? _ := validate_halo halo_lo in
    let? _ := validate_halo halo_hi in
    let? bounds := map_option (λ raw, build_bounds_state input raw halo_lo halo_hi) raw_bounds in
    let? unplaced :=
      match input_order with
      | None => of_sum (nullable input filter_expr)
      | Some _ => Ok false
      end in
    if unplaced then
      Err (internal_err "RangeFilterExec: filter_expr is nullable but no input order was given, so which partition holds the NULL run is unknown")
    else
      let sorted_on_key :=
        match output_ordering input with
        | Some ((expr, options), _) => bool_decide (expr = filter_expr) && negb (descending options)
        | None => false
        end in
      Ok (mk _ _ input filter_expr halo_lo halo_hi bounds input_order sorted_on_key).

Definition try_new_pending (input : InputPlan) (filter_expr : RoutingExpr)
    (halo_lo halo_hi : ScalarValue) (input_order : option InputOrder) : df_result t :=
  try_new_inner input filter_expr halo_lo halo_hi input_order None.

Definition try_new_resolved (input : InputPlan) (filter_expr : RoutingExpr)
    (halo_lo halo_hi : ScalarValue) (input_order : option InputOrder)
    (raw_bounds : list RangeBound) : df_result t :=
  try_new_inner input filter_expr halo_lo halo_hi input_order (Some raw_bounds).

Definition set_bounds (b : BoundsState) self : t :=
  mk _ _ (input self) (filter_expr self) (halo_lo self) (halo_hi self) (Some b)
    (input_order self) (sorted_on_key self).

Definition resolve_bounds (raw_bounds : list RangeBound) self : df_result t :=
  let? state := build_bounds_state (input self) raw_bounds (halo_lo self) (halo_hi self) in
  Ok (set_bounds state self).

Definition raw_bounds self : option (list RangeBound) := raw <$> bounds self.
Definition widened_bounds self : option (list WidenedBound) := widened <$> bounds self.

Definition with_new_children (children : list InputPlan) self : df_result t :=
  match children with
  | [input] =>
      try_new_inner input (filter_expr self) (halo_lo self) (halo_hi self) (input_order self)
        (raw_bounds self)
  | _ => Err (internal_err "RangeFilterExec expects exactly one child, got {}")
  end.

(** [slice_by_global_partition] *)
Definition slice_by_global_partition {A : Type} (values : list A) (partitions : list nat)
  : df_result (list A) :=
  SortKeySketch.collect (λ global,
    match values !! global with
    | Some v => Ok v
    | None => Err (internal_err "{owner}: partition index {global} out of bounds ({} {what})")
    end) partitions.

Definition slice_to_partitions (child : InputPlan) (partitions : list nat) self : df_result t :=
  match raw_bounds self with
  | None => Err (internal_err "RangeFilterExec: task-restriction before resolve_bounds()")
  | Some raw =>
      let? sliced := slice_by_global_partition raw partitions in
      try_new_resolved child (filter_expr self) (halo_lo self) (halo_hi self) (input_order self) sliced
  end.

(** The range and the predicate of a partition *)
Definition partition_bound (partition : nat) self : df_result WidenedBound :=
  match bounds self with
  | None => Err (internal_err "RangeFilterExec: execute() called before resolve_bounds()")
  | Some state =>
      match widened state !! partition with
      | Some bound => Ok bound
      | None => Err (internal_err "RangeFilterExec: partition {partition} out of bounds ({} bounds)")
      end
  end.

Definition partition_predicate (bound : WidenedBound) self : PhysicalExpr RoutingExpr :=
  let '(lo, hi) := bound in
  let first := match input_order self with Some o => order_nulls_first o | None => false end in
  let takes_nulls := if first then bool_decide (lo = None) else bool_decide (hi = None) in
  let predicate := build_predicate_from_bounds (filter_expr self) lo hi in
  if takes_nulls
  then BinaryExpr predicate OpOr (IsNullExpr (Routing (filter_expr self)))
  else predicate.

(** The items of the output, given those of the partition of the input *)
Definition execute (partition : nat) (input : fallible (list (fallible (list Row)))) self
  : df_result (list (df_result (list Row))) :=
  let? bound := partition_bound partition self in
  let predicate := partition_predicate bound self in
  let? items := of_sum input in
  let fast := if sorted_on_key self then Some (filter_expr self) else None in
  Ok (Prelude.filter_map (poll_item predicate fast bound.1 bound.2) items).
End impl.
End RangeFilterExec.

(** ** Splitting a batch *)

(** [RowConverter] with one field, and [ScalarValue::iter_to_array] *)
Class RowFormat : Type := {
  RowBytes : Type;
  row_bytes_le : RowBytes → RowBytes → bool;
  row_converter_new : DataType → SortOptions → fallible ();
  convert_columns : DataType → SortOptions → Array → fallible (list RowBytes);
  iter_to_array : list ScalarValue → fallible Array;
}.

(** The order of a column: [nulls_first] places the NULLs whatever the direction. *)
Definition sorts_before (o : SortOptions) (n : native) (v w : option Z) : bool :=
  match v, w with
  | None, None => true
  | None, Some _ => nulls_first o
  | Some _, None => negb (nulls_first o)
  | Some a, Some b =>
      if descending o then (order_of n b <=? order_of n a)%Z else (order_of n a <=? order_of n b)%Z
  end.

(** Rows are compared as the column sorts; an array has the values it is made of. *)
Class RowLaws `{RowFormat} : Type := {
  row_of : DataType → SortOptions → option Z → RowBytes;
  convert_rows d o a rows :
    convert_columns d o a = inr rows → array_type a = d ∧ rows = row_of d o <$> array_values a;
  row_order d n o v w :
    dispatch_sortable d = Some n →
    from_option (in_range n) True v → from_option (in_range n) True w →
    row_bytes_le (row_of d o v) (row_of d o w) = sorts_before o n v w;
  array_of l a :
    iter_to_array l = inr a →
    array_values a = scalar_value <$> l ∧ Forall (λ v, scalar_type v = array_type a) l;
}.

(** [l[i].push(x)] *)
Definition push_at {A : Type} (i : nat) (x : A) (l : list (list A)) : df_result (list (list A)) :=
  match l !! i with
  | Some b => Ok (<[i := b ++ [x]]> l)
  | None => Panic
  end.

Definition as_u32 (n : nat) : nat := N.to_nat (N.of_nat n `mod` 2 ^ 32).

Section split.
Context `{ExprOps} `{RowFormat}.

Fixpoint bucket_rows (boundaries keys : list RowBytes) (row_idx : nat) (buckets : list (list nat))
  : df_result (list (list nat)) :=
  match keys with
  | [] => Ok buckets
  | key :: keys' =>
      let? bucket_idx := slice_partition_point (λ b, row_bytes_le b key) boundaries in
      let? buckets := push_at bucket_idx (as_u32 row_idx) buckets in
      bucket_rows boundaries keys' (S row_idx) buckets
  end.

(** [take_arrays]: the rows at these positions *)
Definition take_rows (batch : list Row) (row_idxs : list nat) : df_result (list Row) :=
  SortKeySketch.collect (λ i, match batch !! i with Some r => Ok r | None => Panic end) row_idxs.

Definition split_batch_by_range (batch : list Row) (routing_expr : RoutingExpr)
    (boundaries : list ScalarValue) (options : SortOptions) : df_result (list (list Row)) :=
  let output_partitions := length boundaries + 1 in
  if length batch =? 0 then Ok (replicate output_partitions [])
  else
    match boundaries with
    | [] => Ok [batch]
    | _ =>
        let? keys := of_sum (column_of routing_expr batch) in
        let? _ :=
          match row_converter_new (array_type keys) options with
          | inl _ => Err (internal_err "range-repartition: {:?} has no row encoding: {e}")
          | inr _ => Ok tt
          end in
        let? column :=
          match iter_to_array boundaries with
          | inl _ => Err (internal_err "range-repartition: boundaries starting {first_boundary:?} do not form one array: {e}")
          | inr a => Ok a
          end in
        let? rows := of_sum (convert_columns (array_type keys) options column) in
        let? key_rows := of_sum (convert_columns (array_type keys) options keys) in
        let? buckets := bucket_rows rows key_rows 0 (replicate output_partitions []) in
        SortKeySketch.collect (take_rows batch) buckets
    end.
End split.

(** ** Delivering files *)

Module RuntimeStatsPartitionEntry.
Record t `{WireFormat} : Type := mk {
  partition_id : N;
  row_count : N;
  key_min : list ProtoScalar;
  key_max : list ProtoScalar;
  null_count : N;
}.
Arguments t {_}.
End RuntimeStatsPartitionEntry.

(** [&mut l[lo..=hi]], pushing to each *)
Definition push_range {A : Type} (lo hi : nat) (x : A) (l : list (list A))
  : df_result (list (list A)) :=
  if (S hi <? lo) || (length l <? S hi) then Panic
  else Ok (imap (λ i b, if (lo <=? i) && (i <=? hi) then b ++ [x] else b) l).

Section remap.
Context `{ScalarOps} `{WireFormat}.
Abbreviation entry := RuntimeStatsPartitionEntry.t.
Abbreviation location := PartitionLocation.t.

(** The entries of the reports by producing task and sub-partition; of entries
    with the same key the last is kept. *)
Definition ranges_of (reports : list (N * list entry)) : gmap (N * N) entry :=
  foldl (λ m stats,
    foldl (λ m e, <[(stats.1, RuntimeStatsPartitionEntry.partition_id e) := e]> m) m stats.2)
    ∅ reports.

(** The extremes of an entry, when it has values *)
Definition key_range (e : entry) : option (ProtoScalar * ProtoScalar) :=
  match RuntimeStatsPartitionEntry.key_min e, RuntimeStatsPartitionEntry.key_max e with
  | lo :: _, hi :: _ => Some (lo, hi)
  | _, _ => None
  end.

Definition decode_extreme (text : string) (p : ProtoScalar) : df_result ScalarValue :=
  match scalar_from_proto p with
  | inr v => Ok v
  | inl _ => Err (internal_err text)
  end.

Definition cut_file (ranges : gmap (N * N) entry) (global_cuts : list ScalarValue)
    (halo_lo halo_hi : ScalarValue) (first : bool) (file : location) (remapped : list (list location))
  : df_result (list (list location)) :=
  let partition_count := length global_cuts + 1 in
  match PartitionLocation.file_id file with
  | None => Err (internal_err "range-repartition remap: missing file_id (partition_id={})")
  | Some task_id =>
      let sub_part_id :=
        (N.of_nat (PartitionId.partition_id (PartitionLocation.partition_id file)) `mod` 2 ^ 32)%N in
      let e := ranges !! (task_id, sub_part_id) in
      let null_part_idx :=
        match e with
        | Some e =>
            if (0 <? RuntimeStatsPartitionEntry.null_count e)%N
            then Some (if first then 0 else partition_count - 1)
            else None
        | None => None
        end in
      match mbind key_range e with
      | None =>
          match null_part_idx with
          | Some part_idx => push_at part_idx file remapped
          | None =>
              if bool_decide (num_rows (PartitionLocation.partition_stats file) = Some 0%N)
              then Ok remapped
              else Err (internal_err "range-repartition remap: file has num_rows={:?} but no usable key range (task_id={task_id}, sub_part_id={sub_part_id})")
          end
      | Some (min_proto, max_proto) =>
          let? sketch_min := decode_extreme "range-repartition remap: undecodable key_min: {e:?}" min_proto in
          let? sketch_max := decode_extreme "range-repartition remap: undecodable key_max: {e:?}" max_proto in
          let? reach_lo := widen_below sketch_min halo_hi in
          let? reach_hi := widen_above sketch_max halo_lo in
          let? b_lo := slice_partition_point (λ cut, scalar_le cut reach_lo) global_cuts in
          let? b_hi := slice_partition_point (λ cut, scalar_le cut reach_hi) global_cuts in
          let? remapped :=
            match null_part_idx with
            | Some part =>
                if (b_lo <=? part) && (part <=? b_hi) then Ok remapped
                else push_at part file remapped
            | None => Ok remapped
            end in
          push_range b_lo b_hi file remapped
      end
  end.

Fixpoint cut_files (ranges : gmap (N * N) entry) (global_cuts : list ScalarValue)
    (halo_lo halo_hi : ScalarValue) (first : bool) (files : list location)
    (remapped : list (list location)) : df_result (list (list location)) :=
  match files with
  | [] => Ok remapped
  | file :: files' =>
      let? remapped := cut_file ranges global_cuts halo_lo halo_hi first file remapped in
      cut_files ranges global_cuts halo_lo halo_hi first files' remapped
  end.

(** The reports are those of the producing tasks. The assertion on the order of the
    cuts, which only debug builds have, is left out. *)
Definition cut_partitions (original_partitions : list (list location))
    (reports : list (N * list entry)) (global_cuts : list ScalarValue)
    (halo_lo halo_hi : ScalarValue) (first : bool) : df_result (list (list location)) :=
  cut_files (ranges_of reports) global_cuts halo_lo halo_hi first (concat original_partitions)
    (replicate (length global_cuts + 1) []).
End remap.
