(* ===== verification/RangeFacts.v ===== *)
(** * Lemmas on range partitions

    Binary search, cuts of one type and their ranges, widening by halos, the filter
    as a test of keys, and the partitions a file is delivered to. *)

From S2P Require Import Prelude Errors Machine Types Kll SortKey SortKeyFacts KeySketch Range.
From stdpp Require Import numbers gmap.

(** ** Binary search *)

Lemma bisect_finds {E : Type} (below : nat → outcome E bool) m fuel lo hi :
  lo ≤ m ≤ hi → hi - lo ≤ fuel → (∀ i, lo ≤ i < hi → below i = Ok (i <? m)) →
  bisect fuel below lo hi = Ok m.
Proof.
  revert lo hi. induction fuel as [|fuel IH]; intros lo hi Hm Hf Hb; cbn [bisect].
  { f_equal. lia. }
  destruct (Nat.ltb_spec lo hi) as [Hlt|]; [|f_equal; lia].
  pose proof (Nat.div_lt (hi - lo) 2 ltac:(lia) ltac:(lia)) as Hp.
  set (half := (hi - lo) / 2) in *. clearbody half. rewrite Hb by lia. cbn [obind].
  destruct (Nat.ltb_spec (lo + half) m); apply IH; try lia; intros; apply Hb; lia.
Qed.

(** How many elements of a list satisfy [p] *)
Definition how_many {A : Type} (p : A → bool) (l : list A) : nat :=
  length (filter (λ x, p x = true) l).

Lemma how_many_le {A : Type} (p : A → bool) l : how_many p l ≤ length l.
Proof. apply length_filter. Qed.

(** The elements that satisfy [p] come first. *)
Definition leads {A : Type} (p : A → bool) (l : list A) : Prop :=
  ∀ i j x y, i ≤ j → l !! i = Some x → l !! j = Some y → p y = true → p x = true.

Lemma leads_cons {A : Type} (p : A → bool) x l : leads p (x :: l) → leads p l.
Proof. intros Hp i j y z Hij Hy Hz. apply (Hp (S i) (S j)); [lia|done..]. Qed.

Lemma how_many_leads {A : Type} (p : A → bool) l :
  leads p l → ∀ i x, l !! i = Some x → p x = (i <? how_many p l).
Proof.
  induction l as [|y l IH]; intros Hp i x Hi; [done|]. unfold how_many in *.
  rewrite filter_cons. destruct (decide (p y = true)) as [Hy|Hy].
  - cbn [length]. destruct i as [|i]; simplify_eq/=; [done|].
    rewrite (IH (leads_cons _ _ _ Hp) i x Hi). apply eq_true_iff_eq.
    rewrite !Nat.ltb_lt. lia.
  - assert (filter (λ x, p x = true) l = []) as ->.
    { destruct (filter _ l) as [|z l'] eqn:Hl; [done|]. exfalso.
      assert (z ∈ filter (λ x, p x = true) l) as (Hz & [j Hj]%list_elem_of_lookup_1)%list_elem_of_filter
        by (rewrite Hl; left).
      apply Hy. by apply (Hp 0 (S j) y z); [lia|..]. }
    cbn [length]. rewrite (proj2 (Nat.ltb_ge _ _)) by lia. apply not_true_iff_false.
    intros Hx. apply Hy. by apply (Hp 0 i y x); [lia|..].
Qed.

Lemma partition_point_finds {A : Type} (p : A → bool) l :
  leads p l → slice_partition_point p l = Ok (how_many p l).
Proof.
  intros Hp. unfold slice_partition_point. pose proof (how_many_le p l).
  apply bisect_finds; [lia..|]. intros i Hi.
  destruct (lookup_lt_is_Some_2 l i) as [x Hx]; [lia|]. rewrite Hx.
  f_equal. by apply how_many_leads.
Qed.

(** ** Values of one type *)

Lemma wrap_exact n v : width_ok n → in_range n v → wrap_to n v = v.
Proof.
  destruct n as [w|w|w]; cbn [width_ok in_range wrap_to]; intros Hw Hv.
  - pose proof (pow2_split w ltac:(lia)). rewrite Z.mod_small; lia.
  - by rewrite Z.mod_small by lia.
  - by rewrite Z.mod_small by lia.
Qed.

Section values.
Context `{ScalarOps, !ScalarLaws}.
Context (d : DataType) (n : native) (Hd : dispatch_sortable d = Some n).

Abbreviation sc v := (mkScalar d (Some v)).
Abbreviation ord := (order_of n).

Lemma sc_le a b : in_range n a → in_range n b → scalar_le (sc a) (sc b) = (ord a <=? ord b)%Z.
Proof using All.
  intros Ha Hb. unfold scalar_le. rewrite (cmp_values d n) by done. unfold Z.leb. by destruct (_ ?= _)%Z.
Qed.

Lemma sc_lt a b : in_range n a → in_range n b → scalar_lt (sc a) (sc b) = (ord a <? ord b)%Z.
Proof using All.
  intros Ha Hb. unfold scalar_lt. rewrite (cmp_values d n) by done. unfold Z.ltb. by destruct (_ ?= _)%Z.
Qed.

Lemma sc_ge a b : in_range n a → in_range n b → scalar_ge (sc a) (sc b) = (ord b <=? ord a)%Z.
Proof using All.
  intros Ha Hb. unfold scalar_ge. rewrite (cmp_values d n), <-Z.geb_leb by done.
  unfold Z.geb. by destruct (_ ?= _)%Z.
Qed.

Lemma sc_gt a b : in_range n a → in_range n b → scalar_gt (sc a) (sc b) = (ord b <? ord a)%Z.
Proof using All.
  intros Ha Hb. unfold scalar_gt. rewrite (cmp_values d n), <-Z.gtb_ltb by done.
  unfold Z.gtb. by destruct (_ ?= _)%Z.
Qed.

(** *** Ascending lists *)

Definition ascending (vs : list Z) : Prop :=
  ∀ i a b, vs !! i = Some a → vs !! S i = Some b → (ord a ≤ ord b)%Z.

Lemma ascending_le vs i j a b :
  ascending vs → i ≤ j → vs !! i = Some a → vs !! j = Some b → (ord a ≤ ord b)%Z.
Proof using Type.
  intros Ha Hij. replace j with (i + (j - i)) by lia. revert b.
  induction (j - i) as [|k IH]; intros b Hi Hj.
  - rewrite Nat.add_0_r in Hj. simplify_eq. done.
  - rewrite Nat.add_succ_r in Hj.
    destruct (lookup_lt_is_Some_2 vs (i + k)) as [c Hc]; [apply lookup_lt_Some in Hj; lia|].
    pose proof (IH c Hi Hc). pose proof (Ha _ _ _ Hc Hj). lia.
Qed.

(** The cuts up to a bound *)
Definition cuts_to (cs : list Z) (x : Z) : nat := how_many (λ c, (ord c <=? x)%Z) cs.

Lemma cuts_to_spec cs x k c :
  ascending cs → cs !! k = Some c → (k < cuts_to cs x ↔ (ord c ≤ x)%Z).
Proof using Type.
  intros Ha Hc. unfold cuts_to.
  assert (leads (λ c, (ord c <=? x)%Z) cs) as Hl.
  { intros i j a b Hij Hi Hj. rewrite !Z.leb_le. pose proof (ascending_le _ _ _ _ _ Ha Hij Hi Hj). lia. }
  pose proof (how_many_leads _ _ Hl k c Hc) as Hk. rewrite <-Nat.ltb_lt, <-Z.leb_le. by rewrite Hk.
Qed.

Lemma cuts_to_le cs x : cuts_to cs x ≤ length cs.
Proof using Type. apply how_many_le. Qed.

Lemma cuts_to_mono cs x y : (x ≤ y)%Z → cuts_to cs x ≤ cuts_to cs y.
Proof using Type.
  intros Hxy. unfold cuts_to, how_many. induction cs as [|c cs IH]; [done|].
  rewrite !filter_cons. repeat case_decide; cbn [length]; try lia.
Qed.

Lemma how_many_fmap {A B : Type} (f : A → B) (p : B → bool) (q : A → bool) l :
  Forall (λ a, p (f a) = q a) l → how_many p (f <$> l) = how_many q l.
Proof using Type.
  induction 1 as [|a l Ha _ IH]; [done|]. unfold how_many in *. rewrite fmap_cons, !filter_cons, Ha.
  case_decide; cbn [length]; by rewrite IH.
Qed.

Lemma position_finds {A : Type} (f : Z → A) (p : A → bool) (x : Z) cs :
  ascending cs → Forall (λ c, p (f c) = (ord c <=? x)%Z) cs →
  slice_partition_point p (f <$> cs) = Ok (cuts_to cs x).
Proof using Type.
  intros Ha Hle. rewrite partition_point_finds; [f_equal; by apply how_many_fmap|].
  intros i j a b Hij Hx Hy. rewrite list_lookup_fmap in Hx, Hy.
  destruct (cs !! i) as [c|] eqn:Ei, (cs !! j) as [c'|] eqn:Ej; simplify_eq/=.
  rewrite (Forall_lookup_1 _ _ _ _ Hle Ei), (Forall_lookup_1 _ _ _ _ Hle Ej), !Z.leb_le.
  pose proof (ascending_le _ _ _ _ _ Ha Hij Ei Ej). lia.
Qed.

Lemma cut_position cs v :
  Forall (in_range n) cs → ascending cs → in_range n v →
  slice_partition_point (λ cut, scalar_le cut (sc v)) ((λ c, sc c) <$> cs)
    = Ok (cuts_to cs (ord v)).
Proof using All.
  intros Hr Ha Hv. apply position_finds; [done|]. eapply Forall_impl; [done|]. intros. by apply sc_le.
Qed.

(** *** Halos *)

(** The width a halo widens by: nothing if it is zero, in whatever type; else the
    number, in the type of the key *)
Definition halo_is (halo : ScalarValue) (h : Z) : Prop :=
  (h = 0%Z ∧ is_zero_halo halo = Ok true) ∨
  ((0 < h)%Z ∧ number d ∧ halo = sc h ∧ in_range n h).

Lemma halo_is_nonneg halo h : halo_is halo h → (0 ≤ h)%Z.
Proof using Type. intros [[-> _]|[? _]]; lia. Qed.

Lemma number_order v : number d → ord v = v.
Proof using Hd. destruct d; try done; cbn in Hd; by injection Hd as <-. Qed.

Lemma zero_in_range : in_range n 0.
Proof using Hd.
  pose proof (dispatch_width d n Hd) as Hw. destruct n as [w|w|w]; cbn in *; split; try lia.
Qed.

Lemma halo_test h : (0 < h)%Z → number d → in_range n h → is_zero_halo (sc h) = Ok false.
Proof using All.
  intros Hh Hn Hr. unfold is_zero_halo. cbn [scalar_type].
  rewrite zero_value by (by left). cbn [of_sum obind].
  rewrite (eqb_values d n) by (done || apply zero_in_range). by rewrite bool_decide_eq_false_2 by lia.
Qed.

Lemma widen_below_exact halo h v :
  halo_is halo h → in_range n v → (h ≠ 0%Z → in_range n (v - h)) →
  ∃ a, widen_below (sc v) halo = Ok (sc a) ∧ in_range n a ∧ ord a = (ord v - h)%Z.
Proof using All.
  intros [[-> Hz]|(Hh & Hn & -> & Hr)] Hv Ho; unfold widen_below.
  - rewrite Hz. exists v. split_and!; [done..|lia].
  - rewrite halo_test by done. cbn [obind]. rewrite (sub_values d n) by done.
    exists (v - h)%Z. rewrite wrap_exact by (by eapply dispatch_width || by apply Ho; lia).
    split_and!; [done|apply Ho; lia|]. by rewrite !number_order.
Qed.

Lemma widen_above_exact halo h v :
  halo_is halo h → in_range n v → (h ≠ 0%Z → in_range n (v + h)) →
  ∃ a, widen_above (sc v) halo = Ok (sc a) ∧ in_range n a ∧ ord a = (ord v + h)%Z.
Proof using All.
  intros [[-> Hz]|(Hh & Hn & -> & Hr)] Hv Ho; unfold widen_above.
  - rewrite Hz. exists v. split_and!; [done..|lia].
  - rewrite halo_test by done. cbn [obind]. rewrite (add_values d n) by done.
    exists (v + h)%Z. rewrite wrap_exact by (by eapply dispatch_width || by apply Ho; lia).
    split_and!; [done|apply Ho; lia|]. by rewrite !number_order.
Qed.
End values.

(** ** The filter as a test of keys *)

Lemma masked_filter {A : Type} (f : A → option bool) (rows : list A) :
  masked rows (f <$> rows) = filter (λ r, f r = Some true) rows.
Proof.
  induction rows as [|r rows IH]; [done|]. rewrite fmap_cons, filter_cons. cbn [masked].
  case_bool_decide; case_decide; by rewrite ?IH.
Qed.

Lemma zip_with_fmap {A B C D : Type} (f : B → C → D) (g : A → B) (h : A → C) (l : list A) :
  zip_with f (g <$> l) (h <$> l) = (λ x, f (g x) (h x)) <$> l.
Proof. induction l as [|x l IH]; [done|]. cbn. by rewrite IH. Qed.

Lemma filter_same {A : Type} (P Q : A → Prop) `{∀ x, Decision (P x), ∀ x, Decision (Q x)} (l : list A) :
  (∀ x, x ∈ l → P x ↔ Q x) → filter P l = filter Q l.
Proof.
  induction l as [|x l IH]; intros Hpq; [done|]. rewrite !filter_cons, IH by (intros; apply Hpq; by right).
  pose proof (Hpq x ltac:(left)). by repeat case_decide; try tauto.
Qed.

(** [lo ≤ v < hi] in the order of the type; NULLs as told *)
Definition keeps (n : native) (lo hi : option Z) (nulls : bool) (key : option Z) : bool :=
  match key with
  | None => nulls
  | Some v =>
      from_option (λ l, (order_of n l <=? order_of n v)%Z) true lo &&
      from_option (λ h, (order_of n v <? order_of n h)%Z) true hi
  end.

Section filter.
Context `{ScalarOps, !ScalarLaws} `{ExprOps, !ExprLaws}.
Context (e : RoutingExpr) (n : native) (Hd : dispatch_sortable (type_of e) = Some n).

Abbreviation sc v := (mkScalar (type_of e) (Some v)).
Abbreviation in_rng o := (from_option (in_range n) True o).

(** The rows of a batch that evaluates, with keys of the type *)
Definition evaluates (batch : list Row) : Prop :=
  column_of e batch = inr (mkArray (type_of e) (row_key e <$> batch)) ∧
  Forall (λ r, in_rng (row_key e r)) batch.

(** The value of the predicate without the test for NULL *)
Definition test_range (lo hi : option Z) (key : option Z) : option bool :=
  match lo, hi with
  | None, None => Some true
  | _, _ => (λ v, keeps n lo hi true (Some v)) <$> key
  end.

Lemma range_mask lo hi batch :
  evaluates batch → in_rng lo → in_rng hi →
  mask_of (build_predicate_from_bounds e ((λ v, sc v) <$> lo) ((λ v, sc v) <$> hi)) batch
    = inr ((λ r, test_range lo hi (row_key e r)) <$> batch).
Proof using All.
  intros [Hc Hk] Hlo Hhi.
  assert (∀ op s, op = OpGtEq ∨ op = OpLt → in_range n s →
    mask_of (BinaryExpr (Routing e) op (Literal (sc s))) batch
      = inr ((λ r, (λ v, if op is OpGtEq then (order_of n s <=? order_of n v)%Z
                         else (order_of n v <? order_of n s)%Z) <$> row_key e r) <$> batch)) as Hcmp.
  { intros op s Hop Hs. rewrite (mask_compare e op _ batch _ Hc) by (done || by eexists).
    f_equal. apply list_fmap_ext. intros i r Hr. apply (Forall_lookup_1 _ _ _ _ Hk) in Hr.
    destruct (row_key e r) as [v|]; [|done]. cbn in *. f_equal.
    destruct Hop as [-> | ->]; [by apply sc_ge|by apply sc_lt]. }
  destruct lo as [l|], hi as [h|]; cbn [fmap option_fmap option_map build_predicate_from_bounds].
  - rewrite (mask_and _ _ _ _ _ (Hcmp OpGtEq l (or_introl eq_refl) Hlo)
      (Hcmp OpLt h (or_intror eq_refl) Hhi)). f_equal. rewrite zip_with_fmap.
    apply list_fmap_ext. intros i r _. unfold test_range. destruct (row_key e r) as [v|]; [|done].
    cbn. by destruct (_ <=? _)%Z, (_ <? _)%Z.
  - rewrite (Hcmp OpGtEq l) by (done || by left). f_equal. apply list_fmap_ext. intros i r _.
    unfold test_range. destruct (row_key e r) as [v|]; [|done]. cbn. by rewrite andb_true_r.
  - rewrite (Hcmp OpLt h) by (done || by right). done.
  - rewrite mask_literal. f_equal. symmetry. by apply const_fmap.
Qed.

(** The predicate of a partition *)
Definition range_predicate (lo hi : option Z) (nulls : bool) : PhysicalExpr RoutingExpr :=
  let p := build_predicate_from_bounds e ((λ v, sc v) <$> lo) ((λ v, sc v) <$> hi) in
  if nulls then BinaryExpr p OpOr (IsNullExpr (Routing e)) else p.

Lemma slow_filter_keeps lo hi nulls batch :
  evaluates batch → in_rng lo → in_rng hi → nulls = true ∨ lo ≠ None ∨ hi ≠ None →
  slow_filter (range_predicate lo hi nulls) batch
    = Ok (filter (λ r, keeps n lo hi nulls (row_key e r) = true) batch).
Proof using All.
  intros He Hlo Hhi Hn. pose proof (range_mask lo hi batch He Hlo Hhi) as Hm.
  destruct He as [Hc Hk]. unfold slow_filter, range_predicate. destruct nulls.
  - rewrite (mask_or _ _ _ _ _ Hm (mask_is_null e batch _ Hc)), zip_with_fmap. cbn [of_sum obind].
    rewrite filter_masked, masked_filter by (by rewrite length_fmap). cbn [of_sum]. f_equal.
    apply list_filter_iff. intros r. unfold test_range.
    destruct (row_key e r) as [v|], lo, hi; cbn; rewrite ?andb_true_r; repeat case_match; done.
  - rewrite Hm. cbn [of_sum obind].
    rewrite filter_masked, masked_filter by (by rewrite length_fmap). cbn [of_sum]. f_equal.
    apply list_filter_iff. intros r. unfold test_range.
    destruct (row_key e r) as [v|], lo, hi; cbn; rewrite ?andb_true_r; try done; try naive_solver.
    all: split; [by intros [= ?]|by intros ->].
Qed.

(** *** The fast path *)

(** Where a window starts and stops in the values of a sorted batch *)
Definition window_start (vs : list Z) (lo : option Z) : nat :=
  from_option (λ l, how_many (λ v, (order_of n v <? order_of n l)%Z) vs) 0 lo.
Definition window_stop (vs : list Z) (hi : option Z) : nat :=
  from_option (λ h, how_many (λ v, (order_of n v <? order_of n h)%Z) vs) (length vs) hi.

Lemma below_leads vs x : ascending n vs → leads (λ v, (order_of n v <? x)%Z) vs.
Proof using Type.
  intros Ha i j a b Hij Hi Hj. rewrite !Z.ltb_lt. pose proof (ascending_le n _ _ _ _ _ Ha Hij Hi Hj). lia.
Qed.

Lemma below_position vs x i v :
  ascending n vs → vs !! i = Some v →
  (i < how_many (λ v, (order_of n v <? x)%Z) vs ↔ (order_of n v < x)%Z).
Proof using Type.
  intros Ha Hi. rewrite <-Nat.ltb_lt, <-Z.ltb_lt.
  by rewrite (how_many_leads _ _ (below_leads vs x Ha) i v Hi).
Qed.

Lemma column_position vs bound :
  ascending n vs → Forall (in_range n) vs → in_range n bound →
  partition_point (mkArray (type_of e) (Some <$> vs)) (length vs) (sc bound)
    = Ok (how_many (λ v, (order_of n v <? order_of n bound)%Z) vs).
Proof using All.
  intros Ha Hr Hb. unfold partition_point.
  pose proof (how_many_le (λ v, (order_of n v <? order_of n bound)%Z) vs).
  apply bisect_finds; [lia..|]. intros i Hi.
  destruct (lookup_lt_is_Some_2 vs i) as [v Hv]; [lia|]. unfold try_from_array.
  cbn [array_values array_type]. rewrite list_lookup_fmap, Hv. cbn [fmap option_fmap option_map obind].
  rewrite (sc_lt (type_of e) n Hd) by (done || by eapply Forall_lookup_1). f_equal.
  apply eq_true_iff_eq. rewrite Nat.ltb_lt, Z.ltb_lt. symmetry. by apply below_position.
Qed.

Lemma filter_interval {A : Type} (P : A → Prop) `{∀ x, Decision (P x)} (l : list A) a b :
  (∀ i x, l !! i = Some x → P x ↔ a ≤ i < b) → filter P l = take (b - a) (drop a l).
Proof using Type.
  revert a b. induction l as [|x l IH]; intros a b Hp; [by rewrite drop_nil, take_nil|].
  assert (∀ i y, l !! i = Some y → P y ↔ a - 1 ≤ i < b - 1) as Hl.
  { intros i y Hi. rewrite (Hp (S i) y Hi). lia. }
  pose proof (Hp 0 x eq_refl) as Hx. rewrite filter_cons, (IH _ _ Hl). destruct a as [|a].
  - change (0 - 1) with 0. rewrite !drop_0, !Nat.sub_0_r. case_decide as HP.
    + apply Hx in HP. destruct b as [|b]; [lia|]. by replace (S b - 1) with b by lia.
    + destruct b as [|b]; [done|]. destruct HP. apply Hx. lia.
  - rewrite decide_False by (rewrite Hx; lia). replace (S a - 1) with a by lia. cbn [drop]. f_equal. lia.
Qed.

Lemma window_rows vs lo hi nulls batch :
  ascending n vs → row_key e <$> batch = Some <$> vs →
  filter (λ r, keeps n lo hi nulls (row_key e r) = true) batch
    = take (window_stop vs hi - window_start vs lo) (drop (window_start vs lo) batch).
Proof using Type.
  intros Ha Hk. apply filter_interval. intros i r Hi.
  assert (∃ v, vs !! i = Some v ∧ row_key e r = Some v) as (v & Hv & ->).
  { pose proof (f_equal (λ l, l !! i) Hk) as Hl. cbv beta in Hl. rewrite !list_lookup_fmap, Hi in Hl.
    destruct (vs !! i) as [v|]; [|done]. injection Hl as ->. by exists v. }
  pose proof (lookup_lt_Some _ _ _ Hv). unfold keeps, window_start, window_stop. rewrite andb_true_iff.
  apply ZifyClasses.and_morph; [destruct lo as [l|]|destruct hi as [h|]]; cbn [from_option];
    rewrite ?Z.leb_le, ?Z.ltb_lt; [| |symmetry; by apply below_position|]; try (split; [lia|done]).
  pose proof (below_position vs (order_of n l) i v Ha Hv). lia.
Qed.

(** The keys of a batch ascend wherever neither is NULL. *)
Definition sorted_batch (batch : list Row) : Prop :=
  ∀ i r s v w, batch !! i = Some r → batch !! S i = Some s →
    row_key e r = Some v → row_key e s = Some w → (order_of n v ≤ order_of n w)%Z.

Lemma no_nulls_values (keys : list (option Z)) :
  null_count_of (mkArray (type_of e) keys) = 0%N → ∃ vs, keys = Some <$> vs.
Proof using Type.
  unfold null_count_of. cbn [array_values]. induction keys as [|[v|] keys IH]; intros Hk.
  - by exists [].
  - rewrite filter_cons_False in Hk by done. destruct (IH Hk) as [vs ->]. by exists (v :: vs).
  - rewrite filter_cons_True in Hk by done. cbn in Hk. lia.
Qed.

Lemma sorted_ascending batch vs :
  sorted_batch batch → row_key e <$> batch = Some <$> vs → ascending n vs.
Proof using Type.
  intros Hs Hk i a b Hi Hj. pose proof (f_equal (λ l, l !! i) Hk) as Ki.
  pose proof (f_equal (λ l, l !! S i) Hk) as Kj. cbv beta in Ki, Kj.
  rewrite !list_lookup_fmap, Hi in Ki. rewrite !list_lookup_fmap, Hj in Kj.
  destruct (batch !! i) as [r|] eqn:Er; [|done]. destruct (batch !! S i) as [s|] eqn:Es; [|done].
  injection Ki as Ki. injection Kj as Kj. by apply (Hs i r s).
Qed.

Lemma window_ends vs lo hi first last :
  ascending n vs → vs !! 0 = Some first → vs !! (length vs - 1) = Some last →
  Forall (in_range n) vs → in_rng lo → in_rng hi →
  opt_test ((λ v, sc v) <$> hi) false (λ hi, scalar_ge (sc first) hi) = (window_stop vs hi <=? 0) ∧
  opt_test ((λ v, sc v) <$> lo) false (λ lo, scalar_lt (sc last) lo)
    = (length vs <=? window_start vs lo) ∧
  opt_test ((λ v, sc v) <$> lo) true (λ lo, scalar_ge (sc first) lo) = (window_start vs lo <=? 0) ∧
  opt_test ((λ v, sc v) <$> hi) true (λ hi, scalar_lt (sc last) hi)
    = (length vs <=? window_stop vs hi).
Proof using All.
  intros Ha Hf Hl Hr Hlo Hhi. pose proof (lookup_lt_Some _ _ _ Hf).
  assert (in_range n first) by by eapply Forall_lookup_1.
  assert (in_range n last) by by eapply Forall_lookup_1.
  unfold window_start, window_stop. split_and!; destruct lo as [l|], hi as [h|]; cbn in *;
    rewrite ?(sc_ge (type_of e) n Hd), ?(sc_lt (type_of e) n Hd) by done;
    apply eq_true_iff_eq; rewrite ?Nat.leb_le, ?Z.leb_le, ?Z.ltb_lt; try (split; done || lia);
    try (pose proof (below_position vs (order_of n h) _ _ Ha Hf));
    try (pose proof (below_position vs (order_of n h) _ _ Ha Hl));
    try (pose proof (below_position vs (order_of n l) _ _ Ha Hf));
    try (pose proof (below_position vs (order_of n l) _ _ Ha Hl)); lia.
Qed.

(** The three answers of the fast path are the rows of the window. *)
Lemma window_choice {A : Type} (l : list A) a b :
  b ≤ length l →
  (if (b <=? 0) || (length l <=? a) then None
   else if (a <=? 0) && (length l <=? b) then Some l
   else if b <=? a then None else Some (take (b - a) (drop a l)))
  = (if 0 <? length (take (b - a) (drop a l)) then Some (take (b - a) (drop a l)) else None).
Proof using Type.
  intros Hb. rewrite length_take, length_drop.
  destruct (Nat.leb_spec b 0), (Nat.leb_spec (length l) a), (Nat.leb_spec a 0),
    (Nat.leb_spec (length l) b), (Nat.leb_spec b a),
    (Nat.ltb_spec 0 ((b - a) `min` (length l - a))); cbn [orb andb]; try lia; try done.
  f_equal. replace a with 0 by lia. by rewrite drop_0, take_ge by lia.
Qed.

Lemma fast_filter_keeps lo hi nulls batch :
  evaluates batch → sorted_batch batch → batch ≠ [] →
  in_rng lo → in_rng hi → nulls = true ∨ lo ≠ None ∨ hi ≠ None →
  let out := filter (λ r, keeps n lo hi nulls (row_key e r) = true) batch in
  fast_filter (range_predicate lo hi nulls) e ((λ v, sc v) <$> lo) ((λ v, sc v) <$> hi) batch
    = Ok (if 0 <? length out then Some out else None).
Proof using All.
  intros He Hs Hne Hlo Hhi Hn out. unfold fast_filter. destruct (id He) as [Hc Hk]. rewrite Hc.
  cbn [of_sum obind]. destruct (N.ltb_spec 0 (null_count_of (mkArray (type_of e) (row_key e <$> batch))))
    as [_|Hz]; [by rewrite slow_filter_keeps|].
  destruct (no_nulls_values (row_key e <$> batch)) as [vs Hvs]; [lia|].
  pose proof (sorted_ascending batch vs Hs Hvs) as Ha. rewrite Hvs.
  assert (length batch = length vs) as Hlen by (by rewrite <-(length_fmap (row_key e)), Hvs, length_fmap).
  assert (Forall (in_range n) vs) as Hr.
  { change (Forall ((λ k, in_rng k) ∘ row_key e) batch) in Hk.
    rewrite <-Forall_fmap, Hvs, Forall_fmap in Hk. exact Hk. }
  assert (0 < length vs) by (destruct batch; [done|]; rewrite <-Hlen; cbn; lia).
  destruct (lookup_lt_is_Some_2 vs 0) as [first Hf]; [lia|].
  destruct (lookup_lt_is_Some_2 vs (length vs - 1)) as [last Hl]; [lia|].
  rewrite Hlen. unfold try_from_array at 1 2. cbn [array_values array_type].
  rewrite !list_lookup_fmap, Hf, Hl. cbn [fmap option_fmap option_map obind].
  destruct (window_ends vs lo hi first last Ha Hf Hl Hr Hlo Hhi) as (E1 & E2 & E3 & E4).
  cbn [fmap option_fmap option_map] in E1, E2, E3, E4. rewrite E1, E2, E3, E4.
  assert (out = take (window_stop vs hi - window_start vs lo) (drop (window_start vs lo) batch)) as ->
    by by apply window_rows.
  assert (window_stop vs hi ≤ length batch) by (rewrite Hlen; destruct hi; cbn; [apply how_many_le|done]).
  assert (match option_map (λ v, sc v) lo with None => Ok 0
    | Some lo => partition_point (mkArray (type_of e) (Some <$> vs)) (length vs) lo end
    = Ok (window_start vs lo)) as Hst by (destruct lo; cbn; [by apply column_position|done]).
  assert (match option_map (λ v, sc v) hi with None => Ok (length vs)
    | Some hi => partition_point (mkArray (type_of e) (Some <$> vs)) (length vs) hi end
    = Ok (window_stop vs hi)) as Hsp by (destruct hi; cbn; [by apply column_position|done]).
  unfold fmap, option_fmap in *. rewrite Hst, Hsp. cbn [obind].
  rewrite <-Hlen, <-window_choice by done. by repeat case_match.
Qed.
End filter.

(** ** The ranges of cuts *)

(** The range [k] of cuts, widened on both sides *)
Definition takes (n : native) (cs : list Z) (h_lo h_hi : Z) (first : bool) (k : nat) (key : option Z)
  : bool :=
  match key with
  | None => if first then k =? 0 else k =? length cs
  | Some v =>
      match k with
      | 0 => true
      | S j => from_option (λ c, (order_of n c - h_lo <=? order_of n v)%Z) true (cs !! j)
      end &&
      from_option (λ c, (order_of n v <? order_of n c + h_hi)%Z) true (cs !! k)
  end.

(** The range a key is in *)
Definition bucket (n : native) (cs : list Z) (first : bool) (key : option Z) : nat :=
  match key with
  | None => if first then 0 else length cs
  | Some v => cuts_to n cs (order_of n v)
  end.

Lemma bucket_le n cs first key : bucket n cs first key ≤ length cs.
Proof. destruct key; cbn; [apply cuts_to_le|destruct first; lia]. Qed.

(** Without halos each key is in one range. *)
Lemma takes_bucket n cs first k key :
  ascending n cs → k ≤ length cs → takes n cs 0 0 first k key = (k =? bucket n cs first key).
Proof.
  intros Ha Hk. destruct key as [v|]; cbn [takes bucket]; [|by destruct first].
  apply eq_true_iff_eq. rewrite andb_true_iff, Nat.eqb_eq.
  pose proof (cuts_to_le n cs (order_of n v)).
  assert (from_option (λ c, (order_of n v <? order_of n c + 0)%Z) true (cs !! k) = true
    ↔ cuts_to n cs (order_of n v) ≤ k) as ->.
  { destruct (cs !! k) as [c|] eqn:Hc; cbn.
    - pose proof (cuts_to_spec n cs (order_of n v) k c Ha Hc). rewrite Z.ltb_lt. lia.
    - apply lookup_ge_None in Hc. split; [lia|done]. }
  destruct k as [|j]; [split; [lia|intros <-; split; [done|lia]]|].
  destruct (lookup_lt_is_Some_2 cs j) as [c Hc]; [lia|]. rewrite Hc. cbn.
  pose proof (cuts_to_spec n cs (order_of n v) j c Ha Hc). rewrite Z.leb_le. lia.
Qed.

Section ranges.
Context `{ScalarOps, !ScalarLaws}.
Context (d : DataType) (n : native) (Hd : dispatch_sortable d = Some n).
Context (cs : list Z) (Hcs : Forall (in_range n) cs) (Hasc : ascending n cs).
Context (halo_lo halo_hi : ScalarValue) (h_lo h_hi : Z).
Context (Hlo : halo_is d n halo_lo h_lo) (Hhi : halo_is d n halo_hi h_hi).
(** Widening the cuts stays in the type. *)
Context (Hroom : Forall (λ c, (h_lo ≠ 0%Z → in_range n (c - h_lo)) ∧ (h_hi ≠ 0%Z → in_range n (c + h_hi))) cs).

Abbreviation sc v := (mkScalar d (Some v)).

Definition lowered (c a : Z) : Prop :=
  widen_below (sc c) halo_lo = Ok (sc a) ∧ in_range n a ∧ order_of n a = (order_of n c - h_lo)%Z.
Definition raised (c a : Z) : Prop :=
  widen_above (sc c) halo_hi = Ok (sc a) ∧ in_range n a ∧ order_of n a = (order_of n c + h_hi)%Z.

Lemma widened_cuts : ∃ los his, Forall2 lowered cs los ∧ Forall2 raised cs his.
Proof using All.
  clear Hasc. induction cs as [|c cs' IH]; [by exists [], []|].
  apply Forall_cons in Hroom as [[Hr1 Hr2] Hroom']. apply Forall_cons in Hcs as [Hc Hcs'].
  destruct (IH Hcs' Hroom') as (los & his & Hl & Hh).
  destruct (widen_below_exact d n Hd halo_lo h_lo c Hlo Hc Hr1) as (a & ?).
  destruct (widen_above_exact d n Hd halo_hi h_hi c Hhi Hc Hr2) as (b & ?).
  exists (a :: los), (b :: his). split; by constructor.
Qed.

(** The range [i] in the lists of lower and upper ends *)
Definition nth_bound (los his : list Z) (i : nat) : option Z * option Z :=
  ((match i with 0 => None | S j => los !! j end), his !! i).

Definition scalars (b : option Z * option Z) : RangeBound :=
  ((λ v, sc v) <$> b.1, (λ v, sc v) <$> b.2).

Lemma raw_bounds_nth :
  raw_bounds_from_cuts ((λ c, sc c) <$> cs)
  = (λ i, scalars (nth_bound cs cs i)) <$> seq 0 (length cs + 1).
Proof using Type.
  unfold raw_bounds_from_cuts. rewrite length_fmap. apply list_fmap_ext. intros _ i _.
  unfold nth_bound, scalars. cbn [fst snd]. rewrite list_lookup_fmap. f_equal.
  destruct i as [|j]; [done|]. by rewrite list_lookup_fmap.
Qed.

Lemma widen_nth los his i :
  Forall2 lowered cs los → Forall2 raised cs his →
  widen_bound halo_lo halo_hi (scalars (nth_bound cs cs i)) = Ok (scalars (nth_bound los his i)).
Proof using All.
  intros Hl Hh. unfold widen_bound, scalars, nth_bound. cbn [fst snd].
  pose proof (halo_is_nonneg d n halo_lo h_lo Hlo). pose proof (halo_is_nonneg d n halo_hi h_hi Hhi).
  rewrite Forall2_lookup in Hl, Hh. specialize (Hh i). destruct i as [|j].
  - cbn. inversion Hh as [c b (Hw & _)|]; [cbn; by rewrite Hw|done].
  - specialize (Hl j). inversion Hl as [c a (Hw & Ha & Ho) Ec|Ec]; cbn; rewrite ?Hw; cbn.
    + inversion Hh as [c' b (Hw' & Hb & Ho') Ec'|]; cbn; [rewrite Hw'; cbn|done].
      rewrite (sc_gt d n Hd) by done. rewrite (proj2 (Z.ltb_ge _ _)); [done|].
      pose proof (Hasc j c c' (eq_sym Ec) (eq_sym Ec')). lia.
    + by inversion Hh as [c' b (Hw' & Hb & Ho') Ec'|]; cbn; [rewrite Hw'|].
Qed.

(** Resolving the bounds of a filter from cuts succeeds. *)
Lemma bounds_resolved `{ExprOps} (input : InputPlan) :
  partition_count input = length cs + 1 →
  ∃ los his, Forall2 lowered cs los ∧ Forall2 raised cs his ∧
    build_bounds_state input (raw_bounds_from_cuts ((λ c, sc c) <$> cs)) halo_lo halo_hi
      = Ok (mkBounds (raw_bounds_from_cuts ((λ c, sc c) <$> cs))
             ((λ i, scalars (nth_bound los his i)) <$> seq 0 (length cs + 1))).
Proof using All.
  intros Hin. destruct widened_cuts as (los & his & Hl & Hh). exists los, his. split_and!; [done..|].
  unfold build_bounds_state. rewrite raw_bounds_nth, length_fmap, length_seq, Hin, Nat.eqb_refl.
  cbn [negb]. rewrite (collect_ok _ _ ((λ i, scalars (nth_bound los his i)) <$> seq 0 (length cs + 1))); [done|].
  rewrite Forall2_fmap. apply Forall_Forall2_diag, Forall_forall. intros i _. by apply widen_nth.
Qed.

Lemma keeps_takes los his (first : bool) k key :
  Forall2 lowered cs los → Forall2 raised cs his → k ≤ length cs →
  keeps n (nth_bound los his k).1 (nth_bound los his k).2
    (if first then bool_decide ((nth_bound los his k).1 = None)
     else bool_decide ((nth_bound los his k).2 = None)) key
  = takes n cs h_lo h_hi first k key.
Proof using Type.
  intros Hl Hh Hk. pose proof (Forall2_length _ _ _ Hl) as Ll. pose proof (Forall2_length _ _ _ Hh) as Lh.
  unfold nth_bound. cbn [fst snd]. destruct key as [v|]; cbn [keeps takes].
  - f_equal.
    + destruct k as [|j]; [done|]. pose proof (proj1 (Forall2_lookup _ _ _) Hl j) as Hj.
      inversion Hj as [c a (_ & _ & Ho)|]; cbn; [by rewrite Ho|done].
    + pose proof (proj1 (Forall2_lookup _ _ _) Hh k) as Hj.
      inversion Hj as [c a (_ & _ & Ho)|]; cbn; [by rewrite Ho|done].
  - destruct first.
    + destruct k as [|j]; [by rewrite bool_decide_eq_true_2|].
      destruct (lookup_lt_is_Some_2 los j) as [a ->]; [lia|]. by rewrite bool_decide_eq_false_2.
    + destruct (Nat.eqb_spec k (length cs)) as [->|Hne].
      * by rewrite bool_decide_eq_true_2 by (apply lookup_ge_None; lia).
      * destruct (lookup_lt_is_Some_2 his k) as [a ->]; [lia|]. by rewrite bool_decide_eq_false_2.
Qed.
End ranges.
