(* ===== verification/RangeRouting.v ===== *)
(** * Lemmas on the routing of rows and files to ranges

    The partitions [cut_partitions] delivers a file to, and the rows
    [split_batch_by_range] puts into each. *)

From S2P Require Import Prelude Errors Machine Types Kll SortKey SortKeyFacts KeySketch Range RangeFacts.
From stdpp Require Import numbers gmap.

(** ** Pushing to lists *)

Lemma push_at_ok {A : Type} i (x : A) l :
  i < length l →
  ∃ out, push_at i x l = Ok out ∧ length out = length l ∧
    ∀ k, out !! k = (λ b, if k =? i then b ++ [x] else b) <$> l !! k.
Proof.
  intros Hi. unfold push_at. destruct (lookup_lt_is_Some_2 l i Hi) as [b Hb]. rewrite Hb.
  eexists. split; [done|]. split; [by rewrite length_insert|]. intros k.
  destruct (Nat.eqb_spec k i) as [->|Hne].
  - rewrite list_lookup_insert_eq by done. by rewrite Hb.
  - rewrite list_lookup_insert_ne by done. by destruct (l !! k).
Qed.

Lemma push_range_ok {A : Type} lo hi (x : A) l :
  lo ≤ hi < length l →
  ∃ out, push_range lo hi x l = Ok out ∧ length out = length l ∧
    ∀ k, out !! k = (λ b, if (lo <=? k) && (k <=? hi) then b ++ [x] else b) <$> l !! k.
Proof.
  intros Hi. unfold push_range. rewrite !(proj2 (Nat.ltb_ge _ _)) by lia. cbn [orb].
  eexists. split; [done|]. split; [by rewrite length_imap|]. intros k. by rewrite list_lookup_imap.
Qed.

(** ** Rows by bucket *)

Lemma filter_step {A : Type} (b : A → nat) K (l : list A) :
  filter (λ x, b x < S K) l ≡ₚ filter (λ x, b x < K) l ++ filter (λ x, b x = K) l.
Proof.
  induction l as [|x l IH]; [done|]. rewrite !filter_cons.
  destruct (decide (b x < S K)), (decide (b x < K)), (decide (b x = K)); try lia; rewrite IH; try done.
  apply Permutation_middle.
Qed.

Lemma bucket_partition {A : Type} (b : A → nat) K (l : list A) :
  concat ((λ k, filter (λ x, b x = k) l) <$> seq 0 K) ≡ₚ filter (λ x, b x < K) l.
Proof.
  induction K as [|K IH]; [by rewrite filter_none by (intros; lia)|].
  rewrite seq_S, fmap_app, concat_app, IH, filter_step. cbn. by rewrite app_nil_r.
Qed.

(** ** Delivering a file *)

Section delivery.
Context `{ScalarOps, !ScalarLaws} `{WireFormat}.
Context (d : DataType) (n : native) (Hd : dispatch_sortable d = Some n).
Context (cs : list Z) (Hcs : Forall (in_range n) cs) (Hasc : ascending n cs).
Context (halo_lo halo_hi : ScalarValue) (h_lo h_hi : Z).
Context (Hlo : halo_is d n halo_lo h_lo) (Hhi : halo_is d n halo_hi h_hi).
Context (first : bool).

Abbreviation sc v := (mkScalar d (Some v)).
Abbreviation location := PartitionLocation.t.
Abbreviation entry := RuntimeStatsPartitionEntry.t.

(** An entry describes the keys of a file: NULLs are counted, and the extremes,
    which can be widened by the halos, enclose the values. *)
Definition encloses (e : entry) (keys : list (option Z)) : Prop :=
  match key_range e with
  | None => ∀ v, Some v ∉ keys
  | Some (lo, hi) =>
      ∃ a b, scalar_from_proto lo = inr (sc a) ∧ scalar_from_proto hi = inr (sc b) ∧
        in_range n a ∧ in_range n b ∧ (order_of n a ≤ order_of n b)%Z ∧
        (h_hi ≠ 0%Z → in_range n (a - h_hi)) ∧ (h_lo ≠ 0%Z → in_range n (b + h_lo)) ∧
        ∀ v, Some v ∈ keys → (order_of n a ≤ order_of n v ≤ order_of n b)%Z
  end.

Definition describes (e : entry) (keys : list (option Z)) : Prop :=
  (None ∈ keys → (0 < RuntimeStatsPartitionEntry.null_count e)%N) ∧ encloses e keys.

(** The key of a file in the map of entries *)
Definition file_key (file : location) (task : N) : N * N :=
  (task, (N.of_nat (PartitionId.partition_id (PartitionLocation.partition_id file)) `mod` 2 ^ 32)%N).

Definition file_ok (ranges : gmap (N * N) entry) (file : location) (keys : list (option Z)) : Prop :=
  (keys = [] → num_rows (PartitionLocation.partition_stats file) = Some 0%N) ∧
  ∃ task, PartitionLocation.file_id file = Some task ∧
    match ranges !! file_key file task with
    | Some e => describes e keys
    | None => keys = []
    end.

(** The partitions whose widened ranges meet the extremes *)
Lemma takes_window a b k v :
  k ≤ length cs → (order_of n a ≤ order_of n v ≤ order_of n b)%Z →
  takes n cs h_lo h_hi first k (Some v) = true →
  cuts_to n cs (order_of n a - h_hi) ≤ k ≤ cuts_to n cs (order_of n b + h_lo).
Proof using Hasc.
  intros Hk Hv. cbn [takes]. rewrite andb_true_iff. intros [Ht1 Ht2].
  pose proof (cuts_to_le n cs (order_of n a - h_hi)). split.
  - destruct (cs !! k) as [c|] eqn:Hc; [|apply lookup_ge_None in Hc; lia]. cbn in Ht2.
    apply Z.ltb_lt in Ht2. pose proof (cuts_to_spec n cs (order_of n a - h_hi) k c Hasc Hc). lia.
  - destruct k as [|j]; [lia|]. destruct (lookup_lt_is_Some_2 cs j) as [c Hc]; [lia|].
    rewrite Hc in Ht1. cbn in Ht1. apply Z.leb_le in Ht1.
    pose proof (cuts_to_spec n cs (order_of n b + h_lo) j c Hasc Hc). lia.
Qed.

(** One copy for the values and, where they do not reach, one for the NULLs *)
Lemma push_window (file : location) (part : option nat) lo hi remapped :
  lo ≤ hi < length remapped → from_option (λ p, p < length remapped) True part →
  ∃ out,
    (let? remapped :=
       match part with
       | Some p => if (lo <=? p) && (p <=? hi) then Ok remapped else push_at p file remapped
       | None => Ok remapped
       end in push_range lo hi file remapped) = Ok out ∧
    length out = length remapped ∧
    ∀ k, out !! k = (λ b, if (lo <=? k) && (k <=? hi) || bool_decide (part = Some k)
                          then b ++ [file] else b) <$> remapped !! k.
Proof using Type.
  intros Hw Hp. destruct part as [p|]; cbn [from_option] in Hp.
  - destruct ((lo <=? p) && (p <=? hi)) eqn:Hin; cbn [obind].
    + destruct (push_range_ok lo hi file remapped Hw) as (out & -> & ? & Hk). exists out.
      split_and!; [done..|]. intros k. rewrite Hk. case_bool_decide; simplify_eq; [by rewrite Hin|].
      by rewrite orb_false_r.
    + destruct (push_at_ok p file remapped Hp) as (mid & -> & Hlen & Hm). cbn [obind].
      destruct (push_range_ok lo hi file mid) as (out & -> & ? & Hk); [lia|]. exists out.
      split_and!; [done|lia|]. intros k. rewrite Hk, Hm. destruct (remapped !! k); [|done].
      cbn. f_equal. destruct (Nat.eqb_spec k p) as [->|]; [by rewrite Hin, bool_decide_eq_true_2|].
      by rewrite bool_decide_eq_false_2, orb_false_r by congruence.
  - cbn [obind]. destruct (push_range_ok lo hi file remapped Hw) as (out & -> & ? & Hk). exists out.
    split_and!; [done..|]. intros k. rewrite Hk, bool_decide_eq_false_2 by done. by rewrite orb_false_r.
Qed.

(** The partition a file is delivered to for its NULLs *)
Definition null_part (e : entry) : option nat :=
  if (0 <? RuntimeStatsPartitionEntry.null_count e)%N
  then Some (if first then 0 else length cs + 1 - 1) else None.

Lemma null_part_takes e keys k :
  describes e keys → None ∈ keys → k ≤ length cs →
  takes n cs h_lo h_hi first k None = true → null_part e = Some k.
Proof using Type.
  intros [Hn _] Hin Hk Ht. unfold null_part. rewrite (proj2 (N.ltb_lt _ _)) by auto. f_equal.
  cbn in Ht. destruct first; apply Nat.eqb_eq in Ht; lia.
Qed.

Lemma null_part_lt e (remapped : list (list location)) :
  length remapped = length cs + 1 → from_option (λ p, p < length remapped) True (null_part e).
Proof using Type. intros ->. unfold null_part. case_match; [|done]. destruct first; cbn; lia. Qed.

(** Where the partitions of a file without values are told by its NULLs *)
Lemma push_nulls file e keys remapped :
  describes e keys → (∀ v, Some v ∉ keys) → length remapped = length cs + 1 →
  (keys = [] → num_rows (PartitionLocation.partition_stats file) = Some 0%N) →
  ∃ out,
    (match null_part e with
     | Some part_idx => push_at part_idx file remapped
     | None =>
         if bool_decide (num_rows (PartitionLocation.partition_stats file) = Some 0%N)
         then Ok remapped
         else Err (internal_err "range-repartition remap: file has num_rows={:?} but no usable key range (task_id={task_id}, sub_part_id={sub_part_id})")
     end) = Ok out ∧
    length out = length cs + 1 ∧
    ∀ k, out !! k = (λ b, if bool_decide (null_part e = Some k) then b ++ [file] else b) <$> remapped !! k.
Proof using Type.
  intros [Hn _] Hv Hlen Hempty. pose proof (null_part_lt e remapped Hlen) as Hlt.
  destruct (null_part e) as [p|] eqn:Hp.
  - destruct (push_at_ok p file remapped Hlt) as (out & -> & ? & Hk). exists out.
    split_and!; [done|lia|]. intros k. rewrite Hk. destruct (Nat.eqb_spec k p) as [->|].
    + by rewrite bool_decide_eq_true_2.
    + by rewrite bool_decide_eq_false_2 by congruence.
  - rewrite bool_decide_eq_true_2.
    + exists remapped. split_and!; [done..|]. intros k. rewrite bool_decide_eq_false_2 by done.
      by destruct (remapped !! k).
    + apply Hempty. unfold null_part in Hp. case_match eqn:Hz; [done|]. apply N.ltb_ge in Hz.
      destruct keys as [|[v|] keys]; [done|..].
      * destruct (Hv v). left.
      * exfalso. assert (0 < RuntimeStatsPartitionEntry.null_count e)%N by (apply Hn; left). lia.
Qed.

Lemma cut_file_delivers ranges file keys :
  file_ok ranges file keys →
  ∃ sel : nat → bool,
    (∀ remapped, length remapped = length cs + 1 →
      ∃ out, cut_file ranges ((λ c, sc c) <$> cs) halo_lo halo_hi first file remapped = Ok out ∧
        length out = length cs + 1 ∧
        ∀ k, out !! k = (λ b, if sel k then b ++ [file] else b) <$> remapped !! k) ∧
    ∀ k key, k ≤ length cs → key ∈ keys → takes n cs h_lo h_hi first k key = true → sel k = true.
Proof using All.
  intros (Hempty & task & Hid & Hentry). unfold cut_file. rewrite Hid, length_fmap.
  fold (file_key file task). destruct (ranges !! file_key file task) as [e|] eqn:He.
  2:{ subst keys. exists (λ _, false). cbn [mbind option_bind]. split.
      - intros remapped Hlen. rewrite bool_decide_eq_true_2 by auto. exists remapped.
        split_and!; [done..|]. intros k. by destruct (remapped !! k).
      - intros k key _ []%elem_of_nil. }
  fold (null_part e). cbn [mbind option_bind]. destruct (id Hentry) as [_ Henc]. unfold encloses in Henc.
  destruct (key_range e) as [[lo hi]|].
  - destruct Henc as (a & b & Ea & Eb & Ra & Rb & Hab & Wa & Wb & Hv).
    destruct (widen_below_exact d n Hd halo_hi h_hi a Hhi Ra Wa) as (ra & Ha & Hra & Oa).
    destruct (widen_above_exact d n Hd halo_lo h_lo b Hlo Rb Wb) as (rb & Hb & Hrb & Ob).
    unfold decode_extreme. rewrite Ea, Eb. cbn [obind]. rewrite Ha, Hb. cbn [obind].
    rewrite !(cut_position d n Hd), Oa, Ob by done. cbn [obind].
    eexists. split.
    + intros remapped Hlen. pose proof (null_part_lt e remapped Hlen).
      pose proof (cuts_to_le n cs (order_of n b + h_lo)).
      pose proof (halo_is_nonneg d n _ _ Hlo). pose proof (halo_is_nonneg d n _ _ Hhi).
      pose proof (cuts_to_mono n cs (order_of n a - h_hi) (order_of n b + h_lo) ltac:(lia)).
      rewrite <-Hlen. apply push_window; [lia|done].
    + intros k [v|] Hk Hin Ht; apply orb_true_iff.
      * left. pose proof (takes_window a b k v Hk (Hv v Hin) Ht). apply andb_true_iff.
        rewrite !Nat.leb_le. lia.
      * right. rewrite bool_decide_eq_true_2; [done|]. by apply (null_part_takes e keys).
  - eexists. split; [intros; by apply (push_nulls file e keys)|]. intros k [v|] Hk Hin Ht.
    + by destruct (Henc v).
    + rewrite bool_decide_eq_true_2; [done|]. by apply (null_part_takes e keys).
Qed.

(** Delivering all files *)
Lemma cut_files_deliver {A : Type} (contents : location → list A) (key : A → option Z) ranges files :
  Forall (λ f, file_ok ranges f (key <$> contents f)) files →
  ∀ remapped, length remapped = length cs + 1 →
  ∃ out, cut_files ranges ((λ c, sc c) <$> cs) halo_lo halo_hi first files remapped = Ok out ∧
    length out = length cs + 1 ∧
    ∀ k b, k ≤ length cs → remapped !! k = Some b →
      ∃ new, out !! k = Some (b ++ new) ∧ new `sublist_of` files ∧
        filter (λ r, takes n cs h_lo h_hi first k (key r) = true) (new ≫= contents)
          = filter (λ r, takes n cs h_lo h_hi first k (key r) = true) (files ≫= contents).
Proof using All.
  induction 1 as [|f files Hf _ IH]; intros remapped Hlen; cbn [cut_files].
  { exists remapped. split_and!; [done..|]. intros k b _ Hb. exists []. by rewrite app_nil_r. }
  destruct (cut_file_delivers ranges f _ Hf) as (sel & Hout & Hsel).
  destruct (Hout remapped Hlen) as (mid & -> & Hmid & Hk). cbn [obind].
  destruct (IH mid Hmid) as (out & -> & Hlo' & Hdel). exists out. split_and!; [done..|].
  intros k b Hkc Hb. specialize (Hk k). rewrite Hb in Hk. cbn in Hk.
  destruct (Hdel k _ Hkc Hk) as (new & Hnew & Hsub & Hrows). rewrite bind_cons, filter_app.
  destruct (sel k) eqn:Hs.
  - exists (f :: new). rewrite <-app_assoc in Hnew. split_and!; [done|by constructor|].
    by rewrite bind_cons, filter_app, Hrows.
  - exists new. split_and!; [done|by constructor|]. rewrite Hrows.
    rewrite (filter_none _ (contents f)); [done|]. intros r Hr Ht. apply (Hsel k (key r)) in Ht; [congruence|done|].
    by apply list_elem_of_fmap_2.
Qed.
End delivery.

(** ** Splitting a batch *)

Section split.
Context `{ScalarOps, !ScalarLaws} `{ExprOps, !ExprLaws} `{RowFormat, !RowLaws}.
Context (e : RoutingExpr) (n : native) (Hd : dispatch_sortable (type_of e) = Some n).
Context (cs : list Z) (Hcs : Forall (in_range n) cs) (Hasc : ascending n cs).
Context (options : SortOptions) (Ho : descending options = false).

Abbreviation d := (type_of e).
Abbreviation sc v := (mkScalar d (Some v)).
Abbreviation row v := (row_of d options v).
Abbreviation bucket_of key := (bucket n cs (nulls_first options) key).

Lemma row_position key :
  from_option (in_range n) True key →
  slice_partition_point (λ b, row_bytes_le b (row key)) ((λ c, row (Some c)) <$> cs)
    = Ok (bucket_of key).
Proof using All.
  intros Hk. destruct key as [v|]; cbn [bucket].
  - apply position_finds; [done|]. eapply Forall_impl; [done|]. intros c Hc.
    rewrite (row_order d n) by done. cbn. by rewrite Ho.
  - assert (∀ c, in_range n c → row_bytes_le (row (Some c)) (row None) = negb (nulls_first options)) as Hn
      by (intros c Hc; by rewrite (row_order d n)).
    assert (Forall (λ x, row_bytes_le x (row None) = negb (nulls_first options))
      ((λ c, row (Some c)) <$> cs)) as Hall.
    { apply Forall_fmap. eapply Forall_impl; [done|]. intros c Hc. by apply Hn. }
    rewrite partition_point_finds.
    + f_equal. rewrite (how_many_fmap (λ c, row (Some c)) _ (λ _, negb (nulls_first options)))
        by (eapply Forall_impl; [done|]; intros; by apply Hn).
      unfold how_many. destruct (nulls_first options); cbn [negb].
      * by rewrite filter_none.
      * induction cs as [|c cs' IH]; [done|]. rewrite filter_cons_True by done. cbn. f_equal.
        apply Forall_cons in Hcs as [_ Hcs']. apply IH; [done| |].
        -- intros i a b. apply (Hasc (S i)).
        -- by apply Forall_cons in Hall as [_ ?].
    + intros i j x y _ Hx Hy. by rewrite (Forall_lookup_1 _ _ _ _ Hall Hx), (Forall_lookup_1 _ _ _ _ Hall Hy).
Qed.

(** The positions, from [i], of the keys of range [k] *)
Fixpoint positions (k i : nat) (keys : list (option Z)) : list nat :=
  match keys with
  | [] => []
  | key :: keys' =>
      if bucket_of key =? k then as_u32 i :: positions k (S i) keys' else positions k (S i) keys'
  end.

Lemma bucket_rows_ok keys i buckets :
  Forall (λ k, from_option (in_range n) True k) keys → length buckets = length cs + 1 →
  ∃ out, bucket_rows ((λ c, row (Some c)) <$> cs) ((λ k, row k) <$> keys) i buckets = Ok out ∧
    length out = length cs + 1 ∧ ∀ k, out !! k = (λ b, b ++ positions k i keys) <$> buckets !! k.
Proof using All.
  intros Hk. revert i buckets. induction Hk as [|key keys Hkey _ IH]; intros i buckets Hlen; cbn [bucket_rows fmap list_fmap].
  { exists buckets. split_and!; [done..|]. intros k. destruct (buckets !! k); [|done]. cbn. by rewrite app_nil_r. }
  rewrite row_position by done. cbn [obind]. pose proof (bucket_le n cs (nulls_first options) key).
  destruct (push_at_ok (bucket_of key) (as_u32 i) buckets) as (mid & -> & Hmid & Hm); [lia|]. cbn [obind].
  destruct (IH (S i) mid) as (out & Hout & Hlo & Hk); [lia|]. exists out. split_and!; [exact Hout|done|].
  intros k. rewrite Hk, Hm. destruct (buckets !! k) as [b|]; [|done]. cbn [fmap option_fmap option_map positions].
  f_equal. rewrite (Nat.eqb_sym (bucket_of key) k). destruct (k =? _); [|done]. by rewrite <-app_assoc.
Qed.

Lemma take_positions k pre rest :
  (N.of_nat (length (pre ++ rest)) < 2 ^ 32)%N →
  take_rows (pre ++ rest) (positions k (length pre) (row_key e <$> rest))
    = Ok (filter (λ r, bucket_of (row_key e r) = k) rest).
Proof using Type.
  revert pre. induction rest as [|r rest IH]; intros pre Hlen; [done|].
  specialize (IH (pre ++ [r])). rewrite <-app_assoc in IH. specialize (IH Hlen).
  rewrite length_app in IH. cbn [length] in IH. rewrite Nat.add_1_r in IH.
  rewrite fmap_cons, filter_cons. cbn [positions].
  destruct (Nat.eqb_spec (bucket_of (row_key e r)) k) as [Hb|Hb].
  - rewrite decide_True by done. unfold take_rows in *. cbn [SortKeySketch.collect].
    assert (as_u32 (length pre) = length pre) as ->.
    { unfold as_u32. rewrite length_app in Hlen. rewrite N.mod_small by lia. lia. }
    rewrite lookup_app_r, Nat.sub_diag by lia. cbn [lookup list_lookup obind].
    cbn [app] in IH. by rewrite IH.
  - by rewrite decide_False.
Qed.

(** Some conversion of the keys or of the cuts to rows fails. *)
Definition rows_fail (batch : list Row) : Prop :=
  (∃ x, row_converter_new d options = inl x) ∨
  (∃ x, iter_to_array ((λ c, sc c) <$> cs) = inl x) ∨
  (∃ a x, array_type a = d ∧ convert_columns d options a = inl x).

Lemma split_buckets batch :
  evaluates e n batch → (N.of_nat (length batch) < 2 ^ 32)%N →
  split_batch_by_range batch e ((λ c, sc c) <$> cs) options
    = Ok ((λ k, filter (λ r, bucket_of (row_key e r) = k) batch) <$> seq 0 (length cs + 1)) ∨
  ∃ x, split_batch_by_range batch e ((λ c, sc c) <$> cs) options = Err x ∧ rows_fail batch.
Proof using All.
  intros [Hc Hk] Hlen. unfold split_batch_by_range. rewrite length_fmap.
  destruct (Nat.eqb_spec (length batch) 0) as [Hz|_].
  { left. f_equal. apply nil_length_inv in Hz as ->. symmetry. rewrite (const_fmap _ _ []), length_seq; done. }
  destruct ((λ c, sc c) <$> cs) as [|c0 cs0] eqn:Hcsl.
  { left. apply fmap_nil_inv in Hcsl. subst cs. cbn. do 2 f_equal. symmetry.
    apply filter_all. intros r _. destruct (row_key e r); cbn; [done|by destruct (nulls_first _)]. }
  assert (sc (default 0%Z (head cs)) ∈ (λ c, sc c) <$> cs) as Hcut
    by (apply list_elem_of_fmap; destruct cs as [|c cs']; [done|]; exists c; split; [done|left]).
  rewrite <-Hcsl in *. clear c0 cs0 Hcsl. rewrite Hc. cbn [of_sum obind array_type].
  destruct (row_converter_new d options) as [x|u] eqn:Hconv; cbn [obind].
  { right. eexists. split; [done|]. left. by eexists. }
  destruct (iter_to_array ((λ c, sc c) <$> cs)) as [x|a] eqn:Harr; cbn [obind].
  { right. eexists. split; [done|]. right. left. by eexists. }
  destruct (convert_columns d options a) as [x|rows] eqn:Hrows; cbn [of_sum obind].
  { right. eexists. split; [done|]. right. right. eexists _, _. split; [|done].
    destruct (array_of _ _ Harr) as [_ Hty]. rewrite Forall_forall in Hty. symmetry. by apply (Hty _ Hcut). }
  destruct (convert_columns d options (mkArray d (row_key e <$> batch))) as [x|krows] eqn:Hkrows;
    cbn [of_sum obind].
  { right. eexists. split; [done|]. right. right. by eexists (mkArray d _), _. }
  left. destruct (array_of _ _ Harr) as [Hvals _]. destruct (convert_rows _ _ _ _ Hrows) as [_ Er].
  destruct (convert_rows _ _ _ _ Hkrows) as [_ Ek]. rewrite Hvals in Er. cbn [array_values] in Ek.
  rewrite <-!list_fmap_compose in Er. subst rows krows.
  destruct (bucket_rows_ok (row_key e <$> batch) 0 (replicate (length cs + 1) [])) as (out & Hout & Hlo & Hpos);
    [by apply Forall_fmap|by rewrite length_replicate|].
  match goal with |- context [bucket_rows ?b ?ks 0 ?l] =>
    change (bucket_rows b ks 0 l) with
      (bucket_rows ((λ c, row (Some c)) <$> cs) ((λ k, row k) <$> (row_key e <$> batch)) 0 l) end.
  rewrite Hout. cbn [obind]. apply collect_ok. apply Forall2_lookup. intros k.
  rewrite list_lookup_fmap, Hpos. destruct (decide (k < length cs + 1)) as [Hlt|Hge].
  - rewrite lookup_replicate_2, lookup_seq_lt by done. constructor.
    exact (take_positions k [] batch Hlen).
  - rewrite !(proj2 (lookup_ge_None _ _)) by (rewrite ?length_replicate, ?length_seq; lia). constructor.
Qed.
End split.

(** ** Running a filter *)

Section run.
Context `{ScalarOps, !ScalarLaws} `{ExprOps, !ExprLaws}.
Context (e : RoutingExpr) (n : native) (Hd : dispatch_sortable (type_of e) = Some n).
Context (self : RangeFilterExec.t) (Hexpr : RangeFilterExec.filter_expr self = e).

Definition self_nulls_first : bool :=
  match RangeFilterExec.input_order self with Some o => order_nulls_first o | None => false end.

(** The test of a partition, with the NULLs at the open end *)
Definition range_keeps (lo hi : option Z) (key : option Z) : bool :=
  keeps n lo hi (if self_nulls_first then bool_decide (lo = None) else bool_decide (hi = None)) key.

Abbreviation in_rng o := (from_option (in_range n) True o).

Lemma predicate_of_bound lo hi :
  RangeFilterExec.partition_predicate (scalars (type_of e) (lo, hi)) self
  = range_predicate e lo hi
      (if self_nulls_first then bool_decide (lo = None) else bool_decide (hi = None)).
Proof using Hexpr.
  unfold RangeFilterExec.partition_predicate, range_predicate, scalars. cbn [fst snd].
  fold self_nulls_first. rewrite Hexpr. destruct self_nulls_first, lo, hi; done.
Qed.

Lemma poll_keeps lo hi batch :
  evaluates e n batch → (RangeFilterExec.sorted_on_key self = true → sorted_batch e n batch) →
  in_rng lo → in_rng hi →
  let out := filter (λ r, range_keeps lo hi (row_key e r) = true) batch in
  poll_item (RangeFilterExec.partition_predicate (scalars (type_of e) (lo, hi)) self)
    (if RangeFilterExec.sorted_on_key self then Some (RangeFilterExec.filter_expr self) else None)
    ((λ v, mkScalar (type_of e) (Some v)) <$> lo) ((λ v, mkScalar (type_of e) (Some v)) <$> hi) (inr batch)
  = if length out =? 0 then None else Some (Ok out).
Proof using All.
  intros He Hs Hlo Hhi out. rewrite predicate_of_bound. cbn [poll_item].
  destruct batch as [|r batch]; [done|]. cbn [length Nat.eqb]. set (rows := r :: batch) in *.
  assert ((if self_nulls_first then bool_decide (lo = None) else bool_decide (hi = None)) = true
    ∨ lo ≠ None ∨ hi ≠ None) as Hn.
  { destruct self_nulls_first; [destruct lo|destruct hi]; try (by left); right; [left|right]; done. }
  destruct (RangeFilterExec.sorted_on_key self).
  - rewrite Hexpr, (fast_filter_keeps e n Hd) by (done || by apply Hs). fold out.
    unfold range_keeps in out. fold out. by destruct (length out).
  - rewrite (slow_filter_keeps e n Hd) by done. done.
Qed.

Lemma filter_runs k state lo hi batches :
  RangeFilterExec.bounds self = Some state →
  widened state !! k = Some (scalars (type_of e) (lo, hi)) → in_rng lo → in_rng hi →
  Forall (evaluates e n) batches →
  (RangeFilterExec.sorted_on_key self = true → Forall (sorted_batch e n) batches) →
  ∃ outs, RangeFilterExec.execute k (inr (inr <$> batches)) self = Ok (Ok <$> outs) ∧
    concat outs = filter (λ r, range_keeps lo hi (row_key e r) = true) (concat batches).
Proof using All.
  intros Hb Hk Hlo Hhi He Hs. unfold RangeFilterExec.execute, RangeFilterExec.partition_bound.
  rewrite Hb, Hk. cbn [obind of_sum]. change (scalars (type_of e) (lo, hi)).1 with
    ((λ v, mkScalar (type_of e) (Some v)) <$> lo). change (scalars (type_of e) (lo, hi)).2 with
    ((λ v, mkScalar (type_of e) (Some v)) <$> hi).
  pose proof (λ b He Hs, poll_keeps lo hi b He Hs Hlo Hhi) as Hpoll. cbv zeta in Hpoll.
  revert Hpoll. generalize (poll_item (RangeFilterExec.partition_predicate (scalars (type_of e) (lo, hi)) self)
    (if RangeFilterExec.sorted_on_key self then Some (RangeFilterExec.filter_expr self) else None)
    ((λ v, mkScalar (type_of e) (Some v)) <$> lo) ((λ v, mkScalar (type_of e) (Some v)) <$> hi)).
  intros poll Hpoll. induction He as [|b batches Hb' _ IH]; [by exists []|].
  destruct IH as (outs & Houts & Hrows); [intros Hs'; by eapply Forall_inv_tail, Hs|].
  injection Houts as Houts. rewrite fmap_cons. cbn [Prelude.filter_map concat].
  rewrite (Hpoll b Hb') by (intros Hs'; by eapply Forall_inv, Hs). rewrite Houts, filter_app, <-Hrows.
  destruct (Nat.eqb_spec (length (filter (λ r, range_keeps lo hi (row_key e r) = true) b)) 0) as [Hz|_].
  - apply nil_length_inv in Hz as ->. by exists outs.
  - by exists (filter (λ r, range_keeps lo hi (row_key e r) = true) b :: outs).
Qed.
End run.
