(* ===== verification/RangeIndex.v ===== *)
(** * The value index of a range shuffle file

    Models [ballista/core/src/execution_plans/range_shuffle/]: the layout and the
    writing of a data file ([ipc_file.rs], [writer.rs]), the index beside it, the
    selection of record batches by a value range ([index.rs]), and the local and
    the remote read of a selection ([reader.rs], [remote.rs], and
    [fetch_ranges_with] of [shuffle_reader.rs]).

    Files are the batches and the layout the IPC writer reports. An index batch is
    its schema and its columns. *)

From S2P Require Import Prelude Errors Machine Types Kll SortKey SortKeyFacts Range.
From stdpp Require Import numbers gmap.
From Stdlib Require Import Ascii.

(** [?] on a [DataFusionError] in a function that returns a [BallistaError] *)
Definition ballista_err {A : Type} (o : outcome DataFusionError A) : outcome BallistaError A :=
  match o with
  | Ok a => Ok a
  | Err e => Err (ballista_of_datafusion e)
  | Panic => Panic
  end.

Definition general {A : Type} (text : string) : outcome BallistaError A :=
  Err (General (Lit text)).

(** ** Layout *)

Record MessageBlock : Type := mkBlock { block_offset : N; block_len : N }.

Record FileLayout : Type := mkLayout {
  dictionaries : list MessageBlock;
  record_batches : list MessageBlock;
}.

(** ** The index batch *)

Record Field : Type := mkField { field_name : string; field_type : DataType; field_nullable : bool }.
Record Schema : Type := mkSchema { schema_fields : list Field; schema_metadata : gmap string string }.

Record IndexBatch : Type := mkIndex { index_schema_of : Schema; index_columns : list Array }.

Definition index_num_rows (index : IndexBatch) : nat :=
  match index_columns index with
  | c :: _ => length (array_values c)
  | [] => 0
  end.

Definition Boolean : DataType := OtherType "Boolean".

Definition IS_DICT_COLUMN : string := "is_dict".
Definition BYTE_OFFSET_COLUMN : string := "byte_offset".
Definition BYTE_LEN_COLUMN : string := "byte_len".
Definition NUM_ROWS_COLUMN : string := "num_rows".
Definition FIXED_COLUMN_COUNT : nat := 4.
Definition IS_DICT_POSITION : nat := 0.
Definition BYTE_OFFSET_POSITION : nat := 1.
Definition BYTE_LEN_POSITION : nat := 2.
Definition NUM_ROWS_POSITION : nat := 3.

Definition fixed_fields : list Field :=
  [mkField IS_DICT_COLUMN Boolean false;
   mkField BYTE_OFFSET_COLUMN UInt64 false;
   mkField BYTE_LEN_COLUMN UInt64 false;
   mkField NUM_ROWS_COLUMN UInt64 true].

Definition key_column_count (index : IndexBatch) : result nat :=
  let n := length (index_columns index) in
  if FIXED_COLUMN_COUNT <=? n then Ok (n - FIXED_COLUMN_COUNT)
  else general "range shuffle index has {} columns, fewer than the {FIXED_COLUMN_COUNT} fixed layout columns".

(** The fixed column, which has to be an array of the type [d] *)
Definition fixed_column (d : DataType) (index : IndexBatch) (position : nat) : result (list (option Z)) :=
  let? n := key_column_count index in
  match index_columns index !! (n + position) with
  | None => Panic
  | Some a =>
      if bool_decide (array_type a = d) then Ok (array_values a)
      else general "range shuffle index column {column} (`{name}`) has type {}, not the layout type"
  end.

Definition is_dict_column (index : IndexBatch) := fixed_column Boolean index IS_DICT_POSITION.
Definition byte_offset_column (index : IndexBatch) := fixed_column UInt64 index BYTE_OFFSET_POSITION.
Definition byte_len_column (index : IndexBatch) := fixed_column UInt64 index BYTE_LEN_POSITION.
Definition num_rows_column (index : IndexBatch) := fixed_column UInt64 index NUM_ROWS_POSITION.

(** [column.value(row)]; the slot of a NULL holds zero *)
Definition slot (column : list (option Z)) (row : nat) : result Z :=
  match column !! row with
  | Some v => Ok (default 0%Z v)
  | None => Panic
  end.

Definition bool_slot (column : list (option Z)) (row : nat) : result bool :=
  let? v := slot column row in Ok (negb (v =? 0)%Z).

Definition SORT_OPTIONS_METADATA : string := "ballista.range_shuffle.sort_options".

Definition encode_options (o : SortOptions) : string :=
  ((if descending o then "desc" else "asc") ++ " " ++
   (if nulls_first o then "nulls_first" else "nulls_last"))%string.

Definition encode_sort_options (options : list SortOptions) : string :=
  String.concat "," (encode_options <$> options).

(** [options.split(',').next()] *)
Fixpoint split_first (s : string) : string :=
  match s with
  | EmptyString => EmptyString
  | String c s' => if Ascii.eqb c ","%char then EmptyString else String c (split_first s')
  end.

Definition schema_descending (schema : Schema) : bool :=
  match schema_metadata schema !! SORT_OPTIONS_METADATA with
  | Some options => String.prefix "desc" (split_first options)
  | None => false
  end.

(** ** Building the index *)

Record BatchKey : Type := mkBatchKey { key_values : list ScalarValue; key_num_rows : N }.

(** [ScalarValue::try_from] of a type, [RecordBatch::try_new], and the display and the
    type of a sort expression *)
Class IndexOps `{ExprOps} : Type := {
  null_scalar : DataType → fallible ScalarValue;
  batch_try_new : Schema → list Array → fallible IndexBatch;
  expr_name : RoutingExpr → string;
  expr_type : RoutingExpr → fallible DataType;
}.

Class IndexLaws `{IndexOps} `{!ScalarOps, !ExprLaws} : Prop := {
  null_of d v : null_scalar d = inr v → v = mkScalar d None;
  batch_of schema columns b : batch_try_new schema columns = inr b → b = mkIndex schema columns;
  expr_typed e d : expr_type e = inr d → d = type_of e;
}.

Section index.
Context `{IndexOps} `{RowFormat}.

(** A sort expression that has no type is an error. *)
Definition key_field (sort_expr : RoutingExpr * SortOptions) : result Field :=
  match expr_type sort_expr.1 with
  | inr d => Ok (mkField (expr_name sort_expr.1) d true)
  | inl _ => general "range shuffle index: sort expression `{}` has no type against the shuffle schema: {e}"
  end.

Fixpoint collect_results {A B : Type} (f : A → result B) (l : list A) : result (list B) :=
  match l with
  | [] => Ok []
  | a :: l' => let? b := f a in let? bs := collect_results f l' in Ok (b :: bs)
  end.

Definition index_schema (ordering : list (RoutingExpr * SortOptions)) : result Schema :=
  let? fields := collect_results key_field ordering in
  Ok (mkSchema (fields ++ fixed_fields)
        {[ SORT_OPTIONS_METADATA := encode_sort_options ordering.*2 ]}).

(** *** Keys *)

Definition key_value (batch : list Row) (sort_expr : RoutingExpr * SortOptions) : result ScalarValue :=
  match batch with
  | [] =>
      match expr_type sort_expr.1 with
      | inl _ => general "range shuffle index: sort expression `{}` has no type: {e}"
      | inr d => ballista_err (of_sum (null_scalar d))
      end
  | first_row :: _ =>
      match column_of sort_expr.1 [first_row] with
      | inl _ => general "range shuffle index: sort expression `{}` failed to evaluate: {e}"
      | inr a => ballista_err (try_from_array a 0)
      end
  end.

Definition key_for (ordering : list (RoutingExpr * SortOptions)) (batch : list Row) : result BatchKey :=
  let? values := collect_results (key_value batch) ordering in
  Ok (mkBatchKey values (N.of_nat (length batch))).

(** An item of the stream, and the keys collected after it *)
Definition poll_keyed (ordering : list (RoutingExpr * SortOptions)) (item : fallible (list Row))
    (keys : list BatchKey) : outcome DataFusionError (list Row) * list BatchKey :=
  match item with
  | inl e => (Err e, keys)
  | inr batch =>
      match key_for ordering batch with
      | Ok key => (Ok batch, keys ++ [key])
      | Err e => (Err (into_datafusion e), keys)
      | Panic => (Panic, keys)
      end
  end.

(** *** Rows *)

Definition index_row : Type := N * N * option nat.

(** The stable sort by offset *)
Fixpoint insert_row (r : index_row) (rows : list index_row) : list index_row :=
  match rows with
  | [] => [r]
  | s :: rows' => if (r.1.1 <=? s.1.1)%N then r :: rows else s :: insert_row r rows'
  end.
Definition sort_rows (rows : list index_row) : list index_row := foldr insert_row [] rows.

Definition layout_rows (layout : FileLayout) : list index_row :=
  ((λ b, (block_offset b, block_len b, None)) <$> dictionaries layout) ++
  imap (λ idx b, (block_offset b, block_len b, Some idx)) (record_batches layout).

(** [for (column, value) in columns.iter_mut().zip(values) { column.push(value) }] *)
Fixpoint push_values {A : Type} (columns : list (list A)) (values : list A) : list (list A) :=
  match columns, values with
  | c :: columns', v :: values' => (c ++ [v]) :: push_values columns' values'
  | _, _ => columns
  end.

Record builders : Type := mkBuilders {
  key_columns : list (list ScalarValue);
  b_is_dict : list (option Z);
  b_offset : list (option Z);
  b_len : list (option Z);
  b_num_rows : list (option Z);
}.

(** The null of each field, until one has none *)
Definition null_values (fields : list Field) : result (list ScalarValue) :=
  collect_results (λ f, ballista_err (of_sum (null_scalar (field_type f)))) fields.

Definition append_row (fields : list Field) (key_count : nat) (keys : list BatchKey)
    (row : index_row) (b : builders) : result builders :=
  let '(offset, len, key_idx) := row in
  let offsets := b_offset b ++ [Some (Z.of_N offset)] in
  let lens := b_len b ++ [Some (Z.of_N len)] in
  match key_idx with
  | Some idx =>
      match keys !! idx with
      | None => Panic
      | Some key =>
          if negb (length (key_values key) =? key_count) then
            general "range shuffle index: batch key has {} values against {} key columns"
          else
            Ok (mkBuilders (push_values (key_columns b) (key_values key))
                  (b_is_dict b ++ [Some 0%Z]) offsets lens
                  (b_num_rows b ++ [Some (Z.of_N (key_num_rows key))]))
      end
  | None =>
      let? values := null_values (take key_count fields) in
      Ok (mkBuilders (push_values (key_columns b) values)
            (b_is_dict b ++ [Some 1%Z]) offsets lens (b_num_rows b ++ [None]))
  end.

Fixpoint append_rows (fields : list Field) (key_count : nat) (keys : list BatchKey)
    (rows : list index_row) (b : builders) : result builders :=
  match rows with
  | [] => Ok b
  | row :: rows' =>
      let? b := append_row fields key_count keys row b in
      append_rows fields key_count keys rows' b
  end.

Definition finish_column (column : list ScalarValue * Field) : result Array :=
  let '(values, field) := column in
  if length values =? 0 then Ok (mkArray (field_type field) [])
  else ballista_err (of_sum (iter_to_array values)).

Definition build_index_batch (schema : Schema) (layout : FileLayout) (keys : list BatchKey)
  : result IndexBatch :=
  if negb (length (record_batches layout) =? length keys) then
    general "range shuffle index: {} record blocks against {} keys - the index would pair keys with the wrong byte ranges"
  else
    let fields := schema_fields schema in
    if length fields <? 4 then Panic
    else
      let key_count := length fields - 4 in
      let? b :=
        append_rows fields key_count keys (sort_rows (layout_rows layout))
          (mkBuilders (replicate key_count []) [] [] [] []) in
      let? columns := collect_results finish_column (zip (key_columns b) fields) in
      match batch_try_new schema
              (columns ++ [mkArray Boolean (b_is_dict b); mkArray UInt64 (b_offset b);
                           mkArray UInt64 (b_len b); mkArray UInt64 (b_num_rows b)]) with
      | inr index => Ok index
      | inl _ => general "range shuffle index: {e}"
      end.
End index.

(** ** Writing a partition *)

Section write.
Context `{IndexOps} `{RowFormat}.

(** The batches that reach the writer before the stream ends or fails, and the keys *)
Fixpoint drain (ordering : list (RoutingExpr * SortOptions)) (items : list (fallible (list Row)))
    (batches : list (list Row)) (keys : list BatchKey)
  : outcome DataFusionError (list (list Row) * list BatchKey) :=
  match items with
  | [] => Ok (batches, keys)
  | item :: items' =>
      let '(polled, keys) := poll_keyed ordering item keys in
      let? batch := polled in
      drain ordering items' (batches ++ [batch]) keys
  end.

(** [write_stream_to_ipc_file], with the layout and the size the writer reports *)
Definition write_stream_to_ipc_file (ordering : list (RoutingExpr * SortOptions))
    (items : list (fallible (list Row))) (write : list (list Row) → result (FileLayout * N))
  : result (PartitionStats * FileLayout * list (list Row) * list BatchKey) :=
  let? drained := ballista_err (drain ordering items [] []) in
  let '(batches, keys) := drained in
  let? written := write batches in
  let '(layout, num_bytes) := written in
  if negb (length (record_batches layout) =? length batches) then
    general "range shuffle {path:?} footer records {} record batches but {} were written - offsets cannot be mapped to batches"
  else
    Ok (mkPartitionStats (Some (lsum (λ b, N.of_nat (length b)) batches))
          (Some (N.of_nat (length batches))) (Some num_bytes),
        layout, batches, keys).

(** The task of one partition of [execute_shuffle_write]: the statistics, the batches
    of the data file and the index beside it *)
Definition write_partition (ordering : list (RoutingExpr * SortOptions)) (schema : Schema)
    (items : list (fallible (list Row))) (write : list (list Row) → result (FileLayout * N))
  : result (PartitionStats * list (list Row) * IndexBatch) :=
  let? w := write_stream_to_ipc_file ordering items write in
  let '(stats, layout, batches, keys) := w in
  let? index := build_index_batch schema layout keys in
  Ok (stats, batches, index).
End write.

(** ** Selecting batches *)

Section select.
Context `{ScalarOps}.

Definition count_record_batches (index : IndexBatch) : result nat :=
  let? is_dict := is_dict_column index in
  let? flags := collect_results (bool_slot is_dict) (seq 0 (index_num_rows index)) in
  Ok (length (filter (λ dict, dict = false) flags)).

(** The first keys of the record batches; [None] when one is NULL *)
Fixpoint first_keys (is_dict : list (option Z)) (keys : Array) (rows : list nat)
  : result (option (list ScalarValue)) :=
  match rows with
  | [] => Ok (Some [])
  | row :: rows' =>
      let? dict := bool_slot is_dict row in
      if dict then first_keys is_dict keys rows'
      else
        match array_values keys !! row with
        | None => Panic
        | Some None => Ok None
        | Some (Some v) =>
            let? rest := first_keys is_dict keys rows' in
            Ok (cons (mkScalar (array_type keys) (Some v)) <$> rest)
        end
  end.

Definition precedes (descending : bool) (a b : ScalarValue) : bool :=
  match partial_cmp a b with
  | Some Lt => negb descending
  | Some Gt => descending
  | _ => false
  end.

(** [iter().rposition(p)] *)
Fixpoint rposition {A : Type} (p : A → bool) (l : list A) : option nat :=
  match l with
  | [] => None
  | x :: l' =>
      match rposition p l' with
      | Some i => Some (S i)
      | None => if p x then Some 0 else None
      end
  end.

Definition select_start (keys : list ScalarValue) (lo : option ScalarValue) (desc : bool) : nat :=
  match lo with
  | None => 0
  | Some lo => default 0 (rposition (λ key, negb (precedes desc lo key)) keys)
  end.

Definition select_end (keys : list ScalarValue) (hi : option ScalarValue) (desc : bool) : nat :=
  match hi with
  | None => length keys
  | Some hi => length (filter (λ key, precedes desc key hi = true) keys)
  end.

Definition select_record_batches (index : IndexBatch) (lo hi : option ScalarValue) (desc : bool)
  : result (option (list nat)) :=
  let? is_dict := is_dict_column index in
  match index_columns index !! 0 with
  | None => Panic
  | Some keys =>
      let? firsts := first_keys is_dict keys (seq 0 (index_num_rows index)) in
      match firsts with
      | None => Ok None
      | Some firsts =>
          let start := select_start firsts lo desc in
          let stop := select_end firsts hi desc in
          Ok (Some (seq start ((stop `max` start) - start)))
      end
  end.

Definition covers (index : IndexBatch) (lo hi : option ScalarValue) (desc : bool) : result bool :=
  let? selected := select_record_batches index lo hi desc in
  Ok (match selected with None => true | Some l => negb (length l =? 0) end).

(** *** Local reads *)

(** The index is [None] when there is no file beside the data. *)
Definition select_local_batches (index : option (result IndexBatch)) (lo hi : option ScalarValue)
  : result (option (list nat)) :=
  match index with
  | None => Ok None
  | Some index =>
      let? index := index in
      select_record_batches index lo hi (schema_descending (index_schema_of index))
  end.

Definition open_ipc_file_range (num_batches : nat) (index : option (result IndexBatch))
    (lo hi : option ScalarValue) : result (list nat) :=
  let? selected := select_local_batches index lo hi in
  Ok (match selected with Some ordinals => ordinals | None => seq 0 num_batches end).

(** What [SelectedBatches] yields: the batch at each ordinal, or an error for one
    that the file does not have *)
Definition selected_batches {B : Type} (batches : list B) (ordinals : list nat)
  : list (ArrowError + B) :=
  (λ i, match batches !! i with
        | Some b => inr b
        | None => inl (AE_Other "InvalidArgumentError")
        end) <$> ordinals.

(** *** Remote reads *)

Record ByteRange : Type := mkByteRange { br_offset : N; br_length : N }.

(** The walk over the index: the dictionaries up to the last batch that is selected,
    and the selected batches *)
Fixpoint walk_rows (is_dict offsets lengths : list (option Z)) (selected : list nat)
    (last_selected : nat) (rows : list nat) (record_ordinal : nat)
    (dicts records : list ByteRange) : result (list ByteRange * list ByteRange) :=
  match rows with
  | [] => Ok (dicts, records)
  | row :: rows' =>
      let? offset := slot offsets row in
      let? length := slot lengths row in
      let range := mkByteRange (Z.to_N offset) (Z.to_N length) in
      let? dict := bool_slot is_dict row in
      if dict then
        let dicts :=
          if bool_decide (records = []) || (record_ordinal <=? last_selected)
          then dicts ++ [range] else dicts in
        walk_rows is_dict offsets lengths selected last_selected rows' record_ordinal dicts records
      else
        let records := if bool_decide (record_ordinal ∈ selected) then records ++ [range] else records in
        walk_rows is_dict offsets lengths selected last_selected rows' (S record_ordinal) dicts records
  end.

(** [merged], with its last range taken off *)
Fixpoint coalesce_onto (last : ByteRange) (ranges : list ByteRange) : list ByteRange :=
  match ranges with
  | [] => [last]
  | range :: ranges' =>
      if (u64_add (br_offset last) (br_length last) =? br_offset range)%N
      then coalesce_onto (mkByteRange (br_offset last) (u64_add (br_length last) (br_length range))) ranges'
      else last :: coalesce_onto range ranges'
  end.

Definition coalesce (ranges : list ByteRange) : list ByteRange :=
  match ranges with
  | [] => []
  | range :: ranges' => coalesce_onto range ranges'
  end.

Definition byte_ranges_for (index : IndexBatch) (selected : list nat)
  : result (option (list ByteRange)) :=
  match last selected with
  | None => Ok None
  | Some last_selected =>
      let? is_dict := is_dict_column index in
      let? offsets := byte_offset_column index in
      let? lengths := byte_len_column index in
      let? walked :=
        walk_rows is_dict offsets lengths selected last_selected (seq 0 (index_num_rows index)) 0 [] [] in
      let '(dicts, records) := walked in
      if bool_decide (records = []) then Ok None
      else Ok (Some (dicts ++ coalesce records))
  end.

(** The two round trips: the batches the index comes back as, and the fetch of the
    byte ranges with a schema message ahead; [empty] is the stream of no batches. *)
Definition fetch_ranges_with {Stream Message : Type} (index_batches : result (list IndexBatch))
    (schema_message : result Message) (fetch_data : list ByteRange → Message → result Stream)
    (empty : Stream) (lo hi : option ScalarValue) : result Stream :=
  let? fetched := index_batches in
  match fetched with
  | [index] =>
      let? narrowed :=
        select_record_batches index lo hi (schema_descending (index_schema_of index)) in
      let? selected :=
        match narrowed with
        | Some selected => Ok selected
        | None => let? n := count_record_batches index in Ok (seq 0 n)
        end in
      let? ranges := byte_ranges_for index selected in
      match ranges with
      | None => Ok empty
      | Some ranges => let? message := schema_message in fetch_data ranges message
      end
  | _ => general "range shuffle index for {partition_id:?} came back as {} batches"
  end.
End select.
