(* ===== verification/RangeIndexFacts.v ===== *)
(** * Lemmas on the index of a range shuffle file

    What an index that was built holds, the first keys it gives back, the rows a
    selection loses, and the bytes it fetches. *)

From S2P Require Import Prelude Errors Machine Types Kll SortKey SortKeyFacts KeySketch Range RangeFacts RangeIndex.
From stdpp Require Import numbers gmap sorting.

(** ** The stable sort *)

Abbreviation offset_of := (λ r : index_row, r.1.1).
Abbreviation by_offset := (λ r s : index_row, (offset_of r ≤ offset_of s)%N).

Lemma insert_row_perm r rows : insert_row r rows ≡ₚ r :: rows.
Proof.
  induction rows as [|s rows IH]; [done|]. cbn [insert_row]. case_match; [done|].
  rewrite IH. apply Permutation_swap.
Qed.

Lemma sort_rows_perm rows : sort_rows rows ≡ₚ rows.
Proof.
  induction rows as [|r rows IH]; [done|]. unfold sort_rows in *. cbn [foldr].
  by rewrite insert_row_perm, IH.
Qed.

Lemma insert_row_sorted r rows :
  StronglySorted by_offset rows → StronglySorted by_offset (insert_row r rows).
Proof.
  induction 1 as [|s rows Hs IH Hall]; cbn [insert_row]; [repeat constructor|].
  destruct (N.leb_spec (offset_of r) (offset_of s)) as [Hle|Hgt].
  - constructor; [by constructor|]. constructor; [done|]. eapply Forall_impl; [done|].
    cbn. intros; lia.
  - constructor; [done|]. rewrite insert_row_perm. constructor; [cbn; lia|done].
Qed.

Lemma sort_rows_sorted rows : StronglySorted by_offset (sort_rows rows).
Proof. induction rows as [|r rows IH]; [constructor|]. by apply insert_row_sorted. Qed.

Lemma insert_row_front r rows :
  Forall (λ s, (offset_of r ≤ offset_of s)%N) rows → insert_row r rows = r :: rows.
Proof. destruct 1 as [|s rows Hs _]; [done|]. cbn [insert_row]. by rewrite (proj2 (N.leb_le _ _)). Qed.

Lemma sort_sorted rows : StronglySorted by_offset rows → sort_rows rows = rows.
Proof.
  induction 1 as [|r rows _ IH Hall]; [done|]. unfold sort_rows in *. cbn [foldr]. rewrite IH.
  by apply insert_row_front.
Qed.

Lemma filter_insert (P : index_row → Prop) `{∀ r, Decision (P r)} r rows :
  StronglySorted by_offset rows →
  filter P (insert_row r rows) = if decide (P r) then insert_row r (filter P rows) else filter P rows.
Proof.
  induction 1 as [|s rows Hs IH Hall]; cbn [insert_row].
  { rewrite filter_cons. by case_decide. }
  destruct (N.leb_spec (offset_of r) (offset_of s)) as [Hle|Hgt].
  - rewrite filter_cons. case_decide; [|done]. rewrite insert_row_front; [done|].
    apply Forall_forall. intros t (_ & Ht)%list_elem_of_filter.
    apply elem_of_cons in Ht as [->|Ht]; [done|]. rewrite Forall_forall in Hall. specialize (Hall t Ht).
    cbn in *. lia.
  - rewrite !filter_cons, IH. destruct (decide (P s)), (decide (P r)); try done. cbn [insert_row].
    by rewrite (proj2 (N.leb_gt _ _)).
Qed.

Lemma filter_sort (P : index_row → Prop) `{∀ r, Decision (P r)} rows :
  filter P (sort_rows rows) = sort_rows (filter P rows).
Proof.
  induction rows as [|r rows IH]; [done|]. unfold sort_rows in *. cbn [foldr].
  rewrite filter_insert by apply sort_rows_sorted. rewrite filter_cons, IH. by case_decide.
Qed.

(** ** The rows of an index *)

(** The blocks of the record batches in the order of the file *)
Definition in_file_order (layout : FileLayout) : Prop :=
  ∀ i a b, record_batches layout !! i = Some a → record_batches layout !! S i = Some b →
    (block_offset a ≤ block_offset b)%N.

Abbreviation is_record := (λ r : index_row, is_Some r.2).

Lemma record_rows_sorted m (bs : list MessageBlock) :
  (∀ i a b, bs !! i = Some a → bs !! S i = Some b → (block_offset a ≤ block_offset b)%N) →
  StronglySorted by_offset (imap (λ idx b, (block_offset b, block_len b, Some (m + idx))) bs).
Proof.
  intros Hasc. apply Sorted_StronglySorted; [intros ? ? ?; cbn; lia|].
  revert m. induction bs as [|b bs IH]; intros m; [constructor|]. cbn [imap].
  constructor.
  - rewrite (imap_ext _ (λ idx b, (block_offset b, block_len b, Some (S m + idx)))).
    + apply IH. intros i x y. apply (Hasc (S i)).
    + intros i x _. cbn. do 2 f_equal. lia.
  - destruct bs as [|b' bs]; [constructor|]. cbn. constructor. cbn. by apply (Hasc 0).
Qed.

(** The record batches of the sorted rows are those of the layout, in order. *)
Lemma sorted_records layout :
  in_file_order layout →
  filter is_record (sort_rows (layout_rows layout))
    = imap (λ idx b, (block_offset b, block_len b, Some idx)) (record_batches layout).
Proof.
  intros Hasc. rewrite filter_sort. unfold layout_rows. rewrite filter_app.
  rewrite (filter_none _ (_ <$> _)), app_nil_l.
  2:{ intros r (b & -> & _)%list_elem_of_fmap_1. cbn. by intros []. }
  rewrite filter_all.
  - apply sort_sorted. by apply (record_rows_sorted 0).
  - intros r Hr. apply elem_of_lookup_imap in Hr as (i & b & -> & _). by eexists.
Qed.

Lemma record_ordinals layout :
  in_file_order layout →
  omap snd (sort_rows (layout_rows layout)) = seq 0 (length (record_batches layout)).
Proof.
  intros Hasc. assert (∀ l : list index_row, omap snd l = omap snd (filter is_record l)) as ->.
  { induction l as [|[? [i|]] l IH]; [done|..].
    - rewrite filter_cons_True by by eexists. cbn. by rewrite IH.
    - rewrite filter_cons_False by by intros []. done. }
  rewrite sorted_records by done. generalize (record_batches layout). intros bs.
  assert (∀ m, omap snd (imap (λ idx b, (block_offset b, block_len b, Some (m + idx))) bs)
    = seq m (length bs)) as Hm; [|exact (Hm 0)].
  induction bs as [|b bs IH]; intros m; [done|]. cbn. rewrite Nat.add_0_r. f_equal. rewrite <-IH.
  f_equal. apply imap_ext. intros i x _. cbn. do 2 f_equal. lia.
Qed.

(** ** What was built *)

Section built.
Context `{IndexOps, !ScalarOps, !ExprLaws, !IndexLaws} `{RowFormat, !RowLaws}.

Definition dict_cell (r : index_row) : option Z := Some (if r.2 is Some _ then 0 else 1)%Z.
Definition offset_cell (r : index_row) : option Z := Some (Z.of_N r.1.1).
Definition len_cell (r : index_row) : option Z := Some (Z.of_N r.1.2).

(** The first key column has the key of a record batch, and NULL for a dictionary. *)
Definition first_cell (keys : list BatchKey) (r : index_row) (v : ScalarValue) : Prop :=
  match r.2 with
  | Some i => ∃ key, keys !! i = Some key ∧ head (key_values key) = Some v
  | None => scalar_value v = None
  end.

Lemma push_values_head {A : Type} (columns : list (list A)) (v : A) (values : list A) :
  columns ≠ [] → push_values columns (v :: values) !! 0 = (λ c, c ++ [v]) <$> columns !! 0.
Proof using Type. by destruct columns. Qed.

Lemma push_values_length {A : Type} (columns : list (list A)) (values : list A) :
  length (push_values columns values) = length columns.
Proof using Type. revert values. induction columns as [|c columns IH]; intros [|v values]; cbn; by rewrite ?IH. Qed.

Lemma null_values_head fields values :
  null_values fields = Ok values → fields ≠ [] →
  ∃ v rest, values = v :: rest ∧ scalar_value v = None.
Proof using All.
  destruct fields as [|f fields]; [done|]. unfold null_values. cbn [collect_results].
  destruct (null_scalar (field_type f)) as [x|v] eqn:Hv; cbn; [done|].
  destruct (collect_results _ fields) as [vs| |]; cbn; intros [= <-] _.
  exists v, vs. split; [done|]. by rewrite (null_of _ _ Hv).
Qed.

Lemma append_row_spec fields kc keys r b b' :
  kc ≠ 0 → kc ≤ length fields → length (key_columns b) = kc →
  append_row fields kc keys r b = Ok b' →
  b_is_dict b' = b_is_dict b ++ [dict_cell r] ∧ b_offset b' = b_offset b ++ [offset_cell r] ∧
  b_len b' = b_len b ++ [len_cell r] ∧ length (key_columns b') = kc ∧
  ∃ v, first_cell keys r v ∧ key_columns b' !! 0 = (λ c, c ++ [v]) <$> key_columns b !! 0.
Proof using All.
  intros Hkc Hf Hlen. destruct r as [[offset len] [idx|]]; cbn [append_row].
  - destruct (keys !! idx) as [key|] eqn:Hk; [|done].
    destruct (Nat.eqb_spec (length (key_values key)) kc) as [Hkv|]; cbn [negb]; [|done].
    intros [= <-]. cbn. rewrite push_values_length. split_and!; [done..|].
    destruct (key_values key) as [|v vs] eqn:Hvs; [cbn in Hkv; lia|]. exists v. split.
    + exists key. by rewrite Hvs.
    + apply push_values_head. intros Heq. rewrite Heq in Hlen. cbn in Hlen. lia.
  - destruct (null_values (take kc fields)) as [values| |] eqn:Hv; cbn [obind]; [|done..].
    intros [= <-]. cbn. rewrite push_values_length. split_and!; [done..|].
    destruct (null_values_head _ _ Hv) as (v & rest & -> & Hnone).
    { intros Heq. apply (f_equal length) in Heq. rewrite length_take in Heq. cbn in Heq. lia. }
    exists v. split; [done|]. apply push_values_head. intros Heq. rewrite Heq in Hlen. cbn in Hlen. lia.
Qed.

Lemma append_rows_spec fields kc keys rows b b' :
  kc ≠ 0 → kc ≤ length fields → length (key_columns b) = kc →
  append_rows fields kc keys rows b = Ok b' →
  b_is_dict b' = b_is_dict b ++ (dict_cell <$> rows) ∧
  b_offset b' = b_offset b ++ (offset_cell <$> rows) ∧
  b_len b' = b_len b ++ (len_cell <$> rows) ∧ length (key_columns b') = kc ∧
  ∃ vs, Forall2 (first_cell keys) rows vs ∧
    key_columns b' !! 0 = (λ c, c ++ vs) <$> key_columns b !! 0.
Proof using All.
  intros Hkc Hf. revert b. induction rows as [|r rows IH]; intros b Hlen; cbn [append_rows].
  { intros [= <-]. rewrite !app_nil_r. split_and!; [done..|]. exists []. split; [done|].
    destruct (key_columns b !! 0); [|done]. cbn. by rewrite app_nil_r. }
  destruct (append_row fields kc keys r b) as [b1| |] eqn:Hb1; cbn [obind]; [|done..]. intros Hb'.
  destruct (append_row_spec _ _ _ _ _ _ Hkc Hf Hlen Hb1) as (E1 & E2 & E3 & Hlen1 & v & Hv & Hc).
  destruct (IH b1 Hlen1 Hb') as (F1 & F2 & F3 & Hlen' & vs & Hvs & Hc').
  rewrite F1, F2, F3, E1, E2, E3, <-!app_assoc. split_and!; [done..|].
  exists (v :: vs). split; [by constructor|]. rewrite Hc', Hc. destruct (key_columns b !! 0); [|done].
  cbn. by rewrite <-app_assoc.
Qed.

(** An index of the rows [rows] *)
Record index_of (keys : list BatchKey) (rows : list index_row) (index : IndexBatch) : Prop := {
  io_dict : is_dict_column index = Ok (dict_cell <$> rows);
  io_offset : byte_offset_column index = Ok (offset_cell <$> rows);
  io_len : byte_len_column index = Ok (len_cell <$> rows);
  io_rows : index_num_rows index = length rows;
  io_first : ∃ a vs, index_columns index !! 0 = Some a ∧ array_values a = scalar_value <$> vs ∧
    Forall2 (first_cell keys) rows vs ∧ Forall (λ v, scalar_type v = array_type a) vs;
}.

Lemma fixed_of_layout d schema columns a1 a2 a3 a4 p arr :
  [a1; a2; a3; a4] !! p = Some arr → array_type arr = d →
  fixed_column d (mkIndex schema (columns ++ [a1; a2; a3; a4])) p = Ok (array_values arr).
Proof using Type.
  intros Hp Hd. unfold fixed_column, key_column_count. cbn [index_columns].
  rewrite length_app. cbn [length]. unfold FIXED_COLUMN_COUNT.
  rewrite (proj2 (Nat.leb_le _ _)) by lia. cbn [obind].
  rewrite lookup_app_r by lia. replace (length columns + 4 - 4 + p - length columns) with p by lia.
  rewrite Hp. by rewrite bool_decide_eq_true_2.
Qed.

Lemma finish_first (columns : list (list ScalarValue)) (fields : list Field) c arrays :
  columns !! 0 = Some c → fields ≠ [] →
  collect_results finish_column (zip columns fields) = Ok arrays →
  ∃ a, arrays !! 0 = Some a ∧ array_values a = scalar_value <$> c ∧
    Forall (λ v, scalar_type v = array_type a) c.
Proof using All.
  intros Hc Hf. destruct columns as [|c' columns]; [done|]. injection Hc as ->.
  destruct fields as [|f fields]; [done|]. cbn [zip zip_with collect_results]. unfold finish_column at 1.
  destruct (Nat.eqb_spec (length c) 0) as [Hz|_].
  - apply nil_length_inv in Hz as ->. cbn [obind].
    destruct (collect_results _ _) as [rest| |]; cbn [obind]; intros [= <-].
    by exists (mkArray (field_type f) []).
  - destruct (iter_to_array c) as [x|a] eqn:Ha; cbn; [done|].
    destruct (collect_results _ _) as [rest| |]; cbn [obind]; intros [= <-].
    exists a. split; [done|]. by apply array_of.
Qed.

Lemma built_index schema layout keys index :
  4 < length (schema_fields schema) → build_index_batch schema layout keys = Ok index →
  index_of keys (sort_rows (layout_rows layout)) index ∧ index_schema_of index = schema ∧
  length (record_batches layout) = length keys.
Proof using All.
  intros Hf. unfold build_index_batch.
  destruct (Nat.eqb_spec (length (record_batches layout)) (length keys)) as [Hlen|]; cbn [negb]; [|done].
  rewrite (proj2 (Nat.ltb_ge _ _)) by lia.
  set (rows := sort_rows (layout_rows layout)). set (kc := length (schema_fields schema) - 4).
  destruct (append_rows _ _ _ _ _) as [b| |] eqn:Hb; cbn [obind]; [|done..].
  apply append_rows_spec in Hb as (E1 & E2 & E3 & Hkc & vs & Hvs & Hc); [|lia|lia|apply length_replicate].
  cbn [b_is_dict b_offset b_len key_columns app] in E1, E2, E3, Hc.
  rewrite lookup_replicate_2 in Hc by lia. cbn in Hc.
  destruct (collect_results _ _) as [columns| |] eqn:Hcol; cbn [obind]; [|done..].
  assert (schema_fields schema ≠ []) as Hne by (intros Heq; rewrite Heq in Hf; cbn in Hf; lia).
  destruct (finish_first _ _ _ _ Hc Hne Hcol) as (a & Ha & Hav & Hat).
  destruct (batch_try_new _ _) as [x|ib] eqn:Hib; [done|]. intros [= <-].
  apply batch_of in Hib as ->. split; [|done]. rewrite E1, E2, E3. split.
  - exact (fixed_of_layout Boolean schema columns _ _ _ _ 0 (mkArray Boolean (dict_cell <$> rows)) eq_refl eq_refl).
  - exact (fixed_of_layout UInt64 schema columns _ _ _ _ 1 (mkArray UInt64 (offset_cell <$> rows)) eq_refl eq_refl).
  - exact (fixed_of_layout UInt64 schema columns _ _ _ _ 2 (mkArray UInt64 (len_cell <$> rows)) eq_refl eq_refl).
  - unfold index_num_rows. cbn [index_columns]. destruct columns as [|c columns]; [done|]. injection Ha as ->.
    cbn [app]. by rewrite Hav, length_fmap, (Forall2_length _ _ _ Hvs).
  - exists a, vs. cbn [index_columns]. rewrite lookup_app_l by (by eapply lookup_lt_Some). done.
Qed.

(** *** Reading the first keys back *)

Lemma first_keys_walk (rows : list index_row) (a : Array) (vs : list ScalarValue) pre suf pv sv :
  rows = pre ++ suf → vs = pv ++ sv → length pre = length pv → length suf = length sv →
  array_values a = scalar_value <$> vs → Forall (λ v, scalar_type v = array_type a) vs →
  first_keys (dict_cell <$> rows) a (seq (length pre) (length suf))
  = Ok (foldr (λ '(r, v) acc,
      match r.2 with
      | Some _ => if scalar_value v is Some _ then cons v <$> acc else None
      | None => acc
      end) (Some []) (zip (suf : list index_row) sv)).
Proof using Type.
  revert pre pv sv. induction suf as [|r suf IH]; intros pre pv [|v sv] Er Ev Hl Hs Hav Hat; try done.
  cbn [length seq first_keys zip zip_with foldr].
  assert ((dict_cell <$> rows) !! length pre = Some (dict_cell r)) as Hd.
  { rewrite list_lookup_fmap, Er, lookup_app_r, Nat.sub_diag by lia. done. }
  unfold bool_slot, slot. rewrite Hd. cbn [obind].
  assert (first_keys (dict_cell <$> rows) a (seq (S (length pre)) (length suf))
    = Ok (foldr (λ '(r, v) acc, match r.2 with
      | Some _ => if scalar_value v is Some _ then cons v <$> acc else None | None => acc end)
      (Some []) (zip (suf : list index_row) sv))) as IH'.
  { specialize (IH (pre ++ [r]) (pv ++ [v]) sv). rewrite length_app, Nat.add_1_r in IH.
    apply IH; [by rewrite <-app_assoc|by rewrite <-app_assoc|rewrite length_app; cbn; lia|cbn in Hs; lia|done..]. }
  destruct r as [ol [i|]]; unfold dict_cell; cbn [snd default from_option id negb Z.eqb].
  2:{ exact IH'. }
  assert (vs !! length pre = Some v) as Hv by (by rewrite Ev, lookup_app_r, Hl, Nat.sub_diag by lia).
  rewrite Hav, list_lookup_fmap, Hv. cbn [fmap option_fmap option_map].
  pose proof (Forall_lookup_1 _ _ _ _ Hat Hv) as Ht. destruct v as [t [x|]]; cbn in *; [|done].
  fold (dict_cell <$> rows). setoid_rewrite IH'. cbn [obind]. by subst t.
Qed.

(** The values of the first key column at the record batches *)
Lemma record_values keys (rows : list index_row) (vs : list ScalarValue) :
  Forall2 (first_cell keys) rows vs →
  ∃ ws, Forall2 (λ i v, ∃ key, keys !! i = Some key ∧ head (key_values key) = Some v) (omap snd rows) ws ∧
    (∀ w, w ∈ ws → w ∈ vs) ∧
    foldr (λ '(r, v) acc, match r.2 with
      | Some _ => if scalar_value v is Some _ then cons v <$> acc else None | None => acc end)
      (Some []) (zip rows vs)
    = if forallb (λ v, bool_decide (scalar_value v ≠ None)) ws then Some ws else None.
Proof using Type.
  induction 1 as [|r v rows vs Hc _ IH]; [by exists []|]. destruct IH as (ws & Hws & Hin & Hf).
  unfold first_cell in Hc. destruct r as [ol [i|]]; cbn [omap list_omap snd zip zip_with foldr] in *; rewrite Hf.
  - exists (v :: ws). split_and!; [by constructor| |].
    { intros w [->|?]%elem_of_cons; [left|right; by apply Hin]. }
    cbn [forallb].
    destruct (scalar_value v); [rewrite bool_decide_eq_true_2 by done|by rewrite bool_decide_eq_false_2 by naive_solver].
    cbn [andb]. by destruct (forallb _ ws).
  - exists ws. split_and!; [done| |done]. intros w ?. right. by apply Hin.
Qed.

Definition heads (keys : list BatchKey) (ws : list ScalarValue) : Prop :=
  Forall2 (λ key v, head (key_values key) = Some v) keys ws.

Lemma ordinals_heads keys ws :
  Forall2 (λ i v, ∃ key, keys !! i = Some key ∧ head (key_values key) = Some v)
    (seq 0 (length keys)) ws → heads keys ws.
Proof using Type.
  intros Hf. apply Forall2_lookup. intros i. rewrite Forall2_lookup in Hf. specialize (Hf i).
  destruct (decide (i < length keys)) as [Hlt|Hge].
  - rewrite lookup_seq_lt in Hf by done. inversion Hf as [? v (key & Hk & Hh)|]; subst.
    cbn in Hk. rewrite Hk. by constructor.
  - rewrite (proj2 (lookup_ge_None _ _)) in Hf by (rewrite length_seq; lia). inversion Hf.
    rewrite (proj2 (lookup_ge_None keys i)) by lia. constructor.
Qed.

(** The selection of an index: that of the first keys of its batches *)
Lemma index_selects `{!ScalarLaws} keys rows index :
  index_of keys rows index → omap snd rows = seq 0 (length keys) →
  ∃ ws d, heads keys ws ∧ Forall (λ w, scalar_type w = d) ws ∧
    ∀ lo hi desc, select_record_batches index lo hi desc
      = Ok (if forallb (λ v, bool_decide (scalar_value v ≠ None)) ws
            then let start := select_start ws lo desc in
                 Some (seq start (select_end ws hi desc `max` start - start))
            else None).
Proof using All.
  intros [Hd _ _ Hn (a & vs & Ha & Hav & Hcell & Hat)] Hord.
  destruct (record_values keys rows vs Hcell) as (ws & Hws & Hin & Hf). rewrite Hord in Hws.
  exists ws, (array_type a). split; [by apply ordinals_heads|]. split.
  { apply Forall_forall. intros w Hw. rewrite Forall_forall in Hat. by apply Hat, Hin. }
  intros lo hi desc. unfold select_record_batches. rewrite Hd, Ha, Hn. cbn [obind].
  pose proof (first_keys_walk rows a vs [] rows [] vs eq_refl eq_refl eq_refl
    (Forall2_length _ _ _ Hcell) Hav Hat) as Hk. cbn [length] in Hk. rewrite Hk, Hf. cbn [obind].
  by destruct (forallb _ ws).
Qed.
End built.

(** ** The rows of a selection *)

Lemma rposition_spec {A : Type} (p : A → bool) (l : list A) :
  match rposition p l with
  | Some i => ∃ x, l !! i = Some x ∧ p x = true
  | None => True
  end.
Proof.
  induction l as [|x l IH]; [done|]. cbn [rposition]. destruct (rposition p l) as [i|]; [done|].
  destruct (p x) eqn:Hx; [|done]. by exists x.
Qed.

Lemma sorted_across {A : Type} (R : A → A → Prop) (ls : list (list A)) i j li lj x y :
  StronglySorted R (concat ls) → i < j → ls !! i = Some li → ls !! j = Some lj →
  x ∈ li → y ∈ lj → R x y.
Proof.
  intros Hs Hij Hi Hj Hx Hy. rewrite <-(take_drop j ls), concat_app in Hs.
  apply StronglySorted_app in Hs as (Hb & _). apply Hb; apply elem_of_concat.
  - exists li. split; [done|]. apply list_elem_of_lookup. exists i. by rewrite lookup_take_lt.
  - exists lj. split; [done|]. apply list_elem_of_lookup. exists 0. by rewrite lookup_drop, Nat.add_0_r.
Qed.

Lemma sorted_within {A : Type} (R : A → A → Prop) (ls : list (list A)) i x l y :
  StronglySorted R (concat ls) → ls !! i = Some (x :: l) → y ∈ l → R x y.
Proof.
  intros Hs Hi Hy. rewrite <-(take_drop_middle ls i _ Hi), concat_app in Hs.
  apply StronglySorted_app in Hs as (_ & _ & Hs). cbn in Hs. inversion_clear Hs as [|? ? _ Hall].
  rewrite Forall_forall in Hall. apply Hall. apply elem_of_app. by left.
Qed.

Section selection.
Context `{ScalarOps, !ScalarLaws} `{ExprOps, !ExprLaws}.
Context (e : RoutingExpr) (n : native) (Hd : dispatch_sortable (type_of e) = Some n).
Context (first : bool).

Abbreviation sc v := (mkScalar (type_of e) (Some v)).
Abbreviation key := (row_key e).
Definition row_before (r s : Row) : Prop :=
  sorts_before (mkSortOptions false first) n (key r) (key s) = true.

(** Each batch starts with a row of the key. *)
Definition starts_with (batches : list (list Row)) (fs : list Z) : Prop :=
  Forall2 (λ b v, ∃ r rs, b = r :: rs ∧ key r = Some v) batches fs.

Lemma starts_ascending batches fs :
  StronglySorted row_before (concat batches) → starts_with batches fs → ascending n fs.
Proof using Type.
  intros Hs Hf i a b Hi Hj. unfold starts_with in Hf. rewrite Forall2_lookup in Hf.
  pose proof (Hf i) as Fi. pose proof (Hf (S i)) as Fj. rewrite Hi in Fi. rewrite Hj in Fj.
  inversion Fi as [bi ? (r & rs & -> & Hr) Ei|]; subst. inversion Fj as [bj ? (s & ss & -> & Hsk) Ej|]; subst.
  assert (row_before r s) as Hb by (eapply (sorted_across _ batches i (S i)); [done|lia|done|done|left|left]).
  unfold row_before in Hb. rewrite Hr, Hsk in Hb. cbn in Hb. by apply Z.leb_le.
Qed.

Abbreviation scs fs := ((λ v, sc v) <$> fs).

(** The rows a range keeps, which holds the NULLs of an open end *)
Definition kept (lo hi : option Z) (r : Row) : bool :=
  keeps n lo hi (if first then bool_decide (lo = None) else bool_decide (hi = None)) (key r).

Lemma precedes_lt a b : in_range n a → in_range n b → precedes false (sc a) (sc b) = (order_of n a <? order_of n b)%Z.
Proof using All.
  intros Ha Hb. unfold precedes. rewrite (cmp_values _ n) by done. unfold Z.ltb. by destruct (_ ?= _)%Z.
Qed.

(** The first batch of a selection starts at or before the range, if it is not the
    first of the file. *)
Lemma select_start_spec fs lo :
  Forall (in_range n) fs → from_option (in_range n) True lo →
  let start := select_start (scs fs) ((λ v, sc v) <$> lo) false in
  start = 0 ∨ ∃ l v, lo = Some l ∧ fs !! start = Some v ∧ (order_of n v ≤ order_of n l)%Z.
Proof using All.
  intros Hr Hl. destruct lo as [l|]; [|by left]. cbn [fmap option_fmap option_map select_start].
  pose proof (rposition_spec (λ k, negb (precedes false (sc l) k)) (scs fs)) as Hp.
  destruct (rposition _ _) as [i|]; [|by left]. right. destruct Hp as (x & Hx & Hp).
  rewrite list_lookup_fmap in Hx. destruct (fs !! i) as [v|] eqn:Hv; [|done]. injection Hx as <-.
  exists l, v. split_and!; [done..|]. rewrite precedes_lt in Hp by (done || by eapply Forall_lookup_1).
  apply negb_true_iff, Z.ltb_ge in Hp. done.
Qed.

(** The batches after a selection start at or after the end of the range. *)
Lemma select_end_spec fs hi i v :
  Forall (in_range n) fs → ascending n fs → from_option (in_range n) True hi →
  select_end (scs fs) ((λ v, sc v) <$> hi) false ≤ i → fs !! i = Some v →
  ∃ h, hi = Some h ∧ (order_of n h ≤ order_of n v)%Z.
Proof using All.
  intros Hr Ha Hh Hi Hv. destruct hi as [h|]; cbn [fmap option_fmap option_map select_end] in Hi.
  2:{ rewrite length_fmap in Hi. apply lookup_lt_Some in Hv. lia. }
  exists h. split; [done|].
  assert (length (filter (λ k, precedes false k (sc h) = true) (scs fs))
    = how_many (λ v, (order_of n v <? order_of n h)%Z) fs) as Hc.
  { apply (how_many_fmap (λ v, sc v) (λ k, precedes false k (sc h))). eapply Forall_impl; [done|].
    intros x Hx. by apply precedes_lt. }
  rewrite Hc in Hi. pose proof (below_position n fs (order_of n h) i v Ha Hv). lia.
Qed.

Lemma select_start_le fs lo : select_start (scs fs) lo false ≤ length fs.
Proof using Type.
  destruct lo as [l|]; cbn [select_start]; [|lia].
  pose proof (rposition_spec (λ k, negb (precedes false l k)) (scs fs)) as Hp.
  destruct (rposition _ _) as [i|]; [|cbn; lia]. destruct Hp as (x & Hx & _).
  apply lookup_lt_Some in Hx. rewrite length_fmap in Hx. cbn. lia.
Qed.

Lemma select_end_le fs hi : select_end (scs fs) hi false ≤ length fs.
Proof using Type.
  destruct hi as [h|]; cbn [select_end]; rewrite <-(length_fmap (λ v, sc v) fs); [apply length_filter|done].
Qed.

Section file.
Context (batches : list (list Row)) (fs : list Z) (lo hi : option Z).
Context (Hs : StronglySorted row_before (concat batches)) (Hf : starts_with batches fs).
Context (Hr : Forall (in_range n) fs).
Context (Hlo : from_option (in_range n) True lo) (Hhi : from_option (in_range n) True hi).

Abbreviation start := (select_start (scs fs) ((λ v, sc v) <$> lo) false).
Abbreviation stop := (select_end (scs fs) ((λ v, sc v) <$> hi) false).

Lemma batch_start i b : batches !! i = Some b → ∃ v r rs, fs !! i = Some v ∧ b = r :: rs ∧ key r = Some v.
Proof using Hf.
  intros Hb. pose proof (proj1 (Forall2_lookup _ _ _) Hf i) as Hi. rewrite Hb in Hi.
  inversion Hi as [b' v (r & rs & -> & Hk) Eb Ev|]; subst. by exists v, r, rs.
Qed.

(** The rows of the range before the selection are at its lower end, and then the
    selection starts there too. *)
Lemma lost_rows r :
  r ∈ concat (take start batches) → kept lo hi r = true →
  ∃ l v w, lo = Some l ∧ key r = Some v ∧ order_of n v = order_of n l ∧
    fs !! start = Some w ∧ order_of n w = order_of n l.
Proof using All.
  intros (b & Hb & [i Hi]%list_elem_of_lookup)%elem_of_concat Hk.
  destruct (select_start_spec fs lo Hr Hlo) as [Hz|(l & w & El & Hw & Hle)].
  { rewrite Hz, take_0 in Hi. done. }
  apply lookup_take_Some in Hi as [Hi Hlt].
  assert (is_Some (batches !! start)) as [bs Hbs].
  { apply lookup_lt_is_Some. rewrite (Forall2_length _ _ _ Hf). by eapply lookup_lt_Some. }
  destruct (batch_start _ _ Hbs) as (w' & s & ss & Hw' & -> & Hsk). rewrite Hw in Hw'. injection Hw' as <-.
  assert (row_before r s) as Hrs by (eapply (sorted_across _ batches i start); [done..|left]).
  unfold row_before in Hrs. rewrite Hsk in Hrs. unfold kept in Hk. rewrite El in *.
  destruct (key r) as [v|]; cbn [keeps sorts_before nulls_first descending] in *.
  - apply Z.leb_le in Hrs. apply andb_true_iff in Hk as [Hk _]. cbn in Hk. apply Z.leb_le in Hk.
    exists l, v, w. split_and!; try done; lia.
  - rewrite Hrs in Hk. by rewrite bool_decide_eq_false_2 in Hk.
Qed.

(** No row of the range is after the selection. *)
Lemma rows_after r :
  r ∈ concat (drop (stop `max` start) batches) → kept lo hi r = true → False.
Proof using All.
  intros (b & Hb & [i Hi]%list_elem_of_lookup)%elem_of_concat Hk. rewrite lookup_drop in Hi.
  pose proof (starts_ascending batches fs Hs Hf) as Ha.
  destruct (batch_start _ _ Hi) as (v & s & ss & Hv & -> & Hsk).
  destruct (select_end_spec fs hi (stop `max` start + i) v Hr Ha Hhi ltac:(lia) Hv) as (h & Eh & Hle). rewrite Eh in *.
  assert (row_before s r) as Hsr.
  { apply elem_of_cons in Hb as [->|Hb]; [|by eapply sorted_within].
    unfold row_before. rewrite Hsk. cbn. by apply Z.leb_le. }
  unfold row_before in Hsr. rewrite Hsk in Hsr. unfold kept in Hk.
  destruct (key r) as [x|]; cbn [keeps sorts_before nulls_first descending] in *.
  - apply Z.leb_le in Hsr. apply andb_true_iff in Hk as [_ Hk]. cbn in Hk. apply Z.ltb_lt in Hk. lia.
  - apply negb_true_iff in Hsr. rewrite Hsr in Hk. by rewrite bool_decide_eq_false_2 in Hk.
Qed.

Lemma selection_rows :
  filter (λ r, kept lo hi r = true) (concat batches)
  = filter (λ r, kept lo hi r = true) (concat (take start batches)) ++
    filter (λ r, kept lo hi r = true)
      (concat (take (stop `max` start - start) (drop start batches))).
Proof using All.
  rewrite <-(take_drop start batches) at 1.
  rewrite <-(take_drop (stop `max` start - start) (drop start batches)) at 1.
  rewrite !concat_app, !filter_app. rewrite drop_drop.
  replace (start + (stop `max` start - start)) with (stop `max` start) by lia.
  rewrite (filter_none _ (concat (drop (stop `max` start) batches)))
    by (intros r Hin Hk; exact (rows_after r Hin Hk)).
  by rewrite app_nil_r.
Qed.
End file.
End selection.

(** ** Files that were written *)

Lemma encoded_direction o os :
  String.prefix "desc" (split_first (encode_sort_options (o :: os))) = descending o.
Proof. destruct o as [[] []], os as [|o' os]; reflexivity. Qed.

Section written.
Context `{IndexOps, !ScalarOps, !ScalarLaws, !ExprLaws, !IndexLaws} `{RowFormat, !RowLaws}.
Context (e : RoutingExpr) (n : native) (Hd : dispatch_sortable (type_of e) = Some n).
Context (o : SortOptions) (rest : list (RoutingExpr * SortOptions)).

Abbreviation ordering := ((e, o) :: rest).
Abbreviation sc v := (mkScalar (type_of e) (Some v)).

Lemma collect_results_length {A B : Type} (f : A → result B) l bs :
  collect_results f l = Ok bs → length bs = length l.
Proof using Type.
  revert bs. induction l as [|a l IH]; cbn; intros bs; [by intros [= <-]|].
  destruct (f a) as [b| |]; cbn; [|done..]. destruct (collect_results f l) as [bs'| |] eqn:Hl; cbn; [|done..].
  intros [= <-]. cbn. f_equal. by apply IH.
Qed.

Lemma schema_written schema :
  index_schema ordering = Ok schema →
  4 < length (schema_fields schema) ∧ schema_descending schema = descending o.
Proof using Type.
  unfold index_schema. destruct (collect_results key_field ordering) as [fields| |] eqn:Hf; [|done..].
  cbn [obind]. intros [= <-]. cbn [schema_fields]. apply collect_results_length in Hf. split.
  - rewrite length_app, Hf. cbn. lia.
  - unfold schema_descending. cbn [schema_metadata]. rewrite lookup_singleton_eq. apply encoded_direction.
Qed.

Lemma drain_keys items batches keys bs ks :
  drain ordering items batches keys = Ok (bs, ks) →
  Forall2 (λ b k, key_for ordering b = Ok k) batches keys →
  Forall2 (λ b k, key_for ordering b = Ok k) bs ks.
Proof using Type.
  revert batches keys. induction items as [|item items IH]; intros batches keys; cbn [drain].
  { by intros [= <- <-]. }
  destruct item as [x|b]; cbn [poll_keyed]; [done|].
  destruct (key_for ordering b) as [key|err|] eqn:Hk; cbn [obind]; [|done..].
  intros Hd' Hf. apply (IH _ _ Hd'). by apply Forall2_app; [|repeat constructor].
Qed.

(** The head of the key of a batch: the key of its first row, or NULL *)
Lemma key_head b k w :
  key_for ordering b = Ok k → head (key_values k) = Some w →
  match b with
  | [] => scalar_value w = None
  | r :: _ => w = mkScalar (type_of e) (row_key e r)
  end.
Proof using All.
  unfold key_for. cbn [collect_results]. destruct (key_value b (e, o)) as [v| |] eqn:Hv; cbn [obind]; [|done..].
  destruct (collect_results _ rest) as [vs| |]; cbn [obind]; [|done..]. intros [= <-] [= <-].
  unfold key_value in Hv. destruct b as [|r b]; cbn [fst] in Hv.
  - destruct (expr_type e) as [x|d']; [done|]. destruct (null_scalar d') as [x|u] eqn:Hu; [done|].
    injection Hv as <-. by rewrite (null_of _ _ Hu).
  - destruct (column_of e [r]) as [x|a] eqn:Ha; [done|]. apply column_rows in Ha as ->.
    cbn in Hv. by injection Hv as <-.
Qed.

Lemma keys_start batches keys ws :
  Forall2 (λ b k, key_for ordering b = Ok k) batches keys → heads keys ws →
  forallb (λ v, bool_decide (scalar_value v ≠ None)) ws = true →
  ∃ fs, starts_with e batches fs ∧ ws = (λ v, sc v) <$> fs.
Proof using All.
  intros Hk. revert ws. induction Hk as [|b k batches keys Hb _ IH]; intros ws Hh Hall.
  { inversion Hh. exists []. split; [constructor|done]. }
  inversion Hh as [|? w ? ws' Hw Hh']; subst. cbn [forallb] in Hall.
  apply andb_true_iff in Hall as [Hw' Hall]. apply bool_decide_eq_true in Hw'.
  destruct (IH ws' Hh' Hall) as (fs & Hfs & ->). pose proof (key_head _ _ _ Hb Hw) as Hkey.
  destruct b as [|r b]; [done|]. subst w. cbn in Hw'. destruct (row_key e r) as [v|] eqn:Hr; [|done].
  exists (v :: fs). split; [|done]. constructor; [|done]. by exists r, b.
Qed.

(** A file and its index *)
Lemma written_index schema items write stats batches index :
  (∀ bs layout size, write bs = Ok (layout, size) → in_file_order layout) →
  index_schema ordering = Ok schema →
  write_partition ordering schema items write = Ok (stats, batches, index) →
  ∃ keys layout size, Forall2 (λ b k, key_for ordering b = Ok k) batches keys ∧
    index_of keys (sort_rows (layout_rows layout)) index ∧
    omap snd (sort_rows (layout_rows layout)) = seq 0 (length keys) ∧
    schema_descending (index_schema_of index) = descending o ∧
    write batches = Ok (layout, size) ∧ length (record_batches layout) = length batches.
Proof using All.
  intros Hw Hs. destruct (schema_written schema Hs) as [Hf Hdesc]. unfold write_partition, write_stream_to_ipc_file.
  destruct (drain ordering items [] []) as [[bs ks]| |] eqn:Hdr; cbn [ballista_err obind]; [|done..].
  destruct (write bs) as [[layout size]| |] eqn:Hwr; cbn [obind]; [|done..].
  destruct (Nat.eqb_spec (length (record_batches layout)) (length bs)) as [Hl|]; cbn [negb]; [|done].
  cbn [obind]. destruct (build_index_batch schema layout ks) as [ib| |] eqn:Hib; cbn [obind]; [|done..].
  intros [= <- <- <-]. exists ks, layout, size.
  destruct (built_index schema layout ks ib Hf Hib) as (Hio & Hsch & Hlen). split_and!; [|done| | |done..].
  - eapply drain_keys; [done|constructor].
  - rewrite <-Hlen. by eapply record_ordinals, Hw.
  - by rewrite Hsch.
Qed.
End written.

(** ** The bytes of a selection *)

Definition row_range (r : index_row) : ByteRange := mkByteRange r.1.1 r.1.2.
Definition block_range (b : MessageBlock) : ByteRange := mkByteRange (block_offset b) (block_len b).

(** The addresses of ranges, in the order they are fetched *)
Definition bytes (ranges : list ByteRange) : list N :=
  concat ((λ r, (λ i, (br_offset r + N.of_nat i)%N) <$> seq 0 (N.to_nat (br_length r))) <$> ranges).

Lemma bytes_cons r ranges :
  bytes (r :: ranges) = ((λ i, (br_offset r + N.of_nat i)%N) <$> seq 0 (N.to_nat (br_length r))) ++ bytes ranges.
Proof. done. Qed.

Lemma bytes_merge o a b ranges :
  bytes (mkByteRange o (a + b) :: ranges) = bytes (mkByteRange o a :: mkByteRange (o + a) b :: ranges).
Proof.
  rewrite !bytes_cons. cbn [br_offset br_length]. rewrite app_assoc. f_equal.
  rewrite N2Nat.inj_add, seq_app, fmap_app. f_equal.
  replace (seq (0 + N.to_nat a) (N.to_nat b)) with (Nat.add (N.to_nat a) <$> seq 0 (N.to_nat b))
    by (rewrite fmap_add_seq; f_equal; lia).
  rewrite <-list_fmap_compose.
  apply list_fmap_ext. intros _ i _. cbn. lia.
Qed.

Definition fits (r : ByteRange) : Prop := is_u64 (br_offset r + br_length r)%N.

Lemma coalesce_onto_bytes last ranges :
  fits last → Forall fits ranges → bytes (coalesce_onto last ranges) = bytes (last :: ranges).
Proof.
  intros Hl Hf. revert last Hl. induction Hf as [|r ranges Hr _ IH]; intros last Hl; [done|].
  cbn [coalesce_onto]. unfold fits, is_u64 in *. rewrite u64_add_exact by done.
  destruct (N.eqb_spec (br_offset last + br_length last) (br_offset r)) as [Heq|_].
  - rewrite u64_add_exact by lia. rewrite IH by (cbn; lia). rewrite bytes_merge, Heq.
    by destruct last, r.
  - by rewrite bytes_cons, IH, <-bytes_cons.
Qed.

Lemma coalesce_bytes ranges : Forall fits ranges → bytes (coalesce ranges) = bytes ranges.
Proof. destruct 1; [done|]. by apply coalesce_onto_bytes. Qed.

(** The ranges a walk collects *)
Fixpoint walked_dicts (last k : nat) (rows : list index_row) : list ByteRange :=
  match rows with
  | [] => []
  | r :: rows' =>
      match r.2 with
      | Some _ => walked_dicts last (S k) rows'
      | None => (if k <=? last then [row_range r] else []) ++ walked_dicts last k rows'
      end
  end.
Fixpoint walked_records (selected : list nat) (k : nat) (rows : list index_row) : list ByteRange :=
  match rows with
  | [] => []
  | r :: rows' =>
      match r.2 with
      | Some _ =>
          (if bool_decide (k ∈ selected) then [row_range r] else []) ++
          walked_records selected (S k) rows'
      | None => walked_records selected k rows'
      end
  end.

Lemma walk_rows_spec rows pre suf selected last k dicts records :
  rows = pre ++ suf → last ∈ selected → (last < k → records ≠ []) →
  walk_rows (dict_cell <$> rows) (offset_cell <$> rows) (len_cell <$> rows) selected last
    (seq (length pre) (length suf)) k dicts records
  = Ok (dicts ++ walked_dicts last k suf, records ++ walked_records selected k suf).
Proof.
  intros Er Hlast. revert pre k dicts records Er.
  induction suf as [|r suf IH]; intros pre k dicts records Er Hinv; cbn [length seq walk_rows].
  { by rewrite !app_nil_r. }
  assert (∀ f : index_row → option Z, (f <$> rows) !! length pre = Some (f r)) as Hat.
  { intros f. rewrite list_lookup_fmap, Er, lookup_app_r, Nat.sub_diag by lia. done. }
  unfold bool_slot, slot. rewrite !Hat. cbn [obind offset_cell len_cell default from_option id].
  rewrite !N2Z.id. fold (row_range r).
  specialize (IH (pre ++ [r])). rewrite length_app, Nat.add_1_r, <-app_assoc in IH.
  destruct r as [ol [i|]]; unfold dict_cell at 2; cbn [snd default from_option id negb Z.eqb walked_dicts walked_records].
  - rewrite (IH (S k)); [|done|].
    + f_equal. f_equal. case_bool_decide; [by rewrite <-app_assoc|done].
    + intros Hlt. case_bool_decide as Hin; [by destruct records|]. apply Hinv.
      destruct (decide (last = k)) as [->|]; [done|lia].
  - rewrite (IH k) by done. f_equal. f_equal. destruct (Nat.leb_spec k last) as [Hle|Hgt].
    + rewrite orb_true_r. by rewrite <-app_assoc.
    + rewrite bool_decide_eq_false_2 by (by apply Hinv). done.
Qed.

Definition row_selected (selected : list nat) (r : index_row) : bool :=
  match r.2 with Some i => bool_decide (i ∈ selected) | None => false end.

Lemma walked_records_filter selected k m rows :
  omap snd rows = seq k m →
  walked_records selected k rows = row_range <$> filter (λ r, row_selected selected r = true) rows.
Proof.
  revert k m. induction rows as [|[ol [i|]] rows IH]; intros k m; [done|..];
    cbn [omap list_omap snd walked_records]; intros Ho.
  - destruct m as [|m]; [done|]. cbn [seq] in Ho. injection Ho as -> Ho. rewrite (IH _ _ Ho).
    case_bool_decide as Hk; [rewrite filter_cons_True|rewrite filter_cons_False]; try done;
      unfold row_selected; cbn [snd]; by rewrite bool_decide_eq_true.
  - rewrite (IH _ _ Ho), filter_cons_False; done.
Qed.

(** The record batches of a selection *)
Lemma selected_blocks layout s c :
  in_file_order layout →
  filter (λ r, row_selected (seq s c) r = true) (sort_rows (layout_rows layout))
  = take c (drop s (imap (λ idx b, (block_offset b, block_len b, Some idx)) (record_batches layout))).
Proof.
  intros Hl. rewrite <-(sorted_records layout Hl).
  assert (∀ l, filter (λ r, row_selected (seq s c) r = true) l
    = filter (λ r, row_selected (seq s c) r = true) (filter is_record l)) as ->.
  { intros l. rewrite list_filter_filter. apply list_filter_iff. intros [? [i|]]; unfold row_selected; cbn; [|naive_solver].
    assert (is_Some (Some i)) by by eexists. naive_solver. }
  rewrite (sorted_records layout Hl). rewrite (filter_interval _ _ s (s + c)).
  - f_equal. lia.
  - intros i r Hr. rewrite list_lookup_imap in Hr. destruct (record_batches layout !! i); [|done].
    injection Hr as <-. unfold row_selected. cbn [snd]. rewrite bool_decide_eq_true, elem_of_seq. lia.
Qed.

Lemma walked_dicts_app last k pre suf :
  walked_dicts last k (pre ++ suf)
  = walked_dicts last k pre ++ walked_dicts last (k + length (omap snd pre)) suf.
Proof.
  revert k. induction pre as [|[ol [i|]] pre IH]; intros k; cbn [app walked_dicts omap list_omap snd length].
  - by rewrite Nat.add_0_r.
  - rewrite IH. do 2 f_equal. lia.
  - by rewrite IH, app_assoc.
Qed.

(** A dictionary before the last selected batch is collected. *)
Lemma dictionary_walked layout last b block :
  in_file_order layout → record_batches layout !! last = Some block →
  b ∈ dictionaries layout → (block_offset b < block_offset block)%N →
  block_range b ∈ walked_dicts last 0 (sort_rows (layout_rows layout)).
Proof.
  intros Hl Hblock Hb Hlt.
  assert ((block_offset b, block_len b, None) ∈ sort_rows (layout_rows layout)) as Hin.
  { rewrite sort_rows_perm. apply elem_of_app. left. apply list_elem_of_fmap. by exists b. }
  apply list_elem_of_split in Hin as (pre & suf & Hrows). rewrite Hrows, walked_dicts_app.
  apply elem_of_app. right. cbn [walked_dicts snd]. apply elem_of_app. left.
  rewrite (proj2 (Nat.leb_le _ _)); [left|]. apply Nat.nlt_ge. intros Hgt.
  pose proof (record_ordinals layout Hl) as Ho. rewrite Hrows, omap_app in Ho.
  assert (omap snd pre !! last = Some last) as Hlast.
  { rewrite <-(lookup_app_l _ (omap snd ((block_offset b, block_len b, None) :: suf))) by (cbn in Hgt; lia).
    rewrite Ho, lookup_seq_lt by (by eapply lookup_lt_Some). done. }
  apply list_elem_of_lookup_2, list_elem_of_omap in Hlast as (r & Hr & Er).
  pose proof (sort_rows_sorted (layout_rows layout)) as Hs. rewrite Hrows in Hs.
  apply StronglySorted_app in Hs as (Hle & _). specialize (Hle r (block_offset b, block_len b, None) Hr ltac:(left)).
  assert (r ∈ filter is_record (sort_rows (layout_rows layout))) as Hrec.
  { apply list_elem_of_filter. split; [by rewrite Er; eexists|]. rewrite Hrows. apply elem_of_app. by left. }
  rewrite sorted_records in Hrec by done. apply elem_of_lookup_imap in Hrec as (i & b' & -> & Hb').
  cbn in Er. injection Er as ->. rewrite Hblock in Hb'. injection Hb' as <-. cbn in Hle. lia.
Qed.

Lemma walked_dicts_subset last k rows range :
  range ∈ walked_dicts last k rows → ∃ r, r ∈ rows ∧ r.2 = None ∧ range = row_range r.
Proof.
  revert k. induction rows as [|[ol [i|]] rows IH]; intros k; cbn [walked_dicts snd].
  - by intros ?%elem_of_nil.
  - intros (r & ? & ?)%IH. exists r. split; [by right|done].
  - rewrite elem_of_app. intros [Hr|(r & ? & ?)%IH].
    + destruct (k <=? last); [|by apply elem_of_nil in Hr]. apply list_elem_of_singleton in Hr as ->.
      eexists. split_and!; [left|done..].
    + exists r. split; [by right|done].
Qed.

(** The request for a run of batches of a file *)
Lemma byte_ranges_of_run `{IndexOps, !ScalarOps, !ExprLaws, !IndexLaws} `{RowFormat, !RowLaws}
    keys layout index s c :
  index_of keys (sort_rows (layout_rows layout)) index → in_file_order layout →
  Forall (λ b, fits (block_range b)) (record_batches layout) →
  s + c < length (record_batches layout) →
  ∃ dicts merged, byte_ranges_for index (seq s (S c)) = Ok (Some (dicts ++ merged)) ∧
    bytes merged = bytes (block_range <$> take (S c) (drop s (record_batches layout))) ∧
    Forall (λ r, ∃ b, b ∈ dictionaries layout ∧ r = block_range b) dicts ∧
    ∀ b block, b ∈ dictionaries layout → record_batches layout !! (s + c) = Some block →
      (block_offset b < block_offset block)%N → block_range b ∈ dicts.
Proof.
  intros [Hd Ho Hl Hn _] Hfile Hfits Hlt. unfold byte_ranges_for.
  assert (last (seq s (S c)) = Some (s + c)) as -> by (by rewrite seq_S, last_snoc).
  rewrite Hd, Ho, Hl, Hn. cbn [obind]. set (rows := sort_rows (layout_rows layout)) in *.
  pose proof (walk_rows_spec rows [] rows (seq s (S c)) (s + c) 0 [] []) as Hw. cbn [length app] in Hw.
  rewrite Hw by (done || (apply elem_of_seq; lia) || lia). cbn [obind].
  assert (walked_records (seq s (S c)) 0 rows = block_range <$> take (S c) (drop s (record_batches layout))) as ->.
  { unfold rows. rewrite (walked_records_filter _ 0 _ _ (record_ordinals layout Hfile)), selected_blocks by done.
    rewrite fmap_take, fmap_drop, fmap_imap. rewrite fmap_take, fmap_drop. do 2 f_equal.
    rewrite <-(imap_const (λ b, block_range b)). done. }
  rewrite bool_decide_eq_false_2.
  2:{ intros Heq%(f_equal length). rewrite length_fmap, length_take, length_drop in Heq. cbn [length] in Heq. lia. }
  eexists _, _. split; [done|]. split_and!.
  - apply coalesce_bytes. apply Forall_fmap, Forall_take, Forall_drop. done.
  - apply Forall_forall. intros r (row & Hrow & Hnone & ->)%walked_dicts_subset.
    unfold rows in Hrow. rewrite sort_rows_perm in Hrow. apply elem_of_app in Hrow as [Hrow|Hrow].
    + apply list_elem_of_fmap in Hrow as (b & -> & ?). by exists b.
    + apply elem_of_lookup_imap in Hrow as (i & b & -> & _). done.
  - intros b block Hb Hblock Hoff. by eapply dictionary_walked.
Qed.

(** ** Runs of batches *)

Lemma collect_slots (rows pre suf : list index_row) :
  rows = pre ++ suf →
  collect_results (bool_slot (dict_cell <$> rows)) (seq (length pre) (length suf))
  = Ok ((λ r : index_row, if r.2 is Some _ then false else true) <$> suf).
Proof.
  revert pre. induction suf as [|r suf IH]; intros pre Er; cbn [length seq collect_results]; [done|].
  assert ((dict_cell <$> rows) !! length pre = Some (dict_cell r)) as Hat.
  { rewrite list_lookup_fmap, Er, lookup_app_r, Nat.sub_diag by lia. done. }
  unfold bool_slot at 1, slot. rewrite Hat. cbn [obind].
  specialize (IH (pre ++ [r])). rewrite length_app, Nat.add_1_r, <-app_assoc in IH.
  rewrite (IH Er). cbn [obind]. rewrite fmap_cons. by destruct r as [ol [i|]].
Qed.

Lemma index_counts `{IndexOps} `{RowFormat} keys rows index :
  index_of keys rows index → count_record_batches index = Ok (length (omap snd rows)).
Proof.
  intros [Hd _ _ Hn _]. unfold count_record_batches. rewrite Hd, Hn. cbn [obind].
  pose proof (collect_slots rows [] rows eq_refl) as Hc. cbn [length] in Hc. rewrite Hc. cbn [obind].
  f_equal. clear.
  induction rows as [|[ol [i|]] rows IH]; [done|..]; rewrite fmap_cons.
  - rewrite filter_cons_True by done. cbn. by f_equal.
  - rewrite filter_cons_False by done. done.
Qed.

Lemma selected_run {B : Type} (batches : list B) s c :
  s + c ≤ length batches → selected_batches batches (seq s c) = inr <$> take c (drop s batches).
Proof.
  revert s. induction c as [|c IH]; intros s Hs; [done|]. cbn [seq]. unfold selected_batches in *.
  rewrite fmap_cons, IH by lia. destruct (lookup_lt_is_Some_2 batches s) as [b Hb]; [lia|].
  rewrite Hb, (drop_S _ _ _ Hb). cbn [take]. done.
Qed.
