(* ===== verification/RuntimeStats.v ===== *)
(** * Runtime statistics of a stage

    Models the operator and the reports of
    [ballista/core/src/execution_plans/runtime_stats.rs]: counting and sketching the
    rows of each partition, the report of a task, the merge of the reports of a
    stage; the cuts a range repartition finds in its own input
    ([range_repartition_common.rs]); and the routing the scheduler recovers from the
    reports ([repartition_routing] of [ballista/scheduler/src/state/aqe/mod.rs]).

    A mutex is the value it guards: only a holder that panics poisons it. *)

From S2P Require Import Prelude Errors Machine Types Kll SortKey Range.
From stdpp Require Import numbers gmap.

(** The protobuf form of a sort expression: the direction and the place of the NULLs
    are read back, the rest only as bytes. *)
Class SortExprNodes `{ExprOps} : Type := {
  SortExprNode : Type;
  node_asc : SortExprNode → bool;
  node_nulls_first : SortExprNode → bool;
  node_bytes : SortExprNode → list N;
  serialize_sort_exprs : list (RoutingExpr * SortOptions) → fallible (list SortExprNode);
}.

(** Serialization keeps the number, the directions and the places of the NULLs. *)
Class SortExprLaws `{SortExprNodes} : Prop :=
  serialized_options l nodes : serialize_sort_exprs l = inr nodes →
    Forall2 (λ x node, node_asc node = negb (descending x.2) ∧
                       node_nulls_first node = nulls_first x.2) l nodes.

(** ** The operator *)

Module RuntimeStatsExec.
Record t `{ExprOps} `{Coins} : Type := mk {
  order_by : option (list (RoutingExpr * SortOptions));
  row_counts : list N;
  sort_key_sketches : option (list SortKeySketch.t);
}.

Section impl.
Context `{ExprOps} `{Coins}.
Implicit Types (self : t).

(** The partitions and the type of the first expression are those of the input; each
    sketch draws from a generator of its own. *)
Definition try_new (partitions : nat) (data_type : RoutingExpr → fallible DataType)
    (rng : nat → StdRng) (order_by : option (list (RoutingExpr * SortOptions))) : df_result t :=
  let? codec :=
    match order_by with
    | None => Ok None
    | Some [] =>
        Err (internal_err "RuntimeStatsExec: order_by is Some but empty; pass None to skip sketching")
    | Some ((expr, options) :: _) =>
        let? routing_type := of_sum (data_type expr) in
        match SortKeyCodec.try_new routing_type options with
        | Some codec => Ok (Some codec)
        | None => Err (internal_err "RuntimeStatsExec: no sort-key encoding for {routing_type:?}")
        end
    end in
  Ok (mk _ _ order_by (replicate partitions 0%N)
        ((λ c, (λ p, SortKeySketch.new c (rng p)) <$> seq 0 partitions) <$> codec)).

Definition row_count (partition : nat) self : df_result N :=
  match row_counts self !! partition with
  | Some n => Ok n
  | None => Err (internal_err "RuntimeStatsExec: partition {} out of range (have {})")
  end.

Definition partition_count self : nat := length (row_counts self).

Definition total_row_count self : N := foldl u64_add 0%N (row_counts self).

Definition sort_key_sketch (partition : nat) self : df_result (option SortKeySketch.t) :=
  match sort_key_sketches self with
  | None => Ok None
  | Some sketches =>
      match sketches !! partition with
      | Some s => Ok (Some s)
      | None => Err (internal_err "RuntimeStatsExec: partition {} out of range (have {})")
      end
  end.

(** Merging the snapshots one after the other *)
Fixpoint merge_all (merged : option SortKeySketch.t) (sketches : list SortKeySketch.t)
  : df_result (option SortKeySketch.t) :=
  match sketches with
  | [] => Ok merged
  | snapshot :: sketches' =>
      let? merged :=
        match merged with
        | Some accumulated => SortKeySketch.merge snapshot accumulated
        | None => Ok snapshot
        end in
      merge_all (Some merged) sketches'
  end.

Definition merged_sort_key_sketch self : df_result (option SortKeySketch.t) :=
  match sort_key_sketches self with
  | None => Ok None
  | Some sketches => merge_all None sketches
  end.

Definition routing_expr self : option RoutingExpr :=
  match order_by self with
  | Some ((expr, _) :: _) => Some expr
  | _ => None
  end.

(** The sketches after a batch of a partition *)
Definition ingest_sketches (partition : nat) (array : Array) self
  : df_result (option (list SortKeySketch.t)) :=
  match sort_key_sketches self with
  | None => Ok None
  | Some sketches =>
      match sketches !! partition with
      | None => Err (internal_err "RuntimeStatsExec: partition {} out of range on sort-key sketch slot")
      | Some sketch =>
          let? sketch := SortKeySketch.ingest array sketch in
          Ok (Some (<[partition := sketch]> sketches))
      end
  end.

(** The sketch is written before the rows are counted. *)
Definition ingest (partition : nat) (batch : list Row) self : df_result t :=
  match row_counts self !! partition with
  | None => Err (internal_err "RuntimeStatsExec: partition {} out of range (have {}) - execute() should have validated this")
  | Some count =>
      let? sketches :=
        match routing_expr self with
        | None => Ok (sort_key_sketches self)
        | Some expr =>
            let? array := of_sum (column_of expr batch) in
            ingest_sketches partition array self
        end in
      Ok (mk _ _ (order_by self)
            (<[partition := u64_add count (N.of_nat (length batch))]> (row_counts self)) sketches)
  end.

(** An item of the stream of a partition: what is forwarded, and the state after *)
Definition forward (partition : nat) (item : fallible (list Row)) self
  : df_result (list Row) * t :=
  match item with
  | inl e => (Err e, self)
  | inr batch =>
      match ingest partition batch self with
      | Ok self' => (Ok batch, self')
      | Err e => (Err e, self)
      | Panic => (Panic, self)
      end
  end.

Fixpoint forward_all (partition : nat) (items : list (fallible (list Row))) self
  : list (df_result (list Row)) * t :=
  match items with
  | [] => ([], self)
  | item :: items' =>
      let '(out, self) := forward partition item self in
      let '(outs, self) := forward_all partition items' self in
      (out :: outs, self)
  end.

Definition execute (partition : nat) (input : fallible (list (fallible (list Row)))) self
  : df_result (list (df_result (list Row)) * t) :=
  if length (row_counts self) <=? partition then
    Err (internal_err "RuntimeStatsExec: partition {} out of range (have {})")
  else
    let? items := of_sum input in
    Ok (forward_all partition items self).
End impl.
End RuntimeStatsExec.

(** ** Reports *)

Module RuntimeStatsReport.
Record t `{WireFormat} `{SortExprNodes} : Type := mk {
  order_by : list SortExprNode;
  partitions : list RuntimeStatsPartitionEntry.t;
  sketch : option SortKeySketchState;
}.
Arguments t {_ _ _}.
End RuntimeStatsReport.

Section report.
Context `{WireFormat} `{SortExprNodes} `{Coins}.

Definition extreme_to_proto (extreme : option ScalarValue) : df_result (list ProtoScalar) :=
  match extreme with
  | None => Ok []
  | Some value =>
      match scalar_to_proto value with
      | inr p => Ok [p]
      | inl _ => Err (internal_err "failed to encode key extreme {value:?}: {e:?}")
      end
  end.

Definition partition_entry (stats : RuntimeStatsExec.t) (partition_id : nat)
  : df_result RuntimeStatsPartitionEntry.t :=
  let? row_count := RuntimeStatsExec.row_count partition_id stats in
  let? sketch := RuntimeStatsExec.sort_key_sketch partition_id stats in
  let? keys :=
    match sketch with
    | None => Ok ([], [], 0%N)
    | Some sk =>
        let? lo := SortKeySketch.value_min sk in
        let? key_min := extreme_to_proto lo in
        let? hi := SortKeySketch.value_max sk in
        let? key_max := extreme_to_proto hi in
        Ok (key_min, key_max, SortKeySketch.null_count sk)
    end in
  let '(key_min, key_max, null_count) := keys in
  Ok (RuntimeStatsPartitionEntry.mk _ (N.of_nat partition_id `mod` 2 ^ 32)%N row_count
        key_min key_max null_count).

Definition stats_to_report (stats : RuntimeStatsExec.t) : df_result RuntimeStatsReport.t :=
  let? order_by :=
    match RuntimeStatsExec.order_by stats with
    | Some order_by => of_sum (serialize_sort_exprs order_by)
    | None => Ok []
    end in
  let? partitions :=
    SortKeySketch.collect (partition_entry stats) (seq 0 (RuntimeStatsExec.partition_count stats)) in
  let? merged := RuntimeStatsExec.merged_sort_key_sketch stats in
  let? sketch :=
    match merged with
    | Some sk =>
        if (0 <? SortKeySketch.count sk)%N
        then let? p := SortKeySketch.to_proto sk in Ok (Some p)
        else Ok None
    | None => Ok None
    end in
  Ok (RuntimeStatsReport.mk _ _ _ order_by partitions sketch).

(** *** Merging *)

Record MergedRuntimeStats : Type := mkMerged {
  m_order_by_len : nat;
  m_partition_count : nat;
  m_task_count : nat;
  m_total_rows : N;
  m_null_count : N;
  m_cuts : list ScalarValue;
  m_min : option ScalarValue;
  m_max : option ScalarValue;
  m_nulls_first : bool;
}.

Definition saturating_add (a b : N) : N := ((a + b) `min` (2 ^ 64 - 1))%N.

Definition add_rows (total : N) (entries : list RuntimeStatsPartitionEntry.t) : N :=
  foldl (λ n e, saturating_add n (RuntimeStatsPartitionEntry.row_count e)) total entries.

(** The loop over the reports: the rows and the merged sketch; [i] numbers the
    generators of the sketches read from the wire. *)
Fixpoint merge_sketches (options : option SortOptions) (rng : nat → StdRng) (i : nat)
    (group : list RuntimeStatsReport.t) (total_rows : N) (merged : option SortKeySketch.t)
  : df_result (N * option SortKeySketch.t) :=
  match group with
  | [] => Ok (total_rows, merged)
  | report :: group' =>
      let total_rows := add_rows total_rows (RuntimeStatsReport.partitions report) in
      match RuntimeStatsReport.sketch report with
      | None => merge_sketches options rng (S i) group' total_rows merged
      | Some state =>
          match options with
          | None =>
              Err (internal_err "runtime stats merge: a report carries a sketch with an empty order_by tag, so the key's ordering is unknown")
          | Some options' =>
              let? sketch := SortKeySketch.try_from_proto state options' (rng i) in
              let? merged :=
                match merged with
                | Some accumulated => SortKeySketch.merge sketch accumulated
                | None => Ok sketch
                end in
              merge_sketches options rng (S i) group' total_rows (Some merged)
          end
      end
  end.

Definition node_options (node : SortExprNode) : SortOptions :=
  mkSortOptions (negb (node_asc node)) (node_nulls_first node).

Definition merge_group (rng : nat → StdRng) (group : list RuntimeStatsReport.t)
  : df_result MergedRuntimeStats :=
  match group with
  | [] => Err (internal_err "runtime stats merge: empty group - merge_reports invariant broken")
  | first :: rest =>
      let partition_count := length (RuntimeStatsReport.partitions first) in
      let task_count := length group in
      if negb (forallb (λ r, length (RuntimeStatsReport.partitions r) =? partition_count) rest) then
        Err (internal_err "runtime stats merge: order_by_len={} mismatched partition counts across reports ({} vs {})")
      else
        let options := node_options <$> head (RuntimeStatsReport.order_by first) in
        let? looped := merge_sketches options rng 0 group 0 None in
        let '(total_rows, merged) := looped in
        let len := length (RuntimeStatsReport.order_by first) in
        let empty := mkMerged len partition_count task_count total_rows 0 [] None None false in
        match merged with
        | None => Ok empty
        | Some merged =>
            if (0 <? SortKeySketch.count merged)%N then
              let? cuts := SortKeySketch.cuts partition_count merged in
              let? min := SortKeySketch.min merged in
              let? max := SortKeySketch.max merged in
              Ok (mkMerged len partition_count task_count total_rows (SortKeySketch.null_count merged)
                    cuts min max (from_option nulls_first false options))
            else Ok empty
        end
  end.

Definition group_key (report : RuntimeStatsReport.t) : list N :=
  concat (node_bytes <$> RuntimeStatsReport.order_by report).

Definition group_reports (reports : list RuntimeStatsReport.t)
  : gmap (list N) (list RuntimeStatsReport.t) :=
  foldl (λ m r, <[group_key r := default [] (m !! group_key r) ++ [r]]> m) ∅ reports.

Definition merge_reports `{HashOrder} (rng : nat → StdRng) (reports : list RuntimeStatsReport.t)
  : df_result (list MergedRuntimeStats) :=
  match reports with
  | [] => Ok []
  | _ => SortKeySketch.collect (merge_group rng) (iter_entries (group_reports reports)).*2
  end.

(** ** Cuts and routing *)

(** [discover_cuts], for the operator [find_runtime_stats] found in the input *)
Definition discover_cuts (found : option RuntimeStatsExec.t) (output_partitions : nat)
  : df_result (list ScalarValue) :=
  match found with
  | None => Ok []
  | Some stats =>
      match RuntimeStatsExec.merged_sort_key_sketch stats with
      | Ok (Some sketch) =>
          if (SortKeySketch.count sketch =? 0)%N then Ok []
          else SortKeySketch.cuts output_partitions sketch
      | Ok None | Err _ => Ok []
      | Panic => Panic
      end
  end.

Record RangeRepartitionRouting : Type := mkRouting {
  r_cuts : list ScalarValue;
  r_nulls_first : bool;
  r_routing_expr : RoutingExpr;
}.

Definition repartition_routing `{HashOrder} (rng : nat → StdRng)
    (reports : list RuntimeStatsReport.t) (routing_expr : RoutingExpr)
  : result (option RangeRepartitionRouting) :=
  match reports with
  | [] => Err (General (Lit "range-repartition stage {stage_id}: no runtime-stats reports"))
  | _ =>
      let? merged :=
        match merge_reports rng reports with
        | Ok merged => Ok merged
        | Err _ => Err (General (Lit "range-repartition stage {stage_id}: merge_reports failed: {err}"))
        | Panic => Panic
        end in
      match merged with
      | [entry] =>
          if m_partition_count entry <? 2 then Ok None
          else if bool_decide (m_cuts entry = []) && negb (m_null_count entry =? m_total_rows entry)%N then
            Err (General (Lit "range-repartition stage {stage_id}: {} rows ({} NULL), K={}, but no cuts (sketch missed)"))
          else Ok (Some (mkRouting (m_cuts entry) (m_nulls_first entry) routing_expr))
      | _ => Err (General (Lit "range-repartition stage {stage_id}: merge_reports returned {} groups, expected 1"))
      end
  end.
End report.
