(* ===== verification/RuntimeStatsFacts.v ===== *)
(** * Lemmas on the statistics of a stage

    The operator observes the rows that pass it; its report describes them, and the
    merged reports give cuts that are keys of the rows. *)

From S2P Require Import Prelude Errors Machine Types Kll KllFacts KllOps KllQuery SortKey SortKeyFacts KeySketch.
From S2P Require Import Range RangeFacts RangeRouting RuntimeStats.
From stdpp Require Import numbers gmap.

(** ** The extremes of a column *)

Section extremes.
Context `{Coins} (c : SortKeyCodec.t) (n : native).
Abbreviation sc v := (mkScalar (SortKeyCodec.data_type c) (Some v)).

(** The least and the greatest value in the order of the column *)
Definition bounds_values (lo hi : option Z) (vs : list (option Z)) : Prop :=
  match lo, hi with
  | Some a, Some b =>
      Some a ∈ vs ∧ Some b ∈ vs ∧
      ∀ v, Some v ∈ vs → (sort_position c n a ≤ sort_position c n v ≤ sort_position c n b)%Z
  | None, None => ∀ v, Some v ∉ vs
  | _, _ => False
  end.

Lemma value_in_values vs v : Some v ∈ vs → v ∈ values_of vs.
Proof. intros Hv. unfold values_of. apply list_elem_of_omap. by exists (Some v). Qed.

Lemma decode_extreme_value s vs o :
  column_sketch c n s vs → (∀ k, o = Some k → k ∈ key_of c n <$> values_of vs) →
  ∃ v, SortKeySketch.decode_option (SortKeySketch.codec s) o = Ok ((λ v, sc v) <$> v) ∧
    match v with Some v => Some v ∈ vs ∧ o = Some (key_of c n v) | None => o = None end.
Proof.
  intros Hs Ho. rewrite (cs_codec _ _ _ _ Hs). destruct o as [k|]; [|by exists None].
  destruct (proj1 (list_elem_of_fmap _ _ _) (Ho k eq_refl)) as (v & -> & Hv). exists (Some v).
  cbn [SortKeySketch.decode_option]. rewrite (decode_key c n (cs_ok _ _ _ _ Hs)).
  - split; [done|]. split; [by apply values_some|done].
  - by eapply Forall_forall; [apply (cs_range _ _ _ _ Hs)|].
Qed.

Lemma column_extremes s vs :
  column_sketch c n s vs → is_u64 (N.of_nat (length vs)) →
  ∃ lo hi, SortKeySketch.value_min s = Ok ((λ v, sc v) <$> lo) ∧
    SortKeySketch.value_max s = Ok ((λ v, sc v) <$> hi) ∧ bounds_values lo hi vs.
Proof.
  intros Hs Hn. destruct (column_described c n s vs Hs Hn) as [_ _ Hlo Hhi].
  pose proof (cs_ok _ _ _ _ Hs) as Hok. pose proof (cs_range _ _ _ _ Hs) as Hr.
  assert (∀ v w, v ∈ values_of vs → w ∈ values_of vs → (key_of c n v ≤ key_of c n w)%N →
    (sort_position c n v ≤ sort_position c n w)%Z) as Hmono.
  { intros v w Hv Hw Hle. apply (key_order c n Hok); [by eapply Forall_forall..|done]. }
  destruct (decode_extreme_value s vs (KllSketch.min (SortKeySketch.sketch s)) Hs) as (lo & Elo & Vlo).
  { intros k Hk. rewrite Hk in Hlo. apply Hlo. }
  destruct (decode_extreme_value s vs (KllSketch.max (SortKeySketch.sketch s)) Hs) as (hi & Ehi & Vhi).
  { intros k Hk. rewrite Hk in Hhi. apply Hhi. }
  exists lo, hi. split_and!; [done..|]. unfold bounds_values.
  destruct lo as [a|], hi as [b|].
  - destruct Vlo as [Ha Ka], Vhi as [Hb Kb]. rewrite Ka in Hlo. rewrite Kb in Hhi. split_and!; [done..|].
    intros v Hv%value_in_values. destruct Hlo as [_ Hlo], Hhi as [_ Hhi].
    split; apply Hmono; try done; try (by apply value_in_values).
    + apply N.leb_le. exact (Hlo _ (list_elem_of_fmap_2 _ _ _ Hv)).
    + apply N.leb_le. exact (Hhi _ (list_elem_of_fmap_2 _ _ _ Hv)).
  - destruct Vlo as [Ha _]. rewrite Vhi in Hhi. cbn in Hhi. apply fmap_nil_inv in Hhi.
    apply value_in_values in Ha. rewrite Hhi in Ha. by apply elem_of_nil in Ha.
  - destruct Vhi as [Hb _]. rewrite Vlo in Hlo. cbn in Hlo. apply fmap_nil_inv in Hlo.
    apply value_in_values in Hb. rewrite Hlo in Hb. by apply elem_of_nil in Hb.
  - rewrite Vlo in Hlo. cbn in Hlo. apply fmap_nil_inv in Hlo. intros v Hv%value_in_values.
    rewrite Hlo in Hv. by apply elem_of_nil in Hv.
Qed.
End extremes.

(** ** What the operator has observed *)

Section observed.
Context `{ScalarOps} `{ExprOps, !ExprLaws} `{Coins}.
Context (e : RoutingExpr) (n : native) (Hd : dispatch_sortable (type_of e) = Some n).
Context (o : SortOptions) (rest : list (RoutingExpr * SortOptions)).

Abbreviation c := (SortKeyCodec.mk (type_of e) o).
Abbreviation keys rows := (row_key e <$> rows).

(** The rows that passed each partition *)
Record observes (stats : RuntimeStatsExec.t) (parts : list (list Row)) : Prop := {
  ob_order : RuntimeStatsExec.order_by stats = Some ((e, o) :: rest);
  ob_counts : RuntimeStatsExec.row_counts stats = (λ rows, N.of_nat (length rows)) <$> parts;
  ob_sketches : ∃ sketches, RuntimeStatsExec.sort_key_sketches stats = Some sketches ∧
    Forall2 (λ s rows, column_sketch c n s (keys rows)) sketches parts;
}.

Lemma observes_new partitions data_type rng :
  data_type e = inr (type_of e) →
  ∃ stats, RuntimeStatsExec.try_new partitions data_type rng (Some ((e, o) :: rest)) = Ok stats ∧
    observes stats (replicate partitions []).
Proof using Hd.
  intros Ht. unfold RuntimeStatsExec.try_new. rewrite Ht. cbn [of_sum obind].
  assert (SortKeyCodec.try_new (type_of e) o = Some c) as -> by (unfold SortKeyCodec.try_new; by rewrite Hd).
  cbn [obind]. eexists. split; [done|]. split; cbn.
  - done.
  - by rewrite fmap_replicate.
  - eexists. split; [done|]. apply Forall2_lookup. intros p. rewrite list_lookup_fmap.
    destruct (decide (p < partitions)) as [Hp|Hp].
    + rewrite lookup_seq_lt, lookup_replicate_2 by done. constructor. by apply column_new.
    + rewrite !(proj2 (lookup_ge_None _ _)) by (rewrite ?length_seq, ?length_replicate; lia). constructor.
Qed.

(** A batch that evaluates is counted and sketched in its partition. *)
Lemma observes_ingest stats parts p rows batch :
  observes stats parts → parts !! p = Some rows → evaluates e n batch →
  is_u64 (N.of_nat (length (rows ++ batch))) →
  ∃ stats', RuntimeStatsExec.ingest p batch stats = Ok stats' ∧
    observes stats' (<[p := rows ++ batch]> parts).
Proof using Hd.
  intros [Ho Hc (ss & Hss & Hf)] Hp [Hcol Hr] Hu. unfold RuntimeStatsExec.ingest.
  rewrite Hc, list_lookup_fmap, Hp. cbn [fmap option_fmap option_map].
  unfold RuntimeStatsExec.routing_expr. rewrite Ho, Hcol. cbn [of_sum obind].
  unfold RuntimeStatsExec.ingest_sketches. rewrite Hss.
  destruct (Forall2_lookup_r _ _ _ _ _ Hf Hp) as (s & Hs & Hcs). rewrite Hs.
  destruct (column_ingest c n s (keys rows) (keys batch) Hcs) as (s' & Hi & Hcs').
  { unfold values_of. apply Forall_forall. intros v Hv. apply list_elem_of_omap in Hv as (k & Hk & [= ->]).
    apply list_elem_of_fmap in Hk as (r & Hk & Hin). rewrite Forall_forall in Hr. specialize (Hr r Hin).
    by rewrite <-Hk in Hr. }
  { by rewrite <-fmap_app, length_fmap. }
  cbn [SortKeyCodec.data_type] in Hi. rewrite Hi. cbn [obind]. eexists. split; [done|]. split; cbn.
  - done.
  - rewrite list_fmap_insert. f_equal. rewrite length_app, Nat2N.inj_add. apply u64_add_exact.
    rewrite length_app in Hu. unfold is_u64 in Hu. lia.
  - eexists. split; [done|]. rewrite <-fmap_app in Hcs'. by apply Forall2_insert.
Qed.
End observed.

(** ** Reports *)

(** [collect] inverted *)
Lemma collect_inv {A B : Type} (f : A → df_result B) l bs :
  SortKeySketch.collect f l = Ok bs → Forall2 (λ a b, f a = Ok b) l bs.
Proof.
  revert bs. induction l as [|a l IH]; cbn [SortKeySketch.collect]; intros bs.
  { intros [= <-]. constructor. }
  destruct (f a) as [b| |] eqn:Hb; cbn [obind]; [|done..].
  destruct (SortKeySketch.collect f l) as [bs'| |]; cbn [obind]; [|done..]. intros [= <-].
  constructor; [done|by apply IH].
Qed.

Section reported.
Context `{ScalarOps} `{ExprOps, !ExprLaws} `{Coins} `{WireFormat} `{!SortExprNodes}.
Context (e : RoutingExpr) (n : native) (Hd : dispatch_sortable (type_of e) = Some n).
Context (o : SortOptions) (rest : list (RoutingExpr * SortOptions)).

Abbreviation c := (SortKeyCodec.mk (type_of e) o).
Abbreviation sc v := (mkScalar (type_of e) (Some v)).
Abbreviation keys rows := (row_key e <$> rows).
Abbreviation entry := RuntimeStatsPartitionEntry.t.

(** The wire form of an extreme *)
Definition extreme_is (v : option Z) (protos : list ProtoScalar) : Prop :=
  match v with
  | None => protos = []
  | Some a => ∃ p, protos = [p] ∧ scalar_from_proto p = inr (sc a)
  end.

Definition entry_of (p : nat) (rows : list Row) (en : entry) : Prop :=
  RuntimeStatsPartitionEntry.partition_id en = (N.of_nat p `mod` 2 ^ 32)%N ∧
  RuntimeStatsPartitionEntry.row_count en = N.of_nat (length rows) ∧
  RuntimeStatsPartitionEntry.null_count en = nulls_in (keys rows) ∧
  ∃ lo hi, bounds_values c n lo hi (keys rows) ∧
    extreme_is lo (RuntimeStatsPartitionEntry.key_min en) ∧
    extreme_is hi (RuntimeStatsPartitionEntry.key_max en).

Lemma extreme_sent v protos : extreme_to_proto ((λ v, sc v) <$> v) = Ok protos → extreme_is v protos.
Proof using Type.
  destruct v as [a|]; cbn; [|by intros [= <-]].
  destruct (scalar_to_proto (sc a)) as [x|p] eqn:Hp; [done|]. intros [= <-]. exists p.
  split; [done|]. by apply scalar_from_to.
Qed.

Lemma entry_sent stats parts p rows en :
  observes e n o rest stats parts → parts !! p = Some rows → is_u64 (N.of_nat (length rows)) →
  partition_entry stats p = Ok en → entry_of p rows en.
Proof using Type.
  intros [_ Hc (ss & Hss & Hf)] Hp Hu. unfold partition_entry, RuntimeStatsExec.row_count.
  rewrite Hc, list_lookup_fmap, Hp. cbn [fmap option_fmap option_map obind].
  unfold RuntimeStatsExec.sort_key_sketch. rewrite Hss.
  destruct (Forall2_lookup_r _ _ _ _ _ Hf Hp) as (s & Hs & Hcs). rewrite Hs. cbn [obind].
  destruct (column_extremes c n s (keys rows) Hcs) as (lo & hi & -> & -> & Hb); [by rewrite length_fmap|].
  cbn [obind SortKeyCodec.data_type].
  destruct (extreme_to_proto ((λ v, sc v) <$> lo)) as [plo| |] eqn:Hlo; cbn [obind]; [|done..].
  destruct (extreme_to_proto ((λ v, sc v) <$> hi)) as [phi| |] eqn:Hhi; cbn [obind]; [|done..].
  intros [= <-]. split_and!; [done..|apply (cs_nulls _ _ _ _ Hcs)|].
  exists lo, hi. split_and!; [done|by apply extreme_sent..].
Qed.

Lemma merge_all_spec acc vs (ss : list SortKeySketch.t) parts :
  column_sketch c n acc vs → Forall2 (λ s rows, column_sketch c n s (keys rows)) ss parts →
  is_u64 (N.of_nat (length (vs ++ keys (concat parts)))) →
  ∃ s', RuntimeStatsExec.merge_all (Some acc) ss = Ok (Some s') ∧
    column_sketch c n s' (vs ++ keys (concat parts)).
Proof using Type.
  intros Ha Hf. revert acc vs Ha. induction Hf as [|s rows ss parts Hs _ IH]; intros acc vs Ha Hu.
  { exists acc. cbn. by rewrite app_nil_r. }
  cbn [concat RuntimeStatsExec.merge_all] in *. rewrite fmap_app, app_assoc in Hu |- *.
  destruct (column_merge c n acc s vs (keys rows) Ha Hs) as (m & -> & Hm).
  { revert Hu. unfold is_u64. rewrite !length_app. lia. }
  cbn [obind]. by apply IH.
Qed.

Lemma merged_sketch stats parts :
  observes e n o rest stats parts → parts ≠ [] → is_u64 (N.of_nat (length (concat parts))) →
  ∃ s, RuntimeStatsExec.merged_sort_key_sketch stats = Ok (Some s) ∧
    column_sketch c n s (keys (concat parts)).
Proof using Type.
  intros [_ _ (ss & Hss & Hf)] Hne Hu. unfold RuntimeStatsExec.merged_sort_key_sketch. rewrite Hss.
  destruct Hf as [|s rows ss parts Hs Hf]; [done|]. cbn [RuntimeStatsExec.merge_all obind concat] in *.
  rewrite fmap_app. apply merge_all_spec; [done..|]. by rewrite <-fmap_app, length_fmap.
Qed.

(** A report of the rows of each partition *)
Record reports_rows (report : RuntimeStatsReport.t) (parts : list (list Row)) : Prop := {
  rr_order : serialize_sort_exprs ((e, o) :: rest) = inr (RuntimeStatsReport.order_by report);
  rr_length : length (RuntimeStatsReport.partitions report) = length parts;
  rr_entries : ∀ p rows, parts !! p = Some rows →
    ∃ en, RuntimeStatsReport.partitions report !! p = Some en ∧ entry_of p rows en;
  rr_sketch : match RuntimeStatsReport.sketch report with
              | None => concat parts = []
              | Some st => ∃ s, column_sketch c n s (keys (concat parts)) ∧ SortKeySketch.to_proto s = Ok st
              end;
}.

Lemma length_concat_part (parts : list (list Row)) p rows :
  parts !! p = Some rows → length rows ≤ length (concat parts).
Proof using Type.
  intros Hp. rewrite <-(take_drop_middle parts p rows Hp), concat_app. cbn. rewrite !length_app. lia.
Qed.

Lemma report_sent stats parts report :
  observes e n o rest stats parts → parts ≠ [] → is_u64 (N.of_nat (length (concat parts))) →
  stats_to_report stats = Ok report → reports_rows report parts.
Proof using Type.
  intros Hob Hne Hu. destruct (merged_sketch stats parts Hob Hne Hu) as (s & Hm & Hs).
  destruct (id Hob) as [Ho Hc _].
  unfold stats_to_report. rewrite Ho.
  destruct (serialize_sort_exprs ((e, o) :: rest)) as [x|nodes] eqn:Hser; cbn [of_sum obind]; [done|].
  destruct (SortKeySketch.collect _ _) as [ens| |] eqn:Hens; cbn [obind]; [|done..].
  rewrite Hm. cbn [obind]. destruct (column_counts c n s _ Hs) as [_ Hcount]; [by rewrite length_fmap|].
  rewrite Hcount, length_fmap. intros Hrep.
  apply collect_inv in Hens. unfold RuntimeStatsExec.partition_count in Hens. rewrite Hc, length_fmap in Hens.
  pose proof (Forall2_length _ _ _ Hens) as Hlen. rewrite length_seq in Hlen.
  assert (∀ p rows, parts !! p = Some rows → ∃ en, ens !! p = Some en ∧ entry_of p rows en) as Hent.
  { intros p rows Hp. pose proof (lookup_lt_Some _ _ _ Hp) as Hlt.
    destruct (Forall2_lookup_l _ _ _ p p Hens) as (en & Hen & Hpe); [by rewrite lookup_seq_lt|].
    exists en. split; [done|]. eapply entry_sent; [done..| |done].
    pose proof (length_concat_part parts p rows Hp). unfold is_u64 in *. lia. }
  destruct (N.ltb_spec 0 (N.of_nat (length (concat parts)))) as [Hpos|Hz].
  - destruct (SortKeySketch.to_proto s) as [st| |] eqn:Hst; cbn [obind] in Hrep; [|done..].
    injection Hrep as <-. split; cbn; [done..|]. by exists s.
  - injection Hrep as <-. split; cbn; [done..|]. apply nil_length_inv. lia.
Qed.
End reported.

(** ** Merging reports *)

Section merged.
Context `{ScalarOps} `{ExprOps, !ExprLaws} `{Coins} `{WireFormat} `{!SortExprNodes, !SortExprLaws}.
Context (e : RoutingExpr) (n : native) (Hd : dispatch_sortable (type_of e) = Some n).
Context (o : SortOptions) (rest : list (RoutingExpr * SortOptions)).

Abbreviation c := (SortKeyCodec.mk (type_of e) o).
Abbreviation sc v := (mkScalar (type_of e) (Some v)).
Abbreviation keys rows := (row_key e <$> rows).
Abbreviation reported := (reports_rows e n o rest).
Abbreviation report := RuntimeStatsReport.t.

Lemma report_rows_total (r : report) parts total :
  reported r parts → is_u64 (total + N.of_nat (length (concat parts)))%N →
  add_rows total (RuntimeStatsReport.partitions r) = (total + N.of_nat (length (concat parts)))%N.
Proof using Type.
  intros [_ Hlen Hent _].
  assert (Forall2 (λ en rows, RuntimeStatsPartitionEntry.row_count en = N.of_nat (length rows))
    (RuntimeStatsReport.partitions r) parts) as Hf.
  { apply Forall2_same_length_lookup_2; [done|]. intros p en rows He Hp.
    destruct (Hent p rows Hp) as (en' & He' & _ & Hc & _). congruence. }
  clear Hlen Hent. revert total. unfold add_rows.
  induction Hf as [|en rows ens parts' He _ IH]; intros total Hu; cbn [foldl concat].
  { cbn. lia. }
  cbn [concat] in Hu. rewrite length_app, Nat2N.inj_add in Hu |- *. unfold is_u64 in Hu.
  unfold saturating_add at 2. rewrite He, N.min_l by lia. rewrite IH by (unfold is_u64; lia). lia.
Qed.

(** The rows of all reports *)
Definition all_rows (partss : list (list (list Row))) : list Row :=
  foldr (λ parts rows, concat parts ++ rows) [] partss.

Definition merged_is (m : option SortKeySketch.t) (vs : list (option Z)) : Prop :=
  match m with
  | None => vs = []
  | Some s => column_sketch c n s vs
  end.

Lemma merge_sketches_spec rng group partss i total m vs :
  Forall2 reported group partss → merged_is m vs →
  is_u64 (N.of_nat (length (vs ++ keys (all_rows partss)))) →
  is_u64 (total + N.of_nat (length (all_rows partss)))%N →
  ∃ m', merge_sketches (Some o) rng i group total m
      = Ok ((total + N.of_nat (length (all_rows partss)))%N, m') ∧
    merged_is m' (vs ++ keys (all_rows partss)).
Proof using Type.
  intros Hf. revert i total m vs. induction Hf as [|r parts group partss Hr _ IH];
    intros i total m vs Hm Hu Ht; cbn [merge_sketches].
  { exists m. cbn. rewrite app_nil_r, N.add_0_r. done. }
  change (all_rows (parts :: partss)) with (concat parts ++ all_rows partss) in *.
  rewrite length_app, Nat2N.inj_add in Ht |- *. rewrite fmap_app, app_assoc in Hu |- *.
  rewrite (report_rows_total r parts total Hr) by (revert Ht; unfold is_u64; lia).
  assert (is_u64 (N.of_nat (length (vs ++ keys (concat parts))))) as Hu1
    by (revert Hu; unfold is_u64; rewrite !length_app; lia).
  rewrite N.add_assoc in Ht |- *.
  pose proof (rr_sketch _ _ _ _ _ _ Hr) as Hsk. destruct (RuntimeStatsReport.sketch r) as [st|].
  - destruct Hsk as (s & Hs & Hst). assert (is_u64 (N.of_nat (length (keys (concat parts))))) as Hu2
      by (revert Hu1; unfold is_u64; rewrite !length_app; lia).
    destruct (column_wire c n s _ st (rng i) Hs Hu2 Hst) as (s' & Hs' & Hcs' & _).
    cbn [SortKeyCodec.options] in Hs'. rewrite Hs'. cbn [obind]. destruct m as [acc|].
    + destruct (column_merge c n acc s' vs _ Hm Hcs' Hu1) as (acc' & -> & Hacc). cbn [obind].
      by apply IH.
    + cbn [obind]. cbn in Hm. subst vs. by apply IH.
  - rewrite Hsk in *. rewrite app_nil_r in Hu1, Hu |- *. by apply IH.
Qed.

(** The tag of the reports gives the order of the key back. *)
Lemma tag_options nodes :
  serialize_sort_exprs ((e, o) :: rest) = inr nodes → node_options <$> head nodes = Some o.
Proof using All.
  intros Hs%serialized_options. inversion Hs as [|? node ? ? [Ha Hn]]; subst. cbn.
  unfold node_options. rewrite Ha, Hn, negb_involutive. by destruct o.
Qed.

(** The cuts of the merged reports: keys of rows, one less than partitions, or none
    if no row has a key *)
Definition cuts_of (P : nat) (rows : list Row) (cs : list Z) : Prop :=
  Forall (λ v, Some v ∈ keys rows) cs ∧
  (∀ i a b, cs !! i = Some a → cs !! S i = Some b → (sort_position c n a ≤ sort_position c n b)%Z) ∧
  (if bool_decide (values_of (keys rows) = []) then cs = [] else length cs = P - 1).

Lemma extreme_total s vs b ext :
  column_sketch c n s vs → (∀ k, ext = Some k → k ∈ key_of c n <$> values_of vs) →
  ∃ v, SortKeySketch.extreme s b ext = Ok v.
Proof using Type.
  intros Hs He. unfold SortKeySketch.extreme. case_match; [by eexists|].
  destruct (decode_extreme_value c n s vs ext Hs He) as (v & Hv & _). by eexists.
Qed.

(** The answer for a merged sketch of some rows *)
Lemma merged_cuts s rows P len tasks total :
  column_sketch c n s (keys rows) → is_u64 (N.of_nat (length rows)) → 2 ≤ P →
  ∃ m cs,
    (let? cuts := SortKeySketch.cuts P s in
     let? min := SortKeySketch.min s in
     let? max := SortKeySketch.max s in
     Ok (mkMerged len P tasks total (SortKeySketch.null_count s) cuts min max
           (from_option nulls_first false (Some o)))) = Ok m ∧
    m_partition_count m = P ∧ m_total_rows m = total ∧
    m_cuts m = (λ v, sc v) <$> cs ∧ cuts_of P rows cs ∧ m_null_count m = nulls_in (keys rows) ∧
    (rows ≠ [] → m_nulls_first m = nulls_first o).
Proof using Type.
  intros Hs Hu HP. assert (is_u64 (N.of_nat (length (keys rows)))) as Hu' by by rewrite length_fmap.
  assert (∃ cs, SortKeySketch.cuts P s = Ok ((λ v, sc v) <$> cs) ∧ cuts_of P rows cs) as (cs & -> & Hcs).
  { unfold cuts_of. case_bool_decide as Hv.
    - exists []. destruct (column_counts c n s _ Hs Hu') as [Hc _]. unfold SortKeySketch.cuts. rewrite Hc, Hv.
      rewrite orb_true_r. split; [done|]. split_and!; [constructor|done..].
    - destruct (column_cuts c n s _ P Hs Hu' HP Hv) as (cs & Hcs & Hl & Hin & Ha). by exists cs. }
  destruct (column_described c n s _ Hs Hu') as [_ _ Hlo Hhi].
  destruct (extreme_total s _ (nulls_first (SortKeyCodec.options (SortKeySketch.codec s)))
    (KllSketch.min (SortKeySketch.sketch s)) Hs) as [lo Elo].
  { intros k Hk. rewrite Hk in Hlo. apply Hlo. }
  destruct (extreme_total s _ (negb (nulls_first (SortKeyCodec.options (SortKeySketch.codec s))))
    (KllSketch.max (SortKeySketch.sketch s)) Hs) as [hi Ehi].
  { intros k Hk. rewrite Hk in Hhi. apply Hhi. }
  unfold SortKeySketch.min, SortKeySketch.max. rewrite Elo, Ehi. cbn [obind].
  eexists _, cs. split; [done|]. cbn. split_and!; try done. apply (cs_nulls _ _ _ _ Hs).
Qed.

Lemma merge_group_spec rng group partss P :
  Forall2 reported group partss → group ≠ [] → Forall (λ parts, length parts = P) partss → 2 ≤ P →
  is_u64 (N.of_nat (length (all_rows partss))) →
  ∃ m cs, merge_group rng group = Ok m ∧ m_partition_count m = P ∧
    m_total_rows m = N.of_nat (length (all_rows partss)) ∧
    m_cuts m = (λ v, sc v) <$> cs ∧ cuts_of P (all_rows partss) cs ∧
    m_null_count m = nulls_in (keys (all_rows partss)) ∧
    (all_rows partss ≠ [] → m_nulls_first m = nulls_first o).
Proof using All.
  intros Hf Hne HP HP2 Hu. destruct group as [|first others]; [done|]. cbn [merge_group].
  assert (∀ r, r ∈ first :: others → length (RuntimeStatsReport.partitions r) = P) as Hlen.
  { intros r [i Hi]%list_elem_of_lookup. destruct (Forall2_lookup_l _ _ _ _ _ Hf Hi) as (parts & Hp & Hr).
    rewrite (rr_length _ _ _ _ _ _ Hr). by eapply Forall_lookup_1 in HP. }
  rewrite (Hlen first) by left.
  assert (forallb (λ r, length (RuntimeStatsReport.partitions r) =? P) others = true) as ->.
  { apply forallb_forall. intros r Hr. apply Nat.eqb_eq, Hlen. right. by apply list_elem_of_In. }
  cbn [negb].
  assert (node_options <$> head (RuntimeStatsReport.order_by first) = Some o) as Ho.
  { apply tag_options. inversion Hf as [|? ? ? ? Hr]; subst. apply Hr. }
  rewrite Ho. destruct (merge_sketches_spec rng (first :: others) partss 0 0 None [] Hf eq_refl)
    as (m' & Hm & His); [cbn [app]; by rewrite length_fmap|done|].
  rewrite Hm. cbn [obind]. rewrite N.add_0_l. cbn [app] in His.
  destruct m' as [s|]; cbn in His.
  - pose proof (column_counts c n s _ His) as Hcnt. rewrite length_fmap in Hcnt. destruct (Hcnt Hu) as [Hkc ->].
    destruct (N.ltb_spec 0 (N.of_nat (length (all_rows partss)))) as [Hpos|Hz].
    + by apply merged_cuts.
    + assert (all_rows partss = []) as Hnil by (apply nil_length_inv; lia).
      eexists _, []. split; [done|]. rewrite Hnil. by split_and!.
  - apply fmap_nil_inv in His. eexists _, []. split; [done|]. rewrite His. by split_and!.
Qed.

Lemma group_one (k : list N) (reports : list report) :
  reports ≠ [] → Forall (λ r, group_key r = k) reports → group_reports reports = {[k := reports]}.
Proof using Type.
  intros Hne Hk. unfold group_reports.
  assert (∀ l pre, Forall (λ r, group_key r = k) l →
    foldl (λ (m : gmap (list N) (list report)) r,
      <[group_key r := default [] (m !! group_key r) ++ [r]]> m) {[k := pre]} l = {[k := pre ++ l]}) as Hgo.
  { intros l pre Hl. revert pre. induction Hl as [|r l Hr _ IH]; intros pre; cbn [foldl]; [by rewrite app_nil_r|].
    rewrite Hr, lookup_singleton_eq, insert_singleton_eq. cbn [default from_option id].
    by rewrite IH, <-app_assoc. }
  destruct Hk as [|r reports Hr Hk]; [done|]. cbn [foldl]. rewrite Hr, lookup_empty. cbn [default from_option id app].
  rewrite insert_empty. by apply (Hgo reports [r]).
Qed.

Context `{HashOrder}.

Lemma merge_reports_spec rng reports partss P :
  Forall2 reported reports partss → reports ≠ [] → Forall (λ parts, length parts = P) partss → 2 ≤ P →
  is_u64 (N.of_nat (length (all_rows partss))) →
  ∃ m, merge_reports rng reports = Ok [m] ∧ merge_group rng reports = Ok m.
Proof using All.
  intros Hf Hne HP HP2 Hu.
  destruct (merge_group_spec rng reports partss P Hf Hne HP HP2 Hu) as (m & _ & Hm & _).
  exists m. split; [|done]. unfold merge_reports.
  assert (∃ k, Forall (λ r, group_key r = k) reports) as [k Hk].
  { destruct (serialize_sort_exprs ((e, o) :: rest)) as [x|nodes] eqn:Hser.
    - destruct Hf as [|r parts reports partss Hr _]; [done|]. pose proof (rr_order _ _ _ _ _ _ Hr). congruence.
    - exists (concat (node_bytes <$> nodes)). apply Forall_forall. intros r [i Hi]%list_elem_of_lookup.
      destruct (Forall2_lookup_l _ _ _ _ _ Hf Hi) as (parts & _ & Hr).
      pose proof (rr_order _ _ _ _ _ _ Hr) as Ho. unfold group_key. congruence. }
  destruct reports as [|r reports']; [done|].
  rewrite (group_one k (r :: reports')) by done. set (reports := r :: reports') in *.
  assert ((iter_entries {[k := reports]}) = [(k, reports)]) as ->.
  { apply Permutation_singleton_r. rewrite iter_entries_perm. by rewrite map_to_list_singleton. }
  cbn [fmap list_fmap snd SortKeySketch.collect]. by rewrite Hm.
Qed.

(** The scheduler recovers a routing from the reports of a stage. *)
Lemma routing_recovered rng reports partss P expr :
  Forall2 reported reports partss → reports ≠ [] → Forall (λ parts, length parts = P) partss → 2 ≤ P →
  is_u64 (N.of_nat (length (all_rows partss))) →
  ∃ cs first, repartition_routing rng reports expr
      = Ok (Some (mkRouting ((λ v, sc v) <$> cs) first expr)) ∧
    cuts_of P (all_rows partss) cs ∧ (all_rows partss ≠ [] → first = nulls_first o).
Proof using All.
  intros Hf Hne HP HP2 Hu.
  destruct (merge_reports_spec rng reports partss P Hf Hne HP HP2 Hu) as (m & Hmr & Hmg).
  destruct (merge_group_spec rng reports partss P Hf Hne HP HP2 Hu)
    as (m' & cs & Hm & Hpc & Htot & Hcuts & Hcs & Hnull & Hfirst).
  rewrite Hmg in Hm. injection Hm as <-. exists cs, (m_nulls_first m). split; [|done].
  unfold repartition_routing. destruct reports as [|r reports']; [done|]. rewrite Hmr. cbn [obind].
  rewrite Hpc, (proj2 (Nat.ltb_ge _ _)) by lia. rewrite Hcuts, Hnull, Htot.
  case_bool_decide as Hnil; cbn [andb]; [|done]. apply fmap_nil_inv in Hnil as ->.
  destruct Hcs as (_ & _ & Hlen). case_bool_decide as Hv; [|cbn in Hlen; lia].
  pose proof (values_nulls (keys (all_rows partss))) as Hvn. rewrite Hv, length_fmap in Hvn. cbn in Hvn.
  rewrite (proj2 (N.eqb_eq _ _)) by lia. done.
Qed.
End merged.

(** ** The entries of a file *)

Section lookup.
Context `{WireFormat}.
Abbreviation entry := RuntimeStatsPartitionEntry.t.
Implicit Types (m : gmap (N * N) entry) (es : list entry).

Definition add_entries (task : N) es m : gmap (N * N) entry :=
  foldl (λ m e, <[(task, RuntimeStatsPartitionEntry.partition_id e) := e]> m) m es.

Lemma add_entries_other task es m t i : t ≠ task → add_entries task es m !! (t, i) = m !! (t, i).
Proof.
  intros Ht. unfold add_entries. revert m. induction es as [|e es IH]; intros m; [done|].
  cbn [foldl]. rewrite IH. apply lookup_insert_ne. by intros [= ->].
Qed.

Lemma add_entries_at task es m s p e :
  (∀ q e, es !! q = Some e → RuntimeStatsPartitionEntry.partition_id e = N.of_nat (s + q)) →
  es !! p = Some e → add_entries task es m !! (task, N.of_nat (s + p)) = Some e.
Proof.
  intros Hid. revert m s p Hid. induction es as [|e' es IH] using rev_ind; intros m s p Hid Hp; [done|].
  unfold add_entries in *. rewrite foldl_snoc.
  assert (RuntimeStatsPartitionEntry.partition_id e' = N.of_nat (s + length es)) as He'.
  { apply Hid. by rewrite lookup_app_r, Nat.sub_diag by lia. }
  rewrite He'. destruct (decide (p = length es)) as [->|Hne].
  - rewrite lookup_app_r, Nat.sub_diag in Hp by lia. injection Hp as ->. apply lookup_insert_eq.
  - rewrite lookup_insert_ne by (intros [= Heq]; lia). pose proof (lookup_lt_Some _ _ _ Hp) as Hlt.
    rewrite length_app in Hlt. cbn in Hlt. rewrite lookup_app_l in Hp by lia. apply IH; [|done].
    intros q x Hx. apply Hid. rewrite lookup_app_l; [done|by eapply lookup_lt_Some].
Qed.

Lemma ranges_lookup (reports : list (N * list entry)) task es p e :
  NoDup reports.*1 → (task, es) ∈ reports →
  (∀ q e, es !! q = Some e → RuntimeStatsPartitionEntry.partition_id e = N.of_nat q) →
  es !! p = Some e → ranges_of reports !! (task, N.of_nat p) = Some e.
Proof.
  intros Hnd Hin Hid Hp. unfold ranges_of. generalize (∅ : gmap (N * N) entry).
  induction reports as [|[t es'] reports IH]; intros m; [by apply elem_of_nil in Hin|].
  apply NoDup_cons in Hnd as [Hnt Hnd]. cbn [foldl fst snd]. fold (add_entries t es' m).
  apply elem_of_cons in Hin as [[= <- <-]|Hin]; [|by apply IH].
  assert (∀ m, m !! (task, N.of_nat p) = Some e →
    foldl (λ m stats, add_entries stats.1 stats.2 m) m reports !! (task, N.of_nat p) = Some e) as Hkeep.
  { clear IH m. induction reports as [|[t es''] reports IH]; intros m Hm; [done|]. cbn [foldl fst snd].
    apply NoDup_cons in Hnd as [_ Hnd]. apply not_elem_of_cons in Hnt as [Ht Hnt].
    apply IH; [done..|]. by rewrite add_entries_other. }
  apply Hkeep. exact (add_entries_at task es m 0 p e Hid Hp).
Qed.
End lookup.
