(* ===== verification/DataSample.v ===== *)
(** * A small data setting

    Instances of the interfaces to DataFusion and Arrow with executable definitions:
    rows with one nullable integer, plain wire formats, and a pseudo-random bit. The
    properties of sketches and of range partitions are evaluated in it. *)

From S2P Require Import Prelude Errors Machine Types Kll SortKey SortKeyFacts Range RangeIndex RuntimeStats.
From stdpp Require Import numbers gmap.

(** ** Sketches *)

#[local] Instance flips : Coins := {| StdRng := nat; random_bool := λ n, (Nat.odd n, S n) |}.
#[local] Instance plain_format : WireFormat :=
  {| IpcBytes := RecordBatch; ipc_write := inr; ipc_read := λ b, inr (Some b);
     ProtoScalar := ScalarValue; scalar_to_proto := inr; scalar_from_proto := inr;
     ipc_read_write b bytes H := f_equal (λ r, match r with inr x => inr (Some x) | inl e => inl e end) (eq_sym H);
     scalar_from_to v p H := eq_sym H |}.

Definition coin_seed (n : nat) : StdRng := n.

(** ** Scalars *)

Definition plain_cmp (a b : ScalarValue) : option comparison :=
  if decide (scalar_type a = scalar_type b) then
    match dispatch_sortable (scalar_type a), scalar_value a, scalar_value b with
    | Some n, Some x, Some y => Some (order_of n x ?= order_of n y)%Z
    | _, None, None => Some Eq
    | _, None, Some _ => Some Lt
    | _, Some _, None => Some Gt
    | None, _, _ => None
    end
  else None.

Definition plain_eqb (a b : ScalarValue) : bool :=
  bool_decide (scalar_type a = scalar_type b) && bool_decide (scalar_value a = scalar_value b).

Definition plain_arith (f : Z → Z → Z) (a b : ScalarValue) : fallible ScalarValue :=
  match dispatch_sortable (scalar_type a), scalar_value a, scalar_value b with
  | Some n, Some x, Some y =>
      if number (scalar_type a) then inr (mkScalar (scalar_type a) (Some (wrap_to n (f x y))))
      else inl (internal_err "not a number")
  | _, _, _ => inl (internal_err "not a number")
  end.

#[local] Instance plain_scalars : ScalarOps := {|
  partial_cmp := plain_cmp;
  scalar_eqb := plain_eqb;
  scalar_add := plain_arith Z.add;
  scalar_sub := plain_arith Z.sub;
  new_zero d := inr (mkScalar d (Some 0%Z));
  is_numeric d := number d || bool_decide (d = Float32) || bool_decide (d = Float64);
  is_temporal _ := false;
|}.

#[local] Instance plain_scalar_laws : ScalarLaws.
Proof.
  split.
  - intros d n a b Hd _ _. cbn. unfold plain_cmp. cbn. by rewrite decide_True, Hd by done.
  - intros d n a b _ _ _. cbn. unfold plain_eqb. cbn. rewrite bool_decide_eq_true_2 by done. cbn.
    apply bool_decide_ext. split; [by intros [= ->]|by intros ->].
  - done.
  - intros d n a b Hn Hd _ _. cbn. unfold plain_arith. cbn. rewrite Hd. by destruct (number d).
  - intros d n a b Hn Hd _ _. cbn. unfold plain_arith. cbn. rewrite Hd. by destruct (number d).
Qed.

(** ** Rows and expressions *)

Definition both (f : option bool → option bool → option bool) (a b : fallible (list (option bool)))
  : fallible (list (option bool)) :=
  match a, b with
  | inr a, inr b => inr (zip_with f a b)
  | inl e, _ | _, inl e => inl e
  end.

Definition plain_compare (test : ScalarValue → ScalarValue → bool) (l r : PhysicalExpr ())
    (rows : list (option Z)) : fallible (list (option bool)) :=
  match l, r with
  | Routing _, Literal s =>
      inr ((λ r, (λ v, test (mkScalar Int64 (Some v)) s) <$> (r : option Z)) <$> rows)
  | _, _ => inl (internal_err "not a comparison")
  end.

Fixpoint plain_mask (x : PhysicalExpr ()) (rows : list (option Z)) : fallible (list (option bool)) :=
  match x with
  | Literal v =>
      if plain_eqb v (boolean true) then inr (replicate (length rows) (Some true))
      else inl (internal_err "not a condition")
  | BinaryExpr l op r =>
      match op with
      | OpAnd => both kleene_and (plain_mask l rows) (plain_mask r rows)
      | OpOr => both kleene_or (plain_mask l rows) (plain_mask r rows)
      | OpGtEq => plain_compare scalar_ge l r rows
      | OpLt => plain_compare scalar_lt l r rows
      end
  | IsNullExpr (Routing _) => inr ((λ r, Some (bool_decide (r = None))) <$> rows)
  | _ => inl (internal_err "not a condition")
  end.

#[local] Instance plain_exprs : ExprOps := {|
  RoutingExpr := ();
  Row := option Z;
  column_of _ rows := inr (mkArray Int64 rows);
  mask_of := plain_mask;
  filter_record_batch rows mask := inr (masked rows mask);
|}.

#[local] Instance plain_expr_laws : ExprLaws.
Proof.
  refine {| type_of _ := Int64; row_key _ (r : Row) := r |}.
  - intros e rows a [= <-]. f_equal. by rewrite list_fmap_id.
  - done.
  - intros e op s rows a _ _ _ _ Hop. by destruct Hop; subst.
  - intros l r rows ml mr Hl Hr. cbn in *. by rewrite Hl, Hr.
  - intros l r rows ml mr Hl Hr. cbn in *. by rewrite Hl, Hr.
  - done.
  - done.
Defined.

(** ** Row format, sort expressions and hash maps *)

Definition row_tag : Type := DataType * SortOptions * option Z.

#[local] Instance plain_rows : RowFormat := {|
  RowBytes := row_tag;
  row_bytes_le := λ '(d, o, v) '(_, _, w),
    match dispatch_sortable d with Some n => sorts_before o n v w | None => true end;
  row_converter_new _ _ := inr tt;
  convert_columns d o a :=
    if decide (array_type a = d) then inr ((λ v, (d, o, v)) <$> array_values a)
    else inl (internal_err "not the type of the converter");
  iter_to_array l :=
    match l with
    | [] => inl (internal_err "no values")
    | v :: _ =>
        if forallb (λ w, bool_decide (scalar_type w = scalar_type v)) l
        then inr (mkArray (scalar_type v) (scalar_value <$> l))
        else inl (internal_err "values of two types")
    end;
|}.

#[local] Instance plain_row_laws : RowLaws.
Proof.
  refine {| row_of d o v := (d, o, v) : RowBytes |}.
  - intros d o a rows. cbn. destruct (decide _) as [?|?]; [|done]. by intros [= <-].
  - intros d n o v w Hd _ _. cbn. by rewrite Hd.
  - intros [|v l] a; cbn [iter_to_array plain_rows]; [done|].
    destruct (forallb _ _) eqn:Hall; [|done]. intros [= <-]. split; [done|].
    apply Forall_forall. intros x Hx. rewrite forallb_forall in Hall.
    apply list_elem_of_In, Hall, bool_decide_eq_true in Hx. done.
Defined.

#[local] Instance plain_nodes : SortExprNodes := {|
  SortExprNode := bool * bool;
  node_asc := fst;
  node_nulls_first := snd;
  node_bytes node := [if node.1 then 1%N else 0%N; if node.2 then 1%N else 0%N];
  serialize_sort_exprs l := inr ((λ x, (negb (descending x.2), nulls_first x.2)) <$> l);
|}.

#[local] Instance plain_node_laws : SortExprLaws.
Proof. intros l nodes [= <-]. rewrite Forall2_fmap_r. by apply Forall_Forall2_diag, Forall_forall. Qed.

#[export] Instance sample_hash_order : HashOrder := {|
  iter_entries := λ K A _ _ (m : gmap K A), map_to_list m;
  iter_entries_perm := λ K A _ _ m, reflexivity (map_to_list m);
  iter_elements := λ K _ _ (X : gset K), elements X;
  iter_elements_perm := λ K _ _ X, reflexivity (elements X);
|}.

(** ** Index batches *)

#[local] Instance plain_index : IndexOps := {|
  null_scalar d := inr (mkScalar d None);
  batch_try_new schema columns := inr (mkIndex schema columns);
  expr_name _ := "v";
  expr_type _ := inr Int64;
|}.

#[local] Instance plain_index_laws : IndexLaws.
Proof. split; by intros ?? [= <-] || by intros ??? [= <-]. Qed.
