(* ===== verification/RangeTheorems.v ===== *)
(** * Properties of range partitions *)

From S2P Require Import Prelude Errors Machine Types Kll SortKey SortKeyFacts KeySketch.
From S2P Require Import Range RangeFacts RangeRouting RangeIndex RangeIndexFacts RuntimeStats RuntimeStatsFacts DataSample.
From stdpp Require Import numbers gmap sorting.

(** ** Filters and deliveries *)

Section ranges.
Context `{ScalarOps} {SL : ScalarLaws} `{ExprOps, !ExprLaws} `{WireFormat}.
Context (e : RoutingExpr) (n : native).

Abbreviation sc v := (mkScalar (type_of e) (Some v)).
Abbreviation location := PartitionLocation.t.

(** A filter on [e], whose halos widen by [h_lo] and [h_hi], over as many partitions
    as the cuts make *)
Record filters (self : RangeFilterExec.t) (h_lo h_hi : Z) (cs : list Z) : Prop := {
  fi_expr : RangeFilterExec.filter_expr self = e;
  fi_lo : halo_is (type_of e) n (RangeFilterExec.halo_lo self) h_lo;
  fi_hi : halo_is (type_of e) n (RangeFilterExec.halo_hi self) h_hi;
  fi_count : partition_count (RangeFilterExec.input self) = length cs + 1;
}.

(** Ascending cuts, and room to widen them *)
Record cuts_ok (h_lo h_hi : Z) (cs : list Z) : Prop := {
  co_range : Forall (in_range n) cs;
  co_asc : ascending n cs;
  co_room : Forall (λ c, (h_lo ≠ 0%Z → in_range n (c - h_lo)) ∧ (h_hi ≠ 0%Z → in_range n (c + h_hi))) cs;
}.

(** Resolving the bounds of a filter gives one that keeps, in partition [k], the rows
    of the widened range [k]. *)
Lemma resolved_runs self h_lo h_hi cs :
  dispatch_sortable (type_of e) = Some n → filters self h_lo h_hi cs → cuts_ok h_lo h_hi cs →
  ∃ self', RangeFilterExec.resolve_bounds (raw_bounds_from_cuts ((λ c, sc c) <$> cs)) self = Ok self' ∧
    ∀ k batches, k ≤ length cs → Forall (evaluates e n) batches →
      (RangeFilterExec.sorted_on_key self = true → Forall (sorted_batch e n) batches) →
      ∃ outs, RangeFilterExec.execute k (inr (inr <$> batches)) self' = Ok (Ok <$> outs) ∧
        concat outs
        = filter (λ r, takes n cs h_lo h_hi (self_nulls_first self) k (row_key e r) = true) (concat batches).
Proof using SL.
  intros Hd [Hex Hlo Hhi Hcount] [Hr Ha Hroom].
  destruct (bounds_resolved (type_of e) n Hd cs Hr Ha _ _ h_lo h_hi Hlo Hhi Hroom (RangeFilterExec.input self) Hcount)
    as (los & his & Hl & Hh & Hb).
  unfold RangeFilterExec.resolve_bounds. rewrite Hb. cbn [obind]. eexists. split; [done|].
  intros k batches Hk He Hs. set (self' := RangeFilterExec.set_bounds _ self).
  assert (from_option (in_range n) True (nth_bound los his k).1) as R1.
  { destruct k as [|j]; cbn; [done|]. destruct (los !! j) as [v|] eqn:Hv; [|done]. cbn.
    by destruct (Forall2_lookup_r _ _ _ _ _ Hl Hv) as (? & _ & _ & ? & _). }
  assert (from_option (in_range n) True (nth_bound los his k).2) as R2.
  { cbn. destruct (his !! k) as [v|] eqn:Hv; [|done]. cbn.
    by destruct (Forall2_lookup_r _ _ _ _ _ Hh Hv) as (? & _ & _ & ? & _). }
  destruct (filter_runs e n Hd self' Hex k _ (nth_bound los his k).1 (nth_bound los his k).2 batches eq_refl)
    as (outs & Houts & Hrows); [|done..|].
  { cbn [widened]. rewrite list_lookup_fmap, lookup_seq_lt by lia. done. }
  exists outs. split; [done|]. rewrite Hrows. apply filter_same. intros r _.
  change (self_nulls_first self) with (self_nulls_first self'). unfold range_keeps.
  by rewrite (keeps_takes (type_of e) n cs _ _ h_lo h_hi los his (self_nulls_first self') k _ Hl Hh Hk).
Qed.

(** The reader of a file finds batches that evaluate, sorted if the filter expects it. *)
Definition readable (self : RangeFilterExec.t) (rows : list Row) : Prop :=
  evaluates e n rows ∧ (RangeFilterExec.sorted_on_key self = true → sorted_batch e n rows).

Lemma readable_all self (batches : list (list Row)) :
  Forall (readable self) batches →
  Forall (evaluates e n) batches ∧
  (RangeFilterExec.sorted_on_key self = true → Forall (sorted_batch e n) batches).
Proof. intros Hr. split; [|intros Hs]; eapply Forall_impl; try done; intros b [? Hb]; auto. Qed.

(** C29. The files a partition is sent hold all its rows. For cuts of the type of the
    key in ascending order, halos that are zero or values of an integer type which widen
    cuts and extremes without overflow, and files whose entries describe them, resolving
    the bounds of the filter and delivering the files both succeed; a partition is sent
    each file at most once, and its filter keeps of the files it is sent just what it
    would keep of all files, NULLs included. Halos other than zero on a key of a type that
    is not an integer type are not covered. *)
Theorem delivered_files_suffice self h_lo h_hi cs original reports (contents : location → list Row) :
  dispatch_sortable (type_of e) = Some n → filters self h_lo h_hi cs → cuts_ok h_lo h_hi cs →
  Forall (λ f, file_ok (type_of e) n h_lo h_hi (ranges_of reports) f (row_key e <$> contents f)) (concat original) →
  Forall (λ f, readable self (contents f)) (concat original) →
  ∃ self' remapped,
    RangeFilterExec.resolve_bounds (raw_bounds_from_cuts ((λ c, sc c) <$> cs)) self = Ok self' ∧
    cut_partitions original reports ((λ c, sc c) <$> cs) (RangeFilterExec.halo_lo self)
      (RangeFilterExec.halo_hi self) (self_nulls_first self) = Ok remapped ∧
    length remapped = length cs + 1 ∧
    ∀ k files, remapped !! k = Some files →
      files `sublist_of` concat original ∧
      ∃ outs outs',
        RangeFilterExec.execute k (inr (inr <$> (contents <$> files))) self' = Ok (Ok <$> outs) ∧
        RangeFilterExec.execute k (inr (inr <$> (contents <$> concat original))) self' = Ok (Ok <$> outs') ∧
        concat outs = concat outs'.
Proof using SL.
  intros Hd Hfi Hco Hok Hread.
  destruct (resolved_runs self h_lo h_hi cs Hd Hfi Hco) as (self' & Hres & Hrun).
  destruct (id Hfi) as [_ Hlo Hhi _]. destruct (id Hco) as [Hr Ha _].
  destruct (cut_files_deliver (type_of e) n Hd cs Hr Ha _ _ h_lo h_hi Hlo Hhi (self_nulls_first self)
    contents (row_key e) (ranges_of reports) (concat original) Hok (replicate (length cs + 1) []))
    as (out & Hout & Hlen & Hdel); [by rewrite length_replicate|].
  exists self', out. unfold cut_partitions. rewrite length_fmap. split_and!; [done..|].
  intros k files Hk. assert (k ≤ length cs) as Hkc by (apply lookup_lt_Some in Hk; lia).
  destruct (Hdel k [] Hkc) as (new & Hnew & Hsub & Hrows); [apply lookup_replicate_2; lia|].
  rewrite Hk in Hnew. injection Hnew as ->. cbn [app] in *. split; [done|].
  assert (Forall (readable self) (contents <$> concat original)) as Hall by by apply Forall_fmap.
  assert (Forall (readable self) (contents <$> new)) as Hnew.
  { apply Forall_fmap, Forall_forall. intros f Hf. rewrite Forall_forall in Hread. apply Hread.
    eapply elem_of_submseteq; [done|]. by apply sublist_submseteq. }
  destruct (readable_all self _ Hall) as [E1 S1]. destruct (readable_all self _ Hnew) as [E2 S2].
  destruct (Hrun k _ Hkc E2 S2) as (outs & Ho & Hc). destruct (Hrun k _ Hkc E1 S1) as (outs' & Ho' & Hc').
  exists outs, outs'. split_and!; [done..|]. by rewrite Hc, Hc', <-!bind_concat.
Qed.
End ranges.

(** ** A stage of range partitions *)

Section stage.
Context `{ScalarOps} {SL : ScalarLaws} `{ExprOps, !ExprLaws} `{Coins} `{WireFormat}.
Context `{!SortExprNodes} {NL : SortExprLaws} `{HashOrder}.
Context (e : RoutingExpr) (n : native) (o : SortOptions) (rest : list (RoutingExpr * SortOptions)).

Abbreviation sc v := (mkScalar (type_of e) (Some v)).
Abbreviation location := PartitionLocation.t.

(** The statistics of a task: the operator was built and has seen the batches of each
    partition pass. *)
Inductive ran (P : nat) : RuntimeStatsExec.t → list (list Row) → Prop :=
| Ran_new data_type rng stats :
    data_type e = inr (type_of e) →
    RuntimeStatsExec.try_new P data_type rng (Some ((e, o) :: rest)) = Ok stats →
    ran P stats (replicate P [])
| Ran_ingest stats parts p rows batch stats' :
    ran P stats parts → parts !! p = Some rows → evaluates e n batch →
    RuntimeStatsExec.ingest p batch stats = Ok stats' →
    ran P stats' (<[p := rows ++ batch]> parts).

Lemma concat_insert_length (parts : list (list Row)) p rows batch :
  parts !! p = Some rows →
  length (concat (<[p := rows ++ batch]> parts)) = length (concat parts) + length batch.
Proof.
  intros Hp. rewrite <-(take_drop_middle parts p rows Hp) at 2. rewrite insert_take_drop by (by eapply lookup_lt_Some).
  rewrite !concat_app. cbn. rewrite !length_app. lia.
Qed.

Lemma ran_observes P stats parts :
  dispatch_sortable (type_of e) = Some n → ran P stats parts → is_u64 (N.of_nat (length (concat parts))) →
  observes e n o rest stats parts ∧ length parts = P ∧
  Forall (Forall (λ r, from_option (in_range n) True (row_key e r))) parts.
Proof.
  intros Hd Hr. induction Hr as [data_type rng stats Ht Hn|stats parts p rows batch stats' _ IH Hp He Hi]; intros Hu.
  - destruct (observes_new e n Hd o rest P data_type rng Ht) as (s & Hs & Hob).
    rewrite Hn in Hs. injection Hs as <-. rewrite length_replicate. split_and!; [done..|].
    by apply Forall_replicate.
  - rewrite concat_insert_length in Hu by done.
    destruct IH as (Hob & Hlen & Hin); [revert Hu; unfold is_u64; lia|].
    destruct (observes_ingest e n Hd o rest stats parts p rows batch Hob Hp He) as (s & Hs & Hob').
    { pose proof (length_concat_part parts p rows Hp). revert Hu. unfold is_u64. rewrite length_app. lia. }
    rewrite Hi in Hs. injection Hs as <-. rewrite length_insert. split_and!; [done..|].
    apply Forall_insert; [done|]. apply Forall_app. split; [by eapply Forall_lookup_1 in Hin|apply He].
Qed.

(** A task, its report, and the rows of its partitions *)
Record producer : Type := mkProducer {
  pr_task : N;
  pr_report : RuntimeStatsReport.t;
  pr_parts : list (list Row);
}.

Definition produced (P : nat) (pr : producer) : Prop :=
  ∃ stats, ran P stats (pr_parts pr) ∧ stats_to_report stats = Ok (pr_report pr).

Abbreviation stage_rows prs := (all_rows (pr_parts <$> prs)).

Lemma stage_part (prs : list producer) pr p rows :
  pr ∈ prs → pr_parts pr !! p = Some rows →
  length (concat (pr_parts pr)) ≤ length (stage_rows prs) ∧ ∀ r, r ∈ rows → r ∈ stage_rows prs.
Proof.
  intros Hpr Hp. induction prs as [|pr' prs IH]; [by apply elem_of_nil in Hpr|]. rewrite fmap_cons.
  change (all_rows (pr_parts pr' :: (pr_parts <$> prs))) with (concat (pr_parts pr') ++ stage_rows prs).
  rewrite length_app. setoid_rewrite elem_of_app. apply elem_of_cons in Hpr as [<-|Hpr].
  - split; [lia|]. intros r Hr. left. apply elem_of_concat. exists rows. split; [done|].
    by eapply list_elem_of_lookup_2.
  - destruct (IH Hpr) as [? Hin]. split; [lia|]. intros r Hr. right. by apply Hin.
Qed.

Lemma stage_reported P prs :
  dispatch_sortable (type_of e) = Some n → 1 ≤ P → Forall (produced P) prs →
  is_u64 (N.of_nat (length (stage_rows prs))) →
  Forall2 (reports_rows e n o rest) (pr_report <$> prs) (pr_parts <$> prs) ∧
  Forall (λ parts, length parts = P) (pr_parts <$> prs) ∧
  ∀ r, r ∈ stage_rows prs → from_option (in_range n) True (row_key e r).
Proof.
  intros Hd HP Hpr. induction Hpr as [|pr prs (stats & Hran & Hrep) _ IH]; intros Hu.
  { split_and!; [constructor..|]. by intros r ?%elem_of_nil. }
  change (stage_rows (pr :: prs)) with (concat (pr_parts pr) ++ stage_rows prs) in *.
  rewrite length_app in Hu. destruct IH as (Hf & Hl & Hin); [revert Hu; unfold is_u64; lia|].
  destruct (ran_observes P stats _ Hd Hran) as (Hob & Hlen & Hrng); [revert Hu; unfold is_u64; lia|].
  split_and!.
  - constructor; [|done]. apply (report_sent e n o rest stats); [done| |revert Hu; unfold is_u64; lia|done].
    intros Heq. rewrite Heq in Hlen. cbn in Hlen. lia.
  - by constructor.
  - intros r [Hr|Hr]%elem_of_app; [|by apply Hin]. apply elem_of_concat in Hr as (rows & Hr & Hrows).
    rewrite Forall_forall in Hrng. specialize (Hrng rows Hrows). rewrite Forall_forall in Hrng. by apply Hrng.
Qed.

(** An entry describes the rows it was made of. *)
Lemma entry_describes p rows en :
  dispatch_sortable (type_of e) = Some n → descending o = false →
  Forall (λ r, from_option (in_range n) True (row_key e r)) rows →
  entry_of e n o p rows en → describes (type_of e) n 0 0 en (row_key e <$> rows).
Proof.
  intros Hd Ho Hr (_ & _ & Hn & lo & hi & Hb & Hlo & Hhi). split.
  - intros Hnone. rewrite Hn. unfold nulls_in.
    assert (None ∈ filter (λ v : option Z, v = None) (row_key e <$> rows)) as Hin
      by (by apply list_elem_of_filter).
    destruct (filter _ _); [by apply elem_of_nil in Hin|cbn; lia].
  - assert (∀ v, Some v ∈ row_key e <$> rows → in_range n v) as Hin.
    { intros v (r & Hk & Hin)%list_elem_of_fmap. rewrite Forall_forall in Hr. specialize (Hr r Hin).
      by rewrite <-Hk in Hr. }
    unfold encloses, key_range, bounds_values, sort_position in *. cbn [SortKeyCodec.options] in Hb. rewrite Ho in Hb.
    destruct lo as [a|], hi as [b|]; cbn [extreme_is] in Hlo, Hhi; try done.
    + destruct Hlo as (pa & -> & Ha), Hhi as (pb & -> & Hb'). destruct Hb as (Ina & Inb & Hall).
      exists a, b. split_and!; try done; try (by apply Hin). destruct (Hall a Ina). lia.
    + by rewrite Hlo.
Qed.

(** A file holds the rows of a partition of a task. *)
Definition file_of (prs : list producer) (contents : location → list Row) (f : location) : Prop :=
  ∃ pr, pr ∈ prs ∧ PartitionLocation.file_id f = Some (pr_task pr) ∧
    pr_parts pr !! PartitionId.partition_id (PartitionLocation.partition_id f) = Some (contents f) ∧
    num_rows (PartitionLocation.partition_stats f) = Some (N.of_nat (length (contents f))).

Abbreviation task_entries prs :=
  ((λ pr, (pr_task pr, RuntimeStatsReport.partitions (pr_report pr))) <$> prs).

Lemma stage_file P prs contents f :
  dispatch_sortable (type_of e) = Some n → descending o = false → 1 ≤ P → (N.of_nat P < 2 ^ 32)%N →
  Forall (produced P) prs → is_u64 (N.of_nat (length (stage_rows prs))) → NoDup (pr_task <$> prs) →
  file_of prs contents f →
  file_ok (type_of e) n 0 0 (ranges_of (task_entries prs)) f (row_key e <$> contents f).
Proof.
  intros Hd Ho HP HP32 Hpr Hu Hnd (pr & Hin & Hid & Hp & Hnum).
  destruct (stage_reported P prs Hd HP Hpr Hu) as (Hf & Hl & Hrng). split.
  { intros Hnil. apply fmap_nil_inv in Hnil. by rewrite Hnum, Hnil. }
  exists (pr_task pr). split; [done|].
  apply list_elem_of_lookup in Hin as [i Hi].
  destruct (Forall2_lookup_l _ _ _ i (pr_report pr) Hf) as (parts & Hparts & Hrr);
    [by rewrite list_lookup_fmap, Hi|]. rewrite list_lookup_fmap, Hi in Hparts. injection Hparts as <-.
  set (p := PartitionId.partition_id (PartitionLocation.partition_id f)) in *.
  assert (length (pr_parts pr) = P) as Hlen.
  { eapply (Forall_lookup_1 _ _ i) in Hl; [exact Hl|]. by rewrite list_lookup_fmap, Hi. }
  pose proof (lookup_lt_Some _ _ _ Hp) as Hlt.
  destruct (rr_entries _ _ _ _ _ _ Hrr p _ Hp) as (en & Hen & Hof).
  unfold file_key. fold p. rewrite N.mod_small by lia.
  rewrite (ranges_lookup (task_entries prs) (pr_task pr) (RuntimeStatsReport.partitions (pr_report pr)) p en).
  - apply (entry_describes p); [done..| |done]. apply Forall_forall. intros r Hr. apply Hrng.
    apply (stage_part prs pr p (contents f)); [by eapply list_elem_of_lookup_2|done..].
  - by rewrite <-list_fmap_compose.
  - apply list_elem_of_fmap. exists pr. split; [done|]. by eapply list_elem_of_lookup_2.
  - intros q x Hx. pose proof (lookup_lt_Some _ _ _ Hx) as Hq. rewrite (rr_length _ _ _ _ _ _ Hrr) in Hq.
    destruct (lookup_lt_is_Some_2 (pr_parts pr) q Hq) as [rows Hrows].
    destruct (rr_entries _ _ _ _ _ _ Hrr q rows Hrows) as (en' & Hen' & Hid' & _).
    rewrite Hx in Hen'. injection Hen' as <-. rewrite Hid'. apply N.mod_small. lia.
  - done.
Qed.

(** The cuts the scheduler recovers: none when no row has a key *)
Lemma stage_cuts rng P prs :
  dispatch_sortable (type_of e) = Some n → descending o = false → 2 ≤ P → prs ≠ [] →
  Forall (produced P) prs → is_u64 (N.of_nat (length (stage_rows prs))) →
  ∃ cs first, repartition_routing rng (pr_report <$> prs) e
      = Ok (Some (mkRouting ((λ v, sc v) <$> cs) first e)) ∧
    cuts_ok n 0 0 cs ∧ Forall (λ v, ∃ r, r ∈ stage_rows prs ∧ row_key e r = Some v) cs ∧
    ((∃ r, r ∈ stage_rows prs ∧ is_Some (row_key e r)) → length cs = P - 1 ∧ first = nulls_first o) ∧
    ((∀ r, r ∈ stage_rows prs → row_key e r = None) → cs = []).
Proof using NL.
  intros Hd Ho HP Hne Hpr Hu.
  destruct (stage_reported P prs Hd ltac:(lia) Hpr Hu) as (Hf & Hl & Hrng).
  destruct (routing_recovered e n Hd o rest rng _ _ P e Hf) as (cs & first & Hrt & (Hin & Ha & Hlen) & Hfirst);
    [by destruct prs|done..|]. exists cs, first. split; [done|].
  assert (Forall (λ v, ∃ r, r ∈ stage_rows prs ∧ row_key e r = Some v) cs) as Hrow.
  { eapply Forall_impl; [done|]. cbn. intros v (r & Hk & Hr)%list_elem_of_fmap. by exists r. }
  split_and!; [|done| |].
  - split.
    + eapply Forall_impl; [done|]. cbn. intros v (r & Hr & Hk). specialize (Hrng r Hr). by rewrite Hk in Hrng.
    + intros i a b Hi Hj. specialize (Ha i a b Hi Hj). unfold sort_position in Ha. cbn in Ha. by rewrite Ho in Ha.
    + apply Forall_forall. done.
  - intros (r & Hr & v & Hv). split; [|apply Hfirst; by intros Hnil; rewrite Hnil in Hr; apply not_elem_of_nil in Hr].
    case_bool_decide as Hnil; [|done]. exfalso. eapply not_elem_of_nil. rewrite <-Hnil. unfold values_of.
    apply list_elem_of_omap. exists (Some v). split; [|done]. apply list_elem_of_fmap. by exists r.
  - intros Hall. destruct cs as [|v cs]; [done|]. apply Forall_cons in Hrow as [(r & Hr & Hv) _].
    by rewrite Hall in Hv.
Qed.

(** What a filter without halos keeps of the files the partitions are sent *)
Lemma cuts_deliver P prs self cs original (contents : location → list Row) :
  dispatch_sortable (type_of e) = Some n → descending o = false → 2 ≤ P → (N.of_nat P < 2 ^ 32)%N →
  Forall (produced P) prs → NoDup (pr_task <$> prs) → is_u64 (N.of_nat (length (stage_rows prs))) →
  filters e n self 0 0 cs → cuts_ok n 0 0 cs → self_nulls_first self = nulls_first o →
  is_zero_halo (RangeFilterExec.halo_lo self) = Ok true →
  is_zero_halo (RangeFilterExec.halo_hi self) = Ok true →
  Forall (file_of prs contents) (concat original) →
  Forall (λ f, readable e n self (contents f)) (concat original) →
  ∃ self' remapped outs,
    RangeFilterExec.resolve_bounds (raw_bounds_from_cuts ((λ v, sc v) <$> cs)) self = Ok self' ∧
    cut_partitions original (task_entries prs) ((λ v, sc v) <$> cs) (RangeFilterExec.halo_lo self)
      (RangeFilterExec.halo_hi self) (nulls_first o) = Ok remapped ∧
    Forall2 (λ k out, ∃ files batches, remapped !! k = Some files ∧
        RangeFilterExec.execute k (inr (inr <$> (contents <$> files))) self' = Ok (Ok <$> batches) ∧
        out = concat batches)
      (seq 0 (length remapped)) outs ∧
    concat outs ≡ₚ concat (contents <$> concat original).
Proof using SL.
  intros Hd Ho HP HP32 Hpr Hnd Hu Hfi Hco Hfirst Hz1 Hz2 Hfiles Hread.
  destruct (resolved_runs e n self 0 0 cs Hd Hfi Hco) as (self' & Hres & Hrun).
  destruct (id Hco) as [Hr Ha _].
  assert (Forall (λ f, file_ok (type_of e) n 0 0 (ranges_of (task_entries prs)) f (row_key e <$> contents f))
    (concat original)) as Hok.
  { eapply Forall_impl; [exact Hfiles|]. intros f Hf. apply (stage_file P); try done; lia. }
  destruct (cut_files_deliver (type_of e) n Hd cs Hr Ha (RangeFilterExec.halo_lo self) (RangeFilterExec.halo_hi self)
    0 0 (or_introl (conj eq_refl Hz1)) (or_introl (conj eq_refl Hz2)) (nulls_first o)
    contents (row_key e) (ranges_of (task_entries prs)) (concat original) Hok (replicate (length cs + 1) []))
    as (out & Hout & Hlo & Hdel); [by rewrite length_replicate|].
  exists self', out,
    ((λ k, filter (λ r, bucket n cs (nulls_first o) (row_key e r) = k) (concat (contents <$> concat original)))
       <$> seq 0 (length out)).
  unfold cut_partitions. rewrite length_fmap. split_and!; [done..| |].
  - rewrite Forall2_fmap_r. apply Forall_Forall2_diag, Forall_forall. intros k Hk%elem_of_seq.
    assert (k ≤ length cs) as Hkc by lia.
    destruct (Hdel k [] Hkc) as (new & Hnew & Hsub & Hsame); [apply lookup_replicate_2; lia|].
    assert (Forall (readable e n self) (contents <$> new)) as Hnewr.
    { apply Forall_fmap, Forall_forall. intros f Hf. rewrite Forall_forall in Hread. apply Hread.
      eapply elem_of_submseteq; [done|]. by apply sublist_submseteq. }
    destruct (readable_all e n self _ Hnewr) as [E2 S2]. destruct (Hrun k _ Hkc E2 S2) as (outs & Hrunk & Hc).
    exists new, outs. split_and!; [done..|]. rewrite Hc, Hfirst, <-!bind_concat, Hsame.
    apply filter_same. intros r _. rewrite takes_bucket by done. rewrite Nat.eqb_eq. by split.
  - rewrite bucket_partition, filter_all; [done|]. intros r _.
    pose proof (bucket_le n cs (nulls_first o) (row_key e r)). lia.
Qed.

(** C8. A range shuffle on an ascending key delivers each row once. For a stage of
    two or more partitions whose tasks have reported the rows of their partitions, the
    scheduler recovers a routing whose cuts are keys of the rows. Take a filter
    without halos over as many partitions. When some row has a key there is one
    cut fewer than partitions, resolving the bounds of the filter and delivering
    the files both succeed, and what the filter keeps of the files each partition
    is sent is, over all partitions, a permutation of the rows of the files: none
    is lost and none is doubled, NULLs included. When no row has a key (all are
    NULL, or there are none) the routing has no cuts, and the bounds made of them are
    refused by the filter. *)
Theorem range_shuffle_delivers_each_row_once rng P prs self original (contents : location → list Row) :
  dispatch_sortable (type_of e) = Some n → descending o = false → 2 ≤ P → (N.of_nat P < 2 ^ 32)%N →
  prs ≠ [] → Forall (produced P) prs → NoDup (pr_task <$> prs) →
  is_u64 (N.of_nat (length (stage_rows prs))) →
  RangeFilterExec.filter_expr self = e → self_nulls_first self = nulls_first o →
  partition_count (RangeFilterExec.input self) = P →
  is_zero_halo (RangeFilterExec.halo_lo self) = Ok true →
  is_zero_halo (RangeFilterExec.halo_hi self) = Ok true →
  Forall (file_of prs contents) (concat original) →
  Forall (λ f, readable e n self (contents f)) (concat original) →
  ∃ routing, repartition_routing rng (pr_report <$> prs) e = Ok (Some routing) ∧
    Forall (λ cut, ∃ r v, r ∈ stage_rows prs ∧ row_key e r = Some v ∧ cut = sc v) (r_cuts routing) ∧
    ((∃ r, r ∈ stage_rows prs ∧ is_Some (row_key e r)) →
     length (r_cuts routing) = P - 1 ∧
     ∃ self' remapped outs,
       RangeFilterExec.resolve_bounds (raw_bounds_from_cuts (r_cuts routing)) self = Ok self' ∧
       cut_partitions original (task_entries prs) (r_cuts routing) (RangeFilterExec.halo_lo self)
         (RangeFilterExec.halo_hi self) (r_nulls_first routing) = Ok remapped ∧
       Forall2 (λ k out, ∃ files batches, remapped !! k = Some files ∧
           RangeFilterExec.execute k (inr (inr <$> (contents <$> files))) self' = Ok (Ok <$> batches) ∧
           out = concat batches)
         (seq 0 (length remapped)) outs ∧
       concat outs ≡ₚ concat (contents <$> concat original)) ∧
    ((∀ r, r ∈ stage_rows prs → row_key e r = None) →
     r_cuts routing = [] ∧
     RangeFilterExec.resolve_bounds (raw_bounds_from_cuts (r_cuts routing)) self
     = Err (internal_err "RangeFilterExec: raw_bounds.len() ({}) does not match input partition count ({partition_count})")).
Proof using SL NL.
  intros Hd Ho HP HP32 Hne Hpr Hnd Hu Hex Hfirst HcP Hz1 Hz2 Hfiles Hread.
  destruct (stage_cuts rng P prs Hd Ho HP Hne Hpr Hu) as (cs & first & Hrt & Hco & Hin & Hsome & Hnone).
  eexists. split; [done|]. cbn [r_cuts r_nulls_first]. split_and!.
  - apply Forall_fmap. eapply Forall_impl; [done|]. cbn. intros v (r & ? & ?). by exists r, v.
  - intros Hkey. destruct (Hsome Hkey) as [Hlen ->]. rewrite length_fmap. split; [done|].
    apply (cuts_deliver P); try done. split; [done|by left|by left|]. lia.
  - intros Hnokey. rewrite (Hnone Hnokey). split; [done|].
    unfold RangeFilterExec.resolve_bounds, build_bounds_state. cbn [fmap list_fmap]. rewrite HcP.
    by rewrite (proj2 (Nat.eqb_neq _ _)) by (cbn; lia).
Qed.
End stage.

(** ** Fast paths and splits *)

Section paths.
Context `{ScalarOps} {SL : ScalarLaws} `{ExprOps, !ExprLaws}.
Context (e : RoutingExpr) (n : native).
Abbreviation sc v := (mkScalar (type_of e) (Some v)).

(** The filter without its fast path *)
Definition unsorted (self : RangeFilterExec.t) : RangeFilterExec.t :=
  RangeFilterExec.mk _ _ (RangeFilterExec.input self) (RangeFilterExec.filter_expr self)
    (RangeFilterExec.halo_lo self) (RangeFilterExec.halo_hi self) (RangeFilterExec.bounds self)
    (RangeFilterExec.input_order self) false.

(** C30. The fast path is the filter: on batches that are sorted on the key, with or
    without NULLs, skipping, passing and slicing by binary search yield the items that
    evaluating the predicate on every row yields, failed items of the input included. *)
Theorem fast_path_is_the_filter self state k lo hi items :
  dispatch_sortable (type_of e) = Some n → RangeFilterExec.filter_expr self = e →
  RangeFilterExec.bounds self = Some state → widened state !! k = Some (scalars (type_of e) (lo, hi)) →
  from_option (in_range n) True lo → from_option (in_range n) True hi →
  Forall (λ item, ∀ batch, item = inr batch → evaluates e n batch ∧ sorted_batch e n batch) items →
  RangeFilterExec.execute k (inr items) self = RangeFilterExec.execute k (inr items) (unsorted self).
Proof using SL.
  intros Hd Hex Hb Hk Hlo Hhi Hitems.
  unfold RangeFilterExec.execute, RangeFilterExec.partition_bound. cbn [RangeFilterExec.bounds unsorted].
  rewrite Hb, Hk. cbn [obind of_sum]. f_equal.
  induction Hitems as [|item items Hi _ IH]; [done|]. cbn [Prelude.filter_map].
  assert (poll_item (RangeFilterExec.partition_predicate (scalars (type_of e) (lo, hi)) self)
      (if RangeFilterExec.sorted_on_key self then Some (RangeFilterExec.filter_expr self) else None)
      (scalars (type_of e) (lo, hi)).1 (scalars (type_of e) (lo, hi)).2 item
    = poll_item (RangeFilterExec.partition_predicate (scalars (type_of e) (lo, hi)) (unsorted self)) None
      (scalars (type_of e) (lo, hi)).1 (scalars (type_of e) (lo, hi)).2 item) as ->.
  { destruct item as [x|batch]; [done|]. destruct (Hi batch eq_refl) as [He Hs].
    pose proof (poll_keeps e n Hd self Hex lo hi batch He (λ _, Hs) Hlo Hhi) as Hfast.
    pose proof (poll_keeps e n Hd (unsorted self) Hex lo hi batch He (λ _, Hs) Hlo Hhi) as Hslow.
    cbv zeta in Hfast, Hslow. exact (eq_trans Hfast (eq_sym Hslow)). }
  by rewrite IH.
Qed.

Context `{RowFormat} {RL : RowLaws}.

(** A batch is split the way the ranges filter: for ascending cuts and a batch of
    fewer than [2^32] rows, [split_batch_by_range] either fails where Arrow's row
    format does, or gives one bucket for each range, which holds the rows, in order,
    that a filter without halos keeps of the batch in that partition; every row is in
    one bucket. *)
Theorem split_agrees_with_filter self cs o batch :
  dispatch_sortable (type_of e) = Some n → cuts_ok n 0 0 cs → filters e n self 0 0 cs →
  descending o = false → self_nulls_first self = nulls_first o →
  readable e n self batch → (N.of_nat (length batch) < 2 ^ 32)%N →
  (∃ x, split_batch_by_range batch e ((λ c, sc c) <$> cs) o = Err x ∧ rows_fail e cs o batch) ∨
  ∃ self' buckets,
    RangeFilterExec.resolve_bounds (raw_bounds_from_cuts ((λ c, sc c) <$> cs)) self = Ok self' ∧
    split_batch_by_range batch e ((λ c, sc c) <$> cs) o = Ok buckets ∧
    Forall2 (λ k b, ∃ outs, RangeFilterExec.execute k (inr [inr batch]) self' = Ok (Ok <$> outs) ∧
        b = concat outs) (seq 0 (length cs + 1)) buckets ∧
    concat buckets ≡ₚ batch.
Proof using SL RL.
  intros Hd Hco Hfi Ho Hfirst [He Hs] Hlen. destruct (id Hco) as [Hr Ha _].
  destruct (split_buckets e n Hd cs Hr Ha o Ho batch He Hlen) as [Hsp|?]; [|by left]. right.
  destruct (resolved_runs e n self 0 0 cs Hd Hfi Hco) as (self' & Hres & Hrun).
  eexists self', _. split_and!; [done..| |].
  - rewrite Forall2_fmap_r. apply Forall_Forall2_diag, Forall_forall. intros k Hk%elem_of_seq.
    destruct (Hrun k [batch] ltac:(lia)) as (outs & Houts & Hc); [by apply Forall_singleton|intros; apply Forall_singleton; auto|].
    exists outs. split; [done|]. rewrite Hc, Hfirst. cbn [concat]. rewrite app_nil_r.
    apply filter_same. intros r _. rewrite takes_bucket by (done || lia). rewrite Nat.eqb_eq. by split.
  - rewrite bucket_partition, filter_all; [done|]. intros r _.
    pose proof (bucket_le n cs (nulls_first o) (row_key e r)). lia.
Qed.
End paths.

(** ** Halos that wrap *)

Section wrap.
Context `{ScalarOps} {SL : ScalarLaws} `{WireFormat}.
Context (d : DataType) (w : N).
Abbreviation sc v := (mkScalar d (Some v)).

(** A halo that reaches below zero stops the delivery: for an unsigned key, a
    file whose least key is below the upper halo and which ends, widened, before the
    first of at least two cuts makes [cut_partitions] panic, as the widened least key
    wraps around to one above the cuts. *)
Theorem unsigned_halo_panics (cs : list Z) (h_lo h_hi a b : Z) original file reports en pa pb task first :
  number d → dispatch_sortable d = Some (Unsigned w) →
  Forall (λ c, in_range (Unsigned w) c ∧ (b + h_lo < c ≤ 2 ^ Z.of_N w + a - h_hi)%Z) cs →
  ascending (Unsigned w) cs → 2 ≤ length cs →
  (0 < h_lo)%Z → in_range (Unsigned w) h_lo → in_range (Unsigned w) h_hi →
  in_range (Unsigned w) a → in_range (Unsigned w) (b + h_lo) → (a ≤ b)%Z → (a < h_hi)%Z →
  concat original = [file] → PartitionLocation.file_id file = Some task →
  ranges_of reports !! file_key file task = Some en →
  RuntimeStatsPartitionEntry.null_count en = 0%N → key_range en = Some (pa, pb) →
  scalar_from_proto pa = inr (sc a) → scalar_from_proto pb = inr (sc b) →
  cut_partitions original reports ((λ c, sc c) <$> cs) (sc h_lo) (sc h_hi) first = Panic.
Proof using SL.
  intros Hnum Hd Hcs Hasc Hlen Hlo0 Rlo Rhi Ra Rb Hab Hah Horig Hid Hen Hnull Hkr Ea Eb.
  assert (in_range (Unsigned w) b) as Rb' by (cbn in *; lia).
  unfold cut_partitions. rewrite Horig. cbn [cut_files]. unfold cut_file. rewrite Hid.
  fold (file_key file task). rewrite Hen, Hnull. cbn [mbind option_bind]. rewrite Hkr.
  unfold decode_extreme. rewrite Ea, Eb. cbn [obind].
  assert (in_range (Unsigned w) (a - h_hi + 2 ^ Z.of_N w)) as Rw by (cbn in *; lia).
  assert (widen_below (sc a) (sc h_hi) = Ok (sc (a - h_hi + 2 ^ Z.of_N w)%Z)) as ->.
  { unfold widen_below. rewrite (halo_test d (Unsigned w) Hd) by (done || cbn in *; lia). cbn [obind].
    rewrite (sub_values d (Unsigned w)) by done. cbn [of_sum wrap_to]. do 4 f_equal.
    symmetry. apply (Z.mod_unique _ _ (-1)); cbn in *; lia. }
  destruct (widen_above_exact d (Unsigned w) Hd (sc h_lo) h_lo b) as (rb & -> & Rrb & Orb);
    [right; by split_and!|done|done|]. cbn [obind].
  assert (Forall (in_range (Unsigned w)) cs) as Hr by (eapply Forall_impl; [exact Hcs|]; by intros c [? _]).
  rewrite !(cut_position d (Unsigned w) Hd) by done. cbn [obind]. rewrite Orb. cbn [order_of].
  assert (cuts_to (Unsigned w) cs (a - h_hi + 2 ^ Z.of_N w) = length cs) as ->.
  { unfold cuts_to, how_many. rewrite filter_all; [done|]. intros c Hc. rewrite Forall_forall in Hcs.
    destruct (Hcs c Hc) as [_ ?]. cbn. apply Z.leb_le. lia. }
  assert (cuts_to (Unsigned w) cs (b + h_lo) = 0) as ->.
  { unfold cuts_to, how_many. rewrite filter_none; [done|]. intros c Hc. rewrite Forall_forall in Hcs.
    destruct (Hcs c Hc) as [_ ?]. cbn. rewrite Z.leb_le. lia. }
  unfold push_range. rewrite (proj2 (Nat.ltb_lt _ _)) by lia. done.
Qed.
End wrap.

(** ** A small range shuffle *)

Section sample.
#[local] Existing Instances flips plain_format plain_scalars plain_scalar_laws plain_exprs plain_expr_laws.
#[local] Existing Instances plain_nodes plain_node_laws plain_rows plain_row_laws sample_hash_order.

Definition int (v : Z) : ScalarValue := mkScalar Int64 (Some v).
Definition key : RoutingExpr := tt.
Definition nulls_lead : SortOptions := mkSortOptions false true.

(** An input that is sorted on the key, with NULLs first *)
Definition sorted_input (P : nat) : InputPlan :=
  mkInput P (λ _, inr Int64) (λ _, inr true) (Some ((key, nulls_lead), [])).

Definition pending (P : nat) (lo hi : Z) : RangeFilterExec.t :=
  match RangeFilterExec.try_new_pending (sorted_input P) key (int lo) (int hi) (Some (Ordered nulls_lead)) with
  | Ok self => self
  | _ => RangeFilterExec.mk _ _ (sorted_input P) key (int lo) (int hi) None None false
  end.

Definition host : ExecutorMetadata.t := ExecutorMetadata.mk "exec-1" "localhost" 50051 50052 (mkExecutorSpecification 4)
  (mkOsSpecification "linux" "6" "24" "24.04" 8 1 100 50 1024).

Definition shuffle_file (task : N) (part : nat) (rows : nat) : PartitionLocation.t :=
  PartitionLocation.mk part (PartitionId.mk "job" 1 part) host
    (mkPartitionStats (Some (N.of_nat rows)) None None) (Some task) false.

Definition entry (part : N) (rows nulls : N) (lo hi : option Z) : RuntimeStatsPartitionEntry.t :=
  RuntimeStatsPartitionEntry.mk _ part rows (option_list (int <$> lo)) (option_list (int <$> hi)) nulls.

(** Two tasks of two partitions *)
Definition task_rows (task : N) : list (list (option Z)) :=
  if (task =? 1)%N then [[None; Some 3; Some 8]; [Some 5]]%Z else [[Some 1; Some 4; Some 9]; []]%Z.

Definition rows_of_file (f : PartitionLocation.t) : list (option Z) :=
  default [] (task_rows (default 0%N (PartitionLocation.file_id f))
    !! PartitionId.partition_id (PartitionLocation.partition_id f)).

Definition shuffle_files : list (list PartitionLocation.t) :=
  [[shuffle_file 1 0 3; shuffle_file 2 0 3]; [shuffle_file 1 1 1; shuffle_file 2 1 0]].

(** Ascending values, with at most one NULL ahead of them *)
Fixpoint ascends (last : option Z) (rows : list (option Z)) : bool :=
  match rows with
  | [] => true
  | None :: rows' => ascends None rows'
  | Some v :: rows' =>
      match last with Some w => (w <=? v)%Z | None => true end && (- 2 ^ 63 <=? v)%Z && (v <? 2 ^ 63)%Z
      && ascends (Some v) rows'
  end.

Lemma ascends_readable self last rows :
  ascends last rows = true → readable key (Signed 64) self rows.
Proof.
  intros Ha. split; [split; [by cbn; rewrite list_fmap_id|]|intros _].
  - revert last Ha. induction rows as [|[v|] rows IH]; intros last Ha; constructor; cbn in *.
    + rewrite !andb_true_iff in Ha. lia.
    + apply andb_true_iff in Ha as [_ Ha]. by eapply IH.
    + done.
    + by eapply IH.
  - revert last Ha. induction rows as [|r0 rows IH]; intros last Ha i r s v w Hi Hj Hr Hs; [done|].
    cbn in Hr, Hs. subst r s. destruct i as [|i].
    + destruct rows as [|[w'|] rows]; try done. injection Hi as ->. injection Hj as ->. cbn in Ha.
      rewrite !andb_true_iff in Ha. destruct Ha as [_ [[[Ha _] _] _]]. cbn. lia.
    + destruct r0 as [v0|]; cbn in Ha; [apply andb_true_iff in Ha as [_ Ha]|];
        exact (IH _ Ha i _ _ v w Hi Hj eq_refl eq_refl).
Qed.

Lemma files_readable self : Forall (λ f, readable key (Signed 64) self (rows_of_file f)) (concat shuffle_files).
Proof. repeat (constructor; [by apply (ascends_readable _ None)|]). constructor. Qed.

(** Cuts at 4 and 8, a halo of 1 below and of 2 above: the file of 3 and 8 is sent to
    all partitions. *)
Definition file_entries : list (N * list RuntimeStatsPartitionEntry.t) :=
  [(1, [entry 0 3 1 (Some 3) (Some 8); entry 1 1 0 (Some 5) (Some 5)]%Z%N);
   (2, [entry 0 3 0 (Some 1) (Some 9)]%Z%N)]%N.

Lemma entry_describes_rows part count nulls lo hi (rows : list (option Z)) :
  (-1000 ≤ lo ≤ hi)%Z → (hi ≤ 1000)%Z →
  Forall (λ r, match r with Some v => lo ≤ v ≤ hi | None => Z.of_N nulls ≠ 0 end)%Z rows →
  describes Int64 (Signed 64) 1 2 (entry part count nulls (Some lo) (Some hi)) (row_key key <$> rows).
Proof.
  intros Hlo Hhi Hr. cbn. rewrite list_fmap_id. rewrite Forall_forall in Hr. split.
  - intros Hn. specialize (Hr None Hn). cbn in *. lia.
  - exists lo, hi. cbn. split_and!; try done; try lia. intros v Hv. apply (Hr _ Hv).
Qed.

Lemma described f task en :
  PartitionLocation.file_id f = Some task → ranges_of file_entries !! file_key f task = Some en →
  rows_of_file f ≠ [] → describes Int64 (Signed 64) 1 2 en (row_key key <$> rows_of_file f) →
  file_ok Int64 (Signed 64) 1 2 (ranges_of file_entries) f (row_key key <$> rows_of_file f).
Proof.
  intros Hid Hen Hne Hdesc. split; [by intros ?%fmap_nil_inv|]. exists task. by rewrite Hen.
Qed.

Lemma entries_describe :
  Forall (λ f, file_ok Int64 (Signed 64) 1 2 (ranges_of file_entries) f (row_key key <$> rows_of_file f))
    (concat shuffle_files).
Proof.
  apply Forall_cons. split; [|apply Forall_cons; split; [|apply Forall_cons; split; [|apply Forall_singleton]]].
  - apply (described _ 1%N (entry 0 3 1 (Some 3%Z) (Some 8%Z))); [by vm_compute..|].
    apply entry_describes_rows; [lia..|]. repeat constructor; done || lia.
  - apply (described _ 2%N (entry 0 3 0 (Some 1%Z) (Some 9%Z))); [by vm_compute..|].
    apply entry_describes_rows; [lia..|]. repeat constructor; done || lia.
  - apply (described _ 1%N (entry 1 1 0 (Some 5%Z) (Some 5%Z))); [by vm_compute..|].
    apply entry_describes_rows; [lia..|]. repeat constructor; done || lia.
  - split; [done|]. exists 2%N. split; [done|].
    assert (ranges_of file_entries !! file_key (shuffle_file 2 1 0) 2%N = None) as -> by done. done.
Qed.

Lemma sample_cuts lo hi : (0 ≤ lo ≤ 2)%Z → (0 ≤ hi ≤ 2)%Z → cuts_ok (Signed 64) lo hi [4; 8]%Z.
Proof.
  intros Hlo Hhi. split.
  - repeat constructor; done.
  - intros [|[|i]] a b; cbn; try done. intros [= <-] [= <-]. lia.
  - repeat constructor; cbn; lia.
Qed.

Lemma delivered_files_suffice_witness :
  let sent := [shuffle_file 1 0 3; shuffle_file 2 0 3] in
  ∃ self' outs outs',
    RangeFilterExec.resolve_bounds (raw_bounds_from_cuts [int 4; int 8]) (pending 3 1 2) = Ok self' ∧
    cut_partitions shuffle_files file_entries [int 4; int 8] (int 1) (int 2) true
      = Ok [sent ++ [shuffle_file 1 1 1]; sent ++ [shuffle_file 1 1 1]; sent] ∧
    RangeFilterExec.execute 2 (inr (inr <$> (rows_of_file <$> sent))) self' = Ok (Ok <$> outs) ∧
    RangeFilterExec.execute 2 (inr (inr <$> (rows_of_file <$> concat shuffle_files))) self' = Ok (Ok <$> outs') ∧
    concat outs = concat outs'.
Proof.
  destruct (delivered_files_suffice key (Signed 64) (pending 3 1 2) 1 2 [4; 8]%Z shuffle_files file_entries
    rows_of_file) as (self' & remapped & Hr & Hc & _ & Hall).
  - done.
  - split; try done; right; split_and!; done.
  - by apply sample_cuts.
  - apply entries_describe.
  - apply files_readable.
  - vm_compute in Hc. injection Hc as <-. destruct (Hall 2 _ eq_refl) as (_ & outs & outs' & Ho & Ho' & He).
    exists self', outs, outs'. split_and!; [exact Hr|by vm_compute|exact Ho|exact Ho'|exact He].
Defined.

(** ** A small stage *)

Definition stats_of (o : df_result RuntimeStatsExec.t) : RuntimeStatsExec.t :=
  match o with Ok s => s | _ => RuntimeStatsExec.mk _ _ None [] None end.

Definition part_rows (task : N) (p : nat) : list (option Z) := default [] (task_rows task !! p).
Definition started : RuntimeStatsExec.t :=
  stats_of (RuntimeStatsExec.try_new 2 (λ _, inr Int64) coin_seed (Some [(key, nulls_lead)])).
Definition halfway (task : N) : RuntimeStatsExec.t :=
  stats_of (RuntimeStatsExec.ingest 0 (part_rows task 0) started).
Definition observed (task : N) : RuntimeStatsExec.t :=
  stats_of (RuntimeStatsExec.ingest 1 (part_rows task 1) (halfway task)).

Definition report_of (task : N) : RuntimeStatsReport.t :=
  match stats_to_report (observed task) with
  | Ok r => r
  | _ => RuntimeStatsReport.mk _ _ _ [] [] None
  end.

Definition task_producer (task : N) : producer := mkProducer task (report_of task) (task_rows task).

Lemma task_produced task :
  task = 1%N ∨ task = 2%N → produced key (Signed 64) nulls_lead [] 2 (task_producer task).
Proof.
  intros Ht. exists (observed task). split; [|by destruct Ht; subst; vm_compute].
  assert (∀ p, p < 2 → evaluates key (Signed 64) (part_rows task p)) as He.
  { intros p Hp. apply (ascends_readable (pending 2 0 0) None).
    destruct Ht; subst; destruct p as [|[|p]]; done || lia. }
  assert (pr_parts (task_producer task)
    = <[1 := [] ++ part_rows task 1]> (<[0 := [] ++ part_rows task 0]> (replicate 2 []))) as ->
    by by destruct Ht; subst.
  apply (Ran_ingest _ _ _ _ 2 (halfway task) _ 1); [|done|by apply He; lia|by destruct Ht; subst; vm_compute].
  apply (Ran_ingest _ _ _ _ 2 started _ 0); [|done|by apply He; lia|by destruct Ht; subst; vm_compute].
  by apply (Ran_new _ _ _ _ 2 (λ _, inr Int64) coin_seed).
Qed.

Definition sample_routing : RangeRepartitionRouting := mkRouting [int 3] true key.

Lemma range_shuffle_delivers_each_row_once_witness :
  let prs := [task_producer 1; task_producer 2] in
  repartition_routing coin_seed (pr_report <$> prs) key = Ok (Some sample_routing) ∧
  ∃ self' remapped outs,
    RangeFilterExec.resolve_bounds (raw_bounds_from_cuts [int 3]) (pending 2 0 0) = Ok self' ∧
    cut_partitions shuffle_files
      ((λ pr, (pr_task pr, RuntimeStatsReport.partitions (pr_report pr))) <$> prs) [int 3] (int 0) (int 0) true
      = Ok remapped ∧
    length remapped = length outs ∧
    concat outs ≡ₚ [None; Some 3; Some 8; Some 1; Some 4; Some 9; Some 5]%Z.
Proof.
  intros prs.
  assert (repartition_routing coin_seed (pr_report <$> prs) key = Ok (Some sample_routing)) as Hrt by by vm_compute.
  split; [exact Hrt|].
  destruct (range_shuffle_delivers_each_row_once key (Signed 64) nulls_lead [] coin_seed 2 prs (pending 2 0 0)
    shuffle_files rows_of_file) as (routing & Hr & _ & Hall & _).
  1-5: done || lia.
  - apply Forall_cons. split; [|apply Forall_singleton]; apply task_produced; auto.
  - apply NoDup_cons. split; [by rewrite list_elem_of_singleton|]. apply NoDup_singleton.
  - by vm_compute.
  - by vm_compute.
  - by vm_compute.
  - by vm_compute.
  - by vm_compute.
  - by vm_compute.
  - apply Forall_cons. split; [|apply Forall_cons; split; [|apply Forall_cons; split; [|apply Forall_singleton]]].
    + exists (task_producer 1). split_and!; [left|reflexivity..].
    + exists (task_producer 2). split_and!; [right; left|reflexivity..].
    + exists (task_producer 1). split_and!; [left|reflexivity..].
    + exists (task_producer 2). split_and!; [right; left|reflexivity..].
  - apply files_readable.
  - rewrite Hrt in Hr. injection Hr as <-.
    destruct Hall as (_ & self' & remapped & outs & H1 & H2 & H3 & H4);
      [exists (Some 3%Z); split; [by apply (bool_decide_unpack _); vm_compute|by eexists]|].
    exists self', remapped, outs. split_and!; [exact H1|exact H2| |exact H4].
    apply Forall2_length in H3. by rewrite length_seq in H3.
Defined.

(** ** Paths, splits and wrapping *)

Definition resolved : RangeFilterExec.t :=
  match RangeFilterExec.resolve_bounds (raw_bounds_from_cuts [int 4; int 8]) (pending 3 1 2) with
  | Ok self => self
  | _ => pending 3 1 2
  end.

Definition sample_items : list (fallible (list (option Z))) :=
  [inr [None; Some 1; Some 2]; inr [Some 3; Some 5; Some 11]; inr [Some 20]; inl (internal_err "read failed");
   inr [Some 4; Some 6]]%Z.

(** The middle range with its halos is from 3 up to 10. *)
Lemma fast_path_is_the_filter_witness :
  RangeFilterExec.execute 1 (inr sample_items) resolved = RangeFilterExec.execute 1 (inr sample_items) (unsorted resolved) ∧
  RangeFilterExec.execute 1 (inr sample_items) resolved
    = Ok [Ok [Some 3; Some 5]%Z; Err (internal_err "read failed"); Ok [Some 4; Some 6]%Z].
Proof.
  split; [|by vm_compute].
  apply (fast_path_is_the_filter key (Signed 64) resolved
    (mkBounds (raw_bounds_from_cuts [int 4; int 8]) [(None, Some (int 6)); (Some (int 3), Some (int 10)); (Some (int 7), None)])
    1 (Some 3%Z) (Some 10%Z) sample_items); [by vm_compute..|].
  assert (∀ rows, ascends None rows = true → ∀ batch, inr rows = (inr batch : fallible (list (option Z))) →
    evaluates key (Signed 64) batch ∧ sorted_batch key (Signed 64) batch) as Hok.
  { intros rows Hr batch [= <-]. destruct (ascends_readable resolved None rows Hr) as [He Hs].
    split; [exact He|]. apply Hs. by vm_compute. }
  repeat (apply Forall_cons; split; [first [by apply Hok|done]|]). constructor.
Defined.

Lemma split_agrees_with_filter_witness :
  ∃ buckets, split_batch_by_range [None; Some 3; Some 4; Some 8; Some 9]%Z key [int 4; int 8] nulls_lead = Ok buckets ∧
    buckets = [[None; Some 3]; [Some 4]; [Some 8; Some 9]]%Z ∧
    concat buckets ≡ₚ [None; Some 3; Some 4; Some 8; Some 9]%Z.
Proof.
  destruct (split_agrees_with_filter key (Signed 64) (pending 3 0 0) [4; 8]%Z nulls_lead
    [None; Some 3; Some 4; Some 8; Some 9]%Z) as [(x & Hx & _)|(self' & buckets & _ & Hb & _ & Hp)].
  - done.
  - apply (sample_cuts 0 0); lia.
  - split; try done; left; done.
  - done.
  - by vm_compute.
  - by apply (ascends_readable _ None).
  - done.
  - by vm_compute in Hx.
  - exists buckets. split; [exact Hb|]. split; [|exact Hp]. vm_compute in Hb. by injection Hb.
Defined.

Definition unsigned (v : Z) : ScalarValue := mkScalar UInt64 (Some v).

Definition unsigned_entry : RuntimeStatsPartitionEntry.t :=
  RuntimeStatsPartitionEntry.mk _ 0 2 [unsigned 1] [unsigned 5] 0.

(** Keys from 1 to 5, cuts at 10 and 20, and a halo of 2 on both sides *)
Lemma unsigned_halo_panics_witness :
  cut_partitions [[shuffle_file 1 0 2]]
    [(1%N, [unsigned_entry])]
    [unsigned 10; unsigned 20] (unsigned 2) (unsigned 2) true = Panic.
Proof.
  apply (unsigned_halo_panics UInt64 64 [10; 20]%Z 2 2 1 5 _ (shuffle_file 1 0 2) _
    unsigned_entry (unsigned 1) (unsigned 5) 1%N true).
  1-2, 5-14, 16-19: done || lia.
  - repeat constructor; done || lia.
  - intros [|[|i]] a b; cbn; try done. intros [= <-] [= <-]. lia.
  - by vm_compute.
Defined.
End sample.
