(* ===== verification/RangeFileTheorems.v ===== *)
(** * Properties of range shuffle files *)

From S2P Require Import Prelude Errors Machine Types Kll SortKey SortKeyFacts KeySketch.
From S2P Require Import Range RangeFacts RangeRouting RangeIndex RangeIndexFacts DataSample RangeTheorems.
From stdpp Require Import numbers gmap sorting.

Section files.
Context `{IndexOps, !ScalarOps} {SL : ScalarLaws} `{!ExprLaws} {IL : IndexLaws} `{RowFormat} {RL : RowLaws}.
Context (e : RoutingExpr) (n : native) (o : SortOptions) (rest : list (RoutingExpr * SortOptions)).

Abbreviation ordering := ((e, o) :: rest).
Abbreviation sc v := (mkScalar (type_of e) (Some v)).
Abbreviation kept lo hi := (λ r, kept e n (nulls_first o) lo hi r = true).

(** A file that was written with its index: the batches are in the order of the key,
    the IPC writer reports its blocks in the order of the file. *)
Record written (write : list (list Row) → result (FileLayout * N)) (batches : list (list Row))
    (index : IndexBatch) : Prop := {
  wr_sortable : dispatch_sortable (type_of e) = Some n;
  wr_asc : descending o = false;
  wr_write : ∃ schema items stats, index_schema ordering = Ok schema ∧
    write_partition ordering schema items write = Ok (stats, batches, index);
  wr_layout : ∀ bs layout size, write bs = Ok (layout, size) → in_file_order layout;
  wr_sorted : StronglySorted (row_before e n (nulls_first o)) (concat batches);
  wr_range : Forall (λ r, from_option (in_range n) True (row_key e r)) (concat batches);
}.

(** The selection of a written file: a run of its batches *)
Lemma written_selects write batches index lo hi :
  written write batches index → from_option (in_range n) True lo → from_option (in_range n) True hi →
  ∃ s c, open_ipc_file_range (length batches) (Some (Ok index)) ((λ v, sc v) <$> lo) ((λ v, sc v) <$> hi)
      = Ok (seq s c) ∧ s + c ≤ length batches ∧
    (∃ found, select_record_batches index ((λ v, sc v) <$> lo) ((λ v, sc v) <$> hi)
        (schema_descending (index_schema_of index)) = Ok found ∧
      match found with Some l => l = seq s c | None => s = 0 ∧ c = length batches end) ∧
    ∃ lost, filter (kept lo hi) (concat batches) = lost ++ filter (kept lo hi) (concat (take c (drop s batches))) ∧
      ∀ r, r ∈ lost → ∃ l v b r' rs w, lo = Some l ∧ row_key e r = Some v ∧ order_of n v = order_of n l ∧
        batches !! s = Some b ∧ b = r' :: rs ∧ row_key e r' = Some w ∧ order_of n w = order_of n l.
Proof using SL IL RL.
  intros [Hd Ho (schema & items & stats & Hsch & Hwp) Hlay Hs Hr] Hlo Hhi.
  destruct (written_index e n Hd o rest schema items write stats batches index Hlay Hsch Hwp)
    as (keys & layout & size & Hk & Hio & Hord & Hdesc & _).
  destruct (index_selects keys _ index Hio Hord) as (ws & d & Hheads & _ & Hsel).
  unfold open_ipc_file_range, select_local_batches. cbn [obind]. rewrite Hsel, Hdesc, Ho. cbn [obind].
  destruct (forallb _ ws) eqn:Hnn.
  - destruct (keys_start e n Hd o rest batches keys ws Hk Hheads Hnn) as (fs & Hfs & ->).
    assert (Forall (in_range n) fs) as Hfr.
    { apply Forall_lookup. intros i v Hv. destruct (Forall2_lookup_r _ _ _ _ _ Hfs Hv) as (b & Hb & r & rs & -> & Hrk).
      rewrite Forall_forall in Hr. specialize (Hr r). rewrite Hrk in Hr. apply Hr. apply elem_of_concat.
      exists (r :: rs). split; [left|]. by eapply list_elem_of_lookup_2. }
    pose proof (Forall2_length _ _ _ Hfs) as Hlen.
    pose proof (select_start_le e fs ((λ v, sc v) <$> lo)). pose proof (select_end_le e fs ((λ v, sc v) <$> hi)).
    eexists _, _. split; [done|]. split; [lia|]. split; [by eexists|].
    eexists. split; [by apply (selection_rows e n Hd (nulls_first o) batches fs lo hi)|].
    intros r (Hkept & Hin)%list_elem_of_filter.
    destruct (lost_rows e n Hd (nulls_first o) batches fs lo hi Hs Hfs Hfr Hlo Hhi r Hin Hkept)
      as (l & v & w & El & Ev & Hv & Ew & Hw).
    destruct (Forall2_lookup_r _ _ _ _ _ Hfs Ew) as (b & Hb & r' & rs & Eb & Er).
    by exists l, v, b, r', rs, w.
  - exists 0, (length batches). split; [done|]. split; [lia|]. split; [by exists None|]. exists [].
    rewrite drop_0, take_ge by lia. split; [done|]. by intros r ?%elem_of_nil.
Qed.

(** C28. A narrowed read loses at most rows that tie with the lower end of the range.
    For a file and its index, the local read of a range succeeds with batches the file
    has; of the rows the filter above keeps of the whole file, those it keeps of the
    batches read are a suffix, and each row before them has the key of the lower end,
    as has the first row of the first batch read. So nothing is lost if no batch starts
    at the lower end of the range. *)
Theorem narrowed_read_loses_only_ties write batches index lo hi :
  written write batches index → from_option (in_range n) True lo → from_option (in_range n) True hi →
  ∃ ordinals read lost,
    open_ipc_file_range (length batches) (Some (Ok index)) ((λ v, sc v) <$> lo) ((λ v, sc v) <$> hi)
      = Ok ordinals ∧
    selected_batches batches ordinals = inr <$> read ∧
    filter (kept lo hi) (concat batches) = lost ++ filter (kept lo hi) (concat read) ∧
    (∀ r, r ∈ lost → ∃ l v, lo = Some l ∧ row_key e r = Some v ∧ order_of n v = order_of n l) ∧
    ((∀ l r rs w, lo = Some l → r :: rs ∈ batches → row_key e r = Some w → order_of n w ≠ order_of n l) →
      lost = []).
Proof using SL IL RL.
  intros Hw Hlo Hhi.
  destruct (written_selects write batches index lo hi Hw Hlo Hhi) as (s & c & Hopen & Hsc & _ & lost & Hrows & Hlost).
  exists (seq s c), (take c (drop s batches)), lost. split_and!; [done|by apply selected_run|done| |].
  - intros r Hr. destruct (Hlost r Hr) as (l & v & _ & _ & _ & _ & ? & ? & ? & _). by exists l, v.
  - intros Hties. destruct lost as [|r lost]; [done|].
    destruct (Hlost r ltac:(left)) as (l & v & b & r' & rs & w & El & _ & _ & Hb & -> & Er & Hw').
    destruct (Hties l r' rs w El); [by eapply list_elem_of_lookup_2|done..].
Qed.

(** A remote read fetches the batches a local one reads. The request for a file is
    for no bytes at all if no batch is selected, and else for the blocks of some
    dictionaries, among them every one that is before the last batch selected, and
    then for the bytes of the selected batches, each once and in their order, however
    they are merged to ranges. *)
Theorem remote_read_fetches_the_selection {Stream Message : Type} write batches index layout size lo hi
    (message : Message) (fetch_data : list ByteRange → Message → result Stream) (empty : Stream) :
  written write batches index → from_option (in_range n) True lo → from_option (in_range n) True hi →
  write batches = Ok (layout, size) → Forall (λ b, fits (block_range b)) (record_batches layout) →
  ∃ s c,
    open_ipc_file_range (length batches) (Some (Ok index)) ((λ v, sc v) <$> lo) ((λ v, sc v) <$> hi)
      = Ok (seq s c) ∧
    if c =? 0 then
      fetch_ranges_with (Ok [index]) (Ok message) fetch_data empty ((λ v, sc v) <$> lo) ((λ v, sc v) <$> hi)
        = Ok empty
    else
      ∃ dicts merged,
        fetch_ranges_with (Ok [index]) (Ok message) fetch_data empty ((λ v, sc v) <$> lo) ((λ v, sc v) <$> hi)
          = fetch_data (dicts ++ merged) message ∧
        bytes merged = bytes (block_range <$> take c (drop s (record_batches layout))) ∧
        Forall (λ r, ∃ b, b ∈ dictionaries layout ∧ r = block_range b) dicts ∧
        ∀ b block, b ∈ dictionaries layout → record_batches layout !! (s + c - 1) = Some block →
          (block_offset b < block_offset block)%N → block_range b ∈ dicts.
Proof using SL IL RL.
  intros Hw Hlo Hhi Hwr Hfits.
  destruct (written_selects write batches index lo hi Hw Hlo Hhi)
    as (s & c & Hopen & Hsc & (found & Hsel & Hfound) & _).
  exists s, c. split; [done|]. destruct Hw as [Hd _ (schema & items & stats & Hsch & Hwp) Hlay _ _].
  destruct (written_index e n Hd o rest schema items write stats batches index Hlay Hsch Hwp)
    as (keys & layout' & size' & Hk & Hio & Hord & _ & Hwr' & Hlen). rewrite Hwr in Hwr'. injection Hwr' as <- <-.
  unfold fetch_ranges_with. cbn [obind]. rewrite Hsel. cbn [obind].
  assert (match found with Some l => Ok l
    | None => let? n := count_record_batches index in Ok (seq 0 n) end = Ok (seq s c)) as ->.
  { destruct found as [l|]; [by subst|]. destruct Hfound as [-> ->].
    rewrite (index_counts keys _ index Hio), Hord, length_seq. cbn [obind].
    by rewrite (Forall2_length _ _ _ Hk). }
  cbn [obind]. destruct c as [|c]; [done|]. cbn [Nat.eqb].
  destruct (byte_ranges_of_run keys layout index s c Hio ltac:(by eapply Hlay) Hfits ltac:(lia))
    as (dicts & merged & Hb & ? & ? & ?).
  exists dicts, merged. rewrite Hb. cbn [obind]. replace (s + S c - 1) with (s + c) by lia. done.
Qed.
End files.

(** ** A small file *)

Section sample.
#[local] Existing Instances plain_scalars plain_scalar_laws plain_exprs plain_expr_laws.
#[local] Existing Instances plain_index plain_index_laws plain_rows plain_row_laws.

(** A writer whose blocks are 100 bytes, after a dictionary *)
Definition plain_write (batches : list (list (option Z))) : result (FileLayout * N) :=
  Ok (mkLayout [mkBlock 8 92] ((λ i, mkBlock (100 + N.of_nat i * 100) 100) <$> seq 0 (length batches)),
      (100 + N.of_nat (length batches) * 100)%N).

Definition plain_batches : list (list (option Z)) :=
  [[Some 1; Some 3]; [Some 3; Some 3]; [Some 3; Some 5]; [Some 8]]%Z.

Definition plain_schema : Schema :=
  match index_schema [(key, nulls_lead)] with Ok schema => schema | _ => mkSchema [] ∅ end.

Definition plain_file : PartitionStats * list (list (option Z)) * IndexBatch :=
  match write_partition [(key, nulls_lead)] plain_schema (inr <$> plain_batches) plain_write with
  | Ok file => file
  | _ => (mkPartitionStats None None None, [], mkIndex plain_schema [])
  end.

Lemma plain_layout batches layout size : plain_write batches = Ok (layout, size) → in_file_order layout.
Proof.
  intros [= <- <-] i a b Ha Hb. cbn in Ha, Hb. rewrite list_lookup_fmap in Ha, Hb.
  destruct (seq 0 (length batches) !! i) as [x|] eqn:Hx; [|done].
  destruct (seq 0 (length batches) !! S i) as [y|] eqn:Hy; [|done]. injection Ha as <-. injection Hb as <-.
  apply lookup_seq in Hx as [-> _], Hy as [-> _]. cbn. lia.
Qed.

Lemma sample_written : written key (Signed 64) nulls_lead [] plain_write plain_batches plain_file.2.
Proof.
  split; [done|done| | | |].
  - exists plain_schema, (inr <$> plain_batches), plain_file.1.1. split; by vm_compute.
  - apply plain_layout.
  - cbn. repeat constructor; cbn; lia || done.
  - repeat constructor; done.
Qed.

(** A read from 3 up to 8 is given the last batch that starts with 3: the three rows
    with 3 before it are lost. *)
Lemma narrowed_read_loses_only_ties_witness :
  ∃ lost,
    open_ipc_file_range 4 (Some (Ok plain_file.2)) (Some (int 3)) (Some (int 8)) = Ok [2] ∧
    lost = [Some 3; Some 3; Some 3]%Z ∧
    filter (λ r, kept key (Signed 64) true (Some 3%Z) (Some 8%Z) r = true) (concat plain_batches)
      = lost ++ [Some 3; Some 5]%Z ∧
    ∀ r, r ∈ lost → ∃ l v, Some 3%Z = Some l ∧ row_key key r = Some v ∧ order_of (Signed 64) v = order_of (Signed 64) l.
Proof.
  destruct (narrowed_read_loses_only_ties key (Signed 64) nulls_lead [] plain_write plain_batches plain_file.2
    (Some 3%Z) (Some 8%Z) sample_written) as (ordinals & read & lost & Ho & Hs & Hr & Hl & _); [by vm_compute..|].
  exists lost. split; [by vm_compute|]. vm_compute in Ho. injection Ho as <-. vm_compute in Hs.
  destruct read as [|b [|b' read]]; try done. injection Hs as <-.
  change (filter (λ r, kept key (Signed 64) true (Some 3%Z) (Some 8%Z) r = true) (concat plain_batches)
    = lost ++ [Some 3; Some 5]%Z) in Hr.
  split; [|split; [exact Hr|exact Hl]].
  apply (app_inv_tail [Some 3; Some 5]%Z). symmetry. exact Hr.
Defined.

(** The same read fetches the dictionary and the third block. *)
Lemma remote_read_fetches_the_selection_witness :
  ∃ dicts merged,
    fetch_ranges_with (Ok [plain_file.2]) (Ok tt) (λ ranges _, Ok ranges) [] (Some (int 3)) (Some (int 8))
      = Ok (dicts ++ merged) ∧
    bytes merged = bytes [mkByteRange 300 100] ∧ mkByteRange 8 92 ∈ dicts.
Proof.
  destruct (remote_read_fetches_the_selection key (Signed 64) nulls_lead [] plain_write plain_batches plain_file.2
    (mkLayout [mkBlock 8 92] ((λ i, mkBlock (100 + N.of_nat i * 100) 100) <$> seq 0 4)) 500
    (Some 3%Z) (Some 8%Z) tt (λ ranges _, Ok ranges) [] sample_written) as (s & c & Ho & Hf).
  1-3: by vm_compute.
  - repeat constructor; by vm_compute.
  - assert (s = 2 ∧ c = 1) as [-> ->].
    { vm_compute in Ho. destruct c as [|[|c]]; try done. by injection Ho as ->. }
    destruct Hf as (dicts & merged & Hf & Hb & _ & Hd).
    exists dicts, merged. split; [exact Hf|]. split; [exact Hb|].
    apply (Hd (mkBlock 8 92) (mkBlock 300 100)); [left|done|done].
Defined.
End sample.
