(* ===== verification/SortShuffle.v ===== *)
(** * The sort shuffle

    Models [ballista/core/src/execution_plans/sort_shuffle/]: the reduction of hashes
    to partitions, the buffer of batches, spilling, the data file a task writes for
    all its input partitions and the index beside it, the coordinator that answers
    the output partitions ([writer.rs], [buffer.rs], [partitioned_batch_iterator.rs],
    [spill.rs], [index.rs]), and the read of a partition ([reader.rs],
    [multi_stream_reader.rs]).

    Files are lists of bytes, and operations on files succeed. What the memory pool
    answers and how much vectors grow are arguments, since both depend on the rest
    of the process. The hashes, the gathering of rows and the encoding of a stream of
    batches are DataFusion's and Arrow's ([ShuffleOps], [ShuffleLaws]). *)

From S2P Require Import Prelude Errors Machine Types SortKey Range.
From stdpp Require Import numbers gmap.

(** ** Reducing hashes *)

Definition u64_sub (a b : N) : N := ((a + 2 ^ 64 - b) `mod` 2 ^ 64)%N.

(** [u64::is_power_of_two] *)
Definition is_power_of_two (n : N) : bool := (0 <? n)%N && (n =? 2 ^ N.log2 n)%N.

Module StrengthReducedU64.
Inductive t : Type :=
| PowerOfTwo (mask : N)
| Reciprocal (divisor reciprocal : N).

(** Dividing by zero panics. *)
Definition new (divisor : N) : df_result t :=
  if is_power_of_two divisor then Ok (PowerOfTwo (divisor - 1))
  else if (divisor =? 0)%N then Panic
  else Ok (Reciprocal divisor ((2 ^ 128 - 1) / divisor + 1)).

Definition divisor (self : t) : N :=
  match self with
  | PowerOfTwo mask => mask + 1
  | Reciprocal divisor _ => divisor
  end.

(** The high 128 bits of a product of 192 bits *)
Definition quotient (value reciprocal : N) : N :=
  let reciprocal_low := (reciprocal `mod` 2 ^ 64)%N in
  let reciprocal_high := (N.shiftr reciprocal 64 `mod` 2 ^ 64)%N in
  let low_product := (value * reciprocal_low)%N in
  let high_product := (value * reciprocal_high)%N in
  let carry := N.shiftr (N.land high_product (2 ^ 64 - 1) + N.shiftr low_product 64) 64 in
  ((N.shiftr high_product 64 + carry) `mod` 2 ^ 64)%N.

(** The partition of a hash *)
Definition partition_of (self : t) (h : N) : N :=
  match self with
  | PowerOfTwo mask => N.land h mask
  | Reciprocal divisor reciprocal => u64_sub h (u64_mul (quotient h reciprocal) divisor)
  end.

Fixpoint partition_indices (self : t) (hash_buffer : list N) (row : nat) (out : list (list nat))
  : df_result (list (list nat)) :=
  match hash_buffer with
  | [] => Ok out
  | h :: hash_buffer' =>
      let? out := push_at (N.to_nat (partition_of self h)) (as_u32 row) out in
      partition_indices self hash_buffer' (S row) out
  end.
End StrengthReducedU64.

(** ** Code of DataFusion and Arrow *)

(** Evaluating the expressions and hashing, NULLs and memory of a batch,
    [interleave_record_batch], the compaction of view columns, and the writer and the
    reader of an IPC stream: [stream_write batches b] is the write of [b] after
    [batches], [stream_finish batches] gives the bytes of the finished stream, and
    [stream_read] the items of the stream at the start of the bytes and how far the
    reader has read when it is at the end. *)
Class ShuffleOps : Type := {
  SRow : Type;
  hash_rows : list SRow → fallible (list N);
  logical_null_counts : list SRow → list N;
  array_memory_size : list SRow → N;
  interleave_record_batch : list (list SRow) → list (nat * nat) → fallible (list SRow);
  has_view_columns : bool;
  gc_views : list SRow → fallible (list SRow);
  stream_start : fallible ();
  stream_write : list (list SRow) → list SRow → fallible ();
  stream_finish : list (list SRow) → fallible (list N);
  stream_read : list N → fallible (list (fallible (list SRow)) * nat);
}.

(** A row has a hash; gathering takes the rows at the positions; compaction keeps
    them; a batch has the columns of the schema; a stream that was written is read
    back, whatever follows it. *)
Class ShuffleLaws `{ShuffleOps} : Type := {
  row_hash : SRow → N;
  hash_range r : is_u64 (row_hash r);
  hashes_of rows hs : hash_rows rows = inr hs → hs = row_hash <$> rows;
  interleave_rows batches indices rows :
    interleave_record_batch batches indices = inr rows →
    Forall2 (λ i r, mbind (.!! i.2) (batches !! i.1) = Some r) indices rows;
  gc_same rows rows' : gc_views rows = inr rows' → rows' = rows;
  num_fields : nat;
  null_width rows : length (logical_null_counts rows) = num_fields;
  read_back batches bytes rest :
    stream_finish batches = inr bytes →
    bytes ≠ [] ∧ stream_read (bytes ++ rest) = inr (inr <$> batches, length bytes);
}.

Section writer.
Context `{ShuffleOps}.

(** The positions of the rows of each partition *)
Definition compute_partition_indices (batch : list SRow) (reducer : StrengthReducedU64.t)
  : df_result (list (list nat)) :=
  let? hash_buffer := of_sum (hash_rows batch) in
  StrengthReducedU64.partition_indices reducer hash_buffer 0
    (replicate (N.to_nat (StrengthReducedU64.divisor reducer)) []).

(** ** The buffer *)

Record BufferedBatches : Type := mkBuffered {
  batches : list (list SRow);
  indices : list (list (nat * nat));
  num_buffered_rows : nat;
}.

Definition buffered_new (num_partitions : nat) : BufferedBatches :=
  mkBuffered [] (replicate num_partitions []) 0.

Definition num_partitions (self : BufferedBatches) : nat := length (indices self).

Definition is_empty (self : BufferedBatches) : bool := bool_decide (batches self = []).

(** [indices[p]] for each list of rows; there may be no more of these. *)
Fixpoint push_indices (batch_idx : nat) (rows : list (list nat)) (indices : list (list (nat * nat)))
  : df_result (list (list (nat * nat))) :=
  match rows, indices with
  | [], _ => Ok indices
  | _ :: _, [] => Panic
  | rs :: rows', dst :: indices' =>
      let? rest := push_indices batch_idx rows' indices' in
      Ok ((dst ++ ((λ r, (batch_idx, r)) <$> rs)) :: rest)
  end.

Definition push_batch (batch : list SRow) (per_partition_rows : list (list nat))
    (self : BufferedBatches) : df_result BufferedBatches :=
  let batch_idx := as_u32 (length (batches self)) in
  let? indices := push_indices batch_idx per_partition_rows (indices self) in
  Ok (mkBuffered (batches self ++ [batch]) indices
        (num_buffered_rows self + length (concat per_partition_rows))).

Definition take_buffered (self : BufferedBatches)
  : (list (list SRow) * list (list (nat * nat))) * BufferedBatches :=
  ((batches self, indices self), mkBuffered [] ((λ _, []) <$> indices self) 0).

(** ** Batches of a partition *)

Definition compact_view_columns (batch : list SRow) : df_result (list SRow) :=
  if has_view_columns then of_sum (gc_views batch) else Ok batch.

Record PartitionedBatchIterator : Type := mkIterator {
  batch_refs : list (list SRow);
  it_indices : list (nat * nat);
  it_batch_size : nat;
  pos : nat;
}.

Definition iterator_new (batches : list (list SRow)) (indices : list (nat * nat)) (batch_size : nat)
  : PartitionedBatchIterator := mkIterator batches indices batch_size 0.

Definition iterator_next (self : PartitionedBatchIterator)
  : option (df_result (list SRow)) * PartitionedBatchIterator :=
  if length (it_indices self) <=? pos self then (None, self)
  else
    let stop := (pos self + it_batch_size self) `min` length (it_indices self) in
    let scratch := take (stop - pos self) (drop (pos self) (it_indices self)) in
    (Some (let? batch := of_sum (interleave_record_batch (batch_refs self) scratch) in
           compact_view_columns batch),
     mkIterator (batch_refs self) (it_indices self) (it_batch_size self) stop).

(** What the iterator yields, if it ends within the fuel *)
Fixpoint iterate (fuel : nat) (self : PartitionedBatchIterator) : option (list (df_result (list SRow))) :=
  match fuel with
  | 0 => None
  | S fuel' =>
      match iterator_next self with
      | (None, _) => Some []
      | (Some item, self) => cons item <$> iterate fuel' self
      end
  end.

(** A batch size of at least one moves on with each batch; with a size of zero the
    iterator does not end, which is a panic here. *)
Definition partition_batches (batches : list (list SRow)) (indices : list (nat * nat)) (batch_size : nat)
  : df_result (list (df_result (list SRow))) :=
  match iterate (S (length indices)) (iterator_new batches indices batch_size) with
  | Some items => Ok items
  | None => Panic
  end.
End writer.

(** ** Spilling *)

Module SpillManager.
(** [spill_files] has what is on disk: nothing until the writer is finished. An
    active writer has the batches written so far. *)
Record t `{ShuffleOps} : Type := mk {
  spill_files : gmap nat (list N);
  active_writers : gmap nat (list (list SRow));
  total_spilled_batches : N;
  total_bytes_spilled : N;
  partition_counters : gmap nat (N * N * N);
}.

Section impl.
Context `{ShuffleOps}.

Definition new : t := mk _ ∅ ∅ 0 0 ∅.

(** The writer of a partition; creating the file empties it. *)
Definition writer (partition_id : nat) (self : t) : result (list (list SRow) * t) :=
  match active_writers self !! partition_id with
  | Some w => Ok (w, self)
  | None =>
      match stream_start with
      | inl e => Err (ballista_of_datafusion e)
      | inr _ =>
          Ok ([], mk _ (<[partition_id := []]> (spill_files self)) (<[partition_id := []]> (active_writers self))
                (total_spilled_batches self) (total_bytes_spilled self) (partition_counters self))
      end
  end.

Definition partition_stats (partition_id : nat) (self : t) : N * N * N :=
  default (0, 0, 0)%N (partition_counters self !! partition_id).

Definition spill (partition_id : nat) (batch : list SRow) (self : t) : result (N * t) :=
  if length batch =? 0 then Ok (0%N, self)
  else
    let? w := writer partition_id self in
    let '(written, self) := w in
    let bytes_written := array_memory_size batch in
    match stream_write written batch with
    | inl e => Err (ballista_of_datafusion e)
    | inr _ =>
        let '(b, r, m) := partition_stats partition_id self in
        Ok (bytes_written,
            mk _ (spill_files self) (<[partition_id := written ++ [batch]]> (active_writers self))
              (u64_add (total_spilled_batches self) 1) (u64_add (total_bytes_spilled self) bytes_written)
              (<[partition_id := (u64_add b 1, u64_add r (N.of_nat (length batch)), u64_add m bytes_written)]>
                 (partition_counters self)))
    end.

(** The writers are drained in the order of the hash map. *)
Fixpoint finish_each (writers : list (nat * list (list SRow))) (files : gmap nat (list N))
  : result (gmap nat (list N)) :=
  match writers with
  | [] => Ok files
  | (partition_id, written) :: writers' =>
      match stream_finish written with
      | inl e => Err (ballista_of_datafusion e)
      | inr bytes => finish_each writers' (<[partition_id := bytes]> files)
      end
  end.

Definition finish_writers `{HashOrder} (self : t) : result t :=
  let? files := finish_each (iter_entries (active_writers self)) (spill_files self) in
  Ok (mk _ files ∅ (total_spilled_batches self) (total_bytes_spilled self) (partition_counters self)).

(** Open writers are finished, whatever comes of it, and the directory is removed. *)
Definition cleanup (self : t) : t :=
  mk _ ∅ ∅ (total_spilled_batches self) (total_bytes_spilled self) (partition_counters self).

(** The file of a partition, if it has one *)
Definition spill_path (partition_id : nat) (self : t) : option (list N) := spill_files self !! partition_id.
End impl.
End SpillManager.

(** ** One input partition *)

Section write.
Context `{ShuffleOps}.

Record SortShuffleConfig : Type := mkConfig { batch_size : nat; memory_limit_per_task_bytes : N }.

Inductive SpillTrigger : Type := MemoryPool | TaskBudget | Both.

Definition classify (pool_rejected budget_reached : bool) : option SpillTrigger :=
  match pool_rejected, budget_reached with
  | true, true => Some Both
  | true, false => Some MemoryPool
  | false, true => Some TaskBudget
  | false, false => None
  end.

(** [DataFusionError::Execution(format!("{e:?}"))] *)
Definition execution_err {A : Type} (o : outcome BallistaError A) : df_result A :=
  match o with
  | Ok a => Ok a
  | Err e => Err (DF_Other "{e:?}")
  | Panic => Panic
  end.

(** Spilling the batches of one partition: their number, their bytes *)
Fixpoint spill_items (partition_id : nat) (items : list (df_result (list SRow)))
    (acc : N * N) (manager : SpillManager.t) : df_result ((N * N) * SpillManager.t) :=
  match items with
  | [] => Ok (acc, manager)
  | item :: items' =>
      let? batch := item in
      let? w := execution_err (SpillManager.spill partition_id batch manager) in
      let '(written, manager) := w in
      spill_items partition_id items' (u64_add acc.1 1, u64_add acc.2 written) manager
  end.

Fixpoint spill_partitions (batches : list (list SRow)) (batch_size : nat) (partition_id : nat)
    (indices : list (list (nat * nat))) (acc : N * N) (manager : SpillManager.t)
  : df_result ((N * N) * SpillManager.t) :=
  match indices with
  | [] => Ok (acc, manager)
  | partition_indices :: indices' =>
      let? r :=
        if bool_decide (partition_indices = []) then Ok (acc, manager)
        else
          let? items := partition_batches batches partition_indices batch_size in
          spill_items partition_id items acc manager in
      spill_partitions batches batch_size (S partition_id) indices' r.1 r.2
  end.

Definition spill_all_partitions (batch_size : nat) (buffered : BufferedBatches) (manager : SpillManager.t)
  : df_result ((N * N) * BufferedBatches * SpillManager.t) :=
  if is_empty buffered then Ok ((0, 0)%N, buffered, manager)
  else
    let '((batches, indices), buffered) := take_buffered buffered in
    let? r := spill_partitions batches batch_size 0 indices (0, 0)%N manager in
    Ok (r.1, buffered, r.2).

(** [null_counts[i] += ...] for each column of a batch *)
Fixpoint add_nulls (counts columns : list N) : df_result (list N) :=
  match columns, counts with
  | [], _ => Ok counts
  | _ :: _, [] => Panic
  | n :: columns', c :: counts' =>
      let? rest := add_nulls counts' columns' in Ok (u64_add c n :: rest)
  end.

(** The state of the loop over the batches *)
Record write_state : Type := mkWrite {
  w_buffered : BufferedBatches;
  w_spill_manager : SpillManager.t;
  w_buffered_bytes : N;
  w_spill_events : N;
  w_null_counts : list N;
}.

(** [usize::saturating_add] *)
Definition usize_saturating_add (a b : N) : N := ((a + b) `min` (2 ^ 64 - 1))%N.

(** One batch: [index_growth] is what the index vectors grew by, [pool_rejected]
    whether the memory pool refused the growth. *)
Definition write_batch (config : SortShuffleConfig) (reducer : StrengthReducedU64.t)
    (index_growth : N) (pool_rejected : bool) (input_batch : list SRow) (st : write_state)
  : df_result write_state :=
  let? null_counts := add_nulls (w_null_counts st) (logical_null_counts input_batch) in
  let? per_partition_rows := compute_partition_indices input_batch reducer in
  let? buffered := push_batch input_batch per_partition_rows (w_buffered st) in
  let growth := (array_memory_size input_batch + index_growth)%N in
  let buffered_bytes := usize_saturating_add (w_buffered_bytes st) growth in
  let memory_limit := memory_limit_per_task_bytes config in
  let budget_reached := (0 <? memory_limit)%N && (memory_limit <=? buffered_bytes)%N in
  match classify pool_rejected budget_reached with
  | None => Ok (mkWrite buffered (w_spill_manager st) buffered_bytes (w_spill_events st) null_counts)
  | Some _ =>
      let? r := spill_all_partitions (batch_size config) buffered (w_spill_manager st) in
      let '((event_batches, _), buffered, manager) := r in
      Ok (mkWrite buffered manager 0
            (if (0 <? event_batches)%N then u64_add (w_spill_events st) 1 else w_spill_events st)
            null_counts)
  end.

(** [pressure] has the growth and the answer of the pool for each batch. *)
Fixpoint write_batches (config : SortShuffleConfig) (reducer : StrengthReducedU64.t)
    (pressure : nat → N * bool) (i : nat) (items : list (fallible (list SRow))) (st : write_state)
  : df_result write_state :=
  match items with
  | [] => Ok st
  | item :: items' =>
      let? input_batch := of_sum item in
      let? st := write_batch config reducer (pressure i).1 (pressure i).2 input_batch st in
      write_batches config reducer pressure (S i) items' st
  end.

Record EncodedStats : Type := mkStats { num_batches : N; num_rows : N; num_bytes : N }.

(** Writing the batches of a partition to a stream *)
Fixpoint encode_items (items : list (df_result (list SRow))) (written : list (list SRow)) (stats : EncodedStats)
  : df_result (list (list SRow) * EncodedStats) :=
  match items with
  | [] => Ok (written, stats)
  | item :: items' =>
      let? batch := item in
      let stats := mkStats (u64_add (num_batches stats) 1)
        (u64_add (num_rows stats) (N.of_nat (length batch)))
        (u64_add (num_bytes stats) (array_memory_size batch)) in
      let? _ := of_sum (stream_write written batch) in
      encode_items items' (written ++ [batch]) stats
  end.

Definition encode_partition (batches : list (list SRow)) (batch_size : nat)
    (partition_indices : list (nat * nat)) : df_result (list N * EncodedStats) :=
  if bool_decide (partition_indices = []) then Ok ([], mkStats 0 0 0)
  else
    let? items := partition_batches batches partition_indices batch_size in
    let? _ := of_sum stream_start in
    let? w := encode_items items [] (mkStats 0 0 0) in
    let? buf := of_sum (stream_finish w.1) in
    Ok (buf, w.2).

Definition encode_buffered_partitions (config : SortShuffleConfig) (buffered : BufferedBatches)
  : df_result (list (list N * EncodedStats)) :=
  let '((batches, indices), _) := take_buffered buffered in
  SortKeySketch.collect (encode_partition batches (batch_size config)) indices.

Record InputPartitionOutput : Type := mkOutput {
  encoded : list (list N);
  in_memory_stats : list EncodedStats;
  spill_manager : SpillManager.t;
  null_counts : list N;
}.

Definition execute_shuffle_write `{HashOrder} (config : SortShuffleConfig) (num_output_partitions : nat)
    (fields : nat) (pressure : nat → N * bool) (stream : fallible (list (fallible (list SRow))))
  : df_result InputPartitionOutput :=
  let? items := of_sum stream in
  let? reducer := StrengthReducedU64.new (N.of_nat num_output_partitions) in
  let? st := write_batches config reducer pressure 0 items
    (mkWrite (buffered_new num_output_partitions) SpillManager.new 0 0 (replicate fields 0%N)) in
  let? manager := execution_err (SpillManager.finish_writers (w_spill_manager st)) in
  let? parts := encode_buffered_partitions config (w_buffered st) in
  Ok (mkOutput parts.*1 parts.*2 manager (w_null_counts st)).
End write.

(** ** The index *)

(** [n.to_le_bytes()] of the low [count] bytes, and back *)
Fixpoint le_bytes (count : nat) (n : N) : list N :=
  match count with
  | 0 => []
  | S count' => (n `mod` 256)%N :: le_bytes count' (n / 256)%N
  end.

Fixpoint from_le_bytes (bytes : list N) : N :=
  match bytes with
  | [] => 0
  | b :: bytes' => (b + 256 * from_le_bytes bytes')%N
  end.

(** The two's complement of an [i64], and [as i64] *)
Definition u64_of_i64 (z : Z) : N := Z.to_N (z `mod` 2 ^ 64).
Definition i64_of_u64 (n : N) : Z := if (n <? 2 ^ 63)%N then Z.of_N n else (Z.of_N n - 2 ^ 64)%Z.

Module ShuffleIndex.
Definition t : Type := list Z.

Definition new (partition_count : nat) : t := replicate (partition_count + 1) 0%Z.

Definition partition_count (self : t) : nat := length self - 1.

Definition set_offset (partition_id : nat) (offset : Z) (self : t) : df_result t :=
  if partition_id <? length self then Ok (<[partition_id := offset]> self) else Panic.

Definition set_total_length (length_ : Z) (self : t) : t :=
  <[length self - 1 := length_]> self.

Definition get_partition_range {E : Type} (partition_id : nat) (self : t) : outcome E (Z * Z) :=
  match self !! partition_id, self !! S partition_id with
  | Some start, Some stop => Ok (start, stop)
  | _, _ => Panic
  end.

Definition header_end_offset {E : Type} (self : t) : outcome E Z :=
  match self !! 0 with Some offset => Ok offset | None => Panic end.

(** The bytes of the file *)
Definition write_to_file (self : t) : list N := concat ((λ offset, le_bytes 8 (u64_of_i64 offset)) <$> self).

(** The entries of a file of a multiple of eight bytes *)
Fixpoint read_entries (count : nat) (bytes : list N) : list Z :=
  match count with
  | 0 => []
  | S count' => i64_of_u64 (from_le_bytes (take 8 bytes)) :: read_entries count' (drop 8 bytes)
  end.

Definition read_from_file (bytes : list N) : result t :=
  let file_size := length bytes in
  if negb (file_size mod 8 =? 0) then
    Err (General (Lit "Invalid index file size: {file_size} (must be multiple of 8)"))
  else
    let entry_count := file_size / 8 in
    if entry_count <? 2 then
      Err (General (Lit "Index file too small: {entry_count} entries (need at least 2)"))
    else Ok (read_entries entry_count bytes).
End ShuffleIndex.

(** ** The file of a task *)

Section task.
Context `{ShuffleOps}.

(** [stream_position()? as i64] *)
Definition position (output : list N) : Z := i64_of_u64 (u64_wrap (N.of_nat (length output))).

(** What one input adds to a partition: its spill file, then its encoded rows *)
Definition append_output (partition_id : nat) (out : InputPartitionOutput) (acc : list N * EncodedStats)
  : df_result (list N * EncodedStats) :=
  let '(output, stats) := acc in
  let '(spill_batches, spill_rows, spill_bytes) :=
    SpillManager.partition_stats partition_id (spill_manager out) in
  let output :=
    match SpillManager.spill_path partition_id (spill_manager out) with
    | Some spill_file => output ++ spill_file
    | None => output
    end in
  match encoded out !! partition_id, in_memory_stats out !! partition_id with
  | Some buf, Some mem =>
      Ok (output ++ buf,
          mkStats (u64_add (u64_add (num_batches stats) spill_batches) (num_batches mem))
            (u64_add (u64_add (num_rows stats) spill_rows) (num_rows mem))
            (u64_add (u64_add (num_bytes stats) spill_bytes) (num_bytes mem)))
  | _, _ => Panic
  end.

Fixpoint append_outputs (partition_id : nat) (outputs : list InputPartitionOutput) (acc : list N * EncodedStats)
  : df_result (list N * EncodedStats) :=
  match outputs with
  | [] => Ok acc
  | out :: outputs' =>
      let? acc := append_output partition_id out acc in
      append_outputs partition_id outputs' acc
  end.

Fixpoint write_partitions (outputs : list InputPartitionOutput) (partitions : list nat)
    (output : list N) (index : ShuffleIndex.t) (stats : list (nat * EncodedStats))
  : df_result (list N * ShuffleIndex.t * list (nat * EncodedStats)) :=
  match partitions with
  | [] => Ok (output, index, stats)
  | partition_id :: partitions' =>
      let? index := ShuffleIndex.set_offset partition_id (position output) index in
      let? acc := append_outputs partition_id outputs (output, mkStats 0 0 0) in
      write_partitions outputs partitions' acc.1 index (stats ++ [(partition_id, acc.2)])
  end.

Record FinalizeResult : Type := mkFinal {
  f_data : list N;
  f_index : list N;
  f_stats : list (nat * EncodedStats);
}.

Definition write_task_consolidated (outputs : list InputPartitionOutput) : df_result FinalizeResult :=
  let num_partitions := match outputs with o :: _ => length (encoded o) | [] => 0 end in
  let? _ := of_sum stream_start in
  let? header := of_sum (stream_finish []) in
  let? w := write_partitions outputs (seq 0 num_partitions) header (ShuffleIndex.new num_partitions) [] in
  let '(output, index, stats) := w in
  let index := ShuffleIndex.set_total_length (position output) index in
  Ok (mkFinal output (ShuffleIndex.write_to_file index) stats).

(** ** The coordinator *)

(** The end of a spawned write: its result, or a panic, which the task does not pass on *)
Inductive joined : Type :=
| Finished (r : DataFusionError + InputPartitionOutput)
| JoinError.

Definition spawned (o : df_result InputPartitionOutput) : joined :=
  match o with
  | Ok output => Finished (inr output)
  | Err e => Finished (inl e)
  | Panic => JoinError
  end.

Fixpoint join_writes (writes : list joined) (outputs : list InputPartitionOutput)
  : list InputPartitionOutput * option DataFusionError :=
  match writes with
  | [] => (outputs, None)
  | Finished (inr output) :: writes' => join_writes writes' (outputs ++ [output])
  | Finished (inl e) :: _ => (outputs, Some e)
  | JoinError :: _ => (outputs, Some (DF_Other "write task panicked: {join_err}"))
  end.

(** [resize] to at least as many columns, and the sum of each *)
Definition fold_nulls (total counts : list N) : list N :=
  let total := total ++ replicate (length counts - length total) 0%N in
  zip_with u64_add (take (length counts) total) counts ++ drop (length counts) total.

(** The summary of an output partition, if it has rows *)
Definition summary (k : nat) (file_id : N) (stat : nat * EncodedStats) : list ShuffleWritePartition.t :=
  let '(part_id, s) := stat in
  if (0 <? num_rows s)%N && (part_id <? k)
  then [ShuffleWritePartition.mk part_id (num_batches s) (num_rows s) (num_bytes s) (Some file_id) true]
  else [].

Fixpoint group_summaries (k : nat) (file_id : N) (stats : list (nat * EncodedStats))
    (grouped : list (list ShuffleWritePartition.t)) : list (list ShuffleWritePartition.t) :=
  match stats with
  | [] => grouped
  | stat :: stats' =>
      group_summaries k file_id stats' (alter (λ b, b ++ summary k file_id stat) stat.1 grouped)
  end.

Record coordinated : Type := mkCoordinated {
  column_null_counts : list N;
  c_file : option FinalizeResult;
  cleaned : list SpillManager.t;
  sent : list (DataFusionError + list ShuffleWritePartition.t);
}.

(** [writes] are in the order in which they end. A panic of the coordinator leaves
    the receivers without an answer. *)
Definition run_coordinator (k : nat) (task_id : N) (writes : list joined) : option coordinated :=
  let '(outputs, first_error) := join_writes writes [] in
  let nulls := foldl (λ total o, fold_nulls total (null_counts o)) [] outputs in
  let managers := (λ o, SpillManager.cleanup (spill_manager o)) <$> outputs in
  match first_error with
  | Some e => Some (mkCoordinated nulls None managers (replicate k (inl e)))
  | None =>
      if bool_decide (outputs = []) then Some (mkCoordinated nulls None managers (replicate k (inr [])))
      else
        match write_task_consolidated outputs with
        | Ok r => Some (mkCoordinated nulls (Some r) managers
                    (inr <$> group_summaries k task_id (f_stats r) (replicate k [])))
        | Err e => Some (mkCoordinated nulls None managers (replicate k (inl e)))
        | Panic => None
        end
  end.
End task.

(** The receivers of the output partitions, and the calls of [execute] *)
Record WriterState : Type := mkWriter { initialized : bool; handoffs : list (option nat) }.

Definition writer_state_new (output_partition_count : nat) : WriterState :=
  mkWriter false (replicate output_partition_count None).

(** The partitioning of the output; other partitionings than by hash are refused. *)
Inductive Partitioning : Type := Hash (partitions : nat) | OtherPartitioning.

Definition try_new (shuffle_output_partitioning : Partitioning) : df_result WriterState :=
  match shuffle_output_partitioning with
  | Hash 0 => Err (DF_Other "SortShuffleWriterExec requires at least one output partition")
  | Hash partitions => Ok (writer_state_new partitions)
  | OtherPartitioning => Err (DF_Other "SortShuffleWriterExec only supports Hash partitioning, got: {other:?}")
  end.

(** The receiver a call gets, and whether the call starts the coordinator *)
Definition execute (partition : nat) (state : WriterState) : df_result nat * bool * WriterState :=
  let handoffs := if initialized state then handoffs state else Some <$> seq 0 (length (handoffs state)) in
  match handoffs !! partition with
  | Some (Some rx) => (Ok rx, negb (initialized state), mkWriter true (<[partition := None]> handoffs))
  | _ =>
      (Err (DF_Other "SortShuffleWriterExec: execute({partition}) called twice or out of range (have {} partitions)"),
       negb (initialized state), mkWriter true handoffs)
  end.

(** ** Reading a partition *)

Section reader.
Context `{ShuffleOps}.

(** [Reading] has the items to come and where the reader is after them. *)
Inductive read_state : Type :=
| Pending (next : N)
| Reading (items : list (fallible (list SRow))) (stop : N)
| Done.

Record MultiStreamPartitionStream : Type := mkMulti {
  data_path : list N;
  end_offset : N;
  state : read_state;
}.

Definition multi_stream_new (data_path : list N) (start_offset end_offset : N) : MultiStreamPartitionStream :=
  mkMulti data_path end_offset (if (end_offset <=? start_offset)%N then Done else Pending start_offset).

(** [None] when the loop has not ended within the fuel *)
Fixpoint next_batch (fuel : nat) (self : MultiStreamPartitionStream)
  : option (fallible (option (list SRow)) * MultiStreamPartitionStream) :=
  let goto s := mkMulti (data_path self) (end_offset self) s in
  match fuel with
  | 0 => None
  | S fuel' =>
      match state self with
      | Done => Some (inr None, goto Done)
      | Reading (inr batch :: items) stop => Some (inr (Some batch), goto (Reading items stop))
      | Reading (inl e :: _) _ => Some (inl e, goto Done)
      | Reading [] stop =>
          next_batch fuel' (goto (if (stop <? end_offset self)%N then Pending stop else Done))
      | Pending next =>
          if (end_offset self <=? next)%N then Some (inr None, goto Done)
          else
            match stream_read (drop (N.to_nat next) (data_path self)) with
            | inl e => Some (inl e, goto Done)
            | inr (items, read) => next_batch fuel' (goto (Reading items (next + N.of_nat read)))
            end
      end
  end.

(** What polling yields until the stream ends, within the fuel *)
Fixpoint poll_all (fuel : nat) (self : MultiStreamPartitionStream) : option (list (fallible (list SRow))) :=
  match fuel with
  | 0 => None
  | S fuel' =>
      match next_batch fuel self with
      | None => None
      | Some (inr None, _) => Some []
      | Some (inr (Some batch), self) => cons (inr batch) <$> poll_all fuel' self
      | Some (inl e, self) => cons (inl e) <$> poll_all fuel' self
      end
  end.

Definition stream_sort_shuffle_partition (data index_file : list N) (partition_id : nat)
  : result MultiStreamPartitionStream :=
  let? index := ShuffleIndex.read_from_file index_file in
  if ShuffleIndex.partition_count index <=? partition_id then
    Err (General (Lit "Partition {partition_id} not found in index (max: {})"))
  else
    match stream_read data with
    | inl e => Err (ballista_of_datafusion e)
    | inr _ =>
        let? range := ShuffleIndex.get_partition_range partition_id index in
        let '(start, stop) := range in
        if (start <? 0)%Z || (stop <? start)%Z then
          Err (General (Lit "Invalid partition byte range for partition {partition_id}: ({start}, {end})"))
        else Ok (multi_stream_new data (Z.to_N start) (Z.to_N stop))
    end.
End reader.
