(* ===== verification/SortShuffleFacts.v ===== *)
(** * Lemmas on the sort shuffle

    Reducing hashes, the buffer and the spill files of an input partition, the layout
    of the file of a task, and the read of a partition. *)

From S2P Require Import Prelude Errors Machine Types SortKey KeySketch Range RangeFacts RangeRouting SortShuffle.
From stdpp Require Import numbers gmap.

(** ** Reducing hashes *)

Section reducer.
Implicit Types (v d n : N).
Open Scope N_scope.

Lemma power_of_two_spec n : is_power_of_two n = true ↔ ∃ k, n = 2 ^ k.
Proof.
  unfold is_power_of_two. rewrite andb_true_iff, N.ltb_lt, N.eqb_eq. split.
  - intros [_ Hn]. by exists (N.log2 n).
  - intros [k ->]. rewrite N.log2_pow2 by lia. split; [|done]. apply N.neq_0_lt_0. by apply N.pow_nonzero.
Qed.

(** The product with the reciprocal, from its two halves *)
Lemma high_bits v r :
  v < 2 ^ 64 → r < 2 ^ 128 → StrengthReducedU64.quotient v r = (v * r / 2 ^ 128) `mod` 2 ^ 64.
Proof.
  intros Hv Hr. unfold StrengthReducedU64.quotient.
  rewrite !N.shiftr_div_pow2, (N.mod_small (r / 2 ^ 64)).
  2:{ apply N.Div0.div_lt_upper_bound. by change (2 ^ 64 * 2 ^ 64) with (2 ^ 128). }
  change (2 ^ 64 - 1) with (N.ones 64). rewrite N.land_ones. f_equal.
  pose proof (N.Div0.div_mod r (2 ^ 64)) as Er. set (hi := r / 2 ^ 64) in *. set (lo := r `mod` 2 ^ 64) in *.
  clearbody hi lo. subst r.
  replace (v * (2 ^ 64 * hi + lo)) with (v * hi * 2 ^ 64 + v * lo) by lia.
  change (2 ^ 128) with (2 ^ 64 * 2 ^ 64). rewrite <-N.Div0.div_div, N.div_add_l by done.
  generalize (v * hi), (v * lo / 2 ^ 64). intros x y.
  assert (x + y = x / 2 ^ 64 * 2 ^ 64 + (x `mod` 2 ^ 64 + y)) as Hxy
    by (pose proof (N.Div0.div_mod x (2 ^ 64)); lia).
  by rewrite Hxy, N.div_add_l by done.
Qed.

Lemma reciprocal_bounds d :
  2 < d → d < 2 ^ 64 → let r := (2 ^ 128 - 1) / d + 1 in 2 ^ 128 ≤ r * d < 2 ^ 128 + d ∧ r < 2 ^ 128.
Proof.
  intros H2 Hd r. pose proof (N.Div0.div_mod (2 ^ 128 - 1) d) as Hdm.
  pose proof (N.mod_lt (2 ^ 128 - 1) d ltac:(lia)) as Hm.
  assert ((2 ^ 128 - 1) / d < 2 ^ 127) as Hq.
  { apply N.Div0.div_lt_upper_bound. change (2 ^ 128) with (2 * 2 ^ 127). nia. }
  unfold r. change (2 ^ 128) with (2 * 2 ^ 127) in *. generalize dependent ((2 * 2 ^ 127 - 1) / d). intros q.
  generalize dependent ((2 * 2 ^ 127 - 1) `mod` d). intros m. nia.
Qed.

(** The error of the reciprocal is too small to reach the next multiple. *)
Lemma product_bounds v d r q m :
  v < 2 ^ 64 → d < 2 ^ 64 → 2 ^ 128 ≤ r * d → r * d < 2 ^ 128 + d → v = d * q + m → m < d →
  q * 2 ^ 128 ≤ v * r < (q + 1) * 2 ^ 128.
Proof.
  intros Hv Hd Hlo Hhi Hq Hm. assert (v * (r * d - 2 ^ 128) < 2 ^ 128) as He.
  { change (2 ^ 128) with (2 ^ 64 * 2 ^ 64) in *. nia. }
  assert (v * r * d = v * 2 ^ 128 + v * (r * d - 2 ^ 128)) as Ed by nia.
  set (e := v * (r * d - 2 ^ 128)) in *. clearbody e. generalize dependent (2 ^ 128). intros B Hlo Hhi He Ed.
  split.
  - apply (N.mul_le_mono_pos_r _ _ d); [lia|]. nia.
  - apply (N.mul_lt_mono_pos_r d); [lia|]. nia.
Qed.

Lemma quotient_spec v d :
  v < 2 ^ 64 → 2 < d → d < 2 ^ 64 →
  StrengthReducedU64.quotient v ((2 ^ 128 - 1) / d + 1) = v / d.
Proof.
  intros Hv H2 Hd. destruct (reciprocal_bounds d H2 Hd) as [Hr Hr']. rewrite high_bits by done.
  set (r := (2 ^ 128 - 1) / d + 1) in *.
  pose proof (N.Div0.div_mod v d) as Hdm. pose proof (N.mod_lt v d ltac:(lia)) as Hm.
  assert (v * r / 2 ^ 128 = v / d) as ->.
  { pose proof (product_bounds v d r (v / d) (v `mod` d) Hv Hd ltac:(lia) ltac:(lia) Hdm Hm) as Hb.
    symmetry. apply (N.div_unique _ _ _ (v * r - 2 ^ 128 * (v / d))); lia. }
  apply N.mod_small. apply N.Div0.div_lt_upper_bound. nia.
Qed.

(** The partition of a hash is its remainder. *)
Lemma partition_of_spec d self h :
  0 < d → is_u64 d → is_u64 h → StrengthReducedU64.new d = Ok self →
  StrengthReducedU64.divisor self = d ∧ StrengthReducedU64.partition_of self h = h `mod` d.
Proof.
  unfold is_u64, StrengthReducedU64.new. intros H0 Hd Hh. destruct (is_power_of_two d) eqn:Hp.
  - intros [= <-]. apply power_of_two_spec in Hp as [k ->]. cbn. split; [lia|].
    rewrite <-N.land_ones, N.ones_equiv, <-N.sub_1_r. done.
  - destruct (N.eqb_spec d 0); [lia|]. intros [= <-]. cbn. split; [done|].
    assert (2 < d) as H2.
    { assert (d ≠ 1 ∧ d ≠ 2) as [? ?]; [|lia].
      split; intros ->; by vm_compute in Hp. }
    rewrite quotient_spec by done. pose proof (N.Div0.div_mod h d) as Hdm. pose proof (N.mod_lt h d ltac:(lia)).
    unfold u64_mul, u64_sub. rewrite (N.mul_comm (h / d)).
    set (p := d * (h / d)) in *. set (m := h `mod` d) in *. clearbody p m.
    rewrite (N.mod_small p) by lia. replace (h + 2 ^ 64 - p) with (m + 1 * 2 ^ 64) by lia.
    rewrite N.Div0.mod_add. apply N.mod_small. lia.
Qed.
End reducer.

(** ** Lists of positions *)

Lemma push_indices_ok bi rows idx :
  length rows = length idx →
  ∃ out, push_indices bi rows idx = Ok out ∧ length out = length idx ∧
    ∀ k rs l, rows !! k = Some rs → idx !! k = Some l → out !! k = Some (l ++ ((λ r, (bi, r)) <$> rs)).
Proof.
  revert idx. induction rows as [|rs rows IH]; intros [|l idx] Hlen; try done; cbn [push_indices].
  { by exists []. }
  destruct (IH idx) as (out & -> & Hl & Hk); [cbn in Hlen; lia|]. cbn [obind]. eexists. split; [done|].
  split; [cbn; by f_equal|]. intros [|k] rs' l'; cbn; [by intros [= <-] [= <-]|apply Hk].
Qed.

Lemma as_u32_small i : (N.of_nat i < 2 ^ 32)%N → as_u32 i = i.
Proof. intros Hi. unfold as_u32. rewrite N.mod_small by done. lia. Qed.

(** ** NULLs *)

Lemma add_nulls_ok counts columns :
  length columns = length counts → add_nulls counts columns = Ok (zip_with u64_add counts columns).
Proof.
  revert counts. induction columns as [|n columns IH]; intros [|c counts]; try done. cbn. intros [= Hl].
  by rewrite IH by lia.
Qed.

Section nulls.
Context `{ShuffleLaws}.

(** The NULLs of each column of some batches *)
Definition nulls_of (bs : list (list SRow)) : list N :=
  foldl (λ counts b, zip_with u64_add counts (logical_null_counts b)) (replicate num_fields 0%N) bs.

Lemma nulls_of_snoc bs b : nulls_of (bs ++ [b]) = zip_with u64_add (nulls_of bs) (logical_null_counts b).
Proof. unfold nulls_of. by rewrite foldl_app. Qed.

Lemma nulls_of_length bs : length (nulls_of bs) = num_fields.
Proof.
  induction bs as [|b bs IH] using rev_ind; [by apply length_replicate|].
  rewrite nulls_of_snoc, length_zip_with, IH, null_width. lia.
Qed.
End nulls.

(** ** Batches of a partition *)

Section gather.
Context `{ShuffleOps} {SL : ShuffleLaws}.

(** Some operation of DataFusion or Arrow fails; gathering, on positions of rows. *)
Definition ops_fail : Prop :=
  (∃ rows e, hash_rows rows = inl e) ∨
  (∃ bs idx e, Forall (λ i, is_Some (mbind (.!! i.2) (bs !! i.1))) idx ∧ interleave_record_batch bs idx = inl e) ∨
  (∃ rows e, gc_views rows = inl e) ∨ (∃ e, stream_start = inl e) ∨
  (∃ bs b e, stream_write bs b = inl e) ∨ (∃ bs e, stream_finish bs = inl e).

(** The row at a position of the buffered batches *)
Abbreviation at_position bs := (λ (i : nat * nat) r, mbind (.!! i.2) (bs !! i.1) = Some r).

(** The items of an iterator over rows: batches of some of them each, in order *)
Fixpoint items_ok (items : list (df_result (list SRow))) (rs : list SRow) : Prop :=
  match items with
  | [] => rs = []
  | item :: items' => yields ops_fail item (λ b, b ≠ [] ∧ ∃ rs', rs = b ++ rs' ∧ items_ok items' rs')
  end.

Lemma gathered_ok bs idx rs :
  Forall2 (at_position bs) idx rs →
  yields ops_fail (let? batch := of_sum (interleave_record_batch bs idx) in compact_view_columns batch) (λ b, b = rs).
Proof using All.
  intros Hrs. destruct (interleave_record_batch bs idx) as [e|b] eqn:Hi; cbn [of_sum obind yields].
  { right. left. exists bs, idx, e. split; [|done]. apply Forall_forall. intros i Hin.
    apply list_elem_of_lookup in Hin as [j Hj]. destruct (Forall2_lookup_l _ _ _ _ _ Hrs Hj) as (r & _ & Hr). by exists r. }
  assert (b = rs) as ->.
  { apply interleave_rows in Hi. clear -Hi Hrs. revert b Hi.
    induction Hrs as [|i r idx rs Hr _ IH]; intros b Hi; inversion Hi; [done|]; subst. f_equal; [congruence|by apply IH]. }
  unfold compact_view_columns. destruct has_view_columns; [|done].
  destruct (gc_views rs) as [e|b] eqn:Hg; cbn; [|by apply gc_same]. right. right. left. by exists rs, e.
Qed.

Lemma iterate_ok fuel bs idx size p rs :
  1 ≤ size → Forall2 (at_position bs) (drop p idx) rs → length (drop p idx) < fuel →
  ∃ items, iterate fuel (mkIterator bs idx size p) = Some items ∧ items_ok items rs.
Proof using All.
  intros Hs. revert p rs. induction fuel as [|fuel IH]; intros p rs Hrs Hf; [lia|].
  cbn [iterate]. unfold iterator_next. cbn [it_indices pos it_batch_size batch_refs].
  destruct (Nat.leb_spec (length idx) p) as [Hp|Hp].
  { rewrite drop_ge in Hrs by lia. inversion Hrs. by exists []. }
  set (n := (p + size) `min` length idx - p). assert (1 ≤ n) as Hn by lia.
  replace ((p + size) `min` length idx) with (n + p) by lia.
  destruct (IH (n + p) (drop n rs)) as (items & Hit & Hok).
  { replace (n + p) with (p + n) by lia. rewrite <-drop_drop. by apply Forall2_drop. }
  { rewrite length_drop in *. lia. }
  rewrite Hit. eexists. split; [done|]. cbn [items_ok].
  eapply yields_mono; [apply (gathered_ok bs _ (take n rs)); by apply Forall2_take|done|].
  intros b ->. split.
  - intros Hnil. apply (f_equal length) in Hnil. apply Forall2_length in Hrs.
    rewrite length_take, length_drop in *. cbn in Hnil. lia.
  - exists (drop n rs). by rewrite take_drop.
Qed.

Lemma partition_batches_ok bs idx size rs :
  1 ≤ size → Forall2 (at_position bs) idx rs →
  ∃ items, partition_batches bs idx size = Ok items ∧ items_ok items rs.
Proof using All.
  intros Hs Hrs. unfold partition_batches, iterator_new.
  destruct (iterate_ok (S (length idx)) bs idx size 0 rs Hs Hrs) as (items & -> & ?); [rewrite drop_0; lia|].
  by exists items.
Qed.

(** ** Spilling *)

(** The counters of some batches *)
Definition batch_stats (bs : list (list SRow)) : N * N * N :=
  (u64_wrap (N.of_nat (length bs)), u64_wrap (N.of_nat (length (concat bs))), u64_wrap (lsum array_memory_size bs)).

(** The batches spilled for each partition *)
Record manager_ok (m : SpillManager.t) (spilled : nat → list (list SRow)) : Prop := {
  mo_active : ∀ k, SpillManager.active_writers m !! k = if decide (spilled k = []) then None else Some (spilled k);
  mo_files : ∀ k, SpillManager.spill_files m !! k = (λ _, []) <$> SpillManager.active_writers m !! k;
  mo_stats : ∀ k, SpillManager.partition_stats k m = batch_stats (spilled k);
}.

Lemma manager_new_ok : manager_ok SpillManager.new (λ _, []).
Proof using All. split; intros k; cbn; by rewrite ?lookup_empty. Qed.

Lemma batch_stats_snoc bs b :
  batch_stats (bs ++ [b]) =
    (u64_add (batch_stats bs).1.1 1, u64_add (batch_stats bs).1.2 (N.of_nat (length b)),
     u64_add (batch_stats bs).2 (array_memory_size b)).
Proof using All.
  unfold batch_stats, u64_wrap, u64_add. cbn [fst snd].
  rewrite length_app, concat_app, length_app, lsum_app. cbn [length concat lsum].
  rewrite app_nil_r, !N.Div0.add_mod_idemp_l. unfold lsum. cbn [foldr]. f_equal; [f_equal|]; f_equal; lia.
Qed.

(** One more batch for a partition *)
Abbreviation grow spilled k b := (λ j, if j =? k then spilled k ++ [b] else spilled j).

Lemma spill_ok m spilled k b :
  manager_ok m spilled → b ≠ [] →
  yields ops_fail (SpillManager.spill k b m) (λ r, manager_ok r.2 (grow spilled k b)).
Proof using All.
  intros [Ha Hf Hs] Hb. unfold SpillManager.spill. destruct (Nat.eqb_spec (length b) 0) as [Hz|_].
  { by apply nil_length_inv in Hz. }
  assert (yields ops_fail (SpillManager.writer k m) (λ w, w.1 = spilled k ∧
    (∀ j, j ≠ k → SpillManager.active_writers w.2 !! j = SpillManager.active_writers m !! j) ∧
    (∀ j, SpillManager.spill_files w.2 !! j
      = if decide (j = k) then Some [] else SpillManager.spill_files m !! j) ∧
    ∀ j, SpillManager.partition_stats j w.2 = batch_stats (spilled j))) as Hw.
  { unfold SpillManager.writer. rewrite Ha. destruct (decide (spilled k = [])) as [Hk|Hk].
    - destruct stream_start eqn:Hst; cbn; [right; right; right; left; by eexists|]. rewrite Hk.
      split_and!; [done|intros j Hj; by rewrite lookup_insert_ne| |apply Hs].
      intros j. destruct (decide (j = k)) as [->|Hj]; [by rewrite lookup_insert_eq|by rewrite lookup_insert_ne].
    - cbn. split_and!; [done..| |apply Hs]. intros j. destruct (decide (j = k)) as [->|Hj]; [|done].
      by rewrite Hf, Ha, decide_False. }
  eapply yields_bind; [exact Hw|]. intros [written m'] (Hwr & Hact & Hfiles & Hst).
  cbn [fst snd] in Hwr, Hact, Hfiles, Hst. subst written.
  destruct (stream_write (spilled k) b) eqn:Hsw; cbn [yields].
  { right. right. right. right. left. by eexists _, _, _. }
  destruct (SpillManager.partition_stats k m') as [[nb nr] nm] eqn:Hstats. cbn [yields snd].
  pose proof (Hst k) as Hstk. rewrite Hstats in Hstk.
  split; cbn; intros j.
  - destruct (Nat.eqb_spec j k) as [->|Hj].
    + rewrite lookup_insert_eq, decide_False; [done|]. by destruct (spilled k).
    + by rewrite lookup_insert_ne, Hact, Ha by done.
  - rewrite Hfiles. destruct (decide (j = k)) as [->|Hj]; [by rewrite lookup_insert_eq|].
    by rewrite lookup_insert_ne, Hact, Hf by done.
  - unfold SpillManager.partition_stats. cbn. destruct (Nat.eqb_spec j k) as [->|Hj].
    + rewrite lookup_insert_eq, batch_stats_snoc, <-Hstk. done.
    + rewrite lookup_insert_ne by done. apply Hst.
Qed.

(** Adding to what was spilled for one partition *)
Definition spills (k : nat) (rs : list SRow) (spilled spilled' : nat → list (list SRow)) : Prop :=
  concat (spilled' k) = concat (spilled k) ++ rs ∧ ∀ j, j ≠ k → spilled' j = spilled j.

Lemma spill_items_ok k items rs acc m spilled :
  items_ok items rs → manager_ok m spilled →
  yields ops_fail (spill_items k items acc m) (λ r, ∃ spilled', manager_ok r.2 spilled' ∧ spills k rs spilled spilled').
Proof using All.
  revert rs acc m spilled. induction items as [|item items IH]; intros rs acc m spilled Hok Hm; cbn [spill_items items_ok yields] in *.
  { subst rs. exists spilled. split; [done|]. split; [by rewrite app_nil_r|done]. }
  eapply yields_bind; [exact Hok|]. intros b (Hb & rs' & -> & Hok').
  pose proof (spill_ok m spilled k b Hm Hb) as Hsp.
  destruct (SpillManager.spill k b m) as [[w m']|e|]; cbn [execution_err obind yields] in *; [|done..].
  eapply yields_mono; [by apply (IH rs' _ m' _ Hok' Hsp)|done|].
  intros r (sp & Hm' & Hk & Hj). exists sp. split; [done|]. split.
  - rewrite Hk, Nat.eqb_refl, concat_app. cbn. by rewrite app_nil_r, <-app_assoc.
  - intros j Hne. rewrite Hj by done. by destruct (Nat.eqb_spec j k).
Qed.

Lemma spill_partitions_ok bs size k idx rows acc m spilled :
  1 ≤ size → manager_ok m spilled →
  (∀ i l, idx !! i = Some l → Forall2 (at_position bs) l (rows (k + i))) →
  yields ops_fail (spill_partitions bs size k idx acc m)
    (λ r, ∃ spilled', manager_ok r.2 spilled' ∧ ∀ j,
      concat (spilled' j) = concat (spilled j) ++ (if decide (k ≤ j < k + length idx) then rows j else [])).
Proof using All.
  intros Hs. revert k acc m spilled. induction idx as [|l idx IH]; intros k acc m spilled Hm Hidx; cbn [spill_partitions].
  { exists spilled. split; [done|]. intros j. cbn [length].
    rewrite decide_False by lia. by rewrite app_nil_r. }
  assert (yields ops_fail (if bool_decide (l = []) then Ok (acc, m)
      else let? items := partition_batches bs l size in spill_items k items acc m)
    (λ r, ∃ spilled', manager_ok r.2 spilled' ∧ spills k (rows k) spilled spilled')) as Hl.
  { specialize (Hidx 0 l eq_refl). rewrite Nat.add_0_r in Hidx. case_bool_decide as Hnil.
    - subst l. inversion Hidx as [Hr|]. cbn. exists spilled. split; [done|]. split; [by rewrite app_nil_r|done].
    - destruct (partition_batches_ok bs l size _ Hs Hidx) as (items & -> & Hok). cbn [obind].
      by apply spill_items_ok. }
  eapply yields_bind; [exact Hl|]. intros [acc' m'] (sp & Hm' & Hk & Hj). cbn in Hm'.
  eapply yields_mono; [apply (IH (S k) _ m' sp Hm')|done|].
  { intros i l' Hi. specialize (Hidx (S i) l' Hi). by replace (S k + i) with (k + S i) by lia. }
  cbn. intros r (sp' & Hr & Hsp). exists sp'. split; [done|]. intros j. rewrite Hsp. cbn [length].
  destruct (decide (j = k)) as [->|Hne].
  - rewrite Hk, decide_False, decide_True by lia. by rewrite app_nil_r.
  - rewrite Hj by done. repeat case_decide; done || lia.
Qed.
End gather.

(** ** Rows by partition *)

Section shuffle.
Context `{ShuffleOps} {SL : ShuffleLaws}.
Context (P : nat) (HP : 0 < P) (HP64 : is_u64 (N.of_nat P)).

Definition part (r : SRow) : nat := N.to_nat (row_hash r `mod` N.of_nat P).

Lemma part_lt r : part r < P.
Proof using All. unfold part. pose proof (N.mod_lt (row_hash r) (N.of_nat P)). lia. Qed.

(** The rows of a partition *)
Abbreviation of_part k rows := (filter (λ r, part r = k) rows).

(** The positions, from [i], of the rows of a partition *)
Fixpoint places (k i : nat) (rows : list SRow) : list nat :=
  match rows with
  | [] => []
  | r :: rows' => if part r =? k then as_u32 i :: places k (S i) rows' else places k (S i) rows'
  end.

Lemma partition_indices_ok reducer rows i out :
  StrengthReducedU64.new (N.of_nat P) = Ok reducer → length out = P →
  ∃ out', StrengthReducedU64.partition_indices reducer (row_hash <$> rows) i out = Ok out' ∧
    length out' = P ∧ ∀ k, out' !! k = (λ b, b ++ places k i rows) <$> out !! k.
Proof using All.
  intros Hr. revert i out. induction rows as [|r rows IH]; intros i out Hlen.
  { exists out. split_and!; [done..|]. intros k. destruct (out !! k); cbn; [by rewrite app_nil_r|done]. }
  rewrite fmap_cons. cbn [StrengthReducedU64.partition_indices].
  destruct (partition_of_spec (N.of_nat P) reducer (row_hash r) ltac:(lia) HP64 (hash_range r) Hr) as [_ ->].
  fold (part r). destruct (push_at_ok (part r) (as_u32 i) out) as (mid & -> & Hm & Hk);
    [pose proof (part_lt r); lia|]. cbn [obind].
  destruct (IH (S i) mid ltac:(lia)) as (out' & -> & Hl & Hk'). exists out'. split_and!; [done..|].
  intros k. rewrite Hk', Hk. destruct (out !! k) as [b|]; [|done]. cbn [fmap option_fmap option_map places].
  f_equal. rewrite (Nat.eqb_sym (part r)). destruct (k =? part r); [|done]. by rewrite <-app_assoc.
Qed.

Lemma compute_indices_ok reducer batch :
  StrengthReducedU64.new (N.of_nat P) = Ok reducer →
  yields ops_fail (compute_partition_indices batch reducer)
    (λ out, length out = P ∧ ∀ k, k < P → out !! k = Some (places k 0 batch)).
Proof using All.
  intros Hr. unfold compute_partition_indices. destruct (hash_rows batch) as [e|hs] eqn:Hh; cbn [of_sum obind yields].
  { left. by eexists _, _. }
  rewrite (hashes_of _ _ Hh).
  destruct (partition_of_spec (N.of_nat P) reducer 0%N ltac:(lia) HP64 ltac:(done) Hr) as [-> _].
  destruct (partition_indices_ok reducer batch 0 (replicate P []) Hr) as (out & Ho & Hl & Hk);
    [by rewrite length_replicate|].
  rewrite Nat2N.id, Ho. cbn. split; [done|]. intros k Hlt. by rewrite Hk, lookup_replicate_2.
Qed.

(** ** The buffer *)

(** The row at a position of the buffered batches *)
Abbreviation at_position bs := (λ (i : nat * nat) r, mbind (.!! i.2) (bs !! i.1) = Some r).

Record buffered_ok (b : BufferedBatches) (rows : nat → list SRow) : Prop := {
  bo_length : length (indices b) = P;
  bo_rows : ∀ k l, indices b !! k = Some l → Forall2 (at_position (batches b)) l (rows k);
}.

Lemma buffered_new_ok : buffered_ok (buffered_new P) (λ _, []).
Proof using All.
  split; cbn; [by rewrite length_replicate|]. intros k l Hl. apply lookup_replicate in Hl as [-> _]. constructor.
Qed.

(** The positions of a batch are those of its rows of the partition. *)
Lemma places_rows bs pre rest k :
  (N.of_nat (length (pre ++ rest)) < 2 ^ 32)%N →
  Forall2 (at_position (bs ++ [pre ++ rest])) ((λ r, (length bs, r)) <$> places k (length pre) rest) (of_part k rest).
Proof using All.
  revert pre. induction rest as [|r rest IH]; intros pre Hlen; [constructor|].
  specialize (IH (pre ++ [r])). rewrite <-app_assoc in IH. specialize (IH Hlen).
  rewrite length_app, Nat.add_1_r in IH. cbn [places]. rewrite filter_cons.
  destruct (Nat.eqb_spec (part r) k) as [Hk|Hk]; [|by rewrite decide_False].
  rewrite decide_True by done. rewrite fmap_cons. constructor; [|done]. cbn.
  rewrite lookup_app_r, Nat.sub_diag by lia. cbn. rewrite as_u32_small by (rewrite length_app in Hlen; lia).
  by rewrite lookup_app_r, Nat.sub_diag by lia.
Qed.

Lemma push_batch_ok b rows batch per :
  buffered_ok b rows → (N.of_nat (length (batches b)) < 2 ^ 32)%N → (N.of_nat (length batch) < 2 ^ 32)%N →
  length per = P → (∀ k, k < P → per !! k = Some (places k 0 batch)) →
  ∃ b', push_batch batch per b = Ok b' ∧ buffered_ok b' (λ k, rows k ++ of_part k batch) ∧
    batches b' = batches b ++ [batch].
Proof using All.
  intros [Hl Hr] Hb Hlen Hper Hk. unfold push_batch.
  destruct (push_indices_ok (as_u32 (length (batches b))) per (indices b)) as (out & -> & Ho & Hout); [lia|].
  cbn [obind]. eexists. split; [done|]. split; [|done]. split; cbn; [lia|].
  intros k l Hkl. assert (k < P) as Hlt by (apply lookup_lt_Some in Hkl; lia).
  destruct (lookup_lt_is_Some_2 (indices b) k ltac:(lia)) as [l0 Hl0].
  rewrite (Hout k _ _ (Hk k Hlt) Hl0) in Hkl. injection Hkl as <-. apply Forall2_app.
  - eapply Forall2_impl; [by apply Hr|]. intros [i j] r. cbn.
    destruct (batches b !! i) eqn:Hi; [|done]. by rewrite (lookup_app_l_Some _ _ _ _ Hi).
  - rewrite as_u32_small by done. by apply (places_rows (batches b) [] batch).
Qed.

Lemma spill_all_ok size b rows m spilled :
  1 ≤ size → buffered_ok b rows → manager_ok m spilled →
  yields ops_fail (spill_all_partitions size b m)
    (λ r, ∃ rows' spilled', buffered_ok r.1.2 rows' ∧ manager_ok r.2 spilled' ∧
      (∀ k, k < P → concat (spilled' k) ++ rows' k = concat (spilled k) ++ rows k) ∧
      length (batches r.1.2) ≤ length (batches b)).
Proof using All.
  intros Hs Hb Hm. unfold spill_all_partitions, is_empty. case_bool_decide as He.
  { cbn. exists rows, spilled. split_and!; [done..|lia]. }
  cbn [take_buffered]. destruct (id Hb) as [Hl Hr].
  eapply yields_bind; [by apply (spill_partitions_ok (batches b) size 0 (indices b) rows)|].
  intros [acc m'] (sp & Hm' & Hsp). cbn in *. exists (λ _, []), sp. split_and!; [|done| |lia].
  - split; cbn; [by rewrite length_fmap|]. intros k l Hkl. apply list_lookup_fmap_Some in Hkl as (? & -> & _). constructor.
  - intros k Hk. rewrite Hsp, decide_True by lia. by rewrite app_nil_r.
Qed.

(** ** The loop over the batches *)

(** What was spilled and what is buffered, after some batches *)
Definition write_ok (st : write_state) (bs : list (list SRow)) : Prop :=
  w_null_counts st = nulls_of bs ∧ length (batches (w_buffered st)) ≤ length bs ∧
  ∃ spilled buf, manager_ok (w_spill_manager st) spilled ∧ buffered_ok (w_buffered st) buf ∧
    ∀ k, k < P → concat (spilled k) ++ buf k = of_part k (concat bs).

Context (cfg : SortShuffleConfig) (Hcfg : 1 ≤ batch_size cfg).

Lemma write_batch_ok reducer growth rejected b st bs :
  StrengthReducedU64.new (N.of_nat P) = Ok reducer → write_ok st bs →
  (N.of_nat (length bs) < 2 ^ 32)%N → (N.of_nat (length b) < 2 ^ 32)%N →
  yields ops_fail (write_batch cfg reducer growth rejected b st) (λ st', write_ok st' (bs ++ [b])).
Proof using All.
  intros Hr (Hn & Hlen & sp & buf & Hm & Hb & Hk) Hbs Hrows. unfold write_batch.
  rewrite add_nulls_ok by (by rewrite Hn, nulls_of_length, null_width). cbn [obind].
  eapply yields_bind; [by apply compute_indices_ok|]. intros per [Hl Hper].
  destruct (push_batch_ok _ buf b per Hb ltac:(lia) Hrows Hl Hper) as (buffered & -> & Hb' & Hbs'). cbn [obind].
  assert (∀ k, k < P → concat (sp k) ++ buf k ++ of_part k b = of_part k (concat (bs ++ [b]))) as Hk'.
  { intros k Hlt. rewrite app_assoc, Hk, <-filter_app, concat_app by done. cbn. by rewrite app_nil_r. }
  rewrite Hn, <-nulls_of_snoc. destruct (classify _ _) as [trigger|]; cbn [obind].
  2:{ split; [done|]. split; [cbn; rewrite Hbs', !length_app; cbn; lia|]. eexists sp, _. split_and!; [done..|]. exact Hk'. }
  eapply yields_bind; [by apply (spill_all_ok (batch_size cfg))|].
  intros [[[nb nm] buffered'] m'] (rows' & sp' & Hbo & Hmo & Hrs & Hle). cbn in Hbo, Hmo, Hle.
  split; [done|]. split; [cbn; rewrite Hbs' in Hle; rewrite !length_app in *; cbn in *; lia|].
  exists sp', rows'. split_and!; [done..|]. intros k Hlt. by rewrite Hrs, Hk'.
Qed.

(** The batches of a stream up to its first error *)
Lemma write_batches_ok reducer pressure i items st bs :
  StrengthReducedU64.new (N.of_nat P) = Ok reducer → write_ok st bs →
  (N.of_nat (length bs + length items) ≤ 2 ^ 32)%N → (∀ b, inr b ∈ items → N.of_nat (length b) < 2 ^ 32)%N →
  yields (ops_fail ∨ ∃ e, inl e ∈ items) (write_batches cfg reducer pressure i items st)
    (λ st', ∃ bs', items = inr <$> bs' ∧ write_ok st' (bs ++ bs')).
Proof using All.
  intros Hr. revert i st bs. induction items as [|item items IH]; intros i st bs Hst Hlen Hall; cbn [write_batches].
  { exists []. by rewrite app_nil_r. }
  destruct item as [e|b]; cbn [of_sum obind]. { right. exists e. by left. }
  cbn [length] in Hlen. assert (N.of_nat (length b) < 2 ^ 32)%N as Hb by (apply Hall; left).
  eapply yields_bind; [eapply yields_mono; [apply (write_batch_ok reducer _ _ b st bs); [done..|lia|done]|by left|]|].
  { intros st' Hst'. exact Hst'. }
  intros st' Hst'. eapply yields_mono; [apply (IH (S i) st' (bs ++ [b]) Hst')| |].
  { rewrite length_app. cbn. lia. }
  { intros b' Hb'. apply Hall. by right. }
  { intros [?|[e He]]; [by left|]. right. exists e. by right. }
  intros st'' (bs' & -> & Hok). exists (b :: bs'). split; [done|]. by rewrite <-app_assoc in Hok.
Qed.
End shuffle.
