(* ===== verification/SortShuffleLayout.v ===== *)
(** * The file of a task of the sort shuffle

    The streams an input partition leaves for each output partition, where the file
    of the task puts them, the bytes of the index, and the read of a range. *)

From S2P Require Import Prelude Errors Machine Types SortKey KeySketch Range SortShuffle SortShuffleFacts.
From stdpp Require Import numbers gmap.

Lemma collect_yields {A B : Type} F (f : A → df_result B) (l : list A) (Q : nat → B → Prop) :
  (∀ i a, l !! i = Some a → yields F (f a) (Q i)) →
  yields F (SortKeySketch.collect f l) (λ bs, length bs = length l ∧ ∀ i b, bs !! i = Some b → Q i b).
Proof.
  revert Q. induction l as [|a l IH]; intros Q Hf; cbn [SortKeySketch.collect]; [done|].
  eapply yields_bind; [by apply (Hf 0)|]. intros b Hb.
  eapply yields_bind; [apply (IH (λ i, Q (S i))); intros i; apply (Hf (S i))|]. intros bs [Hl Hbs].
  split; [cbn; by rewrite Hl|]. intros [|i]; cbn; [by intros ? [= <-]|apply Hbs].
Qed.

(** ** Streams *)

Section streams.
Context `{SO : ShuffleOps} {SL : ShuffleLaws}.

(** Bytes that are streams of some batches one after the other *)
Definition streams_of (groups : list (list (list SRow))) (bytes : list N) : Prop :=
  ∃ ss, Forall2 (λ bs s, stream_finish bs = inr s) groups ss ∧ bytes = concat ss.

Lemma streams_nil : streams_of [] [].
Proof. exists []. split; [constructor|done]. Qed.

Lemma streams_one bs s : stream_finish bs = inr s → streams_of [bs] s.
Proof. exists [s]. split; [by repeat constructor|]. cbn. by rewrite app_nil_r. Qed.

Lemma streams_app g1 g2 b1 b2 : streams_of g1 b1 → streams_of g2 b2 → streams_of (g1 ++ g2) (b1 ++ b2).
Proof. intros (s1 & H1 & ->) (s2 & H2 & ->). exists (s1 ++ s2). rewrite concat_app. split; [by apply Forall2_app|done]. Qed.

Definition stats_of (bs : list (list SRow)) : EncodedStats :=
  mkStats (batch_stats bs).1.1 (batch_stats bs).1.2 (batch_stats bs).2.

Lemma finish_each_ok ws files :
  NoDup ws.*1 →
  yields ops_fail (SpillManager.finish_each ws files)
    (λ files', ∀ k,
      (∀ bs, (k, bs) ∈ ws → ∃ s, files' !! k = Some s ∧ stream_finish bs = inr s) ∧
      (k ∉ ws.*1 → files' !! k = files !! k)).
Proof.
  revert files. induction ws as [|[k bs] ws IH]; intros files Hnd; cbn [SpillManager.finish_each].
  { intros k. split; [by intros bs ?%elem_of_nil|done]. }
  rewrite fmap_cons in Hnd. apply NoDup_cons in Hnd as [Hk Hnd]. cbn in Hk.
  destruct (stream_finish bs) as [e|s] eqn:Hs; cbn [yields]. { do 5 right. by eexists _, _. }
  eapply yields_mono; [by apply (IH (<[k := s]> files))|done|]. intros files' Hf j. destruct (Hf j) as [Hin Hout].
  split.
  - intros bs' [[= -> ->]|Hin']%elem_of_cons; [|by apply Hin].
    exists s. by rewrite Hout, lookup_insert_eq by done.
  - rewrite fmap_cons. intros [Hne Hj]%not_elem_of_cons. cbn in Hne. by rewrite Hout, lookup_insert_ne by done.
Qed.

(** A finished spill file has one stream with the batches spilled, if any. *)
Lemma finish_writers_ok `{HashOrder} m spilled :
  manager_ok m spilled →
  yields ops_fail (SpillManager.finish_writers m) (λ m', ∀ k,
    SpillManager.partition_stats k m' = batch_stats (spilled k) ∧
    ∃ groups, concat groups = spilled k ∧ streams_of groups (default [] (SpillManager.spill_path k m'))).
Proof.
  intros [Ha Hf Hs]. unfold SpillManager.finish_writers.
  eapply yields_bind; [apply finish_each_ok; rewrite iter_entries_perm; apply NoDup_fst_map_to_list|].
  intros files Hfiles k. split; [apply Hs|]. destruct (Hfiles k) as [Hin Hout]. unfold SpillManager.spill_path. cbn.
  specialize (Ha k). case_decide as Hnil.
  - exists []. split; [done|]. rewrite Hout, Hf, Ha; [apply streams_nil|].
    rewrite iter_entries_perm. intros ([k' bs] & [= ->] & Hel)%list_elem_of_fmap.
    apply elem_of_map_to_list in Hel. congruence.
  - destruct (Hin (spilled k)) as (s & -> & Hst). { rewrite iter_entries_perm. by apply elem_of_map_to_list. }
    exists [spilled k]. cbn. rewrite app_nil_r. split; [done|]. by apply streams_one.
Qed.

Lemma encode_items_ok items rs written :
  items_ok items rs →
  yields ops_fail (encode_items items written (stats_of written))
    (λ w, concat w.1 = concat written ++ rs ∧ w.2 = stats_of w.1).
Proof using All.
  revert rs written. induction items as [|item items IH]; intros rs written Hok; cbn [encode_items items_ok yields] in *.
  { subst rs. by rewrite app_nil_r. }
  eapply yields_bind; [exact Hok|]. intros b (_ & rs' & -> & Hok').
  destruct (stream_write written b) eqn:Hw; cbn [of_sum obind]. { do 4 right. left. by eexists _, _, _. }
  replace (mkStats _ _ _) with (stats_of (written ++ [b])) by (unfold stats_of; by rewrite batch_stats_snoc).
  eapply yields_mono; [by apply (IH rs')|done|]. intros w [Hc Hst]. split; [|done].
  rewrite Hc, concat_app. cbn. by rewrite app_nil_r, <-app_assoc.
Qed.

Lemma encode_partition_ok bs size idx rs :
  1 ≤ size → Forall2 (λ i r, mbind (.!! i.2) (bs !! i.1) = Some r) idx rs →
  yields ops_fail (encode_partition bs size idx) (λ p, ∃ groups,
    concat (concat groups) = rs ∧ p.2 = stats_of (concat groups) ∧ streams_of groups p.1).
Proof using All.
  intros Hs Hrs. unfold encode_partition. case_bool_decide as Hnil.
  { subst idx. inversion Hrs. exists []. split_and!; [done..|apply streams_nil]. }
  destruct (partition_batches_ok bs idx size rs Hs Hrs) as (items & -> & Hok). cbn [obind].
  destruct stream_start eqn:Hst; cbn [of_sum obind]. { do 3 right. left. by eexists. }
  eapply yields_bind; [by apply (encode_items_ok items rs [])|]. intros [w st] [Hc Hw]. cbn in Hc, Hw |- *.
  destruct (stream_finish w) as [e|s] eqn:Hf; cbn. { do 5 right. by eexists _, _. }
  exists [w]. cbn. rewrite app_nil_r. split_and!; [done..|by apply streams_one].
Qed.
End streams.

(** ** The output of an input partition *)

Section task.
Context `{SO : ShuffleOps} {SL : ShuffleLaws}.
Context (P : nat) (HP : 0 < P) (HP64 : is_u64 (N.of_nat P)).

Abbreviation of_part k rows := (filter (λ r, part P r = k) rows).

(** The rows of each output partition, in the spill file and then in the encoding *)
Record output_ok (out : InputPartitionOutput) (bs : list (list SRow)) : Prop := {
  oo_nulls : null_counts out = nulls_of bs;
  oo_length : length (encoded out) = P;
  oo_part k : k < P → ∃ g1 g2 buf,
    streams_of g1 (default [] (SpillManager.spill_path k (spill_manager out))) ∧
    SpillManager.partition_stats k (spill_manager out) = batch_stats (concat g1) ∧
    encoded out !! k = Some buf ∧ streams_of g2 buf ∧
    in_memory_stats out !! k = Some (stats_of (concat g2)) ∧
    concat (concat g1 ++ concat g2) = of_part k (concat bs);
}.

(** What the indices of a batch and of the buffer can hold *)
Definition fits_u32 (items : list (fallible (list SRow))) : Prop :=
  (N.of_nat (length items) ≤ 2 ^ 32 ∧ ∀ b, inr b ∈ items → N.of_nat (length b) < 2 ^ 32)%N.

Lemma execute_shuffle_write_ok `{HashOrder} cfg pressure items :
  1 ≤ batch_size cfg → fits_u32 items →
  yields (ops_fail ∨ ∃ e, inl e ∈ items) (execute_shuffle_write cfg P num_fields pressure (inr items))
    (λ out, ∃ bs, items = inr <$> bs ∧ output_ok out bs).
Proof using All.
  intros Hcfg [Hn Hb]. unfold execute_shuffle_write. cbn [of_sum obind].
  destruct (StrengthReducedU64.new (N.of_nat P)) as [reducer| |] eqn:Hr; cbn [obind].
  2-3: unfold StrengthReducedU64.new in Hr; destruct (is_power_of_two _), (N.eqb_spec (N.of_nat P) 0); lia || done.
  eapply yields_bind; [apply (write_batches_ok P HP HP64 cfg Hcfg reducer pressure 0 items _ [] Hr)|]; [|done..|].
  { split; [done|]. split; [done|]. exists (λ _, []), (λ _, []).
    split; [apply manager_new_ok|]. split; [by apply buffered_new_ok|done]. }
  intros st (bs & -> & Hnull & _ & sp & buf & Hm & Hbuf & Hk). cbn [app] in Hnull, Hk.
  pose proof (finish_writers_ok _ _ Hm) as Hfin.
  destruct (SpillManager.finish_writers (w_spill_manager st)) as [m|e|]; cbn [execution_err obind yields] in *; [|by left|done].
  unfold encode_buffered_partitions. cbn [take_buffered]. destruct Hbuf as [Hlen Hrows].
  eapply yields_bind.
  { apply (collect_yields _ _ _ (λ k p, ∃ groups,
      concat (concat groups) = buf k ∧ p.2 = stats_of (concat groups) ∧ streams_of groups p.1)).
    intros k l Hl. eapply yields_mono; [by apply encode_partition_ok, Hrows|by left|done]. }
  intros parts [Hpl Hp]. exists bs. split; [done|]. split; cbn; [done|by rewrite length_fmap, Hpl|].
  intros k Hlt. destruct (Hfin k) as (Hst & g1 & Hg1 & Hs1).
  destruct (lookup_lt_is_Some_2 parts k) as [[buf' st'] Hk']; [lia|]. destruct (Hp k _ Hk') as (g2 & Hg2 & Hst2 & Hs2).
  exists g1, g2, buf'. rewrite Hg1, !list_lookup_fmap, Hk'. cbn in Hst2, Hs2 |- *. subst st'.
  split_and!; [done..|]. by rewrite concat_app, Hg2, Hk.
Qed.

(** ** The ranges of the file *)

Lemma batch_stats_app b1 b2 :
  stats_of (b1 ++ b2) =
    mkStats (u64_add (num_batches (stats_of b1)) (batch_stats b2).1.1)
      (u64_add (num_rows (stats_of b1)) (batch_stats b2).1.2) (u64_add (num_bytes (stats_of b1)) (batch_stats b2).2).
Proof using.
  unfold stats_of, batch_stats, u64_wrap, u64_add. cbn [fst snd num_batches num_rows num_bytes].
  rewrite concat_app, !length_app, lsum_app, !Nat2N.inj_add. f_equal; by rewrite <-N.Div0.add_mod.
Qed.

(** What the input partitions have for an output partition *)
Definition range_of (outs : list InputPartitionOutput) (p : nat) : list N :=
  concat ((λ o, default [] (SpillManager.spill_path p (spill_manager o)) ++ default [] (encoded o !! p)) <$> outs).

Lemma append_outputs_ok p outs bss output bs0 :
  Forall2 output_ok outs bss → p < P →
  ∃ groups, append_outputs p outs (output, stats_of bs0) = Ok (output ++ range_of outs p, stats_of (bs0 ++ concat groups)) ∧
    streams_of groups (range_of outs p) ∧ concat (concat groups) = of_part p (concat (concat bss)).
Proof using All.
  intros Hall Hp. revert output bs0. induction Hall as [|out bs outs bss Hout Hall IH]; intros output bs0.
  { exists []. cbn. rewrite !app_nil_r. split_and!; [done|apply streams_nil|done]. }
  destruct (oo_part _ _ Hout p Hp) as (g1 & g2 & buf & Hs1 & Hst1 & He & Hs2 & Hst2 & Hrows).
  cbn [append_outputs append_output]. rewrite Hst1, He, Hst2. unfold range_of. rewrite fmap_cons. cbn [concat].
  fold (range_of outs p). rewrite He. cbn [default from_option id].
  set (file := SpillManager.spill_path p (spill_manager out)) in *.
  destruct (IH ((output ++ default [] file) ++ buf) (bs0 ++ concat g1 ++ concat g2)) as (groups & IHe & IHs & IHr).
  exists ((g1 ++ g2) ++ groups). split_and!.
  - transitivity (append_outputs p outs ((output ++ default [] file) ++ buf, stats_of (bs0 ++ concat g1 ++ concat g2))).
    + rewrite app_assoc, !batch_stats_app. destruct file; cbn; by rewrite ?app_nil_r.
    + rewrite IHe, !concat_app, <-!app_assoc. done.
  - apply streams_app; [by apply streams_app|done].
  - by rewrite !concat_app, IHr, filter_app, <-Hrows, concat_app.
Qed.

(** The numbers of an output partition are those of the batches in its range. *)
Definition range_ok (outs : list InputPartitionOutput) (bss : list (list (list SRow))) (p : nat)
    (stat : nat * EncodedStats) : Prop :=
  stat.1 = p ∧ ∃ groups, streams_of groups (range_of outs p) ∧
    concat (concat groups) = of_part p (concat (concat bss)) ∧ stat.2 = stats_of (concat groups).

Lemma write_partitions_ok outs bss k n output index stats :
  Forall2 output_ok outs bss → k + n ≤ P → length index = S P →
  ∃ index' stats', write_partitions outs (seq k n) output index stats
      = Ok (output ++ concat (range_of outs <$> seq k n), index', stats ++ stats') ∧
    length index' = S P ∧ Forall2 (range_ok outs bss) (seq k n) stats' ∧
    ∀ j, index' !! j = if decide (k ≤ j < k + n)
                       then Some (position (output ++ concat (range_of outs <$> seq k (j - k)))) else index !! j.
Proof using All.
  intros Hall. revert k output index stats. induction n as [|n IH]; intros k output index stats Hk Hlen.
  { exists index, []. cbn. rewrite !app_nil_r. split_and!; [done..|constructor|].
    intros j. by rewrite decide_False by lia. }
  cbn [seq write_partitions]. unfold ShuffleIndex.set_offset, ShuffleIndex.t in *. rewrite (proj2 (Nat.ltb_lt _ _)) by lia. cbn [obind].
  destruct (append_outputs_ok k outs bss output [] Hall ltac:(lia)) as (groups & He & Hs & Hr).
  change (mkStats 0 0 0) with (stats_of []). rewrite He. cbn [obind fst snd app].
  match goal with |- context [write_partitions _ _ ?o ?i ?s] =>
    destruct (IH (S k) o i s) as (index' & stats' & -> & Hl & Hst & Hidx); [lia|by rewrite length_insert|]
  end.
  exists index', ((k, stats_of (concat groups)) :: stats'). split_and!; [|done| |].
  - rewrite fmap_cons. cbn [concat]. by rewrite <-!app_assoc.
  - constructor; [|done]. split; [done|]. by exists groups.
  - intros j. rewrite Hidx. destruct (decide (j = k)) as [->|Hne].
    + rewrite decide_False, decide_True, Nat.sub_diag by lia. cbn. rewrite app_nil_r.
      rewrite list_lookup_insert_eq by lia. done.
    + rewrite list_lookup_insert_ne by done. repeat case_decide; try lia; [|done].
      replace (j - k) with (S (j - S k)) by lia. cbn [seq]. rewrite fmap_cons. cbn [concat]. by rewrite <-app_assoc.
Qed.

(** The start of each range, and the end of the file *)
Definition starts (header : list N) (outs : list InputPartitionOutput) : list Z :=
  (λ j, position (header ++ concat (range_of outs <$> seq 0 j))) <$> seq 0 (S P).

Record file_ok (outs : list InputPartitionOutput) (bss : list (list (list SRow))) (header : list N)
    (f : FinalizeResult) : Prop := {
  fo_header : stream_finish [] = inr header;
  fo_data : f_data f = header ++ concat (range_of outs <$> seq 0 P);
  fo_index : f_index f = ShuffleIndex.write_to_file (starts header outs);
  fo_stats : Forall2 (range_ok outs bss) (seq 0 P) (f_stats f);
}.

Lemma write_task_consolidated_ok outs bss :
  outs ≠ [] → Forall2 output_ok outs bss →
  yields ops_fail (write_task_consolidated outs) (λ f, ∃ header, file_ok outs bss header f).
Proof using All.
  intros Hne Hall. unfold write_task_consolidated.
  assert (match outs with o :: _ => length (encoded o) | [] => 0 end = P) as ->.
  { destruct Hall as [|o bs outs bss Ho _]; [done|]. apply Ho. }
  destruct stream_start eqn:Hst; cbn [of_sum obind]. { do 3 right. left. by eexists. }
  destruct (stream_finish []) as [e|header] eqn:Hh; cbn [of_sum obind]. { do 5 right. by eexists _, _. }
  destruct (write_partitions_ok outs bss 0 P header (ShuffleIndex.new P) [] Hall) as (index & stats & -> & Hl & Hs & Hidx);
    [lia|unfold ShuffleIndex.new; rewrite length_replicate; lia|].
  cbn [obind app yields]. exists header. split; cbn [f_data f_index f_stats]; [done..| |done].
  f_equal. apply list_eq. intros j. unfold starts, ShuffleIndex.set_total_length, ShuffleIndex.t in *. rewrite Hl. cbn [Nat.sub].
  rewrite list_lookup_fmap, Nat.sub_0_r. destruct (decide (j = P)) as [->|Hne'].
  { rewrite list_lookup_insert_eq, lookup_seq_lt by lia. done. }
  rewrite list_lookup_insert_ne, Hidx by done. case_decide as Hj.
  - rewrite lookup_seq_lt by lia. cbn. by rewrite Nat.sub_0_r.
  - rewrite lookup_seq_ge by lia. cbn. apply lookup_ge_None_2. unfold ShuffleIndex.new. rewrite length_replicate. lia.
Qed.
End task.

(** ** The bytes of the index *)

Definition is_i64 (z : Z) : Prop := (- 2 ^ 63 ≤ z < 2 ^ 63)%Z.

Lemma le_bytes_length c n : length (le_bytes c n) = c.
Proof. revert n. induction c as [|c IH]; intros n; cbn; by rewrite ?IH. Qed.

Lemma from_le_le c n : from_le_bytes (le_bytes c n) = (n `mod` 256 ^ N.of_nat c)%N.
Proof.
  revert n. induction c as [|c IH]; intros n; [by rewrite N.mod_1_r|].
  cbn [le_bytes from_le_bytes]. rewrite IH, Nat2N.inj_succ, N.pow_succ_r', N.Div0.mod_mul_r. done.
Qed.

Lemma i64_round_trip z : is_i64 z → i64_of_u64 (from_le_bytes (le_bytes 8 (u64_of_i64 z))) = z.
Proof.
  unfold is_i64. intros Hz. rewrite from_le_le. change (256 ^ N.of_nat 8)%N with (2 ^ 64)%N.
  assert (0 ≤ z `mod` 2 ^ 64 < 2 ^ 64)%Z as Hm by (by apply Z.mod_pos_bound).
  unfold u64_of_i64, i64_of_u64. rewrite N.mod_small by lia.
  destruct (decide (0 ≤ z)%Z).
  - rewrite Z.mod_small by lia. destruct (N.ltb_spec (Z.to_N z) (2 ^ 63)); lia.
  - assert (z `mod` 2 ^ 64 = z + 2 ^ 64)%Z as ->.
    { rewrite <-(Z.mod_add z 1) by done. apply Z.mod_small. lia. }
    destruct (N.ltb_spec (Z.to_N (z + 2 ^ 64)) (2 ^ 63)); lia.
Qed.

Lemma write_to_file_length self : length (ShuffleIndex.write_to_file self) = 8 * length self.
Proof.
  unfold ShuffleIndex.write_to_file. induction self as [|z self IH]; [done|].
  rewrite fmap_cons. cbn [concat]. rewrite length_app, le_bytes_length, IH. cbn [length]. lia.
Qed.

Lemma read_entries_write self :
  Forall is_i64 self → ShuffleIndex.read_entries (length self) (ShuffleIndex.write_to_file self) = self.
Proof.
  induction 1 as [|z self Hz _ IH]; [done|]. unfold ShuffleIndex.write_to_file. rewrite fmap_cons.
  cbn [concat length ShuffleIndex.read_entries].
  rewrite take_app_length', drop_app_length' by (by rewrite le_bytes_length).
  rewrite i64_round_trip by done. f_equal. exact IH.
Qed.

Lemma read_from_file_write self :
  2 ≤ length self → Forall is_i64 self → ShuffleIndex.read_from_file (ShuffleIndex.write_to_file self) = Ok self.
Proof.
  intros Hl Hall. unfold ShuffleIndex.read_from_file. rewrite write_to_file_length, Nat.mul_comm, Nat.Div0.mod_mul.
  rewrite Nat.div_mul by done. cbn [negb Nat.eqb]. rewrite (proj2 (Nat.ltb_ge _ _)) by lia.
  by rewrite read_entries_write.
Qed.

Lemma position_small output : (N.of_nat (length output) < 2 ^ 63)%N → position output = Z.of_nat (length output).
Proof.
  intros Hl. unfold position, i64_of_u64, u64_wrap. rewrite N.mod_small by lia.
  rewrite (proj2 (N.ltb_lt _ _)) by done. lia.
Qed.

(** ** Reading a range *)

Section read.
Context `{SO : ShuffleOps} {SL : ShuffleLaws}.

(** The batches still in the reader, and the streams from its position to the end *)
Definition stream_ok (self : MultiStreamPartitionStream) (now : list (list SRow)) (groups : list (list (list SRow))) : Prop :=
  let ends at_ := ∃ bytes rest, streams_of groups bytes ∧ drop (N.to_nat at_) (data_path self) = bytes ++ rest ∧
    end_offset self = (at_ + N.of_nat (length bytes))%N in
  match state self with
  | Done => now = [] ∧ groups = []
  | Pending next => now = [] ∧ ends next
  | Reading items stop => items = inr <$> now ∧ ends stop
  end.

Lemma streams_cons g groups bytes :
  streams_of (g :: groups) bytes →
  ∃ s bytes', bytes = s ++ bytes' ∧ stream_finish g = inr s ∧ s ≠ [] ∧ streams_of groups bytes'.
Proof using SL.
  intros (ss & Hss & ->). inversion Hss as [|? s ? ss' Hs Hss']; subst. exists s, (concat ss').
  split; [done|]. split; [done|]. split; [apply (read_back _ _ [] Hs)|by exists ss'].
Qed.

Lemma streams_no_bytes groups : streams_of groups [] → groups = [].
Proof using SL.
  destruct groups as [|g groups]; [done|]. intros (s & bytes' & Hs & _ & Hne & _)%streams_cons.
  symmetry in Hs. by apply app_eq_nil in Hs as [-> _].
Qed.

(** The next batch is the first of those to come, or there is none. *)
Definition answers (n fuel : nat) (self : MultiStreamPartitionStream) (bs : list (list SRow)) : Prop :=
  match bs with
  | [] => ∃ self', next_batch fuel self = Some (inr None, self')
  | b :: bs' => ∃ self' now groups, next_batch fuel self = Some (inr (Some b), self') ∧
      stream_ok self' now groups ∧ bs' = now ++ concat groups ∧ length groups ≤ n
  end.

Lemma answers_step n n' fuel fuel' self self' bs :
  next_batch fuel self = next_batch fuel' self' → n' ≤ n → answers n' fuel' self' bs → answers n fuel self bs.
Proof using.
  unfold answers. intros -> Hn. destruct bs; [done|]. intros (s & now & gs & ? & ? & ? & ?).
  exists s, now, gs. split_and!; [done..|lia].
Qed.

Lemma reading_ok data stop items next fuel now groups :
  stream_ok (mkMulti data stop (Reading items next)) now groups →
  (stream_ok (mkMulti data stop (Pending next)) [] groups →
   answers (length groups) fuel (mkMulti data stop (Pending next)) (concat groups)) →
  1 ≤ fuel → answers (length groups) (S fuel) (mkMulti data stop (Reading items next)) (now ++ concat groups).
Proof using SL.
  intros [-> Hends] HA Hf. destruct now as [|b now].
  2:{ cbn. eexists _, now, groups. split; [done|]. split; [by split|]. done. }
  cbn [app]. eapply answers_step with (n' := length groups); [by cbn [next_batch state fmap list_fmap]|lia|].
  cbn [data_path end_offset]. destruct (N.ltb_spec next stop) as [Hlt|Hge]; [by apply HA|].
  destruct Hends as (bytes & rest & Hs & _ & He). cbn in He.
  assert (bytes = []) as -> by (apply nil_length_inv; lia). apply streams_no_bytes in Hs as ->.
  destruct fuel; [lia|]. cbn. by eexists.
Qed.

Lemma pending_ok data stop next fuel groups :
  stream_ok (mkMulti data stop (Pending next)) [] groups → 2 * length groups + 1 ≤ fuel →
  answers (length groups) fuel (mkMulti data stop (Pending next)) (concat groups).
Proof using SL.
  revert next fuel. induction groups as [|g groups IH]; intros next fuel [_ (bytes & rest & Hs & Hd & He)] Hf;
    cbn in He, Hd, Hf; (destruct fuel as [|fuel]; [lia|]).
  { destruct Hs as (ss & Hss & ->). inversion Hss; subst. cbn [answers next_batch state end_offset concat length].
    rewrite (proj2 (N.leb_le _ _)) by (cbn; lia). by eexists. }
  apply streams_cons in Hs as (s & bytes' & -> & Hs & Hne & Hs').
  destruct (read_back g s (bytes' ++ rest) Hs) as [_ Hread]. assert (1 ≤ length s) by (destruct s; [done|cbn; lia]).
  rewrite length_app in He. destruct fuel as [|fuel]; [lia|].
  eapply answers_step with (n' := length groups) (fuel' := S fuel)
    (self' := mkMulti data stop (Reading (inr <$> g) (next + N.of_nat (length s))));
    [|cbn; lia|].
  { cbn [next_batch state end_offset data_path]. rewrite (proj2 (N.leb_gt _ _)) by lia.
    by rewrite Hd, <-app_assoc, Hread. }
  cbn [concat]. apply reading_ok; [|intros Hp; apply IH; [done|lia]|lia].
  split; [done|]. exists bytes', rest. split; [done|]. cbn. split; [|lia].
  rewrite N2Nat.inj_add, Nat2N.id, <-drop_drop, Hd, <-app_assoc, drop_app_length. done.
Qed.

Lemma next_batch_ok fuel self now groups :
  stream_ok self now groups → 2 * length groups + 2 ≤ fuel → answers (length groups) fuel self (now ++ concat groups).
Proof using SL.
  destruct self as [data stop [next|items next|]]; intros Hok Hf.
  - destruct (id Hok) as [-> _]. apply pending_ok; [done|lia].
  - destruct fuel as [|fuel]; [lia|]. apply reading_ok; [done| |lia]. intros Hp. apply pending_ok; [done|lia].
  - destruct Hok as [-> ->]. destruct fuel; [lia|]. cbn. by eexists.
Qed.

(** Polling gives the batches of all the streams of the range. *)
Lemma poll_all_ok fuel self now groups :
  stream_ok self now groups → length (now ++ concat groups) + 2 * length groups + 2 ≤ fuel →
  poll_all fuel self = Some (inr <$> (now ++ concat groups)).
Proof using SL.
  intros Hok Hf. remember (now ++ concat groups) as bs eqn:Hbs.
  revert fuel self now groups Hok Hf Hbs. induction bs as [|b bs IH]; intros fuel self now groups Hok Hf Hbs;
    (destruct fuel as [|fuel]; [lia|]); pose proof (next_batch_ok (S fuel) self now groups Hok ltac:(lia)) as Ha;
    rewrite <-Hbs in Ha; cbn [answers poll_all] in *.
  { destruct Ha as [self' ->]. done. }
  destruct Ha as (self' & now' & groups' & -> & Hok' & -> & Hl).
  rewrite (IH fuel self' now' groups' Hok'); [done|cbn in Hf; lia|done].
Qed.
End read.
