(* ===== verification/SortShuffleCoordinator.v ===== *)
(** * Lemmas on the coordinator of the sort shuffle

    NULLs over the input partitions, the summaries, the partition as the reader gets
    it from the file of a task, and what every receiver is sent. *)

From S2P Require Import Prelude Errors Machine Types SortKey KeySketch Range SortShuffle SortShuffleFacts SortShuffleLayout.
From stdpp Require Import numbers gmap.

(** ** NULLs *)

Lemma u64_add_assoc a b c : u64_add a (u64_add b c) = u64_add (u64_add a b) c.
Proof. unfold u64_add. by rewrite N.Div0.add_mod_idemp_r, N.Div0.add_mod_idemp_l, N.add_assoc. Qed.

Lemma zip_add_zeros l :
  Forall is_u64 l →
  zip_with u64_add l (replicate (length l) 0%N) = l ∧ zip_with u64_add (replicate (length l) 0%N) l = l.
Proof.
  induction 1 as [|x l Hx _ [IH1 IH2]]; [done|]. cbn [length replicate zip_with]. rewrite IH1, IH2.
  unfold u64_add. by rewrite N.add_0_r, N.add_0_l, N.mod_small by done.
Qed.

Section nulls.
Context `{SO : ShuffleOps} {SL : ShuffleLaws}.

Lemma nulls_of_u64 bs : Forall is_u64 (nulls_of bs).
Proof.
  induction bs as [|b bs _] using rev_ind; [by apply Forall_replicate|]. rewrite nulls_of_snoc.
  generalize (nulls_of bs), (logical_null_counts b). intros l1. induction l1 as [|x l1 IH]; intros [|y l2]; constructor.
  - apply N.mod_lt. done.
  - apply IH.
Qed.

Lemma nulls_of_app a b : zip_with u64_add (nulls_of a) (nulls_of b) = nulls_of (a ++ b).
Proof.
  induction b as [|x b IH] using rev_ind.
  { rewrite app_nil_r. cbn. rewrite <-(nulls_of_length a). apply zip_add_zeros, nulls_of_u64. }
  rewrite app_assoc, !nulls_of_snoc, <-IH. generalize (nulls_of a), (nulls_of b), (logical_null_counts x). clear.
  intros l1. induction l1 as [|y l1 IH]; intros [|z l2] [|w l3]; cbn; try done. by rewrite u64_add_assoc, IH.
Qed.

Lemma fold_nulls_same l1 l2 : length l1 = length l2 → fold_nulls l1 l2 = zip_with u64_add l1 l2.
Proof.
  intros Hl. unfold fold_nulls. rewrite Hl, Nat.sub_diag. cbn [replicate]. rewrite app_nil_r.
  by rewrite <-Hl, take_ge, drop_ge, app_nil_r by lia.
Qed.

Lemma fold_nulls_first b : fold_nulls [] (nulls_of b) = nulls_of b.
Proof.
  unfold fold_nulls. cbn [length app]. rewrite Nat.sub_0_r, take_ge, drop_ge, app_nil_r by (by rewrite length_replicate).
  apply zip_add_zeros, nulls_of_u64.
Qed.
End nulls.

(** ** Summaries *)

Section summaries.
Context (K : nat) (file_id : N).

Lemma group_summaries_ok k n stats grouped j :
  Forall2 (λ p st, st.1 = p) (seq k n) stats →
  group_summaries K file_id stats grouped !! j =
    if decide (k ≤ j < k + n) then (λ b, b ++ from_option (summary K file_id) [] (stats !! (j - k))) <$> grouped !! j
    else grouped !! j.
Proof.
  revert k stats grouped. induction n as [|n IH]; intros k stats grouped Hs; inversion Hs as [|? st ? stats' Hst Hs']; subst.
  { by rewrite decide_False by lia. }
  cbn [group_summaries]. rewrite (IH (S st.1)) by done. destruct (decide (j = st.1)) as [->|Hne].
  - rewrite list_lookup_alter_eq, decide_False, decide_True, Nat.sub_diag by lia. done.
  - rewrite list_lookup_alter_ne by done. repeat case_decide; try lia; [|done].
    by replace (j - st.1) with (S (j - S st.1)) by lia.
Qed.
End summaries.

(** ** A partition of the file *)

Section file.
Context `{SO : ShuffleOps} {SL : ShuffleLaws}.
Context (P : nat) (HP : 0 < P) (HP64 : is_u64 (N.of_nat P)).

Abbreviation of_part k rows := (filter (λ r, part P r = k) rows).

Context (outs : list InputPartitionOutput) (bss : list (list (list SRow))) (header : list N) (f : FinalizeResult).
Context (Hf : file_ok P outs bss header f) (Hsmall : (N.of_nat (length (f_data f)) < 2 ^ 63)%N).

(** The bytes before a range *)
Abbreviation before j := (header ++ concat (range_of outs <$> seq 0 j)).

Lemma before_prefix j : j ≤ P → ∃ rest, f_data f = before j ++ rest.
Proof using All.
  intros Hj. exists (concat (range_of outs <$> seq j (P - j))). rewrite (fo_data _ _ _ _ _ Hf).
  by rewrite <-app_assoc, <-concat_app, <-fmap_app, <-seq_app, (Nat.add_comm j), Nat.sub_add by lia.
Qed.

Lemma before_succ j : before (S j) = before j ++ range_of outs j.
Proof using. rewrite seq_S, fmap_app, concat_app. cbn. by rewrite app_nil_r, app_assoc. Qed.

Lemma start_lookup j : j ≤ P → starts P header outs !! j = Some (Z.of_nat (length (before j))).
Proof using All.
  intros Hj. unfold starts. rewrite list_lookup_fmap, lookup_seq_lt by lia. cbn. f_equal. apply position_small.
  destruct (before_prefix j Hj) as [rest Hr]. rewrite Hr, length_app in Hsmall. lia.
Qed.

Lemma starts_i64 : Forall is_i64 (starts P header outs).
Proof using All.
  apply Forall_lookup_2. intros j z Hz.
  assert (j ≤ P) as Hj by (apply lookup_lt_Some in Hz; unfold starts in Hz; rewrite length_fmap, length_seq in Hz; lia).
  rewrite start_lookup in Hz by done. injection Hz as <-. destruct (before_prefix j Hj) as [rest Hr].
  rewrite Hr, length_app in Hsmall. unfold is_i64. lia.
Qed.

Lemma index_read : ShuffleIndex.read_from_file (f_index f) = Ok (starts P header outs).
Proof using All.
  rewrite (fo_index _ _ _ _ _ Hf). apply read_from_file_write; [|apply starts_i64].
  unfold starts. rewrite length_fmap, length_seq. lia.
Qed.

(** The reader of a partition is at the first of its streams. *)
Lemma partition_stream p groups :
  p < P → streams_of groups (range_of outs p) →
  ∃ stream, stream_sort_shuffle_partition (f_data f) (f_index f) p = Ok stream ∧ stream_ok stream [] groups.
Proof using All.
  intros Hp Hg. unfold stream_sort_shuffle_partition. rewrite index_read. cbn [obind].
  unfold ShuffleIndex.partition_count, ShuffleIndex.get_partition_range.
  assert (length (starts P header outs) = S P) as -> by (unfold starts; by rewrite length_fmap, length_seq).
  rewrite (proj2 (Nat.leb_gt _ _)) by lia.
  destruct (before_prefix 0 ltac:(lia)) as [r0 Hr0]. cbn in Hr0. rewrite app_nil_r in Hr0.
  rewrite Hr0. rewrite (proj2 (read_back _ _ r0 (fo_header _ _ _ _ _ Hf))), <-Hr0.
  unfold ShuffleIndex.t. rewrite !start_lookup by lia. cbn [obind].
  rewrite before_succ, (length_app (before p)), (proj2 (Z.ltb_ge _ _)), (proj2 (Z.ltb_ge _ _)) by lia. cbn [orb].
  eexists. split; [done|]. unfold multi_stream_new. destruct (before_prefix (S p) ltac:(lia)) as [rest Hr].
  rewrite before_succ, <-app_assoc in Hr. destruct (N.leb_spec (Z.to_N (Z.of_nat (length (before p) + length (range_of outs p))))
    (Z.to_N (Z.of_nat (length (before p))))) as [Hle|Hlt].
  - assert (range_of outs p = []) as Hnil by (apply nil_length_inv; lia). rewrite Hnil in Hg.
    split; [done|]. by apply streams_no_bytes.
  - split; [done|]. exists (range_of outs p), rest. split; [done|]. cbn [data_path end_offset]. split; [|lia].
    rewrite Hr at 1. rewrite Z_N_nat, Nat2Z.id. apply drop_app_length.
Qed.
End file.

(** ** The coordinator *)

Section coordinator.
Context `{SO : ShuffleOps} {SL : ShuffleLaws} `{HashOrder}.
Context (P : nat) (HP : 0 < P) (HP64 : is_u64 (N.of_nat P)) (cfg : SortShuffleConfig) (Hcfg : 1 ≤ batch_size cfg).

Abbreviation of_part k rows := (filter (λ r, part P r = k) rows).

(** The stream of an input partition, and the memory it meets *)
Definition input : Type := (nat → N * bool) * fallible (list (fallible (list SRow))).

Definition input_fails (i : input) : Prop :=
  match i.2 with inl _ => True | inr items => ∃ e, inl e ∈ items end.

Definition input_fits (i : input) : Prop := match i.2 with inl _ => True | inr items => fits_u32 items end.

(** A stream without an error *)
Definition whole (bs : list (list SRow)) : fallible (list (fallible (list SRow))) := inr (inr <$> bs).

Definition write_of (i : input) : joined := spawned (execute_shuffle_write cfg P num_fields i.1 i.2).

Lemma join_writes_ok inputs outs :
  Forall input_fits inputs →
  match join_writes (write_of <$> inputs) outs with
  | (_, Some _) => ops_fail ∨ Exists input_fails inputs
  | (outs', None) => ∃ new bss, outs' = outs ++ new ∧ Forall2 (output_ok P) new bss ∧
      inputs.*2 = whole <$> bss
  end.
Proof using All.
  intros Hall. revert outs. induction Hall as [|[pressure s] inputs Hi _ IH]; intros outs.
  { exists [], []. split_and!; [by rewrite app_nil_r|constructor|done]. }
  rewrite fmap_cons. unfold write_of at 1. cbn [fst snd]. destruct s as [e|items].
  { cbn. right. left. done. }
  pose proof (execute_shuffle_write_ok P HP HP64 cfg pressure items Hcfg Hi) as Hw.
  destruct (execute_shuffle_write _ _ _ _ _) as [out|e|]; cbn [yields spawned join_writes] in *; [| |done].
  - specialize (IH (outs ++ [out])). destruct Hw as (bs & -> & Hout).
    destruct (join_writes _ _) as [outs' [e|]]; [destruct IH as [?|?]; [by left|right; by right]|].
    destruct IH as (new & bss & -> & Hn & Hb). exists (out :: new), (bs :: bss).
    rewrite <-app_assoc, !fmap_cons, Hb. split_and!; [done|by constructor|done].
  - destruct Hw as [?|?]; [by left|]. right. by left.
Qed.

Lemma fold_outputs outs bss bs0 :
  Forall2 (output_ok P) outs bss →
  foldl (λ total o, fold_nulls total (null_counts o)) (nulls_of bs0) outs = nulls_of (bs0 ++ concat bss).
Proof using All.
  intros Hall. revert bs0. induction Hall as [|out bs outs bss Ho _ IH]; intros bs0; cbn [foldl concat].
  { by rewrite app_nil_r. }
  rewrite (oo_nulls _ _ _ Ho), fold_nulls_same by (by rewrite !nulls_of_length).
  by rewrite nulls_of_app, IH, app_assoc.
Qed.

(** What the receiver of an output partition is sent, and what it reads *)
Definition delivered (task_id : N) (c : coordinated) (p : nat) (rows : list SRow) : Prop :=
  ∃ batches, concat batches = rows ∧
    sent c !! p = Some (inr (if decide (rows = []) then [] else
      [ShuffleWritePartition.mk p (u64_wrap (N.of_nat (length batches))) (N.of_nat (length rows))
         (u64_wrap (lsum array_memory_size batches)) (Some task_id) true])) ∧
    ∀ f, c_file c = Some f → (N.of_nat (length (f_data f)) < 2 ^ 63)%N →
      ∃ stream, stream_sort_shuffle_partition (f_data f) (f_index f) p = Ok stream ∧
        ∃ enough, ∀ fuel, enough ≤ fuel → poll_all fuel stream = Some (inr <$> batches).

Lemma file_delivered task_id outs bss header f nulls ms p :
  file_ok P outs bss header f → p < P → (N.of_nat (length (concat (concat bss))) < 2 ^ 64)%N →
  delivered task_id
    (mkCoordinated nulls (Some f) ms (inr <$> group_summaries P task_id (f_stats f) (replicate P [])))
    p (of_part p (concat (concat bss))).
Proof using All.
  intros Hf Hp Hn. pose proof (fo_stats _ _ _ _ _ Hf) as Hst.
  destruct (Forall2_lookup_l _ _ _ _ _ Hst (lookup_seq_lt 0 P p Hp)) as ([q st] & Hlook & Hq & groups & Hs & Hrows & Hstat).
  cbn in Hq, Hstat, Hrows. subst q st. exists (concat groups). split; [done|]. split.
  - cbn [sent]. rewrite list_lookup_fmap, (group_summaries_ok P task_id 0 P).
    2:{ eapply Forall2_impl; [exact Hst|]. by intros i s [? _]. }
    rewrite decide_True, lookup_replicate_2, Nat.sub_0_r, Hlook by lia. cbn [fmap option_fmap option_map from_option app].
    assert (length (of_part p (concat (concat bss))) ≤ length (concat (concat bss))) as Hle by apply length_filter.
    unfold summary, stats_of, batch_stats. cbn [num_rows num_batches num_bytes fst snd]. rewrite Hrows.
    set (rows := of_part p _) in *. assert (u64_wrap (N.of_nat (length rows)) = N.of_nat (length rows)) as ->.
    { apply N.mod_small. lia. }
    rewrite (proj2 (Nat.ltb_lt _ _) Hp), andb_true_r. destruct rows; [done|]. by rewrite decide_False.
  - intros f' [= <-] Hsmall. destruct (partition_stream P HP HP64 outs bss header f Hf Hsmall p groups Hp Hs) as (stream & -> & Hok).
    exists stream. split; [done|]. eexists. intros fuel Hfuel. by apply (poll_all_ok fuel stream [] groups).
Qed.

(** Every receiver gets its rows, or all get one error. *)
Lemma coordinator_ok task_id inputs :
  Forall input_fits inputs → inputs ≠ [] →
  ∃ c, run_coordinator P task_id (write_of <$> inputs) = Some c ∧
    Forall (λ m, SpillManager.spill_files m = ∅) (cleaned c) ∧
    ((∃ e, sent c = replicate P (inl e) ∧ (ops_fail ∨ Exists input_fails inputs)) ∨
     ∃ bss, inputs.*2 = whole <$> bss ∧ column_null_counts c = nulls_of (concat bss) ∧ is_Some (c_file c) ∧
       ((N.of_nat (length (concat (concat bss))) < 2 ^ 64)%N →
        ∀ p, p < P → delivered task_id c p (of_part p (concat (concat bss))))).
Proof using All.
  intros Hfit Hne. unfold run_coordinator. pose proof (join_writes_ok inputs [] Hfit) as Hj.
  destruct (join_writes _ _) as [outs [e|]].
  { eexists. split; [done|]. split; [by apply Forall_fmap, Forall_true|]. left. exists e. done. }
  destruct Hj as (new & bss & -> & Hall & Hin). cbn [app].
  assert (new ≠ []) as Hnew.
  { intros ->. inversion Hall; subst. apply Hne. by eapply fmap_nil_inv. }
  rewrite bool_decide_eq_false_2 by done.
  pose proof (write_task_consolidated_ok P HP HP64 new bss Hnew Hall) as Hw.
  destruct (write_task_consolidated new) as [f|e|]; cbn [yields] in Hw; [| |done].
  2:{ eexists. split; [done|]. split; [by apply Forall_fmap, Forall_true|]. left. exists e. split; [done|]. by left. }
  destruct Hw as [header Hf]. eexists. split; [done|]. split; [by apply Forall_fmap, Forall_true|]. right. exists bss.
  split_and!; [done| |by eexists|intros Hn p Hp; by apply (file_delivered task_id new bss header)].
  cbn. destruct Hall as [|out bs new bss Ho Hall]; [done|]. cbn [foldl concat].
  rewrite (oo_nulls _ _ _ Ho), fold_nulls_first. by apply fold_outputs.
Qed.

(** The file of a task that has one *)
Lemma coordinator_file task_id inputs c f :
  Forall input_fits inputs → run_coordinator P task_id (write_of <$> inputs) = Some c → c_file c = Some f →
  ∃ outs bss header, file_ok P outs bss header f ∧ inputs.*2 = whole <$> bss.
Proof using All.
  intros Hfit. unfold run_coordinator. pose proof (join_writes_ok inputs [] Hfit) as Hj.
  destruct (join_writes _ _) as [outs [e|]]; [by intros [= <-]|].
  destruct Hj as (new & bss & -> & Hall & Hin). cbn [app]. case_bool_decide as Hnew; [by intros [= <-]|].
  pose proof (write_task_consolidated_ok P HP HP64 new bss Hnew Hall) as Hw.
  destruct (write_task_consolidated new) as [f'|e|]; cbn [yields] in Hw; [|by intros [= <-]|done].
  intros [= <-] [= <-]. destruct Hw as [header Hf]. by exists new, bss, header.
Qed.
End coordinator.
