(* ===== verification/Transfer.v ===== *)
(** * Reading shuffle data from other executors

    Models where shuffle files are ([create_shuffle_path] and the names of their
    indexes), the block transport of the executor ([do_action] in
    [ballista/executor/src/flight_service.rs]), the client that decodes the blocks
    ([ballista/core/src/client.rs]), and the fetches of the shuffle reader with their
    retries ([ballista/core/src/execution_plans/shuffle_reader.rs]).

    A disk maps paths to the bytes of files. What the network answers to the attempts
    is an argument. The decoder of IPC streams is Arrow's ([BlockOps], [BlockLaws]). *)

From S2P Require Import Prelude Errors Machine Types SortKey Range RangeIndex SortShuffle.
From stdpp Require Import numbers gmap strings pretty.
From Stdlib Require Import Ascii.

(** ** Paths *)

(** A path has its components; a component is a name without a separator. *)
Abbreviation Path := (list string).

Fixpoint before_last_dot (name : string) : option string :=
  match name with
  | EmptyString => None
  | String c name' =>
      match before_last_dot name' with
      | Some stem => Some (String c stem)
      | None => if bool_decide (c = "."%char) then Some EmptyString else None
      end
  end.

(** [Path::file_stem]: a dot at the start does not begin an extension. *)
Definition file_stem (name : string) : string :=
  match before_last_dot name with
  | Some EmptyString | None => name
  | Some stem => stem
  end.

(** [Path::with_extension] *)
Definition with_extension (extension : string) (path : Path) : Path :=
  match reverse path with
  | [] => path
  | name :: parents => reverse parents ++ [(file_stem name +:+ "." +:+ extension)%string]
  end.

Definition create_shuffle_path (work_dir : Path) (job_id : JobId) (stage_id partition_id : nat)
    (file_id : option N) (is_sort_shuffle : bool) : df_result Path :=
  let path := work_dir ++ [job_id; pretty stage_id] in
  match file_id, is_sort_shuffle with
  | Some file_id, false => Ok (path ++ [pretty partition_id; ("data-" +:+ pretty file_id +:+ ".arrow")%string])
  | Some file_id, true => Ok (path ++ [pretty file_id; "data.arrow"%string])
  | None, false => Ok (path ++ [pretty partition_id; "data.arrow"%string])
  | None, true => Err (DF_Other "can't create path for sort shuffle without file_id provided")
  end.

Definition get_index_path (data_path : Path) : Path := with_extension "arrow.index" data_path.
Definition range_index_path (data_path : Path) : Path := with_extension "rangeidx.arrow" data_path.

Abbreviation Disk := (gmap Path (list N)).

Definition exists_file (disk : Disk) (path : Path) : bool := bool_decide (is_Some (disk !! path)).

Definition is_sort_shuffle_output (disk : Disk) (data_path : Path) : bool :=
  exists_file disk (get_index_path data_path).

Definition location_path (work_dir : Path) (location : PartitionLocation.t) : df_result Path :=
  let p := PartitionLocation.partition_id location in
  create_shuffle_path work_dir (PartitionId.job_id p) (PartitionId.stage_id p) (PartitionId.partition_id p)
    (PartitionLocation.file_id location) (PartitionLocation.is_sort_shuffle location).

(** ** The executor *)

Inductive Code : Type := Unknown | InvalidArgument | OutOfRange | InternalCode | Unimplemented.
Record Status : Type := mkStatus { status_code : Code; status_message : string }.

Inductive ShuffleLayout : Type := Passthrough | Sort.
Inductive ShuffleFileKind : Type := Data | Index.

Definition shuffle_layout (is_sort_shuffle : bool) : ShuffleLayout :=
  if is_sort_shuffle then Sort else Passthrough.

Record FetchPartition : Type := mkFetch {
  fp_job_id : JobId;
  fp_stage_id : nat;
  fp_partition_id : nat;
  fp_file_id : option N;
  fp_layout : ShuffleLayout;
  fp_file_kind : ShuffleFileKind;
  fp_byte_ranges : list ByteRange;
}.

Definition status {E A : Type} (message : string) (o : outcome E A) : outcome Status A :=
  match o with
  | Ok a => Ok a
  | Err _ => Err (mkStatus InternalCode message)
  | Panic => Panic
  end.

Definition resolve_fetch_path (work_dir : Path) (action : FetchPartition) : outcome Status Path :=
  let? data := status "I/O error, can't create shuffle path: {e}"
    (create_shuffle_path work_dir (fp_job_id action) (fp_stage_id action) (fp_partition_id action)
       (fp_file_id action) (match fp_layout action with Sort => true | Passthrough => false end)) in
  Ok (match fp_file_kind action with
      | Data => data
      | Index => match fp_layout action with Sort => get_index_path data | Passthrough => range_index_path data end
      end).

(** The bytes of a range, clamped to the file *)
Definition range_bytes (file : list N) (range : ByteRange) : list N :=
  let len := N.of_nat (length file) in
  take (N.to_nat (br_length range `min` (len - br_offset range))) (drop (N.to_nat (br_offset range)) file).

Definition stream_byte_ranges (file : option (list N)) (ranges : list ByteRange) : outcome Status (list N) :=
  match file with
  | None => Err (mkStatus InternalCode "Failed to stat {path:?}: {e}")
  | Some file =>
      if existsb (λ range, N.of_nat (length file) <=? br_offset range)%N ranges
      then Err (mkStatus OutOfRange "range at {} is past the end of {path:?} ({len} bytes)")
      else Ok (concat (range_bytes file <$> ranges))
  end.

Definition stream_whole_file (file : option (list N)) : outcome Status (list N) :=
  match file with
  | None => Err (mkStatus InternalCode "Failed to open file: {e}")
  | Some file => Ok file
  end.

(** An open file and its cursor *)
Module OpenFile.
Record t : Type := mk { content : list N; cursor : N }.

Definition open (content : list N) : t := mk content 0.
Definition seek (offset : N) (self : t) : t := mk (content self) offset.
Definition read (limit : N) (self : t) : list N * t :=
  let bytes := take (N.to_nat limit) (drop (N.to_nat (cursor self)) (content self)) in
  (bytes, mk (content self) (cursor self + N.of_nat (length bytes))%N).
End OpenFile.

(** [try_clone] of a file shares the open file with its cursor, so that both handles
    are one [OpenFile.t] here. *)
Definition stream_sort_shuffle_block (data : option (list N)) (index_file : list N) (partition_id : nat) : outcome Status (list N) :=
  let? index := status "Ballista Error: {e:?}" (ShuffleIndex.read_from_file index_file) in
  if ShuffleIndex.partition_count index <=? partition_id then
    Err (mkStatus OutOfRange "partition_id {partition_id} not found in index (max: {})")
  else
    let? header_end := ShuffleIndex.header_end_offset index in
    let? range := ShuffleIndex.get_partition_range partition_id index in
    let header_end := u64_of_i64 header_end in
    let start := u64_of_i64 range.1 in
    let stop := u64_of_i64 range.2 in
    match data with
    | None => Err (mkStatus InternalCode "Failed to open file: {e}")
    | Some data =>
        let file := OpenFile.open data in
        let file := OpenFile.seek start file in
        let '(header, file) := OpenFile.read header_end file in
        let '(partition, file) := OpenFile.read (u64_sub stop start) file in
        Ok (header ++ partition)
    end.

(** The bytes of the answer to an action; they are sent in blocks. *)
Definition do_action (disk : Disk) (work_dir : Path) (type : string) (action : FetchPartition)
  : outcome Status (list N) :=
  if bool_decide (type = "IO_BLOCK_TRANSPORT"%string) then
    let? path := resolve_fetch_path work_dir action in
    if bool_decide (fp_byte_ranges action ≠ []) then stream_byte_ranges (disk !! path) (fp_byte_ranges action)
    else if is_sort_shuffle_output disk path then
      stream_sort_shuffle_block (disk !! path) (default [] (disk !! get_index_path path)) (fp_partition_id action)
    else stream_whole_file (disk !! path)
  else Err (mkStatus Unimplemented "do_action does not implement: {}").

(** ** The client *)

(** The end of a call of the decoder: a batch; all bytes are taken; bytes come after the
    end of the stream; another error *)
Inductive decoded {A : Type} : Type :=
| Decoded (batch : A)
| Drained
| UnexpectedEos
| DecodeError (e : ArrowError).
Arguments decoded : clear implicits.

Inductive schema_result : Type := SchemaFound | SchemaParseError | SchemaError (e : ArrowError).

(** Arrow's [StreamDecoder] and [try_schema_from_ipc_buffer], the [FileReader], and the
    conversion of the messages of a Flight stream *)
Class BlockOps `{ShuffleOps} : Type := {
  StreamDecoder : Type;
  new_decoder : StreamDecoder;
  stream_decode : StreamDecoder → list N → decoded (list SRow) * StreamDecoder * list N;
  try_schema_from_ipc_buffer : list N → schema_result;
  file_read : list N → fallible (list (fallible (list SRow)));
  FlightData : Type;
  schema_try_from : FlightData → ArrowError + ();
  flight_data_to_arrow_batch : FlightData → fallible (list SRow);
}.

Definition MAXIMUM_SCHEMA_BUFFER_SIZE : N := 8388608.

Section client.
Context `{BlockOps}.

Record BlockDataStream : Type := mkBlocks {
  decoder : StreamDecoder;
  state_buffer : list N;
  ipc_stream : list (fallible (list N));
  transmitted : N;
}.

Definition append_block (pending blob : list N) : list N :=
  if bool_decide (pending = []) then blob else pending ++ blob.

Fixpoint block_stream_try_new (buffer : list N) (ipc_stream : list (fallible (list N))) : df_result BlockDataStream :=
  if (MAXIMUM_SCHEMA_BUFFER_SIZE <? N.of_nat (length buffer))%N then
    Err (DF_ArrowError (AE_Other "Schema buffer length exceeded maximum buffer size, expected {} actual: {}"))
  else
    match ipc_stream with
    | [] => Err (DF_ArrowError (AE_Other "Premature end of the stream while decoding schema"))
    | inl e :: _ => Err (DF_ArrowError (AE_Other "{e}"))
    | inr blob :: ipc_stream' =>
        let buffer := append_block buffer blob in
        match try_schema_from_ipc_buffer buffer with
        | SchemaFound => Ok (mkBlocks new_decoder buffer ipc_stream' (N.of_nat (length buffer)))
        | SchemaParseError => block_stream_try_new buffer ipc_stream'
        | SchemaError e => Err (DF_ArrowError e)
        end
    end.

Definition extend_bytes (blob : list N) (self : BlockDataStream) : BlockDataStream :=
  mkBlocks (decoder self) (append_block (state_buffer self) blob) (ipc_stream self)
    (transmitted self + N.of_nat (length blob)).

(** [None] when the loop has not ended within the fuel *)
Fixpoint block_stream_poll_next (fuel : nat) (self : BlockDataStream)
  : option (option (fallible (list SRow)) * BlockDataStream) :=
  match fuel with
  | 0 => None
  | S fuel' =>
      let '(item, decoder, buffer) := stream_decode (decoder self) (state_buffer self) in
      let self := mkBlocks decoder buffer (ipc_stream self) (transmitted self) in
      match item with
      | Decoded batch => Some (Some (inr batch), self)
      | UnexpectedEos =>
          block_stream_poll_next fuel' (mkBlocks new_decoder buffer (ipc_stream self) (transmitted self))
      | DecodeError e => Some (Some (inl (DF_ArrowError (AE_Other "{e}"))), self)
      | Drained =>
          match ipc_stream self with
          | [] => Some (None, self)
          | inl e :: ipc_stream' =>
              Some (Some (inl (DF_ArrowError (AE_Other "{e}"))), mkBlocks decoder buffer ipc_stream' (transmitted self))
          | inr blob :: ipc_stream' =>
              block_stream_poll_next fuel' (extend_bytes blob (mkBlocks decoder buffer ipc_stream' (transmitted self)))
          end
      end
  end.

(** [try_collect]: the batches up to the end, or the first error *)
Fixpoint collect_blocks (fuel : nat) (self : BlockDataStream) : option (fallible (list (list SRow))) :=
  match fuel with
  | 0 => None
  | S fuel' =>
      match block_stream_poll_next fuel self with
      | None => None
      | Some (None, _) => Some (inr [])
      | Some (Some (inl e), _) => Some (inl e)
      | Some (Some (inr batch), self) => sum_map id (cons batch) <$> collect_blocks fuel' self
      end
  end.

(** *** Attempts *)

(** What the network answers to an attempt: the connection, and the streams of
    [do_action] and of [do_get] *)
Record Attempt : Type := mkAttempt {
  at_connect : result ();
  at_action : Status + list (Status + list N);
  at_get : Status + list (Status + FlightData);
}.

Definition is_unknown (s : Status) : bool := match status_code s with Unknown => true | _ => false end.

(** [m.map(|b| b.body).map_err(...)] *)
Definition block_item (m : Status + list N) : fallible (list N) :=
  match m with
  | inl e => inl (DF_ArrowError (AE_Other (status_message e)))
  | inr b => inr b
  end.

(** The loop from attempt [i], with [left] attempts; after the last is [unreachable!]. *)
Fixpoint do_action_loop (left i : nat) (network : nat → Status + list (Status + list N)) (header : option (list N))
  : result BlockDataStream :=
  match left with
  | 0 => Panic
  | S left' =>
      match network i with
      | inl e =>
          if (left' =? 0) || negb (is_unknown e) then Err (GrpcActionError (status_message e))
          else do_action_loop left' (S i) network header
      | inr blocks =>
          let stream := option_list (inr <$> header) ++ (block_item <$> blocks) in
          ballista_err (block_stream_try_new [] stream)
      end
  end.

Definition execute_do_action_with_header (io_retries_times : nat) (network : nat → Status + list (Status + list N))
    (header : option (list N)) : result BlockDataStream := do_action_loop io_retries_times 0 network header.

(** The messages after the schema *)
Fixpoint do_get_loop (left i : nat) (network : nat → Status + list (Status + FlightData))
  : result (list (Status + FlightData)) :=
  match left with
  | 0 => Panic
  | S left' =>
      let failed e :=
        if (left' =? 0) || negb (is_unknown e) then Err (GrpcActionError (status_message e))
        else do_get_loop left' (S i) network in
      match network i with
      | inl e => failed e
      | inr [] => Err (GrpcActionError "Did not receive schema batch from flight server")
      | inr (inl e :: _) => failed e
      | inr (inr flight_data :: stream) =>
          match schema_try_from flight_data with
          | inl e => Err (ballista_of_arrow e)
          | inr _ => Ok stream
          end
      end
  end.

Definition execute_do_get (io_retries_times : nat) (network : nat → Status + list (Status + FlightData))
  : result (list (Status + FlightData)) := do_get_loop io_retries_times 0 network.

Definition flight_item (m : Status + FlightData) : fallible (list SRow) :=
  match m with
  | inl e => inl (DF_ArrowError (AE_ExternalError (ExtOther (status_message e))))
  | inr flight_data => flight_data_to_arrow_batch flight_data
  end.

Inductive RemoteStream : Type :=
| Blocks (stream : BlockDataStream)
| Flight (stream : list (Status + FlightData)).

(** The request for a location: whatever its identifiers address *)
Definition partition_action (location : PartitionLocation.t) : FetchPartition :=
  let p := PartitionLocation.partition_id location in
  mkFetch (PartitionId.job_id p) (PartitionId.stage_id p) (PartitionId.partition_id p)
    (PartitionLocation.file_id location) (shuffle_layout (PartitionLocation.is_sort_shuffle location)) Data [].

(** A failed action becomes a fetch failure. *)
Definition client_as_fetch_failed (executor_id : string) (p : PartitionId.t) (e : BallistaError) : BallistaError :=
  match e with
  | GrpcActionError msg => FetchFailed executor_id (PartitionId.stage_id p) (PartitionId.partition_id p) msg
  | _ => e
  end.

Definition map_err {A : Type} (f : BallistaError → BallistaError) (o : result A) : result A :=
  match o with
  | Ok a => Ok a
  | Err e => Err (f e)
  | Panic => Panic
  end.

Definition fetch_partition (io_retries_times : nat) (location : PartitionLocation.t) (flight_transport : bool)
    (attempt : Attempt) : result RemoteStream :=
  map_err (client_as_fetch_failed (loc_executor location) (PartitionLocation.partition_id location))
    (if flight_transport
     then let? stream := execute_do_get io_retries_times (λ _, at_get attempt) in Ok (Flight stream)
     else let? stream := execute_do_action_with_header io_retries_times (λ _, at_action attempt) None in
          Ok (Blocks stream)).

(** ** The shuffle reader *)

Definition fetch_failed (location : PartitionLocation.t) (msg : string) : BallistaError :=
  let p := PartitionLocation.partition_id location in
  FetchFailed (loc_executor location) (PartitionId.stage_id p) (PartitionId.partition_id p) msg.

(** A failed connection becomes a fetch failure. *)
Definition as_fetch_failed (location : PartitionLocation.t) (e : BallistaError) : BallistaError :=
  match e with
  | GrpcConnectionError msg => fetch_failed location msg
  | _ => e
  end.

(** A client from the pool or a new one; the reader's clients try once. *)
Definition fetch_partition_remote (location : PartitionLocation.t) (prefer_flight : bool) (attempt : Attempt)
  : result RemoteStream :=
  let? _ := map_err (as_fetch_failed location) (at_connect attempt) in
  fetch_partition 1 location prefer_flight attempt.

Fixpoint collect_items (items : list (fallible (list SRow))) : fallible (list (list SRow)) :=
  match items with
  | [] => inr []
  | inl e :: _ => inl e
  | inr batch :: items' => sum_map id (cons batch) (collect_items items')
  end.

(** The whole body, or an error; a stream that does not end within the fuel is a panic
    here. *)
Definition fetch_partition_buffered (fuel : nat) (location : PartitionLocation.t) (prefer_flight : bool)
    (attempt : Attempt) : result (list (list SRow)) :=
  let? stream := fetch_partition_remote location prefer_flight attempt in
  let collected := match stream with
                   | Blocks stream => collect_blocks fuel stream
                   | Flight stream => Some (collect_items (flight_item <$> stream))
                   end in
  match collected with
  | None => Panic
  | Some (inl e) => Err (fetch_failed location "{e}")
  | Some (inr batches) => Ok batches
  end.

Definition is_retriable_fetch_error (e : BallistaError) : bool :=
  match e with
  | GrpcConnectionError _ | FetchFailed _ _ _ _ => true
  | _ => false
  end.

(** The loop from attempt [attempt], with [left] retries *)
Fixpoint with_retry {T : Type} (left : nat) (should_retry : BallistaError → bool) (attempt : nat)
    (f : nat → result T) : result T :=
  match f attempt with
  | Err e =>
      match left with
      | 0 => Err e
      | S left' => if should_retry e then with_retry left' should_retry (S attempt) f else Err e
      end
  | r => r
  end.

Definition fetch_remote (fuel outer_retries : nat) (location : PartitionLocation.t) (prefer_flight : bool)
    (network : nat → Attempt) : result (list (list SRow)) :=
  with_retry outer_retries is_retriable_fetch_error 0
    (λ attempt, fetch_partition_buffered fuel location prefer_flight (network attempt)).

(** *** Local files *)

Definition ARROW_FILE_MAGIC : list N := [65; 82; 82; 79; 87; 49]%N.

Definition is_ipc_file (file : option (list N)) : bool :=
  match file with
  | Some file => bool_decide (take 6 file = ARROW_FILE_MAGIC)
  | None => false
  end.

(** The reader of a partition of a sort shuffle, or the items of a reader of one file *)
Inductive LocalStream : Type :=
| SortPartition (stream : MultiStreamPartitionStream)
| LocalShuffle (items : list (fallible (list SRow))).

Definition open_with {A : Type} (location : PartitionLocation.t) (r : fallible A) : result A :=
  match r with
  | inl _ => Err (fetch_failed location "{e}")
  | inr a => Ok a
  end.

Definition fetch_partition_local (disk : Disk) (work_dir : Path) (location : PartitionLocation.t)
  : result LocalStream :=
  let? path := ballista_err (location_path work_dir location) in
  match disk !! path with
  | None => Err (fetch_failed location "Failed to open partition file at {path:?}: {e:?}")
  | Some data =>
      if is_sort_shuffle_output disk path then
        let? stream := map_err (λ _, fetch_failed location "{e}")
          (stream_sort_shuffle_partition data (default [] (disk !! get_index_path path))
             (PartitionId.partition_id (PartitionLocation.partition_id location))) in
        Ok (SortPartition stream)
      else if is_ipc_file (Some data) then
        let? items := open_with location (file_read data) in Ok (LocalShuffle items)
      else
        let? reader := open_with location (stream_read data) in Ok (LocalShuffle reader.1)
  end.

(** A file at the path of the location is read locally, whoever wrote it. *)
Definition is_local (disk : Disk) (work_dir : Path) (location : PartitionLocation.t) : bool :=
  match location_path work_dir location with
  | Ok path => exists_file disk path
  | _ => false
  end.

Definition local_remote_read_split (disk : Disk) (work_dir : Path) (partition_locations : list PartitionLocation.t)
    (force_remote_read : bool) : list PartitionLocation.t * list PartitionLocation.t :=
  if negb force_remote_read
  then (filter (is_local disk work_dir) partition_locations,
        filter (λ p, negb (is_local disk work_dir p)) partition_locations)
  else ([], partition_locations).

Definition drain_local (fuel : nat) (stream : LocalStream) : option (list (fallible (list SRow))) :=
  match stream with
  | SortPartition stream => poll_all fuel stream
  | LocalShuffle items => Some items
  end.

(** The items of the responses: local files are opened in order; a buffered remote
    partition has no failing item. *)
Definition local_response (fuel : nat) (disk : Disk) (work_dir : Path) (location : PartitionLocation.t)
  : result (list (fallible (list SRow))) :=
  let? stream := fetch_partition_local disk work_dir location in
  match drain_local fuel stream with
  | Some items => Ok items
  | None => Panic
  end.

Definition remote_response (fuel outer_retries : nat) (prefer_flight : bool)
    (network : PartitionLocation.t → nat → Attempt) (location : PartitionLocation.t)
  : result (list (fallible (list SRow))) :=
  let? batches := fetch_remote fuel outer_retries location prefer_flight (network location) in
  Ok (inr <$> batches).

(** The responses of the spawned tasks; they arrive in some order. *)
Definition send_fetch_partitions (fuel : nat) (disk : Disk) (work_dir : Path) (locations : list PartitionLocation.t)
    (force_remote_read prefer_flight : bool) (io_retries_times : nat)
    (network : PartitionLocation.t → nat → Attempt) : list (result (list (fallible (list SRow)))) :=
  let '(local_locations, remote_locations) := local_remote_read_split disk work_dir locations force_remote_read in
  (local_response fuel disk work_dir <$> local_locations) ++
  (remote_response fuel io_retries_times prefer_flight network <$> remote_locations).
End client.

(** *** Permits of a fetch *)

Definition clamp (n lo hi : N) : N := ((n `max` lo) `min` hi)%N.

Definition block_size (location : PartitionLocation.t) (default_size : N) : N :=
  default default_size (Types.num_bytes (PartitionLocation.partition_stats location)) `max` 1.

Definition byte_permits_cap (max_bytes : N) : N := clamp max_bytes 1 (2 ^ 32 - 1).

Definition byte_permits_for (size max_bytes : N) : N :=
  let cap := clamp max_bytes 1 (2 ^ 32 - 1) in clamp size 1 cap.

(** *** The governor *)

(** The limits of a reader, and a remote fetch with its address and its byte permits *)
Record limits : Type := mkLimits { max_reqs : nat; max_blocks_per_addr : nat; max_bytes : N; default_block_size : N }.

Record fetch : Type := mkFetchTask { f_addr : string; f_permits : N }.

Definition fetch_of (l : limits) (location : PartitionLocation.t) : fetch :=
  mkFetchTask (loc_executor location) (byte_permits_for (block_size location (default_block_size l)) (max_bytes l)).

(** Where the spawned tasks are: waiting for the request permit, with it for the permit
    of the address, with both for the byte permits, with all until the stream is
    consumed, and at the end. *)
Record governor : Type := mkGovernor {
  waiting_req : list fetch;
  waiting_addr : list fetch;
  waiting_bytes : list fetch;
  streaming : list fetch;
  released : list fetch;
}.

Definition at_addr (a : string) (fs : list fetch) : nat := length (filter (λ f, f_addr f = a) fs).

(** A step of the fetch [f]. The tasks are spawned on a runtime of many threads and come
    to a semaphore in any order, so that any of those that wait for it may be the one it
    serves first. *)
Inductive gov_step (l : limits) : governor → fetch → governor → Prop :=
| Acquire_req before f after wa wb st re :
    length (wa ++ wb ++ st) < max_reqs l `max` 1 →
    gov_step l (mkGovernor (before ++ f :: after) wa wb st re) f (mkGovernor (before ++ after) (wa ++ [f]) wb st re)
| Acquire_addr wr before f after wb st re :
    at_addr (f_addr f) (wb ++ st) < max_blocks_per_addr l `max` 1 →
    gov_step l (mkGovernor wr (before ++ f :: after) wb st re) f (mkGovernor wr (before ++ after) (wb ++ [f]) st re)
| Acquire_bytes wr wa before f after st re :
    (lsum f_permits st + f_permits f ≤ byte_permits_cap (max_bytes l))%N →
    gov_step l (mkGovernor wr wa (before ++ f :: after) st re) f (mkGovernor wr wa (before ++ after) (st ++ [f]) re)
| Release wr wa wb before f after re :
    gov_step l (mkGovernor wr wa wb (before ++ f :: after) re) f (mkGovernor wr wa wb (before ++ after) (re ++ [f])).

Definition gov_start (l : limits) (remote_locations : list PartitionLocation.t) : governor :=
  mkGovernor (fetch_of l <$> remote_locations) [] [] [] [].
