(* ===== verification/TransferFacts.v ===== *)
(** * Lemmas on reading from other executors

    The blocks a client decodes, the bytes an executor sends for a partition of a sort
    shuffle, retries, and the permits of the fetches. *)

From S2P Require Import Prelude Errors Machine Types SortKey Range RangeIndex SortShuffle SortShuffleFacts SortShuffleLayout SortShuffleCoordinator Transfer.
From stdpp Require Import numbers gmap strings.

(** ** The decoder *)

(** One of two lists is a prefix of the other. *)
Abbreviation comparable a b := (a `prefix_of` b ∨ b `prefix_of` a).

(** [decoding d bs taken cur]: the decoder has taken these bytes of the stream of the
    batches [bs], and the batches [cur] are to come. It takes all bytes it is given, or
    stops after a batch or at the end of the stream; a batch ends only after as many
    bytes as a stream without batches has. The schema is found in as many bytes. *)
Class BlockLaws `{BlockOps} : Type := {
  decoding : StreamDecoder → list (list SRow) → list N → list (list SRow) → Prop;
  decoding_new bs : decoding new_decoder bs [] bs;
  decoding_end d bs s cur : stream_finish bs = inr s → decoding d bs s cur → cur = [];
  decode_empty d : stream_decode d [] = (Drained, d, []);
  decode_step d bs taken cur rest buf :
    stream_finish bs = inr (taken ++ rest) → decoding d bs taken cur → buf ≠ [] → comparable buf rest →
    match stream_decode d buf with
    | (Decoded b, d', buf') => ∃ cur' more, cur = b :: cur' ∧ buf = more ++ buf' ∧ more `prefix_of` rest ∧
        decoding d' bs (taken ++ more) cur' ∧
        ∀ header, stream_finish [] = inr header → length header < length (taken ++ more)
    | (Drained, d', buf') => buf' = [] ∧ buf `prefix_of` rest ∧ decoding d' bs (taken ++ buf) cur
    | (UnexpectedEos, _, buf') => cur = [] ∧ buf' ≠ [] ∧ buf = rest ++ buf'
    | (DecodeError _, _, _) => False
    end;
  header_shortest bs s header :
    stream_finish [] = inr header → stream_finish bs = inr s → length header ≤ length s;
  schema_found bs s header buf :
    stream_finish [] = inr header → stream_finish bs = inr s → comparable buf s →
    try_schema_from_ipc_buffer buf = SchemaFound ∨
    try_schema_from_ipc_buffer buf = SchemaParseError ∧ length buf < length header;
}.

Lemma comparable_app {A : Type} (a b x y : list A) : a ++ x = b ++ y → comparable a b.
Proof. intros Heq. apply (prefix_weak_total _ _ (a ++ x)); [by eexists|rewrite Heq; by eexists]. Qed.

Section blocks.
Context `{BlockLaws} {SL : ShuffleLaws}.
Context (header : list N) (Hheader : stream_finish [] = inr header).

(** The start of a stream, without a batch *)
Definition tail_of (extra : list N) : Prop :=
  extra = [] ∨ ∃ bs s, stream_finish bs = inr s ∧ extra `prefix_of` s ∧ length extra ≤ length header.

(** The batches of the bytes to come, if these are the rest of a stream, more streams
    and the start of one, or part of the rest; and how many blocks and streams they are *)
Definition coming (n : nat) (taken rest bytes : list N) (blocks : nat) (cur bs : list (list SRow)) : Prop :=
  (∃ groups mid extra, bytes = rest ++ mid ++ extra ∧ streams_of groups mid ∧ tail_of extra ∧
     bs = cur ++ concat groups ∧ blocks + length groups + 1 ≤ n) ∨
  (bytes `prefix_of` rest ∧ length (taken ++ bytes) ≤ length header ∧ bs = [] ∧ blocks ≤ n).

Definition feeding (n : nat) (self : BlockDataStream) (bs : list (list SRow)) : Prop :=
  ∃ blobs stream taken cur rest, ipc_stream self = inr <$> blobs ∧ stream_finish stream = inr (taken ++ rest) ∧
    decoding (decoder self) stream taken cur ∧
    coming n taken rest (state_buffer self ++ concat blobs) (length blobs) cur bs.

(** One poll *)
Definition next_of (n fuel : nat) (self : BlockDataStream) (bs : list (list SRow)) : Prop :=
  match bs with
  | [] => ∃ self', block_stream_poll_next fuel self = Some (None, self')
  | b :: bs' => ∃ self', block_stream_poll_next fuel self = Some (Some (inr b), self') ∧ feeding n self' bs'
  end.

Lemma coming_mono n n' taken rest bytes blocks cur bs :
  n' ≤ n → coming n' taken rest bytes blocks cur bs → coming n taken rest bytes blocks cur bs.
Proof.
  intros Hn [(gs & mid & extra & ? & ? & ? & ? & ?)|(? & ? & ? & ?)];
    [left; exists gs, mid, extra; split_and!; [done..|lia]|right; split_and!; [done..|lia]].
Qed.

Lemma next_of_step n n' fuel fuel' self self' bs :
  block_stream_poll_next fuel self = block_stream_poll_next fuel' self' → n' ≤ n →
  next_of n' fuel' self' bs → next_of n fuel self bs.
Proof.
  unfold next_of. intros -> Hn. destruct bs as [|b bs]; [done|].
  intros (s & Hp & blobs & st & taken & cur & rest & ? & ? & ? & Hc).
  exists s. split; [done|]. exists blobs, st, taken, cur, rest. split_and!; [done..|]. by eapply coming_mono.
Qed.

(** Behind the end of a stream comes the next one, or the start of one. *)
Lemma feeding_next n blobs buf tr groups mid extra :
  mid ++ extra ≠ [] → buf ++ concat blobs = mid ++ extra → streams_of groups mid → tail_of extra →
  length blobs + length groups ≤ n →
  feeding n (mkBlocks new_decoder buf (inr <$> blobs) tr) (concat groups).
Proof using All.
  intros Hne Hb Hs Ht Hn. destruct groups as [|g groups].
  - destruct Hs as (ss & Hss & ->). inversion Hss; subst. cbn in Hb.
    destruct Ht as [->|(bs & s & Hs & Hp & Hl)].
    { done. }
    exists blobs, bs, [], bs, s. split_and!; [done..|apply decoding_new|]. right. cbn [state_buffer app concat].
    rewrite Hb. split_and!; [done..|cbn in Hn; lia].
  - apply streams_cons in Hs as (s & mid' & -> & Hs & _ & Hs').
    exists blobs, g, [], g, s. split_and!; [done..|apply decoding_new|]. left.
    exists groups, mid', extra. cbn [state_buffer]. rewrite Hb, <-app_assoc. split_and!; [done..|].
    cbn in Hn. lia.
Qed.

(** All bytes of the buffer are taken. *)
Lemma drained_ok n fuel d d' buf blobs tr st taken cur rest bs :
  (∀ n self bs, feeding n self bs → n < fuel → next_of n fuel self bs) → n < S fuel →
  stream_decode d buf = (Drained, d', []) → stream_finish st = inr (taken ++ rest) → decoding d' st taken cur →
  coming n taken rest (concat blobs) (length blobs) cur bs →
  next_of n (S fuel) (mkBlocks d buf (inr <$> blobs) tr) bs.
Proof using All.
  intros IH Hn Hdec Hst Hd Hc. destruct blobs as [|blob blobs].
  - assert (bs = []) as ->.
    { destruct Hc as [(gs & mid & extra & Hb & Hs & _ & -> & _)|(_ & _ & -> & _)]; [|done].
      cbn in Hb. symmetry in Hb. apply app_nil in Hb as [-> [-> _]%app_nil]. rewrite app_nil_r in Hst.
      by rewrite (decoding_end _ _ _ _ Hst Hd), (streams_no_bytes gs Hs). }
    cbn. rewrite Hdec. by eexists.
  - assert (1 ≤ n) as Hpos by (destruct Hc as [(? & ? & ? & ? & ? & ? & ? & ?)|(? & ? & ? & ?)]; cbn in *; lia).
    eapply (next_of_step _ (pred n) _ fuel _ (mkBlocks d' blob (inr <$> blobs) (tr + N.of_nat (length blob))));
      [cbn; by rewrite Hdec|lia|].
    apply IH; [|lia]. exists blobs, st, taken, cur, rest. split_and!; [done..|]. cbn [state_buffer].
    destruct Hc as [(gs & mid & extra & ? & ? & ? & ? & ?)|(? & ? & ? & ?)]; cbn [length concat] in *;
      [left; exists gs, mid, extra; split_and!; [done..|lia]|right; split_and!; [done..|lia]].
Qed.

(** Bytes taken off the front *)
Lemma coming_take n taken rest more bytes blocks cur bs :
  more `prefix_of` rest → coming n taken rest (more ++ bytes) blocks cur bs →
  ∃ rest', rest = more ++ rest' ∧ coming n (taken ++ more) rest' bytes blocks cur bs.
Proof using All.
  intros [rest' ->] Hc. exists rest'. split; [done|].
  destruct Hc as [(gs & mid & extra & Hb & ? & ? & ? & ?)|(Hp & Hl & ? & ?)].
  - left. exists gs, mid, extra. rewrite <-app_assoc in Hb. apply app_inv_head in Hb. done.
  - right. apply prefix_app_inv in Hp. rewrite app_assoc in Hl. done.
Qed.


Lemma poll_ok fuel n self bs : feeding n self bs → n < fuel → next_of n fuel self bs.
Proof using All.
  revert n self bs. induction fuel as [|fuel IH]; intros n self bs Hf Hn; [lia|].
  destruct self as [d buf ipc tr]. destruct Hf as (blobs & st & taken & cur & rest & Hipc & Hst & Hd & Hc).
  cbn [ipc_stream decoder state_buffer] in Hipc, Hd, Hc. subst ipc. destruct (decide (buf = [])) as [->|Hne].
  { by eapply (drained_ok n fuel d d [] blobs tr st taken cur rest bs); [|done|apply decode_empty|..]. }
  assert (comparable buf rest) as Hcomp.
  { destruct Hc as [(gs & mid & extra & Hb & _)|([more Hp] & _)]; [by eapply comparable_app|].
    left. exists (concat blobs ++ more). by rewrite Hp, app_assoc. }
  pose proof (decode_step d st taken cur rest buf Hst Hd Hne Hcomp) as Hstep.
  destruct (stream_decode d buf) as [[[b| | |e] d'] buf'] eqn:Hdec; [| | |done].
  - destruct Hstep as (cur' & more & -> & -> & Hp & Hd' & Hlen). specialize (Hlen _ Hheader).
    rewrite <-app_assoc in Hc. apply coming_take in Hc as (rest' & -> & Hc); [|done].
    destruct Hc as [(gs & mid & extra & Hb & Hs & Ht & -> & Hm)|(_ & Hl & _)]; [|rewrite length_app in Hl; lia].
    cbn [app next_of]. eexists. split; [cbn; by rewrite Hdec|].
    exists blobs, st, (taken ++ more), cur', rest'. rewrite <-app_assoc. split_and!; [done..|].
    left. by exists gs, mid, extra.
  - destruct Hstep as (-> & Hp & Hd'). apply coming_take in Hc as (rest' & -> & Hc); [|done].
    eapply (drained_ok n fuel d d' buf blobs tr st (taken ++ buf) cur rest'); [done..| |done|done].
    by rewrite <-app_assoc.
  - destruct Hstep as (-> & Hne' & ->). rewrite <-app_assoc in Hc.
    destruct Hc as [(gs & mid & extra & Hb & Hs & Ht & -> & Hm)|(Hp & _)].
    + apply app_inv_head in Hb. cbn [app].
      eapply (next_of_step _ (pred n) _ fuel _ (mkBlocks new_decoder buf' (inr <$> blobs) tr)); [cbn; by rewrite Hdec|lia|].
      apply IH; [|lia]. eapply feeding_next; [|done..|lia]. rewrite <-Hb. by destruct buf'.
    + exfalso. apply prefix_length in Hp. rewrite !length_app in Hp. destruct buf'; [done|cbn in Hp; lia].
Qed.

Lemma collect_blocks_ok fuel n self bs :
  feeding n self bs → n + length bs < fuel → collect_blocks fuel self = Some (inr bs).
Proof using All.
  revert self fuel. induction bs as [|b bs IH]; intros self fuel Hf Hn; (destruct fuel as [|fuel]; [lia|]);
    pose proof (poll_ok (S fuel) n self _ Hf ltac:(cbn in Hn; lia)) as Hp; cbn [next_of] in Hp;
    unfold collect_blocks; fold collect_blocks.
  - destruct Hp as (self' & ->). done.
  - destruct Hp as (self' & -> & Hf'). rewrite (IH self' fuel Hf') by (cbn in Hn; lia). done.
Qed.

Lemma append_block_app pending blob : append_block pending blob = pending ++ blob.
Proof using. unfold append_block. case_bool_decide as Hp; [by rewrite Hp|done]. Qed.

(** The schema is found before the buffer is too long. *)
Lemma try_new_ok blobs buffer bs s :
  (N.of_nat (length header) ≤ MAXIMUM_SCHEMA_BUFFER_SIZE)%N → stream_finish bs = inr s →
  comparable (buffer ++ concat blobs) s → length buffer < length header →
  length header ≤ length (buffer ++ concat blobs) →
  ∃ buffer' blobs', block_stream_try_new buffer (inr <$> blobs)
      = Ok (mkBlocks new_decoder buffer' (inr <$> blobs') (N.of_nat (length buffer'))) ∧
    buffer' ++ concat blobs' = buffer ++ concat blobs ∧ length blobs' ≤ length blobs.
Proof using All.
  intros Hmax Hs. revert buffer. induction blobs as [|blob blobs IH]; intros buffer Hc Hb Hl.
  { rewrite app_nil_r in Hl. lia. }
  cbn [fmap list_fmap block_stream_try_new]. rewrite (proj2 (N.ltb_ge _ _)) by lia. rewrite append_block_app.
  cbn [concat] in Hc, Hl. rewrite app_assoc in Hc, Hl.
  assert (comparable (buffer ++ blob) s) as Hc'.
  { destruct Hc as [[x Hx]|[x Hx]]; [|by eapply comparable_app].
    left. exists (concat blobs ++ x). by rewrite Hx, !app_assoc. }
  destruct (schema_found bs s header (buffer ++ blob) Hheader Hs Hc') as [->|[-> Hlt]].
  - exists (buffer ++ blob), blobs. cbn [concat length]. split_and!; [done|by rewrite app_assoc|lia].
  - destruct (IH (buffer ++ blob) Hc Hlt Hl) as (b' & bl' & -> & Hb' & Hl').
    exists b', bl'. cbn [concat length]. rewrite Hb', app_assoc. split_and!; [done..|lia].
Qed.

(** The body of a partition: streams and the start of another, in any blocks *)
Lemma body_ok blobs groups mid extra :
  (N.of_nat (length header) ≤ MAXIMUM_SCHEMA_BUFFER_SIZE)%N →
  concat blobs = mid ++ extra → mid ++ extra ≠ [] → streams_of groups mid → tail_of extra →
  (extra = [] ∨ length extra = length header) →
  ∃ self, block_stream_try_new [] (inr <$> blobs) = Ok self ∧
    feeding (length blobs + length groups) self (concat groups).
Proof using All.
  intros Hmax Hb Hne Hs Ht He.
  assert (0 < length header) as Hpos.
  { destruct (read_back _ _ [] Hheader) as [Hnil _]. by destruct header; [|cbn; lia]. }
  assert (∃ bs s, stream_finish bs = inr s ∧ comparable (concat blobs) s ∧ length header ≤ length (concat blobs)) as
    (bs & s & Hst & Hc & Hl).
  { destruct groups as [|g groups].
    - destruct Hs as (ss & Hss & ->). inversion Hss; subst. cbn in Hb, Hne.
      destruct Ht as [->|(bs & s & Hst & Hp & _)]; [done|]. exists bs, s. rewrite Hb.
      destruct He as [->|He]; [done|]. split_and!; [done|by left|lia].
    - apply streams_cons in Hs as (s & mid' & -> & Hst & _). exists g, s. split; [done|].
      rewrite Hb, <-app_assoc. split; [right; by eexists|].
      pose proof (header_shortest _ _ _ Hheader Hst). rewrite length_app. lia. }
  destruct (try_new_ok blobs [] bs s Hmax Hst Hc Hpos Hl) as (b' & bl' & -> & Hb' & Hl').
  eexists. split; [done|]. eapply feeding_next; [done| |done..|lia]. by rewrite Hb'.
Qed.
End blocks.

(** ** The bytes of a partition *)

Lemma u64_of_nonneg z : is_i64 z → (0 ≤ z)%Z → u64_of_i64 z = Z.to_N z.
Proof. unfold is_i64, u64_of_i64. intros Hz H0. by rewrite Z.mod_small by lia. Qed.

Lemma u64_sub_small a b : (b ≤ a)%N → (a < 2 ^ 64)%N → u64_sub a b = (a - b)%N.
Proof.
  intros Hle Ha. unfold u64_sub. replace (a + 2 ^ 64 - b)%N with (a - b + 1 * 2 ^ 64)%N by lia.
  rewrite N.Div0.mod_add. apply N.mod_small. lia.
Qed.

(** The handle that was duplicated shares its cursor: what is sent is not the header and
    the range of the partition, but the range and as many bytes of what follows it as
    the header has. *)
Lemma block_sends_what_follows data index p header_end start stop :
  Forall is_i64 index → index !! 0 = Some header_end → index !! p = Some start → index !! S p = Some stop →
  (0 ≤ header_end)%Z → (0 ≤ start ≤ stop)%Z →
  stream_sort_shuffle_block (Some data) (ShuffleIndex.write_to_file index) p =
    Ok (take (Z.to_nat (stop - start)) (drop (Z.to_nat start) data) ++
        take (Z.to_nat header_end) (drop (Z.to_nat stop) data)).
Proof.
  intros Hall Hh Hs He H0 Hle. unfold stream_sort_shuffle_block.
  assert (S p < length index) as Hp by (by eapply lookup_lt_Some).
  rewrite read_from_file_write by (done || lia). cbn [status obind].
  unfold ShuffleIndex.partition_count. rewrite (proj2 (Nat.leb_gt _ _)) by lia.
  unfold ShuffleIndex.header_end_offset, ShuffleIndex.get_partition_range, ShuffleIndex.t.
  rewrite Hh, Hs, He. cbn [obind fst snd].
  assert (is_i64 header_end ∧ is_i64 start ∧ is_i64 stop) as (Ih & Is & Ie).
  { rewrite Forall_lookup in Hall. split_and!; by eapply Hall. }
  rewrite !u64_of_nonneg by (done || lia). unfold OpenFile.open, OpenFile.seek, OpenFile.read. cbn [OpenFile.content OpenFile.cursor].
  rewrite u64_sub_small by (unfold is_i64 in *; lia). f_equal. rewrite !Z_N_nat.
  replace (Z.to_nat stop) with (Z.to_nat start + Z.to_nat (stop - start)) by lia.
  rewrite <-drop_drop, take_take_drop, N2Nat.inj_add, Z_N_nat, Nat2N.id, <-drop_drop.
  set (d := drop (Z.to_nat start) data). replace (N.to_nat (Z.to_N stop - Z.to_N start)) with (Z.to_nat (stop - start)) by lia.
  rewrite (Nat.add_comm (Z.to_nat (stop - start))), <-take_take_drop. f_equal.
  destruct (decide (Z.to_nat header_end ≤ length d)); [by rewrite length_take_le|].
  by rewrite !drop_ge by (rewrite ?length_take; lia).
Qed.

Section served.
Context `{SO : ShuffleOps} {SL : ShuffleLaws}.
Context (P : nat) (HP : 0 < P) (HP64 : is_u64 (N.of_nat P)).
Context (outs : list InputPartitionOutput) (bss : list (list (list SRow))) (header : list N) (f : FinalizeResult).
Context (Hf : file_ok P outs bss header f) (Hsmall : (N.of_nat (length (f_data f)) < 2 ^ 63)%N).

Abbreviation following p := (concat (range_of outs <$> seq (S p) (P - S p))).

Lemma data_split p :
  p < P → f_data f = (header ++ concat (range_of outs <$> seq 0 p)) ++ range_of outs p ++ following p.
Proof using All.
  intros Hp. rewrite (fo_data _ _ _ _ _ Hf). replace P with (p + S (P - S p)) at 1 by lia.
  rewrite seq_app, fmap_app, concat_app, <-app_assoc. cbn [seq Nat.add]. rewrite fmap_cons. done.
Qed.

Lemma block_served p :
  p < P → stream_sort_shuffle_block (Some (f_data f)) (f_index f) p
    = Ok (range_of outs p ++ take (length header) (following p)).
Proof using All.
  intros Hp. rewrite (fo_index _ _ _ _ _ Hf).
  pose proof (start_lookup P HP HP64 outs bss header f Hf Hsmall) as Hst.
  rewrite (block_sends_what_follows _ _ p _ _ _ (starts_i64 P HP HP64 outs bss header f Hf Hsmall)
    (Hst 0 ltac:(lia)) (Hst p ltac:(lia)) (Hst (S p) ltac:(lia))) by (rewrite ?before_succ, ?length_app; lia).
  rewrite before_succ, !Nat2Z.id. cbn [seq fmap list_fmap concat]. rewrite app_nil_r. f_equal. f_equal.
  - rewrite (data_split p Hp), drop_app_length. rewrite (length_app (_ ++ _)).
    replace (Z.to_nat _) with (length (range_of outs p)) by lia. by rewrite take_app_length.
  - by rewrite (data_split p Hp), app_assoc, drop_app_length.
Qed.

Lemma ranges_streams k n :
  k + n ≤ P → ∃ groups, streams_of groups (concat (range_of outs <$> seq k n)).
Proof using All.
  revert k. induction n as [|n IH]; intros k Hk; [exists []; apply streams_nil|].
  destruct (IH (S k)) as [g2 Hg2]; [lia|]. cbn [seq]. rewrite fmap_cons. cbn [concat].
  destruct (Forall2_lookup_l _ _ _ _ _ (fo_stats _ _ _ _ _ Hf) (lookup_seq_lt 0 P k ltac:(lia)))
    as (st & _ & _ & g1 & Hg1 & _).
  exists (g1 ++ g2). by apply streams_app.
Qed.
End served.

(** ** Local and remote reads of a partition of a sort shuffle *)

Section sort_partition.
Context `{BlockLaws} {SL : ShuffleLaws}.
Context (P : nat) (HP : 0 < P) (HP64 : is_u64 (N.of_nat P)).
Context (outs : list InputPartitionOutput) (bss : list (list (list SRow))) (header : list N) (f : FinalizeResult).
Context (Hf : file_ok P outs bss header f) (Hsmall : (N.of_nat (length (f_data f)) < 2 ^ 63)%N).
Context (Hmax : (N.of_nat (length header) ≤ MAXIMUM_SCHEMA_BUFFER_SIZE)%N).
Context (disk : Disk) (work_dir path : Path) (location : PartitionLocation.t).
Context (Hpath : location_path work_dir location = Ok path) (Hsort : PartitionLocation.is_sort_shuffle location = true).
Context (Hdata : disk !! path = Some (f_data f)) (Hindex : disk !! get_index_path path = Some (f_index f)).

Abbreviation p := (PartitionId.partition_id (PartitionLocation.partition_id location)).

Lemma is_sort_output : is_sort_shuffle_output disk path = true.
Proof using Hindex. unfold is_sort_shuffle_output, exists_file. rewrite Hindex. by apply bool_decide_eq_true_2. Qed.

Lemma action_served :
  p < P → do_action disk work_dir "IO_BLOCK_TRANSPORT" (partition_action location)
    = Ok (range_of outs p ++ take (length header) (concat (range_of outs <$> seq (S p) (P - S p)))).
Proof using All.
  intros Hp. unfold do_action. rewrite bool_decide_eq_true_2 by done. unfold resolve_fetch_path, partition_action.
  cbn [fp_job_id fp_stage_id fp_partition_id fp_file_id fp_layout fp_file_kind fp_byte_ranges]. rewrite Hsort.
  unfold location_path in Hpath. rewrite Hsort in Hpath. cbn [shuffle_layout]. rewrite Hpath. cbn [status obind].
  rewrite bool_decide_eq_false_2 by (intros Hn; by apply Hn). rewrite is_sort_output, Hdata, Hindex.
  cbn [default from_option id]. by apply (block_served P HP HP64 outs bss header f Hf Hsmall).
Qed.

Lemma local_read groups fuel :
  p < P → streams_of groups (range_of outs p) → length (concat groups) + 2 * length groups + 2 ≤ fuel →
  local_response fuel disk work_dir location = Ok (inr <$> concat groups).
Proof using All.
  intros Hp Hg Hfuel. unfold local_response, fetch_partition_local. rewrite Hpath. cbn [ballista_err obind].
  rewrite Hdata, is_sort_output, Hindex. cbn [default from_option id].
  destruct (partition_stream P HP HP64 outs bss header f Hf Hsmall p groups Hp Hg) as (stream & -> & Hok).
  cbn [map_err obind drain_local]. by rewrite (poll_all_ok fuel stream [] groups Hok Hfuel).
Qed.

(** Of what follows the range only the start of a stream is sent. *)
Lemma following_tail :
  let extra := take (length header) (concat (range_of outs <$> seq (S p) (P - S p))) in
  p < P → tail_of header extra ∧ (extra = [] ∨ length extra = length header).
Proof using All.
  intros extra Hp. destruct (ranges_streams P HP HP64 outs bss header f Hf Hsmall (S p) (P - S p) ltac:(lia)) as [gs Hgs].
  unfold extra. destruct gs as [|g gs].
  { destruct Hgs as (ss & Hss & ->). inversion Hss. cbn [concat]. rewrite take_nil. split; by left. }
  apply streams_cons in Hgs as (s & mid & -> & Hs & _).
  pose proof (header_shortest _ _ _ (fo_header _ _ _ _ _ Hf) Hs) as Hle.
  rewrite take_app_le by done. rewrite length_take_le by done. split; [|by right].
  right. exists g, s. split; [done|]. split; [|rewrite length_take; lia]. exists (drop (length header) s). by rewrite take_drop.
Qed.

Lemma remote_read groups blocks get :
  p < P → streams_of groups (range_of outs p) → Forall (λ b, b ≠ []) blocks →
  concat blocks = range_of outs p ++ take (length header) (concat (range_of outs <$> seq (S p) (P - S p))) →
  ∃ enough, ∀ fuel, enough ≤ fuel →
    fetch_partition_buffered fuel location false (mkAttempt (Ok tt) (inr (inr <$> blocks)) get) =
      if decide (concat blocks = []) then Err (ArrowErr (AE_Other "Premature end of the stream while decoding schema"))
      else Ok (concat groups).
Proof using All.
  intros Hp Hg Hne Hb. unfold fetch_partition_buffered, fetch_partition_remote, fetch_partition.
  cbn [at_connect map_err obind at_action]. unfold execute_do_action_with_header. cbn [do_action_loop fmap option_fmap option_map].
  replace (block_item <$> (inr <$> blocks)) with (inr <$> blocks : list (fallible (list N)))
    by (rewrite <-list_fmap_compose; done).
  case_decide as Hnil.
  { exists 0. intros fuel _. destruct Hne as [|b blocks Hb' _]; [done|]. cbn in Hnil. by apply app_nil in Hnil as [-> _]. }
  destruct (following_tail Hp) as [Ht He].
  destruct (body_ok header (fo_header _ _ _ _ _ Hf) blocks groups _ _ Hmax Hb ltac:(by rewrite <-Hb) Hg Ht He)
    as (self & Hnew & Hfeed).
  exists (S (length blocks + length groups + length (concat groups))). intros fuel Hfuel.
  change (option_list None ++ (inr <$> blocks)) with (inr <$> blocks : list (fallible (list N))).
  rewrite Hnew. cbn [ballista_err obind map_err].
  rewrite (collect_blocks_ok header (fo_header _ _ _ _ _ Hf) fuel _ self _ Hfeed) by lia. done.
Qed.
End sort_partition.

(** ** Retries *)

Lemma with_retry_spec {T : Type} left retry k (f : nat → result T) :
  ∃ i, k ≤ i ≤ k + left ∧ with_retry left retry k f = f i ∧
    (∀ j, k ≤ j < i → ∃ e, f j = Err e ∧ retry e = true) ∧
    (∀ e, f i = Err e → i = k + left ∨ retry e = false).
Proof.
  revert k. induction left as [|left IH]; intros k; cbn [with_retry].
  - exists k. split; [lia|]. split; [by destruct (f k)|]. split; [lia|]. intros e _. left. lia.
  - destruct (f k) as [v|e|] eqn:Hk.
    + exists k. rewrite Hk. split_and!; [lia..|done|lia|done].
    + destruct (retry e) eqn:Hr.
      * destruct (IH (S k)) as (i & Hi & Hw & Hj & He). exists i. split_and!; [lia..|done| |].
        -- intros j Hlt. destruct (decide (j = k)) as [->|Hne]; [by exists e|apply Hj; lia].
        -- intros e' He'. destruct (He e' He') as [->|?]; [left; lia|by right].
      * exists k. rewrite Hk. split_and!; [lia..|done|lia|]. intros e' [= <-]. by right.
    + exists k. rewrite Hk. split_and!; [lia..|done|lia|done].
Qed.

(** ** The governor *)

Section governor.
Context (l : limits).

Abbreviation all_of g := (waiting_req g ++ waiting_addr g ++ waiting_bytes g ++ streaming g ++ released g).

Record gov_ok (g : governor) : Prop := {
  go_reqs : length (waiting_addr g ++ waiting_bytes g ++ streaming g) ≤ max_reqs l `max` 1;
  go_addrs a : at_addr a (waiting_bytes g ++ streaming g) ≤ max_blocks_per_addr l `max` 1;
  go_bytes : (lsum f_permits (streaming g) ≤ byte_permits_cap (max_bytes l))%N;
  go_permits : Forall (λ f, f_permits f ≤ byte_permits_cap (max_bytes l))%N (all_of g);
}.

Lemma fetch_permits location : (1 ≤ f_permits (fetch_of l location) ≤ byte_permits_cap (max_bytes l))%N.
Proof. cbn. unfold byte_permits_for, byte_permits_cap, clamp. lia. Qed.

Lemma at_addr_app a xs ys : at_addr a (xs ++ ys) = at_addr a xs + at_addr a ys.
Proof. unfold at_addr. by rewrite filter_app, length_app. Qed.

Lemma at_addr_cons a f fs : at_addr a (f :: fs) = (if decide (f_addr f = a) then 1 else 0) + at_addr a fs.
Proof. unfold at_addr. rewrite filter_cons. by case_decide. Qed.

(** How far the fetches are from the end *)
Definition distance (g : governor) : nat :=
  4 * length (waiting_req g) + 3 * length (waiting_addr g) + 2 * length (waiting_bytes g) + length (streaming g).

Lemma gov_step_ok g f g' :
  gov_step l g f g' → gov_ok g → gov_ok g' ∧ all_of g' ≡ₚ all_of g ∧ distance g' < distance g.
Proof using.
  intros Hs [Hr Ha Hb Hp].
  assert (all_of g' ≡ₚ all_of g ∧ distance g' < distance g) as [Hperm Hd].
  { destruct Hs; unfold distance; cbn; rewrite ?length_app; cbn; (split; [|lia]); solve_Permutation. }
  split; [|done]. rewrite <-Hperm in Hp. split; [..|done]; clear Hp Hperm Hd.
  - destruct Hs; cbn in *; rewrite ?length_app in *; cbn in *; rewrite ?length_app in *; cbn in *; lia.
  - intros a. specialize (Ha a).
    destruct Hs as [|wr before f after wb st re Hlt| |];
      cbn [waiting_bytes streaming] in *; [done|..];
      rewrite !at_addr_app in *; rewrite ?at_addr_cons in *; [|cbn; lia..].
    destruct (decide (f_addr f = a)) as [<-|_]; cbn; lia.
  - destruct Hs; cbn [streaming] in *; rewrite ?lsum_app in *; unfold lsum in *; cbn [foldr] in *; lia.
Qed.

(** There is a step of [f] from [g]. *)
Definition can_go (g : governor) (f : fetch) : Prop := ∃ g', gov_step l g f g'.

(** Until all are done, one of the queues is not empty and whoever is first in it can
    go on. *)
Lemma gov_progress g :
  gov_ok g → distance g = 0 ∨ ∃ q, q ∈ [waiting_req g; waiting_addr g; waiting_bytes g; streaming g] ∧
    q ≠ [] ∧ ∀ f, f ∈ q → can_go g f.
Proof using.
  destruct g as [wr wa wb st re]. intros [Hr Ha Hb Hp]. cbn in *.
  assert (∀ q : list fetch, q ∈ [wr; wa; wb; st] → (q = [] ∨ ∀ f, f ∈ q → can_go (mkGovernor wr wa wb st re) f) →
    q = [] ∨ ∃ q, q ∈ [wr; wa; wb; st] ∧ q ≠ [] ∧ ∀ f, f ∈ q → can_go (mkGovernor wr wa wb st re) f) as Hq.
  { intros [|f q] Hin [?|?]; eauto 10. }
  destruct (Hq st) as [->|?]; [set_solver| | |by right].
  { right. intros f (before & after & ->)%list_elem_of_split. eexists. apply Release. }
  destruct (Hq wb) as [->|?]; [set_solver| | |by right].
  { right. intros f Hf. rewrite !Forall_app, !Forall_forall in Hp. pose proof (proj1 (proj2 (proj2 Hp)) f Hf).
    apply list_elem_of_split in Hf as (before & after & ->). eexists. by apply Acquire_bytes. }
  destruct (Hq wa) as [->|?]; [set_solver| | |by right].
  { right. intros f (before & after & ->)%list_elem_of_split. eexists. apply Acquire_addr. cbn. lia. }
  destruct (Hq wr) as [->|?]; [set_solver| |by left|by right].
  right. intros f (before & after & ->)%list_elem_of_split. eexists. apply Acquire_req. cbn. lia.
Qed.

(** [n] steps *)
Inductive gov_run : nat → governor → governor → Prop :=
| run_none g : gov_run 0 g g
| run_step n g1 f g2 g3 : gov_step l g1 f g2 → gov_run n g2 g3 → gov_run (S n) g1 g3.

Lemma gov_run_ok n g g' :
  gov_run n g g' → gov_ok g → gov_ok g' ∧ all_of g' ≡ₚ all_of g ∧ n + distance g' ≤ distance g.
Proof using.
  induction 1 as [g|n g1 f g2 g3 Hs _ IH]; intros Hok; [split_and!; [done..|lia]|].
  destruct (gov_step_ok g1 f g2 Hs Hok) as (Hok2 & Hp & Hd). destruct (IH Hok2) as (? & Hp' & ?).
  split_and!; [done|by rewrite Hp'|lia].
Qed.

Lemma gov_start_ok locations : gov_ok (gov_start l locations).
Proof using.
  split; cbn; [lia|lia|lia|]. rewrite app_nil_r. apply Forall_fmap, Forall_true. intros location. apply fetch_permits.
Qed.
End governor.
