(* ===== verification/ShuffleSample.v ===== *)
(** * A small setting for shuffles

    Executable instances of the interfaces to Arrow's gathering, streams and decoder,
    with a plain encoding of streams. *)

From S2P Require Import Prelude Errors Machine Types SortKey Range SortShuffle SortShuffleFacts SortShuffleCoordinator Transfer TransferFacts.
From stdpp Require Import numbers gmap.

(** ** Rows and streams *)

(** A batch as its length and its rows *)
Definition batch_bytes (b : list N) : list N := N.of_nat (length b) :: b.

Fixpoint parse_batches (count : nat) (bytes : list N) : option (list (list N) * nat) :=
  match count, bytes with
  | 0, _ => Some ([], 0)
  | S _, [] => None
  | S count', len :: bytes' =>
      let b := take (N.to_nat len) bytes' in
      match parse_batches count' (drop (N.to_nat len) bytes') with
      | Some (bs, read) => Some (b :: bs, S (length b + read))
      | None => None
      end
  end.

(** Rows are numbers, which are their own hashes; one column, without NULLs; a stream is
    the number of its batches and the batches. *)
#[local] Instance plain_shuffle : ShuffleOps := {|
  SRow := N;
  hash_rows rows := inr ((λ r, r `mod` 2 ^ 64)%N <$> rows);
  logical_null_counts rows := [N.of_nat (count_occ N.eq_dec rows 0%N)];
  array_memory_size rows := (8 * N.of_nat (length rows))%N;
  interleave_record_batch bs idx :=
    match mapM (λ i, mbind (.!! i.2) (bs !! i.1)) idx with
    | Some rows => inr rows
    | None => inl (internal_err "interleave")
    end;
  has_view_columns := true;
  gc_views := inr;
  stream_start := inr tt;
  stream_write _ _ := inr tt;
  stream_finish bs := inr (N.of_nat (length bs) :: concat (batch_bytes <$> bs));
  stream_read bytes :=
    match bytes with
    | [] => inl (internal_err "empty stream")
    | count :: bytes' =>
        match parse_batches (N.to_nat count) bytes' with
        | Some (bs, read) => inr (inr <$> bs, S read)
        | None => inl (internal_err "truncated stream")
        end
    end;
|}.

Lemma parse_batches_ok (bs : list (list N)) rest :
  parse_batches (length bs) (concat (batch_bytes <$> bs) ++ rest) = Some (bs, length (concat (batch_bytes <$> bs))).
Proof.
  induction bs as [|b bs IH]; [done|]. rewrite fmap_cons. cbn [concat batch_bytes length app parse_batches].
  rewrite Nat2N.id, <-app_assoc, take_app_length, drop_app_length, IH. by rewrite length_app.
Qed.

#[local] Instance plain_shuffle_laws : ShuffleLaws.
Proof.
  refine {| row_hash := λ r : @SRow plain_shuffle, (r `mod` 2 ^ 64)%N; num_fields := 1 |}.
  - intros r. by apply N.mod_lt.
  - by intros rows hs [= <-].
  - cbn. intros bs idx rows. destruct (mapM _ idx) as [rs|] eqn:Hm; [|done]. intros [= <-].
    by apply mapM_Some.
  - by intros rows rows' [= <-].
  - done.
  - cbn. intros bs bytes rest [= <-]. split; [done|]. cbn. by rewrite Nat2N.id, parse_batches_ok.
Defined.

Lemma plain_never_fails : ¬ ops_fail.
Proof.
  intros [(rows & e & [=])|[(bs & idx & e & Hall & Hi)|[(rows & e & [=])|[(e & [=])|[(bs & b & e & [=])|(bs & e & [=])]]]]].
  cbn in Hi. destruct (mapM _ idx) eqn:Hm; [done|]. apply mapM_None_1, Exists_exists in Hm as (i & Hin & Hn).
  rewrite Forall_forall in Hall. destruct (Hall i Hin) as [r Hr].
  enough (Some r = None) by done. transitivity (mbind (.!! i.2) (bs !! i.1)); [by symmetry|exact Hn].
Qed.

(** ** Inputs *)

Definition sample_config : SortShuffleConfig := mkConfig 2 48.

Lemma sample_fits pressure (bs : list (list N)) :
  (N.of_nat (length bs) <=? 2 ^ 32)%N && forallb (λ b, N.of_nat (length b) <? 2 ^ 32)%N bs = true →
  input_fits (pressure, whole bs).
Proof.
  intros [Hl Hb]%andb_true_iff. split; [by rewrite length_fmap; apply N.leb_le|].
  intros b (b' & [= ->] & Hin)%list_elem_of_fmap. apply N.ltb_lt. rewrite forallb_forall in Hb.
  apply Hb. by apply list_elem_of_In.
Qed.

Lemma sample_succeeds pressure (bs : list (list N)) : ¬ input_fails (pressure, whole bs).
Proof. intros (e & (b & Hb & _)%list_elem_of_fmap). done. Qed.

#[export] Instance whole_inj : Inj (=) (=) whole.
Proof. intros b1 b2 [= Hb]. by apply (inj (fmap inr)) in Hb. Qed.

(** ** The decoder *)

(** Where a decoder is in a stream: before it; before a batch with [more] batches after
    it; in such a batch; at the end *)
Inductive plain_state : Type :=
| AtStart
| AtBatch (more : nat)
| InBatch (more need : nat) (acc : list N)
| AtEnd.

Definition next_state (left : nat) : plain_state :=
  match left with 0 => AtEnd | S more => AtBatch more end.

Fixpoint plain_decode (d : plain_state) (buf : list N) : decoded (list N) * plain_state * list N :=
  match buf with
  | [] => (Drained, d, [])
  | x :: buf' =>
      match d with
      | AtStart => plain_decode (next_state (N.to_nat x)) buf'
      | AtBatch more =>
          if (x =? 0)%N then (Decoded [], next_state more, buf') else plain_decode (InBatch more (N.to_nat x) []) buf'
      | InBatch more need acc =>
          if need =? 1 then (Decoded (acc ++ [x]), next_state more, buf')
          else plain_decode (InBatch more (pred need) (acc ++ [x])) buf'
      | AtEnd => (UnexpectedEos, d, buf)
      end
  end.

#[local] Instance plain_blocks : BlockOps := {|
  StreamDecoder := plain_state;
  new_decoder := AtStart;
  stream_decode := plain_decode;
  try_schema_from_ipc_buffer buf := match buf with [] => SchemaParseError | _ :: _ => SchemaFound end;
  file_read bytes := inr [inr bytes];
  FlightData := list N;
  schema_try_from _ := inr tt;
  flight_data_to_arrow_batch := inr;
|}.

Definition plain_bytes (bs : list (list N)) : list N := N.of_nat (length bs) :: concat (batch_bytes <$> bs).

(** The bytes before a batch *)
Definition head_bytes (bs pre : list (list N)) : list N :=
  N.of_nat (length bs) :: concat (batch_bytes <$> pre).

Definition plain_decoding (d : plain_state) (bs : list (list N)) (taken : list N) (cur : list (list N)) : Prop :=
  match d with
  | AtStart => taken = [] ∧ cur = bs
  | AtBatch more => ∃ pre, bs = pre ++ cur ∧ length cur = S more ∧
      taken = head_bytes bs pre
  | InBatch more need acc => ∃ pre b cur', cur = b :: cur' ∧ bs = pre ++ cur ∧ length cur' = more ∧ 1 ≤ need ∧
      (∃ b2, b = acc ++ b2 ∧ length b2 = need) ∧
      taken = head_bytes bs pre ++ N.of_nat (length b) :: acc
  | AtEnd => cur = [] ∧ taken = plain_bytes bs
  end.

Lemma next_decoding bs pre cur :
  bs = pre ++ cur →
  plain_decoding (next_state (length cur)) bs (head_bytes bs pre) cur.
Proof.
  intros ->. destruct cur as [|b cur]; cbn; [unfold head_bytes; by rewrite app_nil_r|]. by exists pre.
Qed.

Lemma comparable_cons (x y : N) a b : comparable (x :: a) (y :: b) → x = y ∧ comparable a b.
Proof.
  intros [Hp|Hp].
  - apply prefix_cons_inv_1 in Hp as Hx. apply prefix_cons_inv_2 in Hp. auto.
  - apply prefix_cons_inv_1 in Hp as Hx. apply prefix_cons_inv_2 in Hp. auto.
Qed.

(** What a decoder does with some bytes *)
Definition step_ok (bs : list (list N)) (taken rest buf : list N) (cur : list (list N))
    (r : decoded (list N) * plain_state * list N) : Prop :=
  match r with
  | (Decoded b, d', buf') => ∃ cur' more, cur = b :: cur' ∧ buf = more ++ buf' ∧ more `prefix_of` rest ∧
      plain_decoding d' bs (taken ++ more) cur' ∧ 1 < length (taken ++ more)
  | (Drained, d', buf') => buf' = [] ∧ buf `prefix_of` rest ∧ plain_decoding d' bs (taken ++ buf) cur
  | (UnexpectedEos, _, buf') => cur = [] ∧ buf' ≠ [] ∧ buf = rest ++ buf'
  | (DecodeError _, _, _) => False
  end.

(** One byte ahead of a step *)
Lemma step_cons bs taken rest buf cur x r :
  step_ok bs (taken ++ [x]) rest buf cur r → step_ok bs taken (x :: rest) (x :: buf) cur r.
Proof.
  destruct r as [[[b| | |e] d'] buf']; cbn; [|by rewrite <-app_assoc; intros (-> & ? & ?); split_and!; [|by apply prefix_cons|]| |done].
  - intros (cur' & more & -> & -> & Hp & Hd & Hl). rewrite <-app_assoc in Hd, Hl. exists cur', (x :: more).
    split_and!; [done..|by apply prefix_cons|done|done].
  - by intros (-> & ? & ->).
Qed.

Lemma plain_bytes_split pre b cur :
  plain_bytes (pre ++ b :: cur)
    = head_bytes (pre ++ b :: cur) pre ++ N.of_nat (length b) :: b ++ concat (batch_bytes <$> cur).
Proof. unfold plain_bytes, head_bytes. by rewrite fmap_app, concat_app, fmap_cons. Qed.

Lemma head_bytes_snoc bs pre b : head_bytes bs (pre ++ [b]) = head_bytes bs pre ++ N.of_nat (length b) :: b.
Proof. unfold head_bytes. rewrite fmap_app, concat_app. cbn. by rewrite app_nil_r. Qed.

(** The end of a batch *)
Lemma batch_done pre b cur :
  plain_decoding (next_state (length cur)) (pre ++ b :: cur)
    (head_bytes (pre ++ b :: cur) pre ++ N.of_nat (length b) :: b) cur.
Proof. rewrite <-head_bytes_snoc. apply next_decoding. by rewrite <-app_assoc. Qed.

Lemma plain_step bs taken rest buf d cur :
  plain_bytes bs = taken ++ rest → plain_decoding d bs taken cur → comparable buf rest →
  step_ok bs taken rest buf cur (plain_decode d buf).
Proof.
  revert taken rest d. induction buf as [|x buf IH]; intros taken rest d Hb Hd Hc.
  { cbn. rewrite app_nil_r. split_and!; [done|apply prefix_nil|done]. }
  destruct d as [|more|more need acc|]; cbn [plain_decode plain_decoding] in *.
  - destruct Hd as [-> ->]. cbn [app] in Hb. subst rest. apply comparable_cons in Hc as [-> Hc].
    rewrite Nat2N.id. apply step_cons, IH; [done| |done]. by apply (next_decoding bs []).
  - destruct Hd as (pre & -> & Hl & ->). destruct cur as [|b cur]; [done|]. injection Hl as <-.
    rewrite plain_bytes_split in Hb. apply app_inv_head in Hb. subst rest. apply comparable_cons in Hc as [-> Hc].
    destruct (N.eqb_spec (N.of_nat (length b)) 0) as [Hz|Hz].
    + assert (b = []) as -> by (apply nil_length_inv; lia). cbn [step_ok]. exists cur, [0%N].
      split_and!; [done..|by eexists|apply batch_done|rewrite length_app; cbn; lia].
    + apply step_cons, IH; [by rewrite plain_bytes_split, <-app_assoc| |done].
      cbn. exists pre, b, cur. split_and!; [done..|lia|exists b; split; [done|lia]|done].
  - destruct Hd as (pre & b & cur' & -> & -> & <- & Hneed & (b2 & -> & Hb2) & ->).
    destruct b2 as [|y b2]; [cbn in Hb2; lia|]. cbn [length] in Hb2. subst need.
    rewrite plain_bytes_split in Hb.
    assert (rest = y :: b2 ++ concat (batch_bytes <$> cur')) as ->.
    { symmetry. apply (app_inv_head (head_bytes (pre ++ (acc ++ y :: b2) :: cur') pre ++ N.of_nat (length (acc ++ y :: b2)) :: acc)).
      etransitivity; [|exact Hb]. by rewrite <-!app_assoc. }
    apply comparable_cons in Hc as [-> Hc]. destruct (Nat.eqb_spec (S (length b2)) 1) as [Hone|Hne].
    + destruct b2; [|done]. cbn [step_ok]. exists cur', [y]. split_and!; [done..|by eexists| |].
      * rewrite <-app_assoc. apply batch_done.
      * rewrite !length_app. cbn. lia.
    + apply step_cons, IH; [by rewrite plain_bytes_split, <-!app_assoc| |done].
      cbn [plain_decoding]. exists pre, (acc ++ y :: b2), cur'. split_and!; [done..|cbn; lia| |by rewrite <-!app_assoc].
      exists b2. by rewrite <-app_assoc.
  - destruct Hd as [-> ->]. rewrite <-(app_nil_r (plain_bytes bs)) in Hb at 1. apply app_inv_head in Hb as <-. done.
Qed.

#[local] Instance plain_block_laws : BlockLaws.
Proof.
  refine {| decoding := plain_decoding : @StreamDecoder _ plain_blocks → _ |}.
  - done.
  - intros d bs s cur [= <-] Hd. destruct d as [|more|more need acc|]; cbn in Hd.
    + by destruct Hd.
    + destruct Hd as (pre & -> & Hl & Ht). destruct cur as [|b cur]; [done|].
      pose proof (eq_trans (eq_sym (plain_bytes_split pre b cur)) Ht) as Hs.
      apply (f_equal length) in Hs. rewrite length_app in Hs. cbn in Hs. lia.
    + destruct Hd as (pre & b & cur' & -> & -> & _ & Hneed & (b2 & -> & Hb2) & Ht).
      pose proof (eq_trans (eq_sym (plain_bytes_split pre (acc ++ b2) cur')) Ht) as Hs.
      apply (app_inv_head (head_bytes (pre ++ (acc ++ b2) :: cur') pre)) in Hs. injection Hs as Hs.
      apply (f_equal (@length N)) in Hs. rewrite !length_app in Hs. cbn in Hb2. lia.
    + by destruct Hd.
  - done.
  - intros d bs taken cur rest buf [= Hs] Hd Hne Hc. pose proof (plain_step bs taken rest buf d cur Hs Hd Hc) as Hok.
    cbn [stream_decode plain_blocks]. destruct (plain_decode d buf) as [[[b| | |e] d'] buf']; [|done..].
    destruct Hok as (cur' & more & ? & ? & ? & ? & Hl). exists cur', more. split_and!; [done..|].
    by intros header [= <-].
  - intros bs s header [= <-] [= <-]. cbn. lia.
  - intros bs s header buf [= <-] [= <-] _. destruct buf; [right; split; [done|cbn; lia]|by left].
Defined.
