(* ===== verification/SortShuffleTheorems.v ===== *)
(** * Theorems on the sort shuffle

    Hashes reduce to remainders; what a task is given is what the readers of its output
    partitions get; and the receivers are handed out once. *)

From S2P Require Import Prelude Errors Machine Types SortKey KeySketch Range DataSample SortShuffle SortShuffleFacts SortShuffleLayout SortShuffleCoordinator ShuffleSample.
From stdpp Require Import numbers gmap.

(** C31. The strength-reduced reducer sends a hash to its remainder: for every divisor of
    64 bits but zero, on which it panics, the mask or the multiplication by the
    reciprocal gives exactly [hash % divisor]. *)
Theorem reducer_is_modulo d :
  is_u64 d →
  match StrengthReducedU64.new d with
  | Ok self => d ≠ 0%N ∧ StrengthReducedU64.divisor self = d ∧
      ∀ h, is_u64 h → StrengthReducedU64.partition_of self h = (h `mod` d)%N
  | Err _ => False
  | Panic => d = 0%N
  end.
Proof.
  intros Hd. destruct (StrengthReducedU64.new d) as [self|e|] eqn:Hn.
  - assert (d ≠ 0%N) as H0 by (by intros ->). split; [done|].
    pose proof (λ h Hh, partition_of_spec d self h ltac:(lia) Hd Hh Hn) as Hs.
    split; [by apply (Hs 0%N)|]. intros h Hh. by apply Hs.
  - unfold StrengthReducedU64.new in Hn. by destruct (is_power_of_two d), (d =? 0)%N.
  - unfold StrengthReducedU64.new in Hn. destruct (is_power_of_two d), (N.eqb_spec d 0); done.
Qed.

Section theorems.
Context `{SO : ShuffleOps} {SL : ShuffleLaws}.

(** C7. The writes of the input partitions of a task, in the order in which they end,
    are answered by the coordinator without a panic, and no spill file is left. Either every receiver is sent the
    same error, and an operation of Arrow or an input stream failed. Or all streams were
    read to the end; the NULLs of all batches are counted per column; and for each
    output partition the receiver is sent one summary with the number of its rows, or
    none if it has no rows, and the reader of the partition, opened from the data file
    and the index file of the task, yields exactly the rows of all batches whose hash
    reduces to the partition, each once and in order, however often the task spilled
    them and whatever the memory pool answered. *)
Theorem sort_shuffle_delivers_each_row_once `{HashOrder} num_output_partitions cfg task_id inputs :
  0 < num_output_partitions → is_u64 (N.of_nat num_output_partitions) → 1 ≤ batch_size cfg →
  inputs ≠ [] → Forall input_fits inputs →
  ∃ c, run_coordinator num_output_partitions task_id (write_of num_output_partitions cfg <$> inputs) = Some c ∧
    Forall (λ m, SpillManager.spill_files m = ∅) (cleaned c) ∧
    ((∃ e, sent c = replicate num_output_partitions (inl e) ∧ (ops_fail ∨ Exists input_fails inputs)) ∨
     ∃ bss, inputs.*2 = whole <$> bss ∧ column_null_counts c = nulls_of (concat bss) ∧ is_Some (c_file c) ∧
       ((N.of_nat (length (concat (concat bss))) < 2 ^ 64)%N →
        ∀ p, p < num_output_partitions → delivered task_id c p
          (filter (λ r, N.to_nat (row_hash r `mod` N.of_nat num_output_partitions) = p) (concat (concat bss))))).
Proof using All. intros HP HP64 Hcfg Hne Hfit. by apply coordinator_ok. Qed.
End theorems.

(** ** The handoff of the receivers *)

(** The answers to some calls of [execute] *)
Fixpoint execute_all (calls : list nat) (state : WriterState) : list (df_result nat * bool) :=
  match calls with
  | [] => []
  | partition :: calls' =>
      let '(answer, starts, state) := execute partition state in (answer, starts) :: execute_all calls' state
  end.

(** The receivers left after some calls *)
Definition handed_out (K : nat) (calls : list nat) (state : WriterState) : Prop :=
  initialized state = bool_decide (calls ≠ []) ∧ length (handoffs state) = K ∧
  (calls ≠ [] → ∀ p, p < K → handoffs state !! p = Some (if decide (p ∈ calls) then None else Some p)).

Lemma execute_step K calls partition state :
  handed_out K calls state →
  let '(answer, starts, state') := execute partition state in
  handed_out K (calls ++ [partition]) state' ∧ starts = bool_decide (calls = []) ∧
  (answer = Ok partition ↔ partition < K ∧ partition ∉ calls) ∧ (answer = Ok partition ∨ ∃ e, answer = Err e).
Proof.
  intros (Hi & Hl & Hh). unfold execute.
  set (hs := if initialized state then _ else _).
  assert (length hs = K ∧ ∀ p, p < K → hs !! p = Some (if decide (p ∈ calls) then None else Some p)) as [Hlen Hhs].
  { unfold hs. rewrite Hi. case_bool_decide as Hc; [by auto|].
    subst calls. rewrite length_fmap, length_seq. split; [done|].
    intros p Hp. rewrite list_lookup_fmap, lookup_seq_lt by lia. cbn.
    by rewrite decide_False by apply not_elem_of_nil. }
  assert (negb (initialized state) = bool_decide (calls = [])) as ->.
  { rewrite Hi. by destruct calls. }
  destruct (decide (partition < K)) as [Hp|Hp].
  2:{ rewrite lookup_ge_None_2 by lia. split_and!; [|done|split; [done|]; lia|by right; eexists].
      split_and!; [by destruct calls|done|]. intros _ p Hpk. rewrite Hhs by done.
      f_equal. apply decide_ext. rewrite elem_of_app, list_elem_of_singleton. intuition lia. }
  rewrite Hhs by done. destruct (decide (partition ∈ calls)) as [Hin|Hin].
  - split_and!; [|done|split; [done|]; naive_solver|by right; eexists].
    split_and!; [by destruct calls|done|]. intros _ p Hpk. rewrite Hhs by done.
    f_equal. apply decide_ext. rewrite elem_of_app, list_elem_of_singleton. split; [by left|]. by intros [?| ->].
  - split_and!; [|done|done|by left]. split_and!; [by destruct calls|cbn; by rewrite length_insert|].
    intros _ p Hpk. cbn. destruct (decide (p = partition)) as [->|Hne].
    + rewrite list_lookup_insert_eq by lia. rewrite decide_True; [done|]. apply elem_of_app. right. by left.
    + rewrite list_lookup_insert_ne, Hhs by done. f_equal. apply decide_ext.
      rewrite elem_of_app, list_elem_of_singleton. naive_solver.
Qed.

Lemma execute_all_ok K before calls state i p :
  handed_out K before state → calls !! i = Some p →
  ∃ answer, execute_all calls state !! i = Some (answer, bool_decide (before ++ take i calls = [])) ∧
    (answer = Ok p ↔ p < K ∧ p ∉ before ++ take i calls) ∧ (answer = Ok p ∨ ∃ e, answer = Err e).
Proof.
  revert before state i. induction calls as [|q calls IH]; intros before state i Hs Hi; [done|].
  cbn [execute_all]. pose proof (execute_step K before q state Hs) as Hq.
  destruct (execute q state) as [[answer starts] state']. destruct Hq as (Hs' & -> & Hans & Hor). destruct i as [|i].
  - injection Hi as ->. exists answer. cbn. rewrite app_nil_r. done.
  - destruct (IH (before ++ [q]) state' i Hs' Hi) as (a & Ha & Hb). exists a.
    rewrite <-app_assoc in Ha, Hb. done.
Qed.

(** The first call of [execute] starts the coordinator and no other does; the first
    call for each output partition gets its receiver, and every other call, for the
    same partition again or out of range, gets an error. *)
Theorem execute_hands_out_each_receiver_once K calls i p :
  calls !! i = Some p →
  ∃ answer, execute_all calls (writer_state_new K) !! i = Some (answer, i =? 0) ∧
    (answer = Ok p ↔ p < K ∧ p ∉ take i calls) ∧ (answer = Ok p ∨ ∃ e, answer = Err e).
Proof.
  intros Hi. destruct (execute_all_ok K [] calls (writer_state_new K) i p) as (answer & Ha & Hb); [|done|].
  { split_and!; [done|apply length_replicate|done]. }
  exists answer. cbn [app] in Ha, Hb. split; [|done]. rewrite Ha. f_equal. f_equal.
  destruct calls as [|q calls]; [done|]. by destruct i.
Qed.

(** ** A small setting *)

Section sample.

#[local] Existing Instances plain_shuffle plain_shuffle_laws.

(** The memory pool refuses the third batch of the first input. *)
Definition sample_inputs : list input :=
  [(λ i, (4%N, i =? 2), whole [[1; 2; 3; 4]; [5; 0]; [7; 8; 9]; [10]]%N);
   (λ _, (0%N, false), whole [[4; 6]; []; [12; 14; 0; 16]]%N)].

(** Two inputs for three partitions: both spill, and the last batch of the first does not. *)
Lemma sort_shuffle_delivers_each_row_once_witness :
  ∃ c, run_coordinator 3 7 (write_of 3 sample_config <$> sample_inputs) = Some c ∧
    column_null_counts c = [2%N] ∧
    delivered 7 c 0 [3; 0; 9; 6; 12; 0]%N ∧ delivered 7 c 1 [1; 4; 7; 10; 4; 16]%N ∧ delivered 7 c 2 [2; 5; 8; 14]%N.
Proof.
  destruct (sort_shuffle_delivers_each_row_once 3 sample_config 7 sample_inputs)
    as (c & Hc & _ & [(e & _ & [Hf|Hf])|(bss & Hb & Hn & _ & Hd)]).
  - lia.
  - done.
  - cbn. lia.
  - done.
  - apply Forall_cons. split; [|apply Forall_singleton]; apply sample_fits; by vm_compute.
  - exact (False_ind _ (plain_never_fails Hf)).
  - unfold sample_inputs in Hf. rewrite !Exists_cons, Exists_nil in Hf.
    destruct Hf as [Hf|[Hf|[]]]; destruct (sample_succeeds _ _ Hf).
  - exists c. split; [exact Hc|]. clear Hc.
    assert (bss = [[[1; 2; 3; 4]; [5; 0]; [7; 8; 9]; [10]]; [[4; 6]; []; [12; 14; 0; 16]]]%N) as ->.
    { symmetry in Hb. apply (inj (fmap whole)). exact Hb. }
    split; [rewrite Hn; by vm_compute|]. specialize (Hd ltac:(by vm_compute)).
    split; [exact (Hd 0 ltac:(lia))|]. split; [exact (Hd 1 ltac:(lia))|exact (Hd 2 ltac:(lia))].
Defined.

Lemma reducer_is_modulo_witness :
  is_u64 10 ∧ ∃ self, StrengthReducedU64.new 10 = Ok self ∧
    StrengthReducedU64.partition_of self 18446744073709551615 = 5%N.
Proof.
  split; [done|]. pose proof (reducer_is_modulo 10 ltac:(done)) as Hr.
  destruct (StrengthReducedU64.new 10) as [self|e|]; [|destruct Hr|discriminate Hr].
  destruct Hr as (_ & _ & Hp). exists self. split; [reflexivity|]. rewrite Hp; [reflexivity|]. by vm_compute.
Defined.
End sample.
