(* ===== verification/TransferTheorems.v ===== *)
(** * Theorems on reading from other executors

    A remote read of a partition of a sort shuffle is the local one; a fetch with
    retries is one whole attempt; and which failures of the transport are retried. *)

From S2P Require Import Prelude Errors Machine Types SortKey Range RangeIndex DataSample SortShuffle SortShuffleFacts SortShuffleLayout SortShuffleCoordinator Transfer TransferFacts ShuffleSample.
From stdpp Require Import numbers gmap strings.

Section theorems.
Context `{BO : BlockOps} {BL : BlockLaws} {SL : ShuffleLaws}.


(** A fetch with retries is one whole attempt: its answer is that of an attempt, at
    most [retries] after the first, before which all failed in a way that is retried;
    an error is the last attempt's or one that is not retried. An attempt that fails in
    its body, after the schema, fails as a whole, as a fetch failure, so that a partition
    is delivered completely or not at all and no batch twice. *)
Theorem fetch_is_one_whole_attempt fuel retries location prefer_flight network :
  let attempt i := fetch_partition_buffered fuel location prefer_flight (network i) in
  (∃ i, i ≤ retries ∧ fetch_remote fuel retries location prefer_flight network = attempt i ∧
    (∀ j, j < i → ∃ e, attempt j = Err e ∧ is_retriable_fetch_error e = true) ∧
    (∀ e, attempt i = Err e → i = retries ∨ is_retriable_fetch_error e = false)) ∧
  ∀ i stream, fetch_partition_remote location prefer_flight (network i) = Ok stream →
    match attempt i with
    | Ok batches =>
        match stream with
        | Blocks s => collect_blocks fuel s = Some (inr batches)
        | Flight ms => flight_item <$> ms = inr <$> batches
        end
    | Err e => ∃ stage partition desc, e = FetchFailed (loc_executor location) stage partition desc
    | Panic => ∃ s, stream = Blocks s ∧ collect_blocks fuel s = None
    end.
Proof using.
  intros attempt. split.
  { destruct (with_retry_spec retries is_retriable_fetch_error 0 attempt) as (i & Hi & Hw & Hj & He).
    exists i. split_and!; [lia|exact Hw| |exact He]. intros j Hlt. apply Hj. lia. }
  intros i stream Hs. unfold attempt, fetch_partition_buffered. rewrite Hs. cbn [obind].
  assert (∀ ms : list (fallible (list SRow)), match collect_items ms with inr bs => ms = inr <$> bs | inl _ => True end) as Hcol.
  { induction ms as [|[e|b] ms IH]; [done..|]. cbn. destruct (collect_items ms); [done|]. cbn. by f_equal. }
  destruct stream as [s|ms].
  - destruct (collect_blocks fuel s) as [[e|bs]|] eqn:Hcb; [by eexists _, _, _|done|by exists s].
  - generalize (Hcol (flight_item <$> ms)). destruct (collect_items _); [intros _; by eexists _, _, _|done].
Qed.

(** A transport failure that comes with the first block of a block transfer is taken
    for an error of the decoding: it is not retried, whatever the number of retries,
    and the failed task is reported as an execution error, which fails the job. The same
    failure of a Flight stream is a fetch failure. *)
Theorem first_block_failure_is_fatal fuel retries location network find_root debug_fmt depth s blocks :
  at_connect (network 0) = Ok tt → at_action (network 0) = inr (inl s :: blocks) →
  at_get (network 0) = inr (inl s :: []) →
  (∃ e, fetch_remote fuel retries location false network = Err e ∧
    failed_reason (failed_task_of_error find_root debug_fmt depth e) = Some FR_ExecutionError ∧
    retryable (failed_task_of_error find_root debug_fmt depth e) = false) ∧
  ∃ e, fetch_partition_buffered fuel location true (network 0) = Err e ∧ is_retriable_fetch_error e = true.
Proof using.
  intros Hc Ha Hg. split.
  - exists (ArrowErr (AE_Other "{e}")). split; [|by destruct depth].
    assert (fetch_partition_buffered fuel location false (network 0) = Err (ArrowErr (AE_Other "{e}"))) as Hf.
    { unfold fetch_partition_buffered, fetch_partition_remote, fetch_partition, execute_do_action_with_header.
      rewrite Hc, Ha. reflexivity. }
    unfold fetch_remote. destruct retries; cbn [with_retry]; rewrite Hf; reflexivity.
  - unfold fetch_partition_buffered, fetch_partition_remote, fetch_partition, execute_do_get.
    rewrite Hc, Hg. by eexists.
Qed.
End theorems.

(** C32. The fetches of a reader never hold more than the limits: at most the configured
    requests at a time, at most the configured blocks of one executor, and byte permits
    within the budget, a block that is larger than all of it included. In whatever order
    the semaphores serve them they do not deadlock: until every fetch has released its
    permits there is a queue in which whoever is first can go on, and a run has at most
    four steps per fetch. *)
Theorem governed_fetches_finish l locations n g :
  gov_run l n (gov_start l locations) g →
  length (waiting_addr g ++ waiting_bytes g ++ streaming g) ≤ max_reqs l `max` 1 ∧
  (∀ a, at_addr a (waiting_bytes g ++ streaming g) ≤ max_blocks_per_addr l `max` 1) ∧
  (lsum f_permits (streaming g) ≤ byte_permits_cap (max_bytes l))%N ∧
  n ≤ 4 * length locations ∧
  (released g ≡ₚ fetch_of l <$> locations ∨
   ∃ q, q ∈ [waiting_req g; waiting_addr g; waiting_bytes g; streaming g] ∧ q ≠ [] ∧ ∀ f, f ∈ q → can_go l g f).
Proof.
  intros Hrun. destruct (gov_run_ok l _ _ _ Hrun (gov_start_ok l locations)) as (Hok & Hperm & Hn).
  unfold distance in Hn. cbn in Hn, Hperm. rewrite length_fmap in Hn. rewrite app_nil_r in Hperm.
  pose proof Hok as [Hr Ha Hb _]. split_and!; [done..|lia|].
  destruct (gov_progress l g Hok) as [Hd|?]; [left|by right]. rewrite <-Hperm.
  destruct g as [[|] [|] [|] [|] re]; unfold distance in Hd; cbn in Hd; try lia. done.
Qed.

(** ** A small setting *)

Section sample.
#[local] Existing Instances plain_shuffle plain_shuffle_laws plain_blocks plain_block_laws.




Definition small_location (p : nat) : PartitionLocation.t :=
  PartitionLocation.mk 0 (PartitionId.mk "job" 1 p)
    (ExecutorMetadata.mk "executor" "host" 50051 50052 (mkExecutorSpecification 4)
       (mkOsSpecification "os" "1" "1" "1" 4 1 0 0 0))
    (mkPartitionStats None None None) (Some 7%N) true.








(** Two blocks of ten bytes on one executor, a budget of four bytes and one block per
    address: after both have the permit of a request one is held back. *)
Definition small_limits : limits := mkLimits 2 1 4 10.

Lemma governed_fetches_finish_witness :
  let f := mkFetchTask "executor" 4 in
  let held_back := mkGovernor [] [f] [f] [] [] in
  gov_run small_limits 3 (gov_start small_limits [small_location 0; small_location 1]) held_back ∧
  (∀ a, at_addr a [f] ≤ 1) ∧ 3 ≤ 4 * 2 ∧
  ∃ q, q ∈ [[]; [f]; [f]; []] ∧ q ≠ [] ∧ ∀ f, f ∈ q → can_go small_limits held_back f.
Proof.
  intros f held_back.
  assert (gov_run small_limits 3 (gov_start small_limits [small_location 0; small_location 1]) held_back) as Hrun.
  { eapply run_step; [apply (Acquire_req small_limits [] f [f] [] [] [] []); cbn; lia|].
    eapply run_step; [apply (Acquire_req small_limits [] f [] [f] [] [] []); cbn; lia|].
    eapply run_step; [apply (Acquire_addr small_limits [] [] f [f] [] [] []); vm_compute; lia|]. apply run_none. }
  split; [exact Hrun|].
  destruct (governed_fetches_finish small_limits [small_location 0; small_location 1] 3 held_back Hrun) as (_ & Ha & _ & Hn & [Hp|Hq]).
  - apply Permutation_length in Hp. discriminate Hp.
  - split; [exact Ha|split; [exact Hn|exact Hq]].
Defined.

Definition unavailable : Status := mkStatus Unknown "transport error".

(** Three retries are left and none is made. *)
Lemma first_block_failure_is_fatal_witness :
  let network (i : nat) := mkAttempt (Ok tt) (inr [inl unavailable]) (inr [inl unavailable]) in
  (∃ e, fetch_remote 10 3 (small_location 1) false network = Err e ∧
    failed_reason (failed_task_of_error id (λ _, "e"%string) 5 e) = Some FR_ExecutionError ∧
    retryable (failed_task_of_error id (λ _, "e"%string) 5 e) = false) ∧
  ∃ e, fetch_partition_buffered 10 (small_location 1) true (network 0) = Err e ∧ is_retriable_fetch_error e = true.
Proof.
  intros network.
  exact (first_block_failure_is_fatal 10 3 (small_location 1) network id (λ _, "e"%string) 5 unavailable [] eq_refl eq_refl eq_refl).
Defined.
End sample.
