(* ===== verification/CacheRegistry.v ===== *)
(** * The registry of cached datasets

    Models [ballista/scheduler/src/state/cache_registry.rs], which the trait
    [CacheState] and its backend [InMemoryCacheState] in
    [ballista/scheduler/src/cluster/memory.rs] pass every call to. The registry
    is shared between threads: each method on one key holds the lock of its
    entry, and the methods that walk the map are sequences of such atomic
    actions, so interleavings are the traces of [action]. *)

From S2P Require Import Prelude Errors Types.

(** ** Data *)

Module CacheKey.
Record t : Type := mk { session_id : string; cache_id : string }.
End CacheKey.

#[export] Instance CacheKey_eq_dec : EqDecision CacheKey.t.
Proof. solve_decision. Defined.
#[export] Instance CacheKey_countable : Countable CacheKey.t.
Proof.
  refine (inj_countable' (λ k, (CacheKey.session_id k, CacheKey.cache_id k))
    (λ p, CacheKey.mk p.1 p.2) _).
  by intros [].
Defined.

Section registry.
(** [SchemaRef] of Arrow *)
Context {SchemaRef : Type}.

Record MaterializedCache : Type := mkMaterialized {
  schema : SchemaRef;
  locations : list (list PartitionLocation.t);
  materializing_job : JobId;
}.

Inductive EntryState : Type :=
| Pending (job : JobId)
| Materialized (cache : MaterializedCache).

Abbreviation registry := (gmap CacheKey.t EntryState).

Inductive BeginOutcome : Type := Claimed | AlreadyPending | AlreadyMaterialized.
Inductive CompleteOutcome : Type := Completed | Stale.

Definition holds_executor (st : EntryState) (executor_id : string) : bool :=
  match st with
  | Materialized cache =>
      existsb (λ l, bool_decide (loc_executor l = executor_id)) (concat (locations cache))
  | Pending _ => false
  end.

(** ** Methods on one key *)

Definition lookup_cache (key : CacheKey.t) (r : registry) : option MaterializedCache :=
  match r !! key with
  | Some (Materialized cache) => Some cache
  | Some (Pending _) | None => None
  end.

Definition begin_materialization (key : CacheKey.t) (job : JobId) (r : registry)
  : BeginOutcome * registry :=
  match r !! key with
  | Some (Pending _) => (AlreadyPending, r)
  | Some (Materialized _) => (AlreadyMaterialized, r)
  | None => (Claimed, <[key := Pending job]> r)
  end.

Definition complete_materialization (key : CacheKey.t) (job : JobId) (sch : SchemaRef)
    (locs : list (list PartitionLocation.t)) (r : registry) : CompleteOutcome * registry :=
  match r !! key with
  | Some (Pending owner) =>
      if bool_decide (owner = job)
      then (Completed, <[key := Materialized (mkMaterialized sch locs job)]> r)
      else (Stale, r)
  | Some (Materialized cache) =>
      if bool_decide (materializing_job cache = job) then (Completed, r) else (Stale, r)
  | None => (Stale, r)
  end.

(** [DashMap::remove_if] *)
Definition remove_if (key : CacheKey.t) (p : EntryState → bool) (r : registry)
  : option EntryState * registry :=
  match r !! key with
  | Some st => if p st then (Some st, delete key r) else (None, r)
  | None => (None, r)
  end.

Definition abort_materialization (key : CacheKey.t) (job : JobId) (r : registry)
  : bool * registry :=
  let '(removed, r') :=
    remove_if key
      (λ st, match st with Pending owner => bool_decide (owner = job) | _ => false end) r in
  (match removed with Some _ => true | None => false end, r').

Definition invalidate (key : CacheKey.t) (r : registry)
  : option MaterializedCache * registry :=
  (match r !! key with Some (Materialized cache) => Some cache | _ => None end, delete key r).

(** ** Methods that walk the map *)

(** The order in which the map lists its entries. *)
Class EntryOrder : Type := {
  iter_entries : registry → list (CacheKey.t * EntryState);
  iter_entries_perm r : iter_entries r ≡ₚ map_to_list r;
}.
Context `{EntryOrder}.

(** The second half of [invalidate_executor]: one guarded removal per key. *)
Fixpoint remove_held (executor_id : string) (keys : list CacheKey.t) (r : registry)
  : list (CacheKey.t * MaterializedCache) * registry :=
  match keys with
  | [] => ([], r)
  | key :: keys' =>
      let '(removed, r1) := remove_if key (λ st, holds_executor st executor_id) r in
      let '(rest, r2) := remove_held executor_id keys' r1 in
      (match removed with
       | Some (Materialized cache) => (key, cache) :: rest
       | _ => rest
       end, r2)
  end.

Definition invalidate_executor (executor_id : string) (r : registry)
  : list (CacheKey.t * MaterializedCache) * registry :=
  remove_held executor_id
    (filter (λ kv, holds_executor kv.2 executor_id = true) (iter_entries r)).*1 r.

Fixpoint remove_keys (keys : list CacheKey.t) (r : registry)
  : list (CacheKey.t * MaterializedCache) * registry :=
  match keys with
  | [] => ([], r)
  | key :: keys' =>
      let '(removed, r1) := invalidate key r in
      let '(rest, r2) := remove_keys keys' r1 in
      (match removed with Some cache => (key, cache) :: rest | None => rest end, r2)
  end.

Definition remove_session (session : string) (r : registry)
  : list (CacheKey.t * MaterializedCache) * registry :=
  remove_keys
    (filter (λ kv, CacheKey.session_id kv.1 = session) (iter_entries r)).*1 r.

(** The set is given as the list of its elements, with repetitions. *)
Definition pinned_stages (r : registry) : list (JobId * nat) :=
  concat (filter_map (λ kv,
    match kv.2 with
    | Materialized cache =>
        Some ((λ l, (PartitionId.job_id (PartitionLocation.partition_id l),
                     PartitionId.stage_id (PartitionLocation.partition_id l)))
                <$> concat (locations cache))
    | Pending _ => None
    end) (iter_entries r)).

(** ** Interleavings

    The atomic actions of all threads. A removal is labelled with what it did,
    as the caller sees it. *)
Inductive action : Type :=
| ABegin (key : CacheKey.t) (job : JobId) (o : BeginOutcome)
| AComplete (key : CacheKey.t) (job : JobId) (o : CompleteOutcome)
| ARemove (key : CacheKey.t).

Inductive act : registry → action → registry → Prop :=
| Act_begin key job r :
    act r (ABegin key job (begin_materialization key job r).1)
      (begin_materialization key job r).2
| Act_complete key job sch locs r :
    act r (AComplete key job (complete_materialization key job sch locs r).1)
      (complete_materialization key job sch locs r).2
| Act_remove_if key p r st r' :
    remove_if key p r = (Some st, r') → act r (ARemove key) r'
| Act_invalidate key r : act r (ARemove key) (invalidate key r).2.

(** The histories of a registry, newest action first. *)
Inductive history : list action → registry → Prop :=
| History_nil : history [] ∅
| History_step h a r r' : history h r → act r a r' → history (a :: h) r'.

(** The job that holds the claim of [key]. *)
Fixpoint claimant (key : CacheKey.t) (h : list action) : option JobId :=
  match h with
  | [] => None
  | ABegin k job Claimed :: h' => if bool_decide (k = key) then Some job else claimant key h'
  | ARemove k :: h' => if bool_decide (k = key) then None else claimant key h'
  | _ :: h' => claimant key h'
  end.

Definition owner_of (st : EntryState) : JobId :=
  match st with Pending job => job | Materialized cache => materializing_job cache end.

(** ** Ownership of claims *)

Lemma act_owner r a r' key :
  act r a r' →
  owner_of <$> r' !! key =
    match a with
    | ABegin k job Claimed => if bool_decide (k = key) then Some job else owner_of <$> r !! key
    | ARemove k => if bool_decide (k = key) then None else owner_of <$> r !! key
    | _ => owner_of <$> r !! key
    end.
Proof.
  destruct 1 as [k job r|k job sch locs r|k p r st r' Hr|k r].
  - unfold begin_materialization. destruct (r !! k) as [[]|]; simpl; try done.
    rewrite lookup_insert. case_decide; case_bool_decide; naive_solver.
  - unfold complete_materialization.
    destruct (r !! k) as [[owner|cache]|] eqn:Hk; simpl; try done.
    + case_bool_decide as Ho; simpl; [|done]. rewrite lookup_insert.
      case_decide as Hd; [|done]. subst. by rewrite Hk.
    + by case_bool_decide.
  - unfold remove_if in Hr. destruct (r !! k); [|done]. case_match; simplify_eq.
    rewrite lookup_delete. case_decide; case_bool_decide; naive_solver.
  - unfold invalidate. simpl.
    rewrite lookup_delete. case_decide; case_bool_decide; naive_solver.
Qed.

Lemma owner_claimant h r key : history h r → owner_of <$> r !! key = claimant key h.
Proof.
  induction 1 as [|h a r r' Hh IH Ha]; [done|]. rewrite (act_owner _ _ _ _ Ha), IH.
  destruct a as [k job []|k job o|k]; done.
Qed.

Lemma begin_outcome key job r :
  (begin_materialization key job r).1 = Claimed ↔ r !! key = None.
Proof. unfold begin_materialization. destruct (r !! key) as [[]|]; simpl; naive_solver. Qed.

Lemma complete_outcome key job sch locs r :
  (complete_materialization key job sch locs r).1 = Completed ↔
  owner_of <$> r !! key = Some job.
Proof.
  unfold complete_materialization. destruct (r !! key) as [[owner|cache]|]; simpl.
  - case_bool_decide; simpl; naive_solver.
  - case_bool_decide; simpl; naive_solver.
  - done.
Qed.

(** ** Walking the map *)

Lemma remove_held_spec e keys r :
  (∀ key, key ∈ keys → ∃ cache, r !! key = Some (Materialized cache) ∧
                                holds_executor (Materialized cache) e = true) →
  NoDup keys →
  (remove_held e keys r).2 = filter (λ kv, kv.1 ∉ keys) r ∧
  ∀ key cache, (key, cache) ∈ (remove_held e keys r).1 ↔
    key ∈ keys ∧ r !! key = Some (Materialized cache).
Proof.
  revert r. induction keys as [|key keys IH]; intros r Hall Hnd; simpl.
  { split.
    - rewrite map_filter_id; [done|]. intros i x _. by apply not_elem_of_nil.
    - intros key cache. split; [by intros ?%elem_of_nil|]. by intros [?%elem_of_nil _]. }
  apply NoDup_cons in Hnd as [Hkey Hnd].
  destruct (Hall key) as (cache & Hc & Hh); [left|].
  unfold remove_if. rewrite Hc, Hh.
  destruct (IH (delete key r)) as [Hr Hl]; [|done|].
  { intros k Hk. destruct (Hall k) as (c & ? & ?); [by right|].
    exists c. rewrite lookup_delete_ne; [done|]. by intros ->. }
  destruct (remove_held e keys (delete key r)) as [rest r2]. simpl in *. split.
  - rewrite Hr. apply map_eq. intros k. apply option_eq. intros x.
    rewrite !map_lookup_filter_Some, lookup_delete_Some, not_elem_of_cons. simpl. naive_solver.
  - intros k c. rewrite !elem_of_cons, Hl. split.
    + intros [[= -> ->]|[Hk Hd]]; [by auto|]. rewrite lookup_delete_Some in Hd.
      destruct Hd. auto.
    + intros [[->|Hk] Hd]; [left; congruence|]. right. split; [done|].
      apply lookup_delete_Some. split; [by intros ->|done].
Qed.

Lemma elem_of_iter_entries r key st : (key, st) ∈ iter_entries r ↔ r !! key = Some st.
Proof. rewrite iter_entries_perm. apply elem_of_map_to_list. Qed.

Lemma iter_filter_keys (P : CacheKey.t * EntryState → Prop) `{∀ x, Decision (P x)} r :
  NoDup (filter P (iter_entries r)).*1 ∧
  ∀ key, key ∈ (filter P (iter_entries r)).*1 ↔ ∃ st, r !! key = Some st ∧ P (key, st).
Proof.
  split.
  - assert (NoDup (iter_entries r).*1) as Hnd.
    { rewrite iter_entries_perm. apply NoDup_fst_map_to_list. }
    induction (iter_entries r) as [|kv l IH]; [constructor|].
    apply NoDup_cons in Hnd as [Hkv Hnd]. rewrite filter_cons. case_decide; [|auto].
    apply NoDup_cons. split; [|auto].
    intros (kv' & Heq & [_ Hin]%list_elem_of_filter)%list_elem_of_fmap.
    apply Hkv. rewrite Heq. by apply list_elem_of_fmap_2.
  - intros key. rewrite list_elem_of_fmap. split.
    + intros ([k st] & -> & [HP Hin]%list_elem_of_filter).
      apply elem_of_iter_entries in Hin. eauto.
    + intros (st & Hst & HP). exists (key, st). split; [done|].
      apply list_elem_of_filter. split; [done|]. by apply elem_of_iter_entries.
Qed.

Lemma holds_executor_materialized st e :
  holds_executor st e = true → ∃ cache, st = Materialized cache.
Proof. destruct st; simpl; [done|]. eauto. Qed.

(** The entries with a partition on the executor are removed and returned, the
    other ones stay. *)
Lemma invalidate_executor_spec e r :
  (invalidate_executor e r).2 = filter (λ kv, holds_executor kv.2 e = false) r ∧
  ∀ key cache, (key, cache) ∈ (invalidate_executor e r).1 ↔
    r !! key = Some (Materialized cache) ∧ holds_executor (Materialized cache) e = true.
Proof.
  unfold invalidate_executor.
  destruct (iter_filter_keys (λ kv, holds_executor kv.2 e = true) r) as [Hnd Hin].
  destruct (remove_held_spec e (filter (λ kv, holds_executor kv.2 e = true)
    (iter_entries r)).*1 r) as [Hr Hl]; [|done|].
  { intros key (st & Hst & Hh)%Hin. simpl in Hh.
    destruct (holds_executor_materialized st e Hh) as [cache ->]. eauto. }
  split.
  - rewrite Hr. apply map_filter_ext. intros key st Hst. rewrite Hin. simpl. split.
    + intros Hn. destruct (holds_executor st e) eqn:Hh; [|done]. destruct Hn. eauto.
    + intros Hf (st' & ? & ?). simplify_eq. congruence.
  - intros key cache. rewrite Hl, Hin. simpl. split.
    + intros [(st & ? & ?) ?]. by simplify_eq.
    + intros [? ?]. eauto.
Qed.

Lemma remove_keys_spec keys r :
  NoDup keys →
  (remove_keys keys r).2 = filter (λ kv, kv.1 ∉ keys) r ∧
  ∀ key cache, (key, cache) ∈ (remove_keys keys r).1 ↔
    key ∈ keys ∧ r !! key = Some (Materialized cache).
Proof.
  revert r. induction keys as [|key keys IH]; intros r Hnd; simpl.
  { split.
    - rewrite map_filter_id; [done|]. intros i x _. by apply not_elem_of_nil.
    - intros key cache. split; [by intros ?%elem_of_nil|]. by intros [?%elem_of_nil _]. }
  apply NoDup_cons in Hnd as [Hkey Hnd]. destruct (IH (delete key r) Hnd) as [Hr Hl].
  destruct (remove_keys keys (delete key r)) as [rest r2]. simpl in *. split.
  - rewrite Hr. apply map_eq. intros k. apply option_eq. intros x.
    rewrite !map_lookup_filter_Some, lookup_delete_Some, not_elem_of_cons. simpl. naive_solver.
  - intros k c. setoid_rewrite lookup_delete_Some in Hl. rewrite elem_of_cons.
    destruct (r !! key) as [[job|cache]|] eqn:Hk; rewrite ?elem_of_cons, Hl; naive_solver.
Qed.

Lemma remove_session_spec session r :
  (remove_session session r).2 = filter (λ kv, CacheKey.session_id kv.1 ≠ session) r ∧
  ∀ key cache, (key, cache) ∈ (remove_session session r).1 ↔
    r !! key = Some (Materialized cache) ∧ CacheKey.session_id key = session.
Proof.
  unfold remove_session.
  destruct (iter_filter_keys (λ kv, CacheKey.session_id kv.1 = session) r) as [Hnd Hin].
  destruct (remove_keys_spec (filter (λ kv, CacheKey.session_id kv.1 = session)
    (iter_entries r)).*1 r Hnd) as [Hr Hl].
  split.
  - rewrite Hr. apply map_filter_ext. intros key st Hst. rewrite Hin. simpl. naive_solver.
  - intros key cache. rewrite Hl, Hin. simpl. naive_solver.
Qed.

Lemma pinned_stages_spec r job sid :
  (job, sid) ∈ pinned_stages r ↔
  ∃ key cache l, r !! key = Some (Materialized cache) ∧ l ∈ concat (locations cache) ∧
    PartitionId.job_id (PartitionLocation.partition_id l) = job ∧
    PartitionId.stage_id (PartitionLocation.partition_id l) = sid.
Proof.
  unfold pinned_stages. rewrite list_elem_of_In, in_concat.
  setoid_rewrite <-list_elem_of_In. split.
  - intros (ps & ([key st] & Hst%elem_of_iter_entries & Hps)%elem_of_filter_map & Hin).
    simpl in Hps. destruct st as [|cache]; simplify_eq.
    apply list_elem_of_fmap in Hin as (l & [= -> ->] & Hl). eauto 8.
  - intros (key & cache & l & Hst & Hl & <- & <-). eexists. split.
    + apply elem_of_filter_map. exists (key, Materialized cache).
      split; [by apply elem_of_iter_entries|done].
    + apply list_elem_of_fmap. eauto.
Qed.
End registry.
