(* ===== verification/JobState.v ===== *)
(** * The state of jobs

    Models [InMemoryJobState] of [ballista/scheduler/src/cluster/memory.rs]: the
    maps of queued, running and completed jobs. The maps are concurrent, and a
    method that writes two of them is two atomic actions: [submit_job],
    [save_job] and [fail_unscheduled_job] are given as the list of the states
    that other threads can observe, the last one being the state they leave. *)

From S2P Require Import Prelude Errors Types Stage Graph.

(** [JobStateEvent] of [ballista/scheduler/src/cluster/mod.rs] *)
Inductive JobStateEvent : Type :=
| JobAcquired (job_id : JobId) (owner : string)
| JobStateUpdated (job_id : JobId) (status : JobStatus.t)
| SessionAccessed (session_id : string)
| SessionRemoved (session_id : string).

Section job_state.
Context `{PlanOps} `{Payload}.
Abbreviation graph := StaticExecutionGraph.t.

(** [ExtendedJobStatus]: the status, and whether somebody subscribed to it.
    [subscriber] is a channel, identified by a number. *)
Record ExtendedJobStatus : Type := mkExtended {
  ext_status : JobStatus.t;
  subscriber : option nat;
}.

Record InMemoryJobState : Type := mkJobState {
  scheduler : string;
  completed_jobs : gmap JobId (JobStatus.t * option graph);
  queued_jobs : gmap JobId (string * N);
  running_jobs : gmap JobId ExtendedJobStatus;
  (** the events sent, and the notifications pushed to subscribers *)
  job_events : list JobStateEvent;
  notifications : list (nat * JobStatus.t);
}.

Definition new_job_state (scheduler : string) : InMemoryJobState :=
  mkJobState scheduler ∅ ∅ ∅ [] [].

Implicit Types (st : InMemoryJobState) (job : JobId).

Definition set_completed x st : InMemoryJobState :=
  mkJobState (scheduler st) x (queued_jobs st) (running_jobs st) (job_events st)
    (notifications st).
Definition set_queued x st : InMemoryJobState :=
  mkJobState (scheduler st) (completed_jobs st) x (running_jobs st) (job_events st)
    (notifications st).
Definition set_running x st : InMemoryJobState :=
  mkJobState (scheduler st) (completed_jobs st) (queued_jobs st) x (job_events st)
    (notifications st).
Definition send_event ev st : InMemoryJobState :=
  mkJobState (scheduler st) (completed_jobs st) (queued_jobs st) (running_jobs st)
    (job_events st ++ [ev]) (notifications st).

(** [update_subscribers]: a full channel loses the notification, which is what
    the flag [full] says of the channel. *)
Definition update_subscribers (full : nat → bool) (info : ExtendedJobStatus)
    (status : JobStatus.t) st : InMemoryJobState :=
  match subscriber info with
  | Some ch =>
      if full ch then st
      else mkJobState (scheduler st) (completed_jobs st) (queued_jobs st) (running_jobs st)
             (job_events st) (notifications st ++ [(ch, status)])
  | None => st
  end.

(** ** Methods *)

Definition accept_job job (job_name : string) (queued_at : N) st : InMemoryJobState :=
  set_queued (<[job := (job_name, queued_at)]> (queued_jobs st)) st.

Definition pending_job_number st : nat := size (queued_jobs st).

Definition submit_job job (g : graph) (sub : option nat) st
  : result unit * list InMemoryJobState :=
  match queued_jobs st !! job with
  | Some _ =>
      let status := mkExtended (StaticExecutionGraph.status g) sub in
      let st1 := set_running (<[job := status]> (running_jobs st)) st in
      let st2 := set_queued (delete job (queued_jobs st1)) st1 in
      let st3 := send_event (JobAcquired job (scheduler st2)) st2 in
      (Ok tt, [st; st1; st2; st3])
  | None =>
      (Err (Internal (Format "Failed to submit job {job_id}, not found in queued jobs"
                        [AStr job])), [st])
  end.

Definition get_job_status job st : option JobStatus.t :=
  match queued_jobs st !! job with
  | Some (job_name, queued_at) =>
      Some (JobStatus.mk job job_name (Some (Job_Queued queued_at)))
  | None =>
      match running_jobs st !! job with
      | Some info => Some (ext_status info)
      | None =>
          match completed_jobs st !! job with
          | Some (status, _) => Some status
          | None => None
          end
      end
  end.

Definition get_execution_graph job st : option graph :=
  match completed_jobs st !! job with Some (_, Some g) => Some g | _ => None end.

Definition try_acquire_job (_ : JobId) (st : InMemoryJobState) : option graph := None.

Definition is_final (status : JobStatus.t) : bool :=
  match JobStatus.status status with
  | Some (Job_Successful _ _ _ _) | Some (Job_Failed _ _ _ _) => true
  | _ => false
  end.

Definition save_job (full : nat → bool) job (g : graph) st
  : result unit * list InMemoryJobState :=
  let status := StaticExecutionGraph.status g in
  if is_final status then
    let st1 :=
      match running_jobs st !! job with
      | Some info =>
          update_subscribers full info status (set_running (delete job (running_jobs st)) st)
      | None => st
      end in
    let st2 := set_completed (<[job := (status, Some g)]> (completed_jobs st1)) st1 in
    (Ok tt, [st; st1; st2; send_event (JobStateUpdated job status) st2])
  else
    match running_jobs st !! job with
    | Some info =>
        let info' := mkExtended status (subscriber info) in
        let st1 := update_subscribers full info' status
                     (set_running (<[job := info']> (running_jobs st)) st) in
        (Ok tt, [st; st1; send_event (JobStateUpdated job status) st1])
    | None =>
        (Err (Internal (Format "scheduler state can't find job: {}" [AStr job])), [st])
    end.

Definition fail_unscheduled_job (now : N) job (reason : message) st
  : result unit * list InMemoryJobState :=
  match queued_jobs st !! job with
  | Some (job_name, queued_at) =>
      let st1 := set_queued (delete job (queued_jobs st)) st in
      let status := JobStatus.mk job job_name (Some (Job_Failed reason queued_at 0 now)) in
      let st2 := set_completed (<[job := (status, None)]> (completed_jobs st1)) st1 in
      (Ok tt, [st; st1; st2; send_event (JobStateUpdated job status) st2])
  | None =>
      (Err (Internal (Format
         "Could not fail unscheduler job {job_id}, job not found in queued jobs"
         [AStr job])), [st])
  end.

Definition remove_job job st : InMemoryJobState :=
  set_completed (delete job (completed_jobs st)) st.

Definition get_jobs st : gset JobId := dom (completed_jobs st).
Definition get_all_jobs st : gset JobId :=
  dom (queued_jobs st) ∪ dom (running_jobs st) ∪ dom (completed_jobs st).

Definition create_or_update_session (session_id : string) st : InMemoryJobState :=
  send_event (SessionAccessed session_id) st.
Definition remove_session_events (session_id : string) st : InMemoryJobState :=
  send_event (SessionRemoved session_id) st.

(** ** Steps of the job state *)

Definition final_state (r : result unit * list InMemoryJobState) st : InMemoryJobState :=
  default st (last r.2).

(** The calls the scheduler makes: it accepts each job id once. *)
Inductive job_step : InMemoryJobState → InMemoryJobState → Prop :=
| Job_accept job name at_ st :
    get_job_status job st = None → job_step st (accept_job job name at_ st)
| Job_submit job g sub st : job_step st (final_state (submit_job job g sub st) st)
| Job_save full job g st :
    job ∉ dom (queued_jobs st) → job_step st (final_state (save_job full job g st) st)
| Job_fail now job reason st :
    job_step st (final_state (fail_unscheduled_job now job reason st) st)
| Job_remove job st : job_step st (remove_job job st).

(** Where a job is. *)
Inductive phase : Type := PAbsent | PQueued | PRunning | PCompleted.

Definition phase_of job st : phase :=
  match queued_jobs st !! job, running_jobs st !! job, completed_jobs st !! job with
  | Some _, _, _ => PQueued
  | None, Some _, _ => PRunning
  | None, None, Some _ => PCompleted
  | None, None, None => PAbsent
  end.

(** A job is in one of the three maps at most. *)
Definition one_place st : Prop :=
  ∀ job, (is_Some (queued_jobs st !! job) → running_jobs st !! job = None ∧
                                            completed_jobs st !! job = None) ∧
         (is_Some (running_jobs st !! job) → completed_jobs st !! job = None).

Lemma update_subscribers_maps full info status st :
  queued_jobs (update_subscribers full info status st) = queued_jobs st ∧
  running_jobs (update_subscribers full info status st) = running_jobs st ∧
  completed_jobs (update_subscribers full info status st) = completed_jobs st.
Proof. unfold update_subscribers. by repeat case_match. Qed.

Ltac by_places :=
  repeat case_decide; subst;
  repeat match goal with E : _ !! _ = _ |- _ => rewrite E in * end;
  naive_solver.

Lemma job_step_one_place st st' : job_step st st' → one_place st → one_place st'.
Proof.
  destruct 1 as [job name at_ st Hnone|job g sub st|full job g st Hq|now job reason st|job st];
    intros Ho k; destruct (Ho k) as [Hq1 Hr1].
  - unfold get_job_status in Hnone. simpl.
    destruct (queued_jobs st !! job) as [[]|] eqn:E1; [done|].
    destruct (running_jobs st !! job) eqn:E2; [done|].
    destruct (completed_jobs st !! job) as [[]|] eqn:E3; [done|].
    rewrite lookup_insert. by_places.
  - unfold submit_job. destruct (queued_jobs st !! job) as [q|] eqn:E; [|by apply Ho]. simpl.
    destruct (Ho job) as [Hj _]. rewrite E in Hj. destruct Hj as [Hjr Hjc]; [done|].
    rewrite lookup_insert, lookup_delete. by_places.
  - apply not_elem_of_dom in Hq. unfold save_job.
    destruct (is_final (StaticExecutionGraph.status g)).
    + destruct (running_jobs st !! job) as [info|] eqn:E; simpl.
      * destruct (update_subscribers_maps full info (StaticExecutionGraph.status g)
          (set_running (delete job (running_jobs st)) st)) as (-> & -> & ->). simpl.
        rewrite lookup_insert, lookup_delete. by_places.
      * rewrite lookup_insert. by_places.
    + destruct (running_jobs st !! job) as [info|] eqn:E; [|by apply Ho].
      cbn [final_state last snd from_option default].
      match goal with |- context [update_subscribers ?a ?b ?c ?d] =>
        destruct (update_subscribers_maps a b c d) as (E1 & E2 & E3) end.
      simpl. rewrite E1, E2, E3. simpl.
      destruct (Ho job) as [_ Hrj]. rewrite E in Hrj.
      rewrite lookup_insert. by_places.
  - unfold fail_unscheduled_job.
    destruct (queued_jobs st !! job) as [[name at_]|] eqn:E; [|by apply Ho]. simpl.
    destruct (Ho job) as [Hj _]. rewrite E in Hj. destruct Hj as [Hjr Hjc]; [done|].
    rewrite lookup_insert, lookup_delete. by_places.
  - simpl. rewrite lookup_delete. by_places.
Qed.

(** The moves of a job between the maps. *)
Definition phase_step (p p' : phase) : bool :=
  match p, p' with
  | PAbsent, PQueued | PQueued, PRunning | PQueued, PCompleted
  | PRunning, PCompleted | PCompleted, PAbsent | PAbsent, PCompleted => true
  | PAbsent, PAbsent | PQueued, PQueued | PRunning, PRunning | PCompleted, PCompleted => true
  | _, _ => false
  end.

Lemma phase_step_refl p : phase_step p p = true.
Proof. by destruct p. Qed.

Lemma phase_eq job st st' :
  queued_jobs st' !! job = queued_jobs st !! job →
  running_jobs st' !! job = running_jobs st !! job →
  completed_jobs st' !! job = completed_jobs st !! job →
  phase_step (phase_of job st) (phase_of job st') = true.
Proof. intros E1 E2 E3. unfold phase_of. rewrite E1, E2, E3. apply phase_step_refl. Qed.

Lemma save_job_phase full job g st k :
  one_place st → queued_jobs st !! job = None →
  phase_step (phase_of k st) (phase_of k (final_state (save_job full job g st) st)) = true.
Proof.
  intros Ho Hq. unfold save_job. destruct (is_final (StaticExecutionGraph.status g)).
  - destruct (decide (job = k)) as [<-|Hne].
    + unfold phase_of. rewrite Hq.
      destruct (running_jobs st !! job) as [info|] eqn:E; simpl.
      * destruct (update_subscribers_maps full info (StaticExecutionGraph.status g)
          (set_running (delete job (running_jobs st)) st)) as (-> & -> & ->). simpl.
        by rewrite Hq, lookup_delete_eq, lookup_insert_eq.
      * rewrite Hq, E, lookup_insert_eq. by destruct (completed_jobs st !! job).
    + apply phase_eq; destruct (running_jobs st !! job) as [info|]; simpl;
        try (destruct (update_subscribers_maps full info (StaticExecutionGraph.status g)
          (set_running (delete job (running_jobs st)) st)) as (E1 & E2 & E3);
          rewrite ?E1, ?E2, ?E3; simpl);
        by rewrite ?lookup_insert_ne, ?lookup_delete_ne.
  - destruct (running_jobs st !! job) as [info|] eqn:E; [|apply phase_step_refl].
    cbn [final_state last snd from_option default].
    match goal with |- context [update_subscribers ?a ?b ?c ?d] =>
      destruct (update_subscribers_maps a b c d) as (E1 & E2 & E3) end.
    unfold phase_of. simpl. rewrite E1, E2, E3. simpl.
    destruct (decide (job = k)) as [<-|Hne].
    + rewrite Hq, E, lookup_insert_eq. done.
    + rewrite lookup_insert_ne by done. apply phase_step_refl.
Qed.

Lemma job_step_phase st st' job :
  job_step st st' → one_place st → phase_step (phase_of job st) (phase_of job st') = true.
Proof.
  destruct 1 as [j name at_ st Hnone|j g sub st|full j g st Hq|now j reason st|j st]; intros Ho.
  - unfold get_job_status in Hnone. destruct (decide (j = job)) as [->|Hne].
    + unfold phase_of. simpl. rewrite lookup_insert_eq. by repeat case_match.
    + apply phase_eq; simpl; [by rewrite lookup_insert_ne|done..].
  - unfold submit_job. destruct (queued_jobs st !! j) as [q|] eqn:E; [|apply phase_step_refl].
    destruct (decide (j = job)) as [->|Hne].
    + unfold phase_of. simpl. by rewrite E, lookup_insert_eq, lookup_delete_eq.
    + apply phase_eq; simpl; by rewrite ?lookup_insert_ne, ?lookup_delete_ne.
  - apply not_elem_of_dom in Hq. by apply save_job_phase.
  - unfold fail_unscheduled_job.
    destruct (queued_jobs st !! j) as [[name at_]|] eqn:E; [|apply phase_step_refl].
    destruct (Ho j) as [Hj _]. rewrite E in Hj. destruct Hj as [Hjr Hjc]; [done|].
    destruct (decide (j = job)) as [->|Hne].
    + unfold phase_of. simpl. by rewrite E, Hjr, lookup_insert_eq, lookup_delete_eq.
    + apply phase_eq; simpl; by rewrite ?lookup_insert_ne, ?lookup_delete_ne.
  - destruct (Ho job) as [Hq Hr]. destruct (decide (j = job)) as [->|Hne].
    + unfold phase_of. simpl. rewrite lookup_delete_eq. by repeat case_match.
    + apply phase_eq; simpl; by rewrite ?lookup_delete_ne.
Qed.

(** While a job is submitted it can be found at any time. *)
Lemma submit_job_visible job g sub st st' :
  is_Some (queued_jobs st !! job) → st' ∈ (submit_job job g sub st).2 →
  is_Some (get_job_status job st').
Proof.
  unfold submit_job. intros [[name at_] E]. rewrite E. simpl. intros Hin.
  unfold get_job_status. repeat (apply elem_of_cons in Hin as [->|Hin]);
    [..|by apply elem_of_nil in Hin]; simpl;
    rewrite ?E, ?lookup_delete_eq, ?lookup_insert_eq; eauto.
Qed.

(** While a queued job is failed, there is a state in which the job is in none
    of the maps: a reader that comes then is told that there is no such job. *)
Lemma fail_unscheduled_job_gap now job reason st :
  one_place st → is_Some (queued_jobs st !! job) →
  ∃ st', st' ∈ (fail_unscheduled_job now job reason st).2 ∧ get_job_status job st' = None ∧
    is_Some (get_job_status job st) ∧
    is_Some (get_job_status job (final_state (fail_unscheduled_job now job reason st) st)).
Proof.
  intros Ho [[name at_] E]. destruct (Ho job) as [Hq _]. rewrite E in Hq.
  destruct Hq as [Hr Hc]; [done|].
  unfold fail_unscheduled_job. rewrite E. eexists. split; [right; left|].
  unfold get_job_status. simpl.
  rewrite E, lookup_delete_eq, Hr, Hc, lookup_insert_eq. split_and!; eauto.
Qed.

(** Saving the final status of a running job has such a state as well; there the
    task manager answers from its cache, from which it evicts the job later. *)
Lemma save_job_gap full job g st info :
  one_place st → running_jobs st !! job = Some info →
  is_final (StaticExecutionGraph.status g) = true →
  ∃ st', st' ∈ (save_job full job g st).2 ∧ get_job_status job st' = None ∧
    is_Some (get_job_status job st) ∧
    is_Some (get_job_status job (final_state (save_job full job g st) st)).
Proof.
  intros Ho E Hfin. destruct (Ho job) as [Hq Hr]. rewrite E in Hr, Hq.
  assert (queued_jobs st !! job = None) as Hnq.
  { destruct (queued_jobs st !! job); [|done]. by destruct Hq as [? _]. }
  unfold save_job. rewrite Hfin, E. eexists. split; [right; left|].
  destruct (update_subscribers_maps full info (StaticExecutionGraph.status g)
    (set_running (delete job (running_jobs st)) st)) as (E1 & E2 & E3).
  unfold get_job_status. simpl. rewrite E1, E2, E3. simpl.
  rewrite Hnq, E, lookup_delete_eq, Hr, lookup_insert_eq by done. split_and!; eauto.
Qed.
End job_state.
