(* ===== verification/Cluster.v ===== *)
(** * The state of the cluster

    Models [InMemoryClusterState] of
    [ballista/scheduler/src/cluster/memory.rs]: the registered executors, their
    heartbeats and the vcores they offer. *)

From S2P Require Import Prelude Errors Types Stage Graph Binding.

(** [ClusterStateEvent] of [ballista/scheduler/src/cluster/mod.rs] *)
Inductive ClusterStateEvent : Type :=
| RegisteredExecutor (executor_id : string)
| RemovedExecutor (executor_id : string).

(** [executor_status::Status] and the message around it *)
Inductive executor_status : Type :=
| Active (s : string)
| Dead (s : string)
| Unknown (s : string)
| Terminating (s : string).

Record ExecutorStatus : Type := mkExecutorStatus {
  es_status : option executor_status;
}.

(** [executor_metric::Metric] and the message around it *)
Inductive executor_metric : Type :=
| AvailableMemory (n : N)
| TotalMemory (n : N)
| UsedMemory (n : N)
| ProcPhysicalMemory (n : N)
| ProcVirtualMemory (n : N)
| PeakPhysicalMemory (n : N)
| PeakVirtualMemory (n : N)
| MemoryPoolReserved (n : N)
| MemoryPoolSize (n : N)
| AllocatedMemory (n : N).

Record ExecutorMetric : Type := mkExecutorMetric {
  em_metric : option executor_metric;
}.

Module ExecutorHeartbeat.
Record t : Type := mk {
  executor_id : string;
  timestamp : N;
  metrics : list ExecutorMetric;
  status : option ExecutorStatus;
  peak_proc_physical_memory : N;
  peak_proc_virtual_memory : N;
}.
End ExecutorHeartbeat.

Record InMemoryClusterState : Type := mkClusterState {
  available_vcores : gmap string AvailableVcores.t;
  executors : gmap string ExecutorMetadata.t;
  heartbeats : gmap string ExecutorHeartbeat.t;
  (** the events sent *)
  cluster_events : list ClusterStateEvent;
}.

Definition new_cluster_state : InMemoryClusterState := mkClusterState ∅ ∅ ∅ [].

Abbreviation Cl := (M BallistaError InMemoryClusterState).

Definition set_vcores (x : gmap string AvailableVcores.t) (c : InMemoryClusterState)
  : InMemoryClusterState := mkClusterState x (executors c) (heartbeats c) (cluster_events c).
Definition set_heartbeats (x : gmap string ExecutorHeartbeat.t) (c : InMemoryClusterState)
  : InMemoryClusterState :=
  mkClusterState (available_vcores c) (executors c) x (cluster_events c).
Definition add_executor (m : ExecutorMetadata.t) (c : InMemoryClusterState)
  : InMemoryClusterState :=
  mkClusterState (available_vcores c) (<[ExecutorMetadata.id m := m]> (executors c))
    (heartbeats c) (cluster_events c ++ [RegisteredExecutor (ExecutorMetadata.id m)]).

(** ** Executors and heartbeats *)

(** Both branches leave the heartbeat under the id of its executor. *)
Definition save_executor_heartbeat (hb : ExecutorHeartbeat.t) : Cl unit :=
  mmodify (λ c, set_heartbeats (<[ExecutorHeartbeat.executor_id hb := hb]> (heartbeats c)) c).

Definition register_executor (now_secs : N) (metadata : ExecutorMetadata.t)
    (spec : ExecutorData.t) : Cl unit := λ c,
  let executor_id := ExecutorMetadata.id metadata in
  if bool_decide (ExecutorData.executor_id spec ≠ executor_id) then
    (Err (Configuration (Format "executor data id {} does not match metadata id {executor_id}"
                           [AStr (ExecutorData.executor_id spec); AStr executor_id])), c)
  else
    match executors c !! executor_id with
    | Some _ =>
        (Err (Configuration (Format "executor_id {executor_id} is already registered"
                               [AStr executor_id])), c)
    | None =>
        (save_executor_heartbeat
           (ExecutorHeartbeat.mk executor_id now_secs []
              (Some (mkExecutorStatus (Some (Active String.EmptyString)))) 0 0) ;;;
         mmodify (λ c, set_vcores
           (<[executor_id := AvailableVcores.mk executor_id
                (ExecutorData.available_vcores spec)]> (available_vcores c)) c))
          (add_executor metadata c)
    end.

Definition save_executor_metadata (now_secs : N) (metadata : ExecutorMetadata.t) : Cl unit :=
  λ c,
  let executor_id := ExecutorMetadata.id metadata in
  let heartbeat := ExecutorHeartbeat.mk executor_id now_secs [] None 0 0 in
  match executors c !! executor_id with
  | Some known =>
      if bool_decide (known ≠ metadata) then
        (Err (Configuration (Format "executor_id {executor_id} is already registered"
                               [AStr executor_id])), c)
      else save_executor_heartbeat heartbeat c
  | None => save_executor_heartbeat heartbeat (add_executor metadata c)
  end.

Definition get_executor_metadata (executor_id : string) (c : InMemoryClusterState)
  : result ExecutorMetadata.t :=
  match executors c !! executor_id with
  | Some m => Ok m
  | None =>
      Err (Internal (Format "Not executor with ID {executor_id} found" [AStr executor_id]))
  end.

Definition remove_executor (executor_id : string) (c : InMemoryClusterState)
  : InMemoryClusterState :=
  mkClusterState (delete executor_id (available_vcores c)) (delete executor_id (executors c))
    (delete executor_id (heartbeats c)) (cluster_events c ++ [RemovedExecutor executor_id]).

Definition executor_heartbeats (c : InMemoryClusterState) : gmap string ExecutorHeartbeat.t :=
  heartbeats c.
Definition get_executor_heartbeat (executor_id : string) (c : InMemoryClusterState)
  : option ExecutorHeartbeat.t := heartbeats c !! executor_id.

(** ** Vcores *)

Definition u32_add (a b : N) : N := ((a + b) `mod` 2 ^ 32)%N.

Definition add_increment (m : gmap string N) (slot : string * N) : gmap string N :=
  <[slot.1 := u32_add (default 0%N (m !! slot.1)) slot.2]> m.

(** The vcores to give back, per executor *)
Definition increments (slots : list (string * N)) : gmap string N :=
  foldl add_increment ∅ slots.

(** [unbind_tasks]: the order of the increments does not matter, as each is for
    another executor. *)
Definition unbind_tasks (slots : list (string * N)) (c : InMemoryClusterState)
  : InMemoryClusterState :=
  set_vcores
    (map_imap (λ id data,
       Some match increments slots !! id with
            | Some n =>
                AvailableVcores.mk (AvailableVcores.executor_id data)
                  (u32_add (AvailableVcores.vcores data) n)
            | None => data
            end) (available_vcores c)) c.

Section bind.
Context `{PlanOps} `{Payload} `{PrecisionOps} `{MapOrder} `{!BindOps}.

(** A policy supplied by a user ([DistributionPolicy]): a function of the budgets
    and the jobs, both of which it may change. *)
Record DistributionPolicy : Type := mkDistributionPolicy {
  policy_name : string;
  policy_bind : list AvailableVcores.t → list (JobId * JobInfoCache.t) →
    outcome DataFusionError (list BoundTask) * list (JobId * JobInfoCache.t)
      * list AvailableVcores.t;
}.

Inductive TaskDistributionPolicy : Type :=
| Bias
| RoundRobin
| Custom (policy : DistributionPolicy).

(** The order in which the map lists its values. *)
Class ValueOrder : Type := {
  iter_values : gmap string AvailableVcores.t → list AvailableVcores.t;
  iter_values_perm m : iter_values m ≡ₚ (map_to_list m).*2;
}.
Context `{ValueOrder}.

Definition offered (only : option (gset string)) (data : AvailableVcores.t) : bool :=
  (0 <? AvailableVcores.vcores data)%N &&
  match only with
  | Some ids => bool_decide (AvailableVcores.executor_id data ∈ ids)
  | None => true
  end.

(** The budgets are references into the map: what the binding leaves in them is
    in the map. Each entry carries its key (see [vcores_keyed]). *)
Definition write_back (budgets : list AvailableVcores.t)
    (m : gmap string AvailableVcores.t) : gmap string AvailableVcores.t :=
  foldl (λ m a, <[AvailableVcores.executor_id a := a]> m) m budgets.

(** The result of a round of a built-in policy; [None] is a round cut short by
    its fuel. *)
Definition round_outcome (r : exit * list (JobId * JobInfoCache.t) * binder)
  : option (result (list BoundTask)) * list (JobId * JobInfoCache.t)
      * list AvailableVcores.t :=
  let '(e, jobs, b) := r in
  (match e with
   | Cut => None
   | Panicked => Some Panic
   | _ => Some (Ok (b_tasks b))
   end, jobs, b_budgets b).

Definition bind_schedulable_tasks (now : N) (distribution : TaskDistributionPolicy)
    (jobs : list (JobId * JobInfoCache.t)) (only : option (gset string))
    (c : InMemoryClusterState)
  : option (result (list BoundTask)) * list (JobId * JobInfoCache.t) * InMemoryClusterState :=
  let budgets := filter (λ a, offered only a = true) (iter_values (available_vcores c)) in
  let '(r, jobs', budgets') :=
    match distribution with
    | Bias => round_outcome (bind_task_bias (λ _, false) now budgets jobs)
    | RoundRobin => round_outcome (bind_task_round_robin (λ _, false) now budgets jobs)
    | Custom policy =>
        let '(o, jobs', budgets') := policy_bind policy budgets jobs in
        (Some match o with
              | Ok tasks => Ok tasks
              | Err e => Err (ballista_of_datafusion e)
              | Panic => Panic
              end, jobs', budgets')
    end in
  (r, jobs', set_vcores (write_back budgets' (available_vcores c)) c).
End bind.
