(* ===== verification/ClusterFacts.v ===== *)
(** * Vcores of the cluster

    The bookkeeping of [InMemoryClusterState]: the entries of the three maps
    carry their keys, and giving back the vcores of the tasks of a binding round
    restores what the executors offered before it. *)

From S2P Require Import Prelude Errors Types Stage StageFacts StageSteps Graph GraphSteps.
From S2P Require Import GraphFacts Binding BindingFacts Cluster.

(** ** Sums of slots *)

Fixpoint slots_of (e : string) (slots : list (string * N)) : N :=
  match slots with
  | [] => 0
  | s :: slots' => (if bool_decide (s.1 = e) then s.2 else 0) + slots_of e slots'
  end%N.

Lemma slots_of_app e l1 l2 : slots_of e (l1 ++ l2) = (slots_of e l1 + slots_of e l2)%N.
Proof. induction l1 as [|s l1 IH]; simpl; [done|]. rewrite IH. lia. Qed.

(** The increments are the sums, modulo the width of the counter. *)
Lemma increments_sum e slots :
  default 0%N (increments slots !! e) = (slots_of e slots `mod` 2 ^ 32)%N.
Proof.
  unfold increments. induction slots as [|s slots IH] using rev_ind; [done|].
  rewrite foldl_app, slots_of_app. simpl. unfold add_increment at 1.
  case_bool_decide as Hs.
  - rewrite Hs, lookup_insert_eq. simpl. unfold u32_add. rewrite IH.
    rewrite N.add_0_r, N.Div0.add_mod_idemp_l. done.
  - rewrite lookup_insert_ne by done. by rewrite IH, !N.add_0_r.
Qed.

Lemma u32_add_exact a b : is_u32 (a + b) → u32_add a b = (a + b)%N.
Proof. intros Hab. unfold u32_add. by apply N.mod_small. Qed.

(** ** Entries carry their keys *)

Record cluster_wf (c : InMemoryClusterState) : Prop := {
  vcores_keyed : ∀ id a, available_vcores c !! id = Some a → AvailableVcores.executor_id a = id;
  vcores_u32 : ∀ id a, available_vcores c !! id = Some a → is_u32 (AvailableVcores.vcores a);
  executors_keyed : ∀ id m, executors c !! id = Some m → ExecutorMetadata.id m = id;
  heartbeats_keyed : ∀ id h, heartbeats c !! id = Some h → ExecutorHeartbeat.executor_id h = id;
  (** an executor that offers vcores is registered and was heard of *)
  vcores_registered : dom (available_vcores c) ⊆ dom (executors c);
  registered_heard : dom (executors c) ⊆ dom (heartbeats c);
}.

Lemma new_cluster_wf : cluster_wf new_cluster_state.
Proof. by split. Qed.

Lemma register_executor_wf now m spec c :
  cluster_wf c → is_u32 (ExecutorData.available_vcores spec) →
  cluster_wf (register_executor now m spec c).2.
Proof.
  intros Hc Hu. unfold register_executor. case_bool_decide; [done|].
  destruct (executors c !! ExecutorMetadata.id m) eqn:E; [done|].
  destruct Hc as [H1 H2 H3 H4 H5 H6]. split; simpl.
  - intros id a [[<- <-]|[_ ?]]%lookup_insert_Some; [done|by apply H1].
  - intros id a [[<- <-]|[_ ?]]%lookup_insert_Some; [done|by eapply H2].
  - intros id a [[<- <-]|[_ ?]]%lookup_insert_Some; [done|by apply H3].
  - intros id a [[<- <-]|[_ ?]]%lookup_insert_Some; [done|by apply H4].
  - rewrite !dom_insert_L. set_solver.
  - rewrite !dom_insert_L. set_solver.
Qed.

Lemma save_executor_metadata_wf now m c :
  cluster_wf c → cluster_wf (save_executor_metadata now m c).2.
Proof.
  intros [H1 H2 H3 H4 H5 H6]. unfold save_executor_metadata.
  destruct (executors c !! ExecutorMetadata.id m) as [known|] eqn:E.
  - case_bool_decide; simpl; [done|]. split; simpl; try done.
    + intros id a [[<- <-]|[_ ?]]%lookup_insert_Some; [done|by apply H4].
    + rewrite dom_insert_L. set_solver.
  - split; simpl; try done.
    + intros id a [[<- <-]|[_ ?]]%lookup_insert_Some; [done|by apply H3].
    + intros id a [[<- <-]|[_ ?]]%lookup_insert_Some; [done|by apply H4].
    + rewrite dom_insert_L. set_solver.
    + rewrite !dom_insert_L. set_solver.
Qed.

Lemma save_executor_heartbeat_wf hb c :
  cluster_wf c → cluster_wf (save_executor_heartbeat hb c).2.
Proof.
  intros [H1 H2 H3 H4 H5 H6]. split; simpl; try done.
  - intros id a [[<- <-]|[_ ?]]%lookup_insert_Some; [done|by apply H4].
  - rewrite dom_insert_L. set_solver.
Qed.

Lemma remove_executor_wf id c : cluster_wf c → cluster_wf (remove_executor id c).
Proof.
  intros [H1 H2 H3 H4 H5 H6]. split; simpl.
  - intros k a [_ ?]%lookup_delete_Some. by apply H1.
  - intros k a [_ ?]%lookup_delete_Some. by eapply H2.
  - intros k a [_ ?]%lookup_delete_Some. by apply H3.
  - intros k a [_ ?]%lookup_delete_Some. by apply H4.
  - rewrite !dom_delete_L. set_solver.
  - rewrite !dom_delete_L. set_solver.
Qed.

(** [unbind_tasks] adds to each known executor what it is due. *)
Lemma unbind_lookup slots c id a' :
  (∀ a, available_vcores c !! id = Some a → is_u32 (AvailableVcores.vcores a)) →
  available_vcores (unbind_tasks slots c) !! id = Some a' ↔
  ∃ a, available_vcores c !! id = Some a ∧
       a' = AvailableVcores.mk (AvailableVcores.executor_id a)
              (u32_add (AvailableVcores.vcores a) (slots_of id slots)).
Proof.
  intros Hu. simpl. rewrite map_lookup_imap.
  destruct (available_vcores c !! id) as [a|] eqn:Ha; simpl; [|naive_solver].
  assert (match increments slots !! id with
    | Some n => AvailableVcores.mk (AvailableVcores.executor_id a)
                  (u32_add (AvailableVcores.vcores a) n)
    | None => a
    end = AvailableVcores.mk (AvailableVcores.executor_id a)
            (u32_add (AvailableVcores.vcores a) (slots_of id slots))) as ->; [|naive_solver].
  pose proof (increments_sum id slots) as Hs. unfold u32_add.
  destruct (increments slots !! id) as [n|]; simpl in Hs.
  - by rewrite Hs, N.Div0.add_mod_idemp_r.
  - rewrite <-(N.Div0.add_mod_idemp_r (AvailableVcores.vcores a)), <-Hs, N.add_0_r.
    rewrite N.mod_small by (by apply Hu). by destruct a.
Qed.

Lemma unbind_tasks_wf slots c : cluster_wf c → cluster_wf (unbind_tasks slots c).
Proof.
  intros Hc. pose proof Hc as [H1 H2 H3 H4 H5 H6]. split; try done.
  - intros id a (a0 & Ha0 & ->)%unbind_lookup; [|by eauto]. simpl. by apply H1.
  - intros id a (a0 & Ha0 & ->)%unbind_lookup; [|by eauto]. simpl.
    unfold is_u32, u32_add. apply N.mod_lt. lia.
  - etrans; [|exact H5]. intros id [a Ha]%elem_of_dom.
    apply unbind_lookup in Ha as (a0 & Ha0 & _); [|by eauto]. by eapply elem_of_dom_2.
Qed.

(** ** A binding round *)

Abbreviation ids_of := (fmap (M:=list) AvailableVcores.executor_id).

Lemma budget_of_absent e l : e ∉ ids_of l → budget_of e l = 0%N.
Proof.
  induction l as [|a l IH]; simpl; [done|]. intros [Hne Hl]%not_elem_of_cons.
  rewrite bool_decide_false by congruence. by rewrite IH.
Qed.

Lemma budget_of_unique l a :
  NoDup (ids_of l) → a ∈ l →
  budget_of (AvailableVcores.executor_id a) l = AvailableVcores.vcores a.
Proof.
  induction l as [|b l IH]; simpl; intros Hnd Ha; [by apply elem_of_nil in Ha|].
  apply NoDup_cons in Hnd as [Hb Hnd]. apply elem_of_cons in Ha as [->|Ha].
  - rewrite bool_decide_true by done. rewrite budget_of_absent by done. lia.
  - rewrite bool_decide_false; [by rewrite IH|].
    intros Heq. apply Hb. rewrite Heq. by apply list_elem_of_fmap_2.
Qed.

Lemma write_back_lookup l m id :
  NoDup (ids_of l) →
  write_back l m !! id =
    match list_find (λ a, AvailableVcores.executor_id a = id) l with
    | Some (_, a) => Some a
    | None => m !! id
    end.
Proof.
  unfold write_back. revert m. induction l as [|b l IH]; intros m Hnd; [done|].
  simpl in Hnd. apply NoDup_cons in Hnd as [Hb Hnd]. simpl. rewrite IH by done.
  case_decide as Hid.
  - destruct (list_find _ l) as [[i a]|] eqn:Hf.
    + apply list_find_Some in Hf as (Ha & Hida & _). destruct Hb. rewrite Hid, <-Hida.
      apply list_elem_of_fmap_2. by eapply list_elem_of_lookup_2.
    + subst. by rewrite lookup_insert_eq.
  - destruct (list_find _ l) as [[i a]|]; simpl; [done|].
    by rewrite lookup_insert_ne.
Qed.

Section round.
Context `{PlanOps} `{Payload} `{PrecisionOps} `{MapOrder} `{!BindOps} `{!ValueOrder}.
Set Default Proof Using "All".

(** The vcores a task gives back when it ends. *)
Definition task_slots (tasks : list BoundTask) : list (string * N) :=
  (λ t, (t.1, TaskDescription.vcores_consumed t.2)) <$> tasks.

Lemma slots_consumed e tasks : slots_of e (task_slots tasks) = consumed_on e tasks.
Proof. induction tasks as [|t tasks IH]; simpl; [done|]. by rewrite IH. Qed.

Lemma budgets_nodup only c :
  cluster_wf c →
  NoDup (ids_of (filter (λ a, offered only a = true) (iter_values (available_vcores c)))).
Proof.
  intros Hc. assert (NoDup (ids_of (iter_values (available_vcores c)))) as Hnd.
  { rewrite iter_values_perm. rewrite <-list_fmap_compose.
    rewrite (list_fmap_ext (AvailableVcores.executor_id ∘ snd) fst
      (map_to_list (available_vcores c))); [apply NoDup_fst_map_to_list|].
    intros i [id a] Hi. simpl. eapply vcores_keyed; [done|].
    by apply elem_of_map_to_list, (list_elem_of_lookup_2 _ i). }
  induction (iter_values (available_vcores c)) as [|a l IH]; [constructor|].
  simpl in Hnd. apply NoDup_cons in Hnd as [Ha Hnd]. rewrite filter_cons. case_decide; [|auto].
  simpl. apply NoDup_cons. split; [|auto].
  intros (a' & Heq & [_ Hin]%list_elem_of_filter)%list_elem_of_fmap.
  apply Ha. rewrite Heq. by apply list_elem_of_fmap_2.
Qed.

Lemma elem_of_iter_values c a :
  cluster_wf c →
  a ∈ iter_values (available_vcores c) ↔
  available_vcores c !! AvailableVcores.executor_id a = Some a.
Proof.
  intros Hc. rewrite iter_values_perm, list_elem_of_fmap. split.
  - intros ([id a'] & -> & Hin%elem_of_map_to_list). simpl.
    by rewrite (vcores_keyed _ Hc _ _ Hin).
  - intros Hin. exists (AvailableVcores.executor_id a, a). split; [done|].
    by apply elem_of_map_to_list.
Qed.

(** The books after a round: per executor, what is left and what the tasks took
    add up to what was there. *)
Record books (only : option (gset string)) (c : InMemoryClusterState)
  (l : list AvailableVcores.t) (tasks : list BoundTask) : Prop := {
  bk_ids : ids_of l ≡ₚ
    ids_of (filter (λ a, offered only a = true) (iter_values (available_vcores c)));
  bk_balance : ∀ e, (budget_of e l + consumed_on e tasks)%N =
    budget_of e (filter (λ a, offered only a = true) (iter_values (available_vcores c)));
}.

Lemma bind_round_books loop inv `{!StageLoop loop inv} if_skip now jobs only c :
  cluster_wf c → Forall job_ok jobs →
  let r := bind_tasks loop if_skip now
    (filter (λ a, offered only a = true) (iter_values (available_vcores c))) jobs in
  books only c (b_budgets r.2) (b_tasks r.2).
Proof.
  intros Hc Hjobs. cbv zeta. set (budgets := filter _ _).
  destruct (bind_tasks_spec loop inv if_skip now budgets jobs) as (_ & Hbal & Hids & _);
    [|done|by split].
  apply Forall_forall. intros a [_ Ha%elem_of_iter_values]%list_elem_of_filter; [|done].
  by eapply vcores_u32.
Qed.

Definition built_in (d : TaskDistributionPolicy) : bool :=
  match d with Custom _ => false | _ => true end.

(** A built-in policy keeps the books and always returns its tasks. *)
Lemma bind_schedulable_books now d jobs only c :
  cluster_wf c → Forall job_ok jobs → built_in d = true →
  let r := bind_schedulable_tasks now d jobs only c in
  ∃ l taken, r.2 = set_vcores (write_back l (available_vcores c)) c ∧
    books only c l taken ∧ r.1.1 = Some (Ok taken).
Proof.
  intros Hc Hj Hd. cbv zeta. unfold bind_schedulable_tasks. set (budgets := filter _ _).
  assert (∀ loop inv, StageLoop loop inv →
    let r := bind_tasks loop (λ _, false) now budgets jobs in
    books only c (b_budgets r.2) (b_tasks r.2) ∧
    (round_outcome r).1.1 = Some (Ok (b_tasks r.2))) as Hround.
  { intros loop inv Hl. split; [by apply (bind_round_books loop inv)|].
    destruct (bind_tasks_spec loop inv (λ _, false) now budgets jobs) as (_ & _ & _ & _ & He);
      [|done|].
    - apply Forall_forall. intros a [_ Ha%elem_of_iter_values]%list_elem_of_filter; [|done].
      by eapply vcores_u32.
    - unfold round_outcome. destruct (bind_tasks _ _ _ _ jobs) as [[e jobs'] b]. simpl in *.
      by destruct He as [[-> _]|[-> _]]. }
  destruct d as [| |p]; [| |done].
  - destruct (Hround _ _ bias_stage_loop) as [Hb He]. unfold bind_task_bias.
    destruct (bind_tasks _ _ _ _ jobs) as [[e jobs'] b]. simpl in *.
    exists (b_budgets b), (b_tasks b). by rewrite He.
  - destruct (Hround _ _ rr_stage_loop) as [Hb He]. unfold bind_task_round_robin.
    destruct (bind_tasks _ _ _ _ jobs) as [[e jobs'] b]. simpl in *.
    exists (b_budgets b), (b_tasks b). by rewrite He.
Qed.

(** The entry of an executor after the round, given what its tasks took. *)
Lemma books_lookup only c l tasks id :
  cluster_wf c → books only c l tasks →
  match available_vcores c !! id with
  | None => write_back l (available_vcores c) !! id = None
  | Some a => ∃ v, write_back l (available_vcores c) !! id
                     = Some (AvailableVcores.mk id v) ∧
                   (v + consumed_on id tasks)%N = AvailableVcores.vcores a
  end.
Proof.
  intros Hc [Hids Hbal]. pose proof (budgets_nodup only c Hc) as Hnd.
  set (budgets := filter _ _) in *. assert (NoDup (ids_of l)) as Hndl by (by rewrite Hids).
  rewrite write_back_lookup by done.
  destruct (list_find (λ a, AvailableVcores.executor_id a = id) l) as [[i a']|] eqn:Hf.
  - apply list_find_Some in Hf as (Ha' & <- & _). set (id := AvailableVcores.executor_id a').
    assert (id ∈ ids_of budgets) as Hin.
    { rewrite <-Hids. apply list_elem_of_fmap_2. by eapply list_elem_of_lookup_2. }
    apply list_elem_of_fmap in Hin as (a & Hid & Ha).
    assert (available_vcores c !! id = Some a) as Hlook.
    { apply list_elem_of_filter in Ha as [_ Ha]. apply elem_of_iter_values in Ha; [|done].
      by rewrite Hid. }
    rewrite Hlook. exists (AvailableVcores.vcores a'). split; [by destruct a'|].
    specialize (Hbal id). rewrite Hid in Hbal at 3. rewrite budget_of_unique in Hbal by done.
    unfold id in Hbal at 1. rewrite budget_of_unique in Hbal; [done|done|].
    by eapply list_elem_of_lookup_2.
  - apply list_find_None in Hf.
    destruct (available_vcores c !! id) as [a|] eqn:Hlook; [|done].
    exists (AvailableVcores.vcores a). pose proof (vcores_keyed _ Hc _ _ Hlook) as Hid.
    split; [rewrite <-Hid; by destruct a|].
    assert (id ∉ ids_of l) as Hnl.
    { intros (a' & Heq & Hin)%list_elem_of_fmap. rewrite Forall_forall in Hf.
      by apply (Hf a' Hin). }
    specialize (Hbal id). rewrite budget_of_absent in Hbal by done.
    rewrite budget_of_absent in Hbal by (by rewrite <-Hids). lia.
Qed.

(** Giving back the vcores of all tasks of the round undoes it. *)
Lemma books_unbind only c l tasks :
  cluster_wf c → books only c l tasks →
  available_vcores (unbind_tasks (task_slots tasks)
    (set_vcores (write_back l (available_vcores c)) c)) = available_vcores c.
Proof.
  intros Hc Hb. apply map_eq. intros id. apply option_eq. intros a'.
  pose proof (books_lookup only c l tasks id Hc Hb) as Hl.
  destruct (available_vcores c !! id) as [a|] eqn:Hlook.
  - destruct Hl as (v & Hv & Hsum). pose proof (vcores_u32 _ Hc _ _ Hlook) as Hu.
    rewrite unbind_lookup; simpl; rewrite Hv.
    + rewrite slots_consumed.
      assert (AvailableVcores.mk id (u32_add v (consumed_on id tasks)) = a) as Ha.
      { rewrite u32_add_exact by (by rewrite Hsum). rewrite Hsum.
        rewrite <-(vcores_keyed _ Hc _ _ Hlook). by destruct a. }
      split.
      * intros (a0 & [= <-] & ->). simpl. by rewrite Ha.
      * intros [= <-]. eexists. split; [done|]. simpl. by rewrite <-Ha.
    + intros a0 [= <-]. simpl. unfold is_u32 in *. lia.
  - rewrite unbind_lookup; simpl; rewrite Hl; [|done]. naive_solver.
Qed.

Lemma books_wf only c l tasks :
  cluster_wf c → books only c l tasks →
  cluster_wf (set_vcores (write_back l (available_vcores c)) c).
Proof.
  intros Hc Hb. pose proof Hc as [_ _ ? ? Hreg ?].
  assert (∀ id a', write_back l (available_vcores c) !! id = Some a' →
    ∃ a v, available_vcores c !! id = Some a ∧ a' = AvailableVcores.mk id v ∧
           (v ≤ AvailableVcores.vcores a)%N) as Hw.
  { intros id a' Ha'. pose proof (books_lookup only c l tasks id Hc Hb) as Hl.
    destruct (available_vcores c !! id) as [a|]; [|congruence].
    destruct Hl as (v & Hv & Hsum). simplify_eq. exists a, v. split_and!; [done..|lia]. }
  split; simpl; try done.
  - by intros id a (? & ? & _ & -> & _)%Hw.
  - intros id a (a0 & v & Ha0 & -> & Hle)%Hw. pose proof (vcores_u32 _ Hc _ _ Ha0).
    unfold is_u32 in *. simpl. lia.
  - intros id [a (a0 & _ & Ha0 & _)%Hw]%elem_of_dom. apply Hreg. by eapply elem_of_dom_2.
Qed.

Lemma bind_round_jobs loop inv `{!StageLoop loop inv} if_skip now jobs only c :
  cluster_wf c → Forall job_ok jobs →
  let r := bind_tasks loop if_skip now
    (filter (λ a, offered only a = true) (iter_values (available_vcores c))) jobs in
  Forall2 same_job jobs r.1.2 ∧
  ∀ e, jobs_held e r.1.2 = (jobs_held e jobs + consumed_on e (b_tasks r.2))%N.
Proof.
  intros Hc Hj. cbv zeta. set (budgets := filter _ _).
  assert (Forall (λ a, is_u32 (AvailableVcores.vcores a)) budgets) as Hu.
  { apply Forall_forall. intros a [_ Ha%elem_of_iter_values]%list_elem_of_filter; [|done].
    by eapply vcores_u32. }
  split; [by apply (bind_tasks_spec loop inv)|]. intros e. by apply (bind_tasks_held loop inv).
Qed.

(** A round of a built-in policy: the tasks it returns hold the vcores that are
    not offered any more. *)
Lemma bind_schedulable_effect now d jobs only c :
  cluster_wf c → Forall job_ok jobs → built_in d = true →
  let r := bind_schedulable_tasks now d jobs only c in
  ∃ tasks, r.1.1 = Some (Ok tasks) ∧ Forall2 same_job jobs r.1.2 ∧
    (∀ e, jobs_held e r.1.2 = (jobs_held e jobs + consumed_on e tasks)%N) ∧
    cluster_wf r.2 ∧
    ∀ id, match available_vcores c !! id with
          | None => available_vcores r.2 !! id = None
          | Some a => ∃ v, available_vcores r.2 !! id = Some (AvailableVcores.mk id v) ∧
                           (v + consumed_on id tasks)%N = AvailableVcores.vcores a
          end.
Proof.
  intros Hc Hj Hd. cbv zeta.
  destruct (bind_schedulable_books now d jobs only c Hc Hj) as (l & tasks & Hr & Hb & Hok);
    [done|].
  exists tasks. split; [done|].
  set (budgets := filter (λ a, offered only a = true) (iter_values (available_vcores c))).
  assert (∀ loop inv, StageLoop loop inv →
    (bind_schedulable_tasks now d jobs only c).1
      = (round_outcome (bind_tasks loop (λ _, false) now budgets jobs)).1 →
    Forall2 same_job jobs (bind_schedulable_tasks now d jobs only c).1.2 ∧
    ∀ e, jobs_held e (bind_schedulable_tasks now d jobs only c).1.2
         = (jobs_held e jobs + consumed_on e tasks)%N) as Hrun.
  { intros loop inv Hl Heq. destruct (bind_round_jobs loop inv (λ _, false) now jobs only c Hc Hj)
      as [HF Hh]. fold budgets in HF, Hh. rewrite Heq.
    assert ((bind_schedulable_tasks now d jobs only c).1.1 = Some (Ok tasks)) as Ht
      by done. rewrite Heq in Ht.
    destruct (bind_tasks loop (λ _, false) now budgets jobs) as [[ex jobs'] b]. simpl in *.
    split; [done|]. destruct ex; simplify_eq; apply Hh. }
  assert (Forall2 same_job jobs (bind_schedulable_tasks now d jobs only c).1.2 ∧
    ∀ e, jobs_held e (bind_schedulable_tasks now d jobs only c).1.2
         = (jobs_held e jobs + consumed_on e tasks)%N) as [HF Hh].
  { destruct d as [| |p]; [| |done].
    - apply (Hrun bias_stage _ bias_stage_loop). unfold bind_schedulable_tasks, bind_task_bias.
      fold budgets. by destruct (round_outcome _) as [[? ?] ?].
    - apply (Hrun rr_stage _ rr_stage_loop). unfold bind_schedulable_tasks, bind_task_round_robin.
      fold budgets. by destruct (round_outcome _) as [[? ?] ?]. }
  split_and!; [done|done|by rewrite Hr; eapply books_wf|].
  intros id. rewrite Hr. simpl. by eapply books_lookup.
Qed.

(** A built-in policy hands tasks to the executors it may use only. *)
Lemma bind_schedulable_placed now d jobs only c tasks :
  cluster_wf c → Forall job_ok jobs → built_in d = true →
  (bind_schedulable_tasks now d jobs (Some only) c).1.1 = Some (Ok tasks) →
  Forall (λ t : BoundTask, t.1 ∈ only) tasks.
Proof.
  intros Hc Hj Hd Hr. unfold bind_schedulable_tasks in Hr. set (budgets := filter _ _) in Hr.
  assert (Forall (λ a, is_u32 (AvailableVcores.vcores a)) budgets) as Hu.
  { apply Forall_forall. intros a [_ Ha%elem_of_iter_values]%list_elem_of_filter; [|done].
    by eapply vcores_u32. }
  assert (∀ loop inv, StageLoop loop inv → Forall (λ t : BoundTask, t.1 ∈ only)
    (b_tasks (bind_tasks loop (λ _, false) now budgets jobs).2)) as Hall.
  { intros loop inv Hl.
    eapply Forall_impl; [by apply (bind_tasks_placed loop inv (λ _, false) now budgets jobs)|].
    intros t (a & -> & [Hoff _]%list_elem_of_filter)%list_elem_of_fmap.
    unfold offered in Hoff. by apply andb_true_iff in Hoff as [_ ?%bool_decide_eq_true]. }
  assert (∀ r, (round_outcome r).1.1 = Some (Ok tasks) → tasks = b_tasks r.2) as Hout.
  { intros [[[] jobs'] b]; simpl; by intros [= ->]. }
  destruct d as [| |p]; [| |done].
  - rewrite (Hout (bind_task_bias (λ _, false) now budgets jobs)).
    + apply (Hall _ _ bias_stage_loop).
    + by destruct (round_outcome _) as [[? ?] ?].
  - rewrite (Hout (bind_task_round_robin (λ _, false) now budgets jobs)).
    + apply (Hall _ _ rr_stage_loop).
    + by destruct (round_outcome _) as [[? ?] ?].
Qed.
End round.
