(* ===== verification/TaskManager.v ===== *)
(** * The task manager

    Models [TaskManager] of [ballista/scheduler/src/state/task_manager.rs]: the
    cache of active jobs in front of the job state, the statuses of tasks, the
    end of jobs, and the preparation of tasks for their executor.

    The graph of a cached job is behind a shared lock; an operation that changes
    it writes it back to the cache ([write_graph]). [succeed_job] and [abort_job]
    are given with the list of the states that other threads can observe, as in
    [JobState]. Planning of a job ([StaticExecutionGraph::new] and its adaptive
    counterpart) enters as the graph it returns. *)

From S2P Require Import Prelude Errors Types Stage Graph LostExecutor.
From S2P Require Import Binding JobState Cluster.
Import StaticExecutionGraph(stages, failed_stage_attempts).

(** [ExecutorSlot] *)
Abbreviation ExecutorSlot := (string * N)%type.

(** The renderings of an error by [{e}] and [{e:?}] *)
Class ErrorText : Type := {
  display : BallistaError → string;
  debug : BallistaError → string;
}.

(** ** Messages to executors *)

Record KeyValuePair : Type := mkKeyValuePair { kv_key : string; kv_value : option string }.

(** What launching asks of a plan: its restriction to a slice of partitions,
    encoded; the output partitions of the slice; the settings to send. *)
Class LaunchOps `{PlanOps} : Type := {
  PlanBytes : Type;
  encode_restricted : Plan → list nat → BallistaError + PlanBytes;
  compute_global_output_partition_ids : Plan → list nat → list nat;
  to_key_value_pairs : SessionConfig → list KeyValuePair;
}.

Module TaskId.
Record t : Type := mk {
  task_id : N;
  task_attempt_num : N;
  global_output_partition_ids : list N;
  vcores_consumed : N;
}.
End TaskId.

Module MultiTaskDefinition.
Record t `{LaunchOps} : Type := mk {
  task_ids : list TaskId.t;
  job_id : JobId;
  stage_id : N;
  stage_attempt_num : N;
  plan : PlanBytes;
  session_id : string;
  launch_time : N;
  props : list KeyValuePair;
}.
Arguments t {_ _}.
End MultiTaskDefinition.

(** The result of a call that does not panic. *)
Definition result_of_sum {A : Type} (r : BallistaError + A) : result A :=
  match r with inl e => Err e | inr a => Ok a end.

(** [JobInfoCache::new] *)
Definition new_job_info `{PlanOps} `{Payload} (g : StaticExecutionGraph.t) : JobInfoCache.t :=
  JobInfoCache.mk _ _ g (JobStatus.status (StaticExecutionGraph.status g)).

Module JobOverview.
Record t : Type := mk {
  job_id : JobId;
  job_name : string;
  status : JobStatus.t;
  start_time : N;
  end_time : N;
  num_stages : nat;
  completed_stages : nat;
}.

(** [impl From<&ExecutionGraphBox> for JobOverview] *)
Definition of_graph `{PlanOps} `{Payload} (g : StaticExecutionGraph.t) : t :=
  mk (StaticExecutionGraph.job_id g) (StaticExecutionGraph.job_name g)
    (StaticExecutionGraph.status g) (StaticExecutionGraph.start_time g)
    (StaticExecutionGraph.end_time g) (stage_count g) (Graph.completed_stages g).

(** The overview of a job of which only the status is left. *)
Definition of_status (s : JobStatus.t) : t :=
  let '(start_time, end_time) :=
    match JobStatus.status s with
    | Some (Job_Running _ started_at _) => (started_at, 0%N)
    | Some (Job_Successful _ _ started_at ended_at)
    | Some (Job_Failed _ _ started_at ended_at) => (started_at, ended_at)
    | _ => (0%N, 0%N)
    end in
  mk (JobStatus.job_id s) (JobStatus.job_name s) s start_time end_time 0 0.
End JobOverview.

Module TaskManager.
Record t `{PlanOps} `{Payload} : Type := mk {
  state : InMemoryJobState;
  active_job_cache : gmap JobId JobInfoCache.t;
  task_max_failures : nat;
  stage_max_failures : nat;
}.
Arguments t {_ _}.
Section impl.
Context `{PlanOps} `{Payload} `{PrecisionOps} `{MapOrder} `{HashOrder} `{ErrorText}.
Implicit Types (tm : t) (job : JobId).

Definition new (scheduler_id : string) (max_task max_stage : nat) : t :=
  mk _ _ (new_job_state scheduler_id) ∅ max_task max_stage.

Definition set_state (x : InMemoryJobState) tm : t :=
  mk _ _ x (active_job_cache tm) (task_max_failures tm) (stage_max_failures tm).
Definition set_cache (x : gmap JobId JobInfoCache.t) tm : t :=
  mk _ _ (state tm) x (task_max_failures tm) (stage_max_failures tm).

(** The write through the lock of a cached graph. *)
Definition write_graph job (g : StaticExecutionGraph.t) tm : t :=
  set_cache (alter (λ info, JobInfoCache.mk _ _ g (JobInfoCache.status info)) job
               (active_job_cache tm)) tm.

(** ** Queries *)

Definition get_active_execution_graph job tm : option StaticExecutionGraph.t :=
  JobInfoCache.execution_graph <$> active_job_cache tm !! job.

Definition queue_job job (job_name : string) (queued_at : N) tm : t :=
  set_state (accept_job job job_name queued_at (state tm)) tm.

Definition pending_job_number tm : nat := JobState.pending_job_number (state tm).

Definition get_running_job_cache tm : gmap JobId JobInfoCache.t :=
  filter (λ kv, job_is_running kv.2 = true) (active_job_cache tm).

Definition running_job_number tm : nat := size (get_running_job_cache tm).

Definition get_job_status job tm : option JobStatus.t :=
  match get_active_execution_graph job tm with
  | Some g => Some (StaticExecutionGraph.status g)
  | None => JobState.get_job_status job (state tm)
  end.

Definition get_job_execution_graph job tm : option StaticExecutionGraph.t :=
  match get_active_execution_graph job tm with
  | Some g => Some g
  | None => get_execution_graph job (state tm)
  end.

Definition get_job_config job tm : result SessionConfig :=
  match get_job_execution_graph job tm with
  | Some g => Ok (StaticExecutionGraph.session_config g)
  | None => Err (General (Format "Job {job_id} not found" [AStr job]))
  end.

Definition get_available_task_count job tm : nat :=
  match get_active_execution_graph job tm with
  | Some g => available_tasks g
  | None => 0
  end.

(** ** Submission *)

(** [submit_plan]: [planned] is the graph that planning returns. *)
Definition submit_plan (now : N) job (planned : result StaticExecutionGraph.t)
    (subscriber : option nat) tm : result unit * t :=
  match planned with
  | Err e => (Err e, tm)
  | Panic => (Panic, tm)
  | Ok g =>
      let r := submit_job job g subscriber (state tm) in
      let tm := set_state (final_state r (state tm)) tm in
      match r.1 with
      | Ok _ =>
          (Ok tt,
           set_cache (<[job := new_job_info (revive now g).2]> (active_job_cache tm)) tm)
      | o => (o, tm)
      end
  end.

Definition fail_unscheduled_job (now : N) job (reason : message) tm : result unit * t :=
  let r := JobState.fail_unscheduled_job now job reason (state tm) in
  (r.1, set_state (final_state r (state tm)) tm).

(** ** Statuses of tasks *)

(** The statuses by job, in order. *)
Definition statuses_by_job (statuses : list TaskStatus.t) : gmap JobId (list TaskStatus.t) :=
  foldl (λ m ts, <[TaskStatus.job_id ts :=
                     default [] (m !! TaskStatus.job_id ts) ++ [ts]]> m) ∅ statuses.

Definition add_task_vcores (g : StaticExecutionGraph.t) (total : N) (ts : TaskStatus.t) : N :=
  match task_vcores (TaskStatus.stage_id ts) (TaskStatus.task_id ts) g with
  | Some vcores => u32_add total vcores
  | None => total
  end.

Definition sum_vcores_for_statuses (statuses : list TaskStatus.t) tm : N :=
  foldl (λ total kv,
    match get_active_execution_graph kv.1 tm with
    | Some g => foldl (add_task_vcores g) total kv.2
    | None => total
    end) 0%N (iter_entries (statuses_by_job statuses)).

Fixpoint update_jobs (now : N) (executor : ExecutorMetadata.t)
    (updates : list (JobId * list TaskStatus.t)) : M BallistaError t (list QueryStageSchedulerEvent) :=
  match updates with
  | [] => mret []
  | (job, statuses) :: rest =>
      let! events := (λ tm,
        match get_active_execution_graph job tm with
        | Some g =>
            let '(o, g') := update_task_status now executor statuses (task_max_failures tm)
                              (stage_max_failures tm) g in
            (o, write_graph job g' tm)
        | None => (Ok [], tm)
        end) in
      let! others := update_jobs now executor rest in
      mret (events ++ others)
  end.

Definition update_task_statuses (now : N) (executor : ExecutorMetadata.t)
    (statuses : list TaskStatus.t) : M BallistaError t (list QueryStageSchedulerEvent) :=
  update_jobs now executor (iter_entries (statuses_by_job statuses)).

(** ** The end of a job *)

Definition set_job_info_status (status : option job_state) job tm : t :=
  set_cache (alter (λ info, JobInfoCache.mk _ _ (JobInfoCache.execution_graph info) status) job
               (active_job_cache tm)) tm.

Definition remove_active_execution_graph job tm : t :=
  set_cache (delete job (active_job_cache tm)) tm.

(** [persist_terminal_and_evict]: the entry leaves the cache after the snapshot
    was saved, also when saving failed. [full] says which channels of subscribers
    are full (see [JobState]). *)
Definition persist_terminal_and_evict (full : nat → bool) job
    (snapshot : StaticExecutionGraph.t) tm : result unit * list t :=
  let tm1 := set_job_info_status (JobStatus.status (StaticExecutionGraph.status snapshot)) job tm in
  let r := save_job full job snapshot (state tm1) in
  let saved := (λ st, set_state st tm1) <$> r.2 in
  (r.1, tm :: saved ++
        [remove_active_execution_graph job (set_state (final_state r (state tm1)) tm1)]).

Definition succeed_job (full : nat → bool) job tm : result (list nat) * list t :=
  match get_active_execution_graph job tm with
  | Some g =>
      if is_successful g then
        let '(o, tms) := persist_terminal_and_evict full job g tm in
        (let? _ := o in Ok (intermediate_stage_ids g), tms)
      else (Ok [], [tm])
  | None => (Ok [], [tm])
  end.

(** The vcores that the running tasks of an aborted job hold, per executor. *)
Definition freed_vcores (running : list RunningTaskInfo.t) (snapshot : StaticExecutionGraph.t)
  : gmap string N :=
  foldl (λ freed task,
    match task_vcores (RunningTaskInfo.stage_id task) (RunningTaskInfo.task_id task) snapshot with
    | Some vcores => add_increment freed (RunningTaskInfo.executor_id task, vcores)
    | None => freed
    end) ∅ running.

Definition both_failed job (e1 e2 : BallistaError) : BallistaError :=
  General (Format
    "Failed to cancel tasks for job {job_id}: {cancel_error}; failed to persist terminal state: {persist_error}"
    [AStr job; AStr (display e1); AStr (display e2)]).

(** [abort_job]: [cancel_tasks] is the closure of the caller, which works on
    state of its own. *)
Definition abort_job {W : Type} (cancel_tasks : list RunningTaskInfo.t → list ExecutorSlot →
      W → result unit * W)
    (full : nat → bool) (now : N) job (failure_reason : message) tm (w : W)
  : result nat * list t * W :=
  match get_active_execution_graph job tm with
  | None => (Ok 0, [tm], w)
  | Some g =>
      let pending_tasks := available_tasks g in
      let '(running_tasks, snapshot) := abort_running now failure_reason g in
      let tm1 := set_job_info_status (JobStatus.status (StaticExecutionGraph.status snapshot)) job
                   (write_graph job snapshot tm) in
      let freed_slots := iter_entries (freed_vcores running_tasks snapshot) in
      let '(cancelled, w') := cancel_tasks running_tasks freed_slots w in
      let '(persisted, tms) := persist_terminal_and_evict full job snapshot tm1 in
      (match cancelled, persisted with
       | Ok _, Ok _ => Ok pending_tasks
       | Err e, Ok _ | Ok _, Err e => Err e
       | Err e1, Err e2 => Err (both_failed job e1 e2)
       | _, _ => Panic
       end, tm :: tms, w')
  end.

(** ** Progress of a job *)

(** [usize] subtraction; [Panic] is an underflow. *)
Definition usize_sub (a b : nat) : result nat := if b <=? a then Ok (a - b) else Panic.

Definition update_job (full : nat → bool) (now : N) job tm : result nat * t :=
  match get_active_execution_graph job tm with
  | None => (Ok 0, tm)
  | Some g =>
      let curr_available_tasks := available_tasks g in
      let g' := (revive now g).2 in
      let r := save_job full job g' (state tm) in
      let tm' := set_state (final_state r (state tm)) (write_graph job g' tm) in
      (let? _ := r.1 in usize_sub (available_tasks g') curr_available_tasks, tm')
  end.

(** [executor_lost]; [None] is a loop of a graph cut short by its fuel. *)
Fixpoint executor_lost_in (now : N) (e : string) (jobs : list JobId) tm
  : option (result (list RunningTaskInfo.t)) * t :=
  match jobs with
  | [] => (Some (Ok []), tm)
  | job :: rest =>
      match get_active_execution_graph job tm with
      | None => executor_lost_in now e rest tm
      | Some g =>
          let '(o, g') := reset_stages_on_lost_executor (S (graph_weight e g)) now e g in
          let tm' := write_graph job g' tm in
          match o with
          | Some (Ok (reset, tasks)) =>
              match executor_lost_in now e rest tm' with
              | (Some (Ok others), tm'') =>
                  (Some (Ok ((if bool_decide (reset = ∅) then [] else tasks) ++ others)), tm'')
              | r => r
              end
          | Some (Err err) => (Some (Err err), tm')
          | Some Panic => (Some Panic, tm')
          | None => (None, tm')
          end
      end
  end.

Definition executor_lost (now : N) (e : string) tm
  : option (result (list RunningTaskInfo.t)) * t :=
  executor_lost_in now e (iter_entries (active_job_cache tm)).*1 tm.

(** ** Overviews *)

Fixpoint collect_results {A : Type} (l : list (result A)) : result (list A) :=
  match l with
  | [] => Ok []
  | r :: l' => let? a := r in let? rest := collect_results l' in Ok (a :: rest)
  end.

Definition get_running_jobs tm : result (list JobOverview.t) :=
  collect_results ((λ job,
    match get_job_execution_graph job tm with
    | Some g => Ok (JobOverview.of_graph g)
    | None =>
        Err (Internal (Format
          "Error getting job overview, no execution graph found for job {job_id}" [AStr job]))
    end) <$> iter_elements (get_jobs (state tm))).

Definition job_overview job tm : option JobOverview.t :=
  match get_job_execution_graph job tm with
  | Some g => Some (JobOverview.of_graph g)
  | None => JobOverview.of_status <$> JobState.get_job_status job (state tm)
  end.

Definition get_all_jobs tm : list JobOverview.t :=
  omap (λ job, job_overview job tm) (iter_elements (JobState.get_all_jobs (state tm))).

(** ** Launching *)

Section launch.
Context `{!LaunchOps}.

(** The definition of one task of a stage. The fields that the tasks of a stage
    share are those of its first task. *)
Definition multi_task_definition (now : N) (first task : TaskDescription.t)
  : result MultiTaskDefinition.t :=
  let ids := TaskDescription.global_input_partition_ids task in
  let? plan := result_of_sum (encode_restricted (TaskDescription.plan task) ids) in
  Ok (MultiTaskDefinition.mk _ _
        [TaskId.mk (u32_of_len (TaskKey.task_id (TaskDescription.key task)))
           (u32_of_len (TaskDescription.task_attempt task))
           (u32_of_len <$> compute_global_output_partition_ids (TaskDescription.plan task) ids)
           (TaskDescription.vcores_consumed task)]
        (TaskKey.job_id (TaskDescription.key first))
        (u32_of_len (TaskKey.stage_id (TaskDescription.key first)))
        (u32_of_len (TaskDescription.stage_attempt_num first))
        plan (TaskDescription.session_id first) now
        (to_key_value_pairs (TaskDescription.session_config first))).

Definition prepare_multi_task_definition (now : N) (tasks : list TaskDescription.t) tm
  : result (list MultiTaskDefinition.t) :=
  match tasks with
  | [] => Err (General (Lit "Cannot prepare multi task definition for an empty vec"))
  | first :: _ =>
      let job := TaskKey.job_id (TaskDescription.key first) in
      match active_job_cache tm !! job with
      | None =>
          Err (General (Format
            "Cannot prepare multi task definition for job {job_id} which is not in active cache"
            [AStr job]))
      | Some _ => collect_results (multi_task_definition now first <$> tasks)
      end
  end.

(** The loop of [launch_multi_task]: the definitions to send, and the jobs whose
    tasks could not be prepared. *)
Definition prepare_stage (now : N) tm (acc : list MultiTaskDefinition.t * gset JobId)
    (stage_tasks : list TaskDescription.t) : list MultiTaskDefinition.t * gset JobId :=
  match prepare_multi_task_definition now stage_tasks tm with
  | Ok l => (acc.1 ++ l, acc.2)
  | _ =>
      (acc.1, match stage_tasks with
              | [] => acc.2
              | task :: _ => {[TaskKey.job_id (TaskDescription.key task)]} ∪ acc.2
              end)
  end.

(** [launch_multi_task]: [launcher] is the [TaskLauncher], which returns the jobs
    the executor rejects. *)
Definition launch_multi_task
    (launcher : ExecutorMetadata.t → list MultiTaskDefinition.t → BallistaError + gset JobId)
    (now : N) (executor : ExecutorMetadata.t) (tasks : list (list TaskDescription.t)) tm
  : BallistaError + gset JobId :=
  let '(multi_tasks, failed_jobs) := foldl (prepare_stage now tm) ([], ∅) tasks in
  match multi_tasks with
  | [] => inr failed_jobs
  | _ =>
      match launcher executor multi_tasks with
      | inr rejected => inr (failed_jobs ∪ rejected)
      | inl e => inl e
      end
  end.
End launch.
End impl.
End TaskManager.
