(* ===== verification/Executor.v ===== *)
(** * Executors

    Models the part of [executor/src/] that takes tasks and reports them: the bookkeeping
    of running tasks ([executor.rs]), the status of a task ([lib.rs]), the loop that polls
    the scheduler ([execution_loop.rs]), and the server to which tasks are pushed
    ([executor_server.rs]). What runs concurrently is a step of its own: the loop, and each
    task in the phases it goes through.

    Setting up a task calls DataFusion and the engine, which are [EngineOps]; how a task
    ends, and what the network answers, is a label of the step. *)

From stdpp Require Import numbers gmap strings.
From S2P Require Import Prelude Errors Types Binding TaskManager.

#[export] Instance TaskKey_eq_dec : EqDecision TaskKey.t.
Proof. solve_decision. Defined.

#[export] Instance TaskKey_countable : Countable TaskKey.t.
Proof.
  refine (inj_countable' (λ k, (TaskKey.job_id k, TaskKey.stage_id k, TaskKey.task_id k))
            (λ '(j, s, t), TaskKey.mk j s t) _). by intros [].
Defined.

(** What setting up a task needs of DataFusion and of the execution engine *)
Class EngineOps `{Payload} : Type := {
  PlanData : Type;
  TaskRuntime : Type;
  DecodedPlan : Type;
  QueryStage : Type;
  produce_runtime_for_session : string → list KeyValuePair → N → DataFusionError + TaskRuntime;
  decode_plan : TaskRuntime → PlanData → DataFusionError + DecodedPlan;
  create_query_stage_exec :
    JobId → nat → nat → list nat → DecodedPlan → DataFusionError + QueryStage;
  (** [DataFusionError::find_root], and the rendering of an error by [{e:?}] *)
  find_root : DataFusionError → DataFusionError;
  debug_fmt : BallistaError → string;
}.

(** The message of the scheduler *)
Module TaskDefinition.
Record t `{EngineOps} : Type := mk {
  task_id : nat;
  task_attempt_num : nat;
  job_id : JobId;
  stage_id : nat;
  stage_attempt_num : nat;
  plan : PlanData;
  session_id : string;
  launch_time : N;
  props : list KeyValuePair;
  global_output_partition_ids : list nat;
  vcores_consumed : N;
}.
Arguments t {_ _}.

Definition key `{EngineOps} (task : t) : TaskKey.t := TaskKey.mk (job_id task) (stage_id task) (task_id task).
End TaskDefinition.

(** ** The status of a task *)

Section status.
Context `{EngineOps}.

Record TaskExecutionTimes : Type := mkTimes { launched : N; start_exec : N; end_exec : N }.

Record TaskCompletionExtras : Type := mkExtras {
  operator_metrics : option (list OperatorMetricsSet);
  runtime_stats : list RuntimeStatsReport;
  window_state : list WindowStateReport;
  column_stats : list TaskColumnStats.t;
}.

Definition no_extras : TaskCompletionExtras := mkExtras None [] [] [].

(** [FailedTask::from] *)
Definition failed_task (e : BallistaError) : FailedTask :=
  failed_task_of_error find_root debug_fmt (ballista_size e) e.

Definition as_task_status (execution_result : BallistaError + list ShuffleWritePartition.t) (executor_id : string)
    (stage_attempt_num : nat) (key : TaskKey.t) (times : TaskExecutionTimes) (extras : TaskCompletionExtras)
  : TaskStatus.t :=
  TaskStatus.mk _ (u32_of_nat (TaskKey.task_id key)) (TaskKey.job_id key) (u32_of_nat (TaskKey.stage_id key))
    (u32_of_nat stage_attempt_num) (launched times) (start_exec times) (end_exec times)
    (default [] (operator_metrics extras))
    (match execution_result with
     | inr partitions =>
         Some (Successful (SuccessfulTask.mk _ executor_id partitions (column_stats extras)
                             (runtime_stats extras) (window_state extras)))
     | inl e => Some (Failed (failed_task e))
     end).

(** How the future of a task ends: with its result, aborted, or by a panic *)
Inductive execution : Type :=
| Returned (r : DataFusionError + list ShuffleWritePartition.t)
| Aborted
| Panicked (msg : string).

(** The result of [execute_query_stage] *)
Definition execution_result (x : execution) : BallistaError + list ShuffleWritePartition.t :=
  match x with
  | Returned (inr partitions) => inr partitions
  | Returned (inl e) => inl (ballista_of_datafusion e)
  | Aborted => inl Cancelled
  | Panicked msg => inl (Internal (Lit msg))
  end.

(** What is collected when the future has ended *)
Record Collected : Type := mkCollected {
  c_execution : execution;
  c_metrics : list (BallistaError + OperatorMetricsSet);
  c_runtime_stats : list RuntimeStatsReport;
  c_column_stats : list TaskColumnStats.t;
  c_window_state : DataFusionError + list WindowStateReport;
}.

(** A conversion that fails leaves out all metrics. *)
Fixpoint converted_metrics (l : list (BallistaError + OperatorMetricsSet)) : option (list OperatorMetricsSet) :=
  match l with
  | [] => Some []
  | inr m :: l' => cons m <$> converted_metrics l'
  | inl _ :: _ => None
  end.

(** A window state that cannot be collected fails the task. *)
Definition with_window_state (c : Collected)
  : (BallistaError + list ShuffleWritePartition.t) * list WindowStateReport :=
  match execution_result (c_execution c) with
  | inr partitions =>
      match c_window_state c with
      | inr reports => (inr partitions, reports)
      | inl e => (inl (ballista_of_datafusion e), [])
      end
  | inl e => (inl e, [])
  end.

Definition completion_status (executor_id : string) (stage_attempt_num : nat) (key : TaskKey.t)
    (times : TaskExecutionTimes) (c : Collected) : TaskStatus.t :=
  let '(r, window_state) := with_window_state c in
  as_task_status r executor_id stage_attempt_num key times
    (mkExtras (converted_metrics (c_metrics c)) (c_runtime_stats c) window_state (c_column_stats c)).
End status.

(** ** Running tasks *)

(** The handles by which tasks are aborted: the runs they belong to, by the key of the
    task, and the runs that have been told to stop *)
Record Executor : Type := mkExecutor {
  abort_handles : gmap TaskKey.t nat;
  aborted : gset nat;
}.

Definition executor_new : Executor := mkExecutor ∅ ∅.

(** [execute_query_stage] up to the future, and after it *)
Definition begin_execution (run : nat) (key : TaskKey.t) (self : Executor) : Executor :=
  mkExecutor (<[key := run]> (abort_handles self)) (aborted self).

Definition end_execution (key : TaskKey.t) (self : Executor) : Executor :=
  mkExecutor (delete key (abort_handles self)) (aborted self).

Definition cancel_task (key : TaskKey.t) (self : Executor) : bool * Executor :=
  match abort_handles self !! key with
  | Some run => (true, mkExecutor (abort_handles self) ({[run]} ∪ aborted self))
  | None => (false, self)
  end.

(** The server's [cancel_tasks]; no [cancel_task] is an error, so it always says they are. *)
Definition cancel_tasks (keys : list TaskKey.t) (self : Executor) : bool * Executor :=
  (true, foldl (λ s key, (cancel_task key s).2) self keys).

(** [TasksDrainedFuture] is ready. *)
Definition tasks_drained (self : Executor) : bool := bool_decide (abort_handles self = ∅).

Definition active_task_count (self : Executor) : nat := size (abort_handles self).

(** ** The poll loop *)

(** A task that was spawned: before [execute_query_stage], in it, and when its status is
    sent but its permit not given back yet *)
Inductive phase : Type := Spawned | Executing | Releasing.

Module Run.
Record t `{EngineOps} : Type := mk {
  task : TaskDefinition.t;
  stage : QueryStage;
  start_exec_time : N;
  at_phase : phase;
}.
Arguments t {_ _}.
End Run.

(** Where the loop is: before a poll, waiting for the answer to one that offered some vcores
    and carried some statuses, or going through the tasks of an answer *)
Inductive position `{EngineOps} : Type :=
| Waiting
| Polling (num_free_vcores : N) (sent : list TaskStatus.t)
| Receiving (tasks : list TaskDefinition.t).

Record PollLoop `{EngineOps} : Type := mkPollLoop {
  executor_id : string;
  free_vcores : nat;
  next_run : nat;
  runs : gmap nat Run.t;
  task_status_channel : list TaskStatus.t;
  executor : Executor;
  heartbeat_ok : bool;
  loop : position;
}.

Section poll_loop.
Context `{EngineOps}.

(** The loop as it starts; without vcores it panics. *)
Definition poll_loop_new (id : string) (vcores : nat) : outcome BallistaError PollLoop :=
  if vcores =? 0 then Panic else Ok (mkPollLoop _ _ id vcores 0 ∅ [] executor_new false Waiting).

(** [PollWorkParams]: the permits that are free and the statuses of the channel, which
    [sample_tasks_status] empties *)
Definition poll_work_params (s : PollLoop) : N * list TaskStatus.t :=
  (u32_of_len (free_vcores s), task_status_channel s).

Definition send_poll (s : PollLoop) : PollLoop :=
  mkPollLoop _ _ (executor_id s) (free_vcores s) (next_run s) (runs s) [] (executor s) (heartbeat_ok s)
    (Polling (poll_work_params s).1 (poll_work_params s).2).

Definition poll_answered (tasks : list TaskDefinition.t) (s : PollLoop) : PollLoop :=
  mkPollLoop _ _ (executor_id s) (free_vcores s) (next_run s) (runs s) (task_status_channel s) (executor s) true
    (Receiving tasks).

Definition poll_failed (s : PollLoop) : PollLoop :=
  mkPollLoop _ _ (executor_id s) (free_vcores s) (next_run s) (runs s) (task_status_channel s) (executor s) false
    Waiting.

Definition wait (s : PollLoop) : PollLoop :=
  mkPollLoop _ _ (executor_id s) (free_vcores s) (next_run s) (runs s) (task_status_channel s) (executor s)
    (heartbeat_ok s) Waiting.

(** [run_received_task] up to the spawn *)
Definition set_up_task (task : TaskDefinition.t) : BallistaError + QueryStage :=
  match produce_runtime_for_session (TaskDefinition.session_id task) (TaskDefinition.props task)
          (TaskDefinition.vcores_consumed task) with
  | inl e => inl (ballista_of_datafusion e)
  | inr runtime =>
      match decode_plan runtime (TaskDefinition.plan task) with
      | inl e => inl (ballista_of_datafusion e)
      | inr plan =>
          match create_query_stage_exec (TaskDefinition.job_id task) (TaskDefinition.stage_id task)
                  (TaskDefinition.task_id task) (TaskDefinition.global_output_partition_ids task) plan with
          | inl e => inl (ballista_of_datafusion e)
          | inr stage => inr stage
          end
      end
  end.

(** The status of a task that could not be set up *)
Definition set_up_failure (id : string) (start now : N) (task : TaskDefinition.t) (e : BallistaError) : TaskStatus.t :=
  as_task_status (inl e) id (TaskDefinition.task_attempt_num task) (TaskDefinition.key task)
    (mkTimes (TaskDefinition.launch_time task) start now) no_extras.

(** The next task of an answer: it waits for a permit ([None] while there is none), which
    a task that cannot be set up gives back at once. *)
Definition receive_task (start now : N) (task : TaskDefinition.t) (rest : list TaskDefinition.t) (s : PollLoop)
  : option PollLoop :=
  if free_vcores s =? 0 then None
  else
    Some (match set_up_task task with
          | inr stage =>
              mkPollLoop _ _ (executor_id s) (pred (free_vcores s)) (S (next_run s))
                (<[next_run s := Run.mk _ _ task stage start Spawned]> (runs s)) (task_status_channel s)
                (executor s) (heartbeat_ok s) (Receiving rest)
          | inl e =>
              mkPollLoop _ _ (executor_id s) (free_vcores s) (next_run s) (runs s)
                (task_status_channel s ++ [set_up_failure (executor_id s) start now task e])
                (executor s) (heartbeat_ok s) (Receiving rest)
          end).

(** *** The spawned tasks *)

Definition in_phase (p : phase) (r : Run.t) : Run.t :=
  Run.mk _ _ (Run.task r) (Run.stage r) (Run.start_exec_time r) p.

Definition start_run (id : nat) (r : Run.t) (s : PollLoop) : PollLoop :=
  mkPollLoop _ _ (executor_id s) (free_vcores s) (next_run s) (<[id := in_phase Executing r]> (runs s))
    (task_status_channel s) (begin_execution id (TaskDefinition.key (Run.task r)) (executor s)) (heartbeat_ok s) (loop s).

(** The status of a run that has ended *)
Definition run_status (executor_id : string) (now : N) (r : Run.t) (c : Collected) : TaskStatus.t :=
  completion_status executor_id (TaskDefinition.stage_attempt_num (Run.task r)) (TaskDefinition.key (Run.task r))
    (mkTimes (TaskDefinition.launch_time (Run.task r)) (Run.start_exec_time r) now) c.

Definition end_run (now : N) (id : nat) (r : Run.t) (c : Collected) (s : PollLoop) : PollLoop :=
  mkPollLoop _ _ (executor_id s) (free_vcores s) (next_run s) (<[id := in_phase Releasing r]> (runs s))
    (task_status_channel s ++ [run_status (executor_id s) now r c])
    (end_execution (TaskDefinition.key (Run.task r)) (executor s)) (heartbeat_ok s) (loop s).

Definition release_run (id : nat) (s : PollLoop) : PollLoop :=
  mkPollLoop _ _ (executor_id s) (S (free_vcores s)) (next_run s) (delete id (runs s)) (task_status_channel s)
    (executor s) (heartbeat_ok s) (loop s).

Definition cancel_run (key : TaskKey.t) (s : PollLoop) : PollLoop :=
  mkPollLoop _ _ (executor_id s) (free_vcores s) (next_run s) (runs s) (task_status_channel s)
    (cancel_task key (executor s)).2 (heartbeat_ok s) (loop s).

(** *** Steps *)

(** What a step does to tasks and statuses: a task is taken, a poll offers vcores, delivers
    statuses and is answered with tasks, or statuses are lost with a poll that fails *)
Inductive label : Type :=
| Taken (task : TaskDefinition.t)
| Delivered (num_free_vcores : N) (sent : list TaskStatus.t) (tasks : list TaskDefinition.t)
| Dropped (sent : list TaskStatus.t)
| Silent.

(** The steps that go through an answer and run its tasks *)
Inductive work_step : PollLoop → label → PollLoop → Prop :=
| step_receive s start now task rest s' :
    loop s = Receiving (task :: rest) → receive_task start now task rest s = Some s' → work_step s (Taken task) s'
| step_wait s : loop s = Receiving [] → work_step s Silent (wait s)
| step_start s id r :
    runs s !! id = Some r → Run.at_phase r = Spawned → work_step s Silent (start_run id r s)
| step_end s now id r c :
    runs s !! id = Some r → Run.at_phase r = Executing →
    (c_execution c = Aborted → id ∈ aborted (executor s)) →
    work_step s Silent (end_run now id r c s)
| step_release s id r :
    runs s !! id = Some r → Run.at_phase r = Releasing → work_step s Silent (release_run id s).

(** All steps: also those of the polls, and tasks being cancelled *)
Inductive poll_step : PollLoop → label → PollLoop → Prop :=
| step_poll s : loop s = Waiting → poll_step s Silent (send_poll s)
| step_answer s n sent tasks :
    loop s = Polling n sent → poll_step s (Delivered n sent tasks) (poll_answered tasks s)
| step_fail s n sent : loop s = Polling n sent → poll_step s (Dropped sent) (poll_failed s)
| step_cancel s key : poll_step s Silent (cancel_run key s)
| step_work s l s' : work_step s l s' → poll_step s l s'.

Inductive poll_run : PollLoop → list label → PollLoop → Prop :=
| run_nil s : poll_run s [] s
| run_snoc s ls s1 l s2 : poll_run s ls s1 → poll_step s1 l s2 → poll_run s (ls ++ [l]) s2.

(** The steps as functions: which one is taken, and with what clock, answer or outcome *)
Inductive action : Type :=
| Poll | Answer (tasks : list TaskDefinition.t) | Fail_poll | Receive (start now : N) | Wait
| Start (id : nat) | End_ (now : N) (id : nat) (c : Collected) | Release (id : nat) | Cancel (key : TaskKey.t).

Definition may_end (id : nat) (c : Collected) (s : PollLoop) : bool :=
  match c_execution c with Aborted => bool_decide (id ∈ aborted (executor s)) | _ => true end.

Definition perform (a : action) (s : PollLoop) : option (label * PollLoop) :=
  match a, loop s with
  | Poll, Waiting => Some (Silent, send_poll s)
  | Answer tasks, Polling n sent => Some (Delivered n sent tasks, poll_answered tasks s)
  | Fail_poll, Polling n sent => Some (Dropped sent, poll_failed s)
  | Receive start now, Receiving (task :: rest) => pair (Taken task) <$> receive_task start now task rest s
  | Wait, Receiving [] => Some (Silent, wait s)
  | Start id, _ =>
      r ← runs s !! id; match Run.at_phase r with Spawned => Some (Silent, start_run id r s) | _ => None end
  | End_ now id c, _ =>
      r ← runs s !! id;
      match Run.at_phase r with
      | Executing => if may_end id c s then Some (Silent, end_run now id r c s) else None
      | _ => None
      end
  | Release id, _ =>
      r ← runs s !! id; match Run.at_phase r with Releasing => Some (Silent, release_run id s) | _ => None end
  | Cancel key, _ => Some (Silent, cancel_run key s)
  | _, _ => None
  end.

Fixpoint play (actions : list action) (s : PollLoop) : option (list label * PollLoop) :=
  match actions with
  | [] => Some ([], s)
  | a :: actions' => '(l, s1) ← perform a s; '(ls, s2) ← play actions' s1; Some (l :: ls, s2)
  end.

Lemma perform_iff s l s' : poll_step s l s' ↔ ∃ a, perform a s = Some (l, s').
Proof.
  split.
  - intros [s0 Hl|s0 n sent tasks Hl|s0 n sent Hl|s0 key|s0 l0 s1 [s2 start now task rest s3 Hl Hr|s2 Hl|s2 id r Hr Hp|s2 now id r c Hr Hp Ha|s2 id r Hr Hp]].
    + exists Poll. cbn. by rewrite Hl.
    + exists (Answer tasks). cbn. by rewrite Hl.
    + exists Fail_poll. cbn. by rewrite Hl.
    + by exists (Cancel key).
    + exists (Receive start now). cbn. by rewrite Hl, Hr.
    + exists Wait. cbn. by rewrite Hl.
    + exists (Start id). cbn. by rewrite Hr; cbn; rewrite Hp.
    + exists (End_ now id c). cbn. rewrite Hr. cbn. rewrite Hp. unfold may_end.
      destruct (c_execution c); rewrite ?bool_decide_eq_true_2 by auto; done.
    + exists (Release id). cbn. by rewrite Hr; cbn; rewrite Hp.
  - intros [[|tasks| |start now| |id|now id c|id|key] Ha]; cbn in Ha.
    + destruct (loop s) eqn:Hl; simplify_eq/=; by constructor.
    + destruct (loop s) eqn:Hl; simplify_eq/=; by constructor.
    + destruct (loop s) eqn:Hl; simplify_eq/=; by econstructor.
    + destruct (loop s) as [| |[|task rest]] eqn:Hl; try done.
      destruct (receive_task start now task rest s) eqn:Hr; simplify_eq/=. apply step_work. by eapply step_receive.
    + destruct (loop s) as [| |[|task rest]] eqn:Hl; simplify_eq/=. by apply step_work, step_wait.
    + destruct (runs s !! id) as [r|] eqn:Hr; [cbn in Ha|done]. destruct (Run.at_phase r) eqn:Hp; simplify_eq/=. by apply step_work, step_start.
    + destruct (runs s !! id) as [r|] eqn:Hr; [cbn in Ha|done]. destruct (Run.at_phase r) eqn:Hp; simplify_eq/=.
      destruct (may_end id c s) eqn:He; simplify_eq/=. apply step_work, step_end; [done..|]. intros Hc. unfold may_end in He.
      rewrite Hc in He. by apply bool_decide_eq_true in He.
    + destruct (runs s !! id) as [r|] eqn:Hr; [cbn in Ha|done]. destruct (Run.at_phase r) eqn:Hp; simplify_eq/=. by eapply step_work, step_release.
    + simplify_eq. constructor.
Qed.

Lemma run_trans s ls s' l s0 : poll_step s l s0 → poll_run s0 ls s' → poll_run s (l :: ls) s'.
Proof.
  intros Hst Hrun. induction Hrun as [s1|s1 ls s2 l' s3 Hrun IH Hst'].
  - apply (run_snoc s [] s l s1); [constructor|done].
  - rewrite app_comm_cons. eapply run_snoc; [by apply IH|done].
Qed.

Lemma play_run actions s ls s' : play actions s = Some (ls, s') → poll_run s ls s'.
Proof.
  revert s ls. induction actions as [|a actions IH]; cbn; intros s ls Hp; [simplify_eq; constructor|].
  destruct (perform a s) as [[l s1]|] eqn:Ha; [cbn in Hp|done]. destruct (play actions s1) as [[ls' s2]|] eqn:Hr; [cbn in Hp|done].
  simplify_eq. eapply run_trans; [apply perform_iff; by exists a|by apply IH].
Qed.
End poll_loop.

(** ** The executor server *)

Section server.
Context `{EngineOps} `{HashOrder}.

(** Tasks and statuses with the endpoint of the scheduler that launched them *)
Abbreviation CuratorTaskDefinition := (string * (TaskDefinition.t * DecodedPlan))%type.
Abbreviation CuratorTaskStatus := (string * TaskStatus.t)%type.

(** The message of the scheduler, with the tasks it decodes to or the error of decoding it *)
Record LaunchMultiTask : Type := mkLaunchMultiTask {
  multi_job_id : JobId;
  multi_tasks : BallistaError + list (TaskDefinition.t * DecodedPlan);
}.

(** [launch_task] over the tasks as they decode: what goes into the channel before the first
    that cannot be decoded, with which the call fails *)
Fixpoint launch_task (scheduler_endpoint : string) (tasks : list (BallistaError + TaskDefinition.t * DecodedPlan))
  : option BallistaError * list CuratorTaskDefinition :=
  match tasks with
  | [] => (None, [])
  | inl e :: _ => (Some e, [])
  | inr task :: tasks' =>
      let '(r, sent) := launch_task scheduler_endpoint tasks' in (r, (scheduler_endpoint, task) :: sent)
  end.

(** [launch_multi_task]: what goes into the channel of tasks, and the jobs of which
    something could not be decoded *)
Definition launch_multi_task (scheduler_endpoint : string) (messages : list LaunchMultiTask)
  : list CuratorTaskDefinition * gset string :=
  foldl (λ acc m,
    match multi_tasks m with
    | inr tasks => (acc.1 ++ ((λ t, (scheduler_endpoint, t)) <$> tasks), acc.2)
    | inl _ => (acc.1, {[multi_job_id m]} ∪ acc.2)
    end) ([], ∅) messages.

(** [run_task] up to [execute_query_stage]: both calls are made, and the error of the
    first is reported *)
Definition set_up_pushed (task : TaskDefinition.t * DecodedPlan) : BallistaError + QueryStage :=
  let exec :=
    create_query_stage_exec (TaskDefinition.job_id task.1) (TaskDefinition.stage_id task.1)
      (TaskDefinition.task_id task.1) (TaskDefinition.global_output_partition_ids task.1) task.2 in
  let runtime :=
    produce_runtime_for_session (TaskDefinition.session_id task.1) (TaskDefinition.props task.1)
      (TaskDefinition.vcores_consumed task.1) in
  match exec, runtime with
  | inr exec, inr _ => inr exec
  | inl e, _ | _, inl e => inl (ballista_of_datafusion e)
  end.

(** The status that [run_task] sends; [collected] is what the execution gives *)
Definition run_task (executor_id : string) (start now : N) (curator_task : CuratorTaskDefinition) (collected : Collected)
  : CuratorTaskStatus :=
  let task := curator_task.2.1 in
  let times := mkTimes (TaskDefinition.launch_time task) start now in
  (curator_task.1,
   match set_up_pushed curator_task.2 with
   | inr _ =>
       completion_status executor_id (TaskDefinition.stage_attempt_num task) (TaskDefinition.key task) times collected
   | inl e =>
       as_task_status (inl e) executor_id (TaskDefinition.stage_attempt_num task) (TaskDefinition.key task) times
         no_extras
   end).

(** The statuses in the channel, by scheduler *)
Definition curator_task_status_map (fetched : list CuratorTaskStatus) : gmap string (list TaskStatus.t) :=
  foldl (λ m s, <[s.1 := default [] (m !! s.1) ++ [s.2]]> m) ∅ fetched.

(** One round of the reporter: the messages that reach their scheduler. [reached] says for
    an endpoint whether the client connects and the call succeeds. *)
Definition report_statuses (reached : string → bool) (fetched : list CuratorTaskStatus)
  : list (string * list TaskStatus.t) :=
  filter (λ m, reached m.1 = true) (iter_entries (curator_task_status_map fetched)).
End server.

(** *** Heartbeats *)

Definition HEARTBEAT_FAILURE_TERMINATION_THRESHOLD : nat := 5.

(** [heartbeat]: the scheduler of the registration, then the others until one answers *)
Definition heartbeat (registered : bool) (others : list bool) : bool := registered || existsb id others.

(** The loop of the heartbeater over the outcomes of its heartbeats: the consecutive
    failures, or [None] when it has initiated the shutdown *)
Fixpoint heartbeats (consecutive_failures : nat) (outcomes : list bool) : option nat :=
  match outcomes with
  | [] => Some consecutive_failures
  | true :: outcomes' => heartbeats 0 outcomes'
  | false :: outcomes' =>
      if HEARTBEAT_FAILURE_TERMINATION_THRESHOLD <=? S consecutive_failures then None
      else heartbeats (S consecutive_failures) outcomes'
  end.
