(* ===== verification/Scheduler.v ===== *)
(** * The scheduler

    Models [ExecutorManager] of
    [ballista/scheduler/src/state/executor_manager.rs], [SchedulerState] of
    [ballista/scheduler/src/state/mod.rs], the handler of events
    [QueryStageScheduler::on_receive] of
    [ballista/scheduler/src/scheduler_server/query_stage_scheduler.rs], and the
    registration and expiry of executors of
    [ballista/scheduler/src/scheduler_server/mod.rs].

    A handler returns what it leaves for later as a list of effects: the events
    it posts, the futures it spawns and the messages it sends. A spawned future
    that changes the state is a definition of its own. Posting an event succeeds,
    as the loop that handles the event owns the receiver. *)

From S2P Require Import Prelude Errors Types Stage Graph Binding JobState Cluster TaskManager.

(** The settings of [SchedulerConfig] that the scheduler reads. *)
Module SchedulerConfig.
Record t `{PlanOps} `{Payload} : Type := mk {
  (** [scheduling_policy] is [PushStaged] *)
  is_push_staged_scheduling : bool;
  task_distribution : TaskDistributionPolicy;
  finished_job_data_clean_up_interval_seconds : N;
  finished_job_state_clean_up_interval_seconds : N;
  executor_termination_grace_period : N;
  executor_timeout_seconds : N;
  no_executors_grace_period_seconds : N;
}.
Arguments t {_ _}.
End SchedulerConfig.
Import SchedulerConfig(is_push_staged_scheduling, executor_timeout_seconds,
  executor_termination_grace_period).

Inductive WorkAvailableReason : Type :=
| Work_JobSubmitted (job_id : JobId)
| Work_NewStagesRunnable (job_id : JobId).

(** ** What a handler leaves for later *)
Inductive effect `{PlanOps} `{Payload} : Type :=
(** an event posted to the loop *)
| Post (ev : QueryStageSchedulerEvent)
(** a future that plans and submits a job *)
| SpawnSubmit (job_id : JobId) (job_name : string) (ctx : SessionContext)
    (plan : SubmitPlan) (queued_at : N) (subscriber : option nat)
(** a future that launches tasks *)
| SpawnLaunch (tasks : list BoundTask)
(** a future that asks executors to cancel tasks *)
| SpawnCancel (tasks : list RunningTaskInfo.t)
(** futures that clean up the data and the state of a job after a delay *)
| SpawnCleanUpData (job_id : JobId) (remove_stage_ids : list nat) (delay : N)
| SpawnCleanUpState (job_id : JobId) (delay : N)
(** the check for an empty cluster, after the grace period *)
| SpawnNoExecutorCheck (lost_at : N)
(** a future that removes an executor *)
| SpawnRemove (executor_id : string) (reason : message)
(** messages to an executor *)
| SendRemoveJobData (executor_id : string) (job_id : JobId) (remove_stage_ids : list nat)
| SendStop (executor_id : string) (reason : message)
(** a status pushed to a subscriber, and the callback of the embedder *)
| Notify (subscriber : nat) (status : JobStatus.t)
| WorkAvailable (reason : WorkAvailableReason).

(** ** The executor manager *)
Module ExecutorManager.
Record t : Type := mk {
  cluster_state : InMemoryClusterState;
  pending_cleanup_jobs : gmap string (gmap JobId (list nat));
}.

Definition set_cluster (x : InMemoryClusterState) (self : t) : t :=
  mk x (pending_cleanup_jobs self).
Definition set_pending (x : gmap string (gmap JobId (list nat))) (self : t) : t :=
  mk (cluster_state self) x.

(** [get_time_before] of [ballista/core/src/utils.rs] *)
Definition get_time_before (now_secs interval : N) : N := (now_secs - interval)%N.

Definition heartbeat_status (hb : ExecutorHeartbeat.t) : option executor_status :=
  s ← ExecutorHeartbeat.status hb; es_status s.

Section impl.
Context `{PlanOps} `{Payload} `{PrecisionOps} `{MapOrder} `{HashOrder} `{!BindOps}
  `{ValueOrder}.
Context (config : SchedulerConfig.t).
Implicit Types (self : t).

Definition is_active (hb : ExecutorHeartbeat.t) : bool :=
  match heartbeat_status hb with
  | Some (Active _) => true
  | None => negb (is_push_staged_scheduling config)
  | Some _ => false
  end.

Definition is_terminating (hb : ExecutorHeartbeat.t) : bool :=
  match heartbeat_status hb with Some (Terminating _) => true | _ => false end.

Definition get_alive_executors (now_secs : N) self : gset string :=
  let threshold := get_time_before now_secs (executor_timeout_seconds config) in
  dom (filter (λ kv : string * ExecutorHeartbeat.t,
         is_active kv.2 && (threshold <? ExecutorHeartbeat.timestamp kv.2)%N = true)
         (executor_heartbeats (cluster_state self))).

Definition is_expired (now_secs : N) (hb : ExecutorHeartbeat.t) : bool :=
  let last_seen := get_time_before now_secs (executor_timeout_seconds config) in
  let termination_wait :=
    get_time_before now_secs (executor_termination_grace_period config) in
  (is_terminating hb && (ExecutorHeartbeat.timestamp hb <=? termination_wait)%N) ||
  (ExecutorHeartbeat.timestamp hb <=? last_seen)%N.

Definition get_expired_executors (now_secs : N) self : list ExecutorHeartbeat.t :=
  filter (λ hb, is_expired now_secs hb = true)
    (iter_entries (executor_heartbeats (cluster_state self))).*2.

Definition is_dead_executor (executor_id : string) self : bool :=
  match get_executor_heartbeat executor_id (cluster_state self) with
  | None => true
  | Some hb => match heartbeat_status hb with Some (Dead _) => true | _ => false end
  end.

(** [bind_schedulable_tasks]: the jobs come back with the graphs the round left
    behind the locks. [None] is a round cut short by its fuel. *)
Definition bind_schedulable_tasks (now_secs now : N) (running_jobs : gmap JobId JobInfoCache.t)
    self : option (result (list BoundTask)) * list (JobId * JobInfoCache.t) * t :=
  if bool_decide (running_jobs = ∅) then (Some (Ok []), [], self)
  else
    let alive_executors := get_alive_executors now_secs self in
    if bool_decide (alive_executors = ∅) then (Some (Ok []), [], self)
    else
      let '(r, jobs, c) :=
        Cluster.bind_schedulable_tasks now (SchedulerConfig.task_distribution config)
          (iter_entries running_jobs) (Some alive_executors) (cluster_state self) in
      (r, jobs, set_cluster c self).

Definition unbind_tasks (slots : list ExecutorSlot) self : t :=
  set_cluster (Cluster.unbind_tasks slots (cluster_state self)) self.

Definition remove_executor (executor_id : string) self : t :=
  set_cluster (Cluster.remove_executor executor_id (cluster_state self)) self.

(** ** Cleaning up after jobs *)

Definition clean_up_job_data_delayed (job_id : JobId) (interval : N) : list effect :=
  if (interval =? 0)%N then [] else [SpawnCleanUpData job_id [] interval].
Definition clean_up_job_data (job_id : JobId) : list effect := [SpawnCleanUpData job_id [] 0].
Definition clean_up_intermediate_job_data (job_id : JobId) (ids : list nat) : list effect :=
  match ids with [] => [] | _ => [SpawnCleanUpData job_id ids 0] end.

(** The future of the clean up. An executor whose client cannot be reached gets
    no message; which ones these are is an argument. *)
Definition clean_up_job_data_inner (reachable : string → bool) (now_secs : N) (job_id : JobId)
    (remove_stage_ids : list nat) self : t * list effect :=
  foldl (λ acc executor,
    if is_push_staged_scheduling config then
      (acc.1, if reachable executor
              then acc.2 ++ [SendRemoveJobData executor job_id remove_stage_ids] else acc.2)
    else
      (set_pending
         (<[executor := <[job_id := remove_stage_ids]>
              (default ∅ (pending_cleanup_jobs acc.1 !! executor))]>
            (pending_cleanup_jobs acc.1)) acc.1, acc.2))
    (self, []) (iter_elements (get_alive_executors now_secs self)).

Definition drain_pending_cleanup_jobs (executor_id : string) self
  : list (JobId * list nat) * t :=
  match pending_cleanup_jobs self !! executor_id with
  | Some jobs =>
      (iter_entries jobs, set_pending (delete executor_id (pending_cleanup_jobs self)) self)
  | None => ([], self)
  end.
End impl.
End ExecutorManager.

(** ** The state of the scheduler *)
Record SchedulerState `{PlanOps} `{Payload} : Type := mkScheduler {
  task_manager : TaskManager.t;
  executor_manager : ExecutorManager.t;
  (** the flag of [QueryStageScheduler] *)
  no_executor_check_pending : bool;
}.

Section scheduler.
Context `{PlanOps} `{Payload} `{PrecisionOps} `{MapOrder} `{HashOrder} `{!BindOps}
  `{ValueOrder} `{ErrorText} `{!LaunchOps}.
Context (config : SchedulerConfig.t).
(** The launcher, and the channels of subscribers that are full. *)
Context (launcher : ExecutorMetadata.t → list MultiTaskDefinition.t → BallistaError + gset JobId).
Context (full : nat → bool).
Implicit Types (s : SchedulerState).

Definition set_tasks (x : TaskManager.t) s : SchedulerState :=
  mkScheduler _ _ x (executor_manager s) (no_executor_check_pending s).
Definition set_executors (x : ExecutorManager.t) s : SchedulerState :=
  mkScheduler _ _ (task_manager s) x (no_executor_check_pending s).
Definition set_check_pending (x : bool) s : SchedulerState :=
  mkScheduler _ _ (task_manager s) (executor_manager s) x.

Definition get_metadata (executor_id : string) s : result ExecutorMetadata.t :=
  get_executor_metadata executor_id (ExecutorManager.cluster_state (executor_manager s)).

(** A handler: how it returns, the state it leaves, and the effects. *)
Definition handled : Type := result unit * SchedulerState * list effect.

(** *** Executors *)

Definition remove_executor (executor_id : string) (reason : option message) s
  : SchedulerState * list effect :=
  (set_executors (ExecutorManager.remove_executor executor_id (executor_manager s)) s,
   [Post (ExecutorLost executor_id reason)]).

(** [do_register_executor]: [reached] is the outcome of the connectivity test. *)
Definition do_register_executor (reached : BallistaError + unit) (now_secs : N)
    (metadata : ExecutorMetadata.t) s : handled :=
  match reached with
  | inl e => (Err e, s, [])
  | inr _ =>
      let vcores := spec_vcores (ExecutorMetadata.specification metadata) in
      let '(o, c) :=
        register_executor now_secs metadata
          (ExecutorData.mk (ExecutorMetadata.id metadata) vcores vcores)
          (ExecutorManager.cluster_state (executor_manager s)) in
      let s' := set_executors (ExecutorManager.set_cluster c (executor_manager s)) s in
      match o with
      | Ok _ => (Ok tt, s', if is_push_staged_scheduling config then [Post ReviveOffers] else [])
      | _ => (o, s', [])
      end
  end.

(** One pass of [expire_dead_executors] *)
Definition expire_one (hb : ExecutorHeartbeat.t) : list effect :=
  let executor_id := ExecutorHeartbeat.executor_id hb in
  if ExecutorManager.is_terminating hb then
    [SpawnRemove executor_id
       (Format "TERMINATING executor {executor_id} heartbeat timed out after {}s"
          [AStr executor_id; ANat (N.to_nat (executor_termination_grace_period config))])]
  else
    let stop_reason :=
      Format "ACTIVE executor {executor_id} heartbeat timed out after {}s"
        [AStr executor_id; ANat (N.to_nat (executor_timeout_seconds config))] in
    [SpawnRemove executor_id stop_reason; SendStop executor_id stop_reason].

Definition expire_dead_executors (now_secs : N) s : list effect :=
  concat (expire_one <$> ExecutorManager.get_expired_executors config now_secs
                           (executor_manager s)).

(** *** Launching tasks *)

(** The tasks by executor, and then by job and stage *)
Definition assign (m : gmap string (gmap (JobId * nat) (list TaskDescription.t)))
    (bound : BoundTask) : gmap string (gmap (JobId * nat) (list TaskDescription.t)) :=
  let '(executor_id, task) := bound in
  let key := TaskDescription.key task in
  let stage_key := (TaskKey.job_id key, TaskKey.stage_id key) in
  let tasks := default ∅ (m !! executor_id) in
  <[executor_id := <[stage_key := default [] (tasks !! stage_key) ++ [task]]> tasks]> m.

Definition executor_stage_assignments (bound_tasks : list BoundTask) :=
  foldl assign ∅ bound_tasks.

(** The tasks of the rejected jobs *)
Definition tasks_of (rejected : gset JobId) (tasks : list TaskDescription.t)
  : list TaskDescription.t :=
  filter (λ t, TaskKey.job_id (TaskDescription.key t) ∈ rejected) tasks.

(** The future for one executor: the slots to free and the jobs to fail. *)
Definition launch_on (now : N) (executor_id : string) (tasks : list (list TaskDescription.t)) s
  : list ExecutorSlot * gset JobId * SchedulerState * list effect :=
  let n_tasks := u32_of_len (length (concat tasks)) in
  match get_metadata executor_id s with
  | Ok executor =>
      match TaskManager.launch_multi_task launcher now executor tasks (task_manager s) with
      | inr rejected =>
          ([(executor_id, u32_of_len (length (tasks_of rejected (concat tasks))))], rejected, s, [])
      | inl e =>
          let '(s', effects) :=
            remove_executor executor_id
              (Some (Format "Failed to launch new task: {e}" [AStr (display e)])) s in
          ([(executor_id, n_tasks)], ∅, s', effects)
      end
  | _ => ([(executor_id, n_tasks)], ∅, s, [])
  end.

Fixpoint launch_all (now : N) (assignments : list (string * gmap (JobId * nat) (list TaskDescription.t)))
    s : list ExecutorSlot * gset JobId * SchedulerState * list effect :=
  match assignments with
  | [] => ([], ∅, s, [])
  | (executor_id, tasks) :: rest =>
      let '(slots, failed, s1, effects) := launch_on now executor_id (iter_entries tasks).*2 s in
      let '(slots', failed', s2, effects') := launch_all now rest s1 in
      (slots ++ slots', failed ∪ failed', s2, effects ++ effects')
  end.

Definition launch_tasks (now : N) (bound_tasks : list BoundTask) s
  : list ExecutorSlot * gset JobId * SchedulerState * list effect :=
  launch_all now (iter_entries (executor_stage_assignments bound_tasks)) s.

Definition launch_failed (now : N) (job : JobId) : effect :=
  Post (JobRunningFailed job (Lit "task could not be prepared or was rejected by executor")
          now now).

(** The future that [revive_offers] spawns *)
Definition run_launch (now : N) (bound_tasks : list BoundTask) s : SchedulerState * list effect :=
  let '(slots, failed_jobs, s1, effects) := launch_tasks now bound_tasks s in
  let failures := launch_failed now <$> iter_elements failed_jobs in
  match slots with
  | [] => (s1, effects ++ failures)
  | _ =>
      (set_executors (ExecutorManager.unbind_tasks slots (executor_manager s1)) s1,
       effects ++ failures ++ [Post ReviveOffers])
  end.

(** The graphs that a round changed, behind the locks of the cache *)
Definition write_graphs (jobs : list (JobId * JobInfoCache.t)) (tm : TaskManager.t)
  : TaskManager.t :=
  foldl (λ tm ji, TaskManager.write_graph ji.1 (JobInfoCache.execution_graph ji.2) tm) tm jobs.

(** [revive_offers]; a round cut short by its fuel, which does not happen, is
    counted as a panic. *)
Definition revive_offers (now_secs now : N) s : handled :=
  let '(r, jobs, em) :=
    ExecutorManager.bind_schedulable_tasks config now_secs now
      (TaskManager.get_running_job_cache (task_manager s)) (executor_manager s) in
  let s' := set_executors em (set_tasks (write_graphs jobs (task_manager s)) s) in
  match r with
  | Some (Ok []) => (Ok tt, s', [])
  | Some (Ok tasks) => (Ok tt, s', [SpawnLaunch tasks])
  | Some (Err e) => (Err e, s', [])
  | Some Panic | None => (Panic, s', [])
  end.

(** *** Submission of a job *)

(** The future that plans and submits a job. [planned] is the graph that planning
    returns. *)
Definition run_submit (now : N) (job_id : JobId) (job_name : string)
    (planned : result StaticExecutionGraph.t) (queued_at : N) (subscriber : option nat) s
  : SchedulerState * list effect :=
  let '(o, tm) := TaskManager.submit_plan now job_id planned subscriber (task_manager s) in
  let s' := set_tasks tm s in
  match o with
  | Ok _ => (s', [Post (JobSubmitted job_id queued_at now)])
  | Err e =>
      let status :=
        JobStatus.mk job_id job_name
          (Some (Job_Failed (Lit (display e)) queued_at now now)) in
      (s', (match subscriber with
            | Some ch => if full ch then [] else [Notify ch status]
            | None => []
            end) ++
           [Post (JobPlanningFailed job_id
              (Format "Error planning job {job_id}: {e:?}" [AStr job_id; AStr (debug e)])
              queued_at now)])
  | Panic => (s', [])
  end.

(** *** The end of a job *)

Definition clean_up_job_delayed (job_id : JobId) (interval : N) : list effect :=
  if (interval =? 0)%N then [] else [SpawnCleanUpState job_id interval].

Definition run_clean_up_state (job_id : JobId) s : SchedulerState :=
  set_tasks (TaskManager.set_state (remove_job job_id (TaskManager.state (task_manager s)))
               (task_manager s)) s.

Definition clean_up_successful_job (job_id : JobId) (ids : list nat) : list effect :=
  ExecutorManager.clean_up_intermediate_job_data job_id ids ++
  ExecutorManager.clean_up_job_data_delayed job_id
    (SchedulerConfig.finished_job_data_clean_up_interval_seconds config) ++
  clean_up_job_delayed job_id
    (SchedulerConfig.finished_job_state_clean_up_interval_seconds config).

Definition clean_up_failed_job (job_id : JobId) : list effect :=
  ExecutorManager.clean_up_job_data job_id ++
  clean_up_job_delayed job_id
    (SchedulerConfig.finished_job_state_clean_up_interval_seconds config).

(** The closure that [QueryStageScheduler::abort_job] passes to the task manager *)
Definition cancel_and_refund (running_tasks : list RunningTaskInfo.t)
    (freed_slots : list ExecutorSlot) (w : ExecutorManager.t * list effect)
  : result unit * (ExecutorManager.t * list effect) :=
  let effects := match running_tasks with [] => w.2 | _ => w.2 ++ [SpawnCancel running_tasks] end in
  (Ok tt,
   (if is_push_staged_scheduling config && negb (bool_decide (freed_slots = []))
    then ExecutorManager.unbind_tasks freed_slots w.1 else w.1, effects)).

Definition abort_job (now : N) (job_id : JobId) (failure_reason : message) s : handled :=
  let '(o, tms, (em, effects)) :=
    TaskManager.abort_job cancel_and_refund full now job_id failure_reason (task_manager s)
      (executor_manager s, []) in
  (let? _ := o in Ok tt,
   set_executors em (set_tasks (default (task_manager s) (last tms)) s), effects).

(** *** Statuses of tasks *)

Definition update_task_statuses (now : N) (executor_id : string)
    (tasks_status : list TaskStatus.t) s : result (list QueryStageSchedulerEvent) * SchedulerState :=
  match get_metadata executor_id s with
  | Ok executor =>
      let '(o, tm) := TaskManager.update_task_statuses now executor tasks_status (task_manager s) in
      (o, set_tasks tm s)
  | Err e => (Err e, s)
  | Panic => (Panic, s)
  end.

(** The vcores of the tasks that ended go back to their executor. *)
Definition refund (executor_id : string) (tasks_status : list TaskStatus.t) s : SchedulerState :=
  if is_push_staged_scheduling config then
    set_executors
      (ExecutorManager.unbind_tasks
         [(executor_id, TaskManager.sum_vcores_for_statuses tasks_status (task_manager s))]
         (executor_manager s)) s
  else s.

Definition revive_if_push : list effect :=
  if is_push_staged_scheduling config then [Post ReviveOffers] else [].

(** *** The check for an empty cluster *)

Definition fail_stranded_job (now lost_at : N) (tm : TaskManager.t) (job : JobId)
  : list effect :=
  match TaskManager.get_job_status job tm with
  | Some (JobStatus.mk _ _ (Some (Job_Running queued_at started_at _))) =>
      if (started_at <=? lost_at)%N then
        [Post (JobRunningFailed job (Format
           "all executors were lost and no executor re-registered within {}s; no executors remain to run the tasks for this job"
           [ANat (N.to_nat (SchedulerConfig.no_executors_grace_period_seconds config))])
           queued_at now)]
      else []
  | _ => []
  end.

(** The future that runs after the grace period *)
Definition run_no_executor_check (now_secs now lost_at : N) s : SchedulerState * list effect :=
  (set_check_pending false s,
   if bool_decide (ExecutorManager.get_alive_executors config now_secs (executor_manager s) = ∅)
   then concat (fail_stranded_job now lost_at (task_manager s) <$>
                  (iter_entries (TaskManager.get_running_job_cache (task_manager s))).*1)
   else []).

(** *** The handlers *)

Definition on_job_queued (job_id : JobId) (job_name : string) (session_ctx : SessionContext)
    (plan : SubmitPlan) (queued_at : N) (subscriber : option nat) s : handled :=
  (Ok tt, set_tasks (TaskManager.queue_job job_id job_name queued_at (task_manager s)) s,
   [SpawnSubmit job_id job_name session_ctx plan queued_at subscriber]).

Definition on_job_submitted (job_id : JobId) s : handled :=
  (Ok tt, s, revive_if_push ++ [WorkAvailable (Work_JobSubmitted job_id)]).

Definition on_job_planning_failed (now : N) (job_id : JobId) (fail_message : message) s : handled :=
  (Ok tt, set_tasks (TaskManager.fail_unscheduled_job now job_id fail_message (task_manager s)).2 s,
   []).

Definition on_job_finished (job_id : JobId) s : handled :=
  let '(o, tms) := TaskManager.succeed_job full job_id (task_manager s) in
  let ids := match o with Ok ids => ids | _ => [] end in
  (Ok tt, set_tasks (default (task_manager s) (last tms)) s, clean_up_successful_job job_id ids).

Definition on_job_running_failed (now : N) (job_id : JobId) (fail_message : message) s : handled :=
  let '(_, s', effects) := abort_job now job_id fail_message s in
  (Ok tt, s', effects ++ clean_up_failed_job job_id).

Definition on_job_updated (now : N) (job_id : JobId) s : handled :=
  let '(o, tm) := TaskManager.update_job full now job_id (task_manager s) in
  match o with
  | Ok new_tasks =>
      (Ok tt, set_tasks tm s,
       if 0 <? new_tasks then [WorkAvailable (Work_NewStagesRunnable job_id)] else [])
  | Err _ => (Ok tt, set_tasks tm s, [])
  | Panic => (Panic, set_tasks tm s, [])
  end.

Definition on_job_cancel (now : N) (job_id : JobId) s : handled :=
  let '(_, s', effects) := abort_job now job_id (Lit "Cancelled") s in
  (Ok tt, s', effects ++ clean_up_failed_job job_id).

Definition on_task_updating (now : N) (executor_id : string) (tasks_status : list TaskStatus.t) s
  : handled :=
  match update_task_statuses now executor_id tasks_status (refund executor_id tasks_status s) with
  | (Ok stage_events, s') => (Ok tt, s', revive_if_push ++ (Post <$> stage_events))
  | (Err _, s') => (Ok tt, s', [])
  | (Panic, s') => (Panic, s', [])
  end.

Definition on_executor_lost (now_secs now : N) (executor_id : string) s : handled :=
  let '(o, tm) := TaskManager.executor_lost now executor_id (task_manager s) in
  let s' := set_tasks tm s in
  match o with
  | Some Panic | None => (Panic, s', [])
  | Some o =>
      let effects :=
        match o with
        | Ok tasks =>
            (match tasks with [] => [] | _ => [SpawnCancel tasks] end) ++ revive_if_push
        | _ => []
        end in
      if bool_decide (ExecutorManager.get_alive_executors config now_secs
                        (executor_manager s') = ∅) && negb (no_executor_check_pending s')
      then (Ok tt, set_check_pending true s', effects ++ [SpawnNoExecutorCheck now])
      else (Ok tt, s', effects)
  end.

Definition on_receive (now_secs now : N) (event : QueryStageSchedulerEvent) s : handled :=
  match event with
  | JobQueued job_id job_name session_ctx plan queued_at subscriber =>
      on_job_queued job_id job_name session_ctx plan queued_at subscriber s
  | JobSubmitted job_id _ _ => on_job_submitted job_id s
  | JobPlanningFailed job_id fail_message _ _ => on_job_planning_failed now job_id fail_message s
  | JobFinished job_id _ _ => on_job_finished job_id s
  | JobRunningFailed job_id fail_message _ _ => on_job_running_failed now job_id fail_message s
  | JobUpdated job_id => on_job_updated now job_id s
  | JobCancel job_id => on_job_cancel now job_id s
  | TaskUpdating executor_id tasks_status => on_task_updating now executor_id tasks_status s
  | ReviveOffers => revive_offers now_secs now s
  | ExecutorLost executor_id _ => on_executor_lost now_secs now executor_id s
  | CancelTasks tasks => (Ok tt, s, [SpawnCancel tasks])
  | JobDataClean job_id => (Ok tt, s, ExecutorManager.clean_up_job_data job_id)
  end.
End scheduler.
