(* ===== verification/SchedulerFacts.v ===== *)
(** * The vcores of the cluster

    What an executor offers in the cluster state and what the running tasks of
    the cached jobs hold on it, under the operations of the scheduler. *)

From S2P Require Import Prelude Errors Types Stage StageFacts StageSteps Graph GraphSteps.
From S2P Require Import LostExecutor GraphFacts Held Binding BindingFacts JobState.
From S2P Require Import Cluster ClusterFacts TaskManager Scheduler.
Import StaticExecutionGraph(stages).
Import TaskManager(active_job_cache) SchedulerConfig(is_push_staged_scheduling).

Section facts.
Context `{PlanOps} `{Payload} `{PrecisionOps} `{MapOrder} `{HashOrder} `{!BindOps}
  `{ValueOrder} `{ErrorText}.
Implicit Types (tm : TaskManager.t) (job : JobId) (e : string) (s : SchedulerState).

(** What the running tasks of the cached jobs hold on [e]. *)
Definition info_held e (info : JobInfoCache.t) : N :=
  graph_held e (JobInfoCache.execution_graph info).

Definition held e tm : N := msumN (info_held e) (active_job_cache tm).

Definition cached_graph job tm : option StaticExecutionGraph.t :=
  TaskManager.get_active_execution_graph job tm.

Lemma cached_graph_Some job tm g :
  cached_graph job tm = Some g ↔
  ∃ st, active_job_cache tm !! job = Some (JobInfoCache.mk _ _ g st).
Proof.
  unfold cached_graph, TaskManager.get_active_execution_graph. rewrite fmap_Some. split.
  - intros ([g' st] & Hi & ->). simpl. eauto.
  - intros [st Hi]. by exists (JobInfoCache.mk _ _ g st).
Qed.

(** ** Writing a graph *)

Lemma write_graph_cached job job' g tm :
  cached_graph job' (TaskManager.write_graph job g tm) =
  if decide (job = job') then (λ _, g) <$> cached_graph job tm else cached_graph job' tm.
Proof.
  unfold cached_graph, TaskManager.get_active_execution_graph, TaskManager.write_graph. simpl.
  case_decide as Hj; [subst|by rewrite lookup_alter_ne].
  rewrite lookup_alter_eq. by destruct (active_job_cache tm !! job').
Qed.

Lemma write_graph_held e job g g' tm :
  cached_graph job tm = Some g →
  (held e (TaskManager.write_graph job g' tm) + graph_held e g)%N
  = (held e tm + graph_held e g')%N.
Proof.
  intros [st Hi]%cached_graph_Some. unfold held, TaskManager.write_graph. simpl.
  rewrite (alter_as_insert _ _ _ _ Hi). simpl.
  pose proof (msumN_insert (info_held e) (active_job_cache tm) job (JobInfoCache.mk _ _ g' st))
    as Hm. unfold at_key in Hm. by rewrite Hi in Hm.
Qed.

Lemma write_graphs_held e jobs jobs' tm :
  NoDup jobs.*1 → Forall2 same_job jobs jobs' →
  (∀ ji, ji ∈ jobs → cached_graph ji.1 tm = Some (JobInfoCache.execution_graph ji.2)) →
  (held e (write_graphs jobs' tm) + jobs_held e jobs)%N = (held e tm + jobs_held e jobs')%N.
Proof.
  intros Hnd HF. revert tm Hnd. induction HF as [|[job info] [job' info'] jobs jobs' Hsame _ IH];
    intros tm Hnd Hin; [done|].
  rewrite fmap_cons in Hnd. apply NoDup_cons in Hnd as [Hjob Hnd].
  destruct Hsame as (Hj & _). simpl in Hj, Hjob. subst job'.
  pose proof (Hin (job, info) ltac:(left)) as Hg. simpl in Hg. cbn [write_graphs foldl].
  pose proof (write_graph_held e job _ (JobInfoCache.execution_graph info') tm Hg) as Hw.
  specialize (IH (TaskManager.write_graph job (JobInfoCache.execution_graph info') tm) Hnd).
  ospecialize (IH _).
  { intros [k i] Hki. simpl. rewrite write_graph_cached, decide_False; [by apply (Hin (k, i)); right|].
    intros <-. apply Hjob. by apply (list_elem_of_fmap_2 fst _ (job, i)). }
  unfold write_graphs in *. simpl in *. lia.
Qed.

Lemma write_graphs_cached jobs jobs' tm job g' :
  NoDup jobs.*1 → Forall2 same_job jobs jobs' →
  (∀ ji, ji ∈ jobs → cached_graph ji.1 tm = Some (JobInfoCache.execution_graph ji.2)) →
  cached_graph job (write_graphs jobs' tm) = Some g' →
  ∃ g, cached_graph job tm = Some g ∧ graph_steps Strict g g'.
Proof.
  intros Hnd HF. revert tm Hnd. induction HF as [|[k info] [k' info'] jobs jobs' Hsame _ IH];
    intros tm Hnd Hin Hg'; [exists g'; by split|].
  rewrite fmap_cons in Hnd. apply NoDup_cons in Hnd as [Hjob Hnd].
  destruct Hsame as (Hj & _ & Hst & _). simpl in Hj, Hjob, Hst. subst k'.
  pose proof (Hin (k, info) ltac:(left)) as Hg. simpl in Hg. cbn [write_graphs foldl] in Hg'.
  destruct (IH (TaskManager.write_graph k (JobInfoCache.execution_graph info') tm) Hnd)
    as (g & Hc & Hs); [|done|].
  { intros [j i] Hki. simpl. rewrite write_graph_cached, decide_False; [by apply (Hin (j, i)); right|].
    intros <-. apply Hjob. by apply (list_elem_of_fmap_2 fst _ (k, i)). }
  rewrite write_graph_cached in Hc. case_decide as Hk; [|by exists g].
  subst k. rewrite Hg in Hc. simpl in Hc. injection Hc as <-.
  exists (JobInfoCache.execution_graph info). split; [done|by etrans].
Qed.

(** ** The invariant *)

Definition cluster_of s : InMemoryClusterState :=
  ExecutorManager.cluster_state (executor_manager s).

Definition graphs_ok tm : Prop :=
  ∀ job g, cached_graph job tm = Some g → keyed g ∧ all_wf g.

(** The vcores of an executor are offered, or held by a task that is running. *)
Definition balanced (total : string → N) s : Prop :=
  ∀ e a, available_vcores (cluster_of s) !! e = Some a →
    (AvailableVcores.vcores a + held e (task_manager s))%N = total e.

Record sched_ok (total : string → N) s : Prop := {
  so_cluster : cluster_wf (cluster_of s);
  so_graphs : graphs_ok (task_manager s);
  so_balanced : balanced total s;
}.

Lemma running_cache_entries tm ji :
  ji ∈ iter_entries (TaskManager.get_running_job_cache tm) →
  active_job_cache tm !! ji.1 = Some ji.2.
Proof.
  rewrite iter_entries_perm. destruct ji as [job info].
  by intros [? _]%elem_of_map_to_list%map_lookup_filter_Some.
Qed.

Lemma running_cache_nodup tm :
  NoDup (iter_entries (TaskManager.get_running_job_cache tm)).*1.
Proof. rewrite iter_entries_perm. apply NoDup_fst_map_to_list. Qed.

Lemma running_cache_graphs tm ji :
  ji ∈ iter_entries (TaskManager.get_running_job_cache tm) →
  cached_graph ji.1 tm = Some (JobInfoCache.execution_graph ji.2).
Proof.
  intros Hji%running_cache_entries. unfold cached_graph, TaskManager.get_active_execution_graph.
  by rewrite Hji.
Qed.

Lemma running_cache_ok tm :
  graphs_ok tm → Forall job_ok (iter_entries (TaskManager.get_running_job_cache tm)).
Proof.
  intros Hok. apply Forall_forall. intros ji Hji%running_cache_graphs.
  destruct (Hok _ _ Hji). by split; [|apply all_wf_ok].
Qed.

(** ** The end of tasks *)

(** The vcores of the tasks that the statuses of one job are about. *)
Definition job_vcores tm (kv : JobId * list TaskStatus.t) : N :=
  match cached_graph kv.1 tm with Some g => lsum (vcores_at g) kv.2 | None => 0 end.

Lemma add_task_vcores_sum g n l :
  is_u32 (n + lsum (vcores_at g) l) →
  foldl (TaskManager.add_task_vcores g) n l = (n + lsum (vcores_at g) l)%N.
Proof.
  revert n. induction l as [|ts l IH]; intros n Hn; simpl in *; [lia|].
  assert (TaskManager.add_task_vcores g n ts = (n + vcores_at g ts)%N) as ->.
  { unfold TaskManager.add_task_vcores, vcores_at in *.
    destruct (task_vcores _ _ g) as [v|]; simpl in *; [|lia].
    apply u32_add_exact. unfold is_u32 in *. lia. }
  rewrite IH; [lia|]. by rewrite <-N.add_assoc.
Qed.

(** The refund does not overflow if what it adds up does not. *)
Lemma sum_vcores_exact sts tm :
  let n := lsum (job_vcores tm) (iter_entries (TaskManager.statuses_by_job sts)) in
  is_u32 n → TaskManager.sum_vcores_for_statuses sts tm = n.
Proof.
  cbv zeta. unfold TaskManager.sum_vcores_for_statuses. set (groups := iter_entries _).
  assert (∀ n, is_u32 (n + lsum (job_vcores tm) groups) →
    foldl (λ total kv,
      match TaskManager.get_active_execution_graph kv.1 tm with
      | Some g => foldl (TaskManager.add_task_vcores g) total kv.2
      | None => total
      end) n groups = (n + lsum (job_vcores tm) groups)%N) as Hgen; [|intros Hn; by rewrite Hgen].
  induction groups as [|kv groups IH]; intros n Hn; simpl in *; [lia|].
  unfold job_vcores at 1 in Hn. unfold job_vcores at 1. unfold cached_graph in *.
  destruct (TaskManager.get_active_execution_graph kv.1 tm) as [g|].
  - rewrite add_task_vcores_sum by (unfold is_u32 in *; lia). rewrite IH; [lia|].
    by rewrite <-N.add_assoc.
  - rewrite IH; [lia|]. by rewrite N.add_0_l in Hn.
Qed.

(** The statuses of a job report the end of tasks of the job on [e]. *)
Definition job_ends e tm (kv : JobId * list TaskStatus.t) : Prop :=
  (∀ ts, ts ∈ kv.2 → report_ok ts) ∧
  ∃ g, cached_graph kv.1 tm = Some g ∧ batch_ends e g kv.2.

Lemma update_jobs_held e now ex groups tm evs tm' :
  NoDup groups.*1 → graphs_ok tm → (∀ kv, kv ∈ groups → job_ends e tm kv) →
  TaskManager.update_jobs now ex groups tm = (Ok evs, tm') →
  graphs_ok tm' ∧
  ∀ e', (held e' tm' + if_on e e' (lsum (job_vcores tm) groups))%N = held e' tm.
Proof.
  revert tm evs. induction groups as [|[job l] groups IH]; intros tm evs Hnd Hok Hends Hu.
  { simpl in Hu. unfold mret in Hu. simplify_eq. split; [done|]. intros e'. unfold if_on.
    simpl. case_bool_decide; lia. }
  rewrite fmap_cons in Hnd. apply NoDup_cons in Hnd as [Hjob Hnd]. simpl in Hjob.
  destruct (Hends (job, l) ltac:(left)) as (Hrep & g & Hg & Hb). cbn [fst snd] in *.
  destruct (Hok job g Hg) as [Hk Hwf]. cbn [TaskManager.update_jobs] in Hu.
  unfold mthen at 1 in Hu. unfold cached_graph in Hg. rewrite Hg in Hu. fold (cached_graph job tm) in Hg.
  destruct (update_task_status now ex l _ _ g) as [o g'] eqn:Hup.
  destruct o as [evs1| |]; [|done|done]. set (tm1 := TaskManager.write_graph job g' tm) in *.
  pose proof (update_task_status_held e now ex l _ _ g evs1 g' Hk Hwf Hrep Hb Hup) as Hheld.
  assert (graph_steps Strict g g') as Hst.
  { pose proof (update_task_status_steps Strict now ex l (TaskManager.task_max_failures tm)
      (TaskManager.stage_max_failures tm) g Hk (all_wf_ok _ Hwf) (λ _, Hrep)) as Hst.
    rewrite Hup in Hst. apply Hst. intros _ ts u Hts Hx.
    destruct (revive_batch now e g l Hk Hb) as [[_ Hall] _].
    destruct (Hall ts Hts) as (s & Hs & _). rewrite Hs in Hx. done. }
  assert (∀ kv, kv ∈ groups → cached_graph kv.1 tm1 = cached_graph kv.1 tm) as Hother.
  { intros [k l'] Hkv. simpl. unfold tm1. rewrite write_graph_cached, decide_False; [done|].
    intros <-. apply Hjob. by apply (list_elem_of_fmap_2 fst _ (job, l')). }
  unfold mthen in Hu.
  destruct (TaskManager.update_jobs now ex groups tm1) as [[evs2| |] tm2] eqn:Hrest; [|done|done].
  injection Hu as _ <-. destruct (IH tm1 evs2 Hnd) as [Hok2 Hh2]; [| |done|].
  { intros job' g2. unfold tm1. rewrite write_graph_cached. case_decide; [|apply Hok].
    subst job'. rewrite Hg. intros [= <-]. by split; [eapply keyed_steps|eapply all_wf_steps]. }
  { intros kv Hkv. destruct (Hends kv ltac:(by right)) as (? & g2 & Hg2 & ?).
    split; [done|]. exists g2. by rewrite Hother. }
  split; [done|]. intros e'. specialize (Hh2 e'). specialize (Hheld e').
  pose proof (write_graph_held e' job g g' tm Hg) as Hw. fold tm1 in Hw.
  assert (lsum (job_vcores tm1) groups = lsum (job_vcores tm) groups) as Hsum.
  { apply lsum_ext. intros kv Hkv. unfold job_vcores. by rewrite Hother. }
  rewrite Hsum in Hh2. simpl. unfold job_vcores at 1. simpl. rewrite Hg.
  unfold if_on in *. case_bool_decide; lia.
Qed.

(** ** Aborting a job *)

(** The slots of a list are a sum. *)
Lemma slots_of_sum e (l : list (string * N)) :
  slots_of e l = lsum (λ sl, if bool_decide (sl.1 = e) then sl.2 else 0%N) l.
Proof. induction l as [|sl l IH]; simpl; [done|]. by rewrite IH. Qed.

Lemma slots_of_entries e (m : gmap string N) :
  slots_of e (iter_entries m) = default 0%N (m !! e).
Proof.
  rewrite slots_of_sum, (lsum_perm _ _ _ (iter_entries_perm m)).
  induction m as [|k n m Hk IH] using map_ind; [by rewrite map_to_list_empty|].
  rewrite (lsum_perm _ _ _ (map_to_list_insert m k n Hk)). simpl. rewrite IH.
  case_bool_decide as Hke; [subst k|by rewrite lookup_insert_ne].
  rewrite lookup_insert_eq, Hk. simpl. lia.
Qed.

Lemma fail_stage_lookup sid msg g k :
  stages (fail_stage sid msg g).2 !! k =
  if decide (sid = k) then
    match stages g !! sid with
    | Some (RunningS s) => Some (FailedS (RunningStage.to_failed msg s))
    | _ => None
    end
  else stages g !! k.
Proof.
  unfold fail_stage. case_decide as Hk; [subst k|].
  - destruct (stages g !! sid) as [[]|]; simpl; by rewrite ?lookup_insert_eq, ?lookup_delete_eq.
  - destruct (stages g !! sid) as [[]|]; simpl;
      by rewrite ?lookup_insert_ne, ?lookup_delete_ne.
Qed.

Lemma fail_stages_lookup msg l (g : StaticExecutionGraph.t) k :
  NoDup l →
  stages (foldl (λ g sid, (fail_stage sid msg g).2) g l) !! k =
  if decide (k ∈ l) then
    match stages g !! k with
    | Some (RunningS s) => Some (FailedS (RunningStage.to_failed msg s))
    | _ => None
    end
  else stages g !! k.
Proof.
  revert g. induction l as [|sid l IH]; intros g Hnd; cbn [foldl].
  { by destruct (decide (k ∈ [])) as [?%elem_of_nil|]. }
  apply NoDup_cons in Hnd as [Hsid Hnd]. rewrite IH, fail_stage_lookup by done.
  destruct (decide (sid = k)) as [<-|Hne].
  - destruct (decide (sid ∈ l)); [done|].
    by destruct (decide (sid ∈ sid :: l)) as [|Hn]; [|destruct Hn; left].
  - destruct (decide (k ∈ l)) as [Hk|Hk], (decide (k ∈ sid :: l)) as [Hc|Hc]; try done.
    + destruct Hc. by right.
    + apply elem_of_cons in Hc as [?|?]; congruence.
Qed.

Lemma fail_stages_status msg l (g : StaticExecutionGraph.t) :
  StaticExecutionGraph.status (foldl (λ g sid, (fail_stage sid msg g).2) g l)
  = StaticExecutionGraph.status g.
Proof.
  revert g. induction l as [|sid l IH]; intros g; [done|]. cbn [foldl]. rewrite IH.
  unfold fail_stage. by destruct (stages g !! sid) as [[]|].
Qed.

Lemma elem_of_running_stages g k :
  k ∈ running_stages g ↔ ∃ r, stages g !! k = Some (RunningS r).
Proof.
  unfold running_stages. rewrite elem_of_filter_map. split.
  - intros ([k' x] & Hin%elem_of_iter_map & Hx). simpl in Hx. destruct x; simplify_eq. eauto.
  - intros [s Hs]. exists (k, RunningS s). split; [by apply elem_of_iter_map|done].
Qed.

Lemma nodup_running_stages g : NoDup (running_stages g).
Proof.
  unfold running_stages. pose proof (nodup_iter_map (stages g)) as Hnd. revert Hnd.
  induction (iter_map (stages g)) as [|[k x] l IH]; simpl; [intros; constructor|].
  intros [Hk Hnd]%NoDup_cons. destruct x; auto. apply NoDup_cons. split; [|auto].
  intros ([k' x] & Hin & Hx)%elem_of_filter_map. simpl in Hx. destruct x; simplify_eq.
  apply Hk. apply (list_elem_of_fmap_2 fst _ _ Hin).
Qed.

Lemma abort_running_lookup now msg g k :
  stages (abort_running now msg g).2 !! k =
  match stages g !! k with
  | Some (RunningS s) => Some (FailedS (RunningStage.to_failed msg s))
  | x => x
  end.
Proof.
  unfold abort_running. cbn [snd]. rewrite fail_stages_lookup by apply nodup_running_stages.
  change (stages (fail_job now msg g)) with (stages g).
  destruct (decide (k ∈ running_stages (fail_job now msg g))) as [Hin|Hout].
  - apply elem_of_running_stages in Hin as [s Hs]. simpl in Hs. by rewrite Hs.
  - destruct (stages g !! k) as [[| |s| |]|] eqn:Hk; try done.
    destruct Hout. apply elem_of_running_stages. eauto.
Qed.

(** The slot that a running task gives back. *)
Definition slot_of (snapshot : StaticExecutionGraph.t) (t : RunningTaskInfo.t)
  : option (string * N) :=
  pair (RunningTaskInfo.executor_id t) <$>
    task_vcores (RunningTaskInfo.stage_id t) (RunningTaskInfo.task_id t) snapshot.

Lemma freed_vcores_increments running snapshot :
  TaskManager.freed_vcores running snapshot = increments (omap (slot_of snapshot) running).
Proof.
  unfold TaskManager.freed_vcores, increments. generalize (∅ : gmap string N).
  induction running as [|t running IH]; intros m; simpl; [done|].
  destruct (slot_of snapshot t) as [y|] eqn:Hy; unfold slot_of in Hy;
    destruct (task_vcores _ _ snapshot) as [v|]; simplify_eq/=; apply IH.
Qed.

(** The running tasks of a stage, over a list of its tasks with their indices. *)
Lemma stage_slots_held e snapshot job sid (l : list (nat * TaskInfo.t)) :
  (∀ i ti, (i, ti) ∈ l → task_vcores sid i snapshot = Some (TaskInfo.vcores_consumed ti)) →
  slots_of e (omap (slot_of snapshot)
    ((λ t, RunningTaskInfo.mk t.1.1 job t.1.2 t.2) <$>
       omap (λ p, match TaskInfo.task_status p.2 with
                  | Running ex => Some (p.1, sid, ex)
                  | _ => None
                  end) l)) = lsum (λ p, hold e p.2) l.
Proof.
  induction l as [|[i ti] l IH]; intros Hl; [done|].
  ospecialize (IH _); [by intros; apply Hl; right|].
  change (lsum _ ((i, ti) :: l)) with (hold e ti + lsum (λ p, hold e p.2) l)%N. rewrite <-IH.
  unfold hold. simpl. destruct (TaskInfo.task_status ti) as [ex| |]; simpl; try done.
  assert (slot_of snapshot (RunningTaskInfo.mk i job sid ex) = Some (ex, TaskInfo.vcores_consumed ti))
    as -> by (unfold slot_of; simpl; by rewrite (Hl i ti) by left). done.
Qed.

Lemma imap_pairs {A} (infos : list A) :
  (imap (λ i ti, (i, ti)) infos).*2 = infos ∧
  ∀ i ti, (i, ti) ∈ imap (λ i ti, (i, ti)) infos → infos !! i = Some ti.
Proof.
  split.
  - apply list_eq. intros i. rewrite list_lookup_fmap, list_lookup_imap.
    by destruct (infos !! i).
  - intros i ti (j & Hj)%list_elem_of_lookup. rewrite list_lookup_imap in Hj.
    apply fmap_Some in Hj as (ti' & Hj & [= -> ->]). done.
Qed.

(** What the running tasks of a graph give back when the job is aborted is what
    they hold. *)
Lemma abort_slots_held e now msg g :
  keyed g →
  slots_of e (omap (slot_of (abort_running now msg g).2) (running_tasks g)) = graph_held e g.
Proof.
  intros Hk. set (snapshot := (abort_running now msg g).2). unfold graph_held, running_tasks.
  rewrite msumN_to_list, lsum_fmap.
  change (foldr _ 0%N (map_to_list (stages g)))
    with (lsum (λ kv, stage_held e kv.2) (map_to_list (stages g))).
  rewrite <-(lsum_perm _ _ _ (iter_map_perm (stages g))).
  assert (∀ kv, kv ∈ iter_map (stages g) → stages g !! kv.1 = Some kv.2) as Hin.
  { intros [k x]. apply elem_of_iter_map. }
  induction (iter_map (stages g)) as [|[k x] l IH]; [done|].
  rewrite fmap_cons. cbn [concat]. rewrite omap_app, slots_of_app.
  rewrite IH by (intros; apply Hin; by right).
  change (lsum _ ((k, x) :: l)) with (stage_held e x + lsum (λ kv, stage_held e kv.2) l)%N.
  f_equal.
  pose proof (Hin (k, x) ltac:(left)) as Hx. simpl in Hx. destruct x as [| |r| |]; try done.
  cbn [snd]. unfold stage_running_tasks, RunningStage.running_tasks.
  destruct (imap_pairs (RunningStage.task_infos r)) as [Hsnd Hp].
  rewrite stage_slots_held.
  { unfold stage_held, infos_held. by rewrite <-Hsnd at 2; rewrite lsum_fmap. }
  intros i ti Hi%Hp.
  unfold task_vcores, snapshot. rewrite (Hk _ _ Hx : RunningStage.stage_id r = k).
  rewrite abort_running_lookup, Hx. simpl. rewrite list_lookup_fmap, Hi. simpl.
  unfold RunningStage.kill_running. by destruct (TaskInfo.is_running ti).
Qed.

Lemma freed_slots_held e now msg g :
  keyed g → is_u32 (graph_held e g) →
  slots_of e (iter_entries (TaskManager.freed_vcores (running_tasks g)
                              (abort_running now msg g).2)) = graph_held e g.
Proof.
  intros Hk Hu. rewrite slots_of_entries, freed_vcores_increments, increments_sum.
  rewrite abort_slots_held by done. by apply N.mod_small.
Qed.

(** *** Leaving the cache *)

Definition final_tm (tms : list TaskManager.t) tm : TaskManager.t := default tm (last tms).

Lemma persist_cache full job snapshot tm tm0 :
  active_job_cache (final_tm (TaskManager.persist_terminal_and_evict full job snapshot tm).2 tm0)
  = delete job (active_job_cache tm).
Proof.
  unfold TaskManager.persist_terminal_and_evict, final_tm. cbn [snd].
  rewrite app_comm_cons, last_snoc. simpl. apply map_eq. intros k.
  destruct (decide (job = k)) as [<-|Hne]; [by rewrite !lookup_delete_eq|].
  by rewrite !lookup_delete_ne, lookup_alter_ne.
Qed.

Lemma evicted_held e job g tm tm' :
  cached_graph job tm = Some g → active_job_cache tm' = delete job (active_job_cache tm) →
  (held e tm' + graph_held e g)%N = held e tm.
Proof.
  intros [st Hi]%cached_graph_Some Hc. unfold held. rewrite Hc.
  rewrite (msumN_split _ (active_job_cache tm) job). unfold at_key. rewrite Hi. simpl.
  unfold info_held at 2. simpl. lia.
Qed.

Lemma evicted_ok job tm tm' :
  graphs_ok tm → active_job_cache tm' = delete job (active_job_cache tm) → graphs_ok tm'.
Proof.
  intros Hok Hc k g [st Hi]%cached_graph_Some. apply (Hok k). apply cached_graph_Some.
  exists st. rewrite Hc in Hi. by apply lookup_delete_Some in Hi as [_ ?].
Qed.

(** A job whose stages are all finished holds nothing. *)
Lemma successful_graph_held e g : is_successful g = true → graph_held e g = 0%N.
Proof.
  intros Hs. unfold graph_held. rewrite <-(msumN_empty (stage_held e) (K:=nat)).
  apply msumN_ext. intros k. unfold at_key. rewrite lookup_empty. simpl.
  destruct (stages g !! k) as [x|] eqn:Hx; [|done]. simpl.
  unfold is_successful in Hs. rewrite forallb_forall in Hs.
  specialize (Hs (k, x)). rewrite <-list_elem_of_In in Hs.
  ospecialize (Hs _); [by apply elem_of_map_to_list|]. by destruct x.
Qed.

(** *** A job that ends can be found at any time *)

Lemma cached_status job g tm :
  cached_graph job tm = Some g →
  TaskManager.get_job_status job tm = Some (StaticExecutionGraph.status g).
Proof. unfold cached_graph, TaskManager.get_job_status. by intros ->. Qed.

(** A final status that was saved is the one that is found. *)
Lemma saved_status full job g st :
  is_final (StaticExecutionGraph.status g) = true → queued_jobs st !! job = None →
  get_job_status job (final_state (save_job full job g st) st) = Some (StaticExecutionGraph.status g).
Proof.
  intros Hf Hq. unfold save_job. rewrite Hf. unfold final_state. simpl. unfold get_job_status.
  destruct (running_jobs st !! job) as [info|] eqn:Hr; simpl.
  - destruct (update_subscribers_maps full info (StaticExecutionGraph.status g)
      (set_running (delete job (running_jobs st)) st)) as (-> & -> & ->). simpl.
    by rewrite Hq, lookup_delete_eq, lookup_insert_eq.
  - by rewrite Hq, Hr, lookup_insert_eq.
Qed.

Lemma persist_visible full job g tm tm' :
  cached_graph job tm = Some g → is_final (StaticExecutionGraph.status g) = true →
  queued_jobs (TaskManager.state tm) !! job = None →
  tm' ∈ (TaskManager.persist_terminal_and_evict full job g tm).2 →
  TaskManager.get_job_status job tm' = Some (StaticExecutionGraph.status g).
Proof.
  intros Hg Hf Hq Hin. pose proof Hg as [st Hi]%cached_graph_Some.
  unfold TaskManager.persist_terminal_and_evict in Hin. cbn [snd] in Hin.
  apply elem_of_cons in Hin as [->|Hin]; [by apply cached_status|].
  apply elem_of_app in Hin as [(st' & -> & _)%list_elem_of_fmap|Hin].
  - apply cached_status. apply cached_graph_Some. cbn.
    rewrite lookup_alter_eq, Hi. by eexists.
  - apply list_elem_of_singleton in Hin as ->. unfold TaskManager.get_job_status.
    unfold TaskManager.get_active_execution_graph. cbn. rewrite lookup_delete_eq. cbn.
    by apply saved_status.
Qed.

Lemma abort_visible {W : Type} (cancel : list RunningTaskInfo.t → list ExecutorSlot → W →
    result unit * W) full now job msg g tm w tm' :
  cached_graph job tm = Some g → queued_jobs (TaskManager.state tm) !! job = None →
  tm' ∈ tail (TaskManager.abort_job cancel full now job msg tm w).1.2 →
  TaskManager.get_job_status job tm' = Some (StaticExecutionGraph.status (abort_running now msg g).2).
Proof.
  intros Hg Hq. unfold TaskManager.abort_job. unfold cached_graph in Hg. rewrite Hg.
  fold (cached_graph job tm) in Hg. pose proof Hg as [st Hi]%cached_graph_Some.
  assert (is_final (StaticExecutionGraph.status (abort_running now msg g).2) = true) as Hf.
  { unfold abort_running. cbn [snd]. rewrite fail_stages_status. done. }
  destruct (abort_running now msg g) as [running snapshot]. cbn [snd] in *.
  destruct (cancel _ _ w) as [cancelled w'].
  set (tm1 := TaskManager.set_job_info_status _ _ _).
  assert (cached_graph job tm1 = Some snapshot) as Hg1.
  { apply cached_graph_Some. unfold tm1. cbn. rewrite !lookup_alter_eq, Hi. by eexists. }
  pose proof (persist_visible full job snapshot tm1 tm' Hg1 Hf Hq) as Hp.
  destruct (TaskManager.persist_terminal_and_evict full job snapshot tm1) as [o tms].
  intros Hin. apply Hp. by destruct cancelled, o.
Qed.

(** ** New tasks of a job *)

(** The tasks that start when the resolved stages do. *)
Definition started_tasks (g : StaticExecutionGraph.t) : nat :=
  foldr Nat.add 0 ((λ kv, match kv.2 with
                          | Resolved r => ResolvedStage.partitions r
                          | _ => 0
                          end) <$> map_to_list (stages g)).

Lemma revive_available now g :
  keyed g → available_tasks (revive now g).2 = available_tasks g + started_tasks g.
Proof.
  intros Hk. unfold available_tasks, started_tasks.
  assert (stages (revive now g).2 = revive_stage now <$> stages g) as ->.
  { apply map_eq. intros k. by rewrite revive_lookup, lookup_fmap. }
  rewrite map_to_list_fmap. induction (map_to_list (stages g)) as [|[k x] l IH]; [done|].
  rewrite !fmap_cons. cbn [foldr prod_map fst snd]. rewrite IH.
  destruct x as [|r| | |]; cbn; try lia.
  unfold RunningStage.available_tasks, PendingPartitions.remaining. cbn.
  rewrite length_seq. lia.
Qed.

(** ** Tasks by executor, job and stage *)

(** The tasks of the groups, with the executors they go to. *)
Definition group_tasks (kv : string * gmap (JobId * nat) (list TaskDescription.t))
  : list BoundTask := pair kv.1 <$> concat (iter_entries kv.2).*2.

Definition grouped (m : gmap string (gmap (JobId * nat) (list TaskDescription.t)))
  : list BoundTask := concat (group_tasks <$> iter_entries m).

Definition stage_key_of (t : TaskDescription.t) : JobId * nat :=
  (TaskKey.job_id (TaskDescription.key t), TaskKey.stage_id (TaskDescription.key t)).

(** Every group is made of tasks of its stage, and has some. *)
Definition groups_ok (m : gmap string (gmap (JobId * nat) (list TaskDescription.t))) : Prop :=
  ∀ e groups k l, m !! e = Some groups → groups !! k = Some l →
    l ≠ [] ∧ Forall (λ t, stage_key_of t = k) l.

Lemma assign_groups_ok m b : groups_ok m → groups_ok (assign m b).
Proof.
  intros Hm e groups k l. destruct b as [ex t]. cbn [assign]. fold (stage_key_of t).
  intros [[<- <-]|[_ He]]%lookup_insert_Some; [|by apply (Hm e groups)].
  intros [[<- <-]|[_ Hk]]%lookup_insert_Some.
  - split; [by destruct (default [] _)|]. apply Forall_app. split; [|by apply Forall_singleton].
    destruct (m !! ex) as [groups|] eqn:Hg; simpl; [|by rewrite lookup_empty].
    destruct (groups !! stage_key_of t) as [l|] eqn:Hl; [|done]. by apply (Hm _ _ _ _ Hg Hl).
  - destruct (m !! ex) as [groups|] eqn:Hg; simpl in Hk; [by apply (Hm _ _ _ _ Hg Hk)|].
    by rewrite lookup_empty in Hk.
Qed.

(** Replacing the value of a key, in the list of the entries. *)
Lemma entries_insert `{Countable K} {A} (m : gmap K A) k v :
  iter_entries (<[k := v]> m) ≡ₚ (k, v) :: iter_entries (delete k m).
Proof.
  rewrite !iter_entries_perm, <-insert_delete_eq. by rewrite map_to_list_insert by apply lookup_delete_eq.
Qed.

Lemma entries_split `{Countable K} {A} (m : gmap K A) k :
  iter_entries m ≡ₚ (option_list (pair k <$> m !! k)) ++ iter_entries (delete k m).
Proof.
  rewrite !iter_entries_perm. destruct (m !! k) as [v|] eqn:Hk; simpl.
  - symmetry. by apply map_to_list_delete.
  - by rewrite delete_id.
Qed.

Lemma group_tasks_add e groups t :
  group_tasks (e, <[stage_key_of t := default [] (groups !! stage_key_of t) ++ [t]]> groups)
  ≡ₚ (e, t) :: group_tasks (e, groups).
Proof.
  unfold group_tasks. cbn [fst snd]. rewrite entries_insert. rewrite (entries_split groups (stage_key_of t)).
  destruct (groups !! stage_key_of t) as [l|]; simpl; rewrite ?fmap_app; simpl;
    [solve_Permutation|done].
Qed.

Lemma assign_grouped m b : grouped (assign m b) ≡ₚ b :: grouped m.
Proof.
  destruct b as [e t]. cbn [assign]. fold (stage_key_of t). unfold grouped.
  rewrite entries_insert, (entries_split m e). cbn [fmap list_fmap concat].
  rewrite group_tasks_add. destruct (m !! e) as [groups|]; simpl.
  - solve_Permutation.
  - unfold group_tasks at 1. simpl. rewrite iter_entries_perm, map_to_list_empty. done.
Qed.

Lemma assignments_ok bound :
  groups_ok (executor_stage_assignments bound) ∧ grouped (executor_stage_assignments bound) ≡ₚ bound.
Proof.
  unfold executor_stage_assignments.
  assert (∀ m, groups_ok m → groups_ok (foldl assign m bound) ∧
    grouped (foldl assign m bound) ≡ₚ grouped m ++ bound) as Hgen.
  { induction bound as [|b bound IH]; intros m Hm; cbn [foldl]; [by rewrite app_nil_r|].
    destruct (IH (assign m b) (assign_groups_ok m b Hm)) as [? Hp]. split; [done|].
    rewrite Hp, assign_grouped. solve_Permutation. }
  destruct (Hgen ∅) as [? Hp]; [by intros ????; rewrite lookup_empty|]. split; [done|].
  rewrite Hp. unfold grouped. by rewrite iter_entries_perm, map_to_list_empty.
Qed.

(** ** Handing out tasks *)

Section ops.
Context (config : SchedulerConfig.t) (total : string → N).
Hypothesis policy_built_in : built_in (SchedulerConfig.task_distribution config) = true.

Lemma revive_offers_ok now_secs now s :
  sched_ok total s → sched_ok total (revive_offers config now_secs now s).1.2.
Proof using All.
  intros Hs. unfold revive_offers, ExecutorManager.bind_schedulable_tasks.
  case_bool_decide; [by destruct s|]. case_bool_decide; [by destruct s|].
  destruct Hs as [Hc Hg Hb]. set (alive := ExecutorManager.get_alive_executors _ _ _).
  set (jobs := iter_entries _).
  destruct (bind_schedulable_effect now (SchedulerConfig.task_distribution config) jobs
    (Some alive) (cluster_of s) Hc (running_cache_ok _ Hg) policy_built_in)
    as (tasks & Hr & HF & Hheld & Hc' & Hv).
  fold (cluster_of s).
  destruct (bind_schedulable_tasks now _ jobs (Some alive) (cluster_of s)) as [[r jobs'] c'].
  simpl in *. subst r.
  set (s' := set_executors _ (set_tasks (write_graphs jobs' (task_manager s)) s)).
  assert (sched_ok total s') as Hs'; [|by destruct tasks].
  pose proof (running_cache_nodup (task_manager s)) as Hnd.
  pose proof (running_cache_graphs (task_manager s)) as Hin. fold jobs in Hnd, Hin.
  split; [done| |].
  - intros job g' Hg'. destruct (write_graphs_cached _ _ _ job g' Hnd HF Hin Hg') as (g & Hgc & Hst).
    destruct (Hg job g Hgc). by split; [eapply keyed_steps|eapply all_wf_steps].
  - intros e a' Ha'. change (available_vcores c' !! e = Some a') in Ha'. specialize (Hv e).
    pose proof (write_graphs_held e jobs jobs' (task_manager s) Hnd HF Hin) as Hw.
    rewrite Hheld in Hw. simpl.
    destruct (available_vcores (cluster_of s) !! e) as [a|] eqn:Ha; [|congruence].
    destruct Hv as (v & Hv & Hsum). rewrite Hv in Ha'. simplify_eq. simpl.
    pose proof (Hb e a Ha). lia.
Qed.

(** ** The end of tasks, reported by their executor *)

Hypothesis push : is_push_staged_scheduling config = true.
Hypothesis total_u32 : ∀ e, is_u32 (total e).

(** Giving vcores back that fit: every executor offers its slots in addition. *)
Lemma unbind_exact slots c e a' :
  cluster_wf c →
  (∀ a, available_vcores c !! e = Some a →
     is_u32 (AvailableVcores.vcores a + slots_of e slots)) →
  available_vcores (unbind_tasks slots c) !! e = Some a' →
  ∃ a, available_vcores c !! e = Some a ∧
    AvailableVcores.vcores a' = (AvailableVcores.vcores a + slots_of e slots)%N.
Proof.
  intros Hc Hfit (a & Ha & ->)%unbind_lookup; [|by eapply vcores_u32].
  exists a. split; [done|]. simpl. apply u32_add_exact. by apply Hfit.
Qed.

Definition batch_of (sts : list TaskStatus.t) : list (JobId * list TaskStatus.t) :=
  iter_entries (TaskManager.statuses_by_job sts).

Lemma update_task_statuses_ok now e sts s evs s' :
  sched_ok total s →
  (∀ kv, kv ∈ batch_of sts → job_ends e (task_manager s) kv) →
  update_task_statuses now e sts (refund config e sts s) = (Ok evs, s') →
  sched_ok total s'.
Proof using All.
  intros [Hc Hg Hb] Hends Hu. unfold update_task_statuses, refund in Hu. rewrite push in Hu.
  destruct (get_metadata e _) as [ex| |]; [|done|done]. cbn [task_manager set_executors] in Hu.
  destruct (TaskManager.update_task_statuses now ex sts (task_manager s)) as [o tm'] eqn:Hup.
  destruct o as [evs'| |]; [|done|done]. injection Hu as _ <-.
  assert (NoDup (batch_of sts).*1) as Hnd.
  { unfold batch_of. rewrite iter_entries_perm. apply NoDup_fst_map_to_list. }
  destruct (update_jobs_held e now ex _ (task_manager s) evs' tm' Hnd Hg Hends Hup) as [Hg' Hh].
  set (n := lsum (job_vcores (task_manager s)) (batch_of sts)) in *.
  split; [by apply unbind_tasks_wf|done|].
  intros e' a' Ha'. cbn [task_manager set_tasks].
  assert (∀ a, available_vcores (cluster_of s) !! e = Some a → (AvailableVcores.vcores a + n ≤ total e)%N)
    as Hfit.
  { intros a Ha. rewrite <-(Hb e a Ha). specialize (Hh e). unfold if_on in Hh.
    rewrite bool_decide_true in Hh by done. lia. }
  set (slots := [(e, TaskManager.sum_vcores_for_statuses sts (task_manager s))]) in *.
  assert (∀ a, available_vcores (cluster_of s) !! e' = Some a →
            slots_of e' slots = if_on e e' n) as Hslots.
  { intros a Ha. simpl. unfold if_on. case_bool_decide; [subst e'|done].
    rewrite sum_vcores_exact; [by rewrite N.add_0_r|]. fold (batch_of sts). fold n.
    specialize (Hfit a Ha). specialize (total_u32 e). unfold is_u32 in *. lia. }
  assert (∀ a, available_vcores (cluster_of s) !! e' = Some a →
    (AvailableVcores.vcores a + slots_of e' slots ≤ total e')%N) as Hle.
  { intros a Ha. rewrite (Hslots a Ha), <-(Hb e' a Ha), <-(Hh e'). lia. }
  destruct (unbind_exact slots (cluster_of s) e' a' Hc) as (a & Ha & ->); [|done|].
  { intros a Ha. specialize (Hle a Ha). specialize (total_u32 e'). unfold is_u32 in *. lia. }
  rewrite (Hslots a Ha), <-(Hb e' a Ha), <-(Hh e'). lia.
Qed.

(** ** The end of a job *)

Context (full : nat → bool).

(** Only the cache, and what executors offer, matters. *)
Lemma sched_ok_same s s' :
  active_job_cache (task_manager s') = active_job_cache (task_manager s) →
  cluster_of s' = cluster_of s → sched_ok total s → sched_ok total s'.
Proof.
  intros Hc Hcl [H1' H2' H3']. split.
  - by rewrite Hcl.
  - intros job g Hg. apply (H2' job). unfold cached_graph, TaskManager.get_active_execution_graph in *.
    by rewrite <-Hc.
  - intros e a Ha. rewrite Hcl in Ha. unfold held. rewrite Hc. by apply H3'.
Qed.

Lemma abort_job_ok now job msg s :
  sched_ok total s → sched_ok total (abort_job config full now job msg s).1.2.
Proof using All.
  intros Hs. pose proof Hs as [Hc Hg Hb]. unfold abort_job, TaskManager.abort_job.
  destruct (TaskManager.get_active_execution_graph job (task_manager s)) as [g|] eqn:Hgr;
    [|by destruct s].
  fold (cached_graph job (task_manager s)) in Hgr. destruct (Hg job g Hgr) as [Hk _].
  pose proof (λ e, freed_slots_held e now msg g Hk) as Hfreed.
  assert ((abort_running now msg g).1 = running_tasks g) as Hrun by done.
  destruct (abort_running now msg g) as [running snapshot]. simpl in Hrun, Hfreed. subst running.
  set (slots := iter_entries _) in *. unfold cancel_and_refund. cbn [fst snd]. rewrite push.
  set (tm1 := TaskManager.set_job_info_status _ _ _).
  pose proof (persist_cache full job snapshot tm1 (task_manager s)) as Hcache.
  destruct (TaskManager.persist_terminal_and_evict full job snapshot tm1) as [o tms] eqn:Hp.
  assert (tms ≠ []) as Hne by (unfold TaskManager.persist_terminal_and_evict in Hp; by simplify_eq).
  simpl. set (tm' := default _ _).
  assert (active_job_cache tm' = delete job (active_job_cache (task_manager s))) as Hcache'.
  { unfold tm', final_tm in *. destruct tms as [|t tms]; [done|]. rewrite last_cons_cons.
    simpl in Hcache. rewrite Hcache. unfold tm1. simpl. apply map_eq. intros k.
    destruct (decide (job = k)) as [<-|Hnk]; [by rewrite !lookup_delete_eq|].
    by rewrite !lookup_delete_ne, !lookup_alter_ne. }
  assert (∀ e a, available_vcores (cluster_of s) !! e = Some a →
    slots_of e slots = graph_held e g ∧ is_u32 (AvailableVcores.vcores a + graph_held e g) ∧
    (AvailableVcores.vcores a + graph_held e g + held e tm')%N = total e) as Hfit.
  { intros e a Ha. pose proof (evicted_held e job g _ _ Hgr Hcache') as Hev.
    pose proof (Hb e a Ha) as Hbal. pose proof (total_u32 e) as Hu. unfold is_u32 in *.
    split_and!; [apply Hfreed; unfold is_u32; lia|lia|lia]. }
  destruct (bool_decide_reflect (slots = [])) as [Hnil|_]; simpl.
  - split; [done|by eapply evicted_ok|]. intros e a Ha. simpl.
    destruct (Hfit e a Ha) as (Hsl & _ & Hsum). rewrite Hnil in Hsl. simpl in Hsl. lia.
  - split; [by apply unbind_tasks_wf|by eapply evicted_ok|]. intros e a' Ha'. simpl.
    destruct (unbind_exact slots (cluster_of s) e a' Hc) as (a & Ha & ->); [|done|].
    + intros a Ha. by destruct (Hfit e a Ha) as (-> & ? & _).
    + by destruct (Hfit e a Ha) as (-> & _ & ?).
Qed.

Lemma succeed_job_ok job s :
  sched_ok total s →
  sched_ok total
    (set_tasks (final_tm (TaskManager.succeed_job full job (task_manager s)).2 (task_manager s)) s).
Proof using All.
  intros Hs. unfold TaskManager.succeed_job.
  destruct (TaskManager.get_active_execution_graph job (task_manager s)) as [g|] eqn:Hg;
    [|by apply (sched_ok_same s)].
  destruct (is_successful g) eqn:Hsu; [|by apply (sched_ok_same s)].
  pose proof (persist_cache full job g (task_manager s) (task_manager s)) as Hc.
  destruct (TaskManager.persist_terminal_and_evict full job g (task_manager s)) as [o tms].
  cbn [snd] in *. destruct Hs as [Hcl Hok Hb]. split; [done|by eapply evicted_ok|].
  intros e a Ha. rewrite <-(Hb e a Ha). f_equal.
  pose proof (evicted_held e job g _ _ Hg Hc) as Hev.
  rewrite successful_graph_held in Hev by done. cbn [task_manager set_tasks]. lia.
Qed.

(** A graph in which nothing changes hands is put back. *)
Lemma write_graph_ok job g g' s :
  sched_ok total s → cached_graph job (task_manager s) = Some g → graph_steps Strict g g' →
  same_held g g' →
  sched_ok total (set_tasks (TaskManager.write_graph job g' (task_manager s)) s).
Proof using All.
  intros [Hcl Hok Hb] Hg Hst Hsame. split; [done| |].
  - intros k g2. cbn [task_manager set_tasks]. rewrite write_graph_cached.
    case_decide; [subst k|by apply Hok].
    rewrite Hg. intros [= <-]. destruct (Hok job g Hg).
    by split; [eapply keyed_steps|eapply all_wf_steps].
  - intros e a Ha. rewrite <-(Hb e a Ha). f_equal.
    pose proof (write_graph_held e job g g' (task_manager s) Hg) as Hw. rewrite Hsame in Hw.
    cbn [task_manager set_tasks]. lia.
Qed.

Lemma update_job_ok now job s :
  sched_ok total s →
  sched_ok total (set_tasks (TaskManager.update_job full now job (task_manager s)).2 s).
Proof using All.
  intros Hs. unfold TaskManager.update_job.
  destruct (TaskManager.get_active_execution_graph job (task_manager s)) as [g|] eqn:Hg;
    [|by apply (sched_ok_same s)].
  destruct (so_graphs _ _ Hs job g Hg) as [Hk _].
  pose proof (write_graph_ok job g (revive now g).2 s Hs Hg (revive_steps Strict now g Hk)
    (revive_held now g Hk)) as Hw.
  by eapply sched_ok_same; [..|exact Hw].
Qed.

(** A new job: none of its tasks is running. *)
Definition fresh (g : StaticExecutionGraph.t) : Prop :=
  keyed g ∧ all_wf g ∧ ∀ e, graph_held e g = 0%N.

Lemma submit_ok now job planned sub s :
  (∀ g, planned = Ok g → fresh g) → active_job_cache (task_manager s) !! job = None →
  sched_ok total s →
  sched_ok total (set_tasks (TaskManager.submit_plan now job planned sub (task_manager s)).2 s).
Proof using All.
  intros Hf Hnew Hs. unfold TaskManager.submit_plan.
  destruct planned as [g| |]; [|by apply (sched_ok_same s)..].
  destruct (submit_job job g sub (TaskManager.state (task_manager s))) as [o sts]. cbn [fst].
  destruct o as [[]| |]; [|by apply (sched_ok_same s)..].
  destruct (Hf g eq_refl) as (Hk & Hwf & Hz). destruct Hs as [Hcl Hok Hb].
  pose proof (revive_steps Strict now g Hk) as Hst. split; [done| |].
  - intros k g2 [st Hi]%cached_graph_Some. cbn in Hi.
    apply lookup_insert_Some in Hi as [[_ Heq]|[_ Hi]].
    + unfold new_job_info in Heq. injection Heq as <- _.
      by split; [eapply keyed_steps|eapply all_wf_steps].
    + apply (Hok k), cached_graph_Some. eauto.
  - intros e a Ha. rewrite <-(Hb e a Ha). f_equal. unfold held. cbn.
    rewrite msumN_fresh by done. unfold info_held at 1. simpl.
    by rewrite (revive_held now g Hk), Hz.
Qed.
End ops.
End facts.
