(* ===== verification/Sample.v ===== *)
(** * A small concrete setting

    Instances of the interfaces of the development with executable definitions,
    and a few stages and graphs built from them: the inputs at which the
    properties are evaluated. *)

From S2P Require Import Prelude Errors Types Stage StageFacts StageSteps Graph GraphSteps.
From S2P Require Import Binding Cluster TaskManager Scheduler DataSample.

(** ** Instances *)

(** A plan: the number of input partitions, the number of columns, whether it
    collapses its input, and whether its shuffles are resolved. *)
Record sample_plan : Type := mkPlan {
  sp_partitions : nat;
  sp_fields : nat;
  sp_collapse : bool;
  sp_resolved : bool;
}.

#[export] Instance sample_payload : Payload := {|
  RuntimeStatsReport := nat;
  WindowStateReport := nat;
  ColumnSketch := nat;
  ProtoMetric := nat;
  MetricValue := nat;
  metric_try_into := λ n, Ok n;
  SessionContext := string;
  LogicalPlan := string;
  ExecutionPlan := string;
|}.

#[export] Instance sample_plan_ops : PlanOps := {|
  Plan := sample_plan;
  ConfigOptions := unit;
  SessionConfig := option N;
  options := λ _, tt;
  stage_input_partitions := sp_partitions;
  schema_num_fields := sp_fields;
  remove_unresolved_shuffles := λ p _,
    Ok (mkPlan (sp_partitions p) (sp_fields p) (sp_collapse p) true);
  rollback_resolved_shuffles := λ p,
    Ok (mkPlan (sp_partitions p) (sp_fields p) (sp_collapse p) false);
  join_selection_optimize := λ p _, Ok p;
  aggregate_statistics_optimize := λ p _, Ok p;
|}.

#[export] Instance sample_bind_ops : BindOps := {|
  plan_shape := λ p : Plan,
    PlanNode false false (sp_partitions p)
      [PlanNode (negb (sp_collapse p)) false (if sp_collapse p then 1 else sp_partitions p) []];
  max_partitions_per_task := λ cfg : SessionConfig, cfg;
|}.

(** Counts that are exact add up, as long as they fit; anything else is absent. *)
#[export] Instance sample_precision : PrecisionOps := λ a b,
  match a, b with
  | Exact x, Exact y => if (x + y <=? usize_max)%N then Exact (x + y) else Absent
  | _, _ => Absent
  end.

#[export] Instance sample_precision_laws : PrecisionLaws.
Proof.
  split; [|done]. intros a b Hab. unfold precision_add, sample_precision.
  by rewrite (proj2 (N.leb_le _ _) Hab).
Qed.

#[export] Instance sample_order : MapOrder := {|
  iter_map := λ A (m : gmap nat A), map_to_list m;
  iter_map_perm := λ A m, reflexivity (map_to_list m);
  iter_set := λ s : gset nat, elements s;
  iter_set_perm := λ s, reflexivity (elements s);
|}.

#[export] Instance sample_values : ValueOrder := {|
  iter_values := λ m, (map_to_list m).*2;
  iter_values_perm := λ m, reflexivity _;
|}.

#[export] Existing Instance sample_hash_order.

#[export] Instance sample_error_text : ErrorText := {|
  display := λ _, "error";
  debug := λ _, "Error";
|}.

(** A plan is sent with the slice it is restricted to. *)
#[export] Instance sample_launch_ops : LaunchOps := {|
  PlanBytes := sample_plan * list nat;
  encode_restricted := λ (p : Plan) ids, inr (p, ids);
  compute_global_output_partition_ids := λ (p : Plan) ids, if sp_collapse p then [0] else ids;
  to_key_value_pairs := λ _, [];
|}.

(** ** Executors, locations and statuses *)

Definition executor (id : string) : ExecutorMetadata.t :=
  ExecutorMetadata.mk id "localhost" 50051 50052 (mkExecutorSpecification 4)
    (mkOsSpecification "linux" "6" "24" "24.04" 8 1 100 50 1024).

Definition plan_of (partitions : nat) : Plan := mkPlan partitions 1 false true.

(** The output of task [task] of stage [sid], kept by [ex] *)
Definition location (sid task : nat) (ex : string) : PartitionLocation.t :=
  PartitionLocation.mk task (PartitionId.mk "job" sid 0) (executor ex)
    (mkPartitionStats (Some 1%N) (Some 1%N) (Some 8%N)) None false.

Definition input_from (sid task : nat) (ex : string) : gmap nat StageOutput.t :=
  {[ sid := StageOutput.mk {[ 0 := [location sid task ex] ]} true ]}.

Definition success_on (ex : string) : status :=
  Successful (SuccessfulTask.mk _ ex [ShuffleWritePartition.mk 0 1 1 8 None false]
    [TaskColumnStats.mk _ 0 2 []] [] []).

Definition task_info (i : nat) (st : status) (ps : list nat) : TaskInfo.t :=
  TaskInfo.mk _ i 1 1 1 1 0 st ps 1.

Definition report (sid i : nat) (st : status) : TaskStatus.t :=
  TaskStatus.mk _ i "job" sid 0 1 2 3 [] (Some st).

Definition fetch_failure (ex : string) (map_stage : nat) : status :=
  Failed (mkFailedTask (Lit "fetch") false false (Some (FR_FetchPartitionError ex map_stage 0))).

Definition io_failure : status :=
  Failed (mkFailedTask (Lit "io") true true (Some FR_IoError)).

Definition execution_failure : status :=
  Failed (mkFailedTask (Lit "bad") false false (Some FR_ExecutionError)).

(** ** Stages *)

(** A stage with two partitions, each held by one task on [ex] *)
Definition two_tasks (sid : nat) (links : list nat) (inputs : gmap nat StageOutput.t)
    (st0 st1 : status) : RunningStage.t :=
  RunningStage.mk _ _ sid 0 1 2 links inputs (plan_of 2) (PendingPartitions.mk 2 [])
    [task_info 0 st0 [0]; task_info 1 st1 [1]] [0; 0] None None [] [].

Definition fresh_stage (sid n : nat) (links : list nat) : RunningStage.t :=
  RunningStage.new 1 sid 0 (plan_of n) n links ∅ None.

Definition finished_stage (sid : nat) (links : list nat) (ex0 ex1 : string)
  : SuccessfulStage.t :=
  RunningStage.to_successful (two_tasks sid links ∅ (success_on ex0) (success_on ex1)).

(** ** Graphs *)

Definition graph_with (m : gmap nat ExecutionStage) : StaticExecutionGraph.t :=
  StaticExecutionGraph.mk _ _ (Some "scheduler") "job" "name" "session"
    (JobStatus.mk "job" "name" (Some (Job_Running 1 2 "scheduler"))) 1 2 0 m [] ∅ None None
    (plan_of 1).

(** A finished map stage whose output on e1 is read by two running stages. *)
Definition shared_map_graph : StaticExecutionGraph.t :=
  graph_with (list_to_map [
    (1, SuccessfulS (finished_stage 1 [2; 3] "e1" "e1"));
    (2, RunningS (two_tasks 2 [4] (input_from 1 0 "e1") (Running "e2") (Running "e2")));
    (3, RunningS (two_tasks 3 [4] (input_from 1 0 "e1") (Running "e2") (Running "e2")));
    (4, UnResolved (UnresolvedStage.new 4 (plan_of 1) [] [2; 3] None))]).

(** One running stage that feeds a second one. *)
Definition chain_graph : StaticExecutionGraph.t :=
  graph_with (list_to_map [
    (1, RunningS (two_tasks 1 [2] ∅ (Running "e1") (success_on "e2")));
    (2, UnResolved (UnresolvedStage.new 2 (plan_of 1) [] [1] None))]).

(** One stage that just started. *)
Definition fresh_graph : StaticExecutionGraph.t :=
  graph_with (list_to_map [(3, RunningS (fresh_stage 3 4 []))]).

(** ** The samples are well-formed *)

Lemma two_tasks_wf sid links inputs st0 st1 :
  live_status st0 = true → live_status st1 = true →
  running_wf (two_tasks sid links inputs st0 st1).
Proof.
  intros H0 H1. split; [|done]. simpl.
  assert (∀ i ti, [task_info 0 st0 [0]; task_info 1 st1 [1]] !! i = Some ti →
    ids ti = [i] ∧ i < 2) as Hi.
  { intros [|[|i]] ti; simpl; intros; simplify_eq; split; done || lia. }
  split.
  - unfold slices. rewrite !filter_cons_True by (rewrite live_of_status; done). done.
  - intros i ti p Hti. destruct (Hi _ _ Hti) as [-> ?]. set_solver.
  - intros i ti Hti. destruct (Hi _ _ Hti) as [-> ?]. done.
  - intros i j ti tj p Hti Htj Hij. destruct (Hi _ _ Hti) as [-> ?], (Hi _ _ Htj) as [-> ?].
    rewrite !list_elem_of_singleton. lia.
Qed.

Lemma finished_stage_wf sid links ex0 ex1 :
  stage_wf (SuccessfulS (finished_stage sid links ex0 ex1)).
Proof.
  exists []. apply successful_finished, to_successful_wf; [|done].
  by apply two_tasks_wf.
Qed.

(** A graph made of a list of stages: what holds of the list holds of the graph. *)
Lemma graph_with_keyed (l : list (nat * ExecutionStage)) :
  Forall (λ kv, stage_key kv.2 = kv.1) l → keyed (graph_with (list_to_map l)).
Proof.
  intros Hl sid x Hx%elem_of_list_to_map_2. rewrite Forall_forall in Hl.
  apply (Hl _ Hx).
Qed.

Lemma graph_with_wf (l : list (nat * ExecutionStage)) :
  Forall (λ kv, stage_wf kv.2) l → all_wf (graph_with (list_to_map l)).
Proof.
  intros Hl sid x Hx%elem_of_list_to_map_2. rewrite Forall_forall in Hl.
  apply (Hl _ Hx).
Qed.

Lemma shared_map_graph_keyed : keyed shared_map_graph.
Proof. apply graph_with_keyed. by repeat constructor. Qed.
Lemma shared_map_graph_wf : all_wf shared_map_graph.
Proof.
  apply graph_with_wf.
  repeat (apply Forall_cons; split; [first [done|apply finished_stage_wf|by apply two_tasks_wf]|]).
  by apply Forall_nil.
Qed.

Lemma chain_graph_keyed : keyed chain_graph.
Proof. apply graph_with_keyed. by repeat constructor. Qed.
Lemma chain_graph_wf : all_wf chain_graph.
Proof.
  apply graph_with_wf.
  repeat (apply Forall_cons; split; [first [done|by apply two_tasks_wf]|]).
  by apply Forall_nil.
Qed.

Lemma fresh_graph_keyed : keyed fresh_graph.
Proof. apply graph_with_keyed. by repeat constructor. Qed.
Lemma fresh_graph_wf : all_wf fresh_graph.
Proof. apply graph_with_wf, Forall_singleton, running_new_wf. Qed.

(** No report of the list is about a task that was killed or lost its result. *)
Lemma reports_ok (l : list TaskStatus.t) :
  Forall (λ ts, match TaskStatus.status ts with
                | Some st => live_status st = true
                | None => True
                end) l →
  ∀ ts, ts ∈ l → report_ok ts.
Proof.
  intros Hl ts Hts f Hf. rewrite Forall_forall in Hl. specialize (Hl ts Hts).
  rewrite Hf in Hl. congruence.
Qed.
