(* ===== verification/JobTheorems.v ===== *)
(** * Jobs are run to completion

    The properties of the execution graph of a job: what a batch of task
    statuses and a lost executor do to its stages, when the job is settled, and
    which stage is handed to the scheduler next. Each property is evaluated on a
    graph of [Sample]. *)

From S2P Require Import Prelude Errors Types Stage StageFacts StageSteps Graph GraphSteps.
From S2P Require Import LostExecutor Retained GraphFacts Held Binding BindingFacts Cluster Transfer Sample.
Import StaticExecutionGraph(stages, job_id, queued_at).

Section jobs.
Context `{PlanOps} `{Payload} `{PrecisionOps} `{MapOrder}.
Abbreviation graph := StaticExecutionGraph.t.
Implicit Types (g : graph) (x y : ExecutionStage) (sid : nat).

(** What the loop over the stages of [update_task_status] collects. *)
Definition collect now ex sts mtf msf g : result unit * (graph * Acc.t) :=
  let g1 := (revive now g).2 in
  mfor (iter_map (classify sts))
    (update_one_stage now ex mtf msf (list_to_set (running_stages g1)))
    (g1, Acc.init (StaticExecutionGraph.failed_stage_attempts g1)).

(** C1. A batch of task statuses never loses a partition: in the graph that
    [update_task_status] leaves, for any statuses, on every path and whatever it returns,
    each partition of a running stage is pending, in the slice of a live task, or in the
    slice of a task that was given up, and each partition of a finished stage is in the
    slice of a task. A task is given up when it is reported killed, or its result lost, and
    the report is not one to be retried without counting ([report_ok]); when all reports
    are such, no further task is given up. *)
Theorem update_loses_no_partition now ex sts mtf msf g :
  keyed g → all_ok g →
  let g' := (update_task_status now ex sts mtf msf g).2 in
  keyed g' ∧ all_ok g' ∧ ((∀ ts, ts ∈ sts → report_ok ts) → all_kept g → all_kept g').
Proof.
  intros Hk Hok. cbv zeta.
  assert (graph_steps Lenient g (update_task_status now ex sts mtf msf g).2)
    by (by apply update_task_status_steps).
  split_and!; [by eapply keyed_steps|by eapply all_ok_steps|].
  intros Hrep Hkept. apply (all_kept_steps Retrying g); [done..|]. by apply update_task_status_steps.
Qed.

(** C2. When killed tasks and lost results are reported to be retried without counting,
    and no fetch failure is reported to an unresolved stage, a batch of task
    statuses keeps every partition exactly once: pending, or in the slice of
    one live task, which is the latest one that holds it. *)
Theorem update_holds_each_partition_once now ex sts mtf msf g :
  keyed g → all_wf g → (∀ ts, ts ∈ sts → report_ok ts) →
  (∀ ts u, ts ∈ sts → stages g !! TaskStatus.stage_id ts = Some (UnResolved u) →
     is_fetch_failure ts = false) →
  all_wf (update_task_status now ex sts mtf msf g).2.
Proof.
  intros Hk Hwf Hrep Hnl. eapply all_wf_steps; [exact Hwf|].
  apply update_task_status_steps; [done|by apply all_wf_ok|done|].
  intros _ ts u Hts Hu. eapply Hnl; [done|]. by eapply revive_unresolved.
Qed.

(** C15. When an executor is lost, resetting the stages terminates after at
    most one pass per location and task on the executor. Whatever it ends
    with, it keeps the stages of the graph and holds every partition of a
    running stage once. When it ends without an error, no unfinished stage
    reads from the executor, runs on it or counts on the output of a task that
    ran there; the only error it can end with is the one
    [rollback_resolved_shuffles] gives on the plan of a resolved stage of the
    graph. *)
Theorem lost_executor_is_forgotten fuel now e g :
  keyed g → all_wf g → graph_weight e g < fuel →
  ∃ o g', reset_stages_on_lost_executor fuel now e g = (Some o, g') ∧
    dom (stages g') = dom (stages g) ∧ keyed g' ∧ all_wf g' ∧
    match o with
    | Ok _ => ∀ sid x, stages g' !! sid = Some x → is_open x = true → independent e x
    | Err err => ∃ p, has_plan g p ∧ rollback_resolved_shuffles p = Err err
    | Panic => ∃ p, has_plan g p ∧ rollback_resolved_shuffles p = Panic
    end.
Proof using All.
  intros Hk Hwf Hfuel.
  destruct (reset_loop_terminates fuel now e g g (λ _ Hp, Hp) Hfuel) as (o & g' & Heq & Ho).
  pose proof (reset_stages_on_lost_executor_steps Strict fuel now e g Hk) as Hs.
  pose proof (reset_loop_dom fuel now e g Hk) as Hd. rewrite Heq in Hs, Hd.
  exists o, g'. split_and!; [done..|by eapply keyed_steps|by eapply all_wf_steps|].
  destruct o; [|done..]. intros sid x. by eapply reset_loop_independent.
Qed.

(** C18. A batch whose fetch failures name finished map stages keeps the
    stages of the graph, on every path. *)
Theorem update_keeps_stages now ex sts mtf msf g :
  keyed g → all_ok g →
  (∀ ts f e a b, ts ∈ sts → TaskStatus.status ts = Some (Failed f) →
     failed_reason f = Some (FR_FetchPartitionError e a b) → finished_at g a) →
  dom (stages (update_task_status now ex sts mtf msf g).2) = dom (stages g).
Proof using All. apply update_task_status_dom. Qed.

(** C19. A stage moves only along the transitions of the state machine: after a
    batch each stage is reached by steps from what it was, with its id and its
    output links, and its attempt number has not decreased. *)
Theorem update_follows_state_machine now ex sts mtf msf g sid y :
  keyed g → all_ok g →
  stages (update_task_status now ex sts mtf msf g).2 !! sid = Some y →
  ∃ x, stages g !! sid = Some x ∧ rtc (stage_step Lenient) x y ∧
    stage_key y = sid ∧ stage_output_links y = stage_output_links x ∧
    attempt_of x ≤ attempt_of y.
Proof.
  intros Hk Hok Hy.
  destruct (update_task_status_steps Lenient now ex sts mtf msf g Hk Hok ltac:(done)
    ltac:(done) sid y Hy) as (x & Hx & Hxy).
  destruct (stage_steps_frame _ _ _ Hxy) as (Hkey & Hlinks & Hatt).
  exists x. split_and!; [done..|by rewrite Hkey; apply Hk|done|done].
Qed.

(** C20. Take any sequence of steps of a stage from its creation on in which
    only live tasks are reset and every killed task is retried (the steps of
    mode [Strict]). While the stage is running it has each partition exactly
    once, it is found successful exactly when nothing is pending and every live
    task succeeded, and until then it has either a running task or a partition
    to hand out, provided that no live task of it has failed. *)
Theorem running_stage_never_stuck sid plan links children cfg (s : RunningStage.t) :
  rtc (stage_step Strict)
    (UnResolved (UnresolvedStage.new sid plan links children cfg)) (RunningS s) →
  running_wf s ∧
  ∃ b, RunningStage.is_successful s = Ok b ∧
    (b = true ↔
       PendingPartitions.queue (RunningStage.pending s) = [] ∧
       ∀ i ti, RunningStage.task_infos s !! i = Some ti → live ti = true →
               TaskInfo.is_successful ti = true) ∧
    (b = false →
     (∀ i ti f, RunningStage.task_infos s !! i = Some ti →
        TaskInfo.task_status ti = Failed f → live ti = false) →
     RunningStage.running_tasks s ≠ [] ∨ 0 < RunningStage.available_tasks s).
Proof.
  intros Hs. assert (running_wf s) as Hwf by (by eapply (stage_steps_wf _ _ Hs)).
  split; [done|]. destruct (is_successful_spec s Hwf) as (b & Hb & Hiff).
  exists b. split_and!; [done..|]. intros ->. by apply not_stuck.
Qed.

(** C23. A batch that is processed leaves the job failed exactly when its
    statuses failed a stage, with one event that says so; finished exactly when
    they failed none and all stages are successful, with the output locations;
    and otherwise in the state it had, with no event about the job's end. *)
Theorem update_settles_job now ex sts mtf msf g evs g' :
  update_task_status now ex sts mtf msf g = (Ok evs, g') →
  (collect now ex sts mtf msf g).1 = Ok tt ∧
  settled now g (Acc.failed_stages (collect now ex sts mtf msf g).2.2) evs g'.
Proof using All.
  intros (g2 & acc & Hloop & Hs)%update_task_status_ok. unfold collect.
  by rewrite Hloop.
Qed.

(** C34. A failure that is not retried (an execution error, or a failure
    without a reason) of a live task of the current attempt fails the job: the
    status of the job is failed, and the last event tells the scheduler. *)
Theorem fatal_failure_fails_job now ex before ts after mtf msf g s ti f evs g' :
  keyed g →
  stages g !! TaskStatus.stage_id ts = Some (RunningS s) →
  RunningStage.task_infos s !! TaskStatus.task_id ts = Some ti → live ti = true →
  RunningStage.stage_attempt_num s ≤ TaskStatus.stage_attempt_num ts →
  TaskStatus.status ts = Some (Failed f) → fatal f →
  (∀ ts', ts' ∈ before → TaskStatus.stage_id ts' = TaskStatus.stage_id ts →
     TaskStatus.task_id ts' ≠ TaskStatus.task_id ts) →
  update_task_status now ex (before ++ ts :: after) mtf msf g = (Ok evs, g') →
  job_failed g' = true ∧
  ∃ msg, last evs = Some (JobRunningFailed (job_id g) msg (queued_at g) now).
Proof using All.
  intros Hk Hx Hi Hl Ha Hst Hf Hother (g2 & acc & Hloop & Hs)%update_task_status_ok.
  set (sid := TaskStatus.stage_id ts) in *. set (sts := before ++ ts :: after) in *.
  pose proof (classify_lookup sts sid) as Hc. unfold sts in Hc at 2.
  rewrite filter_app, filter_cons_True in Hc by done.
  destruct (classify sts !! sid) as [l|] eqn:Hl2; simpl in Hc;
    [|by apply app_cons_not_nil in Hc].
  assert (stages (revive now g).2 !! sid = Some (RunningS s)) as Hx1
    by (apply (revive_same_running now g Hk); [by intros []|done]).
  assert (some_failed acc) as Hfail.
  { eapply update_loop_fatal; [apply nodup_iter_map| |exact Hx1|done..| |exact Hloop].
    - apply elem_of_iter_map. by rewrite Hl2, Hc.
    - intros ts' [? ?]%list_elem_of_filter. by apply Hother. }
  destruct Hs as [pre _ -> _ Hstat| |]; [|done|done].
  split; [unfold job_failed; by rewrite Hstat|]. rewrite last_snoc. eauto.
Qed.

(** C35. A retryable failure that counts adds one to the counters of exactly
    the partitions of its task. While all of them stay below the limit the
    slice is put back at the front of the queue, in order; otherwise the stage
    fails and nothing is rescheduled. *)
Theorem counted_failure_retries_or_fails now ex mtf msf job sid ts s ti f acc locs :
  running_wf s → RunningStage.task_infos s !! TaskStatus.task_id ts = Some ti →
  live ti = true → RunningStage.stage_attempt_num s ≤ TaskStatus.stage_attempt_num ts →
  TaskStatus.status ts = Some (Failed f) → counted f →
  ∃ c', process_running_status now job ex mtf msf sid ts (mkRunningCtx s acc locs)
          = (Ok tt, c') ∧
    rc_locations c' = locs ∧
    (∀ p, failures_of (rc_stage c') p =
       if bool_decide (p ∈ ids ti) then S (failures_of s p) else failures_of s p) ∧
    if bool_decide (Forall (λ p, S (failures_of s p) < mtf) (ids ti)) then
      rc_acc c' = acc ∧
      PendingPartitions.queue (RunningStage.pending (rc_stage c'))
        = ids ti ++ PendingPartitions.queue (RunningStage.pending s)
    else
      (∃ msg, rc_acc c' = Acc.fail_stage sid msg acc) ∧
      RunningStage.pending (rc_stage c') = RunningStage.pending s.
Proof. apply counted_failure. Qed.

(** The stage that is handed to the scheduler is running, not on the
    black list, and has partitions to hand out. If none is handed out the job
    has failed, or no stage qualifies, not even a resolved one that could be
    started. Running stages are left as they are. *)
Theorem fetched_stage_is_schedulable now bl g :
  keyed g →
  let r := fetch_running_stage now bl g in
  graph_steps Strict g r.2 ∧ same_running (λ _, False) g r.2 ∧ header r.2 = header g ∧
  match r.1 with
  | Some (sid, s) =>
      stages r.2 !! sid = Some (RunningS s) ∧ schedulable bl sid (RunningS s)
  | None => job_failed g = true ∨
      ∀ sid x, stages r.2 !! sid = Some x → ¬ schedulable bl sid x ∧ ∀ rs, x ≠ Resolved rs
  end.
Proof using All.
  intros Hk. destruct (fetch_running_stage_spec now bl g Hk) as (? & ? & ? & _ & ?). by split_and!.
Qed.
End jobs.

(** ** The properties on concrete graphs *)

Definition batch : list TaskStatus.t :=
  [report 1 0 (success_on "e1"); report 1 1 io_failure].

(** The first task of stage 1 was killed and is not to be retried. *)
Definition killed_batch : list TaskStatus.t :=
  [report 1 0 (Failed (mkFailedTask (Lit "killed") false false (Some FR_TaskKilled)))].

(** Stage 2 cannot read the output of stage 1 on e1. *)
Definition fetch_batch : list TaskStatus.t := [report 2 0 (fetch_failure "e1" 1)].

Lemma batch_ok ts : ts ∈ batch → report_ok ts.
Proof. apply reports_ok. by repeat constructor. Qed.

Lemma chain_graph_kept : all_kept chain_graph.
Proof.
  assert (map_Forall (λ _, stage_kept) (stages chain_graph)) as Hall; [|exact Hall].
  apply (bool_decide_unpack _). by vm_compute.
Qed.

(** The batch of retried failures gives up no task. A kill that is not to be
    retried gives up its task: that batch still loses no partition. *)
Lemma update_loses_no_partition_witness :
  (let g' := (update_task_status 5 (executor "e1") batch 4 4 chain_graph).2 in
   keyed g' ∧ all_ok g' ∧ all_kept g') ∧
  (let g' := (update_task_status 5 (executor "e1") killed_batch 4 4 chain_graph).2 in
   keyed g' ∧ all_ok g').
Proof.
  split.
  - destruct (update_loses_no_partition 5 (executor "e1") batch 4 4 chain_graph
      chain_graph_keyed (all_wf_ok _ chain_graph_wf)) as (Hk & Hok & Hkept).
    split_and!; [done..|]. apply Hkept; [apply batch_ok|apply chain_graph_kept].
  - destruct (update_loses_no_partition 5 (executor "e1") killed_batch 4 4 chain_graph
      chain_graph_keyed (all_wf_ok _ chain_graph_wf)) as (Hk & Hok & _). done.
Defined.

Lemma update_holds_each_partition_once_witness :
  all_wf (update_task_status 5 (executor "e1") batch 4 4 chain_graph).2.
Proof.
  apply (update_holds_each_partition_once 5 (executor "e1") batch 4 4 chain_graph).
  - apply chain_graph_keyed.
  - apply chain_graph_wf.
  - apply batch_ok.
  - intros ts u Hts. apply list_elem_of_In in Hts. by destruct Hts as [<-|[<-|[]]].
Defined.

Lemma lost_executor_is_forgotten_witness :
  graph_weight "e1" shared_map_graph = 4 ∧
  ∃ r g', reset_stages_on_lost_executor 5 7 "e1" shared_map_graph = (Some (Ok r), g') ∧
    dom (stages g') = dom (stages shared_map_graph) ∧ keyed g' ∧ all_wf g' ∧
    ∀ sid x, stages g' !! sid = Some x → is_open x = true → independent "e1" x.
Proof.
  split; [by vm_compute|].
  destruct (lost_executor_is_forgotten 5 7 "e1" shared_map_graph) as (o & g' & Heq & Hrest).
  - apply shared_map_graph_keyed.
  - apply shared_map_graph_wf.
  - vm_compute. lia.
  - destruct o as [r| |]; [by exists r, g'|destruct Hrest as (_ & _ & _ & p & _ & [=])..].
Defined.

Lemma update_keeps_stages_witness :
  dom (stages (update_task_status 5 (executor "e2") fetch_batch 4 4
                 shared_map_graph).2) = dom (stages shared_map_graph).
Proof.
  apply (update_keeps_stages 5 (executor "e2") fetch_batch 4 4
           shared_map_graph).
  - apply shared_map_graph_keyed.
  - apply all_wf_ok, shared_map_graph_wf.
  - intros ts f e a b ->%list_elem_of_singleton [= <-] [= _ <- _]. by eexists.
Defined.

Lemma update_follows_state_machine_witness :
  ∃ x y, stages (update_task_status 5 (executor "e2") fetch_batch 4 4
                   shared_map_graph).2 !! 2 = Some y ∧
    stages shared_map_graph !! 2 = Some x ∧ rtc (stage_step Lenient) x y ∧
    stage_key y = 2 ∧ stage_output_links y = stage_output_links x ∧
    attempt_of x ≤ attempt_of y ∧ attempt_of y = 1.
Proof.
  eassert (stages (update_task_status 5 (executor "e2") fetch_batch 4 4
                     shared_map_graph).2 !! 2 = Some _) as Hy by (by vm_compute).
  destruct (update_follows_state_machine 5 (executor "e2") fetch_batch 4 4 shared_map_graph 2 _
    shared_map_graph_keyed (all_wf_ok _ shared_map_graph_wf) Hy)
    as (x & ? & ? & ? & ? & ?).
  eexists x, _. by split_and!.
Defined.

Lemma running_stage_never_stuck_witness :
  let s := RunningStage.new 1 3 0 (plan_of 2) 2 [4] ∅ None in
  running_wf s ∧
  ∃ b, RunningStage.is_successful s = Ok b ∧
    (b = true ↔
       PendingPartitions.queue (RunningStage.pending s) = [] ∧
       ∀ i ti, RunningStage.task_infos s !! i = Some ti → live ti = true →
               TaskInfo.is_successful ti = true) ∧
    (b = false →
     (∀ i ti f, RunningStage.task_infos s !! i = Some ti →
        TaskInfo.task_status ti = Failed f → live ti = false) →
     RunningStage.running_tasks s ≠ [] ∨ 0 < RunningStage.available_tasks s).
Proof.
  apply (running_stage_never_stuck 3 (plan_of 2) [4] [] None).
  eapply rtc_l; [by eapply Step_resolve with (opts := tt)|]. eapply rtc_once, (Step_start _ 1).
Defined.

Lemma update_settles_job_witness :
  ∃ evs g', update_task_status 5 (executor "e1") batch 4 4 chain_graph = (Ok evs, g') ∧
    (collect 5 (executor "e1") batch 4 4 chain_graph).1 = Ok tt ∧
    settled 5 chain_graph
      (Acc.failed_stages (collect 5 (executor "e1") batch 4 4 chain_graph).2.2) evs g'.
Proof.
  eassert (update_task_status 5 (executor "e1") batch 4 4 chain_graph = (Ok _, _)) as Heq
    by (by vm_compute).
  eexists _, _. split; [exact Heq|].
  apply (update_settles_job 5 (executor "e1") batch 4 4 chain_graph _ _ Heq).
Defined.

Lemma fatal_failure_fails_job_witness :
  ∃ evs g', update_task_status 5 (executor "e1")
              ([] ++ report 1 0 execution_failure :: batch) 4 4 chain_graph = (Ok evs, g') ∧
    job_failed g' = true ∧
    ∃ msg, last evs = Some (JobRunningFailed "job" msg 1 5).
Proof.
  eassert (update_task_status 5 (executor "e1")
    ([] ++ report 1 0 execution_failure :: batch) 4 4 chain_graph = (Ok _, _)) as Heq
    by (by vm_compute).
  eexists _, _. split; [exact Heq|].
  eapply (fatal_failure_fails_job 5 (executor "e1") [] (report 1 0 execution_failure) batch
    4 4 chain_graph); [apply chain_graph_keyed|done|done|done|by simpl; lia|done|by left| |exact Heq].
  intros ts' Hts'. by destruct (not_elem_of_nil _ Hts').
Defined.

Lemma counted_failure_retries_or_fails_witness :
  let s := two_tasks 1 [2] ∅ (Running "e1") (Running "e1") in
  ∃ c', process_running_status 5 "job" (executor "e1") 1 4 1 (report 1 0 io_failure)
          (mkRunningCtx s (Acc.init ∅) []) = (Ok tt, c') ∧
    rc_locations c' = [] ∧
    (∀ p, failures_of (rc_stage c') p =
       if bool_decide (p ∈ [0]) then S (failures_of s p) else failures_of s p) ∧
    if bool_decide (Forall (λ p, S (failures_of s p) < 1) [0]) then
      rc_acc c' = Acc.init ∅ ∧
      PendingPartitions.queue (RunningStage.pending (rc_stage c'))
        = [0] ++ PendingPartitions.queue (RunningStage.pending s)
    else
      (∃ msg, rc_acc c' = Acc.fail_stage 1 msg (Acc.init ∅)) ∧
      RunningStage.pending (rc_stage c') = RunningStage.pending s.
Proof.
  apply (counted_failure_retries_or_fails 5 (executor "e1") 1 4 "job" 1 (report 1 0 io_failure)
    (two_tasks 1 [2] ∅ (Running "e1") (Running "e1")) (task_info 0 (Running "e1") [0])
    (mkFailedTask (Lit "io") true true (Some FR_IoError)));
    [by apply two_tasks_wf|done|done|by simpl; lia|done|done].
Defined.

Lemma fetched_stage_is_schedulable_witness :
  let g := fresh_graph in
  let r := fetch_running_stage 5 [] g in
  graph_steps Strict g r.2 ∧ same_running (λ _, False) g r.2 ∧ header r.2 = header g ∧
  match r.1 with
  | Some (sid, s) =>
      stages r.2 !! sid = Some (RunningS s) ∧ schedulable [] sid (RunningS s)
  | None => job_failed g = true ∨
      ∀ sid x, stages r.2 !! sid = Some x → ¬ schedulable [] sid x ∧ ∀ rs, x ≠ Resolved rs
  end.
Proof.
  apply (fetched_stage_is_schedulable 5 [] fresh_graph), fresh_graph_keyed.
Defined.

(** ** A map stage shared by two stages *)

(** The output of a map stage on a lost executor is read by two running
    stages. Both report their failure to fetch it, in two batches. The first one
    starts the map stage again; the second one deletes the map stage, which is
    running, from the graph, although both batches are accepted. The two readers
    then wait for an input that no stage of the graph produces. *)
Theorem second_fetch_failure_drops_map_stage :
  let r1 := update_task_status 5 (executor "e2") [report 2 0 (fetch_failure "e1" 1)] 4 4
              shared_map_graph in
  let r2 := update_task_status 6 (executor "e2") [report 3 0 (fetch_failure "e1" 1)] 4 4 r1.2 in
  (∃ evs1 evs2, r1.1 = Ok evs1 ∧ r2.1 = Ok evs2) ∧
  variant_name <$> stages r1.2 !! 1 = Some "Running" ∧
  stages r2.2 !! 1 = None ∧
  variant_name <$> stages r2.2 !! 2 = Some "Unresolved" ∧
  variant_name <$> stages r2.2 !! 3 = Some "Unresolved" ∧
  job_failed r2.2 = false.
Proof. vm_compute. split_and!; try done. by eexists _, _. Qed.

(** ** Attempts of a stage and the files of its tasks *)

(** A stage that is rolled back and started again numbers its tasks from zero, and the
    path of a shuffle file does not tell the attempts apart. *)

Section attempts.
Context `{PlanOps} `{Payload} `{BindOps}.

Lemma bind_one_key now session job s budget executor task s' budget' :
  bind_one now session job s budget = (Ok (Some (executor, task)), s', budget') →
  TaskDescription.key task = TaskKey.mk job (RunningStage.stage_id s) (length (RunningStage.task_infos s)) ∧
  TaskDescription.stage_attempt_num task = RunningStage.stage_attempt_num s.
Proof.
  unfold bind_one. destruct (PendingPartitions.next_slice _ _) as [[|p q] pend]; [done|].
  cbv beta iota zeta. destruct (max_at _ _) as [m| |]; by intros [= <- <- <- <-].
Qed.

(** The first task of a stage and the first task of the stage after a rollback have
    the same key, although keys are meant to be unique, and belong to two attempts. The
    outputs they write for a partition have the same path; so a reader on an executor
    that still has the output of the first one takes it for that of the second, which is
    on another executor. *)
Theorem rollback_reuses_task_files now1 now2 now3 session job s0 s s0' s2' b1 b1' b2 b2' e1 e2 t1 t2 reasons opts u r
    work_dir disk meta1 meta2 p nb1 nr1 by1 nb2 nr2 by2 :
  RunningStage.task_infos s0 = [] → RunningStage.stage_id s = RunningStage.stage_id s0 →
  RunningStage.stage_attempt_num s0 ≤ RunningStage.stage_attempt_num s →
  bind_one now1 session job s0 b1 = (Ok (Some (e1, t1)), s0', b1') →
  RunningStage.to_unresolved reasons s = Ok u → UnresolvedStage_to_resolved opts u = Ok r →
  bind_one now3 session job (ResolvedStage.to_running now2 r) b2 = (Ok (Some (e2, t2)), s2', b2') →
  let output meta t nb nr by_ :=
    partition_to_location job (TaskKey.task_id (TaskDescription.key t)) (TaskKey.stage_id (TaskDescription.key t)) meta
      [ShuffleWritePartition.mk p nb nr by_ (Some (N.of_nat (TaskKey.task_id (TaskDescription.key t)))) true] in
  TaskDescription.key t1 = TaskDescription.key t2 ∧
  TaskDescription.stage_attempt_num t1 < TaskDescription.stage_attempt_num t2 ∧
  ∀ l1 l2, output meta1 t1 nb1 nr1 by1 = [l1] → output meta2 t2 nb2 nr2 by2 = [l2] →
    location_path work_dir l1 = location_path work_dir l2 ∧
    (is_local disk work_dir l1 = true → local_remote_read_split disk work_dir [l2] false = ([l2], [])).
Proof.
  intros Hnil Hid Hatt Hb1 Hu Hr Hb2 output.
  apply bind_one_key in Hb1 as [Hk1 Ha1]. apply bind_one_key in Hb2 as [Hk2 Ha2]. rewrite Hnil in Hk1. cbn in Hk1.
  unfold RunningStage.to_unresolved in Hu. destruct (rollback_resolved_shuffles _) as [pl| |]; [|done..].
  injection Hu as <-. unfold UnresolvedStage_to_resolved in Hr. cbn in Hr.
  repeat match type of Hr with obind ?o _ = _ => destruct o; [|done..]; cbn [obind] in Hr end. injection Hr as <-.
  cbn in Hk2, Ha2. rewrite Hid in Hk2. rewrite Hk1, Hk2, Ha1, Ha2. split_and!; [done|lia|].
  unfold output. rewrite Hk1, Hk2. intros l1 l2 Hl1 Hl2.
  assert (location_path work_dir l1 = location_path work_dir l2) as Hpath.
  { cbn in Hl1, Hl2. injection Hl1 as <-. by injection Hl2 as <-. }
  split; [done|]. intros Hloc. assert (is_local disk work_dir l2 = true) as Hloc2.
  { rewrite <-Hloc. unfold is_local. by rewrite Hpath. }
  unfold local_remote_read_split. cbn [negb].
  by rewrite filter_cons_True, filter_cons_False by (rewrite Hloc2; done || by intros []).
Qed.
End attempts.

(** ** A stage on two executors *)

Definition bound_stage (r : result (option BoundTask) * RunningStage.t * AvailableVcores.t) : RunningStage.t := r.1.2.

Definition first_round := bind_one 1 "session" "job" (fresh_stage 3 4 []) (AvailableVcores.mk "e1" 4).

Definition rolled_back : UnresolvedStage.t :=
  match RunningStage.to_unresolved ∅ (bound_stage first_round) with
  | Ok u => u
  | _ => UnresolvedStage.new 3 (plan_of 4) [] [] None
  end.

Definition resolved_again : ResolvedStage.t :=
  match UnresolvedStage_to_resolved (H := sample_plan_ops) tt rolled_back with
  | Ok r => r
  | _ => ResolvedStage.new 3 0 (plan_of 4) [] ∅ ∅ None
  end.

Definition second_round := bind_one 3 "session" "job" (ResolvedStage.to_running 2 resolved_again) (AvailableVcores.mk "e2" 1).

Definition task_of (r : result (option BoundTask) * RunningStage.t * AvailableVcores.t) : TaskDescription.t :=
  match r.1.1 with
  | Ok (Some (_, t)) => t
  | _ => TaskDescription.mk _ "none" (TaskKey.mk "none" 0 0) 0 0 [] 0 (plan_of 0) None
  end.

Definition stale_path : Path := ["work"; "job"; "3"; "0"; "data.arrow"]%string.

(** The first task had all four partitions and its output is on e1, the second has one
    and its output is on e2; a reader on e1 reads the former. *)
Lemma rollback_reuses_task_files_witness :
  TaskDescription.global_input_partition_ids (task_of first_round) = [0; 1; 2; 3] ∧
  TaskDescription.global_input_partition_ids (task_of second_round) = [0] ∧
  TaskDescription.key (task_of first_round) = TaskDescription.key (task_of second_round) ∧
  ∃ l2, loc_executor l2 = "e2"%string ∧
    local_remote_read_split {[stale_path := [0%N]]} ["work"%string] [l2] false = ([l2], []).
Proof.
  split; [by vm_compute|]. split; [by vm_compute|].
  destruct (rollback_reuses_task_files 1 2 3 "session" "job" (fresh_stage 3 4 []) (bound_stage first_round)
    (bound_stage first_round) (bound_stage second_round) (AvailableVcores.mk "e1" 4) first_round.2 (AvailableVcores.mk "e2" 1)
    second_round.2 "e1" "e2" (task_of first_round) (task_of second_round) ∅ (tt : ConfigOptions (PlanOps := sample_plan_ops))
    rolled_back resolved_again
    ["work"%string] {[stale_path := [0%N]]} (executor "e1") (executor "e2") 0 1 10 80 1 2 16)
    as (Hk & _ & Hl); [reflexivity..|].
  split; [exact Hk|]. destruct (Hl _ _ eq_refl eq_refl) as [_ Hread]. eexists. split; [|apply Hread]; reflexivity.
Defined.
