(* ===== verification/ClusterTheorems.v ===== *)
(** * Vcores are spent on recorded tasks

    The properties of a binding round and of the state of the cluster: what a
    task takes from an executor, what a round of either policy leaves behind,
    that ending the tasks of a round gives everything back, and the invariant of
    the maps of [InMemoryClusterState] over any sequence of its operations. *)

From S2P Require Import Prelude Errors Types Stage StageFacts StageSteps Graph GraphSteps.
From S2P Require Import GraphFacts Binding BindingFacts Cluster ClusterFacts Sample.
Import StaticExecutionGraph(stages).

Section binding.
Context `{PlanOps} `{Payload} `{PrecisionOps} `{MapOrder} `{!BindOps} `{!ValueOrder}.
Set Default Proof Using "All".

(** One step of the state of the cluster: a call of one of its operations, the
    rounds being those of the built-in policies over well-formed jobs *)
Inductive cluster_step : InMemoryClusterState → InMemoryClusterState → Prop :=
| Cl_register now m spec c :
    is_u32 (ExecutorData.available_vcores spec) →
    cluster_step c (register_executor now m spec c).2
| Cl_metadata now m c : cluster_step c (save_executor_metadata now m c).2
| Cl_heartbeat hb c : cluster_step c (save_executor_heartbeat hb c).2
| Cl_remove id c : cluster_step c (remove_executor id c)
| Cl_bind now policy jobs only c :
    Forall job_ok jobs → built_in policy = true →
    cluster_step c (bind_schedulable_tasks now policy jobs only c).2
| Cl_unbind slots c : cluster_step c (unbind_tasks slots c).

(** C36. A round of the bias policy terminates. Per executor, the vcores still
    offered and those of the tasks handed out add up to the vcores offered
    before. Each task is on record in a running stage of its job with its
    executor, its slice and its vcores. The round ends with all vcores taken,
    or with no partition left to hand out in a running job. *)
Theorem bias_round_is_exact if_skip now budgets jobs :
  Forall (λ a, is_u32 (AvailableVcores.vcores a)) budgets → Forall job_ok jobs →
  let r := bind_task_bias if_skip now budgets jobs in
  Forall2 same_job jobs r.1.2 ∧
  (∀ e, balance e r.2 = budget_of e budgets) ∧
  AvailableVcores.executor_id <$> b_budgets r.2 ≡ₚ AvailableVcores.executor_id <$> budgets ∧
  Forall (recorded_by r.1.2) (b_tasks r.2) ∧
  ((r.1.1 = Ended ∧ Forall (served if_skip) r.1.2) ∨ (r.1.1 = NoVcores ∧ all_spent r.2)).
Proof. apply (bind_tasks_spec bias_stage bias_inv). Qed.

(** A round of the round-robin policy terminates, accounts for every vcore per
    executor, hands out only tasks that are on record, and ends only when all
    vcores are taken or no partition is left in a running job. *)
Theorem round_robin_round_is_exact if_skip now budgets jobs :
  Forall (λ a, is_u32 (AvailableVcores.vcores a)) budgets → Forall job_ok jobs →
  let r := bind_task_round_robin if_skip now budgets jobs in
  Forall2 same_job jobs r.1.2 ∧
  (∀ e, balance e r.2 = budget_of e budgets) ∧
  AvailableVcores.executor_id <$> b_budgets r.2 ≡ₚ AvailableVcores.executor_id <$> budgets ∧
  Forall (recorded_by r.1.2) (b_tasks r.2) ∧
  ((r.1.1 = Ended ∧ Forall (served if_skip) r.1.2) ∨ (r.1.1 = NoVcores ∧ all_spent r.2)).
Proof. apply (bind_tasks_spec rr_stage rr_inv). Qed.

(** Binding one task takes the front of the queue of the stage, appends
    one task with that slice and charges the executor what the task reports to
    have consumed: one vcore per partition within the cap of the session, or a
    single vcore for the whole queue if the stage collapses its input. It
    returns no task exactly when nothing is pending. *)
Theorem bind_one_takes_front now session job s budget :
  running_ok s → (0 < AvailableVcores.vcores budget)%N →
  is_u32 (AvailableVcores.vcores budget) →
  match bind_one now session job s budget with
  | (Ok None, s', budget') =>
      PendingPartitions.queue (RunningStage.pending s) = [] ∧ s' = s ∧ budget' = budget
  | (Ok (Some task), s', budget') =>
      ∃ q1 q2, bound_to now job s s' budget budget' task q1 q2
  | _ => False
  end.
Proof. apply bind_one_spec. Qed.

(** A round of a built-in policy always returns its tasks, and when these
    tasks end and give back their vcores, the executors offer exactly what they
    offered before the round, for any restriction to a set of executors. *)
Theorem unbind_undoes_bind now policy jobs only c :
  cluster_wf c → Forall job_ok jobs → built_in policy = true →
  let r := bind_schedulable_tasks now policy jobs only c in
  ∃ tasks, r.1.1 = Some (Ok tasks) ∧
    available_vcores (unbind_tasks (task_slots tasks) r.2) = available_vcores c.
Proof.
  intros Hc Hj Hp. cbv zeta.
  destruct (bind_schedulable_books now policy jobs only c Hc Hj)
    as (l & taken & -> & Hb & Hok); [done|].
  exists taken. split; [done|]. by eapply books_unbind.
Qed.

(** C37. Registrations, saved metadata and heartbeats, removals, rounds of a
    built-in policy over well-formed jobs and returned vcores are applied to an
    empty cluster, in whatever order. The entries of the maps carry their keys,
    vcores fit their width, an executor that offers vcores is registered, and
    a registered executor has a heartbeat. *)
Theorem cluster_stays_consistent c :
  rtc cluster_step new_cluster_state c → cluster_wf c.
Proof.
  intros Hs. assert (cluster_wf new_cluster_state) as Hwf by apply new_cluster_wf.
  induction Hs as [|c1 c2 c3 Hstep _ IH]; [done|]. apply IH. destruct Hstep.
  - by apply register_executor_wf.
  - by apply save_executor_metadata_wf.
  - by apply save_executor_heartbeat_wf.
  - by apply remove_executor_wf.
  - destruct (bind_schedulable_books now policy jobs only c) as (l & taken & -> & Hb & _);
      [done..|]. by eapply books_wf.
  - by apply unbind_tasks_wf.
Qed.

(** An executor registers once: with matching ids and an unknown id it is
    entered in all three maps with the vcores it brings, and announced; a
    second registration and one with ids that differ are refused and change
    nothing. *)
Theorem register_executor_once now m spec c :
  let id := ExecutorMetadata.id m in
  let r := register_executor now m spec c in
  if bool_decide (ExecutorData.executor_id spec = id ∧ executors c !! id = None) then
    r.1 = Ok tt ∧ executors r.2 = <[id := m]> (executors c) ∧
    available_vcores r.2 =
      <[id := AvailableVcores.mk id (ExecutorData.available_vcores spec)]>
        (available_vcores c) ∧
    dom (heartbeats r.2) = {[id]} ∪ dom (heartbeats c) ∧
    cluster_events r.2 = cluster_events c ++ [RegisteredExecutor id] ∧
    ∀ spec' m', ExecutorMetadata.id m' = id →
      ∃ e, register_executor now m' spec' r.2 = (Err e, r.2)
  else ∃ e, r = (Err e, c).
Proof.
  cbv zeta. destruct (register_executor now m spec c) as [o c'] eqn:Hr.
  unfold register_executor in Hr.
  destruct (decide (ExecutorData.executor_id spec = ExecutorMetadata.id m ∧
    executors c !! ExecutorMetadata.id m = None)) as [Hb|Hb];
    [rewrite bool_decide_true by done; destruct Hb as [Hid Hnone]
    |rewrite (bool_decide_false (_ ∧ _)) by done].
  - rewrite bool_decide_false in Hr by (intros Hne; by apply Hne).
    rewrite Hnone in Hr. injection Hr as <- <-. simpl.
    split_and!; [done..|by rewrite dom_insert_L|done|].
    intros spec' m' Hm'. unfold register_executor. case_bool_decide; [by eexists|].
    simpl. rewrite Hm', lookup_insert_eq. by eexists.
  - case_bool_decide as Hne; [injection Hr as <- <-; by eexists|].
    destruct (executors c !! ExecutorMetadata.id m) eqn:E;
      [injection Hr as <- <-; by eexists|].
    destruct Hb. split; done.
Qed.
End binding.

(** ** The properties on a concrete cluster *)

Definition offers : list AvailableVcores.t := [AvailableVcores.mk "e1" 1; AvailableVcores.mk "e2" 2].

Definition running_job : JobId * JobInfoCache.t :=
  ("job", JobInfoCache.mk _ _ fresh_graph (Some (Job_Running 1 2 "scheduler"))).

Lemma running_job_ok : Forall job_ok [running_job].
Proof.
  apply Forall_singleton. split; [apply fresh_graph_keyed|apply all_wf_ok, fresh_graph_wf].
Qed.

Lemma offers_u32 : Forall (λ a, is_u32 (AvailableVcores.vcores a)) offers.
Proof. by repeat constructor. Qed.

Definition small_cluster : InMemoryClusterState :=
  mkClusterState (list_to_map ((λ a, (AvailableVcores.executor_id a, a)) <$> offers))
    (list_to_map ((λ e, (e, executor e)) <$> ["e1"; "e2"]))
    (list_to_map ((λ e, (e, ExecutorHeartbeat.mk e 1 [] None 0 0)) <$> ["e1"; "e2"])) [].

Lemma bias_round_is_exact_witness :
  let r := bind_task_bias (λ _, false) 5 offers [running_job] in
  length (b_tasks r.2) = 2 ∧
  Forall2 same_job [running_job] r.1.2 ∧
  (∀ e, balance e r.2 = budget_of e offers) ∧
  AvailableVcores.executor_id <$> b_budgets r.2 ≡ₚ AvailableVcores.executor_id <$> offers ∧
  Forall (recorded_by r.1.2) (b_tasks r.2) ∧
  ((r.1.1 = Ended ∧ Forall (served (λ _, false)) r.1.2) ∨ (r.1.1 = NoVcores ∧ all_spent r.2)).
Proof.
  split; [by vm_compute|].
  apply (bias_round_is_exact (λ _, false) 5 offers [running_job]).
  - apply offers_u32.
  - apply running_job_ok.
Defined.

Lemma round_robin_round_is_exact_witness :
  let r := bind_task_round_robin (λ _, false) 5 offers [running_job] in
  length (b_tasks r.2) = 2 ∧
  Forall2 same_job [running_job] r.1.2 ∧
  (∀ e, balance e r.2 = budget_of e offers) ∧
  AvailableVcores.executor_id <$> b_budgets r.2 ≡ₚ AvailableVcores.executor_id <$> offers ∧
  Forall (recorded_by r.1.2) (b_tasks r.2) ∧
  ((r.1.1 = Ended ∧ Forall (served (λ _, false)) r.1.2) ∨ (r.1.1 = NoVcores ∧ all_spent r.2)).
Proof.
  split; [by vm_compute|].
  apply (round_robin_round_is_exact (λ _, false) 5 offers [running_job]).
  - apply offers_u32.
  - apply running_job_ok.
Defined.

Lemma bind_one_takes_front_witness :
  match bind_one 5 "session" "job" (fresh_stage 3 4 []) (AvailableVcores.mk "e2" 2) with
  | (Ok None, s', budget') => False
  | (Ok (Some task), s', budget') =>
      ∃ q1 q2, bound_to 5 "job" (fresh_stage 3 4 []) s' (AvailableVcores.mk "e2" 2) budget'
                 task q1 q2
  | _ => False
  end.
Proof.
  pose proof (bind_one_takes_front 5 "session" "job" (fresh_stage 3 4 [])
    (AvailableVcores.mk "e2" 2)) as Hb.
  ospecialize (Hb _ _ _); [apply running_wf_ok, running_new_wf|done|done|].
  by destruct (bind_one 5 "session" "job" (fresh_stage 3 4 []) (AvailableVcores.mk "e2" 2))
    as [[[[task|]| |] s'] b'] eqn:Heq.
Defined.

Lemma small_cluster_wf : cluster_wf small_cluster.
Proof.
  split.
  - by intros id a Ha%elem_of_list_to_map_2%list_elem_of_In; destruct Ha as [[= <- <-]|[[= <- <-]|[]]].
  - by intros id a Ha%elem_of_list_to_map_2%list_elem_of_In; destruct Ha as [[= <- <-]|[[= <- <-]|[]]].
  - by intros id a Ha%elem_of_list_to_map_2%list_elem_of_In; destruct Ha as [[= <- <-]|[[= <- <-]|[]]].
  - by intros id a Ha%elem_of_list_to_map_2%list_elem_of_In; destruct Ha as [[= <- <-]|[[= <- <-]|[]]].
  - by apply (bool_decide_unpack _).
  - by apply (bool_decide_unpack _).
Qed.

Lemma unbind_undoes_bind_witness :
  let r := bind_schedulable_tasks 5 RoundRobin [running_job] None small_cluster in
  ∃ tasks, r.1.1 = Some (Ok tasks) ∧
    available_vcores (unbind_tasks (task_slots tasks) r.2) = available_vcores small_cluster.
Proof.
  apply (unbind_undoes_bind 5 RoundRobin [running_job] None small_cluster).
  - apply small_cluster_wf.
  - apply running_job_ok.
  - done.
Defined.

(** Two vcores of an executor are taken by a round and one is given back. *)
Lemma cluster_stays_consistent_witness :
  let c1 := (register_executor 1 (executor "e1") (ExecutorData.mk "e1" 2 2) new_cluster_state).2 in
  let r := bind_schedulable_tasks 5 RoundRobin [running_job] None c1 in
  let c3 := unbind_tasks [("e1", 1%N)] r.2 in
  match r.1.1 with Some (Ok tasks) => length tasks = 1 | _ => False end ∧
  AvailableVcores.vcores <$> available_vcores r.2 !! "e1" = Some 0%N ∧
  AvailableVcores.vcores <$> available_vcores c3 !! "e1" = Some 1%N ∧ cluster_wf c3.
Proof.
  intros c1 r c3. split; [by vm_compute|]. split; [by vm_compute|]. split; [by vm_compute|].
  apply cluster_stays_consistent. apply (rtc_l _ _ c1); [by apply Cl_register|].
  apply (rtc_l _ _ r.2); [apply Cl_bind; [apply running_job_ok|done]|apply rtc_once, Cl_unbind].
Defined.
