(* ===== verification/StateTheorems.v ===== *)
(** * Finished stages, cached datasets, job states and task errors

    The properties of the parts around the graph: what a finished stage reports
    and which of its partitions are run again, the metrics of a stage, the
    ownership of cached datasets, the life of a job in [InMemoryJobState], the
    packing of shuffle partitions, and the failures that errors are reported as. *)

From S2P Require Import Prelude Errors Types Stage StageFacts StageSteps Graph GraphSteps.
From S2P Require Import CacheRegistry JobState Binding Cluster Sample.

(** ** Stages *)
Section stages.
Context `{PlanOps} `{Payload} `{PrecisionOps}.

(** When a finished stage loses an executor and is started again, exactly
    the partitions of its successful tasks on that executor are scheduled, in
    increasing order, and every partition is held once. *)
Theorem rerun_schedules_lost_partitions now e (s : SuccessfulStage.t) :
  successful_wf s →
  let r := SuccessfulStage_to_running now (SuccessfulStage.reset_tasks e s).2 in
  running_wf r ∧
  Sorted (≤) (PendingPartitions.queue (RunningStage.pending r)) ∧
  PendingPartitions.queue (RunningStage.pending r)
    ≡ₚ slices (SuccessfulStage.reset_hit e) (SuccessfulStage.task_infos s).
Proof.
  intros Hs%successful_finished%(finished_reset_tasks e)%(to_running_wf now).
  by rewrite app_nil_r in Hs.
Qed.

(** The null count that a stage reports for a column is the sum of the
    counts of its successful tasks if each of them reported the column, and
    absent otherwise. *)
Theorem null_counts_add_up `{!PrecisionLaws} (s : RunningStage.t) c :
  c < schema_num_fields (RunningStage.plan s) →
  (sum_N (all_nulls c (RunningStage.task_infos s)) ≤ usize_max)%N →
  SuccessfulStage.output_column_stats (RunningStage.to_successful s) !! c = Some
    (if all_reported c (RunningStage.task_infos s)
     then Exact (sum_N (all_nulls c (RunningStage.task_infos s))) else Absent).
Proof.
  intros Hc Hle. simpl. unfold RunningStage.output_column_stats.
  rewrite (output_column_stats_slot _ _ c (Exact 0) 0); [done| |by right|done].
  by apply lookup_replicate_2.
Qed.

(** The metrics that a task reports replace those of its own partitions,
    operator by operator: afterwards the metrics of a partition of the task
    are the ones it reported, and those of any other partition are the ones
    the stage had. *)
Theorem metrics_of_a_task_are_replaced i l (s s' : RunningStage.t) ti :
  RunningStage.task_infos s !! i = Some ti → l ≠ [] →
  RunningStage.update_task_metrics i l s = (Ok tt, s') →
  ∃ vals out,
    RunningStage.collect_metrics l (ids ti) = Ok vals ∧
    RunningStage.stage_metrics s' = Some out ∧ length out = length vals ∧
    ∀ k v o p, vals !! k = Some v → out !! k = Some o →
      tagged p o = if bool_decide (p ∈ ids ti) then tagged p v
                   else tagged p (default [] (default [] (RunningStage.stage_metrics s) !! k)).
Proof. apply update_task_metrics_spec. Qed.
End stages.

(** ** Cached datasets *)
Section caches.
Context {SchemaRef : Type} `{!EntryOrder (SchemaRef:=SchemaRef)}.

(** After any interleaving of calls on the registry, a job is told that
    it claimed a key exactly when no job holds the claim, and its result is
    accepted exactly when the job holds the claim itself. *)
Theorem one_job_materializes_a_key h (r : gmap CacheKey.t (EntryState (SchemaRef:=SchemaRef)))
    key job sch locs :
  history h r →
  ((begin_materialization key job r).1 = Claimed ↔ claimant key h = None) ∧
  ((complete_materialization key job sch locs r).1 = Completed ↔
     claimant key h = Some job).
Proof.
  intros Hh. rewrite begin_outcome, complete_outcome, (owner_claimant _ _ _ Hh). split; [|done].
  rewrite <-(owner_claimant _ _ _ Hh). by destruct (r !! key).
Qed.

(** When an executor is lost, exactly the materialized entries with a
    partition on it are removed, and they are the ones returned. *)
Theorem lost_executor_invalidates_caches e
    (r : gmap CacheKey.t (EntryState (SchemaRef:=SchemaRef))) :
  (invalidate_executor e r).2 = filter (λ kv, holds_executor kv.2 e = false) r ∧
  ∀ key cache, (key, cache) ∈ (invalidate_executor e r).1 ↔
    r !! key = Some (Materialized cache) ∧ holds_executor (Materialized cache) e = true.
Proof. apply invalidate_executor_spec. Qed.

(** Removing a session drops its entries, pending ones included, returns
    its materialized ones, and unpins exactly the stages that only they held. *)
Theorem removed_session_is_unpinned session
    (r : gmap CacheKey.t (EntryState (SchemaRef:=SchemaRef))) :
  let s := remove_session session r in
  s.2 = filter (λ kv, CacheKey.session_id kv.1 ≠ session) r ∧
  (∀ key cache, (key, cache) ∈ s.1 ↔
     r !! key = Some (Materialized cache) ∧ CacheKey.session_id key = session) ∧
  ∀ job sid, (job, sid) ∈ pinned_stages s.2 ↔
    ∃ key cache l, r !! key = Some (Materialized cache) ∧
      CacheKey.session_id key ≠ session ∧ l ∈ concat (locations cache) ∧
      PartitionId.job_id (PartitionLocation.partition_id l) = job ∧
      PartitionId.stage_id (PartitionLocation.partition_id l) = sid.
Proof.
  cbv zeta. destruct (remove_session_spec session r) as [Hr Hl].
  split_and!; [done..|]. intros job sid. rewrite pinned_stages_spec, Hr.
  setoid_rewrite map_lookup_filter_Some. simpl. naive_solver.
Qed.
End caches.

(** ** Jobs *)
Section job_states.
Context `{PlanOps} `{Payload}.
Implicit Types (st : InMemoryJobState) (job : JobId).

(** Whatever calls are made, a job is in at most one of the maps of
    queued, running and completed jobs, and it moves forward only: it is
    queued before it runs, and never leaves the completed jobs except by being
    removed. *)
Theorem job_moves_forward scheduler st st' job :
  rtc job_step (new_job_state scheduler) st → job_step st st' →
  one_place st ∧ one_place st' ∧ phase_step (phase_of job st) (phase_of job st') = true.
Proof.
  intros Hs Hstep. assert (one_place st) as Ho.
  { assert (one_place (new_job_state scheduler)) as Hnew by done.
    induction Hs; [done|]. eauto using job_step_one_place. }
  split_and!; [done|by eapply job_step_one_place|by apply job_step_phase].
Qed.

(** While a queued job is submitted, a concurrent reader finds its status
    at any point. *)
Theorem submitted_job_is_always_found job g sub st st' :
  is_Some (queued_jobs st !! job) → st' ∈ (submit_job job g sub st).2 →
  is_Some (get_job_status job st').
Proof. apply submit_job_visible. Qed.

(** While a queued job is failed, there is a point at which a concurrent
    reader is told that the job does not exist, although its status is found
    before and after. *)
Theorem failing_job_is_briefly_lost now job reason st :
  one_place st → is_Some (queued_jobs st !! job) →
  ∃ st', st' ∈ (fail_unscheduled_job now job reason st).2 ∧ get_job_status job st' = None ∧
    is_Some (get_job_status job st) ∧
    is_Some (get_job_status job (final_state (fail_unscheduled_job now job reason st) st)).
Proof. apply fail_unscheduled_job_gap. Qed.
End job_states.

(** ** Errors *)
Section errors.
Context (find_root : DataFusionError → DataFusionError) (debug_fmt : BallistaError → string).

(** A fetch failure and an I/O error are recognised however often they
    were wrapped by DataFusion on their way through the plan: the first is
    reported as a failure to fetch the partition, neither retried nor counted,
    the second as a retryable failure that counts. *)
Theorem wrapped_errors_are_classified n fuel ex sid p desc io :
  find_root_external find_root →
  ballista_size (wrapped n (FetchFailed ex sid p desc)) ≤ fuel →
  let fetch := failed_task_of_error find_root debug_fmt fuel
                 (wrapped n (FetchFailed ex sid p desc)) in
  let failed_io := failed_task_of_error find_root debug_fmt fuel (wrapped n (IoError io)) in
  failed_reason fetch = Some (FR_FetchPartitionError ex (u32_of_nat sid) (u32_of_nat p)) ∧
  retryable fetch = false ∧ count_to_failures fetch = false ∧
  failed_reason failed_io = Some FR_IoError ∧
  retryable failed_io = true ∧ count_to_failures failed_io = true.
Proof.
  intros Hext Hfuel. rewrite wrapped_size in Hfuel. simpl in Hfuel. cbv zeta.
  assert (is_retryable_io find_root fuel (wrapped n (IoError io)) = true) as Hio.
  { rewrite is_retryable_io_wrapped by (done || lia). by destruct (fuel - n) eqn:?; [lia|]. }
  unfold failed_task_of_error. rewrite !find_fetch_failed_wrapped by (done || lia).
  rewrite Hio. destruct (fuel - n) as [|k] eqn:Hk; [lia|].
  by destruct n.
Qed.

(** The classification of an error terminates: the size of the error is
    enough fuel, and more fuel gives the same report. Every report is one that
    the scheduler can act on without losing partitions: a task that was killed
    is to be retried, without counting as a failure. *)
Theorem reports_of_errors_are_sound `{PlanOps} `{Payload} e fuel ts :
  find_root_shrinks find_root → ballista_size e ≤ fuel →
  TaskStatus.status ts = Some (Failed (failed_task_of_error find_root debug_fmt fuel e)) →
  failed_task_of_error find_root debug_fmt fuel e
    = failed_task_of_error find_root debug_fmt (ballista_size e) e ∧
  report_ok ts.
Proof.
  intros Hs Hf Hst. split; [by apply failed_task_fuel|].
  intros f Hts. rewrite Hst in Hts. injection Hts as <-.
  unfold failed_task_of_error. destruct (find_fetch_failed _ _ e); [done|].
  by destruct e; try done; destruct (is_retryable_io _ _ _).
Qed.
End errors.

(** ** The properties on concrete states *)

Lemma rerun_schedules_lost_partitions_witness :
  let s := finished_stage 1 [2] "e1" "e2" in
  let r := SuccessfulStage_to_running 5 (SuccessfulStage.reset_tasks "e1" s).2 in
  PendingPartitions.queue (RunningStage.pending r) = [0] ∧
  running_wf r ∧
  Sorted (≤) (PendingPartitions.queue (RunningStage.pending r)) ∧
  PendingPartitions.queue (RunningStage.pending r)
    ≡ₚ slices (SuccessfulStage.reset_hit "e1") (SuccessfulStage.task_infos s).
Proof.
  split; [by vm_compute|].
  apply (rerun_schedules_lost_partitions 5 "e1" (finished_stage 1 [2] "e1" "e2")).
  apply to_successful_wf; [by apply two_tasks_wf|done].
Defined.

Lemma null_counts_add_up_witness :
  let s := two_tasks 1 [2] ∅ (success_on "e1") (success_on "e2") in
  SuccessfulStage.output_column_stats (RunningStage.to_successful s) !! 0 = Some (Exact 4).
Proof.
  apply (null_counts_add_up (two_tasks 1 [2] ∅ (success_on "e1") (success_on "e2")) 0);
    [by simpl; lia|done].
Defined.

Definition reported_metrics : list OperatorMetricsSet := [[OperatorMetric.mk _ (Some 7) (Some 0)]].

Lemma metrics_of_a_task_are_replaced_witness :
  let s := two_tasks 1 [2] ∅ (success_on "e1") (Running "e2") in
  ∃ s', RunningStage.update_task_metrics 0 reported_metrics s = (Ok tt, s') ∧
  ∃ vals out,
    RunningStage.collect_metrics reported_metrics [0] = Ok vals ∧
    RunningStage.stage_metrics s' = Some out ∧ length out = length vals ∧
    ∀ k v o p, vals !! k = Some v → out !! k = Some o →
      tagged p o = if bool_decide (p ∈ [0]) then tagged p v
                   else tagged p (default [] (default [] (RunningStage.stage_metrics s) !! k)).
Proof.
  eexists. split; [reflexivity|].
  eapply (metrics_of_a_task_are_replaced 0 reported_metrics
    (two_tasks 1 [2] ∅ (success_on "e1") (Running "e2")) _ (task_info 0 (success_on "e1") [0]));
    [done|done|reflexivity].
Defined.

Definition key : CacheKey.t := CacheKey.mk "session" "cache".

Lemma one_job_materializes_a_key_witness :
  let r := <[key := Pending (SchemaRef:=nat) "job1"]> ∅ in
  ((begin_materialization key "job2" r).1 = Claimed ↔
     claimant key [ABegin key "job1" Claimed] = None) ∧
  ((complete_materialization key "job2" 0 [] r).1 = Completed ↔
     claimant key [ABegin key "job1" Claimed] = Some "job2").
Proof.
  apply (one_job_materializes_a_key [ABegin key "job1" Claimed]).
  eapply History_step; [apply History_nil|]. 
  assert (begin_materialization key "job1" (∅ : gmap _ (EntryState (SchemaRef:=nat)))
    = (Claimed, <[key := Pending "job1"]> ∅)) as Hb
    by (unfold begin_materialization; by rewrite lookup_empty).
  pose proof (Act_begin key "job1" (∅ : gmap _ (EntryState (SchemaRef:=nat)))) as Ha.
  by rewrite Hb in Ha.
Defined.

Definition queued_job : InMemoryJobState :=
  accept_job "job" "name" 1 (new_job_state "scheduler").

Lemma job_moves_forward_witness :
  let st' := final_state (submit_job "job" fresh_graph None queued_job) queued_job in
  phase_of "job" st' = PRunning ∧
  one_place queued_job ∧ one_place st' ∧
  phase_step (phase_of "job" queued_job) (phase_of "job" st') = true.
Proof.
  split; [by vm_compute|].
  apply (job_moves_forward "scheduler").
  - apply rtc_once. by apply Job_accept.
  - apply Job_submit.
Defined.

Lemma submitted_job_is_always_found_witness :
  is_Some (get_job_status "job"
    (final_state (submit_job "job" fresh_graph None queued_job) queued_job)).
Proof.
  apply (submitted_job_is_always_found "job" fresh_graph None queued_job).
  - by eexists.
  - simpl. do 3 right. left.
Defined.

Lemma failing_job_is_briefly_lost_witness :
  ∃ st', st' ∈ (fail_unscheduled_job 5 "job" (Lit "reason") queued_job).2 ∧
    get_job_status "job" st' = None ∧
    is_Some (get_job_status "job" queued_job) ∧
    is_Some (get_job_status "job"
      (final_state (fail_unscheduled_job 5 "job" (Lit "reason") queued_job) queued_job)).
Proof.
  apply (failing_job_is_briefly_lost 5 "job" (Lit "reason") queued_job).
  - intros job. by split.
  - by eexists.
Defined.

(** A [find_root] that unwraps contexts. *)
Fixpoint unwrap (e : DataFusionError) : DataFusionError :=
  match e with DF_Context _ d => unwrap d | _ => e end.

Lemma unwrap_shrinks : find_root_shrinks unwrap.
Proof. intros e. induction e; simpl; lia. Qed.

Lemma wrapped_errors_are_classified_witness :
  let fetch := failed_task_of_error unwrap (λ _, "error") 10
                 (wrapped 3 (FetchFailed "e1" 1 0 "lost")) in
  let failed_io := failed_task_of_error unwrap (λ _, "error") 10 (wrapped 3 (IoError "disk")) in
  failed_reason fetch = Some (FR_FetchPartitionError "e1" (u32_of_nat 1) (u32_of_nat 0)) ∧
  retryable fetch = false ∧ count_to_failures fetch = false ∧
  failed_reason failed_io = Some FR_IoError ∧
  retryable failed_io = true ∧ count_to_failures failed_io = true.
Proof.
  apply (wrapped_errors_are_classified unwrap (λ _, "error") 3 10 "e1" 1 0 "lost" "disk").
  - by intros e.
  - simpl. lia.
Defined.

Lemma reports_of_errors_are_sound_witness :
  failed_task_of_error unwrap (λ _, "error") 9 Cancelled
    = failed_task_of_error unwrap (λ _, "error") 1 Cancelled ∧
  report_ok (report 1 0 (Failed (failed_task_of_error unwrap (λ _, "error") 9 Cancelled))).
Proof.
  apply (reports_of_errors_are_sound unwrap (λ _, "error") Cancelled 9).
  - apply unwrap_shrinks.
  - simpl. lia.
  - done.
Defined.
