(* ===== verification/SchedulerTheorems.v ===== *)
(** * Properties of the scheduler

    The vcores of the cluster over the events of the scheduler, the visibility of
    jobs that end, the launching of tasks, and executors that come and go. *)

From S2P Require Import Prelude Errors Types Stage StageFacts StageSteps Graph GraphSteps.
From S2P Require Import LostExecutor GraphFacts Held Binding BindingFacts JobState.
From S2P Require Import Cluster ClusterFacts TaskManager Scheduler SchedulerFacts Sample.
Import StaticExecutionGraph(stages).
Import TaskManager(active_job_cache) SchedulerConfig(is_push_staged_scheduling).

Section scheduler.
Context `{PlanOps} `{Payload} `{PrecisionOps} `{MapOrder} `{HashOrder} `{!BindOps}
  `{ValueOrder} `{ErrorText} `{!LaunchOps}.
Context (config : SchedulerConfig.t)
  (launcher : ExecutorMetadata.t → list MultiTaskDefinition.t → BallistaError + gset JobId)
  (full : nat → bool).
Implicit Types (s : SchedulerState) (tm : TaskManager.t) (job : JobId) (e : string).

(** ** Conservation of vcores *)



Section steps.
Context (total : string → N).


Definition new_scheduler (scheduler_id : string) (max_task max_stage : nat) : SchedulerState :=
  mkScheduler _ _ (TaskManager.new scheduler_id max_task max_stage)
    (ExecutorManager.mk new_cluster_state ∅) false.
End steps.


Section conservation.
Context (total : string → N).
Hypothesis push : is_push_staged_scheduling config = true.
Hypothesis policy_built_in : built_in (SchedulerConfig.task_distribution config) = true.
Hypothesis total_u32 : ∀ e, is_u32 (total e).





End conservation.

(** ** Jobs that end *)

(** A job that finishes or is aborted can be found at every moment: in each
    state that a concurrent reader can see while [succeed_job] or [abort_job] runs
    the status of the job is found, and it is the status the job had or the one it
    ends with, in this order, although the job moves from the cache to the map of
    completed jobs. *)
Theorem ending_job_stays_visible {W : Type} (cancel : list RunningTaskInfo.t → list ExecutorSlot →
    W → result unit * W) now job msg g tm w :
  cached_graph job tm = Some g → queued_jobs (TaskManager.state tm) !! job = None →
  (is_final (StaticExecutionGraph.status g) = true →
   ∀ tm', tm' ∈ (TaskManager.succeed_job full job tm).2 →
     TaskManager.get_job_status job tm' = Some (StaticExecutionGraph.status g)) ∧
  ∃ tms, (TaskManager.abort_job cancel full now job msg tm w).1.2 = tm :: tms ∧ tms ≠ [] ∧
    TaskManager.get_job_status job tm = Some (StaticExecutionGraph.status g) ∧
    ∀ tm', tm' ∈ tms → TaskManager.get_job_status job tm'
      = Some (StaticExecutionGraph.status (abort_running now msg g).2).
Proof.
  intros Hg Hq. split.
  - intros Hf tm'. unfold TaskManager.succeed_job. pose proof Hg as Hg'. unfold cached_graph in Hg'.
    rewrite Hg'. pose proof (persist_visible full job g tm tm' Hg Hf Hq) as Hp.
    destruct (is_successful g); [by destruct (TaskManager.persist_terminal_and_evict full job g tm)|].
    intros ->%list_elem_of_singleton. by apply cached_status.
  - pose proof (λ tm', abort_visible cancel full now job msg g tm w tm' Hg Hq) as Hv.
    unfold TaskManager.abort_job in *. pose proof Hg as Hg'. unfold cached_graph in Hg'.
    rewrite Hg' in *. destruct (abort_running now msg g) as [running snapshot].
    destruct (cancel _ _ w) as [o w']. set (tm1 := TaskManager.set_job_info_status _ _ _) in *.
    destruct (TaskManager.persist_terminal_and_evict full job snapshot tm1) as [o' tms] eqn:Hp.
    exists tms. split_and!; [done| |by apply cached_status|done].
    unfold TaskManager.persist_terminal_and_evict in Hp. by simplify_eq.
Qed.

(** ** Offers *)

(** The tasks of a round of offers reach executors that are alive, and each
    of them once: the round binds tasks only to executors with an active and recent
    heartbeat, and launching splits what it bound into groups by executor, job and
    stage, which are not empty, hold tasks of their stage only, and together hold
    exactly the bound tasks. *)
Theorem offers_reach_alive_executors_once now_secs now s tasks :
  built_in (SchedulerConfig.task_distribution config) = true →
  cluster_wf (cluster_of s) → graphs_ok (task_manager s) →
  SpawnLaunch tasks ∈ (revive_offers config now_secs now s).2 →
  Forall (λ t : BoundTask, t.1 ∈ ExecutorManager.get_alive_executors config now_secs
                                   (executor_manager s)) tasks ∧
  groups_ok (executor_stage_assignments tasks) ∧
  grouped (executor_stage_assignments tasks) ≡ₚ tasks.
Proof using H1.
  intros Hd Hc Hg Hin. split; [|apply assignments_ok]. revert Hin.
  unfold revive_offers, ExecutorManager.bind_schedulable_tasks.
  case_bool_decide; [by intros ?%elem_of_nil|]. case_bool_decide; [by intros ?%elem_of_nil|].
  set (alive := ExecutorManager.get_alive_executors _ _ _). set (jobs := iter_entries _).
  pose proof (bind_schedulable_placed now (SchedulerConfig.task_distribution config) jobs alive
    (cluster_of s) tasks Hc (running_cache_ok _ Hg) Hd) as Hp.
  fold (cluster_of s). destruct (bind_schedulable_tasks now _ jobs (Some alive) (cluster_of s))
    as [[r jobs'] c']. simpl in Hp.
  destruct r as [[[|t ts]| |]|]; try by intros ?%elem_of_nil.
  intros [= ->]%list_elem_of_singleton. by apply Hp.
Qed.
End scheduler.

(** ** Runs of a small scheduler *)

Definition push_config : SchedulerConfig.t := SchedulerConfig.mk _ _ true Bias 0 0 10 60 5.

(** No channel of a subscriber is full. *)
Definition none_full (channel : nat) : bool := false.

Definition reject_all (md : ExecutorMetadata.t) (l : list MultiTaskDefinition.t)
  : BallistaError + gset JobId := inr (list_to_set (MultiTaskDefinition.job_id <$> l)).

Definition handle (now : N) (ev : QueryStageSchedulerEvent) (s : SchedulerState)
  : SchedulerState := (on_receive push_config none_full 100 now ev s).1.2.

(** e1 registers with four vcores, a job of four partitions is queued and
    submitted, and one task gets all partitions. *)
Definition registered : SchedulerState :=
  (do_register_executor push_config (inr tt) 100 (executor "e1")
     (new_scheduler "scheduler" 4 4)).1.2.
Definition queued : SchedulerState :=
  handle 1 (JobQueued "job" "name" ("ctx" : SessionContext) (Logical ("plan" : LogicalPlan)) 1 None)
    registered.
Definition submitted : SchedulerState :=
  (run_submit none_full 2 "job" "name" (Ok fresh_graph) 1 None queued).1.
Definition offered_tasks : SchedulerState := handle 3 ReviveOffers submitted.

Definition launched (s : SchedulerState) : list BoundTask :=
  concat (omap (λ eff, match eff with SpawnLaunch l => Some l | _ => None end)
            (on_receive push_config none_full 100 3 ReviveOffers s).2).


Definition vcores_of (e : string) (s : SchedulerState) : option N :=
  AvailableVcores.vcores <$> available_vcores (cluster_of s) !! e.




(** ** Vcores that are given back twice, and vcores that are lost *)

Definition rejected : SchedulerState * list effect :=
  run_launch reject_all 4 (launched submitted) offered_tasks.

(** An executor with four vcores that rejects a task offers five once the
    job has failed: the failed launch gives back one vcore, although the task was
    bound with four, and posts the failure of the job, whose handler gives back
    the four vcores of the same task. *)
Theorem rejected_task_is_refunded_twice :
  vcores_of "e1" registered = Some 4%N ∧ vcores_of "e1" offered_tasks = Some 0%N ∧
  held "e1" (task_manager offered_tasks) = 4%N ∧ vcores_of "e1" rejected.1 = Some 1%N ∧
  ∃ msg, Post (JobRunningFailed "job" msg 4 4) ∈ rejected.2 ∧
    vcores_of "e1" (handle 5 (JobRunningFailed "job" msg 4 4) rejected.1) = Some 5%N.
Proof. split_and!; [by vm_compute..|]. eexists. split; [vm_compute; left|by vm_compute]. Qed.

(** e2 runs four tasks, of two stages that read the output of e1. *)
Definition busy : SchedulerState :=
  let registered :=
    (do_register_executor push_config (inr tt) 100 (executor "e2")
       (new_scheduler "scheduler" 4 4)).1.2 in
  set_tasks
    (TaskManager.set_cache {[ "job" := new_job_info shared_map_graph ]} (task_manager registered))
    (set_executors
       (ExecutorManager.set_cluster
          (set_vcores {[ "e2" := AvailableVcores.mk "e2" 0 ]} (cluster_of registered))
          (executor_manager registered)) registered).

Definition task_killed : status :=
  Failed (mkFailedTask (Lit "Task cancelled") true false (Some FR_TaskKilled)).

(** The first task of stage 2 cannot fetch its input, which rolls back the stage
    and cancels its second task. *)
Definition rolled_back : SchedulerState :=
  handle 5 (TaskUpdating "e2" [report 2 0 (fetch_failure "e1" 1)]) busy.
Definition cancelled : SchedulerState :=
  handle 6 (TaskUpdating "e2" [report 2 1 task_killed]) rolled_back.

(** The vcores of a task that a rollback cancels are lost: when the executor
    reports the cancelled task its stage has forgotten it, so that nothing is
    given back. Of the four vcores of e2, one is offered and two are held by the
    tasks that still run. *)
Theorem rolled_back_task_keeps_its_vcores :
  vcores_of "e2" busy = Some 0%N ∧ held "e2" (task_manager busy) = 4%N ∧
  Post (CancelTasks [RunningTaskInfo.mk 1 "job" 2 "e2"]) ∈
    (on_receive push_config none_full 100 5
       (TaskUpdating "e2" [report 2 0 (fetch_failure "e1" 1)]) busy).2 ∧
  vcores_of "e2" cancelled = Some 1%N ∧ held "e2" (task_manager cancelled) = 2%N.
Proof. split_and!; [by vm_compute|by vm_compute|vm_compute; right; left|by vm_compute..]. Qed.

(** ** Jobs that end, and offers, of the small scheduler *)

Lemma ending_job_stays_visible_witness :
  ∃ tms, (TaskManager.abort_job (λ _ _ w, (Ok tt, w)) none_full 5 "job" (Lit "Cancelled")
            (task_manager offered_tasks) tt).1.2 = task_manager offered_tasks :: tms ∧
    ∀ tm', tm' ∈ tms → TaskManager.get_job_status "job" tm'
      = Some (JobStatus.mk "job" "name" (Some (Job_Failed (Lit "Cancelled") 1 2 5))).
Proof.
  destruct (ending_job_stays_visible none_full (W:=unit) (λ _ _ w, (Ok tt, w)) 5 "job"
    (Lit "Cancelled") _ (task_manager offered_tasks) tt eq_refl ltac:(by vm_compute))
    as [_ (tms & Htms & _ & _ & Hv)].
  exists tms. split; [done|]. intros tm' Htm'. rewrite (Hv tm' Htm'). by vm_compute.
Defined.

Lemma submitted_ok : cluster_wf (cluster_of submitted) ∧ graphs_ok (task_manager submitted).
Proof.
  split.
  - assert (cluster_of submitted = (register_executor 100 (executor "e1")
      (ExecutorData.mk "e1" 4 4) new_cluster_state).2) as -> by by vm_compute.
    by apply register_executor_wf; [apply new_cluster_wf|].
  - intros job g [st Hi]%cached_graph_Some.
    assert (active_job_cache (task_manager submitted)
            = {[ "job" := new_job_info (revive 2 fresh_graph).2 ]}) as Hc by by vm_compute.
    rewrite Hc in Hi. apply lookup_singleton_Some in Hi as [_ [= <- _]].
    pose proof (revive_steps Strict 2 fresh_graph fresh_graph_keyed).
    split; [by apply (keyed_steps Strict fresh_graph); [apply fresh_graph_keyed|]
           |by apply (all_wf_steps fresh_graph); [apply fresh_graph_wf|]].
Qed.

Lemma offers_reach_alive_executors_once_witness :
  length (launched submitted) = 1 ∧
  Forall (λ t : BoundTask, t.1 ∈ ExecutorManager.get_alive_executors push_config 100
                                   (executor_manager submitted)) (launched submitted).
Proof.
  split; [by vm_compute|]. destruct submitted_ok as [Hc Hg].
  apply (offers_reach_alive_executors_once push_config 100 3 submitted (launched submitted)
    eq_refl Hc Hg). vm_compute. left.
Defined.
