(* ===== verification/KllTheorems.v ===== *)
(** * Properties of the KLL sketch

    What a sketch answers about the stream it was built from, however it was
    built: item by item, by batches, by merging, or from its parts. *)

From S2P Require Import Prelude Machine Kll KllFacts KllStream KllOps KllQuery DataSample.
Import KllSketch.

Section theorems.
Context {E T : Type} `{!Ord T} `{Coins}.
Implicit Types (s : KllSketch.t T) (x : T) (xs ys : list T).

(** C21. A sketch of a stream of fewer than 2^64 items is exact where it says so:
    [count] is the number of items, [min] and [max] are the extremes of the
    stream, and the retained items are items of the stream, none more often than
    it occurs there. Every level is below its capacity, and a level that is
    flagged as sorted is. *)
Theorem sketch_is_exact_about_its_stream k0 s xs :
  sketch_of (E:=E) k0 s xs → is_u64 (N.of_nat (length xs)) →
  count s = N.of_nat (length xs) ∧ least (min s) xs ∧ greatest (max s) xs ∧
  concat (levels s) ⊆+ xs ∧ settled (E:=E) s ∧ kll_wf s.
Proof.
  intros Hs Hn. destruct (sketch_described (E:=E) k0 s xs Hs Hn) as [Hc ? ? ?].
  split_and!; try done; [by eapply count_exact|apply Hc|apply (co_stack _ _ _ Hc)].
Qed.

(** Ingest ends, without a panic, as long as the stream stays below 2^64
    items: inserting an item, absorbing a batch in any of the three ways and
    merging another sketch return a sketch of the longer stream. *)
Theorem ingest_terminates k0 s xs ys other :
  sketch_of (E:=E) k0 s xs → sketch_of (E:=E) k0 other ys → is_u64 (N.of_nat (length (xs ++ ys))) →
  (∃ s', absorb (E:=E) ys s = Ok s' ∧ sketch_of (E:=E) k0 s' (xs ++ ys)) ∧
  (∃ s', absorb_slice (E:=E) ys s = Ok s' ∧ sketch_of (E:=E) k0 s' (xs ++ ys)) ∧
  (∃ s', absorb_sorted_slice (E:=E) ys s = Ok s' ∧ sketch_of (E:=E) k0 s' (xs ++ ys)) ∧
  (∃ s', merge (E:=E) other s = Ok s' ∧ sketch_of (E:=E) k0 s' (xs ++ ys)) ∧
  ∀ x, is_u64 (N.of_nat (length (xs ++ [x]))) →
    ∃ s', insert (E:=E) x s = Ok s' ∧ sketch_of (E:=E) k0 s' (xs ++ [x]).
Proof.
  intros Hs Ho Hn. destruct (u64_prefix xs ys Hn) as [Hn1 Hn2].
  destruct (sketch_described (E:=E) k0 s xs Hs Hn1) as [Hc Hse Hlo Hhi].
  destruct (sketch_described (E:=E) k0 other ys Ho Hn2) as [Hc' _ _ _].
  destruct (insert_all_core k0 s xs ys Hc Hse Hn) as (s1 & Hall & _).
  pose proof (absorb_insert k0 s xs ys Hc Hse Hn) as Ha.
  pose proof (absorb_slice_insert k0 s xs ys Hc Hse Hn) as Hsl. rewrite Hall in Ha, Hsl.
  destruct (absorb_sorted_core k0 s xs ys Hc Hse Hn Hlo Hhi) as (s3 & Hso & _).
  destruct (merge_core (E:=E) k0 s other xs ys Hc Hc' Hn) as (s4 & Hm & _).
  split_and!; [exists s1|exists s1|exists s3|exists s4|]; try (split; [done|]).
  - by eapply Of_absorb.
  - by eapply Of_absorb_slice.
  - by eapply Of_absorb_sorted.
  - by eapply Of_merge.
  - intros x Hx. destruct (insert_core (E:=E) k0 s xs x Hc Hx) as (s' & Hi & _).
    exists s'. split; [done|]. by eapply Of_insert.
Qed.

(** Absorbing a batch, by value or as a slice, is bit-identical to inserting
    its items one by one: the levels, the flags, the generator and the extremes
    are the same, although compaction is tried only when level 0 is full and the
    extremes of a slice are taken at once. *)
Theorem absorb_is_insert k0 s xs ys :
  sketch_of (E:=E) k0 s xs → is_u64 (N.of_nat (length (xs ++ ys))) →
  absorb (E:=E) ys s = insert_all ys s ∧ absorb_slice (E:=E) ys s = insert_all ys s.
Proof.
  intros Hs Hn. destruct (u64_prefix xs ys Hn) as [Hn1 _].
  destruct (sketch_described (E:=E) k0 s xs Hs Hn1) as [Hc Hse _ _].
  split; [by apply (absorb_insert k0 s xs)|by apply (absorb_slice_insert k0 s xs)].
Qed.

(** C38. The rank of any item is off by at most the sum, over the levels below
    the top one, of the length of the stream divided by the items that a
    compaction of the level halves: whatever the coins, a compaction of height
    [h] moves a rank by at most [2^h], and leaves the weight of what it halved
    above its level. For streams below 2^41 items and [k] below 2^22, for which
    no capacity overflows. *)
Theorem rank_error_is_bounded k0 s xs x :
  sketch_of (E:=E) k0 s xs → (k0 < 2 ^ 22)%N → (N.of_nat (length xs) < 2 ^ 41)%N →
  within (lsum (λ h, N.of_nat (length xs) / pairs_of k0 (length (levels s)) h)%N
            (seq 0 (pred (length (levels s)))))
    (rank x s) (N.of_nat (length (below x xs))).
Proof.
  intros Hs Hk Hn. assert (is_u64 (N.of_nat (length xs))) as Hu by (unfold is_u64; lia).
  destruct (sketch_described (E:=E) k0 s xs Hs Hu) as [Hc _ _ _].
  destruct (co_drift _ _ _ Hc Hk Hn) as (m & He & Hm). specialize (He x).
  change (rank x s) with (weighted (cnt (λ y, ltb y x)) s).
  rewrite (weighted_cnt _ k0 s xs Hc). change (length (below x xs)) with (cnt (λ y, ltb y x) xs).
  assert (lsum (λ h, m h * 2 ^ N.of_nat h)%N (seq 0 (pred (length (levels s))))
    ≤ lsum (λ h, N.of_nat (length xs) / pairs_of k0 (length (levels s)) h)%N
        (seq 0 (pred (length (levels s)))))%N as Hle; [|unfold within in *; lia].
  apply lsum_mono. intros h. specialize (Hm h). rewrite (co_k _ _ _ Hc) in Hm.
  pose proof (pairs_of_pos k0 (length (levels s)) h).
  pose proof (above_le h (levels s)) as Ha. rewrite (co_weight _ _ _ Hc) in Ha.
  apply N.div_le_lower_bound; lia.
Qed.

(** A compaction is unbiased: over the two outcomes of its coin the rank of
    any item is on average what it was before. *)
Theorem compaction_is_unbiased s h l r0 r1 r0' r1' x :
  stack_ok s → levels s !! h = Some l → 2 ≤ length l →
  random_bool r0 = (false, r0') → random_bool r1 = (true, r1') →
  ∃ s0 s1, compact_level (E:=E) h (set_rng r0 s) = Ok s0 ∧
    compact_level (E:=E) h (set_rng r1 s) = Ok s1 ∧ (rank x s0 + rank x s1)%N = (2 * rank x s)%N.
Proof.
  intros Hs Hl Hlen Hr0 Hr1.
  assert (∀ r, stack_ok (set_rng r s)) as Hsr by (intros; by destruct Hs as ([???] & ? & ?)).
  destruct (compact_level_spec (E:=E) h l (set_rng r0 s) (proj1 (Hsr r0)) Hl Hlen) as (s0 & -> & Hc0).
  destruct (compact_level_spec (E:=E) h l (set_rng r1 s) (proj1 (Hsr r1)) Hl Hlen) as (s1 & -> & Hc1).
  exists s0, s1. split_and!; [done..|].
  pose proof (compaction_stack h l _ s0 (Hsr r0) Hl Hlen Hc0) as Hs0.
  pose proof (compaction_stack h l _ s1 (Hsr r1) Hl Hlen Hc1) as Hs1.
  set (P := λ y, ltb y x).
  assert (∀ s', stack_ok s' → rank x s' = wsum (cnt P) (levels s')) as Hrank.
  { intros s' Hs'. unfold rank. change (λ l, length (below x l)) with (cnt P).
    apply weighted_exact; [by apply stack_ok_height|].
    pose proof (wsum_le (cnt P) length (levels s') (cnt_le P)). destruct Hs' as (_ & _ & Hu).
    unfold is_u64 in *. lia. }
  rewrite !Hrank by done.
  pose proof (compaction_wsum P h l (set_rng r0 s) s0 Hl Hc0) as H0.
  pose proof (compaction_wsum P h l (set_rng r1 s) s1 Hl Hc1) as H1.
  unfold promoted, dropped, coin in H0, H1. cbn [rng set_rng] in H0, H1.
  rewrite Hr0 in H0. rewrite Hr1 in H1. cbn [fst negb] in H0, H1.
  change (halved h (set_rng r0 s)) with (halved h s) in H0.
  change (halved h (set_rng r1 s)) with (halved h s) in H1.
  change (levels (set_rng r0 s)) with (levels s) in H0.
  change (levels (set_rng r1 s)) with (levels s) in H1. lia.
Qed.

(** [at_ranks] answers each rank, whatever their order, as [at_rank] answers
    it alone, and never runs past the retained items: rank 0 gives the minimum, a
    rank at or beyond the number of items the maximum, and any other rank the
    least retained item up to which the weights add up to the rank. *)
Theorem at_ranks_answers_each_rank k0 s xs ranks :
  sketch_of (E:=E) k0 s xs → is_u64 (N.of_nat (length xs)) → xs ≠ [] →
  ∃ ans, at_ranks (E:=E) ranks s = Ok ans ∧
    Forall2 (λ r o, answers s (N.of_nat (length xs)) r o ∧ at_rank (E:=E) r s = Ok o) ranks ans.
Proof.
  intros Hs Hn Hne. destruct (sketch_described (E:=E) k0 s xs Hs Hn) as [Hc _ _ _].
  destruct (at_ranks_spec (E:=E) k0 s xs ranks Hc Hne) as (ans & -> & Hans).
  exists ans. split; [done|]. eapply Forall2_impl; [done|]. intros r o Ho. split; [done|].
  unfold at_rank. destruct (at_ranks_spec (E:=E) k0 s xs [r] Hc Hne) as (ans1 & -> & H1).
  apply Forall2_cons_inv_l in H1 as (o1 & ans2 & Ho1 & ->%Forall2_nil_inv_l & ->). cbn.
  by rewrite (answers_unique _ _ _ _ _ Ho Ho1).
Qed.

(** A sketch survives being taken apart and rebuilt: for [k] of at least 8
    [from_parts] accepts the parts of any sketch of a stream, and the new sketch
    counts and ranks every item and answers all ranks as the old one does. *)
Theorem rebuilt_sketch_answers_alike k0 s xs r :
  sketch_of (E:=E) k0 s xs → is_u64 (N.of_nat (length xs)) → (MIN_LEVEL_WIDTH ≤ k0)%N →
  ∃ s', from_parts (E:=E) (k s) (levels s) (min s) (max s) r = Ok (Some s') ∧
    sketch_of (E:=E) k0 s' xs ∧ count s' = count s ∧ (∀ x, rank x s' = rank x s) ∧
    ∀ ranks, at_ranks (E:=E) ranks s' = at_ranks ranks s.
Proof.
  intros Hs Hn Hk. destruct (sketch_described (E:=E) k0 s xs Hs Hn) as [Hc Hse _ _].
  destruct (from_parts_core k0 s xs r Hc Hse Hk) as (Hp & Hc' & _). eexists. split; [done|].
  split; [by eapply Of_parts|]. by apply (permuted_alike (E:=E) k0 xs).
Qed.
End theorems.

(** ** A small sketch *)

Section sample.
#[local] Existing Instance flips.

Definition shuffled : list N := (λ i, (i * 37) mod 101)%N <$> (N.of_nat <$> seq 0 40).

Definition built : KllSketch.t N :=
  match absorb (E:=unit) shuffled (with_rng 8 (coin_seed 0)) with Ok s => s | _ => with_rng 8 (coin_seed 0) end.

Lemma built_of : sketch_of (E:=unit) 8 built shuffled.
Proof.
  apply (Of_absorb 8 (with_rng 8 (coin_seed 0)) [] shuffled); [apply Of_new|by vm_compute].
Qed.

Lemma sketch_is_exact_about_its_stream_witness :
  length (levels built) = 4 ∧ count built = 40%N ∧ least (min built) shuffled.
Proof.
  destruct (sketch_is_exact_about_its_stream (E:=unit) 8 built shuffled built_of) as (Hc & Hl & _);
    [by vm_compute|].
  split; [by vm_compute|]. split; [|exact Hl]. rewrite Hc. by vm_compute.
Defined.

Lemma ingest_terminates_witness :
  ∃ s', merge (E:=unit) built built = Ok s' ∧ sketch_of (E:=unit) 8 s' (shuffled ++ shuffled).
Proof.
  destruct (ingest_terminates (E:=unit) 8 built shuffled shuffled built built_of built_of)
    as (_ & _ & _ & Hm & _); [by vm_compute|exact Hm].
Defined.

Lemma absorb_is_insert_witness :
  absorb (E:=unit) shuffled built = insert_all shuffled built ∧
  absorb_slice (E:=unit) shuffled built = insert_all shuffled built.
Proof. apply (absorb_is_insert (E:=unit) 8 built shuffled shuffled built_of). by vm_compute. Defined.

Lemma rank_error_is_bounded_witness :
  rank 50%N built = 28%N ∧ length (below 50%N shuffled) = 20 ∧
  within 15 (rank 50%N built) (N.of_nat (length (below 50%N shuffled))).
Proof.
  split; [by vm_compute|]. split; [by vm_compute|].
  pose proof (rank_error_is_bounded (E:=unit) 8 built shuffled 50%N built_of eq_refl
    ltac:(by vm_compute)) as Hw.
  by assert (lsum (λ h, N.of_nat (length shuffled) / pairs_of 8 (length (levels built)) h)%N
    (seq 0 (pred (length (levels built)))) = 15%N) as <- by by vm_compute.
Defined.

Lemma compaction_is_unbiased_witness :
  ∃ s0 s1, compact_level (E:=unit) 3 (set_rng (coin_seed 0) built) = Ok s0 ∧
    compact_level (E:=unit) 3 (set_rng (coin_seed 1) built) = Ok s1 ∧
    (rank 50%N s0 + rank 50%N s1)%N = (2 * rank 50%N built)%N.
Proof.
  destruct (sketch_described (E:=unit) 8 built shuffled built_of) as [Hc _ _ _]; [by vm_compute|].
  apply (compaction_is_unbiased (E:=unit) built 3 (default [] (levels built !! 3)) (coin_seed 0) (coin_seed 1) (coin_seed 1) (coin_seed 2) 50%N
    (co_stack _ _ _ Hc)); [by vm_compute|by vm_compute; lia|done|done].
Defined.

Lemma at_ranks_answers_each_rank_witness :
  ∃ ans, at_ranks (E:=unit) [30; 0; 10; 99]%N built = Ok ans ∧
    Forall2 (λ r o, answers built 40 r o ∧ at_rank (E:=unit) r built = Ok o) [30; 0; 10; 99]%N ans.
Proof.
  apply (at_ranks_answers_each_rank (E:=unit) 8 built shuffled _ built_of); [by vm_compute|done].
Defined.

Lemma rebuilt_sketch_answers_alike_witness :
  ∃ s', from_parts (E:=unit) (k built) (levels built) (min built) (max built) (coin_seed 7)
      = Ok (Some s') ∧ count s' = 40%N.
Proof.
  destruct (rebuilt_sketch_answers_alike (E:=unit) 8 built shuffled (coin_seed 7) built_of)
    as (s' & Hp & _ & Hc & _); [by vm_compute|done|].
  exists s'. split; [exact Hp|]. rewrite Hc. by vm_compute.
Defined.

(** A stack of 65 levels, all of them empty, makes [from_parts] panic: the depth of
    level 0 is out of the range of the shift. *)
Lemma deep_stack_panics :
  from_parts (E:=unit) 800 (replicate 65 ([] : list N)) None None (coin_seed 0) = Panic.
Proof. by vm_compute. Qed.

(** The capacity is rounded to the nearest integer, not up: at depth 1 two thirds
    of 14 are 9.33, and the capacity is 9. *)
Lemma capacity_rounds_to_nearest : level_capacity (E:=unit) 14 2 0 = Ok 9%N.
Proof. by vm_compute. Qed.
End sample.
