(* ===== verification/SortKeyTheorems.v ===== *)
(** * Properties of sort keys and their sketches *)

From S2P Require Import Prelude Errors Machine Kll KllFacts KllStream KllOps KllQuery SortKey SortKeyFacts KeySketch DataSample.
Import SortKeySketch.

Section theorems.
Context `{Coins} `{WireFormat}.
Context (c : SortKeyCodec.t) (n : native).

(** The sketches of a column: built from its arrays, merged, and sent *)
Inductive sketch_of_column : t → list (option Z) → Prop :=
| Col_new r : sketch_of_column (new c r) []
| Col_ingest s vs ws s' :
    sketch_of_column s vs → Forall (in_range n) (values_of ws) →
    ingest (mkArray (SortKeyCodec.data_type c) ws) s = Ok s' → sketch_of_column s' (vs ++ ws)
| Col_merge s vs other ws s' :
    sketch_of_column s vs → sketch_of_column other ws → merge other s = Ok s' →
    sketch_of_column s' (vs ++ ws)
| Col_wire s vs p r s' :
    sketch_of_column s vs → to_proto s = Ok p →
    try_from_proto p (SortKeyCodec.options c) r = Ok s' → sketch_of_column s' vs.

Lemma length_prefix (vs ws : list (option Z)) :
  is_u64 (N.of_nat (length (vs ++ ws))) →
  is_u64 (N.of_nat (length vs)) ∧ is_u64 (N.of_nat (length ws)).
Proof. unfold is_u64. rewrite length_app. lia. Qed.

Lemma column_sketched s vs :
  codec_ok c n → sketch_of_column s vs → is_u64 (N.of_nat (length vs)) → column_sketch c n s vs.
Proof.
  intros Hok Hs. induction Hs as [r|s vs ws s' _ IH Hr Hi|s vs other ws s' _ IH _ IHo Hm
    |s vs p r s' _ IH Hp Hf]; intros Hn.
  - by apply column_new.
  - destruct (length_prefix _ _ Hn) as [Hn1 _].
    destruct (column_ingest c n s vs ws (IH Hn1) Hr Hn) as (s1 & Hi' & ?).
    rewrite Hi in Hi'. by injection Hi' as <-.
  - destruct (length_prefix _ _ Hn) as [Hn1 Hn2].
    destruct (column_merge c n s other vs ws (IH Hn1) (IHo Hn2) Hn) as (s1 & Hm' & ?).
    rewrite Hm in Hm'. by injection Hm' as <-.
  - destruct (column_wire c n s vs p r (IH Hn) Hn Hp) as (s1 & Hf' & ? & _).
    rewrite Hf in Hf'. by injection Hf' as <-.
Qed.

(** Keys compare as the column sorts: the keys of two values of the type are
    in the order of the values, which for floats is that of [total_cmp], and in
    the opposite order under [DESC]; no two values share a key. An array is encoded
    by the keys of its values, the NULLs left out. *)
Theorem keys_order_like_values d o values :
  SortKeyCodec.try_new d o = Some c → dispatch_sortable d = Some n →
  SortKeyCodec.encode c (mkArray d values) = Ok (key_of c n <$> values_of values) ∧
  ∀ v v', in_range n v → in_range n v' →
    ((key_of c n v ≤ key_of c n v')%N ↔
      if descending o then (order_of n v' ≤ order_of n v)%Z else (order_of n v ≤ order_of n v')%Z) ∧
    (key_of c n v = key_of c n v' → v = v').
Proof.
  intros Hc Hd. unfold SortKeyCodec.try_new in Hc. rewrite Hd in Hc. injection Hc as <-.
  assert (codec_ok (SortKeyCodec.mk d o) n) as Hok by done.
  split; [by apply (encode_values _ n Hok)|]. intros v v' Hv Hv'.
  pose proof (key_order _ n Hok v v' Hv Hv') as Hle. pose proof (key_order _ n Hok v' v Hv' Hv) as Hge.
  unfold sort_position in *. cbn [SortKeyCodec.options] in *. split.
  - rewrite Hle. destruct (descending o); [lia|done].
  - intros Heq. apply (order_of_inj n); [by eapply dispatch_width|done..|].
    rewrite Heq in *. destruct (descending o); lia.
Qed.

(** C39. A codec made by [try_new] is safe at its type: it encodes every array of
    the type and refuses others; an array gives one key for each of its values, in
    order, the NULLs left out; the keys are 64-bit words, and each decodes to the value
    it was made of; and every word decodes to a value of the type in its range. *)
Theorem codec_is_type_safe d o :
  SortKeyCodec.try_new d o = Some c → dispatch_sortable d = Some n →
  (∀ a, array_type a ≠ d → ∃ e, SortKeyCodec.encode c a = Err e) ∧
  (∀ key, ∃ v, SortKeyCodec.decode c key = Ok (mkScalar d (Some v)) ∧ in_range n v) ∧
  ∀ values, Forall (in_range n) (values_of values) → ∃ keys,
    SortKeyCodec.encode c (mkArray d values) = Ok keys ∧
    Forall2 (λ v key, is_u64 key ∧ SortKeyCodec.decode c key = Ok (mkScalar d (Some v)))
      (values_of values) keys.
Proof.
  intros Hc Hd. unfold SortKeyCodec.try_new in Hc. rewrite Hd in Hc. injection Hc as <-.
  assert (codec_ok (SortKeyCodec.mk d o) n) as Hok by done. split_and!.
  - intros a Ha. unfold SortKeyCodec.encode. cbn [SortKeyCodec.data_type].
    rewrite bool_decide_eq_false_2 by done. by eexists.
  - intros key. unfold SortKeyCodec.decode. cbn [SortKeyCodec.data_type]. rewrite Hd.
    eexists. split; [done|]. apply from_key_range. by eapply dispatch_width.
  - intros values Hv. exists (key_of (SortKeyCodec.mk d o) n <$> values_of values).
    split; [exact (encode_values _ n Hok values)|].
    apply Forall2_fmap_r, Forall_Forall2_diag. eapply Forall_impl; [exact Hv|]. cbn. intros v Hr.
    split; [by apply key_of_u64|]. by apply (decode_key _ n Hok).
Qed.

(** The ranks of the [P - 1] cuts of a column of [n] NULLs and [V] values are
    ranks of values, ascend, and leave no partition more than its share of values
    between two cuts: an equal part of all rows, or, once the NULLs outgrow it, of
    the values among the other partitions. They are distinct as soon as there are
    [P - 1] values and, with NULLs last, [P] rows. Without NULLs and with [P] values
    the placement of the NULLs makes no difference. *)
Theorem cut_ranks_balance (P nulls V : N) (first : bool) (i : N) :
  (2 ≤ P)%N → V ≠ 0%N → (i < P - 1)%N →
  let rank j := cut_rank first P nulls V (nulls + V) j in
  (1 ≤ rank i ≤ V)%N ∧
  (rank 0 ≤ share P nulls V ∧ V ≤ rank (P - 2) + share P nulls V)%N ∧
  ((i + 1 < P - 1)%N → (rank i ≤ rank (i + 1) ≤ rank i + share P nulls V)%N) ∧
  ((i + 1 < P - 1)%N → (P - 1 ≤ V)%N → first = true ∨ (P ≤ nulls + V)%N →
    (rank i < rank (i + 1))%N) ∧
  (nulls = 0%N → (P ≤ V)%N → rank i = cut_rank (negb first) P nulls V (nulls + V) i).
Proof.
  intros HP HV Hi rank. replace (P - 2)%N with (P - 1 - 1)%N by lia.
  pose proof (rank_first P nulls V HP HV first). pose proof (rank_last P nulls V HP HV first).
  split_and!; try done; try by apply rank_range.
  - intros. by apply rank_step.
  - intros. by apply rank_strict.
  - intros Hn HPV. pose proof (rank_layout P nulls V HP HV i Hn HPV Hi). by destruct first.
Qed.

(** [cuts] answers for every column that has values: with [P] partitions it
    gives [P - 1] boundaries, each of them a value of the column and so never NULL,
    in the order of the column. *)
Theorem cuts_are_values_in_order s vs P :
  codec_ok c n → sketch_of_column s vs → is_u64 (N.of_nat (length vs)) →
  2 ≤ P → values_of vs ≠ [] →
  ∃ l, cuts P s = Ok ((λ v, mkScalar (SortKeyCodec.data_type c) (Some v)) <$> l) ∧
    length l = P - 1 ∧ Forall (λ v, Some v ∈ vs) l ∧
    ∀ i a b, l !! i = Some a → l !! S i = Some b → (sort_position c n a ≤ sort_position c n b)%Z.
Proof. intros Hok Hs Hn HP Hne. apply column_cuts; [by apply column_sketched|done..]. Qed.

(** C22. A sketch survives the wire: for a column below 2^41 rows serializing fails
    only where the formats of Arrow or of scalars do, and a message that was made is
    accepted; the sketch read back counts the same rows and NULLs and gives the same
    extremes, quantiles and cuts. *)
Theorem sketch_survives_the_wire s vs r :
  codec_ok c n → sketch_of_column s vs → (N.of_nat (length vs) < 2 ^ 41)%N →
  ((∃ p, to_proto s = Ok p) ∨ ∃ e, to_proto s = Err e ∧ format_fails c n e) ∧
  ∀ p, to_proto s = Ok p →
    ∃ s', try_from_proto p (SortKeyCodec.options c) r = Ok s' ∧ codec s' = codec s ∧
      count s' = count s ∧ null_count s' = null_count s ∧
      min s' = min s ∧ max s' = max s ∧
      (∀ q, quantile q s' = quantile q s) ∧ ∀ P, cuts P s' = cuts P s.
Proof.
  intros Hok Hof Hn. assert (is_u64 (N.of_nat (length vs))) as Hu by (unfold is_u64; lia).
  pose proof (column_sketched s vs Hok Hof Hu) as Hs. split; [by apply (to_proto_total c n s vs)|].
  intros p Hp. destruct (column_wire c n s vs p r Hs Hu Hp) as (s' & Hf & Hs' & Hmin & Hmax & Hat).
  exists s'. split; [done|].
  destruct (column_counts c n s vs Hs Hu) as [Hc1 Hc2], (column_counts c n s' vs Hs' Hu) as [Hc1' Hc2'].
  assert (codec s' = codec s) as Hcd by by rewrite (cs_codec _ _ _ _ Hs), (cs_codec _ _ _ _ Hs').
  assert (nulls s' = nulls s) as Hnu by by rewrite (cs_nulls _ _ _ _ Hs), (cs_nulls _ _ _ _ Hs').
  split_and!; [done|by rewrite Hc2, Hc2'|done|..].
  - unfold min, extreme. by rewrite Hcd, Hnu, Hmin.
  - unfold max, extreme. by rewrite Hcd, Hnu, Hmax.
  - intros q. unfold quantile, value_rank. rewrite Hcd, Hnu, Hc1, Hc1', Hc2, Hc2'.
    destruct (_ =? 0)%N; [done|]. case_match; [|done]. unfold KllSketch.at_rank. by rewrite Hat.
  - intros P. unfold cuts. rewrite Hc1, Hc1', Hcd.
    assert (cut_ranks P s' = cut_ranks P s) as -> by (unfold cut_ranks; by rewrite Hcd, Hnu, Hc1, Hc1', Hc2, Hc2').
    by rewrite Hat.
Qed.
End theorems.

(** ** A small column *)

Section sample.
#[local] Existing Instances flips plain_format.

Definition desc : SortOptions := mkSortOptions true false.
Definition asc (first : bool) : SortOptions := mkSortOptions false first.
Definition int_codec (o : SortOptions) : SortKeyCodec.t := SortKeyCodec.mk Int64 o.
Definition float_codec : SortKeyCodec.t := SortKeyCodec.mk Float64 desc.

(** The sketch of one array *)
Definition sketched (o : SortOptions) (vs : list (option Z)) : t :=
  match ingest (mkArray Int64 vs) (new (int_codec o) (coin_seed 0)) with
  | Ok s => s
  | _ => new (int_codec o) (coin_seed 0)
  end.

Definition rows : list (option Z) := [Some 7; None; Some (-3); Some 12; None; Some 0]%Z.

Lemma rows_of_column : sketch_of_column (int_codec desc) (Signed 64) (sketched desc rows) rows.
Proof.
  apply (Col_ingest _ _ (new (int_codec desc) (coin_seed 0)) [] rows); [apply Col_new| |by vm_compute].
  repeat (constructor; [by vm_compute|]). constructor.
Qed.

(** The bits of -1.5 and of 2.0 *)
Lemma keys_order_like_values_witness :
  SortKeyCodec.encode float_codec (mkArray Float64 [Some (0xBFF8000000000000); None]%Z)
    = Ok [0xBFF8000000000000]%N ∧
  (key_of float_codec (Float 64) 0x4000000000000000 ≤ key_of float_codec (Float 64) 0xBFF8000000000000)%N.
Proof.
  destruct (keys_order_like_values float_codec (Float 64) Float64 desc
    [Some (0xBFF8000000000000); None]%Z eq_refl eq_refl) as [He Ho].
  split; [rewrite He; by vm_compute|].
  apply (Ho 0x4000000000000000%Z 0xBFF8000000000000%Z); by vm_compute.
Defined.

Lemma codec_is_type_safe_witness :
  ∃ keys,
    SortKeyCodec.encode (int_codec desc) (mkArray Int64 [None; Some (-3); Some 7; None]%Z) = Ok keys ∧
    Forall2 (λ v key, is_u64 key ∧
        SortKeyCodec.decode (int_codec desc) key = Ok (mkScalar Int64 (Some v)))
      [-3; 7]%Z keys.
Proof.
  destruct (codec_is_type_safe (int_codec desc) (Signed 64) Int64 desc eq_refl eq_refl) as (_ & _ & Hr).
  apply (Hr [None; Some (-3); Some 7; None]%Z). by repeat constructor.
Defined.

(** 60 NULLs before 40 values, in four partitions: the cuts are at 1, 14 and 27. *)
Lemma cut_ranks_balance_witness :
  cut_rank true 4 60 40 100 1 = 14%N ∧ share 4 60 40 = 14%N ∧
  (cut_rank true 4 60 40 (60 + 40) 1 < cut_rank true 4 60 40 (60 + 40) (1 + 1))%N.
Proof.
  split; [by vm_compute|]. split; [by vm_compute|].
  destruct (cut_ranks_balance 4 60 40 true 1) as (_ & _ & _ & Hs & _); [lia..|].
  apply Hs; [lia..|by left].
Defined.

Lemma cuts_are_values_in_order_witness :
  ∃ l, cuts 3 (sketched desc rows)
      = Ok ((λ v, mkScalar (SortKeyCodec.data_type (int_codec desc)) (Some v)) <$> l) ∧ length l = 2.
Proof.
  destruct (cuts_are_values_in_order (int_codec desc) (Signed 64) (sketched desc rows) rows 3 eq_refl
    rows_of_column) as (l & Hl & Hlen & _); [by vm_compute|lia|done|]. exists l. split; [exact Hl|exact Hlen].
Defined.

Lemma sketch_survives_the_wire_witness :
  ∃ p s', to_proto (sketched desc rows) = Ok p ∧ try_from_proto p desc (coin_seed 3) = Ok s' ∧
    ∀ P, cuts P s' = cuts P (sketched desc rows).
Proof.
  destruct (sketch_survives_the_wire (int_codec desc) (Signed 64) (sketched desc rows) rows (coin_seed 3)
    eq_refl rows_of_column) as [Ht Hr]; [by vm_compute|].
  destruct Ht as [[p Hp]|(e & He & _)]; [|by vm_compute in He].
  destruct (Hr p Hp) as (s' & Hf & _ & _ & _ & _ & _ & _ & Hcuts).
  exists p, s'. split; [exact Hp|]. split; [exact Hf|exact Hcuts].
Defined.

(** Without NULLs the placement of the NULLs does make a difference when the values
    do not outnumber the cuts: two values and three partitions are cut at both
    values with NULLs first, and twice at the first value with NULLs last. *)
Lemma layouts_differ_without_nulls :
  cuts 3 (sketched (asc true) [Some 1; Some 2]%Z)
    = Ok [mkScalar Int64 (Some 1%Z); mkScalar Int64 (Some 2%Z)] ∧
  cuts 3 (sketched (asc false) [Some 1; Some 2]%Z)
    = Ok [mkScalar Int64 (Some 1%Z); mkScalar Int64 (Some 1%Z)].
Proof. split; by vm_compute. Qed.
End sample.
