(* ===== verification/PhysicalPlan.v ===== *)
(** * Physical plans

    The tree of operators that the scheduler cuts into stages and restricts to the
    partitions of a task: DataFusion's nodes as far as the code looks into them, and the
    nodes of [core/src/execution_plans]. A node that the code does not look into is an
    [Op]. The rows that a partition of a plan can give are the relation [exec]. *)

From S2P Require Import Prelude Errors Types.
From stdpp Require Import numbers strings.

(** ** Outcomes over lists *)

Definition traverse {E A B : Type} (f : A → outcome E B) : list A → outcome E (list B) :=
  fix go l :=
    match l with
    | [] => Ok []
    | a :: l' => let? b := f a in let? bs := go l' in Ok (b :: bs)
    end.

(** [zip], then [map] and [collect] *)
Definition traverse2 {E A B C : Type} (f : A → B → outcome E C) : list A → list B → outcome E (list C) :=
  fix go l1 l2 :=
    match l1, l2 with
    | a :: l1', b :: l2' => let? c := f a b in let? cs := go l1' l2' in Ok (c :: cs)
    | _, _ => Ok []
    end.

(** ** Nodes *)

(** What the code only passes on: schemas, expressions, orderings, operators, the
    configuration of a scan without its files or batches, a range filter without its
    bounds, a scalar, a prefix state *)
Class PlanTypes : Type := {
  Schema : Type;
  Expr : Type;
  LexOrdering : Type;
  Op : Type;
  JoinRest : Type;
  Source : Type;
  FileGroup : Type;
  MemoryPartition : Type;
  FilterConfig : Type;
  RangeBound : Type;
  WidenedBound : Type;
  Scalar : Type;
  PrefixState : Type;
  AggregateApply : Type;
}.

Section nodes.
Context `{PlanTypes}.

Inductive Partitioning : Type :=
| RoundRobinBatch (n : nat)
| Hash (exprs : list Expr) (n : nat)
| RangePartitioning (n : nat)
| UnknownPartitioning (n : nat).

Definition partition_count (p : Partitioning) : nat :=
  match p with
  | RoundRobinBatch n | Hash _ n | RangePartitioning n | UnknownPartitioning n => n
  end.

Record PartitionGroup : Type := mkGroup { upstream_indices : list nat }.
Record CoalescePlan : Type := mkCoalesce { c_upstream_partition_count : nat; c_groups : list PartitionGroup }.

Record ShuffleReaderExec : Type := mkReader {
  sr_stage_id : nat;
  sr_schema : Schema;
  sr_partition : list (list PartitionLocation.t);
  sr_broadcast : bool;
  sr_upstream_partition_count : nat;
  sr_coalesce : option CoalescePlan;
  sr_partitioning : Partitioning;
}.

Definition shuffle_reader_try_new (stage_id : nat) (partition : list (list PartitionLocation.t)) (schema : Schema)
    (partitioning : Partitioning) : ShuffleReaderExec :=
  mkReader stage_id schema partition false (length partition) None partitioning.

Definition shuffle_reader_try_new_broadcast (stage_id : nat) (all_locations : list PartitionLocation.t)
    (schema : Schema) (upstream_partition_count : nat) : ShuffleReaderExec :=
  mkReader stage_id schema [all_locations] true upstream_partition_count None (UnknownPartitioning 1).

Definition shuffle_reader_try_new_coalesced (stage_id : nat) (partition : list (list PartitionLocation.t))
    (coalesce : CoalescePlan) (schema : Schema) (partitioning : Partitioning) : ShuffleReaderExec :=
  mkReader stage_id schema partition false (c_upstream_partition_count coalesce) (Some coalesce) partitioning.

Record RangeShuffleReaderExec : Type := mkRangeReader {
  rr_stage_id : nat;
  rr_schema : Schema;
  rr_partition : list (list PartitionLocation.t);
  rr_merge_ordering : LexOrdering;
  rr_fetch : option nat;
  rr_bounds : option (list WidenedBound);
}.

Definition range_reader_try_new (stage_id : nat) (partition : list (list PartitionLocation.t)) (schema : Schema)
    (merge_ordering : LexOrdering) : RangeShuffleReaderExec :=
  mkRangeReader stage_id schema partition merge_ordering None None.

Definition with_fetch_limit (fetch : option nat) (self : RangeShuffleReaderExec) : RangeShuffleReaderExec :=
  mkRangeReader (rr_stage_id self) (rr_schema self) (rr_partition self) (rr_merge_ordering self) fetch (rr_bounds self).

Definition with_bounds (bounds : list WidenedBound) (self : RangeShuffleReaderExec) : df_result RangeShuffleReaderExec :=
  if length bounds =? length (rr_partition self) then
    Ok (mkRangeReader (rr_stage_id self) (rr_schema self) (rr_partition self) (rr_merge_ordering self)
          (rr_fetch self) (Some bounds))
  else Err (DF_Other "RangeShuffleReaderExec got {} bounds for {} output partitions").

Record UnresolvedShuffleExec : Type := mkUnresolved {
  us_stage_id : nat;
  us_schema : Schema;
  us_output_partition_count : nat;
  us_upstream_partition_count : nat;
  us_broadcast : bool;
  us_coalesce : option CoalescePlan;
  us_partitioning : Partitioning;
}.

Definition unresolved_new (stage_id : nat) (schema : Schema) (partitioning : Partitioning) : UnresolvedShuffleExec :=
  mkUnresolved stage_id schema (partition_count partitioning) (partition_count partitioning) false None partitioning.

Definition unresolved_new_broadcast (stage_id : nat) (schema : Schema) (upstream_partition_count : nat)
  : UnresolvedShuffleExec :=
  mkUnresolved stage_id schema 1 upstream_partition_count true None (UnknownPartitioning 1).

Inductive JoinType : Type :=
| Inner | LeftJoin | RightJoin | Full | LeftSemi | RightSemi | LeftAnti | RightAnti | LeftMark | RightMark.

Inductive PartitionMode : Type := Partitioned | CollectLeft | Auto.

Record HashJoinExec : Type := mkJoin {
  join_type : JoinType;
  partition_mode : PartitionMode;
  null_aware : bool;
  join_on : list (Expr * Expr);
  join_rest : JoinRest;
}.

(** A correction of an output column: [op] and [output_column] of [Scalar] are part of
    the payload. *)
Inductive WindowApply : Type :=
| ScalarApply (op : nat) (offset : list Scalar) (output_column : nat)
| Aggregate (a : AggregateApply).

(** The nodes without children, and the other ones without their children *)
Inductive Leaf : Type :=
| ShuffleReader (r : ShuffleReaderExec)
| RangeShuffleReader (r : RangeShuffleReaderExec)
| UnresolvedShuffle (u : UnresolvedShuffleExec)
| FileScan (s : Source) (file_groups : list FileGroup)
| MemoryScan (s : Source) (partitions : list MemoryPartition)
| OtherSource (s : Source) (n : nat)
| PlaceholderRow (schema : Schema) (n : nat)
| EmptyExec (schema : Schema) (n : nat).

Inductive Kind : Type :=
| UnionExec
| CoalescePartitions
| SortPreservingMerge (ordering : LexOrdering) (fetch : option nat)
| Repartition (p : Partitioning)
| HashJoin (j : HashJoinExec)
| Projection (o : Op)
| RangeFilter (f : FilterConfig) (raw_bounds : option (list RangeBound))
| PrefixMerge (applies : list WindowApply) (per_partition_state : option (list PrefixState))
| UnorderedRangeRepartition (o : Op) (k : nat)
| OrderedRangeRepartition (o : Op) (k : nat)
| ShuffleWriter (job_id : JobId) (stage_id : nat)
| RangeShuffleWriter (job_id : JobId) (stage_id : nat)
| SortShuffleWriter (job_id : JobId) (stage_id : nat) (p : Partitioning)
| OtherOp (o : Op).

Inductive ExecutionPlan : Type :=
| LeafNode (l : Leaf)
| Node (k : Kind) (inputs : list ExecutionPlan).

Definition children (p : ExecutionPlan) : list ExecutionPlan :=
  match p with LeafNode _ => [] | Node _ cs => cs end.

(** Induction that reaches into the lists of children *)
Lemma plan_ind (P : ExecutionPlan → Prop) :
  (∀ l, P (LeafNode l)) → (∀ k cs, Forall P cs → P (Node k cs)) → ∀ p, P p.
Proof.
  intros Hl Hn. refine (fix go p := match p with LeafNode l => Hl l | Node k cs => Hn k cs _ end).
  induction cs as [|c cs IH]; constructor; [apply go|exact IH].
Qed.
End nodes.

(** ** Properties of nodes

    What DataFusion says of its operators: the partitioning of a scan, of a join and of
    another operator, which inputs an operator wants in one partition, schemas, and
    whether a memory source is accepted *)
Class PlanProps `{PlanTypes} : Type := {
  source_partitioning : Source → nat → Partitioning;
  source_schema : Source → Schema;
  join_partitioning : HashJoinExec → list Partitioning → Partitioning;
  op_partitioning : Op → list Partitioning → Partitioning;
  op_single_partition : Op → list bool;
  node_schema : Kind → list Schema → Schema;
  memory_source_ok : Source → bool;
  (** the bound can be widened by the halos of the filter *)
  bound_widens : FilterConfig → RangeBound → bool;
}.

Class PlanLaws `{PlanProps} : Prop := {
  source_partition_count s n : partition_count (source_partitioning s n) = n;
  (** A join that collects its left input has the partitions of the right one; another
      one has as many as both inputs. *)
  collect_left_partition_count j l r :
    partition_mode j = CollectLeft → partition_count (join_partitioning j [l; r]) = partition_count r;
  join_partition_count j l r :
    partition_mode j ≠ CollectLeft → partition_count l = partition_count r →
    partition_count (join_partitioning j [l; r]) = partition_count l;
  (** An operator has the partitions of the inputs it does not want in one. *)
  op_partition_count o ps i p :
    length (op_single_partition o) = length ps →
    op_single_partition o !! i = Some false → ps !! i = Some p →
    (∀ j q, op_single_partition o !! j = Some false → ps !! j = Some q → partition_count q = partition_count p) →
    partition_count (op_partitioning o ps) = partition_count p;
}.

Section properties.
Context `{PlanProps}.

Definition leaf_partitioning (l : Leaf) : Partitioning :=
  match l with
  | ShuffleReader r => sr_partitioning r
  | RangeShuffleReader r => UnknownPartitioning (length (rr_partition r))
  | UnresolvedShuffle u => us_partitioning u
  | FileScan s groups => source_partitioning s (length groups)
  | MemoryScan s parts => source_partitioning s (length parts)
  | OtherSource s n => source_partitioning s n
  | PlaceholderRow _ n | EmptyExec _ n => UnknownPartitioning n
  end.

Definition first_partitioning (ps : list Partitioning) : Partitioning :=
  match ps with p :: _ => p | [] => UnknownPartitioning 0 end.

Definition node_partitioning (k : Kind) (ps : list Partitioning) : Partitioning :=
  match k with
  | UnionExec => UnknownPartitioning (sum_list (partition_count <$> ps))
  | CoalescePartitions | SortPreservingMerge _ _ => UnknownPartitioning 1
  | Repartition p => p
  | HashJoin j => join_partitioning j ps
  | Projection o | OtherOp o => op_partitioning o ps
  | RangeFilter _ _ | PrefixMerge _ _ | ShuffleWriter _ _ | RangeShuffleWriter _ _ => first_partitioning ps
  | UnorderedRangeRepartition _ k | OrderedRangeRepartition _ k => UnknownPartitioning k
  | SortShuffleWriter _ _ p => p
  end.

(** [properties().output_partitioning()] *)
Fixpoint output_partitioning (p : ExecutionPlan) : Partitioning :=
  match p with
  | LeafNode l => leaf_partitioning l
  | Node k cs => node_partitioning k (output_partitioning <$> cs)
  end.

Definition count (p : ExecutionPlan) : nat := partition_count (output_partitioning p).

Definition leaf_schema (l : Leaf) : Schema :=
  match l with
  | ShuffleReader r => sr_schema r
  | RangeShuffleReader r => rr_schema r
  | UnresolvedShuffle u => us_schema u
  | FileScan s _ | MemoryScan s _ | OtherSource s _ => source_schema s
  | PlaceholderRow schema _ | EmptyExec schema _ => schema
  end.

(** The nodes of [core/src/execution_plans] have the schema of their input. *)
Definition schema_at (k : Kind) (ss : list Schema) : Schema :=
  match k, ss with
  | (RangeFilter _ _ | PrefixMerge _ _ | UnorderedRangeRepartition _ _ | OrderedRangeRepartition _ _
     | ShuffleWriter _ _ | RangeShuffleWriter _ _ | SortShuffleWriter _ _ _), [s] => s
  | _, _ => node_schema k ss
  end.

Fixpoint schema_of (p : ExecutionPlan) : Schema :=
  match p with
  | LeafNode l => leaf_schema l
  | Node k cs => schema_at k (schema_of <$> cs)
  end.

(** [input_distribution_requirements()], as far as it asks for a single partition *)
Definition single_partition (k : Kind) (n : nat) : list bool :=
  match k with
  | HashJoin j => match partition_mode j with CollectLeft => [true; false] | _ => [false; false] end
  | Projection o | OtherOp o => op_single_partition o
  | _ => replicate n false
  end.
End properties.

(** ** Rows

    What executing a node gives: the rows a reader gets from shuffle files, the rows of
    scans, and the rows of an operator from those of its inputs. Results are relations,
    since readers and operators may give rows in several orders. *)
Class ExecOps `{PlanTypes} : Type := {
  Row : Type;
  read : list PartitionLocation.t → list Row → Prop;
  range_read : LexOrdering → option nat → option WidenedBound → list PartitionLocation.t → list Row → Prop;
  scan_file : Source → FileGroup → list Row → Prop;
  scan_memory : Source → MemoryPartition → list Row → Prop;
  scan_other : Source → nat → nat → list Row → Prop;
  null_row : Schema → Row;
  (** [op_rows k i inputs rows]: partition [i] of the node can give [rows]. An input is
      the list of its partitions if the operator reads all of them, and else the one
      partition that belongs to [i]. *)
  op_rows : Kind → nat → list (list (list Row)) → list Row → Prop;
}.

Section exec.
Context `{PlanProps} `{!ExecOps}.

(** The inputs of which an operator reads all partitions *)
Definition collects (k : Kind) (n : nat) : list bool :=
  match k with
  | CoalescePartitions | SortPreservingMerge _ _ | Repartition _ | UnorderedRangeRepartition _ _
  | OrderedRangeRepartition _ _ | SortShuffleWriter _ _ _ => replicate n true
  | _ => if length (single_partition k n) =? n then single_partition k n else replicate n false
  end.

Definition apply_at (i : nat) (apply : WindowApply) : WindowApply :=
  match apply with
  | ScalarApply op offset output_column => ScalarApply op (option_list (offset !! i)) output_column
  | Aggregate a => Aggregate a
  end.

(** What partition [i] uses of a node whose data is indexed by partition, as a node of
    one partition; and the partition of a node that moves rows between partitions *)
Definition local_kind (k : Kind) (i : nat) : Kind * nat :=
  match k with
  | RangeFilter f bounds => (RangeFilter f ((λ bs, option_list (bs !! i)) <$> bounds), 0)
  | PrefixMerge applies state => (PrefixMerge (apply_at i <$> applies) ((λ ss, option_list (ss !! i)) <$> state), 0)
  | Repartition _ | UnorderedRangeRepartition _ _ | OrderedRangeRepartition _ _ | SortShuffleWriter _ _ _ => (k, i)
  | _ => (k, 0)
  end.

(** What a shuffle that is not resolved stands for: its partitions *)
Context (env : UnresolvedShuffleExec → nat → list Row → Prop).

Definition leaf_rows (l : Leaf) (i : nat) (rows : list Row) : Prop :=
  match l with
  | ShuffleReader r =>
      match sr_partition r !! (if sr_broadcast r then 0 else i) with Some locs => read locs rows | None => False end
  | RangeShuffleReader r =>
      match rr_partition r !! i with
      | Some locs => range_read (rr_merge_ordering r) (rr_fetch r) (bs ← rr_bounds r; bs !! i) locs rows
      | None => False
      end
  | UnresolvedShuffle u => env u i rows
  | FileScan s groups => match groups !! i with Some g => scan_file s g rows | None => False end
  | MemoryScan s parts => match parts !! i with Some p => scan_memory s p rows | None => False end
  | OtherSource s n => i < n ∧ scan_other s n i rows
  | PlaceholderRow schema n => i < n ∧ rows = [null_row schema]
  | EmptyExec _ n => i < n ∧ rows = []
  end.

(** The inputs of partition [i] *)
Definition inputs_ok (exec_child : ExecutionPlan → nat → list Row → Prop) (i : nat)
  : list ExecutionPlan → list bool → list (list (list Row)) → Prop :=
  fix go cs flags vs :=
    match cs, flags, vs with
    | [], _, [] => True
    | c :: cs', flag :: flags', v :: vs' =>
        (if flag : bool then length v = count c ∧ ∀ j r, v !! j = Some r → exec_child c j r
         else ∃ r, v = [r] ∧ exec_child c i r) ∧ go cs' flags' vs'
    | _, _, _ => False
    end.

(** A partition of a union is one of a child. *)
Definition union_rows (exec_child : ExecutionPlan → nat → list Row → Prop)
  : list ExecutionPlan → nat → list Row → Prop :=
  fix go cs i rows :=
    match cs with
    | [] => False
    | c :: cs' => if i <? count c then exec_child c i rows else go cs' (i - count c) rows
    end.

(** Executing partition [i] of the plan can give [rows]. *)
Fixpoint exec (p : ExecutionPlan) (i : nat) (rows : list Row) {struct p} : Prop :=
  match p with
  | LeafNode l => leaf_rows l i rows
  | Node UnionExec cs => union_rows exec cs i rows
  | Node k cs =>
      ∃ views, inputs_ok exec i cs (collects k (length cs)) views ∧
        op_rows (local_kind k i).1 (local_kind k i).2 views rows
  end.
End exec.
