(* ===== verification/TaskPlan.v ===== *)
(** * The plan of a task

    Models [scheduler/src/state/task_builder.rs], which restricts the plan of a stage to
    the partitions of a task, and the part of [core/src/execution_plans/shuffle_writer.rs]
    that gives the files of a task their partition ids. *)

From S2P Require Import Prelude Errors Types PhysicalPlan.
From stdpp Require Import numbers strings.

(** ** Replacing children

    A plan is shared; a rewrite that changes nothing returns the plan itself, and
    [replace_children_if_necessary] only rebuilds a node when a child is another object.
    So a rewritten plan comes with a flag: whether it is a new object. *)
Abbreviation rewritten := (ExecutionPlan * bool)%type.

(** Whether DataFusion rebuilds a node over new children, and a source without data *)
Class RebuildOps `{PlanProps} : Type := {
  rebuilds : Kind → list ExecutionPlan → list ExecutionPlan → bool;
  memory_source : Schema → Source;
}.

Class RebuildLaws `{RebuildOps} : Prop := {
  (** A node takes children of the schemas of its old ones. *)
  rebuilds_same_schema k cs cs' : schema_of <$> cs' = schema_of <$> cs → rebuilds k cs cs' = true;
  repartition_schema p schema : node_schema (Repartition p) [schema] = schema;
  memory_source_schema schema : source_schema (memory_source schema) = schema;
  memory_source_accepted schema : memory_source_ok (memory_source schema) = true;
}.

Section task_plan.
Context `{RebuildOps}.

Definition internal (text : string) : DataFusionError := DF_Other text.

(** [RangeFilterExec::try_new_inner] and [build_bounds_state]; the checks of the
    expression and of the halos are made when the filter is first built. *)
Definition range_filter_try_new (f : FilterConfig) (raw_bounds : option (list RangeBound)) (input : ExecutionPlan)
  : df_result ExecutionPlan :=
  match raw_bounds with
  | None => Ok (Node (RangeFilter f None) [input])
  | Some raw =>
      if negb (length raw =? count input) then
        Err (internal "RangeFilterExec: raw_bounds.len() ({}) does not match input partition count ({partition_count})")
      else if forallb (bound_widens f) raw then Ok (Node (RangeFilter f (Some raw)) [input])
      else Err (internal "RangeFilterExec: cut range inverts under halos")
  end.

Definition offsets_match (n : nat) (apply : WindowApply) : bool :=
  match apply with ScalarApply _ offset _ => length offset =? n | Aggregate _ => true end.

(** [PrefixMergeExec::try_new_inner]; output columns are checked when it is first built. *)
Definition prefix_merge_try_new (applies : list WindowApply) (state : option (list PrefixState)) (input : ExecutionPlan)
  : df_result ExecutionPlan :=
  let partition_count := count input in
  if match state with Some s => negb (length s =? partition_count) | None => false end then
    Err (internal "PrefixMergeExec: per_partition_state.len() {} does not match input partition count {}")
  else if forallb (offsets_match partition_count) applies then Ok (Node (PrefixMerge applies state) [input])
  else Err (internal "PrefixMergeExec: applies[{i}] Scalar offset.len() {} does not match input partition count {}").

Definition sort_shuffle_writer_try_new (job_id : JobId) (stage_id : nat) (plan : ExecutionPlan) (p : Partitioning)
  : df_result ExecutionPlan :=
  match p with
  | Hash _ 0 => Err (DF_Other "SortShuffleWriterExec requires at least one output partition")
  | Hash _ _ => Ok (Node (SortShuffleWriter job_id stage_id p) [plan])
  | _ => Err (DF_Other "SortShuffleWriterExec only supports Hash partitioning, got: {other:?}")
  end.

Definition with_new_children (k : Kind) (old new : list ExecutionPlan) : df_result ExecutionPlan :=
  match k, new with
  | RangeFilter f bounds, [c] => range_filter_try_new f bounds c
  | PrefixMerge applies state, [c] => prefix_merge_try_new applies state c
  | (ShuffleWriter _ _ | RangeShuffleWriter _ _), [c] => Ok (Node k [c])
  | SortShuffleWriter job_id stage_id p, [c] => sort_shuffle_writer_try_new job_id stage_id c p
  | (RangeFilter _ _ | PrefixMerge _ _ | ShuffleWriter _ _ | RangeShuffleWriter _ _ | SortShuffleWriter _ _ _), _ =>
      Err (DF_Other "{} expects single child")
  | _, _ => if rebuilds k old new then Ok (Node k new) else Err (DF_Other "with_new_children")
  end.

Definition replace_children_if_necessary (k : Kind) (old : list ExecutionPlan) (new : list rewritten)
  : df_result rewritten :=
  if negb (length new =? length old) then Err (internal "Wrong number of children")
  else if existsb snd new then let? p := with_new_children k old (fst <$> new) in Ok (p, true)
  else Ok (Node k old, false).

(** ** Slicing *)

Definition slice_by_global_partition {A : Type} (values : list A) (partitions : list nat) : df_result (list A) :=
  traverse (λ global,
    match values !! global with
    | Some v => Ok v
    | None => Err (internal "{owner}: partition index {global} out of bounds ({} {what})")
    end) partitions.

Definition slice_apply (partitions : list nat) (apply : WindowApply) : df_result WindowApply :=
  match apply with
  | ScalarApply op offset output_column =>
      let? offset := slice_by_global_partition offset partitions in Ok (ScalarApply op offset output_column)
  | Aggregate a => Ok (Aggregate a)
  end.

(** [PartitionSliceable::slice_to_partitions] of [RangeFilterExec] and [PrefixMergeExec] *)
Definition range_filter_slice (f : FilterConfig) (raw_bounds : option (list RangeBound)) (child : ExecutionPlan)
    (partitions : list nat) : df_result ExecutionPlan :=
  match raw_bounds with
  | None => Err (internal "RangeFilterExec: task-restriction before resolve_bounds()")
  | Some raw => let? sliced := slice_by_global_partition raw partitions in range_filter_try_new f (Some sliced) child
  end.

Definition prefix_merge_slice (applies : list WindowApply) (state : option (list PrefixState)) (child : ExecutionPlan)
    (partitions : list nat) : df_result ExecutionPlan :=
  let? applies := traverse (slice_apply partitions) applies in
  match state with
  | None => Err (internal "PrefixMergeExec: task-restriction before resolve_state()")
  | Some state =>
      let? sliced := slice_by_global_partition state partitions in prefix_merge_try_new applies (Some sliced) child
  end.

(** ** Restriction *)

(** [indices.iter().filter_map(|&p| l.get(p).cloned())] *)
Definition keep {A : Type} (l : list A) (indices : list nat) : list A := omap (λ p, l !! p) indices.

Definition restricted_partitioning (p : Partitioning) (n : nat) : df_result Partitioning :=
  match p with
  | Hash exprs _ => Ok (Hash exprs n)
  | RoundRobinBatch _ => Ok (RoundRobinBatch n)
  | UnknownPartitioning _ => Ok (UnknownPartitioning n)
  | RangePartitioning _ => Err (internal "cannot restrict a Range-partitioned ShuffleReaderExec (stage {})")
  end.

Definition select_output_partitions (l : Leaf) (indices : list nat) : df_result (option rewritten) :=
  match l with
  | ShuffleReader r =>
      if sr_broadcast r then Ok (Some (LeafNode l, false))
      else
        let kept := keep (sr_partition r) indices in
        let? partitioning := restricted_partitioning (sr_partitioning r) (length kept) in
        Ok (Some (LeafNode (ShuffleReader (shuffle_reader_try_new (sr_stage_id r) kept (sr_schema r) partitioning)), true))
  | RangeShuffleReader r =>
      let kept := keep (rr_partition r) indices in
      let restricted := range_reader_try_new (rr_stage_id r) kept (rr_schema r) (rr_merge_ordering r) in
      let restricted := with_fetch_limit (rr_fetch r) restricted in
      match rr_bounds r with
      | None => Ok (Some (LeafNode (RangeShuffleReader restricted), true))
      | Some bounds =>
          match with_bounds (keep bounds indices) restricted with
          | Ok restricted => Ok (Some (LeafNode (RangeShuffleReader restricted), true))
          | _ => Ok None
          end
      end
  | FileScan s file_groups => Ok (Some (LeafNode (FileScan s (keep file_groups indices)), true))
  | MemoryScan s partitions =>
      if memory_source_ok s then Ok (Some (LeafNode (MemoryScan s (keep partitions indices)), true)) else Ok None
  | PlaceholderRow schema _ | EmptyExec schema _ =>
      match indices with
      | [] =>
          let stub := memory_source schema in
          if memory_source_ok stub then Ok (Some (LeafNode (MemoryScan stub []), true)) else Ok None
      | _ => Ok None
      end
  | UnresolvedShuffle _ | OtherSource _ _ => Ok None
  end.

(** The child that has a partition of a union, and its index there *)
Fixpoint owner (child_counts : list nat) (i remaining : nat) : option (nat * nat) :=
  match child_counts with
  | [] => None
  | count :: counts' => if remaining <? count then Some (i, remaining) else owner counts' (S i) (remaining - count)
  end.

Definition push_owned (child_counts : list nat) (per_child : list (list nat)) (p : nat) : list (list nat) :=
  match owner child_counts 0 p with
  | Some (i, local) => alter (λ sub, sub ++ [local]) i per_child
  | None => per_child
  end.

Definition union_child_partitions (child_counts partitions : list nat) : list (list nat) :=
  foldl (push_owned child_counts) (replicate (length child_counts) []) partitions.

Definition child_scopes (k : Kind) (n : nat) (under_collect : bool) : list bool :=
  if under_collect then replicate n true
  else
    match k with
    | CoalescePartitions | SortPreservingMerge _ _ => replicate n true
    | _ =>
        let per_child := single_partition k n in
        if negb (length per_child =? n) then replicate n false else per_child
    end.

Fixpoint restrict (p : ExecutionPlan) (partitions : list nat) (under_collect : bool) {struct p} : df_result rewritten :=
  match p with
  | LeafNode l =>
      if under_collect then Ok (p, false)
      else
        let? selected := select_output_partitions l partitions in
        Ok (default (p, false) selected)
  | Node k cs =>
      let interior :=
        let? new := traverse2 (λ c collect, restrict c partitions collect) cs (child_scopes k (length cs) under_collect) in
        replace_children_if_necessary k cs new in
      if under_collect then interior
      else
        match k, cs with
        | RangeFilter f raw_bounds, [c] =>
            let? new_child := restrict c partitions false in
            let? p := range_filter_slice f raw_bounds new_child.1 partitions in Ok (p, true)
        | PrefixMerge applies state, [c] =>
            let? new_child := restrict c partitions false in
            let? p := prefix_merge_slice applies state new_child.1 partitions in Ok (p, true)
        | (RangeFilter _ _ | PrefixMerge _ _), _ =>
            Err (internal "{} is PartitionSliceable but has {} children, expected 1")
        | UnionExec, _ =>
            let per_child := union_child_partitions (count <$> cs) partitions in
            let? new := traverse2 (λ c sub, restrict c sub false) cs per_child in
            replace_children_if_necessary k cs new
        | _, _ => interior
        end
  end.

Definition restrict_plan_to_partitions (plan : ExecutionPlan) (partitions : list nat) : df_result ExecutionPlan :=
  let? r := restrict plan partitions false in Ok r.1.

(** ** Partition ids of the files of a task *)

Inductive GlobalPartitionMap : Type :=
| Collapsed
| KSpace
| PassThrough (slice : list nat).

Definition resolve (m : GlobalPartitionMap) (local : nat) : nat :=
  match m with
  | Collapsed => 0
  | KSpace => local
  | PassThrough slice => default local (slice !! local)
  end.

(** The recursion is on the only child. *)
Fixpoint walk_child_partition_mapping (plan : ExecutionPlan) (ids : list nat)
  : outcome Empty_set GlobalPartitionMap :=
  match plan with
  | LeafNode _ => Ok (PassThrough ids)
  | Node k cs =>
      match k with
      | SortPreservingMerge _ _ => Ok Collapsed
      | Repartition (UnknownPartitioning _) => Panic
      | Repartition _ | UnorderedRangeRepartition _ _ | OrderedRangeRepartition _ _ => Ok KSpace
      | _ => match cs with [c] => walk_child_partition_mapping c ids | _ => Ok (PassThrough ids) end
      end
  end.

Definition compute_global_output_partition_ids (stage_plan : ExecutionPlan) (ids : list nat)
  : outcome Empty_set (list nat) :=
  match stage_plan with
  | Node (SortShuffleWriter _ _ p) _ => match p with Hash _ k => Ok (seq 0 k) | _ => Panic end
  | Node (ShuffleWriter _ _ | RangeShuffleWriter _ _) cs =>
      match cs with
      | [child] =>
          let? m := walk_child_partition_mapping child ids in
          match m with
          | Collapsed => Ok [0]
          | KSpace => Ok (seq 0 (count child))
          | PassThrough ids => Ok ids
          end
      | _ => Panic
      end
  | _ => Ok ids
  end.

(** The files that [ShuffleWriterExec::execute_shuffle_write] writes: for each partition
    of its plan the partition id of the file *)
Definition written_partitions (plan : ExecutionPlan) (global_output_partition_ids : list nat)
  : outcome Empty_set (list nat) :=
  let? partition_map := walk_child_partition_mapping plan global_output_partition_ids in
  Ok (resolve partition_map <$> seq 0 (count plan)).

(** A task of a stage whose plan is a passthrough writer: the scheduler restricts the plan
    and computes the partition ids, the executor writes. The result is the plan that is
    executed and the partition ids of its partitions. *)
Definition run_task (stage_plan : ExecutionPlan) (slice : list nat) : df_result (ExecutionPlan * list nat) :=
  let? restricted := restrict_plan_to_partitions stage_plan slice in
  match compute_global_output_partition_ids stage_plan slice, restricted with
  | Ok ids, Node (ShuffleWriter _ _) [plan] =>
      match written_partitions plan ids with
      | Ok written => Ok (plan, written)
      | _ => Panic
      end
  | Panic, _ => Panic
  | _, _ => Err (internal "Plan passed to new_query_stage_exec is not a ShuffleWriterExec")
  end.
End task_plan.
