(* ===== verification/TaskPlanFacts.v ===== *)
(** * Lemmas on the plan of a task

    When a plan can be split over tasks ([splittable]), and that the restriction to a
    slice then has the partitions of the slice, with the rows they have in the plan. *)

From S2P Require Import Prelude Errors Types PhysicalPlan TaskPlan.
From stdpp Require Import numbers strings list.

(** ** Lists *)

Lemma traverse_ok {E A B : Type} (f : A → outcome E B) l bs :
  traverse f l = Ok bs ↔ Forall2 (λ a b, f a = Ok b) l bs.
Proof.
  revert bs. induction l as [|a l IH]; intros bs; cbn.
  - split; [intros [= <-]; constructor|by inversion 1].
  - split.
    + destruct (f a) as [b| |] eqn:Hf; cbn; [|done..]. fold (traverse f l).
      destruct (traverse f l) as [bs'| |] eqn:Ht; cbn; [|done..]. intros [= <-]. constructor; [done|by apply IH].
    + inversion_clear 1 as [|? b ? bs' Hf Hl]. rewrite Hf. cbn. fold (traverse f l). apply IH in Hl. by rewrite Hl.
Qed.

Lemma traverse2_cons {E A B C : Type} (f : A → B → outcome E C) a l1 b l2 :
  traverse2 f (a :: l1) (b :: l2) = (let? c := f a b in let? cs := traverse2 f l1 l2 in Ok (c :: cs)).
Proof. done. Qed.

Lemma traverse2_ok {E A B C : Type} (f : A → B → outcome E C) l1 l2 l3 :
  Forall3 (λ a b c, f a b = Ok c) l1 l2 l3 → traverse2 f l1 l2 = Ok l3.
Proof. induction 1 as [|a b c l1 l2 l3 Hf _ IH]; [done|]. by rewrite traverse2_cons, Hf, IH. Qed.

Lemma keep_lookup {A : Type} (l : list A) S :
  Forall (λ s, s < length l) S →
  length (keep l S) = length S ∧ ∀ j s, S !! j = Some s → keep l S !! j = l !! s.
Proof.
  unfold keep. induction 1 as [|s S Hs _ [IHl IHj]]; [done|]. cbn.
  destruct (lookup_lt_is_Some_2 l s Hs) as [x Hx]. rewrite Hx. cbn. split; [by f_equal|].
  intros [|j] s'; cbn; [intros [= <-]; done|apply IHj].
Qed.

(** ** What restriction keeps *)

Section facts.
Context `{RebuildOps} {RL : RebuildLaws}.

Lemma restrict_collected p S : restrict p S true = Ok (p, false).
Proof.
  induction p as [l|k cs IH] using plan_ind; [done|]. cbn [restrict].
  assert (traverse2 (λ c collect, restrict c S collect) cs (replicate (length cs) true) = Ok ((λ c, (c, false)) <$> cs)) as Ht.
  { induction IH as [|c cs Hc _ IHcs]; [done|]. cbn [length replicate]. rewrite traverse2_cons, Hc. cbn [obind].
    by rewrite IHcs. }
  unfold child_scopes. rewrite Ht. cbn [obind]. unfold replace_children_if_necessary.
  rewrite length_fmap, Nat.eqb_refl. cbn [negb].
  assert (existsb snd ((λ c : ExecutionPlan, (c, false)) <$> cs) = false) as -> by (clear; induction cs; cbn; auto).
  done.
Qed.

Lemma with_new_children_node k old new p : with_new_children k old new = Ok p → p = Node k new.
Proof.
  intros Hw. destruct k, new as [|c [|]]; cbn in Hw; try discriminate Hw;
    unfold range_filter_try_new, prefix_merge_try_new, sort_shuffle_writer_try_new in Hw; repeat case_match; by simplify_eq.
Qed.

Lemma replace_node k old new r :
  replace_children_if_necessary k old new = Ok r → r = (Node k (fst <$> new), true) ∨ r = (Node k old, false).
Proof.
  unfold replace_children_if_necessary. case_match; [done|]. case_match.
  - destruct (with_new_children _ _ _) as [p| |] eqn:Hw; cbn; [|done..]. intros [= <-]. left.
    by rewrite (with_new_children_node _ _ _ _ Hw).
  - intros [= <-]. by right.
Qed.

Lemma replace_schema k old new r :
  replace_children_if_necessary k old new = Ok r → schema_of <$> (fst <$> new) = schema_of <$> old →
  schema_of r.1 = schema_of (Node k old).
Proof. intros [-> | ->]%replace_node Hs; [|done]. cbn [fst schema_of]. by rewrite Hs. Qed.

Lemma traverse2_schema {B : Type} (f : ExecutionPlan → B → df_result rewritten) cs bs new :
  Forall (λ c, ∀ b r, f c b = Ok r → schema_of r.1 = schema_of c) cs → length bs = length cs →
  traverse2 f cs bs = Ok new → schema_of <$> (fst <$> new) = schema_of <$> cs.
Proof.
  intros Hall. revert bs new. induction Hall as [|c cs Hc _ IH]; intros [|b bs] new; try done.
  { by intros _ [= <-]. }
  intros [= Hlen]. rewrite traverse2_cons. destruct (f c b) as [r| |] eqn:Hf; cbn [obind]; [|done..].
  destruct (traverse2 f cs bs) as [rs| |] eqn:Ht; cbn [obind]; [|done..]. intros [= <-]. cbn. f_equal; [by eapply Hc|by eapply IH].
Qed.

Lemma child_scopes_length k n b : length (child_scopes k n b) = n.
Proof.
  unfold child_scopes. destruct b; [by rewrite length_replicate|].
  destruct k; rewrite ?length_replicate; try done; case_match eqn:Hn; rewrite ?length_replicate; try done;
    apply negb_false_iff, Nat.eqb_eq in Hn; done.
Qed.

Lemma push_owned_length counts per p : length (push_owned counts per p) = length per.
Proof. unfold push_owned. destruct (owner _ _ _) as [[i l]|]; [apply length_alter|done]. Qed.

Lemma union_child_partitions_length counts S : length (union_child_partitions counts S) = length counts.
Proof.
  unfold union_child_partitions. rewrite <-(length_replicate (length counts) (A:=list nat) []) at 2.
  generalize (replicate (length counts) (@nil nat)) as per. induction S as [|s S IH]; intros per; cbn; [done|].
  by rewrite IH, push_owned_length.
Qed.

Lemma restrict_schema p : ∀ S b r, restrict p S b = Ok r → schema_of r.1 = schema_of p.
Proof using RL.
  induction p as [l|k cs IH] using plan_ind; intros S b r.
  - cbn [restrict]. destruct b; [by intros [= <-]|]. destruct l; cbn; try (by intros [= <-]).
    + case_match; [by intros [= <-]|]. destruct (restricted_partitioning _ _); cbn; [|done..]. by intros [= <-].
    + case_match; [|by intros [= <-]]. unfold with_bounds. cbn. destruct (_ =? _); by intros [= <-].
    + case_match; by intros [= <-].
    + destruct S; [|by intros [= <-]]. rewrite memory_source_accepted. intros [= <-]. cbn. apply memory_source_schema.
    + destruct S; [|by intros [= <-]]. rewrite memory_source_accepted. intros [= <-]. cbn. apply memory_source_schema.
  - destruct b; [rewrite restrict_collected; by intros [= <-]|]. cbn [restrict].
    assert ((let? new := traverse2 (λ c collect, restrict c S collect) cs (child_scopes k (length cs) false) in
             replace_children_if_necessary k cs new) = Ok r → schema_of r.1 = schema_of (Node k cs)) as Hint.
    { destruct (traverse2 _ _ _) as [new| |] eqn:Ht; cbn [obind]; [|done..]. intros Hr. eapply replace_schema; [done|].
      eapply traverse2_schema, Ht; [|apply child_scopes_length]. eapply Forall_impl; [exact IH|]. intros c Hc b' r'. apply Hc. }
    destruct k; try exact Hint; clear Hint.
    + destruct (traverse2 _ _ _) as [new| |] eqn:Ht; cbn [obind]; [|done..]. intros Hr. eapply replace_schema; [done|].
      eapply traverse2_schema, Ht; [|by rewrite union_child_partitions_length, length_fmap].
      eapply Forall_impl; [exact IH|]. intros c Hc b' r'. apply Hc.
    + destruct cs as [|c [|]]; [done| |done]. inversion_clear IH as [|? ? Hc _].
      destruct (restrict c S false) as [c'| |] eqn:Hr; cbn [obind]; [|done..].
      unfold range_filter_slice. destruct raw_bounds as [raw|]; [|done].
      destruct (slice_by_global_partition raw S) as [sliced| |]; cbn [obind]; [|done..].
      unfold range_filter_try_new. repeat case_match; cbn; try done. intros [= <-]. cbn. by eapply Hc.
    + destruct cs as [|c [|]]; [done| |done]. inversion_clear IH as [|? ? Hc _].
      destruct (restrict c S false) as [c'| |] eqn:Hr; cbn [obind]; [|done..].
      unfold prefix_merge_slice. destruct (traverse (slice_apply S) applies) as [applies'| |]; cbn [obind]; [|done..].
      destruct per_partition_state as [state|]; [|done].
      destruct (slice_by_global_partition state S) as [sliced| |]; cbn [obind]; [|done..].
      unfold prefix_merge_try_new. repeat case_match; cbn; try done. intros [= <-]. cbn. by eapply Hc.
Qed.
End facts.

(** ** The slices of the branches of a union *)

Fixpoint split_slice (counts S : list nat) : list (list nat) :=
  match counts with
  | [] => []
  | n :: counts' => filter (λ s, s < n) S :: split_slice counts' ((λ s, s - n) <$> filter (λ s, n ≤ s) S)
  end.

Lemma owner_shift counts i p : owner counts (S i) p = (λ o, (S o.1, o.2)) <$> owner counts i p.
Proof. revert i p. induction counts as [|n counts IH]; intros i p; cbn; [done|]. case_match; [done|apply IH]. Qed.

Lemma split_slice_snoc counts S p : split_slice counts (S ++ [p]) = push_owned counts (split_slice counts S) p.
Proof.
  unfold push_owned. revert S p. induction counts as [|n counts IH]; intros S p; [done|]. cbn [split_slice owner].
  rewrite !filter_app, fmap_app. destruct (p <? n) eqn:Hp.
  - apply Nat.ltb_lt in Hp. rewrite (filter_cons_True (λ s, s < n)) by done.
    rewrite (filter_cons_False (λ s, n ≤ s)) by lia. cbn. by rewrite app_nil_r.
  - apply Nat.ltb_ge in Hp. rewrite (filter_cons_False (λ s, s < n)) by lia.
    rewrite (filter_cons_True (λ s, n ≤ s)) by done. rewrite !filter_nil, app_nil_r. cbn [fmap list_fmap].
    rewrite IH, owner_shift. by destruct (owner counts 0 (p - n)) as [[i l]|].
Qed.

Lemma split_slice_nil counts : split_slice counts [] = replicate (length counts) [].
Proof. induction counts as [|n counts IH]; [done|]. cbn. by rewrite IH. Qed.

Lemma union_child_partitions_split counts S : union_child_partitions counts S = split_slice counts S.
Proof.
  unfold union_child_partitions. induction S as [|p S IH] using rev_ind; [by rewrite split_slice_nil|].
  by rewrite foldl_snoc, IH, split_slice_snoc.
Qed.

(** Slices that are sent out in the order of the partitions *)
Abbreviation ascending := (StronglySorted lt).

Lemma ascending_filter (P : nat → Prop) `{∀ s, Decision (P s)} S : ascending S → ascending (filter P S).
Proof.
  induction 1 as [|s S _ IH Hs]; [constructor|]. rewrite filter_cons. case_decide; [|done]. constructor; [done|].
  apply list.Forall_forall. intros x [_ Hx]%list_elem_of_filter. by rewrite list.Forall_forall in Hs; apply Hs.
Qed.

Lemma ascending_shift n S : ascending S → Forall (λ s, n ≤ s) S → ascending ((λ s, s - n) <$> S).
Proof.
  induction 1 as [|s S _ IH Hs]; intros Hall; inversion_clear Hall; cbn; constructor; [auto|].
  apply Forall_fmap. eapply Forall_impl; [exact Hs|]. cbn. intros. lia.
Qed.

Lemma ascending_split n S : ascending S → S = filter (λ s, s < n) S ++ filter (λ s, n ≤ s) S.
Proof.
  induction 1 as [|s S _ IH Hs]; [done|]. rewrite !filter_cons. destruct (decide (s < n)).
  - rewrite decide_False by lia. cbn. by f_equal.
  - rewrite decide_True by lia. rewrite list.Forall_forall in Hs.
    rewrite filter_none, filter_all; [done|intros x Hx; specialize (Hs x Hx); lia..].
Qed.

Lemma filter_ge_shift_bound n m S :
  Forall (λ s, s < n + m) S → Forall (λ s, s < m) ((λ s, s - n) <$> filter (λ s, n ≤ s) S).
Proof.
  intros Hall. apply Forall_fmap, list.Forall_forall. intros s [Hge Hs]%list_elem_of_filter.
  rewrite list.Forall_forall in Hall. specialize (Hall s Hs). cbn. lia.
Qed.

Lemma filter_ge_all n (S : list nat) : Forall (λ s, n ≤ s) (filter (λ s, n ≤ s) S).
Proof. apply list.Forall_forall. by intros s [? _]%list_elem_of_filter. Qed.

(** ** Plans that can be split *)

Definition forallb2 {A B : Type} (f : A → B → bool) : list A → list B → bool :=
  fix go l1 l2 :=
    match l1, l2 with
    | a :: l1', b :: l2' => f a b && go l1' l2'
    | _, _ => true
    end.

Section splittable.
Context `{RebuildOps}.

(** [restricts_to_nothing] *)
Definition vanishes (p : ExecutionPlan) : bool :=
  match restrict p [] false with
  | Ok r => count r.1 =? 0
  | _ => false
  end.

(** A leaf whose data is listed by partition, or one of one partition *)
Definition leaf_splittable (l : Leaf) : bool :=
  match l with
  | ShuffleReader r =>
      if sr_broadcast r then partition_count (sr_partitioning r) =? 1
      else (length (sr_partition r) =? partition_count (sr_partitioning r)) &&
           match sr_partitioning r with RangePartitioning _ => false | _ => true end
  | RangeShuffleReader r =>
      match rr_bounds r with Some bounds => length bounds =? length (rr_partition r) | None => true end
  | UnresolvedShuffle _ => false
  | FileScan _ _ => true
  | MemoryScan s _ => memory_source_ok s
  | OtherSource _ n | PlaceholderRow _ n | EmptyExec _ n => n =? 1
  end.

(** The operator has a distribution per input, and data indexed by partition for all
    partitions; it does not move rows between partitions. *)
Definition kind_splittable (k : Kind) (cs : list ExecutionPlan) : bool :=
  match k with
  | UnionExec | CoalescePartitions | SortPreservingMerge _ _ => true
  | HashJoin _ => length cs =? 2
  | Projection o | OtherOp o => length (op_single_partition o) =? length cs
  | RangeFilter f (Some raw) =>
      match cs with [c] => (length raw =? count c) && forallb (bound_widens f) raw | _ => false end
  | PrefixMerge applies (Some state) =>
      match cs with [c] => (length state =? count c) && forallb (offsets_match (count c)) applies | _ => false end
  | _ => false
  end.

(** Every branch of a union can be split, down to nothing. Of another operator the inputs
    that are not read as a whole can be split and have its partitions; if there are none
    it has one partition. *)
Fixpoint splittable (p : ExecutionPlan) : bool :=
  match p with
  | LeafNode l => leaf_splittable l
  | Node k cs =>
      kind_splittable k cs &&
      match k with
      | UnionExec => forallb (λ c, splittable c && vanishes c) cs
      | _ =>
          let scopes := child_scopes k (length cs) false in
          forallb2 (λ c collect, collect || (splittable c && (count c =? count p))) cs scopes &&
          (existsb negb scopes || (count p =? 1))
      end
  end.
End splittable.

Lemma only_zero S : S ≠ [] → ascending S → Forall (λ s, s < 1) S → S = [0].
Proof.
  destruct S as [|s [|s' S]]; [done| |]; intros _ Hs Hall.
  - inversion_clear Hall. f_equal. lia.
  - apply StronglySorted_inv in Hs as [_ Hs]. inversion_clear Hs. inversion_clear Hall as [|? ? _ Hall']. inversion_clear Hall'. lia.
Qed.

Section restrict.
Context `{RebuildOps} {PL : PlanLaws} {RL : RebuildLaws} `{!ExecOps} (env : UnresolvedShuffleExec → nat → list Row → Prop).

(** [p'] has the partitions [S] of [p]. *)
Definition sliced (S : list nat) (p p' : ExecutionPlan) : Prop :=
  count p' = length S ∧ ∀ j s, S !! j = Some s → ∀ rows, exec env p' j rows ↔ exec env p s rows.

Lemma sliced_whole p : count p = 1 → sliced [0] p p.
Proof. intros Hp. split; [done|]. intros [|[]] s; [by intros [= <-]|done..]. Qed.

Lemma leaf_sliced l S :
  leaf_splittable l = true → S ≠ [] → ascending S → Forall (λ s, s < partition_count (leaf_partitioning l)) S →
  ∃ r, restrict (LeafNode l) S false = Ok r ∧ sliced S (LeafNode l) r.1.
Proof using PL.
  intros Hl Hne Hasc Hall.
  assert (partition_count (leaf_partitioning l) = 1 → S = [0] ∧ sliced S (LeafNode l) (LeafNode l)) as Hone.
  { intros Hc. rewrite Hc in Hall. pose proof (only_zero S Hne Hasc Hall) as ->. split; [done|]. by apply sliced_whole. }
  cbn [restrict]. destruct l as [r|r|u|s gs|s ps|s n|sch n|sch n]; cbn in Hl, Hall |- *.
  - destruct (sr_broadcast r) eqn:Hb.
    { apply Nat.eqb_eq in Hl. eexists. split; [done|]. by apply Hone. }
    apply andb_true_iff in Hl as [Hlen Hk]. apply Nat.eqb_eq in Hlen. rewrite <-Hlen in Hall.
    destruct (keep_lookup (sr_partition r) S Hall) as [Hkl Hkj].
    destruct (sr_partitioning r) as [| | |]; [..|done|]; eexists; (split; [done|]); split; cbn; try done;
      intros j s Hs rows; cbn; rewrite Hb, (Hkj j s Hs); done.
  - destruct (keep_lookup (rr_partition r) S Hall) as [Hkl Hkj].
    destruct (rr_bounds r) as [bounds|] eqn:Hbs.
    + apply Nat.eqb_eq in Hl. rewrite <-Hl in Hall. destruct (keep_lookup bounds S Hall) as [Hbl Hbj].
      unfold with_bounds. cbn. rewrite Hkl, Hbl, Nat.eqb_refl. eexists. split; [done|]. split; [done|].
      intros j s Hs rows. cbn. rewrite Hbs, (Hkj j s Hs). cbn. by rewrite (Hbj j s Hs).
    + eexists. split; [done|]. split; [done|]. intros j s Hs rows. cbn. rewrite Hbs, (Hkj j s Hs). done.
  - done.
  - rewrite source_partition_count in Hall. destruct (keep_lookup gs S Hall) as [Hkl Hkj].
    eexists. split; [done|]. split; [unfold count; cbn; by rewrite source_partition_count|].
    intros j s' Hs rows. cbn. by rewrite (Hkj j s' Hs).
  - rewrite source_partition_count in Hall. rewrite Hl. destruct (keep_lookup ps S Hall) as [Hkl Hkj].
    eexists. split; [done|]. split; [unfold count; cbn; by rewrite source_partition_count|].
    intros j s' Hs rows. cbn. by rewrite (Hkj j s' Hs).
  - apply Nat.eqb_eq in Hl. eexists. split; [done|]. apply Hone. cbn. by rewrite source_partition_count.
  - apply Nat.eqb_eq in Hl. destruct (Hone Hl) as [-> ?]. by eexists.
  - apply Nat.eqb_eq in Hl. destruct (Hone Hl) as [-> ?]. by eexists.
Qed.
(** An input that is read as a whole stays as it is. *)
Definition input_sliced (S : list nat) (c : ExecutionPlan) (collect : bool) (r : rewritten) : Prop :=
  if collect then r = (c, false) else sliced S c r.1.

Lemma inputs_sliced S cs scopes new j s vs :
  Forall3 (input_sliced S) cs scopes new → S !! j = Some s →
  inputs_ok (exec env) j (fst <$> new) scopes vs ↔ inputs_ok (exec env) s cs scopes vs.
Proof.
  intros Hall Hs. revert vs. induction Hall as [|c collect r cs scopes new Hc _ IH]; intros vs; [done|].
  destruct vs as [|v vs]; [done|].
  destruct collect; cbn in Hc |- *; [subst r; cbn; by rewrite (IH vs)|].
  destruct Hc as [_ Hc]. rewrite (IH vs). by setoid_rewrite (Hc j s Hs).
Qed.

Lemma union_rows_cons f (c : ExecutionPlan) cs i rows :
  union_rows f (c :: cs) i rows = (if i <? count c then f c i rows else union_rows f cs (i - count c) rows).
Proof. done. Qed.

Lemma union_sliced (cs : list ExecutionPlan) (new : list rewritten) S :
  Forall3 (λ c sub r, sliced sub c r.1) cs (split_slice (count <$> cs) S) new →
  ascending S → Forall (λ s, s < sum_list (count <$> cs)) S →
  sum_list (count <$> (fst <$> new)) = length S ∧
  ∀ j s, S !! j = Some s → ∀ rows, union_rows (exec env) (fst <$> new) j rows ↔ union_rows (exec env) cs s rows.
Proof.
  revert new S. induction cs as [|c cs IH]; intros new S Hall Hasc Hlt.
  { cbn in Hlt. destruct S as [|s S]; [|inversion_clear Hlt; lia]. inversion_clear Hall. done. }
  cbn [fmap list_fmap split_slice] in Hall. inversion Hall as [|? ? r ? ? new' [Hc Hrows] Hall']; subst.
  cbn [fmap list_fmap sum_list sum_list_with foldr] in Hlt |- *. clear Hall. set (n := count c) in *.
  assert (sum_list (count <$> c :: cs) = n + sum_list (count <$> cs)) as Hsum by done.
  apply (IH new') in Hall' as [Hcount Hunion].
  2:{ apply ascending_shift; [by apply ascending_filter|apply filter_ge_all]. }
  2:{ apply filter_ge_shift_bound. exact Hlt. }
  rewrite length_fmap in Hcount. pose proof (ascending_split n S Hasc) as HS.
  split; [rewrite HS at 1; rewrite length_app, <-Hc, <-Hcount; done|].
  intros j s Hs rows. rewrite !union_rows_cons, Hc. fold n. rewrite HS in Hs.
  destruct (j <? length (filter (λ s, s < n) S)) eqn:Hj.
  - apply Nat.ltb_lt in Hj. rewrite lookup_app_l in Hs by done.
    assert (s < n) as Hsn by (apply list_elem_of_lookup_2, list_elem_of_filter in Hs; tauto).
    rewrite (proj2 (Nat.ltb_lt s n) Hsn). by apply Hrows.
  - apply Nat.ltb_ge in Hj. rewrite lookup_app_r in Hs by done.
    assert (n ≤ s) as Hsn by (apply list_elem_of_lookup_2, list_elem_of_filter in Hs; tauto).
    rewrite (proj2 (Nat.ltb_ge s n) Hsn). apply Hunion. by rewrite list_lookup_fmap, Hs.
Qed.

(** A plan that is not a new object is the plan. *)
Lemma restrict_same p S b p' : restrict p S b = Ok (p', false) → p' = p.
Proof.
  destruct p as [l|k cs]; cbn [restrict].
  - destruct b; [by intros [= <-]|]. destruct l; cbn; repeat case_match; cbn; try (by intros [= <-]).
    destruct (restricted_partitioning _ _); by intros [= ].
  - assert (∀ new, replace_children_if_necessary k cs new = Ok (p', false) → p' = Node k cs) as Hr.
    { intros new. unfold replace_children_if_necessary. do 2 (case_match; try done); [|by intros [= <-]].
      by destruct (with_new_children _ _ _). }
    assert ((let? new := traverse2 (λ c collect, restrict c S collect) cs (child_scopes k (length cs) b) in
             replace_children_if_necessary k cs new) = Ok (p', false) → p' = Node k cs) as Hint.
    { destruct (traverse2 _ _ _); cbn; [apply Hr|done..]. }
    destruct b; [done|]. destruct k; try exact Hint; clear Hint.
    + destruct (traverse2 _ _ _); cbn; [apply Hr|done..].
    + destruct cs as [|c [|]]; try done. destruct (restrict c S false); cbn; [|done..]. by destruct (range_filter_slice _ _ _ _).
    + destruct cs as [|c [|]]; try done. destruct (restrict c S false); cbn; [|done..]. by destruct (prefix_merge_slice _ _ _ _).
Qed.

(** The children of a node, each restricted, and the node over them *)
Lemma replace_restricted {B : Type} (f : ExecutionPlan → B → list nat * bool) k cs (xs : list B) (new : list rewritten) :
  Forall3 (λ c x r, restrict c (f c x).1 (f c x).2 = Ok r) cs xs new →
  (∀ new', schema_of <$> new' = schema_of <$> cs → with_new_children k cs new' = Ok (Node k new')) →
  ∃ b, replace_children_if_necessary k cs new = Ok (Node k (fst <$> new), b).
Proof using RL.
  intros Hall Hw. unfold replace_children_if_necessary.
  assert (length new = length cs) as -> by (symmetry; by eapply Forall3_length_lr). rewrite Nat.eqb_refl. cbn [negb].
  destruct (existsb snd new) eqn:Hs.
  - exists true. rewrite Hw; [done|]. clear Hs Hw. induction Hall as [|c x r cs xs new Hr _ IH]; [done|]. cbn. f_equal; [|done].
    by eapply restrict_schema.
  - exists false. do 2 f_equal. f_equal. clear Hw. induction Hall as [|c x r cs xs new Hr _ IH]; [done|]. cbn in Hs |- *.
    apply orb_false_iff in Hs as [Hr2 Hs]. f_equal; [|by apply IH]. destruct r as [c' b']; cbn in *; subst b'.
    symmetry. by eapply restrict_same.
Qed.

Lemma interior_inputs S cs scopes n :
  Forall (λ c, splittable c = true → Forall (λ s, s < count c) S → ∃ r, restrict c S false = Ok r ∧ sliced S c r.1) cs →
  Forall (λ s, s < n) S → length scopes = length cs →
  forallb2 (λ c collect, collect || (splittable c && (count c =? n))) cs scopes = true →
  ∃ new, Forall3 (λ c collect r, restrict c S collect = Ok r) cs scopes new ∧ Forall3 (input_sliced S) cs scopes new.
Proof.
  intros Hall Hn. revert scopes. induction Hall as [|c cs Hc _ IH]; intros [|collect scopes] Hlen Hb; try done.
  { exists []. split; constructor. }
  injection Hlen as Hlen. cbn in Hb. apply andb_true_iff in Hb as [Hb Hbs].
  destruct (IH scopes Hlen Hbs) as (new & Hr & Hs). destruct collect.
  - exists ((c, false) :: new). split; (constructor; [|done]); [apply restrict_collected|done].
  - cbn in Hb. apply andb_true_iff in Hb as [Hsp Hcn]. apply Nat.eqb_eq in Hcn.
    destruct (Hc Hsp) as (r & Hr' & Hsl); [by rewrite Hcn|]. exists (r :: new). split; by constructor.
Qed.

Lemma input_sliced_lookup S cs scopes new i r :
  Forall3 (input_sliced S) cs scopes new → scopes !! i = Some false → new !! i = Some r → count r.1 = length S.
Proof.
  intros Hall Hi Hr. destruct (Forall3_lookup_m _ _ _ _ _ _ Hall Hi) as (c & r' & _ & Hr' & [Hc _]). by simplify_eq.
Qed.

(** The kinds whose inputs keep their place *)
Definition keeps_place (k : Kind) : bool :=
  match k with HashJoin _ | Projection _ | OtherOp _ => true | _ => false end.

Lemma op_count S o cs new :
  length (op_single_partition o) = length cs → existsb negb (op_single_partition o) = true →
  Forall3 (input_sliced S) cs (op_single_partition o) new →
  partition_count (op_partitioning o (output_partitioning <$> (fst <$> new))) = length S.
Proof using PL.
  intros Hlen Hex Hall. apply existsb_exists in Hex as ([] & Hin & Hneg); [done|].
  apply list_elem_of_In, list_elem_of_lookup in Hin as [i Hi].
  destruct (Forall3_lookup_m _ _ _ _ _ _ Hall Hi) as (c & r & _ & Hr & [Hc _]).
  rewrite <-Hc. change (count r.1) with (partition_count (output_partitioning r.1)).
  assert (length new = length cs) as Hnew by (symmetry; by eapply Forall3_length_lr).
  apply (op_partition_count o _ i); [by rewrite !length_fmap, Hnew|done|by rewrite !list_lookup_fmap, Hr|].
  intros j q Hj Hq. rewrite !list_lookup_fmap in Hq. destruct (new !! j) as [r'|] eqn:Hr'; [|done]. cbn in Hq. simplify_eq.
  change (count r'.1 = count r.1). rewrite Hc. by eapply input_sliced_lookup.
Qed.

Lemma aligned_count S k cs new :
  keeps_place k = true → kind_splittable k cs = true →
  existsb negb (child_scopes k (length cs) false) = true →
  Forall3 (input_sliced S) cs (child_scopes k (length cs) false) new →
  count (Node k (fst <$> new)) = length S.
Proof using PL.
  unfold count. destruct k as [| | | |j|o| | | | | | | |o]; try done; intros _ Hk Hex Hall; cbn in Hk; apply Nat.eqb_eq in Hk.
  - assert (length new = 2) as Hnew by (rewrite <-Hk; symmetry; by eapply Forall3_length_lr).
    destruct new as [|a [|b [|]]]; try done. rewrite Hk in Hall. unfold child_scopes in Hall. cbn in Hall |- *.
    pose proof (λ i r, input_sliced_lookup _ _ _ _ i r Hall) as Hc. unfold count in Hc.
    destruct (partition_mode j) eqn:Hm; cbn in Hc.
    + rewrite join_partition_count; [by apply (Hc 0)|congruence|]. by rewrite (Hc 0 a), (Hc 1 b).
    + rewrite collect_left_partition_count by done. by apply (Hc 1).
    + rewrite join_partition_count; [by apply (Hc 0)|congruence|]. by rewrite (Hc 0 a), (Hc 1 b).
  - unfold child_scopes in *. cbn in Hex, Hall |- *. rewrite Hk, Nat.eqb_refl in Hex, Hall. by eapply op_count.
  - unfold child_scopes in *. cbn in Hex, Hall |- *. rewrite Hk, Nat.eqb_refl in Hex, Hall. by eapply op_count.
Qed.

Lemma place_rows S k cs new :
  keeps_place k = true → kind_splittable k cs = true →
  Forall3 (input_sliced S) cs (child_scopes k (length cs) false) new →
  ∀ j s, S !! j = Some s → ∀ rows, exec env (Node k (fst <$> new)) j rows ↔ exec env (Node k cs) s rows.
Proof.
  intros Hk Hsp Hall j s Hs rows.
  assert (length (fst <$> new) = length cs) as Hlen
    by (rewrite length_fmap; symmetry; by eapply Forall3_length_lr).
  assert (collects k (length cs) = child_scopes k (length cs) false) as Hcol.
  { destruct k; try done; unfold collects, child_scopes; by destruct (length (single_partition _ _) =? length cs). }
  assert (∀ cs' i, exec env (Node k cs') i rows ↔
    ∃ views, inputs_ok (exec env) i cs' (collects k (length cs')) views ∧ op_rows k 0 views rows) as Hx by (by destruct k).
  rewrite !Hx, Hlen, Hcol. by setoid_rewrite (inputs_sliced S cs _ new j s _ Hall Hs).
Qed.

(** A plan that can be split, restricted to a slice *)
Definition restricts (p : ExecutionPlan) : Prop :=
  ∀ S, S ≠ [] → ascending S → Forall (λ s, s < count p) S → ∃ r, restrict p S false = Ok r ∧ sliced S p r.1.

Lemma union_restricts cs :
  Forall (λ c, splittable c = true → restricts c) cs → forallb (λ c, splittable c && vanishes c) cs = true →
  restricts (Node UnionExec cs).
Proof using RL.
  intros Hall Hb S Hne Hasc Hlt. cbn [restrict]. rewrite union_child_partitions_split.
  assert (∃ new : list rewritten, Forall3 (λ c sub r, restrict c sub false = Ok r) cs (split_slice (count <$> cs) S) new ∧
    Forall3 (λ c sub r, sliced sub c r.1) cs (split_slice (count <$> cs) S) new) as (new & Hr & Hs).
  { clear Hlt Hne. revert S Hasc. induction Hall as [|c cs Hc _ IH]; intros S Hasc; [exists []; split; constructor|].
    cbn [forallb] in Hb. apply andb_true_iff in Hb as [Hb Hbs]. apply andb_true_iff in Hb as [Hsp Hv].
    cbn [fmap list_fmap split_slice].
    destruct (IH Hbs ((λ s, s - count c) <$> filter (λ s, count c ≤ s) S)) as (new & Hr & Hs).
    { apply ascending_shift; [by apply ascending_filter|apply filter_ge_all]. }
    assert (∃ r, restrict c (filter (λ s, s < count c) S) false = Ok r ∧ sliced (filter (λ s, s < count c) S) c r.1)
      as (r & Hr' & Hs').
    { destruct (decide (filter (λ s, s < count c) S = [])) as [->|Hsub].
      - unfold vanishes in Hv. destruct (restrict c [] false) as [r| |]; [|done..]. apply Nat.eqb_eq in Hv. by exists r.
      - apply (Hc Hsp); [done|by apply ascending_filter|]. apply list.Forall_forall. by intros s [? _]%list_elem_of_filter. }
    exists (r :: new). split; by constructor. }
  rewrite (traverse2_ok _ _ _ _ Hr). cbn [obind].
  destruct (replace_restricted (λ _ sub, (sub, false)) UnionExec cs _ new Hr) as [b ->].
  { intros new' Hsch. cbn. rewrite rebuilds_same_schema; [done|exact Hsch]. }
  eexists. split; [done|]. cbn [fst].
  destruct (union_sliced cs new S Hs Hasc) as [Hcount Hrows].
  { eapply Forall_impl; [exact Hlt|]. unfold count. cbn. by rewrite <-list_fmap_compose. }
  split; [|done]. unfold count at 1. cbn. rewrite <-list_fmap_compose. exact Hcount.
Qed.

Lemma interior_restricts k cs :
  match k with CoalescePartitions | SortPreservingMerge _ _ | HashJoin _ | Projection _ | OtherOp _ => True | _ => False end →
  Forall (λ c, splittable c = true → restricts c) cs → splittable (Node k cs) = true → restricts (Node k cs).
Proof using PL RL.
  intros Hk Hall Hb S Hne Hasc Hlt. cbn [splittable] in Hb. apply andb_true_iff in Hb as [Hks Hb].
  assert (forallb2 (λ c collect, collect || (splittable c && (count c =? count (Node k cs)))) cs
            (child_scopes k (length cs) false) &&
          (existsb negb (child_scopes k (length cs) false) || (count (Node k cs) =? 1)) = true) as Hb' by (by destruct k).
  clear Hb. apply andb_true_iff in Hb' as [Hin Hex].
  destruct (interior_inputs S cs (child_scopes k (length cs) false) (count (Node k cs))) as (new & Hr & Hs); [|done| |done|].
  { eapply Forall_impl; [exact Hall|]. intros c Hc Hsp Hbd. by apply Hc. }
  { apply child_scopes_length. }
  assert (restrict (Node k cs) S false = replace_children_if_necessary k cs new) as ->.
  { pose proof (traverse2_ok _ _ _ _ Hr) as Ht. destruct k; try done; cbn [restrict]; by rewrite Ht. }
  destruct (replace_restricted (λ _ collect, (S, collect)) k cs _ new Hr) as [b ->].
  { intros new' Hsch. destruct k; try done; cbn; by rewrite rebuilds_same_schema. }
  eexists. split; [done|]. cbn [fst].
  destruct (existsb negb (child_scopes k (length cs) false)) eqn:Hneg.
  - assert (keeps_place k = true) as Hkp.
    { destruct k; try done; exfalso; (revert Hneg; unfold child_scopes; clear; induction (length cs); cbn; [done|assumption]). }
    split; [by apply (aligned_count S k cs)|by apply place_rows].
  - cbn in Hex. apply Nat.eqb_eq in Hex. rewrite Hex in Hlt. rewrite (only_zero S Hne Hasc Hlt).
    assert (fst <$> new = cs) as ->; [|by apply sliced_whole].
    clear -Hs Hneg. revert Hneg. induction Hs as [|c collect r cs scopes new Hc _ IH]; [done|]. cbn. intros Hneg.
    destruct collect; [|done]. cbn in Hc. subst r. cbn. f_equal. by apply IH.
Qed.

Lemma slice_keep {A : Type} (values : list A) S :
  Forall (λ s, s < length values) S → slice_by_global_partition values S = Ok (keep values S).
Proof.
  unfold slice_by_global_partition, keep. induction 1 as [|s S Hs _ IH]; [done|]. cbn.
  destruct (lookup_lt_is_Some_2 values s Hs) as [x Hx]. rewrite Hx. cbn. cbn in IH. by rewrite IH.
Qed.

Lemma forallb_keep {A : Type} (f : A → bool) values S : forallb f values = true → forallb f (keep values S) = true.
Proof.
  rewrite !forallb_forall. intros Hf x Hx. apply Hf. apply list_elem_of_In in Hx. apply list_elem_of_In.
  unfold keep in Hx. apply list_elem_of_omap in Hx as (s & _ & Hs). by eapply list_elem_of_lookup_2.
Qed.

Definition keep_apply (S : list nat) (apply : WindowApply) : WindowApply :=
  match apply with
  | ScalarApply op offset output_column => ScalarApply op (keep offset S) output_column
  | Aggregate a => Aggregate a
  end.

Lemma slice_applies applies n S :
  forallb (offsets_match n) applies = true → Forall (λ s, s < n) S →
  traverse (slice_apply S) applies = Ok (keep_apply S <$> applies).
Proof.
  intros Hb Hlt. apply traverse_ok. induction applies as [|a applies IH]; [constructor|]. cbn in Hb.
  apply andb_true_iff in Hb as [Ha Hb]. constructor; [|by apply IH]. destruct a; [|done]. cbn in *.
  apply Nat.eqb_eq in Ha. by rewrite slice_keep by (by rewrite Ha).
Qed.

Lemma keep_apply_at applies n S j s :
  forallb (offsets_match n) applies = true → Forall (λ s, s < n) S → S !! j = Some s →
  apply_at j <$> (keep_apply S <$> applies) = apply_at s <$> applies.
Proof.
  intros Hb Hlt Hs. induction applies as [|a applies IH]; [done|]. cbn in Hb. apply andb_true_iff in Hb as [Ha Hb].
  cbn. f_equal; [|by apply IH]. destruct a; [|done]. cbn in *. apply Nat.eqb_eq in Ha.
  f_equal. destruct (keep_lookup offset S) as [_ Hk]; [by rewrite Ha|]. by rewrite (Hk j s Hs).
Qed.

Lemma kept_offsets applies n S :
  forallb (offsets_match n) applies = true → Forall (λ s, s < n) S →
  forallb (offsets_match (length S)) (keep_apply S <$> applies) = true.
Proof.
  intros Hb Hlt. induction applies as [|a applies IH]; [done|]. cbn in Hb |- *. apply andb_true_iff in Hb as [Ha Hb].
  rewrite IH by done. rewrite andb_true_r. destruct a; [|done]. cbn in *. apply Nat.eqb_eq in Ha.
  destruct (keep_lookup offset S) as [Hk _]; [by rewrite Ha|]. by apply Nat.eqb_eq.
Qed.

Lemma one_input_rows S k k' c c' j s :
  sliced S c c' → S !! j = Some s → local_kind k' j = local_kind k s →
  match k with RangeFilter _ _ | PrefixMerge _ _ => True | _ => False end →
  match k' with RangeFilter _ _ | PrefixMerge _ _ => True | _ => False end →
  ∀ rows, exec env (Node k' [c']) j rows ↔ exec env (Node k [c]) s rows.
Proof.
  intros [_ Hc] Hs Hl Hk Hk' rows. specialize (Hc j s Hs).
  assert (∀ k c i, match k with RangeFilter _ _ | PrefixMerge _ _ => True | _ => False end →
    exec env (Node k [c]) i rows ↔ ∃ r, exec env c i r ∧ op_rows (local_kind k i).1 (local_kind k i).2 [[r]] rows) as Hx.
  { clear. intros k c i Hk. destruct k; try done; cbn; (split; [intros ([|v [|]] & Hv & Hop); try done; [|by destruct Hv]|]).
    all: try (destruct Hv as [(r & -> & Hr) _]; by exists r).
    all: intros (r & Hr & Hop); exists [[r]]; (split; [|done]); (split; [by exists r|done]). }
  rewrite !Hx, Hl by done. by setoid_rewrite Hc.
Qed.

Lemma restrict_ok p : splittable p = true → restricts p.
Proof using PL RL.
  induction p as [l|k cs IH] using plan_ind; intros Hsp.
  { intros S Hne Hasc Hlt. by apply leaf_sliced. }
  destruct k as [| | | |j|o|f raw|applies state| | | | | |o]; try (by apply interior_restricts); try done.
  - apply union_restricts; done.
  - cbn in Hsp. destruct raw as [raw|]; [|done]. destruct cs as [|c [|]]; [done| |by rewrite !andb_false_l in Hsp].
    apply andb_true_iff in Hsp as [Hk Hin]. apply andb_true_iff in Hk as [Hlen Hw].
    assert (splittable c = true) as Hc by (cbn in Hin; by destruct (splittable c)). clear Hin.
    apply Nat.eqb_eq in Hlen. inversion_clear IH as [|? ? Hc' _].
    intros S Hne Hasc Hlt. destruct (Hc' Hc S Hne Hasc Hlt) as (r & Hr & Hs). cbn [restrict]. rewrite Hr. cbn [obind range_filter_slice].
    assert (Forall (λ s, s < length raw) S) as Hlt' by (by rewrite Hlen).
    destruct (keep_lookup raw S Hlt') as [Hkl Hkj]. destruct Hs as [Hcount Hrows].
    rewrite slice_keep by done. cbn [obind range_filter_try_new]. rewrite Hkl, Hcount, Nat.eqb_refl. cbn [negb].
    rewrite forallb_keep by done. eexists. split; [done|]. split; [exact Hcount|].
    intros j s Hs. apply (one_input_rows S); [done|done| |done|done]. cbn. by rewrite (Hkj j s Hs).
  - cbn in Hsp. destruct state as [state|]; [|done]. destruct cs as [|c [|]]; [done| |by rewrite !andb_false_l in Hsp].
    apply andb_true_iff in Hsp as [Hk Hin]. apply andb_true_iff in Hk as [Hlen Hw].
    assert (splittable c = true) as Hc by (cbn in Hin; by destruct (splittable c)). clear Hin.
    apply Nat.eqb_eq in Hlen. inversion_clear IH as [|? ? Hc' _].
    intros S Hne Hasc Hlt. destruct (Hc' Hc S Hne Hasc Hlt) as (r & Hr & Hs). cbn [restrict]. rewrite Hr. cbn [obind].
    unfold prefix_merge_slice. rewrite (slice_applies applies (count c)) by done. cbn [obind].
    assert (Forall (λ s, s < length state) S) as Hlt' by (by rewrite Hlen).
    destruct (keep_lookup state S Hlt') as [Hkl Hkj]. destruct Hs as [Hcount Hrows].
    rewrite slice_keep by done. cbn [obind]. unfold prefix_merge_try_new. rewrite Hkl, Hcount, Nat.eqb_refl. cbn [negb].
    rewrite (kept_offsets applies (count c)) by done. eexists. split; [done|]. split; [exact Hcount|].
    intros j s Hs. apply (one_input_rows S); [done|done| |done|done]. cbn. rewrite (Hkj j s Hs).
    by rewrite (keep_apply_at applies (count c) S j s).
Qed.

(** *** Partition ids *)

Lemma traverse2_length {E A B C : Type} (f : A → B → outcome E C) l1 l2 l3 :
  traverse2 f l1 l2 = Ok l3 → length l2 = length l1 → Forall3 (λ a b c, f a b = Ok c) l1 l2 l3.
Proof.
  revert l2 l3. induction l1 as [|a l1 IH]; intros [|b l2] l3; try done; [intros [= <-] _; constructor|].
  rewrite traverse2_cons. destruct (f a b) as [c| |] eqn:Hf; cbn [obind]; [|done..].
  destruct (traverse2 f l1 l2) as [cs| |] eqn:Ht; cbn [obind]; [|done..]. intros [= <-] [= Hlen]. constructor; [done|by apply IH].
Qed.

(** A rewrite of the children keeps the way the walk takes. *)
Lemma walk_replace k cs new r ids :
  replace_children_if_necessary k cs new = Ok r →
  Forall2 (λ c r', walk_child_partition_mapping r'.1 ids = walk_child_partition_mapping c ids) cs new →
  walk_child_partition_mapping r.1 ids = walk_child_partition_mapping (Node k cs) ids.
Proof.
  intros [-> | ->]%replace_node Hall; [|done]. cbn [fst walk_child_partition_mapping].
  assert (match (fst <$> new) with [c] => walk_child_partition_mapping c ids | _ => Ok (PassThrough ids) end =
    match cs with [c] => walk_child_partition_mapping c ids | _ => Ok (PassThrough ids) end) as ->; [|done].
  inversion Hall as [|c r cs' new' Hc Hall']; subst; [done|]. inversion Hall'; subst; cbn; done.
Qed.

Lemma walk_restrict p : ∀ S b r ids,
  restrict p S b = Ok r → walk_child_partition_mapping r.1 ids = walk_child_partition_mapping p ids.
Proof.
  induction p as [l|k cs IH] using plan_ind; intros S b r ids.
  - cbn [restrict]. destruct b; [by intros [= <-]|]. destruct l; cbn; repeat case_match; cbn; try (by intros [= <-]).
    by destruct (restricted_partitioning _ _); intros [= <-].
  - destruct b; [rewrite restrict_collected; by intros [= <-]|]. cbn [restrict].
    assert (∀ (B : Type) (f : ExecutionPlan → B → list nat * bool) xs new,
      traverse2 (λ c x, restrict c (f c x).1 (f c x).2) cs xs = Ok new → length xs = length cs →
      replace_children_if_necessary k cs new = Ok r →
      walk_child_partition_mapping r.1 ids = walk_child_partition_mapping (Node k cs) ids) as Hint.
    { intros B f xs new Ht Hlen Hr. apply (walk_replace _ _ _ _ _ Hr). apply traverse2_length in Ht; [|done].
      clear -IH Ht. induction Ht as [|c x r cs xs new Hr _ IHt]; [constructor|]. inversion_clear IH as [|? ? Hc Hcs].
      constructor; [by eapply Hc|by apply IHt]. }
    pose proof (Hint bool (λ _ collect, (S, collect)) (child_scopes k (length cs) false)) as Hscope.
    destruct k; try (destruct (traverse2 _ _ _) as [new| |] eqn:Ht; cbn [obind]; [|done..];
      by apply (Hscope new); [|apply child_scopes_length]); clear Hscope.
    + destruct (traverse2 _ _ _) as [new| |] eqn:Ht; cbn [obind]; [|done..].
      apply (Hint _ (λ _ sub, (sub, false)) _ new Ht). by rewrite union_child_partitions_length, length_fmap.
    + destruct cs as [|c [|]]; try done. inversion_clear IH as [|? ? Hc _].
      destruct (restrict c S false) as [c'| |] eqn:Hr; cbn [obind]; [|done..].
      unfold range_filter_slice. destruct raw_bounds; [|done]. destruct (slice_by_global_partition _ _); cbn [obind]; [|done..].
      unfold range_filter_try_new. repeat case_match; cbn; try done. intros [= <-]. cbn. by eapply Hc.
    + destruct cs as [|c [|]]; try done. inversion_clear IH as [|? ? Hc _].
      destruct (restrict c S false) as [c'| |] eqn:Hr; cbn [obind]; [|done..].
      unfold prefix_merge_slice. destruct (traverse _ _); cbn [obind]; [|done..]. destruct per_partition_state; [|done].
      destruct (slice_by_global_partition _ _); cbn [obind]; [|done..].
      unfold prefix_merge_try_new. repeat case_match; cbn; try done. intros [= <-]. cbn. by eapply Hc.
Qed.

Lemma one_child_count k c :
  splittable (Node k [c]) = true → count (Node k [c]) = 1 ∨ splittable c = true ∧ count c = count (Node k [c]).
Proof.
  intros Hsp. cbn [splittable] in Hsp. apply andb_true_iff in Hsp as [Hk Hsp].
  destruct k; try discriminate Hk; try (by left);
    try (unfold child_scopes in Hsp; cbn [length] in Hsp; cbn in Hk; try rewrite (proj1 (Nat.eqb_eq _ _) Hk) in Hsp).
  - right. cbn in Hsp. rewrite andb_true_r in Hsp. apply andb_true_iff in Hsp as [Hc _]. split; [done|].
    unfold count. cbn. lia.
  - apply andb_true_iff in Hsp as [Hin Hex]. cbn [single_partition] in Hin, Hex.
    destruct (op_single_partition o) as [|collect [|]]; try discriminate Hk.
    destruct collect; cbn [length Nat.eqb forallb2 existsb negb orb andb] in Hin, Hex; [left; by apply Nat.eqb_eq|right].
    rewrite andb_true_r in Hin. apply andb_true_iff in Hin as [? ?%Nat.eqb_eq]. done.
  - right. apply andb_true_iff in Hsp as [Hin _]. cbn [single_partition forallb2 replicate length orb andb Nat.eqb negb] in Hin. rewrite andb_true_r in Hin.
    apply andb_true_iff in Hin as [? ?%Nat.eqb_eq]. done.
  - right. apply andb_true_iff in Hsp as [Hin _]. cbn [single_partition forallb2 replicate length orb andb Nat.eqb negb] in Hin. rewrite andb_true_r in Hin.
    apply andb_true_iff in Hin as [? ?%Nat.eqb_eq]. done.
  - apply andb_true_iff in Hsp as [Hin Hex]. cbn [single_partition] in Hin, Hex.
    destruct (op_single_partition o) as [|collect [|]]; try discriminate Hk.
    destruct collect; cbn [length Nat.eqb forallb2 existsb negb orb andb] in Hin, Hex; [left; by apply Nat.eqb_eq|right].
    rewrite andb_true_r in Hin. apply andb_true_iff in Hin as [? ?%Nat.eqb_eq]. done.
Qed.

(** A plan that can be split is passed through, or it has one partition. *)
Lemma walk_splittable p ids m :
  splittable p = true → walk_child_partition_mapping p ids = Ok m → m = PassThrough ids ∨ count p = 1.
Proof.
  induction p as [l|k cs IH] using plan_ind; intros Hsp Hw; [left; by injection Hw|].
  destruct cs as [|c [|d cs]].
  - destruct k; try (cbn in Hw; injection Hw as <-; by left); try discriminate Hsp. by right.
  - destruct (one_child_count k c Hsp) as [?|[Hc Hcount]]; [by right|]. inversion_clear IH as [|? ? Hc' _].
    destruct k; try discriminate Hsp; try (by right); rewrite <-Hcount; by apply (Hc' Hc).
  - destruct k; try (cbn in Hw; injection Hw as <-; by left); try discriminate Hsp. by right.
Qed.

(** A stage that writes: a passthrough writer, or a sort shuffle of some partitions *)
Definition is_writer (k : Kind) : bool :=
  match k with
  | ShuffleWriter _ _ => true
  | SortShuffleWriter _ _ (Hash _ (S _)) => true
  | _ => false
  end.

Lemma restrict_writer k p S r :
  is_writer k = true → restrict p S false = Ok r → restrict_plan_to_partitions (Node k [p]) S = Ok (Node k [r.1]).
Proof.
  intros Hk Hr. unfold restrict_plan_to_partitions.
  assert (∃ b, replace_children_if_necessary k [p] [r] = Ok (Node k [r.1], b)) as [b Hb].
  { unfold replace_children_if_necessary. cbn. destruct r as [p' []]; cbn; eexists.
    - destruct k; try discriminate Hk; [done|]. cbn in Hk |- *. by destruct p0 as [|? []| |].
    - by rewrite (restrict_same _ _ _ _ Hr). }
  assert (traverse2 (λ c collect, restrict c S collect) [p] (child_scopes k 1 false) = Ok [r]) as Ht
    by (destruct k; try discriminate Hk; unfold child_scopes; cbn; by rewrite Hr).
  destruct k; try discriminate Hk; cbn [restrict length]; rewrite Ht; cbn [obind]; by rewrite Hb.
Qed.

(** The walk depends on the ids only in that it may return them. *)
Lemma walk_ids p S m :
  walk_child_partition_mapping p S = Ok m →
  match m with PassThrough ids => ids = S | _ => True end ∧
  ∀ ids, walk_child_partition_mapping p ids = Ok (match m with PassThrough _ => PassThrough ids | _ => m end).
Proof.
  induction p as [l|k cs IH] using plan_ind; intros Hm; [by injection Hm as <-|].
  destruct k as [| | |q| | | | | | | | | |]; try (by injection Hm as <-);
    try (destruct cs as [|c [|]]; [by injection Hm as <-| |by injection Hm as <-]; inversion_clear IH as [|? ? Hc _]; by apply Hc).
  destruct q; try discriminate Hm; by injection Hm as <-.
Qed.

Lemma resolve_slice S : resolve (PassThrough S) <$> seq 0 (length S) = S.
Proof.
  apply list_eq. intros i. rewrite list_lookup_fmap. destruct (decide (i < length S)) as [Hi|Hi].
  - rewrite lookup_seq_lt by done. cbn. by destruct (lookup_lt_is_Some_2 S i Hi) as [x ->].
  - rewrite lookup_seq_ge by lia. cbn. symmetry. apply lookup_ge_None_2. lia.
Qed.

Lemma run_task_ok job_id stage_id p S :
  splittable p = true → walk_child_partition_mapping p S ≠ Panic →
  S ≠ [] → ascending S → Forall (λ s, s < count p) S →
  ∃ plan, run_task (Node (ShuffleWriter job_id stage_id) [p]) S = Ok (plan, S) ∧ sliced S p plan.
Proof using PL RL.
  intros Hsp Hw Hne Hasc Hlt. destruct (restrict_ok p Hsp S Hne Hasc Hlt) as (r & Hr & Hs). exists r.1. split; [|done].
  unfold run_task. rewrite (restrict_writer (ShuffleWriter job_id stage_id) p S r eq_refl Hr). cbn [obind].
  unfold compute_global_output_partition_ids, written_partitions.
  destruct (walk_child_partition_mapping p S) as [m|[]|] eqn:Hm; [|done]. cbn [obind].
  destruct (walk_ids p S m Hm) as [Hpass Hids]. destruct Hs as [Hcount _].
  assert (m = PassThrough S ∨ count p = 1 ∧ (m = Collapsed ∨ m = KSpace)) as [->|[Hone Hcase]].
  { destruct (walk_splittable p S m Hsp Hm) as [?|Hone]; [by left|]. destruct m; [by auto..|left; by f_equal]. }
  - cbn [obind]. rewrite (walk_restrict p S false r S Hr), Hm. cbn [obind]. by rewrite Hcount, resolve_slice.
  - rewrite Hone in Hlt. rewrite (only_zero S Hne Hasc Hlt) in *.
    destruct Hcase as [-> | ->]; cbn [obind seq]; rewrite ?Hone; cbn [seq];
      rewrite (walk_restrict p [0] false r [0] Hr), Hm; cbn [obind]; by rewrite Hcount.
Qed.
End restrict.
