(* ===== verification/Planner.v ===== *)
(** * Cutting a plan into stages

    Models [scheduler/src/planner.rs]: the lowering of joins, the cut of a plan into
    stages with shuffle writers, and the rewriting of the shuffles of a stage when its
    inputs are there or are lost; and of [scheduler/src/physical_optimizer/join_selection.rs]
    the two predicates it uses; and [StaticExecutionGraph::new] of
    [scheduler/src/state/execution_graph.rs]. DataFusion's statistics, its join constructors and its
    optimizer rule are [PlannerOps]. *)

From S2P Require Import Prelude Errors Machine Types Stage Graph PhysicalPlan TaskPlan.
From stdpp Require Import numbers gmap strings.

(** ** Fuel

    The recursion follows a plan that is rewritten on the way; [None] is fuel that ran
    out. *)
Abbreviation fueled A := (option (result A)).

Definition fbind {A B : Type} (m : fueled A) (k : A → fueled B) : fueled B :=
  match m with
  | Some (Ok a) => k a
  | Some (Err e) => Some (Err e)
  | Some Panic => Some Panic
  | None => None
  end.
Notation "'let^' x ':=' m 'in' k" := (fbind m (λ x, k))
  (at level 10, x binder, m at level 100, k at level 200) : ballista_scope.

(** [?] on a result of DataFusion *)
Definition of_df {A : Type} (o : df_result A) : result A :=
  match o with
  | Ok a => Ok a
  | Err e => Err (ballista_of_datafusion e)
  | Panic => Panic
  end.

(** ** What is used of DataFusion *)

Inductive DataType : Type :=
| Boolean | Int8 | UInt8 | Int16 | UInt16 | Int32 | UInt32 | Float32 | Int64 | UInt64 | Float64
| Date32 | Date64 | Decimal128 | Decimal256 | OtherType.

Record Statistics : Type := mkStatistics { total_byte_size : Precision; st_num_rows : Precision }.

Definition get_value (p : Precision) : option N :=
  match p with Exact n | Inexact n => Some n | Absent => None end.

(** [ballista.optimizer.broadcast_join_threshold_bytes] and
    [datafusion.execution.target_partitions] *)
Record PlannerConfig : Type := mkPlannerConfig { threshold_bytes : N; target_partitions : nat }.

Class PlannerOps `{RebuildOps} : Type := {
  field_types : Schema → list DataType;
  compute_statistics : ExecutionPlan → df_result Statistics;
  join_swap : JoinType → JoinType;
  supports_swap : JoinType → bool;
  (** [HashJoinExec::swap_inputs] to a join that collects its left input *)
  swap_inputs : HashJoinExec → ExecutionPlan → ExecutionPlan → df_result ExecutionPlan;
  ensure_requirements : PlannerConfig → ExecutionPlan → df_result ExecutionPlan;
}.

Section planner.
Context `{PlannerOps} (job_id : JobId) (config : PlannerConfig).

(** ** Broadcast joins *)

Definition row_bytes (t : DataType) : N :=
  match t with
  | Boolean | Int8 | UInt8 => 1
  | Int16 | UInt16 => 2
  | Int32 | UInt32 | Float32 | Date32 => 4
  | Int64 | UInt64 | Float64 | Date64 => 8
  | Decimal128 => 16
  | Decimal256 | OtherType => 32
  end.

Definition nonzero (o : option N) : option N :=
  match o with Some n => if (n =? 0)%N then None else Some n | None => None end.

Definition broadcast_size_under_threshold (plan : ExecutionPlan) (threshold : N) : option bool :=
  match compute_statistics plan with
  | Ok stats =>
      match nonzero (get_value (total_byte_size stats)) with
      | Some bytes => Some (bytes <? threshold)%N
      | None =>
          match nonzero (get_value (st_num_rows stats)) with
          | Some rows =>
              let bytes_per_row := lsum row_bytes (field_types (schema_of plan)) in
              Some (u64_mul rows (bytes_per_row `max` 8) <? threshold)%N
          | None => None
          end
      end
  | _ => None
  end.

Definition should_swap_join_order (lhs rhs : ExecutionPlan) : df_result bool :=
  let? left_stats := compute_statistics lhs in
  let? right_stats := compute_statistics rhs in
  match get_value (total_byte_size left_stats), get_value (total_byte_size right_stats) with
  | Some l, Some r => Ok (r <? l)%N
  | _, _ =>
      match get_value (st_num_rows left_stats), get_value (st_num_rows right_stats) with
      | Some l, Some r => Ok (r <? l)%N
      | _, _ => Ok false
      end
  end.

Definition collect_left_broadcast_safe (join_type : JoinType) : bool :=
  match join_type with
  | Inner | RightJoin | RightSemi | RightAnti | RightMark => true
  | _ => false
  end.

Definition with_mode (mode : PartitionMode) (j : HashJoinExec) : HashJoinExec :=
  mkJoin (join_type j) mode (null_aware j) (join_on j) (join_rest j).

(** [builder().with_partition_mode(mode).with_new_children(new).build_exec()] *)
Definition build_join (mode : PartitionMode) (j : HashJoinExec) (old new : list ExecutionPlan) : df_result ExecutionPlan :=
  with_new_children (HashJoin (with_mode mode j)) old new.

Definition is_coalesce (p : ExecutionPlan) : bool :=
  match p with Node CoalescePartitions _ => true | _ => false end.

Definition lower_null_aware_join (j : HashJoinExec) (lhs rhs : ExecutionPlan) : result ExecutionPlan :=
  if (threshold_bytes config =? 0)%N ||
     match broadcast_size_under_threshold lhs (threshold_bytes config) with Some false => true | _ => false end
  then Err (General (Lit "Null-aware anti join requires single-task execution, but its build side does not fit ballista.optimizer.broadcast_join_threshold_bytes ({threshold_bytes} bytes)"))
  else
    let rhs' := if is_coalesce rhs then rhs else Node CoalescePartitions [rhs] in
    of_df (build_join CollectLeft j [lhs; rhs] [lhs; rhs']).

Definition demote_collect_left_to_partitioned (j : HashJoinExec) (lhs rhs : ExecutionPlan) : result ExecutionPlan :=
  let partitions := target_partitions config in
  let new_left := Node (Repartition (Hash (join_on j).*1 partitions)) [lhs] in
  let new_right := Node (Repartition (Hash (join_on j).*2 partitions)) [rhs] in
  of_df (build_join Partitioned j [lhs; rhs] [new_left; new_right]).

(** The build side of a promoted join is coalesced. *)
Definition coalesce_build (join_node : ExecutionPlan) : outcome BallistaError rewritten :=
  match join_node with
  | Node (HashJoin j) [lhs; rhs] =>
      let new_left := if 1 <? count lhs then (Node CoalescePartitions [lhs], true) else (lhs, false) in
      of_df (replace_children_if_necessary (HashJoin j) [lhs; rhs] [new_left; (rhs, false)])
  | _ => Panic
  end.

(** From the point where a partitioned join is a candidate *)
Definition promote (j : HashJoinExec) (lhs rhs plan : ExecutionPlan) : result rewritten :=
  let under p := default false (broadcast_size_under_threshold p (threshold_bytes config)) in
  let left_under := under lhs in
  let right_under := under rhs in
  if negb left_under && negb right_under then Ok (plan, false)
  else
    let? swap := if left_under && right_under then of_df (should_swap_join_order lhs rhs) else Ok right_under in
    let promoted_join_type := if swap : bool then join_swap (join_type j) else join_type j in
    if negb (collect_left_broadcast_safe promoted_join_type) then Ok (plan, false)
    else if swap && negb (supports_swap (join_type j)) then Ok (plan, false)
    else
      let? promoted :=
        if swap then of_df (swap_inputs j lhs rhs)
        else of_df (build_join CollectLeft j [lhs; rhs] [lhs; rhs]) in
      match promoted with
      | Node (HashJoin _) _ => let? rebuilt := coalesce_build promoted in Ok (rebuilt.1, true)
      | Node (Projection o) [input] =>
          let? rebuilt_join := coalesce_build input in
          let? p := of_df (replace_children_if_necessary (Projection o) [input] [rebuilt_join]) in
          Ok (p.1, true)
      | _ => Ok (plan, false)
      end.

Definition maybe_promote_to_broadcast (plan : ExecutionPlan) : result rewritten :=
  let threshold := threshold_bytes config in
  match plan with
  | Node (HashJoin j) [lhs; rhs] =>
      match partition_mode j with
      | CollectLeft =>
          if null_aware j then let? p := lower_null_aware_join j lhs rhs in Ok (p, true)
          else if negb (collect_left_broadcast_safe (join_type j)) then
            let? p := demote_collect_left_to_partitioned j lhs rhs in Ok (p, true)
          else if (threshold =? 0)%N || negb (default false (broadcast_size_under_threshold lhs threshold)) then
            let? p := demote_collect_left_to_partitioned j lhs rhs in Ok (p, true)
          else Ok (plan, false)
      | Partitioned =>
          if null_aware j then let? p := lower_null_aware_join j lhs rhs in Ok (p, true)
          else if (threshold =? 0)%N then Ok (plan, false)
          else promote j lhs rhs plan
      | Auto => Ok (plan, false)
      end
  | _ => Ok (plan, false)
  end.

(** ** Stage boundaries *)

(** [make_empty_exec_serde_safe]: from the leaves up *)
Fixpoint make_empty_exec_serde_safe (p : ExecutionPlan) : df_result rewritten :=
  match p with
  | LeafNode (EmptyExec schema n) =>
      if n <=? 1 then Ok (p, false)
      else Ok (Node (Repartition (RoundRobinBatch n)) [LeafNode (EmptyExec schema 1)], true)
  | LeafNode _ => Ok (p, false)
  | Node k cs => let? new := traverse make_empty_exec_serde_safe cs in replace_children_if_necessary k cs new
  end.

Definition create_shuffle_writer_with_config (stage_id : nat) (plan : ExecutionPlan) (partitioning : option Partitioning)
  : result ExecutionPlan :=
  let? plan := of_df (make_empty_exec_serde_safe plan) in
  match partitioning with
  | Some (Hash exprs n) => of_df (sort_shuffle_writer_try_new job_id stage_id plan.1 (Hash exprs n))
  | None => Ok (Node (ShuffleWriter job_id stage_id) [plan.1])
  | Some _ => Err (General (Lit "unsupported shuffle output partitioning: {other}"))
  end.

Definition writer_stage_id (p : ExecutionPlan) : nat :=
  match p with
  | Node (ShuffleWriter _ stage_id | RangeShuffleWriter _ stage_id | SortShuffleWriter _ stage_id _) _ => stage_id
  | _ => 0
  end.

Definition create_unresolved_shuffle (writer : ExecutionPlan) : ExecutionPlan :=
  LeafNode (UnresolvedShuffle (unresolved_new (writer_stage_id writer) (schema_of writer) (output_partitioning writer))).

Fixpoint holds_a_broadcast (p : ExecutionPlan) : bool :=
  match p with
  | LeafNode (UnresolvedShuffle u) => us_broadcast u
  | LeafNode _ => false
  | Node k cs =>
      match k with HashJoin j => match partition_mode j with CollectLeft => true | _ => false end | _ => false end ||
      existsb holds_a_broadcast cs
  end.

Definition restricts_to_nothing (p : ExecutionPlan) : bool :=
  match restrict_plan_to_partitions p [] with
  | Ok p' => count p' =? 0
  | _ => false
  end.

Definition can_stay_inline (p : ExecutionPlan) : bool :=
  match p with
  | LeafNode (UnresolvedShuffle _) => true
  | _ => negb (holds_a_broadcast p) && restricts_to_nothing p
  end.

(** A stage for [plan], and the shuffle that reads it *)
Definition cut (next : nat) (plan : ExecutionPlan) (partitioning : option Partitioning)
  : result (ExecutionPlan * ExecutionPlan * nat) :=
  let next := S next in
  let? writer := create_shuffle_writer_with_config next plan partitioning in
  Ok (create_unresolved_shuffle writer, writer, next).

(** The branches of a union that need a stage of their own get one. *)
Fixpoint cut_branches (next : nat) (branches : list rewritten)
  : result (list rewritten * list ExecutionPlan * nat) :=
  match branches with
  | [] => Ok ([], [], next)
  | branch :: branches' =>
      if can_stay_inline branch.1 then
        let? r := cut_branches next branches' in
        let '(new, stages, next) := r in Ok (branch :: new, stages, next)
      else
        let? c := cut next branch.1 None in
        let '(unresolved, writer, next) := c in
        let? r := cut_branches next branches' in
        let '(new, stages, next) := r in Ok ((unresolved, true) :: new, writer :: stages, next)
  end.

(** What planning a subtree returns: the rest of it, the stages cut off, the last stage
    id *)
Abbreviation partial_stages := (rewritten * list ExecutionPlan * nat)%type.

(** The children one after the other *)
Definition plan_children (plan_child : nat → ExecutionPlan → fueled partial_stages)
  : nat → list ExecutionPlan → fueled (list rewritten * list ExecutionPlan * nat) :=
  fix go next cs :=
    match cs with
    | [] => Some (Ok ([], [], next))
    | c :: cs' =>
        let^ r := plan_child next c in
        let '(new_child, child_stages, next) := r in
        let^ rs := go next cs' in
        let '(new, stages, next) := rs in
        Some (Ok (new_child :: new, child_stages ++ stages, next))
    end.

(** A node whose children are planned *)
Definition plan_node (next : nat) (k : Kind) (cs : list ExecutionPlan) (new : list rewritten) (stages : list ExecutionPlan)
  : result partial_stages :=
  match k with
  | UnionExec =>
      let? r := cut_branches next new in
      let '(new, cut_off, next) := r in
      let? p := of_df (replace_children_if_necessary k cs new) in
      Ok (p, stages ++ cut_off, next)
  | CoalescePartitions =>
      match new with
      | input :: _ =>
          let? input := of_df (ensure_requirements config input.1) in
          let? c := cut next input None in
          let '(unresolved, writer, next) := c in
          let? p := of_df (replace_children_if_necessary k cs [(unresolved, true)]) in
          Ok (p, stages ++ [writer], next)
      | [] => Panic
      end
  | SortPreservingMerge _ _ =>
      match new with
      | input :: _ =>
          let? c := cut next input.1 None in
          let '(unresolved, writer, next) := c in
          let? p := of_df (replace_children_if_necessary k cs [(unresolved, true)]) in
          Ok (p, stages ++ [writer], next)
      | [] => Panic
      end
  | Repartition (Hash exprs n) =>
      match new with
      | input :: _ =>
          let? input := of_df (ensure_requirements config input.1) in
          let? c := cut next input (Some (Hash exprs n)) in
          let '(unresolved, writer, next) := c in
          Ok ((unresolved, true), stages ++ [writer], next)
      | [] => Panic
      end
  | Repartition _ =>
      match new with
      | input :: _ => Ok ((input.1, true), stages, next)
      | [] => Panic
      end
  | _ =>
      let? p := of_df (replace_children_if_necessary k cs new) in
      Ok (p, stages, next)
  end.

(** The build side of a broadcast join, without the node that coalesces it *)
Definition peel_coalesce (p : ExecutionPlan) : outcome BallistaError ExecutionPlan :=
  match p with
  | Node CoalescePartitions cs => match cs with c :: _ => Ok c | [] => Panic end
  | _ => Ok p
  end.

(** The result is another object than the plan that was given if a promoted plan is. *)
Definition since (promoted : rewritten) (r : partial_stages) : partial_stages :=
  let '(p, stages, next) := r in ((p.1, promoted.2 || p.2), stages, next).

(** A subtree, where [plan_child] plans the subtrees below it *)
Definition plan_subtree (plan_child : nat → ExecutionPlan → fueled partial_stages) (next : nat) (execution_plan : ExecutionPlan)
  : fueled partial_stages :=
  let^ promoted := Some (maybe_promote_to_broadcast execution_plan) in
  match promoted.1 with
  | LeafNode _ | Node _ [] => Some (Ok (promoted, [], next))
  | Node (HashJoin j) [lhs; rhs] =>
      match partition_mode j with
      | CollectLeft =>
          let^ build := Some (peel_coalesce lhs) in
          let^ r := plan_child next build in
          let '(build, stages, next) := r in
          let build_partitions := count build.1 in
          let^ build_writer := Some (create_shuffle_writer_with_config (S next) build.1 None) in
          let broadcast_left :=
            LeafNode (UnresolvedShuffle (unresolved_new_broadcast (writer_stage_id build_writer)
                                           (schema_of build_writer) build_partitions)) in
          let^ r := plan_child (S next) rhs in
          let '(probe, probe_stages, next) := r in
          let^ new_join := Some (of_df (with_new_children (HashJoin j) [lhs; rhs] [broadcast_left; probe.1])) in
          Some (Ok ((new_join, true), stages ++ build_writer :: probe_stages, next))
      | _ =>
          let^ r := plan_children plan_child next [lhs; rhs] in
          let '(new, stages, next) := r in
          let^ r := Some (plan_node next (HashJoin j) [lhs; rhs] new stages) in
          Some (Ok (since promoted r))
      end
  | Node k cs =>
      let^ r := plan_children plan_child next cs in
      let '(new, stages, next) := r in
      let^ r := Some (plan_node next k cs new stages) in
      Some (Ok (since promoted r))
  end.

Fixpoint plan_query_stages_internal (fuel next : nat) (execution_plan : ExecutionPlan) : fueled partial_stages :=
  match fuel with
  | 0 => None
  | S fuel' => plan_subtree (plan_query_stages_internal fuel') next execution_plan
  end.

(** [plan_query_stages] of a new planner *)
Definition plan_query_stages (fuel : nat) (execution_plan : ExecutionPlan) : fueled (list ExecutionPlan) :=
  let^ r := plan_query_stages_internal fuel 0 execution_plan in
  let '(new_plan, stages, next) := r in
  let^ writer := Some (create_shuffle_writer_with_config (S next) new_plan.1 None) in
  Some (Ok (stages ++ [writer])).
End planner.

(** ** Resolution of shuffles *)

Section resolution.
Context `{RebuildOps}.

Fixpoint find_unresolved_shuffles (p : ExecutionPlan) : list UnresolvedShuffleExec :=
  match p with
  | LeafNode (UnresolvedShuffle u) => [u]
  | LeafNode _ => []
  | Node _ cs => concat (find_unresolved_shuffles <$> cs)
  end.

Abbreviation Locations := (gmap nat (gmap nat (list PartitionLocation.t))).

(** The reader in the place of a shuffle *)
Definition resolve_shuffle (partition_locations : Locations) (u : UnresolvedShuffleExec) : result ShuffleReaderExec :=
  match partition_locations !! us_stage_id u with
  | None => Err (General (Lit "Missing partition location. Could not remove unresolved shuffles"))
  | Some p =>
      let at_partition i := default [] (p !! i) in
      if us_broadcast u then
        let all_locations := concat (at_partition <$> seq 0 (us_upstream_partition_count u)) in
        Ok (shuffle_reader_try_new_broadcast (us_stage_id u) all_locations (us_schema u) (us_upstream_partition_count u))
      else
        let relevant_locations := at_partition <$> seq 0 (us_output_partition_count u) in
        Ok (shuffle_reader_try_new (us_stage_id u) relevant_locations (us_schema u) (us_partitioning u))
  end.

(** The child of a node is looked at by the node. *)
Fixpoint remove_unresolved (partition_locations : Locations) (stage : ExecutionPlan) : result rewritten :=
  match stage with
  | LeafNode _ => Ok (stage, false)
  | Node k cs =>
      let? new := traverse (λ child,
        match child with
        | LeafNode (UnresolvedShuffle u) =>
            let? r := resolve_shuffle partition_locations u in Ok (LeafNode (ShuffleReader r), true)
        | _ => remove_unresolved partition_locations child
        end) cs in
      of_df (replace_children_if_necessary k cs new)
  end.

(** The shuffle in the place of a reader *)
Definition unresolve_reader (r : ShuffleReaderExec) : UnresolvedShuffleExec :=
  if sr_broadcast r then unresolved_new_broadcast (sr_stage_id r) (sr_schema r) (sr_upstream_partition_count r)
  else unresolved_new (sr_stage_id r) (sr_schema r) (sr_partitioning r).

Definition unresolve_range_reader (r : RangeShuffleReaderExec) : UnresolvedShuffleExec :=
  unresolved_new (rr_stage_id r) (rr_schema r) (leaf_partitioning (RangeShuffleReader r)).

Fixpoint rollback_resolved (stage : ExecutionPlan) : result rewritten :=
  match stage with
  | LeafNode _ => Ok (stage, false)
  | Node k cs =>
      let? new := traverse (λ child,
        match child with
        | LeafNode (ShuffleReader r) => Ok (LeafNode (UnresolvedShuffle (unresolve_reader r)), true)
        | LeafNode (RangeShuffleReader r) => Ok (LeafNode (UnresolvedShuffle (unresolve_range_reader r)), true)
        | _ => rollback_resolved child
        end) cs in
      of_df (replace_children_if_necessary k cs new)
  end.

(** [stage_input_partitions] of [execution_stage.rs] *)
Definition input_partitions (plan : ExecutionPlan) : outcome Empty_set nat :=
  match plan with
  | Node (ShuffleWriter _ _ | RangeShuffleWriter _ _ | SortShuffleWriter _ _ _) cs =>
      match cs with c :: _ => Ok (count c `max` 1) | [] => Panic end
  | _ => Ok (count plan `max` 1)
  end.
End resolution.

(** ** The stages of a job

    [ExecutionStageBuilder] of [scheduler/src/state/execution_graph.rs]. With the plans of
    this file the operations that the stages use of plans are defined. *)

Class StageOps `{RebuildOps} : Type := {
  Options : Type;
  Session : Type;
  session_options : Session → Options;
  planner_config : Options → PlannerConfig;
  num_fields : ExecutionPlan → nat;
  select_joins : ExecutionPlan → Options → result ExecutionPlan;
  optimize_aggregates : ExecutionPlan → Options → result ExecutionPlan;
}.

Section builder.
Context `{StageOps} `{Payload}.

#[export] Instance execution_plans : PlanOps := {|
  Plan := ExecutionPlan;
  ConfigOptions := Options;
  SessionConfig := Session;
  options := session_options;
  stage_input_partitions p := match input_partitions p with Ok n => n | _ => 1 end;
  schema_num_fields := num_fields;
  remove_unresolved_shuffles p locations := let? r := remove_unresolved locations p in Ok r.1;
  rollback_resolved_shuffles p := let? r := rollback_resolved p in Ok r.1;
  join_selection_optimize := select_joins;
  aggregate_statistics_optimize := optimize_aggregates;
|}.

Record ExecutionStageBuilder : Type := mkBuilder {
  current_stage_id : nat;
  stage_dependencies : gmap nat (list nat);
  output_links : gmap nat (list nat);
}.

Definition builder_new : ExecutionStageBuilder := mkBuilder 0 ∅ ∅.

(** Adds [x] to the list at [key] unless it is there. *)
Definition add_once (key x : nat) (m : gmap nat (list nat)) : gmap nat (list nat) :=
  match m !! key with
  | Some xs => if bool_decide (x ∈ xs) then m else <[key := xs ++ [x]]> m
  | None => <[key := [x]]> m
  end.

Definition pre_visit (self : ExecutionStageBuilder) (plan : ExecutionPlan) : ExecutionStageBuilder :=
  match plan with
  | Node (ShuffleWriter _ stage_id | RangeShuffleWriter _ stage_id | SortShuffleWriter _ stage_id _) _ =>
      mkBuilder stage_id (stage_dependencies self) (output_links self)
  | LeafNode (UnresolvedShuffle u) =>
      mkBuilder (current_stage_id self)
        (add_once (current_stage_id self) (us_stage_id u) (stage_dependencies self))
        (add_once (us_stage_id u) (current_stage_id self) (output_links self))
  | _ => self
  end.

(** [accept]: the node before its children *)
Fixpoint accept (self : ExecutionStageBuilder) (plan : ExecutionPlan) : ExecutionStageBuilder :=
  let self := pre_visit self plan in
  match plan with
  | LeafNode _ => self
  | Node _ cs => foldl accept self cs
  end.

Definition build_stage (session_config : Session) (self : ExecutionStageBuilder) (stage : ExecutionPlan)
  : ExecutionStage :=
  let stage_id := writer_stage_id stage in
  let links := default [] (output_links self !! stage_id) in
  let child_stages := default [] (stage_dependencies self !! stage_id) in
  match child_stages with
  | [] => Resolved (ResolvedStage.new stage_id 0 stage links ∅ ∅ session_config)
  | _ => UnResolved (UnresolvedStage.new stage_id stage links child_stages session_config)
  end.

(** The entries of a stage are taken out of the builder. *)
Definition take_stage (stage_id : nat) (self : ExecutionStageBuilder) : ExecutionStageBuilder :=
  mkBuilder (current_stage_id self) (delete stage_id (stage_dependencies self)) (delete stage_id (output_links self)).

Fixpoint build_stages (session_config : Session) (self : ExecutionStageBuilder) (stages : list ExecutionPlan)
    (acc : gmap nat ExecutionStage) : gmap nat ExecutionStage :=
  match stages with
  | [] => acc
  | stage :: stages' =>
      let stage_id := writer_stage_id stage in
      build_stages session_config (take_stage stage_id self) stages'
        (<[stage_id := build_stage session_config self stage]> acc)
  end.

Definition build (session_config : Session) (stages : list ExecutionPlan) : gmap nat ExecutionStage :=
  build_stages session_config (foldl accept builder_new stages) stages ∅.
End builder.

(** ** The graph of a new job *)

Section new_job.
Context `{PlannerOps} `{!StageOps} `{Payload}.

(** The planner is a new one; [fuel] is for it. *)
Definition graph_new (fuel : nat) (now : N) (scheduler_id : string) (job_id : JobId) (job_name session_id : string)
    (plan : ExecutionPlan) (queued_at : N) (session_config : Session) (logical_plan : option string)
  : fueled StaticExecutionGraph.t :=
  let^ shuffle_stages := plan_query_stages job_id (planner_config (session_options session_config)) fuel plan in
  let stages := build session_config shuffle_stages in
  let started_at := now in
  Some (Ok (StaticExecutionGraph.mk _ _ (Some scheduler_id) job_id job_name session_id
    (JobStatus.mk job_id job_name (Some (Job_Running queued_at started_at scheduler_id)))
    queued_at started_at 0 stages [] ∅ session_config logical_plan plan)).
End new_job.
