(* ===== verification/PlannerFacts.v ===== *)
(** * Lemmas on cutting a plan into stages

    The shuffles that a plan reads ([reads]), what the rewrites of the planner do to
    them, and the numbers of the stages. *)

From S2P Require Import Prelude Errors Machine Types Stage PhysicalPlan TaskPlan TaskPlanFacts Planner.
From stdpp Require Import numbers gmap strings.

(** No node writes shuffle files or reads them. *)
Definition is_writer_kind `{PlanTypes} (k : Kind) : bool :=
  match k with ShuffleWriter _ _ | RangeShuffleWriter _ _ | SortShuffleWriter _ _ _ => true | _ => false end.

Fixpoint fileless `{PlanTypes} (p : ExecutionPlan) : bool :=
  match p with
  | LeafNode (ShuffleReader _ | RangeShuffleReader _) => false
  | LeafNode _ => true
  | Node k cs => negb (is_writer_kind k) && forallb fileless cs
  end.

(** What is relied on of DataFusion: swapping the inputs of a join gives the join with
    its type swapped, maybe under a projection; the optimizer rule neither drops nor
    doubles a leaf and adds no node of Ballista's; the number of partitions of a node depends on the numbers of
    partitions of its inputs. *)
Class PlannerLaws `{PlannerOps} : Prop := {
  swap_shape j l r p :
    swap_inputs j l r = Ok p →
    ∃ j', partition_mode j' = CollectLeft ∧ join_type j' = join_swap (join_type j) ∧ null_aware j' = null_aware j ∧
      (p = Node (HashJoin j') [r; l] ∨ ∃ o, p = Node (Projection o) [Node (HashJoin j') [r; l]]);
  ensure_keeps_leaves config p p' :
    ensure_requirements config p = Ok p' → find_unresolved_shuffles p' ≡ₚ find_unresolved_shuffles p;
  ensure_fileless config p p' :
    ensure_requirements config p = Ok p' → fileless p = true → fileless p' = true;
  op_counts o ps ps' :
    partition_count <$> ps = partition_count <$> ps' →
    partition_count (op_partitioning o ps) = partition_count (op_partitioning o ps');
  join_counts j ps ps' :
    partition_count <$> ps = partition_count <$> ps' →
    partition_count (join_partitioning j ps) = partition_count (join_partitioning j ps');
}.

Lemma of_df_ok {A : Type} (o : df_result A) a : of_df o = Ok a → o = Ok a.
Proof. destruct o; cbn; by intros [= <-]. Qed.

Lemma obind_ok {E A B : Type} (o : outcome E A) (k : A → outcome E B) b :
  (let? a := o in k a) = Ok b → ∃ a, o = Ok a ∧ k a = Ok b.
Proof. destruct o; cbn; [eauto|done..]. Qed.

Lemma fbind_ok {A B : Type} (m : fueled A) (k : A → fueled B) b :
  (let^ a := m in k a) = Some (Ok b) → ∃ a, m = Some (Ok a) ∧ k a = Some (Ok b).
Proof. destruct m as [[]|]; cbn; [eauto|done..]. Qed.

(** The next step of a computation that succeeds, with its result *)
Tactic Notation "step" hyp(H) "as" simple_intropattern(x) ident(E) :=
  first [apply fbind_ok in H as (x & E & H)|apply obind_ok in H as (x & E & H)];
  repeat (first [injection E as E|match type of E with of_df _ = _ => apply of_df_ok in E end]).

Section replace.
Context `{RebuildOps}.

(** A rewritten plan that is not a new object is the old one. *)
Definition flagged (p : ExecutionPlan) (r : rewritten) : Prop := r.2 = false → r.1 = p.

Lemma replace_flagged k cs new r :
  replace_children_if_necessary k cs new = Ok r → Forall2 flagged cs new →
  r.1 = Node k (fst <$> new) ∧ flagged (Node k cs) r.
Proof.
  intros Hr Hall. revert Hr. unfold replace_children_if_necessary, flagged.
  destruct (negb _); [done|]. destruct (existsb snd new) eqn:Hs.
  - destruct (with_new_children _ _ _) as [p| |] eqn:Hw; cbn; [|done..]. intros [= <-].
    by rewrite (with_new_children_node _ _ _ _ Hw).
  - intros [= <-]. split; [|done]. cbn. f_equal. induction Hall as [|c r cs new Hc _ IH]; [done|]. cbn in Hs |- *.
    apply orb_false_iff in Hs as [Hr Hs]. by rewrite (Hc Hr), <-(IH Hs).
Qed.

(** A node that gets one new child *)
Lemma replace_one k cs c r :
  replace_children_if_necessary k cs [(c, true)] = Ok r → length cs = 1 ∧ r = (Node k [c], true).
Proof.
  unfold replace_children_if_necessary. cbn. destruct cs as [|? [|]]; try done. cbn.
  destruct (with_new_children _ _ _) as [p| |] eqn:Hw; cbn; [|done..]. intros [= <-].
  by rewrite (with_new_children_node _ _ _ _ Hw).
Qed.

Abbreviation reads := find_unresolved_shuffles.

Lemma reads_node k cs : reads (Node k cs) = concat (reads <$> cs).
Proof. done. Qed.

Lemma make_empty_ok p r :
  make_empty_exec_serde_safe p = Ok r → flagged p r ∧ reads r.1 = reads p.
Proof.
  revert r. induction p as [l|k cs IH] using plan_ind; intros r Hr.
  { destruct l; cbn in Hr; try (injection Hr as <-; done). destruct (n <=? 1); injection Hr as <-; done. }
  cbn [make_empty_exec_serde_safe] in Hr. step Hr as new Hnew.
  assert (Forall2 (λ c r, flagged c r ∧ reads r.1 = reads c) cs new) as Hall.
  { apply traverse_ok in Hnew. clear Hr. induction Hnew as [|c r' cs new Hc _ IHc]; [constructor|].
    inversion_clear IH as [|? ? Hc' Hcs]. constructor; [by apply Hc'|by apply IHc]. }
  destruct (replace_flagged _ _ _ _ Hr) as [Hn Hf]; [by eapply Forall2_impl; [exact Hall|]; intros ? ? []|].
  split; [done|]. rewrite Hn, !reads_node. f_equal. clear -Hall.
  induction Hall as [|c r cs new [_ Hc] _ IH]; [done|]. cbn. by f_equal.
Qed.
End replace.

(** ** The lowering of joins *)

Section joins.
Context `{PlannerOps} {LW : PlannerLaws} (config : PlannerConfig).
Abbreviation reads := find_unresolved_shuffles.

(** [p], or [p] under a node that coalesces its partitions *)
Definition maybe_coalesced (p p' : ExecutionPlan) : Prop := p' = p ∨ p' = Node CoalescePartitions [p].

Definition projected (o : option Op) (p : ExecutionPlan) : ExecutionPlan :=
  match o with Some o => Node (Projection o) [p] | None => p end.

(** What becomes of a join of [l] and [r]: a null-aware join that collects its left input
    and has one partition on the right; a partitioned join of repartitioned inputs; or a
    join that collects one of its inputs, maybe under a projection *)
Inductive lowered (j : HashJoinExec) (l r : ExecutionPlan) : ExecutionPlan → Prop :=
| Lowered_null_aware r' :
    maybe_coalesced r r' → null_aware j = true →
    lowered j l r (Node (HashJoin (with_mode CollectLeft j)) [l; r'])
| Lowered_demoted e1 e2 n :
    lowered j l r (Node (HashJoin (with_mode Partitioned j))
      [Node (Repartition (Hash e1 n)) [l]; Node (Repartition (Hash e2 n)) [r]])
| Lowered_promoted o j' a a' b :
    a = l ∧ b = r ∨ a = r ∧ b = l → maybe_coalesced a a' →
    partition_mode j' = CollectLeft → collect_left_broadcast_safe (join_type j') = true → null_aware j' = false →
    lowered j l r (projected o (Node (HashJoin j') [a'; b])).

Lemma coalesce_build_ok j a b r :
  coalesce_build (Node (HashJoin j) [a; b]) = Ok r → ∃ a', maybe_coalesced a a' ∧ r.1 = Node (HashJoin j) [a'; b].
Proof.
  unfold coalesce_build. intros Hr%of_df_ok. apply replace_flagged in Hr as [-> _].
  - cbn [fmap list_fmap fst]. destruct (1 <? count a); eexists; (split; [|done]); [by right|by left].
  - constructor; [|by constructor]. by destruct (1 <? count a).
Qed.

Lemma promote_shape j l r p x :
  null_aware j = false → promote config j l r p = Ok x → x = (p, false) ∨ x.2 = true ∧ lowered j l r x.1.
Proof using LW.
  intros Hna Hx. unfold promote in Hx. cbv zeta in Hx. case_match; [injection Hx as <-; by left|].
  step Hx as swap Hswap. destruct (negb _) eqn:Hsafe in Hx; [injection Hx as <-; by left|].
  apply negb_false_iff in Hsafe. destruct (swap && _); [injection Hx as <-; by left|].
  step Hx as promoted Hp.
  assert (∃ j' a b, (a = l ∧ b = r ∨ a = r ∧ b = l) ∧ partition_mode j' = CollectLeft ∧
    collect_left_broadcast_safe (join_type j') = true ∧ null_aware j' = false ∧
    (promoted = Node (HashJoin j') [a; b] ∨ ∃ o, promoted = Node (Projection o) [Node (HashJoin j') [a; b]]))
    as (j' & a & b & Hab & Hm & Hs & Hn & Hshape).
  { destruct swap; apply of_df_ok in Hp.
    - apply swap_shape in Hp as (j' & Hm & Ht & Hn & Hshape). exists j', r, l. split_and!; [by right|done| |congruence|done].
      by rewrite Ht.
    - unfold build_join in Hp. apply with_new_children_node in Hp as ->. exists (with_mode CollectLeft j), l, r. split_and!; [by left|done..|by left]. }
  destruct Hshape as [->|[o ->]].
  - step Hx as rebuilt Hb. apply coalesce_build_ok in Hb as (a' & Ha & Hb). injection Hx as <-. right. split; [done|].
    cbn. rewrite Hb. by eapply (Lowered_promoted _ _ _ None).
  - step Hx as rebuilt Hb. pose proof Hb as Hb'. apply coalesce_build_ok in Hb as (a' & Ha & Hb).
    step Hx as q Hq. injection Hx as <-. right. split; [done|]. cbn.
    apply replace_flagged in Hq as [-> _].
    + cbn. rewrite Hb. by eapply (Lowered_promoted _ _ _ (Some o)).
    + constructor; [|constructor]. unfold coalesce_build in Hb'. apply of_df_ok, replace_flagged in Hb' as [_ ?]; [done|].
      constructor; [|by constructor]. by destruct (1 <? count a).
Qed.

Lemma maybe_promote_shape p x :
  maybe_promote_to_broadcast config p = Ok x →
  x = (p, false) ∨ ∃ j l r, p = Node (HashJoin j) [l; r] ∧ x.2 = true ∧ lowered j l r x.1.
Proof using LW.
  intros Hx. unfold maybe_promote_to_broadcast in Hx. cbv zeta in Hx.
  destruct p as [|[]]; try (injection Hx as <-; by left). destruct inputs as [|l [|r [|]]]; try (injection Hx as <-; by left).
  assert (∀ q, lower_null_aware_join config j l r = Ok q → null_aware j = true → lowered j l r q) as Hna.
  { intros q Hq Hn. unfold lower_null_aware_join in Hq. case_match; [done|]. apply of_df_ok in Hq. unfold build_join in Hq. apply with_new_children_node in Hq as ->.
    apply Lowered_null_aware; [|done]. destruct (is_coalesce r); [by left|by right]. }
  assert (∀ q, demote_collect_left_to_partitioned config j l r = Ok q → lowered j l r q) as Hd.
  { intros q Hq%of_df_ok. unfold build_join in Hq. apply with_new_children_node in Hq as ->. apply Lowered_demoted. }
  destruct (partition_mode j).
  - destruct (null_aware j) eqn:Hn.
    + step Hx as q Hq. injection Hx as <-. right. eexists _, _, _. split_and!; [done..|by apply Hna].
    + case_match; [injection Hx as <-; by left|].
      destruct (promote_shape j l r _ _ Hn Hx) as [?|[??]]; [by left|right]. by eexists _, _, _.
  - destruct (null_aware j) eqn:Hn.
    + step Hx as q Hq. injection Hx as <-. right. eexists _, _, _. split_and!; [done..|by apply Hna].
    + repeat (case_match; [step Hx as q Hq; injection Hx as <-; right; eexists _, _, _; split_and!; [done..|by apply Hd]|]).
      injection Hx as <-. by left.
  - injection Hx as <-. by left.
Qed.

Lemma lowered_reads j l r p : lowered j l r p → reads p ≡ₚ reads l ++ reads r.
Proof.
  assert (∀ a a', maybe_coalesced a a' → reads a' = reads a) as Hc.
  { intros a a' [->| ->]; [done|]. cbn. by rewrite app_nil_r. }
  intros [r' Hr _|e1 e2 n|o j' a a' b Hab Ha _ _ _]; [cbn; rewrite ?app_nil_r..|].
  - by rewrite (Hc _ _ Hr).
  - done.
  - destruct o; cbn; rewrite ?app_nil_r, (Hc _ _ Ha); destruct Hab as [[-> ->]|[-> ->]]; try done; apply Permutation_app_comm.
Qed.

Lemma maybe_promote_ok p x :
  maybe_promote_to_broadcast config p = Ok x → flagged p x ∧ reads x.1 ≡ₚ reads p.
Proof using LW.
  intros [->|(j & l & r & -> & Hx & Hl)]%maybe_promote_shape; [done|]. split; [by unfold flagged; rewrite Hx|].
  rewrite (lowered_reads _ _ _ _ Hl). cbn. by rewrite app_nil_r.
Qed.
End joins.

(** ** The shape of plans

    The types of DataFusion's nodes fix how many inputs a node has. *)
Section shape.
Context `{PlanTypes}.

Definition arity_ok (k : Kind) (n : nat) : bool :=
  match k with UnionExec | OtherOp _ => true | HashJoin _ => n =? 2 | _ => n =? 1 end.

Fixpoint well_shaped (p : ExecutionPlan) : bool :=
  match p with LeafNode _ => true | Node k cs => arity_ok k (length cs) && forallb well_shaped cs end.

Lemma lowered_well_shaped j l r p :
  lowered j l r p → well_shaped l = true → well_shaped r = true → well_shaped p = true.
Proof.
  assert (∀ a a', maybe_coalesced a a' → well_shaped a = true → well_shaped a' = true) as Hc.
  { intros a a' [->| ->] Ha; [done|]. cbn. by rewrite Ha. }
  intros Hl Hwl Hwr. destruct Hl as [r' Hr _|e1 e2 n|o j' a a' b Hab Ha _ _ _]; [cbn..|].
  - by rewrite (Hc _ _ Hr Hwr), Hwl.
  - by rewrite Hwl, Hwr.
  - destruct o; cbn; destruct Hab as [[-> ->]|[-> ->]]; rewrite (Hc _ _ Ha); by rewrite ?Hwl, ?Hwr.
Qed.
End shape.

(** ** The numbers of partitions *)

Section counts.
Context `{PlannerOps} {LW : PlannerLaws}.

Lemma node_count k cs cs' : count <$> cs = count <$> cs' → count (Node k cs) = count (Node k cs').
Proof using LW.
  intros Hcs. assert (partition_count <$> (output_partitioning <$> cs) = partition_count <$> (output_partitioning <$> cs')) as Hps.
  { by rewrite <-!list_fmap_compose. }
  unfold count. cbn [output_partitioning]. destruct k; cbn [node_partitioning]; try done;
    try (by apply op_counts); try (by apply join_counts); [cbn [partition_count]; by rewrite Hps|..];
    by destruct cs, cs'; cbn in *; simplify_eq.
Qed.

Lemma make_empty_count p r : make_empty_exec_serde_safe p = Ok r → count r.1 = count p.
Proof using LW.
  revert r. induction p as [l|k cs IH] using plan_ind; intros r Hr.
  { destruct l; cbn in Hr; try (injection Hr as <-; done). destruct (n <=? 1); injection Hr as <-; done. }
  cbn [make_empty_exec_serde_safe] in Hr. step Hr as new Hnew. apply traverse_ok in Hnew.
  destruct (replace_flagged _ _ _ _ Hr) as [-> _].
  { eapply Forall2_impl; [exact Hnew|]. intros c r' Hc. by apply make_empty_ok in Hc as []. }
  apply node_count. clear Hr. induction Hnew as [|c r' cs new Hc _ IHc]; [done|]. inversion_clear IH as [|? ? Hc' Hcs].
  cbn. f_equal; [by apply Hc'|by apply IHc].
Qed.
End counts.

(** ** The numbers of the stages *)

Section stages.
Context `{PlannerOps} {LW : PlannerLaws} (job_id : JobId) (config : PlannerConfig).
Abbreviation reads := find_unresolved_shuffles.

(** The shuffle [u] reads what the writer [w] writes: its stage, its schema, its partitions. *)
Definition stands_for (u : UnresolvedShuffleExec) (w : ExecutionPlan) : Prop :=
  u = unresolved_new (writer_stage_id w) (schema_of w) (output_partitioning w) ∨
  u = unresolved_new_broadcast (writer_stage_id w) (schema_of w) (count w).

(** Cutting [stages] off, which get the numbers after [next] up to [next'], where the
    shuffles [before] were read and then [after] are: each new stage has one shuffle,
    which is read once, and a stage reads stages with smaller numbers. *)
Record cuts (next : nat) (before : list UnresolvedShuffleExec) (stages : list ExecutionPlan)
    (after : list UnresolvedShuffleExec) (next' : nat) : Prop := {
  cuts_next : next' = next + length stages;
  cuts_ids : writer_stage_id <$> stages = seq (S next) (length stages);
  cuts_reads : ∃ new, Forall2 stands_for new stages ∧ after ++ concat (reads <$> stages) ≡ₚ before ++ new;
  cuts_order : Forall (λ u, us_stage_id u ≤ next) before →
    Forall (λ w, Forall (λ u, us_stage_id u < writer_stage_id w) (reads w)) stages;
}.

Lemma stands_for_ids new stages : Forall2 stands_for new stages → us_stage_id <$> new = writer_stage_id <$> stages.
Proof. induction 1 as [|u w new stages [->| ->] _ IH]; [done|..]; cbn; by f_equal. Qed.

Lemma cuts_bound next before stages after next' :
  cuts next before stages after next' → Forall (λ u, us_stage_id u ≤ next) before →
  Forall (λ u, us_stage_id u ≤ next') after.
Proof.
  intros [-> Hids (new & Hnew & Hr) _] Hb. assert (Forall (λ u, us_stage_id u ≤ next + length stages) (before ++ new)) as Hall.
  { apply Forall_app. split; [by eapply Forall_impl; [exact Hb|]; cbn; lia|].
    apply Forall_forall. intros u Hu%(list_elem_of_fmap_2 us_stage_id). rewrite (stands_for_ids _ _ Hnew), Hids in Hu.
    apply elem_of_seq in Hu. lia. }
  rewrite <-Hr in Hall. by apply Forall_app in Hall as [].
Qed.

Lemma cuts_nil next before after : after ≡ₚ before → cuts next before [] after next.
Proof. intros Hp. split; [cbn; lia|done| |constructor]. exists []. split; [constructor|]. by rewrite !app_nil_r. Qed.

Lemma cuts_perm next before before' stages after after' next' :
  before ≡ₚ before' → after ≡ₚ after' → cuts next before stages after next' → cuts next before' stages after' next'.
Proof.
  intros Hb Ha [Hn Hids (new & Hnew & Hr) Ho]. split; [done..| |by rewrite <-Hb].
  exists new. split; [done|]. by rewrite <-Ha, <-Hb.
Qed.

Lemma cuts_then next before s1 mid next1 s2 after next2 :
  cuts next before s1 mid next1 → cuts next1 mid s2 after next2 → cuts next before (s1 ++ s2) after next2.
Proof.
  intros Ha Hc. pose proof (cuts_bound _ _ _ _ _ Ha) as Hbound.
  destruct Ha as [-> Hids1 (new1 & Hnew1 & Hr1) Ho1], Hc as [-> Hids2 (new2 & Hnew2 & Hr2) Ho2]. split.
  - rewrite length_app. lia.
  - rewrite fmap_app, length_app, seq_app, Hids1, Hids2. do 2 f_equal.
  - exists (new1 ++ new2). split; [by apply Forall2_app|]. rewrite fmap_app, concat_app.
    rewrite (Permutation_app_comm (concat (reads <$> s1))), app_assoc, Hr2, <-app_assoc, (Permutation_app_comm new2), app_assoc, Hr1.
    by rewrite app_assoc.
  - intros Hb. apply Forall_app. auto.
Qed.

Lemma cuts_frame next before stages after next' frame :
  cuts next before stages after next' → cuts next (frame ++ before) stages (frame ++ after) next'.
Proof.
  intros [Hn Hids (new & Hnew & Hr) Ho]. split; [done..| |].
  - exists new. split; [done|]. by rewrite <-!app_assoc, Hr.
  - intros [_ Hb]%Forall_app. auto.
Qed.

Lemma cuts_both next b1 s1 a1 next1 b2 s2 a2 next2 :
  cuts next b1 s1 a1 next1 → cuts next1 b2 s2 a2 next2 → cuts next (b1 ++ b2) (s1 ++ s2) (a1 ++ a2) next2.
Proof.
  intros Ha Hc. eapply cuts_then; [|by apply cuts_frame].
  eapply cuts_perm; [apply Permutation_app_comm..|]. by apply cuts_frame.
Qed.

(** *** A writer, and the shuffle that reads it *)

Lemma writer_shape id plan partitioning w :
  create_shuffle_writer_with_config job_id id plan partitioning = Ok w →
  ∃ c, make_empty_exec_serde_safe plan = Ok c ∧
    (partitioning = None ∧ w = Node (ShuffleWriter job_id id) [c.1] ∨
     ∃ exprs n, partitioning = Some (Hash exprs n) ∧ n ≠ 0 ∧ w = Node (SortShuffleWriter job_id id (Hash exprs n)) [c.1]).
Proof.
  unfold create_shuffle_writer_with_config. intros Hw. step Hw as c Hc. exists c. split; [done|].
  destruct partitioning as [[]|]; [done| |done..|].
  - apply of_df_ok in Hw. unfold sort_shuffle_writer_try_new in Hw. destruct n; [done|]. injection Hw as <-. right. by eexists _, _.
  - injection Hw as <-. by left.
Qed.

Lemma writer_ok id plan partitioning w :
  create_shuffle_writer_with_config job_id id plan partitioning = Ok w → writer_stage_id w = id ∧ reads w = reads plan.
Proof.
  intros (c & [_ Hc]%make_empty_ok & [[_ ->]|(exprs & n & _ & _ & ->)])%writer_shape; (split; [done|]); rewrite <-Hc;
    cbn; by rewrite app_nil_r.
Qed.

Lemma cuts_writer next plan partitioning w u :
  create_shuffle_writer_with_config job_id (S next) plan partitioning = Ok w → stands_for u w →
  cuts next (reads plan) [w] [u] (S next).
Proof.
  intros [Hid Hr]%writer_ok Hu. split.
  - cbn. lia.
  - cbn. by rewrite Hid.
  - exists [u]. split; [by constructor; [|constructor]|]. cbn. rewrite app_nil_r, Hr. apply Permutation_cons_append.
  - intros Hb. constructor; [|constructor]. rewrite Hr, Hid. eapply Forall_impl; [exact Hb|]. cbn. lia.
Qed.

Lemma cut_ok next plan partitioning u w next' :
  cut job_id next plan partitioning = Ok (u, w, next') →
  next' = S next ∧ u = create_unresolved_shuffle w ∧ create_shuffle_writer_with_config job_id (S next) plan partitioning = Ok w.
Proof. unfold cut. intros Hc. step Hc as w' Hw. by injection Hc as <- <- <-. Qed.

Lemma cut_cuts next plan partitioning u w next' :
  cut job_id next plan partitioning = Ok (u, w, next') → cuts next (reads plan) [w] (reads u) next'.
Proof. intros (-> & -> & Hw)%cut_ok. eapply cuts_writer; [done|]. by left. Qed.

Lemma cut_branches_cuts next branches new stages next' :
  cut_branches job_id next branches = Ok (new, stages, next') →
  cuts next (concat (reads <$> branches.*1)) stages (concat (reads <$> new.*1)) next' ∧
  (∀ cs, Forall2 flagged cs branches → Forall2 flagged cs new).
Proof.
  revert next new stages next'. induction branches as [|b branches IH]; intros next new stages next' Hr; cbn [cut_branches] in Hr.
  { injection Hr as <- <- <-. split; [by apply cuts_nil|done]. }
  destruct (can_stay_inline b.1).
  - step Hr as [[new1 stages1] next1] Hrec. injection Hr as <- <- <-. destruct (IH _ _ _ _ Hrec) as [Hc Hf]. split.
    + cbn. by apply cuts_frame.
    + intros cs Hcs. inversion_clear Hcs. constructor; [done|by apply Hf].
  - step Hr as [[u w] next1] Hcut. step Hr as [[new1 stages1] next2] Hrec. injection Hr as <- <- <-.
    destruct (IH _ _ _ _ Hrec) as [Hc Hf]. split.
    + cbn. change (w :: stages1) with ([w] ++ stages1). eapply cuts_both; [by eapply cut_cuts|done].
    + intros cs Hcs. inversion_clear Hcs. constructor; [by intros [=]|by apply Hf].
Qed.

(** *** A node whose children are planned *)

Lemma plan_node_cuts next k cs new stages p stages' next' :
  plan_node job_id config next k cs new stages = Ok (p, stages', next') → arity_ok k (length cs) = true → Forall2 flagged cs new →
  flagged (Node k cs) p ∧ ∃ cut_off, stages' = stages ++ cut_off ∧ cuts next (concat (reads <$> new.*1)) cut_off (reads p.1) next'.
Proof using LW.
  intros Hp Ha Hf.
  assert (∀ k, (let? p := of_df (replace_children_if_necessary k cs new) in Ok (p, stages, next)) = Ok (p, stages', next') →
    flagged (Node k cs) p ∧ ∃ cut_off, stages' = stages ++ cut_off ∧ cuts next (concat (reads <$> new.*1)) cut_off (reads p.1) next')
    as Hplain.
  { clear Hp Ha. intros k' Hp. step Hp as p' Hr. injection Hp as -> -> ->. destruct (replace_flagged _ _ _ _ Hr Hf) as [-> ?].
    split; [done|]. exists []. rewrite app_nil_r. split; [done|]. by apply cuts_nil. }
  assert (∀ plan o u w next1 input, cut job_id next plan o = Ok (u, w, next1) → reads plan ≡ₚ reads input →
    cuts next (reads input) [w] (reads u) next1) as Hcut.
  { intros plan o u w next1 input Hc Hin. eapply cuts_perm; [exact Hin|done|by eapply cut_cuts]. }
  destruct k; try (by apply Hplain); cbn [plan_node] in Hp.
  { step Hp as [[new1 cut_off] next1] Hb. step Hp as p' Hr. injection Hp as -> <- <-.
    apply cut_branches_cuts in Hb as [Hc Hf']. destruct (replace_flagged _ _ _ _ Hr (Hf' _ Hf)) as [-> ?].
    split; [done|]. by exists cut_off. }
  all: apply Nat.eqb_eq in Ha; destruct cs as [|c [|]]; [done| |done]; apply Forall2_cons_inv_l in Hf as (r & ? & Hc & ->%Forall2_nil_inv_l & ->).
  - step Hp as input He. step Hp as [[u w] next1] Hw. step Hp as p' Hr. injection Hp as -> <- <-.
    apply replace_one in Hr as [_ ->]. split; [by intros [=]|]. exists [w]. split; [done|]. cbn [fst]. rewrite reads_node.
    cbn [fmap list_fmap concat]. rewrite !app_nil_r. eapply Hcut; [done|by eapply ensure_keeps_leaves].
  - step Hp as [[u w] next1] Hw. step Hp as p' Hr. injection Hp as -> <- <-.
    apply replace_one in Hr as [_ ->]. split; [by intros [=]|]. exists [w]. split; [done|]. cbn [fst]. rewrite reads_node.
    cbn [fmap list_fmap concat]. rewrite !app_nil_r. by eapply Hcut.
  - assert (∀ q, Ok (q, true, stages, next) = Ok (E := BallistaError) (p, stages', next') → q = r.1 →
      flagged (Node (Repartition p0) [c]) p ∧ ∃ cut_off, stages' = stages ++ cut_off ∧
        cuts next (concat (reads <$> [r].*1)) cut_off (reads p.1) next') as Hdrop.
    { intros q [= <- <- <-] ->. split; [by intros [=]|]. exists []. rewrite app_nil_r. split; [done|]. apply cuts_nil.
      cbn. by rewrite app_nil_r. }
    destruct p0; try (by eapply Hdrop). clear Hdrop. step Hp as input He. step Hp as [[u w] next1] Hw. injection Hp as <- <- <-.
    split; [by intros [=]|]. exists [w]. split; [done|].
    cbn [fmap list_fmap concat fst]. rewrite !app_nil_r. eapply Hcut; [done|by eapply ensure_keeps_leaves].
Qed.

(** *** The three ways of planning a subtree *)

Definition not_broadcast (k : Kind) : Prop :=
  match k with HashJoin j => partition_mode j ≠ CollectLeft | _ => True end.

Inductive planned (fuel next : nat) (p : ExecutionPlan) : rewritten → list ExecutionPlan → nat → Prop :=
| Planned_leaf q :
    maybe_promote_to_broadcast config p = Ok q → children q.1 = [] → planned fuel next p q [] next
| Planned_broadcast q j lhs rhs build0 build stages1 next1 w probe stages2 next2 join :
    maybe_promote_to_broadcast config p = Ok q → q.1 = Node (HashJoin j) [lhs; rhs] → partition_mode j = CollectLeft →
    peel_coalesce lhs = Ok build0 →
    plan_query_stages_internal job_id config fuel next build0 = Some (Ok (build, stages1, next1)) →
    create_shuffle_writer_with_config job_id (S next1) build.1 None = Ok w →
    plan_query_stages_internal job_id config fuel (S next1) rhs = Some (Ok (probe, stages2, next2)) →
    join = Node (HashJoin j)
      [LeafNode (UnresolvedShuffle (unresolved_new_broadcast (writer_stage_id w) (schema_of w) (count build.1))); probe.1] →
    planned fuel next p (join, true) (stages1 ++ w :: stages2) next2
| Planned_node q k cs new stages1 next1 rest stages next2 :
    maybe_promote_to_broadcast config p = Ok q → q.1 = Node k cs → cs ≠ [] → (arity_ok k (length cs) = true → not_broadcast k) →
    plan_children (plan_query_stages_internal job_id config fuel) next cs = Some (Ok (new, stages1, next1)) →
    plan_node job_id config next1 k cs new stages1 = Ok (rest, stages, next2) →
    planned fuel next p (rest.1, q.2 || rest.2) stages next2.

Lemma internal_planned fuel next p rest stages next' :
  plan_query_stages_internal job_id config (S fuel) next p = Some (Ok (rest, stages, next')) →
  planned fuel next p rest stages next'.
Proof.
  cbn [plan_query_stages_internal]. unfold plan_subtree. intros Hp. step Hp as q Hq. destruct (q.1) as [l|k cs] eqn:Hq1.
  { injection Hp as <- <- <-. apply Planned_leaf; [done|by rewrite Hq1]. }
  assert (∀ k' cs', cs = cs' → k = k' → cs' ≠ [] → (arity_ok k' (length cs') = true → not_broadcast k') →
    (let^ r := plan_children (plan_query_stages_internal job_id config fuel) next cs' in
     let '(new, stages, next) := r in
     let^ r := Some (plan_node job_id config next k' cs' new stages) in
     Some (Ok (since q r))) = Some (Ok (rest, stages, next')) → planned fuel next p rest stages next') as Hnode.
  { clear Hp. intros k' cs' <- <- Hne Hb Hp. step Hp as [[new s1] n1] Hc. step Hp as [[r s2] n2] Hn. injection Hp as <- <- <-.
    by eapply Planned_node. }
  destruct cs as [|c cs]. { assert (Some (Ok (q, [], next)) = Some (Ok (rest, stages, next'))) as [= <- <- <-] by by destruct k.
    apply Planned_leaf; [done|by rewrite Hq1]. }
  destruct k; try (by eapply Hnode). destruct cs as [|rhs [|]]; try (by eapply Hnode).
  destruct (partition_mode j) eqn:Hm; try (eapply Hnode; [done..| |done]; by cbn; rewrite Hm).
  step Hp as build0 Hb0. step Hp as [[build s1] n1] Hb. step Hp as w Hw. step Hp as [[probe s2] n2] Hpr. step Hp as nj Hnj.
  injection Hp as <- <- <-. eapply Planned_broadcast; try done. by eapply with_new_children_node.
Qed.

Lemma plan_children_all plan_child (P : nat → ExecutionPlan → rewritten → list ExecutionPlan → nat → Prop) next cs new stages next' :
  plan_children plan_child next cs = Some (Ok (new, stages, next')) →
  (∀ next c r s next', c ∈ cs → plan_child next c = Some (Ok (r, s, next')) → P next c r s next') →
  ∀ (Q : nat → list ExecutionPlan → list rewritten → list ExecutionPlan → nat → Prop),
  (∀ next, Q next [] [] [] next) →
  (∀ next c r s next1 cs new stages next', P next c r s next1 → Q next1 cs new stages next' →
    Q next (c :: cs) (r :: new) (s ++ stages) next') →
  Q next cs new stages next'.
Proof.
  intros Hp HP Q Hnil Hcons. revert next new stages next' Hp HP.
  induction cs as [|c cs IH]; intros next new stages next' Hp HP; cbn in Hp.
  - injection Hp as <- <- <-. apply Hnil.
  - step Hp as [[r s] n1] Hc. step Hp as [[new1 stages1] n2] Hcs. injection Hp as <- <- <-.
    eapply Hcons; [eapply HP; [left|done]|]. eapply IH; [done|]. intros. eapply HP; [by right|done].
Qed.

Lemma peel_reads p q : peel_coalesce p = Ok q → well_shaped p = true → reads q = reads p ∧ well_shaped q = true.
Proof.
  destruct p as [|[]]; cbn; try (by intros [= <-]). destruct inputs as [|c [|]]; [done| |done]. cbn.
  rewrite app_nil_r, andb_true_r. by intros [= ->].
Qed.

Lemma maybe_promote_well_shaped p q :
  maybe_promote_to_broadcast config p = Ok q → well_shaped p = true → well_shaped q.1 = true.
Proof using LW.
  intros [->|(j & l & r & -> & _ & Hl)]%maybe_promote_shape; [done|]. cbn. rewrite andb_true_r.
  intros []%andb_true_iff. by eapply lowered_well_shaped.
Qed.

Lemma internal_cuts fuel next p rest stages next' :
  plan_query_stages_internal job_id config fuel next p = Some (Ok (rest, stages, next')) → well_shaped p = true →
  flagged p rest ∧ cuts next (reads p) stages (reads rest.1) next'.
Proof using LW.
  revert next p rest stages next'. induction fuel as [|fuel IH]; [done|]. intros next p rest stages next' Hp%internal_planned Hs.
  destruct Hp as [q Hq Hc|q j lhs rhs build0 build s1 n1 w probe s2 n2 join Hq Hq1 Hm Hb0 Hb Hw Hpr ->|
    q k cs new s1 n1 rest s2 n2 Hq Hq1 Hne Hnb Hch Hn];
    pose proof (maybe_promote_well_shaped _ _ Hq Hs) as Hsq; apply maybe_promote_ok in Hq as [Hf Hr].
  - split; [done|]. by apply cuts_nil.
  - split; [by intros [=]|]. rewrite Hq1 in Hsq, Hr. cbn in Hsq, Hr. apply andb_true_iff in Hsq as [Hsl Hsr].
    rewrite andb_true_r in Hsr. rewrite app_nil_r in Hr. destruct (peel_reads _ _ Hb0 Hsl) as [Hrl Hsb].
    destruct (IH _ _ _ _ _ Hb Hsb) as [_ Hc1], (IH _ _ _ _ _ Hpr Hsr) as [_ Hc2].
    eapply cuts_perm; [exact Hr|done|]. cbn. rewrite <-Hrl, app_nil_r. change (w :: s2) with ([w] ++ s2). rewrite app_assoc.
    apply (cuts_both _ _ _ [_] (S n1)); [|done]. eapply cuts_then; [exact Hc1|]. eapply cuts_writer; [done|]. right. f_equal.
    apply writer_shape in Hw as (c & Hc%make_empty_count & [[_ ->]|(? & ? & ? & _)]); done.
  - rewrite Hq1 in Hsq, Hr. cbn in Hsq. apply andb_true_iff in Hsq as [Ha Hss]. rewrite forallb_forall in Hss.
    assert (Forall2 flagged cs new ∧ cuts next (concat (reads <$> cs)) s1 (concat (reads <$> new.*1)) n1) as [Hfs Hc1].
    { apply (plan_children_all _ (λ n c r s n', flagged c r ∧ cuts n (reads c) s (reads r.1) n') _ _ _ _ _ Hch) with
        (Q := λ n cs new s n', Forall2 flagged cs new ∧ cuts n (concat (reads <$> cs)) s (concat (reads <$> new.*1)) n').
      - intros n c r s n' Hc Hi. eapply IH; [done|]. by apply Hss, list_elem_of_In.
      - intros n. split; [constructor|by apply cuts_nil].
      - intros n c r s m cs' new' st m' [Hfc Hcc] [Hfs Hcs]. split; [by constructor|]. cbn. by eapply cuts_both. }
    destruct (plan_node_cuts _ _ _ _ _ _ _ _ Hn Ha Hfs) as (Hfn & cut_off & -> & Hc2). split.
    + intros [Hq2 Hr2]%orb_false_iff. cbn. rewrite (Hfn Hr2), <-Hq1. by apply Hf.
    + eapply cuts_perm; [exact Hr|done|]. by eapply cuts_then.
Qed.
End stages.

(** ** Enough fuel *)

Section fuel.
Context `{PlannerOps} {LW : PlannerLaws} (job_id : JobId) (config : PlannerConfig).

Fixpoint height (p : ExecutionPlan) : nat :=
  match p with LeafNode _ => 1 | Node _ cs => S (foldr (λ c n, height c `max` n) 0 cs) end.

Lemma height_child k cs c : c ∈ cs → height c < height (Node k cs).
Proof.
  intros Hc. cbn [height]. apply Nat.lt_succ_r.
  induction Hc as [c cs|c c' cs _ IH]; cbn; [lia|]. etrans; [exact IH|]. lia.
Qed.

(** The fuel is enough for the plan. *)
Definition enough (fuel : nat) (p : ExecutionPlan) : Prop :=
  ∀ next, plan_query_stages_internal job_id config fuel next p ≠ None.

Lemma fbind_some {A B : Type} (m : fueled A) (k : A → fueled B) :
  m ≠ None → (∀ a, m = Some (Ok a) → k a ≠ None) → (let^ a := m in k a) ≠ None.
Proof. destruct m as [[]|]; cbn; auto. Qed.

Lemma enough_children fuel next cs :
  Forall (enough fuel) cs → plan_children (plan_query_stages_internal job_id config fuel) next cs ≠ None.
Proof.
  intros Hcs. revert next. induction Hcs as [|c cs Hc _ IH]; intros next; [done|]. cbn.
  apply fbind_some; [apply Hc|]. intros [[r s] n] _. apply fbind_some; [apply IH|]. by intros [[rs ss] m] _.
Qed.

(** The plans that planning a node goes on with: the children, and the child of a node
    that coalesces the build side *)
Lemma enough_node fuel p q :
  maybe_promote_to_broadcast config p = Ok q → Forall (enough fuel) (children q.1) →
  (∀ j lhs rhs c, q.1 = Node (HashJoin j) [lhs; rhs] → peel_coalesce lhs = Ok c → enough fuel c) →
  enough (S fuel) p.
Proof.
  intros Hq Hc Hb next. cbn [plan_query_stages_internal]; unfold plan_subtree.
  apply fbind_some; [done|]. intros q' Hq'. assert (q' = q) as -> by congruence. clear Hq'.
  destruct q as [[l|k [|c cs]] f]; cbn [fst] in *; [done|by destruct k|].
  assert (∀ k' cs', cs' = c :: cs → (let^ r := plan_children (plan_query_stages_internal job_id config fuel) next cs' in
     let '(new, stages, next) := r in
     let^ r := Some (plan_node job_id config next k' cs' new stages) in
     Some (Ok (since (Node k (c :: cs), f) r))) ≠ None) as Hnode.
  { intros k' cs' ->. apply fbind_some; [by apply enough_children|]. intros [[new ss] n] _. by apply fbind_some. }
  destruct k; try by apply Hnode. destruct cs as [|rhs [|]]; try by apply Hnode.
  destruct (partition_mode j); try by apply Hnode.
  apply fbind_some; [done|]. intros b [= Hpeel]. apply fbind_some; [by eapply Hb|]. intros [[bu s1] n1] _.
  apply fbind_some; [done|]. intros w _. apply fbind_some.
  - inversion_clear Hc as [|? ? ? Hc']. inversion_clear Hc' as [|? ? Hr]. apply Hr.
  - intros [[pr s2] n2] _. by apply fbind_some.
Qed.

(** A node of one input that stays what it is *)
Lemma enough_unary fuel k c :
  match k with HashJoin _ => False | _ => True end → enough fuel c → enough (S fuel) (Node k [c]).
Proof.
  intros Hk Hc. eapply (enough_node _ _ (Node k [c], false)); [by destruct k|by constructor; [|constructor]|].
  by intros ? ? ? ? [=].
Qed.

(** A join that collects one input is left, or made a partitioned one. *)
Lemma collect_left_shape j l r q :
  maybe_promote_to_broadcast config (Node (HashJoin j) [l; r]) = Ok q → partition_mode j = CollectLeft → null_aware j = false →
  q = (Node (HashJoin j) [l; r], false) ∨
  ∃ e1 e2 n, q.1 = Node (HashJoin (with_mode Partitioned j)) [Node (Repartition (Hash e1 n)) [l]; Node (Repartition (Hash e2 n)) [r]].
Proof.
  intros Hq Hm Hn. cbn in Hq. rewrite Hm, Hn in Hq.
  assert (∀ o, (let? p := demote_collect_left_to_partitioned config j l r in Ok (p, true)) = o → o = Ok q →
    ∃ e1 e2 n, q.1 = Node (HashJoin (with_mode Partitioned j)) [Node (Repartition (Hash e1 n)) [l]; Node (Repartition (Hash e2 n)) [r]])
    as Hd.
  { intros o <- Ho. step Ho as p Hp. injection Ho as <-. apply of_df_ok in Hp. unfold build_join in Hp.
    apply with_new_children_node in Hp as ->. by eexists _, _, _. }
  repeat (case_match; [right; by eapply Hd|]). injection Hq as <-. by left.
Qed.

Lemma enough_rewritten fuel p :
  (∀ q, maybe_promote_to_broadcast config p = Ok q → enough (S fuel) p) → enough (S fuel) p.
Proof.
  intros Hp next. destruct (maybe_promote_to_broadcast config p) as [q| |] eqn:Hq; [by eapply Hp|..];
    cbn [plan_query_stages_internal]; unfold plan_subtree; by rewrite Hq.
Qed.

Lemma enough_peeled fuel a a' c :
  maybe_coalesced a a' → peel_coalesce a' = Ok c → enough fuel a →
  (∀ cs, a = Node CoalescePartitions cs → Forall (enough fuel) cs) → enough fuel c.
Proof.
  intros [->| ->] Hp Ha Hcs; [|by injection Hp as <-].
  destruct a as [|[]]; cbn in Hp; try by injection Hp as <-. destruct inputs; [done|]. injection Hp as ->.
  specialize (Hcs _ eq_refl). by apply Forall_inv in Hcs.
Qed.

(** A join that collects one input and that may be given up again *)
Lemma enough_collect fuel j a a' b :
  maybe_coalesced a a' → partition_mode j = CollectLeft → null_aware j = false →
  (∀ n, fuel ≤ n → enough n a ∧ enough n b ∧ ∀ cs, a = Node CoalescePartitions cs → Forall (enough n) cs) →
  enough (3 + fuel) (Node (HashJoin j) [a'; b]).
Proof.
  intros Ha Hm Hn Hab.
  assert (∀ n, fuel ≤ n → enough (S n) a') as Ha'.
  { intros n Hf. destruct Ha as [->| ->]; [apply Hab; lia|]. apply enough_unary; [done|]. by apply Hab. }
  apply enough_rewritten. intros q Hq. destruct (collect_left_shape _ _ _ _ Hq Hm Hn) as [->|(e1 & e2 & n & Hq1)].
  - eapply enough_node; [done|..].
    + repeat constructor; [apply Ha'; lia|apply Hab; lia].
    + intros j' l r c [= <- <- <-] Hp. eapply enough_peeled; [done..|apply Hab; lia|apply Hab; lia].
  - eapply enough_node; [done|rewrite Hq1..].
    + constructor; [|constructor; [|constructor]]; (apply enough_unary; [done|]); [apply Ha'; lia|apply Hab; lia].
    + intros j' l r c [= <- <- <-] [= <-]. apply enough_unary; [done|]. apply Ha'. lia.
Qed.

Lemma fuel_enough h p fuel : height p ≤ h → 4 * h ≤ fuel → enough fuel p.
Proof using LW.
  revert p fuel. induction h as [|h IH]; intros p fuel Hh Hf; [destruct p; cbn in Hh; lia|].
  destruct fuel as [|[|[|[|fuel]]]]; [lia..|]. apply enough_rewritten. intros q Hq.
  assert (∀ k cs n c, p = Node k cs → 4 * h ≤ n → c ∈ cs → enough n c ∧ ∀ cs', c = Node CoalescePartitions cs' → Forall (enough n) cs')
    as Hsub.
  { intros k cs n c -> Hn Hc%(height_child k). split; [apply IH; lia|]. intros cs' ->. apply Forall_forall.
    intros c' Hc'%(height_child CoalescePartitions). apply IH; lia. }
  destruct (maybe_promote_shape _ _ _ Hq) as [->|(j & l & r & -> & _ & Hl)].
  { eapply enough_node; [done|..].
    - apply Forall_forall. intros c Hc. destruct p as [|k cs]; [by apply not_elem_of_nil in Hc|]. eapply Hsub; [done|lia|done].
    - intros j lhs rhs c Hj Hp. eapply (enough_peeled _ lhs lhs); [by left|done|..];
        (eapply Hsub; [exact Hj|lia|left]). }
  assert (∀ n c, 4 * h ≤ n → c = l ∨ c = r → enough n c ∧ ∀ cs', c = Node CoalescePartitions cs' → Forall (enough n) cs') as Hlr.
  { intros n c Hn Hc. eapply Hsub; [done..|]. destruct Hc as [->| ->]; repeat constructor. }
  destruct q as [q f]. cbn [fst] in Hl. destruct Hl as [r' Hr Hn|e1 e2 n|o j' a a' b Hb Ha Hm Hs Hn].
  - eapply enough_node; [done|..].
    + constructor; [apply Hlr; [lia|by left]|]. constructor; [|constructor].
      destruct Hr as [->| ->]; [apply Hlr; [lia|by right]|]. apply enough_unary; [done|]. apply Hlr; [lia|by right].
    + intros j' lhs rhs c [= <- <- <-] Hp. eapply (enough_peeled _ l l); [by left|done|..]; (apply Hlr; [lia|by left]).
  - eapply enough_node; [done|..].
    + constructor; [|constructor; [|constructor]]; (apply enough_unary; [done|]); (apply Hlr; [lia|auto]).
    + intros j' lhs rhs c [= <- <- <-] [= <-]. apply enough_unary; [done|]. apply Hlr; [lia|auto].
  - assert (a = l ∨ a = r) as Hal by tauto. assert (b = l ∨ b = r) as Hbl by tauto.
    destruct o as [o|]; (eapply enough_node; [done|..]).
    + constructor; [|constructor]. apply (enough_collect fuel _ a); [done..|].
      intros n Hle. split_and!; (eapply Hlr; [lia|done]).
    + by intros ? ? ? ? [=].
    + constructor; [|constructor; [|constructor]]; [|apply Hlr; [lia|done]].
      destruct Ha as [->| ->]; [apply Hlr; [lia|done]|]. apply enough_unary; [done|]. apply Hlr; [lia|done].
    + intros j0 lhs rhs c [= <- <- <-] Hp. eapply enough_peeled; [done..| |]; (apply Hlr; [lia|done]).
Qed.

(** More fuel gives the same result. *)
Definition extends {A : Type} (m m' : fueled A) : Prop := m ≠ None → m' = m.

Lemma fbind_extends {A B : Type} (m m' : fueled A) (k k' : A → fueled B) :
  extends m m' → (∀ a, extends (k a) (k' a)) → extends (let^ a := m in k a) (let^ a := m' in k' a).
Proof. unfold extends. intros Hm Hk. destruct m as [[]|]; cbn; intros Hne; [rewrite Hm by done..|by destruct Hne]; cbn; auto. Qed.

Lemma extends_refl {A : Type} (m : fueled A) : extends m m.
Proof. done. Qed.

Lemma children_extends f f' :
  (∀ next c, extends (f next c) (f' next c)) → ∀ cs next, extends (plan_children f next cs) (plan_children f' next cs).
Proof.
  intros Hf. induction cs as [|c cs IH]; intros next; [done|]. cbn. apply fbind_extends; [apply Hf|]. intros [[r s] n].
  apply fbind_extends; [apply IH|]. intros [[rs ss] m]. apply extends_refl.
Qed.

Lemma internal_extends fuel next p :
  extends (plan_query_stages_internal job_id config fuel next p) (plan_query_stages_internal job_id config (S fuel) next p).
Proof.
  revert next p. induction fuel as [|fuel IH]; intros next p; [by intros []|].
  change (extends (plan_subtree job_id config (plan_query_stages_internal job_id config fuel) next p)
    (plan_subtree job_id config (plan_query_stages_internal job_id config (S fuel)) next p)).
  unfold plan_subtree. apply fbind_extends; [done|]. intros [[l|k cs] f]; [done|]. cbn [fst].
  pose proof (children_extends _ _ IH) as Hch. destruct cs as [|c cs]; [by destruct k|].
  assert (∀ k' cs' n, extends
    (let^ r := plan_children (plan_query_stages_internal job_id config fuel) n cs' in
     let '(new, stages, next) := r in
     let^ r := Some (plan_node job_id config next k' cs' new stages) in Some (Ok (since (Node k (c :: cs), f) r)))
    (let^ r := plan_children (plan_query_stages_internal job_id config (S fuel)) n cs' in
     let '(new, stages, next) := r in
     let^ r := Some (plan_node job_id config next k' cs' new stages) in Some (Ok (since (Node k (c :: cs), f) r)))) as Hnode.
  { intros k' cs' n. apply fbind_extends; [apply Hch|]. by intros [[new ss] m]. }
  destruct k; try apply Hnode. destruct cs as [|rhs [|]]; try apply Hnode. destruct (partition_mode j); try apply Hnode.
  apply fbind_extends; [done|]. intros b. apply fbind_extends; [apply IH|]. intros [[bu s1] n1].
  apply fbind_extends; [done|]. intros w. apply fbind_extends; [apply IH|]. by intros [[pr s2] n2].
Qed.
End fuel.
