(* ===== verification/ResolutionFacts.v ===== *)
(** * Lemmas on the resolution of shuffles

    Putting the readers in the place of the shuffles of a stage keeps the schema and the
    partitioning of every node, and putting the shuffles back gives the stage as it was. *)

From S2P Require Import Prelude Errors Machine Types Stage PhysicalPlan TaskPlan TaskPlanFacts Planner PlannerFacts.
From stdpp Require Import numbers gmap strings.

Section resolution.
Context `{RebuildOps} {RL : RebuildLaws}.
Abbreviation Locations := (gmap nat (gmap nat (list PartitionLocation.t))).

(** No node reads shuffle files. *)
Fixpoint readerless (p : ExecutionPlan) : bool :=
  match p with
  | LeafNode (ShuffleReader _ | RangeShuffleReader _) => false
  | LeafNode _ => true
  | Node _ cs => forallb readerless cs
  end.

Lemma fileless_readerless p : fileless p = true → readerless p = true.
Proof.
  induction p as [l|k cs IH] using plan_ind; [by destruct l|]. cbn. intros [_ Hcs]%andb_true_iff.
  induction IH as [|c cs Hc _ IHc]; [done|]. cbn in *. apply andb_true_iff in Hcs as [? ?]. by rewrite Hc, IHc.
Qed.

(** The shuffles that the planner makes *)
Definition made (u : UnresolvedShuffleExec) : Prop :=
  (∃ id schema partitioning, u = unresolved_new id schema partitioning) ∨
  ∃ id schema n, u = unresolved_new_broadcast id schema n.

(** What becomes of a child, in both directions *)
Definition resolve_child (locations : Locations) (child : ExecutionPlan) : result rewritten :=
  match child with
  | LeafNode (UnresolvedShuffle u) => let? r := resolve_shuffle locations u in Ok (LeafNode (ShuffleReader r), true)
  | _ => remove_unresolved locations child
  end.

Definition rollback_child (child : ExecutionPlan) : result rewritten :=
  match child with
  | LeafNode (ShuffleReader r) => Ok (LeafNode (UnresolvedShuffle (unresolve_reader r)), true)
  | LeafNode (RangeShuffleReader r) => Ok (LeafNode (UnresolvedShuffle (unresolve_range_reader r)), true)
  | _ => rollback_resolved child
  end.

Lemma remove_node locations k cs :
  remove_unresolved locations (Node k cs) =
    let? new := traverse (resolve_child locations) cs in of_df (replace_children_if_necessary k cs new).
Proof. done. Qed.

Lemma rollback_node k cs :
  rollback_resolved (Node k cs) = let? new := traverse rollback_child cs in of_df (replace_children_if_necessary k cs new).
Proof. done. Qed.

Lemma resolve_shuffle_back locations u r :
  resolve_shuffle locations u = Ok r → made u →
  unresolve_reader r = u ∧ sr_partitioning r = us_partitioning u ∧ sr_schema r = us_schema u.
Proof.
  unfold resolve_shuffle. destruct (locations !! _) as [p|]; [|done]. intros Hr Hu.
  destruct Hu as [(id & schema & partitioning & ->)|(id & schema & n & ->)]; cbn in Hr; by injection Hr as <-.
Qed.

(** Back to the old children *)
Lemma with_new_children_back k old new p :
  with_new_children k old new = Ok p → schema_of <$> new = schema_of <$> old → count <$> new = count <$> old →
  with_new_children k new old = Ok (Node k old).
Proof using RL.
  intros Hw Hs Hc. assert (length new = length old) as Hlen by by apply (f_equal length) in Hc; rewrite !length_fmap in Hc.
  pose proof (rebuilds_same_schema k new old (eq_sym Hs)) as Hr.
  destruct k; cbn in *; rewrite ?Hr; try done; destruct new as [|c [|]], old as [|c' [|]]; try done; injection Hc as Hc.
  - unfold range_filter_try_new in *. destruct raw_bounds; [|done]. rewrite <-Hc. by repeat case_match.
  - unfold prefix_merge_try_new in *. rewrite <-Hc. by repeat case_match.
  - unfold sort_shuffle_writer_try_new in *. by repeat case_match.
Qed.

(** The result of resolving a child goes back to the child. *)
Definition goes_back (c : ExecutionPlan) (r : rewritten) : Prop :=
  rollback_child r.1 = Ok (c, r.2) ∧ schema_of r.1 = schema_of c ∧ output_partitioning r.1 = output_partitioning c ∧
  flagged c r ∧ find_unresolved_shuffles r.1 = [].

Lemma traverse_all {A B E : Type} (f : A → outcome E B) l l' : Forall2 (λ a b, f a = Ok b) l l' → traverse f l = Ok l'.
Proof. induction 1 as [|a b l l' Hf _ IH]; [done|]. cbn. by rewrite Hf, IH. Qed.

Lemma goes_back_all {A : Type} (f : ExecutionPlan → A) cs new :
  (∀ c r, goes_back c r → f r.1 = f c) → Forall2 goes_back cs new → f <$> new.*1 = f <$> cs.
Proof. intros Hf. induction 1 as [|c r cs new Hc _ IH]; [done|]. cbn. f_equal; [by apply Hf|exact IH]. Qed.

Lemma node_goes_back k cs new r :
  Forall2 goes_back cs new → of_df (replace_children_if_necessary k cs new) = Ok r → goes_back (Node k cs) r.
Proof using RL.
  intros Hall Hr%of_df_ok. assert (Forall2 flagged cs new) as Hf by by eapply Forall2_impl; [exact Hall|]; intros ? ? (_ & _ & _ & ? & _).
  destruct (replace_flagged _ _ _ _ Hr Hf) as [Hn Hfl].
  pose proof (goes_back_all schema_of _ _ ltac:(by intros ? ? (_ & ? & _)) Hall) as Hs.
  pose proof (goes_back_all output_partitioning _ _ ltac:(by intros ? ? (_ & _ & ? & _)) Hall) as Hp.
  split_and!; [|by rewrite Hn; cbn; rewrite Hs|by rewrite Hn; cbn; rewrite Hp|done|].
  - rewrite Hn. cbn [rollback_child]. rewrite rollback_node.
    assert (traverse rollback_child new.*1 = Ok (zip cs new.*2)) as ->.
    { clear -Hall. apply traverse_all. induction Hall as [|c r cs new (Hr & _) _ IH]; constructor; [done|exact IH]. }
    assert (existsb snd (zip cs new.*2) = existsb snd new) as Hex.
    { clear -Hall. induction Hall as [|c r cs new _ _ IH]; [done|]. cbn. by rewrite IH. }
    assert ((zip cs new.*2).*1 = cs) as Hfst.
    { apply fst_zip. rewrite length_fmap. by rewrite (Forall2_length _ _ _ Hall). }
    unfold replace_children_if_necessary in *. cbn [obind]. rewrite Hex, Hfst, length_zip, !length_fmap.
    rewrite <-(Forall2_length _ _ _ Hall), Nat.min_id, Nat.eqb_refl in *. cbn in *. destruct (existsb snd new).
    + destruct (with_new_children k cs new.*1) as [p| |] eqn:Hw; [|done..]. cbn in Hr. injection Hr as <-.
      rewrite (with_new_children_back _ _ _ _ Hw Hs); [done|]. apply goes_back_all; [|done].
      intros c r (_ & _ & Hc & _). unfold count. by rewrite Hc.
    + injection Hr as <-. cbn in Hn |- *. by rewrite Hn.
  - rewrite Hn, reads_node. clear -Hall. induction Hall as [|c r cs new (_ & _ & _ & _ & Hu) _ IH]; [done|]. cbn. by rewrite Hu.
Qed.

Lemma resolve_goes_back locations p r :
  resolve_child locations p = Ok r → readerless p = true → Forall made (find_unresolved_shuffles p) → goes_back p r.
Proof using RL.
  revert r. induction p as [l|k cs IH] using plan_ind; intros r Hr Hl Hm.
  - destruct l; try (by injection Hr as <-); try done. cbn in Hr. step Hr as s Hs. injection Hr as <-.
    apply Forall_inv in Hm. destruct (resolve_shuffle_back _ _ _ Hs Hm) as (Hu & Hp & Hsch).
    split_and!; cbn; [by rewrite Hu|done|done|by intros [=]|done].
  - cbn [resolve_child] in Hr. rewrite remove_node in Hr. step Hr as new Hnew. apply traverse_ok in Hnew.
    eapply node_goes_back; [|exact Hr]. clear Hr. cbn in Hl, Hm.
    induction Hnew as [|c r' cs new Hc _ IHc]; [constructor|]. inversion_clear IH as [|? ? Hc' Hcs].
    cbn in Hl, Hm. apply andb_true_iff in Hl as [Hl Hls]. apply Forall_app in Hm as [Hm Hms].
    constructor; [by apply Hc'|by apply IHc].
Qed.
End resolution.
