(* ===== verification/PlannerRows.v ===== *)
(** * The rows of the stages of a plan

    Running the stages of a plan one after the other: what a stage writes ([written]),
    what a shuffle reads of it ([shuffled]), and that the stages give rows that the plan
    can give. *)

From S2P Require Import Prelude Errors Machine Types Stage PhysicalPlan TaskPlan TaskPlanFacts Planner PlannerFacts.
From stdpp Require Import numbers gmap strings list.

(** The partition of a row under a hash partitioning *)
Class BucketOps `{ExecOps} : Type := { bucket : list Expr → nat → Row → nat }.

Section rows.
Context `{PlannerOps} `{!ExecOps} `{!BucketOps}.

(** All partitions of a plan can give [v]. *)
Definition all_rows (env : UnresolvedShuffleExec → nat → list Row → Prop) (p : ExecutionPlan) (v : list (list Row)) : Prop :=
  length v = count p ∧ ∀ j rows, v !! j = Some rows → exec env p j rows.

(** ** Running the stages *)

(** What the partitions of a shuffle are, if [outs] are the partitions that the stages
    wrote: a broadcast reads all of them, in some order. *)
Definition shuffled (outs : list (list (list Row))) (u : UnresolvedShuffleExec) (i : nat) (rows : list Row) : Prop :=
  match outs !! (us_stage_id u - 1) with
  | Some v => if us_broadcast u then ∃ v', v' ≡ₚ v ∧ rows = concat v' else v !! i = Some rows
  | None => False
  end.

Definition in_bucket (exprs : list Expr) (n i : nat) (v : list (list Row)) : list Row :=
  filter (λ r, bucket exprs n r = i) (concat v).

(** What a stage writes: the partitions of its plan, or the rows of all of them by their
    bucket, in some order *)
Definition written (env : UnresolvedShuffleExec → nat → list Row → Prop) (w : ExecutionPlan) (v : list (list Row)) : Prop :=
  match w with
  | Node (ShuffleWriter _ _) [c] => all_rows env c v
  | Node (SortShuffleWriter _ _ (Hash exprs n)) [c] =>
      ∃ v0, all_rows env c v0 ∧ length v = n ∧ ∀ i rows, v !! i = Some rows → rows ≡ₚ in_bucket exprs n i v0
  | _ => False
  end.

(** [stages], the first of which has the number [S next], wrote their part of [outs]. *)
Definition ran (outs : list (list (list Row))) (next : nat) (stages : list ExecutionPlan) : Prop :=
  ∀ i w, stages !! i = Some w → ∃ v, outs !! (next + i) = Some v ∧ written (shuffled outs) w v.

(** ** What is relied on of DataFusion's operators *)

(** Coalescing partitions gives their rows in some order; a hash repartitioning gives the
    rows of a bucket in some order, and a round robin one rows of its input; the optimizer
    rule keeps the rows of a plan. *)
Class OperatorLaws : Prop := {
  coalesce_rows i v rows : op_rows CoalescePartitions i [v] rows ↔ rows ≡ₚ concat v;
  hash_rows exprs n i v rows :
    op_rows (Repartition (Hash exprs n)) i [v] rows ↔ i < n ∧ rows ≡ₚ in_bucket exprs n i v;
  round_robin_rows n i v rows : op_rows (Repartition (RoundRobinBatch n)) i [v] rows → i < n ∧ rows ⊆ concat v;
  ensure_rows config p p' env v' :
    ensure_requirements config p = Ok p' → all_rows env p' v' → ∃ v, all_rows env p v ∧ concat v ≡ₚ concat v';
}.

(** ** Refinement *)

(** [p'] has as many partitions as [p], and gives rows that [p] can give. *)
Definition refines (env : UnresolvedShuffleExec → nat → list Row → Prop) (p' p : ExecutionPlan) : Prop :=
  count p' = count p ∧ ∀ i rows, exec env p' i rows → exec env p i rows.

Lemma refines_refl env p : refines env p p.
Proof. done. Qed.

Lemma refines_trans env p1 p2 p3 : refines env p1 p2 → refines env p2 p3 → refines env p1 p3.
Proof. intros [Hc12 He12] [Hc23 He23]. split; [congruence|auto]. Qed.

Lemma refines_all env p' p v : refines env p' p → all_rows env p' v → all_rows env p v.
Proof. intros [Hc He] [Hl Hv]. split; [congruence|eauto]. Qed.

Lemma refines_inputs env i cs' cs flags vs :
  Forall2 (refines env) cs' cs → inputs_ok (exec env) i cs' flags vs → inputs_ok (exec env) i cs flags vs.
Proof.
  intros Hcs. revert flags vs. induction Hcs as [|c' c cs' cs Hc _ IH]; intros flags vs; [done|].
  destruct flags as [|flag flags], vs as [|v vs]; [done..|]. cbn. intros [Hv Hvs]. split; [|by apply IH].
  destruct flag; [by apply (refines_all _ c')|]. destruct Hv as (r & -> & Hr). exists r. split; [done|]. by apply Hc.
Qed.

Lemma refines_union env i cs' cs rows :
  Forall2 (refines env) cs' cs → union_rows (exec env) cs' i rows → union_rows (exec env) cs i rows.
Proof.
  intros Hcs. revert i. induction Hcs as [|c' c cs' cs Hc _ IH]; intros i; [done|]. rewrite !union_rows_cons.
  destruct Hc as [Hc He]. rewrite Hc. case_match; [apply He|apply IH].
Qed.

Lemma exec_node env k cs i rows :
  k ≠ UnionExec →
  exec env (Node k cs) i rows =
    ∃ views, inputs_ok (exec env) i cs (collects k (length cs)) views ∧ op_rows (local_kind k i).1 (local_kind k i).2 views rows.
Proof. by destruct k. Qed.

Context {LW : PlannerLaws}.

Lemma refines_node env k cs' cs : Forall2 (refines env) cs' cs → refines env (Node k cs') (Node k cs).
Proof using LW.
  intros Hcs. split.
  - apply node_count. induction Hcs as [|c' c cs' cs [Hc _] _ IH]; [done|]. cbn. by f_equal.
  - intros i rows. assert (k = UnionExec ∨ k ≠ UnionExec) as [->|Hk] by (destruct k; auto).
    + cbn [exec]. by apply refines_union.
    + rewrite !exec_node by done. intros (views & Hin & Hop). exists views. split; [|done].
      rewrite (Forall2_length _ _ _ Hcs) in Hin. by eapply refines_inputs.
Qed.

Context {RW : OperatorLaws}.

Lemma make_empty_refines env p r : make_empty_exec_serde_safe p = Ok r → refines env r.1 p.
Proof using LW RW.
  revert r. induction p as [l|k cs IH] using plan_ind; intros r Hr.
  - destruct l; cbn in Hr; try (injection Hr as <-; apply refines_refl).
    destruct (n <=? 1); injection Hr as <-; [apply refines_refl|]. split; [done|]. intros i rows (views & Hin & Hop).
    cbn in Hin. destruct views as [|v [|]]; [done| |by destruct Hin]. destruct Hin as [[Hl Hv] _]. cbn in Hop.
    apply round_robin_rows in Hop as [Hi Hsub]. destruct v as [|rows0 [|]]; [done| |done].
    destruct (Hv 0 rows0 eq_refl) as [_ ->]. cbn in Hsub. cbn. split; [done|]. by apply list_nil_subseteq.
  - cbn [make_empty_exec_serde_safe] in Hr. step Hr as new Hnew. apply traverse_ok in Hnew.
    destruct (replace_flagged _ _ _ _ Hr) as [-> _].
    { eapply Forall2_impl; [exact Hnew|]. intros c r' Hc. by apply make_empty_ok in Hc as []. }
    apply refines_node. clear Hr. induction Hnew as [|c r' cs new Hc _ IHc]; [constructor|].
    inversion_clear IH as [|? ? Hc' Hcs]. cbn. constructor; [by apply Hc'|by apply IHc].
Qed.

(** ** Stages that ran *)

Lemma ran_app outs next s1 s2 : ran outs next (s1 ++ s2) ↔ ran outs next s1 ∧ ran outs (next + length s1) s2.
Proof.
  split.
  - intros Hr. split; intros i w Hw.
    + apply Hr. by apply lookup_app_l_Some.
    + rewrite <-Nat.add_assoc. apply Hr. rewrite lookup_app_r by lia. by rewrite Nat.add_comm, Nat.add_sub.
  - intros [Hr1 Hr2] i w [Hw|[Hi Hw]]%lookup_app_Some; [by apply Hr1|].
    destruct (Hr2 _ _ Hw) as (v & Hv & Hwr). exists v. split; [|done]. rewrite <-Hv. f_equal. lia.
Qed.

Lemma ran_cons outs next w stages :
  ran outs next (w :: stages) ↔ (∃ v, outs !! next = Some v ∧ written (shuffled outs) w v) ∧ ran outs (S next) stages.
Proof.
  change (w :: stages) with ([w] ++ stages). rewrite ran_app. cbn [length]. rewrite Nat.add_1_r. apply and_iff_compat_r. split.
  - intros Hr. destruct (Hr 0 w eq_refl) as (v & Hv & ?). rewrite Nat.add_0_r in Hv. eauto.
  - intros (v & Hv & Hw) [|i] w' Hi; [|done]. injection Hi as <-. rewrite Nat.add_0_r. eauto.
Qed.

Context (job_id : JobId) (config : PlannerConfig).

(** The shuffle of a stage that writes the partitions of a plan *)
Lemma cut_refines outs next plan u w next' :
  cut job_id next plan None = Ok (u, w, next') → ran outs next [w] → refines (shuffled outs) u plan.
Proof using LW RW.
  intros (-> & -> & Hw)%cut_ok [(v & Hv & Hwr) _]%ran_cons.
  apply writer_shape in Hw as (c & Hc & [[_ ->]|(? & ? & ? & _)]); [|done]. cbn in Hwr.
  pose proof (make_empty_refines (shuffled outs) _ _ Hc) as Href. split.
  - destruct Href as [<- _]. done.
  - intros i rows Hrows. cbn in Hrows. unfold shuffled in Hrows. cbn in Hrows. rewrite Nat.sub_0_r, Hv in Hrows.
    apply Href. by apply Hwr.
Qed.

Lemma cut_branches_refines outs next branches new stages next' cs :
  cut_branches job_id next branches = Ok (new, stages, next') → ran outs next stages →
  Forall2 (refines (shuffled outs)) branches.*1 cs → Forall2 (refines (shuffled outs)) new.*1 cs.
Proof using LW RW.
  revert next new stages next' cs. induction branches as [|b branches IH]; intros next new stages next' cs Hb Hran Hcs; cbn [cut_branches] in Hb.
  { injection Hb as <- <- <-. done. }
  destruct cs as [|c cs]; [by inversion Hcs|]. apply Forall2_cons_1 in Hcs as [Hc Hcs].
  destruct (can_stay_inline b.1).
  - step Hb as [[new1 stages1] next1] Hrec. injection Hb as <- <- <-. cbn. constructor; [done|by eapply IH].
  - step Hb as [[u w] next1] Hcut. step Hb as [[new1 stages1] next2] Hrec. injection Hb as <- <- <-.
    change (w :: stages1) with ([w] ++ stages1) in Hran. apply ran_app in Hran as [Hran1 Hran2].
    pose proof (cut_refines _ _ _ _ _ _ Hcut Hran1). destruct (cut_ok _ _ _ _ _ _ _ Hcut) as [-> _]. cbn. constructor.
    + by eapply refines_trans.
    + eapply IH; [done| |done]. cbn in Hran2. by rewrite Nat.add_1_r in Hran2.
Qed.

(** A node that coalesces the shuffle of its input *)
Lemma coalesce_refines outs next input input' c u w next' :
  ensure_requirements config input = Ok input' → cut job_id next input' None = Ok (u, w, next') → ran outs next [w] →
  refines (shuffled outs) input c → refines (shuffled outs) (Node CoalescePartitions [u]) (Node CoalescePartitions [c]).
Proof using LW RW.
  intros He Hcut Hran Hin. split; [done|]. pose proof (cut_refines _ _ _ _ _ _ Hcut Hran) as Hu.
  intros i rows ([|v [|]] & Hv & Hop); [done| |by destruct Hv as [_ []]]. destruct Hv as [Hv _]. apply coalesce_rows in Hop.
  apply (refines_all _ _ _ _ Hu) in Hv. destruct (ensure_rows _ _ _ _ _ He Hv) as (v1 & Hv1 & Hperm).
  apply (refines_all _ _ _ _ Hin) in Hv1. exists [v1]. split; [done|]. apply coalesce_rows. by rewrite Hop.
Qed.

(** The shuffle in the place of a hash repartitioning *)
Lemma hash_refines outs next input input' c u w next' exprs n :
  ensure_requirements config input = Ok input' → cut job_id next input' (Some (Hash exprs n)) = Ok (u, w, next') →
  ran outs next [w] → refines (shuffled outs) input c → refines (shuffled outs) u (Node (Repartition (Hash exprs n)) [c]).
Proof using LW RW.
  intros He (-> & -> & Hw)%cut_ok [(v & Hv & Hwr) _]%ran_cons Hin.
  apply writer_shape in Hw as (c' & Hc & [[? _]|(e' & n' & [= <- <-] & _ & ->)]); [done|].
  pose proof (make_empty_refines (shuffled outs) _ _ Hc) as Href.
  destruct Hwr as (v0 & Hv0 & Hlen & Hb). apply (refines_all _ _ _ _ Href) in Hv0.
  destruct (ensure_rows _ _ _ _ _ He Hv0) as (v1 & Hv1 & Hperm). apply (refines_all _ _ _ _ Hin) in Hv1.
  split; [done|]. intros i rows Hrows. cbn in Hrows. unfold shuffled in Hrows. cbn in Hrows. rewrite Nat.sub_0_r, Hv in Hrows.
  exists [v1]. split; [done|]. apply hash_rows. split; [rewrite <-Hlen; by eapply lookup_lt_Some|].
  rewrite (Hb _ _ Hrows). unfold in_bucket. by rewrite Hperm.
Qed.

(** The rows that the readers of a broadcast get are those of the build side, which has
    one partition. *)
Lemma broadcast_rows env lhs build v v' :
  peel_coalesce lhs = Ok build → well_shaped lhs = true → count lhs = 1 → all_rows env build v → v' ≡ₚ v →
  all_rows env lhs [concat v'].
Proof using RW.
  intros Hp Hs Hone Hv Hperm. split; [by rewrite Hone|]. intros [|j] rows [= <-].
  assert (peel_coalesce lhs = Ok lhs → exec env lhs 0 (concat v')) as Hself.
  { intros Hp'. assert (build = lhs) as -> by congruence. destruct Hv as [Hl Hv]. rewrite Hone in Hl.
    destruct v as [|r [|]]; [done| |done]. apply Permutation_singleton_r in Hperm as ->. cbn. rewrite app_nil_r. by apply (Hv 0). }
  destruct lhs as [|[]]; try (by apply Hself). cbn in Hp, Hs. destruct inputs as [|c [|]]; [done| |done]. injection Hp as ->.
  exists [v]. split; [done|]. apply coalesce_rows. by rewrite Hperm.
Qed.

Context {PL : PlanLaws}.

Lemma broadcast_refines outs next j lhs rhs build0 build w probe :
  partition_mode j = CollectLeft → peel_coalesce lhs = Ok build0 → well_shaped lhs = true → count lhs = 1 →
  create_shuffle_writer_with_config job_id (S next) build None = Ok w → ran outs next [w] →
  refines (shuffled outs) build build0 → refines (shuffled outs) probe rhs →
  refines (shuffled outs)
    (Node (HashJoin j) [LeafNode (UnresolvedShuffle (unresolved_new_broadcast (writer_stage_id w) (schema_of w) (count build))); probe])
    (Node (HashJoin j) [lhs; rhs]).
Proof using LW RW PL.
  intros Hm Hp Hs Hone Hw [(v & Hv & Hwr) _]%ran_cons Hb Hpr.
  pose proof (proj1 (writer_ok _ _ _ _ _ Hw)) as Hid. apply writer_shape in Hw as (c & Hc & [[_ ->]|(? & ? & ? & _)]); [|done].
  assert (all_rows (shuffled outs) build0 v) as Hall.
  { eapply refines_all; [exact Hb|]. eapply refines_all; [by apply make_empty_refines|done]. }
  split.
  - destruct Hpr as [Hpr _]. unfold count in *. cbn [output_partitioning node_partitioning fmap list_fmap].
    by rewrite !collect_left_partition_count.
  - intros i rows. rewrite !exec_node by done. assert (collects (HashJoin j) 2 = [true; false]) as Hcol by by cbn; rewrite Hm.
    cbn [length]. rewrite Hcol. intros ([|vl [|vr [|]]] & Hin & Hop); [done|by destruct Hin as [_ []]| |by destruct Hin as (_ & _ & [])].
    destruct Hin as ([Hll Hvl] & (r & -> & Hr) & _). destruct vl as [|rows0 [|]]; [done| |done].
    specialize (Hvl 0 rows0 eq_refl). cbn in Hvl. unfold shuffled in Hvl. cbn in Hvl. rewrite Nat.sub_0_r, Hv in Hvl.
    destruct Hvl as (v' & Hperm & ->). exists [[concat v']; [r]]. split; [|done]. split; [by eapply broadcast_rows|split; [|done]].
    exists r. split; [done|]. by apply Hpr.
Qed.

(** ** The stages of a plan *)

(** The planner leaves the joins of the plan as they are, the build side of a join that
    collects it has one partition, and all repartitionings are by hash. *)
Definition node_left (p : ExecutionPlan) : Prop :=
  maybe_promote_to_broadcast config p = Ok (p, false) ∧
  match p with
  | Node (Repartition partitioning) _ => match partitioning with Hash _ _ => True | _ => False end
  | Node (HashJoin j) (lhs :: _) => partition_mode j = CollectLeft → count lhs = 1
  | _ => True
  end.

Inductive left_alone : ExecutionPlan → Prop :=
| Left_leaf l : left_alone (LeafNode l)
| Left_node k cs : node_left (Node k cs) → Forall left_alone cs → left_alone (Node k cs).

Lemma plan_node_refines outs next k cs new stages p stages' next' cut_off :
  plan_node job_id config next k cs new stages = Ok (p, stages', next') → arity_ok k (length cs) = true →
  Forall2 flagged cs new → node_left (Node k cs) → stages' = stages ++ cut_off → ran outs next cut_off →
  Forall2 (refines (shuffled outs)) new.*1 cs → refines (shuffled outs) p.1 (Node k cs).
Proof using LW RW.
  intros Hp Ha Hf [_ Hk] -> Hran Hcs.
  assert (∀ k new, Forall2 flagged cs new → Forall2 (refines (shuffled outs)) new.*1 cs → ∀ p,
    replace_children_if_necessary k cs new = Ok p → refines (shuffled outs) p.1 (Node k cs)) as Hreplace.
  { clear -LW. intros k new Hf Hcs p Hp. destruct (replace_flagged _ _ _ _ Hp Hf) as [-> _]. by apply refines_node. }
  destruct k; cbn [plan_node] in Hp;
    try (step Hp as p' Hr; injection Hp as -> _ _; by eapply Hreplace).
  { step Hp as [[new1 stages1] next1] Hb. step Hp as p' Hr. injection Hp as -> ->%app_inv_head <-.
    eapply Hreplace; [|by eapply cut_branches_refines|done]. by apply (cut_branches_cuts _ _ _ _ _ _ Hb). }
  all: apply Nat.eqb_eq in Ha; destruct cs as [|c [|]]; [done| |done].
  all: apply Forall2_cons_inv_l in Hf as (r & ? & Hc & ->%Forall2_nil_inv_l & ->).
  all: apply Forall2_cons_1 in Hcs as [Hrc _].
  - step Hp as input He. step Hp as [[u w] next1] Hw. step Hp as p' Hr. injection Hp as -> <-%app_inv_head <-.
    apply replace_one in Hr as [_ ->]. by eapply coalesce_refines.
  - step Hp as [[u w] next1] Hw. step Hp as p' Hr. injection Hp as -> <-%app_inv_head <-.
    apply replace_one in Hr as [_ ->]. apply refines_node. constructor; [|constructor].
    eapply refines_trans; [by eapply cut_refines|done].
  - destruct p0; try done. step Hp as input He. step Hp as [[u w] next1] Hw. injection Hp as <- <-%app_inv_head <-.
    by eapply hash_refines.
Qed.

Lemma internal_refines outs fuel next p rest stages next' :
  plan_query_stages_internal job_id config fuel next p = Some (Ok (rest, stages, next')) → well_shaped p = true → left_alone p →
  ran outs next stages → refines (shuffled outs) rest.1 p.
Proof using All.
  revert next p rest stages next'. induction fuel as [|fuel IH]; [done|]. intros next p rest stages next' Hp%internal_planned Hs Hl Hran.
  destruct Hl as [l|k cs Hleft Hcs].
  { destruct Hp as [q Hq _|q j lhs rhs build0 build s1 n1 w probe s2 n2 join Hq Hq1 _ _ _ _ _ _|
      q k cs new s1 n1 rest s2 n2 Hq Hq1 _ _ _ _]; cbn in Hq; injection Hq as <-; done. }
  assert (∀ q, maybe_promote_to_broadcast config (Node k cs) = Ok q → q = (Node k cs, false)) as Hpromote.
  { destruct Hleft as [Hq0 _]. intros q Hq. congruence. }
  destruct Hp as [q Hq _|q j lhs rhs build0 build s1 n1 w probe s2 n2 join Hq Hq1 Hm Hb0 Hb Hw Hpr ->|
    q k' cs' new s1 n1 rest s2 n2 Hq Hq1 Hne _ Hch Hn]; apply Hpromote in Hq as ->; [done|injection Hq1 as -> ->..]; cbn in Hs.
  - apply andb_true_iff in Hs as [Hsl Hsr]. rewrite andb_true_r in Hsr. destruct (peel_reads _ _ Hb0 Hsl) as [_ Hsb].
    apply Forall_cons in Hcs as [Hll [Hlr _]%Forall_cons].
    destruct (internal_cuts _ _ _ _ _ _ _ _ Hb Hsb) as [_ [-> _ _ _]].
    apply ran_app in Hran as [Hran1 Hran]. change (w :: s2) with ([w] ++ s2) in Hran. apply ran_app in Hran as [Hranw Hran2].
    cbn in Hran2. rewrite Nat.add_1_r in Hran2. eapply broadcast_refines; try done; [by apply Hleft| |by eapply IH].
    eapply IH; [done..| |done]. destruct lhs as [|[]]; try (by injection Hb0 as <-). destruct inputs; [done|].
    injection Hb0 as ->. inversion_clear Hll as [|? ? _ Hc]. by apply Forall_cons in Hc as [].
  - apply andb_true_iff in Hs as [Ha Hss]. rewrite forallb_forall in Hss.
    assert (Forall2 flagged cs' new ∧ n1 = next + length s1 ∧ (ran outs next s1 → Forall2 (refines (shuffled outs)) new.*1 cs')) as (Hf & -> & Hr).
    { rewrite list.Forall_forall in Hcs.
      apply (plan_children_all _ (λ n c r s n', flagged c r ∧ n' = n + length s ∧ (ran outs n s → refines (shuffled outs) r.1 c))
        _ _ _ _ _ Hch) with (Q := λ n cs new s n', Forall2 flagged cs new ∧ n' = n + length s ∧
          (ran outs n s → Forall2 (refines (shuffled outs)) new.*1 cs)).
      - intros n c r s n' Hc Hi. assert (well_shaped c = true) as Hsc by by apply Hss, list_elem_of_In.
        destruct (internal_cuts _ _ _ _ _ _ _ _ Hi Hsc) as [Hfc [-> _ _ _]]. split_and!; [done..|]. intros Hr. eapply IH; eauto.
      - intros n. split_and!; [constructor|cbn; lia|constructor].
      - intros n c r s m cs0 new' st m' (Hfc & -> & Hrc) (Hfs & -> & Hrs). split_and!; [by constructor|rewrite length_app; lia|].
        intros [Hr1 Hr2]%ran_app. cbn. constructor; auto. }
    destruct (plan_node_cuts _ _ _ _ _ _ _ _ _ _ Hn Ha Hf) as (_ & cut_off & -> & _). apply ran_app in Hran as [Hran1 Hran2].
    cbn [fst]. eapply plan_node_refines; [exact Hn|done..|by apply Hr].
Qed.

(** A plan without shuffles does not look at them. *)
Lemma exec_env env env' p i rows : find_unresolved_shuffles p = [] → exec env p i rows → exec env' p i rows.
Proof.
  revert i rows. induction p as [l|k cs IH] using plan_ind; intros i rows Hr; [by destruct l|].
  rewrite reads_node in Hr. assert (Forall (λ c, ∀ i rows, exec env c i rows → exec env' c i rows) cs) as Hcs.
  { induction IH as [|c cs Hc _ IHc]; [constructor|]. cbn in Hr. apply app_eq_nil in Hr as [Hr Hrs].
    constructor; [intros; by apply Hc|by apply IHc]. }
  clear IH Hr. assert (k = UnionExec ∨ k ≠ UnionExec) as [->|Hk] by (destruct k; auto).
  - cbn [exec]. revert i. induction Hcs as [|c cs Hc _ IH]; intros i; [done|]. rewrite !union_rows_cons. case_match; auto.
  - rewrite !exec_node by done. intros (views & Hin & Hop). exists views. split; [|done]. clear Hop. revert Hin.
    generalize (collects k (length cs)) as flags. revert views. induction Hcs as [|c cs Hc _ IH]; intros views flags; [done|].
    destruct flags as [|flag flags], views as [|v views]; [done..|]. cbn. intros [Hv Hvs]. split; [|by apply IH].
    destruct flag; [destruct Hv; split; eauto|]. destruct Hv as (r & -> & Hr). eauto.
Qed.
End rows.
