(* ===== verification/BuilderFacts.v ===== *)
(** * Lemmas on the stages of a new job

    The stages of a plan hold one shuffle writer each, at their root, so that visiting them
    finds for each stage the stages it reads and the stages that read it. *)

From S2P Require Import Prelude Errors Machine Types Stage StageSteps PhysicalPlan TaskPlan TaskPlanFacts Planner PlannerFacts.
From stdpp Require Import numbers gmap strings list.

(** ** Writers *)

Section writers.
Context `{PlannerOps} {LW : PlannerLaws} (job_id : JobId) (config : PlannerConfig).

(** A stage: a writer over a plan without writers *)
Definition is_stage (w : ExecutionPlan) : Prop :=
  ∃ k c, w = Node k [c] ∧ is_writer_kind k = true ∧ fileless c = true.

Lemma fileless_node k cs :
  fileless (Node k cs) = true ↔ is_writer_kind k = false ∧ Forall (λ c, fileless c = true) cs.
Proof. cbn. by rewrite andb_true_iff, negb_true_iff, forallb_forall, Stdlib.Lists.List.Forall_forall. Qed.

Lemma replace_fileless k cs new r :
  replace_children_if_necessary k cs new = Ok r → is_writer_kind k = false → Forall (λ c, fileless c = true) cs →
  Forall (λ c, fileless c = true) new.*1 → fileless r.1 = true.
Proof. intros [->| ->]%replace_node Hk Hcs Hnew; by apply fileless_node. Qed.

Lemma make_empty_fileless p r : make_empty_exec_serde_safe p = Ok r → fileless p = true → fileless r.1 = true.
Proof.
  revert r. induction p as [l|k cs IH] using plan_ind; intros r Hr Hp.
  { destruct l; cbn in Hr; try (by injection Hr as <-). destruct (n <=? 1); by injection Hr as <-. }
  cbn [make_empty_exec_serde_safe] in Hr. step Hr as new Hnew. apply traverse_ok in Hnew.
  apply fileless_node in Hp as [Hk Hcs]. eapply replace_fileless; [done..|]. clear Hr.
  induction Hnew as [|c r' cs new Hc _ IHc]; [constructor|]. inversion_clear IH. inversion_clear Hcs. cbn. constructor; auto.
Qed.

Lemma writer_is_stage id plan partitioning w :
  create_shuffle_writer_with_config job_id id plan partitioning = Ok w → fileless plan = true → is_stage w.
Proof.
  intros (c & Hc & Hw)%writer_shape Hp. apply make_empty_fileless in Hc; [|done].
  destruct Hw as [[_ ->]|(exprs & n & _ & _ & ->)]; eexists _, _; done.
Qed.

Lemma cut_is_stage next plan partitioning u w next' :
  cut job_id next plan partitioning = Ok (u, w, next') → fileless plan = true → fileless u = true ∧ is_stage w.
Proof. intros (_ & -> & Hw)%cut_ok Hp. split; [done|]. by eapply writer_is_stage. Qed.

Lemma cut_branches_fileless next branches new stages next' :
  cut_branches job_id next branches = Ok (new, stages, next') → Forall (λ c, fileless c = true) branches.*1 →
  Forall (λ c, fileless c = true) new.*1 ∧ Forall is_stage stages.
Proof.
  revert next new stages next'. induction branches as [|b branches IH]; intros next new stages next' Hr Hb; cbn [cut_branches] in Hr.
  { by injection Hr as <- <- <-. }
  cbn in Hb. apply Forall_cons in Hb as [Hb Hbs]. destruct (can_stay_inline b.1).
  - step Hr as [[new1 stages1] next1] Hrec. injection Hr as <- <- <-. destruct (IH _ _ _ _ Hrec Hbs) as [Hn Hs].
    split; [by constructor|done].
  - step Hr as [[u w] next1] Hcut. step Hr as [[new1 stages1] next2] Hrec. injection Hr as <- <- <-.
    destruct (IH _ _ _ _ Hrec Hbs) as [Hn Hs], (cut_is_stage _ _ _ _ _ _ Hcut Hb). split; by constructor.
Qed.

Lemma plan_node_fileless next k cs new stages p stages' next' :
  plan_node job_id config next k cs new stages = Ok (p, stages', next') → is_writer_kind k = false →
  Forall (λ c, fileless c = true) cs → Forall (λ c, fileless c = true) new.*1 → Forall is_stage stages →
  fileless p.1 = true ∧ Forall is_stage stages'.
Proof using LW.
  intros Hp Hk Hcs Hnew Hst.
  destruct k; try done; cbn [plan_node] in Hp;
    try (step Hp as p' Hr; injection Hp as -> <- _; split; [by eapply replace_fileless|done]).
  { step Hp as [[new1 stages1] next1] Hb. step Hp as p' Hr. injection Hp as -> <- <-.
    destruct (cut_branches_fileless _ _ _ _ _ Hb Hnew). split; [by eapply replace_fileless|by apply Forall_app]. }
  all: destruct new as [|[input f] new]; [done || by destruct p0|]; cbn in Hnew; apply Forall_cons in Hnew as [Hi _].
  - step Hp as input' He. apply ensure_fileless in He; [|done]. step Hp as [[u w] next1] Hw. step Hp as p' Hr. injection Hp as -> <- <-.
    destruct (cut_is_stage _ _ _ _ _ _ Hw He). split; [|apply Forall_app; by repeat constructor].
    eapply replace_fileless; [done..|]. by repeat constructor.
  - step Hp as [[u w] next1] Hw. step Hp as p' Hr. injection Hp as -> <- <-.
    destruct (cut_is_stage _ _ _ _ _ _ Hw Hi). split; [|apply Forall_app; by repeat constructor].
    eapply replace_fileless; [done..|]. by repeat constructor.
  - destruct p0; try (by injection Hp as <- <- <-). step Hp as input' He. apply ensure_fileless in He; [|done].
    step Hp as [[u w] next1] Hw. injection Hp as <- <- <-.
    destruct (cut_is_stage _ _ _ _ _ _ Hw He). split; [done|apply Forall_app; by repeat constructor].
Qed.

Lemma lowered_fileless j l r p :
  lowered j l r p → fileless l = true → fileless r = true → fileless p = true.
Proof.
  assert (∀ a a', maybe_coalesced a a' → fileless a = true → fileless a' = true) as Hc.
  { intros a a' [->| ->] Ha; [done|]. cbn. by rewrite Ha. }
  intros Hl Hwl Hwr. destruct Hl as [r' Hr _|e1 e2 n|o j' a a' b Hab Ha _ _ _]; [cbn..|].
  - by rewrite (Hc _ _ Hr Hwr), Hwl.
  - by rewrite Hwl, Hwr.
  - destruct o; cbn; destruct Hab as [[-> ->]|[-> ->]]; rewrite (Hc _ _ Ha); by rewrite ?Hwl, ?Hwr.
Qed.

Lemma maybe_promote_fileless p q :
  maybe_promote_to_broadcast config p = Ok q → fileless p = true → fileless q.1 = true.
Proof using LW.
  intros [->|(j & l & r & -> & _ & Hl)]%maybe_promote_shape; [done|]. cbn. rewrite andb_true_r.
  intros []%andb_true_iff. by eapply lowered_fileless.
Qed.

Lemma internal_fileless fuel next p rest stages next' :
  plan_query_stages_internal job_id config fuel next p = Some (Ok (rest, stages, next')) → fileless p = true →
  fileless rest.1 = true ∧ Forall is_stage stages.
Proof using LW.
  revert next p rest stages next'. induction fuel as [|fuel IH]; [done|]. intros next p rest stages next' Hp%internal_planned Hs.
  destruct Hp as [q Hq Hc|q j lhs rhs build0 build s1 n1 w probe s2 n2 join Hq Hq1 Hm Hb0 Hb Hw Hpr ->|
    q k cs new s1 n1 rest s2 n2 Hq Hq1 Hne Hnb Hch Hn];
    pose proof (maybe_promote_fileless _ _ Hq Hs) as Hsq; [by split| |]; rewrite Hq1 in Hsq;
    apply fileless_node in Hsq as [Hk Hcs].
  - apply Forall_cons in Hcs as [Hl [Hr _]%Forall_cons].
    assert (fileless build0 = true) as Hwb.
    { destruct lhs as [|[]]; try (by injection Hb0 as <-). apply fileless_node in Hl as [_ Hl]. destruct inputs; [done|].
      injection Hb0 as ->. by apply Forall_cons in Hl as []. }
    destruct (IH _ _ _ _ _ Hb Hwb) as [Hb1 Hs1], (IH _ _ _ _ _ Hpr Hr) as [Hp1 Hs2]. split; [cbn; by rewrite Hp1|].
    apply Forall_app. split; [done|]. constructor; [by eapply writer_is_stage|done].
  - assert (Forall (λ c, fileless c = true) new.*1 ∧ Forall is_stage s1) as [Hnew Hs1].
    { rewrite list.Forall_forall in Hcs.
      apply (plan_children_all _ (λ n c r s n', fileless r.1 = true ∧ Forall is_stage s) _ _ _ _ _ Hch) with
        (Q := λ n cs new s n', Forall (λ c, fileless c = true) new.*1 ∧ Forall is_stage s).
      - intros n c r s n' Hc Hi. eapply IH; [done|]. by apply Hcs.
      - intros n. split; constructor.
      - intros n c r s m cs' new' st m' [Hfc Hcc] [Hfs Hcs']. split; [by constructor|by apply Forall_app]. }
    destruct (plan_node_fileless _ _ _ _ _ _ _ _ Hn Hk Hcs Hnew Hs1). done.
Qed.
End writers.

(** ** Edges *)

Section edges.
Abbreviation edge := (nat * nat)%type.

Definition add_edge (m : gmap nat (list nat)) (e : edge) : gmap nat (list nat) := add_once e.1 e.2 m.

(** What the edges from [c] lead to *)
Definition targets (c : nat) (E : list edge) : list nat := (filter (λ e, e.1 = c) E).*2.

Lemma targets_app c E1 E2 : targets c (E1 ++ E2) = targets c E1 ++ targets c E2.
Proof. unfold targets. by rewrite filter_app, fmap_app. Qed.

Lemma elem_of_targets c E x : x ∈ targets c E ↔ (c, x) ∈ E.
Proof.
  unfold targets. rewrite list_elem_of_fmap. split.
  - intros ([c' x'] & -> & [Hc He]%list_elem_of_filter). cbn in Hc. by subst.
  - intros He. exists (c, x). split; [done|]. by apply list_elem_of_filter.
Qed.

Lemma add_edges_lookup E c : NoDup E → default [] (foldl add_edge ∅ E !! c) = targets c E.
Proof.
  induction E as [|e E IH] using rev_ind; intros Hnd; [done|].
  apply NoDup_app in Hnd as (Hnd & Hnew & _). specialize (IH Hnd). rewrite foldl_app, targets_app. cbn [foldl].
  unfold targets at 2. rewrite filter_cons, filter_nil. unfold add_edge at 1, add_once.
  assert (e.2 ∉ targets e.1 E) as Hfresh.
  { rewrite elem_of_targets, <-surjective_pairing. intros He. apply (Hnew e He). by left. }
  destruct (decide (e.1 = c)) as [<-|Hne].
  - destruct (foldl add_edge ∅ E !! e.1) as [xs|] eqn:Hm; cbn in IH |- *.
    + rewrite bool_decide_false by by rewrite IH. rewrite lookup_insert_eq. cbn. by rewrite IH.
    + rewrite lookup_insert_eq. cbn. by rewrite <-IH.
  - rewrite app_nil_r, <-IH. destruct (foldl add_edge ∅ E !! e.1) as [xs|]; [case_bool_decide; [done|]|]; by rewrite lookup_insert_ne.
Qed.
End edges.

Section builder.
Context `{RebuildOps}.

Definition read_ids (p : ExecutionPlan) : list nat := us_stage_id <$> find_unresolved_shuffles p.

Lemma read_ids_all stages : concat (read_ids <$> stages) = us_stage_id <$> concat (find_unresolved_shuffles <$> stages).
Proof. induction stages as [|w stages IH]; [done|]. cbn. rewrite fmap_app. f_equal. exact IH. Qed.

(** From a stage to the stages it reads *)
Definition edges_of (w : ExecutionPlan) : list (nat * nat) := (λ i, (writer_stage_id w, i)) <$> read_ids w.

Definition swap_edge (e : nat * nat) : nat * nat := (e.2, e.1).

(** Visiting a shuffle of the stage [c] *)
Definition visit (self : ExecutionStageBuilder) (i : nat) : ExecutionStageBuilder :=
  let c := current_stage_id self in
  mkBuilder c (add_edge (stage_dependencies self) (c, i)) (add_edge (output_links self) (i, c)).

Lemma accept_reads self c : fileless c = true → accept self c = foldl visit self (read_ids c).
Proof.
  revert self. induction c as [l|k cs IH] using plan_ind; intros self Hw; [by destruct l|].
  apply fileless_node in Hw as [Hk Hcs]. cbn [accept].
  assert (pre_visit self (Node k cs) = self) as -> by by destruct k.
  unfold read_ids. rewrite reads_node. revert self. clear Hk. induction IH as [|c cs Hc _ IHc]; intros self; [done|].
  apply Forall_cons in Hcs as [Hwc Hcs]. cbn. rewrite fmap_app, foldl_app, Hc by done. by apply IHc.
Qed.

Lemma visit_all self ids :
  let c := current_stage_id self in
  foldl visit self ids =
    mkBuilder c (foldl add_edge (stage_dependencies self) (pair c <$> ids)) (foldl add_edge (output_links self) (swap_edge <$> (pair c <$> ids))).
Proof.
  revert self. induction ids as [|i ids IH]; intros self; [by destruct self|]. cbn [foldl fmap list_fmap].
  rewrite (IH (visit self i)). done.
Qed.

Lemma accept_stage self w :
  is_stage w →
  accept self w =
    mkBuilder (writer_stage_id w) (foldl add_edge (stage_dependencies self) (edges_of w))
      (foldl add_edge (output_links self) (swap_edge <$> edges_of w)).
Proof.
  intros (k & c & -> & Hk & Hc).
  assert (accept self (Node k [c]) =
    accept (mkBuilder (writer_stage_id (Node k [c])) (stage_dependencies self) (output_links self)) c) as -> by by destruct k.
  rewrite accept_reads, visit_all by done. cbn [current_stage_id stage_dependencies output_links].
  unfold edges_of, read_ids. rewrite reads_node. cbn. by rewrite app_nil_r.
Qed.

Lemma accept_stages stages self :
  Forall is_stage stages →
  let b := foldl accept self stages in
  let E := concat (edges_of <$> stages) in
  stage_dependencies b = foldl add_edge (stage_dependencies self) E ∧
  output_links b = foldl add_edge (output_links self) (swap_edge <$> E).
Proof.
  intros Hst. revert self. induction Hst as [|w stages Hw _ IH]; intros self; [done|]. cbn.
  destruct (IH (accept self w)) as [-> ->]. rewrite accept_stage by done. cbn. by rewrite fmap_app, !foldl_app.
Qed.

Lemma edges_to stages : (concat (edges_of <$> stages)).*2 = concat (read_ids <$> stages).
Proof.
  induction stages as [|w stages IH]; [done|]. cbn. rewrite fmap_app. f_equal; [|exact IH]. unfold edges_of.
  rewrite <-list_fmap_compose. apply list_fmap_id.
Qed.

(** The edges of a stage *)
Lemma targets_stage stages i w :
  NoDup (writer_stage_id <$> stages) → stages !! i = Some w →
  targets (writer_stage_id w) (concat (edges_of <$> stages)) = read_ids w.
Proof.
  assert (∀ c w', c ≠ writer_stage_id w' → targets c (edges_of w') = []) as Hother.
  { intros c w' Hne. unfold targets, edges_of. induction (read_ids w') as [|x l IH]; [done|].
    cbn [fmap list_fmap] in *. rewrite filter_cons_False by (cbn; congruence). exact IH. }
  assert (∀ w', targets (writer_stage_id w') (edges_of w') = read_ids w') as Hself.
  { intros w'. unfold targets, edges_of. induction (read_ids w') as [|x l IH]; [done|].
    cbn [fmap list_fmap] in *. rewrite filter_cons_True by done. cbn. by f_equal. }
  revert i. induction stages as [|w' stages IH]; intros i; [done|]. cbn [fmap list_fmap concat]. rewrite targets_app. intros [Hnin Hnd]%NoDup_cons Hi.
  destruct i as [|i].
  - injection Hi as ->. rewrite Hself. rewrite <-(app_nil_r (read_ids w)) at 2. f_equal. clear IH Hnd.
    induction stages as [|w'' stages IH]; [done|]. cbn [fmap list_fmap concat] in Hnin |- *. apply not_elem_of_cons in Hnin as [Hne Hnin].
    rewrite targets_app, (Hother _ _ Hne). by apply IH.
  - rewrite Hother, (IH i Hnd Hi); [done|]. intros Heq. apply Hnin. rewrite <-Heq.
    by eapply list_elem_of_lookup_2, list_lookup_fmap_Some_2.
Qed.

(** The stages that read a stage *)
Lemma elem_of_readers stages i k :
  k ∈ targets i (swap_edge <$> concat (edges_of <$> stages)) ↔
  ∃ w, w ∈ stages ∧ writer_stage_id w = k ∧ i ∈ read_ids w.
Proof.
  rewrite elem_of_targets, list_elem_of_fmap. setoid_rewrite elem_of_concat. split.
  - intros ([k' i'] & [= -> ->] & es & He & Hes). apply list_elem_of_fmap in Hes as (w & -> & Hw).
    apply list_elem_of_fmap in He as (i0 & [= -> ->] & Hi). by exists w.
  - intros (w & Hw & <- & Hi). exists (writer_stage_id w, i). split; [done|]. exists (edges_of w).
    split; [by apply (list_elem_of_fmap_2 (pair (writer_stage_id w)))|]. by apply list_elem_of_fmap_2.
Qed.

(** A stage that is read once has one reader. *)
Lemma readers_once E i : NoDup E.*2 → length (targets i (swap_edge <$> E)) ≤ 1.
Proof.
  induction E as [|[c x] E IH]; intros Hnd; [cbn; lia|]. cbn in Hnd. apply NoDup_cons in Hnd as [Hnin Hnd]. specialize (IH Hnd).
  unfold targets in *. cbn [fmap list_fmap swap_edge fst snd]. destruct (decide (x = i)) as [->|Hne].
  - rewrite filter_cons_True by done. cbn. rewrite filter_none; [done|]. intros e [[c' x'] [-> He]]%list_elem_of_fmap. cbn.
    intros ->. apply Hnin. by apply (list_elem_of_fmap_2 snd) in He.
  - rewrite filter_cons_False by done. done.
Qed.
End builder.

(** ** The stages that are built *)

Section build.
Context `{StageOps} `{Payload} (session_config : Session).

Lemma build_stages_other stages self acc id :
  id ∉ writer_stage_id <$> stages → build_stages session_config self stages acc !! id = acc !! id.
Proof.
  revert self acc. induction stages as [|w stages IH]; intros self acc Hid; [done|]. cbn in Hid |- *.
  apply not_elem_of_cons in Hid as [Hne Hid]. rewrite IH by done. by rewrite lookup_insert_ne.
Qed.

Lemma build_stage_taken id self w :
  id ≠ writer_stage_id w → build_stage session_config (take_stage id self) w = build_stage session_config self w.
Proof. intros Hne. unfold build_stage, take_stage. cbn. by rewrite !lookup_delete_ne. Qed.

Lemma build_stages_lookup stages self acc i w :
  NoDup (writer_stage_id <$> stages) → stages !! i = Some w →
  build_stages session_config self stages acc !! writer_stage_id w = Some (build_stage session_config self w).
Proof.
  revert self acc i. induction stages as [|w' stages IH]; intros self acc i Hnd Hi; [done|]. cbn [fmap list_fmap] in Hnd.
  apply NoDup_cons in Hnd as [Hnin Hnd]. cbn [build_stages]. destruct i as [|i].
  - injection Hi as ->. rewrite build_stages_other by done. by rewrite lookup_insert_eq.
  - rewrite (IH _ _ i) by done. f_equal. apply build_stage_taken. intros Heq. apply Hnin. rewrite Heq.
    by eapply list_elem_of_lookup_2, list_lookup_fmap_Some_2.
Qed.

Definition plan_of_stage (x : ExecutionStage) : ExecutionPlan :=
  match x with
  | UnResolved s => UnresolvedStage.plan s
  | Resolved s => ResolvedStage.plan s
  | RunningS s => RunningStage.plan s
  | SuccessfulS s => SuccessfulStage.plan s
  | FailedS s => FailedStage.plan s
  end.

(** A stage before it runs waits for the stages it reads, if there are some. *)
Definition waits_for (x : ExecutionStage) (ids : list nat) : Prop :=
  match x with
  | UnResolved s => ids ≠ [] ∧ UnresolvedStage.inputs s = list_to_map ((λ i, (i, StageOutput.new)) <$> ids)
  | Resolved s => ids = [] ∧ ResolvedStage.inputs s = ∅
  | _ => False
  end.

Lemma inputs_of_ids ids :
  NoDup ids → foldl (λ m c, <[c := StageOutput.new]> m) ∅ ids = list_to_map ((λ i, (i, StageOutput.new)) <$> ids)
  :> gmap nat StageOutput.t.
Proof.
  induction ids as [|i ids IH] using rev_ind; intros Hnd; [done|]. rewrite foldl_app, fmap_app.
  apply NoDup_app in Hnd as (Hnd & Hnew & _). cbn. rewrite IH, list_to_map_snoc; [done| |done].
  rewrite <-list_fmap_compose. cbn. rewrite list_fmap_id. intros Hi. apply (Hnew _ Hi). by left.
Qed.

Lemma build_lookup stages i w :
  Forall is_stage stages → NoDup (writer_stage_id <$> stages) → NoDup (concat (read_ids <$> stages)) → stages !! i = Some w →
  ∃ x, build session_config stages !! writer_stage_id w = Some x ∧
    stage_key x = writer_stage_id w ∧ plan_of_stage x = w ∧ waits_for x (read_ids w) ∧
    (∀ k, k ∈ stage_output_links x ↔ ∃ w', w' ∈ stages ∧ writer_stage_id w' = k ∧ writer_stage_id w ∈ read_ids w') ∧
    length (stage_output_links x) ≤ 1.
Proof.
  intros Hst Hids Hreads Hi. unfold build. rewrite (build_stages_lookup _ _ _ i w) by done. eexists. split; [done|].
  destruct (accept_stages stages builder_new Hst) as [Hdeps Hlinks]. cbn in Hdeps, Hlinks.
  rewrite <-edges_to in Hreads. pose proof (NoDup_fmap_1 _ _ Hreads) as Hnd.
  assert (NoDup (swap_edge <$> concat (edges_of <$> stages))) as Hnd'.
  { apply NoDup_fmap_2; [|done]. intros [] [] [= -> ->]. done. }
  unfold build_stage. rewrite Hdeps, Hlinks, (add_edges_lookup _ _ Hnd), (add_edges_lookup _ _ Hnd').
  rewrite (targets_stage _ i) by done.
  assert (NoDup (read_ids w)) as Hw.
  { rewrite edges_to in Hreads. apply list_elem_of_split_length in Hi as (l1 & l2 & -> & _).
    rewrite fmap_app, concat_app in Hreads. apply NoDup_app in Hreads as (_ & _ & Hreads). cbn in Hreads.
    by apply NoDup_app in Hreads as []. }
  destruct (read_ids w) as [|x ids] eqn:Hr; cbn [stage_key plan_of_stage waits_for stage_output_links];
    (split_and!; [done..| | |apply elem_of_readers|by apply readers_once]); try done.
  cbn. by apply (inputs_of_ids (x :: ids)).
Qed.
End build.
