(* ===== verification/PlanSample.v ===== *)
(** * Plans to run the theorems on

    A small set of operators: rows are numbers, a scan lists its rows, a join gives the
    rows of its probe side that its build side has, and another operator the rows of its
    inputs. *)

From S2P Require Import Prelude Errors Machine Types Stage PhysicalPlan TaskPlan Planner PlannerFacts PlannerRows.
From stdpp Require Import numbers gmap strings list.

#[export] Instance sample_types : PlanTypes := {|
  Schema := string;
  Expr := string;
  LexOrdering := string;
  Op := string;
  JoinRest := unit;
  Source := string;
  FileGroup := list nat;
  MemoryPartition := list nat;
  FilterConfig := unit;
  RangeBound := unit;
  WidenedBound := unit;
  Scalar := unit;
  PrefixState := unit;
  AggregateApply := unit;
|}.

#[export] Instance sample_props : PlanProps := {|
  source_partitioning _ n := UnknownPartitioning n;
  source_schema s := s;
  join_partitioning j ps :=
    match partition_mode j, ps with CollectLeft, [_; r] => r | _, _ => first_partitioning ps end;
  op_partitioning _ ps := first_partitioning ps;
  op_single_partition _ := [false];
  node_schema _ ss := default EmptyString (head ss);
  memory_source_ok _ := true;
  bound_widens _ _ := true;
|}.

#[export] Instance sample_plan_laws : PlanLaws.
Proof.
  split; [done|..].
  - intros j l r Hj. cbn. by rewrite Hj.
  - intros j l r Hj _. cbn. by destruct (partition_mode j).
  - intros o ps i p Hl Hi Hp _. destruct ps as [|q [|]]; try done. destruct i as [|i]; [by injection Hp as ->|done].
Qed.

#[export] Instance sample_rebuild : RebuildOps := {|
  rebuilds _ _ _ := true;
  memory_source schema := schema;
|}.

#[export] Instance sample_rebuild_laws : RebuildLaws.
Proof. by split. Qed.

#[export] Instance sample_exec : ExecOps := {|
  Row := nat;
  read _ _ := False;
  range_read _ _ _ _ _ := False;
  scan_file _ g rows := rows = g;
  scan_memory _ p rows := rows = p;
  scan_other _ _ _ rows := rows = [];
  null_row _ := 0;
  op_rows k i views rows :=
    match k, views with
    | CoalescePartitions, [v] => rows ≡ₚ concat v
    | Repartition (Hash _ n), [v] => i < n ∧ rows ≡ₚ filter (λ r, r `mod` n = i) (concat v)
    | Repartition _, [v] => i < partition_count (match k with Repartition p => p | _ => UnknownPartitioning 0 end) ∧ rows ⊆ concat v
    | HashJoin _, [build; probe] => rows = filter (λ r, r ∈ concat build) (concat probe)
    | _, _ => rows = concat (concat views)
    end;
|}.

#[export] Instance sample_bucket : BucketOps := {| bucket _ n r := r `mod` n |}.

Definition swapped_type (t : JoinType) : JoinType :=
  match t with
  | Inner => Inner
  | Full => Full
  | LeftJoin => RightJoin
  | RightJoin => LeftJoin
  | LeftSemi => RightSemi
  | RightSemi => LeftSemi
  | LeftAnti => RightAnti
  | RightAnti => LeftAnti
  | LeftMark => RightMark
  | RightMark => LeftMark
  end.

(** Every plan is small. *)
#[export] Instance sample_planner : PlannerOps := {|
  field_types _ := [Int64];
  compute_statistics _ := Ok (mkStatistics (Exact 8) (Exact 1));
  join_swap := swapped_type;
  supports_swap _ := true;
  swap_inputs j l r :=
    Ok (Node (HashJoin (mkJoin (swapped_type (join_type j)) CollectLeft (null_aware j) (join_on j) (join_rest j))) [r; l]);
  ensure_requirements _ p := Ok p;
|}.

#[export] Instance sample_planner_laws : PlannerLaws.
Proof.
  split.
  - intros j l r p [= <-]. eexists. split; [|split; [|split; [|left; reflexivity]]]; done.
  - by intros config p p' [= <-].
  - by intros config p p' [= <-].
  - intros o [|p ps] [|p' ps'] Hps; try done. by injection Hps.
  - intros j ps ps' Hps. cbn. destruct (partition_mode j), ps as [|p [|q [|]]], ps' as [|p' [|q' [|]]]; try done; by injection Hps.
Qed.

#[export] Instance sample_row_laws : OperatorLaws.
Proof.
  split; [done..| |].
  - by intros n i v rows.
  - intros config p p' env v' [= <-] Hv. by exists v'.
Qed.

#[export] Instance sample_stage_ops : StageOps := {|
  Options := unit;
  Session := unit;
  session_options _ := tt;
  planner_config _ := mkPlannerConfig 100 2;
  num_fields _ := 1;
  select_joins p _ := Ok p;
  optimize_aggregates p _ := Ok p;
|}.

#[export] Instance sample_reports : Payload := {|
  RuntimeStatsReport := unit;
  WindowStateReport := unit;
  ColumnSketch := unit;
  ProtoMetric := unit;
  MetricValue := unit;
  metric_try_into m := Ok m;
  SessionContext := unit;
  LogicalPlan := unit;
  Types.ExecutionPlan := unit;
|}.

Definition sample_session : Session := tt.

Definition sample_config : PlannerConfig := mkPlannerConfig 100 2.

Definition scan (name : string) (groups : list (list nat)) : ExecutionPlan := LeafNode (FileScan name groups).

Definition by_hash (n : nat) (p : ExecutionPlan) : ExecutionPlan := Node (Repartition (Hash ["key"%string] n)) [p].

Definition collect_join (l r : ExecutionPlan) : ExecutionPlan :=
  Node (HashJoin (mkJoin Inner CollectLeft false [("key"%string, "key"%string)] tt)) [l; r].

(** The rows of [b], by their hash, that [a] has, in one partition *)
Definition sample_query : ExecutionPlan :=
  Node CoalescePartitions
    [collect_join (Node CoalescePartitions [scan "a" [[1; 2]; [3]]]) (by_hash 2 (scan "b" [[2; 3]; [4]]))].

(** Two scans after each other, of two partitions each *)
Definition sample_union : ExecutionPlan := Node UnionExec [scan "a" [[1]; [2]]; scan "a" [[3]; [4]]].

(** Its stages: the build side, the probe side, the join and the result *)
Definition reads_stage (id : nat) (schema : string) (p : Partitioning) : ExecutionPlan :=
  LeafNode (UnresolvedShuffle (unresolved_new id schema p)).

Definition sample_stages : list ExecutionPlan :=
  [ Node (ShuffleWriter "job" 1) [scan "a" [[1; 2]; [3]]];
    Node (SortShuffleWriter "job" 2 (Hash ["key"%string] 2)) [scan "b" [[2; 3]; [4]]];
    Node (ShuffleWriter "job" 3)
      [collect_join (LeafNode (UnresolvedShuffle (unresolved_new_broadcast 1 "a"%string 2)))
         (reads_stage 2 "b" (Hash ["key"%string] 2))];
    Node (ShuffleWriter "job" 4) [Node CoalescePartitions [reads_stage 3 "a" (Hash ["key"%string] 2)]] ].

Lemma sample_query_planned :
  plan_query_stages "job" sample_config 20 sample_query = Some (Ok sample_stages).
Proof. reflexivity. Qed.

(** What they write *)
Definition sample_outs : list (list (list Row)) := [ [[1; 2]; [3]]; [[2; 4]; [3]]; [[2]; [3]]; [[2; 3]] ].

Lemma sample_all_rows env p v :
  length v = count p → Forall (λ jr, exec env p jr.1 jr.2) (imap pair v) → all_rows env p v.
Proof.
  intros Hl Hall. split; [done|]. intros j rows Hj. rewrite Forall_lookup in Hall. apply (Hall j (j, rows)).
  by rewrite list_lookup_imap, Hj.
Qed.

Lemma sample_query_ran : ran sample_outs 0 sample_stages.
Proof.
  apply ran_cons. split; [eexists; split; [reflexivity|]|].
  { apply sample_all_rows; [done|]. by repeat constructor. }
  apply ran_cons. split; [eexists; split; [reflexivity|]|].
  { exists [[2; 3]; [4]]. split; [apply sample_all_rows; [done|by repeat constructor]|]. split; [done|].
    intros [|[|i]] rows Hi; [..|done]; injection Hi as <-; vm_compute; done. }
  apply ran_cons. split; [eexists; split; [reflexivity|]|].
  { apply sample_all_rows; [done|]. constructor; [|constructor; [|constructor]].
    - exists [[[1; 2; 3]]; [[2; 4]]]. split; [|reflexivity]. split; [|split; [exists [2; 4]; split; reflexivity|done]].
      split; [done|]. intros [|] rows Hr; [|done]. injection Hr as <-. by exists [[1; 2]; [3]].
    - exists [[[1; 2; 3]]; [[3]]]. split; [|reflexivity]. split; [|split; [exists [3]; split; reflexivity|done]].
      split; [done|]. intros [|] rows Hr; [|done]. injection Hr as <-. by exists [[1; 2]; [3]]. }
  apply ran_cons. split; [eexists; split; [reflexivity|]|done].
  apply sample_all_rows; [done|]. constructor; [|constructor]. exists [[[2]; [3]]]. split; [|by cbn]. split; [|done].
  split; [done|]. by intros [|[|]] rows Hr; [injection Hr as <-..|].
Qed.

Lemma sample_left_alone : left_alone sample_config sample_query.
Proof. repeat (constructor; [split; [reflexivity|done]|]). repeat constructor; done. Qed.
