(* ===== verification/TaskTheorems.v ===== *)
(** * The tasks of a stage

    A stage is run as tasks, each on a slice of the partitions of its plan. The theorems
    say what the tasks write together, and two ways in which slices are mislabelled. *)

From S2P Require Import Prelude Errors Types PhysicalPlan TaskPlan TaskPlanFacts Planner PlannerFacts PlannerRows PlanSample.
From stdpp Require Import numbers strings list.

Section tasks.
Context `{RebuildOps} {PL : PlanLaws} {RL : RebuildLaws} `{!ExecOps} (env : UnresolvedShuffleExec → nat → list Row → Prop).
Context (job_id : JobId) (stage_id : nat).

Definition stage_of (p : ExecutionPlan) : ExecutionPlan := Node (ShuffleWriter job_id stage_id) [p].

(** Whether the walk succeeds does not depend on the ids. *)
Lemma walk_panics p S S' :
  walk_child_partition_mapping p S ≠ Panic → walk_child_partition_mapping p S' ≠ Panic.
Proof.
  destruct (walk_child_partition_mapping p S) as [m|[]|] eqn:Hm; [|done]. intros _.
  by rewrite (proj2 (walk_ids p S m Hm) S').
Qed.

(** C6. The tasks of a stage write each partition once. For a plan that can be split, and
    for slices that together hold every partition once, each in ascending order: every
    task succeeds; the partition ids that the tasks give to their files are all
    partitions of the plan, each once; and the rows of a file can be exactly the rows
    that the partition of its id can have in the plan of the stage. *)
Theorem tasks_write_each_partition_once p slices :
  splittable p = true → walk_child_partition_mapping p [] ≠ Panic →
  Forall (λ S, S ≠ [] ∧ ascending S) slices → concat slices ≡ₚ seq 0 (count p) →
  ∃ tasks, Forall2 (λ S t, run_task (stage_of p) S = Ok t) slices tasks ∧
    concat (snd <$> tasks) ≡ₚ seq 0 (count p) ∧
    ∀ plan ids j i rows, (plan, ids) ∈ tasks → ids !! j = Some i → exec env plan j rows ↔ exec env p i rows.
Proof using PL RL.
  intros Hsp Hw Hall Hperm. assert (Forall (λ s, s < count p) (concat slices)) as Hlt.
  { rewrite Hperm. apply Forall_seq. lia. }
  assert (∃ tasks, Forall2 (λ S t, run_task (stage_of p) S = Ok t ∧ t.2 = S ∧ sliced env S p t.1) slices tasks) as [tasks Ht].
  { clear Hperm. induction Hall as [|S slices [Hne Hasc] _ IH]; [by exists []; constructor|]. cbn in Hlt.
    apply Forall_app in Hlt as [Hlt Hlts]. destruct (IH Hlts) as [tasks Ht].
    destruct (run_task_ok env job_id stage_id p S Hsp (walk_panics _ _ S Hw) Hne Hasc Hlt) as (plan & Hr & Hs).
    exists ((plan, S) :: tasks). by constructor. }
  exists tasks. split; [by eapply Forall2_impl; [exact Ht|]; intros ? ? []|]. split.
  - rewrite <-Hperm. apply reflexive_eq. f_equal. clear -Ht.
    induction Ht as [|S t slices tasks (_ & HS & _) _ IH]; [done|]. cbn. by f_equal.
  - intros plan ids j i rows Hin Hj. apply list_elem_of_lookup in Hin as [t Hin].
    destruct (Forall2_lookup_r _ _ _ _ _ Ht Hin) as (S & _ & _ & HS & Hs). cbn in HS. subst S. by apply Hs.
Qed.

(** A slice that is not in ascending order gives partitions to the wrong ids: a task
    for a partition of the second branch of a union and then one of the first writes the
    rows of the one under the id of the other. *)
Theorem unsorted_slice_swaps_partitions c d x y :
  splittable c = true → splittable d = true → x < count c → y < count d →
  ∃ plan, run_task (stage_of (Node UnionExec [c; d])) [count c + y; x] = Ok (plan, [count c + y; x]) ∧
    (∀ rows, exec env plan 0 rows ↔ exec env (Node UnionExec [c; d]) x rows) ∧
    (∀ rows, exec env plan 1 rows ↔ exec env (Node UnionExec [c; d]) (count c + y) rows).
Proof using PL RL.
  intros Hc Hd Hx Hy.
  destruct (restrict_ok env c Hc [x]) as (rc & Hrc & Hcc & Hec); [done|by repeat constructor|by repeat constructor|].
  destruct (restrict_ok env d Hd [y]) as (rd & Hrd & Hcd & Hed); [done|by repeat constructor|by repeat constructor|].
  assert (restrict (Node UnionExec [c; d]) [count c + y; x] false = replace_children_if_necessary UnionExec [c; d] [rc; rd]) as Hr.
  { cbn [restrict]. rewrite union_child_partitions_split. cbn [fmap list_fmap split_slice].
    rewrite !filter_cons, !filter_nil, !(decide_False (P := count c + y < count c)), (decide_True (P := count c ≤ count c + y)),
      (decide_True (P := x < count c)), (decide_False (P := count c ≤ x)) by lia. cbn [fmap list_fmap].
    replace (count c + y - count c) with y by lia. rewrite filter_cons, filter_nil, (decide_True (P := y < count d)) by done.
    unfold traverse2. by rewrite Hrc, Hrd. }
  destruct (replace_restricted (λ _ sub, (sub, false)) UnionExec [c; d] [[x]; [y]] [rc; rd]) as [b Hb].
  { by repeat constructor. }
  { intros new' Hsch. cbn. by rewrite rebuilds_same_schema. }
  exists (Node UnionExec [rc.1; rd.1]). split; [|split].
  - unfold run_task, stage_of. rewrite (restrict_writer (ShuffleWriter job_id stage_id) _ _ _ eq_refl (eq_trans Hr Hb)). cbn [obind fst].
    unfold compute_global_output_partition_ids, written_partitions. cbn [walk_child_partition_mapping obind fmap list_fmap].
    unfold count. cbn. fold (count rc.1) (count rd.1). by rewrite Hcc, Hcd.
  - intros rows. cbn [exec]. rewrite !union_rows_cons, Hcc, (proj2 (Nat.ltb_lt _ _) Hx). by apply (Hec 0).
  - intros rows. cbn [exec]. rewrite !union_rows_cons, Hcc, Hcd, (proj2 (Nat.ltb_ge (count c + y) _)) by lia.
    replace (count c + y - count c) with y by lia. rewrite (proj2 (Nat.ltb_lt _ _) Hy). by apply (Hed 0).
Qed.

(** The ids of [n + 1] files of a task with the slice [n] *)
Lemma resolve_one n : resolve (PassThrough [n]) <$> seq 0 (n + 1) = n :: seq 1 n.
Proof.
  rewrite Nat.add_1_r. cbn [seq fmap list_fmap]. f_equal. rewrite <-(list_fmap_id (seq 1 n)) at 2.
  apply list_fmap_ext. intros i x Hx. apply lookup_seq in Hx as [-> _]. done.
Qed.

(** An empty branch of a union makes two partitions of a task write one file. The
    planner leaves an [EmptyExec] of [n] partitions in the stage of its union, and the
    writer of the stage replaces it by a round robin repartitioning, which keeps its
    [n] partitions in every task. The task for the first partition of the other branch,
    whose id is [n], then writes [n + 1] files: the first one, of a partition that is
    empty, and the last one, of its own rows, both get the id [n]. *)
Theorem empty_union_branch_collides schema n d :
  1 < n → splittable d = true → 0 < count d → make_empty_exec_serde_safe d = Ok (d, false) →
  can_stay_inline (LeafNode (EmptyExec schema n)) = true ∧
  ∃ p plan,
    create_shuffle_writer_with_config job_id stage_id (Node UnionExec [LeafNode (EmptyExec schema n); d]) None = Ok (stage_of p) ∧
    run_task (stage_of p) [n] = Ok (plan, n :: seq 1 n) ∧
    (∀ rows, exec env plan n rows ↔ exec env p n rows).
Proof using PL RL.
  intros Hn Hd Hcd Hme.
  destruct (restrict_ok env d Hd [0]) as (rd & Hrd & Hcount & Hed); [done|by repeat constructor|by repeat constructor|].
  set (gone := LeafNode (MemoryScan (memory_source schema) [])).
  set (branch := Node (Repartition (RoundRobinBatch n)) [LeafNode (EmptyExec schema 1)]).
  assert (restrict (LeafNode (EmptyExec schema n)) [] false = Ok (gone, true)) as Hgone.
  { cbn. by rewrite memory_source_accepted. }
  split.
  { unfold can_stay_inline, restricts_to_nothing, restrict_plan_to_partitions. rewrite Hgone. cbn.
    unfold count. cbn. by rewrite source_partition_count. }
  assert (restrict branch [] false = Ok (Node (Repartition (RoundRobinBatch n)) [gone], true)) as Hbranch.
  { unfold branch. cbn. rewrite memory_source_accepted. cbn. rewrite rebuilds_same_schema; [done|]. cbn.
    by rewrite memory_source_schema. }
  assert (restrict (Node UnionExec [branch; d]) [n] false =
    Ok (Node UnionExec [Node (Repartition (RoundRobinBatch n)) [gone]; rd.1], true)) as Hr.
  { cbn [restrict]. rewrite union_child_partitions_split. cbn [fmap list_fmap split_slice]. change (count branch) with n.
    rewrite !filter_cons, !filter_nil, (decide_False (P := n < n)), (decide_True (P := n ≤ n)) by lia. cbn [fmap list_fmap].
    rewrite Nat.sub_diag, filter_cons, filter_nil, (decide_True (P := 0 < count d)) by done.
    unfold traverse2. rewrite Hbranch, Hrd. cbn. rewrite rebuilds_same_schema; [done|]. cbn.
    rewrite memory_source_schema. by rewrite (restrict_schema _ _ _ _ Hrd). }
  exists (Node UnionExec [branch; d]), (Node UnionExec [Node (Repartition (RoundRobinBatch n)) [gone]; rd.1]). split_and!.
  - unfold create_shuffle_writer_with_config. cbn [make_empty_exec_serde_safe traverse].
    rewrite (proj2 (Nat.leb_gt n 1) Hn), Hme. cbn. rewrite rebuilds_same_schema; [done|]. cbn. by rewrite repartition_schema.
  - unfold run_task, stage_of. rewrite (restrict_writer (ShuffleWriter job_id stage_id) _ _ _ eq_refl Hr). cbn [obind fst].
    unfold compute_global_output_partition_ids, written_partitions. cbn [walk_child_partition_mapping obind].
    assert (count (Node UnionExec [Node (Repartition (RoundRobinBatch n)) [gone]; rd.1]) = n + 1) as ->.
    { unfold count. cbn. fold (count rd.1). rewrite Hcount. cbn. lia. }
    by rewrite resolve_one.
  - intros rows. cbn [exec]. rewrite !union_rows_cons. change (count branch) with n.
    change (count (Node (Repartition (RoundRobinBatch n)) [gone])) with n. rewrite Nat.ltb_irrefl, Nat.sub_diag, Hcount.
    rewrite (proj2 (Nat.ltb_lt 0 (count d)) Hcd). change (0 <? 1) with true. by apply (Hed 0).
Qed.
End tasks.

(** ** Witnesses *)

Lemma tasks_write_each_partition_once_witness :
  ∃ tasks, Forall2 (λ S t, run_task (stage_of "job" 1 sample_union) S = Ok t) [[0; 2]; [1; 3]] tasks ∧
    concat (snd <$> tasks) ≡ₚ seq 0 (count sample_union) ∧
    ∀ plan ids j i rows, (plan, ids) ∈ tasks → ids !! j = Some i →
      exec (λ _ _ _, False) plan j rows ↔ exec (λ _ _ _, False) sample_union i rows.
Proof.
  apply (tasks_write_each_partition_once (λ _ _ _, False) "job" 1 sample_union [[0; 2]; [1; 3]]).
  - done.
  - done.
  - repeat first [apply SSorted_nil|apply SSorted_cons|apply Forall_nil_2|apply Forall_cons_2|split; [done|]|lia].
  - cbn. apply Permutation_skip, perm_swap.
Defined.

Lemma unsorted_slice_swaps_partitions_witness :
  ∃ plan, run_task (stage_of "job" 1 sample_union) [3; 0] = Ok (plan, [3; 0]) ∧
    (∀ rows, exec (λ _ _ _, False) plan 0 rows ↔ exec (λ _ _ _, False) sample_union 0 rows) ∧
    (∀ rows, exec (λ _ _ _, False) plan 1 rows ↔ exec (λ _ _ _, False) sample_union 3 rows).
Proof.
  refine (unsorted_slice_swaps_partitions (λ _ _ _, False) "job" 1 (scan "a" [[1]; [2]]) (scan "a" [[3]; [4]]) 0 1 _ _ _ _);
    [done|done|cbn; lia|cbn; lia].
Defined.

Lemma empty_union_branch_collides_witness :
  can_stay_inline (LeafNode (EmptyExec "a"%string 2)) = true ∧
  ∃ p plan,
    create_shuffle_writer_with_config "job" 1 (Node UnionExec [LeafNode (EmptyExec "a"%string 2); scan "a" [[1]]]) None
      = Ok (stage_of "job" 1 p) ∧
    run_task (stage_of "job" 1 p) [2] = Ok (plan, [2; 1; 2]) ∧
    (∀ rows, exec (λ _ _ _, False) plan 2 rows ↔ exec (λ _ _ _, False) p 2 rows).
Proof.
  refine (empty_union_branch_collides (λ _ _ _, False) "job" 1 "a"%string 2 (scan "a" [[1]]) _ _ _ _); [lia|done|cbn; lia|done].
Defined.
