(* ===== verification/PlannerTheorems.v ===== *)
(** * The stages of a plan

    What cutting a plan into stages promises: that it ends, that the stages form a tree
    in which each one is read once and by a later one, that running them in order gives
    rows the plan can give, and that a job starts with the stages and links the plans
    ask for. *)

From S2P Require Import Prelude Errors Machine Types Stage StageSteps Graph GraphSteps PhysicalPlan TaskPlan TaskPlanFacts.
From S2P Require Import Planner PlannerFacts.
From S2P Require Import ResolutionFacts PlannerRows BuilderFacts PlanSample.
From stdpp Require Import numbers gmap strings list.

Section planner.
Context `{PlannerOps} {LW : PlannerLaws} (job_id : JobId) (config : PlannerConfig).

(** C24. Planning ends: every plan has one result, a list of stages or an error, that
    planning gives whenever its fuel is at least four times the height of the plan. *)
Theorem planning_terminates p :
  ∃ r, ∀ fuel, 4 * height p ≤ fuel → plan_query_stages job_id config fuel p = Some r.
Proof using LW.
  destruct (plan_query_stages job_id config (4 * height p) p) as [r|] eqn:Hr.
  - exists r. intros fuel Hf. rewrite <-Hr. clear Hr. induction Hf as [|fuel Hf IH]; [done|]. rewrite <-IH.
    unfold plan_query_stages. rewrite (internal_extends job_id config fuel 0 p); [done|].
    by apply (fuel_enough _ _ (height p)).
  - exfalso. revert Hr. apply fbind_some; [by apply (fuel_enough _ _ (height p))|]. intros [[new ss] n] _. by apply fbind_some.
Qed.

(** The stages that planning gives *)
Lemma planned_stages fuel p stages :
  plan_query_stages job_id config fuel p = Some (Ok stages) →
  ∃ rest cut_off next w,
    plan_query_stages_internal job_id config fuel 0 p = Some (Ok (rest, cut_off, next)) ∧
    create_shuffle_writer_with_config job_id (S next) rest.1 None = Ok w ∧ stages = cut_off ++ [w].
Proof.
  unfold plan_query_stages. intros Hp. step Hp as [[rest cut_off] next] Hi. step Hp as w Hw. injection Hp as <-.
  by exists rest, cut_off, next, w.
Qed.

Lemma planned_ids fuel p stages :
  plan_query_stages job_id config fuel p = Some (Ok stages) → well_shaped p = true → find_unresolved_shuffles p = [] →
  writer_stage_id <$> stages = seq 1 (length stages) ∧
  (∃ shuffles, Forall2 stands_for shuffles (removelast stages) ∧ concat (find_unresolved_shuffles <$> stages) ≡ₚ shuffles) ∧
  Forall (λ w, Forall (λ u, us_stage_id u < writer_stage_id w) (find_unresolved_shuffles w)) stages.
Proof using LW.
  intros (rest & cut_off & next & w & Hi & Hw & ->)%planned_stages Hs Hr.
  destruct (internal_cuts _ _ _ _ _ _ _ _ Hi Hs) as [_ Hc]. rewrite Hr in Hc.
  pose proof (cuts_bound _ _ _ _ _ Hc (Forall_nil_2 _)) as Hb.
  destruct Hc as [-> Hids (new & Hnew & Hreads) Ho]. cbn in Hw. destruct (writer_ok _ _ _ _ _ Hw) as [Hid Hrw]. split_and!.
  - rewrite fmap_app, length_app, seq_app, Hids. cbn. by rewrite Hid.
  - exists new. rewrite removelast_last. split; [done|]. rewrite fmap_app, concat_app. cbn.
    by rewrite app_nil_r, Hrw, Permutation_app_comm.
  - apply Forall_app. split; [by apply Ho|]. constructor; [|constructor]. rewrite Hrw, Hid.
    eapply Forall_impl; [exact Hb|]. cbn. lia.
Qed.

Lemma planned_reads fuel p stages :
  plan_query_stages job_id config fuel p = Some (Ok stages) → well_shaped p = true → find_unresolved_shuffles p = [] →
  concat (read_ids <$> stages) ≡ₚ seq 1 (length stages - 1).
Proof using LW.
  intros Hp Hs Hr. destruct (planned_ids _ _ _ Hp Hs Hr) as (Hids & (new & Hnew & Hreads) & _).
  apply planned_stages in Hp as (rest & cut_off & next & w & _ & _ & ->). rewrite removelast_last in Hnew.
  rewrite read_ids_all, Hreads, (stands_for_ids _ _ Hnew), length_app, Nat.add_sub.
  rewrite fmap_app, length_app, seq_app in Hids. by apply app_inj_1 in Hids as [-> _]; [|by rewrite length_fmap, length_seq].
Qed.

Lemma stage_number stages i w :
  writer_stage_id <$> stages = seq 1 (length stages) → stages !! i = Some w → writer_stage_id w = S i.
Proof.
  intros Hids Hi. apply (f_equal (.!! i)) in Hids. rewrite list_lookup_fmap, Hi in Hids. symmetry in Hids.
  by apply lookup_seq in Hids as [-> _].
Qed.

(** C5. The stages of a plan form a tree: they are numbered from 1; every stage but the
    last one is read by one shuffle of one stage, and these are all the shuffles; a stage
    only reads stages with smaller numbers; and a shuffle has the schema and the
    partitions of the stage it reads. *)
Theorem stages_form_a_tree fuel p stages :
  plan_query_stages job_id config fuel p = Some (Ok stages) → well_shaped p = true → find_unresolved_shuffles p = [] →
  writer_stage_id <$> stages = seq 1 (length stages) ∧
  concat (read_ids <$> stages) ≡ₚ seq 1 (length stages - 1) ∧
  (∀ w i, w ∈ stages → i ∈ read_ids w → i < writer_stage_id w) ∧
  (∀ w u, w ∈ stages → u ∈ find_unresolved_shuffles w →
     ∃ w', stages !! (us_stage_id u - 1) = Some w' ∧ stands_for u w').
Proof using LW.
  intros Hp Hs Hr. pose proof (planned_reads _ _ _ Hp Hs Hr) as Hseq.
  destruct (planned_ids _ _ _ Hp Hs Hr) as (Hids & (new & Hnew & Hreads) & Ho). split_and!; [done..| |].
  - intros x i Hx (u & -> & Hu)%list_elem_of_fmap. rewrite list.Forall_forall in Ho. specialize (Ho x Hx).
    rewrite list.Forall_forall in Ho. by apply Ho.
  - intros x u Hx Hu. assert (u ∈ new) as Hun.
    { rewrite <-Hreads. apply elem_of_concat. exists (find_unresolved_shuffles x). split; [done|]. by apply list_elem_of_fmap_2. }
    apply planned_stages in Hp as (rest & cut_off & next & w & _ & _ & ->). rewrite removelast_last in Hnew.
    apply list_elem_of_lookup in Hun as [i Hi]. destruct (Forall2_lookup_l _ _ _ _ _ Hnew Hi) as (w' & Hw' & Hsf).
    assert ((cut_off ++ [w]) !! i = Some w') as Hlw by by apply lookup_app_l_Some.
    assert (us_stage_id u = S i) as ->; [|by cbn; rewrite Nat.sub_0_r; eauto].
    rewrite <-(stage_number _ _ _ Hids Hlw). by destruct Hsf as [->| ->].
Qed.

Lemma planned_writers fuel p stages :
  plan_query_stages job_id config fuel p = Some (Ok stages) → fileless p = true → Forall is_stage stages.
Proof using LW.
  intros (rest & cut_off & next & w & Hi & Hwr & ->)%planned_stages Hw.
  destruct (internal_fileless _ _ _ _ _ _ _ _ Hi Hw) as [Hrest Hcut]. apply Forall_app. split; [done|].
  constructor; [by eapply writer_is_stage|constructor].
Qed.

(** The links of a stage of which the readers are known *)
Lemma planned_links stages id links :
  concat (read_ids <$> stages) ≡ₚ seq 1 (length stages - 1) → writer_stage_id <$> stages = seq 1 (length stages) →
  Forall (λ w, Forall (λ u, us_stage_id u < writer_stage_id w) (find_unresolved_shuffles w)) stages → 1 ≤ id ≤ length stages →
  (∀ k, k ∈ links ↔ ∃ w, w ∈ stages ∧ writer_stage_id w = k ∧ id ∈ read_ids w) → length links ≤ 1 →
  if id =? length stages then links = []
  else ∃ k w, links = [k] ∧ id < k ∧ stages !! (k - 1) = Some w ∧ id ∈ read_ids w.
Proof.
  intros Hseq Hids Ho Hid Hlinks Hone. assert (∀ w, w ∈ stages → id ∈ read_ids w → id ∈ concat (read_ids <$> stages)) as Hin.
  { intros w Hw Hi. apply elem_of_concat. exists (read_ids w). split; [done|]. by apply list_elem_of_fmap_2. }
  setoid_rewrite Hseq in Hin. setoid_rewrite elem_of_seq in Hin. destruct (id =? length stages) eqn:Heq.
  - apply Nat.eqb_eq in Heq. destruct links as [|k links]; [done|]. exfalso.
    destruct (proj1 (Hlinks k)) as (w & Hw & _ & Hi); [by left|]. specialize (Hin w Hw Hi). lia.
  - apply Nat.eqb_neq in Heq. assert (id ∈ concat (read_ids <$> stages)) as (l & Hl & Hls)%elem_of_concat.
    { rewrite Hseq. apply elem_of_seq. lia. }
    apply list_elem_of_fmap in Hls as (w & -> & Hw). pose proof Hw as Hw'. apply list_elem_of_lookup in Hw as [i Hi].
    pose proof (stage_number _ _ _ Hids Hi) as Hnum. assert (S i ∈ links) as Hk by (apply Hlinks; eauto).
    destruct links as [|k [|]]; [by apply not_elem_of_nil in Hk| |cbn in Hone; lia].
    apply list_elem_of_singleton in Hk as <-. exists (S i), w. split_and!; [done| |by cbn; rewrite Nat.sub_0_r|done].
    rewrite <-Hnum. apply list_elem_of_fmap in Hl as (u & -> & Hu). rewrite list.Forall_forall in Ho. specialize (Ho w Hw').
    rewrite list.Forall_forall in Ho. by apply Ho.
Qed.


(** What the builder makes of the stages of a plan *)
Lemma planned_build `{!StageOps} `{Payload} session fuel p stages :
  plan_query_stages job_id config fuel p = Some (Ok stages) → well_shaped p = true → find_unresolved_shuffles p = [] →
  fileless p = true →
  let jobs := build session stages in
  (∀ id, is_Some (jobs !! id) ↔ 1 ≤ id ≤ length stages) ∧
  ∀ id x, jobs !! id = Some x →
    stage_key x = id ∧ stages !! (id - 1) = Some (plan_of_stage x) ∧ waits_for x (read_ids (plan_of_stage x)) ∧
    (if id =? length stages then stage_output_links x = []
     else ∃ k w, stage_output_links x = [k] ∧ id < k ∧ stages !! (k - 1) = Some w ∧ id ∈ read_ids w).
Proof using LW.
  intros Hp Hs Hr Hw jobs. pose proof (planned_reads _ _ _ Hp Hs Hr) as Hseq.
  destruct (planned_ids _ _ _ Hp Hs Hr) as (Hids & _ & Ho).
  pose proof (planned_writers _ _ _ Hp Hw) as Hst.
  assert (NoDup (writer_stage_id <$> stages)) as Hnd by (rewrite Hids; apply NoDup_seq).
  assert (NoDup (concat (read_ids <$> stages))) as Hndr by (rewrite Hseq; apply NoDup_seq).
  assert (∀ id, is_Some (jobs !! id) ↔ 1 ≤ id ≤ length stages) as Hdom.
  { intros id. split.
    - intros [x Hx]. destruct (decide (id ∈ writer_stage_id <$> stages)) as [Hin|Hnin].
      + rewrite Hids in Hin. apply elem_of_seq in Hin. lia.
      + unfold jobs, build in Hx. rewrite build_stages_other in Hx by done. done.
    - intros Hid. destruct (lookup_lt_is_Some_2 stages (id - 1)) as [w Hlw]; [lia|].
      destruct (build_lookup session stages _ w Hst Hnd Hndr Hlw) as (x & Hx & _).
      rewrite (stage_number _ _ _ Hids Hlw) in Hx. replace (S (id - 1)) with id in Hx by lia. by exists x. }
  split; [done|]. intros id x Hx. assert (1 ≤ id ≤ length stages) as Hid by by apply Hdom; exists x.
  destruct (lookup_lt_is_Some_2 stages (id - 1)) as [w Hlw]; [lia|].
  destruct (build_lookup session stages _ w Hst Hnd Hndr Hlw) as (x' & Hx' & Hkey & Hplan & Hwait & Hlinks & Hone).
  pose proof (stage_number _ _ _ Hids Hlw) as Hnum. replace (S (id - 1)) with id in Hnum by lia. rewrite Hnum in Hx', Hkey, Hlinks.
  assert (x' = x) as -> by (unfold jobs in Hx; congruence). rewrite Hplan. split_and!; [done..|].
  eapply planned_links; eauto.
Qed.

(** C17. Rolling a stage back undoes its resolution. For a stage of a plan, whatever the
    locations are: if putting the readers in the place of its shuffles succeeds, the
    result reads no shuffle, has the schema and the partitioning of the stage, and
    putting the shuffles back gives the stage itself. *)
Theorem rollback_undoes_resolution {RL : RebuildLaws} fuel p stages w locations r :
  plan_query_stages job_id config fuel p = Some (Ok stages) → well_shaped p = true → find_unresolved_shuffles p = [] →
  fileless p = true → w ∈ stages → remove_unresolved locations w = Ok r →
  (∃ b, rollback_resolved r.1 = Ok (w, b)) ∧ find_unresolved_shuffles r.1 = [] ∧
  schema_of r.1 = schema_of w ∧ output_partitioning r.1 = output_partitioning w.
Proof using LW.
  intros Hp Hs Hr Hf Hw Hrem. destruct (planned_ids _ _ _ Hp Hs Hr) as (_ & (new & Hnew & Hreads) & _).
  pose proof (planned_writers _ _ _ Hp Hf) as Hst. rewrite list.Forall_forall in Hst. destruct (Hst w Hw) as (k & c & -> & Hk & Hc).
  destruct (resolve_goes_back locations (Node k [c]) r) as (Hback & Hsch & Hpart & _ & Hnone); [done| | |].
  - cbn. by rewrite (fileless_readerless c Hc).
  - apply list.Forall_forall. intros u Hu. assert (u ∈ new) as Hun.
    { rewrite <-Hreads. apply elem_of_concat. eexists. split; [exact Hu|]. by apply list_elem_of_fmap_2. }
    apply list_elem_of_lookup in Hun as [i Hi]. destruct (Forall2_lookup_l _ _ _ _ _ Hnew Hi) as (w' & _ & [->| ->]);
      [left|right]; by eexists _, _, _.
  - assert (rollback_resolved r.1 = rollback_child r.1) as Hnode.
    { rewrite remove_node in Hrem. step Hrem as new' Hn. by apply of_df_ok, replace_node in Hrem as [->| ->]. }
    rewrite Hnode. by eauto.
Qed.
End planner.

Section jobs.
Context `{PlannerOps} {LW : PlannerLaws} `{!StageOps} `{Payload}.

(** C16. A new job has the stages of its plan, with their links. The graph that is made is
    one the theorems on execution graphs apply to: its stages are at their numbers and
    well formed. Each stage has its plan; it waits for exactly the stages its plan reads,
    and is resolved if there are none, as the first stage is; and its output goes to the
    one later stage that reads it, or, for the last stage, to none. *)
Theorem new_job_follows_the_plans fuel now scheduler job name session_id p queued session text g :
  graph_new fuel now scheduler job name session_id p queued session text = Some (Ok g) →
  well_shaped p = true → find_unresolved_shuffles p = [] → fileless p = true →
  ∃ plans,
    plan_query_stages job (planner_config (session_options session)) fuel p = Some (Ok plans) ∧
    (∀ id, is_Some (StaticExecutionGraph.stages g !! id) ↔ 1 ≤ id ≤ length plans) ∧
    keyed g ∧ all_wf g ∧
    (∃ s, StaticExecutionGraph.stages g !! 1 = Some (Resolved s)) ∧
    ∀ id x, StaticExecutionGraph.stages g !! id = Some x →
      plans !! (id - 1) = Some (plan_of_stage x) ∧ waits_for x (read_ids (plan_of_stage x)) ∧
      (if id =? length plans then stage_output_links x = []
       else ∃ k w, stage_output_links x = [k] ∧ id < k ∧ plans !! (k - 1) = Some w ∧ id ∈ read_ids w).
Proof using LW.
  intros Hg Hs Hr Hw. unfold graph_new in Hg. step Hg as plans Hp. injection Hg as <-. cbn [StaticExecutionGraph.stages].
  destruct (planned_build _ _ session _ _ _ Hp Hs Hr Hw) as [Hdom Hx]. exists plans. split; [done|]. split; [done|].
  split; [by intros id x (? & _)%Hx|]. split.
  { intros id x (_ & _ & Hwait & _)%Hx. by destruct x. }
  split; [|by intros id x (_ & ? & ? & ?)%Hx].
  destruct (proj2 (Hdom 1)) as [x Hx1].
  { apply planned_stages in Hp as (rest & cut_off & next & w & _ & _ & ->). rewrite length_app. cbn. lia. }
  destruct (Hx _ _ Hx1) as (_ & Hplan & Hwait & _). destruct (planned_ids _ _ _ _ _ Hp Hs Hr) as (Hids & _ & Ho).
  assert (read_ids (plan_of_stage x) = []) as Hnone.
  { rewrite list.Forall_forall in Ho. specialize (Ho _ (list_elem_of_lookup_2 _ _ _ Hplan)).
    rewrite (stage_number _ _ _ Hids Hplan) in Ho. unfold read_ids.
    destruct (find_unresolved_shuffles (plan_of_stage x)) as [|u us] eqn:Hu; [done|]. apply Forall_cons in Ho as [Ho _].
    assert (us_stage_id u ∈ concat (read_ids <$> plans)) as Hin.
    { apply elem_of_concat. exists (read_ids (plan_of_stage x)). unfold read_ids at 1. rewrite Hu. split; [by left|].
      apply list_elem_of_fmap_2. by eapply list_elem_of_lookup_2. }
    rewrite (planned_reads _ _ _ _ _ Hp Hs Hr) in Hin. apply elem_of_seq in Hin. lia. }
  rewrite Hnone in Hwait. destruct x as [s|s|s|s|s]; try done; [by destruct Hwait|]. by exists s.
Qed.
End jobs.

(** ** Witnesses *)

Lemma planning_terminates_witness :
  ∃ r, ∀ fuel, 4 * height sample_query ≤ fuel → plan_query_stages "job" sample_config fuel sample_query = Some r.
Proof. apply (planning_terminates "job" sample_config sample_query). Defined.

Lemma stages_form_a_tree_witness :
  writer_stage_id <$> sample_stages = seq 1 (length sample_stages) ∧
  concat (read_ids <$> sample_stages) ≡ₚ seq 1 (length sample_stages - 1) ∧
  (∀ w i, w ∈ sample_stages → i ∈ read_ids w → i < writer_stage_id w) ∧
  (∀ w u, w ∈ sample_stages → u ∈ find_unresolved_shuffles w →
     ∃ w', sample_stages !! (us_stage_id u - 1) = Some w' ∧ stands_for u w').
Proof. apply (stages_form_a_tree "job" sample_config 20 sample_query sample_stages sample_query_planned); done. Defined.


Definition sample_job : option StaticExecutionGraph.t :=
  match graph_new 20 5 "scheduler" "job" "name" "session" sample_query 1 sample_session None with Some (Ok g) => Some g | _ => None end.

Lemma new_job_follows_the_plans_witness :
  ∃ g (plans : list ExecutionPlan), sample_job = Some g ∧ length plans = 4 ∧
    (∀ id, is_Some (StaticExecutionGraph.stages g !! id) ↔ 1 ≤ id ≤ length plans) ∧
    keyed g ∧ all_wf g ∧
    (∃ s, StaticExecutionGraph.stages g !! 1 = Some (Resolved s)).
Proof.
  eexists.
  edestruct (new_job_follows_the_plans 20 5 "scheduler" "job" "name" "session" sample_query 1 sample_session None)
    as (plans & Hp & Hdom & Hk & Hwf & Hone & _); [reflexivity|done..|].
  exists plans. split; [reflexivity|]. split; [|done]. vm_compute in Hp. by injection Hp as <-.
Defined.

Lemma rollback_undoes_resolution_witness :
  ∃ w r, remove_unresolved {[1 := ∅; 2 := ∅]} w = Ok r ∧ find_unresolved_shuffles w ≠ [] ∧
    ((∃ b, rollback_resolved r.1 = Ok (w, b)) ∧ find_unresolved_shuffles r.1 = [] ∧
     schema_of r.1 = schema_of w ∧ output_partitioning r.1 = output_partitioning w).
Proof.
  do 2 eexists. assert (remove_unresolved {[1 := ∅; 2 := ∅]} (nth 2 sample_stages (scan "a" [])) = Ok _) as Hr by reflexivity.
  split; [exact Hr|]. split; [done|].
  eapply (rollback_undoes_resolution "job" sample_config 20 sample_query sample_stages); [apply sample_query_planned|done..| |exact Hr].
  do 2 apply list_elem_of_further. apply list_elem_of_here.
Defined.
