(* ===== verification/AdaptivePlan.v ===== *)
(** * Plans of adaptive execution

    Models [scheduler/src/state/aqe/execution_plan/exchange.rs] and [adaptive.rs], the
    nodes that stand for the stage boundaries of a job that is planned while it runs, and
    [scheduler/src/state/aqe/optimizer_rule/distributed_exchange.rs], the rule that places
    them. What a boundary learns at run time is in cells that all copies of its node
    share; the cells are a heap here, and a node has the name of its cells. *)

From stdpp Require Import numbers gmap strings.
From S2P Require Import Prelude Errors Machine Types Stage PhysicalPlan TaskPlan Planner.

(** ** Nodes *)

Section nodes.
Context `{PlanTypes}.

(** [RangeRepartitionRouting] *)
Record RangeRouting : Type := mkRangeRouting {
  routing_cuts : list Scalar;
  routing_nulls_first : bool;
  routing_expr : Expr;
}.

(** The shared cells of an exchange: [stage_id], [shuffle_partitions], [coalesce] and
    [range_repartition_routing] are cloned together. *)
Record ExchangeCells : Type := mkCells {
  cell_stage_id : Z;
  cell_partitions : option (list (list PartitionLocation.t));
  cell_coalesce : option CoalescePlan;
  cell_routing : option RangeRouting;
}.

Definition new_cells : ExchangeCells := mkCells (-1) None None None.

(** An [ExchangeExec] without its input *)
Record ExchangeExec : Type := mkExchange {
  ex_partitioning : option Partitioning;
  ex_plan_id : nat;
  ex_cells : nat;
  ex_broadcast : bool;
  ex_inactive_stage : bool;
}.

(** A plan below the root of a job *)
Inductive AdaptivePlan : Type :=
| ALeaf (l : Leaf)
| ANode (k : Kind) (inputs : list AdaptivePlan)
| AExchange (x : ExchangeExec) (input : AdaptivePlan).

Definition a_children (p : AdaptivePlan) : list AdaptivePlan :=
  match p with ALeaf _ => [] | ANode _ cs => cs | AExchange _ input => [input] end.

(** The shared cells of an [AdaptiveDatafusionExec] *)
Record RootCells : Type := mkRootCells {
  root_stage_id : Z;
  root_partitions : option (list (list PartitionLocation.t));
  root_is_final : bool;
}.

Definition new_root_cells : RootCells := mkRootCells (-1) None false.

(** An [AdaptiveDatafusionExec] without its input *)
Record AdaptiveDatafusionExec : Type := mkAdaptive { ad_plan_id : nat; ad_cells : nat }.

(** The plan of a job, or of a stage of it: an [AdaptiveDatafusionExec] is only ever
    wrapped around a whole plan. *)
Inductive JobPlan : Type :=
| Adaptive (root : AdaptiveDatafusionExec) (input : AdaptivePlan)
| Bare (p : AdaptivePlan).

(** Induction that reaches into the lists of children *)
Lemma adaptive_ind (P : AdaptivePlan → Prop) :
  (∀ l, P (ALeaf l)) → (∀ k cs, Forall P cs → P (ANode k cs)) → (∀ x input, P input → P (AExchange x input)) →
  ∀ p, P p.
Proof.
  intros Hl Hn Hx.
  refine (fix go p := match p with ALeaf l => Hl l | ANode k cs => Hn k cs _ | AExchange x i => Hx x i (go i) end).
  induction cs as [|c cs IH]; constructor; [apply go|exact IH].
Qed.

(** ** The heap *)

(** The cells, the next free name, and [plan_id_generator]. The two counters are
    machine words that no plan comes near to filling. *)
Record Heap : Type := mkHeap {
  exchange_cells : gmap nat ExchangeCells;
  adaptive_cells : gmap nat RootCells;
  next_cells : nat;
  plan_id_generator : nat;
}.

Definition cells (h : Heap) (x : ExchangeExec) : ExchangeCells := default new_cells (exchange_cells h !! ex_cells x).
Definition root_cells (h : Heap) (r : AdaptiveDatafusionExec) : RootCells :=
  default new_root_cells (adaptive_cells h !! ad_cells r).

Definition set_cells (x : ExchangeExec) (c : ExchangeCells) (h : Heap) : Heap :=
  mkHeap (<[ex_cells x := c]> (exchange_cells h)) (adaptive_cells h) (next_cells h) (plan_id_generator h).
Definition set_root_cells (r : AdaptiveDatafusionExec) (c : RootCells) (h : Heap) : Heap :=
  mkHeap (exchange_cells h) (<[ad_cells r := c]> (adaptive_cells h)) (next_cells h) (plan_id_generator h).

(** *** [ExchangeExec] *)

Definition shuffle_created (h : Heap) (x : ExchangeExec) : bool := bool_decide (is_Some (cell_partitions (cells h x))).

Definition shuffle_partitions (h : Heap) (x : ExchangeExec) : option (list (list PartitionLocation.t)) :=
  cell_partitions (cells h x).

Definition resolve_shuffle_partitions (x : ExchangeExec) (partitions : list (list PartitionLocation.t)) (h : Heap)
  : Heap :=
  let c := cells h x in
  set_cells x (mkCells (cell_stage_id c) (Some partitions) (cell_coalesce c) (cell_routing c)) h.

Definition shuffle_partitions_flattened (h : Heap) (x : ExchangeExec) : list PartitionLocation.t :=
  concat (default [] (cell_partitions (cells h x))).

(** [id as i64] *)
Definition i64_of_nat (id : nat) : Z := let z := (Z.of_nat id `mod` 2 ^ 64)%Z in if (z <? 2 ^ 63)%Z then z else (z - 2 ^ 64)%Z.

Definition set_stage_id (x : ExchangeExec) (id : nat) (h : Heap) : Heap :=
  let c := cells h x in
  set_cells x (mkCells (i64_of_nat id) (cell_partitions c) (cell_coalesce c) (cell_routing c)) h.

Definition id_of_cell (z : Z) : option nat := if (0 <=? z)%Z then Some (Z.to_nat z) else None.

Definition exchange_stage_id (h : Heap) (x : ExchangeExec) : option nat := id_of_cell (cell_stage_id (cells h x)).

Definition set_coalesce (x : ExchangeExec) (cp : CoalescePlan) (h : Heap) : Heap :=
  let c := cells h x in
  set_cells x (mkCells (cell_stage_id c) (cell_partitions c) (Some cp) (cell_routing c)) h.

Definition resolve_range_repartition_routing (x : ExchangeExec) (routing : RangeRouting) (h : Heap) : Heap :=
  let c := cells h x in
  set_cells x (mkCells (cell_stage_id c) (cell_partitions c) (cell_coalesce c) (Some routing)) h.

(** [to_broadcast]: the copy shares the cells. *)
Definition to_broadcast (x : ExchangeExec) (plan_id : nat) : ExchangeExec :=
  mkExchange None plan_id (ex_cells x) true (ex_inactive_stage x).

(** *** [AdaptiveDatafusionExec] *)

Definition root_shuffle_created (h : Heap) (r : AdaptiveDatafusionExec) : bool :=
  bool_decide (is_Some (root_partitions (root_cells h r))).

Definition root_resolve_shuffle_partitions (r : AdaptiveDatafusionExec) (partitions : list (list PartitionLocation.t))
    (h : Heap) : Heap :=
  let c := root_cells h r in set_root_cells r (mkRootCells (root_stage_id c) (Some partitions) (root_is_final c)) h.

Definition root_set_stage_id (r : AdaptiveDatafusionExec) (id : nat) (h : Heap) : Heap :=
  let c := root_cells h r in set_root_cells r (mkRootCells (i64_of_nat id) (root_partitions c) (root_is_final c)) h.

Definition adaptive_stage_id (h : Heap) (r : AdaptiveDatafusionExec) : option nat :=
  id_of_cell (root_stage_id (root_cells h r)).

Definition set_final_plan (r : AdaptiveDatafusionExec) (h : Heap) : Heap :=
  let c := root_cells h r in set_root_cells r (mkRootCells (root_stage_id c) (root_partitions c) true) h.
End nodes.

Abbreviation Rule := (M DataFusionError Heap).

Section exchange_new.
Context `{PlanTypes}.

(** [ExchangeExec::new] with the next plan id: the cells are new. *)
Definition exchange_new (input : AdaptivePlan) (partitioning : option Partitioning) : Rule AdaptivePlan := λ h,
  (Ok (AExchange (mkExchange partitioning (plan_id_generator h) (next_cells h) false false) input),
   mkHeap (<[next_cells h := new_cells]> (exchange_cells h)) (adaptive_cells h) (S (next_cells h))
     (S (plan_id_generator h))).

(** [AdaptiveDatafusionExec::new] with the next plan id *)
Definition adaptive_new (input : AdaptivePlan) : Rule JobPlan := λ h,
  (Ok (Adaptive (mkAdaptive (plan_id_generator h) (next_cells h)) input),
   mkHeap (exchange_cells h) (<[next_cells h := new_root_cells]> (adaptive_cells h)) (S (next_cells h))
     (S (plan_id_generator h))).
End exchange_new.

(** ** What is used of DataFusion *)

(** A rewritten plan with the flag whether it is a new object *)
Abbreviation a_rewritten := (AdaptivePlan * bool)%type.

Class AdaptiveOps `{RebuildOps} : Type := {
  (** A node is rebuilt over new children. *)
  a_rebuilds : Kind → list AdaptivePlan → list AdaptivePlan → bool;
  output_ordering : AdaptivePlan → option LexOrdering;
  (** [preserves_partitioning] of the operators that are not told apart here *)
  op_preserves_partitioning : Op → bool;
  (** [total_byte_size] of the statistics of a scan *)
  scan_byte_size : Leaf → df_result Precision;
}.

Section properties.
Context `{AdaptiveOps}.

(** The partitioning [new_with_details] gives an exchange *)
Definition exchange_partitioning (x : ExchangeExec) (input : Partitioning) : Partitioning :=
  match ex_partitioning x, ex_broadcast x with
  | Some p, false => p
  | None, false => input
  | _, true => UnknownPartitioning 1
  end.

Fixpoint a_partitioning (p : AdaptivePlan) : Partitioning :=
  match p with
  | ALeaf l => leaf_partitioning l
  | ANode k cs => node_partitioning k (a_partitioning <$> cs)
  | AExchange x input => exchange_partitioning x (a_partitioning input)
  end.

Definition a_count (p : AdaptivePlan) : nat := partition_count (a_partitioning p).

Fixpoint a_schema (p : AdaptivePlan) : Schema :=
  match p with
  | ALeaf l => leaf_schema l
  | ANode k cs => schema_at k (a_schema <$> cs)
  | AExchange _ input => a_schema input
  end.

(** ** Replacing children *)

(** [RangeFilterExec] and [PrefixMergeExec] check their bounds and state against the
    partitions of the new input. *)
Definition a_with_new_children (k : Kind) (old new : list AdaptivePlan) : df_result AdaptivePlan :=
  match k, new with
  | RangeFilter f (Some raw), [c] =>
      if negb (length raw =? a_count c) then
        Err (internal "RangeFilterExec: raw_bounds.len() ({}) does not match input partition count ({partition_count})")
      else if forallb (bound_widens f) raw then Ok (ANode k new)
      else Err (internal "RangeFilterExec: widened bound produced inverted [{l}, {h})")
  | RangeFilter _ None, [_] => Ok (ANode k new)
  | PrefixMerge applies state, [c] =>
      if match state with Some s => negb (length s =? a_count c) | None => false end then
        Err (internal "PrefixMergeExec: per_partition_state.len() {} does not match input partition count {}")
      else if forallb (offsets_match (a_count c)) applies then Ok (ANode k new)
      else Err (internal "PrefixMergeExec: applies[{i}] Scalar offset.len() {} does not match input partition count {}")
  | (RangeFilter _ _ | PrefixMerge _ _), _ => Err (internal "expects exactly one child, got {}")
  | _, _ => if a_rebuilds k old new then Ok (ANode k new) else Err (DF_Other "with_new_children")
  end.

(** [map_children] and [replace_children_if_necessary] *)
Definition a_replace_children (k : Kind) (old : list AdaptivePlan) (new : list a_rewritten) : df_result a_rewritten :=
  if existsb snd new then let? p := a_with_new_children k old (fst <$> new) in Ok (p, true)
  else Ok (ANode k old, false).

Definition a_traverse {A : Type} (f : AdaptivePlan → Rule A) : list AdaptivePlan → Rule (list A) :=
  fix go l :=
    match l with
    | [] => mret []
    | p :: l' => let! a := f p in let! rest := go l' in mret (a :: rest)
    end.

(** ** Where an exchange is needed *)

Inductive ExchangeStatus : Type := StatusAbsent | StatusResolved | StatusUnresolved.

(** The loop over the children of [nearest_exchange_status] *)
Definition combine_status (status : AdaptivePlan → ExchangeStatus) : bool → list AdaptivePlan → ExchangeStatus :=
  fix go found_resolved cs :=
    match cs with
    | [] => if found_resolved : bool then StatusResolved else StatusAbsent
    | c :: cs' =>
        match status c with
        | StatusUnresolved => StatusUnresolved
        | StatusResolved => go true cs'
        | StatusAbsent => go found_resolved cs'
        end
    end.

Fixpoint nearest_exchange_status (h : Heap) (p : AdaptivePlan) : ExchangeStatus :=
  match p with
  | AExchange x _ => if shuffle_created h x && negb (ex_inactive_stage x) then StatusResolved else StatusUnresolved
  | ANode _ cs => combine_status (nearest_exchange_status h) false cs
  | ALeaf _ => StatusAbsent
  end.

Definition unresolved_below (h : Heap) (p : AdaptivePlan) : bool :=
  match nearest_exchange_status h p with StatusUnresolved => true | _ => false end.

Definition is_exchange (p : AdaptivePlan) : bool := match p with AExchange _ _ => true | _ => false end.

Definition is_stage_boundary (p : AdaptivePlan) : bool :=
  match p with
  | AExchange _ _ => true
  | ANode (RangeFilter _ _) [child] => is_exchange child
  | _ => false
  end.

Definition a_is_coalesce (p : AdaptivePlan) : bool :=
  match p with ANode CoalescePartitions _ => true | _ => false end.

Definition usize_saturating_add (a b : N) : N := ((a + b) `min` usize_max)%N.

(** [collect_scan_bytes]: the bytes and the number of scans so far; [None] is [false]. *)
Fixpoint collect_scan_bytes (p : AdaptivePlan) (total_bytes : N) (leaves : nat) : df_result (option (N * nat)) :=
  match p with
  | ALeaf (FileScan _ _ as l) | ALeaf (MemoryScan _ _ as l) | ALeaf (OtherSource _ _ as l) =>
      let? size := scan_byte_size l in
      match size with
      | Exact bytes => Ok (Some (usize_saturating_add total_bytes bytes, S leaves))
      | _ => Ok None
      end
  | ANode (Projection _) cs =>
      (fix go cs total_bytes leaves :=
         match cs with
         | [] => Ok (Some (total_bytes, leaves))
         | c :: cs' =>
             let? r := collect_scan_bytes c total_bytes leaves in
             match r with
             | Some (total_bytes, leaves) => go cs' total_bytes leaves
             | None => Ok None
             end
         end) cs total_bytes leaves
  | _ => Ok None
  end.

Definition is_inlinable_scan_pipeline (p : AdaptivePlan) (max_bytes : N) : df_result bool :=
  if (max_bytes =? 0)%N then Ok false
  else
    let? r := collect_scan_bytes p 0 0 in
    match r with
    | Some (scan_bytes, leaves) => Ok ((0 <? leaves) && (scan_bytes <=? max_bytes)%N)
    | None => Ok false
    end.

(** [preserves_partitioning] of [core/src/execution_plans/plan_algebra.rs] *)
Definition preserves_partitioning (p : AdaptivePlan) : bool :=
  match p with
  | ANode (Projection _ | ShuffleWriter _ _ | RangeShuffleWriter _ _ | SortShuffleWriter _ _ _) _ => true
  | ANode (OtherOp o) _ => op_preserves_partitioning o
  | _ => false
  end.

Definition is_range_repartition (p : AdaptivePlan) : bool :=
  match p with ANode (UnorderedRangeRepartition _ _ | OrderedRangeRepartition _ _) _ => true | _ => false end.

Definition can_be_range_repartitioned (p : AdaptivePlan) : df_result bool :=
  if negb (preserves_partitioning p) then Ok false
  else
    match a_children p with
    | [child] =>
        if negb (is_range_repartition child) then Ok false
        else
          match p with
          | ANode (Projection _) _ =>
              Err (DF_Other "range-repartitioned child under `{}`: routing expression cannot be safely remapped to the boundary schema")
          | _ => Ok true
          end
    | _ => Ok false
    end.
End properties.

(** ** [DistributedExchangeRule] *)

Section rule.
Context `{AdaptiveOps} (broadcast_threshold_bytes : N).

Definition unchanged (p : AdaptivePlan) : Rule a_rewritten := mret (p, false).

(** [ExchangeExec::new] over the input of a node, and [replace_children] of the node *)
Definition exchange_below (k : Kind) (input : AdaptivePlan) : Rule a_rewritten :=
  let! x := exchange_new input None in
  let! p := mlift (a_with_new_children k [input] [x]) in
  mret (p, true).

(** The probe side of a null-aware join is coalesced, over an exchange. *)
Definition coalesce_probe (j : HashJoinExec) (lhs rhs : AdaptivePlan) : Rule a_rewritten := λ h,
  (let! probe :=
     if negb (is_exchange rhs) && negb (unresolved_below h rhs) then exchange_new rhs None else mret rhs in
   let! p := mlift (a_with_new_children (HashJoin j) [lhs; rhs] [lhs; ANode CoalescePartitions [probe]]) in
   mret (p, true)) h.

(** The loop of the rule over the children of a node with several *)
Fixpoint any_range_repartitioned (cs : list AdaptivePlan) : df_result bool :=
  match cs with
  | [] => Ok false
  | c :: cs' =>
      let? r := can_be_range_repartitioned c in
      let? rest := any_range_repartitioned cs' in Ok (r || rest)
  end.

(** The last arm: an exchange over a range-repartitioned child *)
Definition range_arm (rebuild : AdaptivePlan → Rule a_rewritten) (p : AdaptivePlan) (children : list AdaptivePlan)
  : Rule a_rewritten :=
  match children with
  | [] => unchanged p
  | [child] =>
      let! r := mlift (can_be_range_repartitioned child) in
      if r : bool then rebuild child else unchanged p
  | _ =>
      let! r := mlift (any_range_repartitioned children) in
      if r : bool then
        merr (DF_Other "range-repartitioned child under multi-child parent `{}`: cross-stage cut coordination is not yet implemented")
      else unchanged p
  end.

Definition is_collect_left (j : HashJoinExec) : bool :=
  match partition_mode j with CollectLeft => true | _ => false end.

Definition transform (p : AdaptivePlan) : Rule a_rewritten := λ h,
  (match p with
   | ANode (HashJoin j) [lhs; rhs] =>
       if null_aware j && is_collect_left j && negb (a_is_coalesce rhs) then coalesce_probe j lhs rhs
       else range_arm unchanged p [lhs; rhs]
   | ANode CoalescePartitions [input] =>
       if negb (is_exchange input) && negb (unresolved_below h input) then
         let! inlinable := mlift (is_inlinable_scan_pipeline input broadcast_threshold_bytes) in
         if negb inlinable then exchange_below CoalescePartitions input else unchanged p
       else unchanged p
   | ANode (SortPreservingMerge ordering fetch) [input] =>
       if negb (is_stage_boundary input) && negb (unresolved_below h input) then
         exchange_below (SortPreservingMerge ordering fetch) input
       else unchanged p
   | ANode (Repartition (Hash exprs n)) [input] =>
       if negb (unresolved_below h input) then
         let! x := exchange_new input (Some (Hash exprs n)) in mret (x, true)
       else unchanged p
   | AExchange _ _ => unchanged p
   | ANode k cs => range_arm (exchange_below k) p cs
   | ALeaf _ => unchanged p
   end) h.

(** [transform_up]: the children, the node over the new ones, then the node itself *)
Fixpoint transform_up (p : AdaptivePlan) : Rule a_rewritten :=
  match p with
  | ALeaf _ => transform p
  | ANode k cs =>
      let! new := a_traverse transform_up cs in
      let! q := mlift (a_replace_children k cs new) in
      let! r := transform q.1 in
      mret (r.1, q.2 || r.2)
  | AExchange x input =>
      let! new := transform_up input in
      let! r := transform (AExchange x new.1) in
      mret (r.1, new.2 || r.2)
  end.

(** [optimize]: the wrapper around the whole plan is added the first time. *)
Definition distributed_exchange (plan : JobPlan) : Rule JobPlan :=
  match plan with
  | Adaptive root input =>
      let! new := transform_up input in
      let! r := range_arm (λ child, let! x := exchange_new child None in mret (x, true)) new.1 [new.1] in
      mret (Adaptive root r.1)
  | Bare p =>
      let! new := transform_up p in
      let! r := mlift (can_be_range_repartitioned new.1) in
      let! inner := if r : bool then exchange_new new.1 None else mret new.1 in
      adaptive_new inner
  end.
End rule.
