(* ===== verification/Adapter.v ===== *)
(** * From adaptive plans to stages

    Models [scheduler/src/state/aqe/adapter.rs], which turns the plan below a stage
    boundary into the plan of a stage, and
    [scheduler/src/state/aqe/optimizer_rule/coalesce_partitions.rs], which decides how the
    inputs of a stage are coalesced. Bounds that the adapter puts on a range filter are
    written to the plan it is given; they depend on the cells of the exchange below only. *)

From stdpp Require Import numbers gmap strings.
From S2P Require Import Prelude Errors Machine Types Stage Coalesce PhysicalPlan TaskPlan Planner AdaptivePlan.

(** ** Coalescing the inputs of a stage *)

(** The options of [BallistaConfig] that the rule reads *)
Record CoalesceConfig : Type := mkCoalesceConfig {
  coalesce_enabled : bool;
  target_partition_bytes : N;
  small_partition_factor : f64;
  merged_partition_factor : f64;
}.

Section coalesce_rule.
Context `{AdaptiveOps}.

Definition job_input (p : JobPlan) : option AdaptivePlan :=
  match p with
  | Adaptive _ input | Bare (AExchange _ input) => Some input
  | Bare _ => None
  end.

(** The exchanges that feed a stage, each with its input *)
Fixpoint leaf_exchanges (p : AdaptivePlan) : list (ExchangeExec * AdaptivePlan) :=
  match p with
  | AExchange x input => [(x, input)]
  | ANode _ cs => (fix go cs := match cs with [] => [] | c :: cs' => leaf_exchanges c ++ go cs' end) cs
  | ALeaf _ => []
  end.

Definition location_bytes (locs : list PartitionLocation.t) : N :=
  foldl u64_add 0%N (omap (λ l, num_bytes (PartitionLocation.partition_stats l)) locs).

(** [summed[i] += …]: an index past the end panics. *)
Fixpoint add_sizes (i : nat) (parts : list (list PartitionLocation.t)) (summed : list N) : df_result (list N) :=
  match parts with
  | [] => Ok summed
  | locs :: parts' =>
      match summed !! i with
      | Some n => add_sizes (S i) parts' (<[i := u64_add n (location_bytes locs)]> summed)
      | None => Panic
      end
  end.

(** The loop over the exchanges; [None] is an exchange that is not resolved. *)
Fixpoint sum_sizes_of (h : Heap) (leaves : list (ExchangeExec * AdaptivePlan)) (summed : list N)
  : df_result (option (list N)) :=
  match leaves with
  | [] => Ok (Some summed)
  | (x, _) :: leaves' =>
      match shuffle_partitions h x with
      | None => Ok None
      | Some parts => let? summed := add_sizes 0 parts summed in sum_sizes_of h leaves' summed
      end
  end.

(** The group plan of the exchanges [leaves], if they are coalesced *)
Definition coalesce_decision (config : CoalesceConfig) (h : Heap) (leaves : list (ExchangeExec * AdaptivePlan))
  : df_result (option CoalescePlan) :=
  let leaf_count l := partition_count (exchange_partitioning l.1 (a_partitioning l.2)) in
  match leaves with
  | [] => Ok None
  | first :: _ =>
      if existsb (λ l, ex_broadcast l.1) leaves then Ok None
      else if existsb (λ l, bool_decide (is_Some (cell_routing (cells h l.1)))) leaves then Ok None
      else
        let m := leaf_count first in
        if existsb (λ l, negb (leaf_count l =? m)) leaves then Ok None
        else
          let? summed := sum_sizes_of h leaves (replicate m 0%N) in
          match summed with
          | None => Ok None
          | Some summed =>
              let starts :=
                split_size_list_by_target_size (target_partition_bytes config) (small_partition_factor config)
                  (merged_partition_factor config) summed in
              let k := length starts in
              if (m <=? k) || (k <=? 1) then Ok None
              else
                Ok (Some (mkCoalesce (u32_of_nat m)
                  (mkGroup ∘ Coalesce.upstream_indices <$> start_indices_to_partition_groups starts m)))
          end
  end.

(** [CoalescePartitionsRule::optimize]: the plan stays as it is, the cells of the
    exchanges change. *)
Definition coalesce_partitions (config : CoalesceConfig) (plan : JobPlan) : Rule JobPlan := λ h,
  if negb (coalesce_enabled config) then (Ok plan, h)
  else
    match job_input plan with
    | None => (Ok plan, h)
    | Some input =>
        let leaves := leaf_exchanges input in
        match coalesce_decision config h leaves with
        | Ok None => (Ok plan, h)
        | Ok (Some cp) => (Ok plan, foldl (λ h l, set_coalesce l.1 cp h) h leaves)
        | Err e => (Err e, h)
        | Panic => (Panic, h)
        end
    end.
End coalesce_rule.

(** ** The adapter *)

(** What is used of a range filter: its expression is that of a routing, its bounds *)
Class FilterOps `{AdaptiveOps} : Type := {
  filter_expr_is : FilterConfig → Expr → bool;
  range_bound : option Scalar → option Scalar → RangeBound;
  widened_bound : FilterConfig → RangeBound → WidenedBound;
}.

(** [AdaptiveStageInfo] *)
Record AdaptiveStageInfo `{PlanTypes} : Type := mkStageInfo {
  info_plan : ExecutionPlan;
  info_inputs : gmap nat StageOutput.t;
}.

Section adapter.
Context `{FilterOps} (job_id : JobId).

Fixpoint is_range_repartitioned (p : AdaptivePlan) : bool :=
  match p with
  | ANode (UnorderedRangeRepartition _ _ | OrderedRangeRepartition _ _) _ => true
  | ANode (Repartition _ | SortPreservingMerge _ _) _ | AExchange _ _ => false
  | ANode _ [child] => is_range_repartitioned child
  | _ => false
  end.

Definition use_range_shuffle_writer (writer : ExecutionPlan) (x : ExchangeExec) (input : AdaptivePlan)
  : df_result ExecutionPlan :=
  if ex_broadcast x || bool_decide (output_ordering input = None) || negb (is_range_repartitioned input) then Ok writer
  else
    match writer with
    | Node (ShuffleWriter job_id stage_id) [input] => Ok (Node (RangeShuffleWriter job_id stage_id) [input])
    | Node (ShuffleWriter _ _) _ => Err (internal "ShuffleWriterExec must have exactly 1 child, got {}")
    | _ => Ok writer
    end.

(** *** Readers *)

(** Computations that record the inputs of the stage *)
Abbreviation Adapt := (M DataFusionError (gmap nat StageOutput.t)).

Definition read_group (partitions : list (list PartitionLocation.t)) (pg : PartitionGroup)
  : list PartitionLocation.t := concat (omap (λ idx, partitions !! idx) (upstream_indices pg)).

(** The reader for the partitions of the exchange *)
Definition reader_of (h : Heap) (x : ExchangeExec) (input : AdaptivePlan) (fetch : option nat) (stage_id : nat)
    (partitions : list (list PartitionLocation.t)) : Leaf :=
  let schema := a_schema input in
  let partitioning := exchange_partitioning x (a_partitioning input) in
  match cell_coalesce (cells h x), ex_broadcast x with
  | Some cp, false =>
      let k := length (c_groups cp) in
      let new_partitioning := match partitioning with Hash keys _ => Hash keys k | _ => UnknownPartitioning k end in
      ShuffleReader (shuffle_reader_try_new_coalesced stage_id (read_group partitions <$> c_groups cp) cp schema
                       new_partitioning)
  | None, false =>
      match output_ordering input with
      | Some ordering =>
          RangeShuffleReader (with_fetch_limit fetch (range_reader_try_new stage_id partitions schema ordering))
      | None => ShuffleReader (shuffle_reader_try_new stage_id partitions schema partitioning)
      end
  | _, true =>
      ShuffleReader (shuffle_reader_try_new_broadcast stage_id (shuffle_partitions_flattened h x) schema
                       (a_count input))
  end.

Definition collected_output (partitions : list (list PartitionLocation.t)) : StageOutput.t :=
  let o := foldl (λ o l, StageOutput.add_partition l o) StageOutput.new (concat partitions) in
  StageOutput.mk (StageOutput.partition_locations o) true.

Definition build_reader (h : Heap) (x : ExchangeExec) (input : AdaptivePlan) (fetch : option nat) : Adapt Leaf :=
  match shuffle_partitions h x with
  | None => merr (DF_Other "partitions have to be resolved at this point")
  | Some partitions =>
      match exchange_stage_id h x with
      | None => merr (DF_Other "stage ID has to be generated at this point")
      | Some stage_id =>
          mmodify (λ inputs, <[stage_id := collected_output partitions]> inputs) ;;;
          mret (reader_of h x input fetch stage_id partitions)
      end
  end.

Definition adapt_all (f : AdaptivePlan → Adapt a_rewritten) : list AdaptivePlan → Adapt (list a_rewritten) :=
  fix go l :=
    match l with
    | [] => mret []
    | p :: l' => let! a := f p in let! rest := go l' in mret (a :: rest)
    end.

(** [transform_down] with [transform_children]: a reader has no children to go on with. *)
Fixpoint transform_children (h : Heap) (p : AdaptivePlan) : Adapt a_rewritten :=
  match p with
  | AExchange x input => let! r := build_reader h x input None in mret (ALeaf r, true)
  | ANode (SortPreservingMerge ordering (Some fetch)) [AExchange x input] =>
      let! r := build_reader h x input (Some fetch) in
      mlift (a_replace_children (SortPreservingMerge ordering (Some fetch)) (a_children p) [(ALeaf r, true)])
  | ANode k cs => let! new := adapt_all (transform_children h) cs in mlift (a_replace_children k cs new)
  | ALeaf _ => mret (p, false)
  end.

(** *** Range filters *)

(** [descend_to_boundary_routing] *)
Fixpoint descend_to_boundary_routing (h : Heap) (p : AdaptivePlan) : df_result RangeRouting :=
  match p with
  | AExchange x _ =>
      match cell_routing (cells h x) with
      | Some routing => Ok routing
      | None => Err (internal "RangeFilterExec's descendant ExchangeExec has no resolved range-repartition routing yet")
      end
  | ANode _ [child] => descend_to_boundary_routing h child
  | _ => Err (internal "RangeFilterExec descent hit a fork at `{}` ({} children)")
  end.

(** [raw_bounds_from_cuts] *)
Definition bounds_from_cuts (cuts : list Scalar) : list RangeBound :=
  (λ i, range_bound (match i with 0 => None | S j => cuts !! j end) (cuts !! i)) <$> seq 0 (length cuts + 1).

(** [resolve_range_filter_cuts] at a filter without bounds over [child] *)
Definition resolve_filter (h : Heap) (f : FilterConfig) (child : AdaptivePlan) : df_result (list RangeBound) :=
  let? routing := descend_to_boundary_routing h child in
  if negb (filter_expr_is f (routing_expr routing)) then
    Err (internal "RangeFilterExec filter_expr `{}` disagrees with its descendant boundary ExchangeExec's routing_expr `{}`")
  else
    let raw := bounds_from_cuts (routing_cuts routing) in
    if negb (length raw =? a_count child) then
      Err (internal "RangeFilterExec: raw_bounds.len() ({}) does not match input partition count ({partition_count})")
    else if forallb (bound_widens f) raw then Ok raw
    else Err (internal "RangeFilterExec: widened bound produced inverted [{l}, {h})").

Fixpoint resolve_range_filter_cuts (h : Heap) (p : AdaptivePlan) : df_result AdaptivePlan :=
  match p with
  | ALeaf _ => Ok p
  | ANode (RangeFilter f None) [child] =>
      let? raw := resolve_filter h f child in
      let? child := resolve_range_filter_cuts h child in
      Ok (ANode (RangeFilter f (Some raw)) [child])
  | ANode (RangeFilter f None) _ => Err (internal "RangeFilterExec must have exactly 1 child, got {}")
  | ANode k cs => let? cs := traverse (resolve_range_filter_cuts h) cs in Ok (ANode k cs)
  | AExchange x input => let? input := resolve_range_filter_cuts h input in Ok (AExchange x input)
  end.

(** [attach_reader_bounds]: the filter directly above a range reader *)
Fixpoint attach_reader_bounds (p : AdaptivePlan) : df_result a_rewritten :=
  match p with
  | ANode (RangeFilter f (Some raw)) [ALeaf (RangeShuffleReader r)] =>
      if negb (length raw =? length (rr_partition r)) then Ok (p, false)
      else
        let? r := with_bounds (widened_bound f <$> raw) r in
        a_replace_children (RangeFilter f (Some raw)) (a_children p) [(ALeaf (RangeShuffleReader r), true)]
  | ANode k cs => let? new := traverse attach_reader_bounds cs in a_replace_children k cs new
  | AExchange x input => let? new := attach_reader_bounds input in Ok (AExchange x new.1, new.2)
  | ALeaf _ => Ok (p, false)
  end.

(** *** The plan of a stage *)

(** A plan without exchanges *)
Fixpoint without_exchanges (p : AdaptivePlan) : option ExecutionPlan :=
  match p with
  | ALeaf l => Some (LeafNode l)
  | ANode k cs =>
      (λ cs, Node k cs) <$>
        (fix go cs :=
           match cs with
           | [] => Some []
           | c :: cs' => q ← without_exchanges c; qs ← go cs'; Some (q :: qs)
           end) cs
  | AExchange _ _ => None
  end.

(** The input of a boundary with its exchanges turned into readers *)
Definition adapt_input (h : Heap) (input : AdaptivePlan) : Adapt ExecutionPlan :=
  let! input := mlift (resolve_range_filter_cuts h input) in
  let! p := transform_children h input in
  let! p := mlift (attach_reader_bounds p.1) in
  match without_exchanges p.1 with
  | Some p => mret p
  | None => mpanic
  end.

Definition create_writer (stage_id : nat) (plan : ExecutionPlan) (partitioning : option Partitioning)
  : df_result ExecutionPlan :=
  match create_shuffle_writer_with_config job_id stage_id plan partitioning with
  | Ok writer => Ok writer
  | Err e => Err (DF_External (ExtBallista e))
  | Panic => Panic
  end.

Definition adapt_to_ballista (h : Heap) (plan : JobPlan) : df_result AdaptiveStageInfo :=
  match plan with
  | Bare (AExchange x input) =>
      let '(o, inputs) := adapt_input h input ∅ in
      let? p := o in
      match exchange_stage_id h x with
      | None => Err (DF_Other "shuffle partitions have to be resolved at this point")
      | Some stage_id =>
          let? writer := create_writer stage_id p (ex_partitioning x) in
          let? writer := use_range_shuffle_writer writer x input in
          Ok (mkStageInfo _ writer inputs)
      end
  | Adaptive r input =>
      let '(o, inputs) := adapt_input h input ∅ in
      let? p := o in
      match adaptive_stage_id h r with
      | None => Err (DF_Other "shuffle partitions have to be resolved at this point")
      | Some stage_id => let? writer := create_writer stage_id p None in Ok (mkStageInfo _ writer inputs)
      end
  | Bare _ => Err (DF_Other "Root exec expected to be either ExchangeExec or AdaptiveDatafusionExec")
  end.
End adapter.
