(* ===== verification/AdaptivePlanner.v ===== *)
(** * The adaptive planner

    Models [AdaptivePlanner] of [scheduler/src/state/aqe/planner.rs]: the plan of a job
    whose boundaries are resolved as stages finish, the stages that can run, the outputs
    that their tasks report, and the replanning after a stage. The optimizer rules that run
    before [DistributedExchangeRule], DataFusion's among them, are a parameter. *)

From stdpp Require Import numbers gmap strings.
From S2P Require Import Prelude Errors Machine Types Stage Graph PhysicalPlan TaskPlan Planner AdaptivePlan Adapter.

(** The session of the job: the options, and the optimizer rules up to the last one *)
Class SessionOps `{PlanTypes} : Type := {
  broadcast_threshold_bytes : N;
  coalesce_config : CoalesceConfig;
  earlier_rules : JobPlan → Rule JobPlan;
}.

Record AdaptivePlanner `{PlanTypes} : Type := mkPlanner {
  stage_id_generator : nat;
  plan : JobPlan;
  runnable_stage_cache : gmap nat JobPlan;
  runnable_stage_output : gmap nat StageOutput.t;
  heap : Heap;
}.

Section planner.
Context `{FilterOps} `{!SessionOps} `{MapOrder} (job_id : JobId).
Abbreviation Step := (M DataFusionError AdaptivePlanner).

(** Field assignments *)
Definition set_plan (x : JobPlan) (s : AdaptivePlanner) : AdaptivePlanner :=
  mkPlanner _ (stage_id_generator s) x (runnable_stage_cache s) (runnable_stage_output s) (heap s).
Definition set_cache (x : gmap nat JobPlan) (s : AdaptivePlanner) : AdaptivePlanner :=
  mkPlanner _ (stage_id_generator s) (plan s) x (runnable_stage_output s) (heap s).
Definition set_output (x : gmap nat StageOutput.t) (s : AdaptivePlanner) : AdaptivePlanner :=
  mkPlanner _ (stage_id_generator s) (plan s) (runnable_stage_cache s) x (heap s).
Definition set_heap (x : Heap) (s : AdaptivePlanner) : AdaptivePlanner :=
  mkPlanner _ (stage_id_generator s) (plan s) (runnable_stage_cache s) (runnable_stage_output s) x.

(** A rule, run on the heap of the planner *)
Definition on_heap {A : Type} (m : Rule A) : Step A := λ s, let '(o, h) := m (heap s) in (o, set_heap h s).

(** [optimize_physical_plan] with the rules of [default_optimizers] *)
Definition optimize_physical_plan (p : JobPlan) : Rule JobPlan :=
  let! p := earlier_rules p in distributed_exchange broadcast_threshold_bytes p.

(** [try_new_with_optimizers] *)
Definition try_new_with_optimizers (p : AdaptivePlan) (h : Heap) : df_result AdaptivePlanner :=
  let '(o, h) := optimize_physical_plan (Bare p) h in
  let? p := o in Ok (mkPlanner _ 0 p ∅ ∅ h).

Definition cancel_stage (stage_id : nat) (s : AdaptivePlanner) : AdaptivePlanner :=
  set_cache (delete stage_id (runnable_stage_cache s)) s.

Definition is_stage_active (stage_id : nat) (s : AdaptivePlanner) : bool :=
  bool_decide (is_Some (runnable_stage_cache s !! stage_id)).

Definition set_repartition_routing (stage_id : nat) (routing : RangeRouting) : Step unit := λ s,
  match runnable_stage_cache s !! stage_id with
  | None => (Err (internal "set_repartition_routing: stage {stage_id} not in runnable cache"), s)
  | Some (Bare (AExchange x _)) => (Ok tt, set_heap (resolve_range_repartition_routing x routing (heap s)) s)
  | Some _ => (Err (internal "set_repartition_routing: stage {stage_id} boundary is {}, not ExchangeExec"), s)
  end.

Definition replan_stages : Step unit := λ s,
  match optimize_physical_plan (plan s) (heap s) with
  | (Ok p, h) => (Ok tt, set_plan p (set_heap h s))
  | (Err e, h) => (Err e, set_heap h s)
  | (Panic, h) => (Panic, set_heap h s)
  end.

Definition finalise_stage_internal (stage_id : nat) (partitions : list (list PartitionLocation.t)) : Step unit := λ s,
  let s' := set_cache (delete stage_id (runnable_stage_cache s)) s in
  match runnable_stage_cache s !! stage_id with
  | Some (Bare (AExchange x _)) => replan_stages (set_heap (resolve_shuffle_partitions x partitions (heap s')) s')
  | Some (Adaptive r _) => replan_stages (set_heap (root_resolve_shuffle_partitions r partitions (heap s')) s')
  | _ => (Err (DF_Other "cant find stage_id {} or stage root node is incorrect "), s')
  end.

Definition update_exchange_locations (stage_id : nat) (partitions : list PartitionLocation.t) : Step unit := λ s,
  match runnable_stage_output s !! stage_id with
  | Some stage_output =>
      (Ok tt,
       set_output (<[stage_id := foldl (λ o l, StageOutput.add_partition l o) stage_output partitions]>
                     (runnable_stage_output s)) s)
  | None => (Err (DF_Other "Can't find active stage to update stage outputs"), s)
  end.

Definition remove_exchange_locations (stage_id : nat) (executor_id : string) (s : AdaptivePlanner) : AdaptivePlanner :=
  match runnable_stage_output s !! stage_id with
  | Some o =>
      set_output (<[stage_id := StageOutput.mk
                      (StageOutput.retain_not executor_id <$> StageOutput.partition_locations o)
                      (StageOutput.complete o)]> (runnable_stage_output s)) s
  | None => s
  end.

(** [partition_locations_broadcast]: one list per partition that has locations, in the
    order the map is visited in *)
Definition partition_locations_broadcast (o : StageOutput.t) : list (list PartitionLocation.t) :=
  (iter_map (StageOutput.partition_locations o)).*2.

(** [output_partitioning().partition_count()] of a boundary *)
Definition boundary_count (p : JobPlan) : nat :=
  match p with Adaptive _ input | Bare input => a_count input end.

Definition is_broadcast (p : JobPlan) : bool :=
  match p with Bare (AExchange x _) => ex_broadcast x | _ => false end.

Definition take_stage_output_partitions (stage_id : nat) : Step (list (list PartitionLocation.t)) := λ s,
  match runnable_stage_cache s !! stage_id with
  | None => (Err (DF_Other "Can't find active cache resolve"), s)
  | Some stage =>
      let s' := set_output (delete stage_id (runnable_stage_output s)) s in
      match runnable_stage_output s !! stage_id with
      | None => (Err (DF_Other "Can't find active stage to resolve"), s')
      | Some o =>
          (Ok (if is_broadcast stage then partition_locations_broadcast o
               else StageOutput.to_vec (boundary_count stage) o), s')
      end
  end.

Definition resolve_stage_partitions (stage_id : nat) (partitions : list (list PartitionLocation.t)) : Step unit :=
  finalise_stage_internal stage_id partitions.

(** ** Stages that can run *)

(** [find_runnable_exchanges]: the exchanges found, and whether there is a boundary that
    is not resolved; an exchange has a single child. *)
Fixpoint find_runnable_exchanges (h : Heap) (p : AdaptivePlan) : list (ExchangeExec * AdaptivePlan) * bool :=
  match p with
  | AExchange x input =>
      if shuffle_created h x then ([], false)
      else
        let '(below, has_runnable_children) := find_runnable_exchanges h input in
        (if has_runnable_children : bool then below else below ++ [(x, input)], true)
  | ANode _ cs =>
      (fix go cs :=
         match cs with
         | [] => ([], false)
         | c :: cs' =>
             let '(found, b) := find_runnable_exchanges h c in
             let '(found', b') := go cs' in
             (found ++ found', b || b')
         end) cs
  | ALeaf _ => ([], false)
  end.

Definition find_runnable (h : Heap) (p : JobPlan) : list (ExchangeExec * AdaptivePlan) :=
  match p with Adaptive _ input | Bare input => (find_runnable_exchanges h input).1 end.

(** A new stage for a boundary: its entry in the cache and in the outputs, the next id *)
Definition register_stage (boundary : JobPlan) (h : Heap) (s : AdaptivePlanner) : AdaptivePlanner :=
  mkPlanner _ (S (stage_id_generator s)) (plan s)
    (<[stage_id_generator s := boundary]> (runnable_stage_cache s))
    (<[stage_id_generator s := StageOutput.new]> (runnable_stage_output s)) h.

(** The loop over the exchanges found *)
Fixpoint start_exchanges (found : list (ExchangeExec * AdaptivePlan)) (s : AdaptivePlanner)
  : list JobPlan * AdaptivePlanner :=
  match found with
  | [] => ([], s)
  | (x, input) :: found' =>
      if ex_inactive_stage x then start_exchanges found' s
      else
        let exec := Bare (AExchange x input) in
        let s :=
          match exchange_stage_id (heap s) x with
          | None => register_stage exec (set_stage_id x (stage_id_generator s) (heap s)) s
          | Some _ => s
          end in
        let '(runnable, s) := start_exchanges found' s in (exec :: runnable, s)
  end.

Definition identify_runnable_stages : Step (option (list JobPlan)) := λ s,
  match find_runnable (heap s) (plan s) with
  | (_ :: _) as found => let '(runnable, s) := start_exchanges found s in (Ok (Some runnable), s)
  | [] =>
      match plan s with
      | Adaptive root _ =>
          if root_shuffle_created (heap s) root then (Ok None, s)
          else
            match adaptive_stage_id (heap s) root with
            | Some _ => (Ok (Some [plan s]), s)
            | None =>
                (Ok (Some [plan s]),
                 register_stage (plan s)
                   (set_final_plan root (root_set_stage_id root (stage_id_generator s) (heap s))) s)
            end
      | Bare _ => (Err (DF_Other "Plan root is not a AdaptiveDatafusionExec"), s)
      end
  end.

(** The stages one after the other: how the inputs are coalesced, then the adapter *)
Fixpoint adapt_stages (stages : list JobPlan) : Step (list AdaptiveStageInfo) :=
  match stages with
  | [] => mret []
  | stage :: stages' =>
      let! stage := on_heap (coalesce_partitions coalesce_config stage) in
      let! s := mget in
      let! info := mlift (adapt_to_ballista job_id (heap s) stage) in
      let! infos := adapt_stages stages' in
      mret (info :: infos)
  end.

(** The stage ids that a call of [actionable_stages] gives up *)
Definition stale_stages (running : gset nat) (s : AdaptivePlanner) : gset nat := dom (runnable_stage_cache s) ∖ running.

Definition actionable_stages : Step (option (list AdaptiveStageInfo) * gset nat) :=
  let! stages := identify_runnable_stages in
  match stages with
  | None => let! s := mget in mret (None, stale_stages ∅ s)
  | Some stages =>
      let! infos := adapt_stages stages in
      let! s := mget in
      mret (Some infos, stale_stages (list_to_set (writer_stage_id ∘ info_plan <$> infos)) s)
  end.
End planner.
