(* ===== verification/AdaptiveFacts.v ===== *)
(** * Stage boundaries of adaptive plans

    The exchange rule leaves no operator without the boundary it needs, unless a boundary
    below it is still open; and what is found to run has no open boundary below. *)

From stdpp Require Import numbers gmap strings.
From S2P Require Import Prelude Errors Machine Types Stage Graph PhysicalPlan TaskPlan Planner AdaptivePlan Adapter AdaptivePlanner.

(** ** Growing heaps *)

Section heaps.
Context `{PlanTypes}.

(** Cells are only added, and new ones hold nothing. *)
Definition extends (h h' : Heap) : Prop :=
  next_cells h ≤ next_cells h' ∧
  (∀ c, exchange_cells h' !! c = exchange_cells h !! c ∨
        next_cells h ≤ c ∧ exchange_cells h' !! c = Some new_cells) ∧
  (∀ c, adaptive_cells h' !! c = adaptive_cells h !! c ∨
        next_cells h ≤ c ∧ adaptive_cells h' !! c = Some new_root_cells).

#[export] Instance extends_preorder : PreOrder extends.
Proof.
  split.
  - intros h. split; [done|]. split; intros c; by left.
  - intros h1 h2 h3 (Hn & He & Ha) (Hn' & He' & Ha'). split; [lia|]. split; intros c.
    + destruct (He' c) as [->|[? ->]]; [by apply He|]. right. split; [lia|done].
    + destruct (Ha' c) as [->|[? ->]]; [by apply Ha|]. right. split; [lia|done].
Qed.

(** A property of all exchanges of a plan, also of those below exchanges *)
Fixpoint every_exchange (P : ExchangeExec → Prop) (p : AdaptivePlan) : Prop :=
  match p with
  | ALeaf _ => True
  | ANode _ cs => (fix go cs := match cs with [] => True | c :: cs' => every_exchange P c ∧ go cs' end) cs
  | AExchange x input => P x ∧ every_exchange P input
  end.

Lemma every_exchange_node P k cs : every_exchange P (ANode k cs) ↔ Forall (every_exchange P) cs.
Proof. simpl. induction cs as [|c cs IH]; [by split|]. rewrite Forall_cons, IH. done. Qed.

Lemma every_exchange_mono (P Q : ExchangeExec → Prop) p :
  (∀ x, P x → Q x) → every_exchange P p → every_exchange Q p.
Proof.
  intros HPQ. induction p as [l|k cs IH|x input IH] using adaptive_ind; [done| |].
  - rewrite !every_exchange_node. intros Hcs. rewrite Forall_forall in IH, Hcs |- *. auto.
  - intros [Hx Hi]. split; auto.
Qed.

(** The exchanges have their cells in the heap, and may run. *)
Definition known (h : Heap) (x : ExchangeExec) : Prop := ex_cells x < next_cells h ∧ ex_inactive_stage x = false.
Lemma known_extends h h' x : extends h h' → known h x → known h' x.
Proof. intros (? & _) [? ?]. split; [lia|done]. Qed.

Lemma known_in_extends h h' p : extends h h' → every_exchange (known h) p → every_exchange (known h') p.
Proof. intros He. apply every_exchange_mono. intros x. by apply known_extends. Qed.

Lemma cells_extends h h' x : extends h h' → known h x → cells h' x = cells h x.
Proof. intros (_ & He & _) [? _]. unfold cells. by destruct (He (ex_cells x)) as [->|[? _]]; [|lia]. Qed.
End heaps.

Abbreviation known_in h := (every_exchange (known h)).

Section rule.
Context `{AdaptiveOps} (threshold : N).

(** ** Open boundaries *)

Lemma combine_unresolved status found cs :
  combine_status status found cs = StatusUnresolved ↔ Exists (λ c, status c = StatusUnresolved) cs.
Proof.
  revert found. induction cs as [|c cs IH]; intros found; simpl.
  - rewrite Exists_nil. by destruct found.
  - rewrite Exists_cons. destruct (status c) eqn:Hc; rewrite ?IH; naive_solver.
Qed.

Lemma unresolved_node h k cs : unresolved_below h (ANode k cs) = true ↔ Exists (λ c, unresolved_below h c = true) cs.
Proof.
  assert (Hu : ∀ p, unresolved_below h p = true ↔ nearest_exchange_status h p = StatusUnresolved).
  { intros p. unfold unresolved_below. by destruct (nearest_exchange_status h p). }
  rewrite Hu. simpl. rewrite combine_unresolved. apply Exists_proper; [|done]. intros c. by rewrite Hu.
Qed.

Lemma unresolved_exchange h x input :
  ex_inactive_stage x = false → unresolved_below h (AExchange x input) = negb (shuffle_created h x).
Proof. intros Hx. unfold unresolved_below. simpl. rewrite Hx. by destruct (shuffle_created h x). Qed.

Lemma created_extends h h' x : extends h h' → known h x → shuffle_created h' x = shuffle_created h x.
Proof. intros He Hk. unfold shuffle_created. by rewrite (cells_extends h h'). Qed.

Lemma unresolved_extends h h' p : extends h h' → known_in h p → unresolved_below h' p = unresolved_below h p.
Proof.
  intros He. induction p as [l|k cs IH|x input IH] using adaptive_ind; [done| |].
  - rewrite every_exchange_node. intros Hcs. apply eq_bool_prop_intro. rewrite !Is_true_true, !unresolved_node, !Exists_exists.
    rewrite list.Forall_forall in IH, Hcs. split; intros (c & Hc & Hu); exists c; (split; [done|]).
    + by rewrite <- IH by auto.
    + by rewrite IH by auto.
  - intros [[? Hin] _]. rewrite !unresolved_exchange by done. f_equal. by apply created_extends.
Qed.
(** ** Operators that need a boundary below them *)

Definition inlinable (p : AdaptivePlan) : bool :=
  match is_inlinable_scan_pipeline p threshold with Ok b => b | _ => false end.

Definition range_repartitioned (p : AdaptivePlan) : bool :=
  match can_be_range_repartitioned p with Ok b => b | _ => false end.

(** The operator moves rows between partitions, and there is no boundary directly below it. *)
Definition needs_exchange (p : AdaptivePlan) : bool :=
  match p with
  | ANode (HashJoin j) [_; rhs] => null_aware j && is_collect_left j && negb (a_is_coalesce rhs)
  | ANode CoalescePartitions [input] => negb (is_exchange input) && negb (inlinable input)
  | ANode (SortPreservingMerge _ _) [input] => negb (is_stage_boundary input)
  | ANode (Repartition (Hash _ _)) [_] => true
  | ANode _ [child] => range_repartitioned child
  | _ => false
  end.

(** Every such operator of the plan waits for a boundary that is still open. *)
Fixpoint settled (h : Heap) (p : AdaptivePlan) : Prop :=
  (needs_exchange p = true → unresolved_below h p = true) ∧
  match p with
  | ALeaf _ => True
  | ANode _ cs => (fix go cs := match cs with [] => True | c :: cs' => settled h c ∧ go cs' end) cs
  | AExchange _ input => settled h input
  end.

Lemma settled_node h k cs :
  settled h (ANode k cs) ↔
  (needs_exchange (ANode k cs) = true → unresolved_below h (ANode k cs) = true) ∧ Forall (settled h) cs.
Proof. cbn [settled]. f_equiv. induction cs as [|c cs IH]; [by split|]. rewrite Forall_cons, IH. done. Qed.

Lemma settled_exchange h x input : settled h (AExchange x input) ↔ settled h input.
Proof. cbn [settled]. split; [by intros [_ ?]|]. intros Hs. split; [|done]. by destruct x. Qed.

Lemma settled_extends h h' p : extends h h' → known_in h p → settled h p → settled h' p.
Proof.
  intros He. induction p as [l|k cs IH|x input IH] using adaptive_ind.
  - intros _ [Hs _]. by split.
  - intros Hk. rewrite !settled_node. intros [Hn Hcs]. split.
    + intros Hne. rewrite (unresolved_extends h h') by done. auto.
    + apply every_exchange_node in Hk. rewrite list.Forall_forall in IH, Hk, Hcs |- *. auto.
  - intros [_ Hk]. rewrite !settled_exchange. auto.
Qed.

(** ** One step of the rule *)

(** What a rewriting of [p] to [q] keeps *)
Definition rewrites (h : Heap) (p : AdaptivePlan) (h' : Heap) (r : a_rewritten) : Prop :=
  extends h h' ∧ known_in h' r.1 ∧ settled h' r.1 ∧ (r.2 = false → r.1 = p).

Lemma a_with_new_children_ok k old new p : a_with_new_children k old new = Ok p → p = ANode k new.
Proof. unfold a_with_new_children. intros Hp. repeat case_match; by simplify_eq. Qed.

Lemma exchange_new_ok input part h p h' :
  exchange_new input part h = (Ok p, h') →
  ∃ x, p = AExchange x input ∧ extends h h' ∧ known h' x ∧ shuffle_created h' x = false.
Proof.
  unfold exchange_new. intros [= <- <-]. eexists. split; [done|]. split; [|split].
  - split; [simpl; lia|]. split; [|by left]. intros c. simpl. destruct (decide (c = next_cells h)) as [->|Hc].
    + right. by rewrite lookup_insert_eq.
    + left. by rewrite lookup_insert_ne by done.
  - split; simpl; [lia|done].
  - unfold shuffle_created, cells. simpl. by rewrite lookup_insert_eq.
Qed.

Lemma exchange_not_range x input : range_repartitioned (AExchange x input) = false.
Proof. done. Qed.

Lemma unchanged_ok p h r h' :
  unchanged p h = (Ok r, h') → known_in h p → settled h p → rewrites h p h' r.
Proof. intros [= <- <-] Hk Hs. done. Qed.

Lemma exchange_below_ok k input h r h' :
  exchange_below k input h = (Ok r, h') → known_in h input → settled h input →
  match k with Repartition (Hash _ _) => False | _ => True end → rewrites h (ANode k [input]) h' r.
Proof.
  intros Hr Hk Hs Hkind. unfold exchange_below in Hr.
  apply mthen_ok in Hr as (p & h1 & Hp & Hr). apply exchange_new_ok in Hp as (x & -> & He & Hx & Hc).
  apply mthen_ok in Hr as (q & h2 & [Hq ->]%mlift_ok & [= <- <-]). apply a_with_new_children_ok in Hq as ->.
  split; [done|]. split; [|split; [|done]].
  - cbn. split; [|done]. split; [done|]. by apply (known_in_extends h).
  - cbn [fst]. rewrite settled_node. split.
    + intros Hne. destruct k as [| | | [| | |] | | | | | | | | | | ]; try done.
    + constructor; [|done]. apply settled_exchange. by apply (settled_extends h).
Qed.

Lemma range_arm_ok rebuild p cs h r h' :
  range_arm rebuild p cs h = (Ok r, h') → known_in h p → Forall (settled h) cs →
  (needs_exchange p = true → ∃ child, cs = [child] ∧ range_repartitioned child = true) →
  (∀ child, cs = [child] → settled h child → rebuild child h = (Ok r, h') → rewrites h p h' r) →
  (Forall (settled h) cs → needs_exchange p = false → settled h p) →
  rewrites h p h' r.
Proof.
  intros Hr Hk Hcs Hne Hrebuild Hset. unfold range_arm in Hr.
  destruct cs as [|child [|child' cs]].
  - eapply unchanged_ok; eauto. apply Hset; [done|]. destruct (needs_exchange p); [|done]. by destruct Hne as (? & ? & _).
  - apply mthen_ok in Hr as (b & h1 & [Hb ->]%mlift_ok & Hr). destruct b.
    + eapply Hrebuild; eauto. by inversion Hcs.
    + eapply unchanged_ok; eauto. apply Hset; [done|]. destruct (needs_exchange p); [|done].
      destruct Hne as (c & [= <-] & Hc); [done|]. unfold range_repartitioned in Hc. by rewrite Hb in Hc.
  - apply mthen_ok in Hr as (b & h1 & [Hb ->]%mlift_ok & Hr). destruct b; [done|].
    eapply unchanged_ok; eauto. apply Hset; [done|]. destruct (needs_exchange p); [|done]. by destruct Hne as (? & ? & _).
Qed.

Lemma coalesce_probe_ok j lhs rhs h r h' :
  coalesce_probe j lhs rhs h = (Ok r, h') → known_in h lhs → known_in h rhs → settled h lhs → settled h rhs →
  rewrites h (ANode (HashJoin j) [lhs; rhs]) h' r.
Proof.
  intros Hr Hkl Hkr Hsl Hsr. unfold coalesce_probe in Hr. apply mthen_ok in Hr as (probe & h1 & Hp & Hr).
  assert (extends h h1 ∧ known_in h1 probe ∧ settled h1 probe ∧ (is_exchange probe = true ∨ unresolved_below h1 probe = true))
    as (He & Hk & Hs & Hcl).
  { destruct (is_exchange rhs) eqn:Hx; cbn [negb andb] in Hp; [injection Hp as <- <-; by split_and!; [..|left]|].
    destruct (unresolved_below h rhs) eqn:Hu; cbn [negb andb] in Hp; [injection Hp as <- <-; by split_and!; [..|right]|].
    apply exchange_new_ok in Hp as (x & -> & He & Hx' & Hc). split; [done|]. split; [|split; [|by left]].
    - split; [done|]. by apply (known_in_extends h).
    - apply settled_exchange. by apply (settled_extends h). }
  apply mthen_ok in Hr as (q & h2 & [Hq ->]%mlift_ok & [= <- <-]). apply a_with_new_children_ok in Hq as ->.
  split; [done|]. split; [|split; [|done]]; cbn [fst].
  - cbn. split; [by apply (known_in_extends h)|]. done.
  - rewrite settled_node. split; [cbn; by rewrite andb_false_r|].
    constructor; [by apply (settled_extends h)|]. constructor; [|done]. rewrite settled_node. split; [|by constructor].
    cbn [needs_exchange]. intros [Hx _]%andb_prop. apply unresolved_node. constructor.
    destruct Hcl as [Hcl|Hcl]; [|done]. by rewrite Hcl in Hx.
Qed.

Lemma settled_by h k cs :
  Forall (settled h) cs → needs_exchange (ANode k cs) = false → settled h (ANode k cs).
Proof. intros Hcs Hn. rewrite settled_node, Hn. done. Qed.

Lemma settled_open h k input :
  settled h input → unresolved_below h input = true → settled h (ANode k [input]).
Proof.
  intros Hs Hu. rewrite settled_node. split; [intros _|by constructor]. apply unresolved_node. by constructor.
Qed.

(** The single input of a node *)
Lemma known_input h k input : known_in h (ANode k [input]) → known_in h input.
Proof. by intros [? _]. Qed.

Lemma transform_coalesce_ok input h r h' :
  transform threshold (ANode CoalescePartitions [input]) h = (Ok r, h') → known_in h input → settled h input →
  rewrites h (ANode CoalescePartitions [input]) h' r.
Proof.
  intros Hr Hk Hs. unfold transform in Hr.
  destruct (negb (is_exchange input) && negb (unresolved_below h input)) eqn:Hg.
  - apply mthen_ok in Hr as (b & h1 & [Hb ->]%mlift_ok & Hr). destruct b; cbn [negb] in Hr.
    + eapply unchanged_ok; [done|by split|]. apply settled_by; [by constructor|].
      cbn [needs_exchange]. unfold inlinable. rewrite Hb. apply andb_false_r.
    + by eapply exchange_below_ok.
  - eapply unchanged_ok; [done|by split|]. apply andb_false_iff in Hg as [Hg|Hg]; apply negb_false_iff in Hg.
    + apply settled_by; [by constructor|]. cbn [needs_exchange]. by rewrite Hg.
    + by apply settled_open.
Qed.

Lemma transform_merge_ok ordering fetch input h r h' :
  transform threshold (ANode (SortPreservingMerge ordering fetch) [input]) h = (Ok r, h') →
  known_in h input → settled h input → rewrites h (ANode (SortPreservingMerge ordering fetch) [input]) h' r.
Proof.
  intros Hr Hk Hs. unfold transform in Hr.
  destruct (negb (is_stage_boundary input) && negb (unresolved_below h input)) eqn:Hg.
  - by eapply exchange_below_ok.
  - eapply unchanged_ok; [done|by split|]. apply andb_false_iff in Hg as [Hg|Hg]; [|apply negb_false_iff in Hg].
    + by apply settled_by; [constructor|].
    + by apply settled_open.
Qed.

Lemma transform_hash_ok exprs n input h r h' :
  transform threshold (ANode (Repartition (Hash exprs n)) [input]) h = (Ok r, h') →
  known_in h input → settled h input → rewrites h (ANode (Repartition (Hash exprs n)) [input]) h' r.
Proof.
  intros Hr Hk Hs. unfold transform in Hr. destruct (unresolved_below h input) eqn:Hu; cbn [negb] in Hr.
  - eapply unchanged_ok; [done|by split|]. by apply settled_open.
  - apply mthen_ok in Hr as (p & h1 & Hp & [= <- <-]). apply exchange_new_ok in Hp as (x & -> & He & Hx & Hc).
    split; [done|]. split; [|split; [|done]].
    + split; [done|]. by apply (known_in_extends h).
    + apply settled_exchange. by apply (settled_extends h).
Qed.

Lemma transform_join_ok j lhs rhs h r h' :
  transform threshold (ANode (HashJoin j) [lhs; rhs]) h = (Ok r, h') → known_in h lhs → known_in h rhs →
  settled h lhs → settled h rhs → rewrites h (ANode (HashJoin j) [lhs; rhs]) h' r.
Proof.
  intros Hr Hkl Hkr Hsl Hsr. unfold transform in Hr.
  destruct (null_aware j && is_collect_left j && negb (a_is_coalesce rhs)) eqn:Hg.
  - by eapply coalesce_probe_ok.
  - eapply range_arm_ok; [done|by repeat split|by repeat constructor| |done|].
    + cbn [needs_exchange]. by rewrite Hg.
    + apply settled_by.
Qed.

(** The kinds with an arm of their own, over the children they have *)
Definition special (k : Kind) (cs : list AdaptivePlan) : Prop :=
  match k, cs with
  | HashJoin _, [_; _] | (CoalescePartitions | SortPreservingMerge _ _ | Repartition (Hash _ _)), [_] => True
  | _, _ => False
  end.

Lemma transform_other_ok k cs h r h' :
  transform threshold (ANode k cs) h = (Ok r, h') → known_in h (ANode k cs) → Forall (settled h) cs →
  ¬ special k cs → rewrites h (ANode k cs) h' r.
Proof.
  intros Hr Hk Hcs Hsp.
  assert (Ha : range_arm (exchange_below k) (ANode k cs) cs h = (Ok r, h')).
  { unfold transform in Hr. unfold special in Hsp. repeat case_match; simplify_eq; try done; by destruct Hsp. }
  eapply range_arm_ok; [done..| | |].
  - cbn [needs_exchange]. intros Hn. unfold special in Hsp. repeat case_match; simplify_eq; try done; eauto; by destruct Hsp.
  - intros child -> Hs Hb. eapply exchange_below_ok; [done|by apply known_input in Hk|done|].
    unfold special in Hsp. repeat case_match; try done; by apply Hsp.
  - intros _. by apply settled_by.
Qed.

(** A node over children that are settled *)
Lemma transform_node_ok k cs h r h' :
  transform threshold (ANode k cs) h = (Ok r, h') → known_in h (ANode k cs) → Forall (settled h) cs →
  rewrites h (ANode k cs) h' r.
Proof.
  intros Hr Hk Hcs.
  assert (special k cs ∨ ¬ special k cs) as [Hsp|Hsp] by (unfold special; repeat case_match; tauto);
    [|by apply transform_other_ok].
  assert (Hk' := Hk). rewrite every_exchange_node in Hk'. unfold special in Hsp.
  repeat case_match; try done; simplify_eq; repeat match goal with H : Forall _ (_ :: _) |- _ => inversion_clear H end.
  - by apply transform_coalesce_ok.
  - by apply transform_merge_ok.
  - by apply transform_hash_ok.
  - by apply transform_join_ok.
Qed.

(** ** The whole rule *)

Lemma a_replace_children_ok k cs new q :
  a_replace_children k cs new = Ok q → Forall2 (λ c r, r.2 = false → r.1 = c) cs new →
  q.1 = ANode k new.*1 ∧ (q.2 = false → q.1 = ANode k cs).
Proof.
  unfold a_replace_children. intros Hq Hnew. destruct (existsb snd new) eqn:Hf.
  - destruct (a_with_new_children k cs new.*1) as [p| |] eqn:Hp; simplify_eq/=.
    by apply a_with_new_children_ok in Hp as ->.
  - injection Hq as <-. simpl. split; [|done]. f_equal. symmetry. clear k.
    induction Hnew as [|c r cs new Hr _ IH]; [done|]. cbn in Hf |- *. apply orb_false_iff in Hf as [Hr' Hf].
    rewrite Hr by done. f_equal. by apply IH.
Qed.

Lemma rewrites_later h h1 h2 p r : extends h1 h2 → rewrites h p h1 r → rewrites h p h2 r.
Proof.
  intros He (He' & Hk & Hs & Hf). split; [by etrans|]. split; [by apply (known_in_extends h1)|].
  split; [|done]. by apply (settled_extends h1).
Qed.

Lemma a_traverse_ok (f : AdaptivePlan → Rule a_rewritten) cs h new h' :
  a_traverse f cs h = (Ok new, h') → Forall (known_in h) cs →
  Forall (λ c, ∀ h r h', f c h = (Ok r, h') → known_in h c → rewrites h c h' r) cs →
  extends h h' ∧ Forall2 (λ c r, rewrites h c h' r) cs new.
Proof.
  intros Hr Hk Hf. revert h new Hr Hk. induction cs as [|c cs IH]; intros h new Hr Hk; cbn in Hr.
  - injection Hr as <- <-. by split.
  - apply mthen_ok in Hr as (a & h1 & Ha & Hr). apply mthen_ok in Hr as (rest & h2 & Hrest & [= <- <-]).
    inversion_clear Hk as [|? ? Hkc Hkcs]. inversion_clear Hf as [|? ? Hfc Hfcs].
    assert (Hc := Hfc _ _ _ Ha Hkc). assert (He := proj1 Hc).
    destruct (IH Hfcs h1 rest) as [He' Hall].
    { done. }
    { eapply Forall_impl; [exact Hkcs|]. intros p. by apply known_in_extends. }
    split; [by etrans|]. constructor; [by apply (rewrites_later h h1)|].
    eapply Forall2_impl; [exact Hall|]. intros p r (He2 & Hrest2). split; [by etrans|done].
Qed.

Lemma transform_up_ok p h r h' :
  transform_up threshold p h = (Ok r, h') → known_in h p → rewrites h p h' r.
Proof.
  revert h r h'. induction p as [l|k cs IH|x input IH] using adaptive_ind; intros h r h' Hr Hk; cbn in Hr.
  - injection Hr as <- <-. done.
  - apply mthen_ok in Hr as (new & h1 & Hnew & Hr). apply mthen_ok in Hr as (q & h2 & [Hq ->]%mlift_ok & Hr).
    apply mthen_ok in Hr as (t & h3 & Ht & [= <- <-]).
    apply a_traverse_ok in Hnew as [He Hall]; [|by apply every_exchange_node in Hk|done].
    apply a_replace_children_ok in Hq as [Hq Hsame].
    2:{ eapply Forall2_impl; [exact Hall|]. by intros c r (_ & _ & _ & ?). }
    rewrite Hq in Ht. apply transform_node_ok in Ht as (He' & Hkt & Hst & Hft).
    + split; [by etrans|]. split; [done|]. split; [done|]. cbn. intros [Hf1 Hf2]%orb_false_iff.
      rewrite Hft by done. by rewrite <- Hq, Hsame.
    + apply every_exchange_node, list.Forall_forall. intros c (b & -> & Hb)%list_elem_of_fmap.
      destruct (list_elem_of_lookup_1 _ _ Hb) as [i Hi]. destruct (Forall2_lookup_r _ _ _ _ _ Hall Hi) as (c & _ & _ & ? & _). done.
    + apply list.Forall_forall. intros c (b & -> & Hb)%list_elem_of_fmap.
      destruct (list_elem_of_lookup_1 _ _ Hb) as [i Hi]. destruct (Forall2_lookup_r _ _ _ _ _ Hall Hi) as (c & _ & _ & _ & ? & _). done.
  - apply mthen_ok in Hr as (new & h1 & Hnew & Hr). apply mthen_ok in Hr as (t & h2 & [= <- <-] & [= <- <-]).
    destruct Hk as [Hx Hk]. apply IH in Hnew as (He & Hkn & Hsn & Hf); [|done].
    split; [done|]. split; [split; [by apply (known_extends h)|done]|]. split; [by apply settled_exchange|].
    cbn. rewrite orb_false_r. intros Hfl. by rewrite Hf.
Qed.

(** The plan of a job *)
Definition job_known (h : Heap) (p : JobPlan) : Prop :=
  match p with
  | Adaptive root input => ad_cells root < next_cells h ∧ known_in h input
  | Bare input => known_in h input
  end.

(** A plan that the rule is done with *)
Definition job_settled (h : Heap) (p : JobPlan) : Prop :=
  match p with
  | Adaptive _ input => settled h input ∧ range_repartitioned input = false
  | Bare _ => False
  end.

Lemma boundary_over_ok p h b q h' :
  (if b : bool then exchange_new p None else mret p) h = (Ok q, h') → can_be_range_repartitioned p = Ok b →
  known_in h p → settled h p → extends h h' ∧ known_in h' q ∧ settled h' q ∧ range_repartitioned q = false.
Proof.
  intros Hq Hb Hk Hs. destruct b.
  - apply exchange_new_ok in Hq as (y & -> & He & Hy & _). split; [done|]. split; [split; [done|]|split; [|done]].
    + by apply (known_in_extends h).
    + apply settled_exchange. by apply (settled_extends h).
  - injection Hq as <- <-. split_and!; [done..|]. unfold range_repartitioned. by rewrite Hb.
Qed.

Lemma distributed_exchange_ok p h q h' :
  distributed_exchange threshold p h = (Ok q, h') → job_known h p →
  extends h h' ∧ job_known h' q ∧ job_settled h' q.
Proof.
  destruct p as [root input|p]; cbn; intros Hr Hk.
  - destruct Hk as [Hroot Hk]. apply mthen_ok in Hr as (new & h1 & Hnew & Hr).
    apply transform_up_ok in Hnew as (He & Hkn & Hsn & _); [|done].
    apply mthen_ok in Hr as (t & h2 & Ht & [= <- <-]).
    apply mthen_ok in Ht as (b & h3 & [Hb ->]%mlift_ok & Ht).
    assert ((if b then exchange_new new.1 None else mret new.1) h1 = (Ok t.1, h2)) as Hq.
    { destruct b; [|by injection Ht as <- <-]. by apply mthen_ok in Ht as (x & h4 & Hx & [= <- <-]). }
    apply boundary_over_ok in Hq as (He' & ? & ? & ?); [|done..].
    split; [by etrans|]. destruct He as [? _], He' as [? _]. split; [split; [lia|done]|done].
  - apply mthen_ok in Hr as (new & h1 & Hnew & Hr). apply transform_up_ok in Hnew as (He & Hkn & Hsn & _); [|done].
    apply mthen_ok in Hr as (b & h3 & [Hb ->]%mlift_ok & Ht).
    apply mthen_ok in Ht as (inner & h4 & Hi & [= <- <-]).
    apply boundary_over_ok in Hi as (He' & Hki & Hsi & Hri); [|done..].
    assert (extends h4 (mkHeap (exchange_cells h4) (<[next_cells h4:=new_root_cells]> (adaptive_cells h4))
                          (S (next_cells h4)) (S (plan_id_generator h4)))) as He4.
    { split; [simpl; lia|]. split; [intros c; by left|]. intros c. simpl. destruct (decide (c = next_cells h4)) as [->|Hc].
      - right. by rewrite lookup_insert_eq.
      - left. by rewrite lookup_insert_ne by done. }
    split; [by etrans; [etrans|]|]. split; [split; [simpl; lia|by apply (known_in_extends h4)]|].
    split; [by apply (settled_extends h4)|done].
Qed.
End rule.
