(* ===== verification/AdapterFacts.v ===== *)
(** * What the adapter keeps of a plan

    The passes of the adapter replace exchanges by readers and leave the other operators
    where they are, so a plan whose operators have the boundaries they need becomes a stage
    in which they read the output of other stages. *)

From stdpp Require Import numbers gmap strings.
From S2P Require Import Prelude Errors Machine Types Stage Graph PhysicalPlan TaskPlan TaskPlanFacts Planner PlannerFacts AdaptivePlan Adapter AdaptivePlanner AdaptiveFacts.

(** ** Boundaries that are not open *)

Section runnable.
Context `{AdaptiveOps} (threshold : N).

Lemma find_runnable_node h k cs :
  (find_runnable_exchanges h (ANode k cs)).1 = concat ((λ c, (find_runnable_exchanges h c).1) <$> cs) ∧
  (find_runnable_exchanges h (ANode k cs)).2 = existsb (λ c, (find_runnable_exchanges h c).2) cs.
Proof.
  cbn [find_runnable_exchanges]. induction cs as [|c cs [IH1 IH2]]; [done|]. cbn.
  destruct (find_runnable_exchanges h c) as [found b]. revert IH1 IH2.
  destruct ((fix go cs := match cs with [] => _ | c :: cs' => _ end) cs) as [found' b']. cbn. intros -> ->. done.
Qed.

(** The flag that the search returns is whether a boundary is open. *)
Lemma find_runnable_open h p :
  known_in h p → (find_runnable_exchanges h p).2 = unresolved_below h p.
Proof.
  induction p as [l|k cs IH|x input IH] using adaptive_ind; [done| |].
  - rewrite every_exchange_node, (proj2 (find_runnable_node h k cs)). intros Hk.
    apply eq_bool_prop_intro. rewrite !Is_true_true, unresolved_node, existsb_exists, Exists_exists.
    rewrite list.Forall_forall in IH, Hk.
    split; intros (c & Hc & Hu); exists c.
    + apply list_elem_of_In in Hc. split; [done|]. by rewrite <- IH by auto.
    + split; [by apply list_elem_of_In|]. by rewrite IH by auto.
  - intros [[_ Hx] Hk]. rewrite unresolved_exchange by done. cbn.
    destruct (shuffle_created h x); [done|]. by destruct (find_runnable_exchanges h input).
Qed.

(** An exchange that is found is open, and no boundary below it is. *)
Definition ready (h : Heap) (x : ExchangeExec) (input : AdaptivePlan) : Prop :=
  known h x ∧ shuffle_created h x = false ∧
  known_in h input ∧ unresolved_below h input = false ∧ settled threshold h input.

Lemma find_runnable_ready h p :
  known_in h p → settled threshold h p → ∀ x input, (x, input) ∈ (find_runnable_exchanges h p).1 → ready h x input.
Proof.
  induction p as [l|k cs IH|x input IH] using adaptive_ind; intros Hk Hs y i Hy.
  - by apply not_elem_of_nil in Hy.
  - rewrite (proj1 (find_runnable_node h k cs)) in Hy. apply every_exchange_node in Hk. rewrite settled_node in Hs; destruct Hs as [_ Hs].
    apply elem_of_concat in Hy as (l & Hy & (c & -> & Hc)%list_elem_of_fmap).
    rewrite list.Forall_forall in IH, Hk, Hs. apply (IH c Hc); auto.
  - destruct Hk as [Hx Hk]. rewrite settled_exchange in Hs. assert (Ho := find_runnable_open h input Hk).
    cbn in Hy. destruct (shuffle_created h x) eqn:Hc; [by apply not_elem_of_nil in Hy|].
    destruct (find_runnable_exchanges h input) as [found b] eqn:Hf. cbn in Ho. subst b. cbn in Hy.
    destruct (unresolved_below h input) eqn:Hu.
    + by apply IH.
    + apply elem_of_app in Hy as [Hy|Hy]; [by apply IH|]. apply list_elem_of_singleton in Hy as [= -> ->]. done.
Qed.

(** An open boundary, if there is one, is found. *)
Lemma find_runnable_some h p :
  (find_runnable_exchanges h p).2 = true → (find_runnable_exchanges h p).1 ≠ [].
Proof.
  induction p as [l|k cs IH|x input IH] using adaptive_ind; [done| |].
  - destruct (find_runnable_node h k cs) as [-> ->]. rewrite existsb_exists. intros (c & Hc%list_elem_of_In & Hu) Hnil.
    rewrite list.Forall_forall in IH. apply (IH c Hc Hu). destruct (find_runnable_exchanges h c).1 as [|y l] eqn:Hf; [done|].
    destruct (not_elem_of_nil y). rewrite <- Hnil. apply elem_of_concat. exists (y :: l). split; [by left|].
    apply list_elem_of_fmap. by exists c.
  - cbn. destruct (shuffle_created h x); [done|]. destruct (find_runnable_exchanges h input) as [found b]. cbn in IH |- *.
    intros _. destruct b; [by apply IH|]. by destruct found.
Qed.
End runnable.

(** ** Operators over the output of other stages *)

Section gathers.
Context `{PlanTypes}.

Definition is_reader (l : Leaf) : bool :=
  match l with ShuffleReader _ | RangeShuffleReader _ => true | _ => false end.

Definition is_scan (l : Leaf) : bool :=
  match l with FileScan _ _ | MemoryScan _ _ | OtherSource _ _ => true | _ => false end.

(** Projections over scans *)
Fixpoint scan_pipeline (p : ExecutionPlan) : Prop :=
  match p with
  | LeafNode l => is_scan l = true
  | Node (Projection _) cs => (fix go cs := match cs with [] => True | c :: cs' => scan_pipeline c ∧ go cs' end) cs
  | Node _ _ => False
  end.

Definition reads_stage (p : ExecutionPlan) : bool :=
  match p with
  | LeafNode l => is_reader l
  | _ => false
  end.

Definition reads_range (p : ExecutionPlan) : bool :=
  match p with
  | Node (RangeFilter _ _) [c] => reads_stage c
  | _ => reads_stage p
  end.

(** An operator that moves rows between partitions gets them from other stages: a hash
    repartition is the end of a stage, a node that coalesces reads a stage or scans it
    repeats in each task, a merge reads a stage, and a null-aware join coalesces its probe
    side. *)
Definition gathers_here (k : Kind) (cs : list ExecutionPlan) : Prop :=
  match k, cs with
  | Repartition (Hash _ _), [_] => False
  | CoalescePartitions, [c] => reads_stage c = true ∨ scan_pipeline c
  | SortPreservingMerge _ _, [c] => reads_range c = true
  | HashJoin j, [_; rhs] => null_aware j = true → partition_mode j = CollectLeft → is_coalesce rhs = true
  | _, _ => True
  end.

Fixpoint gathers_from_stages (p : ExecutionPlan) : Prop :=
  match p with
  | LeafNode _ => True
  | Node k cs =>
      gathers_here k cs ∧ (fix go cs := match cs with [] => True | c :: cs' => gathers_from_stages c ∧ go cs' end) cs
  end.

Lemma gathers_node k cs : gathers_from_stages (Node k cs) ↔ gathers_here k cs ∧ Forall gathers_from_stages cs.
Proof. cbn [gathers_from_stages]. f_equiv. induction cs as [|c cs IH]; [by split|]. rewrite Forall_cons, IH. done. Qed.

Lemma scan_pipeline_node o cs : scan_pipeline (Node (Projection o) cs) ↔ Forall scan_pipeline cs.
Proof. cbn [scan_pipeline]. induction cs as [|c cs IH]; [by split|]. rewrite Forall_cons, IH. done. Qed.
End gathers.

(** ** The plan of a stage, seen from the adaptive plan *)

Section lowered.
Context `{PlanTypes}.

(** The kind of a node may get bounds. *)
Definition kind_like (k k' : Kind) : Prop :=
  k = k' ∨ ∃ f b b', k = RangeFilter f b ∧ k' = RangeFilter f b'.

(** The passes of the adapter: exchanges become readers, readers get bounds. *)
Inductive same_shape : AdaptivePlan → AdaptivePlan → Prop :=
| same_leaf l : same_shape (ALeaf l) (ALeaf l)
| same_reader l l' : is_reader l = true → is_reader l' = true → same_shape (ALeaf l) (ALeaf l')
| same_read x input l : is_reader l = true → same_shape (AExchange x input) (ALeaf l)
| same_exchange x input input' : same_shape (AExchange x input) (AExchange x input')
| same_node k k' cs cs' : kind_like k k' → Forall2 same_shape cs cs' → same_shape (ANode k cs) (ANode k' cs').

(** The operators of a plan are those of the plan of the stage. *)
Inductive lowered_to : AdaptivePlan → ExecutionPlan → Prop :=
| lowered_leaf l : lowered_to (ALeaf l) (LeafNode l)
| lowered_reader l l' : is_reader l = true → is_reader l' = true → lowered_to (ALeaf l) (LeafNode l')
| lowered_exchange x input l : is_reader l = true → lowered_to (AExchange x input) (LeafNode l)
| lowered_empty schema n :
    lowered_to (ALeaf (EmptyExec schema n)) (Node (Repartition (RoundRobinBatch n)) [LeafNode (EmptyExec schema 1)])
| lowered_node k k' cs cs' : kind_like k k' → Forall2 lowered_to cs cs' → lowered_to (ANode k cs) (Node k' cs').

Lemma kind_like_trans k1 k2 k3 : kind_like k1 k2 → kind_like k2 k3 → kind_like k1 k3.
Proof. unfold kind_like. naive_solver. Qed.

Lemma same_shape_refl p : same_shape p p.
Proof.
  induction p as [l|k cs IH|x input IH] using adaptive_ind; [constructor| |constructor].
  constructor; [by left|]. by induction IH; constructor.
Qed.

Lemma lowered_after_shape p q e : same_shape p q → lowered_to q e → lowered_to p e.
Proof.
  revert q e. induction p as [l|k cs IH|x input IH] using adaptive_ind; intros q e Hpq Hq.
  - inversion Hpq; subst; [done|]. inversion Hq; subst; try done; by constructor.
  - inversion Hpq as [| | | |? k' ? cs' Hk Hcs]; subst. inversion Hq as [| | | |? k'' ? es Hk' Hes]; subst.
    constructor; [by eapply kind_like_trans|]. clear - IH Hcs Hes. revert es Hes.
    induction Hcs as [|c c' cs cs' Hc Hcs IHl]; intros es Hes; inversion Hes; subst; constructor; inversion IH; subst; eauto.
  - inversion Hpq; subst; [|by inversion Hq; subst; constructor]. inversion Hq; subst; try done; by constructor.
Qed.
End lowered.

Section closed.
Context `{FilterOps} (threshold : N).

Lemma collect_scan_pipeline p total leaves r e :
  collect_scan_bytes p total leaves = Ok (Some r) → lowered_to p e → scan_pipeline e.
Proof.
  revert total leaves r e. induction p as [l|k cs IH|x input IH] using adaptive_ind; intros total leaves r e Hr He; [| |done].
  - inversion He; subst; [by destruct l| |done]. by destruct l.
  - cbn in Hr. destruct k; try done. inversion He as [| | | |? k' ? es Hk Hes]; subst.
    destruct Hk as [<-|(? & ? & ? & ? & _)]; [|done]. apply scan_pipeline_node. clear He.
    revert total leaves r es Hr Hes. induction IH as [|c cs Hc Hcs IHl]; intros total leaves r es Hr Hes; inversion Hes; subst; constructor.
    + destruct (collect_scan_bytes c total leaves) as [[s|]| |] eqn:Hcol; try done. by eapply Hc.
    + destruct (collect_scan_bytes c total leaves) as [[[t l]|]| |] eqn:Hcol; try done. by eapply IHl.
Qed.

Lemma inlinable_scan_pipeline p e : inlinable threshold p = true → lowered_to p e → scan_pipeline e.
Proof.
  unfold inlinable, is_inlinable_scan_pipeline. destruct (threshold =? 0)%N; [done|].
  destruct (collect_scan_bytes p 0 0) as [[r|]| |] eqn:Hc; try done. intros _. by eapply collect_scan_pipeline.
Qed.

Lemma exchange_read p e : is_exchange p = true → lowered_to p e → reads_stage e = true.
Proof. destruct p; try done. intros _ He. by inversion He. Qed.

Lemma boundary_read p e : is_stage_boundary p = true → lowered_to p e → reads_range e = true.
Proof.
  destruct p as [l|k cs|x input]; [done| |].
  - destruct k; try done. destruct cs as [|c [|]]; try done. cbn. intros Hx He.
    inversion He as [| | | |? k' ? es Hk Hes]; subst. destruct Hk as [<-|(? & ? & b & [= -> ->] & ->)];
      inversion Hes as [|? e1 ? es1 He1 Hes1]; subst; inversion Hes1; subst; by eapply exchange_read.
  - intros _ He. by inversion He.
Qed.

Lemma coalesce_stays p e : a_is_coalesce p = true → lowered_to p e → is_coalesce e = true.
Proof.
  destruct p as [|k cs|]; try done. destruct k; try done. intros _ He. inversion He as [| | | |? k' ? es Hk Hes]; subst.
  by destruct Hk as [<-|(? & ? & ? & ? & _)].
Qed.

(** An operator that does not need a boundary has what it gathers from other stages. *)
Lemma gathers_without_need k k' cs es :
  needs_exchange threshold (ANode k cs) = false → kind_like k k' → Forall2 lowered_to cs es → gathers_here k' es.
Proof.
  intros Hn [<-|(f & b & b' & -> & ->)] Hes; [|done].
  destruct k as [| | |[]|j| | | | | | | | |]; try done;
    (destruct es as [|e es]; [done|]); inversion Hes as [|c ? cs' ? Hc Hes']; subst.
  - destruct es; [|done]. inversion Hes'; subst. cbn in Hn |- *. apply andb_false_iff in Hn as [Hn|Hn]; apply negb_false_iff in Hn.
    + left. by eapply exchange_read.
    + right. by eapply inlinable_scan_pipeline.
  - destruct es; [|done]. inversion Hes'; subst. cbn in Hn |- *. apply negb_false_iff in Hn. by eapply boundary_read.
  - destruct es; [|done]. by inversion Hes'; subst.
  - destruct es as [|e' [|]]; try done. inversion Hes' as [|c' ? ? ? Hc' Hes2]; subst. inversion Hes2; subst.
    cbn in Hn |- *. intros Hna Hm. rewrite Hna in Hn. unfold is_collect_left in Hn. rewrite Hm in Hn. cbn in Hn.
    apply negb_false_iff in Hn. by eapply coalesce_stays.
Qed.

(** The stage of a plan with no open boundary *)
Lemma closed_gathers h p e :
  unresolved_below h p = false → settled threshold h p → lowered_to p e → gathers_from_stages e.
Proof.
  revert e. induction p as [l|k cs IH|x input IH] using adaptive_ind; intros e Hu Hs He.
  - inversion He; subst; try done.
  - inversion He as [| | | |? k' ? es Hk Hes]; subst. rewrite settled_node in Hs. destruct Hs as [Hn Hs].
    assert (needs_exchange threshold (ANode k cs) = false) as Hno.
    { destruct (needs_exchange threshold (ANode k cs)); [|done]. rewrite Hn in Hu by done. done. }
    apply gathers_node. split; [by eapply gathers_without_need|].
    apply list.Forall_forall. intros e' [i Hi]%list_elem_of_lookup_1. destruct (Forall2_lookup_r _ _ _ _ _ Hes Hi) as (c & Hci & Hc).
    rewrite list.Forall_forall in IH, Hs. apply list_elem_of_lookup_2 in Hci as Hcin. apply (IH c Hcin); [|auto..].
    destruct (unresolved_below h c) eqn:Huc; [|done]. rewrite <- Hu. symmetry. apply unresolved_node, Exists_exists. eauto.
  - by inversion He.
Qed.
End closed.

(** ** The passes *)

Section passes.
Context `{FilterOps} (job_id : JobId).

(** A pass over the children of a node *)
Lemma shape_node k k' cs (new : list a_rewritten) :
  kind_like k k' → Forall2 (λ c r, same_shape c r.1) cs new → same_shape (ANode k cs) (ANode k' new.*1).
Proof. intros Hk Hnew. constructor; [done|]. by induction Hnew; constructor. Qed.

(** A rewritten plan of the same shape *)
Definition reshaped (p : AdaptivePlan) (r : a_rewritten) : Prop := same_shape p r.1 ∧ (r.2 = false → r.1 = p).

Lemma replace_reshaped k cs new q :
  a_replace_children k cs new = Ok q → Forall2 reshaped cs new → reshaped (ANode k cs) q.
Proof.
  intros Hq Hnew. apply a_replace_children_ok in Hq as [Hq Hf]; [|by eapply Forall2_impl; [exact Hnew|]; intros ? ? []].
  split; [|done]. rewrite Hq. apply shape_node; [by left|]. by eapply Forall2_impl; [exact Hnew|]; intros ? ? [].
Qed.

Lemma resolve_shape h p q : resolve_range_filter_cuts h p = Ok q → same_shape p q.
Proof.
  revert q. induction p as [l|k cs IH|x input IH] using adaptive_ind; intros q Hq; cbn in Hq.
  - injection Hq as <-. constructor.
  - assert (∀ k', (let? cs := traverse (resolve_range_filter_cuts h) cs in Ok (ANode k' cs)) = Ok q → kind_like k k' →
      same_shape (ANode k cs) q) as Hgen.
    { clear Hq. intros k' Hq Hk. step Hq as cs' Hcs. injection Hq as <-. constructor; [done|]. apply traverse_ok in Hcs.
      clear -IH Hcs. induction Hcs as [|c c' cs cs' Hc _ IHl]; inversion IH; subst; constructor; auto. }
    destruct k; try (by apply (Hgen _ Hq); left). destruct raw_bounds; [by apply (Hgen _ Hq); left|].
    destruct cs as [|c [|]]; try done. step Hq as raw Hraw. step Hq as c' Hc'. injection Hq as <-.
    inversion_clear IH as [|? ? IHc _]. constructor; [right; by eexists _, _, _|]. constructor; [by apply IHc|done].
  - step Hq as input' Hi. injection Hq as <-. constructor.
Qed.

Lemma reader_of_is_reader h x input fetch id parts : is_reader (reader_of h x input fetch id parts) = true.
Proof. unfold reader_of. by repeat case_match. Qed.

Lemma build_reader_ok h x input fetch m l m' :
  build_reader h x input fetch m = (Ok l, m') →
  ∃ id parts, exchange_stage_id h x = Some id ∧ shuffle_partitions h x = Some parts ∧
    l = reader_of h x input fetch id parts ∧ m' = <[id := collected_output parts]> m.
Proof.
  unfold build_reader. intros Hl. destruct (shuffle_partitions h x) as [parts|] eqn:Hp; [|done].
  destruct (exchange_stage_id h x) as [id|] eqn:Hid; [|done]. injection Hl as <- <-. by eexists _, _.
Qed.

Lemma adapt_all_reshaped (f : AdaptivePlan → M DataFusionError (gmap nat StageOutput.t) a_rewritten) cs m new m' :
  adapt_all f cs m = (Ok new, m') →
  Forall (λ c, ∀ m r m', f c m = (Ok r, m') → reshaped c r) cs → Forall2 reshaped cs new.
Proof.
  intros Hn Hf. revert m new Hn. induction Hf as [|c cs Hc _ IH]; intros m new Hn; cbn in Hn.
  - injection Hn as <- <-. constructor.
  - apply mthen_ok in Hn as (a & m1 & Ha & Hn). apply mthen_ok in Hn as (rest & m2 & Hrest & [= <- <-]).
    constructor; eauto.
Qed.

Lemma transform_children_shape h p m r m' : transform_children h p m = (Ok r, m') → reshaped p r.
Proof.
  revert m r m'. induction p as [l|k cs IH|x input IH] using adaptive_ind; intros m r m' Hr.
  - injection Hr as <- <-. split; [constructor|done].
  - assert ((let! new := adapt_all (transform_children h) cs in mlift (a_replace_children k cs new)) m = (Ok r, m') →
      reshaped (ANode k cs) r) as Hgen.
    { intros Hg. apply mthen_ok in Hg as (new & m1 & Hnew & [Hq ->]%mlift_ok). eapply replace_reshaped; [done|].
      by eapply adapt_all_reshaped. }
    cbn [transform_children] in Hr. destruct k; try exact (Hgen Hr). destruct fetch as [fetch|]; [|exact (Hgen Hr)].
    destruct cs as [|[| |x input] [|]]; try exact (Hgen Hr).
    apply mthen_ok in Hr as (l & m1 & Hl & [Hq ->]%mlift_ok). apply build_reader_ok in Hl as (id & parts & _ & _ & -> & _).
    eapply replace_reshaped; [exact Hq|]. constructor; [|done]. split; [|done]. constructor. apply reader_of_is_reader.
  - cbn [transform_children] in Hr. apply mthen_ok in Hr as (l & m1 & Hl & [= <- <-]). apply build_reader_ok in Hl as (id & parts & _ & _ & -> & _).
    split; [|done]. constructor. apply reader_of_is_reader.
Qed.

Lemma attach_shape p r : attach_reader_bounds p = Ok r → reshaped p r.
Proof.
  revert r. induction p as [l|k cs IH|x input IH] using adaptive_ind; intros r Hr; cbn [attach_reader_bounds] in Hr.
  - injection Hr as <-. split; [constructor|done].
  - assert ((let? new := traverse attach_reader_bounds cs in a_replace_children k cs new) = Ok r →
      reshaped (ANode k cs) r) as Hgen.
    { intros Hg. step Hg as new Hnew. eapply replace_reshaped; [done|]. apply traverse_ok in Hnew.
      clear -IH Hnew. induction Hnew as [|c c' cs cs' Hc _ IHl]; inversion IH; subst; constructor; auto. }
    destruct k; try exact (Hgen Hr). destruct raw_bounds as [raw|]; [|exact (Hgen Hr)].
    destruct cs as [|[l| |] [|]]; try (destruct l); try exact (Hgen Hr).
    destruct (negb _); [injection Hr as <-; split; [apply same_shape_refl|done]|]. step Hr as r' Hr'.
    eapply replace_reshaped; [exact Hr|]. constructor; [|done]. by split; [constructor|].
  - step Hr as new Hn. injection Hr as <-. split; [constructor|]. cbn. intros Hf. by rewrite (proj2 (IH _ Hn) Hf).
Qed.

Lemma without_exchanges_lowered p e : without_exchanges p = Some e → lowered_to p e.
Proof.
  revert e. induction p as [l|k cs IH|x input IH] using adaptive_ind; intros e He; cbn in He; [by simplify_eq; constructor| |done].
  apply fmap_Some in He as (es & Hes & ->). constructor; [by left|]. revert es Hes.
  induction IH as [|c cs Hc _ IHl]; intros es Hes; [by simplify_eq; constructor|].
  apply bind_Some in Hes as (q & Hq & Hes). apply bind_Some in Hes as (qs & Hqs & [= <-]). constructor; auto.
Qed.

Lemma make_empty_lowered p e r : make_empty_exec_serde_safe e = Ok r → lowered_to p e → lowered_to p r.1.
Proof.
  revert p r. induction e as [l|k es IH] using plan_ind; intros p r Hr Hp.
  - destruct l; cbn in Hr; try (by injection Hr as <-). destruct (n <=? 1); injection Hr as <-; [done|].
    inversion Hp; subst; [constructor|done..].
  - cbn [make_empty_exec_serde_safe] in Hr. step Hr as new Hnew. apply traverse_ok in Hnew.
    apply replace_flagged in Hr as [Hr _]; [|by eapply Forall2_impl; [exact Hnew|]; intros ? ? []%make_empty_ok].
    rewrite Hr. inversion Hp as [| | |schema n|? k' cs ? Hk Hcs]; subst.
    + inversion Hnew as [|? r' ? ? Hr' Hnil]; subst. inversion Hnil; subst. cbn in Hr'. injection Hr' as <-. constructor.
    + constructor; [done|]. clear Hp Hr Hk. revert new Hnew. induction Hcs as [|c e cs es Hc _ IHl]; intros new Hnew;
        inversion Hnew; subst; cbn; constructor; inversion IH; subst; eauto.
Qed.

(** *** What a stage reads *)

Lemma leaf_exchanges_node k cs : leaf_exchanges (ANode k cs) = concat (leaf_exchanges <$> cs).
Proof. cbn. induction cs as [|c cs IH]; [done|]. cbn. by rewrite IH. Qed.

Lemma resolve_leaves h p q :
  resolve_range_filter_cuts h p = Ok q → (leaf_exchanges q).*1 = (leaf_exchanges p).*1.
Proof.
  revert q. induction p as [l|k cs IH|x input IH] using adaptive_ind; intros q Hq; cbn [resolve_range_filter_cuts] in Hq.
  - by injection Hq as <-.
  - assert (∀ k', (let? cs := traverse (resolve_range_filter_cuts h) cs in Ok (ANode k' cs)) = Ok q →
      (leaf_exchanges q).*1 = (leaf_exchanges (ANode k cs)).*1) as Hgen.
    { clear Hq. intros k' Hq. step Hq as cs' Hcs. injection Hq as <-. apply traverse_ok in Hcs.
      rewrite !leaf_exchanges_node. clear -IH Hcs. induction Hcs as [|c c' cs cs' Hc _ IHl]; [done|]. inversion IH; subst. cbn.
      rewrite !fmap_app. f_equal; auto. }
    destruct k; try exact (Hgen _ Hq). destruct raw_bounds; [exact (Hgen _ Hq)|].
    destruct cs as [|c [|]]; try done. step Hq as raw Hraw. step Hq as c' Hc'. injection Hq as <-.
    inversion_clear IH as [|? ? IHc _]. rewrite !leaf_exchanges_node. cbn. rewrite !app_nil_r. by apply IHc.
  - step Hq as input' Hi. by injection Hq as <-.
Qed.

(** The inputs recorded so far, and the ones of the exchanges [xs] *)
Definition records (h : Heap) (xs : list ExchangeExec) (m m' : gmap nat StageOutput.t) : Prop :=
  ∀ n o, m' !! n = Some o →
    m !! n = Some o ∨
    ∃ x parts, x ∈ xs ∧ exchange_stage_id h x = Some n ∧ shuffle_partitions h x = Some parts ∧ o = collected_output parts.

Lemma records_app h xs ys m1 m2 m3 : records h xs m1 m2 → records h ys m2 m3 → records h (xs ++ ys) m1 m3.
Proof.
  intros Hr12 Hr23 n o Ho. apply Hr23 in Ho as [Ho|(x & parts & Hx & ?)].
  - apply Hr12 in Ho as [Ho|(x & parts & Hx & ?)]; [by left|]. right. exists x, parts. rewrite elem_of_app. auto.
  - right. exists x, parts. rewrite elem_of_app. auto.
Qed.

Lemma build_reader_records h x input fetch m l m' : build_reader h x input fetch m = (Ok l, m') → records h [x] m m'.
Proof.
  intros (id & parts & Hid & Hp & _ & ->)%build_reader_ok n o Ho. destruct (decide (n = id)) as [->|Hne].
  - rewrite lookup_insert_eq in Ho. injection Ho as <-. right. exists x, parts. split_and!; try done. by left.
  - rewrite lookup_insert_ne in Ho by done. by left.
Qed.

Lemma transform_children_records h p m r m' :
  transform_children h p m = (Ok r, m') → records h (leaf_exchanges p).*1 m m'.
Proof.
  revert m r m'. induction p as [l|k cs IH|x input IH] using adaptive_ind; intros m r m' Hr; cbn [transform_children] in Hr.
  - injection Hr as <- <-. intros n o. by left.
  - assert ((let! new := adapt_all (transform_children h) cs in mlift (a_replace_children k cs new)) m = (Ok r, m') →
      records h (leaf_exchanges (ANode k cs)).*1 m m') as Hgen.
    { intros Hg. apply mthen_ok in Hg as (new & m1 & Hnew & [_ ->]%mlift_ok). rewrite leaf_exchanges_node. clear Hr r k.
      revert m new Hnew. induction IH as [|c cs Hc _ IHl]; intros m new Hnew.
      - injection Hnew as <- <-. intros n o. by left.
      - cbn in Hnew. apply mthen_ok in Hnew as (a & m2 & Ha & Hnew). apply mthen_ok in Hnew as (rest & m3 & Hrest & [= <- <-]).
        cbn. rewrite fmap_app. eapply records_app; eauto. }
    destruct k; try exact (Hgen Hr). destruct fetch as [fetch|]; [|exact (Hgen Hr)].
    destruct cs as [|[| |x input] [|]]; try exact (Hgen Hr).
    apply mthen_ok in Hr as (l & m1 & Hl & [_ ->]%mlift_ok). by eapply build_reader_records.
  - apply mthen_ok in Hr as (l & m1 & Hl & [= _ <-]). by eapply build_reader_records.
Qed.

Lemma adapt_input_ok h input m p m' :
  adapt_input h input m = (Ok p, m') → lowered_to input p ∧ records h (leaf_exchanges input).*1 m m'.
Proof.
  intros Ha. apply mthen_ok in Ha as (i1 & m1 & [Hres ->]%mlift_ok & Ha). apply mthen_ok in Ha as (r & m2 & Htr & Ha).
  apply mthen_ok in Ha as (r' & m3 & [Hat ->]%mlift_ok & Ha). destruct (without_exchanges r'.1) as [e|] eqn:He; [|done].
  injection Ha as <- <-. split.
  - eapply lowered_after_shape; [by eapply resolve_shape|]. apply transform_children_shape in Htr as [Htr _].
    apply attach_shape in Hat as [Hat _]. eapply lowered_after_shape; [done|]. eapply lowered_after_shape; [done|].
    by apply without_exchanges_lowered.
  - rewrite <- (resolve_leaves _ _ _ Hres). by eapply transform_children_records.
Qed.

(** The plan of a stage is a writer over the lowered plan. *)
Lemma adapt_ok h stage info input :
  adapt_to_ballista job_id h stage = Ok info → job_input stage = Some input →
  (∃ k e, info_plan info = Node k [e] ∧ is_writer_kind k = true ∧ lowered_to input e) ∧
  records h (leaf_exchanges input).*1 ∅ (info_inputs info).
Proof.
  assert (∀ id p part w, create_writer job_id id p part = Ok w → lowered_to input p →
    ∃ k e, w = Node k [e] ∧ is_writer_kind k = true ∧ lowered_to input e) as Hw.
  { unfold create_writer. intros id p part w Hw Hp. destruct (create_shuffle_writer_with_config _ _ _ _) eqn:Hc; try done.
    injection Hw as ->. apply writer_shape in Hc as (c & Hc & [[_ ->]|(? & ? & _ & _ & ->)]);
      eexists _, _; (split_and!; [done|done|]); by eapply make_empty_lowered. }
  intros Ha Hin. destruct stage as [r i|[| |x i]]; try done; cbn in Hin; injection Hin as ->; cbn [adapt_to_ballista] in Ha;
    destruct (adapt_input h input ∅) as [[p|e|] m] eqn:Hi; cbn [obind] in Ha; try done; apply adapt_input_ok in Hi as [Hl Hrec].
  - destruct (adaptive_stage_id h r) as [id|]; [|done]. step Ha as w Hcw. injection Ha as <-. split; [by eapply Hw|done].
  - destruct (exchange_stage_id h x) as [id|]; [|done]. step Ha as w Hcw. step Ha as w' Huse. injection Ha as <-. split; [|done].
    cbn. destruct (Hw _ _ _ _ Hcw Hl) as (k & e & -> & Hk & He). unfold use_range_shuffle_writer in Huse.
    repeat case_match; simplify_eq; eexists _, _; done.
Qed.
End passes.
