(* ===== verification/AdaptivePlannerFacts.v ===== *)
(** * The state of the adaptive planner

    What holds of a planner in every state it reaches: its plan has the boundaries it needs,
    stage ids are given once, and an active stage is a boundary that is not resolved. *)

From stdpp Require Import numbers gmap strings.
From S2P Require Import Prelude Errors Machine Types Stage Graph PhysicalPlan TaskPlan TaskPlanFacts Planner PlannerFacts AdaptivePlan Adapter AdaptivePlanner AdaptiveFacts AdapterFacts.

(** The rules before the exchange rule only add cells, and use no exchange without cells
    or one that may not run. *)
Class RuleLaws `{SessionOps} : Prop :=
  earlier_rules_known p h q h' :
    earlier_rules p h = (Ok q, h') → job_known h p → extends h h' ∧ job_known h' q.

(** ** Boundaries *)

Section boundaries.
Context `{FilterOps}.

(** The cells of an exchange or of the root of a job *)
Abbreviation boundary := (nat + nat)%type.

Definition boundary_of (p : JobPlan) : option boundary :=
  match p with
  | Bare (AExchange x _) => Some (inl (ex_cells x))
  | Adaptive r _ => Some (inr (ad_cells r))
  | Bare _ => None
  end.

Definition stage_of (h : Heap) (b : boundary) : option nat :=
  match b with
  | inl c => id_of_cell (cell_stage_id (default new_cells (exchange_cells h !! c)))
  | inr c => id_of_cell (root_stage_id (default new_root_cells (adaptive_cells h !! c)))
  end.

Definition resolved (h : Heap) (b : boundary) : bool :=
  match b with
  | inl c => bool_decide (is_Some (cell_partitions (default new_cells (exchange_cells h !! c))))
  | inr c => bool_decide (is_Some (root_partitions (default new_root_cells (adaptive_cells h !! c))))
  end.

Definition allocated (h : Heap) (b : boundary) : Prop := match b with inl c | inr c => c < next_cells h end.

(** Nothing that the stages depend on changes. *)
Definition same_stages (h h' : Heap) : Prop :=
  next_cells h' = next_cells h ∧ ∀ b, stage_of h' b = stage_of h b ∧ resolved h' b = resolved h b.

#[export] Instance same_stages_preorder : PreOrder same_stages.
Proof.
  split; [by split|]. intros h1 h2 h3 [Hn Hb] [Hn' Hb']. split; [congruence|]. intros b.
  destruct (Hb b), (Hb' b). split; congruence.
Qed.

Lemma same_stages_set h x c :
  cell_stage_id c = cell_stage_id (cells h x) → cell_partitions c = cell_partitions (cells h x) →
  same_stages h (set_cells x c h).
Proof.
  intros Hid Hp. split; [done|]. intros [c'|c']; [|done]. cbn. destruct (decide (c' = ex_cells x)) as [->|Hne].
  - rewrite lookup_insert_eq. cbn. by rewrite Hid, Hp.
  - by rewrite lookup_insert_ne.
Qed.

Lemma coalesce_same_stages config p h o h' : coalesce_partitions config p h = (o, h') → same_stages h h'.
Proof.
  unfold coalesce_partitions. intros Hc. repeat case_match; simplify_eq; try done.
  assert (∀ (l : list (ExchangeExec * AdaptivePlan)) h, same_stages h (foldl (λ h l, set_coalesce l.1 c h) h l)) as Hfold; [|apply Hfold].
  clear. induction l as [|x l IH]; intros h; cbn; [done|]. etrans; [|apply IH]. by apply same_stages_set.
Qed.

Lemma unresolved_same h h' p :
  (∀ x, shuffle_created h' x = shuffle_created h x) → unresolved_below h' p = unresolved_below h p.
Proof.
  intros Hc. induction p as [l|k cs IH|x input IH] using adaptive_ind; [done| |].
  - apply eq_bool_prop_intro. rewrite !Is_true_true, !unresolved_node, !Exists_exists. rewrite list.Forall_forall in IH.
    split; intros (c & ? & ?); exists c; (split; [done|]); [by rewrite <- IH|by rewrite IH].
  - unfold unresolved_below. cbn. by rewrite Hc.
Qed.

Lemma settled_same threshold h h' p :
  (∀ x, shuffle_created h' x = shuffle_created h x) → settled threshold h p → settled threshold h' p.
Proof.
  intros Hc. induction p as [l|k cs IH|x input IH] using adaptive_ind.
  - intros [? _]. by split.
  - rewrite !settled_node, (unresolved_same h h') by done. intros [? Hcs]. split; [done|].
    rewrite list.Forall_forall in IH, Hcs |- *. auto.
  - rewrite !settled_exchange. done.
Qed.

Lemma same_created h h' x : same_stages h h' → shuffle_created h' x = shuffle_created h x.
Proof. intros [_ Hb]. apply (Hb (inl (ex_cells x))). Qed.

Lemma known_next h h' p : next_cells h ≤ next_cells h' → known_in h p → known_in h' p.
Proof. intros Hn. apply every_exchange_mono. intros x [? ?]. split; [lia|done]. Qed.

Lemma job_known_next h h' p : next_cells h ≤ next_cells h' → job_known h p → job_known h' p.
Proof.
  intros Hn. destruct p as [r i|i]; cbn; [|by apply known_next]. intros [? ?]. split; [lia|]. by apply (known_next h).
Qed.

Lemma job_settled_same threshold h h' p :
  (∀ x, shuffle_created h' x = shuffle_created h x) → job_settled threshold h p → job_settled threshold h' p.
Proof. intros Hc. destruct p; [|done]. intros [? ?]. split; [by apply (settled_same _ h)|done]. Qed.
End boundaries.

(** ** States of the planner *)

Section planner.
Context `{FilterOps} `{!SessionOps} `{MapOrder} (job_id : JobId).
Abbreviation threshold := broadcast_threshold_bytes.

(** The calls that the execution graph makes. A stage whose replanning failed ends the
    job. *)
Inductive planner_step : AdaptivePlanner → AdaptivePlanner → Prop :=
| step_actionable s o s' : actionable_stages job_id s = (o, s') → planner_step s s'
| step_report s id locs o s' : update_exchange_locations id locs s = (o, s') → planner_step s s'
| step_forget s id executor : planner_step s (remove_exchange_locations id executor s)
| step_take s id o s' : take_stage_output_partitions id s = (o, s') → planner_step s s'
| step_route s id routing o s' : set_repartition_routing id routing s = (o, s') → planner_step s s'
| step_resolve s id parts s' : resolve_stage_partitions id parts s = (Ok tt, s') → planner_step s s'
| step_cancel s id : planner_step s (cancel_stage id s).

(** A state that the planner of a plan without exchanges gets to *)
Definition reachable (s : AdaptivePlanner) : Prop :=
  ∃ p s0, try_new_with_optimizers p (mkHeap ∅ ∅ 0 0) = Ok s0 ∧ known_in (mkHeap ∅ ∅ 0 0) p ∧ rtc planner_step s0 s.

Record tracked (s : AdaptivePlanner) : Prop := {
  plan_known : job_known (heap s) (plan s);
  ids_below b n : stage_of (heap s) b = Some n → n < stage_id_generator s;
  ids_unique b b' n : stage_of (heap s) b = Some n → stage_of (heap s) b' = Some n → b = b';
  resolved_assigned b : resolved (heap s) b = true → is_Some (stage_of (heap s) b);
  active_open n p :
    runnable_stage_cache s !! n = Some p →
    ∃ b, boundary_of p = Some b ∧ allocated (heap s) b ∧ stage_of (heap s) b = Some n ∧ resolved (heap s) b = false;
  outputs_below n : is_Some (runnable_stage_output s !! n) → n < stage_id_generator s;
}.

Record consistent (s : AdaptivePlanner) : Prop := {
  stages_tracked :> tracked s;
  plan_settled : job_settled threshold (heap s) (plan s);
}.

(** The last id that fits the cell of a boundary *)
Definition ids_fit (s : AdaptivePlanner) : Prop := (Z.of_nat (stage_id_generator s) ≤ 2 ^ 63)%Z.

(** The stages of a state stay, whatever happens to the outputs. *)
Lemma tracked_same s s' :
  tracked s → same_stages (heap s) (heap s') → plan s' = plan s → stage_id_generator s' = stage_id_generator s →
  runnable_stage_cache s' ⊆ runnable_stage_cache s → dom (runnable_stage_output s') ⊆ dom (runnable_stage_output s) →
  tracked s'.
Proof.
  intros Hc [Hn Hb] Hp Hg Hca Ho. split.
  - rewrite Hp. eapply job_known_next; [|apply Hc]. lia.
  - intros b n. rewrite (proj1 (Hb b)), Hg. apply Hc.
  - intros b b' n. rewrite (proj1 (Hb b)), (proj1 (Hb b')). apply Hc.
  - intros b. rewrite (proj1 (Hb b)), (proj2 (Hb b)). apply Hc.
  - intros n p Hnp. destruct (active_open _ Hc n p) as (b & ? & Ha & ? & ?); [by eapply lookup_weaken|].
    exists b. rewrite (proj1 (Hb b)), (proj2 (Hb b)). split_and!; try done. destruct b; cbn in Ha |- *; lia.
  - intros n. rewrite Hg. intros Hs%elem_of_dom. apply Hc. apply elem_of_dom. set_solver.
Qed.

Lemma consistent_same s s' :
  consistent s → same_stages (heap s) (heap s') → plan s' = plan s → stage_id_generator s' = stage_id_generator s →
  runnable_stage_cache s' ⊆ runnable_stage_cache s → dom (runnable_stage_output s') ⊆ dom (runnable_stage_output s) →
  consistent s'.
Proof.
  intros Hc Hsame Hp Hg Hca Ho. split; [by apply (tracked_same s); [apply Hc|..]|].
  rewrite Hp. eapply job_settled_same; [|apply Hc]. intros x. by apply same_created.
Qed.

Lemma i64_of_small n : (Z.of_nat n < 2 ^ 63)%Z → i64_of_nat n = Z.of_nat n.
Proof. intros Hn. unfold i64_of_nat. rewrite Z.mod_small by lia. by destruct (Z.ltb_spec (Z.of_nat n) (2 ^ 63)); [|lia]. Qed.

Lemma id_of_small n : (Z.of_nat n < 2 ^ 63)%Z → id_of_cell (i64_of_nat n) = Some n.
Proof.
  intros Hn. rewrite i64_of_small by done. unfold id_of_cell. destruct (Z.leb_spec 0 (Z.of_nat n)); [|lia]. by rewrite Nat2Z.id.
Qed.

(** A stage is given the next id. *)
Lemma register_consistent s b p h' :
  consistent s → (Z.of_nat (stage_id_generator s) < 2 ^ 63)%Z →
  boundary_of p = Some b → allocated (heap s) b → resolved (heap s) b = false →
  next_cells h' = next_cells (heap s) →
  (∀ b', resolved h' b' = resolved (heap s) b') →
  stage_of h' b = Some (stage_id_generator s) → (∀ b', b' ≠ b → stage_of h' b' = stage_of (heap s) b') →
  stage_of (heap s) b = None →
  consistent (register_stage p h' s).
Proof.
  intros Hc Hfit Hb Ha Hr Hn Hres Hs Hother Hnone. split; [destruct Hc as [Hc _]|].
  2:{ eapply job_settled_same; [|apply Hc]. intros x. apply (Hres (inl (ex_cells x))). }
  split; cbn.
  - eapply job_known_next; [|apply Hc]. lia.
  - intros b' n. destruct (decide (b' = b)) as [->|Hne]; [rewrite Hs; intros [= <-]; lia|].
    rewrite Hother by done. intros Hid. apply Hc in Hid. lia.
  - intros b1 b2 n. destruct (decide (b1 = b)) as [->|Hne1], (decide (b2 = b)) as [->|Hne2];
      rewrite ?Hs, ?Hother by done; [done| | |apply Hc]; intros H1b H2b; simplify_eq.
    + apply Hc in H2b. lia.
    + apply Hc in H1b. lia.
  - intros b'. rewrite Hres. destruct (decide (b' = b)) as [->|Hne]; [by rewrite Hs|]. rewrite Hother by done. apply Hc.
  - intros n q. destruct (decide (n = stage_id_generator s)) as [->|Hne].
    + rewrite lookup_insert_eq. intros [= <-]. exists b. rewrite Hres. split_and!; try done. destruct b; cbn in Ha |- *; lia.
    + rewrite lookup_insert_ne by done. intros Hq. destruct (active_open _ Hc n q Hq) as (b' & ? & Ha' & Hs' & ?).
      exists b'. rewrite Hres, Hother by congruence. split_and!; try done. destruct b'; cbn in Ha' |- *; lia.
  - intros n. destruct (decide (n = stage_id_generator s)) as [->|Hne]; [lia|].
    rewrite lookup_insert_ne by done. intros Ho. apply Hc in Ho. lia.
Qed.

(** *** Stages that can run *)

Lemma set_stage_id_heap h x n :
  (Z.of_nat n < 2 ^ 63)%Z →
  next_cells (set_stage_id x n h) = next_cells h ∧
  (∀ b, resolved (set_stage_id x n h) b = resolved h b) ∧
  stage_of (set_stage_id x n h) (inl (ex_cells x)) = Some n ∧
  (∀ b, b ≠ inl (ex_cells x) → stage_of (set_stage_id x n h) b = stage_of h b).
Proof.
  intros Hn. unfold set_stage_id, cells. split; [done|]. split; [|split].
  - intros [c|c]; [|done]. cbn. destruct (decide (c = ex_cells x)) as [->|]; [|by rewrite lookup_insert_ne].
    by rewrite lookup_insert_eq.
  - cbn. rewrite lookup_insert_eq. by apply id_of_small.
  - intros [c|c] Hc; [|done]. cbn. rewrite lookup_insert_ne by congruence. done.
Qed.

Lemma start_exchanges_grows found s stages s' :
  start_exchanges found s = (stages, s') → stage_id_generator s ≤ stage_id_generator s'.
Proof.
  revert s stages. induction found as [|[x input] found IH]; intros s stages Hs; cbn in Hs; [by simplify_eq|].
  destruct (ex_inactive_stage x); [by eapply IH|].
  destruct (start_exchanges found _) as [runnable s1] eqn:Hr. injection Hs as <- <-. apply IH in Hr.
  destruct (exchange_stage_id (heap s) x); cbn in Hr; lia.
Qed.

(** What starting stages keeps, and which exchanges it returns *)
Definition started (found : list (ExchangeExec * AdaptivePlan)) (s : AdaptivePlanner) (stages : list JobPlan)
    (s' : AdaptivePlanner) : Prop :=
  consistent s' ∧ plan s' = plan s ∧ next_cells (heap s') = next_cells (heap s) ∧
  (∀ b, resolved (heap s') b = resolved (heap s) b) ∧
  (∀ b n, stage_of (heap s) b = Some n → stage_of (heap s') b = Some n) ∧
  Forall (λ stage, ∃ x input n, stage = Bare (AExchange x input) ∧ (x, input) ∈ found ∧
                     stage_of (heap s') (inl (ex_cells x)) = Some n) stages.

Lemma start_exchanges_ok found s stages s' :
  start_exchanges found s = (stages, s') → consistent s → ids_fit s' →
  Forall (λ xi, known (heap s) xi.1 ∧ shuffle_created (heap s) xi.1 = false) found → started found s stages s'.
Proof.
  unfold ids_fit. revert s stages. induction found as [|[x input] found IH]; intros s stages Hs Hc Hfit Hf; cbn in Hs.
  { simplify_eq. by split_and!. }
  inversion_clear Hf as [|? ? [[Hx Hin] Hcr] Hf']. cbn in Hx, Hin, Hcr. rewrite Hin in Hs.
  destruct (start_exchanges found _) as [runnable s1] eqn:Hr. injection Hs as <- <-.
  assert (Hgrow := start_exchanges_grows _ _ _ _ Hr). unfold exchange_stage_id in *.
  destruct (id_of_cell (cell_stage_id (cells (heap s) x))) as [n|] eqn:Hid.
  - destruct (IH _ _ Hr Hc Hfit Hf') as (? & ? & ? & ? & Hkeep & Hall). split_and!; try done. constructor.
    + exists x, input, n. split_and!; [done|by left|]. by apply Hkeep.
    + eapply Forall_impl; [exact Hall|]. intros st (y & i & m & -> & ? & ?). exists y, i, m. split_and!; [done|by right|done].
  - cbn in Hgrow. destruct (set_stage_id_heap (heap s) x (stage_id_generator s)) as (Hn & Hres & Hst & Hoth); [lia|].
    destruct (IH _ _ Hr) as (? & ? & ? & Hres' & Hkeep & Hall); [| |..].
    + eapply register_consistent; [done|lia|done|done|by apply Hcr|done..].
    + done.
    + eapply Forall_impl; [exact Hf'|]. intros [y i] [[? ?] Hy]. split; [split; [|done]; cbn in *; lia|].
      exact (eq_trans (Hres (inl (ex_cells y))) Hy).
    + split_and!; [done|done|cbn in *; lia| | |].
      * intros b. rewrite Hres'. apply Hres.
      * intros b m Hb. apply Hkeep. cbn. rewrite Hoth; [done|]. intros ->. unfold cells in Hid. cbn in Hb. congruence.
      * constructor; [exists x, input, (stage_id_generator s); split_and!; [done|by left|by apply Hkeep]|].
        eapply Forall_impl; [exact Hall|]. intros st (y & i & m & -> & ? & ?). exists y, i, m. split_and!; [done|by right|done].
Qed.

(** A stage that can run: its boundary has an id and is not resolved, all boundaries below
    it are. *)
Definition runnable (h : Heap) (stage : JobPlan) : Prop :=
  ∃ input b n, job_input stage = Some input ∧ boundary_of stage = Some b ∧ stage_of h b = Some n ∧ resolved h b = false ∧
    known_in h input ∧ unresolved_below h input = false ∧ settled threshold h input.

Lemma runnable_same h h' stage : same_stages h h' → runnable h stage → runnable h' stage.
Proof.
  intros Hs (input & b & n & ? & ? & ? & ? & ? & ? & ?). destruct Hs as [Hn Hb] eqn:He.
  exists input, b, n. rewrite (proj1 (Hb b)), (proj2 (Hb b)), (unresolved_same h h') by (intros x; by apply same_created).
  split_and!; try done; [eapply known_next; [|done]; lia|]. eapply settled_same; [|done]. intros x. by apply same_created.
Qed.

Lemma find_runnable_found s :
  consistent s → Forall (λ xi, ready threshold (heap s) xi.1 xi.2) (find_runnable (heap s) (plan s)).
Proof.
  intros Hc. assert (Hk := plan_known _ Hc). assert (Hs := plan_settled _ Hc). unfold find_runnable.
  destruct (plan s) as [root input|]; [|done]. destruct Hk as [_ Hk], Hs as [Hs _].
  apply list.Forall_forall. intros [x i] Hx. by eapply find_runnable_ready.
Qed.

Lemma ready_runnable s s' x input n :
  ready threshold (heap s) x input → next_cells (heap s') = next_cells (heap s) →
  (∀ b, resolved (heap s') b = resolved (heap s) b) → stage_of (heap s') (inl (ex_cells x)) = Some n →
  runnable (heap s') (Bare (AExchange x input)).
Proof.
  intros ([Hx _] & Hcr & Hk & Hu & Hs) Hn Hres Hid. exists input, (inl (ex_cells x)), n. rewrite Hres.
  assert (∀ x, shuffle_created (heap s') x = shuffle_created (heap s) x) as Hcre by (intros y; apply (Hres (inl (ex_cells y)))).
  split_and!; try done.
  - eapply known_next; [|done]. lia.
  - by rewrite (unresolved_same (heap s)).
  - by apply (settled_same _ (heap s)).
Qed.

Lemma root_stage_heap h r n :
  (Z.of_nat n < 2 ^ 63)%Z →
  let h' := set_final_plan r (root_set_stage_id r n h) in
  next_cells h' = next_cells h ∧ (∀ b, resolved h' b = resolved h b) ∧ stage_of h' (inr (ad_cells r)) = Some n ∧
  (∀ b, b ≠ inr (ad_cells r) → stage_of h' b = stage_of h b).
Proof.
  intros Hn h'. unfold h', set_final_plan, root_set_stage_id, root_cells. split; [done|]. split; [|split].
  - intros [c|c]; [done|]. cbn. destruct (decide (c = ad_cells r)) as [->|]; [|by rewrite !lookup_insert_ne].
    by rewrite !lookup_insert_eq.
  - cbn. rewrite !lookup_insert_eq. by apply id_of_small.
  - intros [c|c] Hc; [done|]. cbn. by rewrite !lookup_insert_ne by congruence.
Qed.

Lemma identify_grows s o s' : identify_runnable_stages s = (o, s') → stage_id_generator s ≤ stage_id_generator s'.
Proof.
  unfold identify_runnable_stages. intros Hi. repeat case_match; simplify_eq; cbn; try lia. by eapply start_exchanges_grows.
Qed.

(** No boundary is open when none is found. *)
Lemma none_open h root input :
  find_runnable h (Adaptive root input) = [] → known_in h input → unresolved_below h input = false.
Proof.
  intros Hf Hk. rewrite <- find_runnable_open by done. destruct (find_runnable_exchanges h input).2 eqn:Hb; [|done].
  by destruct (find_runnable_some _ _ Hb).
Qed.

(** The root runs last. *)
Lemma identify_root_ok s root input o s' :
  identify_runnable_stages s = (o, s') → consistent s → ids_fit s' → plan s = Adaptive root input →
  find_runnable (heap s) (plan s) = [] →
  consistent s' ∧ ∀ stages, o = Ok (Some stages) → Forall (runnable (heap s')) stages ∧ stages ≠ [].
Proof.
  intros Hi Hc Hfit Hp Hf. unfold ids_fit in Hfit. assert (Hgrow := identify_grows _ _ _ Hi).
  assert (Hk := plan_known _ Hc). assert (Hs := plan_settled _ Hc). unfold identify_runnable_stages in Hi.
  rewrite Hf, Hp in Hi. rewrite Hp in Hf, Hk, Hs. destruct Hk as [Ha Hk], Hs as [Hs _]. apply none_open in Hf as Hu; [|done].
  destruct (root_shuffle_created (heap s) root) eqn:Hr; [by simplify_eq|].
  destruct (adaptive_stage_id (heap s) root) as [n|] eqn:Hid; injection Hi as <- <-.
  - split; [done|]. intros stages [= <-]. split; [|done]. constructor; [|done]. by exists input, (inr (ad_cells root)), n.
  - cbn in Hfit, Hgrow. destruct (root_stage_heap (heap s) root (stage_id_generator s)) as (Hn & Hres & Hst & Hoth); [lia|].
    split; [eapply register_consistent; [done|lia|done..]|]. intros stages [= <-]. split; [|done]. constructor; [|done].
    exists input, (inr (ad_cells root)), (stage_id_generator s). cbn [heap register_stage]. rewrite Hres.
    assert (∀ x, shuffle_created (set_final_plan root (root_set_stage_id root (stage_id_generator s) (heap s))) x =
      shuffle_created (heap s) x) as Hcre by (intros y; apply (Hres (inl (ex_cells y)))).
    split_and!; try done; [by rewrite (unresolved_same (heap s))|by apply (settled_same _ (heap s))].
Qed.

Lemma identify_ok s o s' :
  identify_runnable_stages s = (o, s') → consistent s → ids_fit s' →
  consistent s' ∧ ∀ stages, o = Ok (Some stages) → Forall (runnable (heap s')) stages ∧ stages ≠ [].
Proof.
  intros Hi Hc Hfit. assert (Hall := find_runnable_found s Hc). assert (Hs := plan_settled _ Hc).
  destruct (find_runnable (heap s) (plan s)) as [|[x i] found] eqn:Hf.
  { destruct (plan s) as [root input|] eqn:Hp; [|done]. eapply identify_root_ok; try done. by rewrite Hp. }
  unfold identify_runnable_stages in Hi. rewrite Hf in Hi.
  change ((let '(runnable, s) := start_exchanges ((x, i) :: found) s in (Ok (Some runnable), s)) = (o, s')) in Hi.
  destruct (start_exchanges ((x, i) :: found) s) as [stages s1] eqn:Hst. injection Hi as <- <-.
  destruct (start_exchanges_ok _ _ _ _ Hst Hc Hfit) as (Hc' & _ & Hn & Hres & _ & Hst').
  { eapply Forall_impl; [exact Hall|]. intros [y j] (? & ? & _). done. }
  split; [done|]. intros stages' [= <-]. split.
  - apply list.Forall_forall. intros st Hin. rewrite list.Forall_forall in Hall. rewrite list.Forall_forall in Hst'.
    destruct (Hst' _ Hin) as (y & j & n & -> & Hy & Hid). eapply (ready_runnable s); try done. by apply (Hall (y, j)).
  - cbn in Hst. inversion_clear Hall as [|? ? ([_ Hina] & _) _]. cbn in Hina. rewrite Hina in Hst.
    by destruct (start_exchanges found _); simplify_eq.
Qed.

(** *** The plans of the stages *)

(** Only the cells of exchanges changed, and nothing that the stages depend on. *)
Definition only_cells (s s' : AdaptivePlanner) : Prop :=
  s' = set_heap (heap s') s ∧ same_stages (heap s) (heap s').

Lemma only_cells_refl s : only_cells s s.
Proof. split; [by destruct s|done]. Qed.

Lemma only_cells_trans s1 s2 s3 : only_cells s1 s2 → only_cells s2 s3 → only_cells s1 s3.
Proof. intros [E12 ?] [E23 ?]. split; [|by etrans]. rewrite E23, E12. done. Qed.

Lemma only_cells_consistent s s' : only_cells s s' → consistent s → consistent s'.
Proof. intros [E ?] Hc. rewrite E. by eapply consistent_same. Qed.

Lemma adapt_stages_ok stages s o s' :
  adapt_stages job_id stages s = (o, s') →
  only_cells s s' ∧
  ∀ infos, o = Ok infos →
    Forall2 (λ stage info, ∃ h, same_stages (heap s) h ∧ adapt_to_ballista job_id h stage = Ok info) stages infos.
Proof.
  revert s o s'. induction stages as [|stage stages IH]; intros s o s' Ha.
  { injection Ha as <- <-. split; [apply only_cells_refl|]. intros infos [= <-]. constructor. }
  cbn [adapt_stages] in Ha. unfold mthen, on_heap, mget, mlift, mret in Ha.
  destruct (coalesce_partitions coalesce_config stage (heap s)) as [oc h1] eqn:Hco.
  apply coalesce_same_stages in Hco as Hsame.
  assert (only_cells s (set_heap h1 s)) as Hoc by by split.
  destruct oc as [stage'|e|]; [|by simplify_eq; split|by simplify_eq; split].
  assert (stage' = stage) as ->.
  { unfold coalesce_partitions in Hco. by repeat case_match; simplify_eq. }
  destruct (adapt_to_ballista job_id (heap (set_heap h1 s)) stage) as [info|e|] eqn:Hinfo; [|by simplify_eq; split|by simplify_eq; split].
  destruct (adapt_stages job_id stages (set_heap h1 s)) as [[infos|e|] s2] eqn:Hrest; apply IH in Hrest as [Hoc' Hrest];
    simplify_eq; (split; [exact (only_cells_trans _ _ _ Hoc Hoc')|]); try done.
  intros infos' [= <-]. constructor; [by exists h1|]. eapply Forall2_impl; [by apply Hrest|].
  intros st i (h & ? & ?). exists h. split; [by etrans|done].
Qed.

(** What a call of [actionable_stages] gives: stages that can run *)
Lemma actionable_ok s o s' :
  actionable_stages job_id s = (o, s') → consistent s → ids_fit s' →
  consistent s' ∧
  ∀ infos stale, o = Ok (Some infos, stale) →
    infos ≠ [] ∧
    Forall (λ info, ∃ h stage, runnable h stage ∧ same_stages h (heap s') ∧ adapt_to_ballista job_id h stage = Ok info) infos.
Proof.
  intros Ha Hc Hfit. unfold actionable_stages, mthen, mget, mret in Ha.
  destruct (identify_runnable_stages s) as [oi s1] eqn:Hi.
  destruct oi as [[stages|]|e|]; [| |by simplify_eq; destruct (identify_ok _ _ _ Hi Hc Hfit)..].
  2:{ injection Ha as <- <-. by destruct (identify_ok _ _ _ Hi Hc Hfit). }
  destruct (adapt_stages job_id stages s1) as [oa s2] eqn:Had. apply adapt_stages_ok in Had as [Hoc Hall].
  assert (s' = s2) as -> by (destruct oa; by simplify_eq/=).
  assert (ids_fit s1) as Hfit1. { unfold ids_fit in *. destruct Hoc as [E _]. by rewrite E in Hfit. }
  destruct (identify_ok _ _ _ Hi Hc Hfit1) as [Hc1 Hrun]. split; [by eapply only_cells_consistent|].
  intros infos stale Ho. destruct oa as [infos'|e|]; [|by simplify_eq..]. cbn in Ha. simplify_eq/=.
  destruct (Hrun _ eq_refl) as [Hrun' Hne]. specialize (Hall _ eq_refl). split.
  { intros ->. by inversion Hall; subst. }
  apply list.Forall_forall. intros info [k Hk]%list_elem_of_lookup_1.
  destruct (Forall2_lookup_r _ _ _ _ _ Hall Hk) as (stage & Hst & h & Hsame & Had).
  exists h, stage. split; [|split; [|done]].
  - eapply runnable_same; [exact Hsame|]. rewrite list.Forall_forall in Hrun'. apply Hrun'. by eapply list_elem_of_lookup_2.
  - destruct Hoc as [_ Hoc]. destruct Hsame as [Hn1 Hb1], Hoc as [Hn2 Hb2]. split; [congruence|]. intros b.
    destruct (Hb1 b), (Hb2 b). split; congruence.
Qed.

(** No stage is identified only when the root has output; there is no other failure. *)
Lemma identify_outcome s o s' :
  identify_runnable_stages s = (o, s') → consistent s →
  match o with
  | Ok (Some _) => True
  | Ok None => s' = s ∧ ∃ root input, plan s = Adaptive root input ∧
      root_shuffle_created (heap s) root = true ∧ unresolved_below (heap s) input = false
  | _ => False
  end.
Proof.
  intros Hi Hc. assert (Hk := plan_known _ Hc). assert (Hs := plan_settled _ Hc). unfold identify_runnable_stages in Hi.
  destruct (find_runnable (heap s) (plan s)) as [|xi found] eqn:Hf.
  2:{ destruct (start_exchanges (xi :: found) s). by simplify_eq. }
  destruct (plan s) as [root input|] eqn:Hp; [|done]. destruct Hk as [_ Hk]. apply none_open in Hf; [|done].
  destruct (root_shuffle_created (heap s) root) eqn:Hr; [|by case_match; simplify_eq].
  injection Hi as <- <-. split; [done|]. by exists root, input.
Qed.

(** The failure of a call is that of the coalescing or of the adapter on a stage. *)
Definition stage_fails {A : Type} (h : Heap) (stage : JobPlan) (o : df_result A) : Prop :=
  match o with
  | Ok _ => False
  | Err e => (coalesce_partitions coalesce_config stage h).1 = Err e ∨ adapt_to_ballista job_id h stage = Err e
  | Panic => (coalesce_partitions coalesce_config stage h).1 = Panic ∨ adapt_to_ballista job_id h stage = Panic
  end.

Lemma adapt_stages_fails stages s o s' :
  adapt_stages job_id stages s = (o, s') → (∀ infos, o ≠ Ok infos) →
  ∃ h stage, stage ∈ stages ∧ same_stages (heap s) h ∧ stage_fails h stage o.
Proof.
  revert s o s'. induction stages as [|stage stages IH]; intros s o s' Ha Hno.
  { injection Ha as <- <-. by destruct (Hno []). }
  cbn [adapt_stages] in Ha. unfold mthen, on_heap, mget, mlift, mret in Ha.
  destruct (coalesce_partitions coalesce_config stage (heap s)) as [oc h1] eqn:Hco.
  apply coalesce_same_stages in Hco as Hsame.
  destruct oc as [stage'|e|]; [|by simplify_eq; exists (heap s), stage; split_and!; [left|..|left; rewrite Hco]..].
  assert (stage' = stage) as ->.
  { unfold coalesce_partitions in Hco. by repeat case_match; simplify_eq. }
  destruct (adapt_to_ballista job_id (heap (set_heap h1 s)) stage) as [info|e|] eqn:Hinfo;
    [|by simplify_eq; exists h1, stage; split_and!; [left|..|right]..].
  destruct (adapt_stages job_id stages (set_heap h1 s)) as [orest s2] eqn:Hrest.
  assert (∀ infos, orest ≠ Ok infos) as Hno'.
  { intros infos ->. injection Ha as <- <-. by destruct (Hno (info :: infos)). }
  destruct (IH _ _ _ Hrest Hno') as (h & st & Hin & Hs & Hfail). exists h, st. split_and!; [by right|by etrans|].
  by destruct orest; simplify_eq.
Qed.

(** What a call of [actionable_stages] that gives no stages ends with *)
Lemma actionable_outcome s o s' :
  actionable_stages job_id s = (o, s') → consistent s → ids_fit s' →
  match o with
  | Ok (Some _, _) => True
  | Ok (None, _) => ∃ root input, plan s = Adaptive root input ∧
      root_shuffle_created (heap s) root = true ∧ unresolved_below (heap s) input = false
  | _ => ∃ h stage, runnable h stage ∧ same_stages h (heap s') ∧ stage_fails h stage o
  end.
Proof.
  intros Ha Hc Hfit. unfold actionable_stages, mthen, mget, mret in Ha.
  destruct (identify_runnable_stages s) as [oi s1] eqn:Hi. assert (Hout := identify_outcome _ _ _ Hi Hc).
  destruct oi as [[stages|]|e|]; [| |done..].
  2:{ injection Ha as <- <-. apply Hout. }
  destruct (adapt_stages job_id stages s1) as [oa s2] eqn:Had.
  assert (s' = s2) as -> by (destruct oa; by simplify_eq/=). destruct (adapt_stages_ok _ _ _ _ Had) as [Hoc _].
  assert (ids_fit s1) as Hfit1. { unfold ids_fit in *. destruct Hoc as [E _]. by rewrite E in Hfit. }
  destruct (identify_ok _ _ _ Hi Hc Hfit1) as [_ Hrun]. destruct (Hrun _ eq_refl) as [Hrun' _].
  rewrite list.Forall_forall in Hrun'. destruct Hoc as [_ Hoc].
  destruct oa as [infos|e|]; [by injection Ha as <-|..]; injection Ha as <-;
    (destruct (adapt_stages_fails _ _ _ _ Had) as (h & st & Hin & Hsame & Hf); [done|]; exists h, st;
     split_and!; [by eapply runnable_same; [exact Hsame|]; apply Hrun'| |done];
     destruct Hsame as [Hn1 Hb1], Hoc as [Hn2 Hb2]; split; [congruence|]; intros b;
     destruct (Hb1 b), (Hb2 b); split; congruence).
Qed.

(** *** The other calls *)

Lemma extends_stage h h' b :
  extends h h' →
  stage_of h' b = stage_of h b ∧ resolved h' b = resolved h b ∨
  stage_of h' b = None ∧ resolved h' b = false ∧ ¬ allocated h b.
Proof.
  intros (_ & He & Ha). destruct b as [c|c]; cbn.
  - destruct (He c) as [->|[? ->]]; [by left|]. right. split_and!; [done..|lia].
  - destruct (Ha c) as [->|[? ->]]; [by left|]. right. split_and!; [done..|lia].
Qed.

(** A boundary is resolved: its stage is not active any more. *)
Lemma finish_consistent s n b h1 p h2 :
  tracked s → stage_of (heap s) b = Some n → next_cells h1 = next_cells (heap s) →
  (∀ b', stage_of h1 b' = stage_of (heap s) b') → (∀ b', b' ≠ b → resolved h1 b' = resolved (heap s) b') →
  extends h1 h2 → job_known h2 p → job_settled threshold h2 p →
  consistent (mkPlanner _ (stage_id_generator s) p (delete n (runnable_stage_cache s)) (runnable_stage_output s) h2).
Proof.
  intros Hc Hn Hnext Hst Hres He Hk Hs. split; [|done]. split; cbn; try done.
  - intros b' m. destruct (extends_stage _ _ b' He) as [[-> _]|(-> & _)]; [|done]. rewrite Hst. apply Hc.
  - intros b1 b2 m. destruct (extends_stage _ _ b1 He) as [[-> _]|(-> & _)]; [|done].
    destruct (extends_stage _ _ b2 He) as [[-> _]|(-> & _)]; [|done]. rewrite !Hst. apply Hc.
  - intros b'. destruct (extends_stage _ _ b' He) as [[-> ->]|(-> & -> & _)]; [|done]. rewrite Hst.
    destruct (decide (b' = b)) as [->|Hne]; [by rewrite Hn|]. rewrite Hres by done. apply Hc.
  - intros m q [Hm Hq]%lookup_delete_Some. destruct (active_open _ Hc m q Hq) as (b' & ? & Ha & Hs' & ?).
    exists b'. assert (b' ≠ b) by congruence.
    destruct (extends_stage _ _ b' He) as [[-> ->]|(_ & _ & Hna)].
    + rewrite Hst, Hres by done. split_and!; try done. destruct He as [? _]. destruct b'; cbn in Ha |- *; lia.
    + destruct Hna. destruct b'; cbn in Ha |- *; lia.
  - apply Hc.
Qed.

Lemma optimize_ok `{!RuleLaws} p h q h' :
  optimize_physical_plan p h = (Ok q, h') → job_known h p → extends h h' ∧ job_known h' q ∧ job_settled threshold h' q.
Proof.
  intros Ho Hk. apply mthen_ok in Ho as (p1 & h1 & Hp1 & Ho). apply earlier_rules_known in Hp1 as [He Hk1]; [|done].
  apply distributed_exchange_ok in Ho as (He' & ? & ?); [|done]. split_and!; [by etrans|done..].
Qed.

Lemma resolve_consistent `{!RuleLaws} s n parts s' :
  resolve_stage_partitions n parts s = (Ok tt, s') → tracked s → consistent s'.
Proof.
  unfold resolve_stage_partitions, finalise_stage_internal. intros Hr Hc.
  destruct (runnable_stage_cache s !! n) as [q|] eqn:Hq; [|done].
  destruct (active_open _ Hc n q Hq) as (b & Hb & Ha & Hst & Hop).
  destruct q as [r i|[| |x i]]; try done; cbn in Hb; injection Hb as <-; unfold replan_stages in Hr; cbn in Hr.
  - destruct (optimize_physical_plan (plan s) (root_resolve_shuffle_partitions r parts (heap s))) as [[p|e|] h2] eqn:Ho; try done.
    injection Hr as <-. apply optimize_ok in Ho as (He & Hk & Hs).
    2:{ eapply job_known_next; [|apply Hc]. done. }
    refine (finish_consistent s n (inr (ad_cells r)) (root_resolve_shuffle_partitions r parts (heap s)) p h2 Hc Hst eq_refl _ _ He Hk Hs); intros [c|c]; try done; cbn; unfold root_cells.
    + destruct (decide (c = ad_cells r)) as [->|]; [by rewrite lookup_insert_eq|by rewrite lookup_insert_ne].
    + intros Hne. by rewrite lookup_insert_ne by congruence.
  - destruct (optimize_physical_plan (plan s) (resolve_shuffle_partitions x parts (heap s))) as [[p|e|] h2] eqn:Ho; try done.
    injection Hr as <-. apply optimize_ok in Ho as (He & Hk & Hs).
    2:{ eapply job_known_next; [|apply Hc]. done. }
    refine (finish_consistent s n (inl (ex_cells x)) (resolve_shuffle_partitions x parts (heap s)) p h2 Hc Hst eq_refl _ _ He Hk Hs); intros [c|c]; try done; cbn; unfold cells.
    + destruct (decide (c = ex_cells x)) as [->|]; [by rewrite lookup_insert_eq|by rewrite lookup_insert_ne].
    + intros Hne. by rewrite lookup_insert_ne by congruence.
Qed.

(** *** Reachable states *)

Lemma actionable_grows s o s' : actionable_stages job_id s = (o, s') → stage_id_generator s ≤ stage_id_generator s'.
Proof.
  intros Ha. unfold actionable_stages, mthen, mget, mret in Ha.
  destruct (identify_runnable_stages s) as [oi s1] eqn:Hi. apply identify_grows in Hi.
  destruct oi as [[stages|]|e|]; [|by simplify_eq..].
  destruct (adapt_stages job_id stages s1) as [oa s2] eqn:Had. apply adapt_stages_ok in Had as [[E _] _].
  assert (s' = s2) as -> by (destruct oa; by simplify_eq/=). by rewrite E.
Qed.

(** The calls that leave the plan and the ids alone *)
Lemma step_consistent `{!RuleLaws} s s' : planner_step s s' → consistent s → ids_fit s' → consistent s'.
Proof.
  intros Hst Hc Hfit. destruct Hst as [s o s' Ha|s id locs o s' Hu|s id e|s id o s' Ht|s id routing o s' Hr|s id parts s' Hr|s id].
  - by destruct (actionable_ok _ _ _ Ha Hc Hfit).
  - unfold update_exchange_locations in Hu. destruct (runnable_stage_output s !! id) as [out|] eqn:Ho; simplify_eq; [|done].
    eapply consistent_same; try done. cbn. rewrite dom_insert_L. apply elem_of_dom_2 in Ho. set_solver.
  - unfold remove_exchange_locations. destruct (runnable_stage_output s !! id) as [out|] eqn:Ho; [|done].
    eapply consistent_same; try done. cbn. rewrite dom_insert_L. apply elem_of_dom_2 in Ho. set_solver.
  - unfold take_stage_output_partitions in Ht. destruct (runnable_stage_cache s !! id); [|by simplify_eq].
    assert (s' = set_output (delete id (runnable_stage_output s)) s) as -> by (by case_match; simplify_eq).
    eapply consistent_same; try done. cbn. rewrite dom_delete_L. set_solver.
  - unfold set_repartition_routing in Hr. repeat case_match; simplify_eq; try done.
    eapply consistent_same; try done. by apply same_stages_set.
  - eapply resolve_consistent; [done|apply Hc].
  - eapply consistent_same; try done. cbn. apply delete_subseteq.
Qed.

Lemma step_grows s s' : planner_step s s' → stage_id_generator s ≤ stage_id_generator s'.
Proof.
  intros Hst. destruct Hst as [s o s' Ha|s id locs o s' Hu|s id e|s id o s' Ht|s id routing o s' Hr|s id parts s' Hr|s id].
  - by eapply actionable_grows.
  - unfold update_exchange_locations in Hu. by case_match; simplify_eq.
  - unfold remove_exchange_locations. by case_match.
  - unfold take_stage_output_partitions in Ht. by repeat case_match; simplify_eq.
  - unfold set_repartition_routing in Hr. by repeat case_match; simplify_eq.
  - unfold resolve_stage_partitions, finalise_stage_internal, replan_stages in Hr. by repeat case_match; simplify_eq.
  - done.
Qed.

Lemma initial_consistent `{!RuleLaws} p s :
  try_new_with_optimizers p (mkHeap ∅ ∅ 0 0) = Ok s → known_in (mkHeap ∅ ∅ 0 0) p → consistent s.
Proof.
  unfold try_new_with_optimizers. intros Hn Hk.
  destruct (optimize_physical_plan (Bare p) (mkHeap ∅ ∅ 0 0)) as [[q|e|] h] eqn:Ho; try done. cbn in Hn. injection Hn as <-.
  apply optimize_ok in Ho as (He & Hkq & Hsq); [|done].
  assert (∀ b, stage_of h b = None ∧ resolved h b = false) as Hb.
  { intros b. destruct (extends_stage _ _ b He) as [[-> ->]|(-> & -> & _)]; [|done]. by destruct b; cbn; rewrite lookup_empty. }
  split; [|done]. split; cbn; try done.
  - intros b n. by rewrite (proj1 (Hb b)).
  - intros b b' n. by rewrite (proj1 (Hb b)).
  - intros b. by rewrite (proj2 (Hb b)).
  - intros n. by rewrite lookup_empty; intros [].
Qed.

Lemma reachable_consistent `{!RuleLaws} s : reachable s → ids_fit s → consistent s.
Proof.
  intros (p & s0 & Hnew & Hk & Hsteps). apply initial_consistent in Hnew; [|done]. clear Hk.
  revert s Hsteps. refine (rtc_ind_r _ s0 _ _); [done|]. intros s1 s2 _ Hst IH Hfit.
  eapply step_consistent; [done| |done]. apply IH. apply step_grows in Hst. unfold ids_fit in *. lia.
Qed.
End planner.
