(* ===== verification/AdaptiveOutputs.v ===== *)
(** * Outputs of adaptive stages

    What the tasks of a stage report is what the readers of the stage get, also when
    partitions are coalesced; and a stage that has finished takes no more reports. *)

From stdpp Require Import numbers gmap strings.
From S2P Require Import Prelude Errors Machine Types Stage Graph Coalesce PhysicalPlan TaskPlan TaskPlanFacts Planner PlannerFacts AdaptivePlan Adapter AdaptivePlanner AdaptiveFacts AdapterFacts AdaptivePlannerFacts.

(** ** Collecting locations *)

Definition output_partition (l : PartitionLocation.t) : nat := PartitionId.partition_id (PartitionLocation.partition_id l).

(** The locations of an output partition *)
Definition locations_of (locs : list PartitionLocation.t) (p : nat) : list PartitionLocation.t :=
  filter (λ l, output_partition l = p) locs.

Lemma add_partition_at l o p :
  default [] (StageOutput.partition_locations (StageOutput.add_partition l o) !! p) =
  default [] (StageOutput.partition_locations o !! p) ++ locations_of [l] p.
Proof.
  unfold StageOutput.add_partition, locations_of, output_partition. rewrite filter_cons, filter_nil.
  set (q := PartitionId.partition_id (PartitionLocation.partition_id l)). destruct (decide (q = p)) as [<-|Hne].
  - destruct (StageOutput.partition_locations o !! q) eqn:Hq; cbn; by rewrite lookup_insert_eq.
  - rewrite app_nil_r. destruct (StageOutput.partition_locations o !! q) eqn:Hq; cbn; by rewrite lookup_insert_ne.
Qed.

Lemma collect_at locs o p :
  default [] (StageOutput.partition_locations (foldl (λ o l, StageOutput.add_partition l o) o locs) !! p) =
  default [] (StageOutput.partition_locations o !! p) ++ locations_of locs p.
Proof.
  revert o. induction locs as [|l locs IH]; intros o; cbn [foldl]; [by rewrite app_nil_r|].
  rewrite IH, add_partition_at, <- app_assoc. f_equal. unfold locations_of. by rewrite <- filter_app.
Qed.

(** The partitions that a list of reports gives *)
Definition delivered (count : nat) (locs : list PartitionLocation.t) : list (list PartitionLocation.t) :=
  locations_of locs <$> seq 0 count.

Lemma collected_vec locs count :
  StageOutput.to_vec count (foldl (λ o l, StageOutput.add_partition l o) StageOutput.new locs) = delivered count locs.
Proof. apply list_fmap_ext. intros i p _. rewrite collect_at. cbn. by rewrite lookup_empty. Qed.

Section outputs.
Context `{FilterOps} `{!SessionOps} `{MapOrder} (job_id : JobId).

(** What the tasks of a stage report, among the reports of all stages *)
Definition reports_of (n : nat) (events : list (nat * list PartitionLocation.t)) : list PartitionLocation.t :=
  concat (filter (λ e, e.1 = n) events).*2.

Lemma reports_collected n o events s s1 :
  runnable_stage_output s !! n = Some o → mfor events (λ e, update_exchange_locations e.1 e.2) s = (Ok tt, s1) →
  s1 = set_output (runnable_stage_output s1) s ∧ dom (runnable_stage_output s1) = dom (runnable_stage_output s) ∧
  runnable_stage_output s1 !! n = Some (foldl (λ o l, StageOutput.add_partition l o) o (reports_of n events)).
Proof.
  unfold reports_of. revert s o. induction events as [|[m locs] events IH]; intros s o Ho Hr; cbn in Hr.
  { injection Hr as <-. split_and!; [by destruct s|done..]. }
  apply mthen_ok in Hr as ([] & s2 & Hu & Hr). unfold update_exchange_locations in Hu.
  destruct (runnable_stage_output s !! m) as [om|] eqn:Hm; [|done]. injection Hu as <-.
  rewrite filter_cons. cbn [fst]. destruct (decide (m = n)) as [->|Hne].
  - simplify_eq. eapply IH in Hr as (E & Hd & Hn); [|apply lookup_insert_eq]. split_and!.
    + rewrite E. by destruct s.
    + rewrite Hd. cbn. rewrite dom_insert_L. apply elem_of_dom_2 in Ho. set_solver.
    + rewrite Hn. cbn. by rewrite foldl_app.
  - eapply IH in Hr as (E & Hd & Hn); [|cbn; by rewrite lookup_insert_ne]. split_and!; [rewrite E; by destruct s| |done].
    rewrite Hd. cbn. rewrite dom_insert_L. apply elem_of_dom_2 in Hm. set_solver.
Qed.

(** All locations of a stage, in the order the map is visited in *)
Lemma add_partition_all l o :
  concat (map_to_list (StageOutput.partition_locations (StageOutput.add_partition l o))).*2 ≡ₚ
  l :: concat (map_to_list (StageOutput.partition_locations o)).*2.
Proof.
  unfold StageOutput.add_partition. set (q := PartitionId.partition_id (PartitionLocation.partition_id l)).
  destruct (StageOutput.partition_locations o !! q) as [locs|] eqn:Hq; cbn.
  - rewrite <- (insert_delete_id _ _ _ Hq) at 2. rewrite <- (insert_delete_eq _ q).
    rewrite !map_to_list_insert by apply lookup_delete_eq. cbn. rewrite <- app_assoc. cbn. by rewrite <- Permutation_middle.
  - by rewrite map_to_list_insert by done.
Qed.

Lemma collected_all locs :
  concat (partition_locations_broadcast (foldl (λ o l, StageOutput.add_partition l o) StageOutput.new locs)) ≡ₚ locs.
Proof.
  unfold partition_locations_broadcast. rewrite iter_map_perm.
  assert (∀ o, concat (map_to_list (StageOutput.partition_locations (foldl (λ o l, StageOutput.add_partition l o) o locs))).*2 ≡ₚ
    locs ++ concat (map_to_list (StageOutput.partition_locations o)).*2) as Ho.
  { induction locs as [|l locs IH]; intros o; [done|]. cbn [foldl]. rewrite IH, add_partition_all. by rewrite <- Permutation_middle. }
  rewrite Ho. cbn. by rewrite map_to_list_empty, app_nil_r.
Qed.

Definition leaf_stage (l : Leaf) : option nat :=
  match l with ShuffleReader r => Some (sr_stage_id r) | RangeShuffleReader r => Some (rr_stage_id r) | _ => None end.

Definition leaf_locations (l : Leaf) : list (list PartitionLocation.t) :=
  match l with ShuffleReader r => sr_partition r | RangeShuffleReader r => rr_partition r | _ => [] end.

(** What a reader reads of the partitions of its exchange *)
Definition read_of (cp : option CoalescePlan) (broadcast : bool) (parts : list (list PartitionLocation.t))
  : list (list PartitionLocation.t) :=
  if broadcast then [concat parts]
  else match cp with None => parts | Some cp => read_group parts <$> c_groups cp end.

Lemma reader_reads h x input fetch id parts :
  shuffle_partitions h x = Some parts →
  leaf_stage (reader_of h x input fetch id parts) = Some id ∧
  leaf_locations (reader_of h x input fetch id parts) = read_of (cell_coalesce (cells h x)) (ex_broadcast x) parts.
Proof.
  intros Hp. unfold reader_of, read_of. destruct (ex_broadcast x).
  - cbn. destruct (cell_coalesce (cells h x)); cbn; unfold shuffle_partitions_flattened, shuffle_partitions in *; by rewrite Hp.
  - destruct (cell_coalesce (cells h x)); [done|]. by destruct (output_ordering input).
Qed.

(** The cells of the exchange of a stage that is resolved *)
Lemma resolve_cells `{!RuleLaws} s n parts s' x input :
  resolve_stage_partitions n parts s = (Ok tt, s') → tracked s →
  runnable_stage_cache s !! n = Some (Bare (AExchange x input)) →
  cells (heap s') x = mkCells (cell_stage_id (cells (heap s) x)) (Some parts) (cell_coalesce (cells (heap s) x)) (cell_routing (cells (heap s) x)) ∧
  exchange_stage_id (heap s) x = Some n.
Proof.
  intros Hr Hc Hq. destruct (active_open _ Hc n _ Hq) as (b & [= <-] & Ha & Hst & _). split; [|exact Hst].
  unfold resolve_stage_partitions, finalise_stage_internal, replan_stages in Hr. rewrite Hq in Hr. cbn in Hr.
  destruct (optimize_physical_plan (plan s) (resolve_shuffle_partitions x parts (heap s))) as [[p|e|] h2] eqn:Ho; try done.
  injection Hr as <-. apply optimize_ok in Ho as ((_ & He & _) & _); [|eapply job_known_next; [|apply Hc]; done].
  cbn in Ha. cbn [heap set_plan set_heap]. unfold cells at 1. destruct (He (ex_cells x)) as [->|[Hle _]]; [|cbn in Hle; lia].
  cbn. by rewrite lookup_insert_eq.
Qed.

(** ** A finished stage *)

(** Only new stages get entries. *)
Definition same_entries (n : nat) (s s' : AdaptivePlanner) : Prop :=
  runnable_stage_output s' !! n = runnable_stage_output s !! n ∧ runnable_stage_cache s' !! n = runnable_stage_cache s !! n.

Lemma register_entries n p h s : n < stage_id_generator s → same_entries n s (register_stage p h s).
Proof. intros Hn. split; cbn; by rewrite lookup_insert_ne by lia. Qed.

Lemma start_exchanges_entries found s stages s' n :
  start_exchanges found s = (stages, s') → n < stage_id_generator s → same_entries n s s'.
Proof.
  revert s stages. induction found as [|[x input] found IH]; intros s stages Hs Hn; cbn in Hs; [by simplify_eq|].
  destruct (ex_inactive_stage x); [by eapply IH|].
  destruct (start_exchanges found _) as [runnable s1] eqn:Hr. injection Hs as <- <-.
  destruct (exchange_stage_id (heap s) x); apply IH in Hr; [done..| |cbn; lia].
  destruct (register_entries n (Bare (AExchange x input)) (set_stage_id x (stage_id_generator s) (heap s)) s Hn) as [Ho Hc].
  destruct Hr as [Ho' Hc']. split; congruence.
Qed.

Lemma actionable_entries s o s' n :
  actionable_stages job_id s = (o, s') → n < stage_id_generator s → same_entries n s s'.
Proof.
  intros Ha Hn. unfold actionable_stages, mthen, mget, mret in Ha.
  destruct (identify_runnable_stages s) as [oi s1] eqn:Hi.
  assert (same_entries n s s1) as Hs1.
  { unfold identify_runnable_stages in Hi. repeat case_match; simplify_eq; try done;
      first [by eapply start_exchanges_entries|by apply register_entries]. }
  destruct oi as [[stages|]|e|]; [|by simplify_eq..].
  destruct (adapt_stages job_id stages s1) as [oa s2] eqn:Had. apply adapt_stages_ok in Had as [[E _] _].
  assert (s' = s2) as -> by (destruct oa; by simplify_eq/=). by rewrite E.
Qed.

(** Once the outputs of a stage are gone, no call brings them back. *)
Lemma finished_forever s s' n :
  rtc (planner_step job_id) s s' → n < stage_id_generator s → runnable_stage_output s !! n = None →
  runnable_stage_output s' !! n = None.
Proof.
  intros Hsteps Hn Ho. assert (n < stage_id_generator s' ∧ runnable_stage_output s' !! n = None) as [_ ?]; [|done].
  revert s' Hsteps. refine (rtc_ind_r _ s _ _); [done|]. intros s1 s2 _ Hst [Hn1 Ho1].
  split; [apply step_grows in Hst; lia|].
  destruct Hst as [s1 o s2 Ha|s1 id locs o s2 Hu|s1 id e|s1 id o s2 Ht|s1 id routing o s2 Hr|s1 id parts s2 Hr|s1 id].
  - destruct (actionable_entries _ _ _ _ Ha Hn1) as [E _]. by rewrite E.
  - unfold update_exchange_locations in Hu. case_match; simplify_eq; [|done]. cbn. rewrite lookup_insert_ne by congruence. done.
  - unfold remove_exchange_locations. case_match; [|done]. cbn. rewrite lookup_insert_ne by congruence. done.
  - unfold take_stage_output_partitions in Ht. repeat case_match; simplify_eq; try done; cbn; by apply lookup_delete_None; right.
  - unfold set_repartition_routing in Hr. by repeat case_match; simplify_eq.
  - unfold resolve_stage_partitions, finalise_stage_internal, replan_stages in Hr. by repeat case_match; simplify_eq.
  - done.
Qed.
End outputs.

(** ** Coalesced readers *)

Section coalesced.
Context `{FilterOps}.

(** The bytes of the partitions, without overflow *)
Definition bytes_of (parts : list (list PartitionLocation.t)) : N :=
  lsum (λ locs, lsum (λ l, default 0%N (num_bytes (PartitionLocation.partition_stats l))) locs) parts.

Definition total_bytes (h : Heap) (leaves : list (ExchangeExec * AdaptivePlan)) : N :=
  lsum (λ l, bytes_of (default [] (shuffle_partitions h l.1))) leaves.

Lemma u64_add_le a b : (u64_add a b ≤ a + b)%N.
Proof. unfold u64_add. by apply N.Div0.mod_le. Qed.

Lemma location_bytes_le locs :
  (location_bytes locs ≤ lsum (λ l, default 0%N (num_bytes (PartitionLocation.partition_stats l))) locs)%N.
Proof.
  assert (∀ n, (foldl u64_add n (omap (λ l, num_bytes (PartitionLocation.partition_stats l)) locs) ≤
    n + lsum (λ l, default 0 (num_bytes (PartitionLocation.partition_stats l))) locs)%N) as Hn; [|apply (Hn 0%N)].
  induction locs as [|l locs IH]; intros n; [cbn; lia|]. unfold lsum in *. cbn [omap list_omap foldr].
  destruct (num_bytes (PartitionLocation.partition_stats l)) as [b|]; cbn [default from_option foldl].
  - specialize (IH (u64_add n b)). pose proof (u64_add_le n b). unfold id in *. lia.
  - specialize (IH n). lia.
Qed.

Lemma sum_sizes_insert l i x y :
  l !! i = Some x → (sum_sizes (<[i := y]> l) + x = sum_sizes l + y)%N.
Proof.
  revert i. induction l as [|z l IH]; intros [|i] Hi; [done..| |].
  - injection Hi as ->. cbn [insert list_insert sum_sizes]. lia.
  - specialize (IH _ Hi). change (z + sum_sizes (<[i := y]> l) + x = z + sum_sizes l + y)%N. lia.
Qed.

Lemma add_sizes_ok i parts summed summed' :
  add_sizes i parts summed = Ok summed' →
  length summed' = length summed ∧ (parts = [] ∨ i + length parts ≤ length summed) ∧
  (sum_sizes summed' ≤ sum_sizes summed + bytes_of parts)%N.
Proof.
  revert i summed. induction parts as [|locs parts IH]; intros i summed Ha; cbn in Ha.
  - injection Ha as <-. split_and!; [done|by left|]. unfold bytes_of. cbn. lia.
  - destruct (summed !! i) as [n|] eqn:Hi; [|done]. apply IH in Ha as (Hl & Hlen & Hs). rewrite length_insert in Hl, Hlen.
    apply lookup_lt_Some in Hi as Hlt. split_and!; [done|right; destruct Hlen as [->|]; cbn; lia|].
    pose proof (sum_sizes_insert _ _ _ (u64_add n (location_bytes locs)) Hi).
    pose proof (u64_add_le n (location_bytes locs)). pose proof (location_bytes_le locs). unfold bytes_of, lsum in *. cbn [foldr]. lia.
Qed.

Lemma sum_sizes_of_ok h leaves summed summed' :
  sum_sizes_of h leaves summed = Ok (Some summed') →
  length summed' = length summed ∧
  Forall (λ l, ∃ parts, shuffle_partitions h l.1 = Some parts ∧ length parts ≤ length summed) leaves ∧
  (sum_sizes summed' ≤ sum_sizes summed + total_bytes h leaves)%N.
Proof.
  revert summed. induction leaves as [|[x i] leaves IH]; intros summed Hs; cbn in Hs.
  - injection Hs as <-. split_and!; [done|constructor|]. unfold total_bytes. cbn. lia.
  - destruct (shuffle_partitions h x) as [parts|] eqn:Hp; [|done]. step Hs as s1 Ha.
    apply add_sizes_ok in Ha as (Hl & Hlen & Hb). apply IH in Hs as (Hl' & Hall & Hb'). rewrite Hl in Hl', Hall.
    split_and!; [done| |].
    + constructor; [|done]. exists parts. split; [done|]. destruct Hlen as [->|]; cbn; lia.
    + unfold total_bytes, lsum in *. cbn [foldr fst]. rewrite Hp. cbn [default from_option]. unfold id in *. lia.
Qed.

Lemma sum_sizes_zero m : sum_sizes (replicate m 0%N) = 0%N.
Proof. by induction m. Qed.

Lemma omap_seq {A : Type} (l : list A) m : length l ≤ m → omap (λ i, l !! i) (seq 0 m) = l.
Proof.
  intros Hm. replace m with (length l + (m - length l)) by lia. rewrite seq_app, omap_app.
  assert (∀ a n, length l ≤ a → omap (λ i, l !! i) (seq a n) = []) as Hz.
  { intros a n. revert a. induction n as [|n IH]; intros a Ha; [done|]. cbn. rewrite lookup_ge_None_2 by done. apply IH. lia. }
  rewrite (Hz (0 + length l)) by lia. rewrite app_nil_r. clear Hm Hz m. induction l as [|x l IH]; [done|]. cbn. f_equal. rewrite <- fmap_S_seq.
  rewrite <- IH at 2. clear IH. generalize (seq 0 (length l)) as ks. induction ks as [|i ks IH]; [done|]. cbn.
  destruct (l !! i); by rewrite IH.
Qed.

Lemma read_groups_all (parts : list (list PartitionLocation.t)) (groups : list PartitionGroup) m :
  length parts ≤ m → concat (upstream_indices <$> groups) = seq 0 m →
  concat (read_group parts <$> groups) = concat parts.
Proof.
  intros Hm Hg. rewrite <- (omap_seq parts m Hm) at 2. rewrite <- Hg. clear Hg.
  induction groups as [|g groups IH]; [done|]. cbn. rewrite IH, omap_app, concat_app. done.
Qed.

Lemma existsb_none {A : Type} (f : A → bool) l x : existsb f l = false → x ∈ l → f x = false.
Proof.
  intros Hf Hx. destruct (f x) eqn:Hfx; [|done]. rewrite <- Hf. symmetry. apply existsb_exists. exists x.
  by split; [apply list_elem_of_In|].
Qed.

(** The exchanges of a decision are resolved, and the groups list all partitions. *)
Lemma decision_ok config h x0 i0 leaves cp :
  coalesce_decision config h ((x0, i0) :: leaves) = Ok (Some cp) →
  (total_bytes h ((x0, i0) :: leaves) < 2 ^ 64)%N →
  let m := partition_count (exchange_partitioning x0 (a_partitioning i0)) in
  (N.of_nat m ≤ 2 ^ 32)%N →
  concat (upstream_indices <$> c_groups cp) = seq 0 m ∧ 1 < length (c_groups cp) < m ∧
  Forall (λ l, ex_broadcast l.1 = false ∧ a_count (AExchange l.1 l.2) = m ∧
               ∃ parts, shuffle_partitions h l.1 = Some parts ∧ length parts ≤ m) ((x0, i0) :: leaves).
Proof.
  intros Hd Hb m Hm. cbn [coalesce_decision] in Hd. fold m in Hd.
  destruct (existsb _ _) eqn:Hbr in Hd; [done|]. destruct (existsb _ _) in Hd; [done|]. destruct (existsb _ _) eqn:Hcount in Hd; [done|].
  step Hd as summed Hsum. destruct summed as [summed|]; [|done]. apply sum_sizes_of_ok in Hsum as (Hlen & Hall & Hs).
  rewrite length_replicate in Hlen, Hall. rewrite sum_sizes_zero in Hs. cbv zeta in Hd.
  cbn [fst snd] in *. fold m in Hd, Hlen, Hall.
  match type of Hd with (if ?b then _ else _) = _ => destruct b eqn:Hk end; [done|]. injection Hd as <-. apply orb_false_iff in Hk as [Hk1%Nat.leb_gt Hk2%Nat.leb_gt].
  cbn [c_groups]. split_and!.
  - rewrite <- list_fmap_compose. rewrite <- Hlen. rewrite <- Hlen in Hm.
    refine (eq_trans _ (split_groups _ _ _ summed _ Hm)); [done|lia].
  - unfold start_indices_to_partition_groups. by rewrite length_fmap, length_imap.
  - unfold start_indices_to_partition_groups. by rewrite length_fmap, length_imap.
  - apply list.Forall_forall. intros [x i] Hx. rewrite list.Forall_forall in Hall. split_and!; [| |by apply (Hall (x, i))].
    + apply (existsb_none _ _ _ Hbr Hx).
    + apply (existsb_none _ _ _ Hcount), negb_false_iff, Nat.eqb_eq in Hx. done.
Qed.

Lemma set_coalesce_all cp (leaves : list (ExchangeExec * AdaptivePlan)) h x i :
  (x, i) ∈ leaves ∨ cell_coalesce (cells h x) = Some cp →
  cell_coalesce (cells (foldl (λ h l, set_coalesce l.1 cp h) h leaves) x) = Some cp.
Proof.
  revert h. induction leaves as [|[y j] leaves IH]; intros h Hx; cbn; [by destruct Hx as [?%not_elem_of_nil|]|].
  apply IH. destruct (decide (ex_cells y = ex_cells x)) as [He|Hne].
  - right. unfold cells, set_coalesce. cbn. rewrite He, lookup_insert_eq. done.
  - destruct Hx as [[[= -> ->]|Hx]%elem_of_cons|Hx]; [done|by left|]. right. unfold cells, set_coalesce in *. cbn.
    by rewrite lookup_insert_ne.
Qed.

Lemma set_coalesce_partitions cp (leaves : list (ExchangeExec * AdaptivePlan)) h x :
  shuffle_partitions (foldl (λ h l, set_coalesce l.1 cp h) h leaves) x = shuffle_partitions h x.
Proof.
  revert h. induction leaves as [|[y j] leaves IH]; intros h; cbn; [done|]. rewrite IH. unfold shuffle_partitions, cells, set_coalesce.
  cbn [exchange_cells set_cells fst]. destruct (decide (ex_cells y = ex_cells x)) as [He|Hne].
  - rewrite He, lookup_insert_eq. cbn. unfold cells. by rewrite He.
  - by rewrite lookup_insert_ne.
Qed.
End coalesced.
