(* ===== verification/AdaptiveGraph.v ===== *)
(** * The execution graph of an adaptive job

    Models [AdaptiveExecutionGraph] of [scheduler/src/state/aqe/mod.rs]: an execution graph
    whose stages come from the adaptive planner, one after the other as their inputs are
    there. Its fields and most of its methods are copies of those of the static graph; the
    record of the static graph holds them, and its methods are used where the copies agree.

    The sketches and window states that stages report have components of their own; what
    the graph takes from them is [ProgressOps]. *)

From stdpp Require Import numbers gmap strings.
From S2P Require Import Prelude Errors Machine Types Stage Graph PhysicalPlan TaskPlan Planner AdaptivePlan Adapter AdaptivePlanner.
Import StaticExecutionGraph(job_id, stages, failed_stage_attempts, session_config).

(** What the graph uses of range-repartitioned and windowed stages *)
Class ProgressOps `{FilterOps} `{!StageOps} `{Payload} : Type := {
  WindowExprs : Type;
  repartition_routing_expr : ExecutionPlan → df_result (option Expr);
  (** [repartition_routing] of the reports of the stage *)
  stage_routing : RunningStage.t → Expr → result (option RangeRouting);
  filter_halos : FilterConfig → Scalar * Scalar;
  (** [cut_partitions] with the reports of the stage *)
  cut_partitions :
    list (list PartitionLocation.t) → RunningStage.t → RangeRouting → Scalar → Scalar →
    df_result (list (list PartitionLocation.t));
  (** The window expressions of a [PartitionedBoundedWindowAggExec] *)
  op_window_expr : Op → option WindowExprs;
  prefix_merge_window_state : list TaskWindowState.t → WindowExprs → nat → df_result (list PrefixState);
}.

(** ** Walks over the plan of the job *)

Section walks.
Context `{ProgressOps}.

(** [downstream_halos]: the filter directly on the boundary of the stage *)
Fixpoint find_halos (h : Heap) (stage_id : nat) (p : AdaptivePlan) : df_result (option (Scalar * Scalar)) :=
  let search :=
    fix go cs :=
      match cs with
      | [] => Ok None
      | c :: cs' =>
          let? found := find_halos h stage_id c in
          match found with Some halos => Ok (Some halos) | None => go cs' end
      end in
  match p with
  | ANode (RangeFilter f _) [AExchange x _ as child] =>
      if bool_decide (exchange_stage_id h x = Some stage_id) then Ok (Some (filter_halos f)) else search [child]
  | ANode (RangeFilter f _) [child] => search [child]
  | ANode (RangeFilter _ _) _ => Err (internal "RangeFilterExec must have exactly 1 child, got {}")
  | ANode _ cs => search cs
  | AExchange _ input => find_halos h stage_id input
  | ALeaf _ => Ok None
  end.

Definition downstream_halos (h : Heap) (plan : JobPlan) (stage_id : nat) : df_result (Scalar * Scalar) :=
  let? found := match plan with Adaptive _ input | Bare input => find_halos h stage_id input end in
  match found with
  | Some halos => Ok halos
  | None => Err (internal "range-repartition boundary for producer stage {producer_stage_id} has no consuming RangeFilterExec")
  end.

Fixpoint descend_to_boundary_stage_id (h : Heap) (p : AdaptivePlan) : option nat :=
  match p with
  | AExchange x _ => exchange_stage_id h x
  | ANode _ [child] => descend_to_boundary_stage_id h child
  | _ => None
  end.

Fixpoint descend_to_window_expr (p : AdaptivePlan) : option WindowExprs :=
  let search :=
    fix go cs :=
      match cs with
      | [] => None
      | c :: cs' => match descend_to_window_expr c with Some w => Some w | None => go cs' end
      end in
  match p with
  | ANode (OtherOp o) cs => match op_window_expr o with Some w => Some w | None => search cs end
  | ANode _ cs => search cs
  | AExchange _ input => descend_to_window_expr input
  | ALeaf _ => None
  end.

(** [resolve_state] of the [PrefixMergeExec] over [input] that waits for the stage *)
Definition prefix_state_for (h : Heap) (stage_id : nat) (reports : list TaskWindowState.t) (input : AdaptivePlan)
  : df_result (option (list PrefixState)) :=
  if bool_decide (descend_to_boundary_stage_id h input = Some stage_id) then
    match descend_to_window_expr input with
    | None => Err (internal "PrefixMergeExec over stage {stage_id} has no window operator below it to interpret its state against")
    | Some window_expr =>
        let? prefixes := prefix_merge_window_state reports window_expr (a_count input) in
        if length prefixes =? a_count input then Ok (Some prefixes)
        else Err (internal "PrefixMergeExec: resolve_state got {} entries for {} input partitions")
    end
  else Ok None.

(** The states are written to the nodes of the plan, in the order they are visited: the
    plan with what was written before an error, and the number of nodes that got one *)
Definition resolve_each (resolve : AdaptivePlan → df_result nat * AdaptivePlan)
  : list AdaptivePlan → df_result nat * list AdaptivePlan :=
  fix go cs :=
    match cs with
    | [] => (Ok 0, [])
    | c :: cs' =>
        match resolve c with
        | (Ok n, c) => let '(o, cs') := go cs' in ((let? m := o in Ok (n + m)), c :: cs')
        | (Err e, c) => (Err e, c :: cs')
        | (Panic, c) => (Panic, c :: cs')
        end
    end.

Fixpoint resolve_prefixes (h : Heap) (stage_id : nat) (reports : list TaskWindowState.t) (p : AdaptivePlan)
  : df_result nat * AdaptivePlan :=
  match p with
  | ANode (PrefixMerge applies state) [input] =>
      match prefix_state_for h stage_id reports input with
      | Ok found =>
          let '(o, input) := resolve_prefixes h stage_id reports input in
          ((let? n := o in Ok (match found with Some _ => S n | None => n end)),
           ANode (PrefixMerge applies (match found with Some prefixes => Some prefixes | None => state end)) [input])
      | Err e => (Err e, p)
      | Panic => (Panic, p)
      end
  | ANode k cs => let '(o, cs) := resolve_each (resolve_prefixes h stage_id reports) cs in (o, ANode k cs)
  | AExchange x input => let '(o, input) := resolve_prefixes h stage_id reports input in (o, AExchange x input)
  | ALeaf _ => (Ok 0, p)
  end.
End walks.

(** ** The graph *)

Record AdaptiveExecutionGraph `{StageOps} `{Payload} : Type := mkAdaptiveGraph {
  static : StaticExecutionGraph.t;
  planner : AdaptivePlanner;
}.

Section graph.
Context `{ProgressOps} `{!SessionOps} `{PrecisionOps} `{MapOrder}.
Abbreviation agraph := AdaptiveExecutionGraph.
Abbreviation A := (M BallistaError agraph).

(** A method of the static graph *)
Definition on_static {X : Type} (m : M BallistaError StaticExecutionGraph.t X) : A X := λ g,
  let '(o, s) := m (static g) in (o, mkAdaptiveGraph _ _ _ _ _ s (planner g)).

(** A method of the planner; [?] turns its error into one of Ballista. *)
Definition on_planner {X : Type} (m : M DataFusionError AdaptivePlanner X) : A X := λ g,
  let '(o, p) := m (planner g) in (of_df o, mkAdaptiveGraph _ _ _ _ _ (static g) p).

Definition of_general {X : Type} (template : string) (o : df_result X) : result X :=
  match o with Ok x => Ok x | Err _ => Err (General (Lit template)) | Panic => Panic end.

Definition create_resolved_stage (session_config : Session) (stage : AdaptiveStageInfo) : nat * ExecutionStage :=
  let stage_id := writer_stage_id (info_plan stage) in
  (stage_id,
   Resolved (ResolvedStage.new stage_id 0 (info_plan stage) [] (info_inputs stage) ∅ session_config)).

Definition try_new (now : N) (scheduler_id : string) (job : JobId) (job_name session_id : string)
    (planner : df_result AdaptivePlanner) (queued_at : N) (config : Session) (logical_plan : string) (unused : ExecutionPlan)
  : result agraph :=
  let? planner := of_df planner in
  let '(actions, planner) := actionable_stages job planner in
  let? actions := of_df actions in
  match actions with
  | (None, _) => Err (General (Lit "provided plan does not have any stages to run! job_id: {}"))
  | (Some runnable, stages_to_cancel) =>
      if bool_decide (stages_to_cancel ≠ ∅) then
        Err (General (Lit "provided plan should not have stages to cancel at this point! job_id: {}"))
      else
        let stages := foldl (λ m s, <[s.1 := s.2]> m) ∅ (create_resolved_stage config <$> runnable) in
        Ok (mkAdaptiveGraph _ _ _ _ _
              (StaticExecutionGraph.mk _ _ (Some scheduler_id) job job_name session_id
                 (JobStatus.mk job job_name (Some (Job_Running queued_at now scheduler_id)))
                 queued_at now 0 stages [] ∅ config (Some logical_plan) unused)
              planner)
  end.

(** *** Progress of a stage *)

(** The nodes that wait for the reports of the stage get the states. *)
Definition resolve_plan_prefixes (sid : nat) (reports : list TaskWindowState.t) : M DataFusionError AdaptivePlanner nat :=
  λ s,
  match plan s with
  | Adaptive root input =>
      let '(o, input) := resolve_prefixes (heap s) sid reports input in (o, set_plan (Adaptive root input) s)
  | Bare input => let '(o, input) := resolve_prefixes (heap s) sid reports input in (o, set_plan (Bare input) s)
  end.

Definition resolve_prefix_merge_state (sid : nat) : A unit := λ g,
  match stages (static g) !! sid with
  | Some (RunningS stage) =>
      match RunningStage.window_state_reports stage with
      | [] => (Ok tt, g)
      | reports =>
          let '(o, p) := resolve_plan_prefixes sid reports (planner g) in
          ((let? resolved := of_general "{e}" o in
            if resolved =? 0 then
              Err (General (Lit "stage {stage_id} reported {} window-state entries but no PrefixMergeExec consumes them; the correction would be dropped"))
            else Ok tt),
           mkAdaptiveGraph _ _ _ _ _ (static g) p)
      end
  | _ => (Ok tt, g)
  end.

(** The routing of a range-repartitioned stage *)
Definition routing_of_stage (sid : nat) (g : agraph) : result (option (RunningStage.t * RangeRouting)) :=
  match stages (static g) !! sid with
  | Some (RunningS stage) =>
      let? expr := of_df (repartition_routing_expr (RunningStage.plan stage)) in
      match expr with
      | Some expr =>
          let? routing := stage_routing stage expr in
          Ok ((λ routing, (stage, routing)) <$> routing)
      | None => Ok None
      end
  | _ => Ok None
  end.

(** The partitions of the stage, after the files are assigned to ranges *)
Definition remapped_partitions (sid : nat) (partitions : list (list PartitionLocation.t))
  : A (list (list PartitionLocation.t)) := λ g,
  match routing_of_stage sid g with
  | Ok None => (Ok partitions, g)
  | Ok (Some (stage, routing)) =>
      (let! halos := mlift (of_general "range-repartition stage {stage_id}: halo lookup failed: {err}"
                              (downstream_halos (heap (planner g)) (plan (planner g)) sid)) in
       let! remapped := mlift (of_general "range-repartition stage {stage_id}: overlap remap failed: {err}"
                                 (cut_partitions partitions stage routing halos.1 halos.2)) in
       on_planner (set_repartition_routing sid routing) ;;;
       mret remapped) g
  | Err e => (Err e, g)
  | Panic => (Panic, g)
  end.

Definition add_stage (info : AdaptiveStageInfo) : A unit :=
  mmodify (λ g,
    let '(sid, stage) := create_resolved_stage (session_config (static g)) info in
    match stages (static g) !! sid with
    | Some _ => g
    | None => mkAdaptiveGraph _ _ _ _ _ (put_stage sid stage (static g)) (planner g)
    end).

Definition update_stage_progress (sid : nat) (is_completed : bool) (locations : list PartitionLocation.t)
  : A (gset nat) :=
  on_planner (update_exchange_locations sid locations) ;;;
  if is_completed then
    let! g := mget in
    if negb (is_stage_active sid (planner g)) then mret ∅
    else
      resolve_prefix_merge_state sid ;;;
      let! partitions := on_planner (take_stage_output_partitions sid) in
      let! partitions := remapped_partitions sid partitions in
      on_planner (resolve_stage_partitions sid partitions) ;;;
      let! actions := on_planner (actionable_stages (job_id (static g))) in
      match actions.1 with
      | Some runnable => mfor runnable add_stage
      | None => mmodify (λ g, mkAdaptiveGraph _ _ _ _ _ (set_output_locations (concat partitions) (static g)) (planner g))
      end ;;;
      mfor (iter_set actions.2) (λ stage_id, on_planner (mmodify (cancel_stage stage_id))) ;;;
      mret actions.2
  else mret ∅.

(** *** Stage transitions

    Unlike those of the static graph, these take the entry out of the map first. *)
Abbreviation Static := (M BallistaError StaticExecutionGraph.t).

Definition without_stage (sid : nat) (s : StaticExecutionGraph.t) : StaticExecutionGraph.t :=
  set_stages (delete sid (stages s)) s.

Definition adaptive_resolve_stage (sid : nat) : Static bool := λ s,
  let s' := without_stage sid s in
  match stages s !! sid with
  | Some (UnResolved stage) =>
      match UnresolvedStage_to_resolved (options (session_config s)) stage with
      | Ok r => (Ok true, put_stage sid (Resolved r) s')
      | Err e => (Err e, s')
      | Panic => (Panic, s')
      end
  | _ => (Ok false, s')
  end.

Definition adaptive_rollback_running_stage (sid : nat) (failure_reasons : gset string)
  : Static (list RunningTaskInfo.t) := λ s,
  let s' := without_stage sid s in
  match stages s !! sid with
  | Some (RunningS stage) =>
      match RunningStage.to_unresolved failure_reasons stage with
      | Ok u => (Ok (stage_running_tasks s stage), put_stage sid (UnResolved u) s')
      | Err e => (Err e, s')
      | Panic => (Panic, s')
      end
  | _ => (Ok [], s')
  end.

Definition adaptive_rollback_resolved_stage (sid : nat) : Static bool := λ s,
  let s' := without_stage sid s in
  match stages s !! sid with
  | Some (Resolved stage) =>
      match ResolvedStage.to_unresolved stage with
      | Ok u => (Ok true, put_stage sid (UnResolved u) s')
      | Err e => (Err e, s')
      | Panic => (Panic, s')
      end
  | _ => (Ok false, s')
  end.

Fixpoint adaptive_rollback_all (l : list (nat * gset string)) : Static (list RunningTaskInfo.t) :=
  match l with
  | [] => mret []
  | (sid, reasons) :: l' =>
      let! tasks := adaptive_rollback_running_stage sid reasons in
      let! rest := adaptive_rollback_all l' in
      mret (tasks ++ rest)
  end.

Definition adaptive_processing_stages_update (now : N) (u : UpdatedStages.t) : Static (list QueryStageSchedulerEvent) :=
  mfor (iter_set (UpdatedStages.resolved_stages u)) (λ sid, adaptive_resolve_stage sid ;;; mret tt) ;;;
  mfor (iter_set (UpdatedStages.successful_stages u)) (λ sid, mmodify (λ s, (succeed_stage sid s).2)) ;;;
  let! events :=
    (if bool_decide (UpdatedStages.failed_stages u = ∅) then
       let! tasks := adaptive_rollback_all (iter_map (UpdatedStages.rollback_running_stages u)) in
       mfor (iter_set (UpdatedStages.resubmit_successful_stages u))
         (λ sid, mmodify (λ s, (rerun_successful_stage now sid s).2)) ;;;
       mret (match tasks with [] => [] | _ => [CancelTasks tasks] end)
     else mret []) in
  finish_update now u (bool_decide (UpdatedStages.resolved_stages u ≠ ∅)) events.

(** *** A lost executor *)

Definition adaptive_reset_stages_internal (now : N) (e : string) : A (gset nat * list RunningTaskInfo.t) := λ g,
  let m := stages (static g) in
  let resubmit := resubmit_inputs e m in
  let reset_running := keys_where (running_task_reset e) m in
  let rollback_resolved := keys_where (λ s, is_resolved s && rollback_stage e s) m in
  let rollback_running := keys_where (λ s, is_running s && rollback_stage e s) m in
  let m1 := reset_open_stage e <$> m in
  let planner' := foldl (λ p sid, remove_exchange_locations sid e p) (planner g) (iter_set reset_running) in
  let resubmit_successful := filter_map (finished_reset_id e resubmit) (map_to_list m1) in
  let m2 := map_imap (λ sid s, Some (reset_finished_stage e resubmit sid s)) m1 in
  on_static
    (mfor (iter_set rollback_resolved) (λ sid, adaptive_rollback_resolved_stage sid ;;; mret tt) ;;;
     let! tasks := adaptive_rollback_all ((λ sid, (sid, {[e]})) <$> iter_set rollback_running) in
     mfor (iter_set (list_to_set resubmit_successful)) (λ sid, mmodify (λ s, (rerun_successful_stage now sid s).2)) ;;;
     mret (reset_running ∪ rollback_resolved ∪ rollback_running ∪ list_to_set resubmit_successful, tasks))
    (mkAdaptiveGraph _ _ _ _ _ (set_stages m2 (static g)) planner').

(** The loop runs until a pass resets nothing; [None] is a loop cut short by the fuel. *)
Fixpoint adaptive_reset_stages_on_lost_executor (fuel : nat) (now : N) (e : string) (g : agraph)
  : option (result (gset nat * list RunningTaskInfo.t)) * agraph :=
  match fuel with
  | 0 => (None, g)
  | S fuel =>
      match adaptive_reset_stages_internal now e g with
      | (Ok (reset, tasks), g') =>
          if bool_decide (reset = ∅) then (Some (Ok (∅, [])), g')
          else
            match adaptive_reset_stages_on_lost_executor fuel now e g' with
            | (Some (Ok (reset', tasks')), g'') => (Some (Ok (reset ∪ reset', tasks ++ tasks')), g'')
            | r => r
            end
      | (Err err, g') => (Some (Err err), g')
      | (Panic, g') => (Some Panic, g')
      end
  end.

(** *** Task status updates *)

Section status.
Context (now : N) (job : JobId) (executor : ExecutorMetadata.t) (max_task_failures max_stage_failures : nat) (sid : nat).
Abbreviation R := (M BallistaError running_ctx).

(** The reasons other than a fetch failure and an execution error; the message names the task. *)
Definition adaptive_other_failure (task_id : nat) (failed_task : FailedTask) : R unit :=
  if retryable failed_task && count_to_failures failed_task then
    let! n := on_stage (λ s, (RunningStage.task_failure_number task_id s, s)) in
    if n <? max_task_failures then on_stage (RunningStage.reset_task_info task_id)
    else
      on_acc (Acc.fail_stage sid (Format
        "Task {} in Stage {} failed {} times, fail the stage, most recent failure reason: {:?}"
        [ANat task_id; ANat sid; ANat max_task_failures; AMsg (error failed_task)]))
  else if retryable failed_task then on_stage (RunningStage.reset_task_info task_id)
  else mret tt.

Definition adaptive_handle_failed (task_id attempt : nat) (failed_task : FailedTask) : R unit :=
  match failed_reason failed_task with
  | Some (FR_FetchPartitionError executor_id map_stage_id map_partition_id) =>
      handle_fetch_failure max_stage_failures sid attempt failed_task executor_id map_stage_id map_partition_id
  | Some FR_ExecutionError => on_acc (Acc.fail_stage sid (error failed_task))
  | Some _ => adaptive_other_failure task_id failed_task
  | None =>
      on_acc (Acc.fail_stage sid (Format
        "Task {task_id} in Stage {stage_id} failed with unknown failure reasons, fail the stage"
        [ANat task_id; ANat sid]))
  end.

Definition adaptive_process_status (ts : TaskStatus.t) : R unit := λ c,
  let attempt := TaskStatus.stage_attempt_num ts in
  let task_id := TaskStatus.task_id ts in
  if attempt <? RunningStage.stage_attempt_num (rc_stage c) then (Ok tt, c)
  else
    (let! updated := on_stage (RunningStage.update_task_info now task_id ts) in
     if negb updated then mret tt
     else
       match TaskStatus.status ts with
       | Some (Failed failed_task) => adaptive_handle_failed task_id attempt failed_task
       | Some (Successful st) => handle_successful job executor sid task_id (TaskStatus.metrics ts) st
       | _ => mret tt
       end) c.
End status.

(** The variables of the main loop *)
Abbreviation L := (M BallistaError (agraph * Acc.t)).

Definition put_running (sid : nat) (stage : RunningStage.t) (g : agraph) : agraph :=
  mkAdaptiveGraph _ _ _ _ _ (put_stage sid (RunningS stage) (static g)) (planner g).

(** The end of the branch for a running stage; nothing puts a stage into
    [reset_running_stages]. *)
Definition adaptive_finish_running_stage (sid : nat) (c : running_ctx) : L unit := λ ga,
  let g := put_running sid (rc_stage c) ga.1 in
  match RunningStage.is_successful (rc_stage c) with
  | Ok is_final =>
      let acc := if is_final then Acc.add_successful sid (rc_acc c) else rc_acc c in
      match update_stage_progress sid is_final (rc_locations c) g with
      | (Ok _, g) => (Ok tt, (g, acc))
      | (Err e, g) => (Err e, (g, acc))
      | (Panic, g) => (Panic, (g, acc))
      end
  | Err e => (Err e, (g, rc_acc c))
  | Panic => (Panic, (g, rc_acc c))
  end.

Section update.
Context (now : N) (executor : ExecutorMetadata.t) (max_task_failures max_stage_failures : nat).

Definition adaptive_update_one_stage (kv : nat * list TaskStatus.t) : L unit := λ ga,
  let '(sid, statuses) := kv in
  let '(g, acc) := ga in
  match stages (static g) !! sid with
  | Some (RunningS s) =>
      match mfor statuses
              (adaptive_process_status now (job_id (static g)) executor max_task_failures max_stage_failures sid)
              (mkRunningCtx s acc []) with
      | (Ok _, c) => adaptive_finish_running_stage sid c (g, acc)
      | (Err e, c) => (Err e, (put_running sid (rc_stage c) g, rc_acc c))
      | (Panic, c) => (Panic, (put_running sid (rc_stage c) g, rc_acc c))
      end
  | Some _ => (Ok tt, (g, acc))
  | None =>
      (Err (Internal (Format "Invalid stage ID {stage_id} for job {job_id}"
                        [ANat sid; AStr (job_id (static g))])), (g, acc))
  end.

Definition adaptive_update_task_status (task_statuses : list TaskStatus.t) : A (list QueryStageSchedulerEvent) := λ g0,
  let g1 := mkAdaptiveGraph _ _ _ _ _ (revive now (static g0)).2 (planner g0) in
  match mfor (iter_map (classify task_statuses)) adaptive_update_one_stage
          (g1, Acc.init (failed_stage_attempts (static g1))) with
  | (Ok _, (g2, acc)) =>
      on_static
        (mmodify (λ s, set_failed_stage_attempts (Acc.failed_stage_attempts acc ∪ failed_stage_attempts s) s) ;;;
         mfor (iter_map (Acc.resubmit_successful_stages acc)) resubmit_one ;;;
         adaptive_processing_stages_update now (updated_stages acc)) g2
  | (Err e, (g2, _)) => (Err e, g2)
  | (Panic, (g2, _)) => (Panic, g2)
  end.
End update.
End graph.
