(* ===== verification/AdaptiveGraphFacts.v ===== *)
(** * Progress of an adaptive job

    What completing a stage does to the graph and to its planner: the job goes on with a
    stage that is not finished, or it ends with the output of its last stage. And what
    the loss of an executor does to the stages. *)

From stdpp Require Import numbers gmap strings.
From S2P Require Import Prelude Errors Machine Types Stage StageFacts StageSteps Graph GraphSteps LostExecutor PhysicalPlan TaskPlan TaskPlanFacts Planner PlannerFacts AdaptivePlan Adapter AdaptivePlanner AdaptiveFacts AdapterFacts AdaptivePlannerFacts AdaptiveOutputs AdaptiveGraph.
Import StaticExecutionGraph(job_id, stages, session_config).

(** The rules keep the cells of the wrapper around the plan of a job. *)
Class RootLaws `{SessionOps} : Prop :=
  earlier_rules_root r i h q h' :
    earlier_rules (Adaptive r i) h = (Ok q, h') → ∃ r' i', q = Adaptive r' i' ∧ ad_cells r' = ad_cells r.

Section progress.
Context `{ProgressOps} `{!SessionOps} `{PrecisionOps} `{MapOrder}.

Lemma on_planner_ok {X : Type} (m : M DataFusionError AdaptivePlanner X) g x g' :
  on_planner m g = (Ok x, g') → ∃ p, m (planner g) = (Ok x, p) ∧ g' = mkAdaptiveGraph _ _ _ _ _ (static g) p.
Proof. unfold on_planner. destruct (m (planner g)) as [[y|e|] p]; intros [= <- <-]. by exists p. Qed.

(** ** What the steps of a completion keep *)

Lemma resolve_each_exchanges (P : ExchangeExec → Prop) resolve cs :
  Forall (λ c, every_exchange P c → every_exchange P (resolve c).2) cs →
  Forall (every_exchange P) cs → Forall (every_exchange P) (resolve_each resolve cs).2.
Proof.
  induction 1 as [|c cs Hc _ IH]; intros Hcs; [constructor|]. inversion_clear Hcs as [|? ? Hpc Hpcs].
  specialize (Hc Hpc). specialize (IH Hpcs). cbn. destruct (resolve c) as [[n|e|] c']; [|by constructor..].
  destruct (resolve_each resolve cs) as [o cs']. by constructor.
Qed.

Lemma resolve_prefixes_exchanges (P : ExchangeExec → Prop) hp sid reports p :
  every_exchange P p → every_exchange P (resolve_prefixes hp sid reports p).2.
Proof.
  induction p as [l|k cs IH|x input IH] using adaptive_ind; [done| |].
  - rewrite every_exchange_node. intros Hcs. pose proof (resolve_each_exchanges _ _ _ IH Hcs) as Hall.
    assert (∀ k, every_exchange P
      (let '(o, cs) := resolve_each (resolve_prefixes hp sid reports) cs in (o, ANode k cs)).2) as Hgen.
    { intros k'. destruct (resolve_each _ cs) as [o cs']. by apply every_exchange_node. }
    destruct k; try apply Hgen. destruct cs as [|c [|]]; try apply Hgen. inversion_clear IH as [|? ? IHc _].
    inversion_clear Hcs as [|? ? Hpc _]. specialize (IHc Hpc). cbn.
    destruct (prefix_state_for hp sid reports c); [|by split..]. destruct (resolve_prefixes hp sid reports c). by split.
  - intros [Hx Hi]. specialize (IH Hi). cbn. destruct (resolve_prefixes hp sid reports input) as [o i']. by split.
Qed.

(** The name of the cells of the root of the plan *)
Definition root_cell (s : AdaptivePlanner) : option nat :=
  match plan s with Adaptive r _ => Some (ad_cells r) | Bare _ => None end.

(** The stages of the planner and its root are the same. *)
Definition carried (s s' : AdaptivePlanner) : Prop :=
  (tracked s → tracked s') ∧ root_cell s' = root_cell s ∧ same_stages (heap s) (heap s') ∧
  runnable_stage_cache s' = runnable_stage_cache s ∧ stage_id_generator s' = stage_id_generator s.

#[global] Instance carried_preorder : PreOrder carried.
Proof.
  split; [intros s; by split_and!|]. intros s1 s2 s3 (T12 & R12 & S12 & C12 & G12) (T23 & R23 & S23 & C23 & G23).
  split_and!; [by auto|congruence|by etrans|congruence..].
Qed.

Lemma outputs_carried s out : dom out ⊆ dom (runnable_stage_output s) → carried s (set_output out s).
Proof. intros Hd. split_and!; try done. intros Ht. by eapply tracked_same. Qed.

Lemma report_carried sid locs s s' : update_exchange_locations sid locs s = (Ok tt, s') → carried s s'.
Proof.
  unfold update_exchange_locations. destruct (runnable_stage_output s !! sid) eqn:Ho; [|done]. intros [= <-].
  apply outputs_carried. apply elem_of_dom_2 in Ho. set_solver.
Qed.

Lemma take_carried sid s parts s' : take_stage_output_partitions sid s = (Ok parts, s') → carried s s'.
Proof.
  unfold take_stage_output_partitions. intros Ht. repeat case_match; simplify_eq; apply outputs_carried; set_solver.
Qed.

Lemma prefixes_carried sid reports s o s' : resolve_plan_prefixes sid reports s = (o, s') → carried s s'.
Proof.
  unfold resolve_plan_prefixes, carried, root_cell. intros Hr.
  assert (∀ input, known_in (heap s) input → known_in (heap s) (resolve_prefixes (heap s) sid reports input).2) as Hk.
  { intros input. apply resolve_prefixes_exchanges. }
  destruct (plan s) as [r input|input] eqn:Hp; specialize (Hk input);
    destruct (resolve_prefixes (heap s) sid reports input) as [o' i]; injection Hr as <- <-; split_and!; try done;
    intros Ht; assert (Hkn := plan_known _ Ht); rewrite Hp in Hkn; (split; [|apply Ht..]); cbn in *; [split|]; naive_solver.
Qed.

Lemma route_carried sid routing s s' : set_repartition_routing sid routing s = (Ok tt, s') → carried s s'.
Proof.
  unfold set_repartition_routing. intros Hr.
  destruct (runnable_stage_cache s !! sid) as [[r i|[l|k cs|x i]]|]; try done. injection Hr as <-.
  assert (same_stages (heap s) (resolve_range_repartition_routing x routing (heap s))) as Hs by by apply same_stages_set.
  split_and!; try done. intros Ht. by eapply tracked_same.
Qed.

Lemma prefix_state_carried sid g g' :
  resolve_prefix_merge_state sid g = (Ok tt, g') → static g' = static g ∧ carried (planner g) (planner g').
Proof.
  unfold resolve_prefix_merge_state. intros Hr. repeat case_match; simplify_eq; try done.
  split; [done|]. by eapply prefixes_carried.
Qed.

Lemma remapped_carried sid parts g parts' g' :
  remapped_partitions sid parts g = (Ok parts', g') → static g' = static g ∧ carried (planner g) (planner g').
Proof.
  unfold remapped_partitions. intros Hr. destruct (routing_of_stage sid g) as [[[stage routing]|]|e|]; try done.
  2: by simplify_eq.
  apply mthen_ok in Hr as (halos & g1 & [_ ->]%mlift_ok & Hr). apply mthen_ok in Hr as (cut & g2 & [_ ->]%mlift_ok & Hr).
  apply mthen_ok in Hr as ([] & g3 & (p & Hp & ->)%on_planner_ok & [= <- <-]). split; [done|]. by eapply route_carried.
Qed.

(** ** The boundary of a stage that finishes *)

Lemma optimize_root `{!RootLaws} p h q h' c :
  optimize_physical_plan p h = (Ok q, h') → (∃ r i, p = Adaptive r i ∧ ad_cells r = c) → ∃ r i, q = Adaptive r i ∧ ad_cells r = c.
Proof.
  intros Ho (r & i & -> & <-). apply mthen_ok in Ho as (p1 & h1 & Hp1 & Ho).
  apply earlier_rules_root in Hp1 as (r' & i' & -> & <-). cbn in Ho.
  apply mthen_ok in Ho as (new & h2 & _ & Ho). apply mthen_ok in Ho as (res & h3 & _ & [= <- <-]). by exists r', res.1.
Qed.

Lemma extends_root h h' c : extends h h' → c < next_cells h → adaptive_cells h' !! c = adaptive_cells h !! c.
Proof. intros (_ & _ & Ha) Hc. destruct (Ha c) as [?|[? _]]; [done|lia]. Qed.

(** The boundary of the stage is the only one that is resolved. *)
Lemma resolve_finishes `{!RuleLaws} `{!RootLaws} s n parts s' c :
  resolve_stage_partitions n parts s = (Ok tt, s') → tracked s → root_cell s = Some c →
  root_cell s' = Some c ∧ runnable_stage_cache s' = delete n (runnable_stage_cache s) ∧
  (resolved (heap s') (inr c) = true →
     resolved (heap s) (inr c) = true ∨
     stage_of (heap s) (inr c) = Some n ∧ (root_partitions <$> adaptive_cells (heap s') !! c) = Some (Some parts)).
Proof.
  unfold resolve_stage_partitions, finalise_stage_internal. intros Hr Ht Hroot.
  assert (∃ r i, plan s = Adaptive r i ∧ ad_cells r = c) as Hp.
  { unfold root_cell in Hroot. destruct (plan s) as [r i|]; [|done]. injection Hroot as <-. by exists r, i. }
  assert (c < next_cells (heap s)) as Hc.
  { destruct Hp as (r & i & Hp & <-). assert (Hk := plan_known _ Ht). rewrite Hp in Hk. apply Hk. }
  destruct (runnable_stage_cache s !! n) as [q|] eqn:Hq; [|done]. destruct (active_open _ Ht n q Hq) as (b & Hb & Ha & Hst & Hop).
  assert (∀ h1 h2 p, optimize_physical_plan (plan s) h1 = (Ok p, h2) → next_cells h1 = next_cells (heap s) →
    (∃ r i, p = Adaptive r i ∧ ad_cells r = c) ∧ adaptive_cells h2 !! c = adaptive_cells h1 !! c) as Hopt.
  { intros h1 h2 p Ho Hn. split; [by eapply optimize_root|]. apply optimize_ok in Ho as [He _].
    - apply extends_root; [done|lia].
    - eapply job_known_next; [|apply Ht]. lia. }
  destruct q as [r i|[| |x i]]; try done; cbn in Hb; injection Hb as <-; unfold replan_stages in Hr; cbn in Hr.
  - destruct (optimize_physical_plan (plan s) (root_resolve_shuffle_partitions r parts (heap s))) as [[p|e|] h2] eqn:Ho; try done.
    injection Hr as <-. apply Hopt in Ho as ((r' & i' & -> & Hr') & Hcell); [|done]. unfold root_cell. cbn in Hcell |- *.
    split; [by f_equal|]. split; [done|]. rewrite Hcell. destruct (decide (ad_cells r = c)) as [<-|Hne].
    + intros _. right. by rewrite lookup_insert_eq.
    + rewrite lookup_insert_ne by done. by left.
  - destruct (optimize_physical_plan (plan s) (resolve_shuffle_partitions x parts (heap s))) as [[p|e|] h2] eqn:Ho; try done.
    injection Hr as <-. apply Hopt in Ho as ((r' & i' & -> & Hr') & Hcell); [|done]. unfold root_cell. cbn in Hcell |- *.
    split; [by f_equal|]. split; [done|]. rewrite Hcell. by left.
Qed.

(** ** Stages of the graph *)

Lemma adapt_writer_id job h stage info b :
  adapt_to_ballista job h stage = Ok info → boundary_of stage = Some b → stage_of h b = Some (writer_stage_id (info_plan info)).
Proof.
  assert (∀ id p part w, create_writer job id p part = Ok w → writer_stage_id w = id) as Hw.
  { unfold create_writer. intros id p part w Hw. destruct (create_shuffle_writer_with_config _ _ _ _) eqn:Hc; try done.
    injection Hw as ->. by apply writer_ok in Hc as [? _]. }
  intros Ha Hb. destruct stage as [r i|[| |x i]]; try done; cbn in Hb; injection Hb as <-; cbn [adapt_to_ballista] in Ha;
    destruct (adapt_input h i ∅) as [[p|e|] m]; cbn [obind] in Ha; try done.
  - destruct (adaptive_stage_id h r) as [id|] eqn:Hid; [|done]. step Ha as w Hcw. injection Ha as <-. apply Hw in Hcw as <-. exact Hid.
  - destruct (exchange_stage_id h x) as [id|] eqn:Hid; [|done]. step Ha as w Hcw. step Ha as w' Huse. injection Ha as <-. cbn.
    apply Hw in Hcw as <-. refine (eq_trans Hid _). f_equal. unfold use_range_shuffle_writer in Huse. by repeat case_match; simplify_eq.
Qed.

Lemma actionable_none job s stale s' :
  actionable_stages job s = (Ok (None, stale), s') →
  s' = s ∧ ∃ c, root_cell s = Some c ∧ resolved (heap s) (inr c) = true.
Proof.
  unfold actionable_stages, mthen, mget, mret. intros Ha. destruct (identify_runnable_stages s) as [[[stages|]|e|] s1] eqn:Hi; try done.
  { by destruct (adapt_stages job stages s1) as [[infos|e|] s2]. }
  injection Ha as _ <-. unfold identify_runnable_stages in Hi. destruct (find_runnable (heap s) (plan s)) as [|x found].
  2:{ by destruct (start_exchanges (x :: found) s). }
  unfold root_cell. destruct (plan s) as [r i|]; [|done]. destruct (root_shuffle_created (heap s) r) eqn:Hr; [|by repeat case_match; simplify_eq].
  injection Hi as <-. split; [done|]. by exists (ad_cells r).
Qed.

(** Stages are only added. *)
Lemma add_stages_ok infos g g' :
  mfor infos add_stage g = (Ok tt, g') →
  planner g' = planner g ∧ stages (static g) ⊆ stages (static g') ∧
  static g' = set_stages (stages (static g')) (static g) ∧
  Forall (λ info, is_Some (stages (static g') !! writer_stage_id (info_plan info))) infos.
Proof.
  revert g. induction infos as [|info infos IH]; intros g Hf.
  { injection Hf as <-. split_and!; [done..|by destruct (static g)|constructor]. }
  apply mthen_ok in Hf as ([] & g1 & [= <-] & Hf). apply IH in Hf as (Hp & Hsub & Hst & Hall). clear IH.
  set (n := writer_stage_id (info_plan info)) in *.
  destruct (stages (static g) !! n) as [stage|] eqn:Hn; cbn [static planner put_stage set_stages stages] in Hp, Hsub, Hst.
  - split_and!; [done..|]. constructor; [|done]. exists stage. by eapply lookup_weaken.
  - split_and!; [done| |done|].
    + etrans; [|exact Hsub]. by apply insert_subseteq.
    + constructor; [|done]. eexists. eapply lookup_weaken; [|exact Hsub]. apply lookup_insert_eq.
Qed.

Lemma cancel_loop_ok l g g' :
  mfor l (λ n, on_planner (mmodify (cancel_stage n))) g = (Ok tt, g') →
  static g' = static g ∧ heap (planner g') = heap (planner g) ∧ plan (planner g') = plan (planner g) ∧
  stage_id_generator (planner g') = stage_id_generator (planner g) ∧
  runnable_stage_output (planner g') = runnable_stage_output (planner g) ∧
  runnable_stage_cache (planner g') ⊆ runnable_stage_cache (planner g).
Proof.
  revert g. induction l as [|n l IH]; intros g Hl; [by injection Hl as <-|].
  apply mthen_ok in Hl as ([] & g1 & [= <-] & Hl). apply IH in Hl as (? & ? & ? & ? & ? & Hsub). split_and!; try done.
  etrans; [exact Hsub|]. apply delete_subseteq.
Qed.

(** A stage of the graph whose boundary is open *)
Definition goes_on (g : AdaptiveExecutionGraph) : Prop :=
  ∃ n b, is_Some (stages (static g) !! n) ∧ stage_of (heap (planner g)) b = Some n ∧ resolved (heap (planner g)) b = false.

(** The end of the job: the output of the last stage is that of the job *)
Definition ends (sid c : nat) (g g' : AdaptiveExecutionGraph) : Prop :=
  ∃ parts, stage_of (heap (planner g)) (inr c) = Some sid ∧
    (root_partitions <$> adaptive_cells (heap (planner g')) !! c) = Some (Some parts) ∧
    static g' = set_output_locations (concat parts) (static g).

(** The steps of a completion up to the new stages *)
Lemma completion_prefix sid locs g stale g' :
  update_stage_progress sid true locs g = (Ok stale, g') → is_stage_active sid (planner g) = true →
  ∃ s1 parts s2 runnable s3 g4,
    carried (planner g) s1 ∧ resolve_stage_partitions sid parts s1 = (Ok tt, s2) ∧
    actionable_stages (job_id (static g)) s2 = (Ok (runnable, stale), s3) ∧
    match runnable with
    | Some infos => mfor infos add_stage
    | None => mmodify (λ g, mkAdaptiveGraph _ _ _ _ _ (set_output_locations (concat parts) (static g)) (planner g))
    end (mkAdaptiveGraph _ _ _ _ _ (static g) s3) = (Ok tt, g4) ∧
    mfor (iter_set stale) (λ n, on_planner (mmodify (cancel_stage n))) g4 = (Ok tt, g').
Proof.
  unfold update_stage_progress. intros Hu Hact. apply mthen_ok in Hu as ([] & g1 & (p1 & Hrep & ->)%on_planner_ok & Hu).
  apply report_carried in Hrep as Hc1. apply mthen_ok in Hu as (g1 & g1' & [= <- <-] & Hu). cbn [planner] in Hu.
  assert (is_stage_active sid p1 = true) as Hact1.
  { unfold is_stage_active in *. destruct Hc1 as (_ & _ & _ & -> & _). done. }
  rewrite Hact1 in Hu. apply mthen_ok in Hu as ([] & g2 & [Hst2 Hc2]%prefix_state_carried & Hu).
  apply mthen_ok in Hu as (parts & g3 & (p3 & Htake & ->)%on_planner_ok & Hu). apply take_carried in Htake as Hc3.
  apply mthen_ok in Hu as (parts' & g4 & [Hst4 Hc4]%remapped_carried & Hu). cbn in Hst2, Hst4, Hc2, Hc4.
  apply mthen_ok in Hu as ([] & g5 & (p5 & Hres & ->)%on_planner_ok & Hu). rewrite Hst4, Hst2 in Hu.
  apply mthen_ok in Hu as ([runnable st] & g6 & (p6 & Hact6 & ->)%on_planner_ok & Hu).
  apply mthen_ok in Hu as ([] & g7 & Hadd & Hu). apply mthen_ok in Hu as ([] & g8 & Hcan & [= <- <-]).
  exists (planner g4), parts', p5, runnable, p6, g7. split_and!; try done. by etrans; [|etrans; [|etrans]].
Qed.

Lemma new_stages_go_on job s infos stale s' st g' :
  actionable_stages job s = (Ok (Some infos, stale), s') → consistent s → ids_fit s' →
  mfor infos add_stage (mkAdaptiveGraph _ _ _ _ _ st s') = (Ok tt, g') → goes_on g'.
Proof.
  intros Ha Hc Hfit Hadd. destruct (actionable_ok _ _ _ _ Ha Hc Hfit) as [_ Hrun]. destruct (Hrun _ _ eq_refl) as [Hne Hall].
  apply add_stages_ok in Hadd as (Hp & _ & _ & Hin). destruct infos as [|info infos]; [done|].
  inversion_clear Hall as [|? ? (h & stage & (input & b & n & _ & Hb & _ & Hop & _) & [_ Hsame] & Had) _].
  inversion_clear Hin as [|? ? Hn _]. exists (writer_stage_id (info_plan info)), b. rewrite Hp. cbn.
  destruct (Hsame b) as [-> ->]. split_and!; [done|by eapply adapt_writer_id|done].
Qed.

Lemma completion_grows sid locs g stale g' :
  update_stage_progress sid true locs g = (Ok stale, g') → is_stage_active sid (planner g) = true →
  stage_id_generator (planner g) ≤ stage_id_generator (planner g').
Proof.
  intros Hu Hact. destruct (completion_prefix _ _ _ _ _ Hu Hact) as (s1 & parts & s2 & runnable & s3 & g4 & Hcar & Hres & Hrun & Hadd & Hcan).
  destruct Hcar as (_ & _ & _ & _ & <-). apply actionable_grows in Hrun. apply cancel_loop_ok in Hcan as (_ & _ & _ & -> & _).
  assert (planner g4 = s3) as ->. { destruct runnable; [by apply add_stages_ok in Hadd as [-> _]|by injection Hadd as <-]. }
  apply (step_resolve (job_id (static g))), step_grows in Hres. lia.
Qed.

(** *** A completion that fails *)

(** Two calls fail alike. *)
Definition fails_like {E X Y : Type} (o : outcome E X) (o' : outcome E Y) : Prop :=
  match o, o' with
  | Err e, Err e' => e = e'
  | Panic, Panic => True
  | _, _ => False
  end.

(** The heap with the partitions of a boundary *)
Definition with_partitions (stage : JobPlan) (parts : list (list PartitionLocation.t)) (h : Heap) : Heap :=
  match stage with
  | Adaptive r _ => root_resolve_shuffle_partitions r parts h
  | Bare (AExchange x _) => resolve_shuffle_partitions x parts h
  | _ => h
  end.

(** Where the completion of stage [sid] of [g] can fail: taking in the states of window
    functions, assigning the files to ranges, optimizing the plan again, and coalescing or
    adapting a stage that can run. *)
Definition completion_fails {X : Type} (sid : nat) (g : AdaptiveExecutionGraph) (o : result X) : Prop :=
  (∃ g1, static g1 = static g ∧ carried (planner g) (planner g1) ∧ fails_like o (resolve_prefix_merge_state sid g1).1) ∨
  (∃ g1 parts, static g1 = static g ∧ carried (planner g) (planner g1) ∧ fails_like o (remapped_partitions sid parts g1).1) ∨
  (∃ s1 stage parts, carried (planner g) s1 ∧ runnable_stage_cache s1 !! sid = Some stage ∧
     fails_like o (of_df (optimize_physical_plan (plan s1) (with_partitions stage parts (heap s1))).1)) ∨
  (∃ h stage (o' : df_result unit), runnable h stage ∧ stage_fails (job_id (static g)) h stage o' ∧ fails_like o (of_df o')).

Lemma adding_total infos g : ∃ g', mfor (E:=BallistaError) infos add_stage g = (Ok tt, g').
Proof. revert g. induction infos as [|info infos IH]; intros g; [by eexists|]. apply IH. Qed.

Lemma cancelling_total l g :
  ∃ g', mfor (E:=BallistaError) l (λ n, on_planner (mmodify (cancel_stage n))) g = (Ok tt, g').
Proof. revert g. induction l as [|n l IH]; intros g; [by eexists|]. apply IH. Qed.

(** Resolving an active stage only fails where the plan is optimized again. *)
Lemma resolve_fails n parts s o s' :
  resolve_stage_partitions n parts s = (o, s') → tracked s → is_stage_active n s = true → o ≠ Ok tt →
  ∃ stage, runnable_stage_cache s !! n = Some stage ∧
    fails_like o (optimize_physical_plan (plan s) (with_partitions stage parts (heap s))).1.
Proof.
  unfold resolve_stage_partitions, finalise_stage_internal. intros Hr Ht Hact Ho.
  unfold is_stage_active in Hact. apply bool_decide_eq_true in Hact as [q Hq]. rewrite Hq in Hr.
  destruct (active_open _ Ht n q Hq) as (b & Hb & _). destruct q as [r i|[| |x i]]; try done; unfold replan_stages in Hr; cbn in Hr.
  - exists (Adaptive r i). split; [done|]. cbn [with_partitions]. by destruct (optimize_physical_plan _ _) as [[p|e|] h2]; simplify_eq.
  - exists (Bare (AExchange x i)). split; [done|]. cbn [with_partitions]. by destruct (optimize_physical_plan _ _) as [[p|e|] h2]; simplify_eq.
Qed.

Lemma carried_active sid s s' : carried s s' → is_stage_active sid s' = is_stage_active sid s.
Proof. intros (_ & _ & _ & Hc & _). unfold is_stage_active. by rewrite Hc. Qed.

Lemma resolve_plan_prefixes_output sid reports s :
  runnable_stage_output (resolve_plan_prefixes sid reports s).2 = runnable_stage_output s.
Proof. unfold resolve_plan_prefixes. by destruct (plan s); destruct (resolve_prefixes _ _ _ _). Qed.

Lemma prefix_state_output sid g :
  runnable_stage_output (planner (resolve_prefix_merge_state sid g).2) = runnable_stage_output (planner g).
Proof.
  unfold resolve_prefix_merge_state. destruct (stages (static g) !! sid) as [[| |stage| |]|]; try done.
  destruct (RunningStage.window_state_reports stage) as [|r reports]; [done|].
  pose proof (resolve_plan_prefixes_output sid (r :: reports) (planner g)) as Ho. by destruct (resolve_plan_prefixes _ _ _).
Qed.

(** An active stage whose output was not taken *)
Lemma take_total sid s :
  is_stage_active sid s = true → is_Some (runnable_stage_output s !! sid) →
  ∃ parts s', take_stage_output_partitions sid s = (Ok parts, s').
Proof.
  unfold take_stage_output_partitions, is_stage_active. intros [p Hp]%bool_decide_eq_true [o Ho]. rewrite Hp, Ho. by eexists _, _.
Qed.

(** The end of a completion, from the new partitions on *)
Lemma completion_end_fails `{!RuleLaws} sid parts g0 g o g' :
  (on_planner (resolve_stage_partitions sid parts) ;;;
   let! actions := on_planner (actionable_stages (job_id (static g0))) in
   match actions.1 with
   | Some runnable => mfor runnable add_stage
   | None => mmodify (λ g, mkAdaptiveGraph _ _ _ _ _ (set_output_locations (concat parts) (static g)) (planner g))
   end ;;;
   mfor (iter_set actions.2) (λ stage_id, on_planner (mmodify (cancel_stage stage_id))) ;;;
   mret actions.2) g = (o, g') →
  static g = static g0 → carried (planner g0) (planner g) → tracked (planner g) →
  is_stage_active sid (planner g) = true → ids_fit (planner g') → (∀ x, o ≠ Ok x) → completion_fails sid g0 o.
Proof.
  intros Hu Hst Hcar Ht Hact Hfit Hno. unfold mthen at 1 in Hu. unfold on_planner at 1 in Hu.
  destruct (resolve_stage_partitions sid parts (planner g)) as [ores p2] eqn:Hres.
  destruct ores as [[]|e|].
  2,3: destruct (resolve_fails _ _ _ _ _ Hres Ht Hact) as (stage & Hq & Hf); [done|]; injection Hu as <- <-; right; right; left;
       exists (planner g), stage, parts; split_and!; [done..|]; by destruct (optimize_physical_plan _ _) as [[]]; cbn in Hf |- *; simplify_eq.
  apply resolve_consistent in Hres; [|done]. cbn in Hu. unfold mthen at 1 in Hu. unfold on_planner at 1 in Hu. cbn [planner static] in Hu.
  destruct (actionable_stages (job_id (static g0)) p2) as [oa p3] eqn:Hrun.
  destruct oa as [[runnable stale]|e|]; cbn in Hu.
  2,3: injection Hu as <- <-; destruct (actionable_outcome _ _ _ _ Hrun Hres Hfit) as (h & stage & Hr & _ & Hf);
       do 3 right.
  2: by exists h, stage, (Err e). 2: by exists h, stage, Panic.
  exfalso. unfold mthen in Hu. cbn [fst snd] in Hu. destruct runnable as [infos|]; cbn [fst] in Hu.
  - destruct (adding_total infos (mkAdaptiveGraph _ _ _ _ _ (static g) p3)) as [g4 E]. rewrite E in Hu.
    destruct (cancelling_total (iter_set stale) g4) as [g5 E']. rewrite E' in Hu. injection Hu as <- <-. by eapply Hno.
  - cbn in Hu. match type of Hu with (match mfor ?l _ ?g4 with _ => _ end) = _ =>
      destruct (cancelling_total l g4) as [g5 E'] end. rewrite E' in Hu. injection Hu as <- <-. by eapply Hno.
Qed.

(** A completion fails nowhere else. *)
Lemma completion_failure `{!RuleLaws} sid locs g o g' :
  update_stage_progress sid true locs g = (o, g') → tracked (planner g) → is_stage_active sid (planner g) = true →
  is_Some (runnable_stage_output (planner g) !! sid) → ids_fit (planner g') → (∀ x, o ≠ Ok x) → completion_fails sid g o.
Proof.
  unfold update_stage_progress. intros Hu Ht Hact [out Hout] Hfit Hno. unfold mthen at 1 in Hu. unfold on_planner at 1 in Hu.
  destruct (update_exchange_locations sid locs (planner g)) as [orep p1] eqn:Hrep.
  assert (orep = Ok tt ∧ is_Some (runnable_stage_output p1 !! sid)) as [-> Hout1].
  { unfold update_exchange_locations in Hrep. rewrite Hout in Hrep. injection Hrep as <- <-. cbn. by rewrite lookup_insert_eq. }
  apply report_carried in Hrep as Hc1. cbn [of_df] in Hu. unfold mthen at 1 in Hu. cbn [mget] in Hu. cbn [planner static] in Hu.
  assert (is_stage_active sid p1 = true) as Hact1 by by rewrite (carried_active _ _ _ Hc1). rewrite Hact1 in Hu. cbn [negb] in Hu.
  set (g1 := mkAdaptiveGraph _ _ _ _ _ (static g) p1) in *. unfold mthen at 1 in Hu.
  pose proof (prefix_state_output sid g1) as Hpo. destruct (resolve_prefix_merge_state sid g1) as [op g2] eqn:Hpre.
  destruct op as [[]|e|]; [|by injection Hu as <- <-; left; exists g1; rewrite Hpre..].
  apply prefix_state_carried in Hpre as [Hst2 Hc2]. cbn in Hst2, Hc2, Hpo.
  assert (carried (planner g) (planner g2)) as Hc12 by by etrans.
  destruct (take_total sid (planner g2)) as (parts & p3 & Htake); [by rewrite (carried_active _ _ _ Hc12)|by rewrite Hpo|].
  unfold mthen at 1 in Hu. unfold on_planner at 1 in Hu. rewrite Htake in Hu. cbn [of_df] in Hu. apply take_carried in Htake.
  set (g3 := mkAdaptiveGraph _ _ _ _ _ (static g2) p3) in *. assert (carried (planner g) p3) as Hc3 by by etrans.
  unfold mthen at 1 in Hu. destruct (remapped_partitions sid parts g3) as [om g4] eqn:Hmap.
  destruct om as [parts'|e|]; [|by injection Hu as <- <-; right; left; exists g3, parts; rewrite Hmap..].
  apply remapped_carried in Hmap as [Hst4 Hc4]. assert (carried (planner g) (planner g4)) as Hc by by etrans.
  eapply (completion_end_fails sid parts' g g4); try done; [by rewrite Hst4; cbn; rewrite Hst2|by apply Hc|].
  by rewrite (carried_active _ _ _ Hc).
Qed.

(** A stage that completes is not active any more, and the job goes on or ends. *)
Lemma completion_ok `{!RuleLaws} `{!RootLaws} sid locs g stale g' c :
  update_stage_progress sid true locs g = (Ok stale, g') → is_stage_active sid (planner g) = true →
  tracked (planner g) → root_cell (planner g) = Some c → resolved (heap (planner g)) (inr c) = false →
  ids_fit (planner g') →
  consistent (planner g') ∧ is_stage_active sid (planner g') = false ∧ (goes_on g' ∨ ends sid c g g').
Proof.
  intros Hu Hact Ht Hroot Hopen Hfit.
  destruct (completion_prefix _ _ _ _ _ Hu Hact) as (s1 & parts & s2 & runnable & s3 & g4 & Hcar & Hres & Hrun & Hadd & Hcan).
  destruct Hcar as (Ht1 & Hroot1 & [_ Hsame] & Hcache & _). specialize (Ht1 Ht). rewrite Hroot in Hroot1.
  apply resolve_consistent in Hres as Hc2; [|done]. destruct (resolve_finishes _ _ _ _ _ Hres Ht1 Hroot1) as (Hroot2 & Hcache2 & Hfin).
  apply cancel_loop_ok in Hcan as (Hst' & Hh' & Hpl' & Hg' & Ho' & Hsub').
  assert (planner g4 = s3) as Hp4.
  { destruct runnable; [by apply add_stages_ok in Hadd as [-> _]|by injection Hadd as <-]. }
  rewrite Hp4 in *. assert (ids_fit s3) as Hfit3 by (unfold ids_fit in *; congruence).
  destruct (actionable_ok _ _ _ _ Hrun Hc2 Hfit3) as [Hc3 _]. split_and!.
  - eapply consistent_same; try done; [by rewrite Hh'|by rewrite Ho'].
  - unfold is_stage_active. apply bool_decide_eq_false. intros [q Hq]. apply (lookup_weaken _ _ _ _ Hq) in Hsub'.
    assert (sid < stage_id_generator s2) as Hlt.
    { unfold is_stage_active in Hact. apply bool_decide_eq_true in Hact as [p Hp]. rewrite <- Hcache in Hp.
      destruct (active_open _ Ht1 _ _ Hp) as (b & _ & _ & Hid & _). apply Ht1 in Hid.
      unfold resolve_stage_partitions, finalise_stage_internal, replan_stages in Hres. by repeat case_match; simplify_eq. }
    destruct (actionable_entries _ _ _ _ _ Hrun Hlt) as [_ E]. by rewrite Hsub', Hcache2, lookup_delete_eq in E.
  - destruct runnable as [infos|].
    + left. assert (goes_on g4) as (n & b & ? & ? & ?) by by eapply new_stages_go_on.
      exists n, b. rewrite Hst', Hh', <- Hp4. done.
    + right. destruct (actionable_none _ _ _ _ Hrun) as (-> & c' & Hc' & Hr'). rewrite Hroot2 in Hc'. injection Hc' as <-.
      apply Hfin in Hr' as [Hr'|[Hid Hparts]]; [by rewrite (proj2 (Hsame _)), Hopen in Hr'|].
      exists parts. rewrite (proj1 (Hsame _)) in Hid. rewrite Hst', Hh'. injection Hadd as <-. done.
Qed.
End progress.

(** ** Losing an executor

    The passes of the adaptive graph are copies of those of the static graph that take a
    stage out of the map before they look at it. They only look at stages in the state
    they expect, so that the stages end up the same. *)

Section reset.
Context `{ProgressOps} `{!SessionOps} `{PrecisionOps} `{MapOrder}.

Lemma put_without sid x s : put_stage sid x (without_stage sid s) = put_stage sid x s.
Proof. unfold put_stage, without_stage, set_stages. cbn. by rewrite insert_delete_eq. Qed.

Definition resolved_at (s : StaticExecutionGraph.t) (sid : nat) : Prop := ∃ r, stages s !! sid = Some (Resolved r).
Definition running_at (s : StaticExecutionGraph.t) (sid : nat) : Prop := ∃ r, stages s !! sid = Some (RunningS r).

(** The end of a rollback: the same stages, but a stage whose rollback failed is gone. *)
Definition same_end {X : Type} (o : result X) (s s' : StaticExecutionGraph.t) : Prop :=
  match o with
  | Ok _ => s' = s
  | _ => ∃ sid, is_Some (stages s !! sid) ∧ s' = without_stage sid s
  end.

(** A stage in the state that is expected *)
Lemma rollback_resolved_same sid s o s' :
  rollback_resolved_stage sid s = (o, s') → resolved_at s sid →
  ∃ s'', adaptive_rollback_resolved_stage sid s = (o, s'') ∧ same_end o s' s'' ∧
    ∀ k, k ≠ sid → stages s' !! k = stages s !! k.
Proof.
  unfold rollback_resolved_stage, adaptive_rollback_resolved_stage. intros Hr [r Hs]. rewrite Hs in *.
  destruct (ResolvedStage.to_unresolved r); injection Hr as <- <-; rewrite ?put_without; eexists; (split; [done|]);
    (split; [first [done|exists sid; by rewrite Hs]|done || (intros k Hk; cbn; by rewrite lookup_insert_ne)]).
Qed.

Lemma rollback_running_same sid reasons s o s' :
  rollback_running_stage sid reasons s = (o, s') → running_at s sid →
  ∃ s'', adaptive_rollback_running_stage sid reasons s = (o, s'') ∧ same_end o s' s'' ∧
    ∀ k, k ≠ sid → stages s' !! k = stages s !! k.
Proof.
  unfold rollback_running_stage, adaptive_rollback_running_stage. intros Hr [r Hs]. rewrite Hs in *.
  destruct (RunningStage.to_unresolved reasons r); injection Hr as <- <-; rewrite ?put_without; eexists; (split; [done|]);
    (split; [first [done|exists sid; by rewrite Hs]|done || (intros k Hk; cbn; by rewrite lookup_insert_ne)]).
Qed.

(** The loops over the stages that are rolled back *)
Lemma resolved_loop_same l s o s' :
  NoDup l → Forall (resolved_at s) l →
  mfor l (λ sid, rollback_resolved_stage sid ;;; mret tt) s = (o, s') →
  ∃ s'', mfor l (λ sid, adaptive_rollback_resolved_stage sid ;;; mret tt) s = (o, s'') ∧ same_end o s' s'' ∧
    ∀ k, k ∉ l → stages s' !! k = stages s !! k.
Proof.
  revert s. induction l as [|sid l IH]; intros s Hnd Hall Hl; [injection Hl as <- <-; by eexists|].
  apply NoDup_cons in Hnd as [Hnin Hnd]. apply Forall_cons in Hall as [Hsid Hall]. cbn in Hl |- *. unfold mthen in Hl |- *.
  destruct (rollback_resolved_stage sid s) as [ob s1] eqn:Hb.
  destruct (rollback_resolved_same _ _ _ _ Hb Hsid) as (s1' & -> & Hend & Hkeep).
  destruct ob as [b|e|].
  2,3: injection Hl as <- <-; exists s1'; split_and!; [done..|]; intros k [Hne _]%not_elem_of_cons; by apply Hkeep.
  cbn in Hend. subst s1'. cbn in Hl |- *. destruct (IH s1 Hnd) as (s'' & Hloop & Hend & Hkeep'); [|exact Hl|].
  { rewrite list.Forall_forall in Hall |- *. intros k Hk. destruct (Hall k Hk) as [r Hr]. exists r.
    rewrite Hkeep; [done|]. by intros ->. }
  exists s''. split_and!; [done..|]. intros k [Hne Hk]%not_elem_of_cons. by rewrite Hkeep', Hkeep.
Qed.

Lemma running_loop_same reasons l s o s' :
  NoDup l → Forall (running_at s) l →
  rollback_running_stages reasons l s = (o, s') →
  ∃ s'', adaptive_rollback_all ((λ sid, (sid, reasons)) <$> l) s = (o, s'') ∧ same_end o s' s''.
Proof.
  revert s o s'. induction l as [|sid l IH]; intros s o s' Hnd Hall Hl; [injection Hl as <- <-; by eexists|].
  apply NoDup_cons in Hnd as [Hnin Hnd]. apply Forall_cons in Hall as [Hsid Hall]. cbn in Hl |- *. unfold mthen in Hl |- *.
  destruct (rollback_running_stage sid reasons s) as [ob s1] eqn:Hb.
  destruct (rollback_running_same _ _ _ _ _ Hb Hsid) as (s1' & -> & Hend & Hkeep).
  destruct ob as [ts|e|]; [|by injection Hl as <- <-; exists s1'..]. cbn in Hend. subst s1'.
  destruct (rollback_running_stages reasons l s1) as [orest s2] eqn:Hrest.
  apply IH in Hrest as (s'' & -> & Hend); [|done|].
  - destruct orest; injection Hl as <- <-; by exists s''.
  - rewrite list.Forall_forall in Hall |- *. intros k Hk. destruct (Hall k Hk) as [r Hr]. exists r.
    rewrite Hkeep; [done|]. by intros ->.
Qed.

Lemma reruns_total now l s :
  ∃ s', mfor (E:=BallistaError) l (λ sid, mmodify (λ s, (rerun_successful_stage now sid s).2)) s = (Ok tt, s').
Proof. revert s. induction l as [|sid l IH]; intros s; [by eexists|]. apply IH. Qed.

(** The stages of a pass are still in the state they were chosen in. *)
Lemma chosen_resolved e s sid :
  sid ∈ iter_set (keys_where (λ x, is_resolved x && rollback_stage e x) (stages s)) →
  resolved_at (set_stages (after_passes e s) s) sid.
Proof.
  rewrite iter_set_perm, elem_of_elements. intros (x & Hx & [Hr _]%andb_true_iff)%elem_of_keys_where.
  destruct x as [|r| | |]; try done. eexists. apply after_passes_lookup. by exists (Resolved r).
Qed.

Lemma chosen_running e s sid :
  sid ∈ iter_set (keys_where (λ x, is_running x && rollback_stage e x) (stages s)) →
  running_at (set_stages (after_passes e s) s) sid ∧
  sid ∉ iter_set (keys_where (λ x, is_resolved x && rollback_stage e x) (stages s)).
Proof.
  rewrite !iter_set_perm, !elem_of_elements. intros (x & Hx & [Hr _]%andb_true_iff)%elem_of_keys_where.
  destruct x as [| |r| |]; try done. split.
  - eexists. apply after_passes_lookup. by exists (RunningS r).
  - intros (y & Hy & [Hyr _]%andb_true_iff)%elem_of_keys_where. by rewrite Hx in Hy; simplify_eq.
Qed.

Lemma iter_set_nodup X : NoDup (iter_set X).
Proof. rewrite iter_set_perm. apply NoDup_elements. Qed.

Definition without_outputs (e : string) (sids : list nat) (p : AdaptivePlanner) : AdaptivePlanner :=
  foldl (λ p sid, remove_exchange_locations sid e p) p sids.

(** The planner is the same, but outputs have lost their locations on [e]. *)
Definition stripped (e : string) (o : StageOutput.t) : StageOutput.t :=
  StageOutput.mk (StageOutput.retain_not e <$> StageOutput.partition_locations o) (StageOutput.complete o).

Definition forgets (e : string) (p p' : AdaptivePlanner) : Prop :=
  p' = set_output (runnable_stage_output p') p ∧
  ∀ n, runnable_stage_output p' !! n = runnable_stage_output p !! n ∨
       runnable_stage_output p' !! n = stripped e <$> runnable_stage_output p !! n.

Lemma stripped_twice e o : stripped e (stripped e o) = stripped e o.
Proof.
  unfold stripped. cbn. f_equal. rewrite <- map_fmap_compose. apply map_fmap_ext. intros k l _. cbn.
  unfold StageOutput.retain_not. by rewrite list_filter_filter_l by done.
Qed.

#[global] Instance forgets_preorder e : PreOrder (forgets e).
Proof.
  split.
  - intros p. split; [by destruct p|]. by left.
  - intros p1 p2 p3 [E12 F12] [E23 F23]. split; [rewrite E23, E12; by destruct p1|]. intros n.
    destruct (F23 n) as [->| ->]; [apply F12|]. right. destruct (F12 n) as [->| ->]; [done|].
    rewrite <- option_fmap_compose. apply option_fmap_ext. intros o. cbn. apply stripped_twice.
Qed.

Lemma remove_forgets e sid p : forgets e p (remove_exchange_locations sid e p).
Proof.
  unfold remove_exchange_locations. destruct (runnable_stage_output p !! sid) as [o|] eqn:Ho; [|done].
  split; [done|]. intros n. cbn. destruct (decide (n = sid)) as [->|Hne].
  - right. by rewrite lookup_insert_eq, Ho.
  - left. by rewrite lookup_insert_ne.
Qed.

Lemma without_outputs_forgets e sids p : forgets e p (without_outputs e sids p).
Proof.
  revert p. induction sids as [|sid sids IH]; intros p; [done|]. etrans; [apply (remove_forgets e sid)|apply IH].
Qed.

Lemma without_outputs_steps job e sids p : rtc (planner_step job) p (without_outputs e sids p).
Proof.
  revert p. induction sids as [|sid sids IH]; intros p; [apply rtc_refl|]. eapply rtc_l; [apply (step_forget job p sid e)|apply IH].
Qed.

(** One pass *)
Lemma reset_pass_same now e g o s' :
  reset_stages_internal now e (static g) = (o, s') →
  ∃ s'', adaptive_reset_stages_internal now e g =
    (o, mkAdaptiveGraph _ _ _ _ _ s''
          (without_outputs e (iter_set (keys_where (running_task_reset e) (stages (static g)))) (planner g))) ∧
    same_end o s' s''.
Proof.
  unfold reset_stages_internal, adaptive_reset_stages_internal. intros Hr. fold (after_passes e (static g)) in *.
  unfold on_static. cbn [static planner]. unfold mthen at 1 in Hr. unfold mthen at 1.
  match type of Hr with (match ?m with _ => _ end) = _ => destruct m as [o1 s1] eqn:Hres end.
  apply resolved_loop_same in Hres as (s1' & -> & Hend & Hkeep); [|apply iter_set_nodup|].
  2:{ apply list.Forall_forall. intros sid Hsid. by apply chosen_resolved. }
  destruct o1 as [[]|e1|]; [|by injection Hr as <- <-; exists s1'..]. cbn in Hend. subst s1'.
  unfold mthen at 1 in Hr. unfold mthen at 1.
  match type of Hr with (match ?m with _ => _ end) = _ => destruct m as [o2 s2] eqn:Hrun end.
  apply running_loop_same in Hrun as (s2' & -> & Hend); [|apply iter_set_nodup|].
  2:{ apply list.Forall_forall. intros sid Hsid. destruct (chosen_running _ _ _ Hsid) as [[r Hrr] Hnin]. exists r.
      by rewrite Hkeep. }
  destruct o2 as [tasks|e2|]; [|by injection Hr as <- <-; exists s2'..]. cbn in Hend. subst s2'.
  match type of Hr with ?m = _ => destruct m as [o3 s3] eqn:Hre end. injection Hr as <- <-. exists s3. split; [done|].
  destruct o3; [done|..]; exfalso; unfold mthen in Hre;
    match type of Hre with (match mfor ?l ?f ?s with _ => _ end) = _ =>
      destruct (reruns_total now l s) as [s4 E]; by rewrite E in Hre end.
Qed.

(** The loop: the planner only forgets outputs. *)
Lemma reset_loop_same job fuel now e g o s' :
  reset_stages_on_lost_executor fuel now e (static g) = (Some o, s') →
  ∃ s'' p, adaptive_reset_stages_on_lost_executor fuel now e g = (Some o, mkAdaptiveGraph _ _ _ _ _ s'' p) ∧
    same_end o s' s'' ∧ forgets e (planner g) p ∧ rtc (planner_step job) (planner g) p.
Proof.
  revert g o s'. induction fuel as [|fuel IH]; intros g o s' Hr; [done|]. cbn [reset_stages_on_lost_executor] in Hr.
  destruct (reset_stages_internal now e (static g)) as [oi s1] eqn:Hi.
  cbn [adaptive_reset_stages_on_lost_executor]. destruct (reset_pass_same _ _ _ _ _ Hi) as (s1' & -> & Hend).
  set (p1 := without_outputs e _ (planner g)). assert (rtc (planner_step job) (planner g) p1) as Hp1 by apply without_outputs_steps.
  assert (forgets e (planner g) p1) as Hf1 by apply without_outputs_forgets.
  destruct oi as [[reset tasks]|err|]; [|by injection Hr as <- <-; exists s1', p1..]. cbn in Hend. subst s1'.
  case_bool_decide; [injection Hr as <- <-; by exists s1, p1|].
  destruct (reset_stages_on_lost_executor fuel now e s1) as [[ol|] s2] eqn:Hl; [|done].
  destruct (IH (mkAdaptiveGraph _ _ _ _ _ s1 p1) _ _ Hl) as (s'' & p & -> & Hend & Hf & Hp). exists s'', p.
  destruct ol as [[reset' tasks']|err|]; injection Hr as <- <-; (split_and!; [done..|by etrans|by etrans]).
Qed.
End reset.
