(* ===== verification/AdaptiveTheorems.v ===== *)
(** * Correctness of adaptive execution

    The properties of the adaptive planner and of the execution graph on top of it, and
    the jobs at which they are evaluated. *)

From stdpp Require Import numbers gmap strings.
From S2P Require Import Prelude Errors Machine Types Stage Graph Coalesce PhysicalPlan TaskPlan TaskPlanFacts Planner PlannerFacts AdaptivePlan Adapter AdaptivePlanner AdaptiveFacts AdapterFacts AdaptivePlannerFacts AdaptiveOutputs AdaptiveGraph AdaptiveGraphFacts LostExecutor PlanSample.
Import StaticExecutionGraph(job_id, stages, session_config).

(** ** An adaptive job to run the theorems on

    A scan that is repartitioned by hash, an operator over it, and its output gathered in
    one partition: three stages. *)

(** An operator named sort gives sorted partitions; scans are large. *)
#[export] Instance sample_adaptive : AdaptiveOps := {|
  a_rebuilds _ _ _ := true;
  output_ordering p := match p with ANode (OtherOp "sort"%string) _ => Some "key"%string | _ => None end;
  op_preserves_partitioning _ := true;
  scan_byte_size _ := Ok (Exact 1000);
|}.

#[export] Instance sample_filters : FilterOps := {|
  filter_expr_is _ _ := true;
  range_bound _ _ := tt;
  widened_bound _ _ := tt;
|}.

#[export] Instance sample_options : SessionOps := {|
  broadcast_threshold_bytes := 10;
  coalesce_config := mkCoalesceConfig true 200 f64_zero f64_one;
  earlier_rules p := mret p;
|}.

#[export] Instance sample_rule_laws : RuleLaws.
Proof. by intros p h q h' [= <- <-] Hk. Qed.

#[export] Instance sample_root_laws : RootLaws.
Proof. intros r i h q h' [= <- <-]. by exists r, i. Qed.

#[export] Instance sample_visit : MapOrder := {|
  iter_map := λ A (m : gmap nat A), map_to_list m;
  iter_map_perm := λ A m, reflexivity (map_to_list m);
  iter_set := λ s : gset nat, elements s;
  iter_set_perm := λ s, reflexivity (elements s);
|}.

#[export] Instance sample_sums : PrecisionOps := λ _ _, Absent.

#[export] Instance sample_progress : ProgressOps := {|
  WindowExprs := unit;
  repartition_routing_expr _ := Ok None;
  stage_routing _ _ := Ok None;
  filter_halos _ := (tt, tt);
  cut_partitions parts _ _ _ _ := Ok parts;
  op_window_expr _ := None;
  prefix_merge_window_state _ _ _ := Ok [];
|}.


Definition sample_job : AdaptivePlan :=
  ANode CoalescePartitions
    [ANode (OtherOp "sum"%string)
       [ANode (Repartition (Hash ["key"%string] 4)) [ALeaf (FileScan "b"%string [[2; 3]; [4]])]]].

(** What a task of the stage wrote for a partition *)
Definition written (stage_id : nat) (bytes : N) (task partition : nat) : PartitionLocation.t :=
  PartitionLocation.mk task (PartitionId.mk "job"%string stage_id partition)
    (ExecutorMetadata.mk "executor"%string "host"%string 50051 50052 (mkExecutorSpecification 4)
       (mkOsSpecification "linux"%string "6"%string "1"%string "1"%string 4 1 0 0 1024))
    (mkPartitionStats (Some 1%N) (Some 1%N) (Some bytes)) None true.

(** *** Runs of the planner *)

Definition initial (p : AdaptivePlan) : AdaptivePlanner :=
  match try_new_with_optimizers p (mkHeap ∅ ∅ 0 0) with
  | Ok s => s
  | _ => mkPlanner _ 0 (Bare p) ∅ ∅ (mkHeap ∅ ∅ 0 0)
  end.

Definition hand_out (s : AdaptivePlanner) : AdaptivePlanner := (actionable_stages "job"%string s).2.

Definition report (n : nat) (locs : list PartitionLocation.t) (s : AdaptivePlanner) : AdaptivePlanner :=
  (update_exchange_locations n locs s).2.

Definition take (n : nat) (s : AdaptivePlanner) : AdaptivePlanner := (take_stage_output_partitions n s).2.

Definition output_of (n : nat) (s : AdaptivePlanner) : list (list PartitionLocation.t) :=
  match (take_stage_output_partitions n s).1 with Ok parts => parts | _ => [] end.

Definition finish (n : nat) (s : AdaptivePlanner) : AdaptivePlanner :=
  (resolve_stage_partitions n (output_of n s) (take n s)).2.

Lemma initial_reachable p s0 :
  try_new_with_optimizers p (mkHeap ∅ ∅ 0 0) = Ok s0 → known_in (mkHeap ∅ ∅ 0 0) p → reachable "job"%string (initial p).
Proof. intros Hp Hk. exists p, s0. unfold initial. rewrite Hp. split_and!; [done..|apply rtc_refl]. Qed.

Lemma reachable_step s s' : reachable "job"%string s → planner_step "job"%string s s' → reachable "job"%string s'.
Proof. intros (p & s0 & ? & ? & Hs) Hst. exists p, s0. split_and!; [done..|by eapply rtc_r]. Qed.

Lemma hand_out_step s : planner_step "job"%string s (hand_out s).
Proof. by eapply step_actionable, surjective_pairing. Qed.

Lemma report_step n locs s : planner_step "job"%string s (report n locs s).
Proof. by eapply step_report, surjective_pairing. Qed.

Lemma take_step n s : planner_step "job"%string s (take n s).
Proof. by eapply step_take, surjective_pairing. Qed.

Lemma finish_step n s :
  (resolve_stage_partitions n (output_of n s) (take n s)).1 = Ok tt → planner_step "job"%string (take n s) (finish n s).
Proof. intros Hr. eapply step_resolve. rewrite <- Hr. apply surjective_pairing. Qed.

Lemma finish_reachable n s :
  (resolve_stage_partitions n (output_of n s) (take n s)).1 = Ok tt →
  reachable "job"%string s → reachable "job"%string (finish n s).
Proof. intros Hr Hs. eapply reachable_step, finish_step, Hr. eapply reachable_step, take_step. done. Qed.

(** *** The job *)

Definition sample_initial : AdaptivePlanner := initial sample_job.

(** The first stage has been handed out, then its two tasks have reported. *)
Definition sample_running : AdaptivePlanner := hand_out sample_initial.

Definition sample_events : list (nat * list PartitionLocation.t) :=
  [(0, written 0 40 0 <$> seq 0 4); (0, written 0 40 1 <$> seq 0 4)].

Definition sample_reported : AdaptivePlanner :=
  report 0 (written 0 40 1 <$> seq 0 4) (report 0 (written 0 40 0 <$> seq 0 4) sample_running).

Definition sample_finished : AdaptivePlanner := finish 0 sample_reported.

Lemma sample_running_reachable : reachable "job"%string sample_running.
Proof.
  apply (reachable_step sample_initial); [|apply hand_out_step].
  eapply initial_reachable; [vm_compute; reflexivity|by repeat split].
Qed.

Lemma sample_reported_reachable : reachable "job"%string sample_reported.
Proof.
  apply (reachable_step (report 0 (written 0 40 0 <$> seq 0 4) sample_running)); [|apply report_step].
  apply (reachable_step sample_running); [apply sample_running_reachable|apply report_step].
Qed.

Lemma sample_finished_reachable : reachable "job"%string sample_finished.
Proof. apply finish_reachable; [vm_compute; reflexivity|exact sample_reported_reachable]. Qed.

Definition sample_infos : list AdaptiveStageInfo :=
  match (actionable_stages "job"%string sample_finished).1 with Ok (Some infos, _) => infos | _ => [] end.

(** The boundary of the first stage, the plan of the second, and its inputs coalesced *)
Definition sample_exchange : ExchangeExec := mkExchange (Some (Hash ["key"%string] 4)) 0 0 false false.

Definition sample_second : JobPlan :=
  Bare (AExchange (mkExchange None 2 2 false false)
    (ANode (OtherOp "sum"%string) [AExchange sample_exchange (ALeaf (FileScan "b"%string [[2; 3]; [4]]))])).

Definition sample_coalesced : Heap := (coalesce_partitions coalesce_config sample_second (heap sample_finished)).2.

(** The graph of the job *)
Definition sample_new : result AdaptiveExecutionGraph :=
  try_new 1 "scheduler"%string "job"%string "name"%string "session"%string (Ok sample_initial) 0 sample_session
    "plan"%string (scan "b" []).

Lemma sample_new_ok : ∃ static, sample_new = Ok (mkAdaptiveGraph _ _ _ _ _ static sample_running).
Proof. eexists. vm_compute. reflexivity. Qed.

Definition sample_agraph : AdaptiveExecutionGraph :=
  match sample_new with
  | Ok g => g
  | _ =>
      mkAdaptiveGraph _ _ _ _ _
        (StaticExecutionGraph.mk _ _ None "job"%string "name"%string "session"%string
           (JobStatus.mk "job"%string "name"%string None) 0 0 0 ∅ [] ∅ sample_session None (scan "b" []))
        sample_running
  end.

(** The graph when the first stage has finished *)
Definition sample_next : AdaptiveExecutionGraph :=
  (update_stage_progress 0 true (concat sample_events.*2) sample_agraph).2.

(** *** A sorted job

    Its partitions are sorted and merged; what the second stage writes is coalesced. *)
Definition sorted_job : AdaptivePlan :=
  ANode (SortPreservingMerge "key"%string None)
    [ANode (OtherOp "sort"%string)
       [ANode (Repartition (Hash ["key"%string] 4)) [ALeaf (FileScan "b"%string [[2; 3]; [4]])]]].

Definition sorted_first : AdaptivePlanner := report 0 (written 0 150 0 <$> seq 0 4) (hand_out (initial sorted_job)).

Definition sorted_second : AdaptivePlanner :=
  report 1 ((λ i, written 1 80 i i) <$> seq 0 4) (hand_out (finish 0 sorted_first)).

Definition sorted_finished : AdaptivePlanner := finish 1 sorted_second.

Lemma sorted_finished_reachable : reachable "job"%string sorted_finished.
Proof.
  apply finish_reachable; [vm_compute; reflexivity|]. eapply reachable_step, report_step. eapply reachable_step, hand_out_step.
  apply finish_reachable; [vm_compute; reflexivity|]. eapply reachable_step, report_step. eapply reachable_step, hand_out_step.
  eapply initial_reachable; [vm_compute; reflexivity|by repeat split].
Qed.

(** ** Shared lemmas *)

Section stages.
Context `{FilterOps} `{!SessionOps} `{MapOrder} (job : JobId).

(** A stage with output: its boundary is resolved, and it is not active. *)
Definition finished (s : AdaptivePlanner) (n : nat) : Prop :=
  (∃ b, stage_of (heap s) b = Some n ∧ resolved (heap s) b = true) ∧ is_stage_active n s = false.

Lemma resolved_finished s b n :
  tracked s → stage_of (heap s) b = Some n → resolved (heap s) b = true → finished s n.
Proof.
  intros Ht Hn Hr. split; [by exists b|]. apply bool_decide_eq_false. intros [p Hp].
  destruct (active_open _ Ht n p Hp) as (b' & _ & _ & Hn' & Hop). rewrite (ids_unique _ Ht _ _ _ Hn Hn') in Hr. congruence.
Qed.

(** The plan of a stage that can run, and its inputs *)
Lemma runnable_adapts s h stage info :
  tracked s → runnable h stage → same_stages h (heap s) → adapt_to_ballista job h stage = Ok info →
  gathers_from_stages (info_plan info) ∧ ∀ n, is_Some (info_inputs info !! n) → finished s n.
Proof.
  intros Ht (input & b & m & Hin & _ & _ & _ & _ & Hu & Hs) [_ Hsame] Ha.
  destruct (adapt_ok _ _ _ _ _ Ha Hin) as [(k & e & -> & Hk & He) Hrec]. split.
  - apply gathers_node. split; [by destruct k|]. constructor; [|done]. by eapply closed_gathers.
  - intros n [o Ho]. apply Hrec in Ho as [?|(x & parts & _ & Hid & Hp & _)]; [done|].
    destruct (Hsame (inl (ex_cells x))) as [Hst Hre].
    apply (resolved_finished _ (inl (ex_cells x))); [done|by rewrite Hst|]. rewrite Hre. apply bool_decide_eq_true. by exists parts.
Qed.
End stages.

(** ** Stages that run *)

(** C10. In every state that the planner of a plan without exchanges gets to, a call of
    [actionable_stages] hands out stages as long as the last stage has no output, unless the
    coalescing or the adapter fails on a stage that could run. The stages handed out can run
    as they are: there is at least one; no stage repartitions by hash inside, a
    [CoalescePartitionsExec] gathers the output of a stage or a small scan, a
    [SortPreservingMergeExec] merges the output of a stage, a null-aware join with the
    build side collected sees its probe side in one partition; and every stage whose
    output is an input has finished. No stages are handed out only when the last stage has
    finished and no boundary of the plan is open. *)
Theorem adaptive_stages_can_run `{FilterOps} `{!SessionOps} `{MapOrder} `{!RuleLaws} job s o s' :
  reachable job s → actionable_stages job s = (o, s') → ids_fit s' →
  match o with
  | Ok (Some infos, _) =>
      infos ≠ [] ∧
      Forall (λ info, gathers_from_stages (info_plan info) ∧
                      ∀ n, is_Some (info_inputs info !! n) → finished s' n) infos
  | Ok (None, _) =>
      ∃ root input n, plan s = Adaptive root input ∧ unresolved_below (heap s) input = false ∧
        stage_of (heap s) (inr (ad_cells root)) = Some n ∧ finished s n
  | _ => ∃ h stage, runnable h stage ∧ same_stages h (heap s') ∧ stage_fails job h stage o
  end.
Proof.
  intros Hr Ha Hfit. assert (Hgrow := actionable_grows _ _ _ _ Ha).
  assert (consistent s) as Hc by (apply (reachable_consistent job); [done|unfold ids_fit in *; lia]).
  destruct (actionable_ok _ _ _ _ Ha Hc Hfit) as [Hc' Hall]. assert (Hout := actionable_outcome _ _ _ _ Ha Hc Hfit).
  destruct o as [[[infos|] stale]|e|]; [| |done..].
  - destruct (Hall _ _ eq_refl) as [Hne Hinfos].
    split; [done|]. eapply Forall_impl; [exact Hinfos|]. intros info (h & stage & Hrun & Hsame & Had).
    by eapply runnable_adapts; [apply Hc'|..].
  - destruct Hout as (root & input & Hp & Hres & Hu).
    destruct (resolved_assigned _ Hc (inr (ad_cells root)) Hres) as [n Hn]. exists root, input, n.
    split_and!; try done. by eapply resolved_finished; [apply Hc|..].
Qed.

Lemma adaptive_stages_can_run_witness :
  length sample_infos = 1 ∧
  Forall (λ info, gathers_from_stages (info_plan info) ∧
                  ∀ n, is_Some (info_inputs info !! n) → finished (hand_out sample_finished) n) sample_infos.
Proof.
  split; [vm_compute; reflexivity|].
  refine (proj2 (adaptive_stages_can_run "job"%string sample_finished (Ok (Some sample_infos, ∅)) (hand_out sample_finished) _ _ _)).
  - exact sample_finished_reachable.
  - vm_compute. reflexivity.
  - vm_compute. discriminate.
Defined.

(** C25. In every state of the planner a stage id belongs to one boundary of the plan; a
    stage is active only as long as its boundary is not resolved; a resolved boundary is
    that of a stage that is not active; and the outputs of tasks are kept for ids that
    have been given. *)
Theorem stage_ids_name_boundaries `{FilterOps} `{!SessionOps} `{MapOrder} `{!RuleLaws} job s :
  reachable job s → ids_fit s →
  (∀ b b' n, stage_of (heap s) b = Some n → stage_of (heap s) b' = Some n → b = b') ∧
  (∀ n p, runnable_stage_cache s !! n = Some p →
     ∃ b, boundary_of p = Some b ∧ stage_of (heap s) b = Some n ∧ resolved (heap s) b = false) ∧
  (∀ b, resolved (heap s) b = true → ∃ n, stage_of (heap s) b = Some n ∧ finished s n) ∧
  (∀ n, is_Some (runnable_stage_output s !! n) → n < stage_id_generator s).
Proof.
  intros Hr Hfit. destruct (reachable_consistent job s Hr Hfit) as [Ht _]. split; [apply (ids_unique _ Ht)|]. split_and!.
  - intros n p Hp. destruct (active_open _ Ht n p Hp) as (b & ? & _ & ? & ?). by exists b.
  - intros b Hb. destruct (resolved_assigned _ Ht b Hb) as [n Hn]. exists n. split; [done|]. by eapply resolved_finished.
  - apply (outputs_below _ Ht).
Qed.

Lemma stage_ids_name_boundaries_witness :
  ∃ n, stage_of (heap sample_finished) (inl 0) = Some n ∧ finished sample_finished n.
Proof.
  refine (proj1 (proj2 (proj2 (stage_ids_name_boundaries "job"%string sample_finished _ _))) (inl 0) _).
  - exact sample_finished_reachable.
  - vm_compute. discriminate.
  - vm_compute. reflexivity.
Defined.

(** ** Outputs *)



(** C26. Coalescing leaves the plan of a stage as it is and gives all the exchanges that it
    reads the same groups, fewer than the partitions and more than one: the readers have
    one partition per group, aligned with each other, and read every location of the
    exchange exactly once, in the order of the partitions. The sizes add up below
    [2^64] bytes, and an index fits [u32]. *)
Theorem coalesced_readers_read_everything `{FilterOps} config plan h plan' h' :
  coalesce_partitions config plan h = (Ok plan', h') →
  (∀ input, job_input plan = Some input →
     (total_bytes h (leaf_exchanges input) < 2 ^ 64)%N ∧
     Forall (λ l, N.of_nat (a_count (AExchange l.1 l.2)) ≤ 2 ^ 32)%N (leaf_exchanges input)) →
  plan' = plan ∧
  (h' = h ∨
   ∃ input groups, job_input plan = Some input ∧
     Forall (λ l, 1 < length groups < a_count (AExchange l.1 l.2) ∧ ∃ parts, shuffle_partitions h' l.1 = Some parts ∧
       ∀ fetch id, let reader := reader_of h' l.1 l.2 fetch id parts in
         leaf_stage reader = Some id ∧ leaf_locations reader = read_group parts <$> groups ∧
         concat (leaf_locations reader) = concat parts) (leaf_exchanges input)).
Proof.
  unfold coalesce_partitions. intros Hc Hb. destruct (coalesce_enabled config); [|by injection Hc as <- <-; auto].
  cbn [negb] in Hc. destruct (job_input plan) as [input|]; [|by injection Hc as <- <-; auto].
  destruct (Hb input eq_refl) as [Hbytes Hm]. clear Hb.
  destruct (coalesce_decision config h (leaf_exchanges input)) as [[cp|]|e|] eqn:Hd; try done; injection Hc as <- <-; [|split; [done|by left]].
  split; [done|]. right. exists input, (c_groups cp). split; [done|]. apply list.Forall_forall. intros [x i] Hx.
  destruct (leaf_exchanges input) as [|[x0 i0] leaves] eqn:Hl; [done|].
  inversion_clear Hm as [|? ? Hm0 _]. destruct (decision_ok _ _ _ _ _ _ Hd Hbytes Hm0) as (Hall & Hk & Hres).
  rewrite list.Forall_forall in Hres. destruct (Hres _ Hx) as (Hbr & Hcount & parts & Hparts & Hlen). cbn [fst snd] in *.
  split; [by rewrite Hcount|]. exists parts. split; [by rewrite set_coalesce_partitions|]. intros fetch id.
  unfold reader_of. rewrite (set_coalesce_all _ _ _ x i) by by left. rewrite Hbr. cbn. split_and!; [done..|].
  by eapply read_groups_all.
Qed.

Lemma coalesced_readers_read_everything_witness :
  heap (hand_out sample_finished) ≠ heap sample_finished ∧
  ∃ input groups, job_input sample_second = Some input ∧
    Forall (λ l, 1 < length groups < a_count (AExchange l.1 l.2) ∧ ∃ parts, shuffle_partitions sample_coalesced l.1 = Some parts ∧
      ∀ fetch id, let reader := reader_of sample_coalesced l.1 l.2 fetch id parts in
        leaf_stage reader = Some id ∧ leaf_locations reader = read_group parts <$> groups ∧
        concat (leaf_locations reader) = concat parts) (leaf_exchanges input).
Proof.
  split; [vm_compute; discriminate|].
  destruct (coalesced_readers_read_everything coalesce_config sample_second (heap sample_finished) sample_second sample_coalesced)
    as [_ [Hsame|Hgroups]].
  - vm_compute. reflexivity.
  - intros input [= <-]. split; [vm_compute; reflexivity|]. constructor; [vm_compute; discriminate|constructor].
  - exfalso. vm_compute in Hsame. discriminate Hsame.
  - exact Hgroups.
Defined.

(** ** Progress *)

(** C11. When the last task of an active stage is in and the output of the stage was not
    taken, the completion of the stage fails only where taking in the states of window functions,
    assigning files to ranges, optimizing the plan again, or coalescing or adapting a
    stage that can run fails, with the same error. If it does not fail, the stage is not
    active any more, the planner is in order again, and the job makes progress: the graph
    has a stage whose boundary is not resolved, or the stage was the last one and the output
    of the job is the output of that stage, all its partitions one after the other. *)
Theorem completed_stage_moves_the_job_on
    `{ProgressOps} `{!SessionOps} `{PrecisionOps} `{MapOrder} `{!RuleLaws} `{!RootLaws} job sid locs g o g' c :
  reachable job (planner g) → root_cell (planner g) = Some c → resolved (heap (planner g)) (inr c) = false →
  is_stage_active sid (planner g) = true → is_Some (runnable_stage_output (planner g) !! sid) →
  update_stage_progress sid true locs g = (o, g') → ids_fit (planner g) → ids_fit (planner g') →
  match o with
  | Ok _ => consistent (planner g') ∧ is_stage_active sid (planner g') = false ∧ (goes_on g' ∨ ends sid c g g')
  | _ => completion_fails sid g o
  end.
Proof.
  intros Hr Hroot Hopen Hact Hout Hu Hfit Hfit'. assert (Hc := reachable_consistent _ _ Hr Hfit).
  destruct o as [stale|e|].
  - by eapply completion_ok; try apply Hc.
  - by eapply completion_failure; try apply Hc.
  - by eapply completion_failure; try apply Hc.
Qed.

Lemma completed_stage_moves_the_job_on_witness :
  ∃ g', update_stage_progress 0 true (concat sample_events.*2) sample_agraph = (Ok ∅, g') ∧
    is_stage_active 0 (planner g') = false ∧ (goes_on g' ∨ ends 0 1 sample_agraph g').
Proof.
  exists (update_stage_progress 0 true (concat sample_events.*2) sample_agraph).2.
  split; [vm_compute; reflexivity|].
  refine (proj2 (completed_stage_moves_the_job_on "job"%string 0 (concat sample_events.*2) sample_agraph (Ok ∅) _ 1 _ _ _ _ _ _ _ _)).
  - exact sample_running_reachable.
  - vm_compute. reflexivity.
  - vm_compute. reflexivity.
  - vm_compute. reflexivity.
  - vm_compute. by eexists.
  - vm_compute. reflexivity.
  - vm_compute. discriminate.
  - vm_compute. discriminate.
Defined.

(** C33. A stage that has finished cannot be run again: once its output is taken, whatever
    happens to the planner, a report of one of its tasks is an error that ends the update of
    the job, so that the rerun that a lost executor or a failed fetch asks for never
    completes. *)
Theorem finished_stage_takes_no_reports
    `{ProgressOps} `{!SessionOps} `{PrecisionOps} `{MapOrder} `{!RuleLaws} job s sid parts s1 g is_completed locs :
  reachable job s → ids_fit s → take_stage_output_partitions sid s = (Ok parts, s1) → rtc (planner_step job) s1 (planner g) →
  update_stage_progress sid is_completed locs g =
    (Err (DataFusionErr (DF_Other "Can't find active stage to update stage outputs")), g).
Proof.
  intros Hr Hfit Ht Hsteps. destruct (reachable_consistent job s Hr Hfit) as [Htr _].
  assert (sid < stage_id_generator s1 ∧ runnable_stage_output s1 !! sid = None) as [Hlt Hno].
  { unfold take_stage_output_partitions in Ht. destruct (runnable_stage_cache s !! sid) as [p|] eqn:Hp; [|done].
    destruct (active_open _ Htr _ _ Hp) as (b & _ & _ & Hid & _). apply Htr in Hid.
    destruct (runnable_stage_output s !! sid); [|done]. injection Ht as _ <-. cbn. by rewrite lookup_delete_eq. }
  apply (finished_forever job _ _ sid Hsteps) in Hno; [|done]. unfold update_stage_progress, mthen, on_planner.
  unfold update_exchange_locations. rewrite Hno. cbn. by destruct g.
Qed.

Lemma finished_stage_takes_no_reports_witness :
  ∃ g, planner g = sample_finished ∧
    update_stage_progress 0 true [written 0 40 0 0] g =
      (Err (DataFusionErr (DF_Other "Can't find active stage to update stage outputs"%string)), g).
Proof.
  exists (mkAdaptiveGraph _ _ _ _ _ (static sample_agraph) sample_finished). split; [reflexivity|].
  refine (finished_stage_takes_no_reports "job"%string sample_reported 0 (output_of 0 sample_reported) (take 0 sample_reported)
            (mkAdaptiveGraph _ _ _ _ _ (static sample_agraph) sample_finished) true [written 0 40 0 0] _ _ _ _).
  - exact sample_reported_reachable.
  - vm_compute. discriminate.
  - vm_compute. reflexivity.
  - apply rtc_once, finish_step. vm_compute. reflexivity.
Defined.

(** C27. When an executor is lost, the loop of the adaptive graph ends as that of the
    static graph does on the same stages, though it takes each stage out of the map before it
    looks at it. If it ends without an error it has the same result, the same
    tasks to cancel and the same stages, none of which, if unfinished, depends on the executor
    any more. If a rollback fails both end with its error, and the adaptive graph has lost the
    stage that was to be rolled back. On every path the planner is the same but for outputs
    that have lost their locations on the executor. *)
Theorem adaptive_reset_agrees_with_static
    `{ProgressOps} `{!SessionOps} `{PrecisionOps} `{MapOrder} job fuel now e g :
  graph_weight e (static g) < fuel →
  ∃ o s' s'' p,
    reset_stages_on_lost_executor fuel now e (static g) = (Some o, s') ∧
    adaptive_reset_stages_on_lost_executor fuel now e g = (Some o, mkAdaptiveGraph _ _ _ _ _ s'' p) ∧
    match o with
    | Ok _ => s'' = s' ∧ ∀ sid x, stages s'' !! sid = Some x → is_open x = true → independent e x
    | _ => ∃ sid, is_Some (stages s' !! sid) ∧ s'' = without_stage sid s'
    end ∧
    forgets e (planner g) p ∧ rtc (planner_step job) (planner g) p.
Proof.
  intros Hfuel. destruct (reset_loop_terminates fuel now e (static g) (static g) (λ _ Hp, Hp) Hfuel) as (o & s' & Hr & _).
  destruct (reset_loop_same job _ _ _ _ _ _ Hr) as (s'' & p & Ha & Hend & Hf & Hp). exists o, s', s'', p.
  split_and!; try done. destruct o as [r| |]; [|done..]. cbn in Hend. subst s''. split; [done|].
  intros sid x. by eapply reset_loop_independent.
Qed.

Lemma adaptive_reset_agrees_with_static_witness :
  ∃ r p s', adaptive_reset_stages_on_lost_executor 10 5 "executor"%string sample_next =
      (Some (Ok r), mkAdaptiveGraph _ _ _ _ _ s' p) ∧ r.1 = {[1]} ∧ forgets "executor"%string (planner sample_next) p.
Proof.
  destruct (adaptive_reset_agrees_with_static "job"%string 10 5 "executor"%string sample_next) as (o & s' & s'' & p & Hs & Ha & Hend & Hf & _).
  - vm_compute. lia.
  - assert ((reset_stages_on_lost_executor 10 5 "executor"%string (static sample_next)).1 = Some (Ok ({[1]}, []))) as Hv
      by (vm_compute; reflexivity).
    rewrite Hs in Hv. injection Hv as ->.
    exists ({[1]}, []), p, s''. split; [exact Ha|]. split; [reflexivity|exact Hf].
Defined.

(** Coalescing loses the order of sorted partitions: there is a job whose planner hands
    out a stage in which a [SortPreservingMergeExec] merges partitions that are several
    sorted files one after the other, read by a plain shuffle reader; the reader that
    merges the files is only used when the exchange is not coalesced. *)
Theorem coalescing_breaks_a_sorted_merge :
  ∃ s infos stale s' root x input reader,
    reachable "job"%string s ∧ plan s = Adaptive root (ANode (SortPreservingMerge "key"%string None) [AExchange x input]) ∧
    output_ordering input = Some "key"%string ∧
    actionable_stages "job"%string s = (Ok (Some infos, stale), s') ∧
    info_plan <$> infos =
      [Node (ShuffleWriter "job"%string 2) [Node (SortPreservingMerge "key"%string None) [LeafNode (ShuffleReader reader)]]] ∧
    sr_partition reader = [[written 1 80 0 0; written 1 80 1 1]; [written 1 80 2 2; written 1 80 3 3]].
Proof.
  eexists sorted_finished, _, _, _, _, _, _, _. split; [exact sorted_finished_reachable|].
  split; [vm_compute; reflexivity|]. split; [vm_compute; reflexivity|]. split; [vm_compute; reflexivity|].
  split; vm_compute; reflexivity.
Qed.
