(* ===== verification/ExecutorTheorems.v ===== *)
(** * Correctness of executors

    What the poll loop of an executor does with the tasks and the vcores it is given, when
    tasks can be cancelled, what the reporter of pushed tasks sends, and when heartbeats
    end the executor. *)

From stdpp Require Import numbers gmap strings.
From S2P Require Import Prelude Errors Types Stage Graph Binding TaskManager Sample Executor.

Ltac step_cases H :=
  destruct H as [s Hl|s n sent tasks Hl|s n sent Hl|s key|? ? ?
    [s start now task rest s' Hl Hr|s Hl|s id r Hr Hp|s now id r c Hr Hp Ha|s id r Hr Hp]].

(** A task is received into a free permit: it is spawned, or its failure reported. *)
Ltac received H :=
  let Hfree := fresh "Hfree" in
  unfold receive_task in H;
  match type of H with (if ?n =? 0 then _ else _) = _ => destruct (Nat.eqb_spec n 0) as [|Hfree]; [done|] end;
  injection H as <-.

(** ** Tasks and their statuses *)

Section accounting.
Context `{EngineOps}.

(** The tasks, and the statuses, of a run *)
Definition taken (ls : list label) : list TaskDefinition.t := omap (λ l, match l with Taken t => Some t | _ => None end) ls.

Definition delivered (ls : list label) : list TaskStatus.t :=
  concat (omap (λ l, match l with Delivered _ sent _ => Some sent | _ => None end) ls).

Definition dropped (ls : list label) : list TaskStatus.t :=
  concat (omap (λ l, match l with Dropped sent => Some sent | _ => None end) ls).

Definition in_flight (p : position) : list TaskStatus.t := match p with Polling _ sent => sent | _ => [] end.

(** What names a task and its attempt in the fields of a status *)
Definition status_key (ts : TaskStatus.t) : TaskKey.t * nat :=
  (TaskKey.mk (TaskStatus.job_id ts) (TaskStatus.stage_id ts) (TaskStatus.task_id ts), TaskStatus.stage_attempt_num ts).

(** The name of a task in a status *)
Definition wire_key (t : TaskDefinition.t) : TaskKey.t :=
  TaskKey.mk (TaskDefinition.job_id t) (u32_of_nat (TaskDefinition.stage_id t)) (u32_of_nat (TaskDefinition.task_id t)).

Definition attempt_key (t : TaskDefinition.t) (attempt : nat) : TaskKey.t * nat := (wire_key t, u32_of_nat attempt).

Definition can_be_set_up (t : TaskDefinition.t) : bool :=
  match set_up_task t with inr _ => true | inl _ => false end.

(** What is reported of tasks: one that runs is reported for the attempt of its stage, one that
    cannot be set up has its own attempt number in that field. *)
Definition reports_of (ts : list TaskDefinition.t) : list (TaskKey.t * nat) :=
  ((λ t, attempt_key t (TaskDefinition.stage_attempt_num t)) <$> filter (λ t, can_be_set_up t = true) ts) ++
  ((λ t, attempt_key t (TaskDefinition.task_attempt_num t)) <$> filter (λ t, can_be_set_up t = false) ts).

Definition report_key (t : TaskDefinition.t) : TaskKey.t * nat :=
  attempt_key t (if can_be_set_up t then TaskDefinition.stage_attempt_num t else TaskDefinition.task_attempt_num t).

Lemma reports_of_each ts : reports_of ts ≡ₚ report_key <$> ts.
Proof.
  unfold reports_of. induction ts as [|t ts IH]; [done|]. rewrite fmap_cons, <-IH. unfold report_key.
  destruct (can_be_set_up t) eqn:E.
  - rewrite filter_cons_True, filter_cons_False by (by rewrite ?E). done.
  - rewrite filter_cons_False, filter_cons_True by (by rewrite ?E). rewrite fmap_cons.
    symmetry. apply Permutation_middle.
Qed.

Lemma set_up_failure_key id start now t e :
  status_key (set_up_failure id start now t e) = attempt_key t (TaskDefinition.task_attempt_num t).
Proof. done. Qed.

Lemma run_status_key id now r c :
  status_key (run_status id now r c) = attempt_key (Run.task r) (TaskDefinition.stage_attempt_num (Run.task r)).
Proof. unfold run_status, completion_status. by destruct (with_window_state c). Qed.

(** A run that has not sent its status *)
Definition unreported (r : Run.t) : option (TaskKey.t * nat) :=
  match Run.at_phase r with
  | Releasing => None
  | _ => Some (attempt_key (Run.task r) (TaskDefinition.stage_attempt_num (Run.task r)))
  end.

Definition open_keys (m : gmap nat Run.t) : list (TaskKey.t * nat) := omap unreported (map_to_list m).*2.

Lemma open_keys_insert m i r :
  m !! i = None → open_keys (<[i := r]> m) ≡ₚ omap unreported [r] ++ open_keys m.
Proof.
  intros Hi. unfold open_keys. rewrite map_to_list_insert by done. cbn. by destruct (unreported r).
Qed.

Lemma open_keys_split m i r : m !! i = Some r → open_keys m ≡ₚ omap unreported [r] ++ open_keys (delete i m).
Proof.
  intros Hi. rewrite <- (insert_delete_id m i r Hi) at 1. apply open_keys_insert, lookup_delete_eq.
Qed.

Lemma open_keys_update m i r r' :
  m !! i = Some r → open_keys (<[i := r']> m) ≡ₚ omap unreported [r'] ++ open_keys (delete i m).
Proof. intros Hi. rewrite <- insert_delete_eq. apply open_keys_insert, lookup_delete_eq. Qed.

(** The permits and the tasks are accounted for. *)
Record accounted (v : nat) (ls : list label) (s : PollLoop) : Prop := {
  permits : free_vcores s + size (runs s) = v;
  run_ids i : is_Some (runs s !! i) → i < next_run s;
  each_once :
    report_key <$> taken ls ≡ₚ
    (status_key <$> delivered ls ++ dropped ls ++ in_flight (loop s) ++ task_status_channel s) ++ open_keys (runs s);
}.

Lemma taken_snoc ls l : taken (ls ++ [l]) = taken ls ++ taken [l].
Proof. unfold taken. by rewrite omap_app. Qed.
Lemma delivered_snoc ls l : delivered (ls ++ [l]) = delivered ls ++ delivered [l].
Proof. unfold delivered. by rewrite omap_app, concat_app. Qed.
Lemma dropped_snoc ls l : dropped (ls ++ [l]) = dropped ls ++ dropped [l].
Proof. unfold dropped. by rewrite omap_app, concat_app. Qed.

(** The statuses and open tasks of a state *)
Definition known_keys (ls : list label) (s : PollLoop) : list (TaskKey.t * nat) :=
  (status_key <$> delivered ls ++ dropped ls ++ in_flight (loop s) ++ task_status_channel s) ++ open_keys (runs s).

Lemma fresh_run v ls s : accounted v ls s → runs s !! next_run s = None.
Proof.
  intros Hacc. destruct (runs s !! next_run s) eqn:E; [|done].
  assert (Hlt : next_run s < next_run s) by by apply (run_ids _ _ _ Hacc); rewrite E. lia.
Qed.

(** A step that takes [t] adds it, any other step keeps the keys. *)
Lemma step_keys v ls s l s' :
  poll_step s l s' → accounted v ls s → known_keys (ls ++ [l]) s' ≡ₚ (report_key <$> taken [l]) ++ known_keys ls s.
Proof.
  intros Hst Hacc. unfold known_keys. rewrite delivered_snoc, dropped_snoc, !fmap_app.
  step_cases Hst.
  - rewrite Hl. cbn. by rewrite ?app_nil_r.
  - rewrite Hl. cbn. rewrite ?app_nil_r, ?fmap_app, <- ?app_assoc. apply Permutation_app_head.
    apply Permutation_app_swap_app.
  - rewrite Hl. cbn. rewrite ?app_nil_r, ?fmap_app, <- ?app_assoc. done.
  - cbn. by rewrite !app_nil_r.
  - rewrite Hl. received Hr.
    cbn [taken omap list_omap fmap list_fmap app]. unfold report_key at 1, can_be_set_up.
    destruct (set_up_task task) as [e|stage]; cbn; rewrite ?app_nil_r.
    + rewrite ?fmap_app, <- !app_assoc. cbn. rewrite set_up_failure_key. symmetry.
      rewrite !app_assoc. apply Permutation_middle.
    + rewrite open_keys_insert by by eapply fresh_run. cbn. symmetry. rewrite !app_assoc. apply Permutation_middle.
  - rewrite Hl. cbn. by rewrite ?app_nil_r.
  - assert (unreported r = Some (attempt_key (Run.task r) (TaskDefinition.stage_attempt_num (Run.task r)))) as Hu by (unfold unreported; by rewrite Hp).
    cbn. rewrite !app_nil_r. f_equiv. rewrite (open_keys_update _ _ _ _ Hr), (open_keys_split _ _ _ Hr). cbn. by rewrite Hu.
  - assert (unreported r = Some (attempt_key (Run.task r) (TaskDefinition.stage_attempt_num (Run.task r)))) as Hu by (unfold unreported; by rewrite Hp).
    cbn. rewrite !app_nil_r, ?fmap_app. rewrite (open_keys_update _ _ _ _ Hr), (open_keys_split _ _ _ Hr). cbn.
    rewrite Hu, run_status_key, <- !app_assoc. done.
  - assert (unreported r = None) as Hu by (unfold unreported; by rewrite Hp).
    cbn. rewrite !app_nil_r. f_equiv. rewrite (open_keys_split _ _ _ Hr). cbn. by rewrite Hu.
Qed.

Lemma step_accounted v ls s l s' : poll_step s l s' → accounted v ls s → accounted v (ls ++ [l]) s'.
Proof.
  intros Hst Hacc. assert (Hk := step_keys _ _ _ _ _ Hst Hacc). assert (Hn := permits _ _ _ Hacc).
  assert (Hi := run_ids _ _ _ Hacc). assert (Hf := fresh_run _ _ _ Hacc). split.
  - step_cases Hst;
      cbn; try done; try by rewrite map_size_insert_Some.
    + received Hr.
      destruct (set_up_task task); cbn; [done|]. rewrite map_size_insert_None by done. lia.
    + rewrite map_size_delete_Some by done. assert (size (runs s) ≠ 0); [|lia].
      intros Hz%map_size_empty_inv. by rewrite Hz in Hr.
  - step_cases Hst;
      cbn; try done.
    + received Hr.
      destruct (set_up_task task); cbn; [done|]. intros i. destruct (decide (i = next_run s)) as [->|]; [lia|].
      rewrite lookup_insert_ne by done. intros Hs%Hi. lia.
    + intros i. destruct (decide (i = id)) as [->|]; [intros _; by apply Hi; rewrite Hr|]. rewrite lookup_insert_ne by done. apply Hi.
    + intros i. destruct (decide (i = id)) as [->|]; [intros _; by apply Hi; rewrite Hr|]. rewrite lookup_insert_ne by done. apply Hi.
    + intros i [? Hs%lookup_delete_Some]. apply Hi. naive_solver.
  - rewrite taken_snoc, fmap_app, (each_once _ _ _ Hacc). fold (known_keys ls s). fold (known_keys (ls ++ [l]) s').
    rewrite Hk. apply Permutation_app_comm.
Qed.

Lemma poll_loop_new_ok id v s :
  poll_loop_new id v = Ok s → s = mkPollLoop _ _ id v 0 ∅ [] executor_new false Waiting ∧ 0 < v.
Proof. unfold poll_loop_new. destruct (Nat.eqb_spec v 0); [done|]. intros [= <-]. split; [done|lia]. Qed.

Lemma run_accounted id v s0 ls s : poll_loop_new id v = Ok s0 → poll_run s0 ls s → accounted v ls s.
Proof.
  intros Hnew Hrun. induction Hrun as [s|s ls s1 l s2 Hrun IH Hst].
  - apply poll_loop_new_ok in Hnew as [-> _]. split; cbn; [by rewrite map_size_empty; lia|by intros i [? ?]|done].
  - eapply step_accounted; [done|by apply IH].
Qed.

(** ** The work of the tasks at hand *)

Definition phase_work (p : phase) : nat := match p with Spawned => 3 | Executing => 2 | Releasing => 1 end.

Definition runs_work (m : gmap nat Run.t) : nat := map_fold (λ _ r n, phase_work (Run.at_phase r) + n) 0 m.

Definition receiving_work (p : position) : nat := match p with Receiving tasks => S (4 * length tasks) | _ => 0 end.

Definition work (s : PollLoop) : nat := runs_work (runs s) + receiving_work (loop s).

Lemma runs_work_insert m i r : m !! i = None → runs_work (<[i := r]> m) = phase_work (Run.at_phase r) + runs_work m.
Proof. intros Hi. unfold runs_work. rewrite map_fold_insert_L; [done|intros; lia|done]. Qed.

Lemma runs_work_split m i r : m !! i = Some r → runs_work m = phase_work (Run.at_phase r) + runs_work (delete i m).
Proof. intros Hi. unfold runs_work. rewrite (map_fold_delete_L _ _ i r m); [done|intros; lia|done]. Qed.

Lemma runs_work_update m i r r' :
  m !! i = Some r → runs_work (<[i := r']> m) = phase_work (Run.at_phase r') + runs_work (delete i m).
Proof. intros Hi. rewrite <- insert_delete_eq. apply runs_work_insert, lookup_delete_eq. Qed.

Lemma work_step_works v ls s l s' : accounted v ls s → work_step s l s' → S (work s') ≤ work s.
Proof.
  intros Hacc Hst. assert (Hf := fresh_run _ _ _ Hacc). unfold work.
  destruct Hst as [s start now task rest s' Hl Hr|s Hl|s id r Hr Hp|s now id r c Hr Hp Ha|s id r Hr Hp].
  - rewrite Hl. received Hr. destruct (set_up_task task); cbn; [lia|]. rewrite runs_work_insert by done. cbn. lia.
  - rewrite Hl. cbn. lia.
  - cbn. rewrite (runs_work_update _ _ _ _ Hr), (runs_work_split _ _ _ Hr), Hp. cbn. lia.
  - cbn. rewrite (runs_work_update _ _ _ _ Hr), (runs_work_split _ _ _ Hr), Hp. cbn. lia.
  - cbn. rewrite (runs_work_split _ _ _ Hr), Hp. cbn. lia.
Qed.

Definition working (s s' : PollLoop) : Prop := ∃ l, work_step s l s'.

Lemma working_bound v ls s n s' : accounted v ls s → nsteps working n s s' → n + work s' ≤ work s.
Proof.
  intros Hacc Hn. revert ls Hacc. induction Hn as [s|n s1 s2 s3 [l Hst] Hn IH]; intros ls Hacc; [lia|].
  assert (Hw := work_step_works _ _ _ _ _ Hacc Hst).
  assert (Hacc' := step_accounted _ _ _ _ _ (step_work _ _ _ Hst) Hacc). specialize (IH _ Hacc'). lia.
Qed.

Definition returns : Collected := mkCollected (Returned (inr [])) [] [] [] (inr []).

(** A run can always go on. *)
Lemma run_goes_on s i r : runs s !! i = Some r → ∃ s', working s s'.
Proof.
  intros Hr. destruct (Run.at_phase r) eqn:Hp.
  - eexists _, _. by eapply step_start.
  - eexists _, _. by eapply (step_end s 0 i r returns).
  - eexists _, _. by eapply step_release.
Qed.

Lemma idle_is_done v ls s :
  0 < v → accounted v ls s → (∀ s', ¬ working s s') → runs s = ∅ ∧ ∀ tasks, loop s ≠ Receiving tasks.
Proof.
  intros Hv Hacc Hidle. assert (runs s = ∅) as Hruns.
  { apply map_empty. intros i. destruct (runs s !! i) as [r|] eqn:Hr; [|done].
    destruct (run_goes_on _ _ _ Hr) as [s' Hst]. by destruct (Hidle s'). }
  split; [done|]. intros tasks Hl. assert (Hp := permits _ _ _ Hacc). rewrite Hruns, map_size_empty in Hp.
  destruct tasks as [|t rest].
  - apply (Hidle (wait s)). by exists Silent; apply step_wait.
  - destruct (receive_task 0 0 t rest s) as [s'|] eqn:Hr; [apply (Hidle s'); by exists (Taken t); eapply step_receive|].
    unfold receive_task in Hr. destruct (Nat.eqb_spec (free_vcores s) 0); [lia|done].
Qed.

(** ** Permits for the tasks of an answer *)

Definition within_offer (ls : list label) : Prop :=
  ∀ n sent tasks, Delivered n sent tasks ∈ ls → (N.of_nat (length tasks) ≤ n)%N.

Definition covered (s : PollLoop) : Prop :=
  match loop s with
  | Waiting => True
  | Polling n _ => (n ≤ N.of_nat (free_vcores s))%N
  | Receiving tasks => length tasks ≤ free_vcores s
  end.

Lemma offer_bound n : (u32_of_len n ≤ N.of_nat n)%N.
Proof. unfold u32_of_len. by apply N.Div0.mod_le. Qed.

Lemma run_covered name v s0 ls s : poll_loop_new name v = Ok s0 → poll_run s0 ls s → within_offer ls → covered s.
Proof.
  intros Hnew Hrun. induction Hrun as [s0|s0 ls s1 l s2 Hrun IH Hst]; intros Hoff.
  { by apply poll_loop_new_ok in Hnew as [-> _]. }
  assert (covered s1) as Hc by (apply IH; [done|]; intros n sent tasks Hin; eapply Hoff, elem_of_app; eauto).
  unfold covered in *. step_cases Hst; cbn; rewrite ?Hl in *; try done.
  - apply offer_bound.
  - specialize (Hoff n sent tasks). rewrite elem_of_app in Hoff. assert (N.of_nat (length tasks) ≤ n)%N by (apply Hoff; set_solver). lia.
  - received Hr. cbn in Hc. destruct (set_up_task task); cbn; lia.
  - destruct (loop s); [done|lia|lia].
Qed.

(** ** The handles of running tasks *)

Definition executing (s : PollLoop) (key : TaskKey.t) (i : nat) : Prop :=
  ∃ r, runs s !! i = Some r ∧ Run.at_phase r = Executing ∧ TaskDefinition.key (Run.task r) = key.

(** When the keys of the tasks are different, the handles are those of the tasks that
    execute. *)
Record tracked (ls : list label) (s : PollLoop) : Prop := {
  tr_known i r : runs s !! i = Some r → TaskDefinition.key (Run.task r) ∈ TaskDefinition.key <$> taken ls;
  tr_distinct i j r r' :
    runs s !! i = Some r → runs s !! j = Some r' →
    TaskDefinition.key (Run.task r) = TaskDefinition.key (Run.task r') → i = j;
  tr_handles key i : abort_handles (executor s) !! key = Some i ↔ executing s key i;
}.

(** Only a step of a run changes runs or handles. *)
Lemma handles_same ls l s s' :
  runs s' = runs s → abort_handles (executor s') = abort_handles (executor s) → tracked ls s → tracked (ls ++ [l]) s'.
Proof.
  intros Hr Hh [Hk Hd Ht]. split; rewrite ?Hr, ?Hh; [|done|].
  - intros i r Hi. rewrite taken_snoc, fmap_app, elem_of_app. eauto.
  - intros key i. unfold executing. rewrite ?Hr, ?Hh. apply Ht.
Qed.

Lemma tracked_spawn ls s s' task stage start :
  runs s !! next_run s = None → TaskDefinition.key task ∉ TaskDefinition.key <$> taken ls →
  runs s' = <[next_run s := Run.mk _ _ task stage start Spawned]> (runs s) → executor s' = executor s →
  tracked ls s → tracked (ls ++ [Taken task]) s'.
Proof.
  intros Hf Hnew Hr He [Hk Hd Ht]. split; rewrite ?Hr.
  - intros i r Hi. rewrite taken_snoc, fmap_app, elem_of_app. apply lookup_insert_Some in Hi as [[_ <-]|[_ Hi]]; [right; cbn; set_solver|eauto].
  - intros i j r r' [[<- <-]|[Hi Hri]]%lookup_insert_Some [[<- <-]|[Hj Hrj]]%lookup_insert_Some; cbn; intros Heq; try done.
    + destruct Hnew. rewrite Heq. eauto.
    + destruct Hnew. rewrite <- Heq. eauto.
    + eauto.
  - intros key i. rewrite He, Ht. unfold executing. rewrite Hr. split.
    + intros (r & Hi & Hp & Hkey). exists r. rewrite lookup_insert_ne by naive_solver. done.
    + intros (r & [[_ <-]|[_ Hi]]%lookup_insert_Some & Hp & Hkey); [done|]. by exists r.
Qed.

Lemma tracked_phase ls l s s' i r p :
  runs s !! i = Some r → runs s' = <[i := in_phase p r]> (runs s) →
  (∀ key j, abort_handles (executor s') !! key = Some j ↔ executing s' key j) → tracked ls s → tracked (ls ++ [l]) s'.
Proof.
  intros Hr Hs Hh [Hk Hd Ht]. split; [| |done].
  - intros j r' Hj. rewrite taken_snoc, fmap_app, elem_of_app. left. rewrite Hs in Hj.
    apply lookup_insert_Some in Hj as [[_ <-]|[_ Hj]]; [cbn|]; eauto.
  - rewrite Hs. intros j k rj rk [[<- <-]|[Hj Hrj]]%lookup_insert_Some [[<- <-]|[Hk' Hrk]]%lookup_insert_Some; cbn; eauto.
Qed.

Lemma executing_phase s s' i r p key j :
  runs s !! i = Some r → runs s' = <[i := in_phase p r]> (runs s) →
  executing s' key j ↔ (j = i ∧ p = Executing ∧ key = TaskDefinition.key (Run.task r)) ∨ (j ≠ i ∧ executing s key j).
Proof.
  intros Hr Hs. unfold executing. rewrite Hs. split.
  - intros (r' & [[<- <-]|[Hj Hr']]%lookup_insert_Some & Hp & Hk); [left|right]; naive_solver.
  - intros [(-> & -> & ->)|[Hj (r' & Hr' & Hp & Hk)]].
    + eexists. by rewrite lookup_insert_eq.
    + exists r'. by rewrite lookup_insert_ne.
Qed.

Lemma executing_unique ls s i r key j :
  tracked ls s → runs s !! i = Some r → executing s key j → key = TaskDefinition.key (Run.task r) ↔ j = i.
Proof.
  intros Ht Hr (r' & Hr' & _ & <-). split; [intros Hk; eapply tr_distinct; eauto|intros ->]. naive_solver.
Qed.

Lemma tracked_start ls l s i r : runs s !! i = Some r → tracked ls s → tracked (ls ++ [l]) (start_run i r s).
Proof.
  intros Hr Ht. eapply (tracked_phase _ _ _ _ i r Executing); [done..| |done]. intros key j.
  rewrite (executing_phase s _ i r Executing) by done. cbn. rewrite lookup_insert_Some, tr_handles by done.
  assert (Hu := executing_unique ls s i r key j Ht Hr). naive_solver.
Qed.

Lemma tracked_end ls l s now i r c :
  runs s !! i = Some r → tracked ls s → tracked (ls ++ [l]) (end_run now i r c s).
Proof.
  intros Hr Ht. eapply (tracked_phase _ _ _ _ i r Releasing); [done..| |done]. intros key j.
  rewrite (executing_phase s _ i r Releasing) by done. cbn. rewrite lookup_delete_Some, tr_handles by done.
  assert (Hu := executing_unique ls s i r key j Ht Hr). naive_solver.
Qed.

Lemma tracked_release ls l s i r :
  runs s !! i = Some r → Run.at_phase r = Releasing → tracked ls s → tracked (ls ++ [l]) (release_run i s).
Proof.
  intros Hr Hp [Hk Hd Ht]. split; cbn.
  - intros j r' [_ Hj]%lookup_delete_Some. rewrite taken_snoc, fmap_app, elem_of_app. eauto.
  - intros j k rj rk [_ Hj]%lookup_delete_Some [_ Hk']%lookup_delete_Some. eauto.
  - intros key j. rewrite Ht. unfold executing. cbn. split; intros (r' & Hr' & Hp' & Hkey); exists r'.
    + rewrite lookup_delete_ne by (intros ->; congruence). done.
    + apply lookup_delete_Some in Hr' as [_ Hr']. done.
Qed.

Lemma run_tracked name v s0 ls s :
  poll_loop_new name v = Ok s0 → poll_run s0 ls s → NoDup (TaskDefinition.key <$> taken ls) → tracked ls s.
Proof.
  intros Hnew Hrun. induction Hrun as [s0|s0 ls s1 l s2 Hrun IH Hst]; intros Hnd.
  { apply poll_loop_new_ok in Hnew as [-> _]. split; cbn; [done..|]. intros key i. unfold executing. cbn. naive_solver. }
  rewrite taken_snoc, fmap_app in Hnd. apply NoDup_app in Hnd as (Hnd & Hnew' & _).
  specialize (IH Hnew Hnd). assert (Hf := fresh_run _ _ _ (run_accounted _ _ _ _ _ Hnew Hrun)).
  step_cases Hst; try by apply (handles_same _ _ s).
  - apply (handles_same _ _ s); [done| |done]. cbn. unfold cancel_task. by destruct (abort_handles _ !! _).
  - received Hr. destruct (set_up_task task) as [e|stage]; [by apply (handles_same _ _ s)|].
    eapply (tracked_spawn _ s); [done| |done..]. intros Hin. apply (Hnew' _ Hin). cbn. set_solver.
  - by apply tracked_start.
  - by apply tracked_end.
  - by eapply tracked_release.
Qed.

(** ** Properties of the poll loop *)

(** C12. Whatever the order of polls, answers, failures, cancellations and the steps of the
    tasks, the permits that are free and those of the runs are the vcores of the executor,
    and every task that was taken is exactly one of: reported in a status that was
    delivered, was lost with a poll that failed, is in a poll or is in the channel, or
    running. The status names the task by its job, stage and id. That of a task that ran names
    the attempt of its stage; that of a task that could not be set up has the attempt
    number of the task in the place of the attempt of the stage. *)
Theorem taken_tasks_are_reported_once name v s0 ls s :
  poll_loop_new name v = Ok s0 → poll_run s0 ls s →
  let statuses := delivered ls ++ dropped ls ++ in_flight (loop s) ++ task_status_channel s in
  free_vcores s + size (runs s) = v ∧
  wire_key <$> taken ls ≡ₚ ((status_key <$> statuses) ++ open_keys (runs s)).*1 ∧
  reports_of (taken ls) ≡ₚ (status_key <$> statuses) ++ open_keys (runs s).
Proof.
  intros Hnew Hrun. destruct (run_accounted _ _ _ _ _ Hnew Hrun) as [Hp _ Hk]. cbv zeta.
  rewrite reports_of_each. split_and!; [done| |done]. rewrite <-Hk, <-list_fmap_compose. done.
Qed.

(** C13. The steps that go through an answer and run its tasks are at most [work s], in any
    order and however tasks end; and they only end when all tasks of the answer were taken,
    no task runs and all permits are back. So the loop never waits for a permit for ever, and
    then there is a status for every task that was taken. *)
Theorem taken_tasks_finish name v s0 ls s :
  poll_loop_new name v = Ok s0 → poll_run s0 ls s →
  (∀ n s', nsteps working n s s' → n + work s' ≤ work s) ∧
  ((∀ s', ¬ working s s') →
   runs s = ∅ ∧ free_vcores s = v ∧ (∀ tasks, loop s ≠ Receiving tasks) ∧
   reports_of (taken ls) ≡ₚ status_key <$> delivered ls ++ dropped ls ++ in_flight (loop s) ++ task_status_channel s).
Proof.
  intros Hnew Hrun. assert (Hacc := run_accounted _ _ _ _ _ Hnew Hrun). apply poll_loop_new_ok in Hnew as [_ Hv].
  split; [intros n s'; by eapply working_bound|]. intros Hidle.
  destruct (idle_is_done _ _ _ Hv Hacc Hidle) as [Hruns Hl]. destruct Hacc as [Hp _ Hk].
  rewrite Hruns in Hp, Hk. rewrite map_size_empty in Hp. unfold open_keys in Hk. rewrite map_to_list_empty in Hk. cbn in Hk.
  rewrite app_nil_r in Hk. rewrite reports_of_each. split_and!; [done|lia|done..].
Qed.

(** C40. As long as the tasks of an executor have different keys, cancelling a key finds a
    task exactly when one with that key executes and marks that run and no other; the
    tasks are drained exactly when none executes. *)
Theorem cancel_reaches_the_running_task name v s0 ls s key :
  poll_loop_new name v = Ok s0 → poll_run s0 ls s → NoDup (TaskDefinition.key <$> taken ls) →
  ((cancel_task key (executor s)).1 = true ↔ ∃ i, executing s key i) ∧
  (∀ i, i ∈ aborted (cancel_task key (executor s)).2 ↔ i ∈ aborted (executor s) ∨ executing s key i) ∧
  (tasks_drained (executor s) = true ↔ ∀ key' i, ¬ executing s key' i).
Proof.
  intros Hnew Hrun Hnd. assert (Ht := tr_handles _ _ (run_tracked _ _ _ _ _ Hnew Hrun Hnd)).
  unfold cancel_task. split_and!.
  - destruct (abort_handles _ !! key) as [i|] eqn:E; split; try done.
    + intros _. exists i. by apply Ht.
    + intros [i Hi%Ht]. congruence.
  - intros i. rewrite <- Ht. destruct (abort_handles _ !! key) as [j|] eqn:E; cbn; [set_solver|naive_solver].
  - unfold tasks_drained. rewrite bool_decide_eq_true, map_empty. split.
    + intros He key' i Hi%Ht. by rewrite He in Hi.
    + intros He key'. destruct (_ !! key') as [i|] eqn:E; [|done]. by apply Ht, He in E.
Qed.

(** When the scheduler answers with at most as many tasks as the poll offered vcores, there
    is a permit for each of them at once. *)
Theorem answers_within_the_offer_never_wait name v s0 ls s start now task rest :
  poll_loop_new name v = Ok s0 → poll_run s0 ls s → within_offer ls → loop s = Receiving (task :: rest) →
  is_Some (receive_task start now task rest s).
Proof.
  intros Hnew Hrun Hoff Hl. assert (Hc := run_covered _ _ _ _ _ Hnew Hrun Hoff). unfold covered in Hc. rewrite Hl in Hc.
  cbn in Hc. unfold receive_task. destruct (Nat.eqb_spec (free_vcores s) 0); [lia|]. by destruct (set_up_task task).
Qed.
End accounting.

(** ** Statuses of pushed tasks *)

Section server_facts.
Context `{EngineOps} `{HashOrder}.

Definition statuses_for (e : string) (fetched : list (string * TaskStatus.t)) : list TaskStatus.t :=
  (filter (λ s, s.1 = e) fetched).*2.

Lemma status_map_lookup fetched e :
  curator_task_status_map fetched !! e = match statuses_for e fetched with [] => None | sts => Some sts end.
Proof.
  unfold curator_task_status_map, statuses_for. induction fetched as [|[e' ts] fetched IH] using rev_ind; [done|].
  rewrite foldl_app, filter_app, fmap_app. cbn [foldl fst snd]. destruct (decide (e' = e)) as [->|Hne].
  - rewrite lookup_insert_eq, IH, filter_cons_True by done. by destruct (filter _ fetched) as [|x l].
  - rewrite lookup_insert_ne, filter_cons_False by done. by rewrite app_nil_r.
Qed.

(** A round of the reporter sends each scheduler that is reached one message, with the
    statuses of its tasks in the order in which they came. *)
Theorem reporter_sends_each_scheduler_its_statuses reached fetched :
  NoDup (report_statuses reached fetched).*1 ∧
  ∀ e sts, (e, sts) ∈ report_statuses reached fetched ↔ reached e = true ∧ sts = statuses_for e fetched ∧ sts ≠ [].
Proof.
  unfold report_statuses. split.
  - eapply sublist_NoDup, fmap_sublist, sublist_filter. rewrite iter_entries_perm. apply NoDup_fst_map_to_list.
  - intros e sts. rewrite list_elem_of_filter, iter_entries_perm, elem_of_map_to_list, status_map_lookup. cbn.
    destruct (statuses_for e fetched); naive_solver.
Qed.

(** The statuses of a round that are not sent are gone. *)
Lemma unreached_scheduler_gets_nothing reached fetched e sts :
  reached e = false → (e, sts) ∉ report_statuses reached fetched.
Proof. intros He. rewrite (proj2 (reporter_sends_each_scheduler_its_statuses reached fetched)). rewrite He. naive_solver. Qed.

(** The status of a pushed task names the task and the attempt of its stage, whether or not
    it could be set up. *)
Lemma pushed_status_key name start now ct c :
  (run_task name start now ct c).1 = ct.1 ∧
  status_key (run_task name start now ct c).2 = attempt_key ct.2.1 (TaskDefinition.stage_attempt_num ct.2.1).
Proof.
  unfold run_task, completion_status. cbn. destruct (set_up_pushed ct.2); [done|]. by destruct (with_window_state c).
Qed.

(** A task succeeds exactly when its future returned partitions and its window states
    could be collected; an aborted one is reported as killed, which may be retried and does
    not count as a failure. *)
Lemma completion_outcome name attempt key times c :
  match TaskStatus.status (completion_status name attempt key times c) with
  | Some (Successful st) =>
      c_execution c = Returned (inr (SuccessfulTask.partitions st)) ∧ c_window_state c = inr (SuccessfulTask.window_state st)
  | Some (Failed f) =>
      (∀ partitions reports, c_execution c = Returned (inr partitions) → c_window_state c ≠ inr reports) ∧
      (c_execution c = Aborted → f = mkFailedTask (Lit "Task cancelled") true false (Some FR_TaskKilled))
  | _ => False
  end.
Proof.
  unfold completion_status, with_window_state, execution_result.
  destruct (c_execution c) as [[e|ps]| |msg] eqn:Hx; cbn; [split; congruence| |split; [congruence|done]|split; congruence].
  destruct (c_window_state c) as [e|reports] eqn:Hw; cbn; [|done]. split; [congruence|done].
Qed.
End server_facts.

(** ** Heartbeats *)

(** Leading failures *)
Definition fails_from (n : nat) (outcomes : list bool) : Prop := ∃ after, outcomes = replicate n false ++ after.

Definition fails_within (n : nat) (outcomes : list bool) : Prop := ∃ before, ∃ rest, outcomes = before ++ rest ∧ fails_from n rest.

Lemma fails_from_S n o outcomes : fails_from (S n) (o :: outcomes) ↔ o = false ∧ fails_from n outcomes.
Proof. unfold fails_from. cbn. naive_solver. Qed.

Lemma fails_from_le m n outcomes : m ≤ n → fails_from n outcomes → fails_from m outcomes.
Proof.
  intros Hle [after ->]. exists (replicate (n - m) false ++ after). rewrite app_assoc, <- replicate_add. do 2 f_equal. lia.
Qed.

Lemma fails_within_cons n o outcomes : fails_within n (o :: outcomes) ↔ fails_from n (o :: outcomes) ∨ fails_within n outcomes.
Proof.
  unfold fails_within. split.
  - intros ([|b before] & rest & Heq & Hf); [left; cbn in Heq; by subst|]. injection Heq as -> ->. eauto 10.
  - intros [Hf|(before & rest & -> & Hf)]; [by exists [], (o :: outcomes)|]. by exists (o :: before), rest.
Qed.

Lemma heartbeats_none n outcomes :
  n < HEARTBEAT_FAILURE_TERMINATION_THRESHOLD →
  heartbeats n outcomes = None ↔
  fails_from (HEARTBEAT_FAILURE_TERMINATION_THRESHOLD - n) outcomes ∨ fails_within HEARTBEAT_FAILURE_TERMINATION_THRESHOLD outcomes.
Proof.
  remember HEARTBEAT_FAILURE_TERMINATION_THRESHOLD as T eqn:HTd. assert (HT : 0 < T) by (rewrite HTd; cbv; lia).
  assert (HF : ∀ o l, fails_from T (o :: l) ↔ o = false ∧ fails_from (pred T) l).
  { intros o l. rewrite <- fails_from_S. by replace (S (pred T)) with T by lia. }
  revert n. induction outcomes as [|o outcomes IH]; intros n Hn.
  { split; [done|]. intros [[after Ha]|(b & r & Heq & [after Ha])].
    - destruct (T - n) eqn:E; [lia|done].
    - symmetry in Heq. apply app_nil in Heq as [_ ->]. destruct T; [lia|done]. }
  assert (HS : T - n = S (T - S n)) by lia. rewrite fails_within_cons, HF, HS, fails_from_S.
  destruct o; cbn [heartbeats].
  - rewrite IH, Nat.sub_0_r by done. split; [|naive_solver].
    intros [Hf|Hw]; [|naive_solver]. right. right. exists [], outcomes. done.
  - rewrite <- HTd. destruct (Nat.leb_spec T (S n)).
    + split; [intros _; left|done]. split; [done|]. replace (T - S n) with 0 by lia. by exists outcomes.
    + rewrite IH by lia. split; [naive_solver|].
      intros [[_ Hf]|[[_ Hf]|Hw]]; [by left| |by right]. left. eapply fails_from_le; [|exact Hf]. lia.
Qed.

(** The heartbeater ends the executor exactly when five heartbeats in a row fail. *)
Theorem heartbeats_end_after_five_failures outcomes :
  heartbeats 0 outcomes = None ↔ ∃ before after, outcomes = before ++ replicate 5 false ++ after.
Proof.
  rewrite heartbeats_none by (cbv; lia). split.
  - intros [[after Hf]|(before & rest & -> & after & ->)]; [by exists [], after|by exists before, after].
  - intros (before & after & ->). right. by exists before, (replicate 5 false ++ after); split; [|exists after].
Qed.

(** ** What gets lost *)

Lemma u32_le n : u32_of_nat n ≤ n.
Proof. unfold u32_of_nat. assert (Z.of_nat n `mod` 2 ^ 32 ≤ Z.of_nat n)%Z by (apply Z.mod_le; lia). lia. Qed.

(** The poll loop reports a task that it cannot set up with the attempt of the task in the
    place of the attempt of the stage. When it is less than the latter, the graph takes the
    status for one of an older attempt: the task stays running for the scheduler. *)
Theorem set_up_failure_is_ignored `{EngineOps, PlanOps} name start now task e at_ job meta mtf msf sid c :
  TaskDefinition.task_attempt_num task < RunningStage.stage_attempt_num (rc_stage c) →
  process_running_status at_ job meta mtf msf sid (set_up_failure name start now task e) c = (Ok tt, c).
Proof.
  intros Hlt. unfold process_running_status. rewrite (proj2 (Nat.ltb_lt _ _)); [done|].
  eapply Nat.le_lt_trans; [apply u32_le|done].
Qed.

(** An engine that sets up the tasks with a plan and runs them *)
#[export] Instance sample_engine : EngineOps := {|
  PlanData := bool; TaskRuntime := unit; DecodedPlan := unit; QueryStage := unit;
  produce_runtime_for_session _ _ _ := inr tt;
  decode_plan _ plan := if plan then inr tt else inl (DF_Other "no plan");
  create_query_stage_exec _ _ _ _ _ := inr tt;
  find_root e := e;
  debug_fmt _ := "error";
|}.

Definition sample_task (id task_attempt stage_attempt : nat) (plan : bool) (vcores : N) : TaskDefinition.t :=
  TaskDefinition.mk _ _ id task_attempt "job" 1 stage_attempt plan "session" 0 [] [] vcores.

Definition idle_executor (vcores : nat) : PollLoop := mkPollLoop _ _ "e" vcores 0 ∅ [] executor_new false Waiting.

Definition played (vcores : nat) (actions : list action) : list label * PollLoop :=
  default ([], idle_executor vcores) (play actions (idle_executor vcores)).

Lemma played_run vcores actions :
  is_Some (play actions (idle_executor vcores)) →
  poll_run (idle_executor vcores) (played vcores actions).1 (played vcores actions).2.
Proof. unfold played. intros [[ls s'] Hp]. rewrite Hp. by eapply play_run. Qed.

(** Two tasks, of which the second cannot be set up; the poll that says so fails while the
    first still runs. *)
Definition two_tasks : list action :=
  [Poll; Answer [sample_task 0 0 0 true 1; sample_task 1 0 0 false 1]; Receive 1 1; Receive 2 3; Start 0; Wait; Poll; Fail_poll].

Lemma taken_tasks_are_reported_once_witness :
  let s := (played 2 two_tasks).2 in
  free_vcores s = 1 ∧ size (runs s) = 1 ∧
  [(TaskKey.mk "job" 1 0, 0); (TaskKey.mk "job" 1 1, 0)] ≡ₚ
    (status_key <$> dropped (played 2 two_tasks).1) ++ open_keys (runs s).
Proof.
  destruct (taken_tasks_are_reported_once "e" 2 (idle_executor 2) (played 2 two_tasks).1 (played 2 two_tasks).2 eq_refl
    (played_run 2 two_tasks ltac:(by vm_compute; eexists))) as (Hp & _ & Hk).
  split_and!; [by vm_compute|by vm_compute|]. vm_compute in Hk. vm_compute. exact Hk.
Defined.

(** The first task ends by being cancelled, and everything is delivered. *)
Definition killed : Collected := mkCollected Aborted [] [] [] (inr []).

Definition two_tasks_end : list action :=
  two_tasks ++ [Cancel (TaskKey.mk "job" 1 0); End_ 5 0 killed; Release 0; Poll; Answer []; Wait].

Lemma played_idle : ∀ s', ¬ working (played 2 two_tasks_end).2 s'.
Proof.
  intros s' [l Hst]. assert (Hr : runs (played 2 two_tasks_end).2 = ∅) by by vm_compute.
  assert (Hl : loop (played 2 two_tasks_end).2 = Waiting) by by vm_compute.
  inversion Hst; subst; (rewrite Hl in *; done) || (rewrite Hr in *; done).
Qed.

Lemma taken_tasks_finish_witness :
  let ls := (played 2 two_tasks_end).1 in
  work (played 2 two_tasks).2 = 2 ∧ free_vcores (played 2 two_tasks_end).2 = 2 ∧
  reports_of (taken ls) ≡ₚ status_key <$> delivered ls ++ dropped ls.
Proof.
  destruct (taken_tasks_finish "e" 2 (idle_executor 2) (played 2 two_tasks_end).1 (played 2 two_tasks_end).2 eq_refl
    (played_run 2 two_tasks_end ltac:(by vm_compute; eexists))) as [_ Hk].
  destruct (Hk played_idle) as (_ & Hf & _ & Hp). split_and!; [by vm_compute|exact Hf|]. vm_compute in Hp. vm_compute. exact Hp.
Defined.

Lemma cancel_reaches_the_running_task_witness :
  let e := executor (played 2 two_tasks).2 in
  (cancel_task (TaskKey.mk "job" 1 0) e).1 = true ∧ (cancel_task (TaskKey.mk "job" 1 1) e).1 = false ∧
  0 ∈ aborted (cancel_task (TaskKey.mk "job" 1 0) e).2.
Proof.
  assert (executing (played 2 two_tasks).2 (TaskKey.mk "job" 1 0) 0) as He by (vm_compute; by eexists).
  destruct (cancel_reaches_the_running_task "e" 2 (idle_executor 2) (played 2 two_tasks).1 (played 2 two_tasks).2
    (TaskKey.mk "job" 1 0) eq_refl (played_run 2 two_tasks ltac:(by vm_compute; eexists))
    ltac:(apply (bool_decide_unpack _); by vm_compute)) as (Hc & Ha & _).
  split_and!; [apply Hc; by exists 0|by vm_compute|apply Ha; by right].
Defined.

(** *** A poll that fails *)

Definition lost_poll : list action :=
  [Poll; Answer [sample_task 0 0 0 true 1]; Receive 1 1; Wait; Start 0; End_ 2 0 returns; Release 0; Poll; Fail_poll].

(** The status of a task that has succeeded was in a poll that failed: the scheduler does
    not have it and the executor does not send it again. *)
Theorem failed_poll_loses_statuses :
  let '(ls, s) := played 2 lost_poll in
  poll_run (idle_executor 2) ls s ∧ taken ls = [sample_task 0 0 0 true 1] ∧ delivered ls = [] ∧
  task_status_channel s = [] ∧ runs s = ∅ ∧ loop s = Waiting.
Proof.
  assert (Hrun := played_run 2 lost_poll ltac:(by vm_compute; eexists)). destruct (played 2 lost_poll) as [ls s] eqn:E.
  split; [exact Hrun|]. vm_compute in E. injection E as <- <-. by vm_compute.
Qed.

(** *** Tasks of more than one vcore *)

Definition vcores_of (tasks : list TaskDefinition.t) : N := foldr (λ t n, TaskDefinition.vcores_consumed t + n)%N 0%N tasks.

Definition within_vcores (l : label) : bool :=
  match l with Delivered n _ tasks => (vcores_of tasks <=? n)%N | _ => true end.

Definition wide_tasks : list action :=
  [Poll; Answer [sample_task 0 0 0 true 4]; Receive 1 1; Wait; Start 0; Poll; Answer [sample_task 1 0 0 true 3]; Receive 2 2; Start 1].

(** A task takes one permit whatever its vcores: with four vcores taken the executor still
    offers three, and then runs tasks of seven although each answer is within the offer. *)
Theorem wide_tasks_overbook :
  let '(ls, s) := played 4 wide_tasks in
  poll_run (idle_executor 4) ls s ∧ forallb within_vcores ls = true ∧
  vcores_of (Run.task <$> (map_to_list (runs s)).*2) = 7%N ∧ poll_work_params s = (2%N, []).
Proof.
  assert (Hrun := played_run 4 wide_tasks ltac:(by vm_compute; eexists)). destruct (played 4 wide_tasks) as [ls s] eqn:E.
  split; [exact Hrun|]. vm_compute in E. injection E as <- <-. by vm_compute.
Qed.

(** *** A key that is used again *)

Definition reused_key : list action :=
  [Poll; Answer [sample_task 0 0 0 true 1]; Receive 1 1; Wait; Start 0; Cancel (TaskKey.mk "job" 1 0);
   Poll; Answer [sample_task 0 0 1 true 1]; Receive 2 2; Wait; Start 1; End_ 3 0 killed].

(** The key of a task does not hold its attempt, and the next attempt of a stage uses the
    same ids again. A cancelled task that ends after the next attempt has begun removes the
    handle of the latter: that task executes, but cannot be cancelled, and the executor
    counts as drained. *)
Theorem reused_key_detaches_a_task :
  let '(ls, s) := played 2 reused_key in
  poll_run (idle_executor 2) ls s ∧ executing s (TaskKey.mk "job" 1 0) 1 ∧
  (cancel_task (TaskKey.mk "job" 1 0) (executor s)).1 = false ∧ tasks_drained (executor s) = true.
Proof.
  assert (Hrun := played_run 2 reused_key ltac:(by vm_compute; eexists)). destruct (played 2 reused_key) as [ls s] eqn:E.
  split; [exact Hrun|]. vm_compute in E. injection E as <- <-. split; [|by vm_compute]. vm_compute. by eexists.
Qed.
